(* ===== verification/_CoqProject ===== *)
-Q . S2P
Prelude.v
KvEngine.v
MvccTypes.v
Codec.v
Hlc.v
Mvcc.v
MvccSpec.v
MvccRefine.v
MvccRecover.v
MvccWorld.v
MvccApply.v
MvccQuery.v
MvccBatch.v
MvccSafety.v
RegionMeta.v
TxnProg.v
Coordinator.v
Client.v
Halts.v
Recovery.v
TxnStore.v
MvccTxnStore.v
TwoPhase.v
TxnWorld.v
Conform.v
Atomicity.v
ClusterRuns.v
Latch.v
LatchSafety.v
MetaTypes.v
MetaState.v
MetaDemo.v
MetaStep.v
MetaInv.v
MetaKeep.v
MetaDedup.v
MetaSafety.v
MetaSnapshot.v
Planner.v
PlannerSafety.v
Wire.v
Scheduler.v
SchedulerSafety.v
RaftTypes.v
RaftNode.v
RaftPersist.v
RaftGhost.v
RaftMoves.v
RaftEvolve.v
RaftCluster.v
RaftRel.v
RaftView.v
RaftSim.v
RaftReplicate.v
RaftInstall.v
RaftSafety.v
RaftTheorems.v
RaftReads.v
RaftMembership.v
Topology.v
TopologySafety.v
