(* ===== verification/Prelude.v ===== *)
(** * StrataKV: a verification development

    StrataKV is a distributed transactional key-value store: an MVCC storage
    layer over a key-value engine, replicated per Region by Raft; a timestamp
    oracle; a replicated metadata service that owns the Region catalog.  This
    library translates the code under src/src/ into executable Rocq definitions
    and proves what each part promises to the others.

    ** Conventions

    [uint64_t] is [N], with every addition wrapped at 64 bits ([add64]); [int] is
    [Z]; a C++ string is [string].  An exception is a value of [result], a status
    code is a value of the code's enumeration, a failed [myAssert] of the Raft
    code is the [Exit] outcome, which ends the process with its disk as it is.
    Mutable members are the fields of a record that every operation takes and
    returns.  Wall clocks, file-system outcomes and the randomness of timeouts
    are arguments.  The third-party key-value engine (RocksDB) is the class
    [KvEngine.KVEngine], whose laws are its documented behaviour, with the
    in-memory map as an instance.

    ** Storage and transactions (src/src/storage, src/src/transaction)

    - [KvEngine]: the engine interface, its batches, prefix scans and the
      snapshot dump of rocksdb_kv_engine.cpp.
    - [MvccTypes], [Codec]: the records of mvcc_storage.h and their encodings.
    - [Hlc]: the hybrid logical clock and the persistent timestamp oracle of
      timestamp_oracle.cpp; over any run with crashes, failed writes and an
      arbitrary clock the issued timestamps increase strictly.
    - [Mvcc]: every operation of [MvccStorage] (mvcc_storage.cpp): reads, the
      prepare functions, the direct operations, replicated apply, recovery,
      garbage collection.
    - [MvccSpec]: an abstract machine of one key (lock, write records, data), its
      actions and invariant.  [MvccRefine], [MvccRecover], [MvccWorld] show that
      each operation of the store performs enabled actions of that machine and
      keeps the in-memory indexes in step with the engine, also after a restart.
    - [MvccApply], [MvccQuery], [MvccBatch]: the apply paths, the status queries
      and scans, the batched operations.
    - [MvccSafety]: runs of a store with concurrent transactions, delayed and
      replayed commands, garbage collection and restarts.  Snapshot reads are
      stable, decisions are final, the first committer wins (in pessimistic mode
      too, against the openspec), outcomes exclude each other, a restart changes
      nothing a client can see but drops locks whose transaction is finished.  The
      clients give commits a timestamp of their own, issued after the lock was
      placed ([commit_ok]); the store does not check that, the coordinator does it.

    ** Distributed transactions (src/src/transaction, src/src/sdk)

    - [TxnProg]: class [Transaction], and the language of programs in which the
      next four files are written: trees of requests, timestamps and clock
      readings, so that answers can come late, twice or not at all.
    - [Coordinator] (distributed_transaction_coordinator.cpp), [Client]
      (sdk/client.cpp), [Recovery] (lock_resolver.cpp, txn_recovery_manager.cpp):
      every method as a program.  [Halts]: the two unbounded loops of [Commit] end
      when timestamps grow and the clock goes on.
    - [TxnStore]: the class of stores that the two-phase commit relies on;
      [MvccTxnStore]: [MvccStorage] is an instance of it.
    - [TwoPhase]: the protocol as what a session may send and conclude.
      [TxnWorld]: stores, sessions and recovery workers as one transition system,
      where programs that follow the protocol keep transactions atomic.
      [Conform]: the coordinator, the client library and the recovery code follow
      it.  [Atomicity]: the theorems for the cluster.  [ClusterRuns]: concrete
      runs, as instances and as counterexamples: recovery that meets a transaction
      whose primary is not prewritten yet, and applications that roll back after
      an exception or an unknown result.
    - [Latch] and [Scheduler]: [NodeLatchManager] and [NodeTxnScheduler]
      (txn_scheduler.cpp), every method cut into the sections between which
      another thread can run.  [LatchSafety]: holders of latches do not conflict,
      waiting ends, a release reports whom it made ready.  [SchedulerSafety]: over
      all interleavings every completion is called once and commands at work hold
      their latches; a Region removed at the wrong moment leaks a latch.

    In this world a key has one home Region for the whole run, the collector does
    not run, a request takes effect on its store in one step, and an application
    does not call [Rollback] after [Commit] has thrown or returned an unknown
    result ([ClusterRuns] shows that it must not).  Atomicity and durability of
    acknowledged commits hold of the runs whose recovery requests are
    [TxnWorld.undisturbed]: one that may roll back a primary without any trace of
    the transaction runs only when the session has left its open phase, and none
    commits a lock without a value.  [Atomicity.cluster_step] has no such
    condition, as the code has none, and [ClusterRuns] has a run of it in which an
    acknowledged transaction loses a write.

    ** Regions and metadata (src/src/transaction/region_metadata.cpp, src/src/metadata)

    - [RegionMeta]: Region descriptors and the catalog that partitions the keys.
    - [MetaTypes], [MetaState]: the metadata state machine
      (metadata_state_machine.cpp), one definition per command.
    - [MetaStep], [MetaInv], [MetaKeep]: the invariant of a published state and
      that every command keeps it; [MetaDedup]: retried commands; [MetaSafety]:
      the properties over runs; [MetaSnapshot]: encoding and restoring the state;
      [MetaDemo]: a concrete run.  Runs are of orderly commands (MetaKeep.v); a
      snapshot can be restored when peers are at the endpoints of their Stores
      ([MetaSnapshot.restorable]), which a Store that moves breaks.
    - [Planner] (auto_balancer_planner.cpp, in binary64 arithmetic), [Topology]
      (topology_operation_coordinator.cpp, auto_balancer.cpp).  [PlannerSafety]:
      what the planner proposes under a new identifier is admitted by the state
      machine and stays within the budgets.  [TopologySafety]: what driving an
      operator does to the metadata, which changes through the commands of the
      drive only; splits driven by the coordinator never take effect, nor do moves
      when a command is applied at most once.

    ** Replication (src/src/raft)

    - [Wire]: the replicated command envelope of util.h.
    - [RaftTypes], [RaftNode]: the state of class [Raft] and its member functions
      (raft.cpp), each as the section it runs under the mutex.
    - [RaftPersist]: the bytes of the Raft state file and class [Persister], with
      the writes of each operation in order, so a crash can fall between them.
    - [RaftCluster]: a group of nodes and a network that loses, repeats, delays
      and reorders messages, with crashes between operations.
    - [RaftGhost], [RaftMoves], [RaftEvolve]: a history of the group (votes,
      elections, the log of each leader, what is committed) and its invariant.
      [RaftRel], [RaftView], [RaftSim], [RaftReplicate], [RaftInstall],
      [RaftSafety]: every step of every node is a sequence of moves of the
      history.
    - [RaftTheorems]: election safety, log matching, leader completeness and
      state machine safety over all runs.  [RaftReads]: reads through [ReadIndex]
      are linearizable.  [RaftMembership]: membership changes and the compaction
      policy.

    ** Bounds and fuel

    Loops over containers are structural.  The Raft loops that count down over
    log indexes carry the distance they walk as fuel, which is what the C++ loop
    condition allows; the reader of the Raft state file recurses on the entry
    count of the header; a snapshot transfer has one step per byte at most, and
    sends chunks of 256 KiB.  The two loops of [Commit] take a number of rounds;
    [Halts.Commit_terminates] gives the number that is enough for a budget.  Raft
    terms and indexes are not wrapped at 32 bits.

    ** Not modelled

    Condition variables and timers: a thread may act at any time.  Operations of
    the Raft node, the stores and the metadata run under the lock they take in
    the code, as one step; only the scheduler is cut finer.  In the Raft group
    the membership is fixed, file writes succeed and crashes fall between
    operations ([RaftPersist] treats crashes inside them: the first one is atomic
    for [persistAppended], a later append can bring lost entries back); Boost archives of older
    versions are a parameter.

    Left out as a whole: the apply loop and RPC handlers of a Region replica
    (region_peer.cpp) and the RPC client of it (raft_mvcc_storage.cpp), which tie
    the modelled parts together with threads and sockets; the RPC services around
    the metadata state machine and their client; Region caches, channels and retry
    of the client; node start-up, heartbeats, command-line tools, configuration
    parsing, the RPC framework, and tests, which are I/O. *)

From Stdlib Require Export NArith Ascii String Lia.
From stdpp Require Export sorting tactics numbers.
From stdpp Require Export base list gmap strings.

#[global] Set Default Goal Selector "!".

Declare Scope strata_scope.
Delimit Scope strata_scope with strata.
Open Scope strata_scope.

(** ** Machine integers *)

(** [uint64_t] is modelled by [N]; every addition the source performs on it is
    written with [add64], which wraps around. *)
Definition u64_max : N := 18446744073709551615.
Definition u64_size : N := 18446744073709551616.

Definition wrap64 (n : N) : N := n mod u64_size.
Definition add64 (a b : N) : N := wrap64 (a + b).

Notation "a +₆₄ b" := (add64 a b) (at level 50, left associativity) : strata_scope.

Definition fits64 (n : N) : Prop := (n < u64_size)%N.

(** ** Ordered traversal of a [std::map] keyed by [uint64_t]

    The map itself is a [gmap N V]; [om_list] lists it in ascending key order,
    the order in which a C++ iterator visits it. *)
Section ordered.
Context {V : Type}.
Implicit Types (m : gmap N V) (p q : N * V).

Definition key_le p q : Prop := (p.1 ≤ q.1)%N.
Definition key_lt p q : Prop := (p.1 < q.1)%N.

#[global] Instance key_le_dec p q : Decision (key_le p q).
Proof. unfold key_le. apply _. Defined.

#[global] Instance key_le_trans : Transitive key_le.
Proof. intros x y z. unfold key_le. lia. Qed.

#[global] Instance key_le_total : Total key_le.
Proof. intros x y. unfold key_le. lia. Qed.

Definition om_list m : list (N * V) := merge_sort key_le (map_to_list m).

(** [upper_bound(ts)] followed by a walk towards [begin()]: the entries with a
    key at most [ts], newest first. *)
Definition om_down m (ts : N) : list (N * V) :=
  reverse (filter (λ p, (p.1 ≤ ts)%N) (om_list m)).

(** [rbegin()->first]: the greatest key, if any. *)
Definition om_last_key m : option N := fst <$> last (om_list m).

Lemma elem_of_om_list m k v : (k, v) ∈ om_list m ↔ m !! k = Some v.
Proof. unfold om_list. rewrite merge_sort_Permutation. apply elem_of_map_to_list. Qed.

Lemma om_list_NoDup m : NoDup ((om_list m).*1).
Proof. unfold om_list. rewrite merge_sort_Permutation. apply NoDup_fst_map_to_list. Qed.

Lemma om_list_sorted_le m : StronglySorted key_le (om_list m).
Proof. apply (StronglySorted_merge_sort key_le). Qed.

Lemma om_list_sorted m : StronglySorted key_lt (om_list m).
Proof.
  generalize (om_list_NoDup m) (om_list_sorted_le m).
  induction (om_list m) as [|p l IH]; intros Hnd Hs; [constructor|].
  apply StronglySorted_cons in Hs as [Hp Hs]. cbn in Hnd.
  apply NoDup_cons in Hnd as [Hni Hnd].
  apply StronglySorted_cons. split; [|by apply IH].
  apply Forall_forall. intros q Hq. rewrite Forall_forall in Hp.
  specialize (Hp q Hq). unfold key_le, key_lt in *.
  assert (q.1 ≠ p.1) by (intros He; apply Hni; rewrite <- He; by apply list_elem_of_fmap_2).
  lia.
Qed.

Lemma om_list_empty : om_list (∅ : gmap N V) = [].
Proof. unfold om_list. by rewrite map_to_list_empty. Qed.

(** [m.size()] *)
Lemma om_list_length m : length (om_list m) = size m.
Proof. unfold om_list. by rewrite merge_sort_Permutation, length_map_to_list. Qed.

Lemma elem_of_om_down m ts k v :
  (k, v) ∈ om_down m ts ↔ m !! k = Some v ∧ (k ≤ ts)%N.
Proof.
  unfold om_down. rewrite elem_of_reverse, list_elem_of_filter, elem_of_om_list.
  simpl. tauto.
Qed.

Lemma StronglySorted_reverse {A} (R : relation A) l :
  StronglySorted R l → StronglySorted (flip R) (reverse l).
Proof.
  induction 1 as [|p l Hl IH Hp]; [constructor|].
  rewrite reverse_cons. apply StronglySorted_app_2; [|exact IH|by apply SSorted_cons; [apply SSorted_nil|apply Forall_nil_2]].
  intros x y Hx Hy. rewrite elem_of_reverse in Hx.
  apply list_elem_of_singleton in Hy as ->. rewrite Forall_forall in Hp. exact (Hp x Hx).
Qed.

Lemma StronglySorted_filter {A} (R : relation A) (P : A → Prop)
    `{∀ x, Decision (P x)} l :
  StronglySorted R l → StronglySorted R (filter P l).
Proof.
  induction 1 as [|p l Hl IH Hp]; [constructor|].
  rewrite filter_cons. case_decide; [|done].
  constructor; [done|]. rewrite Forall_forall in *. intros x Hx.
  apply list_elem_of_filter in Hx. naive_solver.
Qed.

Lemma om_down_sorted m ts : StronglySorted (flip key_lt) (om_down m ts).
Proof. apply StronglySorted_reverse, StronglySorted_filter, om_list_sorted. Qed.

(** Two strictly sorted listings with the same elements are the same list, so
    a traversal is determined by the entries it visits. *)
Lemma sorted_ext {A} (R : relation A) `{!Irreflexive R} `{!Transitive R} l1 l2 :
  StronglySorted R l1 → StronglySorted R l2 →
  (∀ x, x ∈ l1 ↔ x ∈ l2) → l1 = l2.
Proof.
  intros H1. revert l2. induction H1 as [|x l1 H1 IH Hx]; intros l2 H2 Heq.
  - destruct l2 as [|y l2]; [done|]. specialize (Heq y). set_solver.
  - destruct H2 as [|y l2 H2 Hy]; [specialize (Heq x); set_solver|].
    rewrite Forall_forall in Hx, Hy. setoid_rewrite elem_of_cons in Heq.
    assert (x = y) as ->.
    { destruct (proj1 (Heq x)) as [|Hxl]; [by left|done|].
      destruct (proj2 (Heq y)) as [|Hyl]; [by left|done|].
      exfalso. apply (irreflexivity R x). transitivity y; auto. }
    f_equal. apply IH; [done|]. intros p. split; intros Hp.
    + destruct (proj1 (Heq p)) as [->|]; [by right| |done].
      exfalso. apply (irreflexivity R y); auto.
    + destruct (proj2 (Heq p)) as [->|]; [by right| |done].
      exfalso. apply (irreflexivity R y); auto.
Qed.

#[global] Instance key_lt_irrefl : Irreflexive key_lt.
Proof. intros x. unfold key_lt, complement. lia. Qed.

#[global] Instance key_lt_trans : Transitive key_lt.
Proof. intros x y z. unfold key_lt. lia. Qed.

#[global] Instance flip_key_lt_irrefl : Irreflexive (flip key_lt).
Proof. intros x. unfold flip, key_lt, complement. lia. Qed.

#[global] Instance flip_key_lt_trans : Transitive (flip key_lt).
Proof. intros x y z. unfold flip, key_lt. lia. Qed.

Lemma om_down_ext m1 m2 ts :
  (∀ k, (k ≤ ts)%N → m1 !! k = m2 !! k) → om_down m1 ts = om_down m2 ts.
Proof.
  intros Heq. apply (sorted_ext (flip key_lt)); [apply om_down_sorted..|].
  intros [k v]. rewrite !elem_of_om_down. split; intros [H1 H2].
  - by rewrite <- Heq.
  - by rewrite Heq.
Qed.

Lemma om_last_key_max m k v :
  m !! k = Some v → ∃ c, om_last_key m = Some c ∧ (k ≤ c)%N.
Proof.
  intros Hk. apply elem_of_om_list in Hk. unfold om_last_key.
  pose proof (om_list_sorted_le m) as Hs.
  destruct (om_list m) as [|p l _] using rev_ind; [set_solver|].
  rewrite last_snoc. exists p.1. split; [done|].
  apply elem_of_app in Hk as [Hk|Hk%list_elem_of_singleton]; [|by subst].
  apply (StronglySorted_app_1_elem_of _ _ _ (k, v) p Hs); set_solver.
Qed.

Lemma om_last_key_is_key m c : om_last_key m = Some c → is_Some (m !! c).
Proof.
  unfold om_last_key. intros Hc.
  destruct (last (om_list m)) as [[k v]|] eqn:Hl; [|done].
  simplify_eq/=. apply last_Some_elem_of in Hl. apply elem_of_om_list in Hl. eauto.
Qed.

End ordered.

(** ** Byte strings

    [std::string] is modelled by [string]: a list of 8-bit characters, compared
    byte-wise ([String.compare] compares character codes, like [memcmp]). *)
Section strings.
Implicit Types (s t : string) (c : ascii).
#[local] Arguments String.append !_ _ /.

Fixpoint stake (n : nat) s : string :=
  match n, s with
  | S n', String c s' => String c (stake n' s')
  | _, _ => EmptyString
  end.

Fixpoint sdrop (n : nat) s : string :=
  match n, s with
  | S n', String _ s' => sdrop n' s'
  | O, _ => s
  | _, EmptyString => EmptyString
  end.

(** [s.find(c)]: offset of the first occurrence. *)
Fixpoint find_char c s : option nat :=
  match s with
  | EmptyString => None
  | String a s' => if Ascii.eqb a c then Some O else S <$> find_char c s'
  end.

(** [s.rfind(c)], with the text before and after the last occurrence. *)
Fixpoint rsplit c s : option (string * string) :=
  match s with
  | EmptyString => None
  | String a s' =>
      match rsplit c s' with
      | Some (l, r) => Some (String a l, r)
      | None => if Ascii.eqb a c then Some (EmptyString, s') else None
      end
  end.

Fixpoint no_char c s : Prop :=
  match s with
  | EmptyString => True
  | String a s' => a ≠ c ∧ no_char c s'
  end.

(** [s1 < s2] and [s1 <= s2] on [std::string]. *)
Definition str_ltb s t : bool := String.ltb s t.
Definition str_leb s t : bool := String.leb s t.

Fixpoint starts_with (p s : string) : bool :=
  match p, s with
  | EmptyString, _ => true
  | String a p', String b s' => Ascii.eqb a b && starts_with p' s'
  | String _ _, EmptyString => false
  end.

Lemma stake_app s t : stake (String.length s) (s +:+ t) = s.
Proof. induction s as [|c s IH]; simpl; [by destruct t|by rewrite IH]. Qed.

Lemma sdrop_app s t : sdrop (String.length s) (s +:+ t) = t.
Proof. induction s as [|c s IH]; simpl; [by destruct t|done]. Qed.

Lemma sdrop_add n s t : sdrop (String.length s + n) (s +:+ t) = sdrop n t.
Proof. induction s as [|c s IH]; simpl; done. Qed.

Lemma string_app_nil_r s : s +:+ EmptyString = s.
Proof. induction s as [|c s IH]; simpl; [done|by rewrite IH]. Qed.

Lemma string_app_assoc s t u : (s +:+ t) +:+ u = s +:+ (t +:+ u).
Proof. induction s as [|c s IH]; simpl; [done|by rewrite IH]. Qed.

Lemma string_app_length s t :
  String.length (s +:+ t) = String.length s + String.length t.
Proof. induction s as [|c s IH]; simpl; [done|by rewrite IH]. Qed.

Lemma find_char_app c s t :
  no_char c s → find_char c (s +:+ String c t) = Some (String.length s).
Proof.
  induction s as [|a s IH]; simpl; intros Hs.
  - by rewrite Ascii.eqb_refl.
  - destruct Hs as [Ha Hs]. destruct (Ascii.eqb_spec a c); [done|]. by rewrite IH.
Qed.

Lemma rsplit_no_char c s : no_char c s → rsplit c s = None.
Proof.
  induction s as [|a s IH]; simpl; [done|]. intros [Ha Hs]. rewrite IH by done.
  by destruct (Ascii.eqb_spec a c).
Qed.

Lemma rsplit_app c s t :
  no_char c t → rsplit c (s +:+ String c t) = Some (s, t).
Proof.
  intros Ht. induction s as [|a s IH]; simpl.
  - by rewrite rsplit_no_char, Ascii.eqb_refl.
  - by rewrite IH.
Qed.

Lemma starts_with_app p s : starts_with p (p +:+ s) = true.
Proof. induction p as [|c p IH]; simpl; [done|]. by rewrite Ascii.eqb_refl. Qed.

Lemma starts_with_inv p s : starts_with p s = true → ∃ t, s = p +:+ t.
Proof.
  revert s. induction p as [|c p IH]; intros s; simpl.
  - intros _. by exists s.
  - destruct s as [|a s]; [done|].
    intros [->%Ascii.eqb_eq [t ->]%IH]%andb_true_iff. by exists t.
Qed.

Lemma str_ltb_leb s t : str_ltb s t = negb (str_leb t s).
Proof.
  unfold str_ltb, str_leb, String.ltb, String.leb. rewrite (String.compare_antisym t s).
  by destruct (String.compare s t).
Qed.

Lemma str_leb_refl s : str_leb s s = true.
Proof. apply Is_true_true. apply (reflexivity (R := String.le)). Qed.

Lemma str_leb_trans s t u : str_leb s t = true → str_leb t u = true → str_leb s u = true.
Proof. rewrite <- !Is_true_true. apply (transitivity (R := String.le)). Qed.

Lemma str_leb_antisym s t : str_leb s t = true → str_leb t s = true → s = t.
Proof. apply String.leb_antisym. Qed.

Lemma str_ltb_irrefl s : str_ltb s s = false.
Proof. by rewrite str_ltb_leb, str_leb_refl. Qed.

Lemma str_ltb_leb_incl s t : str_ltb s t = true → str_leb s t = true.
Proof.
  rewrite str_ltb_leb. intros ?%negb_true_iff.
  destruct (String.leb_total s t) as [|]; [done|unfold str_leb in *; congruence].
Qed.

Lemma str_ltb_leb_trans s t u : str_ltb s t = true → str_leb t u = true → str_ltb s u = true.
Proof.
  rewrite !str_ltb_leb, !negb_true_iff. intros H1 H2. apply not_true_iff_false.
  intros H3. rewrite <- not_true_iff_false in H1. apply H1. by apply (str_leb_trans t u s).
Qed.

Lemma str_leb_ltb_trans s t u : str_leb s t = true → str_ltb t u = true → str_ltb s u = true.
Proof.
  rewrite !str_ltb_leb, !negb_true_iff. intros H1 H2. apply not_true_iff_false.
  intros H3. rewrite <- not_true_iff_false in H2. apply H2. by apply (str_leb_trans u s t).
Qed.

Lemma str_ltb_trans s t u : str_ltb s t = true → str_ltb t u = true → str_ltb s u = true.
Proof. intros H1 H2%str_ltb_leb_incl. by apply (str_ltb_leb_trans s t u). Qed.

Lemma str_leb_lt_or_eq s t : str_leb s t = true → s = t ∨ str_ltb s t = true.
Proof.
  intros H. destruct (str_ltb s t) eqn:Ht; [by right|left].
  rewrite str_ltb_leb in Ht. apply negb_false_iff in Ht. by apply str_leb_antisym.
Qed.

Lemma str_leb_empty s : str_leb EmptyString s = true.
Proof. by destruct s. Qed.

Lemma compare_ascii_refl c : Ascii.compare c c = Eq.
Proof. apply N.compare_refl. Qed.

Lemma starts_with_leb p s : starts_with p s = true → str_leb p s = true.
Proof.
  intros [t ->]%starts_with_inv. unfold str_leb, String.leb.
  induction p as [|c p IH]; simpl; [by destruct t|]. by rewrite compare_ascii_refl.
Qed.

(** The keys with a given prefix form an interval that starts at the prefix. *)
Lemma prefix_interval p s t :
  str_leb p s = true → str_leb s t = true → starts_with p t = true → starts_with p s = true.
Proof.
  intros Hps Hst [u ->]%starts_with_inv. unfold str_leb, String.leb in *.
  revert s Hps Hst. induction p as [|c p IH]; intros s Hps Hst; [done|].
  destruct s as [|a s]; [done|]. simpl in *.
  rewrite (Ascii.compare_antisym a c) in Hst.
  destruct (Ascii.compare c a) eqn:Hca; simpl in Hst; [|done|done].
  apply Ascii.compare_eq_iff in Hca as ->. rewrite Ascii.eqb_refl. by apply IH.
Qed.

#[global] Instance string_app_inj_l p : Inj (=) (=) (String.append p).
Proof. induction p as [|c p IH]; intros s t Heq; simpl in Heq; [exact Heq|]. injection Heq. apply IH. Qed.

End strings.

(** Ordering values by a string key, as the comparators passed to [std::sort]. *)
Section str_sort.
Context {A : Type} (key : A → string).

Definition str_le_on (a b : A) : Prop := str_leb (key a) (key b) = true.

#[global] Instance str_le_on_dec a b : Decision (str_le_on a b).
Proof. unfold str_le_on. apply _. Defined.

#[global] Instance str_le_on_trans : Transitive str_le_on.
Proof. intros x y z. apply str_leb_trans. Qed.

#[global] Instance str_le_on_total : Total str_le_on.
Proof. intros x y. apply String.leb_total. Qed.

(** The strict order, and sorting what is strictly sorted already. *)
Definition str_lt_on (a b : A) : Prop := str_ltb (key a) (key b) = true.

#[global] Instance str_lt_on_trans : Transitive str_lt_on.
Proof. intros x y z. apply str_ltb_trans. Qed.

#[global] Instance str_lt_on_irrefl : Irreflexive str_lt_on.
Proof. intros x Hx. unfold str_lt_on in Hx. by rewrite str_ltb_irrefl in Hx. Qed.

Lemma sorted_strict l :
  StronglySorted str_le_on l → NoDup (key <$> l) → StronglySorted str_lt_on l.
Proof.
  induction 1 as [|a l Hs IH Ha]; intros Hnd; [constructor|].
  apply NoDup_cons in Hnd as [Hni Hnd]. constructor; [by apply IH|]. rewrite Forall_forall in *.
  intros b Hb. destruct (str_leb_lt_or_eq _ _ (Ha b Hb)) as [Heq|Hlt]; [|done].
  destruct Hni. rewrite Heq. apply list_elem_of_fmap. eauto.
Qed.

Lemma strict_NoDup l : StronglySorted str_lt_on l → NoDup (key <$> l).
Proof.
  induction 1 as [|a l Hs IH Ha]; simpl; constructor; [|done].
  intros (b & Heq & Hb)%list_elem_of_fmap. rewrite Forall_forall in Ha.
  specialize (Ha b Hb). unfold str_lt_on in Ha. by rewrite Heq, str_ltb_irrefl in Ha.
Qed.

Lemma merge_sort_strict l : StronglySorted str_lt_on l → merge_sort str_le_on l = l.
Proof.
  intros Hs. assert (merge_sort str_le_on l ≡ₚ l) as Hp by apply merge_sort_Permutation.
  apply (sorted_ext str_lt_on); [|done|intros p; by rewrite Hp].
  apply sorted_strict; [apply (StronglySorted_merge_sort _)|]. rewrite Hp. by apply strict_NoDup.
Qed.

End str_sort.

Definition str_lt : relation string := λ a b, str_ltb a b = true.

(** ** Proof automation *)

Create HintDb strata.

(** Case analysis on every [match] and [if] of the goal. *)
Ltac split_cases :=
  repeat (case_match || case_decide || case_bool_decide); simplify_eq/=.

(** Turn boolean comparisons in the context into the propositions they decide. *)
Ltac reflect_bools :=
  repeat match goal with
  | H : (_ <=? _)%N = true |- _ => apply N.leb_le in H
  | H : (_ <=? _)%N = false |- _ => apply N.leb_gt in H
  | H : (_ <? _)%N = true |- _ => apply N.ltb_lt in H
  | H : (_ <? _)%N = false |- _ => apply N.ltb_ge in H
  | H : (_ =? _)%N = true |- _ => apply N.eqb_eq in H
  | H : (_ =? _)%N = false |- _ => apply N.eqb_neq in H
  | H : (_ && _)%bool = true |- _ => apply andb_true_iff in H as [? ?]
  | H : (_ || _)%bool = false |- _ => apply orb_false_iff in H as [? ?]
  | H : negb _ = true |- _ => apply negb_true_iff in H
  | H : negb _ = false |- _ => apply negb_false_iff in H
  | H : String.eqb _ _ = true |- _ => apply String.eqb_eq in H
  | H : String.eqb _ _ = false |- _ => apply String.eqb_neq in H
  | H : bool_decide _ = true |- _ => apply bool_decide_eq_true in H
  | H : bool_decide _ = false |- _ => apply bool_decide_eq_false in H
  end.

(** ** Membership tests on a list *)

Lemma decide_cons_eq `{EqDecision A} {B} (x : A) (l : list A) (a b : B) :
  (if decide (x ∈ x :: l) then a else b) = a.
Proof. apply decide_True. by left. Qed.

Lemma decide_cons_ne `{EqDecision A} {B} (x y : A) (l : list A) (a b : B) :
  x ≠ y → (if decide (x ∈ y :: l) then a else b) = (if decide (x ∈ l) then a else b).
Proof.
  intros Hne. destruct (decide (x ∈ l)) as [Hin|Hin].
  - apply decide_True. by right.
  - apply decide_False. by intros [->|]%elem_of_cons.
Qed.

(** ** Exceptions

    A call that may throw returns [result]; [Throw] carries [what()]. *)
Inductive result (A : Type) :=
| Ok (a : A)
| Throw (what : string).
Arguments Ok {A} a.
Arguments Throw {A} what.

#[global] Instance result_ret : MRet result := λ A a, Ok a.
#[global] Instance result_bind : MBind result := λ A B f r,
  match r with Ok a => f a | Throw w => Throw w end.

Lemma bind_Ok {A B} (f : A → result B) r b :
  r ≫= f = Ok b ↔ ∃ a, r = Ok a ∧ f a = Ok b.
Proof. destruct r; simpl; naive_solver. Qed.

(** The loop that decodes the elements of a repeated field. *)
Fixpoint mapM_result {A B} (f : A → result B) (l : list A) : result (list B) :=
  match l with
  | [] => Ok []
  | a :: rest => b ← f a; bs ← mapM_result f rest; Ok (b :: bs)
  end.

Lemma mapM_result_Ok {A B} (f : A → result B) l bs :
  mapM_result f l = Ok bs ↔ Forall2 (λ a b, f a = Ok b) l bs.
Proof.
  revert bs. induction l as [|a l IH]; intros bs; simpl.
  - split; [intros [= <-]; constructor|by intros ->%Forall2_nil_inv_l].
  - rewrite bind_Ok. setoid_rewrite bind_Ok. setoid_rewrite IH. split.
    + intros (b & Hb & bs' & Hbs & [= <-]). by constructor.
    + intros H. inversion H; subst. eauto 10.
Qed.
