(* ===== verification/KvEngine.v ===== *)
(** * The local storage engine

    [IKVEngine] of src/src/storage/include/kv_engine.h, the interface through
    which the MVCC layer persists its state, and [RocksDbKVEngine] of
    src/src/storage/rocksdb_kv_engine.cpp, the implementation the repository
    ships.  RocksDB and the Boost text archive are outside the repository: the
    class [RocksDB] has the calls the wrapper makes with the documented
    behaviour of each (atomic write batches, point reads, ordered iteration),
    and the archive is a pair of functions that invert each other. *)

From S2P Require Import Prelude.

(** ** Batches *)

Inductive KVBatchOpType := OpPut | OpDelete.

Record KVBatchOp := MkOp {
  op_type : KVBatchOpType;
  op_key : string;
  op_value : string
}.

#[global] Instance KVBatchOpType_eq_dec : EqDecision KVBatchOpType.
Proof. solve_decision. Defined.

#[global] Instance KVBatchOp_eq_dec : EqDecision KVBatchOp.
Proof. solve_decision. Defined.

Notation PutOp k v := (MkOp OpPut k v).
Notation DelOp k := (MkOp OpDelete k EmptyString).

(** What one operation, and a batch in order, does to the stored key space. *)
Definition apply_op (m : gmap string string) (o : KVBatchOp) : gmap string string :=
  match op_type o with
  | OpPut => <[op_key o := op_value o]> m
  | OpDelete => delete (op_key o) m
  end.

Definition apply_ops (m : gmap string string) (ops : list KVBatchOp) : gmap string string :=
  foldl apply_op m ops.

(** ** The engine interface

    [kv_contents] is the abstract key space behind an engine.  A failed call
    leaves it unchanged. *)
Class KVEngine (E : Type) := {
  kv_contents : E → gmap string string;
  kv_get : E → string → option string;
  kv_write_batch : E → list KVBatchOp → bool * E;
  kv_scan_prefix : E → string → list (string * string);
  kv_delete : E → string → bool * E;
  kv_load : E → string → result (bool * E);

  kv_get_spec : ∀ e k, kv_get e k = kv_contents e !! k;
  kv_write_batch_spec : ∀ e ops,
    kv_contents (kv_write_batch e ops).2 =
      if (kv_write_batch e ops).1 then apply_ops (kv_contents e) ops else kv_contents e;
  kv_scan_prefix_elem : ∀ e p k v,
    (k, v) ∈ kv_scan_prefix e p ↔ kv_contents e !! k = Some v ∧ starts_with p k = true;
  kv_scan_prefix_nodup : ∀ e p, NoDup ((kv_scan_prefix e p).*1);
  kv_delete_spec : ∀ e k,
    kv_contents (kv_delete e k).2 =
      if (kv_delete e k).1 then delete k (kv_contents e) else kv_contents e
}.

(** ** RocksDB *)

Inductive RocksOp := RocksPut (k v : string) | RocksDelete (k : string).

Definition rocks_apply (m : gmap string string) (o : RocksOp) : gmap string string :=
  match o with
  | RocksPut k v => <[k := v]> m
  | RocksDelete k => delete k m
  end.

(** [db_seek d p] is what an iterator yields from [Seek(p)] on, in the order of
    the byte-wise comparator; [Seek] of the empty string is [SeekToFirst()]. *)
Class RocksDB (D : Type) := {
  db_view : D → gmap string string;
  db_get : D → string → option string;
  db_write : D → list RocksOp → bool * D;
  db_seek : D → string → list (string * string);
  db_iter_ok : D → bool;
  db_delete_range : D → string → string → bool * D;

  db_get_spec : ∀ d k, db_get d k = db_view d !! k;
  db_write_spec : ∀ d ops,
    db_view (db_write d ops).2 =
      if (db_write d ops).1 then foldl rocks_apply (db_view d) ops else db_view d;
  db_seek_elem : ∀ d p k v,
    (k, v) ∈ db_seek d p ↔ db_view d !! k = Some v ∧ str_leb p k = true;
  db_seek_sorted : ∀ d p, StronglySorted (λ a b, str_ltb a.1 b.1 = true) (db_seek d p);
  db_delete_range_spec : ∀ d b e,
    db_view (db_delete_range d b e).2 =
      if (db_delete_range d b e).1
      then filter (λ kv, str_leb b kv.1 && str_ltb kv.1 e = false) (db_view d)
      else db_view d
}.

(** [boost::archive::text_oarchive] and [text_iarchive] on the pair of vectors
    of [SnapshotData]; reading throws on text that is not an archive. *)
Class BoostArchive := {
  archive_write : list string * list string → string;
  archive_read : string → result (list string * list string);
  archive_read_write : ∀ d, archive_read (archive_write d) = Ok d;
  archive_write_nonempty : ∀ d, archive_write d ≠ EmptyString
}.

Module RocksDbKVEngine.
Section wrapper.
Context {D : Type} `{!RocksDB D} `{!BoostArchive}.
Implicit Types (d : D).

Definition Put d (key value : string) : bool * D := db_write d [RocksPut key value].

Definition Get d (key : string) : option string := db_get d key.

Definition Append d (key value : string) : bool * D :=
  match Get d key with
  | Some oldValue => Put d key (oldValue +:+ value)
  | None => Put d key value
  end.

Definition Delete d (key : string) : bool * D := db_write d [RocksDelete key].

Definition to_rocks (o : KVBatchOp) : RocksOp :=
  match op_type o with
  | OpDelete => RocksDelete (op_key o)
  | OpPut => RocksPut (op_key o) (op_value o)
  end.

Definition WriteBatch d (ops : list KVBatchOp) : bool * D := db_write d (to_rocks <$> ops).

(** The loop condition: the iterator is valid and its key has the prefix. *)
Fixpoint scan_while (prefix : string) (it : list (string * string)) : list (string * string) :=
  match it with
  | (k, v) :: it' => if starts_with prefix k then (k, v) :: scan_while prefix it' else []
  | [] => []
  end.

Definition ScanPrefix d (prefix : string) : list (string * string) :=
  scan_while prefix (db_seek d prefix).

(** [RocksDbSnapshot::Serialize] through [Dump]. *)
Definition Dump d : result string :=
  let items := db_seek d EmptyString in
  if db_iter_ok d then Ok (archive_write (items.*1, items.*2))
  else Throw "failed to iterate RocksDB snapshot: ".

Definition DeleteRange d (begin_ end_ : string) : bool * D := db_delete_range d begin_ end_.

Definition Load d (snapshot : string) : result (bool * D) :=
  if String.eqb snapshot EmptyString then Ok (true, d)
  else
    '(keys, values) ← archive_read snapshot;
    if negb (Nat.eqb (length keys) (length values)) then Ok (false, d)
    else
      let deletes := (λ kv, RocksDelete kv.1) <$> db_seek d EmptyString in
      if negb (db_iter_ok d) then Ok (false, d)
      else Ok (db_write d (deletes ++ zip_with RocksPut keys values)).

End wrapper.
End RocksDbKVEngine.

(** ** The wrapper implements the interface *)

Section wrapper_props.
Context {D : Type} `{!RocksDB D} `{!BoostArchive}.
Implicit Types (d : D).

Lemma rocks_apply_ops m ops :
  foldl rocks_apply m (RocksDbKVEngine.to_rocks <$> ops) = apply_ops m ops.
Proof.
  revert m. induction ops as [|[[] k v] ops IH]; intros m; simpl; [done|apply IH..].
Qed.

Lemma scan_while_elem p l k v :
  StronglySorted (λ a b, str_ltb a.1 b.1 = true) l →
  (∀ kv, kv ∈ l → str_leb p kv.1 = true) →
  (k, v) ∈ RocksDbKVEngine.scan_while p l ↔ (k, v) ∈ l ∧ starts_with p k = true.
Proof.
  induction 1 as [|[a b] l Hs IH Ha]; intros Hp; simpl; [set_solver|].
  rewrite Forall_forall in Ha.
  destruct (starts_with p a) eqn:Hpa.
  - rewrite !elem_of_cons, IH by (intros; apply Hp; set_solver). naive_solver.
  - rewrite elem_of_nil, elem_of_cons. split; [done|].
    intros [[Heq|Hl] Hk]; [congruence|].
    rewrite (prefix_interval p a k) in Hpa; [done| |by apply str_ltb_leb_incl, (Ha (k, v))|done].
    apply (Hp (a, b)). set_solver.
Qed.

Lemma scan_while_sublist p l : (RocksDbKVEngine.scan_while p l).*1 `sublist_of` l.*1.
Proof.
  induction l as [|[a b] l IH]; simpl; [done|].
  case_match; simpl; [by apply sublist_skip|apply sublist_nil_l].
Qed.

Lemma db_seek_nodup d p : NoDup ((db_seek d p).*1).
Proof.
  pose proof (db_seek_sorted d p) as Hs.
  induction Hs as [|[a b] l Hs IH Ha]; simpl; [constructor|].
  apply NoDup_cons. split; [|done]. rewrite Forall_forall in Ha.
  intros [[a' b'] [-> Hin]]%list_elem_of_fmap. specialize (Ha _ Hin). simpl in Ha.
  by rewrite str_ltb_irrefl in Ha.
Qed.

#[global] Program Instance RocksDb_KVEngine : KVEngine D := {|
  kv_contents := db_view;
  kv_get := RocksDbKVEngine.Get;
  kv_write_batch := RocksDbKVEngine.WriteBatch;
  kv_scan_prefix := RocksDbKVEngine.ScanPrefix;
  kv_delete := RocksDbKVEngine.Delete;
  kv_load := RocksDbKVEngine.Load
|}.
Next Obligation. intros d k. apply db_get_spec. Qed.
Next Obligation.
  intros d ops. unfold RocksDbKVEngine.WriteBatch.
  by rewrite db_write_spec, rocks_apply_ops.
Qed.
Next Obligation.
  intros d p k v. unfold RocksDbKVEngine.ScanPrefix.
  rewrite scan_while_elem; [rewrite db_seek_elem|apply db_seek_sorted|].
  - split; [tauto|]. intros [? Hp]. auto using starts_with_leb.
  - intros [a b] [_ ?]%db_seek_elem. done.
Qed.
Next Obligation.
  intros d p. unfold RocksDbKVEngine.ScanPrefix.
  eapply sublist_NoDup; [apply db_seek_nodup|apply scan_while_sublist].
Qed.
Next Obligation. intros d k. unfold RocksDbKVEngine.Delete. by rewrite db_write_spec. Qed.

(** Deleting every stored key and then putting the snapshot's pairs leaves
    exactly the snapshot. *)
Lemma rocks_delete_all m l :
  (∀ k, is_Some (m !! k) → k ∈ l.*1) →
  foldl rocks_apply m ((λ kv : string * string, RocksDelete kv.1) <$> l) = ∅.
Proof.
  revert m. induction l as [|[k v] l IH]; intros m Hm; simpl.
  - apply map_empty. intros k. apply eq_None_not_Some. intros ?%Hm. set_solver.
  - apply IH. intros k' [x Hx]. apply lookup_delete_Some in Hx as [Hne Hx].
    assert (k' ∈ k :: l.*1) as Hin by (apply (Hm k'); by eexists). set_solver.
Qed.

Lemma rocks_put_all m keys values k :
  NoDup keys → length keys = length values →
  foldl rocks_apply m (zip_with RocksPut keys values) !! k =
    match (list_to_map (zip keys values) : gmap string string) !! k with
    | Some v => Some v
    | None => m !! k
    end.
Proof.
  intros Hnd. revert m values. induction Hnd as [|a keys Ha Hnd IH]; intros m [|b values] Hl; try done.
  simpl in *. rewrite IH by lia. rewrite !lookup_insert.
  case_decide as Hk; [|done]. subst.
  rewrite (not_elem_of_list_to_map_1 (zip keys values)); [done|].
  rewrite fst_zip by lia. done.
Qed.

Lemma seek_all_to_map d : list_to_map (db_seek d EmptyString) = db_view d.
Proof.
  apply map_eq. intros k. apply option_eq. intros v.
  rewrite <- elem_of_list_to_map by apply db_seek_nodup.
  rewrite db_seek_elem, str_leb_empty. tauto.
Qed.

End wrapper_props.

(** An in-memory database, to run the models on concrete inputs. *)
Definition mem_seek (m : gmap string string) (p : string) : list (string * string) :=
  merge_sort (str_le_on fst)
    (filter (λ kv, str_leb p kv.1 = true) (map_to_list m)).

Lemma mem_seek_elem m p k v :
  (k, v) ∈ mem_seek m p ↔ m !! k = Some v ∧ str_leb p k = true.
Proof.
  unfold mem_seek. rewrite merge_sort_Permutation, list_elem_of_filter, elem_of_map_to_list.
  simpl. tauto.
Qed.

Lemma mem_seek_sorted m p : StronglySorted (λ a b, str_ltb a.1 b.1 = true) (mem_seek m p).
Proof.
  assert (StronglySorted (str_le_on fst) (mem_seek m p)) as Hs
    by apply (StronglySorted_merge_sort (str_le_on fst)).
  assert (NoDup ((mem_seek m p).*1)) as Hnd.
  { unfold mem_seek. rewrite merge_sort_Permutation.
    generalize (NoDup_fst_map_to_list m). induction (map_to_list m) as [|[a b] l IH]; simpl; [done|].
    intros [Ha Hl]%NoDup_cons. rewrite filter_cons. case_decide; [|auto]. simpl.
    apply NoDup_cons. split; [|auto]. intros [[a' b'] [-> Hin]]%list_elem_of_fmap.
    apply list_elem_of_filter in Hin as [_ Hin]. apply Ha. apply list_elem_of_fmap. by exists (a', b'). }
  induction Hs as [|x l Hs IH Hx]; [constructor|]. simpl in Hnd.
  apply NoDup_cons in Hnd as [Hni Hnd]. constructor; [by apply IH|].
  rewrite Forall_forall in *. intros y Hy. specialize (Hx y Hy).
  destruct (str_leb_lt_or_eq _ _ Hx) as [Heq|]; [|done].
  exfalso. apply Hni. rewrite Heq. by apply list_elem_of_fmap_2.
Qed.

#[global] Program Instance MemDB : RocksDB (gmap string string) := {|
  db_view m := m;
  db_get m k := m !! k;
  db_write m ops := (true, foldl rocks_apply m ops);
  db_seek := mem_seek;
  db_iter_ok _ := true;
  db_delete_range m b e :=
    (true, filter (λ kv, str_leb b kv.1 && str_ltb kv.1 e = false) m)
|}.
Next Obligation. done. Qed.
Next Obligation. done. Qed.
Next Obligation. apply mem_seek_elem. Qed.
Next Obligation. apply mem_seek_sorted. Qed.
Next Obligation. done. Qed.

(** A concrete archive: the standard encoding of the pair as a binary numeral. *)
Fixpoint bits_print (p : positive) : string :=
  match p with
  | xH => "1"
  | xO p' => String "0" (bits_print p')
  | xI p' => String "+" (bits_print p')
  end.

Fixpoint bits_parse (s : string) : option positive :=
  match s with
  | String c EmptyString => if Ascii.eqb c "1" then Some xH else None
  | String c s' =>
      p ← bits_parse s';
      if Ascii.eqb c "0" then Some (xO p) else if Ascii.eqb c "+" then Some (xI p) else None
  | EmptyString => None
  end.

Lemma bits_parse_print p : bits_parse (bits_print p) = Some p.
Proof. induction p as [p IH|p IH|]; simpl; [destruct p..|]; by rewrite ?IH. Qed.

Definition bits_read (s : string) : result (list string * list string) :=
  match bits_parse s ≫= decode with
  | Some d => Ok d
  | None => Throw "archive"
  end.

#[global] Program Instance BitArchive : BoostArchive := {|
  archive_write d := bits_print (encode d);
  archive_read := bits_read
|}.
Next Obligation. intros d. unfold bits_read. rewrite bits_parse_print. simpl. by rewrite decode_encode. Qed.
Next Obligation. intros d. cbn beta. by destruct (encode d). Qed.

(** ** Properties *)

Section engine_theorems.
Context {D : Type} `{!RocksDB D} `{!BoostArchive}.
Implicit Types (d : D).

(** A dump loaded into any database that accepts the batch replaces its
    whole key space by the dumped one. *)
Theorem load_dump d d' s d'' :
  RocksDbKVEngine.Dump d = Ok s →
  RocksDbKVEngine.Load d' s = Ok (true, d'') →
  db_view d'' = db_view d.
Proof.
  unfold RocksDbKVEngine.Dump, RocksDbKVEngine.Load.
  destruct (db_iter_ok d); intros [= <-].
  destruct (String.eqb_spec (archive_write ((db_seek d EmptyString).*1, (db_seek d EmptyString).*2)) EmptyString)
    as [He|_]; [by apply archive_write_nonempty in He|].
  rewrite archive_read_write. simpl. rewrite !length_fmap, Nat.eqb_refl. simpl.
  destruct (db_iter_ok d') eqn:Hok; simpl; [|done]. intros [= Hw].
  pose proof (db_write_spec d'
    (((λ kv, RocksDelete kv.1) <$> db_seek d' EmptyString) ++
     zip_with RocksPut (db_seek d EmptyString).*1 (db_seek d EmptyString).*2)) as Hspec.
  rewrite Hw in Hspec. simpl in Hspec. rewrite Hspec, foldl_app.
  rewrite rocks_delete_all.
  - apply map_eq. intros k.
    rewrite rocks_put_all by (rewrite ?length_fmap; auto using db_seek_nodup).
    rewrite zip_fst_snd, seek_all_to_map. by destruct (db_view d !! k).
  - intros k [v Hv]. apply list_elem_of_fmap. exists (k, v). split; [done|].
    by rewrite db_seek_elem, str_leb_empty.
Qed.

(** A prefix scan returns exactly the stored pairs whose key has the
    prefix, each once and in ascending byte order. *)
Theorem ScanPrefix_exact d p :
  (∀ k v, (k, v) ∈ RocksDbKVEngine.ScanPrefix d p ↔
          db_view d !! k = Some v ∧ starts_with p k = true) ∧
  StronglySorted (λ a b, str_ltb a.1 b.1 = true) (RocksDbKVEngine.ScanPrefix d p).
Proof.
  split; [intros k v; apply (kv_scan_prefix_elem (KVEngine := RocksDb_KVEngine))|].
  unfold RocksDbKVEngine.ScanPrefix. generalize (db_seek_sorted d p).
  induction 1 as [|[a b] l Hs IH Ha]; simpl; [constructor|].
  case_match; [|constructor]. constructor; [done|]. rewrite Forall_forall in *.
  intros [k v] Hin. apply Ha. clear -Hin.
  induction l as [|[a' b'] l IH]; simpl in Hin; [done|].
  destruct (starts_with p a'); set_solver.
Qed.

End engine_theorems.

Definition demo_db : gmap string string := {[ "a" := "1"; "b" := EmptyString ]}.

Definition demo_other : gmap string string := {[ "z" := "9" ]}.
Definition demo_dump : string := bits_print (encode (["a"; "b"], ["1"; EmptyString])).

Lemma load_dump_witness :
  ∃ d'', RocksDbKVEngine.Load demo_other demo_dump = Ok (true, d'') ∧
         db_view d'' = db_view demo_db.
Proof.
  eexists. split; [vm_compute; reflexivity|].
  apply (load_dump demo_db demo_other demo_dump); vm_compute; reflexivity.
Defined.

Lemma ScanPrefix_exact_witness :
  RocksDbKVEngine.ScanPrefix demo_db "b" = [("b", EmptyString)] ∧
  (("b", EmptyString) ∈ RocksDbKVEngine.ScanPrefix demo_db "b" ↔
   db_view demo_db !! "b" = Some EmptyString ∧ starts_with "b" "b" = true).
Proof.
  split; [vm_compute; reflexivity|].
  apply (proj1 (ScanPrefix_exact demo_db "b")).
Defined.
