(* ===== verification/MvccTypes.v ===== *)
(** * Data of the MVCC layer

    The enumerations and structs of
    src/src/transaction/include/mvcc_storage.h.  Default member initialisers
    are the [default_*] values. *)

From S2P Require Import Prelude KvEngine.

Definition kPessimisticTxnProtocolVersion : N := 2.
Definition kBatchTxnProtocolVersion : N := 3.
Definition kTxnProtocolVersion : N := kBatchTxnProtocolVersion.
Definition kMvccLockFormatVersion : N := 2.

(** The constructors of a C++ [enum class] are prefixed where two enumerations
    share a name ([TxnStatus::NotFound] and [TxnRecordState::NotFound]). *)
Inductive TxnStatus :=
| StOk | StNotFound | StLockConflict | StWriteConflict | StAlreadyCommitted
| StTimeout | StAbortOnly | StCleanupPending | StResultUnknown | StStorageError.

#[global] Instance TxnStatus_eq_dec : EqDecision TxnStatus.
Proof. solve_decision. Defined.

Record MvccLock := MkLock {
  primaryKey : string;
  lock_value : string;
  lock_startTs : N;
  ttlMs : N;
  createTimeMs : N;
  isDelete : bool;
  isPessimistic : bool;
  isLockOnly : bool;
  forUpdateTs : N;
  expireAtPhysicalMs : N;
  legacyExpiry : bool
}.

#[global] Instance MvccLock_eq_dec : EqDecision MvccLock.
Proof. solve_decision. Defined.

Inductive TxnRecordState := RsLocked | RsCommitted | RsRolledBack | RsNotFound.

#[global] Instance TxnRecordState_eq_dec : EqDecision TxnRecordState.
Proof. solve_decision. Defined.

Record TxnRecordStatus := MkTxnRecordStatus {
  trs_state : TxnRecordState;
  trs_commitTs : N;
  trs_lock : option MvccLock
}.

Definition default_TxnRecordStatus : TxnRecordStatus := MkTxnRecordStatus RsNotFound 0 None.

Record PessimisticLockResult := MkPessimisticLockResult {
  plr_status : TxnStatus;
  plr_found : bool;
  plr_value : string;
  plr_valueCommitTs : N;
  plr_applied : bool
}.

Inductive MvccWriteType := WPut | WDelete | WRollback | WLock.

#[global] Instance MvccWriteType_eq_dec : EqDecision MvccWriteType.
Proof. solve_decision. Defined.

Record MvccWrite := MkWrite {
  w_startTs : N;
  w_commitTs : N;
  w_type : MvccWriteType
}.

#[global] Instance MvccWrite_eq_dec : EqDecision MvccWrite.
Proof. solve_decision. Defined.

Record MvccStats := MkStats {
  lockCount : N;
  pessimisticLockCount : N;
  writeCount : N;
  dataVersionCount : N;
  stats_writeBatchCount : N;
  stats_appliedRaftIndex : N
}.

Record ProtocolCapabilities := MkCapabilities {
  protocolVersion : N;
  preparedCommandVersion : N;
  lockFormatVersion : N;
  hlcExpiry : bool
}.

Definition kLegacyCommandVersion : N := 1.
Definition kCommandVersion : N := 2.

Record PreparedMvccWrite := MkPrepared {
  commandVersion : N;
  p_status : TxnStatus;
  expectedRevision : N;
  newRevision : N;
  modifications : list KVBatchOp;
  readStatus : TxnStatus;
  readValue : string;
  readCommitTs : N;
  txnRecordStatus : TxnRecordStatus
}.

Definition default_PreparedMvccWrite : PreparedMvccWrite :=
  MkPrepared kLegacyCommandVersion StStorageError 0 0 [] StNotFound EmptyString 0
    default_TxnRecordStatus.

(** [PreparedMvccWrite::HasChanges] *)
Definition HasChanges (p : PreparedMvccWrite) : bool :=
  bool_decide (p_status p = StOk) && negb (bool_decide (modifications p = [])).

Record MvccMutation := MkMutation {
  mut_key : string;
  mut_value : string;
  mut_isDelete : bool;
  mut_isLockOnly : bool
}.

Record PreparedMvccBatchItem := MkItem {
  item_key : string;
  item_prepared : PreparedMvccWrite
}.

Definition kBatchCommandVersion : N := 1.

Record PreparedMvccBatch := MkBatch {
  b_commandVersion : N;
  b_status : TxnStatus;
  b_items : list PreparedMvccBatchItem
}.

Definition default_PreparedMvccBatch : PreparedMvccBatch :=
  MkBatch kBatchCommandVersion StStorageError [].

(** [PreparedMvccBatch::HasChanges] *)
Definition BatchHasChanges (b : PreparedMvccBatch) : bool :=
  bool_decide (b_status b = StOk) && existsb (λ i, HasChanges (item_prepared i)) (b_items b).

(** [MvccStorage::PreparedApplyCommand]: [isBatch] selects the payload. *)
Record PreparedApplyCommand := MkApplyCommand {
  cmd_raftIndex : N;
  cmd_isBatch : bool;
  cmd_key : string;
  cmd_single : PreparedMvccWrite;
  cmd_batch : PreparedMvccBatch
}.
