(* ===== verification/Codec.v ===== *)
(** * Encoding of MVCC state into engine keys and values

    The anonymous-namespace helpers at the top of
    src/src/transaction/mvcc_storage.cpp and the key builders at its end:
    decimal timestamps, length-prefixed fields, lock and write records, and the
    [data/], [lock/], [write/] and [meta/revision/] key spaces. *)

From S2P Require Import Prelude KvEngine MvccTypes.

(** ** Decimal numerals *)

Definition digit_char (d : N) : ascii := ascii_of_N (48 + d).

Definition digit_value (c : ascii) : option N :=
  let n := N_of_ascii c in
  if (48 <=? n)%N && (n <=? 57)%N then Some (n - 48)%N else None.

Fixpoint dec_go (fuel : nat) (n : N) (acc : string) : string :=
  match fuel with
  | O => acc
  | S fuel' =>
      let acc' := String (digit_char (n mod 10)) acc in
      if (n <? 10)%N then acc' else dec_go fuel' (n / 10) acc'
  end.

(** [std::to_string] on an unsigned value; a numeral has at most as many
    decimal digits as binary ones, which is the fuel. *)
Definition to_string (n : N) : string := dec_go (S (N.size_nat n)) n EmptyString.

Fixpoint parse_digits (s : string) (acc : N) : N :=
  match s with
  | String c s' =>
      match digit_value c with
      | Some d => parse_digits s' (10 * acc + d)
      | None => acc
      end
  | EmptyString => acc
  end.

(** [isspace] in the C locale. *)
Definition is_space (c : ascii) : bool :=
  let n := N_of_ascii c in (n =? 32)%N || ((9 <=? n)%N && (n <=? 13)%N).

Fixpoint skip_spaces (s : string) : string :=
  match s with
  | String c s' => if is_space c then skip_spaces s' else s
  | EmptyString => EmptyString
  end.

(** [std::strtoull(s, nullptr, 10)]: optional white space and sign, then the
    longest run of digits; out of range saturates, a minus sign negates in
    [unsigned long long], no digits give zero. *)
Definition strtoull (s : string) : N :=
  let s := skip_spaces s in
  let '(neg, digits) :=
    match s with
    | String c s' =>
        if Ascii.eqb c "-" then (true, s') else if Ascii.eqb c "+" then (false, s') else (false, s)
    | EmptyString => (false, s)
    end in
  let v := parse_digits digits 0 in
  if (u64_max <? v)%N then u64_max
  else if neg : bool then wrap64 (u64_size - v) else v.

Fixpoint zeros (n : nat) (s : string) : string :=
  match n with O => s | S n' => String "0" (zeros n' s) end.

(** Decimal, right-aligned in a field of width 20 filled with ['0']. *)
Definition EncodeTs (ts : N) : string :=
  let d := to_string ts in zeros (20 - String.length d) d.

Definition DecodeTs (encoded : string) : N := strtoull encoded.

(** ** Length-prefixed fields *)

Definition str_size (s : string) : N := N.of_nat (String.length s).

Definition AppendField (output value : string) : string :=
  output +:+ to_string (str_size value) +:+ ":" +:+ value.

Definition EncodeFields (fields : list string) : string := foldl AppendField EmptyString fields.

(** [input.substr(begin, length)] with [begin <= input.size()]. *)
Definition substr (s : string) (begin_ : nat) (length : N) : string :=
  let rest := sdrop begin_ s in stake (N.to_nat (N.min length (str_size rest))) rest.

Inductive decode_result :=
| Decoded (fields : list string)
| Malformed
| OutOfFuel.

(** The loop of [DecodeFields].  [begin + length] is computed in [size_t], so a
    huge length field wraps around and moves [pos] backwards. *)
Fixpoint DecodeFieldsLoop (fuel : nat) (input : string) (pos : nat) (fields : list string)
    : decode_result :=
  match fuel with
  | O => OutOfFuel
  | S fuel' =>
      if (str_size input <=? N.of_nat pos)%N then Decoded fields
      else
        match find_char ":" (sdrop pos input) with
        | None => Malformed
        | Some d =>
            let colon := pos + d in
            let length := strtoull (stake d (sdrop pos input)) in
            let begin_ := S colon in
            let next := N.of_nat begin_ +₆₄ length in
            if (str_size input <? next)%N then Malformed
            else DecodeFieldsLoop fuel' input (N.to_nat next)
                   (fields ++ [substr input begin_ length])
        end
  end.

(** Every iteration consumes at least the colon unless the position wraps, so
    one more iteration than the input has bytes suffices; see
    [DecodeFieldsLoop_diverges] for the inputs on which the code never returns,
    on which this function has no value. *)
Definition DecodeFields (input : string) : option (list string) :=
  match DecodeFieldsLoop (S (String.length input)) input 0 [] with
  | Decoded fields => Some fields
  | _ => None
  end.

(** ** Lock and write records *)

Definition WriteTypeName (t : MvccWriteType) : string :=
  match t with
  | WPut => "put"
  | WDelete => "delete"
  | WRollback => "rollback"
  | WLock => "lock"
  end.

Definition ParseWriteType (t : string) : MvccWriteType :=
  if String.eqb t "delete" then WDelete
  else if String.eqb t "rollback" then WRollback
  else if String.eqb t "lock" then WLock
  else WPut.

Definition flag (b : bool) : string := if b then "1" else "0".

Definition EncodeLockValue (lock : MvccLock) : string :=
  EncodeFields
    [primaryKey lock; to_string (lock_startTs lock); to_string (ttlMs lock);
     to_string (createTimeMs lock); flag (isDelete lock); flag (isPessimistic lock);
     to_string (if (forUpdateTs lock =? 0)%N then lock_startTs lock else forUpdateTs lock);
     to_string (expireAtPhysicalMs lock); flag (isLockOnly lock)].

Definition field (fields : list string) (i : nat) : string := default EmptyString (fields !! i).

(** [DecodeLockValue]; [now] is what [NowMs()] returns on the legacy path.  A
    freshly constructed [MvccLock] is the target, so [lock_value] is empty. *)
Definition DecodeLockValue (now : N) (encoded : string) : option MvccLock :=
  let legacy :=
    match rsplit "#" encoded with
    | None => None
    | Some (before, after) =>
        let start := DecodeTs after in
        Some (MkLock before EmptyString start 0 now false false false start 0 true)
    end in
  match DecodeFields encoded with
  | Some fields =>
      let n := length fields in
      if (5 <=? n)%nat then
        let start := DecodeTs (field fields 1) in
        let fut := if (7 <=? n)%nat then DecodeTs (field fields 6) else start in
        let fut := if (fut =? 0)%N then start else fut in
        let expire := if (8 <=? n)%nat then DecodeTs (field fields 7) else 0%N in
        Some (MkLock (field fields 0) EmptyString start (DecodeTs (field fields 2))
                (DecodeTs (field fields 3)) (String.eqb (field fields 4) "1")
                ((6 <=? n)%nat && String.eqb (field fields 5) "1")
                ((9 <=? n)%nat && String.eqb (field fields 8) "1")
                fut expire ((n <? 8)%nat || (expire =? 0)%N))
      else legacy
  | None => legacy
  end.

Definition EncodeWriteValue (write : MvccWrite) : string :=
  EncodeFields [to_string (w_startTs write); WriteTypeName (w_type write)].

(** [DecodeWriteValue] leaves [commitTs] at its default; the callers set it. *)
Definition DecodeWriteValue (encoded : string) : option MvccWrite :=
  let bare :=
    let start := DecodeTs encoded in
    if (0 <? start)%N then Some (MkWrite start 0 WPut) else None in
  match DecodeFields encoded with
  | Some (f0 :: f1 :: _) => Some (MkWrite (DecodeTs f0) 0 (ParseWriteType f1))
  | _ => bare
  end.

(** ** Engine keys *)

Definition StripPrefix (value prefix : string) : string := sdrop (String.length prefix) value.

Definition SplitKeyTs (suffix : string) : option (string * N) :=
  match rsplit "/" suffix with
  | None => None
  | Some (key, ts) => Some (key, DecodeTs ts)
  end.

Definition DataKey (key : string) (startTs : N) : string :=
  "data/" +:+ key +:+ "/" +:+ EncodeTs startTs.

Definition LockKey (key : string) : string := "lock/" +:+ key.

Definition WriteKey (key : string) (commitTs : N) : string :=
  "write/" +:+ key +:+ "/" +:+ EncodeTs commitTs.

Definition RevisionKey (key : string) : string := "meta/revision/" +:+ key.

Definition AppliedIndexKey : string := "meta/mvcc_applied_raft_index".

(** ** Numerals: printing and parsing *)

Fixpoint all_digits (s : string) : Prop :=
  match s with
  | EmptyString => True
  | String c s' => is_Some (digit_value c) ∧ all_digits s'
  end.

Lemma digit_value_char d : (d < 10)%N → digit_value (digit_char d) = Some d.
Proof.
  intros Hd. unfold digit_value, digit_char. rewrite N_ascii_embedding by lia.
  destruct (N.leb_spec 48 (48 + d)); [|lia]. destruct (N.leb_spec (48 + d) 57); [|lia].
  simpl. f_equal. lia.
Qed.

Lemma parse_dec_go fuel n s :
  (n < 10 ^ N.of_nat fuel)%N → parse_digits (dec_go fuel n s) 0 = parse_digits s n.
Proof.
  revert n s. induction fuel as [|fuel IH]; intros n s Hn.
  - simpl in *. by assert (n = 0)%N as -> by lia.
  - rewrite Nat2N.inj_succ, N.pow_succ_r' in Hn. cbn [dec_go].
    assert (n mod 10 < 10)%N as Hm by (apply N.mod_lt; lia).
    destruct (N.ltb_spec n 10) as [Hlt|Hge].
    + cbn [parse_digits]. rewrite digit_value_char by done.
      rewrite N.mod_small by done. by rewrite N.mul_0_r, N.add_0_l.
    + rewrite IH by (apply N.Div0.div_lt_upper_bound; lia).
      cbn [parse_digits]. rewrite digit_value_char by done.
      f_equal. symmetry. apply N.div_mod. lia.
Qed.

Lemma size_nat_pow n : (n < 10 ^ N.of_nat (S (N.size_nat n)))%N.
Proof.
  destruct (N.eq_dec n 0%N) as [->|Hn]; [done|].
  apply N.lt_le_trans with (2 ^ N.size n)%N; [apply N.size_gt|].
  assert (N.size n = N.of_nat (N.size_nat n)) as -> by (destruct n; [done|simpl; induction p; simpl; lia]).
  transitivity (10 ^ N.of_nat (N.size_nat n))%N.
  - apply N.pow_le_mono_l. lia.
  - apply N.pow_le_mono_r; lia.
Qed.

Lemma parse_to_string n : parse_digits (to_string n) 0 = n.
Proof. unfold to_string. by rewrite parse_dec_go by apply size_nat_pow. Qed.

Lemma dec_go_digits fuel n s : all_digits s → all_digits (dec_go fuel n s).
Proof.
  revert n s. induction fuel as [|fuel IH]; intros n s Hs; [done|]. cbn [dec_go].
  assert (all_digits (String (digit_char (n mod 10)) s)) as Hs'.
  { split; [|done]. rewrite digit_value_char by (apply N.mod_lt; lia). by eexists. }
  case_match; auto.
Qed.

Lemma to_string_digits n : all_digits (to_string n).
Proof. by apply dec_go_digits. Qed.

Lemma dec_go_nonempty fuel n s : s ≠ EmptyString → dec_go fuel n s ≠ EmptyString.
Proof.
  revert n s. induction fuel as [|fuel IH]; intros n s Hs; [done|]. cbn [dec_go].
  case_match; [done|by apply IH].
Qed.

Lemma to_string_nonempty n : to_string n ≠ EmptyString.
Proof.
  unfold to_string. cbn [dec_go]. case_match; [done|]. by apply dec_go_nonempty.
Qed.

Lemma dec_go_length fuel n s k :
  (n < 10 ^ N.of_nat k)%N → (0 < k)%nat →
  (String.length (dec_go fuel n s) ≤ k + String.length s)%nat.
Proof.
  revert n s k. induction fuel as [|fuel IH]; intros n s k Hn Hk; cbn [dec_go]; [lia|].
  destruct (N.ltb_spec n 10) as [Hlt|Hge]; [simpl; lia|].
  destruct k as [|[|k]]; [lia|simpl in Hn; lia|].
  rewrite Nat2N.inj_succ, N.pow_succ_r' in Hn.
  assert (n / 10 < 10 ^ N.of_nat (S k))%N by (apply N.Div0.div_lt_upper_bound; lia).
  pose proof (IH (n / 10)%N (String (digit_char (n mod 10)) s) (S k)) as H1.
  specialize (H1 ltac:(done) ltac:(lia)). cbn [String.length] in H1. lia.
Qed.

Lemma to_string_length n : fits64 n → (String.length (to_string n) ≤ 20)%nat.
Proof.
  intros Hn. unfold to_string, fits64, u64_size in *.
  apply (dec_go_length _ _ EmptyString 20); [|lia].
  change (10 ^ N.of_nat 20)%N with 100000000000000000000%N. lia.
Qed.

Lemma digit_not_space c d : digit_value c = Some d → is_space c = false.
Proof.
  unfold digit_value, is_space. intros H.
  destruct (N.leb_spec 48 (N_of_ascii c)); simpl in H; [|done].
  destruct (N.eqb_spec (N_of_ascii c) 32); [lia|].
  destruct (N.leb_spec (N_of_ascii c) 13); [lia|]. by rewrite andb_false_r.
Qed.

Lemma digit_not_char c d x :
  digit_value c = Some d → digit_value x = None → c ≠ x.
Proof. congruence. Qed.

(** On a non-empty run of digits [strtoull] is the saturated value. *)
Lemma strtoull_digits s :
  all_digits s → s ≠ EmptyString → strtoull s = N.min (parse_digits s 0) u64_max.
Proof.
  destruct s as [|c s]; [done|]. intros [[d Hd] Hs] _. unfold strtoull.
  cbn [skip_spaces]. rewrite (digit_not_space c d Hd).
  destruct (Ascii.eqb_spec c "-"); [by apply (digit_not_char c d "-") in Hd|].
  destruct (Ascii.eqb_spec c "+"); [by apply (digit_not_char c d "+") in Hd|].
  destruct (N.ltb_spec u64_max (parse_digits (String c s) 0)); lia.
Qed.

Lemma strtoull_to_string n : fits64 n → strtoull (to_string n) = n.
Proof.
  intros Hn. rewrite strtoull_digits by (apply to_string_digits || apply to_string_nonempty).
  rewrite parse_to_string. unfold fits64, u64_size, u64_max in *. lia.
Qed.

Lemma zeros_digits n s : all_digits s → all_digits (zeros n s).
Proof. induction n; simpl; [done|]. split; [by eexists|auto]. Qed.

Lemma parse_zeros n s : parse_digits (zeros n s) 0 = parse_digits s 0.
Proof. induction n; simpl; [done|]. done. Qed.

Lemma zeros_nonempty n s : s ≠ EmptyString → zeros n s ≠ EmptyString.
Proof. by destruct n. Qed.

Lemma EncodeTs_digits n : all_digits (EncodeTs n).
Proof. apply zeros_digits, to_string_digits. Qed.

Lemma DecodeTs_EncodeTs n : fits64 n → DecodeTs (EncodeTs n) = n.
Proof.
  intros Hn. unfold DecodeTs, EncodeTs.
  rewrite strtoull_digits by (apply zeros_digits, to_string_digits || apply zeros_nonempty, to_string_nonempty).
  rewrite parse_zeros, parse_to_string. unfold fits64, u64_size, u64_max in *. lia.
Qed.

Lemma digits_no_char x s : all_digits s → digit_value x = None → no_char x s.
Proof.
  intros Hs Hx. induction s as [|c s IH]; simpl in *; [done|].
  destruct Hs as [[d Hd] Hs]. split; [congruence|auto].
Qed.

(** ** Fields: decoding what was encoded *)

Fixpoint enc_list (fields : list string) : string :=
  match fields with
  | [] => EmptyString
  | v :: fields' => to_string (str_size v) +:+ ":" +:+ v +:+ enc_list fields'
  end.

Lemma EncodeFields_enc_list fields : EncodeFields fields = enc_list fields.
Proof.
  unfold EncodeFields. assert (∀ acc, foldl AppendField acc fields = acc +:+ enc_list fields) as H.
  { induction fields as [|v fields IH]; intros acc; simpl; [by rewrite string_app_nil_r|].
    rewrite IH. unfold AppendField. by rewrite !string_app_assoc. }
  by rewrite H.
Qed.

Lemma str_size_app s t : str_size (s +:+ t) = (str_size s + str_size t)%N.
Proof. unfold str_size. rewrite string_app_length. lia. Qed.

Lemma enc_list_length fields : (length fields ≤ String.length (enc_list fields))%nat.
Proof.
  induction fields as [|v fields IH]; simpl; [lia|].
  rewrite !string_app_length. simpl. lia.
Qed.

Lemma substr_mid pre v post :
  substr (pre +:+ v +:+ post) (String.length pre) (str_size v) = v.
Proof.
  unfold substr. rewrite sdrop_app.
  replace (N.to_nat (N.min (str_size v) (str_size (v +:+ post)))) with (String.length v).
  - apply stake_app.
  - unfold str_size. rewrite string_app_length. lia.
Qed.

Lemma colon_no_digit : digit_value ":" = None.
Proof. done. Qed.

Lemma DecodeFieldsLoop_enc fuel pre fields acc :
  (length fields < fuel)%nat →
  fits64 (str_size (pre +:+ enc_list fields)) →
  DecodeFieldsLoop fuel (pre +:+ enc_list fields) (String.length pre) acc =
    Decoded (acc ++ fields).
Proof.
  revert pre fuel acc. induction fields as [|v fields IH]; intros pre fuel acc Hf Hfit.
  { destruct fuel as [|fuel]; [simpl in Hf; lia|]. cbn [DecodeFieldsLoop enc_list].
    rewrite string_app_nil_r, app_nil_r. unfold str_size. by rewrite N.leb_refl. }
  destruct fuel as [|fuel]; [simpl in Hf; lia|]. simpl in Hf.
  cbn [DecodeFieldsLoop enc_list]. set (num := to_string (str_size v)).
  set (post := enc_list fields) in *. set (input := pre +:+ num +:+ ":" +:+ v +:+ post).
  assert (str_size input = str_size pre + str_size num + 1 + str_size v + str_size post)%N as Hsz.
  { unfold input. rewrite !str_size_app. unfold str_size at 3. simpl. lia. }
  change (fits64 (str_size input)) in Hfit. unfold fits64 in Hfit.
  destruct (N.leb_spec (str_size input) (N.of_nat (String.length pre))) as [Hle|_].
  { unfold str_size at 2 in Hsz. lia. }
  assert (sdrop (String.length pre) input = num +:+ String ":" (v +:+ post)) as Hdrop
    by apply sdrop_app.
  rewrite !Hdrop, find_char_app by (apply digits_no_char; [apply to_string_digits|done]).
  rewrite !stake_app.
  assert (strtoull num = str_size v) as -> by (apply strtoull_to_string; unfold fits64; lia).
  assert (N.of_nat (S (String.length pre + String.length num)) +₆₄ str_size v =
          N.of_nat (String.length (pre +:+ num +:+ ":" +:+ v)))%N as Hnext.
  { unfold add64, wrap64. rewrite !string_app_length. simpl.
    unfold str_size in *. rewrite N.mod_small by lia. lia. }
  rewrite Hnext.
  assert (input = (pre +:+ num +:+ ":" +:+ v) +:+ post) as Hin
    by (unfold input; by rewrite !string_app_assoc).
  destruct (N.ltb_spec (str_size input) (N.of_nat (String.length (pre +:+ num +:+ ":" +:+ v)))) as [Hlt|_].
  { rewrite Hin, str_size_app in Hlt. unfold str_size in Hlt. lia. }
  rewrite Nat2N.id.
  replace (substr input (S (String.length pre + String.length num)) (str_size v)) with v.
  2:{ symmetry. unfold input.
      replace (pre +:+ num +:+ ":" +:+ v +:+ post) with ((pre +:+ num +:+ ":") +:+ v +:+ post)
        by (by rewrite !string_app_assoc).
      replace (S (String.length pre + String.length num)) with (String.length (pre +:+ num +:+ ":"))
        by (rewrite !string_app_length; simpl; lia).
      apply substr_mid. }
  rewrite Hin. unfold post. rewrite IH; [by rewrite <- app_assoc|lia|].
  fold post. rewrite <- Hin. exact Hfit.
Qed.

Lemma DecodeFields_EncodeFields fields :
  fits64 (str_size (EncodeFields fields)) → DecodeFields (EncodeFields fields) = Some fields.
Proof.
  rewrite EncodeFields_enc_list. intros Hfit. unfold DecodeFields.
  pose proof (DecodeFieldsLoop_enc (S (String.length (enc_list fields))) EmptyString fields []) as H.
  change (EmptyString +:+ enc_list fields) with (enc_list fields) in H. simpl in H.
  simpl. rewrite H; [done| |done]. pose proof (enc_list_length fields). lia.
Qed.

(** ** Lock and write records: decoding what was encoded *)

(** A key or value small enough that its records stay far below the address
    space; every [std::string] is. *)
Definition fits_mem (s : string) : Prop := (str_size s < 9223372036854775808)%N.

Definition lock_fits (l : MvccLock) : Prop :=
  fits_mem (primaryKey l) ∧ fits64 (lock_startTs l) ∧ fits64 (ttlMs l) ∧
  fits64 (createTimeMs l) ∧ fits64 (forUpdateTs l) ∧ fits64 (expireAtPhysicalMs l).

(** What survives persistence: the value is stored under the data key, a zero
    for-update timestamp means the start timestamp, and the legacy flag is
    recomputed from the expiry. *)
Definition persisted_lock (l : MvccLock) : MvccLock :=
  MkLock (primaryKey l) EmptyString (lock_startTs l) (ttlMs l) (createTimeMs l)
    (isDelete l) (isPessimistic l) (isLockOnly l)
    (if (forUpdateTs l =? 0)%N then lock_startTs l else forUpdateTs l)
    (expireAtPhysicalMs l) (expireAtPhysicalMs l =? 0)%N.

Lemma enc_list_size_cons v fields :
  str_size (enc_list (v :: fields)) =
    (str_size (to_string (str_size v)) + 1 + str_size v + str_size (enc_list fields))%N.
Proof. cbn [enc_list]. rewrite !str_size_app. change (str_size ":") with 1%N. lia. Qed.

Lemma to_string_size n : fits64 n → (str_size (to_string n) ≤ 20)%N.
Proof. intros ?%to_string_length. unfold str_size. lia. Qed.

Lemma enc_field_size v (b : N) :
  (str_size v ≤ b)%N → fits64 b →
  (str_size (to_string (str_size v)) + 1 + str_size v ≤ 21 + b)%N.
Proof.
  intros Hv Hb. pose proof (to_string_size (str_size v)) as H.
  unfold fits64 in *. assert (str_size v < u64_size)%N as Hlt by lia. specialize (H Hlt). lia.
Qed.

Lemma flag_size b : (str_size (flag b) ≤ 1)%N.
Proof. by destruct b. Qed.

Lemma flag_eqb b : String.eqb (flag b) "1" = b.
Proof. by destruct b. Qed.

Lemma EncodeLockValue_size l : lock_fits l → fits64 (str_size (EncodeLockValue l)).
Proof.
  intros (Hpk & Hs & Ht & Hc & Hf & He). unfold EncodeLockValue, fits_mem in *.
  rewrite EncodeFields_enc_list.
  assert (∀ n, fits64 n → str_size (to_string (str_size (to_string n))) + 1 +
                          str_size (to_string n) ≤ 21 + 20)%N as Hnum.
  { intros n Hn. apply enc_field_size; [by apply to_string_size|done]. }
  assert (∀ b, str_size (to_string (str_size (flag b))) + 1 + str_size (flag b) ≤ 21 + 1)%N as Hfl.
  { intros b. apply enc_field_size; [apply flag_size|done]. }
  pose proof (Hnum _ Hs). pose proof (Hnum _ Ht). pose proof (Hnum _ Hc). pose proof (Hnum _ He).
  pose proof (Hfl (isDelete l)). pose proof (Hfl (isPessimistic l)). pose proof (Hfl (isLockOnly l)).
  assert (fits64 (if (forUpdateTs l =? 0)%N then lock_startTs l else forUpdateTs l)) as Hfu
    by (by case_match).
  pose proof (Hnum _ Hfu).
  pose proof (enc_field_size (primaryKey l) 9223372036854775808 ltac:(lia) ltac:(done)).
  rewrite !enc_list_size_cons. unfold fits64, u64_size.
  change (str_size (enc_list [])) with 0%N. lia.
Qed.

Lemma DecodeLockValue_EncodeLockValue now l :
  lock_fits l → DecodeLockValue now (EncodeLockValue l) = Some (persisted_lock l).
Proof.
  intros Hl. pose proof (EncodeLockValue_size l Hl) as Hsz.
  destruct Hl as (Hpk & Hs & Ht & Hc & Hf & He).
  unfold DecodeLockValue, EncodeLockValue in *. rewrite DecodeFields_EncodeFields by done.
  cbn [length Nat.leb field lookup list_lookup default].
  unfold field. simpl. unfold DecodeTs.
  rewrite !strtoull_to_string by (done || by case_match). rewrite !flag_eqb.
  unfold persisted_lock. f_equal. f_equal.
  destruct (N.eqb_spec (forUpdateTs l) 0) as [H0|H0]; [by case_match|].
  by destruct (N.eqb_spec (forUpdateTs l) 0).
Qed.

Lemma ParseWriteType_WriteTypeName t : ParseWriteType (WriteTypeName t) = t.
Proof. by destruct t. Qed.

Lemma EncodeWriteValue_size w : fits64 (w_startTs w) → fits64 (str_size (EncodeWriteValue w)).
Proof.
  intros Hs. unfold EncodeWriteValue. rewrite EncodeFields_enc_list, !enc_list_size_cons.
  pose proof (enc_field_size (to_string (w_startTs w)) 20 (to_string_size _ Hs) ltac:(done)).
  assert (str_size (WriteTypeName (w_type w)) ≤ 20)%N as Hn by (by destruct (w_type w)).
  pose proof (enc_field_size (WriteTypeName (w_type w)) 20 Hn ltac:(done)).
  unfold fits64, u64_size. change (str_size (enc_list [])) with 0%N. lia.
Qed.

Lemma DecodeWriteValue_EncodeWriteValue w :
  fits64 (w_startTs w) →
  DecodeWriteValue (EncodeWriteValue w) = Some (MkWrite (w_startTs w) 0 (w_type w)).
Proof.
  intros Hs. pose proof (EncodeWriteValue_size w Hs) as Hsz.
  unfold DecodeWriteValue, EncodeWriteValue in *. rewrite DecodeFields_EncodeFields by done.
  unfold DecodeTs. by rewrite strtoull_to_string, ParseWriteType_WriteTypeName by done.
Qed.

(** ** Keys *)

Lemma StripPrefix_app p s : StripPrefix (p +:+ s) p = s.
Proof. apply sdrop_app. Qed.

Lemma slash_no_digit : digit_value "/" = None.
Proof. done. Qed.

Lemma SplitKeyTs_app key ts :
  fits64 ts → SplitKeyTs (key +:+ "/" +:+ EncodeTs ts) = Some (key, ts).
Proof.
  intros Hts. unfold SplitKeyTs. change ("/" +:+ EncodeTs ts) with (String "/" (EncodeTs ts)).
  rewrite rsplit_app by (apply digits_no_char; [apply EncodeTs_digits|done]).
  by rewrite DecodeTs_EncodeTs.
Qed.

Lemma SplitKeyTs_WriteKey key ts :
  fits64 ts → SplitKeyTs (StripPrefix (WriteKey key ts) "write/") = Some (key, ts).
Proof. intros Hts. unfold WriteKey. by rewrite StripPrefix_app, SplitKeyTs_app. Qed.

Lemma key_ts_inj p k1 k2 t1 t2 :
  fits64 t1 → fits64 t2 →
  p +:+ k1 +:+ "/" +:+ EncodeTs t1 = p +:+ k2 +:+ "/" +:+ EncodeTs t2 → k1 = k2 ∧ t1 = t2.
Proof.
  intros H1 H2 Heq%string_app_inj_l. pose proof (SplitKeyTs_app k1 t1 H1) as E.
  rewrite Heq, SplitKeyTs_app in E by done. by simplify_eq.
Qed.

Lemma DataKey_inj k1 k2 t1 t2 :
  fits64 t1 → fits64 t2 → DataKey k1 t1 = DataKey k2 t2 → k1 = k2 ∧ t1 = t2.
Proof. apply key_ts_inj. Qed.

Lemma WriteKey_inj k1 k2 t1 t2 :
  fits64 t1 → fits64 t2 → WriteKey k1 t1 = WriteKey k2 t2 → k1 = k2 ∧ t1 = t2.
Proof. apply key_ts_inj. Qed.

#[global] Instance LockKey_inj : Inj (=) (=) LockKey.
Proof. unfold LockKey. apply _. Qed.

#[global] Instance RevisionKey_inj : Inj (=) (=) RevisionKey.
Proof. unfold RevisionKey. apply _. Qed.

(** ** Properties *)

(** Every list of fields survives the length-prefixed encoding, whatever
    bytes the fields contain. *)
Theorem fields_roundtrip (fields : list string) :
  fits64 (str_size (EncodeFields fields)) → DecodeFields (EncodeFields fields) = Some fields.
Proof. apply DecodeFields_EncodeFields. Qed.

Lemma fields_roundtrip_witness :
  DecodeFields (EncodeFields ["1:a#"; EmptyString; "3:x"]) = Some ["1:a#"; EmptyString; "3:x"].
Proof. apply fields_roundtrip. vm_compute. reflexivity. Defined.

(** A persisted lock decodes to itself: start timestamp, primary, kind
    flags, for-update timestamp and expiry are preserved exactly; the value is
    kept under the data key and the legacy flag is derived from the expiry. *)
Theorem lock_record_roundtrip (now : N) (l : MvccLock) :
  lock_fits l → DecodeLockValue now (EncodeLockValue l) = Some (persisted_lock l).
Proof. apply DecodeLockValue_EncodeLockValue. Qed.

Definition demo_lock : MvccLock :=
  MkLock "acct#1" "v" 7 3000 99 false true false 0 5000 false.

Lemma lock_record_roundtrip_witness :
  DecodeLockValue 1 (EncodeLockValue demo_lock) =
    Some (MkLock "acct#1" EmptyString 7 3000 99 false true false 7 5000 false).
Proof.
  apply (lock_record_roundtrip 1 demo_lock). vm_compute. repeat split; reflexivity.
Defined.

(** The text of a field length for which [begin + length] wraps to zero. *)
Definition wrapping_fields : string := "18446744073709551595:".

(** [DecodeFields] does not terminate on every input: a length field close
    to 2^64 makes [begin + length] wrap to the start of the input, and the loop
    runs forever. *)
Theorem DecodeFieldsLoop_diverges (fuel : nat) (fields : list string) :
  DecodeFieldsLoop fuel wrapping_fields 0 fields = OutOfFuel.
Proof.
  revert fields. induction fuel as [|fuel IH]; intros fields; [done|].
  transitivity (DecodeFieldsLoop fuel wrapping_fields 0 (fields ++ [EmptyString])); [|apply IH].
  cbn [DecodeFieldsLoop].
  destruct (N.leb_spec (str_size wrapping_fields) (N.of_nat 0)); [by vm_compute in H|].
  assert (find_char ":" (sdrop 0 wrapping_fields) = Some 20) as -> by reflexivity.
  assert (strtoull (stake 20 (sdrop 0 wrapping_fields)) = 18446744073709551595%N) as ->
    by (vm_compute; reflexivity).
  assert (N.of_nat (S (0 + 20)) +₆₄ 18446744073709551595 = 0%N) as -> by (vm_compute; reflexivity).
  reflexivity.
Qed.
