(* ===== verification/Hlc.v ===== *)
(** * Hybrid logical timestamps and the durable allocator

    [HlcTimestamp] and [PersistentTimestampOracle] of
    src/src/transaction/include/timestamp_oracle.h and
    src/src/transaction/timestamp_oracle.cpp.  The state file is a string
    option ([None]: the file does not exist); the wall clock and the outcome of
    the system calls that write the file are arguments. *)

From S2P Require Import Prelude KvEngine MvccTypes Codec.

Module HlcTimestamp.

Definition kLogicalBits : N := 18.
Definition kLogicalMask : N := (N.shiftl 1 kLogicalBits - 1)%N.
Definition kMaxPhysicalMs : N := N.shiftr u64_max kLogicalBits.

Definition PhysicalMs (timestamp : N) : N := N.shiftr timestamp kLogicalBits.
Definition Logical (timestamp : N) : N := N.land timestamp kLogicalMask.

Definition Compose (physicalMs logical : N) : result N :=
  if (kMaxPhysicalMs <? physicalMs)%N then Throw "HLC physical time overflow"
  else if (kLogicalMask <? logical)%N then Throw "HLC logical time overflow"
  else Ok (N.lor (N.shiftl physicalMs kLogicalBits) logical).

End HlcTimestamp.

(** ** The state file *)

Fixpoint take_token (s : string) : string * string :=
  match s with
  | EmptyString => (EmptyString, EmptyString)
  | String c s' =>
      if is_space c then (EmptyString, s)
      else let '(t, r) := take_token s' in (String c t, r)
  end.

(** [input >> token]: [None] when the stream has no further token. *)
Definition read_token (s : string) : option (string * string) :=
  match skip_spaces s with
  | EmptyString => None
  | s' => Some (take_token s')
  end.

Fixpoint span_digits (s : string) : string * string :=
  match s with
  | String c s' =>
      match digit_value c with
      | Some _ => let '(d, r) := span_digits s' in (String c d, r)
      | None => (EmptyString, s)
      end
  | EmptyString => (EmptyString, EmptyString)
  end.

(** A signed run of digits at the head of [s]: its value in [unsigned long
    long] (as [strtoull] converts it) and the rest; [None] when there is no
    digit or the magnitude is out of range. *)
Definition read_number (s : string) : option (N * string) :=
  let '(neg, s1) :=
    match s with
    | String c s' =>
        if Ascii.eqb c "-" then (true, s') else if Ascii.eqb c "+" then (false, s') else (false, s)
    | EmptyString => (false, s)
    end in
  let '(d, rest) := span_digits s1 in
  if String.eqb d EmptyString then None
  else
    let v := parse_digits d 0 in
    if (u64_max <? v)%N then None
    else Some (if neg : bool then wrap64 (u64_size - v) else v, rest).

Record PersistedState := MkPersisted {
  limit : N;
  exists_ : bool;
  legacy : bool
}.

(** [ReadPersistedState]; the path is left out of the messages. *)
Definition ReadPersistedState (file : option string) : result PersistedState :=
  match file with
  | None => Ok (MkPersisted 0 false false)
  | Some contents =>
      match read_token contents with
      | None => Throw "invalid TSO state file: "
      | Some (first, rest) =>
          if String.eqb first "v2" then
            match read_number (skip_spaces rest) with
            | None => Throw "invalid TSO v2 state file: "
            | Some (l, rest') =>
                match read_token rest' with
                | Some _ => Throw "trailing data in TSO v2 state file: "
                | None => Ok (MkPersisted l true false)
                end
            end
          else if starts_with "v" first then Throw "unsupported TSO state version in: "
          else
            match read_number first with
            | Some (l, EmptyString) =>
                match read_token rest with
                | Some _ => Throw "trailing data in legacy TSO state file: "
                | None => Ok (MkPersisted l true true)
                end
            | _ => Throw "invalid legacy TSO state file: "
            end
      end
  end.

Definition newline : string := String (ascii_of_nat 10) EmptyString.

(** The bytes [PersistLimitLocked] writes. *)
Definition state_text (l : N) : string := "v2 " +:+ to_string l +:+ newline.

(** How the write, fsync, rename and directory fsync went: an exception before
    the rename leaves the old file, one after it leaves the new file. *)
Inductive persist_outcome := PersistDone | PersistFailedOld | PersistFailedNew.

Definition PersistLimitLocked (out : persist_outcome) (l : N) (file : option string)
    : result unit * option string :=
  match out with
  | PersistDone => (Ok tt, Some (state_text l))
  | PersistFailedOld => (Throw "open temporary TSO state", file)
  | PersistFailedNew => (Throw "fsync TSO state directory", Some (state_text l))
  end.

(** ** The allocator *)

Module PersistentTimestampOracle.

Record t := MkOracle {
  segmentSize_ : N;
  segmentLimit_ : N;
  nextTs_ : N
}.

(** [ReserveThroughLocked] *)
Definition ReserveThroughLocked (out : persist_outcome) (required : N)
    (o : t) (file : option string) : result unit * t * option string :=
  if (required <=? segmentLimit_ o)%N then (Ok tt, o, file)
  else
    let extra := (segmentSize_ o - 1)%N in
    if (u64_max - extra <? required)%N then
      (Throw "TSO timestamp space is exhausted", o, file)
    else
      let newLimit := (required + extra)%N in
      match PersistLimitLocked out newLimit file with
      | (Ok _, file') => (Ok tt, MkOracle (segmentSize_ o) newLimit (nextTs_ o), file')
      | (Throw w, file') => (Throw w, o, file')
      end.

(** [NextCandidateLocked]; [clock] is what the wall clock returns. *)
Definition NextCandidateLocked (clock : N) (o : t) : result N :=
  c ← HlcTimestamp.Compose clock 0;
  mret (N.max (nextTs_ o) c).

Definition Next (clock : N) (out : persist_outcome) (o : t) (file : option string)
    : result N * t * option string :=
  match NextCandidateLocked clock o with
  | Throw w => (Throw w, o, file)
  | Ok candidate =>
      if (candidate =? u64_max)%N then (Throw "TSO timestamp space is exhausted", o, file)
      else
        match ReserveThroughLocked out candidate o file with
        | (Throw w, o', file') => (Throw w, o', file')
        | (Ok _, o', file') =>
            (Ok candidate, MkOracle (segmentSize_ o') (segmentLimit_ o') (candidate + 1), file')
        end
  end.

Definition Peek (clock : N) (o : t) : result N := NextCandidateLocked clock o.

Definition Observe (ts : N) (out : persist_outcome) (o : t) (file : option string)
    : result unit * t * option string :=
  if (ts <? nextTs_ o)%N then (Ok tt, o, file)
  else if (ts =? u64_max)%N then (Throw "observed maximum TSO timestamp", o, file)
  else
    match ReserveThroughLocked out (ts + 1) o file with
    | (Throw w, o', file') => (Throw w, o', file')
    | (Ok _, o', file') => (Ok tt, MkOracle (segmentSize_ o') (segmentLimit_ o') (ts + 1), file')
    end.

(** The constructor, once the lock file is held. *)
Definition Open (segmentSize clock : N) (out : persist_outcome) (file : option string)
    : result t * option string :=
  let size := if (segmentSize =? 0)%N then 1%N else segmentSize in
  match ReadPersistedState file with
  | Throw w => (Throw w, file)
  | Ok persisted =>
      if (limit persisted =? u64_max)%N then (Throw "TSO timestamp space is exhausted", file)
      else
        match HlcTimestamp.Compose clock 0 with
        | Throw w => (Throw w, file)
        | Ok c =>
            let o := MkOracle size (limit persisted) (N.max (limit persisted + 1) c) in
            if legacy persisted then
              match ReserveThroughLocked out (nextTs_ o) o file with
              | (Throw w, _, file') => (Throw w, file')
              | (Ok _, o', file') => (Ok o', file')
              end
            else (Ok o, file)
        end
  end.

End PersistentTimestampOracle.

(** ** Composition of a timestamp *)

Lemma logical_mask_ones : HlcTimestamp.kLogicalMask = N.ones HlcTimestamp.kLogicalBits.
Proof. reflexivity. Qed.

Lemma compose_arith (p l : N) :
  (l <= HlcTimestamp.kLogicalMask)%N ->
  N.lor (N.shiftl p HlcTimestamp.kLogicalBits) l
  = (p * 2 ^ HlcTimestamp.kLogicalBits + l)%N.
Proof.
  intros Hl. rewrite <- N.shiftl_mul_pow2, <- N.lxor_lor, <- N.add_nocarry_lxor.
  1: done.
  all: apply N.bits_inj; intros i; rewrite N.land_spec, N.bits_0.
  all: destruct (N.lt_ge_cases i HlcTimestamp.kLogicalBits) as [Hi|Hi];
    [by rewrite N.shiftl_spec_low|].
  all: rewrite andb_false_iff; right.
  all: destruct (N.eq_dec l 0%N) as [->|Hnz]; [apply N.bits_0|].
  all: apply N.bits_above_log2; apply N.log2_lt_pow2; [lia|].
  all: eapply N.le_lt_trans; [apply Hl|].
  all: eapply N.lt_le_trans; [|apply N.pow_le_mono_r; [lia|apply Hi]]; vm_compute; done.
Qed.

Lemma compose_parts (p l : N) :
  (l <= HlcTimestamp.kLogicalMask)%N ->
  HlcTimestamp.PhysicalMs (p * 2 ^ HlcTimestamp.kLogicalBits + l) = p /\
  HlcTimestamp.Logical (p * 2 ^ HlcTimestamp.kLogicalBits + l) = l.
Proof.
  intros Hl. unfold HlcTimestamp.PhysicalMs, HlcTimestamp.Logical.
  rewrite logical_mask_ones, N.land_ones, N.shiftr_div_pow2.
  assert (Hlt : (l < 2 ^ HlcTimestamp.kLogicalBits)%N).
  { eapply N.le_lt_trans; [apply Hl|]; vm_compute; done. }
  rewrite N.add_comm, N.div_add, N.Div0.mod_add by done.
  rewrite N.div_small, N.mod_small by done. lia.
Qed.

Lemma Compose_Ok (p l ts : N) :
  HlcTimestamp.Compose p l = Ok ts ->
  (l <= HlcTimestamp.kLogicalMask)%N /\ (p <= HlcTimestamp.kMaxPhysicalMs)%N /\
  ts = (p * 2 ^ HlcTimestamp.kLogicalBits + l)%N.
Proof.
  unfold HlcTimestamp.Compose. split_cases; intros [= <-].
  reflect_bools. rewrite compose_arith by lia. lia.
Qed.

(** ** The state file read back *)

Lemma span_digits_app (d r : string) :
  all_digits d -> span_digits r = (EmptyString, r) -> span_digits (d +:+ r) = (d, r).
Proof.
  induction d as [|c d IH]; [done|]. intros [[x Hx] Hd] Hr.
  change (String c d +:+ r) with (String c (d +:+ r)). cbn [span_digits].
  by rewrite Hx, IH.
Qed.

Lemma skip_spaces_digits (d r : string) :
  all_digits d -> d <> EmptyString -> skip_spaces (d +:+ r) = d +:+ r.
Proof.
  destruct d as [|c d]; [done|]. intros [[x Hx] _] _.
  change (skip_spaces (String c (d +:+ r)) = String c (d +:+ r)). cbn [skip_spaces].
  by rewrite (digit_not_space c x).
Qed.

Lemma read_number_digits (d r : string) :
  all_digits d -> d <> EmptyString -> span_digits r = (EmptyString, r) ->
  (parse_digits d 0 <= u64_max)%N -> read_number (d +:+ r) = Some (parse_digits d 0, r).
Proof.
  intros Hd Hne Hr Hfit. pose proof (span_digits_app d r Hd Hr) as Hspan.
  destruct d as [|c d]; [done|]. destruct Hd as [[x Hx] Hd].
  change (String c d +:+ r) with (String c (d +:+ r)) in *.
  unfold read_number.
  rewrite (proj2 (Ascii.eqb_neq c "-")), (proj2 (Ascii.eqb_neq c "+"))
    by (eapply digit_not_char; [done|reflexivity]).
  rewrite Hspan. cbn [String.eqb].
  by rewrite (proj2 (N.ltb_ge _ _) Hfit).
Qed.

Lemma ReadPersistedState_text (l : N) :
  fits64 l -> ReadPersistedState (Some (state_text l)) = Ok (MkPersisted l true false).
Proof.
  intros Hl. unfold ReadPersistedState, state_text.
  change ("v2 " +:+ to_string l +:+ newline)
    with (String "v" (String "2" (String " " (to_string l +:+ newline)))).
  change (read_token (String "v" (String "2" (String " " (to_string l +:+ newline)))))
    with (Some ("v2", String " " (to_string l +:+ newline))).
  cbv beta iota. cbn [String.eqb Ascii.eqb Bool.eqb].
  change (skip_spaces (String " " (to_string l +:+ newline)))
    with (skip_spaces (to_string l +:+ newline)).
  rewrite skip_spaces_digits by auto using to_string_digits, to_string_nonempty.
  rewrite read_number_digits; rewrite ?parse_to_string;
    auto using to_string_digits, to_string_nonempty.
  unfold fits64, u64_size, u64_max in *. lia.
Qed.

(** ** Runs of the allocator with crashes *)

Module TsoRun.
Import PersistentTimestampOracle.

(** [oracle] is [None] while no process owns the state; [issued] holds what
    [Next] returned, newest first, over all processes; [observed] what [Observe]
    accepted in the running process. *)
Record world := MkWorld {
  oracle : option t;
  file : option string;
  issued : list N;
  observed : list N
}.

Definition initial (f : option string) : world := MkWorld None f [] [].

Inductive step : world -> world -> Prop :=
| StepOpen size clock out f o f' iss obs :
    Open size clock out f = (Ok o, f') ->
    step (MkWorld None f iss obs) (MkWorld (Some o) f' iss [])
| StepOpenFails size clock out f w f' iss obs :
    Open size clock out f = (Throw w, f') ->
    step (MkWorld None f iss obs) (MkWorld None f' iss obs)
| StepNext clock out o f ts o' f' iss obs :
    Next clock out o f = (Ok ts, o', f') ->
    step (MkWorld (Some o) f iss obs) (MkWorld (Some o') f' (ts :: iss) obs)
| StepNextFails clock out o f w o' f' iss obs :
    Next clock out o f = (Throw w, o', f') ->
    step (MkWorld (Some o) f iss obs) (MkWorld (Some o') f' iss obs)
| StepObserve ts out o f o' f' iss obs :
    Observe ts out o f = (Ok tt, o', f') ->
    step (MkWorld (Some o) f iss obs) (MkWorld (Some o') f' iss (ts :: obs))
| StepObserveFails ts out o f w o' f' iss obs :
    Observe ts out o f = (Throw w, o', f') ->
    step (MkWorld (Some o) f iss obs) (MkWorld (Some o') f' iss obs)
| StepCrash o f iss obs :
    step (MkWorld o f iss obs) (MkWorld None f iss obs).

Inductive reachable (f : option string) : world -> Prop :=
| ReachInit : reachable f (initial f)
| ReachStep w w' : reachable f w -> step w w' -> reachable f w'.

(** Whatever the file says, it says at least [bound]. *)
Definition durable_at (f : option string) (bound : N) : Prop :=
  forall p, ReadPersistedState f = Ok p -> (bound <= limit p)%N.

Definition all_le (l : list N) (bound : N) : Prop := Forall (fun ts => (ts <= bound)%N) l.
Definition all_lt (l : list N) (bound : N) : Prop := Forall (fun ts => (ts < bound)%N) l.

Record inv (w : world) : Prop := MkInv {
  inv_sorted : StronglySorted (fun a b => (b < a)%N) (issued w);
  inv_down : oracle w = None ->
    forall p, ReadPersistedState (file w) = Ok p -> all_le (issued w) (limit p);
  inv_up : forall o, oracle w = Some o ->
    durable_at (file w) (segmentLimit_ o) /\ all_le (issued w) (segmentLimit_ o) /\
    all_lt (issued w) (nextTs_ o) /\ all_lt (observed w) (nextTs_ o)
}.

Lemma all_le_mono l a b : all_le l a -> (a <= b)%N -> all_le l b.
Proof. intros H Hab. eapply Forall_impl; [exact H|]. simpl. lia. Qed.

Lemma all_lt_mono l a b : all_lt l a -> (a <= b)%N -> all_lt l b.
Proof. intros H Hab. eapply Forall_impl; [exact H|]. simpl. lia. Qed.

(** What a reservation leaves behind: the limit only grows, never above what is
    on disk, and on success it covers the requested timestamp. *)
Lemma ReserveThroughLocked_spec out required o f r o' f' :
  ReserveThroughLocked out required o f = (r, o', f') ->
  durable_at f (segmentLimit_ o) ->
  durable_at f' (segmentLimit_ o') /\ (segmentLimit_ o <= segmentLimit_ o')%N /\
  nextTs_ o' = nextTs_ o /\ segmentSize_ o' = segmentSize_ o /\
  (r = Ok tt -> (required <= segmentLimit_ o')%N).
Proof.
  unfold ReserveThroughLocked. intros HR Hd.
  destruct (N.leb_spec required (segmentLimit_ o)); [by simplify_eq|].
  destruct (N.ltb_spec (u64_max - (segmentSize_ o - 1)) required); [by simplify_eq/=|].
  assert (Hnew : durable_at (Some (state_text (required + (segmentSize_ o - 1))))
                   (required + (segmentSize_ o - 1))).
  { intros p. rewrite ReadPersistedState_text; [intros [= <-]; simpl; lia|].
    unfold fits64, u64_size, u64_max in *. lia. }
  destruct out; simplify_eq/=; split_and!; try done; try lia.
  intros p Hp. apply Hnew in Hp. lia.
Qed.

(** A successful [Open] starts above everything the file has reserved. *)
Lemma Open_spec size clock out f o f' :
  Open size clock out f = (Ok o, f') ->
  exists p, ReadPersistedState f = Ok p /\ (limit p < nextTs_ o)%N /\
    (limit p <= segmentLimit_ o)%N /\ durable_at f' (segmentLimit_ o).
Proof.
  unfold Open. destruct (ReadPersistedState f) as [p|] eqn:Hp; [|done].
  destruct (N.eqb_spec (limit p) u64_max); [done|].
  destruct (HlcTimestamp.Compose clock 0) as [c|]; [|done].
  intros HO. exists p. split; [done|].
  assert (Hd : durable_at f (limit p)) by (intros q Hq; rewrite Hp in Hq; by simplify_eq).
  destruct (legacy p); [|simplify_eq/=; split_and!; try done; lia].
  destruct (ReserveThroughLocked _ _ _ _) as [[[[]|] o1] f1] eqn:HR; simplify_eq.
  apply ReserveThroughLocked_spec in HR as (? & ? & -> & ? & ?); [|done].
  simpl in *. split_and!; try done; lia.
Qed.

Lemma Open_fails_durable size clock out f w f' :
  Open size clock out f = (Throw w, f') ->
  f' = f \/ exists p, ReadPersistedState f = Ok p /\ durable_at f' (limit p).
Proof.
  unfold Open. destruct (ReadPersistedState f) as [p|] eqn:Hp; [|intros; simplify_eq; by left].
  destruct (N.eqb_spec (limit p) u64_max); [intros; simplify_eq; by left|].
  destruct (HlcTimestamp.Compose clock 0) as [c|]; [|intros; simplify_eq; by left].
  destruct (legacy p); [|done].
  destruct (ReserveThroughLocked _ _ _ _) as [[[[]|] o1] f1] eqn:HR; intros; simplify_eq.
  apply ReserveThroughLocked_spec in HR as (Hd & Hle & _);
    [|intros q Hq; rewrite Hp in Hq; by simplify_eq].
  right. exists p. split; [done|]. intros q Hq. apply Hd in Hq. simpl in *. lia.
Qed.

(** A failed or successful [Next] keeps the allocator's bounds. *)
Lemma Next_spec clock out o f r o' f' :
  Next clock out o f = (r, o', f') ->
  durable_at f (segmentLimit_ o) ->
  durable_at f' (segmentLimit_ o') /\ (segmentLimit_ o <= segmentLimit_ o')%N /\
  (nextTs_ o <= nextTs_ o')%N /\
  (forall ts, r = Ok ts ->
     (nextTs_ o <= ts)%N /\ (ts <= segmentLimit_ o')%N /\ nextTs_ o' = (ts + 1)%N /\
     (clock * 2 ^ HlcTimestamp.kLogicalBits <= ts)%N).
Proof.
  unfold Next, NextCandidateLocked. intros HN Hd.
  destruct (HlcTimestamp.Compose clock 0) as [c|] eqn:Hc; simplify_eq/=;
    [|split_and!; try done; lia].
  apply Compose_Ok in Hc as (_ & _ & Hc).
  destruct (N.eqb_spec (N.max (nextTs_ o) c) u64_max); simplify_eq/=;
    [split_and!; try done; lia|].
  destruct (ReserveThroughLocked _ _ _ _) as [[[[]|] o1] f1] eqn:HR; simplify_eq/=;
    apply ReserveThroughLocked_spec in HR as (? & ? & Hn & ? & Hr); [|done| |done].
  - specialize (Hr eq_refl). split_and!; try done; [lia|]. intros ts [= <-]. lia.
  - split_and!; try done; lia.
Qed.

Lemma Observe_spec ts out o f r o' f' :
  Observe ts out o f = (r, o', f') ->
  durable_at f (segmentLimit_ o) ->
  durable_at f' (segmentLimit_ o') /\ (segmentLimit_ o <= segmentLimit_ o')%N /\
  (nextTs_ o <= nextTs_ o')%N /\ (r = Ok tt -> (ts < nextTs_ o')%N).
Proof.
  unfold Observe. intros HO Hd.
  destruct (N.ltb_spec ts (nextTs_ o)); [by simplify_eq|].
  destruct (N.eqb_spec ts u64_max); [by simplify_eq|].
  destruct (ReserveThroughLocked _ _ _ _) as [[[[]|] o1] f1] eqn:HR; simplify_eq/=;
    apply ReserveThroughLocked_spec in HR as (? & ? & Hn & ? & Hr); try done;
    split_and!; try done; lia.
Qed.

Lemma inv_initial f : inv (initial f).
Proof. split; simpl; [constructor|by constructor|done]. Qed.

Lemma inv_step w w' : inv w -> step w w' -> inv w'.
Proof.
  intros [Hs Hdown Hup] Hst. destruct Hst as
    [size clock out f o f' iss obs HO|size clock out f m f' iss obs HO
    |clock out o f ts o' f' iss obs HN|clock out o f m o' f' iss obs HN
    |ts out o f o' f' iss obs HO|ts out o f m o' f' iss obs HO|o f iss obs]; simpl in *.
  - apply Open_spec in HO as (p & Hp & Hn & Hl & Hd). specialize (Hdown eq_refl p Hp).
    split; simpl; [done..|]. intros ? [= <-].
    split_and!; [done|by eapply all_le_mono| |constructor].
    eapply Forall_impl; [exact Hdown|]. simpl. lia.
  - apply Open_fails_durable in HO as [->|(p & Hp & Hd)]; split; simpl; try done.
    intros _ q Hq. specialize (Hdown eq_refl p Hp). apply Hd in Hq. by eapply all_le_mono.
  - destruct (Hup o eq_refl) as (Hd & Hle & Hlt & Hob).
    apply Next_spec in HN as (Hd' & Hl & Hn & Hr); [|done].
    destruct (Hr ts eq_refl) as (? & ? & Heq & _).
    split; simpl; [|done|].
    + constructor; [done|]. eapply Forall_impl; [exact Hlt|]. simpl. lia.
    + intros ? [= <-]. rewrite Heq. split_and!; [done|..]; [constructor..|]; try lia;
        [by eapply all_le_mono| |]; eapply all_lt_mono; eauto; lia.
  - destruct (Hup o eq_refl) as (Hd & Hle & Hlt & Hob).
    apply Next_spec in HN as (Hd' & Hl & Hn & _); [|done].
    split; simpl; [done..|]. intros ? [= <-].
    split_and!; [done|by eapply all_le_mono|by eapply all_lt_mono..].
  - destruct (Hup o eq_refl) as (Hd & Hle & Hlt & Hob).
    apply Observe_spec in HO as (Hd' & Hl & Hn & Hr); [|done]. specialize (Hr eq_refl).
    split; simpl; [done..|]. intros ? [= <-].
    split_and!; [done|by eapply all_le_mono|by eapply all_lt_mono|].
    constructor; [done|by eapply all_lt_mono].
  - destruct (Hup o eq_refl) as (Hd & Hle & Hlt & Hob).
    apply Observe_spec in HO as (Hd' & Hl & Hn & _); [|done].
    split; simpl; [done..|]. intros ? [= <-].
    split_and!; [done|by eapply all_le_mono|by eapply all_lt_mono..].
  - split; simpl; [done| |done]. intros _ p Hp. destruct o as [o|]; [|by apply Hdown].
    destruct (Hup o eq_refl) as (Hd & Hle & _). eapply all_le_mono; [done|]. by apply Hd.
Qed.

Lemma inv_reachable f w : reachable f w -> inv w.
Proof. induction 1; eauto using inv_initial, inv_step. Qed.

(** [C13] Over any sequence of opens, allocations, observations, failed writes
    and crashes, with an arbitrary wall clock, the timestamps [Next] returns are
    strictly increasing; while a process runs they also exceed everything it
    accepted through [Observe]. *)
Theorem issued_strictly_increasing (f : option string) (w : world) :
  reachable f w ->
  StronglySorted (fun a b => (b < a)%N) (issued w) /\
  (forall clock out o ts o' f', oracle w = Some o ->
     Next clock out o (file w) = (Ok ts, o', f') ->
     all_lt (issued w) ts /\ all_lt (observed w) ts /\
     (clock <= HlcTimestamp.PhysicalMs ts)%N).
Proof.
  intros [Hs _ Hup]%inv_reachable. split; [done|].
  intros clock out o ts o' f' Ho HN. destruct (Hup o Ho) as (Hd & _ & Hlt & Hob).
  apply Next_spec in HN as (_ & _ & _ & Hr); [|done].
  destruct (Hr ts eq_refl) as (Hn & _ & _ & Hclock).
  split_and!; [by eapply all_lt_mono..|].
  unfold HlcTimestamp.PhysicalMs. rewrite N.shiftr_div_pow2.
  apply N.div_le_lower_bound; [done|]. lia.
Qed.

(** A run that opens a fresh state at clock 5, allocates twice, crashes and is
    reopened with the clock set back to 0. *)
Lemma issued_strictly_increasing_witness :
  exists w, reachable None w /\ issued w = [1310722; 1310720]%N /\
    StronglySorted (fun a b => (b < a)%N) (issued w).
Proof.
  exists (MkWorld (Some (MkOracle 2 1310723 1310723)) (Some (state_text 1310723))
            [1310722; 1310720]%N []).
  assert (Hr : reachable None (MkWorld (Some (MkOracle 2 1310723 1310723))
                (Some (state_text 1310723)) [1310722; 1310720]%N [])).
  { eapply ReachStep; [eapply ReachStep; [eapply ReachStep; [eapply ReachStep;
      [eapply ReachStep; [apply ReachInit|]|]|]|]|].
    - apply (StepOpen 2 5 PersistDone); vm_compute; reflexivity.
    - apply (StepNext 5 PersistDone); vm_compute; reflexivity.
    - apply StepCrash.
    - apply (StepOpen 2 0 PersistDone); vm_compute; reflexivity.
    - apply (StepNext 0 PersistDone); vm_compute; reflexivity. }
  split; [exact Hr|]. split; [reflexivity|].
  exact (proj1 (issued_strictly_increasing None _ Hr)).
Defined.

(** An observation below a clock-derived [nextTs_] is acknowledged without being
    written, so a restart with an earlier clock issues timestamps below it. *)
Theorem Observe_not_durable :
  exists o o' f ts,
    Open 1 5 PersistDone None = (Ok o, f) /\
    Observe 1000 PersistDone o f = (Ok tt, o, f) /\
    Open 1 0 PersistDone f = (Ok o', f) /\
    Next 0 PersistDone o' f = (Ok ts, MkOracle 1 ts (ts + 1), Some (state_text ts)) /\
    (ts < 1000)%N.
Proof.
  exists (MkOracle 1 0 1310720), (MkOracle 1 0 1), None, 1%N. split_and!; reflexivity.
Qed.

End TsoRun.

(** A composed timestamp fits in 64 bits, gives its parts back, and
    composition is monotone in the lexicographic order of (physical, logical). *)
Theorem Compose_parts (p l p' l' ts ts' : N) :
  HlcTimestamp.Compose p l = Ok ts -> HlcTimestamp.Compose p' l' = Ok ts' ->
  fits64 ts /\ HlcTimestamp.PhysicalMs ts = p /\ HlcTimestamp.Logical ts = l /\
  ((ts < ts')%N <-> (p < p')%N \/ p = p' /\ (l < l')%N).
Proof.
  intros (Hl & Hp & ->)%Compose_Ok (Hl' & Hp' & ->)%Compose_Ok.
  destruct (compose_parts p l Hl) as [-> ->].
  change HlcTimestamp.kLogicalMask with 262143%N in *.
  change HlcTimestamp.kMaxPhysicalMs with 70368744177663%N in *.
  change (2 ^ HlcTimestamp.kLogicalBits)%N with 262144%N.
  unfold fits64, u64_size. split_and!; try done; [lia|]. split; intros H; lia.
Qed.

Lemma Compose_parts_witness :
  HlcTimestamp.PhysicalMs 1310727 = 5%N /\ HlcTimestamp.Logical 1310727 = 7%N.
Proof.
  destruct (Compose_parts 5 7 6 0 1310727 1572864 eq_refl eq_refl) as (_ & H1 & H2 & _).
  split; [exact H1 | exact H2].
Defined.
