(* ===== verification/Mvcc.v ===== *)
(** * The MVCC state machine of one Region

    [MvccStorage] of src/src/transaction/mvcc_storage.cpp.  An engine [E]
    behind the [KVEngine] interface holds the persistent key space; the state
    adds the in-memory lock table, write index, revisions and Raft progress.
    Every operation is one critical section of [mutex_], so it is a function on
    the state.  Readings of [NowMs()] are arguments ([now], and [now2] where one
    call makes two readings).  The traversal order of an [unordered_map] is that
    of [map_to_list]. *)

From S2P Require Import Prelude KvEngine MvccTypes Codec Hlc.

Module MvccStorage.

Record t {E : Type} := MkMvcc {
  engine_ : E;
  locks_ : gmap string MvccLock;
  writes_ : gmap string (gmap N MvccWrite);
  revisions_ : gmap string N;
  writeBatchCount_ : N;
  appliedRaftIndex_ : N
}.
#[global] Arguments t : clear implicits.
#[global] Arguments MkMvcc {E}.

Section operations.
Context {E : Type} `{!KVEngine E}.
Implicit Types (s : t E) (key primaryKey value : string).

(** The versions of a key; an absent index entry and an empty one take the same
    path through every operation. *)
Definition versions s key : gmap N MvccWrite := default ∅ (writes_ s !! key).

(** ** Reads *)

Definition not_data (w : MvccWrite) : bool :=
  bool_decide (w_type w = WRollback) || bool_decide (w_type w = WLock).

Definition started_at (startTs : N) (item : N * MvccWrite) : bool :=
  (w_startTs item.2 =? startTs)%N.

Definition is_rollback (w : MvccWrite) : bool := bool_decide (w_type w = WRollback).

(** The loop that sets [hasFinishedWrite]. *)
Definition hasFinishedWrite s key (startTs : N) : bool :=
  existsb (started_at startTs) (om_list (versions s key)).

(** The read is blocked by an unfinished lock of the snapshot. *)
Definition lock_blocks s key (readTs : N) : bool :=
  match locks_ s !! key with
  | Some l => (lock_startTs l <=? readTs)%N && negb (hasFinishedWrite s key (lock_startTs l))
  | None => false
  end.

Definition engine_value s key (startTs : N) : TxnStatus * option string :=
  match kv_get (engine_ s) (DataKey key startTs) with
  | Some v => (StOk, Some v)
  | None => (StStorageError, None)
  end.

(** The [do ... while] of [Get], over the versions at or below the snapshot,
    newest first. *)
Fixpoint get_loop s key (visible : list (N * MvccWrite)) : TxnStatus * option string :=
  match visible with
  | [] => (StNotFound, None)
  | (_, write) :: older =>
      if not_data write then
        match older with
        | [] => (StNotFound, None)
        | _ => get_loop s key older
        end
      else if bool_decide (w_type write = WDelete) then (StNotFound, None)
      else engine_value s key (w_startTs write)
  end.

Definition Get s key (readTs : N) : TxnStatus * option string :=
  if lock_blocks s key readTs then (StLockConflict, None)
  else get_loop s key (om_down (versions s key) readTs).

(** [ReadCommittedLocked]: status, the value it stores and the commit
    timestamp it stores (set for a delete as well). *)
Fixpoint read_loop s key (visible : list (N * MvccWrite)) : TxnStatus * option string * option N :=
  match visible with
  | [] => (StNotFound, None, None)
  | (commitTs, write) :: older =>
      if not_data write then read_loop s key older
      else if bool_decide (w_type write = WDelete) then (StNotFound, None, Some commitTs)
      else (engine_value s key (w_startTs write), Some commitTs)
  end.

Definition ReadCommittedLocked s key (readTs : N) : TxnStatus * option string * option N :=
  read_loop s key (om_down (versions s key) readTs).

Definition in_scan_range (startKey endKey key : string) : bool :=
  negb (str_ltb key startKey) &&
  (String.eqb endKey EmptyString || str_ltb key endKey).

(** [std::unique] on a sorted vector. *)
Fixpoint unique_adjacent (l : list string) : list string :=
  match l with
  | a :: ((b :: _) as l') => if String.eqb a b then unique_adjacent l' else a :: unique_adjacent l'
  | _ => l
  end.

Definition sort_names (l : list string) : list string := merge_sort (str_le_on id) l.

Definition scan_names s (startKey endKey : string) : list string :=
  unique_adjacent (sort_names
    (filter (λ k, in_scan_range startKey endKey k = true) ((map_to_list (writes_ s)).*1) ++
     filter (λ k, in_scan_range startKey endKey k = true) ((map_to_list (locks_ s)).*1))).

Fixpoint scan_loop s (readTs limit : N) (names : list string)
    (entries : list (string * string)) : TxnStatus * list (string * string) :=
  match names with
  | [] => (StOk, entries)
  | key :: names' =>
      if negb (limit =? 0)%N && (limit <=? N.of_nat (length entries))%N then (StOk, entries)
      else if lock_blocks s key readTs then (StLockConflict, [])
      else
        match ReadCommittedLocked s key readTs with
        | (StOk, Some v, _) => scan_loop s readTs limit names' (entries ++ [(key, v)])
        | _ => scan_loop s readTs limit names' entries
        end
  end.

(** [Scan]; [entries] is the vector the caller passes in. *)
Definition Scan s (startKey endKey : string) (readTs limit : N)
    (entries : list (string * string)) : TxnStatus * list (string * string) :=
  if negb (String.eqb endKey EmptyString) && str_leb endKey startKey then (StStorageError, entries)
  else scan_loop s readTs limit (scan_names s startKey endKey) entries.

(** ** Write conflicts *)

Definition rolled_back_at s key (startTs : N) : bool :=
  existsb (λ item, started_at startTs item && is_rollback item.2) (om_list (versions s key)).

(** [rbegin()->first >= startTs] *)
Definition newest_at_least s key (startTs : N) : bool :=
  match om_last_key (versions s key) with
  | Some newest => (startTs <=? newest)%N
  | None => false
  end.

Definition PrecheckPrewrite s key (startTs : N) : TxnStatus :=
  match locks_ s !! key with
  | Some l =>
      if negb (lock_startTs l =? startTs)%N then StLockConflict
      else if rolled_back_at s key startTs then StWriteConflict
      else if newest_at_least s key startTs then StWriteConflict
      else StOk
  | None =>
      if rolled_back_at s key startTs then StWriteConflict
      else if newest_at_least s key startTs then StWriteConflict
      else StOk
  end.

Definition CurrentRevisionLocked s key : N := default 0%N (revisions_ s !! key).

(** [AppendRevisionMutationLocked]: the extended batch and the new revision. *)
Definition AppendRevisionMutationLocked s key (ops : list KVBatchOp) : list KVBatchOp * N :=
  let newRevision := CurrentRevisionLocked s key +₆₄ 1 in
  (ops ++ [PutOp (RevisionKey key) (to_string newRevision)], newRevision).

(** A prepared write that stops with [st], and one that carries [ops] and the
    revision bump. *)
Definition prepared_stop s key (version : N) (st : TxnStatus) : PreparedMvccWrite :=
  MkPrepared version st (CurrentRevisionLocked s key) 0 [] StNotFound EmptyString 0
    default_TxnRecordStatus.

Definition prepared_ok s key (version : N) (ops : list KVBatchOp) : PreparedMvccWrite :=
  let '(mods, newRev) := AppendRevisionMutationLocked s key ops in
  MkPrepared version StOk (CurrentRevisionLocked s key) newRev mods StNotFound EmptyString 0
    default_TxnRecordStatus.

(** ** Prepare: read-only, the result is proposed to Raft *)

(** The lock a prewrite installs: a pessimistic lock hands over its
    [forUpdateTs] and expiry, a fresh one derives them. *)
Definition prewrite_lock (existing : option MvccLock) (value primaryKey : string)
    (startTs ttl : N) (del : bool) (forUpdate now now2 : N) : MvccLock :=
  match existing with
  | Some l =>
      MkLock primaryKey value startTs ttl now del false false
        (forUpdateTs l) (expireAtPhysicalMs l) (legacyExpiry l)
  | None =>
      let fu := if (forUpdate =? 0)%N then startTs else forUpdate in
      let baseMs := HlcTimestamp.PhysicalMs fu in
      MkLock primaryKey value startTs ttl now del false false
        fu ((if (0 <? baseMs)%N then baseMs else now2) +₆₄ ttl) false
  end.

Definition data_op key value (startTs : N) (del : bool) : KVBatchOp :=
  if del then DelOp (DataKey key startTs) else PutOp (DataKey key startTs) value.

Definition PreparePrewrite s key value primaryKey (startTs ttl : N) (del : bool)
    (forUpdate now now2 : N) : PreparedMvccWrite :=
  let stop := prepared_stop s key kLegacyCommandVersion in
  let proceed existing :=
    if rolled_back_at s key startTs then stop StWriteConflict
    else if newest_at_least s key startTs then stop StWriteConflict
    else
      let l := prewrite_lock existing value primaryKey startTs ttl del forUpdate now now2 in
      prepared_ok s key kLegacyCommandVersion
        [data_op key value startTs del; PutOp (LockKey key) (EncodeLockValue l)] in
  match locks_ s !! key with
  | Some existing =>
      if negb (lock_startTs existing =? startTs)%N then stop StLockConflict
      else if negb (String.eqb (MvccTypes.primaryKey existing) primaryKey) then stop StLockConflict
      else if negb (isPessimistic existing) then stop StOk
      else if negb (forUpdate =? 0)%N && (forUpdate <? forUpdateTs existing)%N then stop StWriteConflict
      else if (forUpdate =? 0)%N && negb (legacyExpiry existing) && isPessimistic existing
      then stop StWriteConflict
      else proceed (Some existing)
  | None => proceed None
  end.

(** Record the outcome of [ReadCommittedLocked] in a prepared write. *)
Definition with_read (read : TxnStatus * option string * option N) (p : PreparedMvccWrite)
    : PreparedMvccWrite :=
  let '(st, v, c) := read in
  MkPrepared (commandVersion p) (p_status p) (expectedRevision p) (newRevision p) (modifications p)
    st (default EmptyString v) (default 0%N c) (txnRecordStatus p).

Definition with_version (version : N) (p : PreparedMvccWrite) : PreparedMvccWrite :=
  MkPrepared version (p_status p) (expectedRevision p) (newRevision p) (modifications p)
    (readStatus p) (readValue p) (readCommitTs p) (txnRecordStatus p).

Definition with_status (st : TxnStatus) (p : PreparedMvccWrite) : PreparedMvccWrite :=
  MkPrepared (commandVersion p) st (expectedRevision p) (newRevision p) (modifications p)
    (readStatus p) (readValue p) (readCommitTs p) (txnRecordStatus p).

Definition with_record (r : TxnRecordStatus) (p : PreparedMvccWrite) : PreparedMvccWrite :=
  MkPrepared (commandVersion p) (p_status p) (expectedRevision p) (newRevision p) (modifications p)
    (readStatus p) (readValue p) (readCommitTs p) r.

(** The loop from [rbegin()]: the newest version that is not a rollback. *)
Definition newest_effective s key : option N :=
  fst <$> head (filter (λ item, is_rollback item.2 = false) (reverse (om_list (versions s key)))).

Definition advanced_lock (l : MvccLock) (fu expiry : N) : MvccLock :=
  MkLock (primaryKey l) (lock_value l) (lock_startTs l) (ttlMs l) (createTimeMs l) (isDelete l)
    (isPessimistic l) (isLockOnly l) fu expiry (expiry =? 0)%N.

Definition pessimistic_lock primaryKey (startTs ttl now fu expireAt : N) : MvccLock :=
  MkLock primaryKey EmptyString startTs ttl now false true false fu expireAt (expireAt =? 0)%N.

Definition PreparePessimisticLock s key primaryKey (startTs ttl forUpdate expireAt now : N)
    : PreparedMvccWrite :=
  let stop := prepared_stop s key kCommandVersion in
  let requested := if (forUpdate =? 0)%N then startTs else forUpdate in
  match locks_ s !! key with
  | Some existing =>
      if negb (lock_startTs existing =? startTs)%N then stop StLockConflict
      else if negb (isPessimistic existing) ||
              negb (String.eqb (MvccTypes.primaryKey existing) primaryKey) then stop StLockConflict
      else
        let effectiveForUpdateTs := N.max (forUpdateTs existing) requested in
        let read := ReadCommittedLocked s key effectiveForUpdateTs in
        if bool_decide (read.1.1 = StStorageError) then with_read read (stop StStorageError)
        else
          let effectiveExpiry := N.max (expireAtPhysicalMs existing) expireAt in
          if (effectiveForUpdateTs =? forUpdateTs existing)%N &&
             (effectiveExpiry =? expireAtPhysicalMs existing)%N
          then with_read read (stop StOk)
          else
            let advanced := advanced_lock existing effectiveForUpdateTs effectiveExpiry in
            with_read read (prepared_ok s key kCommandVersion
              [PutOp (LockKey key) (EncodeLockValue advanced)])
  | None =>
      if rolled_back_at s key startTs then stop StWriteConflict
      else if (match newest_effective s key with
               | Some latest => (requested <? latest)%N
               | None => false
               end) then stop StWriteConflict
      else
        let read := ReadCommittedLocked s key requested in
        if bool_decide (read.1.1 = StStorageError) then with_read read (stop StStorageError)
        else
          let l := pessimistic_lock primaryKey startTs ttl now requested expireAt in
          with_read read (prepared_ok s key kCommandVersion
            [PutOp (LockKey key) (EncodeLockValue l)])
  end.

Definition upgraded_lock (l : MvccLock) (ttl : N) : MvccLock :=
  MkLock (primaryKey l) (lock_value l) (lock_startTs l) ttl (createTimeMs l) (isDelete l)
    false true (forUpdateTs l) (expireAtPhysicalMs l) (legacyExpiry l).

Definition PreparePrewriteLock s key primaryKey (startTs ttl forUpdate : N) : PreparedMvccWrite :=
  let stop := prepared_stop s key kCommandVersion in
  match locks_ s !! key with
  | None => stop StNotFound
  | Some existing =>
      if negb (lock_startTs existing =? startTs)%N ||
         negb (String.eqb (MvccTypes.primaryKey existing) primaryKey) then stop StLockConflict
      else if negb (isPessimistic existing) then
        stop (if isLockOnly existing then StOk else StLockConflict)
      else if negb (forUpdate =? 0)%N && (forUpdate <? forUpdateTs existing)%N
      then stop StWriteConflict
      else prepared_ok s key kCommandVersion
             [PutOp (LockKey key) (EncodeLockValue (upgraded_lock existing ttl))]
  end.

(** The first version, in commit order, written by the transaction. *)
Definition find_write s key (startTs : N) : option (N * MvccWrite) :=
  head (filter (λ item, started_at startTs item = true) (om_list (versions s key))).

(** The loop from [lower_bound(startTs)] while [first <= commitTs]. *)
Definition overlapping_write s key (startTs commitTs : N) : bool :=
  existsb (λ item, (startTs <=? item.1)%N && (item.1 <=? commitTs)%N &&
                   negb (w_startTs item.2 =? startTs)%N && negb (is_rollback item.2))
    (om_list (versions s key)).

Definition commit_type (l : MvccLock) : MvccWriteType :=
  if isLockOnly l then WLock else if isDelete l then WDelete else WPut.

(** The guards [PrepareCommit] and [Commit] share: the status to stop with, or
    the lock to commit. *)
Definition commit_guard s key (startTs commitTs : N) : TxnStatus + MvccLock :=
  match locks_ s !! key with
  | None =>
      match find_write s key startTs with
      | Some (_, w) => inl (if is_rollback w then StWriteConflict else StAlreadyCommitted)
      | None => inl StNotFound
      end
  | Some l =>
      if negb (lock_startTs l =? startTs)%N then inl StLockConflict
      else if (commitTs <=? N.max startTs (forUpdateTs l))%N then inl StWriteConflict
      else
        match versions s key !! commitTs with
        | Some w => inl (if (w_startTs w =? startTs)%N then StAlreadyCommitted else StWriteConflict)
        | None => if overlapping_write s key startTs commitTs then inl StWriteConflict else inr l
        end
  end.

Definition commit_ops key (startTs commitTs : N) (l : MvccLock) : list KVBatchOp :=
  [PutOp (WriteKey key commitTs) (EncodeWriteValue (MkWrite startTs commitTs (commit_type l)));
   DelOp (LockKey key)].

Definition PrepareCommit s key (startTs commitTs : N) : PreparedMvccWrite :=
  match commit_guard s key startTs commitTs with
  | inl st => prepared_stop s key kLegacyCommandVersion st
  | inr l => prepared_ok s key kLegacyCommandVersion (commit_ops key startTs commitTs l)
  end.

Definition locked_by s key (startTs : N) : bool :=
  match locks_ s !! key with
  | Some l => (lock_startTs l =? startTs)%N
  | None => false
  end.

Definition rollback_record (startTs : N) : MvccWrite := MkWrite startTs startTs WRollback.

Definition rollback_ops s key (startTs : N) : list KVBatchOp :=
  (if locked_by s key startTs then [DelOp (LockKey key)] else []) ++
  [DelOp (DataKey key startTs);
   PutOp (WriteKey key startTs) (EncodeWriteValue (rollback_record startTs))].

Definition PrepareRollbackLocked s key (startTs : N) : PreparedMvccWrite :=
  match find_write s key startTs with
  | Some (_, w) =>
      prepared_stop s key kLegacyCommandVersion (if is_rollback w then StOk else StAlreadyCommitted)
  | None => prepared_ok s key kLegacyCommandVersion (rollback_ops s key startTs)
  end.

Definition PrepareRollback s key (startTs : N) : PreparedMvccWrite :=
  PrepareRollbackLocked s key startTs.

(** ** Transaction status and lock resolution *)

Definition InspectTxnStatusLocked s key (startTs : N) : TxnRecordStatus :=
  match find_write s key startTs with
  | Some (commitTs, w) =>
      if is_rollback w then MkTxnRecordStatus RsRolledBack 0 None
      else MkTxnRecordStatus RsCommitted commitTs None
  | None =>
      match locks_ s !! key with
      | Some l =>
          if (lock_startTs l =? startTs)%N then MkTxnRecordStatus RsLocked 0 (Some l)
          else default_TxnRecordStatus
      | None => default_TxnRecordStatus
      end
  end.

(** A lock without an HLC expiry is never expired here. *)
Definition hlc_expired (l : MvccLock) (currentPhysicalMs : N) : bool :=
  negb (legacyExpiry l) && negb (expireAtPhysicalMs l =? 0)%N &&
  (expireAtPhysicalMs l <=? currentPhysicalMs)%N.

Definition PrepareCheckTxnStatus s primaryKey (startTs currentPhysicalMs : N)
    (rollbackIfExpired : bool) : PreparedMvccWrite :=
  let inspected := InspectTxnStatusLocked s primaryKey startTs in
  let prepared := with_record inspected
                    (prepared_stop s primaryKey kLegacyCommandVersion StOk) in
  if negb rollbackIfExpired || negb (bool_decide (trs_state inspected = RsLocked)) then prepared
  else
    match trs_lock inspected with
    | None => prepared
    | Some txnLock =>
        if negb (hlc_expired txnLock currentPhysicalMs) then prepared
        else
          let rb := PrepareRollbackLocked s primaryKey startTs in
          if bool_decide (p_status rb = StOk)
          then with_record (MkTxnRecordStatus RsRolledBack 0 None) (with_version kCommandVersion rb)
          else rb
    end.

Definition PrepareResolveLock s key (startTs : N) (decision : TxnRecordState) (commitTs : N)
    : PreparedMvccWrite :=
  if bool_decide (decision = RsCommitted) && negb (commitTs =? 0)%N then
    with_version kCommandVersion (PrepareCommit s key startTs commitTs)
  else if bool_decide (decision = RsRolledBack) then
    with_version kCommandVersion (PrepareRollback s key startTs)
  else default_PreparedMvccWrite.

(** ** Batches of keys *)

Definition sort_mutations (l : list MvccMutation) : list MvccMutation :=
  merge_sort (str_le_on mut_key) l.

(** The loops append to [items]; [previous] is the key of the element before,
    if any. *)
Fixpoint batch_prewrite_loop s primaryKey (startTs ttl forUpdate now now2 : N)
    (previous : option string) (items : list PreparedMvccBatchItem)
    (ordered : list MvccMutation) : PreparedMvccBatch :=
  match ordered with
  | [] => MkBatch kBatchCommandVersion StOk items
  | m :: rest =>
      if String.eqb (mut_key m) EmptyString || bool_decide (previous = Some (mut_key m))
      then MkBatch kBatchCommandVersion StStorageError items
      else
        let prepared :=
          if mut_isLockOnly m
          then PreparePrewriteLock s (mut_key m) primaryKey startTs ttl forUpdate
          else PreparePrewrite s (mut_key m) (mut_value m) primaryKey startTs ttl
                 (mut_isDelete m) forUpdate now now2 in
        if negb (bool_decide (p_status prepared = StOk))
        then MkBatch kBatchCommandVersion (p_status prepared) []
        else batch_prewrite_loop s primaryKey startTs ttl forUpdate now now2
               (Some (mut_key m)) (items ++ [MkItem (mut_key m) prepared]) rest
  end.

(** The readings of [NowMs()] made for the keys of one batch are taken equal. *)
Definition PrepareBatchPrewrite s (mutations : list MvccMutation) primaryKey
    (startTs ttl forUpdate now now2 : N) : PreparedMvccBatch :=
  match sort_mutations mutations with
  | [] => default_PreparedMvccBatch
  | ordered => batch_prewrite_loop s primaryKey startTs ttl forUpdate now now2 None [] ordered
  end.

Fixpoint batch_keys_loop (prepare : string → PreparedMvccWrite)
    (items : list PreparedMvccBatchItem) (ordered : list string) : PreparedMvccBatch :=
  match ordered with
  | [] => MkBatch kBatchCommandVersion StOk items
  | key :: rest =>
      let prepared := prepare key in
      if negb (bool_decide (p_status prepared = StOk))
      then MkBatch kBatchCommandVersion (p_status prepared) []
      else batch_keys_loop prepare (items ++ [MkItem key prepared]) rest
  end.

Definition PrepareBatchCommit s (keys : list string) (startTs commitTs : N) : PreparedMvccBatch :=
  match unique_adjacent (sort_names keys) with
  | [] => default_PreparedMvccBatch
  | EmptyString :: _ => default_PreparedMvccBatch
  | ordered =>
      batch_keys_loop (λ key,
        let prepared := PrepareCommit s key startTs commitTs in
        if bool_decide (p_status prepared = StAlreadyCommitted)
        then with_status StOk prepared else prepared) [] ordered
  end.

Definition PrepareBatchRollback s (keys : list string) (startTs : N) : PreparedMvccBatch :=
  match unique_adjacent (sort_names keys) with
  | [] => default_PreparedMvccBatch
  | EmptyString :: _ => default_PreparedMvccBatch
  | ordered => batch_keys_loop (λ key, PrepareRollback s key startTs) [] ordered
  end.

(** ** Apply: deterministic, driven by committed Raft entries *)

Definition set_engine s (e : E) : t E :=
  MkMvcc e (locks_ s) (writes_ s) (revisions_ s) (writeBatchCount_ s) (appliedRaftIndex_ s).

Definition set_locks s (ls : gmap string MvccLock) : t E :=
  MkMvcc (engine_ s) ls (writes_ s) (revisions_ s) (writeBatchCount_ s) (appliedRaftIndex_ s).

Definition set_writes s (ws : gmap string (gmap N MvccWrite)) : t E :=
  MkMvcc (engine_ s) (locks_ s) ws (revisions_ s) (writeBatchCount_ s) (appliedRaftIndex_ s).

Definition set_revisions s (rs : gmap string N) : t E :=
  MkMvcc (engine_ s) (locks_ s) (writes_ s) rs (writeBatchCount_ s) (appliedRaftIndex_ s).

Definition count_batch s : t E :=
  MkMvcc (engine_ s) (locks_ s) (writes_ s) (revisions_ s) (writeBatchCount_ s +₆₄ 1)
    (appliedRaftIndex_ s).

(** [if (appliedRaftIndex != 0) appliedRaftIndex_ = appliedRaftIndex] *)
Definition set_applied s (index : N) : t E :=
  MkMvcc (engine_ s) (locks_ s) (writes_ s) (revisions_ s) (writeBatchCount_ s)
    (if (index =? 0)%N then appliedRaftIndex_ s else index).

(** [writes_[key][commitTs] = write] and [writes->second.erase(commitTs)] *)
Definition put_write s key (commitTs : N) (write : MvccWrite) : t E :=
  set_writes s (<[key := <[commitTs := write]> (versions s key)]> (writes_ s)).

Definition erase_write s key (commitTs : N) : t E :=
  match writes_ s !! key with
  | Some ws => set_writes s (<[key := delete commitTs ws]> (writes_ s))
  | None => s
  end.

Definition put_lock s key (l : MvccLock) : t E := set_locks s (<[key := l]> (locks_ s)).
Definition erase_lock s key : t E := set_locks s (delete key (locks_ s)).
Definition put_revision s key (r : N) : t E := set_revisions s (<[key := r]> (revisions_ s)).

Definition ApplyMetadataMutationLocked (now : N) s (op : KVBatchOp) : t E :=
  if starts_with "lock/" (op_key op) then
    let key := StripPrefix (op_key op) "lock/" in
    match op_type op with
    | OpDelete => erase_lock s key
    | OpPut =>
        match DecodeLockValue now (op_value op) with
        | Some l => put_lock s key l
        | None => s
        end
    end
  else if starts_with "write/" (op_key op) then
    match SplitKeyTs (StripPrefix (op_key op) "write/") with
    | None => s
    | Some (key, commitTs) =>
        match op_type op with
        | OpDelete => erase_write s key commitTs
        | OpPut =>
            match DecodeWriteValue (op_value op) with
            | Some w => put_write s key commitTs (MkWrite (w_startTs w) commitTs (w_type w))
            | None => s
            end
        end
    end
  else if starts_with "meta/revision/" (op_key op) && bool_decide (op_type op = OpPut) then
    put_revision s (StripPrefix (op_key op) "meta/revision/") (DecodeTs (op_value op))
  else s.

Definition apply_metadata (now : N) s (ops : list KVBatchOp) : t E :=
  foldl (ApplyMetadataMutationLocked now) s ops.

(** The versioned shape every prepared command must have. *)
Definition prepared_valid (p : PreparedMvccWrite) : bool :=
  ((commandVersion p =? kLegacyCommandVersion)%N || (commandVersion p =? kCommandVersion)%N) &&
  bool_decide (p_status p = StOk) && negb (bool_decide (modifications p = [])) &&
  (newRevision p =? expectedRevision p +₆₄ 1)%N.

Definition progress_op (index : N) : list KVBatchOp :=
  if (index =? 0)%N then [] else [PutOp AppliedIndexKey (to_string index)].

Definition replayed s (index : N) : bool :=
  negb (index =? 0)%N && (index <=? appliedRaftIndex_ s)%N.

Definition ApplyPrepared (now : N) s key (prepared : PreparedMvccWrite) (index : N)
    : TxnStatus * t E :=
  if negb (prepared_valid prepared) then (StStorageError, s)
  else if replayed s index then (StOk, s)
  else if negb (CurrentRevisionLocked s key =? expectedRevision prepared)%N then (StStorageError, s)
  else
    let '(ok, e) := kv_write_batch (engine_ s) (modifications prepared ++ progress_op index) in
    if negb ok then (StStorageError, set_engine s e)
    else
      let s1 := apply_metadata now (count_batch (set_engine s e)) (modifications prepared) in
      if negb (CurrentRevisionLocked s1 key =? newRevision prepared)%N then (StStorageError, s1)
      else (StOk, set_applied s1 index).

(** The guards on one item of a batch; [None] is the early return, [Some false]
    skips an item without modifications. *)
Definition item_guard (revision : N) (previousKey : string) (i : PreparedMvccBatchItem)
    : option bool :=
  let p := item_prepared i in
  if String.eqb (item_key i) EmptyString ||
     (negb (String.eqb previousKey EmptyString) && str_leb (item_key i) previousKey) ||
     negb (bool_decide (p_status p = StOk)) then None
  else if bool_decide (modifications p = []) then Some false
  else if negb (newRevision p =? expectedRevision p +₆₄ 1)%N ||
          negb (revision =? expectedRevision p)%N then None
  else Some true.

(** The validation loop of [ApplyPreparedBatch]: the concatenated modifications. *)
Fixpoint batch_collect s (previousKey : string) (items : list PreparedMvccBatchItem)
    : option (list KVBatchOp) :=
  match items with
  | [] => Some []
  | i :: rest =>
      take ← item_guard (CurrentRevisionLocked s (item_key i)) previousKey i;
      mods ← batch_collect s (item_key i) rest;
      Some (if take : bool then modifications (item_prepared i) ++ mods else mods)
  end.

(** The loop that updates the indexes and checks each revision; [inl] is the
    early return in the middle of it. *)
Fixpoint batch_apply_loop (now : N) s (items : list PreparedMvccBatchItem) : t E + t E :=
  match items with
  | [] => inr s
  | i :: rest =>
      let p := item_prepared i in
      let s1 := apply_metadata now s (modifications p) in
      if negb (bool_decide (modifications p = [])) &&
         negb (CurrentRevisionLocked s1 (item_key i) =? newRevision p)%N
      then inl s1
      else batch_apply_loop now s1 rest
  end.

Definition batch_valid (b : PreparedMvccBatch) : bool :=
  (b_commandVersion b =? kBatchCommandVersion)%N && bool_decide (b_status b = StOk) &&
  negb (Nat.eqb (length (b_items b)) 0).

Definition ApplyPreparedBatch (now : N) s (prepared : PreparedMvccBatch) (index : N)
    : TxnStatus * t E :=
  if negb (batch_valid prepared) then (StStorageError, s)
  else if replayed s index then (StOk, s)
  else
    match batch_collect s EmptyString (b_items prepared) with
    | None => (StStorageError, s)
    | Some collected =>
        let mods := collected ++ progress_op index in
        if bool_decide (mods = []) then (StStorageError, s)
        else
          let '(ok, e) := kv_write_batch (engine_ s) mods in
          if negb ok then (StStorageError, set_engine s e)
          else
            match batch_apply_loop now (count_batch (set_engine s e)) (b_items prepared) with
            | inl s1 => (StStorageError, s1)
            | inr s1 => (StOk, set_applied s1 index)
            end
    end.

(** [currentOrStagedRevision] *)
Definition staged_revision s (staged : gmap string N) key : N :=
  match staged !! key with
  | Some r => r
  | None => CurrentRevisionLocked s key
  end.

(** The inner loop of the atomic apply over the items of one batch; every item
    with modifications stages its revision. *)
Fixpoint batch_stage s (staged : gmap string N) (previousKey : string)
    (items : list PreparedMvccBatchItem) : option (list KVBatchOp * gmap string N) :=
  match items with
  | [] => Some ([], staged)
  | i :: rest =>
      let p := item_prepared i in
      take ← item_guard (staged_revision s staged (item_key i)) previousKey i;
      if take : bool then
        '(mods, staged') ← batch_stage s (<[item_key i := newRevision p]> staged) (item_key i) rest;
        Some (modifications p ++ mods, staged')
      else batch_stage s staged (item_key i) rest
  end.

(** One command of the validation loop: its modifications and the revisions it
    stages. *)
Definition command_collect s (staged : gmap string N) (cmd : PreparedApplyCommand)
    : option (list KVBatchOp * gmap string N) :=
  if negb (cmd_isBatch cmd) then
    let p := cmd_single cmd in
    if negb (prepared_valid p) || negb (staged_revision s staged (cmd_key cmd) =? expectedRevision p)%N
    then None
    else Some (modifications p, <[cmd_key cmd := newRevision p]> staged)
  else if negb (batch_valid (cmd_batch cmd)) then None
  else batch_stage s staged EmptyString (b_items (cmd_batch cmd)).

Fixpoint commands_collect s (staged : gmap string N) (prevRaftIndex : N)
    (commands : list PreparedApplyCommand) : option (list KVBatchOp * gmap string N) :=
  match commands with
  | [] => Some ([], staged)
  | cmd :: rest =>
      if (cmd_raftIndex cmd =? 0)%N || (cmd_raftIndex cmd <=? prevRaftIndex)%N then None
      else
        '(mods, staged1) ← command_collect s staged cmd;
        '(mods', staged2) ← commands_collect s staged1 (cmd_raftIndex cmd) rest;
        Some (mods ++ mods', staged2)
  end.

Definition command_mods (cmd : PreparedApplyCommand) : list KVBatchOp :=
  if cmd_isBatch cmd
  then mjoin ((λ i, modifications (item_prepared i)) <$> b_items (cmd_batch cmd))
  else modifications (cmd_single cmd).

Definition ApplyPreparedCommandsAtomically (now : N) s (commands : list PreparedApplyCommand)
    : bool * t E :=
  match last commands with
  | None => (false, s)
  | Some lastCmd =>
      match commands_collect s ∅ (appliedRaftIndex_ s) commands with
      | None => (false, s)
      | Some (combined, staged) =>
          if bool_decide (combined = []) then (false, s)
          else
            let finalRaftIndex := cmd_raftIndex lastCmd in
            let '(ok, e) := kv_write_batch (engine_ s)
                              (combined ++ [PutOp AppliedIndexKey (to_string finalRaftIndex)]) in
            if negb ok then (false, set_engine s e)
            else
              let s1 := foldl (λ st cmd, apply_metadata now st (command_mods cmd))
                          (count_batch (set_engine s e)) commands in
              if forallb (λ kr, (CurrentRevisionLocked s1 kr.1 =? kr.2)%N) (map_to_list staged)
              then (true, MkMvcc (engine_ s1) (locks_ s1) (writes_ s1) (revisions_ s1)
                            (writeBatchCount_ s1) finalRaftIndex)
              else (false, s1)
      end
  end.

(** ** Direct operations *)

Definition apply_if_changed (now : N) s key (prepared : PreparedMvccWrite) : TxnStatus * t E :=
  if negb (bool_decide (p_status prepared = StOk)) || negb (HasChanges prepared)
  then (p_status prepared, s)
  else ApplyPrepared now s key prepared 0.

Definition apply_batch_if_changed (now : N) s (prepared : PreparedMvccBatch) : TxnStatus * t E :=
  if negb (bool_decide (b_status prepared = StOk)) || negb (BatchHasChanges prepared)
  then (b_status prepared, s)
  else ApplyPreparedBatch now s prepared 0.

Definition PrewriteLock (now : N) s key primaryKey (startTs ttl forUpdate : N) : TxnStatus * t E :=
  apply_if_changed now s key (PreparePrewriteLock s key primaryKey startTs ttl forUpdate).

Definition BatchPrewrite s (mutations : list MvccMutation) primaryKey
    (startTs ttl forUpdate now now2 : N) : TxnStatus * t E :=
  apply_batch_if_changed now s
    (PrepareBatchPrewrite s mutations primaryKey startTs ttl forUpdate now now2).

Definition BatchCommit (now : N) s (keys : list string) (startTs commitTs : N) : TxnStatus * t E :=
  apply_batch_if_changed now s (PrepareBatchCommit s keys startTs commitTs).

Definition BatchRollback (now : N) s (keys : list string) (startTs : N) : TxnStatus * t E :=
  apply_batch_if_changed now s (PrepareBatchRollback s keys startTs).

(** Write a batch and, when the engine accepted it, update the indexes. *)
Definition write_then s (ops : list KVBatchOp) (update : t E → t E) : TxnStatus * t E :=
  let '(ok, e) := kv_write_batch (engine_ s) ops in
  if negb ok then (StStorageError, set_engine s e)
  else (StOk, update (count_batch (set_engine s e))).

Definition AcquirePessimisticLock s key primaryKey (startTs ttl forUpdate expireAt now : N)
    : TxnStatus * t E :=
  match locks_ s !! key with
  | Some l => ((if (lock_startTs l =? startTs)%N then StOk else StLockConflict), s)
  | None =>
      if rolled_back_at s key startTs then (StWriteConflict, s)
      else if newest_at_least s key startTs then (StWriteConflict, s)
      else
        let l := pessimistic_lock primaryKey startTs ttl now
                   (if (forUpdate =? 0)%N then startTs else forUpdate) expireAt in
        let '(ops, newRev) :=
          AppendRevisionMutationLocked s key [PutOp (LockKey key) (EncodeLockValue l)] in
        write_then s ops (λ s1, put_revision (put_lock s1 key l) key newRev)
  end.

Definition AcquirePessimisticLockForUpdate s key primaryKey
    (startTs ttl forUpdate expireAt now : N) : PessimisticLockResult * t E :=
  let prepared := PreparePessimisticLock s key primaryKey startTs ttl forUpdate expireAt now in
  let reply st applied :=
    MkPessimisticLockResult st (bool_decide (readStatus prepared = StOk)) (readValue prepared)
      (readCommitTs prepared) applied in
  if negb (bool_decide (p_status prepared = StOk)) then (reply (p_status prepared) false, s)
  else if HasChanges prepared then
    let '(st, s1) := ApplyPrepared now s key prepared 0 in
    (reply st (bool_decide (st = StOk)), s1)
  else (reply StOk true, s).

Definition PrewriteLocked s key value primaryKey (startTs ttl : N) (del : bool)
    (forUpdate now now2 : N) : TxnStatus * t E :=
  let proceed existing :=
    if rolled_back_at s key startTs then (StWriteConflict, s)
    else if newest_at_least s key startTs then (StWriteConflict, s)
    else
      let l := prewrite_lock existing value primaryKey startTs ttl del forUpdate now now2 in
      let '(ops, newRev) := AppendRevisionMutationLocked s key
        [data_op key value startTs del; PutOp (LockKey key) (EncodeLockValue l)] in
      write_then s ops (λ s1, put_revision (put_lock s1 key l) key newRev) in
  match locks_ s !! key with
  | Some existing =>
      if negb (lock_startTs existing =? startTs)%N || negb (isPessimistic existing) ||
         negb (String.eqb (MvccTypes.primaryKey existing) primaryKey) ||
         (negb (forUpdate =? 0)%N && (forUpdate <? forUpdateTs existing)%N)
      then (StLockConflict, s)
      else proceed (Some existing)
  | None => proceed None
  end.

Definition Prewrite s key value primaryKey (startTs ttl forUpdate now now2 : N) : TxnStatus * t E :=
  PrewriteLocked s key value primaryKey startTs ttl false forUpdate now now2.

Definition PrewriteDelete s key primaryKey (startTs ttl forUpdate now now2 : N) : TxnStatus * t E :=
  PrewriteLocked s key EmptyString primaryKey startTs ttl true forUpdate now now2.

Definition Commit s key (startTs commitTs : N) : TxnStatus * t E :=
  match commit_guard s key startTs commitTs with
  | inl st => (st, s)
  | inr l =>
      let '(ops, newRev) := AppendRevisionMutationLocked s key (commit_ops key startTs commitTs l) in
      write_then s ops (λ s1,
        put_revision (erase_lock (put_write s1 key commitTs
          (MkWrite startTs commitTs (commit_type l))) key) key newRev)
  end.

Definition Rollback s key (startTs : N) : TxnStatus * t E :=
  if existsb (λ item, started_at startTs item && negb (is_rollback item.2)) (om_list (versions s key))
  then (StAlreadyCommitted, s)
  else
    let '(ops, newRev) := AppendRevisionMutationLocked s key (rollback_ops s key startTs) in
    write_then s ops (λ s1,
      let s2 := if locked_by s key startTs then erase_lock s1 key else s1 in
      put_revision (put_write s2 key startTs (rollback_record startTs)) key newRev).

(** ** Queries *)

Definition GetLock s key : option MvccLock := locks_ s !! key.

Definition FindCommitTs s key (startTs : N) : option N :=
  fst <$> head (filter (λ item, (started_at startTs item && negb (is_rollback item.2)) = true)
                  (om_list (versions s key))).

(** [CheckTxnStatus]: the returned status and, when it is [Ok], the record. *)
Definition CheckTxnStatus (now : N) s primaryKey (startTs currentPhysicalMs : N)
    (rollbackIfExpired : bool) : TxnStatus * option TxnRecordStatus * t E :=
  let prepared := PrepareCheckTxnStatus s primaryKey startTs currentPhysicalMs rollbackIfExpired in
  if negb (bool_decide (p_status prepared = StOk)) then (p_status prepared, None, s)
  else if HasChanges prepared then
    let '(applied, s1) := ApplyPrepared now s primaryKey prepared 0 in
    if negb (bool_decide (applied = StOk)) then (applied, None, s1)
    else (StOk, Some (txnRecordStatus prepared), s1)
  else (StOk, Some (txnRecordStatus prepared), s).

Definition ResolveLock (now : N) s key (startTs : N) (decision : TxnRecordState) (commitTs : N)
    : TxnStatus * t E :=
  let prepared := PrepareResolveLock s key startTs decision commitTs in
  if bool_decide (p_status prepared = StAlreadyCommitted) then (StOk, s)
  else if negb (bool_decide (p_status prepared = StOk)) then (p_status prepared, s)
  else if negb (HasChanges prepared) then (StOk, s)
  else ApplyPrepared now s key prepared 0.

Definition lock_expired (l : MvccLock) (nowMs : N) : bool :=
  if negb (legacyExpiry l) && negb (expireAtPhysicalMs l =? 0)%N
  then (expireAtPhysicalMs l <=? nowMs)%N
  else negb (createTimeMs l =? 0)%N && negb (ttlMs l =? 0)%N &&
       (createTimeMs l +₆₄ ttlMs l <=? nowMs)%N.

Definition ExpiredLocks s (nowMs : N) : list (string * MvccLock) :=
  filter (λ item, lock_expired item.2 nowMs = true) (map_to_list (locks_ s)).

Definition Stats s : MvccStats :=
  let count := foldr (λ kv n, (N.of_nat (size (kv.2 : gmap N MvccWrite)) + n)%N) 0%N
                 (map_to_list (writes_ s)) in
  MkStats (N.of_nat (size (locks_ s)))
    (N.of_nat (length (filter (λ item, isPessimistic item.2 = true) (map_to_list (locks_ s)))))
    count (count + N.of_nat (size (locks_ s))) (writeBatchCount_ s) (appliedRaftIndex_ s).

Definition Capabilities s : ProtocolCapabilities := MkCapabilities kTxnProtocolVersion 2 1 true.

Definition MaxObservedTs s : N :=
  let m := foldr (λ kv n, N.max n (lock_startTs kv.2)) 0%N (map_to_list (locks_ s)) in
  foldr (λ kv n, foldr (λ item n, N.max n (N.max item.1 (w_startTs item.2))) n (om_list kv.2))
    m (map_to_list (writes_ s)).

(** ** Garbage collection *)

(** [keepCommitTs]: the newest data version below the safe point. *)
Definition gc_keep (ws : gmap N MvccWrite) (safePointTs : N) : option N :=
  fst <$> last (filter (λ item, ((item.1 <? safePointTs)%N && negb (not_data item.2)) = true)
                  (om_list ws)).

Definition gc_removed (ws : gmap N MvccWrite) (safePointTs : N) : list (N * MvccWrite) :=
  if (size ws <=? 1)%nat then []
  else filter (λ item, ((item.1 <? safePointTs)%N &&
                        negb (bool_decide (gc_keep ws safePointTs = Some item.1))) = true)
         (om_list ws).

Definition gc_version_ops key (item : N * MvccWrite) : list KVBatchOp :=
  (if bool_decide (w_type item.2 = WPut) then [DelOp (DataKey key (w_startTs item.2))] else []) ++
  [DelOp (WriteKey key item.1)].

Definition GarbageCollect s (safePointTs : N) : N * t E :=
  let removed := (λ kw, (kw.1, gc_removed kw.2 safePointTs)) <$> map_to_list (writes_ s) in
  let versionsToRemove := mjoin ((λ kr, (λ item, (kr.1, item.1)) <$> kr.2) <$> removed) in
  if bool_decide (versionsToRemove = []) then (0%N, s)
  else
    let touchedKeys := filter (λ kr, negb (bool_decide (kr.2 = [])) = true) removed in
    let newRevisions := (λ kr, (kr.1, CurrentRevisionLocked s kr.1 +₆₄ 1)) <$> touchedKeys in
    let ops := mjoin ((λ kr, mjoin (gc_version_ops kr.1 <$> kr.2)) <$> removed) ++
               ((λ kr, PutOp (RevisionKey kr.1) (to_string kr.2)) <$> newRevisions) in
    let '(ok, e) := kv_write_batch (engine_ s) ops in
    if negb ok then (0%N, set_engine s e)
    else
      let s1 := foldl (λ st kc, erase_write st kc.1 kc.2) (count_batch (set_engine s e))
                  versionsToRemove in
      (N.of_nat (length versionsToRemove),
       foldl (λ st kr, put_revision st kr.1 kr.2) s1 newRevisions).

(** ** Recovery *)

Definition recover_revision s (item : string * string) : t E :=
  put_revision s (StripPrefix item.1 "meta/revision/") (DecodeTs item.2).

Definition recover_write s (item : string * string) : t E :=
  match SplitKeyTs (StripPrefix item.1 "write/") with
  | None => s
  | Some (key, commitTs) =>
      match DecodeWriteValue item.2 with
      | None => s
      | Some w => put_write s key commitTs (MkWrite (w_startTs w) commitTs (w_type w))
      end
  end.

Definition with_lock_value (l : MvccLock) (v : string) : MvccLock :=
  MkLock (primaryKey l) v (lock_startTs l) (ttlMs l) (createTimeMs l) (isDelete l)
    (isPessimistic l) (isLockOnly l) (forUpdateTs l) (expireAtPhysicalMs l) (legacyExpiry l).

Definition recover_lock (now : N) s (item : string * string) : t E :=
  match DecodeLockValue now item.2 with
  | None => s
  | Some l =>
      let key := StripPrefix item.1 "lock/" in
      if hasFinishedWrite s key (lock_startTs l) then
        set_engine s (kv_delete (engine_ s) (LockKey key)).2
      else
        let found := if isDelete l then None
                     else kv_get (engine_ s) (DataKey key (lock_startTs l)) in
        put_lock s key (match found with Some v => with_lock_value l v | None => l end)
  end.

Definition RecoverMetadataFromEngineLocked (now : N) s : t E :=
  let applied := match kv_get (engine_ s) AppliedIndexKey with
                 | Some v => DecodeTs v
                 | None => 0%N
                 end in
  let s0 := MkMvcc (engine_ s) ∅ ∅ ∅ (writeBatchCount_ s) applied in
  let s1 := foldl recover_revision s0 (kv_scan_prefix (engine_ s0) "meta/revision/") in
  let s2 := foldl recover_write s1 (kv_scan_prefix (engine_ s1) "write/") in
  foldl (recover_lock now) s2 (kv_scan_prefix (engine_ s2) "lock/").

(** The constructor: recovery on the given engine. *)
Definition Open (now : N) (e : E) : t E :=
  RecoverMetadataFromEngineLocked now (MkMvcc e ∅ ∅ ∅ 0 0).

Definition RestoreSnapshot (now : N) s (snapshot : string) : result (bool * t E) :=
  '(ok, e) ← kv_load (engine_ s) snapshot;
  if negb ok then Ok (false, set_engine s e)
  else Ok (true, RecoverMetadataFromEngineLocked now (set_engine s e)).

Definition in_drop_range (rangeBegin rangeEnd key : string) : bool :=
  str_leb rangeBegin key && (String.eqb rangeEnd EmptyString || str_ltb key rangeEnd).

Definition DropKeysInRange s (rangeBegin rangeEnd : string) : t E :=
  let keep {A} (m : gmap string A) :=
    filter (λ kv, in_drop_range rangeBegin rangeEnd kv.1 = false) m in
  MkMvcc (engine_ s) (keep (locks_ s)) (keep (writes_ s)) (keep (revisions_ s))
    (writeBatchCount_ s) (appliedRaftIndex_ s).

End operations.
End MvccStorage.
