(* ===== verification/MvccSpec.v ===== *)
(** * What one key of the MVCC store promises

    An abstract per-key machine: the lock, the write records and the data
    versions of a single key, and the things that can happen to it (a lock is
    placed or changed, a transaction commits, a transaction rolls back, old
    versions are collected; a restart drops the lock of a transaction that has a
    record already, after which a commit prepared for that lock only adds its
    record).  The invariants of this machine are the correctness
    argument of the transaction layer; MvccRefine.v shows that every operation of
    [MvccStorage] performs one of these actions on each key it touches. *)

From S2P Require Import Prelude KvEngine MvccTypes Codec Hlc Mvcc.
Import MvccStorage.

(** [k_time] is the last timestamp the oracle had issued when the lock was last
    changed; it is not part of the program's state. *)
Record kstate := MkK {
  k_lock : option MvccLock;
  k_writes : gmap N MvccWrite;
  k_data : N → option string;
  k_time : N
}.

#[global] Instance kstate_equiv : Equiv kstate := λ k1 k2,
  k_lock k1 = k_lock k2 ∧ k_writes k1 = k_writes k2 ∧
  (∀ ts, fits64 ts → k_data k1 ts = k_data k2 ts) ∧ k_time k1 = k_time k2.

#[global] Instance kstate_equivalence : Equivalence (≡@{kstate}).
Proof.
  split.
  - intros k. repeat split; done.
  - intros k1 k2 (H1 & H2 & H3 & H4). repeat split; [done..| |done]. intros ts Hts. by rewrite H3.
  - intros k1 k2 k3 (H1 & H2 & H3 & H4) (G1 & G2 & G3 & G4).
    repeat split; [congruence..| |congruence]. intros ts Hts. by rewrite H3, G3.
Qed.

(** A lock that will commit as a put or a delete. *)
Definition data_lock (l : MvccLock) : Prop := isPessimistic l = false ∧ isLockOnly l = false.

(** Record kinds: a rollback is not effective; puts and deletes are data. *)
Definition effective (w : MvccWrite) : Prop := w_type w ≠ WRollback.
Definition is_data (w : MvccWrite) : Prop := w_type w = WPut ∨ w_type w = WDelete.

Inductive kaction :=
| ALock (l : MvccLock) (data : option (option string))
| ACommit (startTs commitTs : N)
| ARollback (startTs : N)
| ACollect (safePoint : N)
| ADrop
| ARecord (startTs commitTs : N).

Definition upd (f : N → option string) (ts : N) (v : option string) : N → option string :=
  λ x, if (x =? ts)%N then v else f x.

Definition collected (ws : gmap N MvccWrite) (safePoint : N) : gmap N MvccWrite :=
  foldr (λ item m, delete item.1 m) ws (gc_removed ws safePoint).

Definition collected_data (ws : gmap N MvccWrite) (safePoint : N) (f : N → option string)
    : N → option string :=
  λ ts, if existsb (λ item, bool_decide (w_type item.2 = WPut) && (w_startTs item.2 =? ts)%N)
              (gc_removed ws safePoint) then None else f ts.

(** The time of the last change of the lock, after the lock becomes [lk]. *)
Definition retime (tso : N) (k : kstate) (lk : option MvccLock) : N :=
  if decide (k_lock k = lk) then k_time k else tso.

(** The effect of an action when the oracle has issued timestamps up to [tso]. *)
Definition kapply (tso : N) (k : kstate) (a : kaction) : kstate :=
  match a with
  | ALock l data =>
      MkK (Some l) (k_writes k)
        (match data with
         | Some v => upd (k_data k) (lock_startTs l) v
         | None => k_data k
         end) (retime tso k (Some l))
  | ACommit s c =>
      match k_lock k with
      | Some l =>
          MkK None (<[c := MkWrite s c (commit_type l)]> (k_writes k)) (k_data k) (retime tso k None)
      | None => k
      end
  | ARollback s =>
      let lk := match k_lock k with
                | Some l => if (lock_startTs l =? s)%N then None else Some l
                | None => None
                end in
      MkK lk (<[s := rollback_record s]> (k_writes k)) (upd (k_data k) s None) (retime tso k lk)
  | ACollect sp =>
      MkK (k_lock k) (collected (k_writes k) sp) (collected_data (k_writes k) sp (k_data k)) (k_time k)
  | ADrop => MkK None (k_writes k) (k_data k) (retime tso k None)
  | ARecord s c => MkK (k_lock k) (<[c := MkWrite s c WLock]> (k_writes k)) (k_data k) (k_time k)
  end.

(** ** Records and collection *)

Lemma effective_dec w : effective w ∨ w_type w = WRollback.
Proof. unfold effective. destruct (w_type w); auto; by left. Qed.

Lemma data_effective w : is_data w → effective w.
Proof. unfold is_data, effective. by intros [-> | ->]. Qed.

Lemma commit_type_effective l : commit_type l ≠ WRollback.
Proof. unfold commit_type. by repeat case_match. Qed.

Lemma commit_type_data l s c :
  isPessimistic l = false → is_data (MkWrite s c (commit_type l)) → data_lock l.
Proof. unfold is_data, commit_type, data_lock. intros Hp. destruct (isLockOnly l); naive_solver. Qed.

Lemma collected_lookup ws sp c :
  collected ws sp !! c = if decide (c ∈ (gc_removed ws sp).*1) then None else ws !! c.
Proof.
  unfold collected. induction (gc_removed ws sp) as [|[c' w'] l IH]; [done|].
  cbn [foldr fmap list_fmap fst].
  rewrite lookup_delete. destruct (decide (c' = c)) as [->|Hne].
  - by rewrite decide_True by set_solver.
  - rewrite IH. repeat case_decide; set_solver.
Qed.

Lemma collected_Some ws sp c w :
  collected ws sp !! c = Some w → ws !! c = Some w ∧ c ∉ (gc_removed ws sp).*1.
Proof. rewrite collected_lookup. case_decide; naive_solver. Qed.

Lemma gc_removed_elem ws sp c w :
  (c, w) ∈ gc_removed ws sp → ws !! c = Some w ∧ (c < sp)%N ∧ gc_keep ws sp ≠ Some c.
Proof.
  unfold gc_removed. case_match; [set_solver|]. intros [Hb Hin]%list_elem_of_filter.
  rewrite elem_of_om_list in Hin. reflect_bools. done.
Qed.

(** ** What a snapshot sees *)

(** The newest put or delete at or below [ts]. *)
Definition visible (ws : gmap N MvccWrite) (ts : N) : option (N * MvccWrite) :=
  head (filter (λ item, not_data item.2 = false) (om_down ws ts)).

Definition kread (k : kstate) (readTs : N) : TxnStatus * option string * option N :=
  match visible (k_writes k) readTs with
  | None => (StNotFound, None, None)
  | Some (c, w) =>
      if bool_decide (w_type w = WDelete) then (StNotFound, None, Some c)
      else match k_data k (w_startTs w) with
           | Some v => (StOk, Some v, Some c)
           | None => (StStorageError, None, Some c)
           end
  end.

Lemma not_data_false w : not_data w = false ↔ is_data w.
Proof. unfold not_data, is_data. destruct (w_type w); naive_solver. Qed.

Lemma visible_Some ws ts c w :
  visible ws ts = Some (c, w) ↔
  ws !! c = Some w ∧ is_data w ∧ (c ≤ ts)%N ∧
  ∀ c' w', ws !! c' = Some w' → is_data w' → (c' ≤ ts)%N → (c' ≤ c)%N.
Proof.
  unfold visible. pose proof (om_down_sorted ws ts) as Hs.
  apply (StronglySorted_filter _ (λ item, not_data item.2 = false)) in Hs.
  assert (∀ c w, (c, w) ∈ filter (λ item, not_data item.2 = false) (om_down ws ts) ↔
            is_data w ∧ ws !! c = Some w ∧ (c ≤ ts)%N) as Hin.
  { intros c' w'. rewrite list_elem_of_filter, elem_of_om_down. simpl. by rewrite not_data_false. }
  destruct Hs as [|[c0 w0] l Hs H0]; simpl.
  - split; [done|]. intros (H1 & H2 & H3 & _).
    assert ((c, w) ∈ (@nil (N * MvccWrite))) by (by apply Hin). set_solver.
  - rewrite Forall_forall in H0. destruct (proj1 (Hin c0 w0)) as (Hd & Hw & Hle); [set_solver|].
    assert (∀ c' w', ws !! c' = Some w' → is_data w' → (c' ≤ ts)%N → (c' ≤ c0)%N) as Hmax.
    { intros c' w' H1 H2 H3. assert ((c', w') ∈ (c0, w0) :: l) as [[= ->]|Hl]%elem_of_cons by (by apply Hin); [lia|].
      specialize (H0 _ Hl). unfold flip, key_lt in H0. simpl in H0. lia. }
    split.
    + intros [= <- <-]. by split_and!.
    + intros (H1 & H2 & H3 & H4). assert (c = c0) as -> by (apply N.le_antisymm; eauto). congruence.
Qed.

Lemma visible_None ws ts :
  visible ws ts = None ↔ ∀ c w, ws !! c = Some w → is_data w → (ts < c)%N.
Proof.
  unfold visible.
  assert (∀ c w, (c, w) ∈ filter (λ item, not_data item.2 = false) (om_down ws ts) ↔
            is_data w ∧ ws !! c = Some w ∧ (c ≤ ts)%N) as Hin.
  { intros c' w'. rewrite list_elem_of_filter, elem_of_om_down. simpl. by rewrite not_data_false. }
  destruct (filter _ _) as [|[c0 w0] l]; simpl; split; try done.
  - intros _ c w Hw Hd. destruct (N.lt_ge_cases ts c) as [|Hle]; [done|].
    assert ((c, w) ∈ (@nil (N * MvccWrite))) by (by apply Hin). set_solver.
  - intros Hall. destruct (proj1 (Hin c0 w0)) as (Hd & Hw & Hle); [set_solver|].
    specialize (Hall _ _ Hw Hd). lia.
Qed.

Lemma visible_ext ws1 ws2 ts :
  (∀ c w, is_data w → (c ≤ ts)%N → ws1 !! c = Some w ↔ ws2 !! c = Some w) →
  visible ws1 ts = visible ws2 ts.
Proof.
  intros Heq. destruct (visible ws2 ts) as [[c w]|] eqn:Hv.
  - apply visible_Some in Hv as (H1 & H2 & H3 & H4). apply visible_Some. split_and!; [|done..|].
    + by apply Heq.
    + intros c' w' Hw Hd Hle. apply (H4 c' w'); [by apply Heq|done..].
  - rewrite visible_None in *. intros c w Hw Hd.
    destruct (N.lt_ge_cases ts c) as [|Hle]; [done|]. apply (Hv c w); [by apply Heq|done].
Qed.

(** Collecting below a snapshot does not change what it sees. *)
Lemma gc_keep_newest ws sp c w :
  ws !! c = Some w → is_data w → (c < sp)%N →
  ∃ c0, gc_keep ws sp = Some c0 ∧ (c ≤ c0)%N ∧ (c0 < sp)%N ∧ ∃ w0, ws !! c0 = Some w0 ∧ is_data w0.
Proof.
  intros Hw Hd Hlt. unfold gc_keep.
  set (P := λ item : N * MvccWrite, ((item.1 <? sp)%N && negb (not_data item.2)) = true).
  assert (∀ c w, (c, w) ∈ filter P (om_list ws) ↔ ws !! c = Some w ∧ (c < sp)%N ∧ is_data w) as Hin.
  { intros c' w'. rewrite list_elem_of_filter, elem_of_om_list. unfold P. simpl.
    rewrite andb_true_iff, negb_true_iff, not_data_false, N.ltb_lt. tauto. }
  pose proof (StronglySorted_filter _ P _ (om_list_sorted_le ws)) as Hs.
  assert ((c, w) ∈ filter P (om_list ws)) as Hc by (by apply Hin).
  destruct (filter P (om_list ws)) as [|[c0 w0] l _] using rev_ind; [set_solver|].
  rewrite last_snoc. exists c0. simpl.
  destruct (proj1 (Hin c0 w0)) as (H1 & H2 & H3); [set_solver|].
  split_and!; [done| |done|eauto].
  apply elem_of_app in Hc as [Hc|Hc%list_elem_of_singleton]; [|by simplify_eq].
  apply (StronglySorted_app_1_elem_of _ _ _ (c, w) (c0, w0) Hs); set_solver.
Qed.

Lemma visible_collected ws sp ts :
  (sp ≤ ts)%N → visible (collected ws sp) ts = visible ws ts.
Proof.
  intros Hle. destruct (visible ws ts) as [[c w]|] eqn:Hv.
  - apply visible_Some in Hv as (H1 & H2 & H3 & H4). apply visible_Some. split_and!; [|done..|].
    + rewrite collected_lookup. case_decide as Hin; [|done]. exfalso.
      apply list_elem_of_fmap in Hin as ([c' w'] & -> & Hin). simpl in *.
      apply gc_removed_elem in Hin as (Hw' & Hlt & Hk).
      destruct (gc_keep_newest ws sp c' w) as (c0 & Hk0 & Hle0 & Hlt0 & w0 & Hw0 & Hd0); [done..|].
      assert (c0 ≤ c')%N by (eapply H4; eauto; lia).
      assert (c0 = c') as -> by lia. done.
    + intros c' w' [Hw _]%collected_Some. eauto.
  - rewrite visible_None in *. intros c w [Hw _]%collected_Some. eauto.
Qed.

(** A read only depends on the visible record and its data version. *)
Lemma kread_ext k1 k2 ts :
  visible (k_writes k1) ts = visible (k_writes k2) ts →
  (∀ c w, visible (k_writes k2) ts = Some (c, w) → w_type w = WPut →
          k_data k1 (w_startTs w) = k_data k2 (w_startTs w)) →
  kread k1 ts = kread k2 ts.
Proof.
  intros Hv Hd. unfold kread. rewrite Hv.
  destruct (visible (k_writes k2) ts) as [[c w]|] eqn:Hvis; [|done].
  case_bool_decide; [done|]. rewrite (Hd c w); [done..|].
  apply visible_Some in Hvis as (_ & [?|?] & _); done.
Qed.

(** ** What decides a transaction *)

(** The record that decides transaction [s]: the first in commit order. *)
Definition decision (ws : gmap N MvccWrite) (s : N) : option (N * MvccWrite) :=
  head (filter (λ item, started_at s item = true) (om_list ws)).

Lemma decision_Some ws s c w :
  decision ws s = Some (c, w) ↔
  ws !! c = Some w ∧ w_startTs w = s ∧
  ∀ c' w', ws !! c' = Some w' → w_startTs w' = s → (c ≤ c')%N.
Proof.
  unfold decision. set (P := λ item : N * MvccWrite, started_at s item = true).
  assert (∀ c w, (c, w) ∈ filter P (om_list ws) ↔ ws !! c = Some w ∧ w_startTs w = s) as Hin.
  { intros c' w'. rewrite list_elem_of_filter, elem_of_om_list. unfold P, started_at. simpl.
    rewrite N.eqb_eq. tauto. }
  pose proof (StronglySorted_filter _ P _ (om_list_sorted ws)) as Hs.
  destruct Hs as [|[c0 w0] l Hs H0]; simpl.
  - split; [done|]. intros (H1 & H2 & _).
    assert ((c, w) ∈ (@nil (N * MvccWrite))) by (by apply Hin). set_solver.
  - rewrite Forall_forall in H0. destruct (proj1 (Hin c0 w0)) as (Hw & Hs0); [set_solver|].
    assert (∀ c' w', ws !! c' = Some w' → w_startTs w' = s → (c0 ≤ c')%N) as Hmin.
    { intros c' w' H1 H2.
      assert ((c', w') ∈ (c0, w0) :: l) as [[= ->]|Hl]%elem_of_cons by (by apply Hin); [lia|].
      specialize (H0 _ Hl). unfold key_lt in H0. simpl in H0. lia. }
    split.
    + intros [= <- <-]. by split_and!.
    + intros (H1 & H2 & H3). assert (c = c0) as -> by (apply N.le_antisymm; eauto). congruence.
Qed.

Lemma decision_None ws s : decision ws s = None ↔ ∀ c w, ws !! c = Some w → w_startTs w ≠ s.
Proof.
  split.
  - intros Hn c w Hw Hs. destruct (decision ws s) as [|] eqn:Hd; [done|]. revert Hd. unfold decision.
    assert ((c, w) ∈ filter (λ item, started_at s item = true) (om_list ws)) as Hin.
    { apply list_elem_of_filter. rewrite elem_of_om_list. split; [|done]. unfold started_at. simpl. by apply N.eqb_eq. }
    destruct (filter _ _); [set_solver|done].
  - intros Hno. destruct (decision ws s) as [[c w]|] eqn:Hd; [|done].
    apply decision_Some in Hd as (Hw & Hs & _). by destruct (Hno c w Hw).
Qed.

Section machine.
(** Which timestamps the oracle handed out as start timestamps; the others are
    commit timestamps. *)
Context (is_start : N → bool).

Definition no_record (k : kstate) (s : N) : Prop :=
  ∀ c w, k_writes k !! c = Some w → w_startTs w ≠ s.

Definition not_rolled_back (k : kstate) (s : N) : Prop :=
  ∀ c w, k_writes k !! c = Some w → w_startTs w = s → effective w.

Definition has_record (k : kstate) (s : N) : Prop :=
  ∃ c w, k_writes k !! c = Some w ∧ w_startTs w = s.

(** When an action may happen.  The guards on a lock and a rollback are those
    the code checks; a commit is in addition issued for a prewritten lock, with
    a timestamp that is not a start timestamp and was allocated after the lock
    was placed.  Only a lock whose transaction has a record is dropped, and a
    record is only added for such a transaction, above every commit. *)
Definition kguard (k : kstate) (a : kaction) : Prop :=
  match a with
  | ALock l data =>
      is_start (lock_startTs l) = true ∧ fits64 (lock_startTs l) ∧
      (match k_lock k with
       | Some l0 => lock_startTs l0 = lock_startTs l ∧ isPessimistic l0 = true ∧
                    (forUpdateTs l0 ≤ forUpdateTs l)%N
       | None => not_rolled_back k (lock_startTs l) ∧
                 ∀ c w, k_writes k !! c = Some w → effective w →
                        (c ≤ N.max (lock_startTs l) (forUpdateTs l))%N
       end) ∧
      (match data with
       | Some v => data_lock l ∧ (isDelete l = false → is_Some v) ∧
                   not_rolled_back k (lock_startTs l) ∧
                   ∀ c w, k_writes k !! c = Some w → (c < lock_startTs l)%N
       | None => ¬ data_lock l
       end)
  | ACommit s c =>
      is_start c = false ∧ (k_time k < c)%N ∧ k_writes k !! c = None ∧
      ∃ l, k_lock k = Some l ∧ lock_startTs l = s ∧ isPessimistic l = false ∧
           (N.max s (forUpdateTs l) < c)%N
  | ARollback s =>
      is_start s = true ∧ fits64 s ∧ ∀ c w, k_writes k !! c = Some w → w_startTs w = s → w_type w = WRollback
  | ACollect _ => True
  | ADrop => ∃ l, k_lock k = Some l ∧ has_record k (lock_startTs l)
  | ARecord s c =>
      is_start c = false ∧ k_writes k !! c = None ∧ k_lock k = None ∧
      not_rolled_back k s ∧ has_record k s ∧
      ∀ c' w, k_writes k !! c' = Some w → effective w → (c' < c)%N
  end.

Record kinv (k : kstate) : Prop := MkKinv {
  ki_record : ∀ c w, k_writes k !! c = Some w →
    w_commitTs w = c ∧ is_start (w_startTs w) = true ∧ fits64 (w_startTs w) ∧
    (effective w → (w_startTs w < c)%N ∧ is_start c = false) ∧
    (w_type w = WRollback → w_startTs w = c);
  ki_exclusive : ∀ c1 w1 c2 w2,
    k_writes k !! c1 = Some w1 → k_writes k !! c2 = Some w2 → w_startTs w1 = w_startTs w2 →
    (effective w1 ↔ effective w2) ∧ (is_data w1 → is_data w2 → c1 = c2);
  ki_lock : ∀ l, k_lock k = Some l →
    is_start (lock_startTs l) = true ∧ fits64 (lock_startTs l) ∧
    not_rolled_back k (lock_startTs l) ∧
    (∀ c w, k_writes k !! c = Some w → effective w →
            (c ≤ N.max (lock_startTs l) (forUpdateTs l))%N);
  ki_data_lock : ∀ l, k_lock k = Some l → data_lock l →
    no_record k (lock_startTs l) ∧
    (∀ c w, k_writes k !! c = Some w → effective w → (c < lock_startTs l)%N) ∧
    (isDelete l = false → is_Some (k_data k (lock_startTs l)));
  ki_first_committer : ∀ c1 w1 c2 w2,
    k_writes k !! c1 = Some w1 → k_writes k !! c2 = Some w2 →
    effective w1 → is_data w2 → (c1 < c2)%N → (c1 < w_startTs w2)%N;
  ki_data : ∀ c w, k_writes k !! c = Some w → w_type w = WPut → is_Some (k_data k (w_startTs w))
}.

Definition kinit : kstate := MkK None ∅ (λ _, None) 0.

Lemma kinv_init : kinv kinit.
Proof. split; simpl; intros; rewrite ?lookup_empty in *; done. Qed.

(** ** The invariant is preserved *)

Lemma kinv_lock tso k l d :
  kinv k → kguard k (ALock l d) → kinv (kapply tso k (ALock l d)).
Proof.
  intros [Hr Hx Hl Hd Hf Ha] (Hs & Hfit & Hlock & Hdata).
  assert (not_rolled_back k (lock_startTs l)) as Hnr.
  { destruct (k_lock k) as [l0|]; [|naive_solver].
    destruct Hlock as (<- & _). by apply (Hl l0). }
  assert (∀ c w, k_writes k !! c = Some w → effective w →
            (c ≤ N.max (lock_startTs l) (forUpdateTs l))%N) as Hmax.
  { destruct (k_lock k) as [l0|]; [|naive_solver].
    destruct Hlock as (Heq & _ & Hfu). destruct (Hl l0 eq_refl) as (_ & _ & _ & Hle).
    intros c w Hc Hw. specialize (Hle c w Hc Hw). lia. }
  split; simpl; [done|done| | |done|].
  - intros ? [= <-]. by split_and!.
  - intros ? [= <-] Hdl. destruct d as [v|]; [|done].
    destruct Hdata as (_ & Hv & _ & Hlt). split_and!.
    + intros c w Hc Heq. destruct (Hr c w Hc) as (_ & _ & _ & He & _).
      specialize (Hnr c w Hc Heq). specialize (Hlt c w Hc). destruct (He Hnr). simpl in *. lia.
    + intros c w Hc _. by eapply Hlt.
    + intros Hdel. unfold upd. rewrite N.eqb_refl. auto.
  - intros c w Hc Hput. destruct d as [v|]; [|by eapply Ha]. unfold upd.
    destruct (N.eqb_spec (w_startTs w) (lock_startTs l)) as [Heq|_]; [|by eapply Ha].
    destruct (Hr c w Hc) as (_ & _ & _ & He & _). destruct Hdata as (_ & _ & _ & Hlt).
    specialize (Hlt c w Hc). destruct (He (Hnr c w Hc Heq)). lia.
Qed.

Lemma kinv_commit tso k s c :
  kinv k → kguard k (ACommit s c) → kinv (kapply tso k (ACommit s c)).
Proof.
  intros [Hr Hx Hl Hd Hf Ha] (Hcs & _ & Hc & l & Hk & <- & Hp & Hlt). simpl. rewrite Hk.
  destruct (Hl l Hk) as (Hls & Hlf & Hnr & Hmax).
  pose proof (commit_type_effective l) as Hct.
  split; simpl; [| |done|done| |].
  - intros c' w' [[<- <-]|[_ Hw]]%lookup_insert_Some; [|by apply Hr].
    simpl. split_and!; try done. intros _. split; [lia|done].
  - intros c1 w1 c2 w2 H1 H2 Heq.
    apply lookup_insert_Some in H1 as [[<- <-]|[Hn1 H1]];
    apply lookup_insert_Some in H2 as [[<- <-]|[Hn2 H2]]; simpl in *.
    + done.
    + assert (effective w2) as He2 by (eapply (Hnr c2); eauto). split; [naive_solver|].
      intros Hd1 _. apply commit_type_data in Hd1; [|done].
      destruct (Hd l Hk Hd1) as (Hno & _). by destruct (Hno c2 w2 H2).
    + assert (effective w1) as He1 by (eapply (Hnr c1); eauto). split; [naive_solver|].
      intros _ Hd2. apply commit_type_data in Hd2; [|done].
      destruct (Hd l Hk Hd2) as (Hno & _). by destruct (Hno c1 w1 H1).
    + eapply Hx; eauto.
  - intros c1 w1 c2 w2 H1 H2 He1 Hd2 Hlt12.
    apply lookup_insert_Some in H1 as [[<- <-]|[Hn1 H1]];
    apply lookup_insert_Some in H2 as [[<- <-]|[Hn2 H2]]; simpl in *.
    + lia.
    + specialize (Hmax c2 w2 H2 (data_effective _ Hd2)). lia.
    + apply commit_type_data in Hd2; [|done]. destruct (Hd l Hk Hd2) as (_ & Hall & _). eauto.
    + eapply Hf; eauto.
  - intros c' w' [[<- <-]|[_ Hw]]%lookup_insert_Some Hput; [|by eapply Ha]. simpl in *.
    assert (data_lock l) as Hdl by (apply (commit_type_data l 0 0); [done|by left]).
    destruct (Hd l Hk Hdl) as (_ & _ & Hv). apply Hv. revert Hput. unfold commit_type.
    destruct (isLockOnly l), (isDelete l); done.
Qed.

Lemma kinv_rollback tso k s :
  kinv k → kguard k (ARollback s) → kinv (kapply tso k (ARollback s)).
Proof.
  intros [Hr Hx Hl Hd Hf Ha] (Hs & Hfit & Hno). simpl.
  (* what the new map contains: the rollback record, and old records at other keys *)
  assert (∀ c w, <[s := rollback_record s]> (k_writes k) !! c = Some w → effective w →
            k_writes k !! c = Some w ∧ w_startTs w ≠ s) as Heff.
  { intros c w [[<- <-]|[Hn Hw]]%lookup_insert_Some He; [done|]. split; [done|].
    intros Heq. by apply He, (Hno c w). }
  split; simpl.
  - intros c w [[<- <-]|[_ Hw]]%lookup_insert_Some; [|by apply Hr]. done.
  - intros c1 w1 c2 w2 H1 H2 Heq.
    assert (∀ c w, <[s := rollback_record s]> (k_writes k) !! c = Some w → w_startTs w = s →
              w_type w = WRollback) as Hrs.
    { intros c w [[<- <-]|[_ Hw]]%lookup_insert_Some; [done|]. by eapply Hno. }
    destruct (N.eq_dec (w_startTs w1) s) as [Es|Es].
    { pose proof (Hrs c1 w1 H1 Es) as R1. pose proof (Hrs c2 w2 H2 ltac:(congruence)) as R2.
      unfold effective, is_data. rewrite R1, R2. naive_solver. }
    apply lookup_insert_Some in H1 as [[<- <-]|[_ H1]]; [done|].
    apply lookup_insert_Some in H2 as [[<- <-]|[_ H2]]; [done|]. by eapply Hx.
  - intros l Hk. destruct (k_lock k) as [l0|]; [|done]. case_match; [done|].
    simplify_eq. reflect_bools. destruct (Hl l eq_refl) as (Hls & Hlf & Hnr & Hmax). split_and!; [done..| |].
    + intros c w; cbn [k_writes]. intros [[<- <-]|[_ Hw]]%lookup_insert_Some Heq; [done|].
      by eapply Hnr.
    + intros c w Hw He. apply Heff in Hw as [Hw _]; [|done]. by eapply Hmax.
  - intros l Hk Hdl. destruct (k_lock k) as [l0|]; [|done]. case_match; [done|].
    simplify_eq. reflect_bools. destruct (Hd l eq_refl Hdl) as (Hnr & Hall & Hv). split_and!.
    + intros c w; cbn [k_writes]. intros [[<- <-]|[_ Hw]]%lookup_insert_Some; [done|].
      by eapply Hnr.
    + intros c w Hw He. apply Heff in Hw as [Hw _]; [|done]. by eapply Hall.
    + intros Hdel. unfold upd. destruct (N.eqb_spec (lock_startTs l) s); [done|]. auto.
  - intros c1 w1 c2 w2 H1 H2 He1 Hd2 Hlt.
    apply Heff in H1 as [H1 _]; [|done]. apply Heff in H2 as [H2 _]; [|by apply data_effective].
    by eapply Hf.
  - intros c w Hw Hput.
    assert (effective w) as He by (unfold effective; by rewrite Hput).
    apply Heff in Hw as [Hw Hne]; [|done]. unfold upd.
    destruct (N.eqb_spec (w_startTs w) s); [done|]. by eapply Ha.
Qed.

Lemma kinv_collect tso k sp : kinv k → kinv (kapply tso k (ACollect sp)).
Proof.
  intros [Hr Hx Hl Hd Hf Ha].
  assert (∀ c w, collected (k_writes k) sp !! c = Some w → k_writes k !! c = Some w) as Hsub
    by (intros c w [? _]%collected_Some; done).
  split; simpl; eauto.
  - intros l Hk. destruct (Hl l Hk) as (? & ? & Hnr & Hmax). split_and!; [done..| |eauto].
    intros c w Hw. eapply Hnr; eauto.
  - intros l Hk Hdl. destruct (Hd l Hk Hdl) as (Hnr & Hall & Hv). split_and!; [|eauto|].
    + intros c w Hw. eapply Hnr; eauto.
    + intros Hdel. unfold collected_data. destruct (existsb _ _) eqn:Hex; [|auto].
      apply existsb_exists in Hex as ([c w] & Hin & Hb). apply list_elem_of_In in Hin.
      apply gc_removed_elem in Hin as (Hw & _). reflect_bools. simpl in *. by destruct (Hnr c w Hw).
  - intros c w Hw Hput. apply collected_Some in Hw as [Hw Hni].
    unfold collected_data. destruct (existsb _ _) eqn:Hex; [|by eapply Ha].
    apply existsb_exists in Hex as ([c' w'] & Hin & Hb). apply list_elem_of_In in Hin.
    reflect_bools. simpl in *.
    destruct (gc_removed_elem _ _ _ _ Hin) as (Hw' & _).
    assert (c = c') as <- by (eapply (Hx c w c' w'); eauto; by left).
    destruct Hni. apply list_elem_of_fmap. by exists (c, w').
Qed.

Lemma kinv_drop tso k : kinv k → kinv (kapply tso k ADrop).
Proof. intros [Hr Hx Hl Hd Hf Ha]. by split. Qed.

Lemma kinv_record tso k s c :
  kinv k → kguard k (ARecord s c) → kinv (kapply tso k (ARecord s c)).
Proof.
  intros [Hr Hx Hl Hd Hf Ha] (Hcs & Hc & Hk & Hnr & (c0 & w0 & H0 & Hs0) & Hmax). simpl. rewrite Hk.
  destruct (Hr c0 w0 H0) as (_ & Hss & Hsf & He0 & _). rewrite Hs0 in *.
  pose proof (Hnr c0 w0 H0 Hs0) as Hew. pose proof (Hmax c0 w0 H0 Hew) as Hm0. destruct (He0 Hew) as [Hs1 _].
  assert (¬ is_data (MkWrite s c WLock)) as Hnd by (by intros [?|?]).
  split; simpl; [| |done|done| |].
  - intros c' w' [[<- <-]|[_ Hw]]%lookup_insert_Some; [|by apply Hr].
    simpl. split_and!; try done. intros _. split; [lia|done].
  - intros c1 w1 c2 w2 H1 H2 Heq.
    apply lookup_insert_Some in H1 as [[<- <-]|[Hn1 H1]];
    apply lookup_insert_Some in H2 as [[<- <-]|[Hn2 H2]]; simpl in *.
    + done.
    + assert (effective w2) by (by eapply (Hnr c2)). split; [|done]. by split.
    + assert (effective w1) by (by eapply (Hnr c1)). split; [|done]. by split.
    + eapply Hx; eauto.
  - intros c1 w1 c2 w2 H1 H2 He1 Hd2 Hlt12.
    apply lookup_insert_Some in H2 as [[<- <-]|[Hn2 H2]]; [done|].
    apply lookup_insert_Some in H1 as [[<- <-]|[Hn1 H1]]; simpl in *; [|by eapply Hf].
    specialize (Hmax c2 w2 H2 (data_effective _ Hd2)). lia.
  - intros c' w' [[<- <-]|[_ Hw]]%lookup_insert_Some Hput; [done|by eapply Ha].
Qed.

Lemma kinv_apply tso k a : kinv k → kguard k a → kinv (kapply tso k a).
Proof.
  destruct a; eauto using kinv_lock, kinv_commit, kinv_rollback, kinv_collect, kinv_drop, kinv_record.
Qed.

(** ** Snapshot reads *)

(** No prewritten transaction can still commit at or below [readTs]. *)
Definition frozen (k : kstate) (readTs : N) : Prop :=
  ∀ l, k_lock k = Some l → data_lock l → (readTs < lock_startTs l)%N ∨ (readTs ≤ k_time k)%N.

#[global] Instance kread_proper (ts : N) :
  Proper ((λ k1 k2, k1 ≡ k2 ∧ kinv k1) ==> eq) (λ k, kread k ts).
Proof.
  intros k1 k2 [(H1 & H2 & H3 & H4) Hinv]. apply kread_ext; [by rewrite H2|].
  intros c w Hv Hp. apply visible_Some in Hv as (Hw & _). rewrite <- H2 in Hw.
  apply H3. by apply (ki_record _ Hinv c w Hw).
Qed.

Lemma frozen_lock tso k l d r :
  kinv k → kguard k (ALock l d) → (r ≤ tso)%N → frozen k r →
  frozen (kapply tso k (ALock l d)) r ∧ kread (kapply tso k (ALock l d)) r = kread k r.
Proof.
  intros Hinv Hg Hr Hf. split.
  { intros l' [= <-] Hdl. right. simpl. unfold retime. case_decide as Hk; [|done].
    destruct Hg as (_ & _ & Hlock & _). rewrite Hk in Hlock. destruct Hlock as (_ & Hp & _).
    destruct Hdl as [Hp' _]. congruence. }
  apply kread_ext; [done|]. simpl. intros c w Hv Hput. destruct d as [v|]; [|done].
  unfold upd. destruct (N.eqb_spec (w_startTs w) (lock_startTs l)) as [Heq|]; [|done].
  apply visible_Some in Hv as (Hw & _). exfalso.
  destruct (kinv_lock tso _ _ _ Hinv Hg) as [_ _ _ Hd _ _]. simpl in Hd.
  destruct Hg as (_ & _ & _ & Hdl & _). destruct (Hd l eq_refl Hdl) as (Hno & _).
  exact (Hno c w Hw Heq).
Qed.

Lemma frozen_commit tso k s c r :
  kinv k → kguard k (ACommit s c) → frozen k r →
  frozen (kapply tso k (ACommit s c)) r ∧ kread (kapply tso k (ACommit s c)) r = kread k r.
Proof.
  intros Hinv (Hcs & Ht & Hc & l & Hk & <- & Hp & Hlt) Hf. simpl. rewrite Hk.
  split; [by intros l' Hl'|]. apply kread_ext; [|done]. simpl. apply visible_ext.
  intros c' w Hd Hle. rewrite lookup_insert_Some. split; [|naive_solver].
  intros [[<- <-]|]; [|naive_solver]. exfalso.
  apply commit_type_data in Hd; [|done]. destruct (Hf l Hk Hd); lia.
Qed.

Lemma frozen_rollback tso k s r :
  kinv k → kguard k (ARollback s) → frozen k r →
  frozen (kapply tso k (ARollback s)) r ∧ kread (kapply tso k (ARollback s)) r = kread k r.
Proof.
  intros Hinv (Hs & Hfit & Hno) Hf. simpl. split.
  { intros l. simpl. destruct (k_lock k) as [l0|] eqn:Hk; [|done].
    case_match; [done|]. intros [= <-]. unfold retime. rewrite decide_True by done. by apply Hf. }
  assert (∀ c w, k_writes k !! c = Some w → is_data w → c ≠ s) as Hne.
  { intros c w Hw Hd ->. destruct (ki_record _ Hinv _ _ Hw) as (_ & _ & _ & He & _).
    destruct (He (data_effective _ Hd)). congruence. }
  apply kread_ext; simpl.
  - apply visible_ext. intros c w Hd Hle. rewrite lookup_insert_Some. split.
    + intros [[_ <-]|[_ ?]]; [|done]. by destruct Hd.
    + intros Hw. right. split; [|done]. by intros <-; eapply Hne.
  - intros c w Hv Hput. unfold upd. destruct (N.eqb_spec (w_startTs w) s) as [Heq|]; [|done].
    apply visible_Some in Hv as (Hw & _). rewrite (Hno c w Hw Heq) in Hput. done.
Qed.

Lemma frozen_collect tso k sp r :
  kinv k → (sp ≤ r)%N → frozen k r →
  frozen (kapply tso k (ACollect sp)) r ∧ kread (kapply tso k (ACollect sp)) r = kread k r.
Proof.
  intros Hinv Hle Hf. split; [done|]. pose proof (visible_collected (k_writes k) sp r Hle) as Hv.
  apply kread_ext; [done|]. simpl. intros c w Hvis Hput. rewrite <- Hv in Hvis.
  apply visible_Some in Hvis as (Hw & _).
  destruct (ki_data _ (kinv_collect tso k sp Hinv) c w Hw Hput) as [v Hx]. simpl in Hx.
  unfold collected_data in *. destruct (existsb _ _); [done|]. done.
Qed.

Lemma frozen_record tso k s c r :
  kguard k (ARecord s c) →
  frozen (kapply tso k (ARecord s c)) r ∧ kread (kapply tso k (ARecord s c)) r = kread k r.
Proof.
  intros (_ & Hc & Hk & _). split; [intros l; simpl; by rewrite Hk|].
  apply kread_ext; [|done]. simpl. apply visible_ext.
  intros c' w Hd Hle. rewrite lookup_insert_Some. split; [|naive_solver].
  intros [[<- <-]|]; [by destruct Hd|naive_solver].
Qed.

(** An action leaves a frozen snapshot frozen and its read unchanged. *)
Lemma frozen_apply tso k a r :
  kinv k → kguard k a → (r ≤ tso)%N → (∀ sp, a = ACollect sp → (sp ≤ r)%N) → frozen k r →
  frozen (kapply tso k a) r ∧ kread (kapply tso k a) r = kread k r.
Proof.
  intros Hinv Hg Hr Hsp Hf. destruct a.
  - by apply frozen_lock.
  - by apply frozen_commit.
  - by apply frozen_rollback.
  - apply frozen_collect; auto.
  - by split.
  - by apply frozen_record.
Qed.

(** ** Decisions *)

(** A decision taken at [c] survives every action except a collection whose
    safe point is above [c]. *)
Lemma decision_stable tso k a s c w :
  kinv k → kguard k a → (∀ sp, a = ACollect sp → (sp ≤ c)%N) →
  decision (k_writes k) s = Some (c, w) →
  decision (k_writes (kapply tso k a)) s = Some (c, w).
Proof.
  intros Hinv Hg Hsp Hdec. pose proof Hdec as (Hw & Hs & Hmin)%decision_Some.
  destruct a as [l d|s' c'|s'|sp| |s' c']; simpl.
  - done.
  - destruct Hg as (_ & _ & Hc & l & Hk & Hl & Hp & Hlt). rewrite Hk. simpl.
    apply decision_Some. split_and!; [rewrite lookup_insert_ne by congruence; done|done|].
    intros c2 w2 [[<- <-]|[_ ?]]%lookup_insert_Some Heq; [|eauto]. simpl in Heq. subst s'.
    destruct (ki_lock _ Hinv l Hk) as (_ & _ & Hnr & Hmax).
    specialize (Hmax c w Hw (Hnr c w Hw ltac:(congruence))). lia.
  - destruct Hg as (Hst & _ & Hno). apply decision_Some.
    destruct (N.eq_dec c s') as [->|Hne].
    + destruct (ki_record _ Hinv _ _ Hw) as (_ & _ & _ & He & Hrb).
      destruct (effective_dec w) as [[_ ?]%He|Hwr]; [congruence|].
      assert (w = rollback_record s') as -> by (destruct w; unfold rollback_record; simpl in *;
        destruct (ki_record _ Hinv _ _ Hw) as (? & _); simpl in *; naive_solver).
      split_and!; [by rewrite lookup_insert_eq|done|]. simpl in Hs. subst s.
      intros c2 w2 [[<- <-]|[_ ?]]%lookup_insert_Some Heq; [lia|eauto].
    + split_and!; [by rewrite lookup_insert_ne|done|].
      intros c2 w2 [[<- <-]|[_ ?]]%lookup_insert_Some Heq; [|eauto]. simpl in Heq. subst s.
      destruct (ki_record _ Hinv _ _ Hw) as (_ & _ & _ & _ & Hrb).
      rewrite (Hrb (Hno c w Hw (eq_sym Heq))) in Heq. congruence.
  - apply decision_Some. split_and!; [|done|intros c2 w2 [? _]%collected_Some; eauto].
    rewrite collected_lookup. case_decide as Hin; [|done]. exfalso.
    apply list_elem_of_fmap in Hin as ([c' w'] & -> & Hin). simpl in *.
    apply gc_removed_elem in Hin as (_ & Hlt & _). specialize (Hsp sp eq_refl). lia.
  - done.
  - destruct Hg as (_ & Hc & _ & Hnr & _ & Hmax). apply decision_Some.
    split_and!; [rewrite lookup_insert_ne by congruence; done|done|].
    intros c2 w2 [[<- <-]|[_ ?]]%lookup_insert_Some Heq; [|eauto]. simpl in Heq. subst s'.
    specialize (Hmax c w Hw (Hnr c w Hw Hs)). lia.
Qed.

End machine.
