(* ===== verification/MvccRefine.v ===== *)
(** * The operations of [MvccStorage] refine the per-key machine

    [view] reads the abstract state of one key off the lock table, the write
    index and the engine.  Each prepare operation yields, when it has changes, a
    batch that performs one enabled action on the key; applying such a batch
    performs exactly that action and leaves every other key alone. *)

From S2P Require Import Prelude KvEngine MvccTypes Codec Hlc Mvcc MvccSpec.
Import MvccStorage.
(** ** Index updates, one operation at a time *)

Section metadata.
Context {E : Type} `{!KVEngine E}.
Implicit Types (s : t E) (key : string).

Lemma metadata_lock_put now s key l :
  lock_fits l →
  ApplyMetadataMutationLocked now s (PutOp (LockKey key) (EncodeLockValue l)) =
    put_lock s key (persisted_lock l).
Proof.
  intros Hl. unfold ApplyMetadataMutationLocked.
  change (starts_with "lock/" (op_key (PutOp (LockKey key) (EncodeLockValue l)))) with true.
  cbn [op_key op_type op_value]. unfold LockKey. rewrite StripPrefix_app.
  by rewrite DecodeLockValue_EncodeLockValue.
Qed.

Lemma metadata_lock_del now s key :
  ApplyMetadataMutationLocked now s (DelOp (LockKey key)) = erase_lock s key.
Proof.
  unfold ApplyMetadataMutationLocked.
  change (starts_with "lock/" (op_key (DelOp (LockKey key)))) with true.
  cbn [op_key op_type op_value]. unfold LockKey. by rewrite StripPrefix_app.
Qed.

Lemma metadata_write_put now s key c w :
  fits64 c → fits64 (w_startTs w) →
  ApplyMetadataMutationLocked now s (PutOp (WriteKey key c) (EncodeWriteValue w)) =
    put_write s key c (MkWrite (w_startTs w) c (w_type w)).
Proof.
  intros Hc Hw. unfold ApplyMetadataMutationLocked. cbn [op_key op_type op_value].
  change (starts_with "lock/" (WriteKey key c)) with false.
  change (starts_with "write/" (WriteKey key c)) with true. cbv beta iota.
  by rewrite SplitKeyTs_WriteKey, DecodeWriteValue_EncodeWriteValue.
Qed.

Lemma metadata_write_del now s key c :
  fits64 c →
  ApplyMetadataMutationLocked now s (DelOp (WriteKey key c)) = erase_write s key c.
Proof.
  intros Hc. unfold ApplyMetadataMutationLocked. cbn [op_key op_type op_value].
  change (starts_with "lock/" (WriteKey key c)) with false.
  change (starts_with "write/" (WriteKey key c)) with true. cbv beta iota.
  by rewrite SplitKeyTs_WriteKey.
Qed.

Lemma metadata_data now s ty key ts v :
  ApplyMetadataMutationLocked now s (MkOp ty (DataKey key ts) v) = s.
Proof. reflexivity. Qed.

Lemma metadata_revision now s key r :
  fits64 r →
  ApplyMetadataMutationLocked now s (PutOp (RevisionKey key) (to_string r)) =
    put_revision s key r.
Proof.
  intros Hr. unfold ApplyMetadataMutationLocked. cbn [op_key op_type op_value].
  change (starts_with "lock/" (RevisionKey key)) with false.
  change (starts_with "write/" (RevisionKey key)) with false.
  change (starts_with "meta/revision/" (RevisionKey key) && bool_decide (OpPut = OpPut))
    with true. cbv beta iota.
  unfold RevisionKey. rewrite StripPrefix_app. unfold DecodeTs. by rewrite strtoull_to_string.
Qed.

End metadata.

(** ** The engine's data versions *)

(** An operation that touches no data version. *)
Definition not_data_op (o : KVBatchOp) : Prop := starts_with "data/" (op_key o) = false.

Lemma apply_ops_app m ops1 ops2 : apply_ops m (ops1 ++ ops2) = apply_ops (apply_ops m ops1) ops2.
Proof. apply foldl_app. Qed.

Lemma apply_op_other m o k : op_key o ≠ k → apply_op m o !! k = m !! k.
Proof.
  intros Hne. unfold apply_op. destruct (op_type o).
  - by rewrite lookup_insert_ne.
  - by rewrite lookup_delete_ne.
Qed.

Lemma apply_ops_not_data m ops key ts :
  Forall not_data_op ops → apply_ops m ops !! DataKey key ts = m !! DataKey key ts.
Proof.
  intros Hops. revert m. induction Hops as [|o ops Ho Hops IH]; intros m; [done|].
  simpl. rewrite IH. apply apply_op_other. intros Heq. unfold not_data_op in Ho.
  rewrite Heq in Ho. done.
Qed.

Lemma apply_data_op m key v s del key' ts :
  fits64 s → fits64 ts →
  apply_op m (data_op key v s del) !! DataKey key' ts =
    if decide (key' = key ∧ ts = s) then (if del then None else Some v) else m !! DataKey key' ts.
Proof.
  intros Hs Hts. case_decide as Hd.
  - destruct Hd as [-> ->]. destruct del; unfold apply_op, data_op; simpl.
    + by rewrite lookup_delete_eq.
    + by rewrite lookup_insert_eq.
  - apply apply_op_other. intros Heq. apply Hd.
    assert (DataKey key s = DataKey key' ts) as Hk by (by destruct del).
    by apply DataKey_inj in Hk as [-> ->].
Qed.

Lemma not_data_lock_put key v : not_data_op (PutOp (LockKey key) v).
Proof. reflexivity. Qed.
Lemma not_data_lock_del key : not_data_op (DelOp (LockKey key)).
Proof. reflexivity. Qed.
Lemma not_data_write ty key c v : not_data_op (MkOp ty (WriteKey key c) v).
Proof. reflexivity. Qed.
Lemma not_data_revision key v : not_data_op (PutOp (RevisionKey key) v).
Proof. reflexivity. Qed.
Lemma not_data_progress index : Forall not_data_op (progress_op index).
Proof. unfold progress_op. case_match; repeat constructor. Qed.

#[export] Hint Resolve not_data_lock_put not_data_lock_del not_data_write not_data_revision
  not_data_progress : strata.

(** ** The view of a key *)

Section view.
Context {E : Type} `{!KVEngine E}.
Implicit Types (s : t E) (key : string) (time : string → N).

(** The abstract state of [key] read off the engine contents [m] and the indexes
    of [s]. *)
Definition view_of (m : gmap string string) s time key : kstate :=
  MkK (persisted_lock <$> locks_ s !! key) (versions s key)
    (λ ts, m !! DataKey key ts) (time key).

Definition view s time key : kstate := view_of (kv_contents (engine_ s)) s time key.

(** When the lock of each key last changed: the ghost clock after [s] became
    [s']. *)
Definition time_obs (tso : N) s s' time : string → N := λ key,
  if decide (persisted_lock <$> locks_ s !! key = persisted_lock <$> locks_ s' !! key)
  then time key else tso.

(** [m'] and [s'] are [m] and [s] with one action performed on [key]. *)
Definition acted (tso : N) m s time key (a : kaction) m' s' : Prop :=
  view_of m' s' (time_obs tso s s' time) key ≡ kapply tso (view_of m s time key) a ∧
  ∀ key', key' ≠ key → view_of m' s' (time_obs tso s s' time) key' ≡ view_of m s time key'.

(** The in-memory lock table holds locks that can be encoded, with a for-update
    timestamp. *)
Definition mem_ok s : Prop :=
  ∀ key l, locks_ s !! key = Some l → lock_fits l ∧ forUpdateTs l ≠ 0%N.

(** Batches and the actions they perform in state [s]. *)
Inductive ops_do s key : list KVBatchOp → kaction → Prop :=
| DoLock l :
    lock_fits l →
    ops_do s key [PutOp (LockKey key) (EncodeLockValue l)] (ALock (persisted_lock l) None)
| DoPrewrite l v del :
    lock_fits l →
    ops_do s key [data_op key v (lock_startTs l) del; PutOp (LockKey key) (EncodeLockValue l)]
      (ALock (persisted_lock l) (Some (if del : bool then None else Some v)))
| DoCommit st c l :
    fits64 st → fits64 c → locks_ s !! key = Some l →
    ops_do s key (commit_ops key st c l) (ACommit st c)
| DoRollback st :
    fits64 st → ops_do s key (rollback_ops s key st) (ARollback st)
| DoRecord st c l :
    fits64 st → fits64 c → locks_ s !! key = None → commit_type l = WLock →
    ops_do s key (commit_ops key st c l) (ARecord st c).

(** The lock table and the write index of [s'] after the action. *)
Definition index_acted s key (a : kaction) s' : Prop :=
  (∀ k, persisted_lock <$> locks_ s' !! k =
        if decide (k = key) then k_lock (kapply 0 (view s (λ _, 0%N) key) a)
        else persisted_lock <$> locks_ s !! k) ∧
  (∀ k, versions s' k =
        if decide (k = key) then k_writes (kapply 0 (view s (λ _, 0%N) key) a) else versions s k).

(** What an action does to the data versions of its key. *)
Definition action_data (a : kaction) (f : N → option string) : N → option string :=
  match a with
  | ALock l (Some v) => upd f (lock_startTs l) v
  | ARollback st => upd f st None
  | _ => f
  end.

Definition data_acted (m : gmap string string) key (a : kaction) (m' : gmap string string) : Prop :=
  ∀ k ts, fits64 ts →
    m' !! DataKey k ts =
      if decide (k = key) then action_data a (λ x, m !! DataKey key x) ts else m !! DataKey k ts.

Lemma acted_intro tso m s time key a m' s' :
  (∀ sp, a ≠ ACollect sp) → index_acted s key a s' → data_acted m key a m' →
  acted tso m s time key a m' s'.
Proof.
  intros Hnc [Hl Hw] Hd. split.
  - pose proof (Hl key) as Hlk. pose proof (Hw key) as Hwk. rewrite decide_True in Hlk by done.
    rewrite decide_True in Hwk by done.
    repeat split; simpl.
    + rewrite Hlk. destruct a; simpl; try done. by destruct (locks_ s !! key).
    + rewrite Hwk. destruct a; simpl; try done. by destruct (locks_ s !! key).
    + intros ts Hts. rewrite (Hd key ts Hts), decide_True by done.
      destruct a as [l [d|]|st c|st|sp| |st c]; simpl; try done; [by destruct (locks_ s !! key)|].
      by destruct (Hnc sp).
    + unfold time_obs. rewrite Hlk. destruct a; simpl; unfold retime; simpl; [done|..|].
      * destruct (locks_ s !! key) eqn:Hk; simpl; [done|]. rewrite Hk. by rewrite decide_True.
      * done.
      * by rewrite decide_True.
      * done.
      * by rewrite decide_True.
  - intros key' Hne. pose proof (Hl key') as Hlk. pose proof (Hw key') as Hwk.
    rewrite decide_False in Hlk by done. rewrite decide_False in Hwk by done.
    repeat split; simpl; [done..| |].
    + intros ts Hts. by rewrite (Hd key' ts Hts), decide_False.
    + unfold time_obs. by rewrite Hlk, decide_True.
Qed.

Lemma ops_do_not_collect s key ops a : ops_do s key ops a → ∀ sp, a ≠ ACollect sp.
Proof. by intros [] sp. Qed.

Lemma versions_put_write s key c w key' :
  versions (put_write s key c w) key' =
    if decide (key' = key) then <[c := w]> (versions s key) else versions s key'.
Proof.
  unfold versions at 1, put_write. simpl. case_decide as Hd.
  - subst. by rewrite lookup_insert_eq.
  - by rewrite lookup_insert_ne.
Qed.

Lemma persisted_lock_idem l : persisted_lock (persisted_lock l) = persisted_lock l.
Proof.
  unfold persisted_lock. simpl. f_equal.
  destruct (N.eqb_spec (forUpdateTs l) 0) as [_|Hne]; [by case_match|].
  by destruct (N.eqb_spec (forUpdateTs l) 0).
Qed.

(** Updating the indexes for a batch performs the action on them. *)
Lemma index_put_lock s s0 key l d :
  locks_ s0 = locks_ s → writes_ s0 = writes_ s →
  index_acted s key (ALock (persisted_lock l) d) (put_lock s0 key l).
Proof.
  intros Hl Hw. split; intros k.
  - simpl. rewrite Hl, lookup_insert. by repeat case_decide; subst.
  - unfold versions. simpl. rewrite Hw. by case_decide; subst.
Qed.

Lemma index_commit s s0 key st c l :
  locks_ s0 = locks_ s → writes_ s0 = writes_ s → locks_ s !! key = Some l →
  index_acted s key (ACommit st c)
    (erase_lock (put_write s0 key c (MkWrite st c (commit_type l))) key).
Proof.
  intros Hl Hw Hk. split; intros k; simpl; rewrite Hk; simpl.
  - rewrite Hl, lookup_delete. by repeat case_decide; subst.
  - change (versions (erase_lock ?x key) k) with (versions x k).
    rewrite versions_put_write. unfold versions. by rewrite Hw.
Qed.

Lemma index_rollback s s0 key st :
  locks_ s0 = locks_ s → writes_ s0 = writes_ s →
  index_acted s key (ARollback st)
    (put_write (if locked_by s key st then erase_lock s0 key else s0) key st (rollback_record st)).
Proof.
  intros Hl Hw. split; intros k; simpl.
  - unfold locked_by. destruct (locks_ s !! key) as [l|] eqn:Hk; simpl.
    + destruct (N.eqb_spec (lock_startTs l) st); simpl; rewrite Hl.
      * rewrite lookup_delete. by repeat case_decide; subst.
      * case_decide; [by subst; rewrite Hk|done].
    + rewrite Hl. case_decide; [by subst; rewrite Hk|done].
  - rewrite versions_put_write. unfold versions.
    destruct (locked_by s key st); simpl; by rewrite Hw.
Qed.

Lemma index_record s s0 key st c :
  locks_ s0 = locks_ s → writes_ s0 = writes_ s → locks_ s !! key = None →
  index_acted s key (ARecord st c) (erase_lock (put_write s0 key c (MkWrite st c WLock)) key).
Proof.
  intros Hl Hw Hk. split; intros k; simpl.
  - rewrite Hl, lookup_delete, Hk. by repeat case_decide; subst.
  - change (versions (erase_lock ?x key) k) with (versions x k).
    rewrite versions_put_write. unfold versions. by rewrite Hw.
Qed.

Lemma metadata_index now s s0 key ops a :
  locks_ s0 = locks_ s → writes_ s0 = writes_ s → ops_do s key ops a →
  index_acted s key a (apply_metadata now s0 ops).
Proof.
  intros Hl Hw Hdo.
  destruct Hdo as [l Hf|l v del Hf|st c l Hst Hc Hk|st Hst|st c l Hst Hc Hk Ht]; simpl.
  - rewrite metadata_lock_put by done. rewrite <- (persisted_lock_idem l) at 1.
    by apply index_put_lock.
  - replace (ApplyMetadataMutationLocked now s0 (data_op key v (lock_startTs l) del)) with s0
      by (by destruct del).
    rewrite metadata_lock_put by done. rewrite <- (persisted_lock_idem l) at 1.
    by apply index_put_lock.
  - rewrite metadata_write_put, metadata_lock_del by done. by apply index_commit.
  - unfold rollback_ops, apply_metadata. rewrite foldl_app.
    pose proof (index_rollback s s0 key st Hl Hw) as Hi.
    destruct (locked_by s key st); simpl; rewrite ?metadata_lock_del, metadata_write_put by done;
      exact Hi.
  - rewrite metadata_write_put, metadata_lock_del by done. simpl. rewrite Ht. by apply index_record.
Qed.

(** The batch, followed by operations that touch no data, performs the action
    on the engine's data versions. *)
Lemma ops_data m s key ops a tail :
  ops_do s key ops a → Forall not_data_op tail → data_acted m key a (apply_ops m (ops ++ tail)).
Proof.
  intros Hdo Htail k ts Hts. rewrite apply_ops_app, apply_ops_not_data by done.
  destruct Hdo as [l Hf|l v del Hf|st c l Hst Hc Hk|st Hst|st c l Hst Hc Hk Ht].
  - rewrite apply_ops_not_data by (repeat constructor). case_decide; by subst.
  - change (apply_ops ?m [?x; ?y]) with (apply_ops (apply_op m x) [y]).
    rewrite apply_ops_not_data by (repeat constructor).
    destruct Hf as (_ & Hfs & _). rewrite apply_data_op by done. simpl. unfold upd.
    destruct (decide (k = key)) as [->|Hne]; [|by rewrite decide_False by naive_solver].
    destruct (N.eqb_spec ts (lock_startTs l)); [by rewrite decide_True|].
    by rewrite decide_False by naive_solver.
  - rewrite apply_ops_not_data by (repeat constructor). case_decide; by subst.
  - unfold rollback_ops. rewrite apply_ops_app.
    change (apply_ops ?m [?x; ?y]) with (apply_ops (apply_op m x) [y]).
    rewrite apply_ops_not_data by (repeat constructor).
    change (DelOp (DataKey key st)) with (data_op key EmptyString st true).
    rewrite apply_data_op by done. rewrite apply_ops_not_data by (case_match; repeat constructor).
    simpl. unfold upd.
    destruct (decide (k = key)) as [->|Hne]; [|by rewrite decide_False by naive_solver].
    destruct (N.eqb_spec ts st); [by rewrite decide_True|]. by rewrite decide_False by naive_solver.
  - rewrite apply_ops_not_data by (repeat constructor). case_decide; by subst.
Qed.

End view.

(** ** Reads of the view *)

Section reads.
Context {E : Type} `{!KVEngine E}.
Implicit Types (s : t E) (key : string) (time : string → N).

Lemma read_loop_visible s key l :
  read_loop s key l =
    match head (filter (λ item, not_data item.2 = false) l) with
    | None => (StNotFound, None, None)
    | Some (c, w) =>
        if bool_decide (w_type w = WDelete) then (StNotFound, None, Some c)
        else match kv_contents (engine_ s) !! DataKey key (w_startTs w) with
             | Some v => (StOk, Some v, Some c)
             | None => (StStorageError, None, Some c)
             end
    end.
Proof.
  induction l as [|[c w] l IH]; [done|]. simpl. rewrite filter_cons. simpl.
  destruct (not_data w) eqn:Hn.
  - rewrite decide_False by done. exact IH.
  - rewrite decide_True by done. simpl. case_bool_decide; [done|].
    unfold engine_value. rewrite kv_get_spec. by destruct (kv_contents _ !! _).
Qed.

Lemma ReadCommittedLocked_view s time key ts :
  ReadCommittedLocked s key ts = kread (view s time key) ts.
Proof. unfold ReadCommittedLocked. by rewrite read_loop_visible. Qed.

Lemma get_loop_read s key l : get_loop s key l = (read_loop s key l).1.
Proof.
  induction l as [|[c w] l IH]; [done|]. simpl. destruct (not_data w).
  - destruct l; [done|exact IH].
  - by case_bool_decide.
Qed.

(** [Get] is the lock check followed by the snapshot read. *)
Lemma Get_read s key ts :
  Get s key ts =
    if lock_blocks s key ts then (StLockConflict, None) else (ReadCommittedLocked s key ts).1.
Proof. unfold Get. by rewrite get_loop_read. Qed.

Lemma find_write_decision s key ts : find_write s key ts = decision (versions s key) ts.
Proof. done. Qed.

(** What the loops over the versions decide. *)
Lemma existsb_om_list (P : N * MvccWrite → bool) ws :
  existsb P (om_list ws) = true ↔ ∃ c w, ws !! c = Some w ∧ P (c, w) = true.
Proof.
  rewrite existsb_exists. split.
  - intros ([c w] & Hin & HP). apply list_elem_of_In, elem_of_om_list in Hin. eauto.
  - intros (c & w & Hw & HP). exists (c, w). split; [|done]. by apply list_elem_of_In, elem_of_om_list.
Qed.

Lemma existsb_om_list_false (P : N * MvccWrite → bool) ws :
  existsb P (om_list ws) = false ↔ ∀ c w, ws !! c = Some w → P (c, w) = false.
Proof.
  rewrite <- not_true_iff_false, existsb_om_list. split.
  - intros Hno c w Hw. apply not_true_iff_false. naive_solver.
  - intros Hall (c & w & Hw & HP). rewrite Hall in HP by done. done.
Qed.

Lemma is_rollback_false w : is_rollback w = false ↔ effective w.
Proof. unfold is_rollback, effective. apply bool_decide_eq_false. Qed.

Lemma rolled_back_at_false s time key ts :
  rolled_back_at s key ts = false → not_rolled_back (view s time key) ts.
Proof.
  unfold rolled_back_at. rewrite existsb_om_list_false. intros Hr c w Hw Heq.
  specialize (Hr c w Hw). unfold started_at in Hr. simpl in Hr.
  rewrite Heq, N.eqb_refl in Hr. by apply is_rollback_false.
Qed.

Lemma newest_at_least_false s key ts :
  newest_at_least s key ts = false ↔ ∀ c w, versions s key !! c = Some w → (c < ts)%N.
Proof.
  unfold newest_at_least. split.
  - intros Hn c w Hw. destruct (om_last_key_max _ _ _ Hw) as (c0 & Hc0 & Hle).
    rewrite Hc0 in Hn. reflect_bools. lia.
  - intros Hall. destruct (om_last_key _) as [c|] eqn:Hc; [|done].
    apply om_last_key_is_key in Hc as [w Hw]. apply N.leb_gt. eauto.
Qed.

Lemma newest_effective_max s key c w :
  versions s key !! c = Some w → effective w →
  ∃ c0, newest_effective s key = Some c0 ∧ (c ≤ c0)%N.
Proof.
  intros Hw He. unfold newest_effective.
  assert ((c, w) ∈ filter (λ item, is_rollback item.2 = false) (reverse (om_list (versions s key)))) as Hin.
  { apply list_elem_of_filter. rewrite elem_of_reverse, elem_of_om_list. split; [|done].
    by apply is_rollback_false. }
  pose proof (StronglySorted_filter _ (λ item, is_rollback item.2 = false) _
    (StronglySorted_reverse _ _ (om_list_sorted (versions s key)))) as Hs.
  destruct Hs as [|[c0 w0] l Hs H0]; [set_solver|]. exists c0. split; [done|].
  apply elem_of_cons in Hin as [[= -> _]|Hin]; [lia|]. rewrite Forall_forall in H0.
  specialize (H0 _ Hin). unfold flip, key_lt in H0. simpl in H0. lia.
Qed.

Lemma hasFinishedWrite_true s key ts :
  hasFinishedWrite s key ts = true ↔ ∃ c w, versions s key !! c = Some w ∧ w_startTs w = ts.
Proof.
  unfold hasFinishedWrite. rewrite existsb_om_list. unfold started_at. simpl.
  by setoid_rewrite N.eqb_eq.
Qed.

(** A read that is not blocked is of a frozen snapshot. *)
Lemma unblocked_frozen is_start s time key r :
  kinv is_start (view s time key) → lock_blocks s key r = false → frozen (view s time key) r.
Proof.
  intros Hinv Hb l Hl Hdl. left. simpl in Hl.
  destruct (locks_ s !! key) as [l0|] eqn:Hk; simplify_eq/=.
  destruct (ki_data_lock _ _ Hinv (persisted_lock l0)) as (Hno & _); [by simpl; rewrite Hk|done|].
  unfold lock_blocks in Hb. rewrite Hk in Hb.
  destruct (N.leb_spec (lock_startTs l0) r) as [Hle|]; [|done].
  simpl in Hb. apply negb_false_iff, hasFinishedWrite_true in Hb as (c & w & Hw & Heq).
  by destruct (Hno c w Hw).
Qed.

End reads.

(** ** What a prepared write does *)

Section prepare.
Context {E : Type} `{!KVEngine E}.
Context (is_start : N → bool).
Context (start_pos : ∀ ts, is_start ts = true → ts ≠ 0%N).
Implicit Types (s : t E) (key : string) (time : string → N).

#[global] Instance kguard_proper : Proper ((≡) ==> eq ==> iff) (kguard is_start).
Proof.
  intros k1 k2 (H1 & H2 & _ & H4) a ? <-. unfold kguard, not_rolled_back, has_record.
  destruct a; rewrite ?H1, ?H2, ?H4; done.
Qed.

#[global] Instance kinv_proper : Proper ((≡) ==> iff) (kinv is_start).
Proof.
  assert (∀ k1 k2, k1 ≡ k2 → kinv is_start k1 → kinv is_start k2) as Himp.
  { intros k1 k2 (H1 & H2 & H3 & H4) [Hr Hx Hl Hd Hf Ha].
    unfold not_rolled_back, no_record in *.
    split; unfold not_rolled_back, no_record; rewrite <- ?H1, <- ?H2; try done.
    - intros l Hk Hdl. destruct (Hd l Hk Hdl) as (? & ? & Hv). split_and!; [done..|].
      destruct (Hl l Hk) as (_ & Hfit & _). intros Hdel. rewrite <- H3 by done. auto.
    - intros c w Hw Hput. destruct (Hr c w Hw) as (_ & _ & Hfit & _). rewrite <- H3 by done. eauto. }
  intros k1 k2 Heq. split; apply Himp; [done|by symmetry].
Qed.

#[global] Instance kapply_proper tso : Proper ((≡) ==> eq ==> (≡)) (kapply tso).
Proof.
  intros k1 k2 (H1 & H2 & H3 & H4) a ? <-. destruct a as [l d|st c|st|sp| |st c]; simpl.
  - unfold retime. rewrite H1, H4. split_and!; simpl; [done|done| |done].
    intros ts Hts. destruct d; [|auto]. unfold upd. case_match; auto.
  - rewrite H1. destruct (k_lock k2) eqn:Hk; [|repeat split; congruence || auto].
    unfold retime. rewrite H1, Hk, H4. repeat split; simpl; rewrite ?H2; auto.
  - unfold retime. rewrite H1, H4. split_and!; simpl; [done|by rewrite H2| |done]. intros ts Hts.
    unfold upd. case_match; auto.
  - repeat split; simpl; rewrite ?H2; [done..| |done]. intros ts Hts.
    unfold collected_data. case_match; auto.
  - unfold retime. rewrite H1, H4. by split_and!.
  - repeat split; simpl; rewrite ?H2; auto.
Qed.

(** The batch of a prepared write: an enabled action and the revision bump. *)
Definition performs s time key (p : PreparedMvccWrite) (a : kaction) : Prop :=
  ∃ ops, modifications p = ops ++ [PutOp (RevisionKey key) (to_string (newRevision p))] ∧
    prepared_valid p = true ∧ expectedRevision p = CurrentRevisionLocked s key ∧
    ops_do s key ops a ∧ kguard is_start (view s time key) a.

(** A prepare operation answers without changes, or with an enabled action of
    the kind [P]. *)
Definition sound (P : kaction → Prop) s time key (p : PreparedMvccWrite) : Prop :=
  HasChanges p = true → ∃ a, P a ∧ performs s time key p a.

(** The kind of a lock request: which transaction locks with which primary,
    whether the lock is pessimistic, and how far a lock on a free key reaches. *)
Definition locking (held : option MvccLock) (startTs : N) (pk : string) (pess : bool) (fu : N)
    (a : kaction) : Prop :=
  ∃ l d, a = ALock l d ∧ lock_startTs l = startTs ∧ primaryKey l = pk ∧ isPessimistic l = pess ∧
    (held = None → forUpdateTs l ≤ N.max startTs fu)%N.

Lemma sound_mono (P Q : kaction → Prop) s time key p :
  (∀ a, P a → Q a) → sound P s time key p → sound Q s time key p.
Proof. intros Himp Hp Hc. destruct (Hp Hc) as (a & Ha & Hpa). eauto. Qed.

Lemma sound_stop P s time key version st : sound P s time key (prepared_stop s key version st).
Proof. unfold sound, HasChanges. simpl. rewrite andb_false_r. done. Qed.

Lemma sound_with_read P s time key r p : sound P s time key p → sound P s time key (with_read r p).
Proof. destruct r as [[? ?] ?]. done. Qed.

Lemma sound_with_record P s time key r p : sound P s time key p → sound P s time key (with_record r p).
Proof. done. Qed.

Lemma sound_with_version P s time key p :
  sound P s time key p → sound P s time key (with_version kCommandVersion p).
Proof.
  intros Hp Hc. destruct (Hp Hc) as (a & Ha & ops & Hm & Hv & He & Hdo & Hg). exists a. split; [done|].
  exists ops. split_and!; [done| |done..]. unfold prepared_valid in *. simpl.
  rewrite !andb_true_iff in Hv.
  destruct Hv as [[[_ H2] H3] H4]. by rewrite H2, H3, H4.
Qed.

Ltac sound_stops := solve [apply sound_stop | apply sound_with_read, sound_stop].

Lemma sound_ok (P : kaction → Prop) s time key version ops a :
  version = kLegacyCommandVersion ∨ version = kCommandVersion →
  ops_do s key ops a → kguard is_start (view s time key) a → P a →
  sound P s time key (prepared_ok s key version ops).
Proof.
  intros Hv Hdo Hg HP _. exists a. split; [done|]. exists ops. split_and!; [done| |done..].
  unfold prepared_valid. simpl. rewrite (N.eqb_refl (_ +₆₄ 1)), bool_decide_false.
  - by destruct Hv as [-> | ->].
  - by destruct ops.
Qed.

Lemma persisted_fu l : forUpdateTs l ≠ 0%N → forUpdateTs (persisted_lock l) = forUpdateTs l.
Proof. simpl. by destruct (N.eqb_spec (forUpdateTs l) 0). Qed.

Lemma add64_fits a b : fits64 (a +₆₄ b).
Proof. unfold add64, wrap64, fits64, u64_size. apply N.mod_lt. done. Qed.

Lemma prewrite_lock_fits existing value pk startTs ttl del fu now now2 :
  fits_mem pk → fits64 startTs → fits64 ttl → fits64 fu → fits64 now →
  (∀ l, existing = Some l → lock_fits l) →
  lock_fits (prewrite_lock existing value pk startTs ttl del fu now now2).
Proof.
  intros Hpk Hs Ht Hf Hn Hl. unfold lock_fits, prewrite_lock. destruct existing as [l|]; simpl.
  - destruct (Hl l eq_refl) as (_ & _ & _ & _ & ? & ?). by split_and!.
  - split_and!; try done; [by case_match|apply add64_fits].
Qed.

(** The action of a prewrite is enabled once the two write-conflict checks have
    passed. *)
Lemma prewrite_guard s time key value pk startTs ttl del fu now now2 existing :
  mem_ok s → is_start startTs = true → fits64 startTs →
  locks_ s !! key = existing →
  (∀ l, existing = Some l → lock_startTs l = startTs ∧ isPessimistic l = true) →
  rolled_back_at s key startTs = false → newest_at_least s key startTs = false →
  kguard is_start (view s time key)
    (ALock (persisted_lock (prewrite_lock existing value pk startTs ttl del fu now now2))
       (Some (if del then None else Some value))).
Proof.
  intros Hm Hs Hf Hk Hl Hr Hn. rewrite newest_at_least_false in Hn.
  pose proof (rolled_back_at_false s time key startTs Hr) as Hnr.
  set (l := prewrite_lock existing value pk startTs ttl del fu now now2).
  assert (lock_startTs (persisted_lock l) = startTs) as Hst by (by destruct existing).
  unfold kguard. rewrite Hst. split_and!; [done|done| |..].
  - simpl. rewrite Hk. destruct existing as [l0|]; simpl.
    + destruct (Hl l0 eq_refl) as [-> ->]. done.
    + split; [done|]. intros c w Hw _. specialize (Hn c w Hw). lia.
  - by destruct existing.
  - destruct existing; simpl; by intros ->.
  - done.
  - exact Hn.
Qed.

Lemma prewrite_locking existing value pk startTs ttl del fu now now2 d :
  locking existing startTs pk false fu
    (ALock (persisted_lock (prewrite_lock existing value pk startTs ttl del fu now now2)) d).
Proof.
  do 2 eexists. split; [done|]. destruct existing as [l|]; simpl; split_and!; try done.
  intros _. destruct (N.eqb_spec fu 0) as [->|]; simpl; case_match; lia.
Qed.

Lemma sound_PreparePrewrite s time key value pk startTs ttl del fu now now2 :
  mem_ok s → is_start startTs = true → fits64 startTs → fits_mem pk →
  fits64 ttl → fits64 fu → fits64 now →
  sound (locking (locks_ s !! key) startTs pk false fu) s time key
    (PreparePrewrite s key value pk startTs ttl del fu now now2).
Proof.
  intros Hm Hs Hf Hpk Ht Hfu Hn. unfold PreparePrewrite.
  destruct (locks_ s !! key) as [l0|] eqn:Hk; repeat (case_match; [sound_stops|]).
  all: reflect_bools; eapply sound_ok;
    [by left| |apply prewrite_guard; try done; by intros; simplify_eq|by apply prewrite_locking].
  all: match goal with |- context [prewrite_lock ?e _ _ _ _ _ _ _ _] =>
         apply (DoPrewrite s key (prewrite_lock e value pk startTs ttl del fu now now2) value del) end.
  all: apply prewrite_lock_fits; try done.
  all: intros l [= <-]; by apply (Hm key).
Qed.

Lemma sound_PreparePessimisticLock s time key pk startTs ttl fu expireAt now :
  mem_ok s → is_start startTs = true → fits64 startTs → fits_mem pk →
  fits64 ttl → fits64 fu → fits64 expireAt → fits64 now →
  sound (locking (locks_ s !! key) startTs pk true fu) s time key
    (PreparePessimisticLock s key pk startTs ttl fu expireAt now).
Proof.
  intros Hm Hs Hf Hpk Ht Hfu He Hn. unfold PreparePessimisticLock.
  pose proof (start_pos _ Hs) as Hpos.
  set (req := if (fu =? 0)%N then startTs else fu).
  assert (fits64 req ∧ req ≠ 0%N) as [Hreq Hreq0]
    by (unfold req; destruct (N.eqb_spec fu 0); done).
  destruct (locks_ s !! key) as [l0|] eqn:Hk.
  - repeat (case_match; [sound_stops|]). reflect_bools.
    destruct (Hm key l0 Hk) as [(Hf1 & Hf2 & Hf3 & Hf4 & Hf5 & Hf6) Hfu0].
    apply sound_with_read. eapply sound_ok; [by right| | |].
    + apply DoLock. split_and!; simpl; try done; unfold fits64 in *; lia.
    + unfold kguard. simpl. rewrite Hk. simpl. split_and!; try done; [by subst| |].
      * destruct (N.eqb_spec (forUpdateTs l0) 0); [done|].
        destruct (N.eqb_spec (N.max (forUpdateTs l0) req) 0); lia.
      * intros [Hp _]. simpl in Hp. congruence.
    + do 2 eexists. by split_and!.
  - do 2 (case_match; [sound_stops|]). case_bool_decide; [sound_stops|].
    apply sound_with_read. eapply sound_ok; [by right| | |].
    + apply DoLock. by split_and!.
    + unfold kguard. simpl. rewrite Hk. simpl. split_and!; try done.
      * by apply rolled_back_at_false.
      * intros c w Hw Hew. destruct (newest_effective_max s key c w Hw Hew) as (c0 & Hc0 & Hle).
        rewrite Hc0 in *. reflect_bools. destruct (N.eqb_spec req 0); lia.
      * by intros [Hp _].
    + do 2 eexists. split_and!; try done. intros _. simpl.
      destruct (N.eqb_spec req 0); [done|]. unfold req. destruct (fu =? 0)%N; lia.
Qed.

Lemma sound_PreparePrewriteLock s time key pk startTs ttl fu :
  mem_ok s → is_start startTs = true → fits64 startTs → fits64 ttl →
  sound (locking (locks_ s !! key) startTs pk false fu) s time key
    (PreparePrewriteLock s key pk startTs ttl fu).
Proof.
  intros Hm Hs Hf Ht. unfold PreparePrewriteLock.
  destruct (locks_ s !! key) as [l0|] eqn:Hk; [|apply sound_stop].
  repeat (case_match; [sound_stops|]). reflect_bools. subst.
  destruct (Hm key l0 Hk) as [(Hf1 & Hf2 & Hf3 & Hf4 & Hf5 & Hf6) Hfu0].
  eapply sound_ok; [by right|apply DoLock; by split_and!| |].
  - unfold kguard. simpl. rewrite Hk. simpl. split_and!; try done. by intros [_ Hp].
  - do 2 eexists. by split_and!.
Qed.

(** Guards shared by [PrepareCommit] and [Commit]; the last three hypotheses
    are the client's part of the protocol. *)
Lemma commit_guard_action s time key startTs commitTs l :
  commit_guard s key startTs commitTs = inr l →
  is_start commitTs = false → (time key < commitTs)%N → isPessimistic l = false →
  locks_ s !! key = Some l ∧ lock_startTs l = startTs ∧
  kguard is_start (view s time key) (ACommit startTs commitTs).
Proof.
  unfold commit_guard. intros Hg Hc Ht Hp.
  destruct (locks_ s !! key) as [l0|] eqn:Hk; [|by repeat case_match].
  destruct (N.eqb_spec (lock_startTs l0) startTs) as [Hst|]; [|done]. simpl in Hg.
  destruct (N.leb_spec commitTs (N.max startTs (forUpdateTs l0))) as [|Hlt]; [done|].
  destruct (versions s key !! commitTs) eqn:Hv; [done|].
  destruct (overlapping_write s key startTs commitTs); simplify_eq.
  split_and!; [done..|]. unfold kguard. split_and!; [done..|].
  exists (persisted_lock l). simpl. rewrite Hk. split_and!; [done..|].
  destruct (N.eqb_spec (forUpdateTs l) 0); lia.
Qed.

(** The client's part: the lock of the transaction was prewritten, and placed
    before the commit timestamp was issued. *)
Definition prewritten_before s time key (startTs commitTs : N) : Prop :=
  ∀ l, locks_ s !! key = Some l → lock_startTs l = startTs →
       isPessimistic l = false ∧ (time key < commitTs)%N.

Lemma commit_guard_lock s key startTs commitTs l :
  commit_guard s key startTs commitTs = inr l → locks_ s !! key = Some l ∧ lock_startTs l = startTs.
Proof.
  unfold commit_guard. intros Hg. repeat case_match; simplify_eq. by reflect_bools.
Qed.

Lemma sound_PrepareCommit s time key startTs commitTs :
  fits64 startTs → fits64 commitTs → is_start commitTs = false →
  prewritten_before s time key startTs commitTs →
  sound (λ a, a = ACommit startTs commitTs) s time key (PrepareCommit s key startTs commitTs).
Proof.
  intros Hs Hc Hic Hp. unfold PrepareCommit.
  destruct (commit_guard s key startTs commitTs) as [st|l] eqn:Hg; [apply sound_stop|].
  destruct (commit_guard_lock _ _ _ _ _ Hg) as [Hk Hst]. destruct (Hp l Hk Hst) as [Hpe Ht].
  destruct (commit_guard_action s time key startTs commitTs l) as (_ & _ & Hga); auto.
  eapply sound_ok; [by left| |exact Hga|done]. by apply DoCommit.
Qed.

Lemma rollback_guard s time key startTs :
  is_start startTs = true → fits64 startTs → find_write s key startTs = None →
  kguard is_start (view s time key) (ARollback startTs).
Proof.
  intros Hs Hf Hn. rewrite find_write_decision, decision_None in Hn.
  split; [done|]. split; [done|]. intros c w Hw Heq. by destruct (Hn c w Hw).
Qed.

Lemma sound_PrepareRollback s time key startTs :
  is_start startTs = true → fits64 startTs →
  sound (λ a, a = ARollback startTs) s time key (PrepareRollback s key startTs).
Proof.
  intros Hs Hf. unfold PrepareRollback, PrepareRollbackLocked.
  destruct (find_write s key startTs) as [[c w]|] eqn:Hfw; [apply sound_stop|].
  eapply sound_ok; [by left|by apply DoRollback|by apply rollback_guard|done].
Qed.

Lemma sound_PrepareCheckTxnStatus s time key startTs cur rb :
  is_start startTs = true → fits64 startTs →
  sound (λ a, a = ARollback startTs) s time key (PrepareCheckTxnStatus s key startTs cur rb).
Proof.
  intros Hs Hf. unfold PrepareCheckTxnStatus.
  repeat (case_match; try by apply sound_with_record, sound_stop).
  - by apply sound_with_record, sound_with_version, sound_PrepareRollback.
  - by apply sound_PrepareRollback.
Qed.

Lemma sound_PrepareResolveLock s time key startTs decision commitTs :
  is_start startTs = true → fits64 startTs → fits64 commitTs →
  (decision = RsCommitted → is_start commitTs = false ∧ prewritten_before s time key startTs commitTs) →
  sound (λ a, (decision = RsCommitted ∧ a = ACommit startTs commitTs) ∨
              (decision = RsRolledBack ∧ a = ARollback startTs)) s time key
    (PrepareResolveLock s key startTs decision commitTs).
Proof.
  intros Hs Hf Hc Hcom. unfold PrepareResolveLock. repeat case_match; [..|done]; reflect_bools.
  - destruct Hcom as (? & ?); [done|].
    eapply sound_mono; [|by apply sound_with_version, sound_PrepareCommit]. naive_solver.
  - eapply sound_mono; [|by apply sound_with_version, sound_PrepareRollback]. naive_solver.
Qed.

End prepare.

(** ** Applying *)

Section apply.
Context {E : Type} `{!KVEngine E}.
Context (is_start : N → bool).
Context (start_pos : ∀ ts, is_start ts = true → ts ≠ 0%N).
Implicit Types (s : t E) (key : string) (time : string → N).

(** The action happened on [key] and the key's revision moved on to [rev]. *)
Definition performed tso m s time key (a : kaction) (rev : N) m' s' : Prop :=
  acted tso m s time key a m' s' ∧ revisions_ s' = <[key := rev]> (revisions_ s) ∧ mem_ok s'.

(** Nothing a client can observe has changed. *)
Definition untouched s s' : Prop :=
  locks_ s' = locks_ s ∧ writes_ s' = writes_ s ∧ revisions_ s' = revisions_ s ∧
  kv_contents (engine_ s') = kv_contents (engine_ s).

Lemma untouched_view s s' time key : untouched s s' → view s' time key ≡ view s time key.
Proof.
  intros (Hl & Hw & Hr & He). unfold view, view_of, versions. rewrite Hl, Hw, He. repeat split; done.
Qed.

Lemma untouched_mem_ok s s' : untouched s s' → mem_ok s → mem_ok s'.
Proof. intros (Hl & _) Hm key l. rewrite Hl. apply Hm. Qed.

Lemma persisted_fits l : lock_fits l → lock_fits (persisted_lock l).
Proof.
  intros (H1 & H2 & H3 & H4 & H5 & H6). split_and!; simpl; try done. by case_match.
Qed.

(** A lock placed by an enabled action keeps the table well-formed. *)
Lemma mem_ok_put s s0 key l :
  mem_ok s → locks_ s0 = locks_ s → lock_fits l → forUpdateTs l ≠ 0%N → mem_ok (put_lock s0 key l).
Proof.
  intros Hm Hl Hf Hfu k l'. simpl. rewrite Hl.
  intros [[_ <-]|[_ Hk]]%lookup_insert_Some; [done|by apply (Hm k)].
Qed.

Lemma mem_ok_sub s s0 :
  mem_ok s → (∀ k l, locks_ s0 !! k = Some l → locks_ s !! k = Some l) → mem_ok s0.
Proof. intros Hm Hsub k l Hk. by apply (Hm k), Hsub. Qed.

Lemma persisted_fu_pos l :
  is_start (lock_startTs l) = true → forUpdateTs (persisted_lock l) ≠ 0%N.
Proof using start_pos.
  intros Hs%start_pos. simpl. by destruct (N.eqb_spec (forUpdateTs l) 0).
Qed.

Lemma metadata_mem_ok now s s0 time key ops a :
  locks_ s0 = locks_ s → mem_ok s → ops_do s key ops a →
  kguard is_start (view s time key) a → mem_ok (apply_metadata now s0 ops).
Proof using start_pos.
  intros Hl Hm Hdo Hg.
  destruct Hdo as [l Hf|l v del Hf|st c l Hst Hc Hk|st Hst|st c l Hst Hc Hk Ht]; simpl.
  - rewrite metadata_lock_put by done.
    eapply mem_ok_put; [exact Hm|done|by apply persisted_fits|]. apply persisted_fu_pos, Hg.
  - replace (ApplyMetadataMutationLocked now s0 (data_op key v (lock_startTs l) del)) with s0
      by (by destruct del).
    rewrite metadata_lock_put by done.
    eapply mem_ok_put; [exact Hm|done|by apply persisted_fits|]. apply persisted_fu_pos, Hg.
  - rewrite metadata_write_put, metadata_lock_del by done. eapply mem_ok_sub; [exact Hm|].
    intros k l'. simpl. rewrite Hl. by intros [_ ?]%lookup_delete_Some.
  - unfold rollback_ops, apply_metadata. rewrite foldl_app. eapply mem_ok_sub; [exact Hm|].
    intros k l'. rewrite <- Hl. destruct (locked_by s key st); simpl;
      rewrite ?metadata_lock_del, metadata_write_put by done; simpl; [|done].
    by intros [_ ?]%lookup_delete_Some.
  - rewrite metadata_write_put, metadata_lock_del by done. eapply mem_ok_sub; [exact Hm|].
    intros k l'. simpl. rewrite Hl. by intros [_ ?]%lookup_delete_Some.
Qed.

Lemma metadata_revisions now s s0 key ops a :
  ops_do s key ops a → revisions_ (apply_metadata now s0 ops) = revisions_ s0 ∧
    engine_ (apply_metadata now s0 ops) = engine_ s0.
Proof.
  intros Hdo.
  destruct Hdo as [l Hf|l v del Hf|st c l Hst Hc Hk|st Hst|st c l Hst Hc Hk Ht]; simpl.
  - by rewrite metadata_lock_put.
  - destruct del; simpl; rewrite metadata_data, metadata_lock_put by done; done.
  - by rewrite metadata_write_put.
  - unfold rollback_ops, apply_metadata. rewrite foldl_app.
    destruct (locked_by s key st); simpl; rewrite ?metadata_lock_del, metadata_write_put by done; done.
  - by rewrite metadata_write_put.
Qed.

(** The whole batch of a prepared write, applied to the indexes. *)
Lemma performs_metadata now tso m s s0 time key p a tail :
  mem_ok s → performs is_start s time key p a → Forall not_data_op tail →
  locks_ s0 = locks_ s → writes_ s0 = writes_ s → revisions_ s0 = revisions_ s →
  performed tso m s time key a (newRevision p) (apply_ops m (modifications p ++ tail))
    (apply_metadata now s0 (modifications p)).
Proof using start_pos.
  intros Hm (ops & Hmods & Hval & Hrev & Hdo & Hg) Htail Hl Hw Hr0.
  assert (fits64 (newRevision p)) as Hfit.
  { unfold prepared_valid in Hval. reflect_bools.
    repeat match goal with H : (_ && _)%bool = true |- _ => apply andb_true_iff in H as [? H] end.
    reflect_bools. match goal with H : newRevision p = _ |- _ => rewrite H end. apply add64_fits. }
  rewrite Hmods in *. unfold apply_metadata. rewrite foldl_app. simpl.
  rewrite metadata_revision by done.
  change (foldl (ApplyMetadataMutationLocked now) s0 ops) with (apply_metadata now s0 ops).
  destruct (metadata_revisions now s s0 key ops a Hdo) as [Hr He'].
  split_and!.
  - apply acted_intro.
    + by eapply ops_do_not_collect.
    + exact (metadata_index now s s0 key ops a Hl Hw Hdo).
    + rewrite <- app_assoc. eapply ops_data; [exact Hdo|]. constructor; auto with strata.
  - simpl. by rewrite Hr, Hr0.
  - eapply metadata_mem_ok in Hdo; [|exact Hl|exact Hm|exact Hg]. exact Hdo.
Qed.

(** [ApplyPrepared] on a write prepared in the same state of the key: the entry
    is a replay, the engine refuses the batch, or the action is performed. *)
Lemma ApplyPrepared_performs now tso s time key p a index :
  mem_ok s → performs is_start s time key p a →
  ∃ st s', ApplyPrepared now s key p index = (st, s') ∧
    ((st = StOk ∧ s' = s ∧ replayed s index = true) ∨
     (st = StStorageError ∧ untouched s s') ∨
     (st = StOk ∧ performed tso (kv_contents (engine_ s)) s time key a (newRevision p)
                    (kv_contents (engine_ s')) s')).
Proof using start_pos.
  intros Hm Hp. pose proof Hp as (ops & Hmods & Hval & Hrev & Hdo & Hg).
  unfold ApplyPrepared. rewrite Hval. simpl.
  destruct (replayed s index) eqn:Hrep; [eauto 10|].
  rewrite <- Hrev, N.eqb_refl. simpl.
  pose proof (kv_write_batch_spec (engine_ s) (modifications p ++ progress_op index)) as Hw.
  destruct (kv_write_batch (engine_ s) (modifications p ++ progress_op index)) as [[] e] eqn:Hwb;
    simpl in *.
  - destruct (performs_metadata now tso (kv_contents (engine_ s)) s
      (count_batch (set_engine s e)) time key p a (progress_op index) Hm Hp)
      as (Hact & Hr & Hmem); [auto with strata|done..|].
    assert (engine_ (apply_metadata now (count_batch (set_engine s e)) (modifications p)) = e) as He.
    { rewrite Hmods. unfold apply_metadata. rewrite foldl_app.
      exact (proj2 (metadata_revisions now s (count_batch (set_engine s e)) key ops a Hdo)). }
    unfold CurrentRevisionLocked at 1. rewrite Hr. simpl. rewrite lookup_insert_eq. simpl.
    rewrite N.eqb_refl. simpl. do 2 eexists. split; [done|]. right; right. split; [done|].
    simpl. rewrite He, Hw. split_and!; [exact Hact|exact Hr|exact Hmem].
  - do 2 eexists. split; [done|]. right; left. done.
Qed.

(** ** The direct operations *)

(** A direct operation changes nothing, and then succeeds only if [noop], or
    performs an enabled action of the kind [P] and succeeds. *)
Definition outcome (noop : bool) (P : kaction → Prop) tso s time key (r : TxnStatus * t E) : Prop :=
  (untouched s r.2 ∧ (r.1 = StOk → noop = true)) ∨
  ∃ a, P a ∧ kguard is_start (view s time key) a ∧ (∀ sp, a ≠ ACollect sp) ∧
       performed tso (kv_contents (engine_ s)) s time key a (CurrentRevisionLocked s key +₆₄ 1)
         (kv_contents (engine_ r.2)) r.2 ∧ r.1 = StOk.

Lemma outcome_same noop P tso s time key st :
  (st = StOk → noop = true) → outcome noop P tso s time key (st, s).
Proof. by left. Qed.

Lemma outcome_write noop (P : kaction → Prop) tso s time key ops a upd :
  P a → ops_do s key ops a → kguard is_start (view s time key) a →
  (∀ s1, locks_ s1 = locks_ s → writes_ s1 = writes_ s →
     index_acted s key a (upd s1) ∧ engine_ (upd s1) = engine_ s1 ∧
     revisions_ (upd s1) = revisions_ s1 ∧ mem_ok (upd s1)) →
  outcome noop P tso s time key
    (let '(ops', newRev) := AppendRevisionMutationLocked s key ops in
     write_then s ops' (λ s1, put_revision (upd s1) key newRev)).
Proof.
  intros HP Hdo Hg Hupd. unfold AppendRevisionMutationLocked, write_then.
  set (r := CurrentRevisionLocked s key +₆₄ 1).
  set (ops' := ops ++ [PutOp (RevisionKey key) (to_string r)]).
  pose proof (kv_write_batch_spec (engine_ s) ops') as Hw.
  destruct (kv_write_batch (engine_ s) ops') as [[] e] eqn:Hwb; simpl in *; [|by left].
  destruct (Hupd (count_batch (set_engine s e)) eq_refl eq_refl) as (Hi & He & Hr & Hm).
  right. exists a. split; [done|]. split; [done|]. split; [by eapply ops_do_not_collect|]. split; [|done].
  split_and!; simpl.
  - apply acted_intro; [by eapply ops_do_not_collect|exact Hi|]. rewrite He. simpl. rewrite Hw.
    eapply ops_data; [exact Hdo|]. repeat constructor.
  - by rewrite Hr.
  - exact Hm.
Qed.

Lemma pessimistic_lock_fits pk startTs ttl now fu expireAt :
  fits_mem pk → fits64 startTs → fits64 ttl → fits64 now → fits64 fu → fits64 expireAt →
  lock_fits (pessimistic_lock pk startTs ttl now fu expireAt).
Proof. intros. by split_and!. Qed.

Lemma outcome_AcquirePessimisticLock tso s time key pk startTs ttl fu expireAt now :
  mem_ok s → is_start startTs = true → fits64 startTs → fits_mem pk →
  fits64 ttl → fits64 fu → fits64 expireAt → fits64 now →
  outcome true (locking (locks_ s !! key) startTs pk true fu) tso s time key
    (AcquirePessimisticLock s key pk startTs ttl fu expireAt now).
Proof using start_pos.
  intros Hm Hs Hf Hpk Ht Hfu He Hn. unfold AcquirePessimisticLock.
  destruct (locks_ s !! key) as [l0|] eqn:Hk; [by apply outcome_same|].
  destruct (rolled_back_at s key startTs) eqn:Hrb; [by apply outcome_same|].
  destruct (newest_at_least s key startTs) eqn:Hnew; [by apply outcome_same|].
  set (fu' := if (fu =? 0)%N then startTs else fu).
  assert (fits64 fu') as Hfu' by (unfold fu'; by case_match).
  assert (fu' ≠ 0%N) as Hfu0.
  { unfold fu'. destruct (N.eqb_spec fu 0); [by apply start_pos|done]. }
  set (l := pessimistic_lock pk startTs ttl now fu' expireAt).
  assert (lock_fits l) as Hlf by (by apply pessimistic_lock_fits).
  apply (outcome_write _ _ tso s time key _ (ALock (persisted_lock l) None)
           (λ s1, put_lock s1 key l)); [|by apply DoLock| |].
  - do 2 eexists. split_and!; try done. intros _. simpl. unfold fu'.
    destruct (N.eqb_spec fu 0) as [->|]; simpl; case_match; lia.
  - unfold kguard. simpl. rewrite Hk. simpl. rewrite newest_at_least_false in Hnew.
    split_and!; [done|done|by apply rolled_back_at_false| |by intros [? _]].
    intros c w Hw _. specialize (Hnew c w Hw). lia.
  - intros s1 H1 H2. split_and!; [by apply index_put_lock|done|done|by eapply mem_ok_put].
Qed.

Lemma outcome_PrewriteLocked tso s time key value pk startTs ttl del fu now now2 :
  mem_ok s → is_start startTs = true → fits64 startTs → fits_mem pk →
  fits64 ttl → fits64 fu → fits64 now →
  outcome false (locking (locks_ s !! key) startTs pk false fu) tso s time key
    (PrewriteLocked s key value pk startTs ttl del fu now now2).
Proof using start_pos.
  intros Hm Hs Hf Hpk Ht Hfu Hn. unfold PrewriteLocked.
  assert (∀ existing, locks_ s !! key = existing →
    (∀ l, existing = Some l → lock_startTs l = startTs ∧ isPessimistic l = true) →
    outcome false (locking existing startTs pk false fu) tso s time key
      (if rolled_back_at s key startTs then (StWriteConflict, s)
       else if newest_at_least s key startTs then (StWriteConflict, s)
       else
         let l := prewrite_lock existing value pk startTs ttl del fu now now2 in
         let '(ops, newRev) := AppendRevisionMutationLocked s key
           [data_op key value startTs del; PutOp (LockKey key) (EncodeLockValue l)] in
         write_then s ops (λ s1, put_revision (put_lock s1 key l) key newRev))) as Hgo.
  { intros existing Hk Hl.
    destruct (rolled_back_at s key startTs) eqn:Hrb; [by apply outcome_same|].
    destruct (newest_at_least s key startTs) eqn:Hnew; [by apply outcome_same|].
    set (l := prewrite_lock existing value pk startTs ttl del fu now now2).
    assert (lock_fits l) as Hlf
      by (apply prewrite_lock_fits; try done; intros l0 ->; by apply (Hm key)).
    assert (forUpdateTs l ≠ 0%N) as Hfu0.
    { unfold l, prewrite_lock. destruct existing as [l0|]; simpl; [by apply (Hm key)|].
      destruct (N.eqb_spec fu 0); [by apply start_pos|done]. }
    replace (data_op key value startTs del) with (data_op key value (lock_startTs l) del)
      by (by destruct existing).
    apply (outcome_write _ _ tso s time key _
             (ALock (persisted_lock l) (Some (if del then None else Some value)))
             (λ s1, put_lock s1 key l));
      [by apply prewrite_locking|by apply DoPrewrite|by apply prewrite_guard|].
    intros s1 H1 H2. split_and!; [by apply index_put_lock|done|done|by eapply mem_ok_put]. }
  destruct (locks_ s !! key) as [l0|] eqn:Hk; [|by apply (Hgo None)].
  destruct (negb (lock_startTs l0 =? startTs)%N || _ || _ || _) eqn:Hc; [by apply outcome_same|].
  reflect_bools. apply (Hgo (Some l0)); [done|]. by intros l [= <-].
Qed.

Lemma commit_guard_not_ok s key startTs commitTs : commit_guard s key startTs commitTs ≠ inl StOk.
Proof. unfold commit_guard. by repeat case_match. Qed.

Lemma outcome_Commit tso s time key startTs commitTs :
  mem_ok s → fits64 startTs → fits64 commitTs → is_start commitTs = false →
  prewritten_before s time key startTs commitTs →
  outcome false (λ a, a = ACommit startTs commitTs) tso s time key (Commit s key startTs commitTs).
Proof.
  intros Hm Hs Hc Hic Hp. unfold Commit.
  destruct (commit_guard s key startTs commitTs) as [st|l] eqn:Hg.
  { apply outcome_same. intros ->. by destruct (commit_guard_not_ok s key startTs commitTs). }
  destruct (commit_guard_lock _ _ _ _ _ Hg) as [Hk Hst]. destruct (Hp l Hk Hst) as [Hpe Ht].
  destruct (commit_guard_action is_start s time key startTs commitTs l) as (_ & _ & Hga); auto.
  apply (outcome_write _ _ tso s time key _ (ACommit startTs commitTs)
    (λ s1, erase_lock (put_write s1 key commitTs (MkWrite startTs commitTs (commit_type l))) key));
    [done|by apply DoCommit|done|].
  intros s1 H1 H2. split_and!; [by apply index_commit|done|done|].
  eapply mem_ok_sub; [exact Hm|]. intros k l'. simpl. rewrite H1. by intros [_ ?]%lookup_delete_Some.
Qed.

Lemma outcome_Rollback tso s time key startTs :
  mem_ok s → is_start startTs = true → fits64 startTs →
  outcome false (λ a, a = ARollback startTs) tso s time key (Rollback s key startTs).
Proof.
  intros Hm Hs Hf. unfold Rollback. case_match eqn:Hex; [by apply outcome_same|].
  rewrite existsb_om_list_false in Hex.
  apply (outcome_write _ _ tso s time key _ (ARollback startTs) (λ s1,
    put_write (if locked_by s key startTs then erase_lock s1 key else s1) key startTs
      (rollback_record startTs))); [done|by apply DoRollback| |].
  - split; [done|]. split; [done|]. intros c w Hw Heq. specialize (Hex c w Hw).
    unfold started_at in Hex. simpl in Hex. rewrite Heq, N.eqb_refl in Hex. simpl in Hex.
    apply negb_false_iff in Hex. by apply bool_decide_eq_true in Hex.
  - intros s1 H1 H2. split_and!; [by apply index_rollback| | |].
    + by destruct (locked_by s key startTs).
    + by destruct (locked_by s key startTs).
    + eapply mem_ok_sub; [exact Hm|]. intros k l'. rewrite <- H1.
      destruct (locked_by s key startTs); simpl; [|done]. by intros [_ ?]%lookup_delete_Some.
Qed.

End apply.

(** ** Garbage collection *)

Section collect.
Context {E : Type} `{!KVEngine E}.
Implicit Types (s : t E) (key : string) (time : string → N).

Definition gc_list s (sp : N) : list (string * list (N * MvccWrite)) :=
  (λ kw, (kw.1, gc_removed kw.2 sp)) <$> map_to_list (writes_ s).

Lemma gc_list_elem s sp key items :
  (key, items) ∈ gc_list s sp → items = gc_removed (versions s key) sp.
Proof.
  unfold gc_list. intros ([k ws] & [= -> ->] & Hin)%list_elem_of_fmap.
  apply elem_of_map_to_list in Hin. unfold versions. simpl. by rewrite Hin.
Qed.

Lemma gc_list_present s sp key item :
  item ∈ gc_removed (versions s key) sp → (key, gc_removed (versions s key) sp) ∈ gc_list s sp.
Proof.
  intros Hin. unfold gc_list. apply list_elem_of_fmap. unfold versions in *.
  destruct (writes_ s !! key) as [ws|] eqn:Hw; [|by apply not_elem_of_nil in Hin].
  exists (key, ws). split; [done|]. by apply elem_of_map_to_list.
Qed.

Lemma gc_list_NoDup s sp : NoDup ((gc_list s sp).*1).
Proof. unfold gc_list. rewrite <- list_fmap_compose. apply NoDup_fst_map_to_list. Qed.

(** Batches whose data operations are all deletes. *)
Lemma apply_ops_deletes m ops key ts :
  Forall (λ o, not_data_op o ∨ op_type o = OpDelete) ops →
  apply_ops m ops !! DataKey key ts =
    if decide (DataKey key ts ∈ op_key <$> ops) then None else m !! DataKey key ts.
Proof.
  intros Hops. revert m. induction Hops as [|o ops Ho Hops IH]; intros m; [done|].
  cbn [apply_ops foldl]. change (foldl apply_op (apply_op m o) ops) with (apply_ops (apply_op m o) ops).
  rewrite IH. cbn [fmap list_fmap]. destruct (decide (op_key o = DataKey key ts)) as [Heq|Hne].
  - destruct Ho as [Ho|Ho]; [unfold not_data_op in Ho; by rewrite Heq in Ho|].
    rewrite (decide_True (P := DataKey key ts ∈ op_key o :: _)) by set_solver.
    case_decide; [done|]. unfold apply_op. rewrite Ho, Heq. by rewrite lookup_delete_eq.
  - rewrite apply_op_other by done. repeat case_decide; set_solver.
Qed.

Definition gc_ops s (sp : N) : list KVBatchOp :=
  mjoin ((λ kr, mjoin (gc_version_ops kr.1 <$> kr.2)) <$> gc_list s sp).

Lemma gc_ops_elem s sp o :
  o ∈ gc_ops s sp → ∃ key item, item ∈ gc_removed (versions s key) sp ∧ o ∈ gc_version_ops key item.
Proof.
  unfold gc_ops. intros (ops & Ho & Hin)%list_elem_of_join.
  apply list_elem_of_fmap in Hin as ([key items] & -> & Hin). simpl in Ho.
  apply list_elem_of_join in Ho as (ops' & Ho & Hin').
  apply list_elem_of_fmap in Hin' as (item & -> & Hitem).
  apply gc_list_elem in Hin as ->. eauto.
Qed.

Lemma gc_ops_intro s sp key item o :
  item ∈ gc_removed (versions s key) sp → o ∈ gc_version_ops key item → o ∈ gc_ops s sp.
Proof.
  intros Hitem Ho. unfold gc_ops. apply list_elem_of_join.
  exists (mjoin (gc_version_ops key <$> gc_removed (versions s key) sp)). split.
  - apply list_elem_of_join. exists (gc_version_ops key item). split; [done|].
    by apply list_elem_of_fmap_2.
  - apply list_elem_of_fmap. exists (key, gc_removed (versions s key) sp). split; [done|].
    by eapply gc_list_present.
Qed.

Lemma gc_ops_shape s sp : Forall (λ o, not_data_op o ∨ op_type o = OpDelete) (gc_ops s sp).
Proof.
  apply Forall_forall. intros o (key & item & _ & Ho)%gc_ops_elem. right.
  unfold gc_version_ops in Ho. case_match; set_solver.
Qed.

Lemma versions_erase_write s key c key' :
  versions (erase_write s key c) key' =
    if decide (key' = key) then delete c (versions s key) else versions s key'.
Proof.
  unfold erase_write, versions. destruct (writes_ s !! key) as [ws|] eqn:Hw; simpl.
  - case_decide; subst; [by rewrite lookup_insert_eq|by rewrite lookup_insert_ne].
  - case_decide; subst; rewrite ?Hw; simpl; [by rewrite delete_empty|done].
Qed.

Lemma erase_all_versions s l key c :
  versions (foldl (λ st kc, erase_write st kc.1 kc.2) s l) key !! c =
    if decide ((key, c) ∈ l) then None else versions s key !! c.
Proof.
  revert s. induction l as [|[k c'] l IH]; intros s; [done|]. cbn [foldl fst snd].
  rewrite IH, versions_erase_write.
  destruct (decide ((key, c) ∈ l)) as [Hin|Hin]; [by rewrite decide_True by set_solver|].
  destruct (decide (key = k)) as [->|Hk].
  - rewrite lookup_delete. repeat case_decide; set_solver.
  - rewrite decide_False; [done|]. set_solver.
Qed.

Lemma erase_all_rest s l :
  let s' := foldl (λ st (kc : string * N), erase_write st kc.1 kc.2) s l in
  engine_ s' = engine_ s ∧ locks_ s' = locks_ s ∧ revisions_ s' = revisions_ s.
Proof.
  revert s. induction l as [|[k c] l IH]; intros s; [done|]. simpl.
  destruct (IH (erase_write s k c)) as (-> & -> & ->). unfold erase_write. by case_match.
Qed.

Lemma put_revisions_rest s l :
  let s' := foldl (λ st (kr : string * N), put_revision st kr.1 kr.2) s l in
  engine_ s' = engine_ s ∧ locks_ s' = locks_ s ∧ writes_ s' = writes_ s.
Proof.
  revert s. induction l as [|[k r] l IH]; intros s; [done|]. simpl.
  by destruct (IH (put_revision s k r)) as (-> & -> & ->).
Qed.

Lemma put_revisions_lookup {A} (f : string → N) s (l : list (string * A)) key :
  revisions_ (foldl (λ st kr, put_revision st kr.1 kr.2) s ((λ kr, (kr.1, f kr.1)) <$> l)) !! key =
    if decide (key ∈ l.*1) then Some (f key) else revisions_ s !! key.
Proof.
  revert s. induction l as [|[k r] l IH]; intros s; [done|]. cbn [fmap list_fmap foldl fst snd].
  rewrite IH. destruct (decide (key ∈ l.*1)) as [Hin|Hin]; [by rewrite decide_True by set_solver|].
  simpl. rewrite lookup_insert. destruct (decide (k = key)) as [->|Hne].
  - by rewrite decide_True by set_solver.
  - rewrite decide_False; [done|]. set_solver.
Qed.

(** The revision of a key moves exactly when a version of it is removed. *)
Definition gc_revision s (sp : N) key : N :=
  if bool_decide (gc_removed (versions s key) sp = []) then CurrentRevisionLocked s key
  else CurrentRevisionLocked s key +₆₄ 1.

Definition gc_acted tso s time (sp : N) s' : Prop :=
  (∀ key, view s' time key ≡ kapply tso (view s time key) (ACollect sp)) ∧
  (∀ key, CurrentRevisionLocked s' key = gc_revision s sp key) ∧ locks_ s' = locks_ s.

Lemma gc_touched_elem s sp key :
  key ∈ (filter (λ kr, negb (bool_decide (kr.2 = [])) = true) (gc_list s sp)).*1 ↔
  gc_removed (versions s key) sp ≠ [].
Proof.
  split.
  - intros ([k items] & -> & Hin)%list_elem_of_fmap. apply list_elem_of_filter in Hin as [Hb Hin].
    apply gc_list_elem in Hin as ->. reflect_bools. done.
  - intros Hne. destruct (gc_removed (versions s key) sp) as [|item l] eqn:Hr; [done|].
    apply list_elem_of_fmap. exists (key, item :: l). split; [done|]. apply list_elem_of_filter.
    split; [done|]. rewrite <- Hr. apply (gc_list_present s sp key item). rewrite Hr. set_solver.
Qed.

Lemma gc_versions_elem s sp key c :
  (key, c) ∈ mjoin ((λ kr : string * list (N * MvccWrite),
                       (λ item, (kr.1, item.1)) <$> kr.2) <$> gc_list s sp) ↔
  c ∈ (gc_removed (versions s key) sp).*1.
Proof.
  rewrite list_elem_of_join. split.
  - intros (l & Hin & Hl). apply list_elem_of_fmap in Hl as ([k items] & -> & Hg).
    apply gc_list_elem in Hg as ->. apply list_elem_of_fmap in Hin as (item & [= -> ->] & Hitem).
    by apply list_elem_of_fmap_2.
  - intros (item & -> & Hitem)%list_elem_of_fmap.
    exists ((λ it : N * MvccWrite, (key, it.1)) <$> gc_removed (versions s key) sp). split.
    + apply list_elem_of_fmap. by exists item.
    + apply list_elem_of_fmap. exists (key, gc_removed (versions s key) sp). split; [done|].
      by eapply gc_list_present.
Qed.

Lemma gc_empty_acted tso s time sp :
  (∀ key, gc_removed (versions s key) sp = []) → gc_acted tso s time sp s.
Proof.
  intros Hno. split_and!; [|intros key; unfold gc_revision; by rewrite Hno|done].
  intros key. unfold kapply, collected, collected_data. simpl. rewrite Hno. by repeat split.
Qed.

Context (is_start : N → bool).

(** The data versions that go are those of the removed puts. *)
Lemma gc_ops_data s time sp key ts :
  (∀ key, kinv is_start (view s time key)) → fits64 ts →
  apply_ops (kv_contents (engine_ s)) (gc_ops s sp) !! DataKey key ts =
    collected_data (versions s key) sp (λ x, kv_contents (engine_ s) !! DataKey key x) ts.
Proof.
  intros Hinv Hts. rewrite apply_ops_deletes by apply gc_ops_shape. unfold collected_data.
  destruct (existsb _ _) eqn:Hex.
  - apply existsb_exists in Hex as ([c w] & Hin & Hb). apply list_elem_of_In in Hin.
    reflect_bools. simpl in *. subst ts. rewrite decide_True; [done|].
    apply list_elem_of_fmap. exists (DelOp (DataKey key (w_startTs w))). split; [done|].
    eapply gc_ops_intro; [exact Hin|]. unfold gc_version_ops. simpl. rewrite bool_decide_true by done. set_solver.
  - rewrite decide_False; [done|]. intros (o & Heq & Ho)%list_elem_of_fmap.
    apply gc_ops_elem in Ho as (key' & [c w] & Hin & Ho). unfold gc_version_ops in Ho. simpl in Ho.
    destruct (gc_removed_elem _ _ _ _ Hin) as (Hw & _).
    destruct (ki_record _ _ (Hinv key') c w Hw) as (_ & _ & Hfit & _).
    apply elem_of_app in Ho as [Ho|Ho].
    + case_bool_decide as Hput; [|set_solver]. apply list_elem_of_singleton in Ho as ->. simpl in Heq.
      apply DataKey_inj in Heq as [<- ->]; [|done..].
      assert (existsb (λ item, bool_decide (w_type item.2 = WPut) && (w_startTs item.2 =? w_startTs w)%N)
                (gc_removed (versions s key) sp) = true) as Ht; [|congruence].
      apply existsb_exists. exists (c, w). split; [by apply list_elem_of_In|]. simpl.
      by rewrite bool_decide_true, N.eqb_refl.
    + apply list_elem_of_singleton in Ho as ->. simpl in Heq.
      by apply (f_equal (starts_with "data/")) in Heq.
Qed.

Lemma GarbageCollect_acts tso s time sp :
  (∀ key, kinv is_start (view s time key)) →
  ∃ n s', GarbageCollect s sp = (n, s') ∧ (untouched s s' ∨ gc_acted tso s time sp s').
Proof.
  intros Hinv. unfold GarbageCollect.
  change ((λ kw, (kw.1, gc_removed kw.2 sp)) <$> map_to_list (writes_ s)) with (gc_list s sp).
  cbv zeta. set (vs := mjoin ((λ kr, (λ item, (kr.1, item.1)) <$> kr.2) <$> gc_list s sp)).
  assert (∀ key c, (key, c) ∈ vs ↔ c ∈ (gc_removed (versions s key) sp).*1) as Hvs
    by (intros; apply gc_versions_elem).
  case_bool_decide as Hemp.
  { do 2 eexists. split; [done|]. right. apply gc_empty_acted. intros key.
    destruct (gc_removed (versions s key) sp) as [|[c w] l] eqn:Hr; [done|].
    assert ((key, c) ∈ vs) as Hin by (apply Hvs; rewrite Hr; set_solver). rewrite Hemp in Hin. set_solver. }
  set (touched := filter _ (gc_list s sp)).
  set (revs := (λ kr : string * list (N * MvccWrite), (kr.1, CurrentRevisionLocked s kr.1 +₆₄ 1)) <$> touched).
  set (tail := (λ kr : string * N, PutOp (RevisionKey kr.1) (to_string kr.2)) <$> revs).
  change (mjoin ((λ kr : string * list (N * MvccWrite), mjoin (gc_version_ops kr.1 <$> kr.2)) <$> gc_list s sp)) with (gc_ops s sp).
  pose proof (kv_write_batch_spec (engine_ s) (gc_ops s sp ++ tail)) as Hw.
  destruct (kv_write_batch (engine_ s) (gc_ops s sp ++ tail)) as [[] e] eqn:Hwb; simpl in Hw |- *;
    [|by do 2 eexists; split; [done|left]].
  do 2 eexists. split; [done|]. right.
  set (s1 := foldl (λ st kc, erase_write st kc.1 kc.2) (count_batch (set_engine s e)) vs).
  destruct (erase_all_rest (count_batch (set_engine s e)) vs) as (He1 & Hl1 & Hr1). fold s1 in He1, Hl1, Hr1.
  destruct (put_revisions_rest s1 revs) as (He2 & Hl2 & Hw2).
  split_and!.
  - intros key. repeat split; simpl.
    + by rewrite Hl2, Hl1.
    + apply map_eq. intros c. rewrite collected_lookup.
      unfold versions at 1. rewrite Hw2. change (default ∅ (writes_ s1 !! key)) with (versions s1 key).
      unfold s1. rewrite erase_all_versions. change (versions (count_batch (set_engine s e)) key) with (versions s key).
      destruct (decide ((key, c) ∈ vs)) as [Hin|Hin]; rewrite Hvs in Hin.
      * by rewrite decide_True.
      * by rewrite decide_False.
    + intros ts Hts. rewrite He2, He1. simpl. rewrite Hw, apply_ops_app, apply_ops_not_data.
      * by apply (gc_ops_data s time).
      * unfold tail. apply Forall_fmap. apply Forall_forall. intros; apply not_data_revision.
  - intros key. unfold CurrentRevisionLocked at 1. unfold revs.
    rewrite (put_revisions_lookup (λ k, CurrentRevisionLocked s k +₆₄ 1)). unfold gc_revision.
    destruct (decide (key ∈ touched.*1)) as [Hin|Hin]; unfold touched in Hin; rewrite gc_touched_elem in Hin.
    + by rewrite bool_decide_false.
    + rewrite bool_decide_true by (by apply dec_stable). by rewrite Hr1.
  - by rewrite Hl2, Hl1.
Qed.

End collect.
