(* ===== verification/MvccRecover.v ===== *)
(** * Recovery of the MVCC indexes from the engine

    [consistent m s] relates the persistent key space [m] to the in-memory lock
    table, write index and revisions of [s]: each is the other's encoding.  Every
    batch keeps the two in step, and [RecoverMetadataFromEngineLocked] rebuilds
    the indexes from the engine alone. *)

From S2P Require Import Prelude KvEngine MvccTypes Codec Hlc Mvcc MvccSpec MvccRefine.
Import MvccStorage.

(** Two engine keys of different kinds differ in their prefix. *)
Ltac key_kinds :=
  let Heq := fresh in
  intros Heq;
  first [ by apply (f_equal (starts_with "lock/")) in Heq
        | by apply (f_equal (starts_with "write/")) in Heq
        | by apply (f_equal (starts_with "meta/revision/")) in Heq
        | by apply (f_equal (starts_with "data/")) in Heq ].

(** Two engine keys of the same kind differ in what they encode. *)
Ltac key_differs :=
  let Heq := fresh in
  first [ congruence
        | intros Heq; apply (inj LockKey) in Heq; congruence
        | intros Heq; apply (inj RevisionKey) in Heq; congruence
        | intros Heq; apply WriteKey_inj in Heq as [? ?]; [congruence|done..] ].

(** The operations that occur in batches. *)
Inductive wf_op : KVBatchOp → Prop :=
| WfLockPut key l : lock_fits l → wf_op (PutOp (LockKey key) (EncodeLockValue l))
| WfLockDel key : wf_op (DelOp (LockKey key))
| WfWritePut key c w :
    fits64 c → fits64 (w_startTs w) → w_commitTs w = c →
    wf_op (PutOp (WriteKey key c) (EncodeWriteValue w))
| WfWriteDel key c : fits64 c → wf_op (DelOp (WriteKey key c))
| WfData ty key ts v : wf_op (MkOp ty (DataKey key ts) v)
| WfRevision key r : fits64 r → wf_op (PutOp (RevisionKey key) (to_string r))
| WfProgress n : wf_op (PutOp AppliedIndexKey (to_string n)).

Lemma StripPrefix_LockKey key : StripPrefix (LockKey key) "lock/" = key.
Proof. apply StripPrefix_app. Qed.

Lemma StripPrefix_RevisionKey key : StripPrefix (RevisionKey key) "meta/revision/" = key.
Proof. apply StripPrefix_app. Qed.

Section consistency.
Context {E : Type} `{!KVEngine E}.
Implicit Types (s st : t E) (m : gmap string string) (key : string).

Record consistent m s : Prop := MkConsistent {
  co_lock : ∀ key l, locks_ s !! key = Some l →
    ∃ l0, m !! LockKey key = Some (EncodeLockValue l0) ∧ lock_fits l0 ∧
          persisted_lock l0 = persisted_lock l;
  co_no_lock : ∀ key, locks_ s !! key = None → m !! LockKey key = None;
  co_write : ∀ key c w, versions s key !! c = Some w →
    fits64 c ∧ fits64 (w_startTs w) ∧ w_commitTs w = c ∧
    m !! WriteKey key c = Some (EncodeWriteValue w);
  co_no_write : ∀ key c, fits64 c → versions s key !! c = None → m !! WriteKey key c = None;
  co_shape : ∀ k, is_Some (m !! k) → starts_with "write/" k = true →
    ∃ key c, fits64 c ∧ k = WriteKey key c;
  co_revision : ∀ key r, revisions_ s !! key = Some r →
    fits64 r ∧ m !! RevisionKey key = Some (to_string r);
  co_no_revision : ∀ key, revisions_ s !! key = None → m !! RevisionKey key = None
}.

(** [consistent] does not depend on the values kept in memory with the locks. *)
Lemma consistent_ext m s s' :
  (∀ k, persisted_lock <$> locks_ s' !! k = persisted_lock <$> locks_ s !! k) →
  (∀ k, versions s' k = versions s k) → revisions_ s' = revisions_ s →
  consistent m s → consistent m s'.
Proof.
  intros Hl Hw Hr [H1 H2 H3 H4 H5 H6 H7]. split; try setoid_rewrite Hw; rewrite ?Hr; try done.
  - intros key l Hk. specialize (Hl key). rewrite Hk in Hl. simpl in Hl.
    destruct (locks_ s !! key) as [l'|] eqn:Hk'; [|done].
    assert (persisted_lock l = persisted_lock l') as Hp by (simpl in Hl; congruence).
    destruct (H1 key l' Hk') as (l0 & ? & ? & Heq). exists l0. split_and!; [done..|congruence].
  - intros key Hk. specialize (Hl key). rewrite Hk in Hl. simpl in Hl.
    destruct (locks_ s !! key) eqn:Hk'; [done|]. by apply H2.
Qed.

(** An operation on a key of another kind changes none of the encodings. *)
Lemma consistent_other m s o :
  consistent m s →
  (∀ key, op_key o ≠ LockKey key) → (∀ key c, op_key o ≠ WriteKey key c) →
  starts_with "write/" (op_key o) = false → (∀ key, op_key o ≠ RevisionKey key) →
  consistent (apply_op m o) s.
Proof.
  intros [H1 H2 H3 H4 H5 H6 H7] Hl Hw Hpre Hr.
  split; intros; rewrite ?apply_op_other in * by eauto; eauto.
  match goal with H : is_Some _, Hs : starts_with _ ?k = true |- _ =>
    destruct (decide (op_key o = k)) as [<-|Hne]; [congruence|];
    rewrite apply_op_other in H by done; eauto end.
Qed.

Lemma consistent_lock_put m s key l :
  consistent m s → lock_fits l →
  consistent (apply_op m (PutOp (LockKey key) (EncodeLockValue l))) (put_lock s key (persisted_lock l)).
Proof.
  intros [H1 H2 H3 H4 H5 H6 H7] Hl. unfold apply_op. simpl. split; simpl.
  - intros k l'. destruct (decide (k = key)) as [->|Hne].
    + rewrite !lookup_insert_eq. intros [= <-]. exists l. by rewrite persisted_lock_idem.
    + rewrite !lookup_insert_ne by key_differs. apply H1.
  - intros k. destruct (decide (k = key)) as [->|Hne]; [by rewrite lookup_insert_eq|].
    rewrite !lookup_insert_ne by key_differs. apply H2.
  - intros k c w Hw. rewrite lookup_insert_ne by key_kinds. by apply H3.
  - intros k c Hc Hw. rewrite lookup_insert_ne by key_kinds. by apply H4.
  - intros k Hk Hp. apply H5; [|done]. rewrite lookup_insert_ne in Hk; [done|]. by intros <-.
  - intros k r Hk. rewrite lookup_insert_ne by key_kinds. by apply H6.
  - intros k Hk. rewrite lookup_insert_ne by key_kinds. by apply H7.
Qed.

Lemma consistent_lock_del m s key :
  consistent m s → consistent (apply_op m (DelOp (LockKey key))) (erase_lock s key).
Proof.
  intros [H1 H2 H3 H4 H5 H6 H7]. unfold apply_op. simpl. split; simpl.
  - intros k l'. intros [Hne Hk]%lookup_delete_Some.
    rewrite lookup_delete_ne by key_differs. by apply H1.
  - intros k. destruct (decide (k = key)) as [->|Hne]; [by rewrite !lookup_delete_eq|].
    rewrite !lookup_delete_ne by key_differs. apply H2.
  - intros k c w Hw. rewrite lookup_delete_ne by key_kinds. by apply H3.
  - intros k c Hc Hw. rewrite lookup_delete_ne by key_kinds. by apply H4.
  - intros k [v Hk] Hp. apply lookup_delete_Some in Hk as [_ Hk]. eauto.
  - intros k r Hk. rewrite lookup_delete_ne by key_kinds. by apply H6.
  - intros k Hk. rewrite lookup_delete_ne by key_kinds. by apply H7.
Qed.

Lemma consistent_write_put m s key c w :
  consistent m s → fits64 c → fits64 (w_startTs w) → w_commitTs w = c →
  consistent (apply_op m (PutOp (WriteKey key c) (EncodeWriteValue w))) (put_write s key c w).
Proof.
  intros [H1 H2 H3 H4 H5 H6 H7] Hc Hs Hcw. unfold apply_op. simpl. split; simpl.
  - intros k l Hk. rewrite lookup_insert_ne by key_kinds. by apply H1.
  - intros k Hk. rewrite lookup_insert_ne by key_kinds. by apply H2.
  - intros k c' w'. rewrite versions_put_write. case_decide as Hk.
    + subst k. intros [[<- <-]|[Hne Hw]]%lookup_insert_Some; [by rewrite lookup_insert_eq|].
      destruct (H3 _ _ _ Hw) as (? & ? & ? & ?).
      rewrite lookup_insert_ne; [done|]. key_differs.
    + intros Hw. destruct (H3 _ _ _ Hw) as (? & ? & ? & ?).
      rewrite lookup_insert_ne; [done|]. key_differs.
  - intros k c' Hc'. rewrite versions_put_write. case_decide as Hk.
    + subst k. intros [Hw Hne]%lookup_insert_None.
      rewrite lookup_insert_ne; [by apply H4|]. key_differs.
    + intros Hw. rewrite lookup_insert_ne; [by apply H4|]. key_differs.
  - intros k Hk Hp. destruct (decide (k = WriteKey key c)) as [->|Hne]; [eauto|].
    apply H5; [|done]. by rewrite lookup_insert_ne in Hk.
  - intros k r Hk. rewrite lookup_insert_ne by key_kinds. by apply H6.
  - intros k Hk. rewrite lookup_insert_ne by key_kinds. by apply H7.
Qed.

Lemma consistent_write_del m s key c :
  consistent m s → fits64 c →
  consistent (apply_op m (DelOp (WriteKey key c))) (erase_write s key c).
Proof.
  intros [H1 H2 H3 H4 H5 H6 H7] Hc. unfold apply_op. simpl.
  assert (locks_ (erase_write s key c) = locks_ s ∧ revisions_ (erase_write s key c) = revisions_ s)
    as [El Er] by (unfold erase_write; by case_match).
  split; rewrite ?El, ?Er.
  - intros k l Hk. rewrite lookup_delete_ne by key_kinds. by apply H1.
  - intros k Hk. rewrite lookup_delete_ne by key_kinds. by apply H2.
  - intros k c' w'. rewrite versions_erase_write. case_decide as Hk.
    + subst k. intros [Hne Hw]%lookup_delete_Some. destruct (H3 _ _ _ Hw) as (? & ? & ? & ?).
      rewrite lookup_delete_ne; [done|]. key_differs.
    + intros Hw. destruct (H3 _ _ _ Hw) as (? & ? & ? & ?).
      rewrite lookup_delete_ne; [done|]. key_differs.
  - intros k c' Hc'. rewrite versions_erase_write. case_decide as Hk.
    + subst k. intros [->|Hw]%lookup_delete_None; [by rewrite lookup_delete_eq|].
      apply lookup_delete_None. right. by apply H4.
    + intros Hw. apply lookup_delete_None. right. by apply H4.
  - intros k [v Hk] Hp. apply lookup_delete_Some in Hk as [_ Hk]. eauto.
  - intros k r Hk. rewrite lookup_delete_ne by key_kinds. by apply H6.
  - intros k Hk. rewrite lookup_delete_ne by key_kinds. by apply H7.
Qed.

Lemma consistent_revision m s key r :
  consistent m s → fits64 r →
  consistent (apply_op m (PutOp (RevisionKey key) (to_string r))) (put_revision s key r).
Proof.
  intros [H1 H2 H3 H4 H5 H6 H7] Hr. unfold apply_op. simpl. split; simpl.
  - intros k l Hk. rewrite lookup_insert_ne by key_kinds. by apply H1.
  - intros k Hk. rewrite lookup_insert_ne by key_kinds. by apply H2.
  - intros k c w Hw. rewrite lookup_insert_ne by key_kinds. by apply H3.
  - intros k c Hc Hw. rewrite lookup_insert_ne by key_kinds. by apply H4.
  - intros k Hk Hp. apply H5; [|done]. rewrite lookup_insert_ne in Hk; [done|]. by intros <-.
  - intros k r'. destruct (decide (k = key)) as [->|Hne].
    + rewrite !lookup_insert_eq. by intros [= <-].
    + rewrite !lookup_insert_ne by key_differs. apply H6.
  - intros k. destruct (decide (k = key)) as [->|Hne]; [by rewrite lookup_insert_eq|].
    rewrite !lookup_insert_ne by key_differs. apply H7.
Qed.

(** Each operation, and hence each batch, keeps memory and engine in step. *)
Lemma consistent_apply_op now m s o :
  wf_op o → consistent m s → consistent (apply_op m o) (ApplyMetadataMutationLocked now s o).
Proof.
  intros Ho Hc. destruct Ho as [key l Hl|key|key c w Hfc Hfs Hcw|key c Hfc|ty key ts v|key r Hr|n].
  - rewrite metadata_lock_put by done. by apply consistent_lock_put.
  - rewrite metadata_lock_del. by apply consistent_lock_del.
  - rewrite metadata_write_put by done. subst c.
    replace (MkWrite (w_startTs w) (w_commitTs w) (w_type w)) with w by (by destruct w).
    by apply consistent_write_put.
  - rewrite metadata_write_del by done. by apply consistent_write_del.
  - rewrite metadata_data. apply consistent_other; [done|..]; simpl; intros; key_kinds || done.
  - rewrite metadata_revision by done. by apply consistent_revision.
  - apply (consistent_other m s (PutOp AppliedIndexKey (to_string n))); [done|..];
      simpl; intros; key_kinds || done.
Qed.

Lemma consistent_apply now m s ops :
  Forall wf_op ops → consistent m s → consistent (apply_ops m ops) (apply_metadata now s ops).
Proof.
  intros Hops. revert m s. induction Hops as [|o ops Ho Hops IH]; intros m s Hc; [done|].
  simpl. apply IH. by apply consistent_apply_op.
Qed.

Lemma consistent_progress m s index :
  consistent m s → consistent (apply_ops m (progress_op index)) s.
Proof.
  intros Hc. unfold progress_op. case_match; [done|]. simpl.
  apply (consistent_other m s (PutOp AppliedIndexKey (to_string index))); [done|..];
    simpl; intros; key_kinds || done.
Qed.

Lemma ops_do_wf s key ops a : ops_do s key ops a → Forall wf_op ops.
Proof.
  intros [l Hf|l v del Hf|st c l Hst Hc Hk|st Hst|st c l Hst Hc Hk Ht].
  - constructor; [by constructor|constructor].
  - constructor; [destruct del; constructor|]. constructor; [by constructor|constructor].
  - repeat constructor; done.
  - unfold rollback_ops. apply Forall_app. split; [case_match; repeat constructor|].
    repeat constructor; done.
  - repeat constructor; done.
Qed.

(** ** Recovery *)

(** The lock of [key] belongs to a transaction that already has a record on it. *)
Definition lock_finished s key : bool :=
  match locks_ s !! key with
  | Some l => hasFinishedWrite s key (lock_startTs l)
  | None => false
  end.

Definition no_finished_lock s : Prop := ∀ key, lock_finished s key = false.

(** The lock recovery keeps. *)
Definition live_lock s key : option MvccLock :=
  if lock_finished s key then None else locks_ s !! key.

(** [s'] has the indexes of [s] without the finished locks, up to the values
    kept with the locks. *)
Definition recovered s s' : Prop :=
  (∀ key, persisted_lock <$> locks_ s' !! key = persisted_lock <$> live_lock s key) ∧
  (∀ key, versions s' key = versions s key) ∧ revisions_ s' = revisions_ s.

(** [m'] is [m] but for finished locks of [s], which may be gone. *)
Definition deletes_finished s m m' : Prop :=
  ∀ k, m' !! k = m !! k ∨ (m' !! k = None ∧ ∃ key, k = LockKey key ∧ lock_finished s key = true).

(** The finished locks of [s] are gone from [m]. *)
Definition finished_deleted s m : Prop :=
  ∀ key, lock_finished s key = true → m !! LockKey key = None.

(** [s'] has the indexes of [s], up to the values kept with the locks. *)
Definition same_indexes s s' : Prop :=
  (∀ key, persisted_lock <$> locks_ s' !! key = persisted_lock <$> locks_ s !! key) ∧
  (∀ key, versions s' key = versions s key) ∧ revisions_ s' = revisions_ s.

Lemma recover_revisions s st l key :
  (∀ item, item ∈ l → ∃ k r, item = (RevisionKey k, to_string r) ∧ fits64 r ∧ revisions_ s !! k = Some r) →
  revisions_ (foldl recover_revision st l) !! key =
    if decide (RevisionKey key ∈ l.*1) then revisions_ s !! key else revisions_ st !! key.
Proof.
  revert st. induction l as [|item l IH]; intros st Hl; [done|]. cbn [foldl fmap list_fmap].
  destruct (Hl item ltac:(set_solver)) as (k & r & -> & Hr & Hk).
  rewrite IH by set_solver. unfold recover_revision. simpl.
  rewrite StripPrefix_RevisionKey. unfold DecodeTs. rewrite strtoull_to_string by done.
  destruct (decide (key = k)) as [->|Hne].
  - rewrite decide_cons_eq, lookup_insert_eq, Hk. by case_decide.
  - rewrite decide_cons_ne by key_differs. by rewrite lookup_insert_ne.
Qed.

Lemma recover_revision_rest l : ∀ st,
  let st' := foldl recover_revision st l in
  engine_ st' = engine_ st ∧ locks_ st' = locks_ st ∧ writes_ st' = writes_ st ∧
  appliedRaftIndex_ st' = appliedRaftIndex_ st.
Proof. induction l as [|item l IH]; intros st; [done|]. simpl. apply (IH (recover_revision st item)). Qed.

Lemma recover_write_known st key c w :
  fits64 c → fits64 (w_startTs w) → w_commitTs w = c →
  recover_write st (WriteKey key c, EncodeWriteValue w) = put_write st key c w.
Proof.
  intros Hc Hs Hcw. unfold recover_write. cbn [fst snd].
  rewrite SplitKeyTs_WriteKey, DecodeWriteValue_EncodeWriteValue by done. simpl. subst c.
  by destruct w.
Qed.

Lemma recover_writes s st l key c :
  (∀ item, item ∈ l → ∃ k c w, item = (WriteKey k c, EncodeWriteValue w) ∧ fits64 c ∧
     fits64 (w_startTs w) ∧ w_commitTs w = c ∧ versions s k !! c = Some w) →
  fits64 c →
  versions (foldl recover_write st l) key !! c =
    if decide (WriteKey key c ∈ l.*1) then versions s key !! c else versions st key !! c.
Proof.
  intros Hl Hc. revert st Hl. induction l as [|item l IH]; intros st Hl; [done|]. cbn [foldl fmap list_fmap].
  destruct (Hl item ltac:(set_solver)) as (k & c' & w & -> & Hc' & Hs & Hcw & Hk).
  rewrite IH by set_solver. rewrite recover_write_known by done. rewrite versions_put_write.
  cbn [fst]. destruct (decide (WriteKey key c = WriteKey k c')) as [Heq|Hne].
  - apply WriteKey_inj in Heq as [-> ->]; [|done..]. rewrite (decide_True (P := k = k)) by done.
    rewrite decide_cons_eq, lookup_insert_eq, Hk. by case_decide.
  - rewrite decide_cons_ne by done. destruct (decide (key = k)) as [->|Hkk]; [|done].
    rewrite lookup_insert_ne; [done|]. by intros ->.
Qed.

Lemma recover_writes_rest l st :
  (∀ item, item ∈ l → ∃ k c w, item = (WriteKey k c, EncodeWriteValue w) ∧ fits64 c ∧
     fits64 (w_startTs w) ∧ w_commitTs w = c) →
  let st' := foldl recover_write st l in
  engine_ st' = engine_ st ∧ locks_ st' = locks_ st ∧ revisions_ st' = revisions_ st ∧
  appliedRaftIndex_ st' = appliedRaftIndex_ st ∧
  (∀ key c, ¬ fits64 c → versions st' key !! c = versions st key !! c).
Proof.
  revert st. induction l as [|item l IH]; intros st Hl; [done|]. cbn [foldl].
  destruct (Hl item ltac:(set_solver)) as (k & c' & w & -> & Hc' & Hs & Hcw).
  rewrite recover_write_known by done.
  destruct (IH (put_write st k c' w)) as (He & Hlk & Hr & Ha & Hv); [set_solver|].
  split_and!; [done..|]. intros key c Hc. rewrite Hv, versions_put_write by done.
  case_decide; [|done]. subst. rewrite lookup_insert_ne; [done|]. by intros <-.
Qed.

Lemma persisted_with_value l v : persisted_lock (with_lock_value l v) = persisted_lock l.
Proof. done. Qed.

(** One lock of the scan, when its transaction has no record. *)
Lemma recover_lock_known now st key l0 :
  lock_fits l0 → hasFinishedWrite st key (lock_startTs l0) = false →
  ∃ l, recover_lock now st (LockKey key, EncodeLockValue l0) = put_lock st key l ∧
       persisted_lock l = persisted_lock l0 ∧ lock_fits l ∧
       forUpdateTs l = forUpdateTs (persisted_lock l0) ∧
       (isDelete l = false → ∀ v, kv_contents (engine_ st) !! DataKey key (lock_startTs l) = Some v →
          lock_value l = v).
Proof.
  intros Hf Hno. unfold recover_lock. cbn [fst snd].
  rewrite DecodeLockValue_EncodeLockValue, StripPrefix_LockKey by done.
  change (lock_startTs (persisted_lock l0)) with (lock_startTs l0). rewrite Hno.
  change (isDelete (persisted_lock l0)) with (isDelete l0). rewrite kv_get_spec.
  pose proof (persisted_fits l0 Hf) as (? & ? & ? & ? & ? & ?).
  destruct (isDelete l0) eqn:Hd; [|destruct (kv_contents _ !! _) as [v|] eqn:Hv]; eexists;
    (split; [done|]); simpl; (split; [by rewrite ?persisted_with_value, ?persisted_lock_idem|]).
  - split_and!; try done. simpl. congruence.
  - split_and!; try done. simpl. congruence.
  - split_and!; try done. simpl. congruence.
Qed.

Lemma recover_lock_finished now st key l0 :
  lock_fits l0 → hasFinishedWrite st key (lock_startTs l0) = true →
  recover_lock now st (LockKey key, EncodeLockValue l0) =
    set_engine st (kv_delete (engine_ st) (LockKey key)).2.
Proof.
  intros Hf Hfin. unfold recover_lock. cbn [fst snd].
  rewrite DecodeLockValue_EncodeLockValue, StripPrefix_LockKey by done.
  change (lock_startTs (persisted_lock l0)) with (lock_startTs l0). by rewrite Hfin.
Qed.

(** The scan over the locks leaves the records and the revisions alone. *)
Lemma recover_locks_rest now l st :
  let st' := foldl (recover_lock now) st l in
  writes_ st' = writes_ st ∧ revisions_ st' = revisions_ st ∧
  appliedRaftIndex_ st' = appliedRaftIndex_ st.
Proof.
  revert st. induction l as [|item l IH]; intros st; [done|]. simpl.
  destruct (IH (recover_lock now st item)) as (-> & -> & ->).
  unfold recover_lock. by repeat case_match.
Qed.

Definition lock_item s (item : string * string) : Prop :=
  ∃ k l0 lk, item = (LockKey k, EncodeLockValue l0) ∧ lock_fits l0 ∧
    locks_ s !! k = Some lk ∧ persisted_lock l0 = persisted_lock lk.

Lemma lock_item_finished s st k l0 lk :
  (∀ k, versions st k = versions s k) → locks_ s !! k = Some lk →
  persisted_lock l0 = persisted_lock lk →
  hasFinishedWrite st k (lock_startTs l0) = lock_finished s k.
Proof.
  intros Hv Hk Hp. unfold lock_finished, hasFinishedWrite. rewrite Hk, Hv.
  by rewrite (f_equal lock_startTs Hp : lock_startTs l0 = lock_startTs lk).
Qed.

Lemma recover_locks_table now s st l :
  Forall (lock_item s) l → (∀ k, versions st k = versions s k) →
  let st' := foldl (recover_lock now) st l in
  (∀ key, persisted_lock <$> locks_ st' !! key =
    if decide (LockKey key ∈ l.*1 ∧ lock_finished s key = false) then persisted_lock <$> locks_ s !! key
    else persisted_lock <$> locks_ st !! key) ∧
  (∀ key lk, locks_ st' !! key = Some lk →
    locks_ st !! key = Some lk ∨ forUpdateTs lk = forUpdateTs (persisted_lock lk)).
Proof.
  intros Hl. revert st.
  induction Hl as [|item l (k & l0 & lk & -> & Hf & Hk & Hp) Hl IH]; intros st Hv.
  { split; [|by left]. intros key. rewrite decide_False; [done|]. by intros [?%not_elem_of_nil _]. }
  cbn [foldl fmap list_fmap fst]. pose proof (lock_item_finished s st k l0 lk Hv Hk Hp) as Hfin.
  destruct (lock_finished s k) eqn:Hfk.
  - rewrite recover_lock_finished by done.
    destruct (IH (set_engine st (kv_delete (engine_ st) (LockKey k)).2) Hv) as [Hlk Hfu].
    split; [|done]. intros key. rewrite Hlk. simpl. apply decide_ext. rewrite elem_of_cons.
    split; [tauto|]. intros [[->%LockKey_inj|?] ?]; [congruence|done].
  - destruct (recover_lock_known now st k l0 Hf Hfin) as (l1 & -> & Hp1 & _ & Hfu1 & _).
    destruct (IH (put_lock st k l1) Hv) as [Hlk Hfu]. split.
    2:{ intros key lk' [Hin|]%Hfu; [|by right]. simpl in Hin.
        apply lookup_insert_Some in Hin as [[_ <-]|[_ ?]]; [right; by rewrite Hp1|by left]. }
    intros key. rewrite Hlk. simpl. destruct (decide (key = k)) as [->|Hne].
    + rewrite (decide_True (P := LockKey k ∈ LockKey k :: _ ∧ _)) by set_solver.
      rewrite lookup_insert_eq, Hk. simpl. rewrite Hp1, Hp. by case_decide.
    + rewrite lookup_insert_ne by done. apply decide_ext. rewrite elem_of_cons.
      split; [tauto|]. by intros [[?%LockKey_inj|?] ?].
Qed.

Lemma recover_locks_engine now s st l :
  Forall (lock_item s) l → (∀ k, versions st k = versions s k) →
  let st' := foldl (recover_lock now) st l in
  deletes_finished s (kv_contents (engine_ st)) (kv_contents (engine_ st')) ∧
  (no_finished_lock s → engine_ st' = engine_ st).
Proof.
  intros Hl. revert st.
  induction Hl as [|item l (k & l0 & lk & -> & Hf & Hk & Hp) Hl IH]; intros st Hv.
  { split; [by left|done]. }
  cbn [foldl]. pose proof (lock_item_finished s st k l0 lk Hv Hk Hp) as Hfin.
  destruct (lock_finished s k) eqn:Hfk.
  - rewrite recover_lock_finished by done. pose proof (kv_delete_spec (engine_ st) (LockKey k)) as Hdel.
    destruct (IH (set_engine st (kv_delete (engine_ st) (LockKey k)).2) Hv) as [Hd _].
    split; [|intros Hno; by rewrite Hno in Hfk]. intros k'. destruct (Hd k') as [Heq|?]; [|by right].
    simpl in Heq. rewrite Hdel in Heq. rewrite Heq. case_match; [|by left].
    destruct (decide (k' = LockKey k)) as [->|Hne]; [right; rewrite lookup_delete_eq; eauto|].
    left. by rewrite lookup_delete_ne.
  - destruct (recover_lock_known now st k l0 Hf Hfin) as (l1 & -> & _). exact (IH (put_lock st k l1) Hv).
Qed.

(** What the three scans of a consistent engine return. *)
Lemma scan_revisions m s e :
  consistent m s → kv_contents e = m →
  (∀ item, item ∈ kv_scan_prefix e "meta/revision/" →
     ∃ k r, item = (RevisionKey k, to_string r) ∧ fits64 r ∧ revisions_ s !! k = Some r) ∧
  (∀ key r, revisions_ s !! key = Some r → RevisionKey key ∈ (kv_scan_prefix e "meta/revision/").*1).
Proof.
  intros Hc Hm. split.
  - intros [k v] [Hk Hp]%kv_scan_prefix_elem. rewrite Hm in Hk.
    destruct (starts_with_inv _ _ Hp) as [k' ->]. exists k'.
    change ("meta/revision/" +:+ k') with (RevisionKey k') in *.
    destruct (revisions_ s !! k') as [r'|] eqn:Hr.
    + destruct (co_revision _ _ Hc k' r' Hr) as [Hf Heq]. exists r'. split_and!; try done. congruence.
    + rewrite (co_no_revision _ _ Hc k' Hr) in Hk. done.
  - intros key r Hr. destruct (co_revision _ _ Hc key r Hr) as [_ Heq].
    apply list_elem_of_fmap. exists (RevisionKey key, to_string r). split; [done|].
    apply kv_scan_prefix_elem. by rewrite Hm.
Qed.

Lemma scan_writes m s e :
  consistent m s → kv_contents e = m →
  (∀ item, item ∈ kv_scan_prefix e "write/" →
     ∃ k c w, item = (WriteKey k c, EncodeWriteValue w) ∧ fits64 c ∧
       fits64 (w_startTs w) ∧ w_commitTs w = c ∧ versions s k !! c = Some w) ∧
  (∀ key c w, versions s key !! c = Some w → WriteKey key c ∈ (kv_scan_prefix e "write/").*1).
Proof.
  intros Hcs Hm. split.
  - intros [k v] [Hk Hp]%kv_scan_prefix_elem. rewrite Hm in Hk.
    destruct (co_shape _ _ Hcs k) as (key' & c' & Hc' & ->); [by eexists|done|]. exists key', c'.
    destruct (versions s key' !! c') as [w'|] eqn:Hw.
    + destruct (co_write _ _ Hcs key' c' w' Hw) as (? & ? & ? & Heq). exists w'. split_and!; try done. congruence.
    + rewrite (co_no_write _ _ Hcs key' c' Hc' Hw) in Hk. done.
  - intros key c w Hw. destruct (co_write _ _ Hcs key c w Hw) as (_ & _ & _ & Heq).
    apply list_elem_of_fmap. exists (WriteKey key c, EncodeWriteValue w). split; [done|].
    apply kv_scan_prefix_elem. by rewrite Hm.
Qed.

Lemma scan_locks m s e :
  consistent m s → kv_contents e = m →
  Forall (lock_item s) (kv_scan_prefix e "lock/") ∧
  (∀ key l, locks_ s !! key = Some l → LockKey key ∈ (kv_scan_prefix e "lock/").*1).
Proof.
  intros Hcs Hm. split.
  - apply Forall_forall. intros [k v] [Hk Hp]%kv_scan_prefix_elem. rewrite Hm in Hk.
    destruct (starts_with_inv _ _ Hp) as [k' ->]. exists k'.
    change ("lock/" +:+ k') with (LockKey k') in *.
    destruct (locks_ s !! k') as [lk|] eqn:Hl.
    + destruct (co_lock _ _ Hcs k' lk Hl) as (l0 & Heq & Hf & Hpl). exists l0, lk. split_and!; try done. congruence.
    + rewrite (co_no_lock _ _ Hcs k' Hl) in Hk. done.
  - intros key l Hl. destruct (co_lock _ _ Hcs key l Hl) as (l0 & Heq & _).
    apply list_elem_of_fmap. exists (LockKey key, EncodeLockValue l0). split; [done|].
    apply kv_scan_prefix_elem. by rewrite Hm.
Qed.

(** Recovery over an engine in step with [s] rebuilds the indexes of [s] but for
    the finished locks, and writes nothing but their deletion. *)
Lemma recover_indexes now m s st :
  consistent m s → kv_contents (engine_ st) = m →
  let st' := RecoverMetadataFromEngineLocked now st in
  recovered s st' ∧ deletes_finished s m (kv_contents (engine_ st')) ∧
  (no_finished_lock s → engine_ st' = engine_ st) ∧
  appliedRaftIndex_ st' = match m !! AppliedIndexKey with Some v => DecodeTs v | None => 0%N end ∧
  ∀ key l, locks_ st' !! key = Some l → forUpdateTs l = forUpdateTs (persisted_lock l).
Proof.
  intros Hc Hm. unfold RecoverMetadataFromEngineLocked.
  set (s0 := MkMvcc _ _ _ _ _ _).
  set (s1 := foldl recover_revision s0 _). set (s2 := foldl recover_write s1 _).
  destruct (recover_revision_rest (kv_scan_prefix (engine_ s0) "meta/revision/") s0) as (He1 & Hl1 & Hw1 & Ha1).
  fold s1 in He1, Hl1, Hw1, Ha1. simpl in He1.
  assert (∀ key c, versions s1 key !! c = None) as Hv1 by (intros; unfold versions; by rewrite Hw1).
  assert (kv_contents (engine_ s1) = m) as Hm1 by (by rewrite He1).
  destruct (recover_writes_rest (kv_scan_prefix (engine_ s1) "write/") s1) as (He2 & Hl2 & Hr2 & Ha2 & Hv2).
  { intros item Hi. destruct (proj1 (scan_writes m s _ Hc Hm1) item Hi)
      as (k & c & w & ? & ? & ? & ? & _). eauto 10. }
  fold s2 in He2, Hl2, Hr2, Ha2, Hv2.
  assert (∀ k, versions s2 k = versions s k) as Hv.
  { intros k. apply map_eq. intros c. destruct (decide (fits64 c)) as [Hfc|Hfc].
    - unfold s2. rewrite (recover_writes s);
        [|by apply (scan_writes m s _)|done].
      case_decide as Hin; [done|]. rewrite Hv1. destruct (versions s k !! c) as [w|] eqn:Hw; [|done].
      destruct Hin. by eapply (scan_writes m s).
    - rewrite Hv2, Hv1 by done. destruct (versions s k !! c) as [w|] eqn:Hw; [|done].
      by destruct (co_write _ _ Hc k c w Hw). }
  assert (kv_contents (engine_ s2) = m) as Hm2 by (by rewrite He2).
  destruct (scan_locks m s _ Hc Hm2) as [Hitems Hall].
  destruct (recover_locks_rest now (kv_scan_prefix (engine_ s2) "lock/") s2) as (Hw3 & Hr3 & Ha3).
  destruct (recover_locks_table now s s2 _ Hitems Hv) as [Hl3 Hfu3].
  destruct (recover_locks_engine now s s2 _ Hitems Hv) as [Hd3 He3]. rewrite Hm2 in Hd3.
  split_and!; [split_and!|done|..].
  - intros key. rewrite Hl3, Hl2, Hl1. simpl. unfold live_lock.
    destruct (locks_ s !! key) as [l|] eqn:Hl.
    + case_decide as Hin; [by destruct Hin as [_ ->]|]. destruct (lock_finished s key) eqn:Hfk; [done|].
      destruct Hin. split; [by eapply Hall|done].
    + case_decide; by case_match.
  - intros key. unfold versions at 1. rewrite Hw3. apply Hv.
  - rewrite Hr3, Hr2. apply map_eq. intros key. unfold s1. rewrite (recover_revisions s);
      [|by apply (scan_revisions m s _)].
    case_decide as Hin; [done|]. simpl. rewrite lookup_empty.
    destruct (revisions_ s !! key) as [r|] eqn:Hr; [|done]. destruct Hin. by eapply (scan_revisions m s).
  - intros Hno. by rewrite He3, He2, He1.
  - rewrite Ha3, Ha2, Ha1. simpl. by rewrite kv_get_spec, Hm.
  - intros key l Hl. destruct (Hfu3 key l Hl) as [Hl0|]; [|done].
    rewrite Hl2, Hl1 in Hl0. done.
Qed.

(** The engine recovery leaves behind is in step with the recovered indexes, when
    the finished locks are gone from it. *)
Lemma recovered_consistent m m' s s' :
  consistent m s → recovered s s' → deletes_finished s m m' → finished_deleted s m' → consistent m' s'.
Proof.
  intros [H1 H2 H3 H4 H5 H6 H7] (Hl & Hw & Hr) Hdel Hgone.
  assert (∀ k, starts_with "lock/" k = false → m' !! k = m !! k) as Hother.
  { intros k Hk. destruct (Hdel k) as [|(_ & key & -> & _)]; [done|].
    unfold LockKey in Hk. by rewrite starts_with_app in Hk. }
  assert (∀ key, lock_finished s key = false → m' !! LockKey key = m !! LockKey key) as Hlive.
  { intros key Hk. destruct (Hdel (LockKey key)) as [|(_ & key' & <-%LockKey_inj & ?)]; [done|congruence]. }
  split; try setoid_rewrite Hw; rewrite ?Hr.
  - intros key l Hk. specialize (Hl key). rewrite Hk in Hl. unfold live_lock in Hl.
    destruct (lock_finished s key) eqn:Hf; [done|]. destruct (locks_ s !! key) as [l'|] eqn:Hk'; [|done].
    destruct (H1 key l' Hk') as (l0 & Heq & Hfit & Hp). exists l0. rewrite Hlive by done.
    split_and!; [done..|]. simpl in Hl. congruence.
  - intros key Hk. destruct (lock_finished s key) eqn:Hf; [by apply Hgone|]. rewrite Hlive by done.
    apply H2. specialize (Hl key). rewrite Hk in Hl. unfold live_lock in Hl. rewrite Hf in Hl.
    by destruct (locks_ s !! key).
  - intros key c w. rewrite Hother by done. apply H3.
  - intros key c. rewrite Hother by done. apply H4.
  - intros k Hk Hp. apply H5; [|done]. destruct (Hdel k) as [<-|(Hn & _)]; [done|]. rewrite Hn in Hk. by destruct Hk.
  - intros key r. rewrite Hother by done. apply H6.
  - intros key. rewrite Hother by done. apply H7.
Qed.

End consistency.
