(* ===== verification/MvccWorld.v ===== *)
(** * Moves of a key under the operations of the MVCC store

    The refinement of MvccRefine.v says what one operation does to one key.
    Here every operation of the store is shown to take each key through a
    sequence of allowed actions of the per-key machine ([moves]), also a prepared
    command that is applied after other commands, and to keep the in-memory
    indexes in step with the engine ([in_step]).  MvccSafety.v builds the runs of
    a store from these lemmas. *)

From S2P Require Import Prelude KvEngine MvccTypes Codec Hlc Mvcc MvccSpec MvccRefine MvccRecover.
Import MvccStorage.

(** ** The validation loop of a batch *)

Section batches.
Context {E : Type} `{!KVEngine E}.
Implicit Types (s : t E) (key : string).

Definition item_mods (i : PreparedMvccBatchItem) : list KVBatchOp := modifications (item_prepared i).

(** The validation loop accepts only strictly ascending keys at their current
    revisions, and collects every modification. *)
Lemma batch_collect_spec s prev items mods :
  batch_collect s prev items = Some mods →
  mods = mjoin (item_mods <$> items) ∧ NoDup (item_key <$> items) ∧
  (∀ i, i ∈ items → prev = EmptyString ∨ str_ltb prev (item_key i) = true) ∧
  (∀ i, i ∈ items → item_mods i = [] ∨
     (p_status (item_prepared i) = StOk ∧
      expectedRevision (item_prepared i) = CurrentRevisionLocked s (item_key i) ∧
      newRevision (item_prepared i) = expectedRevision (item_prepared i) +₆₄ 1)).
Proof.
  revert prev mods. induction items as [|i items IH]; intros prev mods; simpl.
  { intros [= <-]. split_and!; [done|constructor|set_solver|set_solver]. }
  destruct (item_guard (CurrentRevisionLocked s (item_key i)) prev i) as [tk|] eqn:Hg; [|done]. simpl.
  destruct (batch_collect s (item_key i) items) as [mods'|] eqn:Hc; [|done]. simpl. intros [= <-].
  destruct (IH _ _ Hc) as (-> & Hnd & Hasc & Hall). unfold item_guard in Hg.
  destruct (String.eqb (item_key i) EmptyString || _ || _) eqn:Hb; [done|]. reflect_bools.
  assert (prev = EmptyString ∨ str_ltb prev (item_key i) = true) as Hprev.
  { match goal with Hx : (_ && _)%bool = false |- _ => apply andb_false_iff in Hx as [Hx|Hx];
      [left; by reflect_bools|right; by rewrite str_ltb_leb, Hx] end. }
  split_and!.
  - case_bool_decide as Hm; simplify_eq; [unfold item_mods at 2; by rewrite Hm|].
    by case_match; simplify_eq.
  - constructor; [|done]. intros (j & Heq & Hj)%list_elem_of_fmap.
    destruct (Hasc j Hj) as [|Hlt]; [done|]. rewrite Heq, str_ltb_irrefl in Hlt. done.
  - intros j [->|Hj]%elem_of_cons; [done|]. destruct Hprev as [->|Hlt]; [by left|].
    right. destruct (Hasc j Hj) as [|Hlt']; [done|]. by eapply str_ltb_trans.
  - intros j [->|Hj]%elem_of_cons; [|by apply Hall].
    case_bool_decide as Hm; [by left|right].
    destruct (negb (newRevision (item_prepared i) =? _)%N || _) eqn:Hr; [done|].
    reflect_bools. split_and!; congruence.
Qed.

End batches.

(** ** Moves *)

Section moves.
Context {E : Type} `{!KVEngine E}.
Context (is_start : N → bool).
Context (start_pos : ∀ ts, is_start ts = true → ts ≠ 0%N).
Implicit Types (s : t E) (key : string) (time : string → N) (m : gmap string string).
Implicit Types (acts : string → option kaction).

(** Every key moves by the action [acts] gives it; its revision moves with it. *)
Definition moved tso m s time acts m' s' : Prop :=
  (∀ key, view_of m' s' (time_obs tso s s' time) key ≡
          match acts key with
          | Some a => kapply tso (view_of m s time key) a
          | None => view_of m s time key
          end) ∧
  (∀ key, CurrentRevisionLocked s' key =
          match acts key with
          | Some _ => CurrentRevisionLocked s key +₆₄ 1
          | None => CurrentRevisionLocked s key
          end) ∧
  mem_ok s'.

Definition not_collect (key : string) (a : kaction) : Prop := ∀ sp, a ≠ ACollect sp.

Definition enabled s time acts : Prop :=
  ∀ key a, acts key = Some a → kguard is_start (view s time key) a.

(** The store moves by enabled actions, each of the kind [P] gives its key. *)
Definition moves (P : string → kaction → Prop) tso s time s' : Prop :=
  ∃ acts, enabled s time acts ∧ (∀ key a, acts key = Some a → P key a) ∧
    moved tso (kv_contents (engine_ s)) s time acts (kv_contents (engine_ s')) s'.

Definition no_acts : string → option kaction := λ _, None.
Definition one_act key (a : kaction) : string → option kaction :=
  λ k, if String.eqb k key then Some a else None.

Lemma time_obs_same tso s time key :
  ∀ s', locks_ s' = locks_ s → time_obs tso s s' time key = time key.
Proof. intros s' Hl. unfold time_obs. by rewrite Hl, decide_True. Qed.

Lemma untouched_moves P tso s time s' : mem_ok s → untouched s s' → moves P tso s time s'.
Proof.
  intros Hm Hu. exists no_acts. split; [done|]. split; [done|]. pose proof Hu as (Hl & Hw & Hr & He).
  split_and!; [|intros key; unfold CurrentRevisionLocked; by rewrite Hr|by eapply untouched_mem_ok].
  intros key. simpl. unfold view_of, versions. rewrite time_obs_same, Hl, Hw, He by done. done.
Qed.

Lemma performed_moved tso m s time key a m' s' :
  performed tso m s time key a (CurrentRevisionLocked s key +₆₄ 1) m' s' →
  moved tso m s time (one_act key a) m' s'.
Proof.
  intros ((Hk & Hother) & Hr & Hm). unfold one_act. split_and!; [| |done].
  - intros k. destruct (String.eqb_spec k key) as [->|Hne]; [done|by apply Hother].
  - intros k. unfold CurrentRevisionLocked at 1. rewrite Hr.
    destruct (String.eqb_spec k key) as [->|Hne]; [by rewrite lookup_insert_eq|].
    by rewrite lookup_insert_ne.
Qed.

Lemma one_act_enabled s time key a :
  kguard is_start (view s time key) a → enabled s time (one_act key a).
Proof.
  intros Hg k a'. unfold one_act. destruct (String.eqb_spec k key) as [->|]; [|done].
  by intros [= <-].
Qed.

Lemma one_act_kind (P : string → kaction → Prop) key a :
  P key a → ∀ k a', one_act key a k = Some a' → P k a'.
Proof.
  intros HP k a'. unfold one_act. destruct (String.eqb_spec k key) as [->|]; [by intros [= <-]|done].
Qed.

Lemma moves_mono (P Q : string → kaction → Prop) tso s time s' :
  (∀ key a, P key a → Q key a) → moves P tso s time s' → moves Q tso s time s'.
Proof. intros Himp (acts & He & HP & Hmv). exists acts. eauto. Qed.

Lemma outcome_moves noop (P : kaction → Prop) (Q : string → kaction → Prop) tso s time key r :
  mem_ok s → (∀ a, P a → not_collect key a → Q key a) →
  outcome is_start noop P tso s time key r → moves Q tso s time r.2.
Proof.
  intros Hm HQ [[Hu _]|(a & Ha & Hg & Hnc & Hp & _)]; [by apply untouched_moves|].
  exists (one_act key a). split; [by apply one_act_enabled|].
  split; [apply one_act_kind; by apply HQ|by apply performed_moved].
Qed.

Lemma GarbageCollect_moves tso s time sp :
  mem_ok s → (∀ key, kinv is_start (view s time key)) →
  moves (λ _ a, a = ACollect sp) tso s time (GarbageCollect s sp).2.
Proof.
  intros Hm Hinv. destruct (GarbageCollect_acts is_start tso s time sp Hinv)
    as (n & s0 & -> & [Hu|(Hv & Hr & Hl)]); [by apply untouched_moves|].
  exists (λ key, if bool_decide (gc_removed (versions s key) sp = []) then None else Some (ACollect sp)).
  split; [by intros key a; case_match; intros [= <-]|].
  split; [intros key a; by case_match; intros [= <-]|]. split_and!.
  - intros key. simpl.
    assert (view_of (kv_contents (engine_ s0)) s0 (time_obs tso s s0 time) key ≡ view s0 time key) as ->.
    { unfold view, view_of. by rewrite time_obs_same. }
    rewrite Hv. case_bool_decide as Hno; [|done].
    unfold kapply, collected, collected_data. simpl. rewrite Hno. done.
  - intros key. simpl. rewrite Hr. unfold gc_revision. by case_bool_decide.
  - intros key l. simpl. rewrite Hl. apply Hm.
Qed.

(** ** Batches *)

(** What a prepared write does only depends on the view and the revision. *)
Lemma ops_do_transport m m' s s' time time' key ops a :
  view_of m' s' time' key ≡ view_of m s time key → ops_do s key ops a → ops_do s' key ops a.
Proof.
  intros (Hl & _) Hdo. simpl in Hl.
  destruct Hdo as [l Hf|l v del Hf|st c l Hst Hc Hk|st Hst|st c l Hst Hc Hk Ht].
  - by apply DoLock.
  - by apply DoPrewrite.
  - rewrite Hk in Hl. destruct (locks_ s' !! key) as [l'|] eqn:Hk'; [|done]. simpl in Hl.
    replace (commit_ops key st c l) with (commit_ops key st c l'); [by apply DoCommit|].
    assert (persisted_lock l' = persisted_lock l) as Hp by congruence.
    unfold commit_ops, commit_type.
    by rewrite (f_equal isLockOnly Hp : isLockOnly l' = isLockOnly l),
      (f_equal isDelete Hp : isDelete l' = isDelete l).
  - replace (rollback_ops s key st) with (rollback_ops s' key st); [by apply DoRollback|].
    unfold rollback_ops, locked_by.
    destruct (locks_ s !! key) as [l|], (locks_ s' !! key) as [l'|]; try done.
    assert (persisted_lock l' = persisted_lock l) as Hp by (simpl in Hl; congruence).
    by rewrite (f_equal lock_startTs Hp : lock_startTs l' = lock_startTs l).
  - apply DoRecord; try done. rewrite Hk in Hl. by destruct (locks_ s' !! key).
Qed.

Lemma performs_transport m m' s s' time time' key p a :
  view_of m' s' time' key ≡ view_of m s time key →
  CurrentRevisionLocked s' key = CurrentRevisionLocked s key →
  performs is_start s time key p a → performs is_start s' time' key p a.
Proof.
  intros Hv Hr (ops & Hmods & Hval & Hrev & Hdo & Hg). exists ops.
  split_and!; [done|done|congruence|by eapply ops_do_transport|].
  change (kguard is_start (view_of m' s' time' key) a). rewrite Hv. exact Hg.
Qed.

(** The lock of a key changes in at most one of two consecutive moves. *)
Lemma time_obs_trans tso s s1 s' time key :
  persisted_lock <$> locks_ s !! key = persisted_lock <$> locks_ s1 !! key ∨
  persisted_lock <$> locks_ s1 !! key = persisted_lock <$> locks_ s' !! key →
  time_obs tso s1 s' (time_obs tso s s1 time) key = time_obs tso s s' time key.
Proof.
  unfold time_obs. intros [Heq|Heq]; repeat case_decide; congruence.
Qed.

(** A first move on [key] followed by moves on other keys. *)
Lemma moved_snoc tso m s time key a m1 s1 acts m' s' :
  acted tso m s time key a m1 s1 → acts key = None →
  CurrentRevisionLocked s1 key = CurrentRevisionLocked s key +₆₄ 1 →
  (∀ k, k ≠ key → CurrentRevisionLocked s1 k = CurrentRevisionLocked s k) →
  moved tso m1 s1 (time_obs tso s s1 time) acts m' s' →
  moved tso m s time (λ k, if String.eqb k key then Some a else acts k) m' s'.
Proof.
  intros [Hk Hother] Hnone Hr1 Hrk (Hv & Hr & Hm). split_and!; [| |done].
  - intros k. specialize (Hv k).
    assert (view_of m' s' (time_obs tso s s' time) k ≡
            view_of m' s' (time_obs tso s1 s' (time_obs tso s s1 time)) k) as ->.
    { unfold view_of. rewrite time_obs_trans; [done|].
      destruct (decide (k = key)) as [->|Hne]; [right|left].
      - rewrite Hnone in Hv. destruct Hv as (Hl & _). simpl in Hl. done.
      - destruct (Hother k Hne) as (Hl & _). simpl in Hl. done. }
    rewrite Hv. destruct (String.eqb_spec k key) as [->|Hne]; [by rewrite Hnone|].
    destruct (acts k); by rewrite (Hother k Hne).
  - intros k. rewrite Hr. destruct (String.eqb_spec k key) as [->|Hne]; [by rewrite Hnone|].
    destruct (acts k); by rewrite (Hrk k Hne).
Qed.

Lemma performs_guard s time key p a :
  performs is_start s time key p a → kguard is_start (view s time key) a.
Proof. by intros (ops & _ & _ & _ & _ & Hg). Qed.

Lemma performs_not_collect s time key p a : performs is_start s time key p a → not_collect key a.
Proof. intros (ops & _ & _ & _ & Hdo & _). exact (ops_do_not_collect s key ops a Hdo). Qed.

(** The indexes after one prepared write. *)
Lemma performs_first now tso m s time key p a :
  mem_ok s → performs is_start s time key p a →
  let s1 := apply_metadata now s (modifications p) in
  acted tso m s time key a (apply_ops m (modifications p)) s1 ∧ mem_ok s1 ∧
  CurrentRevisionLocked s1 key = newRevision p ∧
  newRevision p = CurrentRevisionLocked s key +₆₄ 1 ∧
  (∀ k, k ≠ key → CurrentRevisionLocked s1 k = CurrentRevisionLocked s k) ∧ engine_ s1 = engine_ s.
Proof using start_pos.
  intros Hm Hp s1. pose proof Hp as (ops & Hmods & Hval & Hrev & Hdo & Hg).
  destruct (performs_metadata is_start start_pos now tso m s s time key p a [] Hm Hp)
    as (Hact & Hr & Hm1); [constructor|done..|]. rewrite app_nil_r in Hact. fold s1 in Hact, Hr, Hm1.
  split_and!; [done|done|unfold CurrentRevisionLocked; by rewrite Hr, lookup_insert_eq| | |].
  - unfold prepared_valid in Hval. rewrite !andb_true_iff in Hval. destruct Hval as [_ Hval].
    reflect_bools. congruence.
  - intros k Hne. unfold CurrentRevisionLocked. by rewrite Hr, lookup_insert_ne.
  - unfold s1. rewrite Hmods. unfold apply_metadata. rewrite foldl_app.
    exact (proj2 (metadata_revisions now s s key ops a Hdo)).
Qed.

(** A prepared write that performs an action of the kind [P]. *)
Definition performs_as (P : string → kaction → Prop) s time key (p : PreparedMvccWrite) : Prop :=
  ∃ a, P key a ∧ performs is_start s time key p a.

Lemma performs_any s time key p a :
  performs is_start s time key p a → performs_as not_collect s time key p.
Proof. intros Hp. exists a. split; [by eapply performs_not_collect|done]. Qed.

(** Applying the items of a batch one after the other moves each of its keys. *)
Lemma batch_apply_moves P now tso tail items m s time :
  mem_ok s → Forall not_data_op tail → NoDup (item_key <$> items) →
  (∀ i, i ∈ items → item_mods i = [] ∨ performs_as P s time (item_key i) (item_prepared i)) →
  ∃ s' acts, batch_apply_loop now s items = inr s' ∧ enabled s time acts ∧
    (∀ key a, acts key = Some a → P key a) ∧
    moved tso m s time acts (apply_ops m (mjoin (item_mods <$> items) ++ tail)) s' ∧
    (∀ key, key ∉ item_key <$> items → acts key = None) ∧
    (∀ i, i ∈ items → item_mods i ≠ [] → is_Some (acts (item_key i))) ∧ engine_ s' = engine_ s.
Proof using start_pos.
  intros Hm Htail Hnd. revert m s time Hm.
  induction items as [|i items IH]; intros m s time Hm Hi.
  { exists s, no_acts. split; [done|]. split; [done|]. split; [done|].
    split; [|split_and!; [done|set_solver|done]]. split; [|done]. intros key. unfold view_of. rewrite time_obs_same by done. repeat split; try done.
    intros ts Hts. simpl. by rewrite apply_ops_not_data. }
  cbn [fmap list_fmap] in Hnd. apply NoDup_cons in Hnd as [Hni Hnd].
  destruct (Hi i ltac:(set_solver)) as [Hnil|(a & HPa & Hp)].
  - destruct (IH Hnd m s time Hm) as (s' & acts & Hl & He & Hnc & Hmv & Hno & Hyes & Heng); [set_solver|].
    exists s', acts. cbn [batch_apply_loop fmap list_fmap mjoin list_join].
    fold (item_mods i). rewrite Hnil, bool_decide_true by done. simpl.
    split_and!; try done; [intros key Hk; apply Hno; set_solver|].
    intros j [->|Hj]%elem_of_cons Hne; [done|by apply Hyes].
  - set (p := item_prepared i) in *. set (key := item_key i) in *.
    destruct (performs_first now tso m s time key p a Hm Hp) as (Hact & Hm1 & Hr1 & Hnew & Hrk & He1).
    set (s1 := apply_metadata now s (modifications p)) in *.
    set (time1 := time_obs tso s s1 time) in *.
    pose proof Hact as (_ & Hother).
    destruct (IH Hnd (apply_ops m (modifications p)) s1 time1 Hm1)
      as (s' & acts & Hl & He & Hnc & Hmv & Hno & Hyes & Heng).
    { intros j Hj. destruct (Hi j ltac:(set_solver)) as [|(aj & HPj & Hpj)]; [by left|]. right. exists aj. split; [done|].
      assert (item_key j ≠ key) by (intros Heq; apply Hni; rewrite <- Heq; by apply list_elem_of_fmap_2).
      eapply performs_transport; [by apply Hother|by apply Hrk|done]. }
    exists s', (λ k, if String.eqb k key then Some a else acts k).
    cbn [batch_apply_loop fmap list_fmap mjoin list_join]. fold p key s1.
    rewrite Hr1, N.eqb_refl, andb_false_r. split_and!; [done| | | | |..|congruence].
    + intros k a'. destruct (String.eqb_spec k key) as [->|Hne]; [intros [= <-]; by eapply performs_guard|].
      intros Ha. specialize (He k a' Ha).
      change (kguard is_start
        (view_of (apply_ops m (modifications p)) s1 (time_obs tso s s1 time) k) a') in He.
      rewrite Hother in He by done. exact He.
    + intros k a'. destruct (String.eqb_spec k key) as [->|]; [by intros [= <-]|by apply Hnc].
    + apply (moved_snoc tso m s time key a (apply_ops m (modifications p)) s1); try done.
      * by apply Hno.
      * by rewrite Hr1.
      * rewrite <- app_assoc, apply_ops_app. exact Hmv.
    + intros k Hnk. destruct (String.eqb_spec k key) as [->|]; [set_solver|]. apply Hno. set_solver.
    + intros j [->|Hj]%elem_of_cons Hne; [by rewrite String.eqb_refl|].
      case_match; [done|by apply Hyes].
Qed.

(** [ApplyPreparedBatch] changes nothing, or performs the action of every item
    that has changes. *)
Lemma ApplyPreparedBatch_acts P now tso s time b index :
  mem_ok s →
  (∀ i, i ∈ b_items b → p_status (item_prepared i) = StOk →
     expectedRevision (item_prepared i) = CurrentRevisionLocked s (item_key i) →
     item_mods i = [] ∨ performs_as P s time (item_key i) (item_prepared i)) →
  let r := ApplyPreparedBatch now s b index in
  (untouched s r.2 ∧ (r.1 = StOk → replayed s index = true)) ∨
  ∃ acts, enabled s time acts ∧ (∀ key a, acts key = Some a → P key a) ∧
    moved tso (kv_contents (engine_ s)) s time acts (kv_contents (engine_ r.2)) r.2 ∧
    (∀ i, i ∈ b_items b → item_mods i ≠ [] → is_Some (acts (item_key i))).
Proof using start_pos.
  intros Hm Hitems. unfold ApplyPreparedBatch.
  destruct (negb (batch_valid b)); [by left|]. destruct (replayed s index) eqn:Hrep; [by left|].
  destruct (batch_collect s EmptyString (b_items b)) as [mods|] eqn:Hc; [|by left].
  apply batch_collect_spec in Hc as (-> & Hnd & _ & Hall).
  case_bool_decide; [by left|].
  set (ops := mjoin (item_mods <$> b_items b) ++ progress_op index).
  pose proof (kv_write_batch_spec (engine_ s) ops) as Hw.
  destruct (kv_write_batch (engine_ s) ops) as [[] e] eqn:Hwb; simpl in *; [right|by left].
  set (s0 := count_batch (set_engine s e)).
  destruct (batch_apply_moves P now tso (progress_op index) (b_items b) (kv_contents (engine_ s)) s0 time)
    as (s' & acts & Hl & He & Hnc & (Hv & Hr & Hm') & _ & Hyes & Heng); [done|auto with strata|done| |].
  { intros i Hi. destruct (Hall i Hi) as [|(Hst & Hrev & Hnew)]; [by left|].
    destruct (Hitems i Hi Hst Hrev) as [|(a & HPa & Hp)]; [by left|]. right. exists a. split; [done|].
    by apply (performs_transport ∅ ∅ s s0 time time). }
  rewrite Hl. exists acts. split; [exact He|]. split; [exact Hnc|]. split; [|exact Hyes].
  simpl. rewrite Heng. simpl. rewrite Hw. split_and!; [exact Hv|exact Hr|exact Hm'].
Qed.

Lemma ApplyPreparedBatch_moves P now tso s time b index :
  mem_ok s →
  (∀ i, i ∈ b_items b → p_status (item_prepared i) = StOk →
     expectedRevision (item_prepared i) = CurrentRevisionLocked s (item_key i) →
     item_mods i = [] ∨ performs_as P s time (item_key i) (item_prepared i)) →
  moves P tso s time (ApplyPreparedBatch now s b index).2.
Proof using start_pos.
  intros Hm Hitems. destruct (ApplyPreparedBatch_acts P now tso s time b index Hm Hitems)
    as [[Hu _]|(acts & He & HP & Hmv & _)]; [by apply untouched_moves|by exists acts].
Qed.

Lemma ApplyPrepared_moves P now tso s time key p index :
  mem_ok s →
  (HasChanges p = true → expectedRevision p = CurrentRevisionLocked s key →
     performs_as P s time key p) →
  moves P tso s time (ApplyPrepared now s key p index).2.
Proof using start_pos.
  intros Hm Hp. assert (moves P tso s time s) as Hsame by (by apply untouched_moves).
  destruct (prepared_valid p) eqn:Hv; [|unfold ApplyPrepared; rewrite Hv; exact Hsame].
  destruct (N.eq_dec (CurrentRevisionLocked s key) (expectedRevision p)) as [Heq|Hne].
  - destruct Hp as (a & HPa & Hp); [|done|].
    { unfold prepared_valid in Hv. unfold HasChanges. rewrite !andb_true_iff in Hv. rewrite andb_true_iff. tauto. }
    destruct (ApplyPrepared_performs is_start start_pos now tso s time key p a index Hm Hp)
      as (st & s' & -> & [(_ & -> & _)|[(_ & Hu)|(_ & Hpf)]]); simpl; [exact Hsame|by apply untouched_moves|].
    destruct (performs_first now tso ∅ s time key p a Hm Hp) as (_ & _ & _ & Hnew & _).
    rewrite Hnew in Hpf. exists (one_act key a).
    split; [apply one_act_enabled; by eapply performs_guard|].
    split; [by apply one_act_kind|by apply performed_moved].
  - unfold ApplyPrepared. rewrite Hv. simpl. case_match; [exact Hsame|].
    apply N.eqb_neq in Hne. rewrite Hne. exact Hsame.
Qed.

End moves.

(** ** Memory and engine stay in step *)

Section in_step.
Context {E : Type} `{!KVEngine E}.
Implicit Types (s : t E) (key : string) (time : string → N) (m : gmap string string).

Definition in_step s : Prop := consistent (kv_contents (engine_ s)) s.

Lemma untouched_in_step s s' : untouched s s' → in_step s → in_step s'.
Proof.
  intros (Hl & Hw & Hr & He) Hc. unfold in_step. rewrite He.
  apply (consistent_ext _ s); [..|done]; [by rewrite Hl|unfold versions; by rewrite Hw|done].
Qed.

Lemma same_indexes_consistent m s s' : same_indexes s s' → consistent m s → consistent m s'.
Proof. intros (Hl & Hw & Hr). by apply consistent_ext. Qed.

(** A batch accepted by the engine and replayed on the indexes. *)
Lemma replay_in_step now s e ops index s' :
  in_step s → Forall wf_op ops →
  kv_contents e = apply_ops (kv_contents (engine_ s)) (ops ++ progress_op index) →
  engine_ s' = e → same_indexes (apply_metadata now s ops) s' → in_step s'.
Proof.
  intros Hc Hwf He Hs' Hsame. unfold in_step. rewrite Hs', He, apply_ops_app.
  apply consistent_progress. eapply same_indexes_consistent; [exact Hsame|]. by apply consistent_apply.
Qed.

(** The indexes an update reaches only depend on the indexes it starts from. *)
Lemma metadata_same_indexes now s s' ops :
  locks_ s' = locks_ s → writes_ s' = writes_ s → revisions_ s' = revisions_ s →
  let r := apply_metadata now s ops in let r' := apply_metadata now s' ops in
  locks_ r' = locks_ r ∧ writes_ r' = writes_ r ∧ revisions_ r' = revisions_ r ∧ engine_ r' = engine_ s'.
Proof.
  revert s s'. induction ops as [|o ops IH]; intros s s' Hl Hw Hr; [done|]. simpl.
  destruct (IH (ApplyMetadataMutationLocked now s o) (ApplyMetadataMutationLocked now s' o))
    as (-> & -> & -> & ->).
  1-3: unfold ApplyMetadataMutationLocked, erase_write, versions, put_write;
       repeat case_match; simpl; unfold versions; congruence.
  split_and!; [done..|]. unfold ApplyMetadataMutationLocked, erase_write. by repeat case_match.
Qed.

Lemma batch_apply_loop_replays now s items s' :
  batch_apply_loop now s items = inr s' → s' = apply_metadata now s (mjoin (item_mods <$> items)).
Proof.
  revert s. induction items as [|i items IH]; intros s; simpl; [by intros [= ->]|].
  case_match; [done|]. intros ->%IH. unfold apply_metadata. by rewrite foldl_app.
Qed.

Lemma index_eq_same s s' :
  locks_ s' = locks_ s → writes_ s' = writes_ s → revisions_ s' = revisions_ s → same_indexes s s'.
Proof. intros Hl Hw Hr. split_and!; [by rewrite Hl|unfold versions; by rewrite Hw|done]. Qed.

(** Direct operations: what the batch encodes is what the update does. *)
Lemma write_then_in_step now s ops upd :
  in_step s → Forall wf_op ops →
  (∀ s1, engine_ (upd s1) = engine_ s1 ∧ same_indexes (apply_metadata now s1 ops) (upd s1)) →
  in_step (write_then s ops upd).2.
Proof.
  intros Hc Hwf Hupd. unfold write_then.
  pose proof (kv_write_batch_spec (engine_ s) ops) as Hw.
  destruct (kv_write_batch (engine_ s) ops) as [[] e]; simpl in *; [|by apply (untouched_in_step s)].
  set (s0 := count_batch (set_engine s e)). destruct (Hupd s0) as [He (Hl & Hv & Hr)].
  destruct (metadata_same_indexes now s s0 ops) as (Hl' & Hw' & Hr' & _); [done..|].
  apply (replay_in_step now s e ops 0); [done|done|by rewrite app_nil_r|by rewrite He|].
  split_and!; [intros k; by rewrite Hl, Hl'|intros k; rewrite Hv; unfold versions; by rewrite Hw'|].
  by rewrite Hr, Hr'.
Qed.

Lemma revision_wf s key : wf_op (PutOp (RevisionKey key) (to_string (CurrentRevisionLocked s key +₆₄ 1))).
Proof. constructor. apply add64_fits. Qed.

Lemma put_lock_in_step s key l base :
  in_step s → lock_fits l →
  base = [PutOp (LockKey key) (EncodeLockValue l)] ∨
  (∃ v st del, base = [data_op key v st del; PutOp (LockKey key) (EncodeLockValue l)]) →
  in_step (let '(ops, newRev) := AppendRevisionMutationLocked s key base in
           write_then s ops (λ s1, put_revision (put_lock s1 key l) key newRev)).2.
Proof.
  intros Hc Hf Hbase. unfold AppendRevisionMutationLocked. apply (write_then_in_step 0).
  - done.
  - apply Forall_app. split; [|constructor; [apply revision_wf|constructor]].
    destruct Hbase as [->|(v & st & del & ->)].
    + constructor; [by constructor|constructor].
    + constructor; [destruct del; constructor|]. constructor; [by constructor|constructor].
  - intros s1. split; [done|]. unfold apply_metadata. rewrite foldl_app. cbn [foldl].
    replace (foldl (ApplyMetadataMutationLocked 0) s1 base) with (put_lock s1 key (persisted_lock l)).
    + rewrite metadata_revision by apply add64_fits. split_and!; [|done|done].
      intros k. simpl. rewrite !lookup_insert. case_decide; [|done]. simpl. by rewrite persisted_lock_idem.
    + destruct Hbase as [->|(v & st & del & ->)]; [|destruct del]; simpl; by rewrite metadata_lock_put.
Qed.

Lemma AcquirePessimisticLock_in_step s key pk startTs ttl fu expireAt now :
  in_step s → fits64 startTs → fits_mem pk → fits64 ttl → fits64 fu → fits64 expireAt → fits64 now →
  in_step (AcquirePessimisticLock s key pk startTs ttl fu expireAt now).2.
Proof.
  intros Hc Hs Hpk Ht Hfu He Hn. unfold AcquirePessimisticLock. do 3 (case_match; [done|]).
  apply put_lock_in_step; [done| |by left].
  apply pessimistic_lock_fits; try done. by case_match.
Qed.

Lemma PrewriteLocked_in_step s key value pk startTs ttl del fu now now2 :
  in_step s → mem_ok s → fits64 startTs → fits_mem pk → fits64 ttl → fits64 fu → fits64 now →
  in_step (PrewriteLocked s key value pk startTs ttl del fu now now2).2.
Proof.
  intros Hc Hm Hs Hpk Ht Hfu Hn. unfold PrewriteLocked.
  destruct (locks_ s !! key) as [l0|] eqn:Hk;
    [destruct (negb (lock_startTs l0 =? startTs)%N || _ || _ || _); [done|]|];
    (destruct (rolled_back_at s key startTs); [done|]);
    (destruct (newest_at_least s key startTs); [done|]);
    (apply put_lock_in_step; [done| |right; eauto]);
    apply prewrite_lock_fits; try done; intros l [= <-]; by apply (Hm key).
Qed.

Lemma Commit_in_step s key startTs commitTs :
  in_step s → fits64 startTs → fits64 commitTs → in_step (Commit s key startTs commitTs).2.
Proof.
  intros Hc Hs Hcf. unfold Commit. destruct (commit_guard s key startTs commitTs) as [st|l]; [done|].
  unfold AppendRevisionMutationLocked. apply (write_then_in_step 0).
  - done.
  - apply Forall_app. split; [|constructor; [apply revision_wf|constructor]]. repeat constructor; done.
  - intros s1. split; [done|]. unfold apply_metadata, commit_ops. simpl.
    rewrite metadata_write_put, metadata_lock_del, metadata_revision by (done || apply add64_fits). done.
Qed.

Lemma Rollback_in_step s key startTs :
  in_step s → fits64 startTs → in_step (Rollback s key startTs).2.
Proof.
  intros Hc Hs. unfold Rollback. case_match; [done|].
  unfold AppendRevisionMutationLocked. apply (write_then_in_step 0).
  - done.
  - apply Forall_app. split; [|constructor; [apply revision_wf|constructor]].
    eapply ops_do_wf. by apply DoRollback.
  - intros s1. split; [by case_match|]. unfold apply_metadata, rollback_ops. rewrite !foldl_app.
    destruct (locked_by s key startTs); simpl;
      rewrite ?metadata_lock_del, metadata_write_put, metadata_revision by (done || apply add64_fits); done.
Qed.

Lemma apply_metadata_app now s ops1 ops2 :
  apply_metadata now s (ops1 ++ ops2) = apply_metadata now (apply_metadata now s ops1) ops2.
Proof. apply foldl_app. Qed.

Lemma gc_version_replay now s key items :
  (∀ item, item ∈ items → fits64 item.1) →
  apply_metadata now s (mjoin (gc_version_ops key <$> items)) =
    foldl (λ st kc, erase_write st kc.1 kc.2) s ((λ item : N * MvccWrite, (key, item.1)) <$> items).
Proof.
  revert s. induction items as [|item items IH]; intros s Hf; [done|].
  cbn [fmap list_fmap mjoin list_join foldl fst snd]. rewrite apply_metadata_app, IH by set_solver. f_equal. unfold gc_version_ops.
  case_bool_decide; simpl; by rewrite metadata_write_del by (apply Hf; set_solver).
Qed.

Lemma gc_replay now s (L : list (string * list (N * MvccWrite))) :
  (∀ key items item, (key, items) ∈ L → item ∈ items → fits64 item.1) →
  apply_metadata now s (mjoin ((λ kr, mjoin (gc_version_ops kr.1 <$> kr.2)) <$> L)) =
    foldl (λ st kc, erase_write st kc.1 kc.2) s
      (mjoin ((λ kr, (λ item : N * MvccWrite, (kr.1, item.1)) <$> kr.2) <$> L)).
Proof.
  revert s. induction L as [|[key items] L IH]; intros s Hf; [done|].
  cbn [fmap list_fmap mjoin list_join fst snd].
  rewrite apply_metadata_app, foldl_app, gc_version_replay by (intros; eapply Hf; [by left|done]).
  apply IH. intros k its item Hin. apply (Hf k its). by right.
Qed.

Lemma revisions_replay now s (revs : list (string * N)) :
  (∀ kr, kr ∈ revs → fits64 kr.2) →
  apply_metadata now s ((λ kr, PutOp (RevisionKey kr.1) (to_string kr.2)) <$> revs) =
    foldl (λ st kr, put_revision st kr.1 kr.2) s revs.
Proof.
  revert s. induction revs as [|[k r] revs IH]; intros s Hf; [done|]. simpl.
  rewrite metadata_revision by (apply (Hf (k, r)); by left). apply IH. set_solver.
Qed.

Lemma gc_ops_wf s sp : in_step s → Forall wf_op (gc_ops s sp).
Proof.
  intros Hc. apply Forall_forall. intros o (key & [c w] & Hin & Ho)%gc_ops_elem.
  apply gc_removed_elem in Hin as (Hw & _). destruct (co_write _ _ Hc key c w Hw) as (Hf & _).
  unfold gc_version_ops in Ho. apply elem_of_app in Ho as [Ho|Ho%list_elem_of_singleton].
  - case_bool_decide; [|set_solver]. apply list_elem_of_singleton in Ho as ->. constructor.
  - subst. by constructor.
Qed.

Lemma GarbageCollect_in_step s sp : in_step s → in_step (GarbageCollect s sp).2.
Proof.
  intros Hc. unfold GarbageCollect.
  change ((λ kw, (kw.1, gc_removed kw.2 sp)) <$> map_to_list (writes_ s)) with (gc_list s sp).
  cbv zeta. case_bool_decide; [done|].
  set (revs := (λ kr : string * list (N * MvccWrite), (kr.1, _)) <$> _).
  set (tail := (λ kr : string * N, PutOp (RevisionKey kr.1) (to_string kr.2)) <$> revs).
  change (mjoin ((λ kr : string * list (N * MvccWrite), mjoin (gc_version_ops kr.1 <$> kr.2)) <$> gc_list s sp))
    with (gc_ops s sp).
  pose proof (kv_write_batch_spec (engine_ s) (gc_ops s sp ++ tail)) as Hw.
  destruct (kv_write_batch (engine_ s) (gc_ops s sp ++ tail)) as [[] e]; simpl in Hw |- *;
    [|by apply (untouched_in_step s)].
  assert (∀ kr, kr ∈ revs → fits64 kr.2) as Hrevs.
  { intros kr (x & -> & _)%list_elem_of_fmap. apply add64_fits. }
  set (s0 := count_batch (set_engine s e)).
  rewrite <- (gc_replay 0), <- (revisions_replay 0) by
    (done || intros key items [c w] Hin%gc_list_elem Hi; subst; apply gc_removed_elem in Hi as (Hv & _);
     by apply (co_write _ _ Hc key c w)).
  rewrite <- apply_metadata_app. fold tail. fold (gc_ops s sp).
  destruct (metadata_same_indexes 0 s s0 (gc_ops s sp ++ tail)) as (Hl' & Hw' & Hr' & He'); [done..|].
  apply (replay_in_step 0 s e (gc_ops s sp ++ tail) 0); [done| |by rewrite app_nil_r|done|by apply index_eq_same].
  apply Forall_app. split; [by apply gc_ops_wf|]. apply Forall_fmap, Forall_forall.
  intros kr Hkr. constructor. by apply Hrevs.
Qed.

(** A restart: recovery over the engine the process left behind.  The store is in
    step with its engine again when recovery has deleted the finished locks. *)
Lemma Open_recovers now s :
  in_step s →
  recovered s (Open now (engine_ s)) ∧
  deletes_finished s (kv_contents (engine_ s)) (kv_contents (engine_ (Open now (engine_ s)))) ∧
  (no_finished_lock s → engine_ (Open now (engine_ s)) = engine_ s) ∧
  ∀ key l, locks_ (Open now (engine_ s)) !! key = Some l → forUpdateTs l = forUpdateTs (persisted_lock l).
Proof.
  intros Hc.
  destruct (recover_indexes now _ s (MkMvcc (engine_ s) ∅ ∅ ∅ 0 0) Hc eq_refl) as (Hrec & Hdel & Heng & _ & Hfu).
  by split_and!.
Qed.

Lemma Open_in_step now s :
  in_step s → finished_deleted s (kv_contents (engine_ (Open now (engine_ s)))) →
  in_step (Open now (engine_ s)).
Proof.
  intros Hc Hgone. destruct (Open_recovers now s Hc) as ((Hl & Hw & Hr) & Hdel & _).
  by eapply recovered_consistent.
Qed.

End in_step.

Section apply_in_step.
Context {E : Type} `{!KVEngine E}.
Context (is_start : N → bool).
Context (start_pos : ∀ ts, is_start ts = true → ts ≠ 0%N).
Implicit Types (s : t E) (key : string) (time : string → N) (m : gmap string string).

Lemma performs_wf s time key p a :
  performs is_start s time key p a → Forall wf_op (modifications p).
Proof.
  intros (ops & -> & Hval & _ & Hdo & _). apply Forall_app. split; [by eapply ops_do_wf|].
  constructor; [|constructor]. constructor.
  unfold prepared_valid in Hval. rewrite !andb_true_iff in Hval. destruct Hval as [_ Hval].
  reflect_bools. rewrite Hval. apply add64_fits.
Qed.

Lemma ApplyPrepared_in_step P now s time key p index :
  in_step s →
  (HasChanges p = true → expectedRevision p = CurrentRevisionLocked s key →
     performs_as is_start P s time key p) →
  in_step (ApplyPrepared now s key p index).2.
Proof.
  intros Hc Hp. unfold ApplyPrepared.
  destruct (prepared_valid p) eqn:Hv; [|done]. simpl. destruct (replayed s index); [done|].
  destruct (N.eqb_spec (CurrentRevisionLocked s key) (expectedRevision p)) as [Heq|]; [|done]. simpl.
  destruct Hp as (a & _ & Hp); [|done|].
  { unfold prepared_valid in Hv. unfold HasChanges. rewrite !andb_true_iff in Hv. rewrite andb_true_iff. tauto. }
  pose proof (kv_write_batch_spec (engine_ s) (modifications p ++ progress_op index)) as Hw.
  destruct (kv_write_batch _ _) as [[] e]; simpl in *; [|by apply (untouched_in_step s)].
  destruct (metadata_same_indexes now s (count_batch (set_engine s e)) (modifications p))
    as (Hl' & Hw' & Hr' & He'); [done..|].
  case_match; simpl; (eapply replay_in_step; [exact Hc|by eapply performs_wf|exact Hw|exact He'|]);
    (split_and!; [|..|exact Hr']; intros k;
       [exact (f_equal (λ x, persisted_lock <$> x !! k) Hl')|exact (f_equal (λ x, default ∅ (x !! k)) Hw')]).
Qed.

Lemma ApplyPreparedBatch_in_step P now s time b index :
  in_step s → mem_ok s →
  (∀ i, i ∈ b_items b → p_status (item_prepared i) = StOk →
     expectedRevision (item_prepared i) = CurrentRevisionLocked s (item_key i) →
     item_mods i = [] ∨ performs_as is_start P s time (item_key i) (item_prepared i)) →
  in_step (ApplyPreparedBatch now s b index).2.
Proof using start_pos.
  intros Hc Hm Hitems. unfold ApplyPreparedBatch.
  destruct (negb (batch_valid b)); [done|]. destruct (replayed s index); [done|].
  destruct (batch_collect s EmptyString (b_items b)) as [mods|] eqn:Hcol; [|done].
  apply batch_collect_spec in Hcol as (-> & Hnd & _ & Hall).
  case_bool_decide; [done|].
  pose proof (kv_write_batch_spec (engine_ s) (mjoin (item_mods <$> b_items b) ++ progress_op index)) as Hw.
  destruct (kv_write_batch _ _) as [[] e]; simpl in *; [|by apply (untouched_in_step s)].
  assert (∀ i, i ∈ b_items b → item_mods i = [] ∨
            performs_as is_start P s time (item_key i) (item_prepared i)) as Hp.
  { intros i Hi. destruct (Hall i Hi) as [|(Hst & Hrev & _)]; [by left|]. by apply Hitems. }
  set (s0 := count_batch (set_engine s e)).
  destruct (batch_apply_moves is_start start_pos P now 0 [] (b_items b) ∅ s0 time)
    as (s' & _ & Hl & _ & _ & _ & _ & _ & Heng); [done|constructor|done| |].
  { intros i Hi. destruct (Hp i Hi) as [|(a & HPa & Hpa)]; [by left|]. right. exists a. split; [done|].
    by apply (performs_transport is_start ∅ ∅ s s0 time time). }
  rewrite Hl. simpl. apply batch_apply_loop_replays in Hl as ->.
  destruct (metadata_same_indexes now s s0 (mjoin (item_mods <$> b_items b)))
    as (Hl' & Hw' & Hr' & He'); [done..|].
  eapply (replay_in_step now s e); [exact Hc| |exact Hw|exact He'|by apply index_eq_same].
  apply Forall_join, Forall_fmap, Forall_forall. intros i Hi. simpl.
  destruct (Hp i Hi) as [->|(a & _ & Hpa)]; [constructor|by eapply performs_wf].
Qed.

End apply_in_step.
