(* ===== verification/MvccApply.v ===== *)
(** * Applying committed Raft entries

    A Region applies the prepared commands of its Raft log one entry at a time
    ([ApplyPrepared], [ApplyPreparedBatch]) or a run of entries in one engine
    batch ([ApplyPreparedCommandsAtomically]).  The grouped apply either leaves
    the store alone or does what the entries do one after the other; a replayed
    entry and an entry prepared against an older revision change nothing. *)

From S2P Require Import Prelude KvEngine MvccTypes Codec Hlc Mvcc MvccSpec MvccRefine MvccRecover MvccWorld.
Import MvccStorage.

Section apply.
Context {E : Type} `{!KVEngine E}.
Implicit Types (s st : t E) (key : string) (cmd : PreparedApplyCommand).

(** One entry applied on its own, and a run of entries each of which must be
    accepted. *)
Definition apply_command (now : N) s cmd : TxnStatus * t E :=
  if cmd_isBatch cmd then ApplyPreparedBatch now s (cmd_batch cmd) (cmd_raftIndex cmd)
  else ApplyPrepared now s (cmd_key cmd) (cmd_single cmd) (cmd_raftIndex cmd).

Fixpoint apply_each (now : N) s (cmds : list PreparedApplyCommand) : option (t E) :=
  match cmds with
  | [] => Some s
  | cmd :: rest =>
      match apply_command now s cmd with
      | (StOk, s1) => apply_each now s1 rest
      | _ => None
      end
  end.

(** A prepared write moves the revision of its own key and of no other. *)
Definition own_revision key (p : PreparedMvccWrite) : Prop :=
  modifications p = [] ∨
  ∃ ops, modifications p = ops ++ [PutOp (RevisionKey key) (to_string (newRevision p))] ∧
         Forall (λ o, starts_with "meta/revision/" (op_key o) = false) ops ∧ fits64 (newRevision p).

Definition command_own cmd : Prop :=
  if cmd_isBatch cmd
  then ∀ i, i ∈ b_items (cmd_batch cmd) → own_revision (item_key i) (item_prepared i)
  else own_revision (cmd_key cmd) (cmd_single cmd).

(** Two stores with the same persistent and the same in-memory state; only the
    number of batches written may differ. *)
Definition alike s s' : Prop :=
  kv_contents (engine_ s) = kv_contents (engine_ s') ∧ locks_ s = locks_ s' ∧
  writes_ s = writes_ s' ∧ revisions_ s = revisions_ s' ∧ appliedRaftIndex_ s = appliedRaftIndex_ s'.

(** ** Revisions along a list of modifications *)

Lemma metadata_keeps_revisions now s o :
  starts_with "meta/revision/" (op_key o) = false →
  revisions_ (ApplyMetadataMutationLocked now s o) = revisions_ s.
Proof.
  intros Ho. unfold ApplyMetadataMutationLocked, erase_write. rewrite Ho. by repeat case_match.
Qed.

Lemma apply_metadata_keeps_revisions now s ops :
  Forall (λ o, starts_with "meta/revision/" (op_key o) = false) ops →
  revisions_ (apply_metadata now s ops) = revisions_ s.
Proof.
  intros Hops. revert s. induction Hops as [|o ops Ho Hops IH]; intros s; [done|].
  change (apply_metadata now s (o :: ops))
    with (apply_metadata now (ApplyMetadataMutationLocked now s o) ops).
  rewrite IH. by apply metadata_keeps_revisions.
Qed.

Lemma own_revision_moves now s key p k :
  own_revision key p → modifications p ≠ [] →
  CurrentRevisionLocked (apply_metadata now s (modifications p)) k =
    if decide (k = key) then newRevision p else CurrentRevisionLocked s k.
Proof.
  intros [?|(ops & -> & Hops & Hf)] Hne; [done|].
  rewrite apply_metadata_app. unfold apply_metadata at 1. cbn [foldl].
  rewrite metadata_revision by done. unfold CurrentRevisionLocked. simpl. rewrite apply_metadata_keeps_revisions by done.
  case_decide as Hk; [subst; by rewrite lookup_insert_eq|by rewrite lookup_insert_ne].
Qed.

Lemma staged_insert s (staged : gmap string N) key r k :
  staged_revision s (<[key := r]> staged) k =
    if decide (k = key) then r else staged_revision s staged k.
Proof.
  unfold staged_revision. case_decide; [subst; by rewrite lookup_insert_eq|by rewrite lookup_insert_ne].
Qed.

(** ** What the guards on an item say *)

Lemma item_guard_key r prev i take :
  item_guard r prev i = Some take →
  item_key i ≠ EmptyString ∧ (prev = EmptyString ∨ str_ltb prev (item_key i) = true).
Proof.
  unfold item_guard. destruct (String.eqb (item_key i) EmptyString || _ || _) eqn:Hb; [done|]. intros _.
  reflect_bools. split; [done|].
  match goal with Hx : (_ && _)%bool = false |- _ => apply andb_false_iff in Hx as [Hx|Hx];
    [left; by reflect_bools|right; by rewrite str_ltb_leb, Hx] end.
Qed.

Lemma item_guard_take r prev i take :
  item_guard r prev i = Some take →
  if take then modifications (item_prepared i) ≠ [] else modifications (item_prepared i) = [].
Proof.
  unfold item_guard. intros Hg. destruct take; repeat case_match; simplify_eq; by reflect_bools.
Qed.

(** ** The staged revisions are those the entries leave behind *)

Definition staged_of s (staged : gmap string N) st : Prop :=
  ∀ k, staged_revision s staged k = CurrentRevisionLocked st k.

Lemma staged_of_step s staged st st1 now key p :
  staged_of s staged st → own_revision key p → modifications p ≠ [] →
  revisions_ st1 = revisions_ (apply_metadata now st (modifications p)) →
  staged_of s (<[key := newRevision p]> staged) st1.
Proof.
  intros Hst Hown Hne Hr k. rewrite staged_insert. unfold CurrentRevisionLocked at 1. rewrite Hr.
  pose proof (own_revision_moves now st key p k Hown Hne) as Hk. unfold CurrentRevisionLocked in Hk at 1.
  rewrite Hk. case_decide; [done|apply Hst].
Qed.

Lemma batch_stage_collect s st0 staged prev items mods staged' :
  (∀ k, prev = EmptyString ∨ str_ltb prev k = true →
        staged_revision s staged k = CurrentRevisionLocked st0 k) →
  batch_stage s staged prev items = Some (mods, staged') → batch_collect st0 prev items = Some mods.
Proof.
  revert staged prev mods. induction items as [|i items IH]; intros staged prev mods Hst; simpl;
    [congruence|].
  destruct (item_guard _ prev i) as [take|] eqn:Hg; [|done]. simpl.
  destruct (item_guard_key _ _ _ _ Hg) as [Hne Hprev]. rewrite <- Hst, Hg by done. simpl.
  assert (∀ k, item_key i = EmptyString ∨ str_ltb (item_key i) k = true →
            (prev = EmptyString ∨ str_ltb prev k = true) ∧ k ≠ item_key i) as Hk.
  { intros k [|Hlt]; [done|]. split.
    - destruct Hprev as [|Hp]; [by left|right]. by eapply str_ltb_trans.
    - intros ->. by rewrite str_ltb_irrefl in Hlt. }
  destruct take.
  - destruct (batch_stage s _ (item_key i) items) as [[mods' ?]|] eqn:Hb; [|done]. simpl.
    intros [= <- <-]. erewrite IH; [done| |done].
    intros k [Hp Hki]%Hk. rewrite staged_insert, decide_False by done. by apply Hst.
  - intros Hb. erewrite IH; [done| |done]. intros k [Hp _]%Hk. by apply Hst.
Qed.

Lemma batch_stage_loop now s staged st prev items mods staged' :
  staged_of s staged st → (∀ i, i ∈ items → own_revision (item_key i) (item_prepared i)) →
  batch_stage s staged prev items = Some (mods, staged') →
  ∃ st1, batch_apply_loop now st items = inr st1 ∧ staged_of s staged' st1.
Proof.
  revert staged st prev mods. induction items as [|i items IH]; intros staged st prev mods Hst Hown;
    simpl; [intros [= <- <-]; eauto|].
  destruct (item_guard _ prev i) as [take|] eqn:Hg; [|done]. simpl.
  pose proof (item_guard_take _ _ _ _ Hg) as Htake.
  destruct take.
  - destruct (batch_stage s _ (item_key i) items) as [[mods' ?]|] eqn:Hb; [|done]. simpl.
    intros [= <- <-]. assert (own_revision (item_key i) (item_prepared i)) as Ho by (apply Hown; set_solver).
    rewrite (own_revision_moves now st (item_key i)), decide_True, N.eqb_refl, andb_false_r by done.
    eapply (IH _ _ _ _ (staged_of_step _ _ _ _ now _ _ Hst Ho Htake eq_refl)); [set_solver|done].
  - rewrite Htake, bool_decide_true by done. simpl. intros Hb.
    eapply (IH _ _ _ _ Hst); [set_solver|done].
Qed.

(** ** One entry *)

(** [st1] is [st] after the modifications [mods] of the entry at [index]. *)
Record advanced (now : N) st (mods : list KVBatchOp) (index : N) st1 : Prop := MkAdvanced {
  ad_contents : kv_contents (engine_ st1) =
                apply_ops (kv_contents (engine_ st)) (mods ++ progress_op index);
  ad_locks : locks_ st1 = locks_ (apply_metadata now st mods);
  ad_writes : writes_ st1 = writes_ (apply_metadata now st mods);
  ad_revisions : revisions_ st1 = revisions_ (apply_metadata now st mods);
  ad_applied : appliedRaftIndex_ st1 = index
}.

Definition accepting : Prop := ∀ (e : E) ops, (kv_write_batch e ops).1 = true.

Lemma advanced_write now st mods index e :
  index ≠ 0%N → kv_contents e = apply_ops (kv_contents (engine_ st)) (mods ++ progress_op index) →
  advanced now st mods index (set_applied (apply_metadata now (count_batch (set_engine st e)) mods) index).
Proof.
  intros Hi He.
  destruct (metadata_same_indexes now st (count_batch (set_engine st e)) mods eq_refl eq_refl eq_refl)
    as (Hl & Hw & Hr & Hen).
  split; simpl; [by rewrite Hen|done..|]. by rewrite (proj2 (N.eqb_neq _ _) Hi).
Qed.

Lemma command_collect_applies now s staged st cmd mods staged1 :
  accepting → staged_of s staged st → command_own cmd →
  (appliedRaftIndex_ st < cmd_raftIndex cmd)%N →
  command_collect s staged cmd = Some (mods, staged1) →
  mods = command_mods cmd ∧
  ∃ st1, apply_command now st cmd = (StOk, st1) ∧ staged_of s staged1 st1 ∧
         advanced now st mods (cmd_raftIndex cmd) st1.
Proof.
  intros Hacc Hst Hown Hidx. unfold command_collect, apply_command, command_own, command_mods in *.
  assert (cmd_raftIndex cmd ≠ 0%N) as Hi0 by lia.
  assert (replayed st (cmd_raftIndex cmd) = false) as Hrep.
  { unfold replayed. apply andb_false_iff. right. apply N.leb_gt. lia. }
  destruct (cmd_isBatch cmd); simpl.
  - destruct (batch_valid (cmd_batch cmd)) eqn:Hv; [|done]. simpl. intros Hb.
    assert (batch_collect st EmptyString (b_items (cmd_batch cmd)) = Some mods) as Hc
      by (eapply batch_stage_collect; [|done]; intros; apply Hst).
    destruct (batch_collect_spec _ _ _ _ Hc) as (Hmods & _). split; [done|].
    unfold ApplyPreparedBatch. rewrite Hv, Hrep, Hc. simpl.
    rewrite bool_decide_false by (unfold progress_op; rewrite (proj2 (N.eqb_neq _ _) Hi0); by destruct mods).
    pose proof (kv_write_batch_spec (engine_ st) (mods ++ progress_op (cmd_raftIndex cmd))) as Hw.
    pose proof (Hacc (engine_ st) (mods ++ progress_op (cmd_raftIndex cmd))) as Hok.
    destruct (kv_write_batch _ _) as [ok e]. simpl in Hok, Hw. subst ok. simpl.
    destruct (batch_stage_loop now s staged (count_batch (set_engine st e)) _ _ _ _ Hst Hown Hb)
      as (st1 & Hloop & Hst1).
    rewrite Hloop. apply batch_apply_loop_replays in Hloop. rewrite Hloop, <- Hmods in *.
    eexists. split_and!; [done|exact Hst1|]. by apply advanced_write.
  - destruct (prepared_valid (cmd_single cmd)) eqn:Hv; [|done]. simpl.
    rewrite Hst. destruct (CurrentRevisionLocked st (cmd_key cmd) =? _)%N eqn:Hr; [|done]. simpl.
    intros [= <- <-]. split; [done|]. unfold ApplyPrepared. rewrite Hv, Hrep, Hr. simpl.
    set (mods := modifications (cmd_single cmd)).
    pose proof (kv_write_batch_spec (engine_ st) (mods ++ progress_op (cmd_raftIndex cmd))) as Hw.
    pose proof (Hacc (engine_ st) (mods ++ progress_op (cmd_raftIndex cmd))) as Hok.
    destruct (kv_write_batch _ _) as [ok e]. simpl in Hok, Hw. subst ok. simpl.
    assert (mods ≠ []) as Hne by (unfold prepared_valid in Hv; by reflect_bools).
    pose proof (own_revision_moves now (count_batch (set_engine st e)) _ _ (cmd_key cmd) Hown Hne) as Hk.
    rewrite decide_True in Hk by done. fold mods in Hk. rewrite Hk, N.eqb_refl. simpl.
    eexists. split_and!; [done| |by apply advanced_write].
    eapply (staged_of_step _ _ (count_batch (set_engine st e))); [exact Hst|done..].
Qed.

(** ** Runs of entries *)

Lemma apply_ops_lookup_ext (m m' : gmap string string) ops k :
  m !! k = m' !! k → apply_ops m ops !! k = apply_ops m' ops !! k.
Proof.
  revert m m'. induction ops as [|o ops IH]; intros m m' Hk; [done|]. simpl. apply IH.
  destruct (decide (op_key o = k)) as [<-|Hne]; [|by rewrite !apply_op_other].
  unfold apply_op. destruct (op_type o); by rewrite ?lookup_insert_eq, ?lookup_delete_eq.
Qed.

Lemma apply_ops_progress (m : gmap string string) index k :
  index ≠ 0%N → apply_ops m (progress_op index) !! k =
    if decide (k = AppliedIndexKey) then Some (to_string index) else m !! k.
Proof.
  intros Hi. unfold progress_op. rewrite (proj2 (N.eqb_neq _ _) Hi). simpl. unfold apply_op. simpl.
  case_decide; [subst; by rewrite lookup_insert_eq|by rewrite lookup_insert_ne].
Qed.

Lemma advanced_app now st mods1 i1 st1 mods2 i2 st2 :
  i1 ≠ 0%N → i2 ≠ 0%N → advanced now st mods1 i1 st1 → advanced now st1 mods2 i2 st2 →
  advanced now st (mods1 ++ mods2) i2 st2.
Proof.
  intros H1 H2 [Hc Hl Hw Hr _] [Hc' Hl' Hw' Hr' Ha].
  destruct (metadata_same_indexes now (apply_metadata now st mods1) st1 mods2 Hl Hw Hr) as (El & Ew & Er & _).
  split; rewrite ?apply_metadata_app; [|congruence..].
  rewrite Hc', Hc. apply map_eq. intros k. rewrite !apply_ops_app, !apply_ops_progress by done.
  case_decide; [done|]. apply apply_ops_lookup_ext. by rewrite apply_ops_progress, decide_False.
Qed.

Lemma commands_collect_sequential now s cmds staged prev st mods staged' :
  accepting → staged_of s staged st → Forall command_own cmds → appliedRaftIndex_ st = prev →
  commands_collect s staged prev cmds = Some (mods, staged') →
  mods = mjoin (command_mods <$> cmds) ∧
  ∃ st', apply_each now st cmds = Some st' ∧ staged_of s staged' st' ∧
    match last cmds with
    | Some cmd => cmd_raftIndex cmd ≠ 0%N ∧ advanced now st mods (cmd_raftIndex cmd) st'
    | None => st' = st
    end.
Proof.
  intros Hacc. revert staged prev st mods.
  induction cmds as [|cmd cmds IH]; intros staged prev st mods Hst Hown Happ; simpl.
  { intros [= <- <-]. eauto. }
  destruct ((cmd_raftIndex cmd =? 0)%N || _) eqn:Hidx; [done|]. reflect_bools.
  apply Forall_cons in Hown as [Ho Hown].
  destruct (command_collect s staged cmd) as [[mods1 staged1]|] eqn:Hc; [|done]. simpl.
  destruct (commands_collect s staged1 _ cmds) as [[mods2 staged2]|] eqn:Hrest; [|done]. simpl.
  intros [= <- <-].
  destruct (command_collect_applies now _ _ st _ _ _ Hacc Hst Ho ltac:(lia) Hc)
    as (-> & st1 & Hap & Hst1 & Hadv).
  destruct (IH _ _ _ _ Hst1 Hown (ad_applied _ _ _ _ _ Hadv) Hrest) as (-> & st' & He & Hst' & Hl).
  split; [done|]. exists st'. rewrite Hap. split_and!; [done..|].
  destruct cmds as [|cmd' cmds]; [simpl in Hl; subst st'; by rewrite app_nil_r|].
  destruct (last (cmd' :: cmds)) as [lc|] eqn:Hlast; [|by apply last_None in Hlast].
  change (last (cmd :: cmd' :: cmds)) with (last (cmd' :: cmds)). rewrite Hlast.
  destruct Hl as [Hl0 Hl]. split; [done|]. by apply (advanced_app _ _ _ (cmd_raftIndex cmd) st1).
Qed.

Lemma fold_commands now s cmds :
  foldl (λ st cmd, apply_metadata now st (command_mods cmd)) s cmds =
    apply_metadata now s (mjoin (command_mods <$> cmds)).
Proof.
  revert s. induction cmds as [|cmd cmds IH]; intros s; [done|]. simpl.
  by rewrite IH, apply_metadata_app.
Qed.

(** [C12] A run of committed entries applied in one engine batch is all or
    nothing: when it is accepted, applying the entries one after the other is
    accepted as well and ends in the same persistent and in-memory state; when
    it is refused, the store is unchanged.  The engine accepts its batches, and
    each prepared write moves the revision of its own key. *)
Theorem atomic_apply_sequential now s cmds :
  accepting → Forall command_own cmds →
  match ApplyPreparedCommandsAtomically now s cmds with
  | (true, s') => ∃ st, apply_each now s cmds = Some st ∧ alike s' st
  | (false, s') => s' = s
  end.
Proof.
  intros Hacc Hown. unfold ApplyPreparedCommandsAtomically.
  destruct (last cmds) as [lastCmd|] eqn:Hlast; [|done].
  destruct (commands_collect s ∅ (appliedRaftIndex_ s) cmds) as [[mods staged]|] eqn:Hc; [|done].
  assert (staged_of s ∅ s) as Hst by (intros k; unfold staged_revision; by rewrite lookup_empty).
  destruct (commands_collect_sequential now s cmds _ _ s _ _ Hacc Hst Hown eq_refl Hc)
    as (Hmods & st & He & Hst' & Hl). rewrite Hlast in Hl. destruct Hl as [Hi [Ac Al Aw Ar Aa]].
  unfold progress_op in Ac. rewrite (proj2 (N.eqb_neq _ _) Hi) in Ac.
  case_bool_decide; [done|]. set (ops := mods ++ _) in *.
  pose proof (kv_write_batch_spec (engine_ s) ops) as Hw. pose proof (Hacc (engine_ s) ops) as Hok.
  destruct (kv_write_batch _ _) as [ok e]. simpl in Hok, Hw. subst ok. simpl.
  rewrite fold_commands, <- Hmods.
  destruct (metadata_same_indexes now s (count_batch (set_engine s e)) mods eq_refl eq_refl eq_refl)
    as (Hl & Hwr & Hr & Hen).
  destruct (forallb _ _) eqn:Hall.
  - exists st. split; [done|]. split_and!; simpl; [rewrite Hen; simpl|..]; congruence.
  - exfalso. apply not_true_iff_false in Hall. apply Hall. apply forallb_forall.
    intros [k r] Hin%list_elem_of_In%elem_of_map_to_list. simpl. apply N.eqb_eq.
    specialize (Hst' k). unfold staged_revision in Hst'. rewrite Hin in Hst'.
    rewrite Hst'. unfold CurrentRevisionLocked. by rewrite Hr, Ar.
Qed.

(** ** Replays and stale entries *)

Lemma add64_ne n : n +₆₄ 1 ≠ n.
Proof.
  unfold add64, wrap64. intros Heq.
  assert (n < u64_size)%N as Hlt by (rewrite <- Heq; apply N.mod_lt; done).
  destruct (decide (n + 1 < u64_size)%N) as [Hs|Hs].
  - rewrite N.mod_small in Heq by done. lia.
  - assert (n + 1 = u64_size)%N as Hn by lia. rewrite Hn, N.mod_same in Heq by done.
    unfold u64_size in *. lia.
Qed.

Lemma recover_lock_applied now s items :
  appliedRaftIndex_ (foldl (recover_lock now) s items) = appliedRaftIndex_ s.
Proof.
  revert s. induction items as [|i items IH]; intros s; [done|]. simpl. rewrite IH.
  unfold recover_lock. by repeat case_match.
Qed.

Lemma recover_write_applied s items :
  appliedRaftIndex_ (foldl recover_write s items) = appliedRaftIndex_ s.
Proof.
  revert s. induction items as [|i items IH]; intros s; [done|]. simpl. rewrite IH.
  unfold recover_write. by repeat case_match.
Qed.

Lemma recover_revision_applied s items :
  appliedRaftIndex_ (foldl recover_revision s items) = appliedRaftIndex_ s.
Proof. revert s. induction items as [|i items IH]; intros s; [done|]. simpl. by rewrite IH. Qed.

(** The progress a store finds when it is opened. *)
Lemma Open_applied now (e : E) :
  appliedRaftIndex_ (Open now e) =
    match kv_contents e !! AppliedIndexKey with Some v => DecodeTs v | None => 0%N end.
Proof.
  unfold Open, RecoverMetadataFromEngineLocked. cbv zeta.
  rewrite recover_lock_applied, recover_write_applied, recover_revision_applied. simpl.
  by rewrite kv_get_spec.
Qed.

Lemma apply_metadata_applied now s ops :
  appliedRaftIndex_ (apply_metadata now s ops) = appliedRaftIndex_ s.
Proof.
  revert s. induction ops as [|o ops IH]; intros s; [done|].
  change (apply_metadata now s (o :: ops))
    with (apply_metadata now (ApplyMetadataMutationLocked now s o) ops). rewrite IH.
  unfold ApplyMetadataMutationLocked, erase_write. by repeat case_match.
Qed.

Lemma ApplyPrepared_new now s key p index s1 :
  ApplyPrepared now s key p index = (StOk, s1) → replayed s index = false →
  prepared_valid p = true ∧ CurrentRevisionLocked s1 key = newRevision p ∧
  appliedRaftIndex_ s1 = (if (index =? 0)%N then appliedRaftIndex_ s else index) ∧
  kv_contents (engine_ s1) =
    apply_ops (kv_contents (engine_ s)) (modifications p ++ progress_op index).
Proof.
  unfold ApplyPrepared. intros HA Hrep. destruct (prepared_valid p); [|done].
  rewrite Hrep in HA. simpl in HA. case_match; [done|].
  pose proof (kv_write_batch_spec (engine_ s) (modifications p ++ progress_op index)) as Hw.
  destruct (kv_write_batch _ _) as [[] e]; [|done]. simpl in Hw, HA.
  destruct (metadata_same_indexes now s (count_batch (set_engine s e)) (modifications p)
              eq_refl eq_refl eq_refl) as (_ & _ & _ & Hen).
  assert (appliedRaftIndex_ (apply_metadata now (count_batch (set_engine s e)) (modifications p)) =
          appliedRaftIndex_ s) as Ha by (by rewrite apply_metadata_applied).
  destruct (negb _) eqn:Hr in HA; [done|]. injection HA as <-. reflect_bools.
  split_and!; [done|done| |simpl; rewrite Hen; done]. simpl. by rewrite Ha.
Qed.

(** [C16] A committed entry takes effect exactly once.  After the entry at
    [index] has been applied, its marker is durable: a store reopened on the
    engine has reached [index].  On the running store and on the reopened one,
    an entry at that or a lower index changes nothing and is acknowledged, and
    the same prepared command under a higher index is refused by the running
    store, because the revision of its key has moved. *)
Theorem entry_applied_once now s key p index s1 :
  index ≠ 0%N → fits64 index → (appliedRaftIndex_ s < index)%N →
  ApplyPrepared now s key p index = (StOk, s1) →
  (∀ now', appliedRaftIndex_ (Open now' (engine_ s1)) = index) ∧
  (∀ now' now'' st key' p' j, st = s1 ∨ st = Open now'' (engine_ s1) →
     j ≠ 0%N → (j ≤ index)%N → prepared_valid p' = true →
     ApplyPrepared now' st key' p' j = (StOk, st)) ∧
  (∀ now' j, (index < j)%N → ApplyPrepared now' s1 key p j = (StStorageError, s1)).
Proof.
  intros Hi Hf Hlt HA.
  assert (replayed s index = false) as Hrep
    by (unfold replayed; apply andb_false_iff; right; by apply N.leb_gt).
  destruct (ApplyPrepared_new _ _ _ _ _ _ HA Hrep) as (Hv & Hr & Ha & Hc).
  rewrite (proj2 (N.eqb_neq _ _) Hi) in Ha.
  assert (∀ now', appliedRaftIndex_ (Open now' (engine_ s1)) = index) as Hopen.
  { intros now'. rewrite Open_applied, Hc, apply_ops_app, apply_ops_progress, decide_True by done.
    unfold DecodeTs. by rewrite strtoull_to_string. }
  split_and!; [done| |].
  - intros now' now'' st key' p' j Hst Hj Hle Hv'.
    assert (appliedRaftIndex_ st = index) as Hap by (destruct Hst; subst st; auto).
    unfold ApplyPrepared, replayed. rewrite Hv', Hap. simpl.
    by rewrite (proj2 (N.eqb_neq _ _) Hj), (proj2 (N.leb_le _ _) Hle).
  - intros now' j Hj. unfold ApplyPrepared, replayed. rewrite Hv, Ha. simpl.
    rewrite (proj2 (N.leb_gt _ _) Hj), andb_false_r, Hr.
    assert (newRevision p ≠ expectedRevision p) as Hne.
    { unfold prepared_valid in Hv. reflect_bools.
      match goal with Hn : newRevision p = _ |- _ => rewrite Hn end. apply add64_ne. }
    by rewrite (proj2 (N.eqb_neq _ _) Hne).
Qed.

End apply.

(** ** A concrete run of two entries *)

Module ApplyDemo.

Definition store : Type := gmap string string.
Definition opened : t store := Open 0 ∅.

(** Two prewrites prepared by the leader, as log entries 1 and 2. *)
Definition first_write : PreparedMvccWrite := PreparePrewrite opened "a" "1" "a" 1 1000 false 0 0 0.
Definition second_write : PreparedMvccWrite := PreparePrewrite opened "b" "2" "a" 1 1000 false 0 0 0.
Definition entries : list PreparedApplyCommand :=
  [MkApplyCommand 1 false "a" first_write default_PreparedMvccBatch;
   MkApplyCommand 2 true EmptyString default_PreparedMvccWrite
     (MkBatch kBatchCommandVersion StOk [MkItem "b" second_write])].

Definition grouped : t store := (ApplyPreparedCommandsAtomically 0 opened entries).2.
Definition after_first : t store := (ApplyPrepared 0 opened "a" first_write 1).2.

Lemma store_accepts : accepting (E := store).
Proof. done. Qed.

Lemma prewrite_own key value :
  own_revision key (PreparePrewrite opened key value "a" 1 1000 false 0 0 0).
Proof.
  right. unfold PreparePrewrite. change (locks_ opened) with (∅ : gmap string MvccLock).
  rewrite lookup_empty. unfold rolled_back_at, newest_at_least, versions.
  change (writes_ opened) with (∅ : gmap string (gmap N MvccWrite)). rewrite lookup_empty. simpl.
  eexists [_; _]. split_and!; [reflexivity|repeat constructor|apply add64_fits].
Qed.

Lemma atomic_apply_sequential_witness :
  appliedRaftIndex_ grouped = 2%N ∧ is_Some (locks_ grouped !! "b") ∧
  ∃ st, apply_each 0 opened entries = Some st ∧ alike grouped st.
Proof.
  split_and!; [vm_compute; reflexivity|vm_compute; eauto|].
  pose proof (atomic_apply_sequential (E := store) 0 opened entries store_accepts) as H.
  replace (ApplyPreparedCommandsAtomically 0 opened entries) with (true, grouped) in H
    by (vm_compute; reflexivity).
  apply H. constructor; [apply prewrite_own|]. constructor; [|constructor].
  intros i Hi%list_elem_of_singleton. subst i. apply prewrite_own.
Defined.

Lemma entry_applied_once_witness :
  appliedRaftIndex_ (Open 5 (engine_ after_first)) = 1%N ∧
  ApplyPrepared 5 after_first "a" first_write 2 = (StStorageError, after_first).
Proof.
  destruct (entry_applied_once (E := store) 0 opened "a" first_write 1 after_first) as (Ho & _ & Hs);
    [done|done|vm_compute; reflexivity|vm_compute; reflexivity|].
  split; [apply Ho|by apply Hs].
Defined.

End ApplyDemo.
