(* ===== verification/MvccQuery.v ===== *)
(** * Scans, status queries and the direct commit

    A scan returns what single reads of its range return; a status query rolls
    back only a lock whose HLC expiry has passed; the direct commit and the
    replicated one agree.  The last section shows two behaviours of the locking
    protocol that its specification does not describe. *)

From S2P Require Import Prelude KvEngine MvccTypes Codec Hlc Mvcc MvccSpec MvccRefine MvccRecover MvccWorld MvccApply.
Import MvccStorage.

(** ** Names of a range *)

Lemma unique_adjacent_keeps l k : k ∈ unique_adjacent l ↔ k ∈ l.
Proof.
  induction l as [|a l IH]; [done|]. destruct l as [|b l]; [done|]. simpl unique_adjacent.
  destruct (String.eqb_spec a b) as [->|Hne].
  - rewrite IH. set_solver.
  - rewrite elem_of_cons, IH. set_solver.
Qed.

Lemma unique_adjacent_sorted l :
  StronglySorted (str_le_on id) l → StronglySorted str_lt (unique_adjacent l).
Proof.
  induction l as [|a l IH]; intros Hs; [constructor|]. apply StronglySorted_inv in Hs as [Hs Ha].
  destruct l as [|b l]; [by repeat constructor|]. simpl.
  destruct (String.eqb_spec a b) as [->|Hne]; [by apply IH|].
  constructor; [by apply IH|]. apply Forall_forall. intros k Hk.
  change (k ∈ unique_adjacent (b :: l)) in Hk. rewrite unique_adjacent_keeps in Hk.
  apply Forall_cons in Ha as [Hab Hal]. unfold str_lt.
  destruct (str_leb_lt_or_eq a b Hab) as [|Hlt]; [done|]. apply elem_of_cons in Hk as [->|Hk]; [done|].
  apply StronglySorted_inv in Hs as [_ Hb]. rewrite Forall_forall in Hb.
  by eapply str_ltb_leb_trans, (Hb k Hk).
Qed.

Section queries.
Context {E : Type} `{!KVEngine E}.
Implicit Types (s : t E) (key : string).

Lemma scan_names_sorted s a b : StronglySorted str_lt (scan_names s a b).
Proof. apply unique_adjacent_sorted, (StronglySorted_merge_sort (str_le_on id)). Qed.

Lemma elem_of_names {A} (m : gmap string A) a b k :
  k ∈ filter (λ k, in_scan_range a b k = true) ((map_to_list m).*1) ↔
  in_scan_range a b k = true ∧ is_Some (m !! k).
Proof.
  rewrite list_elem_of_filter. apply and_iff_compat_l. rewrite list_elem_of_fmap. split.
  - intros ([k' v] & -> & Hin%elem_of_map_to_list). eauto.
  - intros [v Hv]. exists (k, v). split; [done|by apply elem_of_map_to_list].
Qed.

Lemma elem_of_scan_names s a b k :
  k ∈ scan_names s a b ↔
  in_scan_range a b k = true ∧ (is_Some (writes_ s !! k) ∨ is_Some (locks_ s !! k)).
Proof.
  unfold scan_names, sort_names.
  rewrite unique_adjacent_keeps, merge_sort_Permutation, elem_of_app, !elem_of_names. tauto.
Qed.

(** ** The loop of [Scan] *)

Definition entry_at s (r : N) (k : string) : option (string * string) :=
  match ReadCommittedLocked s k r with
  | (StOk, Some v, _) => Some (k, v)
  | _ => None
  end.

Lemma entry_at_Get s r k v :
  lock_blocks s k r = false → entry_at s r k = Some (k, v) ↔ Get s k r = (StOk, Some v).
Proof.
  intros Hb. rewrite Get_read, Hb. unfold entry_at.
  destruct (ReadCommittedLocked s k r) as [[st v'] c]. simpl. split.
  - destruct st; try done. destruct v'; [|done]. by intros [= ->].
  - by intros [= -> ->].
Qed.

Lemma entry_at_key s r k e : entry_at s r k = Some e → e.1 = k.
Proof. unfold entry_at. repeat case_match; intros; by simplify_eq. Qed.

Lemma scan_loop_spec s r limit names es0 st es :
  scan_loop s r limit names es0 = (st, es) →
  (st = StLockConflict ∧ es = [] ∧ ∃ k, k ∈ names ∧ lock_blocks s k r = true) ∨
  (st = StOk ∧ ∃ seen rest, names = seen ++ rest ∧ es = es0 ++ omap (entry_at s r) seen ∧
     Forall (λ k, lock_blocks s k r = false) seen ∧
     (rest = [] ∨ (limit ≠ 0%N ∧ (limit ≤ N.of_nat (length es))%N)) ∧
     (limit ≠ 0%N → (N.of_nat (length es0) ≤ limit)%N → (N.of_nat (length es) ≤ limit)%N)).
Proof.
  revert es0. induction names as [|k names IH]; intros es0; simpl.
  { intros [= <- <-]. right. split; [done|]. exists [], []. simpl. rewrite app_nil_r. auto 10. }
  destruct (negb (limit =? 0)%N && (limit <=? N.of_nat (length es0))%N) eqn:Hlim.
  { intros [= <- <-]. reflect_bools. right. split; [done|]. exists [], (k :: names). simpl.
    rewrite app_nil_r. auto 10. }
  destruct (lock_blocks s k r) eqn:Hb.
  { intros [= <- <-]. left. split_and!; [done..|]. exists k. split; [by left|done]. }
  set (es1 := es0 ++ option_list (entry_at s r k)).
  intros Hs. assert (scan_loop s r limit names es1 = (st, es)) as Hs'.
  { rewrite <- Hs. unfold es1, entry_at. destruct (ReadCommittedLocked s k r) as [[[] [v|]] c];
      simpl; by rewrite ?app_nil_r. }
  destruct (IH _ Hs') as [(-> & -> & k' & Hk' & Hb')|(-> & seen & rest & -> & -> & Hall & Hrest & Hlen)].
  - left. split_and!; [done..|]. exists k'. split; [by right|done].
  - right. split; [done|]. exists (k :: seen), rest. unfold es1 in *. split_and!; try done.
    + rewrite <- app_assoc. simpl. by destruct (entry_at s r k).
    + by constructor.
    + intros Hl0 Hle. apply Hlen; [done|]. rewrite length_app.
      assert (length (option_list (entry_at s r k)) ≤ 1)%nat by (destruct (entry_at s r k); simpl; lia).
      apply andb_false_iff in Hlim as [Hlim|Hlim]; reflect_bools; lia.
Qed.

Lemma elem_of_omap_entries s r (l : list string) k v :
  (k, v) ∈ omap (entry_at s r) l ↔ k ∈ l ∧ entry_at s r k = Some (k, v).
Proof.
  rewrite list_elem_of_omap. split.
  - intros (k' & Hk' & He). pose proof (entry_at_key _ _ _ _ He) as Heq. simpl in Heq. by subst.
  - intros [Hk He]. eauto.
Qed.

Lemma omap_entries_sorted s r (l : list string) :
  StronglySorted str_lt l → StronglySorted (λ x y, str_lt x.1 y.1) (omap (entry_at s r) l).
Proof.
  induction 1 as [|k l Hs IH Hk]; simpl; [constructor|].
  destruct (entry_at s r k) as [[k' v]|] eqn:He; [|done]. constructor; [done|].
  pose proof (entry_at_key _ _ _ _ He) as Heq. simpl in Heq. subst k'.
  apply Forall_forall. intros [k2 v2] [H2 _]%elem_of_omap_entries. rewrite Forall_forall in Hk. by apply Hk.
Qed.

Lemma sorted_app_lt (l1 l2 : list string) a b : StronglySorted str_lt (l1 ++ l2) → a ∈ l1 → b ∈ l2 → str_lt a b.
Proof.
  induction l1 as [|x l1 IH]; simpl; [by intros _ ?%not_elem_of_nil|].
  intros [Hs Hx]%StronglySorted_inv [->|Ha]%elem_of_cons Hb; [|by apply IH].
  rewrite Forall_forall in Hx. apply Hx, elem_of_app. by right.
Qed.

(** A key with a visible value is in the write index. *)
Lemma Get_Ok_indexed s k r v : Get s k r = (StOk, Some v) → is_Some (writes_ s !! k).
Proof.
  unfold Get, versions. case_match; [done|]. destruct (writes_ s !! k); [done|].
  simpl. unfold om_down. rewrite om_list_empty. done.
Qed.

(** [C31] A scan of a range at a snapshot agrees with single reads at that
    snapshot.  When it succeeds, its entries are in strictly ascending key order,
    no more than the limit, each is what [Get] returns, and every key of the
    range that [Get] finds is there unless the limit was reached below it.
    Otherwise it reports a lock conflict, returns no entry, and some key of the
    range is locked for [Get]. *)
Theorem Scan_exact s a b r limit st es :
  b = EmptyString ∨ str_lt a b → Scan s a b r limit [] = (st, es) →
  (st = StOk ∧ StronglySorted (λ x y, str_lt x.1 y.1) es ∧
   (limit ≠ 0%N → (N.of_nat (length es) ≤ limit)%N) ∧
   (∀ k v, (k, v) ∈ es → in_scan_range a b k = true ∧ Get s k r = (StOk, Some v)) ∧
   (∀ k v, in_scan_range a b k = true → Get s k r = (StOk, Some v) →
      (k, v) ∈ es ∨
      (limit ≠ 0%N ∧ N.of_nat (length es) = limit ∧ ∀ k' v', (k', v') ∈ es → str_lt k' k))) ∨
  (st = StLockConflict ∧ es = [] ∧
   ∃ k, in_scan_range a b k = true ∧ Get s k r = (StLockConflict, None)).
Proof.
  intros Hab. unfold Scan.
  destruct (negb (String.eqb b EmptyString) && str_leb b a) eqn:Hr.
  { reflect_bools. destruct Hab as [|Hlt]; [done|]. unfold str_lt in Hlt. rewrite str_ltb_leb in Hlt.
    by match goal with Hx : str_leb b a = true |- _ => rewrite Hx in Hlt end. }
  intros [(-> & -> & k & Hk & Hb)|(-> & seen & rest & Hn & -> & Hall & Hrest & Hlen)]%scan_loop_spec.
  { right. split_and!; [done..|]. exists k. apply elem_of_scan_names in Hk as [Hk _].
    unfold Get. by rewrite Hb. }
  left. simpl in *. rewrite Forall_forall in Hall. pose proof (scan_names_sorted s a b) as Hs.
  assert (∀ k, k ∈ seen → in_scan_range a b k = true) as Hin.
  { intros k Hk. apply (elem_of_scan_names s). rewrite Hn. apply elem_of_app. by left. }
  split_and!; [done|apply omap_entries_sorted|intros Hl; apply Hlen; [done|lia]|..].
  - rewrite Hn in Hs. by apply StronglySorted_app_1_l in Hs.
  - intros k v [Hk He]%elem_of_omap_entries. split; [by apply Hin|]. by apply entry_at_Get; [apply Hall|].
  - intros k v Hk HG.
    assert (k ∈ seen ++ rest) as Hks
      by (rewrite <- Hn; apply elem_of_scan_names; split; [done|left; by eapply Get_Ok_indexed]).
    apply elem_of_app in Hks as [Hks|Hks].
    + left. apply elem_of_omap_entries. split; [done|]. by apply entry_at_Get; [apply Hall|].
    + right. destruct Hrest as [->|[Hl0 Hl]]; [by apply not_elem_of_nil in Hks|].
      split_and!; [done|apply N.le_antisymm; [apply Hlen; [done|lia]|done]|].
      intros k' v' [Hk' _]%elem_of_omap_entries. rewrite Hn in Hs. by eapply sorted_app_lt.
Qed.

(** ** The direct and the replicated commit *)

Lemma prepared_ok_valid s key version ops :
  version = kLegacyCommandVersion ∨ version = kCommandVersion →
  prepared_valid (prepared_ok s key version ops) = true.
Proof.
  intros Hv. unfold prepared_valid, prepared_ok, AppendRevisionMutationLocked. simpl.
  rewrite N.eqb_refl, (bool_decide_false (ops ++ _ = [])) by (by destruct ops).
  by destruct Hv as [-> | ->].
Qed.

Lemma prepared_ok_changes s key version ops : HasChanges (prepared_ok s key version ops) = true.
Proof.
  unfold HasChanges, prepared_ok, AppendRevisionMutationLocked. simpl.
  by rewrite (bool_decide_false (ops ++ _ = [])) by (by destruct ops).
Qed.

(** Applying a prepared batch outside Raft, when it ends with the revision of
    its key. *)
Lemma apply_prepared_ok now s key version ops upd :
  version = kLegacyCommandVersion ∨ version = kCommandVersion →
  (∀ s1, CurrentRevisionLocked s1 key = CurrentRevisionLocked s key →
     apply_metadata now s1 (ops ++ [PutOp (RevisionKey key) (to_string (CurrentRevisionLocked s key +₆₄ 1))]) =
     put_revision (upd s1) key (CurrentRevisionLocked s key +₆₄ 1)) →
  ApplyPrepared now s key (prepared_ok s key version ops) 0 =
    write_then s (ops ++ [PutOp (RevisionKey key) (to_string (CurrentRevisionLocked s key +₆₄ 1))])
      (λ s1, put_revision (upd s1) key (CurrentRevisionLocked s key +₆₄ 1)).
Proof.
  intros Hv Hupd. unfold ApplyPrepared, write_then. rewrite prepared_ok_valid by done.
  unfold prepared_ok, AppendRevisionMutationLocked, replayed, progress_op. simpl.
  rewrite N.eqb_refl, app_nil_r. simpl.
  destruct (kv_write_batch (engine_ s) _) as [[] e]; [|done]. simpl.
  rewrite Hupd by done. unfold CurrentRevisionLocked at 1. simpl.
  rewrite lookup_insert_eq. simpl. rewrite N.eqb_refl. done.
Qed.

(** The direct commit and the replicated one agree: [Commit] does what
    preparing the commit and applying the prepared command does, with the same
    status and the same store, for every key and every pair of timestamps. *)
Theorem Commit_replicated now s key startTs commitTs :
  fits64 startTs → fits64 commitTs →
  let p := PrepareCommit s key startTs commitTs in
  Commit s key startTs commitTs =
    if HasChanges p then ApplyPrepared now s key p 0 else (p_status p, s).
Proof.
  intros Hs Hc p. unfold p, PrepareCommit, Commit.
  destruct (commit_guard s key startTs commitTs) as [st|l].
  { unfold HasChanges. simpl. by rewrite andb_false_r. }
  rewrite prepared_ok_changes, (apply_prepared_ok now s key kLegacyCommandVersion _
    (λ s1, erase_lock (put_write s1 key commitTs (MkWrite startTs commitTs (commit_type l))) key));
    [done|by left|].
  intros s1 _. unfold commit_ops, apply_metadata. cbn [foldl app].
  rewrite metadata_write_put, metadata_lock_del, metadata_revision by (done || apply add64_fits).
  done.
Qed.

(** ** Status queries *)

(** The lock a status query may roll back. *)
Definition expired_lock s key (startTs cur : N) : bool :=
  match trs_state (InspectTxnStatusLocked s key startTs), trs_lock (InspectTxnStatusLocked s key startTs) with
  | RsLocked, Some l => hlc_expired l cur
  | _, _ => false
  end.

Lemma expired_lock_inv s key startTs cur :
  expired_lock s key startTs cur = true →
  ∃ l, locks_ s !! key = Some l ∧ lock_startTs l = startTs ∧ hlc_expired l cur = true ∧
       InspectTxnStatusLocked s key startTs = MkTxnRecordStatus RsLocked 0 (Some l) ∧
       find_write s key startTs = None.
Proof.
  unfold expired_lock, InspectTxnStatusLocked.
  destruct (find_write s key startTs) as [[c w]|] eqn:Hf; [by destruct (is_rollback w)|].
  destruct (locks_ s !! key) as [l|] eqn:Hl; [|done].
  destruct (lock_startTs l =? startTs)%N eqn:Hs; [|done]. simpl. reflect_bools. eauto 10.
Qed.

(** The store after the rollback a status query performs. *)
Lemma apply_expired_rollback now s key startTs :
  fits64 startTs → locked_by s key startTs = true →
  ApplyPrepared now s key (prepared_ok s key kCommandVersion (rollback_ops s key startTs)) 0 =
    write_then s (rollback_ops s key startTs ++
                  [PutOp (RevisionKey key) (to_string (CurrentRevisionLocked s key +₆₄ 1))])
      (λ s1, put_revision (put_write (erase_lock s1 key) key startTs (rollback_record startTs)) key
               (CurrentRevisionLocked s key +₆₄ 1)).
Proof.
  intros Hf Hl. rewrite (apply_prepared_ok now s key _ _
    (λ s1, put_write (erase_lock s1 key) key startTs (rollback_record startTs))); [done|by right|].
  intros s1 _. unfold rollback_ops, apply_metadata. rewrite Hl. cbn [foldl app].
  rewrite metadata_lock_del, metadata_data, metadata_write_put, metadata_revision
    by (done || apply add64_fits). done.
Qed.

(** [C32] A status query changes nothing unless it was asked to roll back and the
    transaction's lock on the primary carries an HLC expiry that has passed; a
    lock without such an expiry is never touched.  In that case it ends with the
    transaction rolled back and the lock gone, and reports so; the locks of other
    keys stay. *)
Theorem CheckTxnStatus_expiry now s key startTs cur rollbackIfExpired :
  accepting (E := E) → fits64 startTs →
  let '(st, record, s') := CheckTxnStatus now s key startTs cur rollbackIfExpired in
  st = StOk ∧
  if rollbackIfExpired && expired_lock s key startTs cur then
    (∃ l, locks_ s !! key = Some l ∧ lock_startTs l = startTs ∧ legacyExpiry l = false ∧
          (0 < expireAtPhysicalMs l ≤ cur)%N) ∧
    record = Some (MkTxnRecordStatus RsRolledBack 0 None) ∧
    InspectTxnStatusLocked s' key startTs = MkTxnRecordStatus RsRolledBack 0 None ∧
    locks_ s' = delete key (locks_ s)
  else record = Some (InspectTxnStatusLocked s key startTs) ∧ s' = s.
Proof.
  intros Hacc Hf. unfold CheckTxnStatus.
  destruct (rollbackIfExpired && expired_lock s key startTs cur) eqn:Hx.
  - apply andb_true_iff in Hx as [-> Hx].
    destruct (expired_lock_inv _ _ _ _ Hx) as (l & Hl & Hs & He & Hi & Hw).
    assert (PrepareCheckTxnStatus s key startTs cur true =
      with_record (MkTxnRecordStatus RsRolledBack 0 None)
        (prepared_ok s key kCommandVersion (rollback_ops s key startTs))) as ->.
    { unfold PrepareCheckTxnStatus, PrepareRollbackLocked. rewrite Hi. simpl. by rewrite He, Hw. }
    assert (∀ r p, HasChanges (with_record r p) = HasChanges p) as Hch by done.
    rewrite Hch, prepared_ok_changes. simpl.
    change (ApplyPrepared now s key (with_record ?r ?p) 0) with (ApplyPrepared now s key p 0).
    rewrite apply_expired_rollback by (done || unfold locked_by; rewrite Hl; by apply N.eqb_eq).
    unfold write_then. set (ops := rollback_ops _ _ _ ++ _). pose proof (Hacc (engine_ s) ops) as Hok.
    destruct (kv_write_batch (engine_ s) ops) as [ok e]. simpl in Hok. subst ok. simpl.
    unfold hlc_expired in He. reflect_bools. split_and!; [done| |done| |done].
    + exists l. split_and!; [done..|lia|done].
    + unfold InspectTxnStatusLocked. rewrite find_write_decision.
      assert (decision (<[startTs := rollback_record startTs]> (versions s key)) startTs =
                Some (startTs, rollback_record startTs)) as Hd.
      { rewrite find_write_decision, decision_None in Hw. apply decision_Some.
        split_and!; [by rewrite lookup_insert_eq|done|].
        intros c' w' [[<- _]|[_ Hc]]%lookup_insert_Some Hst; [done|]. by destruct (Hw _ _ Hc). }
      match goal with |- context [decision ?ws] =>
        replace ws with (<[startTs := rollback_record startTs]> (versions s key)) end; [by rewrite Hd|].
      unfold versions. simpl. by rewrite lookup_insert_eq.
  - assert (PrepareCheckTxnStatus s key startTs cur rollbackIfExpired =
      with_record (InspectTxnStatusLocked s key startTs)
        (prepared_stop s key kLegacyCommandVersion StOk)) as ->; [|done].
    unfold PrepareCheckTxnStatus, expired_lock in *. destruct rollbackIfExpired; [|done]. simpl in *.
    destruct (InspectTxnStatusLocked s key startTs) as [[] c [l|]]; try done. simpl in *. by rewrite Hx.
Qed.

(** ** Upgrading a pessimistic lock *)

(** A pessimistic lock cannot be upgraded over a version committed after its
    transaction started: whatever [forUpdateTs] the locking read used, and
    whichever one the prewrite carries, the prewrite of such a key is refused as
    a write conflict and changes nothing. *)
Theorem pessimistic_upgrade_conflicts s key value startTs ttl del fu now now2 l c w :
  locks_ s !! key = Some l → lock_startTs l = startTs → isPessimistic l = true →
  versions s key !! c = Some w → (startTs ≤ c)%N →
  let p := PreparePrewrite s key value (primaryKey l) startTs ttl del fu now now2 in
  p_status p = StWriteConflict ∧ HasChanges p = false.
Proof.
  intros Hl Hs Hp Hw Hc. unfold PreparePrewrite. rewrite Hl, Hs, N.eqb_refl, String.eqb_refl, Hp. simpl.
  do 3 (case_match; [done|]).
  assert (newest_at_least s key startTs = true) as ->; [|done].
  unfold newest_at_least. destruct (om_last_key (versions s key)) as [newest|] eqn:Hn.
  - apply N.leb_le. pose proof (om_last_key_max (versions s key) c w Hw) as (m & Hm & Hle).
    rewrite Hn in Hm. injection Hm as <-. lia.
  - pose proof (om_last_key_max (versions s key) c w Hw) as (m & Hm & _). congruence.
Qed.

(** What a read at the commit timestamp finds after a put was committed. *)
Lemma commit_reads s key l c s' :
  locks_ s !! key = Some l → isLockOnly l = false → isDelete l = false →
  Commit s key (lock_startTs l) c = (StOk, s') →
  Get s' key c = match kv_contents (engine_ s) !! DataKey key (lock_startTs l) with
                 | Some v => (StOk, Some v)
                 | None => (StStorageError, None)
                 end.
Proof.
  intros Hl Hlo Hdel HC. unfold Commit in HC.
  destruct (commit_guard s key (lock_startTs l) c) as [x|l'] eqn:Hg.
  { simplify_eq. revert Hg. unfold commit_guard. rewrite Hl. by repeat case_match. }
  assert (l' = l) as ->.
  { revert Hg. unfold commit_guard. rewrite Hl. repeat case_match; congruence. }
  unfold AppendRevisionMutationLocked, write_then in HC.
  set (ops := commit_ops key (lock_startTs l) c l ++ _) in HC.
  pose proof (kv_write_batch_spec (engine_ s) ops) as Hw.
  destruct (kv_write_batch _ ops) as [[] e]; [|done]. cbn [fst snd negb] in Hw, HC. injection HC as <-.
  assert (kv_contents e !! DataKey key (lock_startTs l) =
          kv_contents (engine_ s) !! DataKey key (lock_startTs l)) as Hd
    by (rewrite Hw, apply_ops_not_data; [done|repeat constructor]).
  rewrite Get_read. unfold lock_blocks. simpl. rewrite lookup_delete_eq.
  rewrite (ReadCommittedLocked_view _ (λ _, 0%N)). unfold kread.
  assert (visible (k_writes (view (put_revision (erase_lock (put_write (count_batch (set_engine s e))
    key c (MkWrite (lock_startTs l) c (commit_type l))) key) key
    (CurrentRevisionLocked s key +₆₄ 1)) (λ _, 0%N) key)) c =
    Some (c, MkWrite (lock_startTs l) c WPut)) as ->.
  { apply visible_Some. simpl. unfold versions at 1. simpl. rewrite lookup_insert_eq. simpl.
    unfold commit_type. rewrite Hlo, Hdel, lookup_insert_eq.
    split_and!; [done|by left|lia|]. intros c' w' _ _ Hle. done. }
  simpl. rewrite Hd. by destruct (kv_contents (engine_ s) !! _).
Qed.

(** The commit guards do not ask whether the lock was prewritten.  Committing
    a pessimistic lock for which no data was written succeeds and publishes a put
    whose data is missing: reads of the key at the commit timestamp then end in a
    storage error.  Callers have to prewrite first. *)
Theorem commit_unprewritten s key l c s' :
  locks_ s !! key = Some l → isPessimistic l = true → isLockOnly l = false → isDelete l = false →
  kv_contents (engine_ s) !! DataKey key (lock_startTs l) = None →
  Commit s key (lock_startTs l) c = (StOk, s') → Get s' key c = (StStorageError, None).
Proof. intros Hl _ Hlo Hdel Hv HC. by rewrite (commit_reads s key l c s'), Hv. Qed.

End queries.

(** ** Concrete stores *)

Module QueryDemo.

Definition store : Type := gmap string string.
Definition opened : t store := Open 0 ∅.

Lemma query_store_accepts : accepting (E := store).
Proof. done. Qed.

(** Transaction 1 has committed ["a"] and ["b"] at 2 and holds a lock on ["c"]. *)
Definition put1 (s : t store) (key value : string) : t store :=
  (Commit (Prewrite s key value "a" 1 1000 0 0 0).2 key 1 2).2.
Definition two_keys : t store := put1 (put1 opened "b" "2") "a" "1".
Definition with_lock : t store := (Prewrite two_keys "c" "3" "a" 1 1000 0 0 0).2.

Lemma Scan_exact_witness :
  Scan two_keys "a" EmptyString 5 1 [] = (StOk, [("a", "1")]) ∧ Get two_keys "a" 5 = (StOk, Some "1") ∧
  Scan with_lock "a" EmptyString 5 0 [] = (StLockConflict, []) ∧
  ∃ k, in_scan_range "a" EmptyString k = true ∧ Get with_lock k 5 = (StLockConflict, None).
Proof.
  split_and!; [vm_compute; reflexivity| |vm_compute; reflexivity|].
  - destruct (Scan_exact two_keys "a" EmptyString 5 1 StOk [("a", "1")]) as [(_ & _ & _ & H & _)|(? & _)];
      [by left|vm_compute; reflexivity| |done].
    apply (H "a" "1"). by left.
  - destruct (Scan_exact with_lock "a" EmptyString 5 0 StLockConflict []) as [(? & _)|(_ & _ & H)];
      [by left|vm_compute; reflexivity|done|exact H].
Defined.

Lemma Commit_replicated_witness :
  Commit with_lock "c" 1 3 =
  ApplyPrepared 9 with_lock "c" (PrepareCommit with_lock "c" 1 3) 0.
Proof.
  rewrite (Commit_replicated 9 with_lock "c" 1 3); [|done|done].
  replace (HasChanges (PrepareCommit with_lock "c" 1 3)) with true by (vm_compute; reflexivity).
  reflexivity.
Defined.

Lemma CheckTxnStatus_expiry_witness :
  (CheckTxnStatus 0 with_lock "c" 1 1000 true).1 =
    (StOk, Some (MkTxnRecordStatus RsRolledBack 0 None)) ∧
  (CheckTxnStatus 0 with_lock "c" 1 999 true).2 = with_lock.
Proof.
  pose proof (CheckTxnStatus_expiry 0 with_lock "c" 1 1000 true query_store_accepts ltac:(done)) as H1.
  pose proof (CheckTxnStatus_expiry 0 with_lock "c" 1 999 true query_store_accepts ltac:(done)) as H2.
  replace (true && expired_lock with_lock "c" 1 1000) with true in H1 by (vm_compute; reflexivity).
  replace (true && expired_lock with_lock "c" 1 999) with false in H2 by (vm_compute; reflexivity).
  destruct (CheckTxnStatus 0 with_lock "c" 1 1000 true) as [[st1 r1] s1], H1 as (-> & _ & -> & _).
  destruct (CheckTxnStatus 0 with_lock "c" 1 999 true) as [[st2 r2] s2], H2 as (_ & _ & ->).
  done.
Defined.

(** Transaction 3 commits ["k"] at 4; transaction 1 then locks it for update at 5. *)
Definition for_update : PessimisticLockResult * t store :=
  AcquirePessimisticLockForUpdate
    (Commit (Prewrite opened "k" "v" "k" 3 1000 0 0 0).2 "k" 3 4).2 "k" "k" 1 1000 5 9000 0.

Lemma pessimistic_upgrade_conflicts_witness :
  for_update.1 = MkPessimisticLockResult StOk true "v" 4 true ∧
  p_status (PreparePrewrite for_update.2 "k" "w" "k" 1 1000 false 5 0 0) = StWriteConflict.
Proof.
  split; [vm_compute; reflexivity|].
  refine (proj1 (pessimistic_upgrade_conflicts for_update.2 "k" "w" 1 1000 false 5 0 0
    (pessimistic_lock "k" 1 1000 0 5 9000) 4 (MkWrite 3 4 WPut) _ _ _ _ _));
    try (vm_compute; reflexivity). vm_compute. discriminate.
Defined.

Definition only_locked : t store := (AcquirePessimisticLock opened "k" "k" 1 1000 1 9000 0).2.

Lemma commit_unprewritten_witness :
  Get (Commit only_locked "k" 1 2).2 "k" 2 = (StStorageError, None).
Proof.
  apply (commit_unprewritten only_locked "k" (pessimistic_lock "k" 1 1000 0 1 9000) 2);
    vm_compute; reflexivity.
Defined.

End QueryDemo.
