(* ===== verification/MvccBatch.v ===== *)
(** * Prewriting several keys

    A batch prewrite places every lock of the transaction or none: the prepared
    batch has an item per key, in ascending key order, and is applied in one
    engine batch. *)

From S2P Require Import Prelude KvEngine MvccTypes Codec Hlc Mvcc MvccSpec MvccRefine MvccRecover MvccWorld MvccApply MvccQuery.
Import MvccStorage.

Section batch.
Context {E : Type} `{!KVEngine E}.
Implicit Types (s : t E) (key pk : string).

(** The arguments of one batch. *)
Context (pk : string) (startTs ttl fu now now2 : N).
Context (Hpk : fits_mem pk) (Hstart : fits64 startTs) (Httl : fits64 ttl) (Hfu : fits64 fu)
  (Hnow : fits64 now).

(** The lock of a prewritten key of the transaction. *)
Definition prewritten (l : MvccLock) : Prop :=
  lock_startTs l = startTs ∧ primaryKey l = pk ∧ isPessimistic l = false.

(** A key that is already prewritten, or a batch that installs its lock. *)
Inductive prewrite_item s key : PreparedMvccWrite → Prop :=
| ItemDone version l :
    locks_ s !! key = Some l → prewritten l → prewrite_item s key (prepared_stop s key version StOk)
| ItemLocks version pre l :
    version = kLegacyCommandVersion ∨ version = kCommandVersion →
    pre = [] ∨ (∃ v ts del, pre = [data_op key v ts del]) → lock_fits l → prewritten (persisted_lock l) →
    prewrite_item s key (prepared_ok s key version (pre ++ [PutOp (LockKey key) (EncodeLockValue l)])).

Lemma PreparePrewrite_item s key value del :
  mem_ok s → p_status (PreparePrewrite s key value pk startTs ttl del fu now now2) = StOk →
  prewrite_item s key (PreparePrewrite s key value pk startTs ttl del fu now now2).
Proof using Hpk Hstart Httl Hfu Hnow.
  intros Hm. unfold PreparePrewrite.
  destruct (locks_ s !! key) as [l0|] eqn:Hk.
  - destruct (negb (lock_startTs l0 =? startTs)%N) eqn:H1; [done|].
    destruct (negb (String.eqb (primaryKey l0) pk)) eqn:H2; [done|].
    destruct (negb (isPessimistic l0)) eqn:H3.
    { intros _. reflect_bools. by apply (ItemDone _ _ _ l0). }
    repeat (case_match; [done|]). intros _.
    apply (ItemLocks _ _ _ [data_op key value startTs del]); [by left|right; eauto| |done].
    apply prewrite_lock_fits; try done. intros l [= <-]. by apply (Hm key).
  - repeat (case_match; [done|]). intros _.
    apply (ItemLocks _ _ _ [data_op key value startTs del]); [by left|right; eauto| |done].
    by apply prewrite_lock_fits.
Qed.

Lemma PreparePrewriteLock_item s key :
  mem_ok s → p_status (PreparePrewriteLock s key pk startTs ttl fu) = StOk →
  prewrite_item s key (PreparePrewriteLock s key pk startTs ttl fu).
Proof using Httl.
  intros Hm. unfold PreparePrewriteLock. destruct (locks_ s !! key) as [l0|] eqn:Hk; [|done].
  destruct (negb (lock_startTs l0 =? startTs)%N || _) eqn:H1; [done|].
  destruct (negb (isPessimistic l0)) eqn:H3.
  { destruct (isLockOnly l0); [|done]. intros _. reflect_bools. by apply (ItemDone _ _ _ l0). }
  case_match; [done|]. intros _. reflect_bools.
  apply (ItemLocks _ _ _ []); [by right|by left| |done].
  destruct (Hm key l0 Hk) as [(? & ? & ? & ? & ? & ?) _]. by split_and!.
Qed.

(** ** Applying the items *)

Definition good_items s (items : list PreparedMvccBatchItem) : Prop :=
  ∀ i, i ∈ items → prewrite_item s (item_key i) (item_prepared i).

Lemma item_applies s s1 key p :
  prewrite_item s key p → modifications p ≠ [] →
  ∃ l, prewritten l ∧ apply_metadata now s1 (modifications p) =
       put_revision (put_lock s1 key l) key (newRevision p).
Proof.
  intros [version l Hk Hl|version pre l _ Hpre Hf Hl] Hne; [done|]. exists (persisted_lock l).
  split; [done|]. unfold prepared_ok, AppendRevisionMutationLocked. simpl.
  assert (apply_metadata now s1 pre = s1) as Hpre1
    by (destruct Hpre as [->|(v & ts & [] & ->)]; reflexivity).
  rewrite !apply_metadata_app, Hpre1. unfold apply_metadata. cbn [foldl].
  by rewrite metadata_lock_put, metadata_revision by (done || apply add64_fits).
Qed.

Lemma items_apply_loop s s1 items :
  good_items s items → NoDup (item_key <$> items) →
  (∀ i, i ∈ items → locks_ s1 !! item_key i = locks_ s !! item_key i) →
  ∃ s2, batch_apply_loop now s1 items = inr s2 ∧ writes_ s2 = writes_ s1 ∧
    (∀ i, i ∈ items → ∃ l, locks_ s2 !! item_key i = Some l ∧ prewritten l) ∧
    (∀ k, k ∉ item_key <$> items → locks_ s2 !! k = locks_ s1 !! k).
Proof.
  revert s1. induction items as [|i items IH]; intros s1 Hgood Hnd Hs1; simpl.
  { exists s1. split_and!; [done..|set_solver|done]. }
  apply NoDup_cons in Hnd as [Hni Hnd].
  assert (prewrite_item s (item_key i) (item_prepared i)) as Hi by (apply Hgood; by left).
  assert (∃ l s1', prewritten l ∧ locks_ s1' = <[item_key i := l]> (locks_ s1) ∧
    writes_ s1' = writes_ s1 ∧ apply_metadata now s1 (modifications (item_prepared i)) = s1' ∧
    negb (bool_decide (modifications (item_prepared i) = [])) &&
    negb (CurrentRevisionLocked s1' (item_key i) =? newRevision (item_prepared i))%N = false) as
    (l & s1' & Hl & Hlocks & Hw & -> & ->).
  { case_bool_decide as Hm.
    - rewrite Hm. destruct Hi as [version l Hk Hl|version pre l _ _ _ _];
        [|simpl in Hm; by destruct pre]. exists l, s1. split_and!; try done.
      rewrite insert_id; [done|]. rewrite Hs1; [done|by left].
    - destruct (item_applies s s1 _ _ Hi Hm) as (l & Hl & Heq). eexists l, _. split_and!; [done|..|exact Heq|].
      + done.
      + done.
      + unfold CurrentRevisionLocked. simpl. by rewrite lookup_insert_eq, N.eqb_refl. }
  destruct (IH s1') as (s2 & -> & Hw2 & Hin & Hout); [set_solver|done|..].
  { intros j Hj. rewrite Hlocks, lookup_insert_ne; [apply Hs1; by right|].
    intros Heq. apply Hni. rewrite Heq. apply list_elem_of_fmap. eauto. }
  exists s2. split_and!; [done|congruence|..].
  - intros j [->|Hj]%elem_of_cons; [|by apply Hin].
    exists l. by rewrite Hout, Hlocks, lookup_insert_eq.
  - intros k [Hk Hk']%not_elem_of_cons. by rewrite Hout, Hlocks, lookup_insert_ne.
Qed.

(** ** The prepared batch *)

Definition prepare_mutation s (m : MvccMutation) : PreparedMvccWrite :=
  if mut_isLockOnly m then PreparePrewriteLock s (mut_key m) pk startTs ttl fu
  else PreparePrewrite s (mut_key m) (mut_value m) pk startTs ttl (mut_isDelete m) fu now now2.

Lemma batch_prewrite_loop_spec s previous items ordered :
  let b := batch_prewrite_loop s pk startTs ttl fu now now2 previous items ordered in
  b_commandVersion b = kBatchCommandVersion ∧
  (b_status b = StOk →
    b_items b = items ++ ((λ m, MkItem (mut_key m) (prepare_mutation s m)) <$> ordered) ∧
    (∀ m, m ∈ ordered → mut_key m ≠ EmptyString ∧ p_status (prepare_mutation s m) = StOk) ∧
    (StronglySorted (str_le_on mut_key) ordered →
     StronglySorted (λ x y, str_lt (mut_key x) (mut_key y)) ordered ∧
     ∀ prev m, previous = Some prev → m ∈ ordered → str_leb prev (mut_key m) = true →
       head ordered = Some m → str_lt prev (mut_key m))).
Proof.
  revert previous items. induction ordered as [|m rest IH]; intros previous items; simpl.
  { split; [done|]. intros _. rewrite app_nil_r. split_and!; [done|set_solver|]. intros _.
    split; [constructor|set_solver]. }
  destruct (String.eqb (mut_key m) EmptyString || _) eqn:Hg; [done|]. reflect_bools.
  fold (prepare_mutation s m). case_bool_decide as Hst; [|done]. simpl.
  destruct (IH (Some (mut_key m)) (items ++ [MkItem (mut_key m) (prepare_mutation s m)])) as [Hv Hok].
  split; [done|]. intros Hb. destruct (Hok Hb) as (-> & Hall & Hsort).
  split_and!; [by rewrite <- app_assoc|intros m' [->|Hm']%elem_of_cons; [done|by apply Hall]|].
  intros [Hs Hm]%StronglySorted_inv. destruct (Hsort Hs) as [Hss Hhd]. split.
  - constructor; [done|]. destruct rest as [|m2 rest]; [constructor|].
    apply Forall_cons in Hm as [Hm2 _].
    assert (str_lt (mut_key m) (mut_key m2)) as Hlt by (apply (Hhd _ m2); [done|by left|done..]).
    constructor; [done|]. apply StronglySorted_inv in Hss as [_ Hm2r].
    eapply Forall_impl; [exact Hm2r|]. intros m3 Hm3. by eapply str_ltb_trans.
  - intros prev m' Hprev _ Hle [= <-]. destruct (str_leb_lt_or_eq _ _ Hle); [|done].
    subst. match goal with Hx : Some _ ≠ Some _ |- _ => by destruct Hx end.
Qed.

Lemma good_items_collect s prev items :
  good_items s items → StronglySorted (λ x y, str_lt (item_key x) (item_key y)) items →
  (∀ i, i ∈ items → item_key i ≠ EmptyString ∧ (prev = EmptyString ∨ str_lt prev (item_key i))) →
  batch_collect s prev items = Some (mjoin (item_mods <$> items)).
Proof.
  revert prev. induction items as [|i items IH]; intros prev Hgood Hs Hkeys; [done|]. simpl.
  apply StronglySorted_inv in Hs as [Hs Hi]. rewrite Forall_forall in Hi.
  rewrite IH; [|set_solver|done|intros j Hj; split; [apply Hkeys; by right|right; by apply Hi]].
  destruct (Hkeys i ltac:(by left)) as [Hne Hprev]. unfold item_guard.
  rewrite (proj2 (String.eqb_neq _ _) Hne). simpl.
  assert (negb (String.eqb prev EmptyString) && str_leb (item_key i) prev = false) as ->.
  { destruct Hprev as [->|Hlt]; [done|]. unfold str_lt in Hlt. rewrite str_ltb_leb in Hlt.
    by rewrite (proj1 (negb_true_iff _) Hlt), andb_false_r. }
  pose proof (Hgood i ltac:(by left)) as Hitem. unfold item_mods at 2. destruct i as [key p].
  simpl in *. destruct Hitem as [version l Hk Hl|version pre l Hv Hpre Hf Hl].
  - done.
  - unfold prepared_ok, AppendRevisionMutationLocked. simpl.
    rewrite bool_decide_false by (by destruct pre). by rewrite !N.eqb_refl.
Qed.

Lemma sorted_fmap_items s ordered :
  StronglySorted (λ x y, str_lt (mut_key x) (mut_key y)) ordered →
  StronglySorted (λ x y, str_lt (item_key x) (item_key y))
    ((λ m, MkItem (mut_key m) (prepare_mutation s m)) <$> ordered).
Proof.
  induction 1 as [|m l Hs IH Hm]; simpl; constructor; [done|]. by apply Forall_fmap.
Qed.

Lemma items_keys s (ordered : list MvccMutation) :
  item_key <$> ((λ m, MkItem (mut_key m) (prepare_mutation s m)) <$> ordered) = mut_key <$> ordered.
Proof. rewrite <- list_fmap_compose. done. Qed.

Lemma sorted_keys_NoDup (l : list MvccMutation) :
  StronglySorted (λ x y, str_lt (mut_key x) (mut_key y)) l → NoDup (mut_key <$> l).
Proof.
  induction 1 as [|m l Hs IH Hm]; simpl; constructor; [|done].
  intros (m' & Heq & Hm')%list_elem_of_fmap. rewrite Forall_forall in Hm. specialize (Hm m' Hm').
  unfold str_lt in Hm. by rewrite Heq, str_ltb_irrefl in Hm.
Qed.

Lemma PrepareBatchPrewrite_items s mutations :
  mem_ok s →
  let b := PrepareBatchPrewrite s mutations pk startTs ttl fu now now2 in
  b_status b = StOk →
  batch_valid b = true ∧ good_items s (b_items b) ∧ NoDup (item_key <$> b_items b) ∧
  batch_collect s EmptyString (b_items b) = Some (mjoin (item_mods <$> b_items b)) ∧
  (∀ k, k ∈ item_key <$> b_items b ↔ k ∈ mut_key <$> mutations).
Proof using Hpk Hstart Httl Hfu Hnow.
  intros Hm b. unfold b, PrepareBatchPrewrite. clear b.
  assert (StronglySorted (str_le_on mut_key) (sort_mutations mutations)) as Hsort
    by apply (StronglySorted_merge_sort (str_le_on mut_key)).
  assert (sort_mutations mutations ≡ₚ mutations) as Hperm by apply merge_sort_Permutation.
  destruct (sort_mutations mutations) as [|m0 rest] eqn:Ho; [done|].
  set (ordered := m0 :: rest) in *. assert (ordered ≠ []) as Hne by done. clearbody ordered.
  destruct (batch_prewrite_loop_spec s None [] ordered) as [Hv Hok]. intros Hst.
  destruct (Hok Hst) as (Hitems & Hall & Hs). destruct (Hs Hsort) as [Hss _]. simpl in Hitems.
  assert (good_items s (b_items (batch_prewrite_loop s pk startTs ttl fu now now2 None [] ordered))) as Hgood.
  { rewrite Hitems. intros i (m & -> & Hin)%list_elem_of_fmap. destruct (Hall m Hin) as [_ Hp].
    unfold prepare_mutation in *. simpl. destruct (mut_isLockOnly m);
      [by apply PreparePrewriteLock_item|by apply PreparePrewrite_item]. }
  split_and!; [|done|..].
  - unfold batch_valid. rewrite Hv, Hst, Hitems, length_fmap. by destruct ordered.
  - rewrite Hitems, items_keys. by apply sorted_keys_NoDup.
  - apply good_items_collect; [done|rewrite Hitems; by apply sorted_fmap_items|].
    rewrite Hitems. intros i (m & -> & Hin)%list_elem_of_fmap. split; [by apply Hall|by left].
  - intros k. rewrite Hitems, items_keys. by rewrite Hperm.
Qed.

Lemma item_without_changes s key p :
  prewrite_item s key p → HasChanges p = false → ∃ l, locks_ s !! key = Some l ∧ prewritten l.
Proof. intros [version l|version pre l] Hc; [eauto|]. by rewrite prepared_ok_changes in Hc. Qed.

Lemma batch_changes_nonempty b :
  BatchHasChanges b = true → mjoin (item_mods <$> b_items b) ≠ [].
Proof.
  intros Hch Hnil. unfold BatchHasChanges in Hch. apply andb_true_iff in Hch as [_ Hch].
  apply existsb_exists in Hch as (i & Hi%list_elem_of_In & Hc).
  unfold HasChanges in Hc. apply andb_true_iff in Hc as [_ Hc]. reflect_bools. apply Hc.
  destruct (modifications (item_prepared i)) as [|o os] eqn:Ho; [done|].
  assert (o ∈ mjoin (item_mods <$> b_items b)) as Hin.
  { apply list_elem_of_join. exists (item_mods i). split; [unfold item_mods; rewrite Ho; by left|].
    apply list_elem_of_fmap. eauto. }
  rewrite Hnil in Hin. by apply not_elem_of_nil in Hin.
Qed.

(** [C25] A batch prewrite is all or nothing: either every key of the mutations
    ends locked by the transaction, with its primary and past the pessimistic
    phase, no other lock and no committed record changes and the status is [Ok];
    or the status says why not and the store is unchanged. *)
Theorem BatchPrewrite_atomic s mutations :
  accepting (E := E) → mem_ok s →
  let '(st, s') := BatchPrewrite s mutations pk startTs ttl fu now now2 in
  (st = StOk ∧ writes_ s' = writes_ s ∧
   (∀ k, k ∈ mut_key <$> mutations → ∃ l, locks_ s' !! k = Some l ∧ prewritten l) ∧
   (∀ k, k ∉ mut_key <$> mutations → locks_ s' !! k = locks_ s !! k)) ∨
  (st ≠ StOk ∧ s' = s).
Proof using Hpk Hstart Httl Hfu Hnow.
  intros Hacc Hm. unfold BatchPrewrite, apply_batch_if_changed.
  pose proof (PrepareBatchPrewrite_items s mutations Hm) as Hb.
  set (b := PrepareBatchPrewrite s mutations pk startTs ttl fu now now2) in *. clearbody b. simpl in Hb.
  case_bool_decide as Hst; [|by right]. destruct (Hb Hst) as (Hval & Hgood & Hnd & Hcol & Hkeys).
  assert (∀ (P : string → Prop), (∀ i, i ∈ b_items b → P (item_key i)) →
            ∀ k, k ∈ mut_key <$> mutations → P k) as Hall.
  { intros P HP k Hk. apply Hkeys in Hk as (i & -> & Hi)%list_elem_of_fmap. by apply HP. }
  destruct (BatchHasChanges b) eqn:Hch; simpl.
  - pose proof (batch_changes_nonempty b Hch) as Hne.
    unfold ApplyPreparedBatch, replayed. rewrite Hval, Hcol. unfold progress_op. simpl.
    rewrite app_nil_r, bool_decide_false by done. set (ops := mjoin _) in *.
    pose proof (Hacc (engine_ s) ops) as Hok. destruct (kv_write_batch (engine_ s) ops) as [ok e].
    simpl in Hok. subst ok. simpl.
    destruct (items_apply_loop s (count_batch (set_engine s e)) (b_items b) Hgood Hnd ltac:(done))
      as (s2 & -> & Hw & Hin & Hout). left. split_and!; [done|done|by apply Hall|].
    intros k Hk. apply Hout. by rewrite Hkeys.
  - left. rewrite Hst. split_and!; [done..|apply Hall|done]. intros i Hi.
    eapply item_without_changes; [by apply Hgood|]. unfold BatchHasChanges in Hch. rewrite Hst in Hch.
    destruct (HasChanges (item_prepared i)) eqn:Hc; [|done]. simpl in Hch.
    apply not_true_iff_false in Hch. destruct Hch. apply existsb_exists. exists i.
    by rewrite <- list_elem_of_In.
Qed.

End batch.

Module BatchDemo.
Import QueryDemo.

Definition two : list MvccMutation := [MkMutation "y" "2" false false; MkMutation "x" "1" false false].

Lemma opened_ok : mem_ok opened.
Proof. intros key l Hl. change (locks_ opened) with (∅ : gmap string MvccLock) in Hl. done. Qed.

Lemma BatchPrewrite_atomic_witness :
  (BatchPrewrite opened two "x" 7 1000 0 0 0).1 = StOk ∧
  ∃ l, locks_ (BatchPrewrite opened two "x" 7 1000 0 0 0).2 !! "y" = Some l ∧ prewritten "x" 7 l.
Proof.
  pose proof (BatchPrewrite_atomic (E := store) "x" 7 1000 0 0 0 ltac:(by vm_compute) ltac:(done) ltac:(done) ltac:(done)
    ltac:(done) opened two query_store_accepts opened_ok) as H.
  assert ((BatchPrewrite opened two "x" 7 1000 0 0 0).1 = StOk) as Hok by (vm_compute; reflexivity).
  revert H Hok. generalize (BatchPrewrite opened two "x" 7 1000 0 0 0). intros [st s'] H Hok.
  simpl in Hok. subst st. split; [reflexivity|]. destruct H as [(_ & _ & H & _)|[H _]]; [|by destruct H].
  apply H. apply elem_of_cons. left. reflexivity.
Defined.

End BatchDemo.
