(* ===== verification/MvccSafety.v ===== *)
(** * Guarantees of the transaction layer over all runs

    A world is a store together with the commands its leader has prepared and
    not yet applied, the last timestamp the oracle has issued, and the largest
    safe point handed to the collector.  Clients prepare commands, Raft applies
    prepared commands in any order and any number of times, direct operations,
    collections and restarts happen in between.

    What is assumed of the clients is written into [request] and [direct]: a
    timestamp is either a start or a commit timestamp, a commit is issued for a
    prewritten lock with a timestamp allocated after the lock was placed,
    integers have 64 bits and strings fit in memory.  A step also needs the
    revision counters not to be at their maximum ([room]), and a restart the
    engine to perform the deletions of recovery ([finished_deleted]). *)

From S2P Require Import Prelude KvEngine MvccTypes Codec Hlc Mvcc MvccSpec MvccRefine MvccRecover MvccWorld MvccQuery.
Import MvccStorage.

Section worlds.
Context {E : Type} `{!KVEngine E}.
Context (is_start : N → bool).
Context (start_pos : ∀ ts, is_start ts = true → ts ≠ 0%N).
Implicit Types (s : t E) (key : string) (time : string → N).

Record world := MkWorld {
  w_st : t E;
  w_time : string → N;
  w_tso : N;
  w_safe : N;
  w_pool : list (string * PreparedMvccWrite)
}.

(** A start timestamp and the arguments of a lock. *)
Definition start_ok (startTs : N) : Prop := is_start startTs = true ∧ fits64 startTs.

Definition lock_args_ok (pk : string) (ttl fu now : N) : Prop :=
  fits_mem pk ∧ fits64 ttl ∧ fits64 fu ∧ fits64 now.

(** A commit of [key] respects the protocol: its timestamp is not a start
    timestamp, and the transaction's lock, if the key has one, was prewritten
    and placed before the timestamp was issued. *)
Definition commit_ok s time key (startTs commitTs : N) : Prop :=
  fits64 commitTs ∧ is_start commitTs = false ∧ prewritten_before s time key startTs commitTs.

(** What the leader prepares for its clients. *)
Inductive request s time : string → PreparedMvccWrite → Prop :=
| RqPrewrite key value pk startTs ttl del fu now now2 :
    start_ok startTs → lock_args_ok pk ttl fu now →
    request s time key (PreparePrewrite s key value pk startTs ttl del fu now now2)
| RqPessimisticLock key pk startTs ttl fu expireAt now :
    start_ok startTs → lock_args_ok pk ttl fu now → fits64 expireAt →
    request s time key (PreparePessimisticLock s key pk startTs ttl fu expireAt now)
| RqPrewriteLock key pk startTs ttl fu :
    start_ok startTs → fits64 ttl →
    request s time key (PreparePrewriteLock s key pk startTs ttl fu)
| RqCommit key startTs commitTs :
    start_ok startTs → commit_ok s time key startTs commitTs →
    request s time key (PrepareCommit s key startTs commitTs)
| RqRollback key startTs :
    start_ok startTs → request s time key (PrepareRollback s key startTs)
| RqCheckTxnStatus key startTs currentMs rollbackIfExpired :
    start_ok startTs →
    request s time key (PrepareCheckTxnStatus s key startTs currentMs rollbackIfExpired)
| RqResolveLock key startTs decision commitTs :
    start_ok startTs → fits64 commitTs →
    (decision = RsCommitted → commit_ok s time key startTs commitTs) →
    request s time key (PrepareResolveLock s key startTs decision commitTs)
| RqBatchPrewrite mutations pk startTs ttl fu now now2 i :
    start_ok startTs → lock_args_ok pk ttl fu now →
    i ∈ b_items (PrepareBatchPrewrite s mutations pk startTs ttl fu now now2) →
    request s time (item_key i) (item_prepared i)
| RqBatchCommit keys startTs commitTs i :
    start_ok startTs → (∀ key, key ∈ keys → commit_ok s time key startTs commitTs) →
    i ∈ b_items (PrepareBatchCommit s keys startTs commitTs) →
    request s time (item_key i) (item_prepared i)
| RqBatchRollback keys startTs i :
    start_ok startTs → i ∈ b_items (PrepareBatchRollback s keys startTs) →
    request s time (item_key i) (item_prepared i).

(** What kind of action an operation may perform on which keys. *)
Definition at_key key (P : kaction → Prop) : string → kaction → Prop := λ k a, k = key ∧ P a.
Definition at_keys (keys : list string) (P : string → kaction → Prop) : string → kaction → Prop :=
  λ k a, k ∈ keys ∧ P k a.

Definition resolving (decision : TxnRecordState) (startTs commitTs : N) (a : kaction) : Prop :=
  (decision = RsCommitted ∧ a = ACommit startTs commitTs) ∨
  (decision = RsRolledBack ∧ a = ARollback startTs).

(** Operations that prepare and apply in one call, or write directly, with the
    actions they may perform. *)
Inductive direct s time : (string → kaction → Prop) → t E → Prop :=
| DiPrewrite key value pk startTs ttl fu now now2 :
    start_ok startTs → lock_args_ok pk ttl fu now →
    direct s time (at_key key (locking (locks_ s !! key) startTs pk false fu))
      (Prewrite s key value pk startTs ttl fu now now2).2
| DiPrewriteDelete key pk startTs ttl fu now now2 :
    start_ok startTs → lock_args_ok pk ttl fu now →
    direct s time (at_key key (locking (locks_ s !! key) startTs pk false fu))
      (PrewriteDelete s key pk startTs ttl fu now now2).2
| DiAcquirePessimisticLock key pk startTs ttl fu expireAt now :
    start_ok startTs → lock_args_ok pk ttl fu now → fits64 expireAt →
    direct s time (at_key key (locking (locks_ s !! key) startTs pk true fu))
      (AcquirePessimisticLock s key pk startTs ttl fu expireAt now).2
| DiAcquireForUpdate key pk startTs ttl fu expireAt now :
    start_ok startTs → lock_args_ok pk ttl fu now → fits64 expireAt →
    direct s time (at_key key (locking (locks_ s !! key) startTs pk true fu))
      (AcquirePessimisticLockForUpdate s key pk startTs ttl fu expireAt now).2
| DiPrewriteLock now key pk startTs ttl fu :
    start_ok startTs → fits64 ttl →
    direct s time (at_key key (locking (locks_ s !! key) startTs pk false fu))
      (PrewriteLock now s key pk startTs ttl fu).2
| DiCommit key startTs commitTs :
    start_ok startTs → commit_ok s time key startTs commitTs →
    direct s time (at_key key (λ a, a = ACommit startTs commitTs)) (Commit s key startTs commitTs).2
| DiRollback key startTs :
    start_ok startTs →
    direct s time (at_key key (λ a, a = ARollback startTs)) (Rollback s key startTs).2
| DiCheckTxnStatus now key startTs currentMs rollbackIfExpired :
    start_ok startTs →
    direct s time (at_key key (λ a, a = ARollback startTs))
      (CheckTxnStatus now s key startTs currentMs rollbackIfExpired).2
| DiResolveLock now key startTs decision commitTs :
    start_ok startTs → fits64 commitTs →
    (decision = RsCommitted → commit_ok s time key startTs commitTs) →
    direct s time (at_key key (resolving decision startTs commitTs))
      (ResolveLock now s key startTs decision commitTs).2
| DiBatchPrewrite mutations pk startTs ttl fu now now2 :
    start_ok startTs → lock_args_ok pk ttl fu now →
    direct s time (at_keys (mut_key <$> mutations)
                     (λ key, locking (locks_ s !! key) startTs pk false fu))
      (BatchPrewrite s mutations pk startTs ttl fu now now2).2
| DiBatchCommit now keys startTs commitTs :
    start_ok startTs → (∀ key, key ∈ keys → commit_ok s time key startTs commitTs) →
    direct s time (at_keys keys (λ _ a, a = ACommit startTs commitTs))
      (BatchCommit now s keys startTs commitTs).2
| DiBatchRollback now keys startTs :
    start_ok startTs →
    direct s time (at_keys keys (λ _ a, a = ARollback startTs)) (BatchRollback now s keys startTs).2.

(** No revision counter is at its maximum. *)
Definition room s : Prop := ∀ key, (CurrentRevisionLocked s key < u64_max)%N.

Definition advance (w : world) s' : world :=
  MkWorld s' (time_obs (w_tso w) (w_st w) s' (w_time w)) (w_tso w) (w_safe w) (w_pool w).

Inductive wstep : world → world → Prop :=
| WTick w tso :
    (w_tso w ≤ tso)%N → wstep w (MkWorld (w_st w) (w_time w) tso (w_safe w) (w_pool w))
| WPrepare w key p :
    request (w_st w) (w_time w) key p →
    wstep w (MkWorld (w_st w) (w_time w) (w_tso w) (w_safe w) ((key, p) :: w_pool w))
| WApply w now key p index :
    (key, p) ∈ w_pool w → room (w_st w) →
    wstep w (advance w (ApplyPrepared now (w_st w) key p index).2)
| WApplyBatch w now b index :
    (∀ i, i ∈ b_items b → (item_key i, item_prepared i) ∈ w_pool w) → room (w_st w) →
    wstep w (advance w (ApplyPreparedBatch now (w_st w) b index).2)
| WDirect w P s' :
    direct (w_st w) (w_time w) P s' → room (w_st w) → wstep w (advance w s')
| WCollect w sp :
    room (w_st w) →
    let s' := (GarbageCollect (w_st w) sp).2 in
    wstep w (MkWorld s' (time_obs (w_tso w) (w_st w) s' (w_time w)) (w_tso w)
               (N.max (w_safe w) sp) (w_pool w))
| WRestart w now :
    let s' := Open now (engine_ (w_st w)) in
    finished_deleted (w_st w) (kv_contents (engine_ s')) → wstep w (advance w s').

Definition wsteps : relation world := rtc wstep.

(** A store just opened on an empty engine. *)
Definition initial (w : world) : Prop :=
  ∃ now e, kv_contents e = ∅ ∧ w_st w = Open now e ∧ w_pool w = [] ∧ w_safe w = 0%N ∧
    ∀ key, w_time w key = 0%N.

Definition reachable (w : world) : Prop := ∃ w0, initial w0 ∧ wsteps w0 w.

Record winv (w : world) : Prop := MkWinv {
  wi_mem : mem_ok (w_st w);
  wi_step : in_step (w_st w);
  wi_key : ∀ key, kinv is_start (view (w_st w) (w_time w) key);
  wi_pool : ∀ key p, (key, p) ∈ w_pool w → HasChanges p = true →
    (expectedRevision p < CurrentRevisionLocked (w_st w) key)%N ∨
    ∃ a, performs is_start (w_st w) (w_time w) key p a
}.

(** ** Requests are sound *)

Lemma unique_adjacent_elem l k : k ∈ unique_adjacent l → k ∈ l.
Proof.
  induction l as [|a [|b l] IH]; [done|done|]. simpl. case_match.
  - intros Hk%IH. set_solver.
  - intros [->|Hk%IH]%elem_of_cons; set_solver.
Qed.

Lemma batch_keys_items prepare items ordered i :
  i ∈ b_items (batch_keys_loop prepare items ordered) →
  i ∈ items ∨ (item_key i ∈ ordered ∧ item_prepared i = prepare (item_key i)).
Proof.
  revert items. induction ordered as [|key ordered IH]; intros items; simpl; [by left|].
  case_match; [simpl; set_solver|]. intros [Hi|[Hk Hp]]%IH; [|set_solver].
  apply elem_of_app in Hi as [Hi|Hi%list_elem_of_singleton]; [by left|]. subst. set_solver.
Qed.

Lemma batch_prewrite_items s pk startTs ttl fu now now2 prev items ordered i :
  i ∈ b_items (batch_prewrite_loop s pk startTs ttl fu now now2 prev items ordered) →
  i ∈ items ∨ (item_key i ∈ mut_key <$> ordered ∧
    (item_prepared i = PreparePrewriteLock s (item_key i) pk startTs ttl fu ∨
     ∃ value del, item_prepared i = PreparePrewrite s (item_key i) value pk startTs ttl del fu now now2)).
Proof.
  revert prev items. induction ordered as [|m ordered IH]; intros prev items; simpl; [by left|].
  case_match; [by left|].
  destruct (mut_isLockOnly m);
    (case_match; [by intros ?%not_elem_of_nil|]); intros [Hi|[Hk Hi]]%IH;
    try (right; split; [by apply list_elem_of_further|done]);
    (apply elem_of_app in Hi as [Hi|Hi%list_elem_of_singleton]; [by left|]); subst; simpl;
    right; (split; [by apply list_elem_of_here|eauto]).
Qed.

Lemma ordered_keys keys k : k ∈ unique_adjacent (sort_names keys) → k ∈ keys.
Proof. intros Hk%unique_adjacent_elem. unfold sort_names in Hk. by rewrite merge_sort_Permutation in Hk. Qed.

Lemma sound_BatchPrewrite s time mutations pk startTs ttl fu now now2 i :
  mem_ok s → start_ok startTs → lock_args_ok pk ttl fu now →
  i ∈ b_items (PrepareBatchPrewrite s mutations pk startTs ttl fu now now2) →
  item_key i ∈ mut_key <$> mutations ∧
  sound is_start (locking (locks_ s !! item_key i) startTs pk false fu) s time
    (item_key i) (item_prepared i).
Proof using start_pos.
  intros Hm [Hs Hf] (H1 & H2 & H3 & H4) Hi. unfold PrepareBatchPrewrite in Hi.
  destruct (sort_mutations mutations) as [|m ms] eqn:Ho; [by apply not_elem_of_nil in Hi|].
  apply batch_prewrite_items in Hi as [Hi|[Hk Hi]]; [by apply not_elem_of_nil in Hi|].
  rewrite <- Ho in Hk. unfold sort_mutations in Hk. rewrite merge_sort_Permutation in Hk.
  split; [done|]. destruct Hi as [->|(v & del & ->)].
  - by apply sound_PreparePrewriteLock.
  - by apply sound_PreparePrewrite.
Qed.

Lemma sound_BatchCommit s time keys startTs commitTs i :
  start_ok startTs → (∀ key, key ∈ keys → commit_ok s time key startTs commitTs) →
  i ∈ b_items (PrepareBatchCommit s keys startTs commitTs) →
  item_key i ∈ keys ∧
  sound is_start (λ a, a = ACommit startTs commitTs) s time (item_key i) (item_prepared i).
Proof.
  intros [Hs Hf] Hok Hi. unfold PrepareBatchCommit in Hi.
  destruct (unique_adjacent (sort_names keys)) as [|[|ch k] ks] eqn:Ho; [by apply not_elem_of_nil in Hi..|].
  apply batch_keys_items in Hi as [Hi|[Hk ->]]; [by apply not_elem_of_nil in Hi|].
  rewrite <- Ho in Hk. apply ordered_keys in Hk. split; [done|].
  destruct (Hok _ Hk) as (? & ? & ?).
  assert (sound is_start (λ a, a = ACommit startTs commitTs) s time (item_key i)
            (PrepareCommit s (item_key i) startTs commitTs)) as Hsd by (by apply sound_PrepareCommit).
  case_bool_decide as Hac; [|done]. revert Hac. unfold PrepareCommit.
  case_match; [|done]. intros _. apply sound_stop.
Qed.

Lemma sound_BatchRollback s time keys startTs i :
  start_ok startTs → i ∈ b_items (PrepareBatchRollback s keys startTs) →
  item_key i ∈ keys ∧
  sound is_start (λ a, a = ARollback startTs) s time (item_key i) (item_prepared i).
Proof.
  intros [Hs Hf] Hi. unfold PrepareBatchRollback in Hi.
  destruct (unique_adjacent (sort_names keys)) as [|[|ch k] ks] eqn:Ho; [by apply not_elem_of_nil in Hi..|].
  apply batch_keys_items in Hi as [Hi|[Hk ->]]; [by apply not_elem_of_nil in Hi|].
  rewrite <- Ho in Hk. apply ordered_keys in Hk. split; [done|]. by apply sound_PrepareRollback.
Qed.

Lemma sound_any P s time key p :
  sound is_start P s time key p → HasChanges p = true → ∃ a, performs is_start s time key p a.
Proof. intros Hp Hc. destruct (Hp Hc) as (a & _ & Ha). eauto. Qed.

Lemma sound_request s time key p :
  mem_ok s → request s time key p → HasChanges p = true → ∃ a, performs is_start s time key p a.
Proof using start_pos.
  intros Hm Hr. destruct Hr as
    [key value pk startTs ttl del fu now now2 [Hs Hf] (H1 & H2 & H3 & H4)
    |key pk startTs ttl fu expireAt now [Hs Hf] (H1 & H2 & H3 & H4) H5
    |key pk startTs ttl fu [Hs Hf] H1|key startTs c [Hs Hf] (H1 & H2 & H3)
    |key startTs [Hs Hf]|key startTs cur rb [Hs Hf]|key startTs d c [Hs Hf] H1 Hd
    |muts pk startTs ttl fu now now2 i Hs Ha Hi|keys startTs c i Hs Hok Hi|keys startTs i Hs Hi].
  - by eapply sound_any, sound_PreparePrewrite.
  - by eapply sound_any, sound_PreparePessimisticLock.
  - by eapply sound_any, sound_PreparePrewriteLock.
  - by eapply sound_any, sound_PrepareCommit.
  - by eapply sound_any, sound_PrepareRollback.
  - by eapply sound_any, sound_PrepareCheckTxnStatus.
  - eapply sound_any, sound_PrepareResolveLock; try done. by intros (_ & ? & ?)%Hd.
  - by eapply sound_any, sound_BatchPrewrite.
  - by eapply sound_any, sound_BatchCommit.
  - by eapply sound_any, sound_BatchRollback.
Qed.

(** ** Direct operations *)

Definition safe_move (P : string → kaction → Prop) tso s time s' : Prop :=
  moves is_start P tso s time s' ∧ in_step s'.

(** Actions of the kind [P], none of them a collection. *)
Definition proper (P : string → kaction → Prop) : string → kaction → Prop :=
  λ key a, P key a ∧ not_collect key a.

Lemma safe_same P tso s time : mem_ok s → in_step s → safe_move P tso s time s.
Proof. intros Hm Hc. split; [by apply untouched_moves|done]. Qed.

Lemma sound_performs_as (P : string → kaction → Prop) s time key p :
  sound is_start (P key) s time key p → HasChanges p = true →
  performs_as is_start (proper P) s time key p.
Proof.
  intros Hsd Hch. destruct (Hsd Hch) as (a & Ha & Hp). exists a. split; [|done].
  split; [done|by eapply performs_not_collect].
Qed.

Lemma safe_apply (P : kaction → Prop) tso now s time key p index :
  mem_ok s → in_step s → sound is_start P s time key p →
  safe_move (proper (at_key key P)) tso s time (ApplyPrepared now s key p index).2.
Proof using start_pos.
  intros Hm Hc Hsd.
  assert (HasChanges p = true → performs_as is_start (proper (at_key key P)) s time key p) as Hp.
  { apply sound_performs_as. eapply sound_mono; [|exact Hsd]. by split. }
  split; [apply ApplyPrepared_moves|eapply ApplyPrepared_in_step]; eauto.
Qed.

Lemma safe_apply_batch keys P tso now s time b index :
  mem_ok s → in_step s →
  (∀ i, i ∈ b_items b → item_key i ∈ keys ∧ sound is_start (P (item_key i)) s time (item_key i) (item_prepared i)) →
  safe_move (proper (at_keys keys P)) tso s time (ApplyPreparedBatch now s b index).2.
Proof using start_pos.
  intros Hm Hc Hsd.
  assert (∀ i, i ∈ b_items b → p_status (item_prepared i) = StOk →
     expectedRevision (item_prepared i) = CurrentRevisionLocked s (item_key i) →
     item_mods i = [] ∨
     performs_as is_start (proper (at_keys keys P)) s time (item_key i) (item_prepared i)) as Hi.
  { intros i Hi Hst _. destruct (decide (item_mods i = [])) as [|Hne]; [by left|]. right.
    destruct (Hsd i Hi) as [Hk Hs]. apply sound_performs_as.
    - eapply sound_mono; [|exact Hs]. by split.
    - unfold HasChanges. rewrite Hst. by rewrite bool_decide_true, bool_decide_false. }
  split; [apply ApplyPreparedBatch_moves|eapply ApplyPreparedBatch_in_step]; eauto.
Qed.

Lemma safe_outcome noop (P : kaction → Prop) tso s time key r :
  mem_ok s → outcome is_start noop P tso s time key r → in_step r.2 →
  safe_move (proper (at_key key P)) tso s time r.2.
Proof. intros Hm Ho Hc. split; [|done]. eapply outcome_moves; [done| |done]. by repeat split. Qed.

Lemma safe_apply_if_changed P tso now s time key p :
  mem_ok s → in_step s → sound is_start P s time key p →
  safe_move (proper (at_key key P)) tso s time (apply_if_changed now s key p).2.
Proof using start_pos.
  intros Hm Hc Hsd. unfold apply_if_changed.
  case_match; [by apply safe_same|by apply safe_apply].
Qed.

Lemma safe_batch_if_changed keys P tso now s time b :
  mem_ok s → in_step s →
  (∀ i, i ∈ b_items b → item_key i ∈ keys ∧ sound is_start (P (item_key i)) s time (item_key i) (item_prepared i)) →
  safe_move (proper (at_keys keys P)) tso s time (apply_batch_if_changed now s b).2.
Proof using start_pos.
  intros Hm Hc Hrq. unfold apply_batch_if_changed.
  case_match; [by apply safe_same|by apply safe_apply_batch].
Qed.

Lemma safe_direct P tso s time s' :
  mem_ok s → in_step s → direct s time P s' → safe_move (proper P) tso s time s'.
Proof using start_pos.
  intros Hm Hc Hd. destruct Hd as
    [key value pk startTs ttl fu now now2 [Hs Hf] (H1 & H2 & H3 & H4)
    |key pk startTs ttl fu now now2 [Hs Hf] (H1 & H2 & H3 & H4)
    |key pk startTs ttl fu ex now [Hs Hf] (H1 & H2 & H3 & H4) H5
    |key pk startTs ttl fu ex now [Hs Hf] (H1 & H2 & H3 & H4) H5|now key pk startTs ttl fu [Hs Hf] H1
    |key startTs c [Hs Hf] (H1 & H2 & H3)|key startTs [Hs Hf]
    |now key startTs cur rb [Hs Hf]|now key startTs d c [Hs Hf] H1 Hd
    |muts pk startTs ttl fu now now2 Hs Ha|now keys startTs c Hs Hok|now keys startTs Hs].
  - eapply safe_outcome; [done|by apply outcome_PrewriteLocked|by apply PrewriteLocked_in_step].
  - eapply safe_outcome; [done|by apply outcome_PrewriteLocked|by apply PrewriteLocked_in_step].
  - eapply safe_outcome;
      [done|by apply outcome_AcquirePessimisticLock|by apply AcquirePessimisticLock_in_step].
  - unfold AcquirePessimisticLockForUpdate.
    case_match; [by apply safe_same|]. case_match; [|by apply safe_same].
    destruct (ApplyPrepared _ _ _ _ _) as [st s1] eqn:HA. simpl.
    change s1 with (st, s1).2. rewrite <- HA.
    apply safe_apply; [done..|by apply sound_PreparePessimisticLock].
  - apply safe_apply_if_changed; [done..|by apply sound_PreparePrewriteLock].
  - eapply safe_outcome; [done|by apply outcome_Commit|by apply Commit_in_step].
  - eapply safe_outcome; [done|by apply outcome_Rollback|by apply Rollback_in_step].
  - unfold CheckTxnStatus. case_match; [by apply safe_same|]. case_match; [|by apply safe_same].
    destruct (ApplyPrepared _ _ _ _ _) as [st s1] eqn:HA.
    assert (safe_move (proper (at_key key (λ a, a = ARollback startTs))) tso s time (st, s1).2) as Hsafe;
      [|by case_match].
    rewrite <- HA. apply safe_apply; [done..|by apply sound_PrepareCheckTxnStatus].
  - unfold ResolveLock. do 3 (case_match; [by apply safe_same|]).
    apply safe_apply; [done..|]. apply sound_PrepareResolveLock; try done. by intros (_ & ? & ?)%Hd.
  - apply safe_batch_if_changed; [done..|]. intros i Hi. by eapply sound_BatchPrewrite.
  - apply safe_batch_if_changed; [done..|]. intros i Hi. by apply sound_BatchCommit.
  - apply safe_batch_if_changed; [done..|]. intros i Hi. by apply sound_BatchRollback.
Qed.

(** ** The invariant of worlds *)

Lemma add64_room r : (r < u64_max)%N → r +₆₄ 1 = (r + 1)%N.
Proof. intros Hr. unfold add64, wrap64. apply N.mod_small. unfold u64_max, u64_size in *. lia. Qed.

(** A move keeps the invariant; prepared commands of the keys that moved become
    stale, the others stay enabled. *)
Lemma winv_move P w s' tso safe :
  winv w → room (w_st w) → safe_move P (w_tso w) (w_st w) (w_time w) s' →
  winv (MkWorld s' (time_obs (w_tso w) (w_st w) s' (w_time w)) tso safe (w_pool w)).
Proof.
  intros [Hm Hc Hk Hp] Hroom [(acts & Hen & _ & Hv & Hr & Hm') Hc']. split; simpl; [done|done| |].
  - intros key. change (kinv is_start (view_of (kv_contents (engine_ s')) s'
      (time_obs (w_tso w) (w_st w) s' (w_time w)) key)). rewrite (Hv key).
    destruct (acts key) as [a|] eqn:Ha; [|apply Hk]. apply kinv_apply; [apply Hk|by apply Hen].
  - intros key p Hin Hch. specialize (Hr key). specialize (Hv key).
    destruct (acts key) as [a|] eqn:Ha.
    + left. rewrite Hr, add64_room by apply Hroom.
      destruct (Hp key p Hin Hch) as [|(a' & ops & _ & _ & -> & _)]; lia.
    + rewrite Hr. destruct (Hp key p Hin Hch) as [|(a' & Hpa)]; [by left|]. right. exists a'.
      by eapply performs_transport.
Qed.

(** What a restart does to one key: a finished lock is dropped. *)
Definition restart_acted s tso (k : kstate) key : kstate :=
  if lock_finished s key then kapply tso k ADrop else k.

Lemma lock_finished_guard s time key :
  lock_finished s key = true → kguard is_start (view s time key) ADrop.
Proof.
  unfold lock_finished. destruct (locks_ s !! key) as [l|] eqn:Hl; [|done].
  intros (c & w & Hw & Hs)%hasFinishedWrite_true. exists (persisted_lock l). simpl. rewrite Hl.
  split; [done|]. by exists c, w.
Qed.

Lemma restart_view w now :
  in_step (w_st w) → ∀ key,
  view (Open now (engine_ (w_st w)))
    (time_obs (w_tso w) (w_st w) (Open now (engine_ (w_st w))) (w_time w)) key ≡
  restart_acted (w_st w) (w_tso w) (view (w_st w) (w_time w) key) key.
Proof.
  intros Hc key. destruct (Open_recovers now (w_st w) Hc) as ((Hl & Hw & _) & Hdel & _).
  assert (∀ ts, kv_contents (engine_ (Open now (engine_ (w_st w)))) !! DataKey key ts =
                kv_contents (engine_ (w_st w)) !! DataKey key ts) as Hd.
  { intros ts. by destruct (Hdel (DataKey key ts)) as [|(_ & ? & ? & _)]. }
  specialize (Hl key). unfold restart_acted, live_lock in *. unfold view, view_of, time_obs.
  rewrite Hl, Hw. destruct (lock_finished (w_st w) key); split_and!; simpl; try done.
  by rewrite decide_True.
Qed.

Lemma restart_mem_ok s now : mem_ok s → in_step s → mem_ok (Open now (engine_ s)).
Proof.
  intros Hm Hc key l Hl. destruct (Open_recovers now s Hc) as ((Hsame & _) & _ & _ & Hfu).
  specialize (Hsame key). rewrite Hl in Hsame. unfold live_lock in Hsame. simpl in Hsame.
  destruct (lock_finished s key); [done|]. destruct (locks_ s !! key) as [l0|] eqn:Hl0; [|done].
  assert (persisted_lock l = persisted_lock l0) as Hp by (simpl in Hsame; congruence).
  destruct (Hm key l0 Hl0) as [Hf Hfu0]. pose proof (persisted_fits l0 Hf) as (H1 & H2 & H3 & H4 & H5 & H6).
  rewrite <- Hp in H1, H2, H3, H4, H5, H6. rewrite <- (Hfu key l Hl) in H5.
  split; [by split_and!|]. rewrite (Hfu key l Hl), Hp. by rewrite persisted_fu.
Qed.

Lemma lock_dropped tso (k : kstate) l d :
  kinv is_start k → kguard is_start k ADrop → kguard is_start k (ALock l d) →
  kguard is_start (kapply tso k ADrop) (ALock l d).
Proof.
  intros Hinv (l0 & Hl & _) (H1 & H2 & H3 & H4). rewrite Hl in H3. destruct H3 as (Heq & _ & Hfu).
  destruct (ki_lock _ _ Hinv l0 Hl) as (_ & _ & Hnr & Hmax). rewrite Heq in *.
  split; [done|]. split; [done|]. split; [|exact H4]. split; [done|].
  intros c w Hw He. specialize (Hmax c w Hw He). lia.
Qed.

(** A command prepared before a restart stays enabled when its key's finished
    lock is dropped; a commit then only adds its record. *)
Lemma performs_dropped tso s s' time time' key p a :
  kinv is_start (view s time key) → lock_finished s key = true →
  view s' time' key ≡ kapply tso (view s time key) ADrop →
  CurrentRevisionLocked s' key = CurrentRevisionLocked s key →
  performs is_start s time key p a → ∃ a', performs is_start s' time' key p a'.
Proof.
  intros Hinv Hfin Hv Hr (ops & Hmods & Hval & Hrev & Hdo & Hg).
  pose proof (lock_finished_guard s time key Hfin) as Hgd. pose proof Hgd as (l & Hl & c0 & w0 & Hw0 & Hs0).
  destruct (ki_lock _ _ Hinv l Hl) as (_ & _ & Hnr & Hmax).
  assert (locks_ s' !! key = None) as Hnone.
  { destruct Hv as (Hv & _). simpl in Hv. by destruct (locks_ s' !! key). }
  cut (∃ a', ops_do s' key ops a' ∧ kguard is_start (kapply tso (view s time key) ADrop) a').
  { intros (a' & Hdo' & Hg'). exists a', ops. split_and!; [done|done|congruence|done|by rewrite Hv]. }
  destruct Hdo as [l1 Hf|l1 v del Hf|st c l1 Hst Hc Hk|st Hst|st c l1 Hst Hc Hk Ht].
  - eexists. split; [by apply DoLock|]. by apply lock_dropped.
  - eexists. split; [by apply DoPrewrite|]. by apply lock_dropped.
  - destruct Hg as (H1 & _ & H3 & l2 & Hk2 & Hs2 & Hp & Hlt). rewrite Hl in Hk2. simplify_eq.
    exists (ARecord (lock_startTs l2) c). split.
    + apply DoRecord; [done..|]. unfold commit_type. destruct (isLockOnly l1) eqn:Hlo; [done|].
      destruct (ki_data_lock _ _ Hinv l2 Hl) as (Hno & _); [|by destruct (Hno c0 w0)].
      split; [done|]. simpl in Hl. rewrite Hk in Hl. by simplify_eq/=.
    + split_and!; [done..|by exists c0, w0|]. intros c' w Hw He. specialize (Hmax c' w Hw He). lia.
  - exists (ARollback st). destruct Hg as (H1 & H2 & H3).
    assert (lock_startTs l ≠ st) as Hne.
    { intros <-. specialize (Hnr c0 w0 Hw0 Hs0). by specialize (H3 c0 w0 Hw0 Hs0). }
    split; [|done]. replace (rollback_ops s key st) with (rollback_ops s' key st); [by apply DoRollback|].
    unfold rollback_ops, locked_by. rewrite Hnone. simpl in Hl.
    destruct (locks_ s !! key) as [l1|]; [|done]. simplify_eq/=. by destruct (N.eqb_spec (lock_startTs l1) st).
  - simpl in Hl. by rewrite Hk in Hl.
Qed.

Lemma winv_restart w now :
  winv w → let s' := Open now (engine_ (w_st w)) in
  finished_deleted (w_st w) (kv_contents (engine_ s')) → winv (advance w s').
Proof.
  intros [Hm Hc Hk Hp] s' Hgone. pose proof (restart_view w now Hc) as Hv. fold s' in Hv.
  assert (∀ key, CurrentRevisionLocked s' key = CurrentRevisionLocked (w_st w) key) as Hr.
  { intros key. destruct (Open_recovers now (w_st w) Hc) as ((_ & _ & Hr) & _). unfold CurrentRevisionLocked, s'.
    by rewrite Hr. }
  split; simpl; [by apply restart_mem_ok|by apply Open_in_step|..].
  - intros key. rewrite (Hv key). unfold restart_acted.
    case_match; [|apply Hk]. by apply kinv_drop.
  - intros key p Hin Hch. rewrite Hr. destruct (Hp key p Hin Hch) as [|(a & Hpa)]; [by left|]. right.
    specialize (Hv key). unfold restart_acted in Hv. destruct (lock_finished (w_st w) key) eqn:Hf.
    + by eapply performs_dropped.
    + exists a. by eapply performs_transport.
Qed.

(** A command of the pool that is still current performs an action. *)
Lemma pool_performs w key p :
  winv w → (key, p) ∈ w_pool w → HasChanges p = true →
  expectedRevision p = CurrentRevisionLocked (w_st w) key →
  performs_as is_start not_collect (w_st w) (w_time w) key p.
Proof.
  intros Hi Hin Hch Heq. destruct (wi_pool _ Hi key p Hin Hch) as [|(a & Ha)]; [lia|].
  by eapply performs_any.
Qed.

Lemma pool_batch_performs w b :
  winv w → (∀ i, i ∈ b_items b → (item_key i, item_prepared i) ∈ w_pool w) →
  ∀ i, i ∈ b_items b → p_status (item_prepared i) = StOk →
    expectedRevision (item_prepared i) = CurrentRevisionLocked (w_st w) (item_key i) →
    item_mods i = [] ∨
    performs_as is_start not_collect (w_st w) (w_time w) (item_key i) (item_prepared i).
Proof.
  intros Hinv Hin i Hi Hst Heq. destruct (decide (item_mods i = [])) as [|Hne]; [by left|]. right.
  apply pool_performs; [done|by apply Hin| |done].
  unfold HasChanges. rewrite Hst. by rewrite bool_decide_true, bool_decide_false.
Qed.

Lemma winv_step w w' : winv w → wstep w w' → winv w'.
Proof using start_pos.
  intros Hinv Hst. pose proof Hinv as [Hm Hc Hk Hp]. destruct Hst as
    [w tso _|w key p Hrq|w now key p index Hin Hroom|w now b index Hin Hroom
    |w P s' Hd Hroom|w sp Hroom s'|w now s' Hgone].
  - by split.
  - split; [done..|]. intros k q. simpl. rewrite elem_of_cons. intros [[= -> ->]|Hin] Hch; [|by apply Hp].
    right. by apply (sound_request _ _ _ _ Hm Hrq).
  - apply (winv_move not_collect w); [done..|].
    split; [apply ApplyPrepared_moves|eapply ApplyPrepared_in_step]; eauto using pool_performs.
  - apply (winv_move not_collect w); [done..|]. pose proof (pool_batch_performs w b Hinv Hin).
    split; [by apply ApplyPreparedBatch_moves|by eapply ApplyPreparedBatch_in_step].
  - apply (winv_move (proper P) w); [done..|]. by apply safe_direct.
  - apply (winv_move (λ _ a, a = ACollect sp) w); [done..|].
    split; [by apply GarbageCollect_moves|by apply GarbageCollect_in_step].
  - by apply winv_restart.
Qed.

Lemma winv_initial w : initial w → winv w.
Proof.
  intros (now & e & He & Hst & Hpool & Hsafe & Ht).
  set (s0 := MkMvcc e ∅ ∅ ∅ 0 0 : t E).
  assert (∀ key c, versions s0 key !! c = None) as Hv0 by done.
  assert (in_step s0) as Hc0.
  { unfold in_step. change (kv_contents (engine_ s0)) with (kv_contents e). rewrite He. split; try done.
    intros k. rewrite lookup_empty. by intros []. }
  assert (mem_ok s0) as Hm0 by done.
  destruct (Open_recovers now s0 Hc0) as ((Hl & Hw & Hr) & _ & Heng & _). specialize (Heng (λ _, eq_refl)).
  change (engine_ s0) with e in *. split; rewrite ?Hst, ?Hpool.
  - exact (restart_mem_ok s0 now Hm0 Hc0).
  - by apply (Open_in_step now s0).
  - intros key. assert (view (Open now e) (w_time w) key ≡ kinit) as ->; [|apply kinv_init].
    unfold view, view_of. rewrite Hl, Hw, Heng, Ht, He. done.
  - intros key p Hin. by apply not_elem_of_nil in Hin.
Qed.

Lemma winv_steps w w' : winv w → wsteps w w' → winv w'.
Proof using start_pos. intros Hi Hs. induction Hs; eauto using winv_step. Qed.

Lemma winv_reachable w : reachable w → winv w.
Proof using start_pos. intros (w0 & Hi%winv_initial & Hs). by eapply winv_steps. Qed.

(** What one step does to one key. *)
Definition key_step w w' key : Prop :=
  view (w_st w') (w_time w') key ≡ view (w_st w) (w_time w) key ∨
  ∃ a, kguard is_start (view (w_st w) (w_time w) key) a ∧
       view (w_st w') (w_time w') key ≡ kapply (w_tso w) (view (w_st w) (w_time w) key) a ∧
       ∀ sp, a = ACollect sp → (sp ≤ w_safe w')%N.

Lemma moves_key_step (P : string → kaction → Prop) w s' safe key :
  moves is_start P (w_tso w) (w_st w) (w_time w) s' →
  (∀ a sp, P key a → a = ACollect sp → (sp ≤ safe)%N) →
  key_step w (MkWorld s' (time_obs (w_tso w) (w_st w) s' (w_time w)) (w_tso w) safe (w_pool w)) key.
Proof.
  intros (acts & Hen & HP & Hv & _) Hsafe. specialize (Hv key). unfold key_step. simpl.
  destruct (acts key) as [a|] eqn:Ha; [right|by left].
  exists a. split_and!; [by apply Hen|exact Hv|]. intros sp. by apply Hsafe, (HP key).
Qed.

Lemma wstep_key w w' key :
  winv w → wstep w w' →
  key_step w w' key ∧ (w_tso w ≤ w_tso w')%N ∧ (w_safe w ≤ w_safe w')%N.
Proof using start_pos.
  intros Hinv Hst. pose proof Hinv as [Hm Hc Hk Hp]. destruct Hst as
    [w tso Hle|w k p Hrq|w now k p index Hin Hroom|w now b index Hin Hroom
    |w P s' Hd Hroom|w sp Hroom s'|w now s' Hgone]; simpl.
  - split_and!; [by left|done|lia].
  - split_and!; [by left|lia|lia].
  - split_and!; [|lia|lia]. apply (moves_key_step not_collect); [|by intros a sp Ha ->; destruct (Ha sp)].
    apply ApplyPrepared_moves; eauto using pool_performs.
  - split_and!; [|lia|lia]. apply (moves_key_step not_collect); [|by intros a sp Ha ->; destruct (Ha sp)].
    apply ApplyPreparedBatch_moves; [done..|]. by apply pool_batch_performs.
  - split_and!; [|lia|lia]. apply (moves_key_step (proper P)); [|by intros a sp [_ Ha] ->; destruct (Ha sp)].
    by apply safe_direct.
  - split_and!; [|lia|lia]. apply (moves_key_step (λ _ a, a = ACollect sp)); [by apply GarbageCollect_moves|].
    intros a sp' -> [= ->]. lia.
  - split_and!; [|lia|lia]. pose proof (restart_view w now Hc key) as Hv. unfold restart_acted in Hv.
    destruct (lock_finished (w_st w) key) eqn:Hf; [right|by left].
    exists ADrop. by split_and!; [apply lock_finished_guard| |].
Qed.

Lemma wsteps_monotone w w' :
  winv w → wsteps w w' → (w_tso w ≤ w_tso w')%N ∧ (w_safe w ≤ w_safe w')%N.
Proof using start_pos.
  intros Hi Hs. induction Hs as [|w w1 w' Hst Hs IH]; [done|].
  destruct (wstep_key w w1 EmptyString Hi Hst) as (_ & ? & ?).
  destruct IH; [by eapply winv_step|]. lia.
Qed.

(** A frozen snapshot of a key stays frozen and reads the same. *)
Lemma frozen_steps w w' key r :
  winv w → wsteps w w' → (r ≤ w_tso w)%N → (w_safe w' ≤ r)%N →
  frozen (view (w_st w) (w_time w) key) r →
  kread (view (w_st w') (w_time w') key) r = kread (view (w_st w) (w_time w) key) r.
Proof using start_pos.
  intros Hi Hs. induction Hs as [|w w1 w' Hst Hs IH]; [done|]. intros Hr Hsafe Hf.
  destruct (wstep_key w w1 key Hi Hst) as (Hk & Htso & Hsf).
  assert (winv w1) as Hi1 by (by eapply winv_step).
  destruct (wsteps_monotone w1 w' Hi1 Hs) as [_ Hsf'].
  assert (frozen (view (w_st w1) (w_time w1) key) r ∧
          kread (view (w_st w1) (w_time w1) key) r = kread (view (w_st w) (w_time w) key) r) as [Hf1 Hr1].
  { destruct Hk as [Heq|(a & Hg & Heq & Hsp)].
    - split; [|by apply (kread_proper is_start r _ _ (conj Heq (wi_key _ Hi1 key)))].
      intros l. destruct Heq as (-> & _ & _ & ->). apply Hf.
    - destruct (frozen_apply is_start (w_tso w) _ a r (wi_key _ Hi key) Hg Hr) as [Hfa Hra]; [|done|].
      { intros sp Ha. specialize (Hsp sp Ha). lia. }
      split; [intros l; destruct Heq as (-> & _ & _ & ->); apply Hfa|]. rewrite <- Hra.
      by apply (kread_proper is_start r _ _ (conj Heq (wi_key _ Hi1 key))). }
  rewrite <- Hr1. apply IH; [done|lia|done|done].
Qed.

Lemma decision_steps w w' key ts c wr :
  winv w → wsteps w w' → (w_safe w' ≤ c)%N →
  find_write (w_st w) key ts = Some (c, wr) → find_write (w_st w') key ts = Some (c, wr).
Proof using start_pos.
  intros Hi Hs. induction Hs as [|w w1 w' Hst Hs IH]; [done|]. intros Hsafe Hf.
  destruct (wstep_key w w1 key Hi Hst) as (Hk & Htso & Hsf).
  assert (winv w1) as Hi1 by (by eapply winv_step).
  destruct (wsteps_monotone w1 w' Hi1 Hs) as [_ Hsf'].
  apply IH; [done|done|]. destruct Hk as [(_ & Hw & _)|(a & Hg & (_ & Hw & _) & Hsp)]; simpl in Hw;
    rewrite find_write_decision, Hw; [done|].
  eapply (decision_stable is_start); [apply wi_key, Hi|done| |done].
  intros sp Ha. specialize (Hsp sp Ha). lia.
Qed.

(** ** Properties *)

(** [C3] Snapshot reads are stable.  Once a read at [r] has returned a result
    other than a lock conflict, every later read of that key at [r] returns the
    same result, or reports a lock conflict while some transaction holds the key,
    over any sequence of prepares, applies, direct operations, collections below
    [r] and restarts. *)
Theorem snapshot_read_stable w w' key r st v :
  reachable w → (r ≤ w_tso w)%N → Get (w_st w) key r = (st, v) → st ≠ StLockConflict →
  wsteps w w' → (w_safe w' ≤ r)%N →
  Get (w_st w') key r = (st, v) ∨ Get (w_st w') key r = (StLockConflict, None).
Proof using start_pos.
  intros Hi%winv_reachable Hr HG Hst Hs Hsafe. rewrite Get_read in HG.
  destruct (lock_blocks (w_st w) key r) eqn:Hb; [congruence|].
  pose proof (unblocked_frozen is_start _ _ _ _ (wi_key _ Hi key) Hb) as Hf.
  rewrite Get_read. destruct (lock_blocks (w_st w') key r); [by right|left].
  rewrite (ReadCommittedLocked_view _ (w_time w')), (frozen_steps w w') by done.
  by rewrite <- (ReadCommittedLocked_view _ (w_time w)).
Qed.

(** [C6] A transaction's fate on a key is final: once its status is committed at
    [c] or rolled back, it stays so, until the collector is given a safe point
    above the record. *)
Theorem decisions_final w w' key startTs :
  reachable w → wsteps w w' →
  (∀ c, InspectTxnStatusLocked (w_st w) key startTs = MkTxnRecordStatus RsCommitted c None →
        (w_safe w' ≤ c)%N →
        InspectTxnStatusLocked (w_st w') key startTs = MkTxnRecordStatus RsCommitted c None) ∧
  (InspectTxnStatusLocked (w_st w) key startTs = MkTxnRecordStatus RsRolledBack 0 None →
   (w_safe w' ≤ startTs)%N →
   InspectTxnStatusLocked (w_st w') key startTs = MkTxnRecordStatus RsRolledBack 0 None).
Proof using start_pos.
  intros Hi%winv_reachable Hs. unfold InspectTxnStatusLocked.
  destruct (find_write (w_st w) key startTs) as [[c wr]|] eqn:Hf; [|split; intros; by repeat case_match].
  pose proof (decision_steps w w' key startTs c wr Hi Hs) as Hd.
  split.
  - intros c'. case_match eqn:Hrb; [done|]. intros [= <-] Hsafe. by rewrite Hd, Hrb.
  - case_match eqn:Hrb; [|done]. intros _ Hsafe. rewrite Hd, Hrb; [done| |done].
    rewrite find_write_decision in Hf. apply decision_Some in Hf as (Hw & Hst & _).
    destruct (ki_record _ _ (wi_key _ Hi key) c wr Hw) as (_ & _ & _ & _ & Hc).
    rewrite <- Hc, Hst by (by apply bool_decide_eq_true in Hrb). done.
Qed.

(** A put or a delete at or below a record of the key is not prewritten, whatever
    lock the transaction holds. *)
Lemma prewrite_below_record s key c w value pk startTs ttl del fu now now2 :
  versions s key !! c = Some w → (startTs ≤ c)%N →
  HasChanges (PreparePrewrite s key value pk startTs ttl del fu now now2) = false.
Proof.
  intros Hw Hle. unfold PreparePrewrite.
  assert (newest_at_least s key startTs = true) as ->.
  { apply not_false_iff_true. intros Hn. rewrite newest_at_least_false in Hn. specialize (Hn c w Hw). lia. }
  by repeat case_match.
Qed.

(** [C8] No update is lost.  Let a record other than a rollback be committed on a
    key at [c1].  While a lock is held on the key, [c1] is at or below its start or
    its for-update timestamp.  A transaction that started at or below [c1]
    prewrites no put or delete of the key, even when it holds a pessimistic lock
    with a for-update timestamp above [c1]: the code makes the first committer win
    in both modes, where the pessimistic-transactions specification lets the
    transaction that locked the newer version upgrade its lock.  So every put or
    delete committed after [c1] belongs to a transaction that started after
    [c1]. *)
Theorem first_committer_wins w key c1 w1 :
  reachable w → versions (w_st w) key !! c1 = Some w1 → w_type w1 ≠ WRollback →
  (∀ l, locks_ (w_st w) !! key = Some l → (c1 ≤ N.max (lock_startTs l) (forUpdateTs l))%N) ∧
  (∀ value pk startTs ttl del fu now now2, (startTs ≤ c1)%N →
     HasChanges (PreparePrewrite (w_st w) key value pk startTs ttl del fu now now2) = false) ∧
  (∀ c2 w2, versions (w_st w) key !! c2 = Some w2 → w_type w2 = WPut ∨ w_type w2 = WDelete →
     (c1 < c2)%N → (c1 < w_startTs w2)%N).
Proof using start_pos.
  intros Hi%winv_reachable H1 He. pose proof (wi_key _ Hi key) as Hk. split_and!.
  - intros l Hl. destruct (ki_lock _ _ Hk (persisted_lock l)) as (_ & _ & _ & Hmax); [by simpl; rewrite Hl|].
    specialize (Hmax c1 w1 H1 He). rewrite (persisted_fu l) in Hmax by (by apply (wi_mem _ Hi key)). done.
  - intros value pk startTs ttl del fu now now2. by eapply prewrite_below_record.
  - intros c2 w2 H2 Hd Hlt. by eapply (ki_first_committer _ _ Hk).
Qed.

(** No transaction is both committed and rolled back on a key, no two data
    records belong to one transaction, and a commit timestamp is above the start
    timestamp of its transaction. *)
Theorem outcomes_exclusive w key c1 w1 c2 w2 :
  reachable w →
  versions (w_st w) key !! c1 = Some w1 → versions (w_st w) key !! c2 = Some w2 →
  w_startTs w1 = w_startTs w2 →
  (w_type w1 = WRollback ↔ w_type w2 = WRollback) ∧
  (w_type w1 = WPut ∨ w_type w1 = WDelete → w_type w2 = WPut ∨ w_type w2 = WDelete → c1 = c2) ∧
  (w_type w1 ≠ WRollback → (w_startTs w1 < c1)%N).
Proof using start_pos.
  intros Hi%winv_reachable H1 H2 Heq. pose proof (wi_key _ Hi key) as Hk.
  destruct (ki_exclusive _ _ Hk c1 w1 c2 w2 H1 H2 Heq) as [Hx Hd].
  destruct (ki_record _ _ Hk c1 w1 H1) as (_ & _ & _ & He & _). unfold effective in *.
  split_and!; [|done|by intros [? _]%He].
  destruct (decide (w_type w1 = WRollback)), (decide (w_type w2 = WRollback)); tauto.
Qed.

(** Every committed put has its data: a read never ends in a storage
    error. *)
Theorem Get_never_storage_error w key r :
  reachable w → (Get (w_st w) key r).1 ≠ StStorageError.
Proof using start_pos.
  intros Hi%winv_reachable. rewrite Get_read. case_match; [done|].
  rewrite (ReadCommittedLocked_view _ (w_time w)). unfold kread.
  destruct (visible _ r) as [[c wr]|] eqn:Hv; [|done].
  apply visible_Some in Hv as (Hw & Hd & _). case_bool_decide; [done|].
  destruct (ki_data _ _ (wi_key _ Hi key) c wr Hw) as [v ->]; [by destruct Hd|done].
Qed.

Lemma recovered_Get s s' :
  recovered s s' → deletes_finished s (kv_contents (engine_ s)) (kv_contents (engine_ s')) →
  ∀ key r, Get s' key r = Get s key r.
Proof.
  intros (Hl & Hw & _) Hdel key r. rewrite !Get_read.
  assert (ReadCommittedLocked s' key r = ReadCommittedLocked s key r) as ->.
  { unfold ReadCommittedLocked. rewrite Hw.
    induction (om_down (versions s key) r) as [|[c wr] l IH]; [done|]. simpl.
    unfold engine_value. rewrite IH, !kv_get_spec.
    by destruct (Hdel (DataKey key (w_startTs wr))) as [->|(_ & ? & ? & _)]. }
  assert (lock_blocks s' key r = lock_blocks s key r) as ->; [|done].
  specialize (Hl key). unfold live_lock, lock_finished in Hl. unfold lock_blocks.
  destruct (locks_ s !! key) as [l|]; [|by destruct (locks_ s' !! key)].
  destruct (hasFinishedWrite s key (lock_startTs l)) eqn:Hf.
  { destruct (locks_ s' !! key); [done|]. by rewrite andb_false_r. }
  destruct (locks_ s' !! key) as [l'|]; [|done].
  assert (persisted_lock l' = persisted_lock l) as Hp by (simpl in Hl; congruence).
  rewrite (f_equal lock_startTs Hp : lock_startTs l' = lock_startTs l).
  unfold hasFinishedWrite in *. by rewrite Hw, Hf.
Qed.

(** The status of a transaction does not depend on a finished lock. *)
Lemma recovered_status s s' :
  recovered s s' → ∀ key ts,
  trs_state (InspectTxnStatusLocked s' key ts) = trs_state (InspectTxnStatusLocked s key ts) ∧
  trs_commitTs (InspectTxnStatusLocked s' key ts) = trs_commitTs (InspectTxnStatusLocked s key ts).
Proof.
  intros (Hl & Hw & _) key ts. unfold InspectTxnStatusLocked. rewrite !find_write_decision, Hw.
  destruct (decision _ ts) as [[c wr]|] eqn:Hd; [done|]. rewrite decision_None in Hd.
  specialize (Hl key). unfold live_lock, lock_finished in Hl.
  destruct (locks_ s !! key) as [l|]; [|by destruct (locks_ s' !! key)].
  destruct (hasFinishedWrite s key (lock_startTs l)) eqn:Hf.
  - destruct (locks_ s' !! key); [done|]. apply hasFinishedWrite_true in Hf as (c & wr & Hwr & Hs).
    destruct (N.eqb_spec (lock_startTs l) ts) as [Heq|]; [|done]. destruct (Hd c wr Hwr). congruence.
  - destruct (locks_ s' !! key) as [l'|]; [|done].
    assert (persisted_lock l' = persisted_lock l) as Hp by (simpl in Hl; congruence).
    rewrite (f_equal lock_startTs Hp : lock_startTs l' = lock_startTs l). by case_match.
Qed.

(** [C14] A restart is transparent.  A store reopened on the engine of any
    reachable one gives every read and every transaction status the same answer
    and has the same revisions.  It has the same locks, except the finished ones,
    whose transaction already has a record on the key: those are gone, and the
    only thing recovery may change in the engine is to delete them; when there is
    none it writes nothing. *)
Theorem restart_transparent w now :
  reachable w →
  let s' := Open now (engine_ (w_st w)) in
  (∀ key r, Get s' key r = Get (w_st w) key r) ∧
  (∀ key ts, trs_state (InspectTxnStatusLocked s' key ts) = trs_state (InspectTxnStatusLocked (w_st w) key ts) ∧
             trs_commitTs (InspectTxnStatusLocked s' key ts) =
             trs_commitTs (InspectTxnStatusLocked (w_st w) key ts)) ∧
  (∀ key, CurrentRevisionLocked s' key = CurrentRevisionLocked (w_st w) key) ∧
  (∀ key, persisted_lock <$> GetLock s' key =
          if lock_finished (w_st w) key then None else persisted_lock <$> GetLock (w_st w) key) ∧
  deletes_finished (w_st w) (kv_contents (engine_ (w_st w))) (kv_contents (engine_ s')) ∧
  (no_finished_lock (w_st w) → engine_ s' = engine_ (w_st w)).
Proof using start_pos.
  intros Hi%winv_reachable s'.
  destruct (Open_recovers now (w_st w) (wi_step _ Hi)) as (Hrec & Hdel & Heng & _). fold s' in Hrec, Hdel, Heng.
  split_and!; [by apply recovered_Get|by apply recovered_status|..|done|done];
    destruct Hrec as (Hl & Hw & Hr); intros key.
  - unfold CurrentRevisionLocked. by rewrite Hr.
  - unfold GetLock. rewrite Hl. unfold live_lock. by case_match.
Qed.

(** Committing a prewritten put publishes its value: reads at the commit
    timestamp return it. *)
Theorem commit_publishes s key l c v s' :
  locks_ s !! key = Some l → isLockOnly l = false → isDelete l = false →
  kv_contents (engine_ s) !! DataKey key (lock_startTs l) = Some v →
  Commit s key (lock_startTs l) c = (StOk, s') → Get s' key c = (StOk, Some v).
Proof.
  intros Hl Hlo Hdel Hv HC. by rewrite (commit_reads s key l c s'), Hv.
Qed.

End worlds.

(** ** A concrete run

    Over the in-memory engine, with odd start timestamps: transaction 1 puts
    ["v1"] and commits at 2; transaction 3 puts ["v2"] and commits at 4 through a
    prepared command that Raft applies; transaction 5 is rolled back. *)

Module Demo.

Definition store : Type := gmap string string.

Lemma odd_pos (ts : N) : N.odd ts = true → ts ≠ 0%N.
Proof. by intros H ->. Qed.

Definition tick (w : world (E := store)) (tso : N) : world :=
  MkWorld (w_st w) (w_time w) tso (w_safe w) (w_pool w).

Definition d0 : world (E := store) := MkWorld (Open 0 ∅) (λ _, 0%N) 0 0 [].
Definition d1 := tick d0 1.
Definition d2 := advance d1 (Prewrite (w_st d1) "k" "v1" "k" 1 1000 0 0 0).2.
Definition d3 := tick d2 2.
Definition d4 := advance d3 (Commit (w_st d3) "k" 1 2).2.
Definition d5 := tick d4 3.
Definition d6 := advance d5 (Prewrite (w_st d5) "k" "v2" "k" 3 1000 0 0 0).2.
Definition d7 := tick d6 4.
Definition d7_commit := PrepareCommit (w_st d7) "k" 3 4.
Definition d8 := MkWorld (w_st d7) (w_time d7) (w_tso d7) (w_safe d7) [("k", d7_commit)].
Definition d9 := advance d8 (ApplyPrepared 0 (w_st d8) "k" d7_commit 1).2.
Definition d10 := tick d9 5.
Definition d11 := advance d10 (Rollback (w_st d10) "k" 5).2.

(** Transaction 3, committed at 4, locks the key again; the lock is finished. *)
Definition d12 := advance d11 (AcquirePessimisticLockForUpdate (w_st d11) "k" "k" 3 1000 4 1000 0).2.
Definition d13 := advance d12 (Open 0 (engine_ (w_st d12))).

Lemma room_of (s : t store) :
  bool_decide (map_Forall (λ _ r, (r < u64_max)%N) (revisions_ s)) = true → room s.
Proof.
  intros Hb%bool_decide_eq_true key. unfold CurrentRevisionLocked.
  destruct (revisions_ s !! key) as [r|] eqn:Hr; [exact (Hb key r Hr)|done].
Qed.

Lemma d0_initial : initial d0.
Proof. exists 0%N, ∅. split_and!; reflexivity. Qed.

Lemma steps_d5 : wsteps N.odd d0 d5.
Proof.
  apply (rtc_l _ _ d1); [by apply (WTick N.odd d0 1)|].
  apply (rtc_l _ _ d2).
  { eapply (WDirect N.odd d1); [apply (DiPrewrite N.odd _ _ "k" "v1" "k" 1 1000 0 0 0)|apply room_of];
      vm_compute; repeat split; reflexivity. }
  apply (rtc_l _ _ d3); [by apply (WTick N.odd d2 2)|].
  apply (rtc_l _ _ d4).
  { eapply (WDirect N.odd d3); [|apply room_of; vm_compute; reflexivity].
    apply (DiCommit N.odd _ _ "k" 1 2); [vm_compute; repeat split; reflexivity|].
    split_and!; [vm_compute; reflexivity..|]. intros l Hl _. vm_compute in Hl. injection Hl as <-. vm_compute. split; reflexivity. }
  apply rtc_once. by apply (WTick N.odd d4 3).
Qed.

Lemma steps_d9 : wsteps N.odd d5 d9.
Proof.
  apply (rtc_l _ _ d6).
  { eapply (WDirect N.odd d5); [apply (DiPrewrite N.odd _ _ "k" "v2" "k" 3 1000 0 0 0)|apply room_of];
      vm_compute; repeat split; reflexivity. }
  apply (rtc_l _ _ d7); [by apply (WTick N.odd d6 4)|].
  apply (rtc_l _ _ d8).
  { apply (WPrepare N.odd d7 "k" d7_commit).
    apply (RqCommit N.odd _ _ "k" 3 4); [vm_compute; repeat split; reflexivity|].
    split_and!; [vm_compute; reflexivity..|]. intros l Hl _. vm_compute in Hl. injection Hl as <-. vm_compute. split; reflexivity. }
  apply rtc_once. apply (WApply N.odd d8); [by left|apply room_of; vm_compute; reflexivity].
Qed.

Lemma steps_d11 : wsteps N.odd d9 d11.
Proof.
  apply (rtc_l _ _ d10); [by apply (WTick N.odd d9 5)|].
  apply rtc_once. eapply (WDirect N.odd d10); [apply (DiRollback N.odd _ _ "k" 5)|apply room_of];
    vm_compute; repeat split; reflexivity.
Qed.

Lemma steps_d5_d11 : wsteps N.odd d5 d11.
Proof. etrans; [exact steps_d9|exact steps_d11]. Qed.

Lemma reach_d5 : reachable N.odd d5.
Proof. exists d0. split; [exact d0_initial|exact steps_d5]. Qed.

Lemma reach_d11 : reachable N.odd d11.
Proof.
  exists d0. split; [exact d0_initial|]. etrans; [exact steps_d5|exact steps_d5_d11].
Qed.

Lemma snapshot_read_stable_witness :
  Get (w_st d5) "k" 3 = (StOk, Some "v1") ∧
  (Get (w_st d11) "k" 3 = (StOk, Some "v1") ∨ Get (w_st d11) "k" 3 = (StLockConflict, None)).
Proof.
  split; [vm_compute; reflexivity|].
  apply (snapshot_read_stable N.odd odd_pos d5 d11 "k" 3 StOk (Some "v1")).
  - exact reach_d5.
  - vm_compute. discriminate.
  - vm_compute. reflexivity.
  - discriminate.
  - exact steps_d5_d11.
  - vm_compute. discriminate.
Defined.

Lemma decisions_final_witness :
  InspectTxnStatusLocked (w_st d11) "k" 1 = MkTxnRecordStatus RsCommitted 2 None.
Proof.
  apply (proj1 (decisions_final N.odd odd_pos d5 d11 "k" 1 reach_d5
           steps_d5_d11) 2%N).
  - vm_compute. reflexivity.
  - vm_compute. discriminate.
Defined.

Lemma first_committer_wins_witness :
  (2 < 3)%N ∧ versions (w_st d11) "k" !! 4%N = Some (MkWrite 3 4 WPut).
Proof.
  split; [|vm_compute; reflexivity].
  destruct (first_committer_wins N.odd odd_pos d11 "k" 2 (MkWrite 1 2 WPut)) as (_ & _ & H);
    [exact reach_d11|vm_compute; reflexivity|discriminate|].
  apply (H 4%N (MkWrite 3 4 WPut)); [vm_compute; reflexivity|by left|reflexivity].
Defined.

Lemma outcomes_exclusive_witness :
  versions (w_st d11) "k" !! 5%N = Some (MkWrite 5 5 WRollback) ∧ (1 < 2)%N.
Proof.
  split; [vm_compute; reflexivity|].
  apply (outcomes_exclusive N.odd odd_pos d11 "k" 2 (MkWrite 1 2 WPut) 2 (MkWrite 1 2 WPut));
    [exact reach_d11|vm_compute; reflexivity|vm_compute; reflexivity|reflexivity|discriminate].
Defined.

Lemma Get_never_storage_error_witness : (Get (w_st d11) "k" 9).1 ≠ StStorageError.
Proof. apply (Get_never_storage_error N.odd odd_pos d11 "k" 9 reach_d11). Defined.

Definition d3_lock : MvccLock := MkLock "k" "v1" 1 1000 0 false false false 1 1000 false.

Lemma commit_publishes_witness : Get (w_st d4) "k" 2 = (StOk, Some "v1").
Proof.
  apply (commit_publishes (w_st d3) "k" d3_lock 2 "v1"); vm_compute; reflexivity.
Defined.

Lemma reach_d12 : reachable N.odd d12.
Proof.
  destruct reach_d11 as (w0 & Hi & Hs). exists w0. split; [exact Hi|]. etrans; [exact Hs|]. apply rtc_once.
  eapply (WDirect N.odd d11); [apply (DiAcquireForUpdate N.odd _ _ "k" "k" 3 1000 4 1000 0)|apply room_of];
    vm_compute; repeat split; reflexivity.
Qed.

(** The restart drops the finished lock, and the run goes on. *)
Lemma reach_d13 : reachable N.odd d13 ∧ locks_ (w_st d13) !! "k" = None.
Proof.
  split; [|vm_compute; reflexivity].
  destruct reach_d12 as (w0 & Hi & Hs). exists w0. split; [exact Hi|]. etrans; [exact Hs|]. apply rtc_once.
  apply (WRestart N.odd d12 0). intros key Hf. destruct (decide (key = "k")) as [->|Hne]; [vm_compute; reflexivity|].
  exfalso. revert Hf. unfold lock_finished.
  change (locks_ (w_st d12)) with (<["k" := MkLock "k" EmptyString 3 1000 0 false true false 4 1000 false]> (∅ : gmap string MvccLock)).
  by rewrite lookup_insert_ne, lookup_empty.
Qed.

Lemma restart_transparent_witness :
  Get (Open 0 (engine_ (w_st d12))) "k" 4 = (StOk, Some "v2") ∧
  lock_finished (w_st d12) "k" = true ∧ GetLock (Open 0 (engine_ (w_st d12))) "k" = None.
Proof.
  destruct (restart_transparent N.odd odd_pos d12 0 reach_d12) as (HG & _ & _ & Hl & _).
  split; [rewrite HG; vm_compute; reflexivity|]. split; [vm_compute; reflexivity|].
  specialize (Hl "k"). replace (lock_finished (w_st d12) "k") with true in Hl by (vm_compute; reflexivity).
  by destruct (GetLock (Open 0 (engine_ (w_st d12))) "k").
Defined.

End Demo.
