(* ===== verification/RegionMeta.v ===== *)
(** * Region descriptors and the Region catalog

    src/src/transaction/region_metadata.h and .cpp.  A Region is a half-open key
    interval with its peers; a [RegionCatalog] is a vector of Regions that has
    passed the constructor's validation.  The protobuf messages are records with
    the fields the code reads; an absent sub-message is its default instance, or
    [None] where the code asks whether it is present.  The configuration file
    loader is not modelled. *)

From Stdlib Require Import ZArith.
From S2P Require Import Prelude KvEngine MvccTypes Codec.

(** ** Data *)

Record RegionEpoch := MkEpoch { version : N; confVersion : N }.

#[global] Instance RegionEpoch_eq_dec : EqDecision RegionEpoch.
Proof. solve_decision. Defined.

(** [nodeId] is an [int], [port] a [short]. *)
Record RegionPeerLocation := MkPeer {
  nodeId : Z;
  host : string;
  port : Z;
  storeId : N;
  peerId : N;
  isLearner : bool
}.

Inductive RegionMetadata := MkRegion {
  regionId : Z;
  startKey : string;
  endKey : string;
  peers : list RegionPeerLocation;
  epoch : RegionEpoch;
  metadataRevision : N;
  leaderPeerId : N;
  splitPending : option RegionSplitPending
}
with RegionSplitPending := MkSplitPending {
  splitKey : string;
  child : RegionMetadata
}.

Record RegionPeerAssignment := MkAssignment { asg_region : RegionMetadata; asg_peerIndex : nat }.

(** The wire messages of src/src/proto/region.proto. *)
Record PeerDescriptor := MkPeerDescriptor {
  pd_peerid : N;
  pd_storeid : N;
  pd_host : string;
  pd_port : N;
  pd_islearner : bool
}.

Inductive RegionDescriptor := MkDescriptor {
  rd_regionid : N;
  rd_startkey : string;
  rd_endkey : string;
  rd_peers : list PeerDescriptor;
  rd_leaderpeerid : N;
  rd_epoch : RegionEpoch;
  rd_metadatarevision : N;
  rd_splitpending : option SplitPendingInfo
}
with SplitPendingInfo := MkSplitPendingInfo {
  sp_splitkey : string;
  sp_child : RegionDescriptor
}.

Record StoreDescriptor := MkStore {
  st_storeid : N;
  st_host : string;
  st_port : N;
  st_labels : list (string * string)
}.

#[global] Instance RegionPeerLocation_eq_dec : EqDecision RegionPeerLocation.
Proof. solve_decision. Defined.
#[global] Instance StoreDescriptor_eq_dec : EqDecision StoreDescriptor.
Proof. solve_decision. Defined.

(** ** Conversions between integer types *)

Definition int_max : N := 2147483647.
Definition short_max : N := 32767.

(** [static_cast<uint64_t>] of an [int], [static_cast<uint32_t>] of a [short]. *)
Definition u64_of_int (z : Z) : N := Z.to_N (z mod 18446744073709551616)%Z.
Definition u32_of_short (z : Z) : N := Z.to_N (z mod 4294967296)%Z.

(** [static_cast<int>] and [static_cast<short>] of an unsigned value. *)
Definition int_of_u64 (n : N) : Z :=
  let r := (Z.of_N n mod 4294967296)%Z in if (r <? 2147483648)%Z then r else (r - 4294967296)%Z.
Definition short_of_u32 (n : N) : Z :=
  let r := (Z.of_N n mod 65536)%Z in if (r <? 32768)%Z then r else (r - 65536)%Z.

(** [std::to_string] of an [int]. *)
Definition int_to_string (z : Z) : string :=
  if (z <? 0)%Z then "-" +:+ to_string (Z.to_N (- z)) else to_string (Z.to_N z).

(** ** A Region *)

Definition RegionBytewiseLess (lhs rhs : string) : bool := str_ltb lhs rhs.

Definition Contains (r : RegionMetadata) (key : string) : bool :=
  negb (RegionBytewiseLess key (startKey r)) &&
  (String.eqb (endKey r) EmptyString || RegionBytewiseLess key (endKey r)).

Definition FindPeer (r : RegionMetadata) (wantedPeerId : N) : option RegionPeerLocation :=
  find (λ p, (peerId p =? wantedPeerId)%N) (peers r).

(** Assignments to a field. *)
Definition with_peers (ps : list RegionPeerLocation) (r : RegionMetadata) : RegionMetadata :=
  MkRegion (regionId r) (startKey r) (endKey r) ps (epoch r) (metadataRevision r) (leaderPeerId r)
    (splitPending r).
Definition with_leader (l : N) (r : RegionMetadata) : RegionMetadata :=
  MkRegion (regionId r) (startKey r) (endKey r) (peers r) (epoch r) (metadataRevision r) l
    (splitPending r).
Definition with_revision (rev : N) (r : RegionMetadata) : RegionMetadata :=
  MkRegion (regionId r) (startKey r) (endKey r) (peers r) (epoch r) rev (leaderPeerId r)
    (splitPending r).
Definition with_epoch (e : RegionEpoch) (r : RegionMetadata) : RegionMetadata :=
  MkRegion (regionId r) (startKey r) (endKey r) (peers r) e (metadataRevision r) (leaderPeerId r)
    (splitPending r).
Definition with_end (k : string) (r : RegionMetadata) : RegionMetadata :=
  MkRegion (regionId r) (startKey r) k (peers r) (epoch r) (metadataRevision r) (leaderPeerId r)
    (splitPending r).
Definition with_pending (p : option RegionSplitPending) (r : RegionMetadata) : RegionMetadata :=
  MkRegion (regionId r) (startKey r) (endKey r) (peers r) (epoch r) (metadataRevision r)
    (leaderPeerId r) p.

(** ** Validation *)

(** What the constructor accumulates over the Regions: the Region IDs and peer
    IDs seen, and the endpoint of each Store. *)
Record seen := MkSeen {
  regionIds : list Z;
  peerIds : list N;
  endpoints : gmap N (string * Z)
}.

(** The missing identifiers of a peer are derived from its node and position. *)
Definition normal_peer (rid : Z) (peerIndex : nat) (p : RegionPeerLocation) : RegionPeerLocation :=
  MkPeer (nodeId p) (host p) (port p)
    (if (storeId p =? 0)%N then u64_of_int (nodeId p) +₆₄ 1 else storeId p)
    (if (peerId p =? 0)%N
     then wrap64 (wrap64 ((u64_of_int rid +₆₄ 1) * 1000000) + N.of_nat peerIndex) +₆₄ 1
     else peerId p)
    (isLearner p).

(** The body of the loop over the peers of a Region. *)
Definition check_peer (rid : Z) (peerIndex : nat) (p : RegionPeerLocation) (a : seen)
    : result (RegionPeerLocation * seen) :=
  if (nodeId p <? 0)%Z || String.eqb (host p) EmptyString || (port p <=? 0)%Z
  then Throw "invalid Region peer"
  else
    let q := normal_peer rid peerIndex p in
    if bool_decide (peerId q ∈ peerIds a) then Throw "duplicate peer ID"
    else
      let a1 := MkSeen (regionIds a) (peerId q :: peerIds a) (endpoints a) in
      match endpoints a !! storeId q with
      | Some ep =>
          if bool_decide (ep = (host q, port q)) then Ok (q, a1)
          else Throw "Store ID has conflicting endpoint"
      | None =>
          Ok (q, MkSeen (regionIds a1) (peerIds a1) (<[storeId q := (host q, port q)]> (endpoints a1)))
      end.

Fixpoint check_peers (rid : Z) (peerIndex : nat) (ps : list RegionPeerLocation) (a : seen)
    : result (list RegionPeerLocation * seen) :=
  match ps with
  | [] => Ok ([], a)
  | p :: rest =>
      '(q, a1) ← check_peer rid peerIndex p a;
      '(qs, a2) ← check_peers rid (S peerIndex) rest a1;
      Ok (q :: qs, a2)
  end.

(** The body of the loop over the sorted Regions; [previous] is the Region
    before, [last] tells whether another one follows. *)
Definition check_region (previous : option RegionMetadata) (is_last : bool) (r : RegionMetadata)
    (a : seen) : result (RegionMetadata * seen) :=
  if (regionId r <? 0)%Z || bool_decide (peers r = []) ||
     (negb (String.eqb (endKey r) EmptyString) && negb (RegionBytewiseLess (startKey r) (endKey r))) ||
     (version (epoch r) =? 0)%N || (confVersion (epoch r) =? 0)%N || (metadataRevision r =? 0)%N
  then Throw "invalid Region metadata"
  else if bool_decide (regionId r ∈ regionIds a) then Throw "duplicate Region ID"
  else
    let a0 := MkSeen (regionId r :: regionIds a) (peerIds a) (endpoints a) in
    match previous with
    | None =>
        if negb (String.eqb (startKey r) EmptyString)
        then Throw "first Region must start at the configured lower bound" else Ok tt
    | Some prev =>
        if negb (String.eqb (endKey prev) (startKey r))
        then Throw "Region ranges must be contiguous" else Ok tt
    end ;;
    if negb is_last && String.eqb (endKey r) EmptyString
    then Throw "only the final Region may have an empty endKey"
    else if is_last && negb (String.eqb (endKey r) EmptyString)
    then Throw "final Region must end at the configured upper bound"
    else
      '(qs, a1) ← check_peers (regionId r) 0 (peers r) a0;
      let r1 := with_peers qs r in
      let r2 := if (leaderPeerId r1 =? 0)%N
                then with_leader (match qs with q :: _ => peerId q | [] => 0%N end) r1 else r1 in
      match FindPeer r2 (leaderPeerId r2) with
      | None => Throw "Region leader peer is not in the peer set"
      | Some _ => Ok (r2, a1)
      end.

Fixpoint check_regions (previous : option RegionMetadata) (rs : list RegionMetadata) (a : seen)
    : result (list RegionMetadata) :=
  match rs with
  | [] => Ok []
  | r :: rest =>
      '(r', a1) ← check_region previous (bool_decide (rest = [])) r a;
      rs' ← check_regions (Some r') rest a1;
      Ok (r' :: rs')
  end.

(** [std::sort] by start key.  Two Regions with the same start key make the
    validation fail in either order. *)
Definition sort_regions (rs : list RegionMetadata) : list RegionMetadata :=
  merge_sort (str_le_on startKey) rs.

Definition no_seen : seen := MkSeen [] [] ∅.

(** ** Protobuf descriptors *)

Definition ToProtoPeer (p : RegionPeerLocation) : PeerDescriptor :=
  MkPeerDescriptor (peerId p) (storeId p) (host p) (u32_of_short (port p)) (isLearner p).

Fixpoint ToProtoRegion (r : RegionMetadata) : RegionDescriptor :=
  match r with
  | MkRegion rid sk ek ps e rev leader pending =>
      MkDescriptor (u64_of_int rid) sk ek (ToProtoPeer <$> ps) leader e rev
        (match pending with
         | Some (MkSplitPending k c) => Some (MkSplitPendingInfo k (ToProtoRegion c))
         | None => None
         end)
  end.

Definition FromProtoPeer (d : PeerDescriptor) : result RegionPeerLocation :=
  if (pd_storeid d =? 0)%N || (pd_peerid d =? 0)%N || (pd_port d =? 0)%N || (short_max <? pd_port d)%N
  then Throw "invalid protobuf Region peer"
  else
    let node := if (pd_storeid d <=? int_max)%N then int_of_u64 (pd_storeid d - 1) else (-1)%Z in
    Ok (MkPeer node (pd_host d) (short_of_u32 (pd_port d)) (pd_storeid d) (pd_peerid d) (pd_islearner d)).

Fixpoint FromProtoRegion (d : RegionDescriptor) : result RegionMetadata :=
  match d with
  | MkDescriptor rid sk ek ps leader e rev pending =>
      if (int_max <? rid)%N then Throw "Region ID exceeds the local implementation limit"
      else
        pending' ← match pending with
                   | Some (MkSplitPendingInfo k c) =>
                       c' ← FromProtoRegion c; Ok (Some (MkSplitPending k c'))
                   | None => Ok None
                   end;
        ps' ← mapM_result FromProtoPeer ps;
        Ok (MkRegion (int_of_u64 rid) sk ek ps' e rev leader pending')
  end.

Module RegionCatalog.

(** The constructor: the vector [regions_]. *)
Definition make (rs : list RegionMetadata) : result (list RegionMetadata) :=
  if bool_decide (rs = []) then Throw "RegionCatalog needs at least one region"
  else check_regions None (sort_regions rs) no_seen.

(** [upper_bound] stops at the first Region that starts above the key; [--it]
    steps back to the one before. *)
Fixpoint before_upper_bound (key : string) (regions_ : list RegionMetadata) : list RegionMetadata :=
  match regions_ with
  | [] => []
  | r :: rest => if RegionBytewiseLess key (startKey r) then [] else r :: before_upper_bound key rest
  end.

Definition FindByKey (regions_ : list RegionMetadata) (key : string) : result RegionMetadata :=
  match last (before_upper_bound key regions_) with
  | None => Throw "key is before the first Region"
  | Some r => if Contains r key then Ok r else Throw "key is not covered by Region metadata"
  end.

Definition FindById (regions_ : list RegionMetadata) (rid : Z) : result RegionMetadata :=
  match find (λ r, (regionId r =? rid)%Z) regions_ with
  | Some r => Ok r
  | None => Throw ("Region does not exist: " +:+ int_to_string rid)
  end.

Definition RegionsOnNode (regions_ : list RegionMetadata) (node : Z) : list RegionMetadata :=
  filter (λ r, existsb (λ p, (nodeId p =? node)%Z) (peers r) = true) regions_.

Definition PeersOnNode (regions_ : list RegionMetadata) (node : Z) : list RegionPeerAssignment :=
  mjoin ((λ r, omap (λ ip, if (nodeId ip.2 =? node)%Z then Some (MkAssignment r ip.1) else None)
                 (imap pair (peers r))) <$> regions_).

Definition ToProto (regions_ : list RegionMetadata) : list RegionDescriptor :=
  ToProtoRegion <$> regions_.

Definition FromProto (ds : list RegionDescriptor) : result (list RegionMetadata) :=
  rs ← mapM_result FromProtoRegion ds; make rs.

(** The FNV-1a digest of the serialised descriptors; [serialize] is protobuf's
    [SerializeToString]. *)
Definition fnv_byte (hash : N) (byte : ascii) : N :=
  wrap64 (N.lxor hash (N_of_ascii byte) * 1099511628211).

Definition hex_digit (n : N) : ascii :=
  ascii_of_N (if (n <? 10)%N then 48 + n else 87 + n).

(** [std::hex] with width 16 and fill character 0. *)
Definition hex16 (n : N) : string :=
  foldr (λ i acc, String (hex_digit (N.land (N.shiftr n (4 * N.of_nat i)) 15)) acc) EmptyString
    (reverse (seq 0 16)).

Definition Digest (serialize : RegionDescriptor → string) (regions_ : list RegionMetadata) : string :=
  hex16 (foldl (λ h r, foldl fnv_byte h (String.list_ascii_of_string (serialize (ToProtoRegion r))))
           1469598103934665603%N regions_).

End RegionCatalog.

(** ** What a validated catalog is *)

Definition all_peers (rs : list RegionMetadata) : list RegionPeerLocation := mjoin (peers <$> rs).

Definition endpoint (p : RegionPeerLocation) : string * Z := (host p, port p).

Record peer_ok (p : RegionPeerLocation) : Prop := MkPeerOk {
  po_node : (0 ≤ nodeId p)%Z;
  po_host : host p ≠ EmptyString;
  po_port : (0 < port p)%Z;
  po_store : storeId p ≠ 0%N;
  po_peer : peerId p ≠ 0%N
}.

Record region_ok (r : RegionMetadata) : Prop := MkRegionOk {
  ro_id : (0 ≤ regionId r)%Z;
  ro_peers : peers r ≠ [];
  ro_range : endKey r = EmptyString ∨ str_lt (startKey r) (endKey r);
  ro_version : version (epoch r) ≠ 0%N;
  ro_confVersion : confVersion (epoch r) ≠ 0%N;
  ro_revision : metadataRevision r ≠ 0%N;
  ro_peers_ok : Forall peer_ok (peers r);
  ro_leader : leaderPeerId r ∈ peerId <$> peers r
}.

(** The Regions cover the keys from [lo] on, each one starting where the one
    before ends. *)
Fixpoint covers (lo : string) (rs : list RegionMetadata) : Prop :=
  match rs with
  | [] => False
  | r :: rest =>
      startKey r = lo ∧
      match rest with
      | [] => endKey r = EmptyString
      | _ => endKey r ≠ EmptyString ∧ str_lt (startKey r) (endKey r) ∧ covers (endKey r) rest
      end
  end.

Record valid_catalog (rs : list RegionMetadata) : Prop := MkValid {
  vc_covers : covers EmptyString rs;
  vc_regions : Forall region_ok rs;
  vc_regionIds : NoDup (regionId <$> rs);
  vc_peerIds : NoDup (peerId <$> all_peers rs);
  vc_stores : ∀ p q, p ∈ all_peers rs → q ∈ all_peers rs → storeId p = storeId q → endpoint p = endpoint q
}.

(** Every peer carries its identifiers, as decoded descriptors do. *)
Definition identified (rs : list RegionMetadata) : Prop :=
  ∀ p, p ∈ all_peers rs → storeId p ≠ 0%N ∧ peerId p ≠ 0%N.

(** A missing leader is the first peer. *)
Definition norm_leader (r : RegionMetadata) : RegionMetadata :=
  if (leaderPeerId r =? 0)%N
  then with_leader (match peers r with q :: _ => peerId q | [] => 0%N end) r else r.

(** *** Sorted and contiguous *)

Lemma covers_sorted lo rs :
  covers lo rs → StronglySorted (str_lt_on startKey) rs ∧ ∀ r, r ∈ rs → str_leb lo (startKey r) = true.
Proof.
  revert lo. induction rs as [|r rs IH]; intros lo; [done|]. intros [Hr Hrest]. destruct rs as [|r2 rs].
  { split; [by repeat constructor|]. intros r' ->%list_elem_of_singleton. rewrite Hr. apply str_leb_refl. }
  destruct Hrest as (_ & Hlt & Hc). destruct (IH _ Hc) as [Hs Hlo].
  assert (∀ r', r' ∈ r2 :: rs → str_lt (startKey r) (startKey r')) as Hall.
  { intros r' Hr'. eapply str_ltb_leb_trans; [exact Hlt|]. by apply Hlo. }
  split.
  - constructor; [done|]. apply Forall_forall. done.
  - intros r' [->|Hr']%elem_of_cons; [rewrite Hr; apply str_leb_refl|].
    rewrite <- Hr. apply str_ltb_leb_incl. by apply Hall.
Qed.

Lemma sort_covers lo rs : covers lo rs → sort_regions rs = rs.
Proof. intros Hc. apply (merge_sort_strict startKey). by eapply covers_sorted. Qed.

Lemma Contains_spec r key :
  Contains r key = true ↔
  str_leb (startKey r) key = true ∧ (endKey r = EmptyString ∨ str_lt key (endKey r)).
Proof.
  unfold Contains, RegionBytewiseLess. rewrite andb_true_iff, orb_true_iff, String.eqb_eq, negb_true_iff.
  rewrite str_ltb_leb, negb_false_iff. done.
Qed.

(** The lookup by key over contiguous Regions. *)
Lemma covers_find lo rs key :
  covers lo rs → str_leb lo key = true →
  ∃ r, last (RegionCatalog.before_upper_bound key rs) = Some r ∧ r ∈ rs ∧ Contains r key = true ∧
       ∀ r', r' ∈ rs → Contains r' key = true → r' = r.
Proof.
  revert lo. induction rs as [|r rs IH]; intros lo; [done|]. intros [Hr Hrest] Hlo. simpl.
  assert (RegionBytewiseLess key (startKey r) = false) as ->
    by (unfold RegionBytewiseLess; by rewrite str_ltb_leb, Hr, Hlo).
  destruct rs as [|r2 rs].
  { exists r. split_and!; [done|by left| |by intros r' ->%list_elem_of_singleton].
    apply Contains_spec. rewrite Hr. auto. }
  destruct Hrest as (Hne & Hlt & Hc).
  destruct (str_leb (endKey r) key) eqn:Hk.
  - destruct (IH _ Hc Hk) as (r0 & Hl & Hin & Hcon & Huniq). exists r0. split_and!; [|by right|done|].
    + destruct (RegionCatalog.before_upper_bound key (r2 :: rs)) eqn:Hb; [done|]. by rewrite <- Hl.
    + intros r' [->|Hr']%elem_of_cons Hr'c; [|by apply Huniq].
      apply Contains_spec in Hr'c as [_ [|Hk']]; [done|].
      unfold str_lt in Hk'. by rewrite str_ltb_leb, Hk in Hk'.
  - assert (str_lt key (endKey r)) as Hk' by (unfold str_lt; by rewrite str_ltb_leb, Hk).
    assert (RegionCatalog.before_upper_bound key (r2 :: rs) = []) as Hnil.
    { simpl. destruct Hc as [Hr2 _]. unfold RegionBytewiseLess. by rewrite Hr2, Hk'. }
    exists r. rewrite Hnil. split_and!; [done|by left|apply Contains_spec; rewrite Hr; auto|].
    intros r' [->|Hr']%elem_of_cons Hr'c; [done|].
    apply Contains_spec in Hr'c as [Hs _].
    destruct (covers_sorted _ _ Hc) as [_ Hlo']. pose proof (str_leb_trans _ _ _ (Hlo' _ Hr') Hs). congruence.
Qed.

(** *** The checks, stated on the whole list *)

(** The peers pass the loop over peers after the identifiers [ids] and the
    endpoints [eps] have been seen. *)
Fixpoint peers_fit (ids : list N) (eps : gmap N (string * Z)) (ps : list RegionPeerLocation) : Prop :=
  match ps with
  | [] => True
  | p :: rest =>
      peer_ok p ∧ peerId p ∉ ids ∧ (∀ ep, eps !! storeId p = Some ep → ep = endpoint p) ∧
      peers_fit (peerId p :: ids) (<[storeId p := endpoint p]> eps) rest
  end.

Definition see_peer (a : seen) (p : RegionPeerLocation) : seen :=
  MkSeen (regionIds a) (peerId p :: peerIds a) (<[storeId p := endpoint p]> (endpoints a)).

Lemma normal_peer_id rid i p : storeId p ≠ 0%N → peerId p ≠ 0%N → normal_peer rid i p = p.
Proof.
  intros Hs Hp. unfold normal_peer. rewrite (proj2 (N.eqb_neq _ _) Hs), (proj2 (N.eqb_neq _ _) Hp).
  by destruct p.
Qed.

Lemma check_peer_Ok rid i p a q a' :
  storeId p ≠ 0%N → peerId p ≠ 0%N →
  check_peer rid i p a = Ok (q, a') ↔
  q = p ∧ a' = see_peer a p ∧ peer_ok p ∧ peerId p ∉ peerIds a ∧
  (∀ ep, endpoints a !! storeId p = Some ep → ep = endpoint p).
Proof.
  intros Hs Hp. unfold check_peer. rewrite normal_peer_id by done. split.
  - destruct (_ || _) eqn:Hb; [done|]. reflect_bools. apply Z.ltb_ge in H. apply Z.leb_gt in H0.
    case_bool_decide as Hin; [done|]. unfold see_peer. destruct (endpoints a !! storeId p) as [ep|] eqn:He.
    + case_bool_decide as Hep; [|done]. intros [= <- <-]. subst ep. simpl.
      rewrite insert_id by done. split_and!; [done..|by intros ep [= <-]].
    + intros [= <- <-]. done.
  - intros (-> & -> & [H1 H2 H3 _ _] & Hni & Hep).
    rewrite (proj2 (Z.ltb_ge _ _) H1), (proj2 (String.eqb_neq _ _) H2), (proj2 (Z.leb_gt _ _) H3).
    simpl. rewrite bool_decide_false by done. unfold see_peer.
    destruct (endpoints a !! storeId p) as [ep|] eqn:He; [|done].
    rewrite (Hep ep eq_refl), bool_decide_true by done.
    by rewrite insert_id by (by rewrite He, (Hep ep eq_refl)).
Qed.

Lemma check_peers_Ok rid i ps a qs a' :
  (∀ p, p ∈ ps → storeId p ≠ 0%N ∧ peerId p ≠ 0%N) →
  check_peers rid i ps a = Ok (qs, a') ↔
  qs = ps ∧ a' = foldl see_peer a ps ∧ peers_fit (peerIds a) (endpoints a) ps.
Proof.
  revert i a qs a'. induction ps as [|p ps IH]; intros i a qs a' Hid; simpl.
  { naive_solver. }
  destruct (Hid p ltac:(by left)) as [Hs Hp]. rewrite bind_Ok. split.
  - intros ([q a1] & (-> & -> & Hok & Hni & Hep)%check_peer_Ok & Hrest); [|done..].
    apply bind_Ok in Hrest as ([qs1 a2] & (-> & -> & Hfit)%IH & [= <- <-]); [|set_solver].
    by split_and!.
  - intros (-> & -> & Hok & Hni & Hep & Hfit). exists (p, see_peer a p). split.
    { by apply check_peer_Ok. }
    apply bind_Ok. exists (ps, foldl see_peer (see_peer a p) ps). split; [|done].
    apply IH; [set_solver|done].
Qed.

Lemma FindPeer_None r pid : FindPeer r pid = None ↔ pid ∉ peerId <$> peers r.
Proof.
  unfold FindPeer. induction (peers r) as [|p ps IH]; simpl; [set_solver|].
  destruct (N.eqb_spec (peerId p) pid) as [->|Hne]; [set_solver|]. rewrite IH. set_solver.
Qed.

Definition lower_bound (previous : option RegionMetadata) : string :=
  match previous with Some p => endKey p | None => EmptyString end.

Definition see_region (a : seen) (r : RegionMetadata) : seen :=
  foldl see_peer (MkSeen (regionId r :: regionIds a) (peerIds a) (endpoints a)) (peers r).

Lemma norm_leader_fields r :
  regionId (norm_leader r) = regionId r ∧ startKey (norm_leader r) = startKey r ∧
  endKey (norm_leader r) = endKey r ∧ peers (norm_leader r) = peers r ∧
  epoch (norm_leader r) = epoch r ∧ metadataRevision (norm_leader r) = metadataRevision r ∧
  splitPending (norm_leader r) = splitPending r.
Proof. unfold norm_leader. by case_match. Qed.

Lemma peers_fit_ok ids eps ps : peers_fit ids eps ps → Forall peer_ok ps.
Proof.
  revert ids eps. induction ps as [|p ps IH]; intros ids eps; [constructor|].
  intros (Hok & _ & _ & Hfit). constructor; [done|]. by eapply IH.
Qed.

(** The range of an accepted Region, whatever its peers look like. *)
Lemma check_region_range previous is_last r a r' a' :
  check_region previous is_last r a = Ok (r', a') →
  startKey r' = startKey r ∧ endKey r' = endKey r ∧
  startKey r = lower_bound previous ∧ (endKey r = EmptyString ↔ is_last = true) ∧
  (endKey r = EmptyString ∨ str_lt (startKey r) (endKey r)).
Proof.
  unfold check_region. destruct (_ || _) eqn:Hb; [done|]. reflect_bools. case_bool_decide; [done|].
  intros (u & Hstart & Hrest)%bind_Ok.
  assert (startKey r = lower_bound previous) as Hlo.
  { destruct previous as [prev|]; simpl.
    - destruct (String.eqb_spec (endKey prev) (startKey r)); [done|discriminate].
    - destruct (String.eqb_spec (startKey r) EmptyString); [done|discriminate]. }
  destruct (negb is_last && _) eqn:Hl1; [done|]. destruct (is_last && _) eqn:Hl2; [done|].
  apply bind_Ok in Hrest as ([qs a1] & _ & Hlead).
  assert (startKey r' = startKey r ∧ endKey r' = endKey r) as [-> ->].
  { destruct (FindPeer _ _); [|done]. injection Hlead as <- _. by destruct (leaderPeerId r =? 0)%N. }
  split_and!; [done..| |].
  - destruct is_last; simpl in *; reflect_bools; split; done.
  - match goal with Hx : _ && negb (RegionBytewiseLess _ _) = false |- _ =>
      apply andb_false_iff in Hx as [He|He] end; reflect_bools; [by left|by right].
Qed.

Lemma check_region_Ok previous is_last r a r' a' :
  (∀ p, p ∈ peers r → storeId p ≠ 0%N ∧ peerId p ≠ 0%N) →
  check_region previous is_last r a = Ok (r', a') ↔
  r' = norm_leader r ∧ a' = see_region a r ∧ region_ok r' ∧ regionId r ∉ regionIds a ∧
  startKey r = lower_bound previous ∧ (endKey r = EmptyString ↔ is_last = true) ∧
  peers_fit (peerIds a) (endpoints a) (peers r).
Proof.
  intros Hid. destruct (norm_leader_fields r) as (E1 & E2 & E3 & E4 & E5 & E6 & E7).
  split.
  - intros Hc. destruct (check_region_range _ _ _ _ _ _ Hc) as (_ & _ & Hlo & Hlast & Hrange).
    revert Hc. unfold check_region.
    destruct (_ || _) eqn:Hb; [done|]. reflect_bools. apply Z.ltb_ge in H. case_bool_decide as Hni; [done|].
    intros (u & _ & Hrest)%bind_Ok. do 2 (case_match; [done|]).
    apply bind_Ok in Hrest as ([qs a1] & (-> & -> & Hfit)%check_peers_Ok & Hlead); [|done].
    assert (with_peers (peers r) r = r) as Hr by (by destruct r). rewrite Hr in Hlead.
    fold (norm_leader r) in Hlead. destruct (FindPeer _ _) eqn:Hfind; [|done]. injection Hlead as <- <-.
    split_and!; try done.
    + split; rewrite ?E1, ?E2, ?E3, ?E4, ?E5, ?E6; try done.
      * by eapply peers_fit_ok.
      * destruct (decide (leaderPeerId (norm_leader r) ∈ peerId <$> peers (norm_leader r))) as [|Hn];
          [by rewrite <- E4|]. apply FindPeer_None in Hn. congruence.
  - intros (-> & -> & [H1 H2 H3 H4 H5 H6 H7 H8] & Hni & Hlo & Hlast & Hfit).
    unfold check_region. rewrite E1, E2, E3, E4, E5, E6 in *.
    rewrite (proj2 (Z.ltb_ge _ _) H1), (bool_decide_false (peers r = [])) by done.
    rewrite (proj2 (N.eqb_neq _ _) H4), (proj2 (N.eqb_neq _ _) H5), (proj2 (N.eqb_neq _ _) H6).
    assert (negb (String.eqb (endKey r) EmptyString) && negb (RegionBytewiseLess (startKey r) (endKey r))
              = false) as ->.
    { destruct H3 as [->|Hlt]; [done|]. unfold RegionBytewiseLess. rewrite Hlt. by rewrite andb_false_r. }
    simpl. rewrite bool_decide_false by done.
    assert (match previous with
      | None => if negb (String.eqb (startKey r) EmptyString)
                then Throw "first Region must start at the configured lower bound" else Ok tt
      | Some prev => if negb (String.eqb (endKey prev) (startKey r))
                     then Throw "Region ranges must be contiguous" else Ok tt
      end = Ok tt) as ->.
    { destruct previous; simpl in Hlo; by rewrite Hlo, String.eqb_refl. }
    simpl. assert (negb is_last && String.eqb (endKey r) EmptyString = false ∧
                   is_last && negb (String.eqb (endKey r) EmptyString) = false) as [-> ->].
    { destruct (String.eqb_spec (endKey r) EmptyString) as [He|He], is_last; try done; naive_solver. }
    apply bind_Ok. exists (peers r, see_region a r). split; [by apply check_peers_Ok|].
    assert (with_peers (peers r) r = r) as -> by (by destruct r). fold (norm_leader r).
    destruct (FindPeer (norm_leader r) (leaderPeerId (norm_leader r))) eqn:Hfind; [done|].
    apply FindPeer_None in Hfind. by rewrite E4 in Hfind.
Qed.

Lemma see_peers_regionIds a ps : regionIds (foldl see_peer a ps) = regionIds a.
Proof. revert a. induction ps as [|p ps IH]; intros a; [done|]. simpl. by rewrite IH. Qed.

Lemma peers_fit_app a ps qs :
  peers_fit (peerIds a) (endpoints a) (ps ++ qs) ↔
  peers_fit (peerIds a) (endpoints a) ps ∧
  peers_fit (peerIds (foldl see_peer a ps)) (endpoints (foldl see_peer a ps)) qs.
Proof.
  revert a. induction ps as [|p ps IH]; intros a; simpl; [tauto|].
  specialize (IH (see_peer a p)). simpl in IH. rewrite IH. tauto.
Qed.

Fixpoint chain (previous : option RegionMetadata) (rs : list RegionMetadata) : Prop :=
  match rs with
  | [] => True
  | r :: rest =>
      startKey r = lower_bound previous ∧ (endKey r = EmptyString ↔ rest = []) ∧ chain (Some r) rest
  end.

Lemma chain_covers previous rs :
  rs ≠ [] → Forall region_ok rs → chain previous rs ↔ covers (lower_bound previous) rs.
Proof.
  revert previous. induction rs as [|r rs IH]; intros previous Hne Hok; [done|].
  apply Forall_cons in Hok as [Hr Hok]. simpl. apply and_iff_compat_l. destruct rs as [|r2 rs].
  { simpl. naive_solver. }
  rewrite (IH (Some r)) by done. destruct Hr as [_ _ [He|Hlt] _ _ _ _ _]; simpl lower_bound; naive_solver.
Qed.

Lemma chain_norm previous rs :
  chain (norm_leader <$> previous) (norm_leader <$> rs) ↔ chain previous rs.
Proof.
  revert previous. induction rs as [|r rs IH]; intros previous; [done|]. simpl.
  destruct (norm_leader_fields r) as (_ & -> & -> & _).
  assert (lower_bound (norm_leader <$> previous) = lower_bound previous) as ->.
  { destruct previous as [p|]; [|done]. by destruct (norm_leader_fields p) as (_ & _ & ? & _). }
  rewrite <- (IH (Some r)). assert (norm_leader <$> rs = [] ↔ rs = []) as -> by (by destruct rs). done.
Qed.

Lemma check_regions_Ok previous rs a rs' :
  identified rs →
  check_regions (norm_leader <$> previous) rs a = Ok rs' ↔
  rs' = norm_leader <$> rs ∧ Forall region_ok rs' ∧ NoDup (regionId <$> rs) ∧
  (∀ r, r ∈ rs → regionId r ∉ regionIds a) ∧ chain previous rs ∧
  peers_fit (peerIds a) (endpoints a) (all_peers rs).
Proof.
  revert previous a rs'. induction rs as [|r rs IH]; intros previous a rs' Hid; simpl.
  { split; [intros [= <-]; split_and!; [done|constructor|constructor|set_solver|done|done]|by intros (-> & _)]. }
  assert (∀ p, p ∈ peers r → storeId p ≠ 0%N ∧ peerId p ≠ 0%N) as Hr
    by (intros p Hp; apply Hid; unfold all_peers; simpl; set_solver).
  assert (identified rs) as Hrs by (intros p Hp; apply Hid; unfold all_peers; simpl; set_solver).
  assert (lower_bound (norm_leader <$> previous) = lower_bound previous) as Hlb.
  { destruct previous as [p|]; [|done]. by destruct (norm_leader_fields p) as (_ & _ & ? & _). }
  assert (regionIds (see_region a r) = regionId r :: regionIds a) as Hids
    by (unfold see_region; by rewrite see_peers_regionIds).
  pose proof (peers_fit_app (MkSeen (regionId r :: regionIds a) (peerIds a) (endpoints a)) (peers r)
                (all_peers rs)) as Happ. fold (see_region a r) in Happ.
  change (all_peers (r :: rs)) with (peers r ++ all_peers rs). simpl peerIds in Happ.
  simpl endpoints in Happ. rewrite Happ, bind_Ok. split.
  - intros ([r' a1] & (-> & -> & Hok & Hni & Hs & He & Hfit)%check_region_Ok & Hrest); [|done].
    apply bind_Ok in Hrest as (rs1 & Hc & [= <-]).
    change (Some (norm_leader r)) with (norm_leader <$> Some r) in Hc.
    apply IH in Hc as (-> & Hok' & Hnd & Hni' & Hch & Hfit'); [|done]. rewrite Hids in Hni'.
    split_and!; [done|by constructor| | |by rewrite <- Hlb|rewrite He; by rewrite bool_decide_eq_true|done..].
    + constructor; [|done]. intros (r2 & Heq & Hr2)%list_elem_of_fmap. apply (Hni' r2 Hr2). rewrite <- Heq. by left.
    + intros r2 [->|Hr2]%elem_of_cons; [done|]. specialize (Hni' r2 Hr2). set_solver.
  - intros (-> & Hok & Hnd & Hni & (Hs & He & Hch) & Hfit & Hfit').
    apply Forall_cons in Hok as [Hokr Hok]. apply NoDup_cons in Hnd as [Hnr Hnd].
    exists (norm_leader r, see_region a r). split.
    { apply check_region_Ok; [done|]. split_and!; [done|done|done|apply Hni; by left|by rewrite Hlb| |done].
      by rewrite bool_decide_eq_true. }
    apply bind_Ok. exists (norm_leader <$> rs). split; [|done].
    change (Some (norm_leader r)) with (norm_leader <$> Some r). apply IH; [done|].
    split_and!; [done..| |done|done]. intros r2 Hr2. rewrite Hids. intros [Heq|Hin]%elem_of_cons.
    + apply Hnr. rewrite <- Heq. apply list_elem_of_fmap. eauto.
    + by apply (Hni r2 ltac:(by right)).
Qed.

Lemma peers_fit_spec ids eps ps :
  peers_fit ids eps ps ↔
  Forall peer_ok ps ∧ NoDup (peerId <$> ps) ∧ (∀ p, p ∈ ps → peerId p ∉ ids) ∧
  (∀ p ep, p ∈ ps → eps !! storeId p = Some ep → ep = endpoint p) ∧
  (∀ p q, p ∈ ps → q ∈ ps → storeId p = storeId q → endpoint p = endpoint q).
Proof.
  revert ids eps. induction ps as [|p ps IH]; intros ids eps; simpl.
  { split; [intros _; split_and!; [constructor|constructor|set_solver..]|done]. }
  rewrite IH, Forall_cons, NoDup_cons. split.
  - intros (Hok & Hni & Hep & Hall & Hnd & Hnis & Heps & Hsame).
    assert (∀ q, q ∈ ps → storeId q = storeId p → endpoint q = endpoint p) as Hp.
    { intros q Hq Heq. rewrite (Heps q (endpoint p) Hq); [done|]. by rewrite Heq, lookup_insert_eq. }
    split_and!; try done.
    + intros (q & Heq & Hq)%list_elem_of_fmap. specialize (Hnis q Hq). rewrite Heq in Hnis. set_solver.
    + intros q [->|Hq]%elem_of_cons; [done|]. specialize (Hnis q Hq). set_solver.
    + intros q ep [->|Hq]%elem_of_cons He; [by apply Hep|].
      destruct (decide (storeId q = storeId p)) as [Heq|Hne].
      * rewrite Hp by done. apply Hep. by rewrite <- Heq.
      * apply (Heps q ep Hq). by rewrite lookup_insert_ne.
    + intros q1 q2 [->|H1]%elem_of_cons [->|H2]%elem_of_cons Heq; auto. symmetry. auto.
  - intros ([Hok Hall] & [Hni Hnd] & Hnis & Heps & Hsame). split_and!; try done.
    + apply Hnis. by left.
    + intros ep. apply Heps. by left.
    + intros q Hq [Heq|Hin]%elem_of_cons; [|by apply (Hnis q ltac:(by right))].
      apply Hni, list_elem_of_fmap. eauto.
    + intros q ep Hq [[Heq <-]|[_ He]]%lookup_insert_Some; [|apply (Heps q ep); [by right|done]].
      apply Hsame; [by left|by right|done].
    + intros q1 q2 H1 H2. apply Hsame; by right.
Qed.

Lemma all_peers_perm rs rs' : rs ≡ₚ rs' → all_peers rs ≡ₚ all_peers rs'.
Proof. intros Hp. unfold all_peers. by rewrite Hp. Qed.

Lemma all_peers_norm rs : all_peers (norm_leader <$> rs) = all_peers rs.
Proof.
  unfold all_peers. f_equal. rewrite <- list_fmap_compose. apply list_fmap_ext.
  intros i r _. apply (norm_leader_fields r).
Qed.

Lemma norm_regionIds (rs : list RegionMetadata) : regionId <$> (norm_leader <$> rs) = regionId <$> rs.
Proof.
  rewrite <- list_fmap_compose. apply list_fmap_ext. intros i r _. apply (norm_leader_fields r).
Qed.

(** The constructor accepts exactly the valid catalogs, after sorting and naming
    the missing leaders. *)
Lemma make_valid rs rs' :
  identified rs → RegionCatalog.make rs = Ok rs' →
  valid_catalog rs' ∧ rs' = norm_leader <$> sort_regions rs.
Proof.
  intros Hid. unfold RegionCatalog.make. case_bool_decide as Hne; [done|].
  assert (sort_regions rs ≡ₚ rs) as Hperm by apply merge_sort_Permutation.
  assert (identified (sort_regions rs)) as Hid'
    by (intros p; rewrite (all_peers_perm _ _ Hperm); apply Hid).
  intros (-> & Hok & Hnd & _ & Hch & Hfit)%(check_regions_Ok None); [|done].
  apply peers_fit_spec in Hfit as (_ & Hndp & _ & _ & Hsame). split; [|done]. split.
  - apply (chain_covers None); [|done|by apply (chain_norm None)].
    intros Hnil%fmap_nil_inv. rewrite Hnil in Hperm. by apply Permutation_nil_l in Hperm.
  - done.
  - by rewrite norm_regionIds.
  - by rewrite all_peers_norm.
  - by rewrite all_peers_norm.
Qed.

Lemma region_ok_leader r : region_ok r → norm_leader r = r.
Proof.
  intros [_ _ _ _ _ _ Hps Hl]. unfold norm_leader. rewrite Forall_forall in Hps.
  apply list_elem_of_fmap in Hl as (p & Heq & Hp). destruct (Hps p Hp) as [_ _ _ _ Hpid].
  destruct (N.eqb_spec (leaderPeerId r) 0); [congruence|done].
Qed.

Lemma valid_identified rs : Forall region_ok rs → identified rs.
Proof.
  intros Hok p (ps & Hp & Hps)%list_elem_of_join. apply list_elem_of_fmap in Hps as (r & -> & Hr).
  rewrite Forall_forall in Hok. destruct (Hok r Hr) as [_ _ _ _ _ _ Hpo _]. rewrite Forall_forall in Hpo.
  by destruct (Hpo p Hp).
Qed.

Lemma valid_make rs : valid_catalog rs → RegionCatalog.make rs = Ok rs.
Proof.
  intros [Hcov Hok Hnd Hndp Hsame]. unfold RegionCatalog.make.
  assert (rs ≠ []) as Hne by (by intros ->). rewrite bool_decide_false, (sort_covers _ _ Hcov) by done.
  assert (norm_leader <$> rs = rs) as Hnorm.
  { rewrite <- (list_fmap_id rs) at 2. apply list_fmap_ext. intros i r Hr%list_elem_of_lookup_2.
    rewrite Forall_forall in Hok. by apply region_ok_leader, Hok. }
  change (@None RegionMetadata) with (norm_leader <$> @None RegionMetadata).
  apply check_regions_Ok; [by apply valid_identified|]. rewrite Hnorm.
  split_and!; [done|done|done|by intros r _ ?%not_elem_of_nil|by apply (chain_covers None)|].
  apply peers_fit_spec. split_and!; [|done|by intros p _ ?%not_elem_of_nil|done|done].
  apply Forall_forall. intros p (ps & Hp & Hps)%list_elem_of_join. apply list_elem_of_fmap in Hps as (r & -> & Hr).
  rewrite Forall_forall in Hok. pose proof (ro_peers_ok _ (Hok r Hr)) as Hpo. rewrite Forall_forall in Hpo. auto.
Qed.

(** ** Guarantees of the catalog *)

Lemma check_regions_covers previous rs a rs' :
  rs ≠ [] → check_regions previous rs a = Ok rs' → covers (lower_bound previous) rs'.
Proof.
  revert previous a rs'. induction rs as [|r rs IH]; intros previous a rs' Hne; [done|]. simpl.
  intros ([r' a1] & Hr & Hrest)%bind_Ok. apply bind_Ok in Hrest as (rs1 & Hrs & [= <-]).
  destruct (check_region_range _ _ _ _ _ _ Hr) as (Es & Ee & Hlo & Hlast & Hrange).
  simpl. split; [congruence|]. rewrite bool_decide_eq_true in Hlast. destruct rs as [|r2 rs].
  { simpl in Hrs. injection Hrs as <-. rewrite Ee. by apply Hlast. }
  specialize (IH (Some r') a1 rs1 ltac:(done) Hrs). destruct rs1 as [|r2' rs1]; [done|].
  assert (endKey r ≠ EmptyString) as Hend by (rewrite Hlast; done).
  rewrite Es, Ee. split_and!; [done|by destruct Hrange|by rewrite <- Ee].
Qed.

Lemma make_covers rs cat : RegionCatalog.make rs = Ok cat → covers EmptyString cat.
Proof.
  unfold RegionCatalog.make. case_bool_decide as Hne; [done|]. intros Hc.
  apply (check_regions_covers None _ _ _) in Hc; [done|]. intros Hnil.
  assert (sort_regions rs ≡ₚ rs) as Hp by apply merge_sort_Permutation.
  rewrite Hnil in Hp. by apply Permutation_nil_l in Hp.
Qed.

Lemma covers_FindByKey cat key :
  covers EmptyString cat →
  ∃ r, RegionCatalog.FindByKey cat key = Ok r ∧ r ∈ cat ∧ Contains r key = true ∧
       ∀ r', r' ∈ cat → Contains r' key = true → r' = r.
Proof.
  intros Hcov. destruct (covers_find _ _ key Hcov (str_leb_empty key)) as (r & Hl & Hin & Hcon & Huniq).
  exists r. unfold RegionCatalog.FindByKey. rewrite Hl, Hcon. auto.
Qed.

(** A catalog partitions the key space: for every catalog the constructor
    accepts and every key, the lookup by key succeeds, and what it returns is a
    Region of the catalog that contains the key and the only one that does. *)
Theorem FindByKey_partition rs cat key :
  RegionCatalog.make rs = Ok cat →
  ∃ r, RegionCatalog.FindByKey cat key = Ok r ∧ r ∈ cat ∧ Contains r key = true ∧
       ∀ r', r' ∈ cat → Contains r' key = true → r' = r.
Proof. intros Hm. by apply covers_FindByKey, (make_covers rs). Qed.

(** What survives the conversion to a descriptor: an identifier in range, a port
    that fits a [short], and the node that goes with the Store. *)
Definition wire_peer (p : RegionPeerLocation) : Prop :=
  storeId p ≠ 0%N ∧ peerId p ≠ 0%N ∧ (0 < port p ≤ 32767)%Z ∧
  nodeId p = if (storeId p <=? int_max)%N then int_of_u64 (storeId p - 1) else (-1)%Z.

Fixpoint wire_ok (r : RegionMetadata) : Prop :=
  (0 ≤ regionId r ≤ 2147483647)%Z ∧ Forall wire_peer (peers r) ∧
  match r with
  | MkRegion _ _ _ _ _ _ _ (Some (MkSplitPending _ c)) => wire_ok c
  | _ => True
  end.

Lemma peer_roundtrip p : wire_peer p → FromProtoPeer (ToProtoPeer p) = Ok p.
Proof.
  intros (Hs & Hp & Hport & Hnode). unfold FromProtoPeer, ToProtoPeer. simpl.
  assert (u32_of_short (port p) = Z.to_N (port p)) as ->.
  { unfold u32_of_short. by rewrite Z.mod_small by lia. }
  rewrite (proj2 (N.eqb_neq _ _) Hs), (proj2 (N.eqb_neq _ _) Hp).
  rewrite (proj2 (N.eqb_neq (Z.to_N (port p)) 0)) by lia.
  rewrite (proj2 (N.ltb_ge short_max (Z.to_N (port p)))) by (unfold short_max; lia).
  simpl. f_equal. rewrite <- Hnode. unfold short_of_u32. rewrite Z2N.id by lia.
  rewrite Z.mod_small, (proj2 (Z.ltb_lt (port p) 32768)) by lia. by destruct p.
Qed.

Lemma peers_roundtrip ps : Forall wire_peer ps → mapM_result FromProtoPeer (ToProtoPeer <$> ps) = Ok ps.
Proof.
  intros Hps. apply mapM_result_Ok. induction Hps as [|p ps Hp _ IH]; simpl; constructor; [|done].
  by apply peer_roundtrip.
Qed.

Lemma wire_roundtrip r : wire_ok r → FromProtoRegion (ToProtoRegion r) = Ok r.
Proof.
  revert r. fix IH 1. intros [rid sk ek ps e rev leader pending] (Hid & Hps & Hpend). simpl in *.
  assert (u64_of_int rid = Z.to_N rid) as ->.
  { unfold u64_of_int. by rewrite Z.mod_small by lia. }
  rewrite (proj2 (N.ltb_ge int_max (Z.to_N rid))) by (unfold int_max; lia).
  assert (int_of_u64 (Z.to_N rid) = rid) as ->.
  { unfold int_of_u64. rewrite Z2N.id, Z.mod_small by lia.
    by rewrite (proj2 (Z.ltb_lt rid 2147483648)) by lia. }
  rewrite peers_roundtrip by done.
  destruct pending as [[k c]|]; simpl; [|done]. by rewrite (IH c Hpend).
Qed.

(** A Region descriptor survives the wire: decoding the descriptor of a
    Region gives the Region back, with its peers, epoch and pending split. *)
Theorem descriptor_roundtrip r : wire_ok r → FromProtoRegion (ToProtoRegion r) = Ok r.
Proof. apply wire_roundtrip. Qed.

Module CatalogDemo.

Definition peer (n : Z) (pid : N) : RegionPeerLocation := MkPeer n "h" 7000 0 pid false.
Definition left : RegionMetadata := MkRegion 1 EmptyString "m" [peer 0 11] (MkEpoch 1 1) 1 0 None.
Definition right : RegionMetadata := MkRegion 2 "m" EmptyString [peer 0 21] (MkEpoch 1 1) 1 21 None.

Lemma FindByKey_partition_witness :
  ∃ cat r, RegionCatalog.make [right; left] = Ok cat ∧ RegionCatalog.FindByKey cat "q" = Ok r ∧
           Contains r "q" = true.
Proof.
  eexists. destruct (FindByKey_partition [right; left] (norm_leader <$>
    [with_peers [MkPeer 0 "h" 7000 1 11 false] left; with_peers [MkPeer 0 "h" 7000 1 21 false] right]) "q")
    as (r & Hf & _ & Hc & _); [vm_compute; reflexivity|].
  exists r. split; [vm_compute; reflexivity|]. split; [exact Hf|exact Hc].
Defined.

Definition split_left : RegionMetadata :=
  with_pending (Some (MkSplitPending "c" (with_peers [] right))) (with_peers [MkPeer 0 "h" 7000 1 11 true] left).

Lemma descriptor_roundtrip_witness : FromProtoRegion (ToProtoRegion split_left) = Ok split_left.
Proof.
  apply (descriptor_roundtrip split_left). simpl.
  split_and!; try lia; repeat constructor; try done; simpl; lia.
Defined.

End CatalogDemo.
