(* ===== verification/TxnProg.v ===== *)
(** * Transactions and the programs that drive them

    The client's side of a transaction: class [Transaction]
    (src/src/transaction/transaction_coordinator.h and .cpp), and the language
    in which the coordinator and the recovery code are written.

    A program of this layer calls virtual methods of [MvccStorage] through a
    router, takes timestamps from the oracle and looks at the clock.  It is a
    tree of such events: each event has a type of answers, and the program goes
    on with the answer.  A storage call is two events, sending the request and
    waiting for its answer, because the coordinator also sends several requests
    through its thread pool before it waits for the first of them.  An exception
    that leaves a method carries the transaction object as it was left. *)

From Stdlib Require Import ZArith.
From S2P Require Import Prelude KvEngine MvccTypes Hlc Mvcc RegionMeta.

(** ** Class [Transaction] *)

Record TxnOptions := MkTxnOptions {
  lockTtlMs : N;
  transactionTimeoutMs : N;
  rpcBudgetMs : N
}.

Definition default_TxnOptions : TxnOptions := MkTxnOptions 120000 60000 5000.

Inductive TransactionState := TsActive | TsAbortOnly | TsCleanupPending | TsResultUnknown | TsFinished.

#[global] Instance TransactionState_eq_dec : EqDecision TransactionState.
Proof. solve_decision. Defined.

Record TxnMutation := MkTxnMutation { tm_value : string; tm_isDelete : bool }.

Module Transaction.

Record t := MkTransaction {
  startTs_ : N;
  mutations_ : gmap string TxnMutation;
  pessimisticLocks_ : list string;
  uncertainPessimisticLocks_ : list string;
  primaryKey_ : string;
  maxForUpdateTs_ : N;
  state_ : TransactionState
}.
Implicit Types (txn : t).

Definition create (startTs : N) : t := MkTransaction startTs ∅ [] [] EmptyString 0 TsActive.

Definition set_mutations txn m : t :=
  MkTransaction (startTs_ txn) m (pessimisticLocks_ txn) (uncertainPessimisticLocks_ txn)
    (primaryKey_ txn) (maxForUpdateTs_ txn) (state_ txn).
Definition set_locks txn locks uncertain : t :=
  MkTransaction (startTs_ txn) (mutations_ txn) locks uncertain
    (primaryKey_ txn) (maxForUpdateTs_ txn) (state_ txn).
Definition set_primary txn key : t :=
  MkTransaction (startTs_ txn) (mutations_ txn) (pessimisticLocks_ txn)
    (uncertainPessimisticLocks_ txn) key (maxForUpdateTs_ txn) (state_ txn).
Definition set_forUpdate txn ts : t :=
  MkTransaction (startTs_ txn) (mutations_ txn) (pessimisticLocks_ txn)
    (uncertainPessimisticLocks_ txn) (primaryKey_ txn) ts (state_ txn).
Definition set_state txn state : t :=
  MkTransaction (startTs_ txn) (mutations_ txn) (pessimisticLocks_ txn)
    (uncertainPessimisticLocks_ txn) (primaryKey_ txn) (maxForUpdateTs_ txn) state.

Definition EnsurePrimaryKey txn (key : string) : t :=
  if String.eqb (primaryKey_ txn) EmptyString then set_primary txn key else txn.

Definition Put txn (key value : string) : t :=
  let txn := EnsurePrimaryKey txn key in
  set_mutations txn (<[key := MkTxnMutation value false]> (mutations_ txn)).

Definition Delete txn (key : string) : t :=
  let txn := EnsurePrimaryKey txn key in
  set_mutations txn (<[key := MkTxnMutation EmptyString true]> (mutations_ txn)).

(** [push_back] unless [std::find] succeeds; [erase(remove(...))]. *)
Definition track (keys : list string) (key : string) : list string :=
  if bool_decide (key ∈ keys) then keys else keys ++ [key].
Definition forget (keys : list string) (key : string) : list string := filter (λ k, k ≠ key) keys.

Definition TrackPessimisticLock txn (key : string) : t :=
  let txn := EnsurePrimaryKey txn key in
  set_locks txn (track (pessimisticLocks_ txn) key) (uncertainPessimisticLocks_ txn).

Definition TrackUncertainPessimisticLock txn (key : string) : t :=
  set_locks txn (pessimisticLocks_ txn) (track (uncertainPessimisticLocks_ txn) key).

Definition ObserveForUpdateTs txn (forUpdateTs : N) : t :=
  set_forUpdate txn (N.max (maxForUpdateTs_ txn) forUpdateTs).

Definition ConfirmPessimisticLock txn (key : string) (forUpdateTs : N) : t :=
  let txn := set_locks txn (pessimisticLocks_ txn) (forget (uncertainPessimisticLocks_ txn) key) in
  ObserveForUpdateTs (TrackPessimisticLock txn key) forUpdateTs.

Definition ForgetPessimisticLock txn (key : string) : t :=
  set_locks txn (forget (pessimisticLocks_ txn) key) (forget (uncertainPessimisticLocks_ txn) key).

Definition ClearPessimisticLocks txn : t := set_locks txn [] [].

Definition ProposedPrimaryKey txn (key : string) : string :=
  if String.eqb (primaryKey_ txn) EmptyString then key else primaryKey_ txn.

Definition IsActive txn : bool := bool_decide (state_ txn = TsActive).

Definition MarkAbortOnly txn : t := if IsActive txn then set_state txn TsAbortOnly else txn.

Definition MarkCleanupPending txn : t :=
  match state_ txn with
  | TsActive | TsAbortOnly => set_state txn TsCleanupPending
  | _ => txn
  end.

Definition MarkResultUnknown txn : t :=
  match state_ txn with
  | TsFinished => txn
  | _ => set_state txn TsResultUnknown
  end.

Definition MarkFinished txn : t := set_state txn TsFinished.

End Transaction.

(** ** Requests to a storage *)

(** The virtual methods of [MvccStorage] that this layer calls.  The budget of
    an operation limits how long its caller waits. *)
Inductive store_op :=
| OpGet (key : string) (readTs : N)
| OpScan (startKey endKey : string) (readTs limit : N) (entries : list (string * string))
| OpAcquirePessimisticLockForUpdate (key pk : string) (startTs ttl fu expireAt budget : N)
| OpPrewriteLock (key pk : string) (startTs ttl fu budget : N)
| OpPrewrite (key value pk : string) (startTs ttl fu budget : N)
| OpPrewriteDelete (key pk : string) (startTs ttl fu budget : N)
| OpBatchPrewrite (mutations : list MvccMutation) (pk : string) (startTs ttl fu budget : N)
| OpCommit (key : string) (startTs commitTs : N)
| OpCommitWithBudget (key : string) (startTs commitTs budget : N)
| OpBatchCommit (keys : list string) (startTs commitTs budget : N)
| OpRollback (key : string) (startTs : N)
| OpBatchRollback (keys : list string) (startTs : N)
| OpCheckTxnStatus (key : string) (startTs currentPhysicalMs : N) (rollbackIfExpired : bool) (budget : N)
| OpResolveLock (key : string) (startTs : N) (decision : TxnRecordState) (commitTs : N)
| OpExpiredLocks (nowMs : N)
| OpGarbageCollect (safePointTs : N)
| OpStats
| OpCapabilities
| OpMaxObservedTs.

(** What a call returns.  A batch prewrite answers its status and whether the
    storage is remote and asks for the keys to be regrouped; a status query
    leaves the record untouched when it fails. *)
Definition answer_of (op : store_op) : Type :=
  match op with
  | OpGet _ _ => TxnStatus * option string
  | OpScan _ _ _ _ _ => TxnStatus * list (string * string)
  | OpAcquirePessimisticLockForUpdate _ _ _ _ _ _ _ => PessimisticLockResult
  | OpBatchPrewrite _ _ _ _ _ _ => TxnStatus * bool
  | OpCheckTxnStatus _ _ _ _ _ => TxnStatus * option TxnRecordStatus
  | OpExpiredLocks _ => list (string * MvccLock)
  | OpGarbageCollect _ => N
  | OpStats => MvccStats
  | OpCapabilities => ProtocolCapabilities
  | OpMaxObservedTs => N
  | _ => TxnStatus
  end.

(** ** Programs *)

Inductive counter := RollbackRegions | LockTimeouts | LockConflicts.

(** A storage is named by the identifier of its Region.  [ENext] answers [None]
    when the oracle throws, the router events when the lookup throws. *)
Inductive event :=
| ENext
| EObserve (ts : N)
| ERoute (key : string)
| ERegionId (key : string)
| EShardId (key : string)
| ERegionsInRange (startKey endKey : string)
| EShards
| ERemainingBudget
| ESleep (ms : N)
| ESubmit (region : Z) (op : store_op)
| EAwait (region : Z) (op : store_op)
| ECount (what : counter) (n : N)
| EForever.

Definition resp (e : event) : Type :=
  match e with
  | ENext => option N
  | ERoute _ | ERegionId _ => option Z
  | EShardId _ => option N
  | ERegionsInRange _ _ => option (list (RegionMetadata * Z))
  | EShards => list Z
  | ERemainingBudget => N
  | EAwait _ op => answer_of op
  | EForever => Empty_set
  | EObserve _ | ESleep _ | ESubmit _ _ | ECount _ _ => unit
  end.

Inductive prog (X A : Type) :=
| Ret (a : A)
| Raise (x : X)
| Vis (e : event) (k : resp e → prog X A).
Arguments Ret {X A} a.
Arguments Raise {X A} x.
Arguments Vis {X A} e k.

Fixpoint prog_bind_def {X A B} (f : A → prog X B) (p : prog X A) : prog X B :=
  match p with
  | Ret a => f a
  | Raise x => Raise x
  | Vis e k => Vis e (λ r, prog_bind_def f (k r))
  end.

#[global] Instance prog_ret X : MRet (prog X) := λ A a, Ret a.
#[global] Instance prog_bind X : MBind (prog X) := λ A B f p, prog_bind_def f p.

Section events.
Context {X : Type}.

Definition ask (e : event) : prog X (resp e) := Vis e (λ r, Ret r).

Definition or_raise {A} (x : X) (r : option A) : prog X A :=
  match r with Some a => Ret a | None => Raise x end.

(** [router_->Route(key)] and [router_->RegionId(key)]; [x] is what the exception
    leaves behind. *)
Definition Route (x : X) (key : string) : prog X Z := r ← ask (ERoute key); or_raise x r.
Definition RegionId (x : X) (key : string) : prog X Z := r ← ask (ERegionId key); or_raise x r.

Definition call (region : Z) (op : store_op) : prog X (answer_of op) :=
  _ ← ask (ESubmit region op); ask (EAwait region op).

(** [router_->Route(key)->op] *)
Definition call_at (x : X) (key : string) (op : store_op) : prog X (answer_of op) :=
  region ← Route x key; call region op.

(** A loop the program does not leave: it is entered when the rounds a model
    grants an unbounded loop are used up. *)
Definition forever {A} : prog X A := Vis EForever (λ r : resp EForever, match r with end).

End events.

(** ** Helpers of distributed_transaction_coordinator.cpp *)

Definition HasMutation (txn : Transaction.t) (key : string) : bool :=
  bool_decide (is_Some (Transaction.mutations_ txn !! key)).

Definition IsCommitSuccess (st : TxnStatus) : bool :=
  match st with StOk | StAlreadyCommitted => true | _ => false end.

Definition SaturatingAdd (value delta : N) : N :=
  if (u64_max - delta <? value)%N then u64_max else (value + delta)%N.

(** [left] are the nanoseconds until the deadline, 0 if it has passed. *)
Definition RemainingBudgetMs (left : N) : N :=
  if (left =? 0)%N then 0%N else N.max 1 (left / 1000000).

Definition SortedUnique (keys : list string) : list string :=
  MvccStorage.unique_adjacent (MvccStorage.sort_names keys).

(** The keys of an [unordered_map], in the order the traversal of the map gives
    them; every use sorts them. *)
Definition mutation_keys (txn : Transaction.t) : list string :=
  (map_to_list (Transaction.mutations_ txn)).*1.

Definition CleanupKeys (txn : Transaction.t) : list string :=
  SortedUnique (mutation_keys txn ++ Transaction.pessimisticLocks_ txn ++
                Transaction.uncertainPessimisticLocks_ txn).
