(* ===== verification/Coordinator.v ===== *)
(** * The distributed transaction coordinator

    src/src/transaction/distributed_transaction_coordinator.cpp: snapshot reads,
    pessimistic locking, the two-phase commit over the Regions of a transaction's
    keys, rollback and status queries.  Each method is a program of [TxnProg];
    it takes and returns the transaction object the C++ method mutates.

    A null [Transaction*] and the test failpoints are not modelled.  The loop
    that allocates a commit timestamp and the loop that resolves an unanswered
    primary commit have no bound in the code; they get [rounds] iterations here
    and go on [forever] after that.  Log lines are left out. *)

From Stdlib Require Import ZArith.
From S2P Require Import Prelude KvEngine MvccTypes Hlc Mvcc RegionMeta TxnProg.
Import Transaction.

Module Coordinator.

(** The members that are not services: what the cluster supports. *)
Record t := MkCoordinator { pessimisticEnabled_ : bool; batchEnabled_ : bool }.
Implicit Types (co : t) (txn : Transaction.t) (opts : TxnOptions).

Notation tprog := (prog Transaction.t).

(** ** Grouping by Region *)

(** [RegionKeyBatch], [MutationBatch] *)
Record RegionBatch (A : Type) := MkRegionBatch {
  rb_regionId : Z;
  rb_storage : Z;
  rb_items : list A
}.
Arguments MkRegionBatch {A} _ _ _.
Arguments rb_regionId {A} _.
Arguments rb_storage {A} _.
Arguments rb_items {A} _.

Definition rb_le {A} (a b : RegionBatch A) : Prop := (rb_regionId a ≤ rb_regionId b)%Z.

#[global] Instance rb_le_dec {A} (a b : RegionBatch A) : Decision (rb_le a b).
Proof. unfold rb_le. apply _. Defined.

Definition rb_add {A} (region : Z) (item : A) (b : RegionBatch A) : RegionBatch A :=
  if bool_decide (rb_regionId b = region)
  then MkRegionBatch (rb_regionId b) (rb_storage b) (rb_items b ++ [item]) else b.

(** The loop over the keys; a Region's storage is looked up at its first key. *)
Fixpoint group_loop {A} txn (key_of : A → string) (items : list A) (batches : list (RegionBatch A))
    : tprog (list (RegionBatch A)) :=
  match items with
  | [] => Ret batches
  | item :: rest =>
      region ← RegionId txn (key_of item);
      if existsb (λ b, bool_decide (rb_regionId b = region)) batches
      then group_loop txn key_of rest (rb_add region item <$> batches)
      else
        storage ← Route txn (key_of item);
        group_loop txn key_of rest (batches ++ [MkRegionBatch region storage [item]])
  end.

Definition group {A} txn (key_of : A → string) (items : list A) : tprog (list (RegionBatch A)) :=
  batches ← group_loop txn key_of items []; Ret (merge_sort rb_le batches).

Definition GroupKeysByRegion txn (keys : list string) : tprog (list (RegionBatch string)) :=
  group txn id (SortedUnique keys).

(** [Submit] for every request, then [get] on every future. *)
Fixpoint submit_all {X} (reqs : list (Z * store_op)) : prog X unit :=
  match reqs with
  | [] => Ret tt
  | (region, op) :: rest => _ ← ask (ESubmit region op); submit_all rest
  end.

(** ** Deadlines *)

(** The status, the timestamp written to [*nowTs] (0 if none was), the object. *)
Definition CheckActiveAndDeadline txn opts : tprog (TxnStatus * N * Transaction.t) :=
  match state_ txn with
  | TsAbortOnly => Ret (StAbortOnly, 0%N, txn)
  | TsCleanupPending => Ret (StCleanupPending, 0%N, txn)
  | TsResultUnknown => Ret (StResultUnknown, 0%N, txn)
  | TsFinished => Ret (StAbortOnly, 0%N, txn)
  | TsActive =>
      if (lockTtlMs opts <=? transactionTimeoutMs opts)%N || (rpcBudgetMs opts =? 0)%N
      then Ret (StStorageError, 0%N, txn)
      else
        next ← ask ENext;
        match next with
        | None => Ret (StStorageError, 0%N, txn)
        | Some current =>
            let startPhysical := HlcTimestamp.PhysicalMs (startTs_ txn) in
            let currentPhysical := HlcTimestamp.PhysicalMs current in
            if negb (startPhysical =? 0)%N &&
               (SaturatingAdd startPhysical (transactionTimeoutMs opts) <=? currentPhysical)%N
            then Ret (StTimeout, current, MarkAbortOnly txn)
            else Ret (StOk, current, txn)
        end
  end.

Definition Validate txn opts : tprog (TxnStatus * Transaction.t) :=
  '(st, _, txn) ← CheckActiveAndDeadline txn opts; Ret (st, txn).

(** ** Snapshot reads *)

Definition Get txn (key : string) opts : tprog (TxnStatus * option string * Transaction.t) :=
  if String.eqb key EmptyString then Ret (StStorageError, None, txn)
  else
    '(active, _, txn) ← CheckActiveAndDeadline txn opts;
    if negb (bool_decide (active = StOk)) then Ret (active, None, txn)
    else
      '(st, v) ← call_at txn key (OpGet key (startTs_ txn));
      Ret (st, v, txn).

(** The intersection of the range with a Region. *)
Definition clip_start (startKey : string) (region : RegionMetadata) : string :=
  if String.eqb startKey EmptyString || str_ltb startKey (RegionMeta.startKey region)
  then RegionMeta.startKey region else startKey.

Definition clip_end (endKey : string) (region : RegionMetadata) : string :=
  if negb (String.eqb (RegionMeta.endKey region) EmptyString) &&
     (String.eqb endKey EmptyString || str_ltb (RegionMeta.endKey region) endKey)
  then RegionMeta.endKey region else endKey.

Fixpoint scan_regions txn (startKey endKey : string) (limit : N)
    (regions : list (RegionMetadata * Z)) (entries : list (string * string))
    : tprog (TxnStatus * list (string * string)) :=
  match regions with
  | [] => Ret (StOk, entries)
  | (region, storage) :: rest =>
      if negb (limit =? 0)%N && (limit <=? N.of_nat (length entries))%N then Ret (StOk, entries)
      else
        let clipStart := clip_start startKey region in
        let clipEnd := clip_end endKey region in
        if negb (String.eqb clipEnd EmptyString) && str_leb clipEnd clipStart
        then scan_regions txn startKey endKey limit rest entries
        else
          let remaining := if (limit =? 0)%N then 0%N else (limit - N.of_nat (length entries))%N in
          '(st, entries) ← call storage (OpScan clipStart clipEnd (startTs_ txn) remaining entries);
          if negb (bool_decide (st = StOk)) then Ret (st, entries)
          else scan_regions txn startKey endKey limit rest entries
  end.

Definition Scan txn (startKey endKey : string) (limit : N) (entries : list (string * string)) opts
    : tprog (TxnStatus * list (string * string) * Transaction.t) :=
  if negb (String.eqb endKey EmptyString) && str_leb endKey startKey
  then Ret (StStorageError, entries, txn)
  else
    '(active, _, txn) ← CheckActiveAndDeadline txn opts;
    if negb (bool_decide (active = StOk)) then Ret (active, entries, txn)
    else
      found ← ask (ERegionsInRange startKey endKey);
      regions ← or_raise txn found;
      '(st, entries) ← scan_regions txn startKey endKey limit regions entries;
      Ret (st, entries, txn).

(** ** Rolling back *)

Fixpoint shard_ids txn (keys : list string) : tprog (list N) :=
  match keys with
  | [] => Ret []
  | key :: rest =>
      found ← ask (EShardId key);
      shard ← or_raise txn found;
      shards ← shard_ids txn rest;
      Ret (shard :: shards)
  end.

Definition RecordRollbackRegions txn (keys : list string) : tprog unit :=
  shards ← shard_ids txn keys;
  ask (ECount RollbackRegions (N.of_nat (length (remove_dups shards)))).

Definition cleanup_status (aggregate st : TxnStatus) : TxnStatus :=
  match st with
  | StOk => aggregate
  | StAlreadyCommitted => StAlreadyCommitted
  | _ => StCleanupPending
  end.

Fixpoint cleanup_keys txn (keys : list string) (aggregate : TxnStatus)
    : tprog (TxnStatus * Transaction.t) :=
  match keys with
  | [] => Ret (aggregate, txn)
  | key :: rest =>
      st ← call_at txn key (OpRollback key (startTs_ txn));
      let txn := if bool_decide (st = StOk) then ForgetPessimisticLock txn key else txn in
      cleanup_keys txn rest (cleanup_status aggregate st)
  end.

Fixpoint cleanup_batches txn (batches : list (RegionBatch string)) (aggregate : TxnStatus)
    : tprog (TxnStatus * Transaction.t) :=
  match batches with
  | [] => Ret (aggregate, txn)
  | b :: rest =>
      st ← ask (EAwait (rb_storage b) (OpBatchRollback (rb_items b) (startTs_ txn)));
      let txn := if bool_decide (st = StOk) then foldl ForgetPessimisticLock txn (rb_items b) else txn in
      cleanup_batches txn rest (cleanup_status aggregate st)
  end.

Definition CleanupTransaction co txn : tprog (TxnStatus * Transaction.t) :=
  let keys := CleanupKeys txn in
  '(aggregate, txn) ←
    (if negb (batchEnabled_ co) then cleanup_keys txn keys StOk
     else
       batches ← GroupKeysByRegion txn keys;
       _ ← submit_all ((λ b, (rb_storage b, OpBatchRollback (rb_items b) (startTs_ txn))) <$> batches);
       cleanup_batches txn batches StOk);
  _ ← RecordRollbackRegions txn keys;
  Ret (aggregate, if bool_decide (aggregate = StOk) then ClearPessimisticLocks txn else txn).

(** [MarkAbortOnly], clean up, and report [failure] unless the cleanup did not
    finish. *)
Definition abort_with co txn (failure : TxnStatus) : tprog (TxnStatus * Transaction.t) :=
  '(cleanup, txn) ← CleanupTransaction co (MarkAbortOnly txn);
  if negb (bool_decide (cleanup = StOk)) then Ret (StCleanupPending, MarkCleanupPending txn)
  else Ret (failure, txn).

(** ** Pessimistic locks *)

Definition stripped (r : PessimisticLockResult) : PessimisticLockResult :=
  MkPessimisticLockResult (plr_status r) false EmptyString 0 (plr_applied r).

(** A lock is known to be absent after these failures. *)
Definition lock_refused (st : TxnStatus) : bool :=
  match st with
  | StResultUnknown | StTimeout | StStorageError => false
  | _ => true
  end.

Definition count_failure (st : TxnStatus) : tprog unit :=
  match st with
  | StTimeout => ask (ECount LockTimeouts 1)
  | StLockConflict | StWriteConflict => ask (ECount LockConflicts 1)
  | _ => Ret tt
  end.

(** [BatchLockingReadResult]: the status and the values by key. *)
Definition locking_read : Type := TxnStatus * list (string * PessimisticLockResult).

Fixpoint acquire_loop co txn opts (returnValues : bool) (forUpdateTs expireAt : N)
    (keys : list string) (values : list (string * PessimisticLockResult))
    : tprog (locking_read * Transaction.t) :=
  match keys with
  | [] => Ret ((StOk, values), txn)
  | key :: rest =>
      let primary := ProposedPrimaryKey txn key in
      let txn := ObserveForUpdateTs (TrackUncertainPessimisticLock txn key) forUpdateTs in
      result ← call_at txn key (OpAcquirePessimisticLockForUpdate key primary (startTs_ txn)
                 (lockTtlMs opts) forUpdateTs expireAt (rpcBudgetMs opts));
      let st := if bool_decide (plr_status result = StOk) && negb (plr_applied result)
                then StResultUnknown else plr_status result in
      if bool_decide (st = StOk) then
        acquire_loop co (ConfirmPessimisticLock txn key forUpdateTs) opts returnValues forUpdateTs
          expireAt rest (values ++ [(key, if returnValues then result else stripped result)])
      else
        let txn := if lock_refused st then ForgetPessimisticLock txn key else txn in
        _ ← count_failure st;
        '(failure, txn) ← abort_with co txn st;
        Ret ((failure, []), txn)
  end.

Definition AcquireKeys co txn (requestedKeys : list string) (returnValues : bool) opts
    : tprog (locking_read * Transaction.t) :=
  if negb (pessimisticEnabled_ co) then Ret ((StStorageError, []), txn)
  else
    let keys := SortedUnique requestedKeys in
    if bool_decide (keys = []) then Ret ((StOk, []), txn)
    else if existsb (String.eqb EmptyString) keys then Ret ((StStorageError, []), txn)
    else
      '(active, forUpdateTs, txn) ← CheckActiveAndDeadline txn opts;
      if negb (bool_decide (active = StOk)) then Ret ((active, []), txn)
      else acquire_loop co txn opts returnValues forUpdateTs
             (SaturatingAdd (HlcTimestamp.PhysicalMs forUpdateTs) (lockTtlMs opts)) keys [].

Definition GetForUpdate co txn (key : string) opts : tprog (PessimisticLockResult * Transaction.t) :=
  '((st, values), txn) ← AcquireKeys co txn [key] true opts;
  match st, values with
  | StOk, (_, r) :: _ => Ret (r, txn)
  | _, _ => Ret (MkPessimisticLockResult st false EmptyString 0 false, txn)
  end.

(** The values in the order the caller asked for them. *)
Definition BatchGetForUpdate co txn (keys : list string) opts : tprog (locking_read * Transaction.t) :=
  '((st, values), txn) ← AcquireKeys co txn keys true opts;
  if negb (bool_decide (st = StOk)) then Ret ((st, values), txn)
  else
    let byKey : gmap string PessimisticLockResult := list_to_map values in
    Ret ((st, omap (λ key, pair key <$> byKey !! key) keys), txn).

Definition LockKeys co txn (keys : list string) opts : tprog (TxnStatus * Transaction.t) :=
  '((st, _), txn) ← AcquireKeys co txn keys false opts; Ret (st, txn).

Definition PessimisticLock co txn (key : string) opts : tprog (TxnStatus * Transaction.t) :=
  LockKeys co txn [key] opts.

(** ** Commit *)

(** The status of the primary; [None] when the query failed. *)
Definition QueryStatus txn (budget : N) : tprog (TxnStatus * option TxnRecordStatus) :=
  if String.eqb (primaryKey_ txn) EmptyString then Ret (StStorageError, None)
  else
    next ← ask ENext;
    match next with
    | None => Ret (StStorageError, None)
    | Some nowTs =>
        call_at txn (primaryKey_ txn)
          (OpCheckTxnStatus (primaryKey_ txn) (startTs_ txn) (HlcTimestamp.PhysicalMs nowTs) false budget)
    end.

(** Prewriting key by key; the loop stops at the first failure. *)
Definition call_prewrite txn opts (pk key : string) (m : TxnMutation) : tprog TxnStatus :=
  if tm_isDelete m
  then call_at txn key (OpPrewriteDelete key pk (startTs_ txn) (lockTtlMs opts) (maxForUpdateTs_ txn)
                          (rpcBudgetMs opts))
  else call_at txn key (OpPrewrite key (tm_value m) pk (startTs_ txn) (lockTtlMs opts)
                          (maxForUpdateTs_ txn) (rpcBudgetMs opts)).

Fixpoint prewrite_keys txn opts (pk : string) (keys : list string) (prewritten : list string)
    : tprog (TxnStatus * list string) :=
  match keys with
  | [] => Ret (StOk, prewritten)
  | key :: rest =>
      match mutations_ txn !! key with
      | None => Raise txn (* [Mutations().at(key)] *)
      | Some m =>
          st ← call_prewrite txn opts pk key m;
          if bool_decide (st = StOk) then prewrite_keys txn opts pk rest (prewritten ++ [key])
          else Ret (st, prewritten)
      end
  end.

Definition prewrite_singly txn opts (pk : string) (mutationKeys : list string)
    : tprog (TxnStatus * list string) :=
  if HasMutation txn pk then prewrite_keys txn opts pk mutationKeys []
  else
    st ← call_at txn pk (OpPrewriteLock pk pk (startTs_ txn) (lockTtlMs opts) (maxForUpdateTs_ txn)
                           (rpcBudgetMs opts));
    if bool_decide (st = StOk) then prewrite_keys txn opts pk mutationKeys [pk] else Ret (st, []).

Definition batch_prewrite_op txn opts (pk : string) (b : RegionBatch MvccMutation) : store_op :=
  OpBatchPrewrite (MvccStorage.sort_mutations (rb_items b)) pk (startTs_ txn) (lockTtlMs opts)
    (maxForUpdateTs_ txn) (rpcBudgetMs opts).

(** [dispatchRound]: the status of the round, the keys prewritten so far and the
    mutations to regroup; [mayRegroup] is [regroupPending != nullptr]. *)
Record round_result := MkRound {
  rr_status : TxnStatus;
  rr_prewritten : list string;
  rr_regroup : list MvccMutation
}.

Fixpoint await_round txn opts (pk : string) (mayRegroup : bool)
    (batches : list (RegionBatch MvccMutation)) (acc : round_result) : tprog round_result :=
  match batches with
  | [] => Ret acc
  | b :: rest =>
      let muts := MvccStorage.sort_mutations (rb_items b) in
      answer ← (ask (EAwait (rb_storage b) (OpBatchPrewrite muts pk (startTs_ txn) (lockTtlMs opts)
                  (maxForUpdateTs_ txn) (rpcBudgetMs opts))) : tprog (TxnStatus * bool));
      let '(st, regroup) := answer in
      await_round txn opts pk mayRegroup rest
        (if bool_decide (st = StOk)
         then MkRound (rr_status acc) (rr_prewritten acc ++ (mut_key <$> muts)) (rr_regroup acc)
         else if regroup && mayRegroup
         then MkRound (rr_status acc) (rr_prewritten acc) (rr_regroup acc ++ muts)
         else MkRound (if bool_decide (rr_status acc = StOk) then st else rr_status acc)
                (rr_prewritten acc) (rr_regroup acc))
  end.

Definition dispatchRound txn opts (pk : string) (pending : list MvccMutation) (mayRegroup : bool)
    (prewritten : list string) : tprog round_result :=
  batches ← group txn mut_key pending;
  _ ← submit_all ((λ b, (rb_storage b, batch_prewrite_op txn opts pk b)) <$> batches);
  await_round txn opts pk mayRegroup batches (MkRound StOk prewritten []).

Fixpoint pending_mutations txn (keys : list string) : tprog (list MvccMutation) :=
  match keys with
  | [] => Ret []
  | key :: rest =>
      match mutations_ txn !! key with
      | None => Raise txn (* [Mutations().at(key)] *)
      | Some m =>
          ms ← pending_mutations txn rest;
          Ret (MkMutation key (tm_value m) (tm_isDelete m) false :: ms)
      end
  end.

Definition prewrite_batched txn opts (pk : string) (mutationKeys : list string)
    : tprog (TxnStatus * list string) :=
  ms ← pending_mutations txn mutationKeys;
  let pending := if HasMutation txn pk then ms else MkMutation pk EmptyString false true :: ms in
  first ← dispatchRound txn opts pk pending true [];
  if bool_decide (rr_regroup first = []) then Ret (rr_status first, rr_prewritten first)
  else
    retry ← dispatchRound txn opts pk (rr_regroup first) false (rr_prewritten first);
    Ret (if bool_decide (rr_status first = StOk) then rr_status retry else rr_status first,
         rr_prewritten retry).

(** The loop that takes timestamps until one is above the transaction's. *)
Fixpoint next_commit_ts (rounds : nat) txn : tprog (option N) :=
  match rounds with
  | O => forever
  | S rounds =>
      next ← ask ENext;
      match next with
      | None => Ret None
      | Some commitTs =>
          if (commitTs <=? N.max (startTs_ txn) (maxForUpdateTs_ txn))%N
          then next_commit_ts rounds txn else Ret (Some commitTs)
      end
  end.

Definition commit_primary txn (commitTs budget : N) : tprog TxnStatus :=
  call_at txn (primaryKey_ txn) (OpCommitWithBudget (primaryKey_ txn) (startTs_ txn) commitTs budget).

Inductive resolution := PrimaryCommitted (commitTs : N) | PrimaryRolledBack | PrimaryUnknown.

(** The loop after a primary commit that did not succeed. *)
Fixpoint resolve_primary (rounds : nat) txn (commitTs : N) : tprog resolution :=
  match rounds with
  | O => forever
  | S rounds =>
      let again : tprog resolution :=
        pause ← ask ERemainingBudget;
        if (pause =? 0)%N then Ret PrimaryUnknown
        else _ ← ask (ESleep (N.min 10 pause)); resolve_primary rounds txn commitTs in
      remaining ← ask ERemainingBudget;
      if (remaining =? 0)%N then Ret PrimaryUnknown
      else
        '(query, record) ← QueryStatus txn remaining;
        match query, trs_state (default default_TxnRecordStatus record) with
        | StOk, RsCommitted =>
            Ret (PrimaryCommitted (trs_commitTs (default default_TxnRecordStatus record)))
        | StOk, RsRolledBack => Ret PrimaryRolledBack
        | StOk, _ =>
            budget ← ask ERemainingBudget;
            if (budget =? 0)%N then Ret PrimaryUnknown
            else
              st ← commit_primary txn commitTs budget;
              if IsCommitSuccess st then Ret (PrimaryCommitted commitTs) else again
        | _, _ => again
        end
  end.

Fixpoint call_each txn (op : string → store_op) (keys : list string) : tprog unit :=
  match keys with
  | [] => Ret tt
  | key :: rest => _ ← call_at txn key (op key); call_each txn op rest
  end.

Fixpoint await_all {X} (reqs : list (Z * store_op)) : prog X unit :=
  match reqs with
  | [] => Ret tt
  | (region, op) :: rest => _ ← ask (EAwait region op); await_all rest
  end.

(** One request per Region for [keys], all sent before the first answer. *)
Definition call_batches txn (op : list string → store_op) (keys : list string) : tprog unit :=
  batches ← GroupKeysByRegion txn keys;
  let reqs := (λ b, (rb_storage b, op (rb_items b))) <$> batches in
  _ ← submit_all reqs; await_all reqs.

(** Everything after the primary is known to be committed: the secondaries are
    committed and locks without a mutation released, whatever the answers. *)
Definition finish_commit co txn opts (prewritten : list string) (commitTs : N)
    : tprog (TxnStatus * Transaction.t) :=
  let pk := primaryKey_ txn in
  let secondaryKeys := filter (λ key, key ≠ pk) prewritten in
  _ ← (if negb (batchEnabled_ co)
       then call_each txn (λ key, OpCommit key (startTs_ txn) commitTs) secondaryKeys
       else call_batches txn (λ keys, OpBatchCommit keys (startTs_ txn) commitTs (rpcBudgetMs opts))
              secondaryKeys);
  let pure := filter (λ key, key ≠ pk ∧ HasMutation txn key = false) (pessimisticLocks_ txn) in
  _ ← (if negb (batchEnabled_ co)
       then call_each txn (λ key, OpRollback key (startTs_ txn)) pure
       else call_batches txn (λ keys, OpBatchRollback keys (startTs_ txn)) pure);
  Ret (StOk, MarkFinished (ClearPessimisticLocks txn)).

Definition commit_phase co (rounds : nat) txn opts (prewritten : list string)
    : tprog (TxnStatus * Transaction.t) :=
  next ← next_commit_ts rounds txn;
  match next with
  | None => abort_with co txn StStorageError
  | Some commitTs =>
      st ← commit_primary txn commitTs (rpcBudgetMs opts);
      if IsCommitSuccess st then finish_commit co txn opts prewritten commitTs
      else
        resolved ← resolve_primary rounds txn commitTs;
        match resolved with
        | PrimaryCommitted commitTs => finish_commit co txn opts prewritten commitTs
        | PrimaryRolledBack => abort_with co txn StWriteConflict
        | PrimaryUnknown => Ret (StResultUnknown, MarkResultUnknown txn)
        end
  end.

Definition Commit co (rounds : nat) txn opts : tprog (TxnStatus * Transaction.t) :=
  '(active, _, txn) ← CheckActiveAndDeadline txn opts;
  if negb (bool_decide (active = StOk)) then Ret (active, txn)
  else if bool_decide (mutations_ txn = ∅) then
    '(cleanup, txn) ← CleanupTransaction co txn;
    if bool_decide (cleanup = StOk) then Ret (StOk, MarkFinished txn)
    else Ret (StCleanupPending, MarkCleanupPending txn)
  else if String.eqb (primaryKey_ txn) EmptyString then Ret (StStorageError, txn)
  else
    let mutationKeys := SortedUnique (mutation_keys txn) in
    '(prewriteStatus, prewritten) ←
      (if negb (batchEnabled_ co) then prewrite_singly txn opts (primaryKey_ txn) mutationKeys
       else prewrite_batched txn opts (primaryKey_ txn) mutationKeys);
    if negb (bool_decide (prewriteStatus = StOk)) then
      abort_with co txn (if bool_decide (prewriteStatus = StResultUnknown) then StTimeout
                         else prewriteStatus)
    else commit_phase co rounds txn opts prewritten.

(** ** Rollback *)

Fixpoint resolve_keys txn (decision : TxnRecordState) (commitTs : N) (keys : list string)
    (resolved : TxnStatus) : tprog TxnStatus :=
  match keys with
  | [] => Ret resolved
  | key :: rest =>
      st ← call_at txn key (OpResolveLock key (startTs_ txn) decision commitTs);
      resolve_keys txn decision commitTs rest
        (if bool_decide (st = StOk) then resolved else StCleanupPending)
  end.

Definition rollback_unknown txn opts : tprog (TxnStatus * Transaction.t) :=
  '(query, record) ← QueryStatus txn (rpcBudgetMs opts);
  if negb (bool_decide (query = StOk)) then Ret (StResultUnknown, txn)
  else
    let authoritative := default default_TxnRecordStatus record in
    let resolutionState := match trs_state authoritative with
                           | RsLocked | RsNotFound => RsRolledBack
                           | st => st
                           end in
    resolved ← resolve_keys txn resolutionState (trs_commitTs authoritative) (CleanupKeys txn) StOk;
    if negb (bool_decide (resolved = StOk)) then Ret (resolved, MarkCleanupPending txn)
    else Ret (if bool_decide (trs_state authoritative = RsCommitted) then StAlreadyCommitted else StOk,
              MarkFinished (ClearPessimisticLocks txn)).

Definition Rollback co txn opts : tprog (TxnStatus * Transaction.t) :=
  match state_ txn with
  | TsFinished => Ret (StOk, txn)
  | TsResultUnknown => rollback_unknown txn opts
  | _ =>
      '(cleanup, txn) ← CleanupTransaction co txn;
      match cleanup with
      | StOk => Ret (StOk, MarkFinished txn)
      | StAlreadyCommitted => Ret (StAlreadyCommitted, MarkFinished txn)
      | _ => Ret (StCleanupPending, MarkCleanupPending txn)
      end
  end.

(** ** Maintenance *)

Fixpoint garbage_collect {X} (shards : list Z) (safePointTs removed : N) : prog X N :=
  match shards with
  | [] => Ret removed
  | shard :: rest =>
      n ← (call shard (OpGarbageCollect safePointTs) : prog X N);
      garbage_collect rest safePointTs (removed +₆₄ n)
  end.

Definition GarbageCollect {X} (safePointTs : N) : prog X N :=
  shards ← ask EShards; garbage_collect shards safePointTs 0.

Fixpoint active_locks {X} (shards : list Z) (acc : N) : prog X N :=
  match shards with
  | [] => Ret acc
  | shard :: rest =>
      stats ← (call shard OpStats : prog X MvccStats);
      active_locks rest (acc +₆₄ pessimisticLockCount stats)
  end.

(** The constructor's loop over the shards: the members it computes and the
    largest timestamp it observed. *)
Fixpoint open_loop {X} (shards : list Z) (co : t) (maxObservedTs : N) : prog X (t * N) :=
  match shards with
  | [] => Ret (co, maxObservedTs)
  | shard :: rest =>
      ts ← (call shard OpMaxObservedTs : prog X N);
      caps ← (call shard OpCapabilities : prog X ProtocolCapabilities);
      let v := protocolVersion caps in
      open_loop rest
        (MkCoordinator (pessimisticEnabled_ co && negb (v <? kPessimisticTxnProtocolVersion)%N)
                       (batchEnabled_ co && negb (v <? kBatchTxnProtocolVersion)%N))
        (N.max maxObservedTs ts)
  end.

Definition Open {X} : prog X t :=
  shards ← ask EShards;
  '(co, maxObservedTs) ← open_loop shards (MkCoordinator true true) 0;
  _ ← ask (EObserve maxObservedTs);
  Ret co.

End Coordinator.
