(* ===== verification/Client.v ===== *)
(** * The client library

    src/src/sdk/client.cpp: class [Client] over the coordinator.  A call takes
    the transaction handle and returns the public result with the handle as the
    call leaves it.  [Connect] builds the connections of the library and is not
    modelled; a null handle is not modelled.

    An exception that leaves the coordinator becomes a retryable [kUnavailable];
    the transaction object stays as it was when the exception was thrown. *)

From Stdlib Require Import ZArith.
From S2P Require Import Prelude KvEngine MvccTypes Hlc Mvcc RegionMeta TxnProg Coordinator.

(** [try p catch (x) handler] *)
Fixpoint prog_catch {X Y A} (p : prog X A) (handler : X → prog Y A) : prog Y A :=
  match p with
  | Ret a => Ret a
  | Raise x => handler x
  | Vis e k => Vis e (λ r, prog_catch (k r) handler)
  end.

Module Client.

Inductive Status :=
| kOk | kNotFound | kLockConflict | kWriteConflict | kAlreadyCommitted | kTimeout | kAbortOnly
| kCleanupPending | kResultUnknown | kUnavailable | kInvalidTransaction.

#[global] Instance Status_eq_dec : EqDecision Status.
Proof. solve_decision. Defined.

Record Result := MkResult {
  status : Status;
  value : string;
  message : string;
  found : bool;
  retryable : bool;
  startTimestamp : N;
  primaryKey : string
}.

Record BatchResult := MkBatchResult {
  br_status : Status;
  br_values : list (string * Result);
  br_message : string;
  br_retryable : bool
}.

Record ScanResult := MkScanResult {
  sr_status : Status;
  sr_entries : list (string * string);
  sr_message : string;
  sr_retryable : bool;
  sr_startTimestamp : N
}.

(** The public record state has the constructors of the internal one. *)
Record TransactionStatusResult := MkTransactionStatusResult {
  tr_status : Status;
  tr_state : TxnRecordState;
  tr_commitTimestamp : N;
  tr_message : string
}.

Definition ToPublicStatus (st : TxnStatus) : Status :=
  match st with
  | StOk => kOk
  | StNotFound => kNotFound
  | StLockConflict => kLockConflict
  | StWriteConflict => kWriteConflict
  | StAlreadyCommitted => kAlreadyCommitted
  | StTimeout => kTimeout
  | StAbortOnly => kAbortOnly
  | StCleanupPending => kCleanupPending
  | StResultUnknown => kResultUnknown
  | StStorageError => kUnavailable
  end.

Definition StatusName (st : Status) : string :=
  match st with
  | kOk => "OK"
  | kNotFound => "NOT_FOUND"
  | kLockConflict => "LOCK_CONFLICT"
  | kWriteConflict => "WRITE_CONFLICT"
  | kAlreadyCommitted => "ALREADY_COMMITTED"
  | kTimeout => "TIMEOUT"
  | kAbortOnly => "ABORT_ONLY"
  | kCleanupPending => "CLEANUP_PENDING"
  | kResultUnknown => "RESULT_UNKNOWN"
  | kUnavailable => "UNAVAILABLE"
  | kInvalidTransaction => "INVALID_TRANSACTION"
  end.

(** The failures after which the transaction may be tried again. *)
Definition retry_status (st : TxnStatus) : bool :=
  match st with StLockConflict | StWriteConflict | StTimeout => true | _ => false end.

Definition FromTxnStatus (st : TxnStatus) (value : string) : Result :=
  MkResult (ToPublicStatus st) value (StatusName (ToPublicStatus st)) false (retry_status st) 0 EmptyString.

(** [Transaction::Impl] *)
Record handle := MkHandle {
  transaction : Transaction.t;
  options : TxnOptions;
  finished : bool
}.

Definition set_transaction (h : handle) (txn : Transaction.t) : handle :=
  MkHandle txn (options h) (finished h).

(** [finished = State() == Finished] *)
Definition refresh_finished (h : handle) (txn : Transaction.t) : handle :=
  MkHandle txn (options h) (bool_decide (Transaction.state_ txn = TsFinished)).

Definition Begin_options (lockTtl rpcBudget : N) : TxnOptions :=
  let budget := if (rpcBudget =? 0)%N then rpcBudgetMs default_TxnOptions else rpcBudget in
  let timeout := transactionTimeoutMs default_TxnOptions in
  MkTxnOptions lockTtl
    (if (lockTtl <=? timeout)%N then if (1000 <? lockTtl)%N then lockTtl - 1000 else lockTtl / 2
     else timeout)%N budget.

Definition Begin_at (startTs lockTtl rpcBudget : N) : handle :=
  MkHandle (Transaction.create startTs) (Begin_options lockTtl rpcBudget) false.

(** The exception of the oracle leaves [Begin]. *)
Definition Begin (lockTtl rpcBudget : N) : prog unit handle :=
  next ← ask ENext; startTs ← or_raise tt next; Ret (Begin_at startTs lockTtl rpcBudget).

Section calls.
(** [what] is the text of the exception. *)
Context (co : Coordinator.t) (rounds : nat) (what : string).

Definition invalid (text : string) : Result :=
  MkResult kInvalidTransaction EmptyString text false false 0 EmptyString.
Definition unavailable : Result := MkResult kUnavailable EmptyString what false true 0 EmptyString.
Definition not_active : string := "transaction is not active".
Definition not_active_or_empty : string := "transaction is not active or key is empty".

(** A body under [try]; the handler answers [failure] and keeps the object. *)
Definition attempt {R} (h : handle) (failure : R) (body : prog Transaction.t (R * handle))
    : prog unit (R * handle) :=
  prog_catch body (λ txn, Ret (failure, set_transaction h txn)).

(** [result.startTimestamp = ...; result.primaryKey = ...] *)
Definition stamped (r : Result) (txn : Transaction.t) : Result :=
  MkResult (status r) (value r) (message r) (found r) (retryable r)
    (Transaction.startTs_ txn) (Transaction.primaryKey_ txn).
Definition with_found (r : Result) (b : bool) : Result :=
  MkResult (status r) (value r) (message r) b (retryable r) (startTimestamp r) (primaryKey r).

Definition Get (h : handle) (key : string) : prog unit (Result * handle) :=
  if finished h then Ret (invalid not_active, h)
  else
    match Transaction.mutations_ (transaction h) !! key with
    | Some m =>
        Ret (if tm_isDelete m then MkResult kNotFound EmptyString "NOT_FOUND" false false 0 EmptyString
             else stamped (MkResult kOk (tm_value m) "OK" true false 0 EmptyString) (transaction h), h)
    | None =>
        attempt h unavailable
          ('(st, v, txn) ← Coordinator.Get (transaction h) key (options h);
           Ret (stamped (with_found (FromTxnStatus st (default EmptyString v)) (bool_decide (st = StOk))) txn,
                set_transaction h txn))
    end.

Definition Scan (h : handle) (startKey endKey : string) (limit : N) : prog unit (ScanResult * handle) :=
  if finished h then Ret (MkScanResult kInvalidTransaction [] not_active false 0, h)
  else
    attempt h (MkScanResult kUnavailable [] what true 0)
      ('(st, entries, txn) ← Coordinator.Scan (transaction h) startKey endKey limit [] (options h);
       Ret (MkScanResult (ToPublicStatus st) (if bool_decide (st = StOk) then entries else [])
              (StatusName (ToPublicStatus st)) (retry_status st) (Transaction.startTs_ txn),
            set_transaction h txn)).

Definition GetForUpdate (h : handle) (key : string) : prog unit (Result * handle) :=
  if finished h || String.eqb key EmptyString then Ret (invalid not_active_or_empty, h)
  else
    attempt h unavailable
      ('(locked, txn) ← Coordinator.GetForUpdate co (transaction h) key (options h);
       Ret (stamped (with_found (FromTxnStatus (plr_status locked) (plr_value locked)) (plr_found locked)) txn,
            set_transaction h txn)).

Definition BatchGetForUpdate (h : handle) (keys : list string) : prog unit (BatchResult * handle) :=
  if finished h then Ret (MkBatchResult kInvalidTransaction [] not_active false, h)
  else
    attempt h (MkBatchResult kUnavailable [] what true)
      ('((st, values), txn) ← Coordinator.BatchGetForUpdate co (transaction h) keys (options h);
       Ret (MkBatchResult (ToPublicStatus st)
              (if bool_decide (st = StOk)
               then (λ item, (item.1, stamped (with_found (FromTxnStatus (plr_status item.2) (plr_value item.2))
                                                 (plr_found item.2)) txn)) <$> values
               else [])
              (StatusName (ToPublicStatus st)) (retry_status st),
            set_transaction h txn)).

Definition LockKeys (h : handle) (keys : list string) : prog unit (Result * handle) :=
  if finished h then Ret (invalid not_active, h)
  else
    attempt h unavailable
      ('(st, txn) ← Coordinator.LockKeys co (transaction h) keys (options h);
       Ret (stamped (FromTxnStatus st EmptyString) txn, set_transaction h txn)).

(** [Put] and [Delete]: [write] is the buffered change. *)
Definition buffered (h : handle) (key : string) (write : Transaction.t → Transaction.t)
    : prog unit (Result * handle) :=
  if finished h || String.eqb key EmptyString then Ret (invalid not_active_or_empty, h)
  else
    attempt h unavailable
      ('(active, txn) ← Coordinator.Validate (transaction h) (options h);
       if negb (bool_decide (active = StOk))
       then Ret (FromTxnStatus active EmptyString, set_transaction h txn)
       else Ret (MkResult kOk EmptyString "OK" false false 0 EmptyString, set_transaction h (write txn))).

Definition Put (h : handle) (key value : string) : prog unit (Result * handle) :=
  buffered h key (λ txn, Transaction.Put txn key value).

Definition Delete (h : handle) (key : string) : prog unit (Result * handle) :=
  buffered h key (λ txn, Transaction.Delete txn key).

Definition Commit (h : handle) : prog unit (Result * handle) :=
  if finished h then Ret (invalid not_active, h)
  else
    attempt h unavailable
      ('(st, txn) ← Coordinator.Commit co rounds (transaction h) (options h);
       Ret (stamped (FromTxnStatus st EmptyString) txn, refresh_finished h txn)).

Definition Rollback (h : handle) : prog unit (Result * handle) :=
  if finished h then Ret (invalid not_active, h)
  else
    attempt h unavailable
      ('(st, txn) ← Coordinator.Rollback co (transaction h) (options h);
       Ret (stamped (FromTxnStatus st EmptyString) txn, refresh_finished h txn)).

(** Not under [try]: an exception leaves the call. *)
Definition QueryTransactionStatus (h : handle) : prog unit TransactionStatusResult :=
  prog_catch
    ('(st, record) ← Coordinator.QueryStatus (transaction h) (rpcBudgetMs (options h));
     let r := default default_TxnRecordStatus record in
     Ret (if bool_decide (st = StOk)
          then MkTransactionStatusResult kOk (trs_state r) (trs_commitTs r) (StatusName kOk)
          else MkTransactionStatusResult (ToPublicStatus st) RsNotFound 0 (StatusName (ToPublicStatus st))))
    (λ _, Raise tt).

End calls.

End Client.

(** ** Sessions

    An application that uses one transaction.  It makes calls until [Commit]
    reports success, an unknown result or an exception, or until [Rollback]
    reports an exception; then it leaves the transaction alone.  Further calls
    are not part of a session because the library does not handle them well: a
    [Rollback] after an unanswered [Commit] may undo half of it. *)
Module Session.
Import Client.

Inductive app_call :=
| AGet (key : string)
| AScan (startKey endKey : string) (limit : N)
| AGetForUpdate (key : string)
| ABatchGetForUpdate (keys : list string)
| ALockKeys (keys : list string)
| APut (key value : string)
| ADelete (key : string)
| AQuery
| ACommit
| ARollback.

(** The keys of a call that a lock may name as primary. *)
Definition call_keys (c : app_call) : list string :=
  match c with
  | AGetForUpdate key | APut key _ | ADelete key => [key]
  | ABatchGetForUpdate keys | ALockKeys keys => keys
  | _ => []
  end.

Definition threw (r : Result) : bool := bool_decide (status r = kUnavailable) && retryable r.

Definition ends_commit (r : Result) : bool :=
  bool_decide (status r = kOk) || bool_decide (status r = kResultUnknown) || threw r.

Section session.
Context (co : Coordinator.t) (rounds : nat) (what : string).

Definition quietly {R} (p : prog unit (R * handle)) : prog unit (option Result * handle) :=
  '(_, h) ← p; Ret (None, h).

(** The result with which the session ends, if it does. *)
Definition perform (h : handle) (c : app_call) : prog unit (option Result * handle) :=
  match c with
  | AGet key => quietly (Get what h key)
  | AScan startKey endKey limit => quietly (Scan what h startKey endKey limit)
  | AGetForUpdate key => quietly (GetForUpdate co what h key)
  | ABatchGetForUpdate keys => quietly (BatchGetForUpdate co what h keys)
  | ALockKeys keys => quietly (LockKeys co what h keys)
  | APut key value => quietly (Put what h key value)
  | ADelete key => quietly (Delete what h key)
  | AQuery => _ ← QueryTransactionStatus h; Ret (None, h)
  | ACommit => '(r, h) ← Commit co rounds what h; Ret (if ends_commit r then Some r else None, h)
  | ARollback => '(r, h) ← Rollback co what h; Ret (if threw r then Some r else None, h)
  end.

Fixpoint run (h : handle) (calls : list app_call) : prog unit (option Result * handle) :=
  match calls with
  | [] => Ret (None, h)
  | c :: rest =>
      '(ended, h) ← perform h c;
      match ended with Some r => Ret (Some r, h) | None => run h rest end
  end.

(** An application that goes on whatever the calls report. *)
Fixpoint run_on (h : handle) (calls : list app_call) : prog unit (option Result * handle) :=
  match calls with
  | [] => Ret (None, h)
  | c :: rest => '(_, h) ← perform h c; run_on h rest
  end.

End session.

End Session.

(** ** Deadlines and lock lifetimes *)

(** The options of [Begin] keep the deadline of the transaction before the expiry
    of its locks. *)
Lemma Begin_options_valid ttl budget :
  (0 < ttl)%N →
  (transactionTimeoutMs (Client.Begin_options ttl budget) < lockTtlMs (Client.Begin_options ttl budget))%N ∧
  rpcBudgetMs (Client.Begin_options ttl budget) ≠ 0%N.
Proof.
  intros Hpos. unfold Client.Begin_options. cbn [transactionTimeoutMs lockTtlMs rpcBudgetMs default_TxnOptions]. split.
  - destruct (N.leb_spec ttl 60000); [|done]. destruct (N.ltb_spec 1000 ttl); [lia|]. apply N.div_lt; lia.
  - by destruct (N.eqb_spec budget 0).
Qed.

(** What a program that waits for a timestamp does when it gets [ts]. *)
Definition given_ts {X A} (p : prog X A) (ts : N) : option (prog X A) :=
  match p with
  | Vis e k => match e return (resp e → prog X A) → option (prog X A) with
               | ENext => λ k, Some (k (Some ts))
               | _ => λ _, None
               end k
  | _ => None
  end.

Lemma SaturatingAdd_exact a b : (a + b ≤ u64_max)%N → SaturatingAdd a b = (a + b)%N.
Proof. unfold SaturatingAdd. intros H. destruct (N.ltb_spec (u64_max - b) a); lia. Qed.

(** The physical part of a timestamp has 46 bits. *)
Lemma PhysicalMs_bound ts : fits64 ts → (HlcTimestamp.PhysicalMs ts < 2 ^ 46)%N.
Proof.
  intros Hf. unfold HlcTimestamp.PhysicalMs, HlcTimestamp.kLogicalBits. rewrite N.shiftr_div_pow2.
  apply N.Div0.div_lt_upper_bound. exact Hf.
Qed.

Lemma PhysicalMs_mono a b : (a ≤ b)%N → (HlcTimestamp.PhysicalMs a ≤ HlcTimestamp.PhysicalMs b)%N.
Proof.
  intros H. unfold HlcTimestamp.PhysicalMs. rewrite !N.shiftr_div_pow2. by apply N.Div0.div_le_mono.
Qed.

Lemma check_passed txn opts ts :
  HlcTimestamp.PhysicalMs (Transaction.startTs_ txn) ≠ 0%N →
  given_ts (Coordinator.CheckActiveAndDeadline txn opts) ts = Some (Ret (StOk, ts, txn)) →
  (HlcTimestamp.PhysicalMs ts <
   SaturatingAdd (HlcTimestamp.PhysicalMs (Transaction.startTs_ txn)) (transactionTimeoutMs opts))%N.
Proof.
  intros Hne. unfold Coordinator.CheckActiveAndDeadline. destruct (Transaction.state_ txn); try discriminate.
  destruct (_ || _); [discriminate|]. cbv [mbind prog_bind prog_bind_def ask given_ts].
  rewrite (proj2 (N.eqb_neq _ _) Hne). cbv [negb andb].
  destruct (N.leb_spec (SaturatingAdd (HlcTimestamp.PhysicalMs (Transaction.startTs_ txn)) (transactionTimeoutMs opts))
              (HlcTimestamp.PhysicalMs ts)); [discriminate|done].
Qed.

(** With the options of [Begin], a call passes the deadline check only while
    every lock of the transaction is alive: a lock placed at or after the start
    expires, by the oracle's clock, strictly later than the timestamp the check
    took, and computing either limit does not saturate. *)
Theorem checked_before_expiry txn ttl budget ts lockTs :
  (0 < ttl)%N → (ttl < 2 ^ 63)%N → fits64 (Transaction.startTs_ txn) → fits64 lockTs →
  HlcTimestamp.PhysicalMs (Transaction.startTs_ txn) ≠ 0%N → (Transaction.startTs_ txn ≤ lockTs)%N →
  let opts := Client.Begin_options ttl budget in
  given_ts (Coordinator.CheckActiveAndDeadline txn opts) ts = Some (Ret (StOk, ts, txn)) →
  (HlcTimestamp.PhysicalMs ts < SaturatingAdd (HlcTimestamp.PhysicalMs lockTs) (lockTtlMs opts))%N ∧
  SaturatingAdd (HlcTimestamp.PhysicalMs lockTs) (lockTtlMs opts) = (HlcTimestamp.PhysicalMs lockTs + ttl)%N.
Proof.
  intros Hpos Httl Hs Hl Hph Hle opts Hck. destruct (Begin_options_valid ttl budget Hpos) as [Hlt Hb].
  fold opts in Hlt, Hb. change (lockTtlMs opts) with ttl in *.
  pose proof (PhysicalMs_bound _ Hs) as Bs. pose proof (PhysicalMs_bound _ Hl) as Bl.
  pose proof (PhysicalMs_mono _ _ Hle) as Hm. pose proof (check_passed _ _ _ Hph Hck) as Hd.
  clear Hck. generalize dependent (transactionTimeoutMs opts). intros timeout Hlt Hd.
  rewrite SaturatingAdd_exact in Hd by (unfold u64_max; lia).
  rewrite SaturatingAdd_exact by (unfold u64_max; lia). split; [lia|done].
Qed.

(** A transaction that started at 2000 ms and asks 59 s later. *)
Lemma checked_before_expiry_witness :
  (HlcTimestamp.PhysicalMs (N.shiftl 61000 18) <
   SaturatingAdd (HlcTimestamp.PhysicalMs (N.shiftl 2000 18)) (lockTtlMs (Client.Begin_options 120000 5000)))%N.
Proof.
  apply (checked_before_expiry (Transaction.create (N.shiftl 2000 18)) 120000 5000 (N.shiftl 61000 18) (N.shiftl 2000 18));
    vm_compute; congruence.
Defined.
