(* ===== verification/Halts.v ===== *)
(** * The loops of the commit end

    [Commit] has two loops without a bound in the code: it takes timestamps until
    one is above the transaction's, and it asks for the outcome of an unanswered
    commit until the time budget is used up.  [halts] runs a program against an
    oracle whose timestamps grow and a clock that goes on, sleeps included; it
    does not hold of a program that can be asked to go on forever. *)

From Stdlib Require Import ZArith.
From S2P Require Import Prelude KvEngine MvccTypes Hlc Mvcc RegionMeta TxnProg Coordinator Client.
Import Transaction Coordinator.

(** [tso] is the last timestamp the oracle has issued, [left] the nanoseconds
    left until the deadline.  Time may pass before the budget is computed; a sleep
    takes at least its time. *)
Fixpoint halts {X A} (p : prog X A) (tso left : N) (Q : A → N → N → Prop) : Prop :=
  match p with
  | Ret a => Q a tso left
  | Raise _ => True
  | Vis e k =>
      match e return (resp e → N → N → Prop) → Prop with
      | ENext => λ K, K None tso left ∧ ∀ ts, (tso < ts)%N → K (Some ts) ts left
      | ERemainingBudget => λ K, ∀ left', (left' ≤ left)%N → K (RemainingBudgetMs left') tso left'
      | ESleep ms => λ K, ∀ left', (left' ≤ left - 1000000 * ms)%N → K tt tso left'
      | EForever => λ _, False
      | _ => λ K, ∀ a, K a tso left
      end (λ r tso' left', halts (k r) tso' left' Q)
  end.

Lemma halts_mono {X A} (p : prog X A) tso left (Q Q' : A → N → N → Prop) :
  (∀ a t l, Q a t l → Q' a t l) → halts p tso left Q → halts p tso left Q'.
Proof.
  intros HQ. revert tso left. induction p as [a|x|e k IH]; intros tso left; simpl; [auto..|].
  destruct e; simpl; eauto. intros [H1 H2]. split; eauto.
Qed.

Lemma halts_bind {X A B} (p : prog X A) (f : A → prog X B) tso left (Q : B → N → N → Prop) :
  halts p tso left (λ a t l, halts (f a) t l Q) → halts (p ≫= f) tso left Q.
Proof.
  revert tso left. induction p as [a|x|e k IH]; intros tso left; simpl; [done..|].
  destruct e; simpl; eauto. intros [H1 H2]. split; eauto.
Qed.

(** ** Programs without such loops *)

Fixpoint plain {X A} (p : prog X A) : Prop :=
  match p with
  | Ret _ | Raise _ => True
  | Vis e k =>
      match e with ERemainingBudget | ESleep _ | EForever => False | _ => True end ∧ ∀ r, plain (k r)
  end.

Lemma plain_halts {X A} (p : prog X A) tso left :
  plain p → halts p tso left (λ _ t l, (tso ≤ t)%N ∧ l = left).
Proof.
  assert (H : ∀ t0 t, plain p → (t0 ≤ t)%N → halts p t left (λ _ t' l, (t0 ≤ t')%N ∧ l = left)); [|by intros; apply H].
  intros t0. induction p as [a|x|e k IH]; intros t; simpl; [done..|].
  intros [He Hk] Hle. destruct e; simpl; auto; try done.
  split; [auto|]. intros ts ?. apply IH; [auto|lia].
Qed.

Lemma plain_bind {X A B} (p : prog X A) (f : A → prog X B) :
  plain p → (∀ a, plain (f a)) → plain (p ≫= f).
Proof. intros Hp Hf. induction p as [a|x|e k IH]; simpl in *; [auto..|]. naive_solver. Qed.

Lemma halts_plain {X A B} (p : prog X A) (f : A → prog X B) tso left (Q : B → N → N → Prop) :
  plain p → (∀ a t, (tso ≤ t)%N → halts (f a) t left Q) → halts (p ≫= f) tso left Q.
Proof.
  intros Hp Hf. apply halts_bind. eapply halts_mono; [|by apply plain_halts]. by intros a t l [? ->]; apply Hf.
Qed.

Lemma halts_any {X A} (p : prog X A) tso left : plain p → halts p tso left (λ _ _ _, True).
Proof. intros Hp. by eapply halts_mono; [|apply plain_halts]. Qed.

Lemma plain_ask {X} e :
  match e with ERemainingBudget | ESleep _ | EForever => False | _ => True end → plain (ask e : prog X (resp e)).
Proof. by split. Qed.
Lemma plain_or_raise {X A} (x : X) (o : option A) : plain (or_raise x o).
Proof. by destruct o. Qed.
Lemma plain_Route {X} (x : X) key : plain (Route x key).
Proof. apply plain_bind; [by apply plain_ask|]. intros r. apply plain_or_raise. Qed.
Lemma plain_RegionId {X} (x : X) key : plain (RegionId x key).
Proof. apply plain_bind; [by apply plain_ask|]. intros r. apply plain_or_raise. Qed.
Lemma plain_call {X} r op : plain (call r op : prog X _).
Proof. by split. Qed.
Lemma plain_call_at {X} (x : X) key op : plain (call_at x key op).
Proof. apply plain_bind; [apply plain_Route|]. intros r. apply plain_call. Qed.

Create HintDb plain.
#[export] Hint Resolve plain_Route plain_RegionId plain_call plain_call_at plain_or_raise : plain.
#[export] Hint Extern 1 (plain (Ret _)) => exact I : plain.
#[export] Hint Extern 1 (plain (Raise _)) => exact I : plain.
#[export] Hint Extern 1 (plain (ask _)) => apply plain_ask; exact I : plain.

(** Sequences, case distinctions and the loops already known. *)
Ltac plain :=
  repeat first
    [ solve [auto with plain]
    | apply plain_bind; [|intros ?]
    | match goal with
      | |- plain (match ?x with _ => _ end) => destruct x
      | |- plain (let _ := _ in _) => cbv zeta
      end ].

Section loops.
Implicit Types (txn : Transaction.t) (opts : TxnOptions) (co : Coordinator.t).

Lemma plain_submit_all {X} reqs : plain (submit_all reqs : prog X unit).
Proof. induction reqs as [|[r op] reqs IH]; cbn [submit_all]; plain. Qed.
Lemma plain_await_all {X} reqs : plain (await_all reqs : prog X unit).
Proof. induction reqs as [|[r op] reqs IH]; cbn [await_all]; plain. Qed.
Lemma plain_group_loop {A} txn (key_of : A → string) items batches : plain (group_loop txn key_of items batches).
Proof. revert batches. induction items as [|i items IH]; intros b; cbn [group_loop]; plain. Qed.
#[local] Hint Resolve plain_submit_all plain_await_all plain_group_loop : plain.
Lemma plain_group {A} txn (key_of : A → string) items : plain (group txn key_of items).
Proof. unfold group. plain. Qed.
#[local] Hint Resolve plain_group : plain.
Lemma plain_shard_ids txn keys : plain (shard_ids txn keys).
Proof. induction keys as [|k keys IH]; cbn [shard_ids]; plain. Qed.
Lemma plain_cleanup_keys txn keys st : plain (cleanup_keys txn keys st).
Proof. revert txn st. induction keys as [|k keys IH]; intros txn st; cbn [cleanup_keys]; plain. Qed.
Lemma plain_cleanup_batches txn bs st : plain (cleanup_batches txn bs st).
Proof. revert txn st. induction bs as [|b bs IH]; intros txn st; cbn [cleanup_batches]; plain. Qed.
#[local] Hint Resolve plain_shard_ids plain_cleanup_keys plain_cleanup_batches : plain.
Lemma plain_CleanupTransaction co txn : plain (CleanupTransaction co txn).
Proof. unfold CleanupTransaction, GroupKeysByRegion, RecordRollbackRegions. plain. Qed.
#[local] Hint Resolve plain_CleanupTransaction : plain.
Lemma plain_abort_with co txn st : plain (abort_with co txn st).
Proof. unfold abort_with. plain. Qed.
Lemma plain_CheckActive txn opts : plain (CheckActiveAndDeadline txn opts).
Proof. unfold CheckActiveAndDeadline. plain. Qed.
Lemma plain_QueryStatus txn budget : plain (QueryStatus txn budget).
Proof. unfold QueryStatus. plain. Qed.
#[local] Hint Resolve plain_abort_with plain_CheckActive plain_QueryStatus : plain.

Lemma plain_commit_primary txn c budget : plain (commit_primary txn c budget).
Proof. exact (plain_call_at _ _ (OpCommitWithBudget (primaryKey_ txn) (startTs_ txn) c budget)). Qed.

Lemma plain_prewrite_keys txn opts pk keys pw : plain (prewrite_keys txn opts pk keys pw).
Proof. revert pw. induction keys as [|k keys IH]; intros pw; cbn [prewrite_keys]; unfold call_prewrite; plain. Qed.
#[local] Hint Resolve plain_prewrite_keys : plain.
Lemma plain_prewrite_singly txn opts pk keys : plain (prewrite_singly txn opts pk keys).
Proof. unfold prewrite_singly. plain. Qed.
Lemma plain_pending txn keys : plain (pending_mutations txn keys).
Proof. induction keys as [|k keys IH]; cbn [pending_mutations]; plain. Qed.
Lemma plain_await_round txn opts pk mr bs acc : plain (await_round txn opts pk mr bs acc).
Proof. revert acc. induction bs as [|b bs IH]; intros acc; cbn [await_round]; plain. Qed.
#[local] Hint Resolve plain_pending plain_await_round : plain.
Lemma plain_prewrite_batched txn opts pk keys : plain (prewrite_batched txn opts pk keys).
Proof. unfold prewrite_batched, dispatchRound. plain. Qed.
#[local] Hint Resolve plain_prewrite_singly plain_prewrite_batched : plain.
Lemma plain_call_each txn op keys : plain (call_each txn op keys).
Proof. induction keys as [|k keys IH]; cbn [call_each]; plain. Qed.
#[local] Hint Resolve plain_call_each : plain.
Lemma plain_finish_commit co txn opts pw c : plain (finish_commit co txn opts pw c).
Proof. unfold finish_commit, call_batches, GroupKeysByRegion. plain. Qed.
#[local] Hint Resolve plain_finish_commit : plain.

(** ** The two loops *)

Lemma halts_next {X A} (f : option N → prog X A) tso left (Q : A → N → N → Prop) :
  halts (f None) tso left Q → (∀ ts, (tso < ts)%N → halts (f (Some ts)) ts left Q) →
  halts (ask ENext ≫= f) tso left Q.
Proof. by split. Qed.

Lemma halts_budget {X A} (f : N → prog X A) tso left (Q : A → N → N → Prop) :
  (∀ left', (left' ≤ left)%N → halts (f (RemainingBudgetMs left')) tso left' Q) → halts (ask ERemainingBudget ≫= f) tso left Q.
Proof. done. Qed.

Lemma halts_sleep {X A} ms (f : unit → prog X A) tso left (Q : A → N → N → Prop) :
  (∀ left', (left' ≤ left - 1000000 * ms)%N → halts (f tt) tso left' Q) → halts (ask (ESleep ms) ≫= f) tso left Q.
Proof. done. Qed.

#[local] Arguments halts : simpl never.

(** The first timestamp is above everything the oracle has issued. *)
Lemma halts_next_commit_ts rounds txn tso left :
  (0 < rounds)%nat → (startTs_ txn ≤ tso)%N → (maxForUpdateTs_ txn ≤ tso)%N →
  halts (next_commit_ts rounds txn) tso left (λ _ _ l, l = left).
Proof.
  intros Hr H1 H2. destruct rounds as [|rounds]; [lia|]. cbn [next_commit_ts]. apply halts_next; [done|]. intros ts Hlt.
  destruct (N.leb_spec ts (N.max (startTs_ txn) (maxForUpdateTs_ txn))); [lia|done].
Qed.

(** Every round that does not decide takes at least a millisecond. *)
Lemma halts_resolve_primary rounds txn c tso left :
  (left + 1000000 ≤ 1000000 * N.of_nat rounds)%N → halts (resolve_primary rounds txn c) tso left (λ _ _ _, True).
Proof.
  revert tso left. induction rounds as [|rounds IH]; intros tso left Hlt; [lia|]. cbn [resolve_primary].
  set (again := pause ← ask ERemainingBudget;
                if (pause =? 0)%N then Ret PrimaryUnknown
                else _ ← ask (ESleep (N.min 10 pause)); resolve_primary rounds txn c).
  assert (Hagain : ∀ t l, (l ≤ left)%N → halts again t l (λ _ _ _, True)).
  { intros t l Hl. apply halts_budget. intros l1 Hl1. destruct (N.eqb_spec (RemainingBudgetMs l1) 0) as [|Hne]; [exact I|].
    apply halts_sleep. intros left' Hl'. apply IH. rewrite Nat2N.inj_succ in Hlt.
    assert (l1 ≠ 0%N) by (by intros ->). lia. }
  clearbody again. apply halts_budget. intros l1 Hl1. destruct (RemainingBudgetMs l1 =? 0)%N; [exact I|].
  apply halts_plain; [apply plain_QueryStatus|]. intros [query record] t _.
  assert (Hretry : halts (budget ← ask ERemainingBudget;
    if (budget =? 0)%N then Ret PrimaryUnknown
    else st ← commit_primary txn c budget;
         if IsCommitSuccess st then Ret (PrimaryCommitted c) else again) t l1 (λ _ _ _, True)).
  { apply halts_budget. intros l2 Hl2. destruct (RemainingBudgetMs l2 =? 0)%N; [exact I|].
    apply halts_plain; [apply plain_commit_primary|]. intros st t' _. destruct (IsCommitSuccess st); [exact I|].
    apply Hagain. lia. }
  destruct query; try (apply Hagain; lia). destruct (trs_state _); [done|exact I|exact I|done].
Qed.

(** The check leaves the transaction's timestamps alone. *)
Lemma halts_CheckActive txn opts tso left :
  halts (CheckActiveAndDeadline txn opts) tso left (λ r t l, (tso ≤ t)%N ∧ l = left ∧
    startTs_ r.2 = startTs_ txn ∧ maxForUpdateTs_ r.2 = maxForUpdateTs_ txn).
Proof.
  unfold CheckActiveAndDeadline. destruct (state_ txn); [|by split_and!..]. destruct (_ || _); [by split_and!|].
  apply halts_next; [by split_and!|]. intros ts Hlt. assert ((tso ≤ ts)%N) by lia.
  destruct (_ && _); split_and!; try done; simpl; unfold MarkAbortOnly; by destruct (IsActive txn).
Qed.

(** After the prewrites. *)
Lemma halts_commit_phase co rounds txn opts pw tso :
  (startTs_ txn ≤ tso)%N → (maxForUpdateTs_ txn ≤ tso)%N → (rpcBudgetMs opts < N.of_nat rounds)%N →
  halts (commit_phase co rounds txn opts pw) tso (1000000 * rpcBudgetMs opts) (λ _ _ _, True).
Proof.
  intros H1 H2 Hr. apply halts_bind. eapply halts_mono; [|apply halts_next_commit_ts; [lia|done..]].
  intros [c|] t l ->; [|by apply halts_any, plain_abort_with].
  apply halts_plain; [apply plain_commit_primary|]. intros st t' _.
  destruct (IsCommitSuccess st); [by apply halts_any, plain_finish_commit|].
  apply halts_bind. eapply halts_mono; [|apply halts_resolve_primary; lia].
  intros [c'| |] t1 l1 _; [by apply halts_any, plain_finish_commit|by apply halts_any, plain_abort_with|exact I].
Qed.

(** [C23] [Commit] returns or throws, whatever the stores, the router and the
    network answer, provided the oracle issues growing timestamps (the ones it
    issued before, among them the transaction's, are not above [tso]) and the
    clock goes on: the search for a commit timestamp takes one round, and the
    resolution of an unanswered commit at most one round per millisecond of the
    call's budget. *)
Theorem Commit_terminates co rounds txn opts tso :
  (startTs_ txn ≤ tso)%N → (maxForUpdateTs_ txn ≤ tso)%N → (rpcBudgetMs opts < N.of_nat rounds)%N →
  halts (Commit co rounds txn opts) tso (1000000 * rpcBudgetMs opts) (λ _ _ _, True).
Proof.
  intros H1 H2 Hr. apply halts_bind. eapply halts_mono; [|apply halts_CheckActive].
  intros [[st ts] txn'] t l (Ht & -> & Hs & Hf). simpl in Hs, Hf. destruct (negb _); [exact I|].
  destruct (bool_decide _).
  { apply halts_plain; [apply plain_CleanupTransaction|]. intros [cl txn1] t1 _. by destruct (bool_decide _). }
  destruct (String.eqb _ _); [exact I|].
  apply halts_plain; [destruct (negb _); [apply plain_prewrite_singly|apply plain_prewrite_batched]|].
  intros [pst pw] t1 Ht1. destruct (negb _); [by apply halts_any, plain_abort_with|].
  apply halts_commit_phase; [lia..|done].
Qed.

End loops.

Definition example_txn : Transaction.t := Put (create 7) "k" "v".

(** With the default budget of five seconds. *)
Lemma Commit_terminates_witness :
  halts (Commit (MkCoordinator true true) 5001 example_txn default_TxnOptions) 9
    (1000000 * rpcBudgetMs default_TxnOptions) (λ _ _ _, True).
Proof. apply (Commit_terminates _ 5001 example_txn default_TxnOptions 9); vm_compute; congruence. Defined.
