(* ===== verification/Recovery.v ===== *)
(** * Resolving the locks of other transactions

    src/src/transaction/lock_resolver.cpp: finding out what became of the
    primary of a transaction and finishing a secondary lock accordingly; and
    src/src/transaction/txn_recovery_manager.cpp: the background worker of a
    node, which resolves expired locks of the Regions it leads and advances the
    garbage collection of their versions.

    The [try]/[catch] blocks of the worker turn an exception into skipping one
    lock; a [Raise] of the program is handled where the code handles it. *)

From Stdlib Require Import ZArith.
From S2P Require Import Prelude KvEngine MvccTypes Hlc Mvcc RegionMeta TxnProg.

Module LockResolver.

Inductive PrimaryTxnState := PsCommitted | PsRolledBack | PsLocked | PsMissing.

#[global] Instance PrimaryTxnState_eq_dec : EqDecision PrimaryTxnState.
Proof. solve_decision. Defined.

Record PrimaryTxnStatus := MkPrimaryTxnStatus {
  queryStatus : TxnStatus;
  ps_state : PrimaryTxnState;
  ps_commitTs : N;
  ps_lock : option MvccLock
}.

Definition failed_query (st : TxnStatus) : PrimaryTxnStatus := MkPrimaryTxnStatus st PsMissing 0 None.

Definition IsExpired (l : MvccLock) (nowMs : N) : bool :=
  if negb (legacyExpiry l) && negb (expireAtPhysicalMs l =? 0)%N
  then (expireAtPhysicalMs l <=? nowMs)%N
  else negb (createTimeMs l =? 0)%N && negb (ttlMs l =? 0)%N &&
       (createTimeMs l +₆₄ ttlMs l <=? nowMs)%N.

Definition of_record (r : TxnRecordStatus) : PrimaryTxnStatus :=
  match trs_state r with
  | RsCommitted => MkPrimaryTxnStatus StOk PsCommitted (trs_commitTs r) None
  | RsRolledBack => MkPrimaryTxnStatus StOk PsRolledBack 0 None
  | RsLocked => MkPrimaryTxnStatus StOk PsLocked 0 (trs_lock r)
  | RsNotFound => MkPrimaryTxnStatus StOk PsMissing 0 None
  end.

(** A primary without a route is reported as a storage error. *)
Definition CheckPrimary {X} (primaryKey : string) (startTs currentPhysicalMs : N)
    (rollbackIfExpired : bool) : prog X PrimaryTxnStatus :=
  route ← ask (ERoute primaryKey);
  match route with
  | None => Ret (failed_query StStorageError)
  | Some region =>
      '(query, record) ← (call region (OpCheckTxnStatus primaryKey startTs currentPhysicalMs
                            rollbackIfExpired 5000) : prog X (TxnStatus * option TxnRecordStatus));
      if negb (bool_decide (query = StOk)) then Ret (failed_query query)
      else Ret (of_record (default default_TxnRecordStatus record))
  end.

(** [wall] is the wall clock that replaces a zero [nowMs]. *)
Definition ResolveLock (wall : N) (key : string) (l : MvccLock) (nowMs : N) : prog unit TxnStatus :=
  region ← Route tt key;
  let nowMs := if (nowMs =? 0)%N then wall else nowMs in
  if negb (IsExpired l nowMs) then Ret StLockConflict
  else
    primary ← CheckPrimary (primaryKey l) (lock_startTs l) nowMs true;
    if negb (bool_decide (queryStatus primary = StOk)) then Ret (queryStatus primary)
    else
      match ps_state primary with
      | PsCommitted =>
          call region (OpResolveLock key (lock_startTs l) RsCommitted (ps_commitTs primary))
      | PsLocked => Ret StLockConflict
      | _ => call region (OpResolveLock key (lock_startTs l) RsRolledBack 0)
      end.

Fixpoint resolve_locks (wall nowMs : N) (locks : list (string * MvccLock)) (resolved : N)
    : prog unit N :=
  match locks with
  | [] => Ret resolved
  | (key, l) :: rest =>
      st ← ResolveLock wall key l nowMs;
      resolve_locks wall nowMs rest (if bool_decide (st = StOk) then resolved +₆₄ 1 else resolved)
  end.

Fixpoint resolve_shards (wall nowMs : N) (shards : list Z) (resolved : N) : prog unit N :=
  match shards with
  | [] => Ret resolved
  | shard :: rest =>
      locks ← (call shard (OpExpiredLocks nowMs) : prog unit (list (string * MvccLock)));
      resolved ← resolve_locks wall nowMs locks resolved;
      resolve_shards wall nowMs rest resolved
  end.

Definition ResolveExpiredLocks (wall nowMs : N) : prog unit N :=
  shards ← ask EShards; resolve_shards wall nowMs shards 0.

(** [DistributedTransactionCoordinator::ResolveExpiredLocks] *)
Definition coordinator_ResolveExpiredLocks (wall : N) : prog unit N :=
  next ← ask ENext;
  match next with
  | None => Ret 0%N
  | Some nowTs => ResolveExpiredLocks wall (HlcTimestamp.PhysicalMs nowTs)
  end.

End LockResolver.

Module TxnRecoveryManager.
Import LockResolver.

(** The routing part of the manager: whether a resolver has been built, and for
    which revision of the routes. *)
Record t := MkManager {
  hasResolver_ : bool;
  lastRouteRevision_ : N;
  routeRefreshCount_ : N
}.

(** [BuildLockResolver] yields no resolver for an empty view. *)
Definition BuildLockResolver (routes : list (RegionMetadata * Z)) : bool :=
  negb (bool_decide (length routes = O)).

Definition create (routes : list (RegionMetadata * Z)) (revision : N) : t :=
  MkManager (BuildLockResolver routes) revision 0.

(** [routes] is what the route resolver answers if it is called. *)
Definition RefreshRoutesIfNeeded (m : t) (revision : N) (routes : list (RegionMetadata * Z)) : t :=
  if (revision =? lastRouteRevision_ m)%N then m
  else MkManager (BuildLockResolver routes) revision (routeRefreshCount_ m +₆₄ 1).

(** What a scan concludes for one expired lock: [None] skips it this round.  The
    holder of the primary does not ask anyone. *)
Definition scan_status (hasResolver : bool) (now : N) (key : string) (l : MvccLock)
    : prog unit (option PrimaryTxnStatus) :=
  if String.eqb key (primaryKey l) then Ret (Some (MkPrimaryTxnStatus StOk PsRolledBack 0 None))
  else if negb hasResolver then Ret None
  else st ← CheckPrimary (primaryKey l) (lock_startTs l) now true; Ret (Some st).

(** The command scheduled for one lock, if any. *)
Definition scan_command (key : string) (l : MvccLock) (st : PrimaryTxnStatus) : option store_op :=
  if negb (bool_decide (queryStatus st = StOk)) || bool_decide (ps_state st = PsLocked) then None
  else if bool_decide (ps_state st = PsCommitted)
  then Some (OpResolveLock key (lock_startTs l) RsCommitted (ps_commitTs st))
  else Some (OpResolveLock key (lock_startTs l) RsRolledBack 0).

Fixpoint scan_locks (hasResolver : bool) (now : N) (region : Z) (locks : list (string * MvccLock))
    : prog unit unit :=
  match locks with
  | [] => Ret tt
  | (key, l) :: rest =>
      st ← scan_status hasResolver now key l;
      _ ← (match st ≫= scan_command key l with
           | None => Ret tt
           | Some op => _ ← call region op; Ret tt
           end : prog unit unit);
      scan_locks hasResolver now region rest
  end.

(** [regions] are those this node leads. *)
Fixpoint scan_regions (hasResolver : bool) (now : N) (regions : list Z) : prog unit unit :=
  match regions with
  | [] => Ret tt
  | region :: rest =>
      locks ← (call region (OpExpiredLocks now) : prog unit (list (string * MvccLock)));
      _ ← scan_locks hasResolver now region locks;
      scan_regions hasResolver now rest
  end.

Definition ScanOnce (m : t) (revision : N) (routes : list (RegionMetadata * Z)) (regions : list Z)
    : prog unit t :=
  let m := RefreshRoutesIfNeeded m revision routes in
  next ← ask ENext;
  match next with
  | None => Ret m
  | Some ts => _ ← scan_regions (hasResolver_ m) (N.shiftr ts 18) regions; Ret m
  end.

Definition retentionMs : N := 5 * 60 * 1000.

(** The safe point handed to the collector, if the clock is past the retention. *)
Definition gc_safe_point (currentTso : N) : option N :=
  let currentPhysicalMs := N.shiftr currentTso 18 in
  if (currentPhysicalMs <=? retentionMs)%N then None
  else Some (wrap64 (N.shiftl (currentPhysicalMs - retentionMs) 18)).

Fixpoint collect_regions (safePointTs : N) (regions : list Z) : prog unit unit :=
  match regions with
  | [] => Ret tt
  | region :: rest =>
      _ ← call region (OpGarbageCollect safePointTs); collect_regions safePointTs rest
  end.

Definition AdvanceGc (regions : list Z) : prog unit unit :=
  next ← ask ENext;
  match next ≫= gc_safe_point with
  | None => Ret tt
  | Some safePointTs => collect_regions safePointTs regions
  end.

End TxnRecoveryManager.
