(* ===== verification/TxnStore.v ===== *)
(** * What the transaction layer asks of a storage

    The interface between the two-phase commit and the stores of the Regions.
    For every key and transaction a store has a status: nothing, a lock, a
    commit, a rollback.  [TxnStore] says how the requests of [TxnProg] move the
    statuses and what their answers mean; the coordinator's guarantees are proved
    against it, and MvccTxnStore.v shows that [MvccStorage] provides it. *)

From Stdlib Require Import ZArith.
From S2P Require Import Prelude KvEngine MvccTypes Codec Hlc Mvcc RegionMeta TxnProg.

(** The status of a transaction on a key.  A lock names the primary, says whether
    it is pessimistic, and remembers the last timestamp the oracle had issued when
    it was placed. *)
Inductive kstatus :=
| KNone
| KLocked (primary : string) (pessimistic : bool) (placed : N)
| KCommitted (commitTs : N)
| KRolledBack.

(** The transaction has been prewritten on the key, whatever happened since. *)
Definition settled (x : kstatus) : Prop :=
  (∃ p t, x = KLocked p false t) ∨ (∃ c, x = KCommitted c) ∨ x = KRolledBack.

(** ** Requests *)

Inductive effect :=
| FLock (pk : string) (pessimistic : bool) (forUpdate : N)
| FCommit (commitTs : N)
| FRollback.

(** The keys a request may change, for which transaction, and how. *)
Definition footprint (op : store_op) : option (list string * N * effect) :=
  match op with
  | OpAcquirePessimisticLockForUpdate key pk startTs _ fu _ _ => Some ([key], startTs, FLock pk true fu)
  | OpPrewriteLock key pk startTs _ fu _
  | OpPrewrite key _ pk startTs _ fu _
  | OpPrewriteDelete key pk startTs _ fu _ => Some ([key], startTs, FLock pk false fu)
  | OpBatchPrewrite muts pk startTs _ fu _ => Some (mut_key <$> muts, startTs, FLock pk false fu)
  | OpCommit key startTs c | OpCommitWithBudget key startTs c _ => Some ([key], startTs, FCommit c)
  | OpBatchCommit keys startTs c _ => Some (keys, startTs, FCommit c)
  | OpRollback key startTs => Some ([key], startTs, FRollback)
  | OpBatchRollback keys startTs => Some (keys, startTs, FRollback)
  | OpCheckTxnStatus key startTs _ rb _ => if rb then Some ([key], startTs, FRollback) else None
  | OpResolveLock key startTs RsCommitted c => Some ([key], startTs, FCommit c)
  | OpResolveLock key startTs RsRolledBack _ => Some ([key], startTs, FRollback)
  | _ => None
  end.

(** What an effect may do to a status when the oracle has issued timestamps up to
    [tso]. *)
Definition change (tso : N) (e : effect) (x x' : kstatus) : Prop :=
  match e with
  | FLock pk pess _ => (x = KNone ∨ ∃ p t, x = KLocked p true t) ∧ x' = KLocked pk pess tso
  | FCommit c => (∃ p t, x = KLocked p false t ∧ (t < c)%N) ∧ x' = KCommitted c
  | FRollback => (x = KNone ∨ ∃ p b t, x = KLocked p b t) ∧ x' = KRolledBack
  end.

(** A committed or rolled back status is final. *)
Lemma change_final tso e x x' : change tso e x x' → (∀ c, x ≠ KCommitted c) ∧ x ≠ KRolledBack.
Proof. destruct e; simpl; naive_solver. Qed.

Lemma change_settled tso e x x' : change tso e x x' → settled x → settled x'.
Proof.
  destruct e; simpl.
  - intros [[->|(p & t & ->)] ->]; unfold settled; naive_solver.
  - intros [_ ->]. right. left. eauto.
  - intros [_ ->]. by right; right.
Qed.

Section interface.
Context (is_start : N → bool).

(** The arguments of a request fit their types; the transaction's timestamp is a
    start timestamp. *)
Definition args_ok (op : store_op) : Prop :=
  (∀ keys T e, footprint op = Some (keys, T, e) → is_start T = true ∧ fits64 T) ∧
  match op with
  | OpAcquirePessimisticLockForUpdate _ pk _ ttl fu expireAt _ =>
      fits_mem pk ∧ fits64 ttl ∧ fits64 fu ∧ fits64 expireAt
  | OpPrewriteLock _ pk _ ttl fu _ | OpPrewrite _ _ pk _ ttl fu _
  | OpPrewriteDelete _ pk _ ttl fu _ | OpBatchPrewrite _ pk _ ttl fu _ =>
      fits_mem pk ∧ fits64 ttl ∧ fits64 fu
  | OpResolveLock _ T _ c => is_start T = true ∧ fits64 T ∧ fits64 c
  | OpCheckTxnStatus _ T _ _ _ => is_start T = true ∧ fits64 T
  | OpGarbageCollect _ => False
  | _ => True
  end.

(** What a caller has to ensure at the moment its request runs: a commit uses a
    commit timestamp, and meets no pessimistic lock of the transaction and none
    placed after the timestamp was issued.  Collection is not part of this
    interface. *)
Definition admits {S} (status : S → string → N → kstatus) (held : S → string → N → Prop)
    (s : S) (op : store_op) : Prop :=
  args_ok op ∧
  ∀ keys T c, footprint op = Some (keys, T, FCommit c) →
    fits64 c ∧ is_start c = false ∧
    ∀ key, key ∈ keys → held s key T → ∃ p t, status s key T = KLocked p false t ∧ (t < c)%N.

(** What an answer says about the store after the request ran. *)
Definition says {S} (status : S → string → N → kstatus) (held : S → string → N → Prop)
    (op : store_op) : answer_of op → S → Prop :=
  match op return answer_of op → S → Prop with
  | OpPrewriteLock key _ T _ _ _ | OpPrewrite key _ _ T _ _ _ | OpPrewriteDelete key _ T _ _ _ =>
      λ a s, a = StOk → settled (status s key T)
  | OpBatchPrewrite muts _ T _ _ _ =>
      λ a s, a.1 = StOk → ∀ key, key ∈ mut_key <$> muts → settled (status s key T)
  | OpCommit key T _ | OpCommitWithBudget key T _ _ =>
      λ a s, IsCommitSuccess a = true → ∃ c, status s key T = KCommitted c
  | OpCheckTxnStatus key T _ _ _ =>
      λ a s, a.1 = StOk →
        let r := default default_TxnRecordStatus a.2 in
        match trs_state r with
        | RsCommitted => status s key T = KCommitted (trs_commitTs r)
        | RsRolledBack => status s key T = KRolledBack
        | RsNotFound => status s key T = KNone
        | RsLocked => True
        end
  | OpExpiredLocks _ =>
      λ a s, ∀ key l, (key, l) ∈ a → held s key (lock_startTs l) ∧
        ∀ p b t, status s key (lock_startTs l) = KLocked p b t → p = primaryKey l ∧ b = isPessimistic l
  | _ => λ _ _, True
  end.

(** A store: its statuses, the locks it holds, the runs of its requests. *)
Class TxnStore (S : Type) := {
  ts_status : S → string → N → kstatus;
  ts_held : S → string → N → Prop;
  ts_inv : S → Prop;
  (** [ts_exec tso op s a s']: run when the oracle has issued up to [tso]. *)
  ts_exec : N → ∀ op : store_op, S → answer_of op → S → Prop;

  ts_exec_inv tso op s a s' :
    ts_inv s → admits ts_status ts_held s op → ts_exec tso op s a s' → ts_inv s';
  ts_exec_status tso op s a s' key T :
    ts_inv s → admits ts_status ts_held s op → ts_exec tso op s a s' →
    ts_status s' key T = ts_status s key T ∨
    ∃ keys e, footprint op = Some (keys, T, e) ∧ key ∈ keys ∧
      change tso e (ts_status s key T) (ts_status s' key T);
  ts_exec_held tso op s a s' key T :
    ts_inv s → admits ts_status ts_held s op → ts_exec tso op s a s' →
    ts_held s' key T → ts_held s key T ∨
    ∃ keys pk pess fu, footprint op = Some (keys, T, FLock pk pess fu) ∧ key ∈ keys ∧
      ∀ c, ts_status s key T = KCommitted c → (c ≤ N.max T fu)%N;
  ts_exec_says tso op s a s' :
    ts_inv s → admits ts_status ts_held s op → ts_exec tso op s a s' →
    says ts_status ts_held op a s';
  ts_locked_held s key T p b t : ts_status s key T = KLocked p b t → ts_held s key T;
  ts_held_status s key T : ts_inv s → ts_held s key T →
    (∃ p b t, ts_status s key T = KLocked p b t) ∨ ∃ c, ts_status s key T = KCommitted c;
  (** After a commit the transaction's lock is gone. *)
  ts_commit_releases tso op s a s' key T keys c :
    ts_inv s → admits ts_status ts_held s op → ts_exec tso op s a s' →
    footprint op = Some (keys, T, FCommit c) → ts_status s key T ≠ ts_status s' key T →
    ¬ ts_held s' key T
}.

End interface.

Arguments ts_status {is_start S _} s key T : rename.
Arguments ts_held {is_start S _} s key T : rename.
Arguments ts_inv {is_start S _} s : rename.
Arguments ts_exec {is_start S _} tso op s a s' : rename.
Arguments ts_exec_inv {is_start S _} tso op s a s' : rename.
Arguments ts_exec_status {is_start S _} tso op s a s' key T : rename.
Arguments ts_exec_held {is_start S _} tso op s a s' key T : rename.
Arguments ts_exec_says {is_start S _} tso op s a s' : rename.
Arguments ts_locked_held {is_start S _} s key T p b t : rename.
Arguments ts_held_status {is_start S _} s key T : rename.
Arguments ts_commit_releases {is_start S _} tso op s a s' key T keys c : rename.
