(* ===== verification/MvccTxnStore.v ===== *)
(** * [MvccStorage] is a transactional store

    The requests of the transaction layer run the virtual methods of
    [MvccStorage].  The status of a transaction on a key is read off the write
    records and the lock of the key; the per-key machine of MvccSpec.v shows how
    each action moves it.  The result is the instance [mvcc_TxnStore] of the
    interface the two-phase commit is proved against. *)

From Stdlib Require Import ZArith.
From S2P Require Import Prelude KvEngine MvccTypes Codec Hlc Mvcc MvccSpec MvccRefine MvccRecover MvccWorld MvccQuery MvccSafety RegionMeta TxnProg TxnStore.
Import MvccStorage.

(** ** Statuses of the per-key machine *)

Definition status_of (k : kstate) (T : N) : kstatus :=
  match decision (k_writes k) T with
  | Some (c, w) => if is_rollback w then KRolledBack else KCommitted c
  | None =>
      match k_lock k with
      | Some l => if (lock_startTs l =? T)%N then KLocked (primaryKey l) (isPessimistic l) (k_time k)
                  else KNone
      | None => KNone
      end
  end.

Definition kheld (k : kstate) (T : N) : Prop := ∃ l, k_lock k = Some l ∧ lock_startTs l = T.

#[global] Instance status_of_proper : Proper ((≡) ==> eq ==> eq) status_of.
Proof. intros k1 k2 (H1 & H2 & _ & H4) T ? <-. unfold status_of. by rewrite H1, H2, H4. Qed.

#[global] Instance kheld_proper : Proper ((≡) ==> eq ==> iff) kheld.
Proof. intros k1 k2 (H1 & _) T ? <-. unfold kheld. by rewrite H1. Qed.

(** Inserting a record of another transaction at a fresh or own version. *)
Lemma decision_insert_other ws c w T :
  w_startTs w ≠ T → (∀ w', ws !! c = Some w' → w_startTs w' ≠ T) →
  decision (<[c := w]> ws) T = decision ws T.
Proof.
  intros Hw Hc. destruct (decision ws T) as [[c0 w0]|] eqn:Hd.
  - apply decision_Some in Hd as (H1 & H2 & H3). apply decision_Some. split_and!; [|done|].
    + rewrite lookup_insert_ne; [done|]. intros ->. by apply (Hc w0).
    + intros c' w' [[<- <-]|[_ H]]%lookup_insert_Some Hs; [done|eauto].
  - rewrite decision_None in *. intros c' w' [[<- <-]|[_ H]]%lookup_insert_Some; [done|eauto].
Qed.

(** Inserting the first record of a transaction decides it. *)
Lemma decision_insert_new ws c w T :
  w_startTs w = T → (∀ c' w', ws !! c' = Some w' → w_startTs w' ≠ T) →
  decision (<[c := w]> ws) T = Some (c, w).
Proof.
  intros Hw Hno. apply decision_Some. split_and!; [by rewrite lookup_insert_eq|done|].
  intros c' w' [[<- <-]|[_ H]]%lookup_insert_Some Hs; [done|]. by destruct (Hno c' w' H).
Qed.

(** A later record does not change the decision. *)
Lemma decision_insert_later ws c w T c0 w0 :
  decision ws T = Some (c0, w0) → ws !! c = None → (c0 ≤ c)%N →
  decision (<[c := w]> ws) T = Some (c0, w0).
Proof.
  intros Hd Hc Hle. apply decision_Some in Hd as (H1 & H2 & H3). apply decision_Some.
  split_and!; [|done|].
  - rewrite lookup_insert_ne; [done|]. intros ->. congruence.
  - intros c' w' [[<- <-]|[_ H]]%lookup_insert_Some Hs; [done|eauto].
Qed.

Section machine.
Context (is_start : N → bool).

(** The kind of action an effect of transaction [T] is. *)
Definition acts_as (e : effect) (T : N) (lk : option MvccLock) (a : kaction) : Prop :=
  match e with
  | FLock pk pess fu => locking lk T pk pess fu a
  | FCommit c => a = ACommit T c
  | FRollback => a = ARollback T
  end.

Lemma status_lock tso k l d T :
  kinv is_start k → kguard is_start k (ALock l d) →
  status_of (kapply tso k (ALock l d)) T = status_of k T ∨
  (T = lock_startTs l ∧ (status_of k T = KNone ∨ ∃ p t, status_of k T = KLocked p true t) ∧
   status_of (kapply tso k (ALock l d)) T = KLocked (primaryKey l) (isPessimistic l) tso).
Proof.
  intros Hi (Hs & Hf & Hlk & _). unfold status_of, kapply, retime. simpl.
  destruct (decision (k_writes k) T) as [[c w]|] eqn:Hd; [by left|].
  destruct (N.eqb_spec (lock_startTs l) T) as [HT|HT].
  - destruct (k_lock k) as [l0|].
    + destruct Hlk as (Hst & Hp & _). rewrite Hst, HT, N.eqb_refl.
      destruct (decide (Some l0 = Some l)) as [[= ->]|]; [by left|right].
      split; [done|]. split; [|done]. right. rewrite Hp. eauto.
    + right. split; [done|]. split; [by left|]. by rewrite decide_False.
  - left. destruct (k_lock k) as [l0|]; [|done]. destruct Hlk as (Hst & _). rewrite Hst.
    by rewrite (proj2 (N.eqb_neq _ _) HT).
Qed.

Lemma status_commit tso k s c T :
  kinv is_start k → kguard is_start k (ACommit s c) →
  status_of (kapply tso k (ACommit s c)) T = status_of k T ∨
  (T = s ∧ (∃ p t, status_of k T = KLocked p false t ∧ (t < c)%N) ∧
   status_of (kapply tso k (ACommit s c)) T = KCommitted c).
Proof.
  intros Hi (Hcs & Ht & Hc & l & Hk & Hl & Hp & Hlt). unfold status_of. simpl. rewrite Hk. simpl.
  destruct (decide (T = s)) as [->|Hne].
  - destruct (decision (k_writes k) s) as [[c0 w0]|] eqn:Hd.
    + left. rewrite (decision_insert_later _ _ _ _ c0 w0) by
        (done || (apply decision_Some in Hd as (Hw0 & Hs0 & _);
           destruct (ki_lock _ _ Hi l Hk) as (_ & _ & Hnr & Hmax);
           assert (c0 ≤ N.max (lock_startTs l) (forUpdateTs l))%N
             by (eapply Hmax; [done|]; eapply Hnr; [done|congruence]); lia)). done.
    + right. rewrite decision_insert_new; [|done|by apply decision_None].
      assert (is_rollback (MkWrite s c (commit_type l)) = false) as ->
        by (apply is_rollback_false; apply commit_type_effective).
      rewrite Hl, N.eqb_refl, Hp. split; [done|]. split; [eauto|done].
  - left. rewrite decision_insert_other; [|done|by rewrite Hc].
    destruct (decision (k_writes k) T) as [[c0 w0]|]; [done|]. rewrite Hl.
    by rewrite (proj2 (N.eqb_neq s T)) by congruence.
Qed.

Lemma status_rolled_back tso k s :
  kguard is_start k (ARollback s) → status_of (kapply tso k (ARollback s)) s = KRolledBack.
Proof.
  intros (_ & _ & Hno). unfold status_of. simpl.
  destruct (decision (<[s := rollback_record s]> (k_writes k)) s) as [[c w]|] eqn:Hd.
  - apply decision_Some in Hd as (Hw & Hws & _). assert (is_rollback w = true) as ->; [|done].
    apply bool_decide_eq_true. apply lookup_insert_Some in Hw as [[_ <-]|[_ Hw]]; [done|eauto].
  - rewrite decision_None in Hd. by destruct (Hd s (rollback_record s)); [rewrite lookup_insert_eq|].
Qed.

Lemma status_rollback tso k s T :
  kinv is_start k → kguard is_start k (ARollback s) →
  status_of (kapply tso k (ARollback s)) T = status_of k T ∨
  (T = s ∧ (status_of k T = KNone ∨ ∃ p b t, status_of k T = KLocked p b t) ∧
   status_of (kapply tso k (ARollback s)) T = KRolledBack).
Proof.
  intros Hi Hg. destruct (decide (T = s)) as [->|Hne].
  - rewrite status_rolled_back by done. destruct Hg as (_ & _ & Hno). unfold status_of.
    destruct (decision (k_writes k) s) as [[c0 w0]|] eqn:Hd0.
    + left. apply decision_Some in Hd0 as (Hw0 & Hs0 & _).
      by rewrite (proj2 (bool_decide_eq_true _) (Hno c0 w0 Hw0 Hs0) : is_rollback w0 = true).
    + right. split; [done|]. split; [|done]. destruct (k_lock k) as [l|]; [|by left].
      case_match; [right; eauto|by left].
  - left. destruct Hg as (Hs & _ & _). unfold status_of. simpl. rewrite decision_insert_other.
    + destruct (decision (k_writes k) T) as [[c0 w0]|]; [done|]. unfold retime.
      destruct (k_lock k) as [l|]; [|done].
      destruct (N.eqb_spec (lock_startTs l) s) as [Heq|Heq].
      * by rewrite (proj2 (N.eqb_neq (lock_startTs l) T)) by congruence.
      * by rewrite decide_True.
    + simpl. congruence.
    + intros w' Hw'. destruct (ki_record _ _ Hi s w' Hw') as (_ & _ & _ & He & Hr).
      destruct (effective_dec w') as [Hew|Hrb]; [|rewrite (Hr Hrb); congruence].
      destruct (He Hew) as [_ Hcs]. congruence.
Qed.

(** An enabled action of an effect's kind moves the status as the effect says. *)
Lemma status_change tso k e T T' a :
  kinv is_start k → kguard is_start k a → acts_as e T' (k_lock k) a →
  status_of (kapply tso k a) T = status_of k T ∨
  (T = T' ∧ change tso e (status_of k T) (status_of (kapply tso k a) T)).
Proof.
  intros Hi Hg Ha. destruct e as [pk pess fu|c|]; simpl in Ha.
  - destruct Ha as (l & d & -> & <- & <- & <- & _).
    destruct (status_lock tso k l d T Hi Hg) as [|(-> & Hx & Hx')]; [by left|right]. by split.
  - subst a. destruct (status_commit tso k T' c T Hi Hg) as [|(-> & Hx & Hx')]; [by left|right]. by split.
  - subst a. destruct (status_rollback tso k T' T Hi Hg) as [|(-> & Hx & Hx')]; [by left|right]. by split.
Qed.

(** A lock the transaction did not hold before was placed by a lock action; it
    reaches beyond the transaction's own commit, if there is one. *)
Lemma held_change tso k e T T' a :
  kinv is_start k → kguard is_start k a → acts_as e T' (k_lock k) a →
  kheld (kapply tso k a) T → kheld k T ∨
  (T = T' ∧ ∃ pk pess fu, e = FLock pk pess fu ∧ ∀ c, status_of k T = KCommitted c → (c ≤ N.max T fu)%N).
Proof.
  intros Hi Hg Ha Hh. destruct e as [pk pess fu|c|]; simpl in Ha.
  - destruct Ha as (l & d & -> & <- & <- & <- & Hreach). destruct Hh as (l' & [= <-] & <-).
    destruct Hg as (_ & _ & Hlk & _). destruct (k_lock k) as [l0|] eqn:Hk.
    + left. destruct Hlk as (Hst & _). by exists l0.
    + right. split; [done|]. do 3 eexists. split; [done|]. intros c. unfold status_of.
      destruct (decision (k_writes k) (lock_startTs l)) as [[c0 w0]|] eqn:Hd; [|by rewrite Hk].
      destruct (is_rollback w0) eqn:Hr; [done|]. intros [= <-].
      apply decision_Some in Hd as (Hw0 & _). destruct Hlk as [_ Hmax].
      specialize (Hmax c0 w0 Hw0 (proj1 (is_rollback_false w0) Hr)). specialize (Hreach eq_refl). lia.
  - subst a. destruct Hh as (l' & Hl' & _). simpl in Hl'. destruct (k_lock k) as [l0|] eqn:Hk; [done|].
    simpl in Hl'. congruence.
  - subst a. left. destruct Hh as (l' & Hl' & <-). simpl in Hl'. exists l'. split; [|done].
    destruct (k_lock k) as [l0|]; [|done]. by case_match.
Qed.

Lemma held_status k T :
  kinv is_start k → kheld k T →
  (∃ p b t, status_of k T = KLocked p b t) ∨ ∃ c, status_of k T = KCommitted c.
Proof.
  intros Hi (l & Hk & <-). unfold status_of.
  destruct (decision (k_writes k) (lock_startTs l)) as [[c w]|] eqn:Hd.
  - right. apply decision_Some in Hd as (Hw & Hs & _).
    destruct (ki_lock _ _ Hi l Hk) as (_ & _ & Hnr & _).
    rewrite (proj2 (is_rollback_false w) (Hnr c w Hw Hs)). eauto.
  - left. rewrite Hk, N.eqb_refl. eauto.
Qed.

Lemma locked_held k T p b t : status_of k T = KLocked p b t → kheld k T.
Proof.
  unfold status_of. destruct (decision _ _) as [[c w]|]; [by case_match|].
  destruct (k_lock k) as [l|] eqn:Hk; [|done]. case_match eqn:HT; [|done]. intros _. exists l.
  split; [done|]. by apply N.eqb_eq.
Qed.

(** A transaction with an effective record is committed. *)
Lemma committed_status k T c w :
  kinv is_start k → k_writes k !! c = Some w → w_startTs w = T → effective w →
  ∃ c', status_of k T = KCommitted c'.
Proof.
  intros Hi Hw HT He. unfold status_of.
  destruct (decision (k_writes k) T) as [[c' w']|] eqn:Hd.
  - apply decision_Some in Hd as (Hw' & HT' & _).
    destruct (ki_exclusive _ _ Hi c w c' w' Hw Hw') as [Hx _]; [congruence|].
    rewrite (proj2 (is_rollback_false w') (proj1 Hx He)). eauto.
  - rewrite decision_None in Hd. by destruct (Hd c w Hw).
Qed.

(** Placing a lock that is not pessimistic settles the transaction. *)
Lemma lock_settled tso k l d :
  kinv is_start k → kguard is_start k (ALock l d) → isPessimistic l = false →
  settled (status_of (kapply tso k (ALock l d)) (lock_startTs l)).
Proof.
  intros Hi Hg Hp.
  assert (kinv is_start (kapply tso k (ALock l d))) as Hi' by (by apply kinv_lock).
  destruct (held_status (kapply tso k (ALock l d)) (lock_startTs l) Hi') as [(p & b & t & Hx)|(c & ->)].
  - by exists l.
  - rewrite Hx. left. revert Hx. unfold status_of. simpl.
    destruct (decision _ _) as [[c w]|]; [by case_match|]. rewrite N.eqb_refl, Hp. intros [= <- <- <-]. eauto.
  - right. left. eauto.
Qed.

End machine.

(** ** The instance *)

Section store.
Context {E : Type} `{!KVEngine E}.
Context (is_start : N → bool).
Context (start_pos : ∀ ts, is_start ts = true → ts ≠ 0%N).

(** One request, run by the virtual method it names; [now] and [now2] are the
    readings of the wall clock. *)
Definition mvcc_exec (now now2 : N) (op : store_op) (s : t E) : answer_of op * t E :=
  match op return answer_of op * t E with
  | OpGet key readTs => (Get s key readTs, s)
  | OpScan a b readTs limit entries => (Scan s a b readTs limit entries, s)
  | OpAcquirePessimisticLockForUpdate key pk T ttl fu expireAt _ =>
      AcquirePessimisticLockForUpdate s key pk T ttl fu expireAt now
  | OpPrewriteLock key pk T ttl fu _ => PrewriteLock now s key pk T ttl fu
  | OpPrewrite key value pk T ttl fu _ => Prewrite s key value pk T ttl fu now now2
  | OpPrewriteDelete key pk T ttl fu _ => PrewriteDelete s key pk T ttl fu now now2
  | OpBatchPrewrite muts pk T ttl fu _ =>
      let r := BatchPrewrite s muts pk T ttl fu now now2 in ((r.1, false), r.2)
  | OpCommit key T c => Commit s key T c
  | OpCommitWithBudget key T c _ => Commit s key T c
  | OpBatchCommit keys T c _ => BatchCommit now s keys T c
  | OpRollback key T => Rollback s key T
  | OpBatchRollback keys T => BatchRollback now s keys T
  | OpCheckTxnStatus key T cur rb _ => CheckTxnStatus now s key T cur rb
  | OpResolveLock key T decision c => ResolveLock now s key T decision c
  | OpExpiredLocks nowMs => (ExpiredLocks s nowMs, s)
  | OpGarbageCollect sp => GarbageCollect s sp
  | OpStats => (Stats s, s)
  | OpCapabilities => (Capabilities s, s)
  | OpMaxObservedTs => (MaxObservedTs s, s)
  end.

(** A store together with the time its locks were placed. *)
Record cstore := MkCStore { cs_store : t E; cs_time : string → N }.
Implicit Types (s : t E) (time : string → N) (cs : cstore).

Definition cs_status cs key (T : N) : kstatus := status_of (view (cs_store cs) (cs_time cs) key) T.
Definition cs_held cs key (T : N) : Prop := kheld (view (cs_store cs) (cs_time cs) key) T.

Definition cs_inv cs : Prop :=
  mem_ok (cs_store cs) ∧ in_step (cs_store cs) ∧
  ∀ key, kinv is_start (view (cs_store cs) (cs_time cs) key).

Definition cs_exec (tso : N) (op : store_op) cs (a : answer_of op) cs' : Prop :=
  ∃ now now2, fits64 now ∧ room (cs_store cs) ∧
    mvcc_exec now now2 op (cs_store cs) = (a, cs_store cs') ∧
    cs_time cs' = time_obs tso (cs_store cs) (cs_store cs') (cs_time cs).

(** The kind of actions of a request, as a set of keys and actions. *)
Definition op_acts (op : store_op) s : string → kaction → Prop := λ key a,
  ∃ keys T e, footprint op = Some (keys, T, e) ∧ key ∈ keys ∧ acts_as e T (locks_ s !! key) a.

Lemma admits_commit cs op keys T c key :
  admits is_start cs_status cs_held cs op → footprint op = Some (keys, T, FCommit c) → key ∈ keys →
  commit_ok is_start (cs_store cs) (cs_time cs) key T c.
Proof.
  intros [_ Hc] Hf Hk. destruct (Hc _ _ _ Hf) as (H1 & H2 & H3). split_and!; [done..|].
  intros l Hl HT. destruct (H3 key Hk) as (p & t & Hs & Hlt).
  { exists (persisted_lock l). unfold view, view_of. simpl. by rewrite Hl. }
  unfold cs_status, status_of, view, view_of in Hs. simpl in Hs. rewrite Hl in Hs. simpl in Hs.
  destruct (MvccSpec.decision _ _) as [[c' w]|]; [by case_match|]. rewrite HT, N.eqb_refl in Hs.
  by injection Hs as _ -> ->.
Qed.

Lemma moves_weaken P tso s time s' :
  safe_move is_start (proper P) tso s time s' → safe_move is_start P tso s time s'.
Proof. intros [Hm Hc]. split; [|done]. eapply moves_mono; [|done]. by intros key a []. Qed.

Ltac op_kind :=
  intros k a [? Ha]; do 3 eexists; split; [done|]; subst; split; [set_solver|done].

(** Every request moves the store by actions of its kind. *)
Lemma exec_moves tso now now2 op cs :
  cs_inv cs → admits is_start cs_status cs_held cs op → fits64 now →
  safe_move is_start (op_acts op (cs_store cs)) tso (cs_store cs) (cs_time cs)
    (mvcc_exec now now2 op (cs_store cs)).2.
Proof using start_pos.
  destruct cs as [s time]. intros (Hm & Hc & _) Had Hnow. pose proof Had as [[HT Hargs] _].
  assert (∀ P s', direct is_start s time P s' → (∀ key a, P key a → op_acts op s key a) →
    safe_move is_start (op_acts op s) tso s time s') as Hd.
  { intros P s' Hd HP. pose proof (safe_direct is_start start_pos P tso s time s' Hm Hc Hd) as Hs.
    apply moves_weaken in Hs as [Hmv Hin]. split; [|done]. by eapply moves_mono. }
  assert (safe_move is_start (op_acts op s) tso s time s) as Hsame by (by apply safe_same).
  simpl.
  destruct op as [| |key pk T ttl fu ex b|key pk T ttl fu b|key v pk T ttl fu b|key pk T ttl fu b
    |muts pk T ttl fu b|key T c|key T c b|keys T c b|key T|keys T|key T cur rb b|key T d c|nw|sp| | |];
    simpl in *; try exact Hsame; try done.
  - destruct Hargs as (? & ? & ? & ?). destruct (HT _ _ _ eq_refl) as [? ?].
    eapply Hd; [by apply DiAcquireForUpdate|]. op_kind.
  - destruct Hargs as (? & ? & ?). destruct (HT _ _ _ eq_refl) as [? ?].
    eapply Hd; [by apply DiPrewriteLock|]. op_kind.
  - destruct Hargs as (? & ? & ?). destruct (HT _ _ _ eq_refl) as [? ?].
    eapply Hd; [by apply DiPrewrite|]. op_kind.
  - destruct Hargs as (? & ? & ?). destruct (HT _ _ _ eq_refl) as [? ?].
    eapply Hd; [by apply DiPrewriteDelete|]. op_kind.
  - destruct Hargs as (? & ? & ?). destruct (HT _ _ _ eq_refl) as [? ?].
    eapply Hd; [by apply DiBatchPrewrite|]. op_kind.
  - destruct (HT _ _ _ eq_refl) as [? ?]. eapply Hd.
    { apply DiCommit; [done|]. eapply (admits_commit (MkCStore s time)); [exact Had|done|set_solver]. }
    op_kind.
  - destruct (HT _ _ _ eq_refl) as [? ?]. eapply Hd.
    { apply DiCommit; [done|]. eapply (admits_commit (MkCStore s time)); [exact Had|done|set_solver]. }
    op_kind.
  - destruct (HT _ _ _ eq_refl) as [? ?]. eapply Hd.
    { apply DiBatchCommit; [done|]. intros k Hk. by eapply (admits_commit (MkCStore s time)). }
    op_kind.
  - destruct (HT _ _ _ eq_refl) as [? ?].
    eapply Hd; [by apply DiRollback|]. op_kind.
  - destruct (HT _ _ _ eq_refl) as [? ?].
    eapply Hd; [by apply DiBatchRollback|]. op_kind.
  - destruct rb; [|exact Hsame].
    eapply Hd; [by apply DiCheckTxnStatus|]. op_kind.
  - destruct Hargs as (? & ? & ?). destruct d; try exact Hsame.
    + eapply Hd.
      { apply DiResolveLock; [done..|]. intros _. eapply (admits_commit (MkCStore s time)); [exact Had|done|set_solver]. }
      intros k a [-> [[_ Ha]|[? _]]]; [|done]. do 3 eexists. split; [done|]. set_solver.
    + eapply Hd; [by apply DiResolveLock|].
      intros k a [-> [[? _]|[_ Ha]]]; [done|]. do 3 eexists. split; [done|]. set_solver.
Qed.

(** What one request does to one key. *)
Lemma exec_key tso op cs a cs' key :
  cs_inv cs → admits is_start cs_status cs_held cs op → cs_exec tso op cs a cs' →
  let k := view (cs_store cs) (cs_time cs) key in
  let k' := view (cs_store cs') (cs_time cs') key in
  k' ≡ k ∨
  ∃ act, kguard is_start k act ∧ op_acts op (cs_store cs) key act ∧ k' ≡ kapply tso k act.
Proof using start_pos.
  intros Hi Had (now & now2 & Hnow & _ & Hex & Ht). simpl.
  destruct (exec_moves tso now now2 op cs Hi Had Hnow) as [(acts & Hen & HP & Hv & _) _].
  rewrite Hex in Hv. simpl in Hv. specialize (Hv key). rewrite Ht. unfold view.
  destruct (acts key) as [act|] eqn:Ha; [right|by left]. exists act.
  split_and!; [by apply Hen|by apply HP|exact Hv].
Qed.

Lemma view_lock s time key : k_lock (view s time key) = persisted_lock <$> locks_ s !! key.
Proof. done. Qed.

(** The kind of an action does not depend on whether the lock it meets has been
    through the disk. *)
Lemma acts_as_persisted e T lk act :
  acts_as e T lk act → acts_as e T (persisted_lock <$> lk) act.
Proof.
  destruct e; [|done..]. intros (l & d & H1 & H2 & H3 & H4 & H5). exists l, d. split_and!; try done.
  intros Hn. apply H5. by destruct lk.
Qed.

Lemma cs_exec_inv tso op cs a cs' :
  cs_inv cs → admits is_start cs_status cs_held cs op → cs_exec tso op cs a cs' → cs_inv cs'.
Proof using start_pos.
  intros Hi Had Hex. pose proof Hex as (now & now2 & Hnow & Hroom & Hrun & Ht).
  destruct (exec_moves tso now now2 op cs Hi Had Hnow) as [(acts & _ & _ & _ & _ & Hm) Hc].
  rewrite Hrun in Hm, Hc. simpl in Hm, Hc. split_and!; [done..|]. intros key.
  destruct (exec_key tso op cs a cs' key Hi Had Hex) as [->|(act & Hg & _ & ->)]; [apply Hi|].
  apply kinv_apply; [apply Hi|done].
Qed.

Lemma cs_exec_status tso op cs a cs' key T :
  cs_inv cs → admits is_start cs_status cs_held cs op → cs_exec tso op cs a cs' →
  cs_status cs' key T = cs_status cs key T ∨
  ∃ keys e, footprint op = Some (keys, T, e) ∧ key ∈ keys ∧
    change tso e (cs_status cs key T) (cs_status cs' key T).
Proof using start_pos.
  intros Hi Had Hex. unfold cs_status.
  destruct (exec_key tso op cs a cs' key Hi Had Hex) as [->|(act & Hg & Hk & Heq)]; [by left|].
  destruct Hk as (keys & T' & e & Hf & Hin & Ha%acts_as_persisted).
  destruct (status_change is_start tso (view (cs_store cs) (cs_time cs) key) e T T' act)
    as [|[-> Hch]]; [apply Hi|done|done|left; by rewrite Heq|right].
  exists keys, e. rewrite Heq. done.
Qed.

Lemma cs_exec_held tso op cs a cs' key T :
  cs_inv cs → admits is_start cs_status cs_held cs op → cs_exec tso op cs a cs' →
  cs_held cs' key T → cs_held cs key T ∨
  ∃ keys pk pess fu, footprint op = Some (keys, T, FLock pk pess fu) ∧ key ∈ keys ∧
    ∀ c, cs_status cs key T = KCommitted c → (c ≤ N.max T fu)%N.
Proof using start_pos.
  intros Hi Had Hex. unfold cs_held.
  destruct (exec_key tso op cs a cs' key Hi Had Hex) as [->|(act & Hg & Hk & ->)]; [by left|].
  destruct Hk as (keys & T' & e & Hf & Hin & Ha%acts_as_persisted). intros Hh.
  destruct (held_change is_start tso (view (cs_store cs) (cs_time cs) key) e T T' act)
    as [|(-> & pk & pess & fu & -> & Hc)]; [apply Hi|done|done|done|by left|right]. by exists keys, pk, pess, fu.
Qed.

Lemma cs_commit_releases tso op cs a cs' key T keys c :
  cs_inv cs → admits is_start cs_status cs_held cs op → cs_exec tso op cs a cs' →
  footprint op = Some (keys, T, FCommit c) → cs_status cs key T ≠ cs_status cs' key T →
  ¬ cs_held cs' key T.
Proof using start_pos.
  intros Hi Had Hex Hf. unfold cs_status, cs_held.
  destruct (exec_key tso op cs a cs' key Hi Had Hex) as [->|(act & Hg & Hk & ->)]; [done|].
  destruct Hk as (keys' & T' & e & Hf' & Hin & Ha). simplify_eq. simpl in Ha. subst act.
  destruct Hg as (_ & _ & _ & l & Hl & _). intros _ (l' & Hl' & _). unfold kapply in Hl'.
  by rewrite Hl in Hl'.
Qed.

(** ** What answers say *)

(** A transaction with a lock that is not pessimistic is settled. *)
Lemma lock_present_settled cs key l :
  cs_inv cs → locks_ (cs_store cs) !! key = Some l → isPessimistic l = false →
  settled (cs_status cs key (lock_startTs l)).
Proof.
  intros (_ & _ & Hk) Hl Hp.
  assert (kheld (view (cs_store cs) (cs_time cs) key) (lock_startTs l)) as Hh.
  { exists (persisted_lock l). by rewrite view_lock, Hl. }
  unfold cs_status. destruct (held_status is_start _ _ (Hk key) Hh) as [(p & b & t & Hs)|(c & ->)].
  - rewrite Hs. left. revert Hs. unfold status_of. rewrite view_lock, Hl. simpl.
    destruct (MvccSpec.decision _ _) as [[c w]|]; [by case_match|]. rewrite N.eqb_refl, Hp.
    intros [= <- <- <-]. eauto.
  - right. left. eauto.
Qed.

Lemma performed_lock_settled tso cs cs' key lk T pk fu act rev :
  cs_inv cs → kguard is_start (view (cs_store cs) (cs_time cs) key) act →
  locking lk T pk false fu act →
  performed tso (kv_contents (engine_ (cs_store cs))) (cs_store cs) (cs_time cs) key act rev
    (kv_contents (engine_ (cs_store cs'))) (cs_store cs') →
  cs_time cs' = time_obs tso (cs_store cs) (cs_store cs') (cs_time cs) →
  settled (cs_status cs' key T).
Proof.
  intros (_ & _ & Hk) Hg (l & d & -> & <- & _ & Hp & _) ((Hv & _) & _) Ht.
  unfold cs_status, view. rewrite Ht, Hv. apply (lock_settled is_start); [apply (Hk key)|done..].
Qed.

(** A prepared lock that succeeds has been placed, or was there before. *)
Lemma prepared_lock_settled tso now cs cs' key T pk fu p :
  cs_inv cs → sound is_start (locking (locks_ (cs_store cs) !! key) T pk false fu)
    (cs_store cs) (cs_time cs) key p →
  (p_status p = StOk → modifications p = [] →
   ∃ l, locks_ (cs_store cs) !! key = Some l ∧ lock_startTs l = T ∧ isPessimistic l = false) →
  apply_if_changed now (cs_store cs) key p = (StOk, cs_store cs') →
  cs_time cs' = time_obs tso (cs_store cs) (cs_store cs') (cs_time cs) →
  settled (cs_status cs' key T).
Proof using start_pos.
  intros Hi Hsd Hnone Hrun Ht. unfold apply_if_changed in Hrun.
  destruct (HasChanges p) eqn:Hch.
  - unfold HasChanges in Hch. pose proof Hch as [Hok _]%andb_true_iff. rewrite Hok in Hrun. simpl in Hrun.
    destruct (Hsd Hch) as (act & Hl & Hp).
    destruct (ApplyPrepared_performs is_start start_pos now tso (cs_store cs) (cs_time cs) key p act 0)
      as (st & s' & Hap & Hres); [apply Hi|done|]. rewrite Hap in Hrun. injection Hrun as -> ->.
    destruct Hres as [(_ & _ & ?)|[[? _]|[_ Hpf]]]; [done..|].
    eapply performed_lock_settled; [exact Hi| |exact Hl|exact Hpf|exact Ht].
    by eapply performs_guard.
  - rewrite orb_true_r in Hrun. injection Hrun as Hst Hs.
    destruct Hnone as (l & Hl & <- & Hpe); [done| |].
    { unfold HasChanges in Hch. rewrite Hst, bool_decide_true in Hch by done. simpl in Hch.
      apply negb_false_iff in Hch. by apply bool_decide_eq_true in Hch. }
    assert (cs_status cs' key (lock_startTs l) = cs_status cs key (lock_startTs l)) as ->.
    { unfold cs_status, view, view_of. rewrite Ht, <- Hs, time_obs_same by done. done. }
    by apply lock_present_settled.
Qed.

(** Every mutation of a batch that prepares without failure has an item. *)
Lemma batch_prewrite_covers s pk T ttl fu now now2 prev items ordered key :
  b_status (batch_prewrite_loop s pk T ttl fu now now2 prev items ordered) = StOk →
  (key ∈ item_key <$> items ∨ key ∈ mut_key <$> ordered) →
  key ∈ item_key <$> b_items (batch_prewrite_loop s pk T ttl fu now now2 prev items ordered).
Proof.
  revert prev items. induction ordered as [|m ordered IH]; intros prev items; cbn [batch_prewrite_loop].
  { intros _ [?|?%not_elem_of_nil]; done. }
  destruct (_ || _); [done|].
  destruct (mut_isLockOnly m); (case_bool_decide as Hst; [|intros Hok; by destruct (Hst Hok)]); intros Hok [Hk|Hk];
    (apply IH; [exact Hok|]);
    [left; rewrite fmap_app; apply elem_of_app; by left|
     apply elem_of_cons in Hk as [->|Hk]; [left; rewrite fmap_app; apply elem_of_app; right; set_solver|by right]|
     left; rewrite fmap_app; apply elem_of_app; by left|
     apply elem_of_cons in Hk as [->|Hk]; [left; rewrite fmap_app; apply elem_of_app; right; set_solver|by right]].
Qed.

(** An item of a prewrite batch without changes found its lock in place. *)
Lemma prewrite_unchanged s key value pk T ttl del fu now now2 :
  p_status (PreparePrewrite s key value pk T ttl del fu now now2) = StOk →
  modifications (PreparePrewrite s key value pk T ttl del fu now now2) = [] →
  ∃ l, locks_ s !! key = Some l ∧ lock_startTs l = T ∧ isPessimistic l = false.
Proof.
  unfold PreparePrewrite. destruct (locks_ s !! key) as [l|] eqn:Hl.
  - destruct (N.eqb_spec (lock_startTs l) T); [|done]. simpl.
    destruct (String.eqb _ _); [|done]. simpl. destruct (isPessimistic l) eqn:Hp; [|eauto]. simpl.
    by repeat case_match.
  - by repeat case_match.
Qed.

Lemma prewrite_lock_unchanged s key pk T ttl fu :
  p_status (PreparePrewriteLock s key pk T ttl fu) = StOk →
  modifications (PreparePrewriteLock s key pk T ttl fu) = [] →
  ∃ l, locks_ s !! key = Some l ∧ lock_startTs l = T ∧ isPessimistic l = false.
Proof.
  unfold PreparePrewriteLock. destruct (locks_ s !! key) as [l|] eqn:Hl; [|done].
  destruct (N.eqb_spec (lock_startTs l) T); [|done]. simpl.
  destruct (String.eqb _ _); [|done]. simpl. destruct (isPessimistic l) eqn:Hp; [|eauto]. simpl.
  by repeat case_match.
Qed.

Lemma batch_items_ok s pk T ttl fu now now2 prev items ordered i :
  i ∈ b_items (batch_prewrite_loop s pk T ttl fu now now2 prev items ordered) →
  (∀ j, j ∈ items → p_status (item_prepared j) = StOk) → p_status (item_prepared i) = StOk.
Proof.
  revert prev items. induction ordered as [|m ordered IH]; intros prev items; simpl; [auto|].
  destruct (_ || _); [auto|].
  destruct (mut_isLockOnly m); (case_bool_decide as Hst; [|by intros ?%not_elem_of_nil]);
    intros Hi Hit; (eapply IH; [exact Hi|]);
    (intros j [Hj|Hj%list_elem_of_singleton]%elem_of_app; [by apply Hit|by subst]).
Qed.

(** The items of a prewrite batch that prepared without failure: each is
    prepared, and without changes only if its lock is in place; each mutation has
    one. *)
Lemma batch_prewrite_item s muts pk T ttl fu now now2 i :
  i ∈ b_items (PrepareBatchPrewrite s muts pk T ttl fu now now2) →
  p_status (item_prepared i) = StOk ∧
  (item_mods i = [] →
   ∃ l, locks_ s !! item_key i = Some l ∧ lock_startTs l = T ∧ isPessimistic l = false).
Proof.
  unfold PrepareBatchPrewrite. destruct (sort_mutations muts) as [|m ms]; [by intros ?%not_elem_of_nil|].
  intros Hin. assert (p_status (item_prepared i) = StOk) as Hok.
  { eapply batch_items_ok; [exact Hin|]. by intros j ?%not_elem_of_nil. }
  split; [done|]. unfold item_mods.
  apply batch_prewrite_items in Hin as [?%not_elem_of_nil|[_ [Hp|(v & del & Hp)]]]; [done|..];
    rewrite Hp in *; eauto using prewrite_lock_unchanged, prewrite_unchanged.
Qed.

Lemma batch_prewrite_item_of s muts pk T ttl fu now now2 key :
  b_status (PrepareBatchPrewrite s muts pk T ttl fu now now2) = StOk → key ∈ mut_key <$> muts →
  ∃ i, i ∈ b_items (PrepareBatchPrewrite s muts pk T ttl fu now now2) ∧ item_key i = key.
Proof.
  intros Hst Hkey.
  assert (key ∈ item_key <$> b_items (PrepareBatchPrewrite s muts pk T ttl fu now now2))
    as (i & -> & Hin)%list_elem_of_fmap; [|eauto].
  revert Hst. unfold PrepareBatchPrewrite.
  assert (key ∈ mut_key <$> sort_mutations muts) as Hks
    by (unfold sort_mutations; by rewrite merge_sort_Permutation).
  destruct (sort_mutations muts) as [|m ms] eqn:Hs; [by apply not_elem_of_nil in Hks|].
  intros Hst. apply batch_prewrite_covers; [exact Hst|]. by right.
Qed.

Lemma item_has_changes i :
  p_status (item_prepared i) = StOk → item_mods i ≠ [] → HasChanges (item_prepared i) = true.
Proof. intros Hst Hne. unfold HasChanges. by rewrite Hst, bool_decide_true, bool_decide_false. Qed.

Lemma same_view_settled cs cs' key l :
  cs_inv cs → view (cs_store cs') (cs_time cs') key ≡ view (cs_store cs) (cs_time cs) key →
  locks_ (cs_store cs) !! key = Some l → isPessimistic l = false →
  settled (cs_status cs' key (lock_startTs l)).
Proof.
  intros Hi Hv Hl Hp. unfold cs_status. rewrite Hv. by apply (lock_present_settled cs).
Qed.

Lemma BatchPrewrite_settled tso now now2 cs cs' muts pk T ttl fu key :
  cs_inv cs → start_ok is_start T → lock_args_ok pk ttl fu now →
  BatchPrewrite (cs_store cs) muts pk T ttl fu now now2 = (StOk, cs_store cs') →
  cs_time cs' = time_obs tso (cs_store cs) (cs_store cs') (cs_time cs) →
  key ∈ mut_key <$> muts → settled (cs_status cs' key T).
Proof using start_pos.
  intros Hi HT Hargs Hrun Ht Hkey. pose proof Hi as (Hm & _ & Hk).
  unfold BatchPrewrite, apply_batch_if_changed in Hrun.
  set (b := PrepareBatchPrewrite (cs_store cs) muts pk T ttl fu now now2) in *.
  destruct (BatchHasChanges b) eqn:Hch.
  - unfold BatchHasChanges in Hch. apply andb_true_iff in Hch as [Hst Hex].
    rewrite Hst in Hrun. simpl in Hrun. apply bool_decide_eq_true in Hst.
    destruct (batch_prewrite_item_of _ _ _ _ _ _ _ _ _ Hst Hkey) as (i & Hin & <-).
    destruct (ApplyPreparedBatch_acts is_start start_pos (λ k, locking (locks_ (cs_store cs) !! k) T pk false fu)
      now tso (cs_store cs) (cs_time cs) b 0 Hm) as [[_ Hno]|(acts & Hen & HP & (Hv & _) & Hyes)].
    { intros j Hj Hst' _. destruct (decide (item_mods j = [])) as [|Hne]; [by left|right].
      apply (sound_BatchPrewrite is_start start_pos (cs_store cs) (cs_time cs) muts pk T ttl fu now now2);
        [done..|by apply item_has_changes]. }
    { rewrite Hrun in Hno. by specialize (Hno eq_refl). }
    rewrite Hrun in Hv. simpl in Hv. specialize (Hv (item_key i)).
    destruct (acts (item_key i)) as [act|] eqn:Ha.
    + destruct (HP _ _ Ha) as (l & d & -> & <- & _ & Hp & _).
      unfold cs_status, view. rewrite Ht, Hv.
      apply (lock_settled is_start); [apply (Hk (item_key i))|by apply Hen|done].
    + destruct (batch_prewrite_item _ _ _ _ _ _ _ _ i Hin) as [Hok Hnone].
      destruct Hnone as (l & Hli & <- & Hp).
      { destruct (decide (item_mods i = [])) as [|Hne]; [done|].
        destruct (Hyes i Hin Hne) as [? ?]. congruence. }
      apply (same_view_settled cs); [done| |done..]. unfold view. by rewrite Ht.
  - rewrite orb_true_r in Hrun. injection Hrun as Hst Hs.
    destruct (batch_prewrite_item_of _ _ _ _ _ _ _ _ _ Hst Hkey) as (i & Hin & <-).
    destruct (batch_prewrite_item _ _ _ _ _ _ _ _ i Hin) as [Hok Hnone].
    destruct Hnone as (l & Hli & <- & Hp).
    { destruct (decide (item_mods i = [])) as [|Hne]; [done|]. exfalso.
      unfold BatchHasChanges in Hch. rewrite Hst, bool_decide_true in Hch by done. simpl in Hch.
      assert (existsb (λ i, HasChanges (item_prepared i)) (b_items b) = true); [|congruence].
      apply existsb_exists. exists i. split; [by apply list_elem_of_In|by apply item_has_changes]. }
    apply (same_view_settled cs); [done| |done..]. by rewrite Ht, <- Hs; unfold view, view_of; rewrite time_obs_same.
Qed.

Lemma already_committed cs key T c :
  cs_inv cs → commit_guard (cs_store cs) key T c = inl StAlreadyCommitted →
  ∃ c' w, versions (cs_store cs) key !! c' = Some w ∧ w_startTs w = T ∧ effective w.
Proof.
  intros (_ & _ & Hk). unfold commit_guard. destruct (locks_ (cs_store cs) !! key) as [l|] eqn:Hl.
  - destruct (N.eqb_spec (lock_startTs l) T); [|done]. simpl.
    destruct (N.leb_spec c (N.max T (forUpdateTs l))) as [|Hlt]; [done|].
    destruct (versions (cs_store cs) key !! c) as [w|] eqn:Hw; [|by case_match].
    destruct (N.eqb_spec (w_startTs w) T) as [HwT|]; [|done]. intros _. exists c, w. split_and!; [done..|].
    destruct (ki_record _ _ (Hk key) c w Hw) as (_ & _ & _ & _ & Hr).
    destruct (effective_dec w) as [|Hrb]; [done|]. specialize (Hr Hrb). lia.
  - rewrite find_write_decision. destruct (MvccSpec.decision _ _) as [[c' w]|] eqn:Hd; [|done].
    destruct (is_rollback w) eqn:Hr; [done|]. intros _. apply decision_Some in Hd as (Hw & HwT & _).
    exists c', w. split_and!; [done..|by apply is_rollback_false].
Qed.

Lemma inspect_status cs key T :
  match trs_state (InspectTxnStatusLocked (cs_store cs) key T) with
  | RsCommitted => cs_status cs key T =
                     KCommitted (trs_commitTs (InspectTxnStatusLocked (cs_store cs) key T))
  | RsRolledBack => cs_status cs key T = KRolledBack
  | RsNotFound => cs_status cs key T = KNone
  | RsLocked => True
  end.
Proof.
  unfold InspectTxnStatusLocked, cs_status, status_of. rewrite find_write_decision, view_lock.
  unfold view, view_of. simpl. destruct (MvccSpec.decision _ _) as [[c w]|]; [by destruct (is_rollback w)|].
  destruct (locks_ (cs_store cs) !! key) as [l|]; simpl; [|done]. by destruct (lock_startTs l =? T)%N.
Qed.

(** The record of a status query: with changes the transaction is rolled back by
    the query, without it is what the store has. *)
Lemma check_record s key T cur rb :
  HasChanges (PrepareCheckTxnStatus s key T cur rb) = true →
  txnRecordStatus (PrepareCheckTxnStatus s key T cur rb) = MkTxnRecordStatus RsRolledBack 0 None.
Proof.
  unfold PrepareCheckTxnStatus, HasChanges. destruct (_ || _); [by rewrite andb_false_r|].
  destruct (trs_lock _) as [l|]; [|by rewrite andb_false_r].
  destruct (negb (hlc_expired l cur)); [by rewrite andb_false_r|].
  destruct (bool_decide (p_status (PrepareRollbackLocked s key T) = StOk)) eqn:Hst; [done|].
  by rewrite Hst.
Qed.

Lemma check_record_same s key T cur rb :
  p_status (PrepareCheckTxnStatus s key T cur rb) = StOk →
  HasChanges (PrepareCheckTxnStatus s key T cur rb) = false →
  txnRecordStatus (PrepareCheckTxnStatus s key T cur rb) = InspectTxnStatusLocked s key T.
Proof.
  unfold PrepareCheckTxnStatus, HasChanges.
  destruct (negb rb || negb (bool_decide (trs_state (InspectTxnStatusLocked s key T) = RsLocked))) eqn:Hlk;
    [done|].
  destruct (trs_lock _) as [l|]; [|done]. destruct (negb (hlc_expired l cur)); [done|].
  reflect_bools. unfold PrepareRollbackLocked.
  destruct (find_write s key T) as [[c w]|] eqn:Hf.
  - unfold InspectTxnStatusLocked in *. rewrite Hf in *. by destruct (is_rollback w).
  - simpl. rewrite (bool_decide_false (_ = [])); [done|]. unfold rollback_ops.
    by destruct (locked_by s key T).
Qed.

Lemma PrewriteLocked_settled tso now now2 cs cs' key v pk T ttl del fu :
  cs_inv cs → is_start T = true → fits64 T → fits_mem pk → fits64 ttl → fits64 fu → fits64 now →
  PrewriteLocked (cs_store cs) key v pk T ttl del fu now now2 = (StOk, cs_store cs') →
  cs_time cs' = time_obs tso (cs_store cs) (cs_store cs') (cs_time cs) →
  settled (cs_status cs' key T).
Proof using start_pos.
  intros Hi HT Hf Hpk Httl Hfu Hnow Hrun Ht.
  destruct (outcome_PrewriteLocked is_start start_pos tso (cs_store cs) (cs_time cs) key v pk T ttl del fu
    now now2) as [[_ Hno]|(act & Hl & Hg & _ & Hpf & _)]; [apply Hi|done..| |].
  - rewrite Hrun in Hno. by specialize (Hno eq_refl).
  - rewrite Hrun in Hpf. by eapply performed_lock_settled.
Qed.

Lemma Commit_says tso cs cs' key T c st :
  cs_inv cs → fits64 T → commit_ok is_start (cs_store cs) (cs_time cs) key T c →
  Commit (cs_store cs) key T c = (st, cs_store cs') →
  cs_time cs' = time_obs tso (cs_store cs) (cs_store cs') (cs_time cs) →
  IsCommitSuccess st = true → ∃ c', cs_status cs' key T = KCommitted c'.
Proof.
  intros Hi HfT (Hfc & Hcs & Hpre) Hrun Ht Hok. pose proof Hi as (Hm & _ & Hk).
  destruct (outcome_Commit is_start tso (cs_store cs) (cs_time cs) key T c)
    as [[_ Hno]|(act & -> & Hg & _ & ((Hv & _) & _) & Hst)]; [done..| |].
  - rewrite Hrun in Hno. destruct st; try done; [by specialize (Hno eq_refl)|]. clear Hno Hok.
    unfold Commit in Hrun. destruct (commit_guard _ _ _ _) as [st|l] eqn:Hg.
    2: { unfold AppendRevisionMutationLocked, write_then in Hrun. destruct (kv_write_batch _ _) as [[] ?]; done. }
    injection Hrun as -> Hs.
    assert (cs_status cs' key T = cs_status cs key T) as ->.
    { unfold cs_status. rewrite Ht, <- Hs. unfold view, view_of. by rewrite time_obs_same. }
    destruct (already_committed _ _ _ _ Hi Hg) as (c' & w & Hw & HwT & Hne).
    unfold cs_status. eapply (committed_status is_start); [apply Hk|exact Hw|done|done].
  - rewrite Hrun in Hv. simpl in Hv.
    assert (cs_status cs' key T = status_of (kapply tso (view (cs_store cs) (cs_time cs) key) (ACommit T c)) T) as ->
      by (unfold cs_status, view; by rewrite Ht, Hv).
    destruct (status_commit is_start tso (view (cs_store cs) (cs_time cs) key) T c T) as [Hsame|(_ & _ & ->)];
      [apply Hk|done| |eauto].
    assert (kinv is_start (kapply tso (view (cs_store cs) (cs_time cs) key) (ACommit T c))) as Hi'
      by (apply kinv_apply; [apply Hk|done]).
    destruct Hg as (_ & _ & _ & l & Hl & _).
    eapply (committed_status is_start _ T c (MkWrite T c (commit_type l)) Hi'); [|done|apply commit_type_effective].
    unfold kapply. rewrite Hl. simpl. by rewrite lookup_insert_eq.
Qed.

Lemma CheckTxnStatus_says tso now cs cs' key T cur rb st r :
  cs_inv cs → start_ok is_start T →
  CheckTxnStatus now (cs_store cs) key T cur rb = (st, r, cs_store cs') →
  cs_time cs' = time_obs tso (cs_store cs) (cs_store cs') (cs_time cs) → st = StOk →
  match trs_state (default default_TxnRecordStatus r) with
  | RsCommitted => cs_status cs' key T = KCommitted (trs_commitTs (default default_TxnRecordStatus r))
  | RsRolledBack => cs_status cs' key T = KRolledBack
  | RsNotFound => cs_status cs' key T = KNone
  | RsLocked => True
  end.
Proof using start_pos.
  intros Hi [HT Hf] Hrun Ht ->. pose proof Hi as (Hm & _ & Hk).
  unfold CheckTxnStatus in Hrun.
  pose proof (sound_PrepareCheckTxnStatus is_start (cs_store cs) (cs_time cs) key T cur rb HT Hf) as Hsd.
  set (p := PrepareCheckTxnStatus (cs_store cs) key T cur rb) in *.
  destruct (bool_decide (p_status p = StOk)) eqn:Hst; simpl in Hrun;
    [|injection Hrun as Hst' _ _; by rewrite Hst', bool_decide_true in Hst].
  destruct (HasChanges p) eqn:Hch.
  - destruct (Hsd Hch) as (act & -> & Hp).
    destruct (ApplyPrepared_performs is_start start_pos now tso (cs_store cs) (cs_time cs) key p (ARollback T) 0)
      as (st & s' & Hap & Hres); [done..|]. rewrite Hap in Hrun.
    destruct Hres as [(_ & _ & ?)|[[-> _]|[-> Hpf]]]; [done|done|]. simpl in Hrun. injection Hrun as <- ->.
    assert (cs_status cs' key T = KRolledBack) as Hrb.
    { destruct Hpf as ((Hv & _) & _). unfold cs_status, view. rewrite Ht, Hv.
      apply (status_rolled_back is_start). by eapply performs_guard. }
    assert (txnRecordStatus p = MkTxnRecordStatus RsRolledBack 0 None) as Hr by (by apply check_record).
    simpl. by rewrite Hr.
  - injection Hrun as <- Hs. simpl. apply bool_decide_eq_true in Hst. unfold p.
    rewrite check_record_same by done.
    assert (cs_status cs' key T = cs_status cs key T) as ->; [|apply inspect_status].
    unfold cs_status. rewrite Ht, <- Hs. unfold view, view_of. by rewrite time_obs_same.
Qed.

(** Everything an answer of a store says is true of it. *)
Lemma cs_exec_says tso op cs a cs' :
  cs_inv cs → admits is_start cs_status cs_held cs op → cs_exec tso op cs a cs' →
  says cs_status cs_held op a cs'.
Proof using start_pos.
  intros Hi Had (now & now2 & Hnow & _ & Hrun & Ht). pose proof Had as [[HT Hargs] _].
  pose proof Hi as (Hm & _ & Hk).
  destruct op as [| |key pk T ttl fu ex b|key pk T ttl fu b|key v pk T ttl fu b|key pk T ttl fu b
    |muts pk T ttl fu b|key T c|key T c b|keys T c b|key T|keys T|key T cur rb b|key T d c|nw|sp| | |];
    simpl in *; try done.
  - destruct Hargs as (? & ? & ?). destruct (HT _ _ _ eq_refl) as [? ?]. intros ->.
    eapply (prepared_lock_settled tso now cs cs' key T pk fu (PreparePrewriteLock (cs_store cs) key pk T ttl fu));
      [exact Hi|by apply sound_PreparePrewriteLock|apply prewrite_lock_unchanged|exact Hrun|exact Ht].
  - destruct Hargs as (? & ? & ?). destruct (HT _ _ _ eq_refl) as [? ?]. intros ->.
    eapply PrewriteLocked_settled; [exact Hi|..|exact Hrun|exact Ht]; done.
  - destruct Hargs as (? & ? & ?). destruct (HT _ _ _ eq_refl) as [? ?]. intros ->.
    eapply PrewriteLocked_settled; [exact Hi|..|exact Hrun|exact Ht]; done.
  - destruct Hargs as (? & ? & ?). intros Hst key Hkey. injection Hrun as <- Hs. simpl in Hst.
    eapply BatchPrewrite_settled; [exact Hi|by eapply HT| |rewrite <- Hs, <- Hst; apply surjective_pairing|done..].
    by split_and!.
  - destruct (HT _ _ _ eq_refl) as [? ?]. intros Hok.
    eapply Commit_says; [exact Hi|done| |exact Hrun|exact Ht|done].
    eapply admits_commit; [exact Had|done|set_solver].
  - destruct (HT _ _ _ eq_refl) as [? ?]. intros Hok.
    eapply Commit_says; [exact Hi|done| |exact Hrun|exact Ht|done].
    eapply admits_commit; [exact Had|done|set_solver].
  - intros Hok. destruct a as [st r]. by eapply CheckTxnStatus_says.
  - injection Hrun as <- Hs. intros key l. unfold ExpiredLocks.
    rewrite list_elem_of_filter, elem_of_map_to_list. intros [_ Hl]. rewrite Hs in Hl.
    assert (cs_held cs' key (lock_startTs l)) as Hh by (exists (persisted_lock l); by rewrite view_lock, Hl).
    split; [done|]. intros p b t. unfold cs_status, status_of. rewrite view_lock, Hl. simpl.
    destruct (MvccSpec.decision _ _) as [[c w]|]; [by case_match|]. rewrite N.eqb_refl. by intros [= <- <- _].
Qed.

#[global] Instance mvcc_TxnStore : TxnStore is_start cstore := {|
  ts_status := cs_status;
  ts_held := cs_held;
  ts_inv := cs_inv;
  ts_exec := cs_exec;
  ts_exec_inv := cs_exec_inv;
  ts_exec_status := cs_exec_status;
  ts_exec_held := cs_exec_held;
  ts_exec_says := cs_exec_says;
  ts_locked_held cs key T p b t := locked_held (view (cs_store cs) (cs_time cs) key) T p b t;
  ts_held_status cs key T Hi := held_status is_start _ T (proj2 (proj2 Hi) key);
  ts_commit_releases := cs_commit_releases
|}.

(** A store just opened on an empty engine. *)
Lemma cs_inv_empty now (e : E) : kv_contents e = ∅ → cs_inv (MkCStore (Open now e) (λ _, 0%N)).
Proof using start_pos.
  intros He. destruct (winv_initial is_start (MkWorld (Open now e) (λ _, 0%N) 0 0 [])) as [Hm Hc Hk _].
  - by exists now, e.
  - by split_and!.
Qed.

End store.
