(* ===== verification/TwoPhase.v ===== *)
(** * Two-phase commit over the Regions of a cluster

    A world has the stores of the Regions, the oracle, the requests sent so far,
    the answers produced so far, the client sessions and the recovery workers.
    Sessions and workers are programs; each step lets one of them take an event,
    runs a request that was sent, or stops a session.  A request may run any
    number of times, at any later time, or never; an answer may be lost, and then
    the caller sees a failure.

    The protocol is stated apart from the programs: [phase] is what a session has
    committed itself to, [sends] and [learn] say which requests it may send and
    what it concludes from an answer.  This file shows that programs that follow
    the protocol keep transactions atomic; Conform.v shows that the code follows
    it.

    Every key has one [home] Region for the whole run: moving keys between
    Regions is not part of this model, nor is garbage collection. *)

From Stdlib Require Import ZArith.
From S2P Require Import Prelude KvEngine MvccTypes Codec Hlc Mvcc RegionMeta TxnProg TxnStore.

(** ** The protocol *)

(** What a session has committed itself to: nothing yet; the commit timestamp
    [c]; the commit, because the primary is known to be committed; the rollback,
    because the primary is known to be rolled back; the rollback, and no commit
    was or will be sent. *)
Inductive phase := POpen | PCommit (c : N) | PDone (c : N) | PRolled (c : N) | PAbort.

Record ps := MkPs {
  ps_phase : phase;
  ps_pk : option string;    (** the primary named by the requests so far *)
  ps_fu : N;                (** the largest [forUpdateTs] sent *)
  ps_writes : list string;  (** keys for which a prewrite was sent *)
  ps_acked : list string;   (** keys whose prewrite was acknowledged *)
  ps_ts : list N            (** timestamps taken since the last acknowledgement *)
}.
Implicit Types (σ : ps) (T c : N) (key : string) (op : store_op).

Definition ps_init : ps := MkPs POpen None 0 [] [] [].

Definition commit_ts σ : option N :=
  match ps_phase σ with
  | PCommit c | PDone c | PRolled c => Some c
  | _ => None
  end.

Definition set_phase σ ph : ps :=
  MkPs ph (ps_pk σ) (ps_fu σ) (ps_writes σ) (ps_acked σ) (ps_ts σ).
Definition take_ts σ ts : ps :=
  MkPs (ps_phase σ) (ps_pk σ) (ps_fu σ) (ps_writes σ) (ps_acked σ) (ts :: ps_ts σ).
Definition add_lock σ pk fu keys : ps :=
  MkPs (ps_phase σ) (Some pk) (N.max (ps_fu σ) fu) (keys ++ ps_writes σ) (ps_acked σ) (ps_ts σ).
Definition add_ack σ keys : ps :=
  MkPs (ps_phase σ) (ps_pk σ) (ps_fu σ) (ps_writes σ) (keys ++ ps_acked σ) [].

(** Requests that only the session of the transaction sends. *)
Definition is_resolve op : bool :=
  match op with OpResolveLock _ _ _ _ | OpCheckTxnStatus _ _ _ _ _ => true | _ => false end.

(** The requests the session of [T] may send in a phase, and what sending them
    commits it to. *)
Inductive sends T : ps → store_op → ps → Prop :=
| SRead σ op : footprint op = None → sends T σ op σ
| SLock σ op key pk fu :
    footprint op = Some ([key], T, FLock pk true fu) → ps_phase σ = POpen →
    (ps_pk σ = None ∨ ps_pk σ = Some pk) → sends T σ op (add_lock σ pk fu [])
| SPrewrite σ op keys pk fu :
    footprint op = Some (keys, T, FLock pk false fu) → ps_phase σ = POpen →
    (ps_pk σ = None ∨ ps_pk σ = Some pk) → sends T σ op (add_lock σ pk fu keys)
| SDecide σ op pk c :
    footprint op = Some ([pk], T, FCommit c) → is_resolve op = false → ps_phase σ = POpen →
    ps_pk σ = Some pk → pk ∈ ps_acked σ → ps_writes σ ⊆ ps_acked σ →
    c ∈ ps_ts σ → (N.max T (ps_fu σ) < c)%N → sends T σ op (set_phase σ (PCommit c))
| SCommitPrimary σ op pk c :
    footprint op = Some ([pk], T, FCommit c) → is_resolve op = false → ps_phase σ = PCommit c →
    ps_pk σ = Some pk → sends T σ op σ
| SCommit σ op keys c :
    footprint op = Some (keys, T, FCommit c) → is_resolve op = false → ps_phase σ = PDone c →
    keys ⊆ ps_acked σ → sends T σ op σ
| SAbort σ op keys :
    footprint op = Some (keys, T, FRollback) → is_resolve op = false →
    ps_phase σ = POpen ∨ ps_phase σ = PAbort → sends T σ op (set_phase σ PAbort)
| SRollback σ op keys c :
    footprint op = Some (keys, T, FRollback) → is_resolve op = false →
    ps_phase σ = PRolled c → sends T σ op σ
| SRelease σ op keys c :
    footprint op = Some (keys, T, FRollback) → is_resolve op = false →
    ps_phase σ = PDone c → (∀ key, key ∈ keys → key ∉ ps_writes σ) → sends T σ op σ.

(** What an answer to a query of the primary says. *)
Definition learn_record σ (r : TxnRecordStatus) : ps :=
  match ps_phase σ, trs_state r with
  | PCommit c, RsCommitted => set_phase σ (PDone c)
  | PCommit c, RsRolledBack => set_phase σ (PRolled c)
  | _, _ => σ
  end.

(** What the session concludes from an answer. *)
Definition learn T σ op : answer_of op → ps :=
  match op return answer_of op → ps with
  | OpPrewriteLock key _ T' _ _ _ | OpPrewrite key _ _ T' _ _ _ | OpPrewriteDelete key _ T' _ _ _ =>
      λ a, if bool_decide (a = StOk ∧ T' = T) then add_ack σ [key] else σ
  | OpBatchPrewrite muts _ T' _ _ _ =>
      λ a, if bool_decide (a.1 = StOk ∧ T' = T) then add_ack σ (mut_key <$> muts) else σ
  | OpCommitWithBudget key T' _ _ =>
      λ a, match ps_phase σ with
           | PCommit c => if IsCommitSuccess a && bool_decide (ps_pk σ = Some key ∧ T' = T)
                          then set_phase σ (PDone c) else σ
           | _ => σ
           end
  | OpCheckTxnStatus key T' _ _ _ =>
      λ a, if bool_decide (a.1 = StOk ∧ ps_pk σ = Some key ∧ T' = T)
           then learn_record σ (default default_TxnRecordStatus a.2) else σ
  | _ => λ _, σ
  end.

(** Answers a session cannot get: a commit with another timestamp than its own. *)
Definition expected T σ op : answer_of op → Prop :=
  match op return answer_of op → Prop with
  | OpCheckTxnStatus key T' _ _ _ => λ a,
      a.1 = StOk → ps_pk σ = Some key → T' = T →
      trs_state (default default_TxnRecordStatus a.2) = RsCommitted →
      commit_ts σ = Some (trs_commitTs (default default_TxnRecordStatus a.2))
  | _ => λ _, True
  end.

(** ** Programs that follow the protocol *)

Section follows.
Context (is_start : N → bool).

(** [wp T p σ Q R]: the program follows the protocol of [T] from [σ], ends in a
    value and a state that satisfy [Q], or in an exception and a state that
    satisfy [R]. *)
Fixpoint wp {X A} T (p : prog X A) σ (Q : A → ps → Prop) (R : X → ps → Prop) : Prop :=
  match p with
  | Ret a => Q a σ
  | Raise x => R x σ
  | Vis e k =>
      match e return (resp e → ps → Prop) → Prop with
      | ENext => λ K, K None σ ∧
          ∀ ts, fits64 ts → is_start ts = false → (∀ ts', ts' ∈ ps_ts σ → ts' < ts)%N →
                K (Some ts) (take_ts σ ts)
      | ESubmit _ op => λ K, ∃ σ', args_ok is_start op ∧ sends T σ op σ' ∧ K tt σ'
      | EAwait _ op => λ K, ∀ a, expected T σ op a → K a (learn T σ op a)
      | _ => λ K, ∀ a, K a σ
      end (λ r σ', wp T (k r) σ' Q R)
  end.

Lemma wp_mono {X A} T (p : prog X A) σ (Q Q' : A → ps → Prop) (R R' : X → ps → Prop) :
  (∀ a σ, Q a σ → Q' a σ) → (∀ x σ, R x σ → R' x σ) → wp T p σ Q R → wp T p σ Q' R'.
Proof.
  intros HQ HR. revert σ. induction p as [a|x|e k IH]; intros σ; simpl; [auto..|].
  destruct e; simpl; eauto.
  - intros [H1 H2]. split; [by apply IH|]. intros ts Hf Hs Ht. apply IH. by apply H2.
  - intros (σ' & Hargs & Hs & Hk). eauto.
Qed.

Lemma wp_bind {X A B} T (p : prog X A) (f : A → prog X B) σ (Q : B → ps → Prop) (R : X → ps → Prop) :
  wp T p σ (λ a σ', wp T (f a) σ' Q R) R → wp T (p ≫= f) σ Q R.
Proof.
  revert σ. induction p as [a|x|e k IH]; intros σ; simpl; [done..|].
  destruct e; simpl; eauto.
  - intros [H1 H2]. split; [by apply IH|]. intros ts Hf Hs Ht. apply IH. by apply H2.
  - intros (σ' & Hargs & Hs & Hk). exists σ'. split; [done|]. split; [done|]. by apply IH.
Qed.

(** *** Recovery workers *)

(** What a worker knows: the primary of a transaction with a lock; that the
    primary is committed; that it will never be. *)
Inductive rfact :=
| RLock (T : N) (pk : string)
| RCommitted (T : N) (pk : string) (c : N)
| RDead (T : N) (pk : string).

Definition told op : answer_of op → list rfact :=
  match op return answer_of op → list rfact with
  | OpExpiredLocks _ => λ a, (λ item, RLock (lock_startTs item.2) (primaryKey item.2)) <$> a
  | OpCheckTxnStatus key T _ true _ => λ a,
      if bool_decide (a.1 = StOk) then
        let r := default default_TxnRecordStatus a.2 in
        match trs_state r with
        | RsCommitted => [RCommitted T key (trs_commitTs r)]
        | RsRolledBack | RsNotFound => [RDead T key]
        | RsLocked => []
        end
      else []
  | _ => λ _, []
  end.

(** The requests a worker may send. *)
Inductive resolves (K : list rfact) : store_op → Prop :=
| RsRead op : footprint op = None → args_ok is_start op → resolves K op
| RsCheck T pk now budget :
    RLock T pk ∈ K → resolves K (OpCheckTxnStatus pk T now true budget)
| RsCommit T key pk c :
    RLock T pk ∈ K → RCommitted T pk c ∈ K → resolves K (OpResolveLock key T RsCommitted c)
| RsRollback T key pk :
    RLock T pk ∈ K → (key = pk ∨ RDead T pk ∈ K) → resolves K (OpResolveLock key T RsRolledBack 0).

Fixpoint wpr {X A} (p : prog X A) (K : list rfact) (Q : A → list rfact → Prop) : Prop :=
  match p with
  | Ret a => Q a K
  | Raise _ => True
  | Vis e k =>
      match e return (resp e → list rfact → Prop) → Prop with
      | ESubmit _ op => λ F, resolves K op ∧ F tt K
      | EAwait _ op => λ F, ∀ a, F a (told op a ++ K)
      | _ => λ F, ∀ a, F a K
      end (λ r K', wpr (k r) K' Q)
  end.

Lemma wpr_mono {X A} (p : prog X A) K (Q Q' : A → list rfact → Prop) :
  (∀ a K, Q a K → Q' a K) → wpr p K Q → wpr p K Q'.
Proof.
  intros HQ. revert K. induction p as [a|x|e k IH]; intros K; simpl; [auto..|].
  destruct e; simpl; eauto. intros [H1 H2]. split; [done|]. by apply IH.
Qed.

Lemma wpr_bind {X A B} (p : prog X A) (f : A → prog X B) K (Q : B → list rfact → Prop) :
  wpr p K (λ a K', wpr (f a) K' Q) → wpr (p ≫= f) K Q.
Proof.
  revert K. induction p as [a|x|e k IH]; intros K; simpl; [done..|].
  destruct e; simpl; eauto. intros [H1 H2]. split; [done|]. by apply IH.
Qed.

End follows.
