(* ===== verification/TxnWorld.v ===== *)
(** * A cluster of stores, sessions and recovery workers

    The transition system in which the coordinator's programs run, and the proof
    that programs that follow the protocol of TwoPhase.v keep every transaction
    atomic across the stores.  Stores are known only through [TxnStore]. *)

From Stdlib Require Import ZArith.
From S2P Require Import Prelude KvEngine MvccTypes Codec Hlc Mvcc RegionMeta TxnProg TxnStore TwoPhase.

(** The keys a request names. *)
Definition op_keys (op : store_op) : list string :=
  match op with
  | OpGet key _ | OpAcquirePessimisticLockForUpdate key _ _ _ _ _ _ | OpPrewriteLock key _ _ _ _ _
  | OpPrewrite key _ _ _ _ _ _ | OpPrewriteDelete key _ _ _ _ _ | OpCommit key _ _
  | OpCommitWithBudget key _ _ _ | OpRollback key _ | OpCheckTxnStatus key _ _ _ _
  | OpResolveLock key _ _ _ => [key]
  | OpBatchPrewrite muts _ _ _ _ _ => mut_key <$> muts
  | OpBatchCommit keys _ _ _ | OpBatchRollback keys _ => keys
  | _ => []
  end.

Lemma footprint_keys op keys T e : footprint op = Some (keys, T, e) → op_keys op = keys.
Proof. intros H. destruct op as [| | | | | | | | | | | |? ? ? []|? ? []| | | | |]; simpl in *; by simplify_eq. Qed.

(** An answer that does not report success. *)
Definition lost (op : store_op) : answer_of op → Prop :=
  match op return answer_of op → Prop with
  | OpPrewriteLock _ _ _ _ _ _ | OpPrewrite _ _ _ _ _ _ _ | OpPrewriteDelete _ _ _ _ _ _ => λ a, a ≠ StOk
  | OpBatchPrewrite _ _ _ _ _ _ => λ a, a.1 ≠ StOk
  | OpCommit _ _ _ | OpCommitWithBudget _ _ _ _ => λ a, IsCommitSuccess a = false
  | OpCheckTxnStatus _ _ _ _ _ => λ a, a.1 ≠ StOk
  | OpExpiredLocks _ => λ a, a = []
  | _ => λ _, True
  end.

Section world.
Context (is_start : N → bool) {S : Type} `{!TxnStore is_start S} (home : string → Z).
(** The programs that run as sessions and as workers.  A session returns an [A]
    for which [Post] holds. *)
Context {A : Type} (session : N → prog unit A → Prop) (worker : prog unit unit → Prop).
Context (Post : N → A → ps → Prop).

Record dworld := MkWorld {
  d_tso : N;                                      (** the last timestamp issued *)
  d_store : Z → S;
  d_net : list (Z * store_op);                    (** requests sent *)
  d_log : list (Z * {op : store_op & answer_of op}); (** answers produced *)
  d_sessions : gmap N (prog unit A);              (** by start timestamp *)
  d_workers : gmap nat (prog unit unit)
}.
Implicit Types (w : dworld) (r : Z).

Definition dstatus w key T : kstatus := ts_status (d_store w (home key)) key T.
Definition dheld w key T : Prop := ts_held (d_store w (home key)) key T.

Definition set_tso w ts := MkWorld ts (d_store w) (d_net w) (d_log w) (d_sessions w) (d_workers w).
Definition send w r op :=
  MkWorld (d_tso w) (d_store w) ((r, op) :: d_net w) (d_log w) (d_sessions w) (d_workers w).
Definition set_sessions w x := MkWorld (d_tso w) (d_store w) (d_net w) (d_log w) x (d_workers w).
Definition set_workers w x := MkWorld (d_tso w) (d_store w) (d_net w) (d_log w) (d_sessions w) x.
Definition ran w r op (a : answer_of op) (s' : S) :=
  MkWorld (d_tso w) (λ r', if decide (r' = r) then s' else d_store w r') (d_net w)
    ((r, existT op a) :: d_log w) (d_sessions w) (d_workers w).

(** ** Steps *)

(** The answer an event may get, and the world after it. *)
Definition answers w (e : event) : resp e → dworld → Prop :=
  match e return resp e → dworld → Prop with
  | ENext => λ a w',
      match a with
      | None => w' = w
      | Some ts => ((d_tso w < ts)%N ∧ fits64 ts ∧ is_start ts = false) ∧ w' = set_tso w ts
      end
  | ESubmit r op => λ _ w', w' = send w r op
  | EAwait r op => λ a w', (r, op) ∈ d_net w ∧ ((r, existT op a) ∈ d_log w ∨ lost op a) ∧ w' = w
  | _ => λ _ w', w' = w
  end.

(** The session of [T] has left its open phase: it is over, or it has asked for a
    commit or a rollback. *)
Definition ended w T : Prop :=
  d_sessions w !! T = None ∨
  (∃ r op keys c, (r, op) ∈ d_net w ∧ footprint op = Some (keys, T, FCommit c)) ∨
  (∃ r op keys, (r, op) ∈ d_net w ∧ footprint op = Some (keys, T, FRollback) ∧ is_resolve op = false).

(** The moments at which a recovery request does no harm.  A primary without any
    trace of the transaction is met only when its session has left the open
    phase; a lock without a value is not resolved to a commit.  The code ensures
    neither: atomicity is shown of the runs in which requests run undisturbed, and
    ClusterRuns.v has a run in which one does not, and the transaction is torn
    apart. *)
Definition undisturbed w op : Prop :=
  match op with
  | OpCheckTxnStatus key T _ true _ => dstatus w key T = KNone → ended w T
  | OpResolveLock key T RsCommitted _ => ∀ p b t, dstatus w key T = KLocked p b t → b = false
  | _ => True
  end.

(** The steps of the world, where a request may run when [allowed]. *)
Inductive dstep (allowed : dworld → store_op → Prop) : dworld → dworld → Prop :=
| DTick w ts : (d_tso w ≤ ts)%N → dstep allowed w (set_tso w ts)
| DBegin w T p :
    (d_tso w < T)%N → is_start T = true → fits64 T → session T p →
    dstep allowed w (set_sessions (set_tso w T) (<[T := p]> (d_sessions w)))
| DSpawn w i p :
    d_workers w !! i = None → worker p →
    dstep allowed w (set_workers w (<[i := p]> (d_workers w)))
| DSession w T e k a w' :
    d_sessions w !! T = Some (Vis e k) → answers w e a w' →
    dstep allowed w (set_sessions w' (<[T := k a]> (d_sessions w')))
| DWorker w i e k a w' :
    d_workers w !! i = Some (Vis e k) → answers w e a w' →
    dstep allowed w (set_workers w' (<[i := k a]> (d_workers w')))
| DStop w T : dstep allowed w (set_sessions w (delete T (d_sessions w)))
| DExec w r op a s' :
    (r, op) ∈ d_net w → (∀ key, key ∈ op_keys op → home key = r) → allowed w op →
    ts_exec (d_tso w) op (d_store w r) a s' → dstep allowed w (ran w r op a s').

(** Requests run whenever they are in the network. *)
Definition anytime w (op : store_op) : Prop := True.

Lemma dstep_mono (P Q : dworld → store_op → Prop) w w' :
  (∀ w op, P w op → Q w op) → dstep P w w' → dstep Q w w'.
Proof. intros HPQ []; econstructor; eauto. Qed.

(** ** The invariant of one transaction *)

(** [st] and [hd] are the statuses and locks of the transaction on all keys. *)
Record tinv (st : string → kstatus) (hd : string → Prop) (tso T : N) (σ : ps) : Prop := {
  ti_start : is_start T = true ∧ fits64 T ∧ (T ≤ tso)%N;
  ti_locked key p b t : st key = KLocked p b t →
    ps_pk σ = Some p ∧ (t ≤ tso)%N ∧ (b = false → key ∈ ps_writes σ);
  ti_committed key c : st key = KCommitted c →
    commit_ts σ = Some c ∧ ¬ hd key ∧ ∃ p, ps_pk σ = Some p ∧ st p = KCommitted c;
  ti_rolled key : st key = KRolledBack →
    ps_pk σ = Some key ∨ ps_phase σ = PAbort ∨
    ∃ p, ps_pk σ = Some p ∧ (st p = KRolledBack ∨ (∃ c, st p = KCommitted c) ∧ key ∉ ps_writes σ);
  ti_acked key : key ∈ ps_acked σ → settled (st key);
  ti_acked_sent : ps_acked σ ⊆ ps_writes σ;
  ti_ts ts : ts ∈ ps_ts σ → (ts ≤ tso)%N ∧ fits64 ts ∧ is_start ts = false ∧
    ∀ key p t, key ∈ ps_acked σ → st key = KLocked p false t → (t < ts)%N;
  ti_commit c : commit_ts σ = Some c →
    fits64 c ∧ is_start c = false ∧ (N.max T (ps_fu σ) < c)%N ∧ ps_writes σ ⊆ ps_acked σ ∧
    (∃ p, ps_pk σ = Some p ∧ p ∈ ps_acked σ) ∧
    ∀ key p t, key ∈ ps_acked σ → st key = KLocked p false t → (t < c)%N;
  ti_done c : ps_phase σ = PDone c → ∃ p, ps_pk σ = Some p ∧ st p = KCommitted c;
  ti_prolled c : ps_phase σ = PRolled c → ∃ p, ps_pk σ = Some p ∧ st p = KRolledBack
}.

(** Why a request of [T] is in the network. *)
Definition justified1 (st : string → kstatus) (σ : ps) op (keys : list string) (e : effect) : Prop :=
  match e with
  | FLock pk pess fu =>
      ps_pk σ = Some pk ∧ (fu ≤ ps_fu σ)%N ∧ (pess = false → keys ⊆ ps_writes σ)
  | FCommit c =>
      commit_ts σ = Some c ∧ (is_resolve op = true ∨ keys ⊆ ps_acked σ) ∧
      ∃ p, ps_pk σ = Some p ∧ (keys ⊆ [p] ∨ st p = KCommitted c)
  | FRollback =>
      (is_resolve op = false → ps_phase σ ≠ POpen) ∧
      (ps_phase σ = PAbort ∨ ∃ p, ps_pk σ = Some p ∧
        (keys ⊆ [p] ∨ st p = KRolledBack ∨
         (∃ c, st p = KCommitted c) ∧ ∀ key, key ∈ keys → key ∉ ps_writes σ))
  end.

(** How the ghost state of a session may move. *)
Record grows (σ σ' : ps) : Prop := {
  gr_pk p : ps_pk σ = Some p → ps_pk σ' = Some p;
  gr_abort : ps_phase σ = PAbort → ps_phase σ' = PAbort;
  gr_open : ps_phase σ' = POpen → ps_phase σ = POpen;
  gr_commit c : commit_ts σ = Some c → commit_ts σ' = Some c ∧ ps_writes σ' = ps_writes σ;
  gr_fu : (ps_fu σ ≤ ps_fu σ')%N;
  gr_writes : ps_writes σ ⊆ ps_writes σ';
  gr_acked : ps_acked σ ⊆ ps_acked σ'
}.

(** How statuses may move. *)
Definition later (x x' : kstatus) : Prop :=
  (settled x → settled x') ∧ (∀ c, x = KCommitted c → x' = KCommitted c) ∧
  (x = KRolledBack → x' = KRolledBack).

#[local] Instance later_refl : Reflexive later.
Proof. intros x. by split_and!. Qed.

Lemma change_later tso e x x' : change tso e x x' → later x x'.
Proof.
  intros H. pose proof (change_final _ _ _ _ H) as [H1 H2].
  split_and!; [intros ?; eauto using change_settled|naive_solver..].
Qed.

Lemma justified1_mono st st' hd tso T σ σ' op keys e :
  tinv st hd tso T σ → (∀ key, later (st key) (st' key)) → grows σ σ' →
  justified1 st σ op keys e → justified1 st' σ' op keys e.
Proof.
  intros HI Hst [Hpk Hab Hop Hc Hfu Hw Ha]. destruct e as [pk pess fu|c|]; simpl.
  - intros (Hp & Hf & Hk). split_and!; [by apply Hpk|lia|]. intros Hb. etrans; [by apply Hk|done].
  - intros (Hct & Hr & p & Hp & Hq). split; [by apply Hc|]. split.
    + destruct Hr as [?|?]; [by left|right; by etrans].
    + exists p. split; [by apply Hpk|]. destruct Hq as [?|?]; [by left|right]. by apply (Hst p).
  - intros (Hr & Hq). split; [naive_solver|].
    destruct Hq as [?|(p & Hp & Hq)]; [left; by apply Hab|right].
    exists p. split; [by apply Hpk|]. destruct Hq as [?|[?|[[c ?] Hq]]]; [by left|right; left|right; right].
    + by apply (Hst p).
    + split; [exists c; by apply (Hst p)|].
      destruct (ti_committed _ _ _ _ _ HI p c) as [Hct _]; [done|].
      destruct (Hc c Hct) as [_ ->]. done.
Qed.

#[local] Instance grows_refl : Reflexive grows.
Proof. intros σ. by split; auto. Qed.

(** *** Steps of the session *)

Lemma tinv_tso st hd tso tso' T σ : (tso ≤ tso')%N → tinv st hd tso T σ → tinv st hd tso' T σ.
Proof.
  intros Hle [Hs Hl Hc Hr Ha Haw Ht Hcm Hd Hp]. split; auto.
  - destruct Hs as (? & ? & ?). split_and!; [done..|lia].
  - intros key p b t Hk. destruct (Hl key p b t Hk) as (? & ? & ?). split_and!; [done|lia|done].
  - intros ts Hin. destruct (Ht ts Hin) as (? & ? & ? & ?). split_and!; [lia|done..].
Qed.

Lemma tinv_take st hd tso T σ ts :
  (tso < ts)%N → fits64 ts → is_start ts = false →
  tinv st hd tso T σ → tinv st hd ts T (take_ts σ ts).
Proof.
  intros Hlt Hf Hst HI. assert (HI' : tinv st hd ts T σ) by (eapply tinv_tso; [|done]; lia).
  destruct HI' as [Hs Hl Hc Hr Ha Haw Ht Hcm Hd Hp]. split; auto.
  intros ts' [->|Hin]%elem_of_cons; [|by apply Ht]. split_and!; [lia|done..|].
  intros key p t _ Hk. destruct (ti_locked _ _ _ _ _ HI key p false t Hk) as (_ & ? & _). lia.
Qed.

Lemma tinv_add_lock st hd tso T σ pk fu keys :
  ps_phase σ = POpen → ps_pk σ = None ∨ ps_pk σ = Some pk →
  tinv st hd tso T σ → tinv st hd tso T (add_lock σ pk fu keys).
Proof.
  intros Hph Hpk HI. assert (Hnc : commit_ts σ = None) by (unfold commit_ts; by rewrite Hph).
  assert (Hsome : ∀ p, ps_pk σ = Some p → Some pk = Some p).
  { intros p Hp. destruct Hpk; congruence. }
  destruct HI as [Hs Hl Hc Hr Ha Haw Ht Hcm Hd Hp].
  assert (Hno : ∀ key c, st key ≠ KCommitted c).
  { intros key c Hk. destruct (Hc key c Hk) as [? _]. congruence. }
  split; simpl; auto.
  - intros key p b t Hk. destruct (Hl key p b t Hk) as (? & ? & Hb).
    split_and!; [by apply Hsome|done|]. intros Hb'. apply elem_of_app. auto.
  - intros key c Hk. by apply Hno in Hk.
  - intros key Hk. destruct (Hr key Hk) as [?|[?|(p & Hp' & [?|[[c Hk'] _]])]]; [left; by apply Hsome|by right; left| |].
    + right. right. exists p. split; [by apply Hsome|by left].
    + by apply Hno in Hk'.
  - etrans; [done|]. intros key ?. apply elem_of_app. by right.
  - intros c Hk. unfold commit_ts in *. simpl in *. by rewrite Hph in Hk.
  - intros c Hk. congruence.
  - intros c Hk. congruence.
Qed.

Lemma grows_add_lock σ pk fu keys :
  ps_phase σ = POpen → ps_pk σ = None ∨ ps_pk σ = Some pk → grows σ (add_lock σ pk fu keys).
Proof.
  intros Hph Hpk. split; simpl; auto; [| |lia|].
  - intros p Hp. destruct Hpk; congruence.
  - intros c Hk. unfold commit_ts in Hk. by rewrite Hph in Hk.
  - intros key Hin. apply elem_of_app. by right.
Qed.

Lemma tinv_decide st hd tso T σ pk c :
  ps_phase σ = POpen → ps_pk σ = Some pk → pk ∈ ps_acked σ → ps_writes σ ⊆ ps_acked σ →
  c ∈ ps_ts σ → (N.max T (ps_fu σ) < c)%N →
  tinv st hd tso T σ → tinv st hd tso T (set_phase σ (PCommit c)).
Proof.
  intros Hph Hpk Hin Hw Hc Hlt HI.
  assert (Hno : ∀ key c, st key ≠ KCommitted c).
  { intros key c' Hk. destruct (ti_committed _ _ _ _ _ HI key c' Hk) as [Hk' _].
    unfold commit_ts in Hk'. by rewrite Hph in Hk'. }
  destruct HI as [Hs Hl _ Hr Ha Haw Ht _ _ _]. split; simpl; auto; try done.
  - intros key c' Hk. by apply Hno in Hk.
  - intros key Hk. destruct (Hr key Hk) as [?|[?|?]]; [by left|congruence|by right; right].
  - intros c' Hc'. unfold commit_ts in Hc'. simpl in Hc'. simplify_eq.
    destruct (Ht c' Hc) as (_ & ? & ? & ?). split_and!; eauto.
Qed.

Lemma tinv_abort st hd tso T σ :
  ps_phase σ = POpen ∨ ps_phase σ = PAbort →
  tinv st hd tso T σ → tinv st hd tso T (set_phase σ PAbort).
Proof.
  intros Hph [Hs Hl Hc Hr Ha Haw Ht Hcm Hd Hp].
  assert (Hnc : commit_ts σ = None) by (unfold commit_ts; by destruct Hph as [-> | ->]).
  split; simpl; auto; try done.
  - intros key c Hk. destruct (Hc key c Hk). congruence.
Qed.

Lemma grows_set_phase σ ph :
  (ps_phase σ = PAbort → ph = PAbort) → (ph = POpen → ps_phase σ = POpen) →
  (∀ c, commit_ts σ = Some c → commit_ts (set_phase σ ph) = Some c) → grows σ (set_phase σ ph).
Proof. intros. split; simpl; auto; lia. Qed.

(** Sending a request keeps the invariant and justifies the request. *)
Lemma sends_tinv st hd tso T σ op σ' :
  sends T σ op σ' → tinv st hd tso T σ →
  tinv st hd tso T σ' ∧ grows σ σ' ∧
  ∀ keys T' e, footprint op = Some (keys, T', e) → T' = T ∧ justified1 st σ' op keys e.
Proof.
  intros Hs HI. destruct Hs as [σ op Hfp|σ op key pk fu Hfp Hph Hpk|σ op keys pk fu Hfp Hph Hpk
    |σ op pk c Hfp Hres Hph Hpk Hin Hw Hc Hlt|σ op pk c Hfp Hres Hph Hpk|σ op keys c Hfp Hres Hph Hin
    |σ op keys Hfp Hres Hph|σ op keys c Hfp Hres Hph|σ op keys c Hfp Hres Hph Hdis];
    rewrite Hfp.
  - split_and!; [done|done|]. intros ? ? ? ?. done.
  - split_and!; [by apply tinv_add_lock|by apply grows_add_lock|].
    intros ? ? ? [= <- <- <-]. simpl. split_and!; [done..|lia|done].
  - split_and!; [by apply tinv_add_lock|by apply grows_add_lock|].
    intros ? ? ? [= <- <- <-]. simpl. split_and!; [done..|lia|]. intros _ key Hk. apply elem_of_app. by left.
  - split_and!; [by eapply tinv_decide|by apply grows_set_phase; rewrite ?Hph; unfold commit_ts; simpl; rewrite ?Hph|].
    intros ? ? ? [= <- <- <-]. simpl. split_and!; [done..| |].
    + right. intros key Hk%list_elem_of_singleton. by subst.
    + exists pk. split; [done|]. by left.
  - split_and!; [done..|]. intros ? ? ? [= <- <- <-]. simpl.
    assert (Hct : commit_ts σ = Some c) by (unfold commit_ts; by rewrite Hph).
    destruct (ti_commit _ _ _ _ _ HI c Hct) as (_ & _ & _ & _ & (p & Hp & Hin) & _). simplify_eq.
    split_and!; [done..| |exists pk; split; [done|by left]].
    right. intros key Hk%list_elem_of_singleton. by subst.
  - split_and!; [done..|]. intros ? ? ? [= <- <- <-]. simpl.
    assert (Hct : commit_ts σ = Some c) by (unfold commit_ts; by rewrite Hph).
    destruct (ti_done _ _ _ _ _ HI c Hph) as (p & Hp & Hk). split_and!; [done..|by right|eauto].
  - split_and!; [by apply tinv_abort| |].
    + apply grows_set_phase; [done..|]. intros c Hc. unfold commit_ts in Hc. by destruct Hph as [Hph|Hph]; rewrite Hph in Hc.
    + intros ? ? ? [= <- <- <-]. simpl. by split_and!; [..|left].
  - split_and!; [done..|]. intros ? ? ? [= <- <- <-]. simpl.
    destruct (ti_prolled _ _ _ _ _ HI c Hph) as (p & Hp & Hk). split_and!; [done..|congruence|right; eauto].
  - split_and!; [done..|]. intros ? ? ? [= <- <- <-]. simpl.
    destruct (ti_done _ _ _ _ _ HI c Hph) as (p & Hp & Hk). split_and!; [done..|congruence|right; eauto 10].
Qed.

(** *** Answers *)

(** What an answer that was produced says, for good. *)
Definition truth (G : gmap N ps) (gst : string → N → kstatus) op : answer_of op → Prop :=
  match op return answer_of op → Prop with
  | OpPrewriteLock key _ T _ _ _ | OpPrewrite key _ _ T _ _ _ | OpPrewriteDelete key _ T _ _ _ =>
      λ a, a = StOk → settled (gst key T)
  | OpBatchPrewrite muts _ T _ _ _ =>
      λ a, a.1 = StOk → ∀ key, key ∈ mut_key <$> muts → settled (gst key T)
  | OpCommit key T _ | OpCommitWithBudget key T _ _ =>
      λ a, IsCommitSuccess a = true → ∃ c, gst key T = KCommitted c
  | OpCheckTxnStatus key T _ rb _ => λ a, a.1 = StOk →
      let r := default default_TxnRecordStatus a.2 in
      match trs_state r with
      | RsCommitted => gst key T = KCommitted (trs_commitTs r)
      | RsRolledBack => gst key T = KRolledBack
      | RsNotFound => rb = true → ∃ σ, G !! T = Some σ ∧ ps_phase σ = PAbort
      | RsLocked => True
      end
  | OpExpiredLocks _ => λ a, ∀ key l, (key, l) ∈ a →
      ∃ σ, G !! lock_startTs l = Some σ ∧ ps_pk σ = Some (primaryKey l)
  | _ => λ _, True
  end.

Definition ghosts_grow (G G' : gmap N ps) : Prop :=
  ∀ T σ, G !! T = Some σ → ∃ σ', G' !! T = Some σ' ∧ grows σ σ'.

Lemma truth_mono G G' gst gst' op a :
  ghosts_grow G G' → (∀ key T, later (gst key T) (gst' key T)) →
  truth G gst op a → truth G' gst' op a.
Proof.
  intros HG Hst. destruct op; simpl; try done.
  - intros H Ha. apply Hst. auto.
  - intros H Ha. apply Hst. auto.
  - intros H Ha. apply Hst. auto.
  - intros H Ha key Hk. apply Hst. auto.
  - intros H Ha. destruct (H Ha) as [c Hc]. exists c. by apply Hst.
  - intros H Ha. destruct (H Ha) as [c Hc]. exists c. by apply Hst.
  - intros H Ha. specialize (H Ha). destruct (trs_state _); [done|by apply Hst..|].
    intros Hrb. destruct (H Hrb) as (σ & HT & Hph). destruct (HG _ _ HT) as (σ' & HT' & Hg).
    exists σ'. split; [done|]. by apply (gr_abort _ _ Hg).
  - intros H key l Hin. destruct (H key l Hin) as (σ & HT & Hpk).
    destruct (HG _ _ HT) as (σ' & HT' & Hg). exists σ'. split; [done|]. by apply (gr_pk _ _ Hg).
Qed.

Lemma lost_truth G gst op a : lost op a → truth G gst op a.
Proof.
  destruct op; simpl; try done; try congruence.
  by intros -> key l ?%not_elem_of_nil.
Qed.

(** *** What a session learns *)

Lemma tinv_add_ack st hd tso T σ keys :
  keys ⊆ ps_writes σ → (∀ key, key ∈ keys → settled (st key)) →
  tinv st hd tso T σ → tinv st hd tso T (add_ack σ keys).
Proof.
  intros Hkw Hk [Hs Hl Hc Hr Ha Haw Ht Hcm Hd Hp]. split; simpl; auto.
  - intros key [?|?]%elem_of_app; auto.
  - intros key [?|?]%elem_of_app; auto.
  - intros ts Hin. by apply not_elem_of_nil in Hin.
  - intros c Hct. destruct (Hcm c Hct) as (? & ? & ? & Hw & (p & ? & ?) & Hlt). split_and!; auto.
    + etrans; [done|]. intros key ?. apply elem_of_app. by right.
    + exists p. split; [done|]. apply elem_of_app. by right.
    + intros key p' t _ Hlk. destruct (Hl key p' false t Hlk) as (_ & _ & Hin). eauto.
Qed.

Lemma grows_add_ack σ keys : grows σ (add_ack σ keys).
Proof. split; simpl; auto using N.le_refl. intros key ?. apply elem_of_app. by right. Qed.

Lemma tinv_concluded st hd tso T σ c ph :
  ps_phase σ = PCommit c → commit_ts (set_phase σ ph) = Some c →
  (∀ c', ph = PDone c' → ∃ p, ps_pk σ = Some p ∧ st p = KCommitted c') →
  (∀ c', ph = PRolled c' → ∃ p, ps_pk σ = Some p ∧ st p = KRolledBack) →
  tinv st hd tso T σ → tinv st hd tso T (set_phase σ ph).
Proof.
  intros Hph Hct Hdn Hrl [Hs Hl Hc Hr Ha Haw Ht Hcm _ _].
  assert (Hcts : commit_ts σ = Some c) by (unfold commit_ts; by rewrite Hph).
  split; simpl; auto.
  - intros key c' Hk. destruct (Hc key c' Hk) as [? ?]. split; [congruence|done].
  - intros key Hk. destruct (Hr key Hk) as [?|[?|?]]; [by left|congruence|by right; right].
  - intros c' Hc'. rewrite Hct in Hc'. simplify_eq. by apply Hcm.
Qed.

Lemma grows_concluded σ c ph :
  ps_phase σ = PCommit c → commit_ts (set_phase σ ph) = Some c → ph ≠ POpen → grows σ (set_phase σ ph).
Proof.
  intros Hph Hct Hne. apply grows_set_phase; [congruence|done|].
  intros c' Hc'. unfold commit_ts in Hc'. rewrite Hph in Hc'. by simplify_eq.
Qed.

Lemma learn_record_tinv st hd tso T σ (r : TxnRecordStatus) p :
  ps_pk σ = Some p → tinv st hd tso T σ →
  match trs_state r with
  | RsCommitted => st p = KCommitted (trs_commitTs r)
  | RsRolledBack => st p = KRolledBack
  | _ => True
  end →
  tinv st hd tso T (learn_record σ r) ∧ grows σ (learn_record σ r).
Proof.
  intros Hpk HI Hr. unfold learn_record.
  destruct (ps_phase σ) eqn:Hph; [done| |done..]. destruct (trs_state r); [done| | |done].
  - destruct (ti_committed _ _ _ _ _ HI p _ Hr) as [Hct _]. unfold commit_ts in Hct. rewrite Hph in Hct.
    simplify_eq. split; [eapply tinv_concluded|eapply grows_concluded]; naive_solver.
  - split; [eapply tinv_concluded|eapply grows_concluded]; naive_solver.
Qed.

Lemma learn_tinv G gst hd tso T σ op a :
  tinv (λ key, gst key T) hd tso T σ → truth G gst op a →
  (∀ keys pk fu, footprint op = Some (keys, T, FLock pk false fu) → keys ⊆ ps_writes σ) →
  tinv (λ key, gst key T) hd tso T (learn T σ op a) ∧ grows σ (learn T σ op a).
Proof.
  intros HI Htr Hw. destruct op; simpl in *; try done.
  1-3: destruct (bool_decide_reflect (a = StOk ∧ startTs = T)) as [[-> ->]|]; [|done].
  1-3: split; [apply tinv_add_ack; [by eapply Hw| |done]|apply grows_add_ack].
  1-3: intros key' ->%list_elem_of_singleton; auto.
  - destruct (bool_decide_reflect (a.1 = StOk ∧ startTs = T)) as [[Ha ->]|]; [|done].
    split; [apply tinv_add_ack; [by eapply Hw| |done]|apply grows_add_ack]. auto.
  - destruct (ps_phase σ) eqn:Hph; [done| |done..].
    destruct (IsCommitSuccess a); [simpl|done].
    destruct (bool_decide_reflect (ps_pk σ = Some key ∧ startTs = T)) as [[Hpk ->]|]; [|done].
    destruct Htr as [c' Hc']; [done|].
    destruct (ti_committed _ _ _ _ _ HI key _ Hc') as [Hct _]. unfold commit_ts in Hct. rewrite Hph in Hct.
    simplify_eq. split; [eapply tinv_concluded|eapply grows_concluded]; naive_solver.
  - destruct (bool_decide_reflect (a.1 = StOk ∧ ps_pk σ = Some key ∧ startTs = T)) as [(Ha & Hpk & ->)|]; [|done].
    eapply learn_record_tinv; [done..|]. specialize (Htr Ha). by destruct (trs_state _).
Qed.

Lemma truth_expected G gst hd tso T σ op a :
  tinv (λ key, gst key T) hd tso T σ → truth G gst op a → expected T σ op a.
Proof.
  intros HI Htr. destruct op; simpl in *; try done.
  intros Ha Hpk -> Hc. specialize (Htr Ha). rewrite Hc in Htr.
  by apply (ti_committed _ _ _ _ _ HI key).
Qed.

(** *** Running a request *)

Section exec.
Context (st st' : string → kstatus) (hd hd' : string → Prop) (tso T : N) (σ : ps) (op : store_op).
Hypothesis Hst : ∀ key, st' key = st key ∨ ∃ keys e,
  footprint op = Some (keys, T, e) ∧ key ∈ keys ∧ change tso e (st key) (st' key).
Hypothesis Hhd : ∀ key, hd' key → hd key ∨ ∃ keys pk pess fu,
  footprint op = Some (keys, T, FLock pk pess fu) ∧ key ∈ keys ∧
  ∀ c, st key = KCommitted c → (c ≤ N.max T fu)%N.
Hypothesis Hrel : ∀ key keys c,
  footprint op = Some (keys, T, FCommit c) → st key ≠ st' key → ¬ hd' key.
Hypothesis Hj : ∀ keys e, footprint op = Some (keys, T, e) → justified1 st σ op keys e.
Hypothesis HI : tinv st hd tso T σ.

Lemma exec_later key : later (st key) (st' key).
Proof.
  destruct (Hst key) as [->|(keys & e & _ & _ & Hc)]; [done|by eapply change_later].
Qed.

(** A prewritten key keeps its lock until it is decided. *)
Lemma exec_acked key p t : key ∈ ps_acked σ → st' key = KLocked p false t → st key = KLocked p false t.
Proof.
  intros Hin Hk. destruct (Hst key) as [<-|(keys & e & _ & _ & Hc)]; [done|].
  destruct e; simpl in Hc; destruct Hc as [Hx Hy]; rewrite Hk in Hy; try done.
  destruct (ti_acked _ _ _ _ _ HI key Hin) as [(p' & t' & Hs)|[[c Hs]|Hs]]; rewrite Hs in Hx;
    by destruct Hx as [?|(? & ? & ?)].
Qed.

Lemma exec_committed key c :
  st' key = KCommitted c →
  commit_ts σ = Some c ∧ ¬ hd' key ∧ ∃ p, ps_pk σ = Some p ∧ st' p = KCommitted c.
Proof.
  intros Hk. destruct (Hst key) as [Heq|(keys & e & Hfp & Hin & Hc)].
  - rewrite Hk in Heq. symmetry in Heq.
    destruct (ti_committed _ _ _ _ _ HI key c Heq) as (Hct & Hnh & p & Hp & Hpc).
    split_and!; [done| |exists p; split; [done|by apply exec_later]].
    intros Hh. destruct (Hhd key Hh) as [?|(keys & pk & pess & fu & Hfp & Hin & Hle)]; [done|].
    specialize (Hle c Heq). destruct (Hj _ _ Hfp) as (_ & Hfu & _).
    destruct (ti_commit _ _ _ _ _ HI c Hct) as (_ & _ & Hlt & _). lia.
  - destruct e as [pk pess fu|c'|]; simpl in Hc; [destruct Hc; congruence| |destruct Hc; congruence].
    destruct Hc as [(p & t & Hlk & Hlt) Hk']. rewrite Hk in Hk'. simplify_eq.
    destruct (Hj _ _ Hfp) as (Hct & _ & q & Hq & Hor). split_and!; [done|by eapply Hrel; [done|congruence]|].
    exists q. split; [done|]. destruct Hor as [Hsub|?]; [|by apply exec_later].
    apply Hsub in Hin. apply list_elem_of_singleton in Hin. by subst.
Qed.

Lemma exec_rolled key :
  st' key = KRolledBack →
  ps_pk σ = Some key ∨ ps_phase σ = PAbort ∨
  ∃ p, ps_pk σ = Some p ∧ (st' p = KRolledBack ∨ (∃ c, st' p = KCommitted c) ∧ key ∉ ps_writes σ).
Proof.
  intros Hk. destruct (Hst key) as [Heq|(keys & e & Hfp & Hin & Hc)].
  - rewrite Hk in Heq. symmetry in Heq.
    destruct (ti_rolled _ _ _ _ _ HI key Heq) as [?|[?|(p & Hp & [?|[[c ?] ?]])]]; [by left|by right; left|..];
      right; right; exists p; (split; [done|]).
    + left. by apply exec_later.
    + right. split; [exists c; by apply exec_later|done].
  - destruct e as [pk pess fu|c'|]; simpl in Hc; [destruct Hc; congruence..|].
    destruct (Hj _ _ Hfp) as (_ & [?|(p & Hp & [Hsub|[?|[[c ?] Hdis]]])]); [by right; left|..].
    + apply Hsub in Hin. apply list_elem_of_singleton in Hin. subst. by left.
    + right. right. exists p. split; [done|]. left. by apply exec_later.
    + right. right. exists p. split; [done|]. right. split; [exists c; by apply exec_later|auto].
Qed.

Lemma tinv_exec : tinv st' hd' tso T σ.
Proof using All.
  pose proof HI as [Hs Hl Hc Hr Ha Haw Ht Hcm Hd Hp].
  split; eauto using exec_committed, exec_rolled.
  - intros key p b t Hk. destruct (Hst key) as [Heq|(keys & e & Hfp & Hin & Hch)].
    + apply Hl. congruence.
    + destruct e as [pk pess fu| |]; simpl in Hch; [|destruct Hch; congruence..].
      destruct Hch as [_ Hk']. rewrite Hk in Hk'. simplify_eq.
      destruct (Hj _ _ Hfp) as (? & _ & Hw). split_and!; [done..|]. intros Hb. by apply Hw.
  - intros key Hin. apply exec_later. auto.
  - intros ts Hin. destruct (Ht ts Hin) as (? & ? & ? & Hlt). split_and!; [done..|].
    intros key p t Hk Hlk. eauto using exec_acked.
  - intros c Hct. destruct (Hcm c Hct) as (? & ? & ? & ? & ? & Hlt). split_and!; [done..|].
    intros key p t Hk Hlk. eauto using exec_acked.
  - intros c Hph. destruct (Hd c Hph) as (p & ? & ?). exists p. split; [done|]. by apply exec_later.
  - intros c Hph. destruct (Hp c Hph) as (p & ? & ?). exists p. split; [done|]. by apply exec_later.
Qed.

End exec.

(** ** The invariant of the world *)

Definition justified (G : gmap N ps) (gst : string → N → kstatus) op : Prop :=
  args_ok is_start op ∧
  (∀ keys T e, footprint op = Some (keys, T, e) →
    ∃ σ, G !! T = Some σ ∧ justified1 (λ key, gst key T) σ op keys e) ∧
  match op with
  | OpCheckTxnStatus key T _ true _ => ∃ σ, G !! T = Some σ ∧ ps_pk σ = Some key
  | _ => True
  end.

Definition known (G : gmap N ps) (gst : string → N → kstatus) (f : rfact) : Prop :=
  match f with
  | RLock T pk => ∃ σ, G !! T = Some σ ∧ ps_pk σ = Some pk
  | RCommitted T pk c => gst pk T = KCommitted c
  | RDead T pk => gst pk T = KRolledBack ∨ ∃ σ, G !! T = Some σ ∧ ps_phase σ = PAbort
  end.

Definition tinv_at w T σ : Prop := tinv (λ key, dstatus w key T) (λ key, dheld w key T) (d_tso w) T σ.

Definition session_ok (G : gmap N ps) T (p : prog unit A) : Prop :=
  ∃ σ, G !! T = Some σ ∧ wp is_start T p σ (Post T) (λ _ _, True).
Definition worker_ok (G : gmap N ps) (gst : string → N → kstatus) (p : prog unit unit) : Prop :=
  ∃ K, (∀ f, f ∈ K → known G gst f) ∧ wpr is_start p K (λ _ _, True).

(** [G] holds the protocol state of every session there ever was. *)
Record dinv (G : gmap N ps) w : Prop := {
  di_store r : ts_inv (d_store w r);
  di_txn T σ : G !! T = Some σ → tinv_at w T σ;
  di_none T : G !! T = None → ∀ key, dstatus w key T = KNone ∧ ¬ dheld w key T;
  di_home r key T : home key ≠ r → ¬ ts_held (d_store w r) key T;
  di_net r op : (r, op) ∈ d_net w → justified G (dstatus w) op;
  di_log r op a : (r, existT op a) ∈ d_log w → truth G (dstatus w) op a;
  di_sessions T p : d_sessions w !! T = Some p → session_ok G T p;
  di_closed T σ : G !! T = Some σ → d_sessions w !! T = None → ps_phase σ ≠ POpen;
  di_workers i p : d_workers w !! i = Some p → worker_ok G (dstatus w) p
}.

Lemma justified_mono G G' w gst' op :
  dinv G w → ghosts_grow G G' → (∀ key T, later (dstatus w key T) (gst' key T)) →
  justified G (dstatus w) op → justified G' gst' op.
Proof.
  intros HI HG Hst (Ha & Hj & Hc). split_and!; [done|intros keys T e Hfp|].
  - destruct (Hj keys T e Hfp) as (σ & HT & Hj1). destruct (HG _ _ HT) as (σ' & HT' & Hg).
    exists σ'. split; [done|]. eapply justified1_mono; [by apply (di_txn _ _ HI)|..|done|done].
    intros key. apply Hst.
  - destruct op as [| | | | | | | | | | | |? ? ? []| | | | | |]; try done.
    destruct Hc as (σ & HT & Hpk). destruct (HG _ _ HT) as (σ' & HT' & Hg).
    exists σ'. split; [done|]. by apply (gr_pk _ _ Hg).
Qed.

Lemma known_mono G G' gst gst' f :
  ghosts_grow G G' → (∀ key T, later (gst key T) (gst' key T)) → known G gst f → known G' gst' f.
Proof.
  intros HG Hst. destruct f as [T pk|T pk c|T pk]; simpl.
  - intros (σ & HT & Hp). destruct (HG _ _ HT) as (σ' & HT' & Hg). exists σ'. split; [done|].
    by apply (gr_pk _ _ Hg).
  - apply Hst.
  - intros [?|(σ & HT & Hp)]; [left; by apply Hst|right].
    destruct (HG _ _ HT) as (σ' & HT' & Hg). exists σ'. split; [done|]. by apply (gr_abort _ _ Hg).
Qed.

Lemma worker_ok_mono G G' gst gst' p :
  ghosts_grow G G' → (∀ key T, later (gst key T) (gst' key T)) →
  worker_ok G gst p → worker_ok G' gst' p.
Proof. intros HG Hst (K & HK & Hp). exists K. split; [|done]. intros f Hf. eauto using known_mono. Qed.

#[local] Instance ghosts_grow_refl : Reflexive ghosts_grow.
Proof. intros G T σ HT. by exists σ. Qed.

Lemma ghosts_grow_insert G T σ σ' : G !! T = Some σ → grows σ σ' → ghosts_grow G (<[T := σ']> G).
Proof.
  intros HT Hg T0 σ0 H0. destruct (decide (T0 = T)) as [->|Hne].
  - rewrite lookup_insert_eq. exists σ'. split; [done|]. by simplify_eq.
  - rewrite lookup_insert_ne by done. by exists σ0.
Qed.

(** Steps that do not run a request. *)
Lemma dinv_move G G' w w' :
  dinv G w → ghosts_grow G G' → d_store w' = d_store w → d_log w' = d_log w →
  (∀ T, G' !! T = None → G !! T = None) →
  (∀ T σ, G' !! T = Some σ → tinv_at w' T σ) →
  (∀ r op, (r, op) ∈ d_net w' → (r, op) ∈ d_net w ∨ justified G' (dstatus w) op) →
  (∀ T p, d_sessions w' !! T = Some p → session_ok G' T p) →
  (∀ T σ, G' !! T = Some σ → d_sessions w' !! T = None → ps_phase σ ≠ POpen) →
  (∀ i p, d_workers w' !! i = Some p → d_workers w !! i = Some p ∨ worker_ok G' (dstatus w) p) →
  dinv G' w'.
Proof.
  intros HI HG Hst Hlog Hnone Ht Hnet Hses Hcl Hwk.
  assert (Hds : dstatus w' = dstatus w) by (unfold dstatus; by rewrite Hst).
  assert (Hdh : dheld w' = dheld w) by (unfold dheld; by rewrite Hst).
  split; rewrite ?Hst, ?Hds, ?Hdh, ?Hlog; eauto.
  - apply (di_store _ _ HI).
  - intros T HT. apply (di_none _ _ HI). auto.
  - apply (di_home _ _ HI).
  - intros r op Hin. destruct (Hnet r op Hin) as [Hin'|?]; [|done].
    eapply justified_mono; [done..| |by eapply di_net]. done.
  - intros r op a Hin. eapply truth_mono; [done| |by eapply di_log]. done.
  - intros i p Hp. destruct (Hwk i p Hp) as [Hp'|?]; [|done].
    eapply worker_ok_mono; [done| |by eapply di_workers]. done.
Qed.

(** What an event leaves alone. *)
Lemma answers_frame w e a w' :
  answers w e a w' →
  d_store w' = d_store w ∧ d_log w' = d_log w ∧ d_sessions w' = d_sessions w ∧
  d_workers w' = d_workers w ∧ (d_tso w ≤ d_tso w')%N.
Proof.
  destruct e; simpl; try (by intros ->).
  - destruct a as [ts|]; [|by intros ->]. intros [(? & _) ->]. split_and!; [done..|]. simpl. lia.
  - by intros (_ & _ & ->).
Qed.

Lemma tinv_at_frame w w' T σ :
  d_store w' = d_store w → (d_tso w ≤ d_tso w')%N → tinv_at w T σ → tinv_at w' T σ.
Proof.
  intros Hst Hle HI. unfold tinv_at, dstatus, dheld in *. rewrite Hst. by eapply tinv_tso.
Qed.

Lemma answer_truth G w r op a w' :
  dinv G w → answers w (EAwait r op) a w' → truth G (dstatus w) op a.
Proof. intros HI (_ & [Hlog|Hlost] & _); [by eapply di_log|by apply lost_truth]. Qed.

(** A session that follows the protocol still does after an event. *)
Lemma session_event G w T σ e (k : resp e → prog unit A) a w' :
  dinv G w → G !! T = Some σ → answers w e a w' →
  wp is_start T (Vis e k) σ (Post T) (λ _ _, True) →
  ∃ σ', grows σ σ' ∧ tinv_at w' T σ' ∧ wp is_start T (k a) σ' (Post T) (λ _ _, True) ∧
    ∀ r op, (r, op) ∈ d_net w' → (r, op) ∈ d_net w ∨ justified (<[T := σ']> G) (dstatus w) op.
Proof.
  intros HI HT Hans Hwp. pose proof (di_txn _ _ HI T σ HT) as Hti.
  destruct e; simpl in Hans, Hwp; try (subst w'; exists σ; split_and!; by auto).
  - destruct a as [ts|]; [destruct Hans as [(Hlt & Hf & Hs) ->]|subst w'; exists σ; split_and!; naive_solver].
    exists (take_ts σ ts). split_and!; [by split; auto using N.le_refl|by eapply tinv_take|..|by left].
    apply Hwp; [done..|]. intros ts' Hin. destruct (ti_ts _ _ _ _ _ Hti ts' Hin). lia.
  - destruct Hwp as (σ' & Hargs & Hs & Hk). subst w'.
    destruct (sends_tinv _ _ _ _ _ _ _ Hs Hti) as (Hti' & Hg & Hj).
    exists σ'. split_and!; [done|done|by destruct a|].
    intros r op' [[= -> ->]|Hin]%elem_of_cons; [right|by left]. split_and!; [done|..].
    + intros keys T' ef Hfp. destruct (Hj _ _ _ Hfp) as [-> Hj1]. exists σ'. by rewrite lookup_insert_eq.
    + destruct op as [| | | | | | | | | | | |? ? ? []| | | | | |]; try done. inversion Hs; simplify_eq/=.
  - pose proof (answer_truth G w region op a w' HI Hans) as Htr. destruct Hans as (Hin & _ & ->).
    destruct (learn_tinv _ _ _ _ _ _ _ _ Hti Htr) as [Hti' Hg].
    { intros keys pk fu Hfp. destruct (di_net _ _ HI _ _ Hin) as (_ & Hj & _).
      destruct (Hj _ _ _ Hfp) as (σ0 & HT0 & _ & _ & Hw). simplify_eq. auto. }
    exists (learn T σ op a). split_and!; [done..| |by left]. apply Hwp. by eapply truth_expected.
Qed.

Lemma dinv_session G w T e k a w' :
  dinv G w → d_sessions w !! T = Some (Vis e k) → answers w e a w' →
  ∃ G', dinv G' (set_sessions w' (<[T := k a]> (d_sessions w'))).
Proof.
  intros HI Hs Hans. destruct (di_sessions _ _ HI T _ Hs) as (σ & HT & Hwp).
  destruct (session_event _ _ _ _ _ _ _ _ HI HT Hans Hwp) as (σ' & Hg & Hti & Hwp' & Hnet).
  destruct (answers_frame _ _ _ _ Hans) as (Hst & Hlog & Hses & Hwk & Hle).
  exists (<[T := σ']> G). eapply (dinv_move G _ w); simpl; rewrite ?Hses, ?Hwk; try done.
  - by eapply ghosts_grow_insert.
  - intros T' HT'. by apply lookup_insert_None in HT' as [? _].
  - intros T' σ0 H0. destruct (decide (T' = T)) as [->|Hne].
    + rewrite lookup_insert_eq in H0. by simplify_eq.
    + rewrite lookup_insert_ne in H0 by done. eapply (tinv_at_frame w); [done..|]. by eapply di_txn.
  - intros T' p H0. destruct (decide (T' = T)) as [->|Hne].
    + rewrite lookup_insert_eq in H0. simplify_eq. exists σ'. by rewrite lookup_insert_eq.
    + rewrite lookup_insert_ne in H0 by done. destruct (di_sessions _ _ HI _ _ H0) as (σ0 & ? & ?).
      exists σ0. by rewrite lookup_insert_ne.
  - intros T' σ0 H0 [Hn Hne]%lookup_insert_None. rewrite lookup_insert_ne in H0 by done. by eapply di_closed.
  - by left.
Qed.

(** *** Recovery workers *)

Lemma resolves_justified G w K op :
  dinv G w → (∀ f, f ∈ K → known G (dstatus w) f) → resolves is_start K op →
  justified G (dstatus w) op.
Proof.
  intros HI HK Hr. destruct Hr as [op Hfp Hargs|T pk now budget Hl|T key pk c Hl Hc|T key pk Hl Hd].
  - split_and!; [done|intros; congruence|].
    by destruct op as [| | | | | | | | | | | |? ? ? []| | | | | |].
  - destruct (HK _ Hl) as (σ & HT & Hpk). destruct (ti_start _ _ _ _ _ (di_txn _ _ HI T σ HT)) as (? & ? & _).
    split_and!; [split; [|done]| |by exists σ]; intros keys T' e [= <- <- <-]; [done|].
    exists σ. split; [done|]. split; [done|]. right. exists pk. split; [done|]. by left.
  - destruct (HK _ Hl) as (σ & HT & Hpk). pose proof (HK _ Hc) as Hst. simpl in Hst.
    pose proof (di_txn _ _ HI T σ HT) as Hti. destruct (ti_start _ _ _ _ _ Hti) as (? & ? & _).
    destruct (ti_committed _ _ _ _ _ Hti pk c Hst) as (Hct & _ & _).
    destruct (ti_commit _ _ _ _ _ Hti c Hct) as (? & _).
    split_and!; [split; [|done]| |done]; intros keys T' e [= <- <- <-]; [done|]. exists σ. split; [done|].
    split_and!; [done|by left|]. exists pk. split; [done|]. by right.
  - destruct (HK _ Hl) as (σ & HT & Hpk). destruct (ti_start _ _ _ _ _ (di_txn _ _ HI T σ HT)) as (? & ? & _).
    split_and!; [split; [|split_and!; [done..|by vm_compute]]| |done]; intros keys T' e [= <- <- <-]; [done|].
    exists σ. split; [done|]. split; [done|]. destruct Hd as [->|Hd].
    + right. exists pk. split; [done|]. by left.
    + destruct (HK _ Hd) as [?|(σ' & HT' & ?)]; [right; exists pk; split; [done|by right; left]|left; congruence].
Qed.

Lemma told_known G w op a f : truth G (dstatus w) op a → f ∈ told op a → known G (dstatus w) f.
Proof.
  destruct op; simpl; try by intros _ ?%not_elem_of_nil.
  - destruct rollbackIfExpired; [|by intros _ ?%not_elem_of_nil].
    intros Htr. destruct (bool_decide_reflect (a.1 = StOk)) as [Ha|]; [|by intros ?%not_elem_of_nil].
    specialize (Htr Ha). destruct (trs_state _); [by intros ?%not_elem_of_nil|..];
      intros ->%list_elem_of_singleton; simpl; auto.
  - intros Htr Hin. apply list_elem_of_fmap in Hin as ([key l] & -> & Hin). simpl. by eapply Htr.
Qed.

Lemma worker_event G w e (k : resp e → prog unit unit) a w' :
  dinv G w → answers w e a w' → worker_ok G (dstatus w) (Vis e k) →
  worker_ok G (dstatus w) (k a) ∧
  ∀ r op, (r, op) ∈ d_net w' → (r, op) ∈ d_net w ∨ justified G (dstatus w) op.
Proof.
  intros HI Hans (K & HK & Hp). unfold worker_ok.
  destruct e; simpl in Hans, Hp; try (subst w'; split; [exists K; by split|by left]).
  - split; [exists K; by split|]. intros r op Hin. left. by destruct a; [destruct Hans as [_ ->]|subst w'].
  - destruct Hp as [Hr Hk]. subst w'. split; [exists K; by destruct a|].
    intros r op' [[= -> ->]|Hin]%elem_of_cons; [right|by left]. by eapply resolves_justified.
  - pose proof (answer_truth G w region op a w' HI Hans) as Htr. destruct Hans as (_ & _ & ->).
    split; [|by left]. exists (told op a ++ K). split; [|done].
    intros f [Hf|Hf]%elem_of_app; [by eapply told_known|auto].
Qed.

Lemma dinv_worker G w i e k a w' :
  dinv G w → d_workers w !! i = Some (Vis e k) → answers w e a w' →
  dinv G (set_workers w' (<[i := k a]> (d_workers w'))).
Proof.
  intros HI Hs Hans. pose proof (di_workers _ _ HI i _ Hs) as Hok.
  destruct (worker_event _ _ _ _ _ _ HI Hans Hok) as [Hok' Hnet].
  destruct (answers_frame _ _ _ _ Hans) as (Hst & Hlog & Hses & Hwk & Hle).
  eapply (dinv_move G _ w); simpl; rewrite ?Hses, ?Hwk; try done.
  - intros T σ HT. eapply (tinv_at_frame w); [done..|]. by eapply di_txn.
  - apply (di_sessions _ _ HI).
  - apply (di_closed _ _ HI).
  - intros j p Hj. destruct (decide (j = i)) as [->|Hne].
    + rewrite lookup_insert_eq in Hj. simplify_eq. by right.
    + rewrite lookup_insert_ne in Hj by done. by left.
Qed.

(** *** Sessions that begin and end *)

Lemma dinv_tick G w ts : dinv G w → (d_tso w ≤ ts)%N → dinv G (set_tso w ts).
Proof.
  intros HI Hle. eapply (dinv_move G _ w); simpl; try done.
  - intros T σ HT. eapply (tinv_at_frame w); [done..|]. by eapply di_txn.
  - by left.
  - apply (di_sessions _ _ HI).
  - apply (di_closed _ _ HI).
  - by left.
Qed.

Lemma dinv_spawn G w i p :
  dinv G w → wpr is_start p [] (λ _ _, True) → dinv G (set_workers w (<[i := p]> (d_workers w))).
Proof.
  intros HI Hp. eapply (dinv_move G _ w); simpl; try done.
  - intros T σ HT. apply (di_txn _ _ HI T σ HT).
  - by left.
  - apply (di_sessions _ _ HI).
  - apply (di_closed _ _ HI).
  - intros j q Hj. destruct (decide (j = i)) as [->|Hne].
    + rewrite lookup_insert_eq in Hj. simplify_eq. right. exists []. split; [|done]. by intros f ?%not_elem_of_nil.
    + rewrite lookup_insert_ne in Hj by done. by left.
Qed.

(** A session that is stopped in its open phase counts as aborted. *)
Definition close (σ : ps) : ps := match ps_phase σ with POpen => set_phase σ PAbort | _ => σ end.

Lemma close_tinv st hd tso T σ :
  tinv st hd tso T σ → tinv st hd tso T (close σ) ∧ grows σ (close σ) ∧ ps_phase (close σ) ≠ POpen.
Proof.
  intros HI. unfold close. destruct (ps_phase σ) eqn:Hph; split_and!; try done; try congruence.
  - apply tinv_abort; auto.
  - apply grows_set_phase; [done..|]. unfold commit_ts. by rewrite Hph.
Qed.

Lemma dinv_stop G w T : dinv G w → ∃ G', dinv G' (set_sessions w (delete T (d_sessions w))).
Proof.
  intros HI. destruct (G !! T) as [σ|] eqn:HT.
  - destruct (close_tinv _ _ _ _ _ (di_txn _ _ HI T σ HT)) as (Hti & Hg & Hne).
    exists (<[T := close σ]> G). eapply (dinv_move G _ w); simpl; try done.
    + by eapply ghosts_grow_insert.
    + intros T' HT'. by apply lookup_insert_None in HT' as [? _].
    + intros T' σ0 H0. destruct (decide (T' = T)) as [->|Hn].
      * rewrite lookup_insert_eq in H0. by simplify_eq.
      * rewrite lookup_insert_ne in H0 by done. apply (di_txn _ _ HI T' σ0 H0).
    + by left.
    + intros T' p [Hn H0]%lookup_delete_Some. destruct (di_sessions _ _ HI _ _ H0) as (σ0 & ? & ?).
      exists σ0. by rewrite lookup_insert_ne.
    + intros T' σ0 H0 Hd. destruct (decide (T' = T)) as [->|Hn].
      * rewrite lookup_insert_eq in H0. by simplify_eq.
      * rewrite lookup_insert_ne in H0 by done. rewrite lookup_delete_ne in Hd by done. by eapply di_closed.
    + by left.
  - exists G. rewrite delete_id; [by destruct w|]. destruct (d_sessions w !! T) as [p|] eqn:Hp; [|done].
    destruct (di_sessions _ _ HI _ _ Hp) as (σ & ? & _). congruence.
Qed.

Lemma tinv_init st hd tso T :
  is_start T = true → fits64 T → (T ≤ tso)%N → (∀ key, st key = KNone) → tinv st hd tso T ps_init.
Proof.
  intros Hs Hf Hle Hno. split; simpl; try done.
  - intros key p b t. by rewrite Hno.
  - intros key c. by rewrite Hno.
  - intros key. by rewrite Hno.
  - by intros key ?%not_elem_of_nil.
  - by intros ts ?%not_elem_of_nil.
Qed.

Lemma dinv_begin G w T p :
  dinv G w → (d_tso w < T)%N → is_start T = true → fits64 T →
  wp is_start T p ps_init (Post T) (λ _ _, True) →
  ∃ G', dinv G' (set_sessions (set_tso w T) (<[T := p]> (d_sessions w))).
Proof.
  intros HI Hlt Hs Hf Hwp.
  assert (HT : G !! T = None).
  { destruct (G !! T) as [σ|] eqn:HT; [|done].
    destruct (ti_start _ _ _ _ _ (di_txn _ _ HI T σ HT)) as (_ & _ & ?). lia. }
  exists (<[T := ps_init]> G). eapply (dinv_move G _ w); simpl; try done.
  - intros T' σ0 H0. exists σ0. rewrite lookup_insert_ne by congruence. done.
  - intros T' HT'. by apply lookup_insert_None in HT' as [? _].
  - intros T' σ0 H0. destruct (decide (T' = T)) as [->|Hn].
    + rewrite lookup_insert_eq in H0. simplify_eq. apply tinv_init; [done..|].
      intros key. apply (di_none _ _ HI T HT key).
    + rewrite lookup_insert_ne in H0 by done. eapply (tinv_at_frame w); [done|simpl; lia|]. by eapply di_txn.
  - by left.
  - intros T' q H0. destruct (decide (T' = T)) as [->|Hne].
    + rewrite lookup_insert_eq in H0. simplify_eq. exists ps_init. by rewrite lookup_insert_eq.
    + rewrite lookup_insert_ne in H0 by done. destruct (di_sessions _ _ HI _ _ H0) as (σ0 & ? & ?).
      exists σ0. by rewrite lookup_insert_ne.
  - intros T' σ0 H0 [Hn Hne]%lookup_insert_None. rewrite lookup_insert_ne in H0 by done. by eapply di_closed.
  - by left.
Qed.

(** *** Running a request in the world *)

Section run.
Context (G : gmap N ps) (w : dworld) (r : Z) (op : store_op) (a : answer_of op) (s' : S).
Hypothesis HI : dinv G w.
Hypothesis Hnet : (r, op) ∈ d_net w.
Hypothesis Hhome : ∀ key, key ∈ op_keys op → home key = r.
Hypothesis Hund : undisturbed w op.
Hypothesis Hrun : ts_exec (d_tso w) op (d_store w r) a s'.

Lemma run_justified keys T e :
  footprint op = Some (keys, T, e) →
  ∃ σ, G !! T = Some σ ∧ justified1 (λ key, dstatus w key T) σ op keys e ∧ ∀ key, key ∈ keys → home key = r.
Proof.
  intros Hfp. destruct (di_net _ _ HI r op Hnet) as (_ & Hj & _). destruct (Hj _ _ _ Hfp) as (σ & ? & ?).
  exists σ. split_and!; [done..|]. intros key Hin. apply Hhome. by rewrite (footprint_keys _ _ _ _ Hfp).
Qed.

(** A commit meets only value locks older than its timestamp. *)
Lemma run_admits : admits is_start ts_status ts_held (d_store w r) op.
Proof using All.
  split; [by apply (di_net _ _ HI r op Hnet)|].
  intros keys T c Hfp. destruct (run_justified _ _ _ Hfp) as (σ & HT & (Hct & Hor & _) & Hkeys).
  pose proof (di_txn _ _ HI T σ HT) as Hti.
  destruct (ti_commit _ _ _ _ _ Hti c Hct) as (? & ? & _ & Hw & _ & Hlt). split_and!; [done..|].
  intros key Hin Hheld. pose proof (Hkeys key Hin) as Hr.
  assert (Hds : dstatus w key T = ts_status (d_store w r) key T) by (unfold dstatus; by rewrite Hr).
  destruct (ts_held_status _ key T (di_store _ _ HI r) Hheld) as [(p & b & t & Hk)|[c' Hk]]; rewrite <- Hds in *.
  - assert (b = false) as ->.
    { destruct Hor as [Hres|Hsub].
      - clear -Hund Hfp Hres Hin Hk.
        destruct op as [| | | | | | | | | | | |? ? ? [] ?|? ? []| | | | |]; simplify_eq/=.
        apply list_elem_of_singleton in Hin as ->. eauto.
      - destruct (ti_acked _ _ _ _ _ Hti key (Hsub key Hin)) as [(p' & t' & Hs)|[[c' Hs]|Hs]];
          simpl in Hs; rewrite Hk in Hs; by simplify_eq. }
    exists p, t. split; [done|]. destruct (ti_locked _ _ _ _ _ Hti key p false t Hk) as (_ & _ & Hin'). eauto.
  - destruct (ti_committed _ _ _ _ _ Hti key c' Hk) as (_ & Hn & _). exfalso. apply Hn. unfold dheld. by rewrite Hr.
Qed.

Let w' := ran w r op a s'.

Lemma run_store key :
  (home key = r ∧ d_store w' (home key) = s') ∨ (home key ≠ r ∧ d_store w' (home key) = d_store w (home key)).
Proof. unfold w', ran. simpl. destruct (decide (home key = r)); auto. Qed.

Lemma run_status key T :
  dstatus w' key T = dstatus w key T ∨ ∃ keys e,
    footprint op = Some (keys, T, e) ∧ key ∈ keys ∧ change (d_tso w) e (dstatus w key T) (dstatus w' key T).
Proof using All.
  unfold dstatus. destruct (run_store key) as [[Hk ->]|[Hk ->]]; [rewrite Hk|by left].
  eapply ts_exec_status; [apply (di_store _ _ HI r)|apply run_admits|done].
Qed.

Lemma run_held key T :
  dheld w' key T → dheld w key T ∨ ∃ keys pk pess fu,
    footprint op = Some (keys, T, FLock pk pess fu) ∧ key ∈ keys ∧
    ∀ c, dstatus w key T = KCommitted c → (c ≤ N.max T fu)%N.
Proof using All.
  unfold dheld, dstatus. destruct (run_store key) as [[Hk ->]|[Hk ->]]; [rewrite Hk|by left].
  eapply ts_exec_held; [apply (di_store _ _ HI r)|apply run_admits|done].
Qed.

Lemma run_releases key T keys c :
  footprint op = Some (keys, T, FCommit c) → dstatus w key T ≠ dstatus w' key T → ¬ dheld w' key T.
Proof using All.
  unfold dheld, dstatus. destruct (run_store key) as [[Hk ->]|[Hk ->]]; [rewrite Hk|done].
  intros Hfp Hne. eapply ts_commit_releases; [apply (di_store _ _ HI r)|apply run_admits|done..].
Qed.

Lemma run_later key T : later (dstatus w key T) (dstatus w' key T).
Proof using All.
  destruct (run_status key T) as [->|(keys & e & _ & _ & Hc)]; [done|by eapply change_later].
Qed.

Lemma run_tinv T σ : G !! T = Some σ → tinv_at w' T σ.
Proof using All.
  intros HT. eapply (tinv_exec (λ key, dstatus w key T) _ (λ key, dheld w key T) _ _ _ _ op);
    [intros key; apply run_status|intros key; apply run_held|intros key; apply run_releases| |apply (di_txn _ _ HI T σ HT)].
  intros keys e Hfp. destruct (run_justified _ _ _ Hfp) as (σ' & HT' & ? & _). by simplify_eq.
Qed.

Lemma run_none T : G !! T = None → ∀ key, dstatus w' key T = KNone ∧ ¬ dheld w' key T.
Proof using All.
  intros HT key. destruct (di_none _ _ HI T HT key) as [Hs Hh]. split.
  - destruct (run_status key T) as [->|(keys & e & Hfp & _)]; [done|].
    destruct (run_justified _ _ _ Hfp) as (σ' & HT' & _). congruence.
  - intros Hd. destruct (run_held key T Hd) as [?|(keys & pk & pess & fu & Hfp & _)]; [done|].
    destruct (run_justified _ _ _ Hfp) as (σ' & HT' & _). congruence.
Qed.

(** A transaction that is over and has left nothing on its primary is aborted. *)
Lemma ended_aborted T key :
  dstatus w key T = KNone → ended w T → (∃ σ, G !! T = Some σ ∧ ps_pk σ = Some key) →
  ∃ σ, G !! T = Some σ ∧ ps_phase σ = PAbort.
Proof using HI.
  intros Hno Hend (σ & HT & Hpk). exists σ. split; [done|]. pose proof (di_txn _ _ HI T σ HT) as Hti.
  assert (Hnc : commit_ts σ = None).
  { destruct (commit_ts σ) as [c|] eqn:Hct; [|done].
    destruct (ti_commit _ _ _ _ _ Hti c Hct) as (_ & _ & _ & _ & (p & Hp & Hin) & _). simplify_eq.
    destruct (ti_acked _ _ _ _ _ Hti key Hin) as [(? & ? & Hs)|[[? Hs]|Hs]]; simpl in Hs; congruence. }
  assert (Hopen : ps_phase σ ≠ POpen).
  { destruct Hend as [?|[(r0 & op0 & keys & c & Hin & Hfp)|(r0 & op0 & keys & Hin & Hfp & Hres)]];
      [by eapply di_closed|..]; destruct (di_net _ _ HI _ _ Hin) as (_ & Hj & _);
      destruct (Hj _ _ _ Hfp) as (σ' & HT' & Hj1); simplify_eq; destruct Hj1; [congruence|auto]. }
  unfold commit_ts in Hnc. by destruct (ps_phase σ).
Qed.

Lemma run_home key T : ts_held s' key T → home key = r.
Proof using All.
  intros Hh. destruct (decide (home key = r)) as [|Hne]; [done|]. exfalso.
  destruct (ts_exec_held _ _ _ _ _ _ _ (di_store _ _ HI r) run_admits Hrun Hh)
    as [?|(keys & pk & pess & fu & Hfp & Hin & _)]; [by eapply di_home|].
  destruct (run_justified _ _ _ Hfp) as (_ & _ & _ & Hk). auto.
Qed.

(** The locks a store holds name the primary of their transaction. *)
Lemma run_lock key T :
  ts_held s' key T → ∃ σ p b t, G !! T = Some σ ∧ ps_pk σ = Some p ∧ ts_status s' key T = KLocked p b t.
Proof using All.
  intros Hh. pose proof (run_home key T Hh) as Hr.
  assert (Hs' : d_store w' (home key) = s') by (by destruct (run_store key) as [[_ ?]|[? _]]).
  assert (Hd : dheld w' key T) by (unfold dheld; by rewrite Hs').
  assert (Hst : ts_status s' key T = dstatus w' key T) by (unfold dstatus; by rewrite Hs').
  destruct (G !! T) as [σ|] eqn:HT; [|by destruct (run_none T HT key)].
  assert (Hinv : ts_inv s') by (eapply ts_exec_inv; [apply (di_store _ _ HI r)|apply run_admits|done]).
  destruct (ts_held_status _ _ _ Hinv Hh) as [(p & b & t & Hk)|[c Hk]].
  - exists σ, p, b, t. split_and!; [done| |done].
    rewrite Hst in Hk. by destruct (ti_locked _ _ _ _ _ (run_tinv T σ HT) key p b t Hk).
  - rewrite Hst in Hk. by destruct (ti_committed _ _ _ _ _ (run_tinv T σ HT) key c Hk) as (_ & ? & _).
Qed.

Lemma run_truth : truth G (dstatus w') op a.
Proof using All.
  pose proof (ts_exec_says _ _ _ _ _ (di_store _ _ HI r) run_admits Hrun) as Hsays.
  assert (Hds : ∀ key T, key ∈ op_keys op → ts_status s' key T = dstatus w' key T).
  { intros key T Hin. unfold dstatus. by destruct (run_store key) as [[_ ->]|[Hk _]]; [|destruct Hk; auto]. }
  pose proof run_status as Hst. pose proof run_lock as Hlk. destruct (di_net _ _ HI r op Hnet) as (_ & _ & Hpk).
  clear Hrun Hnet Hhome. subst w'. generalize dependent (ran w r op a s'). intros w1 Hds Hst.
  destruct op; simpl in *; try done.
  1-3, 5-6: intros Ha; rewrite <- Hds by apply list_elem_of_here; auto.
  - intros Ha key Hin. rewrite <- Hds by done. auto.
  - intros Ha. specialize (Hsays Ha). rewrite Hds in Hsays by apply list_elem_of_here.
    destruct (trs_state _); [done..|]. intros ->. apply (ended_aborted _ key); [|apply Hund|done].
    + by destruct (Hst key startTs) as [<-|(keys & e & [= <- <-] & _ & _ & Hc)]; [|congruence].
    + by destruct (Hst key startTs) as [<-|(keys & e & [= <- <-] & _ & _ & Hc)]; [|congruence].
  - intros key l Hin. destruct (Hsays key l Hin) as [Hh Hl].
    destruct (Hlk key _ Hh) as (σ & p & b & t & HT & Hp & Hk). destruct (Hl p b t Hk) as [-> _]. by exists σ.
Qed.

Lemma dinv_exec : dinv G w'.
Proof using All.
  assert (Hg : ghosts_grow G G) by done. split.
  - intros r'. unfold w', ran. simpl. destruct (decide (r' = r)); [|apply (di_store _ _ HI)].
    eapply ts_exec_inv; [apply (di_store _ _ HI r)|apply run_admits|done].
  - intros T σ. apply run_tinv.
  - apply run_none.
  - intros r' key T Hne. unfold w', ran. simpl. destruct (decide (r' = r)) as [->|]; [|by eapply di_home].
    intros Hh. by apply run_home in Hh.
  - intros r' op' Hin. eapply justified_mono; [done..|intros; apply run_later|by eapply di_net].
  - intros r' op' a' [Heq|Hin]%elem_of_cons.
    + pose proof (f_equal snd Heq) as Heq'. simpl in Heq'.
      change (truth G (dstatus w') (projT1 (existT op' a')) (projT2 (existT op' a'))).
      rewrite Heq'. apply run_truth.
    + eapply truth_mono; [done|intros; apply run_later|by eapply di_log].
  - apply (di_sessions _ _ HI).
  - apply (di_closed _ _ HI).
  - intros i p Hp. eapply worker_ok_mono; [done|intros; apply run_later|by eapply di_workers].
Qed.

End run.

(** ** Reachable worlds *)

Definition dinit w : Prop :=
  (∀ r, ts_inv (d_store w r)) ∧ (∀ r key T, ts_status (d_store w r) key T = KNone) ∧
  (∀ r key T, ¬ ts_held (d_store w r) key T) ∧
  d_net w = [] ∧ d_log w = [] ∧ d_sessions w = ∅ ∧ d_workers w = ∅.

Lemma dinit_inv w : dinit w → dinv ∅ w.
Proof.
  intros (Hi & Hst & Hh & Hn & Hl & Hs & Hw). split; rewrite ?Hn, ?Hl, ?Hs, ?Hw; auto; try done.
  - intros T _ key. split; [apply Hst|apply Hh].
  - by intros r op ?%not_elem_of_nil.
  - by intros r op a ?%not_elem_of_nil.
Qed.

Context (Hsession : ∀ T p, is_start T = true → fits64 T → session T p → wp is_start T p ps_init (Post T) (λ _ _, True)).
Context (Hworker : ∀ p, worker p → wpr is_start p [] (λ _ _, True)).

Lemma dstep_inv G w w' : dinv G w → dstep undisturbed w w' → ∃ G', dinv G' w'.
Proof using Hsession Hworker.
  intros HI Hstep. destruct Hstep.
  - exists G. by apply dinv_tick.
  - by eapply dinv_begin; eauto.
  - exists G. apply dinv_spawn; auto.
  - by eapply dinv_session.
  - exists G. by eapply dinv_worker.
  - by eapply dinv_stop.
  - exists G. by apply dinv_exec.
Qed.

Lemma reachable_inv w0 w : dinit w0 → rtc (dstep undisturbed) w0 w → ∃ G, dinv G w.
Proof using Hsession Hworker.
  intros H0 Hsteps. assert (HI : ∃ G, dinv G w0) by (exists ∅; by apply dinit_inv).
  clear H0. induction Hsteps as [|w0 w1 w2 Hs _ IH]; [done|].
  apply IH. destruct HI as [G HI]. by eapply dstep_inv.
Qed.

(** *** Atomicity *)

(** The primary decides: if it is committed, every key of every prewrite is
    committed with the same timestamp or still holds its value lock; nothing is
    committed unless the primary is. *)
Definition atomic w T (pk : string) (keys : list string) : Prop :=
  (∀ c, dstatus w pk T = KCommitted c → ∀ key, key ∈ keys →
     dstatus w key T = KCommitted c ∨ ∃ t, dstatus w key T = KLocked pk false t) ∧
  (∀ key c, dstatus w key T = KCommitted c → dstatus w pk T = KCommitted c).

Lemma tinv_atomic w T σ pk keys :
  tinv_at w T σ → ps_pk σ = Some pk → keys ⊆ ps_writes σ → atomic w T pk keys.
Proof.
  intros HI Hpk Hsub. split.
  - intros c Hc key Hin. destruct (ti_committed _ _ _ _ _ HI pk c Hc) as (Hct & _).
    destruct (ti_commit _ _ _ _ _ HI c Hct) as (_ & _ & _ & Hw & _).
    destruct (ti_acked _ _ _ _ _ HI key (Hw _ (Hsub _ Hin))) as [(p & t & Hk)|[[c' Hk]|Hk]]; simpl in Hk.
    + right. destruct (ti_locked _ _ _ _ _ HI key p false t Hk). exists t. congruence.
    + left. destruct (ti_committed _ _ _ _ _ HI key c' Hk) as (? & _). congruence.
    + destruct (ti_rolled _ _ _ _ _ HI key Hk) as [?|[Hph|(p & Hp & [Hr|[_ Hn]])]].
      * simplify_eq. congruence.
      * unfold commit_ts in Hct. by rewrite Hph in Hct.
      * simplify_eq. congruence.
      * by destruct Hn; auto.
  - intros key c Hk. destruct (ti_committed _ _ _ _ _ HI key c Hk) as (_ & _ & p & Hp & Hc). by simplify_eq.
Qed.

(** A session that has returned satisfies [Post]. *)
Lemma reachable_returned w0 w T a :
  dinit w0 → rtc (dstep undisturbed) w0 w → d_sessions w !! T = Some (Ret a) →
  ∃ σ, tinv_at w T σ ∧ Post T a σ.
Proof using Hsession Hworker.
  intros H0 Hs HT. destruct (reachable_inv w0 w H0 Hs) as [G HI].
  destruct (di_sessions _ _ HI _ _ HT) as (σ & HG & Hwp). exists σ. split; [by eapply di_txn|done].
Qed.

Lemma reachable_atomic w0 w r op keys T pk fu :
  dinit w0 → rtc (dstep undisturbed) w0 w → (r, op) ∈ d_net w → footprint op = Some (keys, T, FLock pk false fu) →
  atomic w T pk keys.
Proof using Hsession Hworker.
  intros H0 Hs Hin Hfp. destruct (reachable_inv w0 w H0 Hs) as [G HI].
  destruct (di_net _ _ HI _ _ Hin) as (_ & Hj & _). destruct (Hj _ _ _ Hfp) as (σ & HT & Hpk & _ & Hw).
  eapply tinv_atomic; [by eapply di_txn|done|auto].
Qed.

End world.
