(* ===== verification/Conform.v ===== *)
(** * The code follows the two-phase commit protocol

    The methods of the coordinator, the calls of the client library and the
    recovery workers send only what [sends] and [resolves] of TwoPhase.v allow.
    [linked] ties the transaction object to the protocol state between two calls
    of a session. *)

From Stdlib Require Import ZArith.
From S2P Require Import Prelude KvEngine MvccTypes Codec Hlc Mvcc MvccQuery RegionMeta TxnProg Coordinator Client Recovery TxnStore TwoPhase.
Import Transaction Coordinator.

Section conform.
Context (is_start : N → bool) (T : N) (T_start : is_start T = true) (T_fits : fits64 T).
Implicit Types (txn : Transaction.t) (σ : ps) (opts : TxnOptions) (co : Coordinator.t).

Notation follows := (wp is_start T).

(** ** Rules *)

Lemma wp_seq {X A B} (p : prog X A) (f : A → prog X B) σ Q (Q' : A → ps → Prop) R :
  follows p σ Q' R → (∀ a σ', Q' a σ' → follows (f a) σ' Q R) → follows (p ≫= f) σ Q R.
Proof. intros Hp Hf. apply wp_bind. eapply wp_mono; [|done|exact Hp]. auto. Qed.

Lemma wp_weaken {X A} (p : prog X A) σ (Q Q' : A → ps → Prop) (R R' : X → ps → Prop) :
  follows p σ Q R → (∀ a σ', Q a σ' → Q' a σ') → (∀ x σ', R x σ' → R' x σ') → follows p σ Q' R'.
Proof. intros Hp HQ HR. by eapply wp_mono. Qed.

Lemma wp_ret {X A} (a : A) σ (Q : A → ps → Prop) (R : X → ps → Prop) : Q a σ → follows (Ret a) σ Q R.
Proof. done. Qed.

Lemma wp_or_raise {X A} (x : X) (o : option A) σ (Q : A → ps → Prop) (R : X → ps → Prop) :
  R x σ → (∀ a, Q a σ) → follows (or_raise x o) σ Q R.
Proof. by destruct o; simpl. Qed.

Lemma wp_Route {X} (x : X) key σ (Q : Z → ps → Prop) (R : X → ps → Prop) :
  R x σ → (∀ r, Q r σ) → follows (Route x key) σ Q R.
Proof. intros HR HQ. apply wp_bind. intros r. by apply wp_or_raise. Qed.

Lemma wp_RegionId {X} (x : X) key σ (Q : Z → ps → Prop) (R : X → ps → Prop) :
  R x σ → (∀ r, Q r σ) → follows (RegionId x key) σ Q R.
Proof. intros HR HQ. apply wp_bind. intros r. by apply wp_or_raise. Qed.

Lemma wp_call {X} r op σ σ' (Q : answer_of op → ps → Prop) (R : X → ps → Prop) :
  args_ok is_start op → sends T σ op σ' →
  (∀ a, expected T σ' op a → Q a (learn T σ' op a)) → follows (call r op) σ Q R.
Proof. intros Ha Hs HQ. exists σ'. split_and!; [done..|]. intros a He. by apply HQ. Qed.

Lemma wp_next {X A} (f : option N → prog X A) σ (Q : A → ps → Prop) (R : X → ps → Prop) :
  follows (f None) σ Q R →
  (∀ ts, fits64 ts → is_start ts = false → (∀ ts', ts' ∈ ps_ts σ → ts' < ts)%N →
     follows (f (Some ts)) (take_ts σ ts) Q R) →
  follows (ask ENext ≫= f) σ Q R.
Proof. by split. Qed.

Lemma wp_budget {X} σ (Q : N → ps → Prop) (R : X → ps → Prop) :
  (∀ n, Q n σ) → follows (ask ERemainingBudget) σ Q R.
Proof. intros HQ n. apply HQ. Qed.

Lemma wp_await {X} r op σ (Q : answer_of op → ps → Prop) (R : X → ps → Prop) :
  (∀ a, expected T σ op a → Q a (learn T σ op a)) → follows (ask (EAwait r op)) σ Q R.
Proof. intros HQ a He. by apply HQ. Qed.

Lemma wp_call_at {X} (x : X) key op σ σ' (Q : answer_of op → ps → Prop) (R : X → ps → Prop) :
  args_ok is_start op → sends T σ op σ' → R x σ →
  (∀ a, expected T σ' op a → Q a (learn T σ' op a)) → follows (call_at x key op) σ Q R.
Proof.
  intros Ha Hs HR HQ. apply wp_bind, wp_Route; [done|]. intros region. by apply (wp_call region op σ σ' Q R).
Qed.

#[local] Arguments wp : simpl never.

(** Sending several requests; [I] is kept by each of them. *)
Lemma wp_submit_all {X} reqs σ (I : ps → Prop) (R : X → ps → Prop) :
  (∀ r op σ, (r, op) ∈ reqs → I σ → ∃ σ', args_ok is_start op ∧ sends T σ op σ' ∧ I σ') →
  I σ → follows (submit_all reqs) σ (λ _ σ', I σ') R.
Proof.
  revert σ. induction reqs as [|[r op] reqs IH]; intros σ Hs HI; [done|]. simpl.
  destruct (Hs r op σ) as (σ' & Ha & Hs' & HI'); [apply list_elem_of_here|done|].
  exists σ'. split_and!; [done..|]. apply IH; [|done]. intros r' op' σ1 Hin. apply (Hs r'). by apply list_elem_of_further.
Qed.

(** ** Grouping *)

Lemma rb_add_elem {A} region (item x : A) b :
  x ∈ rb_items (rb_add region item b) ↔ x ∈ rb_items b ∨ (rb_regionId b = region ∧ x = item).
Proof.
  unfold rb_add. destruct (bool_decide_reflect (rb_regionId b = region)); simpl; [|naive_solver].
  rewrite elem_of_app, list_elem_of_singleton. naive_solver.
Qed.

Definition grouped {A} (batches : list (RegionBatch A)) (x : A) : Prop :=
  ∃ b, b ∈ batches ∧ x ∈ rb_items b.

Lemma grouped_add {A} region (item x : A) batches :
  existsb (λ b, bool_decide (rb_regionId b = region)) batches = true →
  grouped (rb_add region item <$> batches) x ↔ grouped batches x ∨ x = item.
Proof.
  intros (b0 & Hb0%list_elem_of_In & Hr%bool_decide_eq_true)%existsb_exists. unfold grouped. split.
  - intros (b & Hb & Hx). apply list_elem_of_fmap in Hb as (b' & -> & Hb').
    apply rb_add_elem in Hx as [?|[_ ->]]; eauto.
  - intros [(b & Hb & Hx)| ->].
    + exists (rb_add region item b). split; [by apply list_elem_of_fmap_2|]. apply rb_add_elem. by left.
    + exists (rb_add region item b0). split; [by apply list_elem_of_fmap_2|]. apply rb_add_elem. by right.
Qed.

Lemma wp_group_loop {A} txn (key_of : A → string) items batches σ (R : Transaction.t → ps → Prop) :
  R txn σ →
  follows (group_loop txn key_of items batches) σ
    (λ batches' σ', σ' = σ ∧ ∀ x, grouped batches' x ↔ grouped batches x ∨ x ∈ items) R.
Proof.
  intros HR. revert batches. induction items as [|item items IH]; intros batches; cbn [group_loop].
  - split; [done|]. intros x. rewrite elem_of_nil. tauto.
  - apply wp_bind, wp_RegionId; [done|]. intros region. destruct (existsb _ _) eqn:Hex.
    + eapply wp_weaken; [apply IH| |done]. intros batches' σ' [-> Hg]. split; [done|].
      intros x. rewrite Hg, grouped_add, elem_of_cons by done. tauto.
    + apply wp_bind, wp_Route; [done|]. intros storage.
      eapply wp_weaken; [apply IH| |done]. intros batches' σ' [-> Hg]. split; [done|].
      intros x. rewrite Hg, elem_of_cons. unfold grouped. setoid_rewrite elem_of_app.
      setoid_rewrite list_elem_of_singleton. split.
      * intros [(b & [Hb| ->] & Hx)|?]; [eauto..| |auto]. simpl in Hx. apply list_elem_of_singleton in Hx. auto.
      * intros [(b & Hb & Hx)|[->|?]]; [eauto..| |auto]. left. eexists. split; [by right|]. simpl.
        apply list_elem_of_here.
Qed.

Lemma wp_group {A} txn (key_of : A → string) items σ (R : Transaction.t → ps → Prop) :
  R txn σ →
  follows (group txn key_of items) σ (λ batches σ', σ' = σ ∧ ∀ x, grouped batches x ↔ x ∈ items) R.
Proof.
  intros HR. eapply wp_seq; [by apply wp_group_loop|]. intros batches σ' [-> Hg]. split; [done|].
  intros x. unfold grouped in *. setoid_rewrite (merge_sort_Permutation rb_le batches). rewrite Hg.
  split; [|by right]. intros [(b & Hb & _)|?]; [by apply not_elem_of_nil in Hb|done].
Qed.

Lemma SortedUnique_elem keys k : k ∈ SortedUnique keys ↔ k ∈ keys.
Proof.
  unfold SortedUnique, MvccStorage.sort_names. by rewrite unique_adjacent_keeps, merge_sort_Permutation.
Qed.

Lemma wp_GroupKeys txn keys σ (R : Transaction.t → ps → Prop) :
  R txn σ →
  follows (GroupKeysByRegion txn keys) σ (λ batches σ', σ' = σ ∧ ∀ x, grouped batches x ↔ x ∈ keys) R.
Proof.
  intros HR. eapply wp_weaken; [by apply wp_group| |done]. intros batches σ' [-> Hg]. split; [done|].
  intros x. by rewrite Hg, SortedUnique_elem.
Qed.

(** ** Cleaning up *)

(** The phases in which a session may roll back any key. *)
Definition aborting σ : Prop :=
  ps_phase σ = POpen ∨ ps_phase σ = PAbort ∨ ∃ c, ps_phase σ = PRolled c.

(** Objects that differ at most in their lists of locks. *)
Definition same txn txn' : Prop :=
  startTs_ txn' = startTs_ txn ∧ mutations_ txn' = mutations_ txn ∧ primaryKey_ txn' = primaryKey_ txn ∧
  maxForUpdateTs_ txn' = maxForUpdateTs_ txn ∧ state_ txn' = state_ txn.

#[local] Instance same_po : PreOrder same.
Proof. split; [done|]. unfold same. intros x y z (-> & -> & -> & -> & ->) ?. done. Qed.

Lemma same_forget_all txn keys : same txn (foldl ForgetPessimisticLock txn keys).
Proof. revert txn. induction keys as [|key keys IH]; intros txn; [done|]. etrans; [|apply IH]. done. Qed.

Lemma sends_rollback op keys σ :
  footprint op = Some (keys, T, FRollback) → is_resolve op = false → aborting σ →
  ∃ σ', sends T σ op σ' ∧ aborting σ'.
Proof.
  intros Hfp Hres [Hph|[Hph|[c Hph]]].
  - exists (set_phase σ PAbort). split; [eapply SAbort; by eauto|by right; left].
  - exists (set_phase σ PAbort). split; [eapply SAbort; by eauto|by right; left].
  - exists σ. split; [by eapply SRollback|right; right; eauto].
Qed.

Lemma rollback_args op keys :
  footprint op = Some (keys, T, FRollback) →
  match op with OpRollback _ _ | OpBatchRollback _ _ => True | _ => False end → args_ok is_start op.
Proof using T_start T_fits.
  intros Hfp Hop. split; [|by destruct op]. intros keys' T' e Hfp'. by simplify_eq.
Qed.

Definition cleaned txn : Transaction.t → ps → Prop := λ txn' σ', same txn txn' ∧ aborting σ'.

Lemma wp_cleanup_keys txn keys agg σ :
  startTs_ txn = T → aborting σ →
  follows (cleanup_keys txn keys agg) σ (λ r, cleaned txn r.2) (cleaned txn).
Proof using T_start T_fits.
  revert txn agg σ. induction keys as [|key keys IH]; intros txn agg σ HT Hab; cbn [cleanup_keys]; [by split|].
  destruct (sends_rollback (OpRollback key (startTs_ txn)) [key] σ) as (σ' & Hs & Hab'); [by simpl; rewrite HT|done..|].
  apply wp_bind. apply (wp_call_at _ _ (OpRollback key (startTs_ txn)) σ σ'); [by apply (rollback_args _ [key]); simpl; rewrite ?HT|done|by split|].
  intros st _. cbn [learn].
  assert (Hsame : same txn (if bool_decide (st = StOk) then ForgetPessimisticLock txn key else txn)) by by case_match.
  eapply wp_weaken; [apply IH; [|done]| |]; [destruct Hsame as [Heq _]; by etrans|..].
  - intros [agg' txn'] σ1 [? ?]. split; [by etrans|done].
  - intros txn' σ1 [? ?]. split; [by etrans|done].
Qed.

Lemma wp_cleanup_batches txn batches agg σ :
  startTs_ txn = T → aborting σ →
  follows (cleanup_batches txn batches agg) σ (λ r, cleaned txn r.2) (cleaned txn).
Proof using Type.
  revert txn agg σ. induction batches as [|b batches IH]; intros txn agg σ HT Hab; cbn [cleanup_batches]; [by split|].
  apply wp_bind. apply (wp_await _ (OpBatchRollback (rb_items b) (startTs_ txn))). intros st _. cbn [learn].
  assert (Hsame : same txn (if bool_decide (st = StOk) then foldl ForgetPessimisticLock txn (rb_items b) else txn))
    by (case_match; [apply same_forget_all|done]).
  eapply wp_weaken; [apply IH; [|done]| |]; [destruct Hsame as [Heq _]; by etrans|..].
  - intros [agg' txn'] σ1 [? ?]. split; [by etrans|done].
  - intros txn' σ1 [? ?]. split; [by etrans|done].
Qed.

Lemma wp_RecordRollbackRegions txn keys σ (R : Transaction.t → ps → Prop) :
  R txn σ → follows (RecordRollbackRegions txn keys) σ (λ _ σ', σ' = σ) R.
Proof using Type.
  intros HR. apply (wp_seq _ _ _ _ (λ _ σ', σ' = σ)); [|intros shards σ' ->; by intros ?].
  induction keys as [|key keys IH]; cbn [shard_ids]; [done|].
  apply wp_bind. intros shard. apply wp_bind, wp_or_raise; [done|]. intros n.
  eapply wp_seq; [apply IH|]. by intros l σ' ->.
Qed.

Lemma wp_CleanupTransaction co txn σ :
  startTs_ txn = T → aborting σ →
  follows (CleanupTransaction co txn) σ (λ r, cleaned txn r.2) (cleaned txn).
Proof using T_start T_fits.
  intros HT Hab. unfold CleanupTransaction.
  apply (wp_seq _ _ _ _ (λ r, cleaned txn r.2)).
  - destruct (negb (batchEnabled_ co)); [by apply wp_cleanup_keys|].
    eapply wp_seq; [by apply wp_GroupKeys; split|]. intros batches σ' [-> _].
    eapply (wp_seq _ _ _ _ (λ _, aborting)); [|intros _ σ' Hab'; by apply wp_cleanup_batches].
    apply wp_submit_all; [|done]. intros r op σ' Hin Hab'. apply list_elem_of_fmap in Hin as (b & [= -> ->] & _).
    destruct (sends_rollback (OpBatchRollback (rb_items b) (startTs_ txn)) (rb_items b) σ') as (σ1 & ? & ?);
      [by simpl; rewrite HT|done..|].
    exists σ1. split_and!; [|done..]. by apply (rollback_args _ (rb_items b)); simpl; rewrite ?HT.
  - intros [agg txn'] σ' [Hsame Hab']. simpl in Hsame.
    eapply wp_seq; [by apply wp_RecordRollbackRegions; split|]. intros [] σ1 ->.
    split; [|done]. simpl. etrans; [done|]. by case_match.
Qed.

(** ** Between two calls *)

Record base txn : Prop := {
  ba_start : startTs_ txn = T;
  ba_primary : fits_mem (primaryKey_ txn);
  ba_forUpdate : fits64 (maxForUpdateTs_ txn)
}.

(** What an active transaction has sent: pessimistic locks, all with the same
    primary. *)
Record fresh txn σ : Prop := {
  fr_phase : ps_phase σ = POpen;
  fr_writes : ps_writes σ = [];
  fr_acked : ps_acked σ = [];
  fr_fu : (ps_fu σ ≤ maxForUpdateTs_ txn)%N;
  fr_pk : ps_pk σ = None ∨ ps_pk σ = Some (primaryKey_ txn) ∧ primaryKey_ txn ≠ EmptyString
}.

Definition linked txn σ : Prop :=
  base txn ∧
  match state_ txn with
  | TsActive => fresh txn σ
  | TsAbortOnly | TsCleanupPending => aborting σ
  | TsResultUnknown => False
  | TsFinished => True
  end.

Lemma base_same txn txn' : same txn txn' → base txn → base txn'.
Proof. intros (H1 & _ & H3 & H4 & _) [? ? ?]. split; congruence. Qed.

Lemma fresh_aborting txn σ : fresh txn σ → aborting σ.
Proof. intros []. by left. Qed.

Lemma linked_take txn σ ts : linked txn σ → linked txn (take_ts σ ts).
Proof. intros [Hb Hl]. split; [done|]. destruct (state_ txn); [|done..]. by destruct Hl; split. Qed.

Lemma linked_aborted txn σ : base txn → aborting σ → state_ txn = TsAbortOnly ∨ state_ txn = TsCleanupPending → linked txn σ.
Proof. intros Hb Hab [Hs|Hs]; (split; [done|]); by rewrite Hs. Qed.

(** An active transaction that gives up. *)
Lemma wp_abort_with co txn failure σ :
  base txn → state_ txn = TsActive → aborting σ →
  follows (abort_with co txn failure) σ
    (λ r σ', linked r.2 σ' ∧ state_ r.2 ≠ TsFinished ∧ (r.1 = StCleanupPending ∨ r.1 = failure)) linked.
Proof using T_start T_fits.
  intros Hb Hst Hab. unfold abort_with.
  assert (Hm : MarkAbortOnly txn = set_state txn TsAbortOnly).
  { unfold MarkAbortOnly, IsActive. by rewrite bool_decide_eq_true_2. }
  assert (Hb' : base (MarkAbortOnly txn)) by (rewrite Hm; by destruct Hb).
  assert (Hs' : state_ (MarkAbortOnly txn) = TsAbortOnly) by by rewrite Hm.
  generalize dependent (MarkAbortOnly txn). intros txn1 _ Hb' Hs'.
  apply wp_bind. eapply wp_weaken; [by apply wp_CleanupTransaction; [apply ba_start|]|..].
  - intros [cleanup txn'] σ' [Hsame Hab']. simpl in Hsame.
    assert (Hb2 : base txn') by by eapply base_same. assert (Hs2 : state_ txn' = TsAbortOnly).
    { destruct Hsame as (_ & _ & _ & _ & ->). done. }
    destruct (negb _).
    + assert (Hp : MarkCleanupPending txn' = set_state txn' TsCleanupPending).
      { unfold MarkCleanupPending. by rewrite Hs2. }
      rewrite Hp. split_and!; [|done|by left]. apply linked_aborted; [by destruct Hb2|done|by right].
    + split_and!; [|simpl; congruence|by right]. apply linked_aborted; auto.
  - intros txn' σ' [Hsame Hab']. assert (Hb2 : base txn') by by eapply base_same.
    apply linked_aborted; [done..|]. left. destruct Hsame as (_ & _ & _ & _ & ->). done.
Qed.

(** ** Deadlines and reads *)

Definition took σ σ' : Prop := σ' = σ ∨ ∃ ts, σ' = take_ts σ ts.

Lemma linked_took txn σ σ' : took σ σ' → linked txn σ → linked txn σ'.
Proof. intros [->|[ts ->]]; [done|apply linked_take]. Qed.

Lemma linked_abort_only txn σ : linked txn σ → linked (MarkAbortOnly txn) σ.
Proof.
  intros [Hb Hl]. unfold MarkAbortOnly, IsActive. destruct (bool_decide_reflect (state_ txn = TsActive)) as [Hs|]; [|done].
  rewrite Hs in Hl. apply linked_aborted; [by destruct Hb|by eapply fresh_aborting|by left].
Qed.

Lemma wp_CheckActive txn opts σ (R : Transaction.t → ps → Prop) :
  linked txn σ →
  follows (CheckActiveAndDeadline txn opts) σ
    (λ r σ', linked r.2 σ' ∧ fits64 r.1.2 ∧ (r.1.1 = StOk → r.2 = txn ∧ state_ txn = TsActive ∧ fresh txn σ')) R.
Proof.
  intros Hl. unfold CheckActiveAndDeadline. destruct (state_ txn) eqn:Hs; [|by split_and!..].
  destruct (_ || _); [by split_and!|]. apply wp_next; [by split_and!|]. intros ts Hf _ _.
  assert (Hl' : linked txn (take_ts σ ts)) by by apply linked_take.
  destruct (_ && _); [split_and!; [by apply linked_abort_only|done..]|].
  split_and!; [done..|]. intros _. split_and!; [done..|]. destruct Hl' as [_ Hl']. by rewrite Hs in Hl'.
Qed.

Lemma sends_read op σ : footprint op = None → sends T σ op σ.
Proof. apply SRead. Qed.

Lemma read_args op :
  match op with OpGet _ _ | OpScan _ _ _ _ _ => True | _ => False end → args_ok is_start op.
Proof. intros Hop. split; [|by destruct op]. by destruct op. Qed.

Lemma wp_Validate txn opts σ (R : Transaction.t → ps → Prop) :
  linked txn σ →
  follows (Validate txn opts) σ
    (λ r σ', linked r.2 σ' ∧ (r.1 = StOk → r.2 = txn ∧ state_ txn = TsActive ∧ fresh txn σ')) R.
Proof.
  intros Hl. eapply wp_seq; [by apply wp_CheckActive|]. intros [[st ts] txn'] σ' (? & _ & ?). by split.
Qed.

Lemma wp_Get txn key opts σ :
  linked txn σ → follows (Get txn key opts) σ (λ r, linked r.2) linked.
Proof.
  intros Hl. unfold Get. destruct (String.eqb _ _); [done|].
  eapply wp_seq; [by apply wp_CheckActive|]. intros [[st ts] txn'] σ' (Hl' & _ & _). simpl in Hl'.
  destruct (negb _); [done|]. apply wp_bind.
  apply (wp_call_at _ _ (OpGet key (startTs_ txn')) σ' σ'); [by apply read_args|by apply SRead|done|].
  by intros [st' v] _.
Qed.

Lemma wp_scan_regions txn startKey endKey limit regions entries σ :
  linked txn σ → follows (scan_regions txn startKey endKey limit regions entries) σ (λ _, linked txn) linked.
Proof.
  intros Hl. revert entries. induction regions as [|[region storage] regions IH]; intros entries; cbn [scan_regions]; [done|].
  destruct (_ && _); [done|]. destruct (_ && _); [apply IH|]. apply wp_bind.
  match goal with |- context [call storage ?op] => apply (wp_call storage op σ σ) end; [by apply read_args|by apply SRead|].
  intros [st entries'] _. destruct (negb _); [done|apply IH].
Qed.

Lemma wp_Scan txn startKey endKey limit entries opts σ :
  linked txn σ → follows (Scan txn startKey endKey limit entries opts) σ (λ r, linked r.2) linked.
Proof.
  intros Hl. unfold Scan. destruct (_ && _); [done|].
  eapply wp_seq; [by apply wp_CheckActive|]. intros [[st ts] txn'] σ' (Hl' & _ & _). simpl in Hl'.
  destruct (negb _); [done|]. apply wp_bind. intros found. apply wp_bind, wp_or_raise; [done|]. intros regions.
  eapply wp_seq; [by apply wp_scan_regions|]. by intros [st' entries'] σ1 ?.
Qed.

(** A query of the transaction's own primary. *)
Lemma wp_QueryStatus txn budget σ (Q : TxnStatus * option TxnRecordStatus → ps → Prop) (R : Transaction.t → ps → Prop) :
  startTs_ txn = T → (∀ σ', took σ σ' → R txn σ') →
  (∀ a σ', took σ σ' → a.1 ≠ StOk → Q a σ') →
  (∀ a σ' now, took σ σ' → a.1 = StOk →
     expected T σ' (OpCheckTxnStatus (primaryKey_ txn) T now false budget) a →
     Q a (learn T σ' (OpCheckTxnStatus (primaryKey_ txn) T now false budget) a)) →
  follows (QueryStatus txn budget) σ Q R.
Proof using T_start T_fits.
  intros HT HR Hno HQ. unfold QueryStatus. destruct (String.eqb _ _); [by apply Hno; [left|]|].
  apply wp_next; [by apply Hno; [left|]|]. intros ts Hf Hs _. rewrite HT.
  set (op := OpCheckTxnStatus (primaryKey_ txn) T (HlcTimestamp.PhysicalMs ts) false budget).
  apply (wp_call_at _ _ op (take_ts σ ts) (take_ts σ ts)); [by split|by apply SRead|apply HR; right; eauto|].
  intros a He. destruct (decide (a.1 = StOk)) as [Ha|Ha]; [apply HQ; [right; eauto|done..]|].
  cbn [learn op]. rewrite bool_decide_eq_false_2 by tauto. apply Hno; [right; eauto|done].
Qed.

(** ** Pessimistic locks *)

Lemma SaturatingAdd_fits a b : fits64 b → fits64 (SaturatingAdd a b).
Proof.
  unfold SaturatingAdd, fits64, u64_max, u64_size. intros Hb. destruct (N.ltb_spec (18446744073709551615 - b) a); lia.
Qed.

Lemma proposed_primary txn σ key :
  fresh txn σ → key ≠ EmptyString →
  (ps_pk σ = None ∨ ps_pk σ = Some (ProposedPrimaryKey txn key)) ∧ ProposedPrimaryKey txn key ≠ EmptyString.
Proof.
  intros [_ _ _ _ Hpk] Hk. unfold ProposedPrimaryKey. destruct (String.eqb_spec (primaryKey_ txn) EmptyString); naive_solver.
Qed.

(** A lock that was granted: its key is the primary if there was none. *)
Lemma confirmed txn σ key fu :
  fresh txn σ → key ≠ EmptyString → base txn → fits_mem key → fits64 fu → (fu ≤ maxForUpdateTs_ txn)%N →
  let txn' := ConfirmPessimisticLock txn key fu in
  base txn' ∧ state_ txn' = state_ txn ∧ fresh txn' (add_lock σ (ProposedPrimaryKey txn key) fu []).
Proof.
  intros Hf Hk [Hst Hpk Hfu] Hm Hfits Hle. destruct (proposed_primary _ _ _ Hf Hk) as [_ Hne].
  assert (Hp : primaryKey_ (ConfirmPessimisticLock txn key fu) = ProposedPrimaryKey txn key).
  { unfold ConfirmPessimisticLock, TrackPessimisticLock, EnsurePrimaryKey, ProposedPrimaryKey. simpl.
    by destruct (String.eqb _ _). }
  assert (Hrest : startTs_ (ConfirmPessimisticLock txn key fu) = startTs_ txn ∧
    state_ (ConfirmPessimisticLock txn key fu) = state_ txn ∧
    maxForUpdateTs_ (ConfirmPessimisticLock txn key fu) = N.max (maxForUpdateTs_ txn) fu).
  { unfold ConfirmPessimisticLock, TrackPessimisticLock, EnsurePrimaryKey. simpl. by destruct (String.eqb _ _). }
  destruct Hrest as (H1 & H2 & H3). destruct Hf as [Hph Hw Ha Hfu' _]. intros txn'.
  fold txn' in Hp, H1, H2, H3. clearbody txn'. split_and!; [|done|].
  - split; [congruence| |].
    + rewrite Hp. unfold ProposedPrimaryKey. by destruct (String.eqb _ _).
    + rewrite H3, N.max_l by done. done.
  - split; cbn; [done..|rewrite H3; lia|]. right. by rewrite Hp.
Qed.

Lemma wp_acquire_loop co txn opts rv fu expireAt keys values σ :
  base txn → state_ txn = TsActive → fresh txn σ → fits64 (lockTtlMs opts) → fits64 fu → fits64 expireAt →
  (∀ key, key ∈ keys → key ≠ EmptyString ∧ fits_mem key) →
  follows (acquire_loop co txn opts rv fu expireAt keys values) σ (λ r, linked r.2) linked.
Proof using T_start T_fits.
  intros Hb Hs Hf Httl Hfu Hexp Hkeys. revert txn values σ Hb Hs Hf.
  induction keys as [|key keys IH]; intros txn values σ Hb Hs Hf; cbn [acquire_loop].
  { split; [done|]. simpl. by rewrite Hs. }
  destruct (Hkeys key) as [Hne Hmem]; [apply list_elem_of_here|].
  set (txn1 := ObserveForUpdateTs (TrackUncertainPessimisticLock txn key) fu).
  assert (Hb1 : base txn1).
  { destruct Hb. split; [done..|]. simpl. unfold fits64 in *. lia. }
  assert (Hf1 : fresh txn1 σ) by (destruct Hf; split; [done..|simpl; lia|done]).
  destruct (proposed_primary _ _ _ Hf1 Hne) as [Hpk Hpk0].
  change (ProposedPrimaryKey txn key) with (ProposedPrimaryKey txn1 key).
  set (op := OpAcquirePessimisticLockForUpdate key (ProposedPrimaryKey txn1 key) (startTs_ txn1) (lockTtlMs opts) fu
               expireAt (rpcBudgetMs opts)).
  set (σ1 := add_lock σ (ProposedPrimaryKey txn1 key) fu []).
  apply wp_bind. apply (wp_call_at _ _ op σ σ1).
  - split; [|split_and!; [|done..]].
    + intros ? ? ? [= <- <- <-]. by rewrite (ba_start _ Hb).
    + unfold ProposedPrimaryKey. destruct (String.eqb _ _); [done|apply Hb1].
  - apply (SLock _ _ _ key); [simpl; by rewrite (ba_start _ Hb)|apply Hf|done].
  - split; [done|]. change (state_ txn1) with (state_ txn). by rewrite Hs.
  - intros result _. cbn [learn op].
    set (st := if bool_decide (plr_status result = StOk) && _ then StResultUnknown else plr_status result).
    destruct (bool_decide (st = StOk)).
    + destruct (confirmed txn1 σ key fu) as (Hb2 & Hs2 & Hf2); [done..|simpl; lia|].
      apply IH; [|done| |done]; [|by rewrite Hs2]. intros k Hk. apply Hkeys. by apply list_elem_of_further.
    + set (txn2 := if lock_refused st then _ else _).
      assert (Hsame : same txn1 txn2) by (unfold txn2; by case_match). clearbody txn2.
      apply (wp_seq _ _ _ _ (λ _ σ', σ' = σ1)); [by destruct st|]. intros _ σ' ->.
      eapply wp_seq.
      * apply wp_abort_with; [by eapply base_same| |left; apply Hf].
        destruct Hsame as (_ & _ & _ & _ & ->). done.
      * by intros [failure txn3] σ' (? & _).
Qed.

Lemma wp_AcquireKeys co txn keys rv opts σ :
  linked txn σ → fits64 (lockTtlMs opts) → (∀ key, key ∈ keys → fits_mem key) →
  follows (AcquireKeys co txn keys rv opts) σ (λ r, linked r.2) linked.
Proof using T_start T_fits.
  intros Hl Httl Hkeys. unfold AcquireKeys. destruct (negb _); [done|]. destruct (bool_decide _); [done|].
  destruct (existsb _ _) eqn:Hex; [done|].
  eapply wp_seq; [by apply wp_CheckActive|]. intros [[st ts] txn'] σ' (Hl' & Hts & Hok). simpl in *.
  destruct (bool_decide_reflect (st = StOk)) as [->|]; [|done]. simpl. destruct Hok as (-> & Hs & Hf); [done|].
  apply wp_acquire_loop; [by destruct Hl|done..|by apply SaturatingAdd_fits|].
  intros key Hin. split; [|by apply Hkeys, SortedUnique_elem].
  intros ->. rewrite <- not_true_iff_false in Hex. apply Hex, existsb_exists.
  exists EmptyString. split; [by apply list_elem_of_In|done].
Qed.

Lemma wp_GetForUpdate co txn key opts σ :
  linked txn σ → fits64 (lockTtlMs opts) → fits_mem key →
  follows (GetForUpdate co txn key opts) σ (λ r, linked r.2) linked.
Proof using T_start T_fits.
  intros Hl Httl Hk. eapply wp_seq.
  - apply wp_AcquireKeys; [done..|]. by intros k ->%list_elem_of_singleton.
  - intros [[st values] txn'] σ' ?. by destruct st, values as [|[]].
Qed.

Lemma wp_BatchGetForUpdate co txn keys opts σ :
  linked txn σ → fits64 (lockTtlMs opts) → (∀ key, key ∈ keys → fits_mem key) →
  follows (BatchGetForUpdate co txn keys opts) σ (λ r, linked r.2) linked.
Proof using T_start T_fits.
  intros Hl Httl Hk. eapply wp_seq; [by apply wp_AcquireKeys|].
  intros [[st values] txn'] σ' ?. by destruct (negb _).
Qed.

Lemma wp_LockKeys co txn keys opts σ :
  linked txn σ → fits64 (lockTtlMs opts) → (∀ key, key ∈ keys → fits_mem key) →
  follows (LockKeys co txn keys opts) σ (λ r, linked r.2) linked.
Proof using T_start T_fits.
  intros Hl Httl Hk. eapply wp_seq; [by apply wp_AcquireKeys|]. by intros [[st values] txn'] σ' ?.
Qed.

(** ** Prewriting *)

(** [known]: the keys whose prewrite has been acknowledged so far, at least. *)
Record prewriting txn (known : list string) σ : Prop := {
  pw_phase : ps_phase σ = POpen;
  pw_fu : (ps_fu σ ≤ maxForUpdateTs_ txn)%N;
  pw_pk : (ps_pk σ = None ∧ ps_acked σ = []) ∨ ps_pk σ = Some (primaryKey_ txn);
  pw_acked : known ⊆ ps_acked σ;
  pw_writes : ps_writes σ ⊆ primaryKey_ txn :: mutation_keys txn
}.

Lemma fresh_prewriting txn σ : fresh txn σ → prewriting txn [] σ.
Proof.
  intros [Hph Hw Ha Hfu Hpk]. split; [done..| | |rewrite Hw; apply list_subseteq_nil].
  - destruct Hpk as [?|[? _]]; auto.
  - apply list_subseteq_nil.
Qed.

Lemma prewriting_aborting txn K σ : prewriting txn K σ → aborting σ.
Proof. intros []. by left. Qed.

(** A prewrite of [keys], and what its answer adds. *)
Lemma sends_prewrite txn K σ op keys :
  prewriting txn K σ → footprint op = Some (keys, T, FLock (primaryKey_ txn) false (maxForUpdateTs_ txn)) →
  keys ⊆ primaryKey_ txn :: mutation_keys txn →
  sends T σ op (add_lock σ (primaryKey_ txn) (maxForUpdateTs_ txn) keys) ∧
  prewriting txn K (add_lock σ (primaryKey_ txn) (maxForUpdateTs_ txn) keys).
Proof.
  intros [Hph Hfu Hpk Ha Hw] Hfp Hk. split.
  - apply SPrewrite; [done..|]. destruct Hpk as [[? _]|?]; auto.
  - split; simpl; [done|lia|by right|done|]. apply list_subseteq_app_iff_l. by split.
Qed.

Lemma prewriting_ack txn K σ keys :
  prewriting txn K σ → ps_pk σ = Some (primaryKey_ txn) → prewriting txn (keys ++ K) (add_ack σ keys).
Proof.
  intros [Hph Hfu Hpk Ha Hw] Hp. split; simpl; [done..|by right| |done].
  apply list_subseteq_app_iff_l. split; [apply list_subseteq_app_l; done|by apply list_subseteq_app_r].
Qed.

Lemma prewrite_args op keys txn opts :
  base txn → fits64 (lockTtlMs opts) →
  footprint op = Some (keys, T, FLock (primaryKey_ txn) false (maxForUpdateTs_ txn)) →
  match op with
  | OpPrewriteLock _ pk _ ttl fu _ | OpPrewrite _ _ pk _ ttl fu _
  | OpPrewriteDelete _ pk _ ttl fu _ | OpBatchPrewrite _ pk _ ttl fu _ => ttl = lockTtlMs opts
  | _ => False
  end → args_ok is_start op.
Proof using T_start T_fits.
  intros [HT Hpk Hfu] Httl Hfp Hop. split; [intros ? ? ? Hfp'; by simplify_eq|].
  destruct op; try done; simpl in Hfp; by simplify_eq.
Qed.

(** Every prewrite that was sent has been acknowledged. *)
Definition all_acked txn K σ : Prop := prewriting txn K σ ∧ ps_writes σ ⊆ ps_acked σ.

(** The state after a prewrite of one key was answered. *)
Definition one_answered txn K key (st : TxnStatus) σ : Prop :=
  prewriting txn K σ ∧ (st = StOk → all_acked txn (key :: K) σ).

Lemma one_prewrite txn K σ op key (st : TxnStatus) :
  all_acked txn K σ → key ∈ primaryKey_ txn :: mutation_keys txn →
  footprint op = Some ([key], T, FLock (primaryKey_ txn) false (maxForUpdateTs_ txn)) →
  let σ1 := add_lock σ (primaryKey_ txn) (maxForUpdateTs_ txn) [key] in
  sends T σ op σ1 ∧
  one_answered txn K key st (if bool_decide (st = StOk ∧ T = T) then add_ack σ1 [key] else σ1).
Proof.
  intros [Hpw Hw] Hk Hfp σ1. destruct (sends_prewrite txn K σ op [key]) as [Hs Hpw1]; [done..| |].
  { by intros k ->%list_elem_of_singleton. }
  split; [done|]. destruct (bool_decide_reflect (st = StOk ∧ T = T)) as [[-> _]|Hn].
  - assert (Hpw2 : prewriting txn ([key] ++ K) (add_ack σ1 [key])) by by apply prewriting_ack.
    split; [|intros _; split; [done|]].
    + destruct Hpw2 as [? ? ? Ha ?]. split; [done..| |done]. etrans; [|done]. by apply list_subseteq_app_r.
    + simpl. intros k [->|Hin]%elem_of_cons; [apply list_elem_of_here|apply list_elem_of_further; auto].
  - split; [done|]. intros ->. by destruct Hn.
Qed.

Ltac one_prewrite op key :=
  match goal with
  | Hall : all_acked ?txn ?K ?σ, Hb : base ?txn, Httl : fits64 (lockTtlMs ?opts),
    Hk : key ∈ _ |- _ =>
      let Hfp := fresh "Hfp" in
      assert (Hfp : footprint op = Some ([key], T, FLock (primaryKey_ txn) false (maxForUpdateTs_ txn)))
        by (simpl; by rewrite (ba_start _ Hb));
      apply (wp_call_at _ _ op σ (add_lock σ (primaryKey_ txn) (maxForUpdateTs_ txn) [key]));
      [by eapply (prewrite_args op [key] txn opts)
      |apply (one_prewrite txn K σ op key StOk Hall Hk Hfp)
      |done
      |let st := fresh "st" in
       intros st _; simpl; rewrite (ba_start _ Hb);
       apply (one_prewrite txn K σ op key st Hall Hk Hfp)]
  end.

Lemma wp_call_prewrite txn opts key m K σ :
  base txn → fits64 (lockTtlMs opts) → all_acked txn K σ → key ∈ primaryKey_ txn :: mutation_keys txn →
  follows (call_prewrite txn opts (primaryKey_ txn) key m) σ (one_answered txn K key) (λ _ _, True).
Proof using T_start T_fits.
  intros Hb Httl Hall Hk. unfold call_prewrite. destruct (tm_isDelete m).
  - one_prewrite (OpPrewriteDelete key (primaryKey_ txn) (startTs_ txn) (lockTtlMs opts) (maxForUpdateTs_ txn)
                    (rpcBudgetMs opts)) key.
  - one_prewrite (OpPrewrite key (tm_value m) (primaryKey_ txn) (startTs_ txn) (lockTtlMs opts)
                    (maxForUpdateTs_ txn) (rpcBudgetMs opts)) key.
Qed.

Lemma mutation_keys_elem txn key : key ∈ mutation_keys txn ↔ is_Some (mutations_ txn !! key).
Proof.
  unfold mutation_keys. split.
  - intros ([k m] & -> & Hin)%list_elem_of_fmap. exists m. by apply elem_of_map_to_list.
  - intros [m Hm]. apply list_elem_of_fmap. exists (key, m). split; [done|]. by apply elem_of_map_to_list.
Qed.

(** What the prewrite phase has achieved when it reports [StOk]. *)
Definition prewritten_ok txn (keys : list string) (r : TxnStatus * list string) σ : Prop :=
  aborting σ ∧ (r.1 = StOk → all_acked txn (r.2 ++ keys) σ).

Lemma wp_prewrite_keys txn opts keys pw K σ :
  base txn → fits64 (lockTtlMs opts) → all_acked txn (pw ++ K) σ →
  follows (prewrite_keys txn opts (primaryKey_ txn) keys pw) σ
    (λ r σ', aborting σ' ∧ (r.1 = StOk → all_acked txn (r.2 ++ keys ++ K) σ')) (λ _ _, True).
Proof using T_start T_fits.
  intros Hb Httl. revert pw K σ. induction keys as [|key keys IH]; intros pw K σ Hall; cbn [prewrite_keys].
  { split; [by eapply prewriting_aborting, Hall|]. done. }
  destruct (mutations_ txn !! key) as [m|] eqn:Hm; [|done].
  eapply wp_seq; [apply wp_call_prewrite; [done..|]|].
  { apply list_elem_of_further, mutation_keys_elem. by exists m. }
  intros st σ' [Hpw Hok]. destruct (bool_decide_reflect (st = StOk)) as [->|]; [|by split; [eapply prewriting_aborting|]].
  destruct (Hok eq_refl) as [Hpw' Hw].
  eapply wp_weaken; [apply (IH (pw ++ [key]) (key :: K))| |done].
  - split; [|done]. destruct Hpw' as [? ? ? Ha ?]. split; [done..| |done]. intros k Hk. apply Ha. set_solver.
  - intros [st' pw'] σ1 [Hab Hok']. split; [done|]. intros Hst. destruct (Hok' Hst) as [[? ? ? Ha ?] Hw'].
    split; [|done]. split; [done..| |done]. intros k Hk. apply Ha. set_solver.
Qed.

Lemma wp_prewrite_singly txn opts keys σ :
  base txn → fits64 (lockTtlMs opts) → fresh txn σ → (∀ key, key ∈ keys ↔ key ∈ mutation_keys txn) →
  follows (prewrite_singly txn opts (primaryKey_ txn) keys) σ
    (prewritten_ok txn (primaryKey_ txn :: keys)) (λ _ _, True).
Proof using T_start T_fits.
  intros Hb Httl Hf Hkeys. assert (Hall : all_acked txn [] σ).
  { split; [by apply fresh_prewriting|]. rewrite (fr_writes _ _ Hf). apply list_subseteq_nil. }
  unfold prewrite_singly. destruct (HasMutation txn (primaryKey_ txn)) eqn:Hm.
  - eapply wp_weaken; [by apply (wp_prewrite_keys txn opts keys [] [])| |done].
    intros [st pw] σ' [Hab Hok]. split; [done|]. intros Hst. destruct (Hok Hst) as [[? ? ? Ha ?] Hw].
    split; [|done]. split; [done..| |done]. apply bool_decide_eq_true, mutation_keys_elem, Hkeys in Hm.
    intros k Hk. apply Ha. set_solver.
  - apply (wp_seq _ _ _ _ (one_answered txn [] (primaryKey_ txn))).
    + assert (Hk : primaryKey_ txn ∈ primaryKey_ txn :: mutation_keys txn) by apply list_elem_of_here.
      one_prewrite (OpPrewriteLock (primaryKey_ txn) (primaryKey_ txn) (startTs_ txn) (lockTtlMs opts)
                      (maxForUpdateTs_ txn) (rpcBudgetMs opts)) (primaryKey_ txn).
    + intros st σ' [Hpw Hok]. destruct (bool_decide_reflect (st = StOk)) as [->|];
        [|by split; [eapply prewriting_aborting|]].
      destruct (Hok eq_refl) as [[? ? ? Ha ?] Hw].
      eapply wp_weaken; [apply (wp_prewrite_keys txn opts keys [primaryKey_ txn] [primaryKey_ txn]); [done..|]| |done].
      * split; [|done]. split; [done..| |done]. intros k Hk. apply Ha. set_solver.
      * intros [st pw] σ1 [Hab Hok']. split; [done|]. intros Hst. destruct (Hok' Hst) as [[? ? ? Ha' ?] Hw'].
        split; [|done]. split; [done..| |done]. intros k Hk. apply Ha'. set_solver.
Qed.

(** *** Batches *)

Lemma sort_mutations_elem ms m : m ∈ MvccStorage.sort_mutations ms ↔ m ∈ ms.
Proof. unfold MvccStorage.sort_mutations. by rewrite merge_sort_Permutation. Qed.

Lemma batch_prewrite_footprint txn opts b :
  base txn →
  footprint (batch_prewrite_op txn opts (primaryKey_ txn) b) =
  Some (mut_key <$> MvccStorage.sort_mutations (rb_items b), T, FLock (primaryKey_ txn) false (maxForUpdateTs_ txn)).
Proof. intros Hb. simpl. by rewrite (ba_start _ Hb). Qed.

(** All prewrites of a round are sent before the first answer. *)
Lemma wp_submit_prewrites txn opts batches K σ :
  base txn → fits64 (lockTtlMs opts) → prewriting txn K σ →
  (∀ m, grouped batches m → mut_key m ∈ primaryKey_ txn :: mutation_keys txn) →
  follows (submit_all ((λ b, (rb_storage b, batch_prewrite_op txn opts (primaryKey_ txn) b)) <$> batches)) σ
    (λ _ σ', prewriting txn K σ' ∧ ps_acked σ' = ps_acked σ ∧
       (batches = [] ∧ ps_pk σ' = ps_pk σ ∨ ps_pk σ' = Some (primaryKey_ txn)) ∧
       ∀ key, key ∈ ps_writes σ' → key ∈ ps_writes σ ∨ ∃ m, grouped batches m ∧ key = mut_key m)
    (λ (_ : Transaction.t) _, True).
Proof using T_start T_fits.
  intros Hb Httl. revert σ. induction batches as [|b batches IH]; intros σ Hpw Hk.
  { split_and!; [done..|by left|]. by left. }
  pose proof (batch_prewrite_footprint txn opts b Hb) as Hfp.
  destruct (sends_prewrite txn K σ _ _ Hpw Hfp) as [Hs Hpw'].
  { intros k (m & -> & Hm)%list_elem_of_fmap. apply Hk. exists b. split; [apply list_elem_of_here|].
    by apply sort_mutations_elem. }
  eexists. split_and!; [by eapply (prewrite_args _ _ txn opts)|exact Hs|].
  eapply wp_weaken; [apply (IH _ Hpw')| |done].
  - intros m (b' & Hb' & Hm). apply Hk. exists b'. split; [by apply list_elem_of_further|done].
  - intros [] σ' (H1 & H2 & H3 & H4). split_and!; [done..| |].
    + right. by destruct H3 as [[_ ->]|?].
    + intros key Hin. destruct (H4 key Hin) as [Hin'|(m & (b' & Hb' & Hm) & ->)].
      * simpl in Hin'. apply elem_of_app in Hin' as [(m & -> & Hm)%list_elem_of_fmap|?]; [right|by left].
        exists m. split; [|done]. exists b. split; [apply list_elem_of_here|by apply sort_mutations_elem].
      * right. exists m. split; [|done]. exists b'. split; [by apply list_elem_of_further|done].
Qed.

(** What a round knows after [done_] of its batches were answered. *)
Record round_state txn (done_ : list (RegionBatch MvccMutation)) (mayRegroup : bool) (acc rr : round_result) σ σ' : Prop := {
  rs_prewriting : prewriting txn (rr_prewritten rr) σ';
  rs_writes : ps_writes σ' = ps_writes σ;
  rs_acked : ps_acked σ ⊆ ps_acked σ';
  rs_mono : rr_prewritten acc ⊆ rr_prewritten rr;
  rs_regroup : ∀ m, m ∈ rr_regroup rr → m ∈ rr_regroup acc ∨ mayRegroup = true ∧ grouped done_ m;
  rs_keep : ∀ m, m ∈ rr_regroup acc → m ∈ rr_regroup rr;
  rs_status : rr_status rr = StOk → rr_status acc = StOk ∧
    ∀ m, grouped done_ m → mut_key m ∈ rr_prewritten rr ∨ m ∈ rr_regroup rr
}.

Lemma round_state_refl txn mr acc σ : prewriting txn (rr_prewritten acc) σ → round_state txn [] mr acc acc σ σ.
Proof.
  intros Hpw. split; auto. intros ->. split; [done|]. by intros m (b & ?%not_elem_of_nil & _).
Qed.

(** One answer. *)
Lemma round_state_one txn b mr st regroup acc σ :
  prewriting txn (rr_prewritten acc) σ → ps_pk σ = Some (primaryKey_ txn) →
  let muts := MvccStorage.sort_mutations (rb_items b) in
  let acc' :=
    if bool_decide (st = StOk) then MkRound (rr_status acc) (rr_prewritten acc ++ (mut_key <$> muts)) (rr_regroup acc)
    else if regroup && mr then MkRound (rr_status acc) (rr_prewritten acc) (rr_regroup acc ++ muts)
    else MkRound (if bool_decide (rr_status acc = StOk) then st else rr_status acc)
           (rr_prewritten acc) (rr_regroup acc) in
  round_state txn [b] mr acc acc' σ
    (if bool_decide (st = StOk ∧ T = T) then add_ack σ (mut_key <$> muts) else σ).
Proof.
  intros Hpw Hpk muts acc'.
  assert (Hg : ∀ m, grouped [b] m → m ∈ muts).
  { intros m (b' & ->%list_elem_of_singleton & Hm). by apply sort_mutations_elem. }
  assert (Hg' : ∀ m, m ∈ muts → grouped [b] m).
  { intros m Hm. unfold muts in Hm. rewrite sort_mutations_elem in Hm. exists b. split; [apply list_elem_of_here|done]. }
  subst acc'. destruct (bool_decide_reflect (st = StOk)) as [->|Hne].
  - rewrite bool_decide_eq_true_2 by done. split; simpl; auto.
    + destruct (prewriting_ack _ _ _ (mut_key <$> muts) Hpw Hpk) as [? ? ? Ha ?].
      split; [done..| |done]. intros k Hk. apply Ha. simpl. rewrite elem_of_app in *. tauto.
    + apply list_subseteq_app_r. done.
    + apply list_subseteq_app_l. done.
    + intros Hst. split; [done|]. intros m Hm. left. apply elem_of_app. right. by apply list_elem_of_fmap_2, Hg.
  - rewrite (bool_decide_eq_false_2 (st = StOk ∧ T = T)) by tauto. destruct regroup, mr; simpl; split; simpl; auto.
    + intros m [?|?]%elem_of_app; auto.
    + intros m ?. apply elem_of_app. by left.
    + intros Hst. split; [done|]. intros m Hm. right. apply elem_of_app. auto.
    + by destruct (bool_decide_reflect (rr_status acc = StOk)).
    + by destruct (bool_decide_reflect (rr_status acc = StOk)).
    + by destruct (bool_decide_reflect (rr_status acc = StOk)).
Qed.

Lemma round_state_trans txn b bs mr acc acc' rr σ σ' σ1 :
  round_state txn [b] mr acc acc' σ σ' → round_state txn bs mr acc' rr σ' σ1 →
  round_state txn (b :: bs) mr acc rr σ σ1.
Proof.
  assert (Hg : ∀ m : MvccMutation, grouped (b :: bs) m ↔ grouped [b] m ∨ grouped bs m).
  { intros m. unfold grouped. setoid_rewrite elem_of_cons. setoid_rewrite elem_of_nil. naive_solver. }
  intros [P1 W1 A1 M1 R1 K1 S1] [P2 W2 A2 M2 R2 K2 S2]. split; [done|congruence|by etrans|by etrans| |auto|].
  - intros m Hm. rewrite Hg. destruct (R2 m Hm) as [Hm'|[? ?]]; [|tauto]. destruct (R1 m Hm') as [?|[? ?]]; tauto.
  - intros Hst. destruct (S2 Hst) as [Hst' H2]. destruct (S1 Hst') as [? H1]. split; [done|].
    intros m [Hm|Hm]%Hg; [|auto]. destruct (H1 m Hm) as [?|?]; [left|right]; auto.
Qed.

Lemma wp_await_round txn opts mr batches acc σ :
  base txn → prewriting txn (rr_prewritten acc) σ → batches = [] ∨ ps_pk σ = Some (primaryKey_ txn) →
  follows (await_round txn opts (primaryKey_ txn) mr batches acc) σ
    (λ rr σ', round_state txn batches mr acc rr σ σ') (λ _ _, True).
Proof.
  intros Hb. revert acc σ. induction batches as [|b batches IH]; intros acc σ Hpw Hpk; cbn [await_round].
  { by apply round_state_refl. }
  destruct Hpk as [?|Hpk]; [done|]. apply wp_bind.
  apply (wp_await _ (batch_prewrite_op txn opts (primaryKey_ txn) b)). intros [st regroup] _.
  cbn [learn batch_prewrite_op]. rewrite (ba_start _ Hb). cbn [fst].
  pose proof (round_state_one txn b mr st regroup acc σ Hpw Hpk) as H1. cbv zeta in H1.
  eapply wp_weaken; [apply IH; [apply H1|]| |done].
  - right. by destruct (bool_decide (st = StOk ∧ T = T)).
  - intros rr σ' H2. by eapply round_state_trans.
Qed.

Lemma wp_dispatchRound txn opts pending mr pw σ :
  base txn → fits64 (lockTtlMs opts) → prewriting txn pw σ →
  (∀ m, m ∈ pending → mut_key m ∈ primaryKey_ txn :: mutation_keys txn) →
  follows (dispatchRound txn opts (primaryKey_ txn) pending mr pw) σ
    (λ rr σ', prewriting txn (rr_prewritten rr) σ' ∧ pw ⊆ rr_prewritten rr ∧ ps_acked σ ⊆ ps_acked σ' ∧
       (∀ m, m ∈ rr_regroup rr → mr = true ∧ m ∈ pending) ∧
       (∀ key, key ∈ ps_writes σ' → key ∈ ps_writes σ ∨ key ∈ mut_key <$> pending) ∧
       (rr_status rr = StOk → ∀ m, m ∈ pending → mut_key m ∈ rr_prewritten rr ∨ m ∈ rr_regroup rr))
    (λ _ _, True).
Proof using T_start T_fits.
  intros Hb Httl Hpw Hk. eapply wp_seq; [by apply wp_group|]. intros batches σ' [-> Hg].
  eapply wp_seq; [apply (wp_submit_prewrites txn opts batches pw); [done..|]|].
  { intros m Hm. apply Hk. by apply Hg. }
  intros [] σ1 (Hpw1 & Ha1 & Hpk1 & Hw1).
  eapply wp_weaken; [apply wp_await_round; [done..|]| |done]; [simpl; tauto|].
  intros rr σ2 [P W A M R _ S]. split_and!; [done..| | | |].
  - by rewrite <- Ha1.
  - intros m Hm. destruct (R m Hm) as [?%not_elem_of_nil|[? ?]]; [done|]. split; [done|]. by apply Hg.
  - intros key Hin. rewrite W in Hin. destruct (Hw1 key Hin) as [?|(m & Hm & ->)]; [by left|right].
    apply list_elem_of_fmap_2, Hg, Hm.
  - intros Hst m Hm. apply S; [done|]. by apply Hg.
Qed.

Lemma wp_pending_mutations txn keys σ :
  follows (pending_mutations txn keys) σ (λ ms σ', σ' = σ ∧ mut_key <$> ms = keys) (λ _ _, True).
Proof.
  induction keys as [|key keys IH]; cbn [pending_mutations]; [done|].
  destruct (mutations_ txn !! key) as [m|]; [|done]. eapply wp_seq; [apply IH|].
  intros ms σ' [-> Hms]. split; [done|]. by rewrite fmap_cons, Hms.
Qed.

Lemma round_all_acked txn pw (pending : list MvccMutation) (keys : list string) σ :
  prewriting txn pw σ → (∀ key, key ∈ ps_writes σ → key ∈ mut_key <$> pending) →
  (∀ m, m ∈ pending → mut_key m ∈ pw) → (∀ key, key ∈ keys → key ∈ mut_key <$> pending) →
  all_acked txn (pw ++ keys) σ.
Proof.
  intros [? ? ? Ha ?] Hw Hp Hk.
  assert (Hp' : ∀ key, key ∈ mut_key <$> pending → key ∈ ps_acked σ).
  { intros key (m & -> & Hm)%list_elem_of_fmap. auto. }
  split; [|intros key ?; auto]. split; [done..| |done]. intros key [?|?]%elem_of_app; auto.
Qed.

Lemma wp_prewrite_batched txn opts keys σ :
  base txn → fits64 (lockTtlMs opts) → fresh txn σ → (∀ key, key ∈ keys ↔ key ∈ mutation_keys txn) →
  follows (prewrite_batched txn opts (primaryKey_ txn) keys) σ
    (prewritten_ok txn (primaryKey_ txn :: keys)) (λ _ _, True).
Proof using T_start T_fits.
  intros Hb Httl Hf Hkeys. unfold prewrite_batched. eapply wp_seq; [apply wp_pending_mutations|]. intros ms σ' [-> Hms].
  set (pending := if HasMutation txn (primaryKey_ txn) then ms else _).
  assert (Hp : ∀ key, key ∈ primaryKey_ txn :: keys ↔ key ∈ mut_key <$> pending).
  { intros key. unfold pending. destruct (HasMutation txn (primaryKey_ txn)) eqn:Hm; [|by rewrite fmap_cons, Hms].
    apply bool_decide_eq_true, mutation_keys_elem, Hkeys in Hm. rewrite Hms, elem_of_cons. naive_solver. }
  clearbody pending.
  assert (Hin : ∀ m, m ∈ pending → mut_key m ∈ primaryKey_ txn :: mutation_keys txn).
  { intros m Hm. apply (list_elem_of_fmap_2 mut_key), Hp in Hm. rewrite elem_of_cons, Hkeys in Hm. by apply elem_of_cons. }
  eapply wp_seq; [apply wp_dispatchRound; [done..|by apply fresh_prewriting|done]|].
  intros first σ1 (P1 & _ & A1 & R1 & W1 & S1). rewrite (fr_writes _ _ Hf) in W1.
  destruct (bool_decide_reflect (rr_regroup first = [])) as [Hnil|Hnil].
  - split; [by eapply prewriting_aborting|]. simpl. intros Hst. specialize (S1 Hst).
    apply (round_all_acked txn _ pending); [done| | |intros key; apply Hp].
    + intros key Hk. destruct (W1 key Hk) as [?%not_elem_of_nil|?]; done.
    + intros m Hm. destruct (S1 m Hm) as [?|Hr]; [done|]. rewrite Hnil in Hr. by apply not_elem_of_nil in Hr.
  - eapply wp_seq; [apply wp_dispatchRound; [done..|]|]; [intros m Hm; by apply Hin, R1|].
    intros retry σ2 (P2 & M2 & _ & R2 & W2 & S2). split; [by eapply prewriting_aborting|]. simpl.
    destruct (bool_decide_reflect (rr_status first = StOk)) as [Hst1|]; [|done]. intros Hst2.
    apply (round_all_acked txn _ pending); [done| | |intros key; apply Hp].
    + intros key Hk. destruct (W2 key Hk) as [Hk1|(m & -> & Hm)%list_elem_of_fmap].
      * destruct (W1 key Hk1) as [?%not_elem_of_nil|?]; done.
      * by apply list_elem_of_fmap_2, R1.
    + intros m Hm. destruct (S1 Hst1 m Hm) as [?|Hr]; [auto|].
      destruct (S2 Hst2 m Hr) as [?|Hr2]; [done|]. by destruct (R2 m Hr2).
Qed.

(** ** The commit decision *)

Lemma all_acked_take txn K σ ts : all_acked txn K σ → all_acked txn K (take_ts σ ts).
Proof. intros [[] ?]. by split. Qed.

(** The timestamp was taken after the last prewrite was acknowledged. *)
Lemma wp_next_commit_ts rounds txn K σ (R : Transaction.t → ps → Prop) :
  startTs_ txn = T → all_acked txn K σ →
  follows (next_commit_ts rounds txn) σ
    (λ r σ', all_acked txn K σ' ∧
       ∀ c, r = Some c → c ∈ ps_ts σ' ∧ (N.max T (maxForUpdateTs_ txn) < c)%N) R.
Proof.
  intros HT. revert σ. induction rounds as [|rounds IH]; intros σ Hall; cbn [next_commit_ts]; [by intros []|].
  apply wp_next; [by split|]. intros ts _ _ _. rewrite HT.
  destruct (N.leb_spec ts (N.max T (maxForUpdateTs_ txn))); [by apply IH, all_acked_take|].
  split; [by apply all_acked_take|]. intros c [= <-]. split; [apply list_elem_of_here|done].
Qed.

(** A session that has decided to commit. *)
Record holding txn (K : list string) (ph : phase) σ : Prop := {
  ho_phase : ps_phase σ = ph;
  ho_pk : ps_pk σ = Some (primaryKey_ txn);
  ho_acked : K ⊆ ps_acked σ;
  ho_writes : ps_writes σ ⊆ primaryKey_ txn :: mutation_keys txn
}.

Lemma holding_phase txn K ph ph' σ : holding txn K ph σ → holding txn K ph' (set_phase σ ph').
Proof. by intros []. Qed.
Lemma holding_take txn K ph σ ts : holding txn K ph σ → holding txn K ph (take_ts σ ts).
Proof. by intros []. Qed.
Lemma holding_took txn K ph σ σ' : took σ σ' → holding txn K ph σ → holding txn K ph σ'.
Proof. intros [->|[ts ->]]; [done|apply holding_take]. Qed.

Lemma commit_args op keys c :
  footprint op = Some (keys, T, FCommit c) →
  match op with OpCommit _ _ _ | OpCommitWithBudget _ _ _ _ | OpBatchCommit _ _ _ _ => True | _ => False end →
  args_ok is_start op.
Proof using T_start T_fits.
  intros Hfp Hop. split; [|by destruct op]. intros keys' T' e Hfp'. by simplify_eq.
Qed.

Definition commit_answered txn K c (st : TxnStatus) σ : Prop :=
  holding txn K (if IsCommitSuccess st then PDone c else PCommit c) σ.

Lemma wp_commit_primary_from txn c budget K σ σ1 :
  startTs_ txn = T → holding txn K (PCommit c) σ1 →
  (∀ op, footprint op = Some ([primaryKey_ txn], T, FCommit c) → is_resolve op = false → sends T σ op σ1) →
  follows (commit_primary txn c budget) σ (commit_answered txn K c) (λ _ _, True).
Proof using T_start T_fits.
  intros HT Hh Hs. unfold commit_primary. rewrite HT.
  set (op := OpCommitWithBudget (primaryKey_ txn) T c budget).
  apply (wp_call_at _ _ op σ σ1); [by apply (commit_args _ [primaryKey_ txn] c)|by apply Hs|done|].
  intros st _. cbn [learn op]. rewrite (ho_phase _ _ _ _ Hh).
  rewrite bool_decide_eq_true_2 by (split; [apply Hh|done]).
  unfold commit_answered. destruct (IsCommitSuccess st); [by eapply holding_phase|done].
Qed.

Lemma wp_commit_primary txn c budget K σ :
  startTs_ txn = T → all_acked txn K σ → primaryKey_ txn ∈ K → c ∈ ps_ts σ →
  (N.max T (maxForUpdateTs_ txn) < c)%N →
  follows (commit_primary txn c budget) σ (commit_answered txn K c) (λ _ _, True).
Proof using T_start T_fits.
  intros HT [[Hph Hfu Hpk Ha Hw] Hsub] Hin Hc Hlt.
  assert (Hp : ps_pk σ = Some (primaryKey_ txn)).
  { destruct Hpk as [[_ Hn]|?]; [|done]. apply Ha in Hin. rewrite Hn in Hin. by apply not_elem_of_nil in Hin. }
  apply (wp_commit_primary_from _ _ _ _ _ (set_phase σ (PCommit c))); [done..|].
  intros op Hfp Hres. eapply SDecide; [done..|by apply Ha|done|done|lia].
Qed.

Lemma wp_commit_primary_again txn c budget K σ :
  startTs_ txn = T → holding txn K (PCommit c) σ →
  follows (commit_primary txn c budget) σ (commit_answered txn K c) (λ _ _, True).
Proof using T_start T_fits.
  intros HT Hh. apply (wp_commit_primary_from _ _ _ _ _ σ); [done..|].
  intros op Hfp Hres. eapply SCommitPrimary; [done..|apply Hh|apply Hh].
Qed.

Definition resolved txn K c (r : resolution) σ : Prop :=
  match r with
  | PrimaryCommitted c' => c' = c ∧ holding txn K (PDone c) σ
  | PrimaryRolledBack => holding txn K (PRolled c) σ
  | PrimaryUnknown => True
  end.

Lemma wp_resolve_primary rounds txn c K σ :
  startTs_ txn = T → holding txn K (PCommit c) σ →
  follows (resolve_primary rounds txn c) σ (resolved txn K c) (λ _ _, True).
Proof using T_start T_fits.
  intros HT. revert σ. induction rounds as [|rounds IH]; intros σ Hh; cbn [resolve_primary]; [by intros []|].
  set (again := pause ← ask ERemainingBudget;
                if (pause =? 0)%N then Ret PrimaryUnknown
                else _ ← ask (ESleep (N.min 10 pause)); resolve_primary rounds txn c).
  assert (Hagain : ∀ σ', holding txn K (PCommit c) σ' → follows again σ' (resolved txn K c) (λ _ _, True)).
  { intros σ' Hh'. apply wp_bind, wp_budget. intros pause. destruct (pause =? 0)%N; [exact I|].
    apply wp_bind. intros []. by apply IH. }
  clearbody again. apply wp_bind, wp_budget. intros remaining. destruct (remaining =? 0)%N; [exact I|].
  apply wp_bind, wp_QueryStatus; [done..| |].
  - intros [st record] σ' Ht Hne. assert (Hh' : holding txn K (PCommit c) σ') by by eapply holding_took.
    simpl in Hne. destruct st; try done; by apply Hagain.
  - intros [st record] σ' now Ht Hok He. simpl in Hok. subst st. assert (Hh' : holding txn K (PCommit c) σ') by by eapply holding_took.
    specialize (He eq_refl (ho_pk _ _ _ _ Hh') eq_refl). cbn [learn fst snd] in *.
    rewrite bool_decide_eq_true_2 by (split_and!; [done|apply Hh'|done]).
    unfold learn_record. rewrite (ho_phase _ _ _ _ Hh'). unfold commit_ts in He. rewrite (ho_phase _ _ _ _ Hh') in He.
    assert (Hretry : follows (budget ← ask ERemainingBudget;
      if (budget =? 0)%N then Ret PrimaryUnknown
      else st ← commit_primary txn c budget;
           if IsCommitSuccess st then Ret (PrimaryCommitted c) else again) σ' (resolved txn K c) (λ _ _, True)).
    { apply wp_bind, wp_budget. intros budget'. destruct (budget' =? 0)%N; [exact I|].
      eapply wp_seq; [by apply wp_commit_primary_again|]. intros st σ1 Hans. unfold commit_answered in Hans.
      destruct (IsCommitSuccess st); [by split|by apply Hagain]. }
    destruct (trs_state _) eqn:Hst; [done| | |done].
    + split; [by specialize (He eq_refl); simplify_eq|]. by eapply holding_phase.
    + by eapply holding_phase.
Qed.

(** ** After the primary is committed *)

Lemma wp_call_each txn (op : string → store_op) keys σ :
  (∀ key, key ∈ keys → args_ok is_start (op key) ∧ sends T σ (op key) σ ∧ ∀ a, learn T σ (op key) a = σ) →
  follows (call_each txn op keys) σ (λ _ σ', σ' = σ) (λ _ _, True).
Proof.
  induction keys as [|key keys IH]; intros Hk; cbn [call_each]; [done|].
  destruct (Hk key) as (Ha & Hs & Hl); [apply list_elem_of_here|]. apply wp_bind.
  eapply wp_call_at; [done..|]. intros a _. rewrite Hl. apply IH.
  intros k ?. apply Hk. by apply list_elem_of_further.
Qed.

Lemma wp_await_all {X} reqs σ (R : X → ps → Prop) :
  (∀ r op a, (r, op) ∈ reqs → learn T σ op a = σ) → follows (await_all reqs) σ (λ _ σ', σ' = σ) R.
Proof.
  induction reqs as [|[r op] reqs IH]; intros Hl; cbn [await_all]; [done|]. apply wp_bind, wp_await. intros a _.
  rewrite (Hl r op a) by apply list_elem_of_here. apply IH. intros r' op' a' ?. apply (Hl r'). by apply list_elem_of_further.
Qed.

Lemma wp_call_batches txn (op : list string → store_op) keys σ :
  (∀ ks, ks ⊆ keys → args_ok is_start (op ks) ∧ sends T σ (op ks) σ ∧ ∀ a, learn T σ (op ks) a = σ) →
  follows (call_batches txn op keys) σ (λ _ σ', σ' = σ) (λ _ _, True).
Proof.
  intros Hk. eapply wp_seq; [by apply wp_GroupKeys|]. intros batches σ' [-> Hg].
  assert (Hreq : ∀ r o, (r, o) ∈ (λ b, (rb_storage b, op (rb_items b))) <$> batches → ∃ ks, ks ⊆ keys ∧ o = op ks).
  { intros r o (b & [= -> ->] & Hb)%list_elem_of_fmap. exists (rb_items b). split; [|done].
    intros k Hin. apply Hg. by exists b. }
  eapply wp_seq.
  - apply (wp_submit_all _ σ (λ σ', σ' = σ)); [|done]. intros r o σ' Hin ->.
    destruct (Hreq r o Hin) as (ks & Hks & ->). destruct (Hk ks Hks) as (? & ? & _). by exists σ.
  - intros [] σ' ->. apply wp_await_all. intros r o a Hin.
    destruct (Hreq r o Hin) as (ks & Hks & ->). by apply Hk.
Qed.

(** Secondaries are committed, locks without a mutation released. *)
Lemma wp_finish_commit co txn opts pw c K σ :
  base txn → holding txn K (PDone c) σ → pw ⊆ K →
  follows (finish_commit co txn opts pw c) σ
    (λ r σ', r = (StOk, MarkFinished (ClearPessimisticLocks txn)) ∧ holding txn K (PDone c) σ') (λ _ _, True).
Proof using T_start T_fits.
  intros Hb Hh Hpw. pose proof (ba_start _ Hb) as HT. unfold finish_commit. rewrite HT.
  assert (Hsec : ∀ ks, ks ⊆ filter (λ key, key ≠ primaryKey_ txn) pw → ks ⊆ ps_acked σ).
  { intros ks Hks key Hin. apply Hks, list_elem_of_filter in Hin as [_ Hin]. by apply (ho_acked _ _ _ _ Hh), Hpw. }
  assert (Hpure : ∀ ks, ks ⊆ filter (λ key, key ≠ primaryKey_ txn ∧ HasMutation txn key = false) (pessimisticLocks_ txn) →
    ∀ key, key ∈ ks → key ∉ ps_writes σ).
  { intros ks Hks key Hin Hw. apply Hks, list_elem_of_filter in Hin as [[Hne Hm] _].
    apply (ho_writes _ _ _ _ Hh) in Hw. apply elem_of_cons in Hw as [?|Hw%mutation_keys_elem]; [done|].
    by apply bool_decide_eq_false in Hm. }
  assert (Hone : ∀ key (ks : list string), key ∈ ks → [key] ⊆ ks) by (by intros key ks ? ? ->%list_elem_of_singleton).
  eapply (wp_seq _ _ _ _ (λ _ σ', σ' = σ)).
  { destruct (negb _); [apply wp_call_each; intros key Hin; apply Hone in Hin|apply wp_call_batches; intros ks Hin];
      (split_and!; [by eapply commit_args|eapply SCommit; [done..|apply Hh|by apply Hsec]|done]). }
  intros _ σ' ->. eapply (wp_seq _ _ _ _ (λ _ σ', σ' = σ)).
  { destruct (negb _); [apply wp_call_each; intros key Hin; apply Hone in Hin|apply wp_call_batches; intros ks Hin];
      (split_and!; [by eapply rollback_args|eapply SRelease; [done..|apply Hh|by apply Hpure]|done]). }
  by intros _ σ' ->.
Qed.

(** ** Commit *)

(** An acknowledged commit: the primary is known to be committed and every write
    was prewritten. *)
Definition durable txn σ : Prop :=
  ∃ c, ps_phase σ = PDone c ∧ ps_pk σ = Some (primaryKey_ txn) ∧
    ∀ key, is_Some (mutations_ txn !! key) → key ∈ ps_acked σ.

Definition commit_post (r : TxnStatus * Transaction.t) σ : Prop :=
  (r.1 = StResultUnknown ∨ linked r.2 σ) ∧ (r.1 = StOk → mutations_ r.2 ≠ ∅ → durable r.2 σ).

Lemma holding_durable txn K c σ :
  holding txn K (PDone c) σ → (∀ key, is_Some (mutations_ txn !! key) → key ∈ K) → durable txn σ.
Proof. intros [? ? Ha _] HK. exists c. split_and!; [done..|]. auto. Qed.

Lemma wp_commit_abort co txn failure σ :
  base txn → state_ txn = TsActive → aborting σ → failure ≠ StOk →
  follows (abort_with co txn failure) σ commit_post (λ _ _, True).
Proof using T_start T_fits.
  intros Hb Hs Hab Hne. eapply wp_weaken; [by apply wp_abort_with| |done].
  intros [st txn'] σ' (Hl & _ & Hst). split; [by right|]. simpl in *. naive_solver.
Qed.

Lemma wp_commit_finish co txn opts pw c K σ :
  base txn → holding txn K (PDone c) σ → pw ⊆ K → (∀ key, is_Some (mutations_ txn !! key) → key ∈ K) →
  follows (finish_commit co txn opts pw c) σ commit_post (λ _ _, True).
Proof using T_start T_fits.
  intros Hb Hh Hpw HK. eapply wp_weaken; [by apply wp_finish_commit| |done].
  intros r σ' [-> Hh']. split; [right; split; [by destruct Hb|done]|].
  intros _ _. by apply (holding_durable txn K c).
Qed.

Lemma wp_commit_phase co rounds txn opts pw keys σ :
  base txn → state_ txn = TsActive → all_acked txn (pw ++ primaryKey_ txn :: keys) σ →
  (∀ key, is_Some (mutations_ txn !! key) → key ∈ keys) →
  follows (commit_phase co rounds txn opts pw) σ commit_post (λ _ _, True).
Proof using T_start T_fits.
  intros Hb Hs Hall Hkeys. pose proof (ba_start _ Hb) as HT. set (K := pw ++ primaryKey_ txn :: keys) in *.
  assert (HpK : primaryKey_ txn ∈ K) by (apply elem_of_app; right; apply list_elem_of_here).
  assert (HkK : ∀ key, is_Some (mutations_ txn !! key) → key ∈ K).
  { intros key Hk. apply elem_of_app. right. apply list_elem_of_further. auto. }
  assert (HpwK : pw ⊆ K) by by apply list_subseteq_app_l. clearbody K.
  eapply wp_seq; [by apply wp_next_commit_ts|]. intros [c|] σ' [Hall' Hc].
  - destruct (Hc c eq_refl) as [Hin Hlt]. eapply wp_seq; [by apply wp_commit_primary|].
    intros st σ1 Hans. unfold commit_answered in Hans. destruct (IsCommitSuccess st); [by eapply wp_commit_finish|].
    eapply wp_seq; [by apply wp_resolve_primary|]. intros [c'| |] σ2 Hres; simpl in Hres.
    + destruct Hres as [-> Hh]. by eapply wp_commit_finish.
    + apply wp_commit_abort; [done..| |done]. right. right. exists c. apply Hres.
    + split; [by left|done].
  - apply wp_commit_abort; [done..| |done]. by eapply prewriting_aborting, Hall'.
Qed.

Lemma wp_Commit co rounds txn opts σ :
  linked txn σ → fits64 (lockTtlMs opts) →
  follows (Commit co rounds txn opts) σ commit_post (λ _ _, True).
Proof using T_start T_fits.
  intros Hl Httl. unfold Commit. eapply wp_seq; [by apply wp_CheckActive|].
  intros [[st ts] txn'] σ' (Hl' & _ & Hok). simpl in *.
  destruct (bool_decide_reflect (st = StOk)) as [->|Hne]; simpl; [|by split; [right|]].
  destruct Hok as (-> & Hs & Hf); [done|]. destruct Hl' as [Hb _]. pose proof (ba_start _ Hb) as HT.
  destruct (bool_decide_reflect (mutations_ txn = ∅)) as [Hm|Hm].
  - apply (wp_seq _ _ _ _ (λ r, cleaned txn r.2)).
    { eapply wp_weaken; [apply wp_CleanupTransaction; [done|by eapply fresh_aborting]|done|done]. }
    intros [cleanup txn'] σ1 [Hsame Hab]. simpl in Hsame. assert (Hb' : base txn') by by eapply base_same.
    assert (Hm' : mutations_ txn' = ∅) by (by destruct Hsame as (_ & -> & _)).
    destruct (bool_decide _).
    + split; [right; by split; [destruct Hb'|]|done].
    + split; [right|done]. simpl. assert (Hst : state_ txn' = TsActive) by (by destruct Hsame as (_ & _ & _ & _ & ->)).
      unfold MarkCleanupPending. rewrite Hst. apply linked_aborted; [by destruct Hb'|done|by right].
  - destruct (String.eqb_spec (primaryKey_ txn) EmptyString) as [_|Hpk].
    { split; [right|done]. split; [done|]. simpl. by rewrite Hs. }
    eapply (wp_seq _ _ _ _ (prewritten_ok txn (primaryKey_ txn :: SortedUnique (mutation_keys txn)))).
    { destruct (negb _); [apply wp_prewrite_singly|apply wp_prewrite_batched]; done || apply SortedUnique_elem. }
    intros [st pw] σ1 [Hab Hok]. simpl in Hok. destruct (bool_decide_reflect (st = StOk)) as [->|Hne]; simpl.
    + eapply wp_commit_phase; [done..|by apply Hok|]. intros key Hk. by apply SortedUnique_elem, mutation_keys_elem.
    + apply wp_commit_abort; [done..|]. by case_match.
Qed.

(** ** Rollback *)

Lemma linked_cleanup_pending txn σ :
  base txn → aborting σ → state_ txn ≠ TsFinished → state_ txn ≠ TsResultUnknown → linked (MarkCleanupPending txn) σ.
Proof.
  intros [? ? ?] Hab Hf Hr. unfold MarkCleanupPending.
  destruct (state_ txn) eqn:Hs; try done; apply linked_aborted; simpl; auto; by split.
Qed.

Lemma wp_Rollback co txn opts σ :
  linked txn σ → follows (Rollback co txn opts) σ (λ r, linked r.2) (λ _ _, True).
Proof using T_start T_fits.
  intros [Hb Hl]. unfold Rollback.
  assert (Hclean : aborting σ → state_ txn ≠ TsFinished → state_ txn ≠ TsResultUnknown →
    follows ('(cleanup, txn) ← CleanupTransaction co txn;
      match cleanup with
      | StOk => Ret (StOk, MarkFinished txn)
      | StAlreadyCommitted => Ret (StAlreadyCommitted, MarkFinished txn)
      | _ => Ret (StCleanupPending, MarkCleanupPending txn)
      end) σ (λ r, linked r.2) (λ _ _, True)).
  { intros Hab H1 H2. apply (wp_seq _ _ _ _ (λ r, cleaned txn r.2)).
    { eapply wp_weaken; [apply wp_CleanupTransaction; [apply Hb|done]|done|done]. }
    intros [cleanup txn'] σ' [Hsame Hab']. simpl in Hsame. assert (Hb' : base txn') by by eapply base_same.
    assert (Hs : state_ txn' = state_ txn) by apply Hsame.
    assert (Hp : linked (MarkCleanupPending txn') σ') by (apply linked_cleanup_pending; congruence).
    assert (Hd : linked (MarkFinished txn') σ') by (by split; [destruct Hb'|]).
    by destruct cleanup. }
  destruct (state_ txn) eqn:Hs; try done.
  - apply Hclean; [by eapply fresh_aborting|done..].
  - by apply Hclean.
  - by apply Hclean.
  - split; [done|]. simpl. by rewrite Hs.
Qed.

(** ** Sessions of the client library *)

Lemma wp_catch {X Y A} (p : prog X A) (handler : X → prog Y A) σ Q R :
  follows p σ Q (λ x σ', follows (handler x) σ' Q R) → follows (prog_catch p handler) σ Q R.
Proof.
  revert σ. induction p as [a|x|e k IH]; intros σ; [done..|].
  destruct e; unfold wp; simpl; fold (@wp is_start); intros Hp; try (intros a; apply IH; exact (Hp a)).
  - destruct Hp as [H1 H2]. split; [by apply IH|]. intros ts ? ? ?. apply IH. by apply H2.
  - destruct Hp as (σ' & ? & ? & ?). exists σ'. split_and!; [done..|]. by apply IH.
  - intros a He. apply IH. by apply Hp.
Qed.

Import Client Session.

(** Between two calls of a session. *)
Definition hlinked (h : handle) σ : Prop := linked (transaction h) σ ∧ fits64 (lockTtlMs (options h)).

(** A call under [try] that leaves the transaction linked even when it throws. *)
Lemma wp_attempt {R'} h (failure : R') body σ :
  fits64 (lockTtlMs (options h)) → follows body σ (λ r, hlinked r.2) linked →
  follows (attempt h failure body) σ (λ r, hlinked r.2) (λ _ _, True).
Proof.
  intros Httl Hbody. apply wp_catch. eapply wp_weaken; [exact Hbody|done|]. intros txn σ' Hl. by split.
Qed.

Lemma wp_quietly {R'} (p : prog unit (R' * handle)) σ :
  follows p σ (λ r, hlinked r.2) (λ _ _, True) →
  follows (quietly p) σ (λ r σ', r.1 = None ∧ hlinked r.2 σ') (λ _ _, True).
Proof. intros Hp. eapply wp_seq; [exact Hp|]. by intros [r h] σ' ?. Qed.

Lemma linked_buffered txn σ key (write : Transaction.t → Transaction.t) :
  linked txn σ → state_ txn = TsActive → key ≠ EmptyString → fits_mem key →
  (∃ m, write txn = set_mutations (EnsurePrimaryKey txn key) m) → linked (write txn) σ.
Proof.
  intros [[? ? ?] Hl] Hs Hk Hmem [m ->]. rewrite Hs in Hl. destruct Hl as [? ? ? ? Hpk].
  assert (He : EnsurePrimaryKey txn key = set_primary txn (ProposedPrimaryKey txn key)).
  { unfold EnsurePrimaryKey, ProposedPrimaryKey. destruct (String.eqb _ _); by destruct txn. }
  rewrite He. split; [split; [done| |done]|].
  - simpl. unfold ProposedPrimaryKey. by destruct (String.eqb _ _).
  - simpl. rewrite Hs. split; [done..|]. simpl. destruct Hpk as [?|[Hp Hne]]; [by left|right].
    unfold ProposedPrimaryKey. destruct (String.eqb_spec (primaryKey_ txn) EmptyString); [done|]. by split.
Qed.

Lemma wp_buffered what h key write σ :
  hlinked h σ → fits_mem key → (∀ txn, ∃ m, write txn = set_mutations (EnsurePrimaryKey txn key) m) →
  follows (buffered what h key write) σ (λ r, hlinked r.2) (λ _ _, True).
Proof.
  intros [Hl Httl] Hmem Hw. unfold buffered. destruct (finished h); [done|].
  destruct (String.eqb_spec key EmptyString) as [|Hk]; [done|]. simpl. apply wp_attempt; [done|].
  eapply wp_seq; [by apply wp_Validate|]. intros [st txn] σ' [Hl' Hok]. simpl in *.
  destruct (bool_decide_reflect (st = StOk)) as [->|]; simpl; [|by split].
  destruct Hok as (-> & Hs & Hf); [done|]. split; [|done]. simpl. by eapply linked_buffered.
Qed.

(** What a session that has ended with a result knows. *)
Definition session_post (r : option Result * handle) σ : Prop :=
  ∀ res, r.1 = Some res → status res = kOk → mutations_ (transaction r.2) ≠ ∅ → durable (transaction r.2) σ.

Definition performed (r : option Result * handle) σ : Prop :=
  match r.1 with None => hlinked r.2 σ | Some _ => session_post r σ end.

Lemma performed_quiet (p : prog unit (option Result * handle)) σ :
  follows p σ (λ r σ', r.1 = None ∧ hlinked r.2 σ') (λ _ _, True) → follows p σ performed (λ _ _, True).
Proof. intros Hp. eapply wp_weaken; [exact Hp| |done]. intros [o h] σ' [Ho Hh]. unfold performed. by rewrite Ho. Qed.

Lemma wp_perform_Commit co rounds what h σ :
  hlinked h σ → follows (perform co rounds what h ACommit) σ performed (λ _ _, True).
Proof using T_start T_fits.
  intros [Hl Httl]. unfold perform, Client.Commit. destruct (finished h).
  { by split. }
  apply wp_bind, wp_catch. eapply wp_seq.
  { eapply wp_weaken; [by apply wp_Commit|intros r σ' H; exact H|]. intros txn σ' _. by intros res [= <-]. }
  intros [st txn] σ' [Hlk Hok]. simpl in Hlk, Hok. apply wp_ret, wp_ret. unfold performed. cbn [fst snd].
  destruct (ends_commit _) eqn:He.
  - intros res [= <-] Hst. simpl in Hst. apply Hok. by destruct st.
  - split; [|done]. destruct Hlk as [->|?]; done.
Qed.

Lemma wp_perform_Rollback co rounds what h σ :
  hlinked h σ → follows (perform co rounds what h ARollback) σ performed (λ _ _, True).
Proof using T_start T_fits.
  intros [Hl Httl]. unfold perform, Client.Rollback. destruct (finished h).
  { by split. }
  apply wp_bind, wp_catch. eapply wp_seq.
  { eapply wp_weaken; [by apply wp_Rollback|intros r σ' H; exact H|]. intros txn σ' _. by intros res [= <-]. }
  intros [st txn] σ' Hlk. apply wp_ret, wp_ret. by destruct st; split.
Qed.

Lemma wp_perform_Query h σ co rounds what :
  hlinked h σ → follows (perform co rounds what h AQuery) σ performed (λ _ _, True).
Proof using T_start T_fits.
  intros [Hl Httl]. apply (wp_seq _ _ _ _ (λ _ σ', linked (transaction h) σ')); [|by intros ? σ' ?; split].
  apply wp_catch. apply (wp_seq _ _ _ _ (λ _ σ', linked (transaction h) σ')); [|by intros [st record] σ' ?].
  assert (Htook : ∀ σ', took σ σ' → linked (transaction h) σ') by (intros; by eapply linked_took).
  apply wp_QueryStatus; [apply Hl|done|by auto|].
  intros [st record] σ' now Ht _ _. pose proof (Htook _ Ht) as [Hb Hl']. split; [done|].
  cbn [learn]. destruct (bool_decide _); [|done]. unfold learn_record.
  destruct (state_ (transaction h)); [by rewrite (fr_phase _ _ Hl')|..|done|done];
    destruct Hl' as [Hph|[Hph|[c Hph]]]; rewrite Hph; unfold aborting; rewrite Hph; eauto.
Qed.

Lemma wp_perform co rounds what h c σ :
  hlinked h σ → (∀ key, key ∈ call_keys c → fits_mem key) →
  follows (perform co rounds what h c) σ performed (λ _ _, True).
Proof using T_start T_fits.
  intros Hh Hk. pose proof Hh as [Hl Httl].
  assert (Hlk : ∀ (Y : Type) (r : Y) txn σ', linked txn σ' → hlinked (r, set_transaction h txn).2 σ') by by split.
  destruct c; cbn [call_keys] in Hk; [..|by apply wp_perform_Query|by apply wp_perform_Commit|by apply wp_perform_Rollback];
    apply performed_quiet, wp_quietly.
  - unfold Client.Get. destruct (finished h); [done|]. destruct (_ !! _); [done|]. apply wp_attempt; [done|].
    eapply wp_seq; [by apply wp_Get|]. intros [[st v] txn] σ' ?. by apply Hlk.
  - unfold Client.Scan. destruct (finished h); [done|]. apply wp_attempt; [done|].
    eapply wp_seq; [by apply wp_Scan|]. intros [[st v] txn] σ' ?. by apply Hlk.
  - unfold Client.GetForUpdate. destruct (finished h || _); [done|]. apply wp_attempt; [done|].
    eapply wp_seq; [apply wp_GetForUpdate; [done..|apply Hk, list_elem_of_here]|]. intros [r txn] σ' ?. by apply Hlk.
  - unfold Client.BatchGetForUpdate. destruct (finished h); [done|]. apply wp_attempt; [done|].
    eapply wp_seq; [by apply wp_BatchGetForUpdate|]. intros [[st v] txn] σ' ?. by apply Hlk.
  - unfold Client.LockKeys. destruct (finished h); [done|]. apply wp_attempt; [done|].
    eapply wp_seq; [by apply wp_LockKeys|]. intros [st txn] σ' ?. by apply Hlk.
  - apply wp_buffered; [done|apply Hk, list_elem_of_here|]. intros txn. by eexists.
  - apply wp_buffered; [done|apply Hk, list_elem_of_here|]. intros txn. by eexists.
Qed.

Lemma wp_run co rounds what h calls σ :
  hlinked h σ → (∀ c key, c ∈ calls → key ∈ call_keys c → fits_mem key) →
  follows (run co rounds what h calls) σ session_post (λ _ _, True).
Proof using T_start T_fits.
  revert h σ. induction calls as [|c calls IH]; intros h σ Hh Hk; cbn [run]; [by intros res [=]|].
  eapply wp_seq; [apply wp_perform; [done|]; intros key; apply Hk, list_elem_of_here|].
  intros [[res|] h'] σ' Hp; [done|]. apply IH; [done|]. intros c' key ?. apply Hk. by apply list_elem_of_further.
Qed.

(** A session follows the protocol from its first call on. *)
Lemma wp_session co rounds what ttl budget calls :
  fits64 ttl → (∀ c key, c ∈ calls → key ∈ call_keys c → fits_mem key) →
  follows (run co rounds what (Begin_at T ttl budget) calls) ps_init session_post (λ _ _, True).
Proof using T_start T_fits.
  intros Httl Hk. apply wp_run; [|done]. split; [|done]. split; [by split|]. simpl.
  split; [done..|]. by left.
Qed.

End conform.

(** ** Recovery workers *)

Section recovery.
Context (is_start : N → bool).
Import LockResolver.

Notation resolving := (wpr is_start).

Lemma wpr_seq {X A B} (p : prog X A) (f : A → prog X B) K Q (Q' : A → list rfact → Prop) :
  resolving p K Q' → (∀ a K', Q' a K' → resolving (f a) K' Q) → resolving (p ≫= f) K Q.
Proof. intros Hp Hf. apply wpr_bind. eapply wpr_mono; [|exact Hp]. auto. Qed.

Lemma wpr_call {X} r op K (Q : answer_of op → list rfact → Prop) :
  resolves is_start K op → (∀ a, Q a (told op a ++ K)) → resolving (call r op : prog X _) K Q.
Proof. intros Hr HQ. split; [done|]. intros a. apply HQ. Qed.

Lemma wpr_Route {X} (x : X) key K (Q : Z → list rfact → Prop) :
  (∀ r, Q r K) → resolving (Route x key) K Q.
Proof. intros HQ. apply wpr_bind. by intros [r|]; [apply HQ|]. Qed.

#[local] Arguments wpr : simpl never.

Lemma mono_app (K K' : list rfact) f : f ∈ K → f ∈ K' ++ K.
Proof. intros ?. apply elem_of_app. by right. Qed.

(** What the check of a primary tells. *)
Definition checked (T : N) (pk : string) (st : PrimaryTxnStatus) (K : list rfact) : Prop :=
  queryStatus st = StOk →
  match ps_state st with
  | PsCommitted => RCommitted T pk (ps_commitTs st) ∈ K
  | PsRolledBack | PsMissing => RDead T pk ∈ K
  | PsLocked => True
  end.

Lemma wpr_CheckPrimary {X} pk T now K :
  RLock T pk ∈ K →
  resolving (CheckPrimary pk T now true : prog X _) K
    (λ st K', (∀ f, f ∈ K → f ∈ K') ∧ checked T pk st K').
Proof.
  intros Hl. apply wpr_bind. intros [region|]; [|by split].
  set (op := OpCheckTxnStatus pk T now true 5000).
  apply wpr_bind. apply (wpr_call region op); [by apply RsCheck|]. intros [st record].
  destruct (bool_decide_reflect (st = StOk)) as [->|Hne]; simpl.
  - split; [intros f; apply mono_app|]. intros _. unfold of_record.
    destruct (trs_state _); simpl; [done|apply list_elem_of_here..].
  - split; [intros f; apply mono_app|]. by intros ?.
Qed.

Lemma wpr_ResolveLock wall key l now K :
  RLock (lock_startTs l) (primaryKey l) ∈ K →
  resolving (ResolveLock wall key l now) K (λ _ K', ∀ f, f ∈ K → f ∈ K').
Proof.
  intros Hl. apply wpr_bind, wpr_Route. intros region. cbv zeta.
  destruct (negb (IsExpired _ _)); [by intros f|]. eapply wpr_seq; [by apply wpr_CheckPrimary|].
  intros st K' [Hmono Hch]. destruct (bool_decide_reflect (queryStatus st = StOk)) as [Hok|]; simpl; [|by intros f; apply Hmono].
  specialize (Hch Hok). destruct (ps_state st).
  - apply (wpr_call region (OpResolveLock key (lock_startTs l) RsCommitted (ps_commitTs st))); [|intros a f ?; by apply Hmono].
    eapply RsCommit; eauto.
  - apply (wpr_call region (OpResolveLock key (lock_startTs l) RsRolledBack 0)); [|intros a f ?; by apply Hmono]. eapply RsRollback; eauto.
  - intros f. apply Hmono.
  - apply (wpr_call region (OpResolveLock key (lock_startTs l) RsRolledBack 0)); [|intros a f ?; by apply Hmono]. eapply RsRollback; eauto.
Qed.

(** The locks a store reported. *)
Definition reported (locks : list (string * MvccLock)) (K : list rfact) : Prop :=
  ∀ key l, (key, l) ∈ locks → RLock (lock_startTs l) (primaryKey l) ∈ K.

Lemma reported_tail item locks K : reported (item :: locks) K → reported locks K.
Proof. intros H key l Hin. apply (H key). by apply list_elem_of_further. Qed.

Lemma wpr_expired {X} region now K (Q : list (string * MvccLock) → list rfact → Prop) :
  (∀ locks K', reported locks K' → Q locks K') →
  resolving (call region (OpExpiredLocks now) : prog X (list (string * MvccLock))) K Q.
Proof.
  intros HQ. apply (wpr_call region (OpExpiredLocks now)); [by apply RsRead|]. intros locks. apply HQ.
  intros key l Hin. apply elem_of_app. left. simpl. apply list_elem_of_fmap. by exists (key, l).
Qed.

Lemma wpr_resolve_locks wall now locks n K :
  reported locks K → resolving (resolve_locks wall now locks n) K (λ _ _, True).
Proof.
  revert n K. induction locks as [|[key l] locks IH]; intros n K HK; cbn [resolve_locks]; [done|].
  eapply wpr_seq; [apply wpr_ResolveLock, (HK key), list_elem_of_here|].
  intros st K' Hmono. apply IH. intros k l' Hin. apply Hmono. by eapply reported_tail.
Qed.

Lemma wpr_coordinator_resolve wall :
  resolving (coordinator_ResolveExpiredLocks wall) [] (λ _ _, True).
Proof.
  apply wpr_bind. intros [ts|]; [|done]. apply wpr_bind. intros shards. simpl.
  generalize ([] : list rfact), 0%N. revert shards.
  induction shards as [|shard shards IH]; intros K n; cbn [resolve_shards]; [done|].
  apply wpr_bind, wpr_expired. intros locks K' HK.
  eapply wpr_seq; [by apply wpr_resolve_locks|]. intros m K1 _. apply IH.
Qed.

Import TxnRecoveryManager.

Lemma scan_command_resolves key l st op K :
  RLock (lock_startTs l) (primaryKey l) ∈ K →
  (key = primaryKey l ∧ ps_state st = PsRolledBack) ∨ checked (lock_startTs l) (primaryKey l) st K →
  scan_command key l st = Some op → resolves is_start K op.
Proof.
  intros Hl Hor. unfold scan_command, checked in *.
  destruct (bool_decide_reflect (queryStatus st = StOk)) as [Hok|]; [|done]. simpl.
  destruct (ps_state st); simpl; intros [= <-].
  - destruct Hor as [[_ ?]|Hc]; [done|]. eapply RsCommit; [done|]. by apply Hc.
  - eapply RsRollback; [done|]. destruct Hor as [[? _]|Hc]; [by left|right]. by apply Hc.
  - eapply RsRollback; [done|]. destruct Hor as [[? _]|Hc]; [by left|right]. by apply Hc.
Qed.

Lemma wpr_scan_status has now key l K :
  RLock (lock_startTs l) (primaryKey l) ∈ K →
  resolving (scan_status has now key l) K (λ o K', (∀ f, f ∈ K → f ∈ K') ∧
    ∀ st op, o = Some st → scan_command key l st = Some op → resolves is_start K' op).
Proof.
  intros Hl. unfold scan_status. destruct (String.eqb_spec key (primaryKey l)) as [Hk|_].
  - split; [by intros f|]. intros st op [= <-] Hc. revert Hc. apply scan_command_resolves; [done|by left].
  - destruct (negb has); [split; [by intros f|by intros st op [=]]|]. eapply wpr_seq; [by apply wpr_CheckPrimary|].
    intros st K' [Hm Hch]. split; [done|]. intros st' op [= <-] Hc.
    eapply scan_command_resolves; [by apply Hm|by right|done].
Qed.

Lemma wpr_scan_locks has now region locks K :
  reported locks K → resolving (scan_locks has now region locks) K (λ _ _, True).
Proof.
  revert K. induction locks as [|[key l] locks IH]; intros K HK; cbn [scan_locks]; [done|].
  eapply wpr_seq; [by apply wpr_scan_status, (HK key), list_elem_of_here|].
  intros o K' [Hmono Ho]. apply (wpr_seq _ _ _ _ (λ _ K1, ∀ f, f ∈ K → f ∈ K1)).
  - destruct (o ≫= scan_command key l) as [op|] eqn:Hc; [|done].
    apply bind_Some in Hc as (st & -> & Hc). apply wpr_bind, wpr_call; [by eapply Ho|].
    intros a f Hf. apply mono_app. auto.
  - intros [] K1 Hm1. apply IH. intros k l' Hin. apply Hm1. by eapply reported_tail.
Qed.

Lemma wpr_ScanOnce m revision routes regions :
  resolving (ScanOnce m revision routes regions) [] (λ _ _, True).
Proof.
  unfold ScanOnce. apply wpr_bind. intros [ts|]; [|done].
  apply (wpr_seq _ _ _ _ (λ _ _, True)); [|done]. generalize ([] : list rfact).
  induction regions as [|region regions IH]; intros K; cbn [scan_regions]; [done|].
  apply wpr_bind, wpr_expired. intros locks K' HK.
  eapply wpr_seq; [by apply wpr_scan_locks|]. intros ? K1 _. apply IH.
Qed.

End recovery.
