(* ===== verification/Atomicity.v ===== *)
(** * Atomic commit across Regions

    The guarantees of a cluster: [MvccStorage] in every Region, sessions of the
    client library, and the recovery programs of the nodes.  The world is the
    one of TxnWorld.v over the store of MvccTxnStore.v; Conform.v shows that its
    programs follow the protocol.  ClusterRuns.v has runs of the cluster. *)

From Stdlib Require Import ZArith.
From S2P Require Import Prelude KvEngine MvccTypes Codec Hlc Mvcc MvccRefine MvccSafety RegionMeta TxnProg Coordinator Client Recovery TxnStore MvccTxnStore TwoPhase TxnWorld Conform.
Import Client Session.

(** A run of the client library by an application. *)
Definition client_session (T : N) (p : prog unit (option Result * handle)) : Prop :=
  ∃ co rounds what ttl budget calls,
    fits64 ttl ∧ (∀ c key, c ∈ calls → key ∈ call_keys c → fits_mem key) ∧
    p = run co rounds what (Begin_at T ttl budget) calls.

(** A round of the recovery worker of a node, or of a coordinator. *)
Definition recovery_worker (p : prog unit unit) : Prop :=
  (∃ wall, p = (_ ← LockResolver.coordinator_ResolveExpiredLocks wall; Ret tt)) ∨
  (∃ m revision routes regions, p = (_ ← TxnRecoveryManager.ScanOnce m revision routes regions; Ret tt)).

Section cluster.
Context {E : Type} `{!KVEngine E} (is_start : N → bool).
Context (start_pos : ∀ ts, is_start ts = true → ts ≠ 0%N) (home : string → Z).

#[local] Instance cluster_store : TxnStore is_start cstore := mvcc_TxnStore is_start start_pos.

Notation cluster := (dworld (S := cstore (E := E)) (A := option Result * handle)).
Implicit Types (w : cluster).

(** The steps of the cluster, and those in which recovery does no harm. *)
Definition cluster_step : cluster → cluster → Prop :=
  dstep is_start home client_session recovery_worker anytime.
Definition undisturbed_step : cluster → cluster → Prop :=
  dstep is_start home client_session recovery_worker (undisturbed is_start home).
Definition cluster_init : cluster → Prop := dinit is_start.

(** The status of transaction [T] on [key], read off the store of its Region. *)
Definition key_status w (key : string) (T : N) : kstatus := dstatus is_start home w key T.

Lemma client_follows T p :
  is_start T = true → fits64 T → client_session T p →
  wp is_start T p ps_init (λ r σ, session_post r σ) (λ _ _, True).
Proof. intros Hs Hf (co & rounds & what & ttl & budget & calls & Httl & Hk & ->). by apply wp_session. Qed.

Lemma worker_follows p : recovery_worker p → wpr is_start p [] (λ _ _, True).
Proof.
  intros [[wall ->]|(m & revision & routes & regions & ->)].
  - eapply wpr_seq; [apply wpr_coordinator_resolve|done].
  - eapply wpr_seq; [apply wpr_ScanOnce|done].
Qed.

(** [C2] Two-phase commit is atomic when recovery runs undisturbed: in every state
    the cluster reaches so, whatever requests were delayed, repeated or lost and
    whatever sessions stopped, for every prewrite a transaction has sent: if the
    primary it names is committed with a timestamp, each of its keys is committed
    with the same timestamp or still holds the value lock that names the primary;
    and no key at all is committed unless the primary is, with the same
    timestamp.

    [undisturbed_step] restricts the moments at which recovery requests run: one
    that may roll back a primary without any trace of the transaction runs only
    when the session has asked for a commit or a rollback or is over, and none
    commits a lock without a value.  The cluster itself ([cluster_step]) does not
    ensure this, and without it the statement fails: ClusterRuns.v has the run.
    In this world a key has one home Region, the collector does not run, and applications do not call
    [Rollback] after [Commit] has thrown or returned an unknown result. *)
Theorem transactions_atomic w0 w r op keys T pk fu :
  cluster_init w0 → rtc undisturbed_step w0 w →
  (r, op) ∈ d_net w → footprint op = Some (keys, T, FLock pk false fu) →
  (∀ c, key_status w pk T = KCommitted c → ∀ key, key ∈ keys →
     key_status w key T = KCommitted c ∨ ∃ t, key_status w key T = KLocked pk false t) ∧
  (∀ key c, key_status w key T = KCommitted c → key_status w pk T = KCommitted c).
Proof.
  intros H0 Hs Hin Hfp.
  exact (reachable_atomic is_start home _ _ (λ _ r σ, session_post r σ) client_follows worker_follows
           w0 w r op keys T pk fu H0 Hs Hin Hfp).
Qed.

(** [C5] A commit the client library has reported as successful is durable and
    complete when recovery runs undisturbed: the primary is committed, and every
    key the transaction wrote is committed with the same timestamp or holds the
    value lock of the transaction that names the primary.  As for atomicity, recovery requests run only at moments where
    they do no harm, which the cluster does not ensure; a key has one home Region,
    the collector does not run, and applications do not call [Rollback] after
    [Commit] has thrown or returned an unknown result. *)
Theorem acknowledged_commit_durable w0 w T res h :
  cluster_init w0 → rtc undisturbed_step w0 w →
  d_sessions w !! T = Some (Ret (Some res, h)) → status res = kOk →
  Transaction.mutations_ (transaction h) ≠ ∅ →
  ∃ c, key_status w (Transaction.primaryKey_ (transaction h)) T = KCommitted c ∧
    ∀ key, is_Some (Transaction.mutations_ (transaction h) !! key) →
      key_status w key T = KCommitted c ∨
      ∃ t, key_status w key T = KLocked (Transaction.primaryKey_ (transaction h)) false t.
Proof.
  intros H0 Hs HT Hok Hm.
  destruct (reachable_returned is_start home _ _ (λ _ r σ, session_post r σ) client_follows worker_follows
              w0 w T _ H0 Hs HT) as (σ & HI & Hpost).
  destruct (Hpost res eq_refl Hok Hm) as (c & Hph & Hpk & Hall). cbn [snd] in Hpk, Hall.
  destruct (ti_done _ _ _ _ _ _ HI c Hph) as (p & Hp & Hc).
  assert (p = Transaction.primaryKey_ (transaction h)) as -> by congruence.
  destruct (tinv_atomic is_start home w T σ _ (ps_acked σ) HI Hpk (ti_acked_sent _ _ _ _ _ _ HI)) as [Hat _].
  exists c. split; [exact Hc|]. intros key Hk. apply Hat; auto.
Qed.

End cluster.
