(* ===== verification/ClusterRuns.v ===== *)
(** * Runs of a cluster

    A scheduler for the world of TxnWorld.v, so that runs of the coordinator, the
    client library and the recovery code over real stores can be evaluated.  Its
    runs are runs of the world ([moves_sound]).  They serve as instances of the
    theorems of Atomicity.v, and as counterexamples: for recovery that runs at the
    wrong moment, and for applications that go on where a session stops. *)

From Stdlib Require Import ZArith.
From S2P Require Import Prelude KvEngine MvccTypes Codec Hlc Mvcc MvccRefine MvccSafety RegionMeta TxnProg Coordinator Client Recovery TxnStore MvccTxnStore TwoPhase TxnWorld Conform Atomicity.
Import Client Session.

#[global] Instance MvccMutation_eq_dec : EqDecision MvccMutation.
Proof. solve_decision. Defined.
#[global] Instance store_op_eq_dec : EqDecision store_op.
Proof. solve_decision. Defined.

(** ** Moves *)

(** What an event is answered.  An awaited request gets the [n]-th answer of the
    log, counted from the first, or a failure. *)
Inductive reply :=
| ATs (ts : option N)
| ARegion (r : option Z)
| AShard (n : option N)
| ABudget (n : N)
| AShards (l : list Z)
| AUnit
| ALogged (n : nat)
| AFailed.

Definition failed (op : store_op) : answer_of op :=
  match op return answer_of op with
  | OpGet _ _ => (StTimeout, None)
  | OpScan _ _ _ _ _ => (StTimeout, [])
  | OpAcquirePessimisticLockForUpdate _ _ _ _ _ _ _ => MkPessimisticLockResult StTimeout false EmptyString 0 false
  | OpBatchPrewrite _ _ _ _ _ _ => (StTimeout, false)
  | OpCheckTxnStatus _ _ _ _ _ => (StTimeout, None)
  | OpExpiredLocks _ => []
  | OpGarbageCollect _ | OpMaxObservedTs => 0%N
  | OpStats => MkStats 0 0 0 0 0 0
  | OpCapabilities => MkCapabilities 0 0 0 false
  | OpPrewriteLock _ _ _ _ _ _ | OpPrewrite _ _ _ _ _ _ _ | OpPrewriteDelete _ _ _ _ _ _ | OpCommit _ _ _
  | OpCommitWithBudget _ _ _ _ | OpBatchCommit _ _ _ _ | OpRollback _ _ | OpBatchRollback _ _
  | OpResolveLock _ _ _ _ => StTimeout
  end.

Section runs.
Context (home : string → Z) {A : Type} (session : N → prog unit A → Prop) (worker : prog unit unit → Prop).

Notation store := (gmap string string).
#[local] Instance run_store : TxnStore N.odd (cstore (E := store)) := mvcc_TxnStore N.odd Demo.odd_pos.
Notation rworld := (dworld (S := cstore (E := store)) (A := A)).
Implicit Types (w : rworld).

Inductive move :=
| MBegin (T : N) (p : prog unit A)
| MSpawn (i : nat) (p : prog unit unit)
| MSession (T : N) (a : reply)
| MWorker (i : nat) (a : reply)
| MExec (n : nat) (now : N).   (** runs the [n]-th request sent *)

Definition logged w (n : nat) (r : Z) (op : store_op) : option (answer_of op) :=
  match rev (d_log w) !! n with
  | Some (r', existT op' a) =>
      match decide (op' = op), decide (r' = r) with
      | left H, left _ => Some (eq_rect op' answer_of a op H)
      | _, _ => None
      end
  | None => None
  end.

(** The answer to an event and the world after it, if the move is possible. *)
Definition choose w (a : reply) (e : event) : option (resp e * rworld) :=
  match e return option (resp e * rworld) with
  | ENext =>
      match a with
      | ATs None => Some (None, w)
      | ATs (Some ts) =>
          if (d_tso w <? ts)%N && (ts <? u64_size)%N && negb (N.odd ts) then Some (Some ts, set_tso w ts) else None
      | _ => None
      end
  | ERoute _ | ERegionId _ => match a with ARegion r => Some (r, w) | _ => None end
  | EShardId _ => match a with AShard n => Some (n, w) | _ => None end
  | ERemainingBudget => match a with ABudget n => Some (n, w) | _ => None end
  | ESubmit r op => match a with AUnit => Some (tt, send w r op) | _ => None end
  | EAwait r op =>
      if bool_decide ((r, op) ∈ d_net w) then
        match a with
        | ALogged n => (λ x, (x, w)) <$> logged w n r op
        | AFailed => Some (failed op, w)
        | _ => None
        end
      else None
  | EObserve _ | ESleep _ | ECount _ _ => match a with AUnit => Some (tt, w) | _ => None end
  | EShards => match a with AShards l => Some (l, w) | _ => None end
  | ERegionsInRange _ _ | EForever => None
  end.

Definition calm w (op : store_op) : bool :=
  match op with
  | OpCheckTxnStatus key T _ true _ =>
      match dstatus N.odd home w key T with KNone => false | _ => true end
  | OpResolveLock key T RsCommitted _ =>
      match dstatus N.odd home w key T with KLocked _ b _ => negb b | _ => true end
  | _ => true
  end.

Definition has_room (s : MvccStorage.t store) : bool :=
  bool_decide (map_Forall (λ _ r, (r < u64_max)%N) (MvccStorage.revisions_ s)).

Definition exec_request w (r : Z) (op : store_op) (now : N) : rworld :=
  let cs := d_store w r in
  let '(a, s') := mvcc_exec now now op (cs_store cs) in
  ran w r op a (MkCStore s' (time_obs (d_tso w) (cs_store cs) s' (cs_time cs))).

(** The requests that may run: all of them, or the undisturbed ones. *)
Definition when (careful : bool) : rworld → store_op → Prop :=
  if careful then undisturbed N.odd home else anytime.

Definition do_move (careful : bool) w (m : move) : option rworld :=
  match m with
  | MBegin T p =>
      if (d_tso w <? T)%N && N.odd T && (T <? u64_size)%N
      then Some (set_sessions (set_tso w T) (<[T := p]> (d_sessions w))) else None
  | MSpawn i p =>
      match d_workers w !! i with
      | None => Some (set_workers w (<[i := p]> (d_workers w)))
      | Some _ => None
      end
  | MSession T a =>
      match d_sessions w !! T with
      | Some (Vis e k) =>
          '(x, w') ← choose w a e; Some (set_sessions w' (<[T := k x]> (d_sessions w')))
      | _ => None
      end
  | MWorker i a =>
      match d_workers w !! i with
      | Some (Vis e k) =>
          '(x, w') ← choose w a e; Some (set_workers w' (<[i := k x]> (d_workers w')))
      | _ => None
      end
  | MExec n now =>
      match rev (d_net w) !! n with
      | Some (r, op) =>
          if forallb (λ key, bool_decide (home key = r)) (op_keys op) && (negb careful || calm w op) &&
             (now <? u64_size)%N && has_room (cs_store (d_store w r))
          then Some (exec_request w r op now) else None
      | None => None
      end
  end.

Fixpoint do_moves (careful : bool) w (ms : list move) : option rworld :=
  match ms with
  | [] => Some w
  | m :: ms => w' ← do_move careful w m; do_moves careful w' ms
  end.

(** The programs a list of moves starts. *)
Definition starts (m : move) : Prop :=
  match m with MBegin T p => session T p | MSpawn _ p => worker p | _ => True end.

Lemma rev_lookup {B} (l : list B) n x : rev l !! n = Some x → x ∈ l.
Proof. intros Hn%list_elem_of_lookup_2. by apply list_elem_of_In, in_rev, list_elem_of_In. Qed.

Lemma choose_sound w a e x w' : choose w a e = Some (x, w') → answers N.odd w e x w'.
Proof.
  destruct e; simpl; try (by destruct a; intros [= <- <-]).
  - destruct a as [[ts|]| | | | | | |]; try done; [|by intros [= <- <-]].
    destruct (N.ltb_spec (d_tso w) ts); [|done]. destruct (N.ltb_spec ts u64_size); [|done].
    destruct (N.odd ts) eqn:Ho; [done|]. simpl. by intros [= <- <-].
  - destruct (bool_decide_reflect ((region, op) ∈ d_net w)) as [Hin|]; [|done].
    destruct a; try done.
    + unfold logged. destruct (rev (d_log w) !! n) as [[r' [op' a]]|] eqn:Hn; [|done].
      destruct (decide (op' = op)) as [<-|]; [|done]. destruct (decide (r' = region)) as [->|]; [|done].
      intros [= <- <-]. split_and!; [done|left|done].
      by apply rev_lookup in Hn.
    + intros [= <- <-]. split_and!; [done|right|done]. by destruct op.
Qed.

Lemma calm_sound careful w op : negb careful || calm w op = true → when careful w op.
Proof.
  destruct careful; [|done]. change (calm w op = true → undisturbed N.odd home w op).
  destruct op as [| | | | | | | | | | | |key T ? [] ?|key T []| | | | |]; simpl; try done.
  - intros Hc Hn. by rewrite Hn in Hc.
  - intros Hc p b t Hk. rewrite Hk in Hc. by destruct b.
Qed.

Lemma exec_sound careful w n now r op :
  rev (d_net w) !! n = Some (r, op) →
  forallb (λ key, bool_decide (home key = r)) (op_keys op) = true → negb careful || calm w op = true →
  (now < u64_size)%N → has_room (cs_store (d_store w r)) = true →
  dstep N.odd home session worker (when careful) w (exec_request w r op now).
Proof.
  intros Hn Hh Hc Hnow Hr. unfold exec_request. destruct (mvcc_exec _ _ _ _) as [a s'] eqn:Hx.
  apply DExec; [by eapply rev_lookup| |by apply calm_sound|].
  - intros key Hin. rewrite forallb_forall in Hh. apply (bool_decide_eq_true (home key = r)), Hh.
    by apply list_elem_of_In.
  - exists now, now. split_and!; [done|by apply Demo.room_of|by rewrite Hx|done].
Qed.

Lemma do_move_sound careful w m w' :
  starts m → do_move careful w m = Some w' → dstep N.odd home session worker (when careful) w w'.
Proof.
  destruct m as [T p|i p|T a|i a|n now]; simpl; intros Hst.
  - destruct (N.ltb_spec (d_tso w) T); [|done]. destruct (N.odd T) eqn:Ho; [|done].
    destruct (N.ltb_spec T u64_size); [|done]. intros [= <-]. by apply DBegin.
  - destruct (d_workers w !! i) eqn:Hi; [done|]. intros [= <-]. by apply DSpawn.
  - destruct (d_sessions w !! T) as [[| |e k]|] eqn:HT; try done. destruct (choose w a e) as [[x w1]|] eqn:Hc; [|done].
    intros [= <-]. eapply DSession; [done|by eapply choose_sound].
  - destruct (d_workers w !! i) as [[| |e k]|] eqn:HT; try done. destruct (choose w a e) as [[x w1]|] eqn:Hc; [|done].
    intros [= <-]. eapply DWorker; [done|by eapply choose_sound].
  - destruct (rev (d_net w) !! n) as [[r op]|] eqn:Hn; [|done]. destruct (_ && _) eqn:Hb; [|done].
    rewrite !andb_true_iff, N.ltb_lt in Hb. destruct Hb as [[[? ?] ?] ?]. intros [= <-]. by eapply exec_sound.
Qed.

Lemma moves_sound careful w ms w' :
  Forall starts ms → do_moves careful w ms = Some w' →
  rtc (dstep N.odd home session worker (when careful)) w w'.
Proof.
  intros Hst. revert w. induction Hst as [|m ms Hm Hms IH]; intros w; simpl; [by intros [= <-]|].
  destruct (do_move careful w m) as [w1|] eqn:Hd; [|done]. intros Hr. eapply rtc_l; [by eapply do_move_sound|by apply IH].
Qed.

(** An empty cluster. *)
Definition empty_world : rworld := MkWorld 0 (λ _, MkCStore (MvccStorage.Open 0 ∅) (λ _, 0%N)) [] [] ∅ ∅.

Lemma empty_world_init : dinit N.odd empty_world.
Proof.
  split_and!; try done.
  - intros r. by apply (cs_inv_empty N.odd Demo.odd_pos).
  - intros r key T (l & Hl & _). done.
Qed.

End runs.

(** ** Two keys in two Regions *)

Module TwoRegions.

Notation store := (gmap string string).
Notation cluster := (dworld (S := cstore (E := store)) (A := option Result * handle)).
#[local] Existing Instance run_store.

(** Region 1 holds the key ["a"], Region 2 the rest. *)
Definition home (key : string) : Z := if String.eqb key "a" then 1 else 2.

Definition start : cluster := empty_world.
Definition finish_when (careful : bool) (ms : list move) : cluster :=
  default start (do_moves home careful start ms).
Definition finish : list move → cluster := finish_when true.
Definition status_at (w : cluster) (key : string) : kstatus := key_status N.odd Demo.odd_pos home w key 1.

Definition possible (careful : bool) (ms : list move) : bool :=
  match do_moves home careful start ms with Some _ => true | None => false end.

Lemma finish_runs careful ms (session : N → prog unit (option Result * handle) → Prop) worker :
  Forall (starts session worker) ms → possible careful ms = true →
  rtc (dstep N.odd home session worker (when home careful)) start (finish_when careful ms).
Proof.
  unfold possible, finish_when. intros Hst Hp.
  destruct (do_moves home careful start ms) as [w|] eqn:Hw; [|done].
  by apply (moves_sound _ _ _ _ _ ms).
Qed.

(** *** A commit *)

Definition batching : Coordinator.t := Coordinator.MkCoordinator true true.
Definition transfer : list app_call := [APut "a" "1"; APut "b" "2"; ACommit].
Definition transfer_session := run batching 5 "failure" (Begin_at 1 120000 5000) transfer.

(** The session up to the moment the primary is committed. *)
Definition primary_moves : list move :=
  [MBegin 1 transfer_session; MSession 1 (ATs (Some 2%N)); MSession 1 (ATs (Some 4%N)); MSession 1 (ATs (Some 6%N));
   MSession 1 (ARegion (Some 1%Z)); MSession 1 (ARegion (Some 1%Z));
   MSession 1 (ARegion (Some 2%Z)); MSession 1 (ARegion (Some 2%Z));
   MSession 1 AUnit; MSession 1 AUnit; MExec 0 0; MSession 1 (ALogged 0); MExec 1 0; MSession 1 (ALogged 1);
   MSession 1 (ATs (Some 8%N)); MSession 1 (ARegion (Some 1%Z)); MSession 1 AUnit; MExec 2 0].
(** The answer, and the request for the secondary, which is not run. *)
Definition commit_moves : list move :=
  primary_moves ++
  [MSession 1 (ALogged 2); MSession 1 (ARegion (Some 2%Z)); MSession 1 (ARegion (Some 2%Z)); MSession 1 AUnit;
   MSession 1 AFailed].

Lemma transfer_keys c key : c ∈ transfer → key ∈ call_keys c → fits_mem key.
Proof.
  intros Hc Hk. unfold transfer in Hc.
  repeat (apply elem_of_cons in Hc as [->|Hc]; [simpl in Hk; repeat (apply elem_of_cons in Hk as [->|Hk]; [by vm_compute|]); by apply not_elem_of_nil in Hk|]).
  by apply not_elem_of_nil in Hc.
Qed.

Lemma transfer_starts : client_session 1 transfer_session.
Proof.
  exists batching, 5%nat, "failure"%string, 120000%N, 5000%N, transfer. split_and!; [done| |done].
  apply transfer_keys.
Qed.

Lemma primary_runs : rtc (undisturbed_step N.odd Demo.odd_pos home) start (finish primary_moves).
Proof.
  apply (finish_runs true); [|vm_compute; reflexivity]. unfold primary_moves. constructor; [apply transfer_starts|].
  repeat (constructor; [exact I|]). constructor.
Qed.

Lemma commit_runs : rtc (undisturbed_step N.odd Demo.odd_pos home) start (finish commit_moves).
Proof.
  apply (finish_runs true); [|vm_compute; reflexivity]. unfold commit_moves, primary_moves. simpl.
  constructor; [apply transfer_starts|]. repeat (constructor; [exact I|]). constructor.
Qed.

Definition secondary_prewrite : store_op :=
  OpBatchPrewrite [MkMutation "b" "2" false false] "a" 1 120000 0 5000.

Lemma secondary_sent : (2%Z, secondary_prewrite) ∈ d_net (finish primary_moves).
Proof. apply (rev_lookup _ 1). vm_compute. reflexivity. Qed.

Lemma primary_committed : status_at (finish primary_moves) "a" = KCommitted 8.
Proof. vm_compute. reflexivity. Qed.

(** The primary is committed and the request for the secondary was not sent: the
    secondary keeps its value lock. *)
Lemma transactions_atomic_witness :
  status_at (finish primary_moves) "a" = KCommitted 8 ∧
  (status_at (finish primary_moves) "b" = KCommitted 8 ∨
   ∃ t, status_at (finish primary_moves) "b" = KLocked "a" false t).
Proof.
  split; [exact primary_committed|].
  exact (proj1 (transactions_atomic N.odd Demo.odd_pos home start (finish primary_moves) 2 secondary_prewrite
                  ["b"] 1 "a" 0 (empty_world_init) primary_runs secondary_sent eq_refl)
           8%N primary_committed "b" (list_elem_of_here _ _)).
Defined.

Definition committed_handle : handle :=
  MkHandle (Transaction.MkTransaction 1 (<["b" := MkTxnMutation "2" false]> (<["a" := MkTxnMutation "1" false]> ∅))
              [] [] "a" 0 TsFinished) (Begin_options 120000 5000) true.
Definition committed_result : Result := MkResult kOk EmptyString "OK" false false 1 "a".

Lemma commit_returned :
  d_sessions (finish commit_moves) !! 1%N = Some (Ret (Some committed_result, committed_handle)).
Proof. vm_compute. reflexivity. Qed.

Lemma committed_writes :
  Transaction.mutations_ (transaction committed_handle) ≠ ∅ ∧
  is_Some (Transaction.mutations_ (transaction committed_handle) !! "b").
Proof. split; vm_compute; [discriminate|eexists; reflexivity]. Qed.

(** The client has its answer although the answer for the secondary was lost. *)
Lemma acknowledged_commit_durable_witness :
  ∃ c, status_at (finish commit_moves) "a" = KCommitted c ∧
    (status_at (finish commit_moves) "b" = KCommitted c ∨
     ∃ t, status_at (finish commit_moves) "b" = KLocked "a" false t).
Proof.
  destruct (acknowledged_commit_durable N.odd Demo.odd_pos home start (finish commit_moves) 1
              committed_result committed_handle empty_world_init commit_runs commit_returned eq_refl
              (proj1 committed_writes)) as (c & Hc & Hall).
  exact (ex_intro _ c (conj Hc (Hall "b" (proj2 committed_writes)))).
Defined.

(** *** Recovery of a transaction that is still being prewritten *)

Definition short_session := run batching 5 "failure" (Begin_at 1 3000 5000) transfer.
Definition resolver : prog unit unit := _ ← LockResolver.coordinator_ResolveExpiredLocks 0; Ret tt.

(** A timestamp of the oracle at [ms] milliseconds. *)
Definition at_ms (ms : N) : N := N.shiftl ms 18.

(** Both prewrites are sent; only that of the secondary runs, and its lock
    expires. *)
Definition expiry_moves : list move :=
  [MBegin 1 short_session; MSession 1 (ATs (Some 2%N)); MSession 1 (ATs (Some 4%N)); MSession 1 (ATs (Some 6%N));
   MSession 1 (ARegion (Some 1%Z)); MSession 1 (ARegion (Some 1%Z));
   MSession 1 (ARegion (Some 2%Z)); MSession 1 (ARegion (Some 2%Z));
   MSession 1 AUnit; MSession 1 AUnit; MExec 1 1000].
(** A resolver finds the expired lock and no trace of the primary, and rolls the
    secondary back. *)
Definition resolver_moves : list (move (A := option Result * handle)) :=
  [MSpawn 0 resolver; MWorker 0 (ATs (Some (at_ms 5000))); MWorker 0 (AShards [2%Z]);
   MWorker 0 AUnit; MExec 2 5000; MWorker 0 (ALogged 1);
   MWorker 0 (ARegion (Some 2%Z)); MWorker 0 (ARegion (Some 1%Z)); MWorker 0 AUnit; MExec 3 5000; MWorker 0 (ALogged 2);
   MWorker 0 AUnit; MExec 4 5000; MWorker 0 (ALogged 3)].
(** The prewrite of the primary runs, the session has both acknowledged and
    commits. *)
Definition late_moves : list (move (A := option Result * handle)) :=
  [MExec 0 5000; MSession 1 (ALogged 4); MSession 1 (ALogged 0);
   MSession 1 (ATs (Some (at_ms 5000 + 2)%N)); MSession 1 (ARegion (Some 1%Z)); MSession 1 AUnit; MExec 5 5000;
   MSession 1 (ALogged 5); MSession 1 (ARegion (Some 2%Z)); MSession 1 (ARegion (Some 2%Z)); MSession 1 AUnit;
   MExec 6 5000; MSession 1 (ALogged 6)].
Definition recovery_moves : list move := expiry_moves ++ resolver_moves ++ late_moves.

Definition short_handle : handle :=
  MkHandle (Transaction.MkTransaction 1 (<["b" := MkTxnMutation "2" false]> (<["a" := MkTxnMutation "1" false]> ∅))
              [] [] "a" 0 TsFinished) (Begin_options 3000 5000) true.

Lemma short_starts : client_session 1 short_session.
Proof.
  exists batching, 5%nat, "failure"%string, 3000%N, 5000%N, transfer. split_and!; [done| |done].
  apply transfer_keys.
Qed.

Lemma recovery_runs : rtc (cluster_step N.odd Demo.odd_pos home) start (finish_when false recovery_moves).
Proof.
  apply (finish_runs false); [|vm_compute; reflexivity].
  unfold recovery_moves, expiry_moves, resolver_moves, late_moves. cbn [app].
  constructor; [apply short_starts|].
  repeat (constructor; [first [exact I|by left; exists 0%N]|]). constructor.
Qed.

(** [C38] Recovery can tear a transaction apart that is still being prewritten.
    The lock of a secondary expires while the prewrite of the primary, still
    within its RPC budget, is under way; a resolver finds no trace of the primary,
    takes the transaction for rolled back and rolls the secondary back, without
    leaving a record on the primary.  The prewrite and the commit of the primary
    then succeed, and the client is told that the transaction is committed
    although one of its writes is gone. *)
Theorem recovery_splits_open_transaction :
  ∃ w res h, rtc (cluster_step N.odd Demo.odd_pos home) start w ∧
    d_sessions w !! 1%N = Some (Ret (Some res, h)) ∧ status res = kOk ∧
    is_Some (Transaction.mutations_ (transaction h) !! "b") ∧
    status_at w "a" = KCommitted (at_ms 5000 + 2) ∧ status_at w "b" = KRolledBack.
Proof.
  exists (finish_when false recovery_moves), committed_result, short_handle. split_and!.
  - exact recovery_runs.
  - vm_compute. reflexivity.
  - reflexivity.
  - vm_compute. eexists. reflexivity.
  - vm_compute. reflexivity.
  - vm_compute. reflexivity.
Qed.

(** *** Rolling back after a failed commit *)

(** The only program is an application that makes [calls] and ignores what they
    report. *)
Definition only (calls : list app_call) (T : N) (p : prog unit (option Result * handle)) : Prop :=
  ∃ co rounds what ttl budget, p = run_on co rounds what (Begin_at T ttl budget) calls.
Definition only_step (calls : list app_call) : cluster → cluster → Prop :=
  dstep N.odd home (only calls) (λ _, False) (undisturbed N.odd home).

Definition one_by_one : Coordinator.t := Coordinator.MkCoordinator true false.
Definition careless (calls : list app_call) := run_on one_by_one 5 "failure" (Begin_at 1 120000 5000) calls.

Lemma careless_runs calls ms :
  possible true (MBegin 1 (careless calls) :: ms) = true →
  Forall (λ m, match m with MSession _ _ | MExec _ _ => True | _ => False end) ms →
  rtc (only_step calls) start (finish (MBegin 1 (careless calls) :: ms)).
Proof.
  intros Hp Hms. apply (finish_runs true); [|done]. constructor; [by exists one_by_one, 5%nat, "failure"%string, 120000%N, 5000%N|].
  eapply Forall_impl; [done|]. by intros [].
Qed.

(** Prewrites of both keys, one after the other. *)
Definition prewrite_moves (r1 r2 : Z) : list (move (A := option Result * handle)) :=
  [MSession 1 (ATs (Some 2%N)); MSession 1 (ATs (Some 4%N)); MSession 1 (ATs (Some 6%N));
   MSession 1 (ARegion (Some r1)); MSession 1 AUnit; MExec 0 0; MSession 1 (ALogged 0);
   MSession 1 (ARegion (Some r2)); MSession 1 AUnit; MExec 1 0; MSession 1 (ALogged 1)].

Definition throw_calls : list app_call := [APut "a" "1"; APut "b" "2"; ACommit; ARollback].
Definition throw_moves : list move :=
  prewrite_moves 1 2 ++
  [MSession 1 (ATs (Some 8%N)); MSession 1 (ARegion (Some 1%Z)); MSession 1 AUnit; MExec 2 0;
   MSession 1 (ALogged 2); MSession 1 (ARegion None);
   MSession 1 (ARegion (Some 1%Z)); MSession 1 AUnit; MExec 3 0; MSession 1 (ALogged 3);
   MSession 1 (ARegion (Some 2%Z)); MSession 1 AUnit; MExec 4 0; MSession 1 (ALogged 4);
   MSession 1 (AShard (Some 0%N)); MSession 1 (AShard (Some 0%N)); MSession 1 AUnit].

(** [C39] An exception while the secondaries are being committed tears the
    transaction apart: [Commit] reports a retryable failure and leaves the
    transaction active although its primary is committed, and the [Rollback] of
    an application that believes the report rolls the secondary back. *)
Theorem rollback_after_throw_splits :
  ∃ w, rtc (only_step throw_calls) start w ∧
    status_at w "a" = KCommitted 8 ∧ status_at w "b" = KRolledBack.
Proof.
  exists (finish (MBegin 1 (careless throw_calls) :: throw_moves)). split_and!.
  - apply careless_runs; [vm_compute; reflexivity|]. repeat (constructor; [exact I|]). constructor.
  - vm_compute. reflexivity.
  - vm_compute. reflexivity.
Qed.

Definition unknown_calls : list app_call := [APut "b" "2"; APut "a" "1"; ACommit; ARollback].
(** Request 2 is the commit of the primary: it runs after the rollback of the
    secondary. *)
Definition unknown_moves : list move :=
  prewrite_moves 1 2 ++
  [MSession 1 (ATs (Some 8%N)); MSession 1 (ARegion (Some 2%Z)); MSession 1 AUnit;
   MSession 1 AFailed; MSession 1 (ABudget 0);
   MSession 1 (ATs (Some 10%N)); MSession 1 (ARegion (Some 2%Z)); MSession 1 AUnit; MExec 3 0; MSession 1 (ALogged 2);
   MSession 1 (ARegion (Some 1%Z)); MSession 1 AUnit; MExec 4 0; MSession 1 (ALogged 3);
   MExec 2 0; MSession 1 (ARegion (Some 2%Z)); MSession 1 AUnit; MExec 5 0; MSession 1 (ALogged 5)].

(** [C40] [Rollback] of a transaction whose result is unknown can tear it apart:
    it finds the primary locked, decides to roll back and starts with a secondary;
    a commit request of the primary that is still under way then succeeds. *)
Theorem rollback_after_unknown_splits :
  ∃ w, rtc (only_step unknown_calls) start w ∧
    status_at w "b" = KCommitted 8 ∧ status_at w "a" = KRolledBack.
Proof.
  exists (finish (MBegin 1 (careless unknown_calls) :: unknown_moves)). split_and!.
  - apply careless_runs; [vm_compute; reflexivity|]. repeat (constructor; [exact I|]). constructor.
  - vm_compute. reflexivity.
  - vm_compute. reflexivity.
Qed.

End TwoRegions.
