(* ===== verification/Latch.v ===== *)
(** * The latches of a node

    Class [NodeLatchManager] (src/src/transaction/txn_scheduler.cpp): one table of
    latches for all Regions of a node.  A command takes the latches of its keys or
    the whole Region.  The manager never blocks its caller: a command that cannot
    have its latches is queued and named by the [Release] that makes it ready.
    The methods run under the mutex of the manager; a method is one step.

    [std::hash] is a parameter: it decides the slot a resource lives in, and
    the order in which a command sorts its resources. *)

From Stdlib Require Import ZArith.
From S2P Require Import Prelude.
#[local] Open Scope N_scope.

Inductive TxnLatchMode := Keys | RegionExclusive.

#[global] Instance TxnLatchMode_eq_dec : EqDecision TxnLatchMode.
Proof. solve_decision. Defined.

Module NodeLatchManager.

Record ResourceId := MkResource { ri_regionId : Z; ri_key : string }.

#[global] Instance ResourceId_eq_dec : EqDecision ResourceId.
Proof. solve_decision. Defined.

#[global] Program Instance ResourceId_countable : Countable ResourceId :=
  inj_countable' (λ r, (ri_regionId r, ri_key r)) (λ p, MkResource p.1 p.2) _.
Next Obligation. by intros []. Qed.

Record ResourceState := MkResourceState { owner : N; waiters : list N }.

Record RegionGate := MkGate {
  exclusiveOwner : N;
  activeKeyOwners : N;
  exclusiveWaiters : list N
}.

Record LockRequest := MkLockRequest {
  lr_commandId : N;
  lr_regionId : Z;
  lr_mode : TxnLatchMode;
  lr_resources : list ResourceId;
  lr_acquired : bool;
  lr_countedWait : bool;
  lr_waitStarted : Z
}.

Record Stats := MkStats {
  acquisitions : N;
  waits : N;
  waitMicros : N;
  currentWaiters : N;
  maxWaiters : N;
  held : N
}.

Record t := MkLatches {
  slots_ : list (gmap ResourceId ResourceState);
  regionGates_ : gmap Z RegionGate;
  requests_ : gmap N LockRequest;
  stats_ : Stats
}.

Definition create (slotCount : nat) : result t :=
  if bool_decide (slotCount = 0%nat) then Throw "NodeLatchManager requires at least one slot"
  else Ok (MkLatches (replicate slotCount ∅) ∅ ∅ (MkStats 0 0 0 0 0 0)).

(** What [operator[]] inserts. *)
Definition no_resource : ResourceState := MkResourceState 0 [].
Definition no_gate : RegionGate := MkGate 0 0 [].

Definition set_slots l s : t := MkLatches l (regionGates_ s) (requests_ s) (stats_ s).
Definition set_gates m s : t := MkLatches (slots_ s) m (requests_ s) (stats_ s).
Definition set_requests m s : t := MkLatches (slots_ s) (regionGates_ s) m (stats_ s).
Definition set_stats x s : t := MkLatches (slots_ s) (regionGates_ s) (requests_ s) x.

Definition gate_of (s : t) (rid : Z) : RegionGate := default no_gate (regionGates_ s !! rid).
Definition set_gate (rid : Z) (g : RegionGate) (s : t) : t := set_gates (<[rid := g]> (regionGates_ s)) s.

(** [std::find] and [erase]: the first occurrence. *)
Fixpoint RemoveWaiterLocked (commandId : N) (l : list N) : list N :=
  match l with
  | [] => []
  | c :: l => if c =? commandId then l else c :: RemoveWaiterLocked commandId l
  end.

(** [duration_cast] to microseconds of a difference of nanoseconds. *)
Definition FinishWaitLocked (now : Z) (request : LockRequest) (st : Stats) : LockRequest * Stats :=
  if lr_countedWait request then
    let micros := ((now - lr_waitStarted request) ÷ 1000)%Z in
    (MkLockRequest (lr_commandId request) (lr_regionId request) (lr_mode request) (lr_resources request)
       (lr_acquired request) false (lr_waitStarted request),
     MkStats (acquisitions st) (waits st)
       (if (0 <? micros)%Z then waitMicros st +₆₄ Z.to_N micros else waitMicros st)
       (if 0 <? currentWaiters st then currentWaiters st - 1 else currentWaiters st)
       (maxWaiters st) (held st))
  else (request, st).

Section with_hash.
Context (hash_int : Z → N) (hash_string : string → N).
Implicit Types (s : t) (r : ResourceId).

Definition ResourceHash r : N :=
  let seed := hash_int (ri_regionId r) in
  N.lxor seed (hash_string (ri_key r) +₆₄ 11400714819323198485 +₆₄ wrap64 (N.shiftl seed 6) +₆₄ N.shiftr seed 2).

Definition SlotIndex (slotCount : nat) r : nat := N.to_nat (ResourceHash r mod N.of_nat slotCount).

(** [slots_[SlotIndex(resource)].resources[resource]], read and written. *)
Definition resource_of s r : ResourceState :=
  default no_resource (slots_ s !! SlotIndex (length (slots_ s)) r ≫= λ slot, slot !! r).

Definition set_resource r (x : ResourceState) s : t :=
  set_slots (alter (λ slot, <[r := x]> slot) (SlotIndex (length (slots_ s)) r) (slots_ s)) s.

Definition erase_resource r s : t :=
  set_slots (alter (delete r) (SlotIndex (length (slots_ s)) r) (slots_ s)) s.

(** [TryGrantLocked]: the resource is free and the command is first in line. *)
Definition grantable (commandId : N) s r : bool :=
  let state := resource_of s r in
  (owner state =? 0) &&
  match waiters state with c :: _ => c =? commandId | [] => false end.

Definition take_resource (commandId : N) s r : t :=
  set_resource r (MkResourceState commandId (tail (waiters (resource_of s r)))) s.

Definition set_acquired (q : LockRequest) : LockRequest :=
  MkLockRequest (lr_commandId q) (lr_regionId q) (lr_mode q) (lr_resources q) true (lr_countedWait q)
    (lr_waitStarted q).

Definition count_acquired (st : Stats) : Stats :=
  MkStats (acquisitions st +₆₄ 1) (waits st) (waitMicros st) (currentWaiters st) (maxWaiters st) (held st +₆₄ 1).

Definition granted (now : Z) (request : LockRequest) s : t :=
  let '(request, st) := FinishWaitLocked now (set_acquired request) (count_acquired (stats_ s)) in
  set_stats st (set_requests (<[lr_commandId request := request]> (requests_ s)) s).

(** [request] is the stored request; the gate is created when the Region has
    none. *)
Definition TryGrantLocked (now : Z) (request : LockRequest) s : t * bool :=
  if lr_acquired request then (s, true)
  else
    let rid := lr_regionId request in
    let commandId := lr_commandId request in
    let gate := gate_of s rid in
    let s := set_gate rid gate s in
    match lr_mode request with
    | RegionExclusive =>
        if negb (exclusiveOwner gate =? 0) || negb (activeKeyOwners gate =? 0) ||
           match exclusiveWaiters gate with c :: _ => negb (c =? commandId) | [] => true end
        then (s, false)
        else (granted now request
                (set_gate rid (MkGate commandId (activeKeyOwners gate) (tail (exclusiveWaiters gate))) s), true)
    | Keys =>
        if negb (exclusiveOwner gate =? 0) then (s, false)
        else if match exclusiveWaiters gate with c :: _ => c <? commandId | [] => false end then (s, false)
        else if forallb (grantable commandId s) (lr_resources request) then
          let s := foldl (take_resource commandId) s (lr_resources request) in
          (granted now request
             (set_gate rid (MkGate (exclusiveOwner gate) (activeKeyOwners gate + 1) (exclusiveWaiters gate)) s), true)
        else (s, false)
    end.

(** The order of [std::sort] in [Acquire]. *)
Definition resource_leb (slotCount : nat) r r' : bool :=
  let i := SlotIndex slotCount r in
  let i' := SlotIndex slotCount r' in
  if negb (i =? i')%nat then (i <? i')%nat
  else if negb (ri_regionId r =? ri_regionId r')%Z then (ri_regionId r <? ri_regionId r')%Z
  else str_leb (ri_key r) (ri_key r').

Fixpoint insert_sorted (slotCount : nat) r (l : list ResourceId) : list ResourceId :=
  match l with
  | [] => [r]
  | r' :: l' => if resource_leb slotCount r r' then r :: l else r' :: insert_sorted slotCount r l'
  end.

Definition sort_resources (slotCount : nat) (l : list ResourceId) : list ResourceId :=
  foldr (insert_sorted slotCount) [] l.

(** [std::unique]: drop an element equal to its predecessor. *)
Fixpoint unique (l : list ResourceId) : list ResourceId :=
  match l with
  | r :: ((r' :: _) as l') => if bool_decide (r = r') then unique l' else r :: unique l'
  | _ => l
  end.

Definition enqueue (commandId : N) s r : t :=
  let state := resource_of s r in
  set_resource r (MkResourceState (owner state) (waiters state ++ [commandId])) s.

Definition count_wait (now : Z) (commandId : N) s : t :=
  let st := stats_ s in
  let current := currentWaiters st +₆₄ 1 in
  set_stats (MkStats (acquisitions st) (waits st +₆₄ 1) (waitMicros st) current (N.max (maxWaiters st) current) (held st))
    (set_requests (alter (λ q, MkLockRequest (lr_commandId q) (lr_regionId q) (lr_mode q) (lr_resources q)
                                 (lr_acquired q) true now) commandId (requests_ s)) s).

Definition Acquire (now : Z) (commandId : N) (regionId : Z) (keys : list string) (mode : TxnLatchMode) s
    : result (t * bool) :=
  if (commandId =? 0) || (regionId <? 0)%Z then Throw "invalid latch command or Region ID"
  else if bool_decide (is_Some (requests_ s !! commandId)) then Throw "duplicate latch command ID"
  else
    let resources :=
      match mode with
      | Keys => unique (sort_resources (length (slots_ s)) (MkResource regionId <$> keys))
      | RegionExclusive => []
      end in
    if bool_decide (mode = Keys) && match resources with [] => true | _ => false end
    then Throw "key latch requires at least one key"
    else
      let request := MkLockRequest commandId regionId mode resources false false 0 in
      let s := set_requests (<[commandId := request]> (requests_ s)) s in
      let s :=
        match mode with
        | RegionExclusive =>
            let gate := gate_of s regionId in
            set_gate regionId (MkGate (exclusiveOwner gate) (activeKeyOwners gate)
                                 (exclusiveWaiters gate ++ [commandId])) s
        | Keys => foldl (enqueue commandId) s resources
        end in
      let '(s, ok) := TryGrantLocked now request s in
      Ok (if ok then (s, true) else (count_wait now commandId s, false)).

Definition erase_unused s r : t :=
  let state := resource_of s r in
  if (owner state =? 0) && match waiters state with [] => true | _ => false end then erase_resource r s else s.

Definition CleanupResourcesLocked (request : LockRequest) s : t :=
  let s := foldl erase_unused s (lr_resources request) in
  let rid := lr_regionId request in
  let gate := gate_of s rid in
  if (exclusiveOwner gate =? 0) && (activeKeyOwners gate =? 0) &&
     match exclusiveWaiters gate with [] => true | _ => false end
  then set_gates (delete rid (regionGates_ s)) s
  else s.

(** The waiting commands in ascending order of their identifiers. *)
Definition candidates s : list N :=
  merge_sort N.le (filter (λ p, lr_acquired p.2 = false) (map_to_list (requests_ s))).*1.

Definition grant_ready (now : Z) (acc : t * list N) (commandId : N) : t * list N :=
  match requests_ acc.1 !! commandId with
  | None => acc
  | Some request =>
      let '(s, ok) := TryGrantLocked now request acc.1 in
      (s, if ok : bool then acc.2 ++ [commandId] else acc.2)
  end.

Definition GrantReadyLocked (now : Z) s : t * list N := foldl (grant_ready now) (s, []) (candidates s).

Definition release_resource (commandId : N) s r : t :=
  let state := resource_of s r in
  set_resource r (if owner state =? commandId then MkResourceState 0 (waiters state) else state) s.

Definition forget_resource (commandId : N) s r : t :=
  let state := resource_of s r in
  set_resource r (MkResourceState (owner state) (RemoveWaiterLocked commandId (waiters state))) s.

Definition count_released (st : Stats) : Stats :=
  MkStats (acquisitions st) (waits st) (waitMicros st) (currentWaiters st) (maxWaiters st)
    (if 0 <? held st then held st - 1 else held st).

(** What the command holds, or the places where it waits. *)
Definition withdraw (now : Z) (commandId : N) (request : LockRequest) s : t :=
  let rid := lr_regionId request in
  let gate := gate_of s rid in
  let s := set_gate rid gate s in
  if lr_acquired request then
    let s :=
      match lr_mode request with
      | RegionExclusive =>
          if exclusiveOwner gate =? commandId
          then set_gate rid (MkGate 0 (activeKeyOwners gate) (exclusiveWaiters gate)) s else s
      | Keys =>
          let s := foldl (release_resource commandId) s (lr_resources request) in
          if 0 <? activeKeyOwners gate
          then set_gate rid (MkGate (exclusiveOwner gate) (activeKeyOwners gate - 1) (exclusiveWaiters gate)) s else s
      end in
    set_stats (count_released (stats_ s)) s
  else
    let s := set_stats (FinishWaitLocked now request (stats_ s)).2 s in
    match lr_mode request with
    | RegionExclusive =>
        set_gate rid (MkGate (exclusiveOwner gate) (activeKeyOwners gate)
                        (RemoveWaiterLocked commandId (exclusiveWaiters gate))) s
    | Keys => foldl (forget_resource commandId) s (lr_resources request)
    end.

Definition Release (now : Z) (commandId : N) s : t * list N :=
  match requests_ s !! commandId with
  | None => (s, [])
  | Some request =>
      let s := withdraw now commandId request s in
      let s := set_requests (delete commandId (requests_ s)) s in
      GrantReadyLocked now (CleanupResourcesLocked request s)
  end.

Definition Cancel (now : Z) (commandId : N) s : t * list N := Release now commandId s.

Definition Holds (commandId : N) s : bool :=
  match requests_ s !! commandId with Some q => lr_acquired q | None => false end.

End with_hash.

End NodeLatchManager.
