(* ===== verification/LatchSafety.v ===== *)
(** * What the latches guarantee

    Two commands that hold latches at the same time do not conflict.  A Region
    with a waiting command has a command that holds latches, so the waiting ends
    when the holders let go.  [Release] names exactly the commands it made ready. *)

From Stdlib Require Import ZArith.
From S2P Require Import Prelude Latch.
Import NodeLatchManager.
#[local] Open Scope N_scope.

(** [case_decide] looks at the hypotheses too. *)
Ltac case_goal := match goal with |- context [@decide ?P ?d] => destruct (@decide P d) end.
Tactic Notation "case_goal" "as" ident(H) := match goal with |- context [@decide ?P ?d] => destruct (@decide P d) as [H|H] end.

(** ** Tables *)

Section tables.
Context (hash_int : Z → N) (hash_string : string → N).
Implicit Types (s : t) (r : ResourceId) (c : N).

Notation resource_of := (resource_of hash_int hash_string).
Notation set_resource := (set_resource hash_int hash_string).
Notation SlotIndex := (SlotIndex hash_int hash_string).

Lemma SlotIndex_lt n r : n ≠ 0%nat → (SlotIndex n r < n)%nat.
Proof using Type.
  intros Hn. unfold SlotIndex. pose proof (N.mod_upper_bound (ResourceHash hash_int hash_string r) (N.of_nat n)). lia.
Qed.

Lemma resource_of_set r x s r' :
  slots_ s ≠ [] → resource_of (set_resource r x s) r' = if decide (r' = r) then x else resource_of s r'.
Proof using Type.
  intros Hs. unfold resource_of, set_resource. simpl. rewrite length_alter.
  assert (length (slots_ s) ≠ 0%nat) as Hl by (by destruct (slots_ s)).
  destruct (decide (SlotIndex (length (slots_ s)) r' = SlotIndex (length (slots_ s)) r)) as [Heq|Hne].
  - rewrite Heq, list_lookup_alter_eq. destruct (lookup_lt_is_Some_2 (slots_ s) _ (SlotIndex_lt _ r Hl)) as [slot ->]. simpl.
    destruct (decide (r' = r)) as [->|Hr]; [by rewrite lookup_insert_eq|by rewrite lookup_insert_ne].
  - rewrite list_lookup_alter_ne by done. destruct (decide (r' = r)) as [->|Hr]; [done|done].
Qed.

Lemma resource_of_erase r s r' :
  resource_of (erase_resource hash_int hash_string r s) r' = if decide (r' = r) then no_resource else resource_of s r'.
Proof using Type.
  unfold resource_of, erase_resource. simpl. rewrite length_alter.
  destruct (decide (SlotIndex (length (slots_ s)) r' = SlotIndex (length (slots_ s)) r)) as [Heq|Hne].
  - rewrite Heq, list_lookup_alter_eq. destruct (slots_ s !! _) as [slot|]; simpl.
    + destruct (decide (r' = r)) as [->|Hr]; [by rewrite lookup_delete_eq|by rewrite lookup_delete_ne].
    + by case_decide.
  - rewrite list_lookup_alter_ne by done. destruct (decide (r' = r)) as [->|Hr]; [done|done].
Qed.

(** States that differ in slots only, and what a loop over resources does. *)
Record slots_only s s' : Prop := MkSlotsOnly {
  so_length : length (slots_ s') = length (slots_ s);
  so_gates : regionGates_ s' = regionGates_ s;
  so_requests : requests_ s' = requests_ s;
  so_stats : stats_ s' = stats_ s
}.

Lemma slots_only_trans s1 s2 s3 : slots_only s1 s2 → slots_only s2 s3 → slots_only s1 s3.
Proof using Type. intros [] []. split; congruence. Qed.

Lemma set_resource_slots r x s : slots_only s (set_resource r x s).
Proof using Type. split; [|done..]. simpl. apply length_alter. Qed.

Lemma foldl_resource (f : t → ResourceId → t) (h : ResourceState → ResourceState) rs s :
  (∀ s r, f s r = set_resource r (h (resource_of s r)) s) → NoDup rs → slots_ s ≠ [] →
  slots_only s (foldl f s rs) ∧
  ∀ r, resource_of (foldl f s rs) r = if decide (r ∈ rs) then h (resource_of s r) else resource_of s r.
Proof using Type.
  intros Hf. revert s. induction rs as [|r rs IH]; intros s Hnd Hs; simpl; [by split|].
  apply NoDup_cons in Hnd as [Hni Hnd]. rewrite Hf.
  destruct (IH (set_resource r (h (resource_of s r)) s) Hnd) as [H1 H2].
  { simpl. intros Hz. apply (f_equal length) in Hz. rewrite length_alter in Hz. by destruct (slots_ s). }
  split; [eapply slots_only_trans; [apply set_resource_slots|done]|].
  intros r'. rewrite H2, !resource_of_set by done. destruct (decide (r' = r)) as [->|Hne].
  - rewrite decide_False, decide_True by (done || by left). done.
  - destruct (decide (r' ∈ rs)), (decide (r' ∈ r :: rs)) as [Hin|Hin]; try done.
    + by destruct Hin; right.
    + by apply elem_of_cons in Hin as [|].
Qed.

Lemma gate_of_set rid g s rid' : gate_of (set_gate rid g s) rid' = if decide (rid' = rid) then g else gate_of s rid'.
Proof using Type.
  unfold gate_of, set_gate. simpl. case_decide; [by subst; rewrite lookup_insert_eq|by rewrite lookup_insert_ne].
Qed.

Lemma gates_eq s s' rid : regionGates_ s' = regionGates_ s → gate_of s' rid = gate_of s rid.
Proof using Type. unfold gate_of. by intros ->. Qed.

Lemma slots_eq s s' r : slots_ s' = slots_ s → resource_of s' r = resource_of s r.
Proof using Type. unfold NodeLatchManager.resource_of. by intros ->. Qed.

End tables.

(** ** The invariant

    [order] lists the waiting commands as they registered; every queue is the
    part of it that waits there. *)

Definition wants (R : gmap N LockRequest) (r : ResourceId) (c : N) : bool :=
  match R !! c with Some q => bool_decide (r ∈ lr_resources q) | None => false end.

Definition closes (R : gmap N LockRequest) (rid : Z) (c : N) : bool :=
  match R !! c with
  | Some q => bool_decide (lr_mode q = RegionExclusive) && bool_decide (lr_regionId q = rid)
  | None => false
  end.

Definition waiting (R : gmap N LockRequest) (c : N) : Prop := ∃ q, R !! c = Some q ∧ lr_acquired q = false.
Definition holding (R : gmap N LockRequest) (c : N) : Prop := ∃ q, R !! c = Some q ∧ lr_acquired q = true.

Definition key_holder (rid : Z) (p : N * LockRequest) : Prop :=
  lr_acquired p.2 = true ∧ lr_mode p.2 = Keys ∧ lr_regionId p.2 = rid.

#[global] Instance key_holder_dec rid p : Decision (key_holder rid p).
Proof. unfold key_holder. apply _. Defined.

Definition key_holders (R : gmap N LockRequest) (rid : Z) : gmap N LockRequest := filter (key_holder rid) R.

Record request_ok (c : N) (q : LockRequest) : Prop := MkRequestOk {
  ro_id : lr_commandId q = c;
  ro_pos : c ≠ 0;
  ro_nodup : NoDup (lr_resources q);
  ro_region : ∀ r, r ∈ lr_resources q → ri_regionId r = lr_regionId q;
  ro_keys : lr_mode q = Keys → lr_resources q ≠ [];
  ro_exclusive : lr_mode q = RegionExclusive → lr_resources q = []
}.

Record wf (R : gmap N LockRequest) (res : ResourceId → ResourceState) (gate : Z → RegionGate) (order : list N) : Prop := MkWf {
  wf_request : ∀ c q, R !! c = Some q → request_ok c q;
  wf_owner : ∀ r, owner (res r) ≠ 0 →
    ∃ q, R !! owner (res r) = Some q ∧ lr_acquired q = true ∧ r ∈ lr_resources q;
  wf_owned : ∀ c q r, R !! c = Some q → lr_acquired q = true → r ∈ lr_resources q → owner (res r) = c;
  wf_nodup : NoDup order;
  wf_order : ∀ c, c ∈ order ↔ waiting R c;
  wf_queue : ∀ r, waiters (res r) = filter (wants R r) order;
  wf_closing : ∀ rid, exclusiveWaiters (gate rid) = filter (closes R rid) order;
  wf_gate : ∀ rid, exclusiveOwner (gate rid) ≠ 0 →
    ∃ q, R !! exclusiveOwner (gate rid) = Some q ∧ lr_acquired q = true ∧ lr_mode q = RegionExclusive ∧
         lr_regionId q = rid;
  wf_gated : ∀ c q, R !! c = Some q → lr_acquired q = true → lr_mode q = RegionExclusive →
    exclusiveOwner (gate (lr_regionId q)) = c;
  wf_active : ∀ rid, activeKeyOwners (gate rid) = N.of_nat (size (key_holders R rid));
  wf_apart : ∀ rid, exclusiveOwner (gate rid) ≠ 0 → activeKeyOwners (gate rid) = 0
}.

Lemma wf_ext R res gate order res' gate' :
  (∀ r, res' r = res r) → (∀ rid, gate' rid = gate rid) → wf R res gate order → wf R res' gate' order.
Proof.
  intros Hr Hg []. split; intros *; rewrite ?Hr, ?Hg; eauto.
Qed.

(** Requests that differ in what they have acquired and waited. *)
Record same_request (q q' : LockRequest) : Prop := MkSameRequest {
  sq_id : lr_commandId q' = lr_commandId q;
  sq_region : lr_regionId q' = lr_regionId q;
  sq_mode : lr_mode q' = lr_mode q;
  sq_resources : lr_resources q' = lr_resources q
}.

Lemma same_request_ok c q q' : same_request q q' → request_ok c q → request_ok c q'.
Proof. intros [H1 H2 H3 H4] []. split; rewrite ?H1, ?H2, ?H3, ?H4; done. Qed.

Section update.
Context (R : gmap N LockRequest) (c : N) (q q' : LockRequest).
Hypothesis Hq : R !! c = Some q.
Hypothesis Hsame : same_request q q'.

Lemma wants_update r c' : wants (<[c := q']> R) r c' = wants R r c'.
Proof using Hq Hsame.
  unfold wants. destruct (decide (c' = c)) as [->|Hne]; [|by rewrite lookup_insert_ne].
  by rewrite lookup_insert_eq, Hq, (sq_resources _ _ Hsame).
Qed.

Lemma closes_update rid c' : closes (<[c := q']> R) rid c' = closes R rid c'.
Proof using Hq Hsame.
  unfold closes. destruct (decide (c' = c)) as [->|Hne]; [|by rewrite lookup_insert_ne].
  by rewrite lookup_insert_eq, Hq, (sq_mode _ _ Hsame), (sq_region _ _ Hsame).
Qed.

End update.

Lemma filter_all {A} (P : A → Prop) `{∀ x, Decision (P x)} (l : list A) : (∀ x, x ∈ l → P x) → filter P l = l.
Proof.
  induction l as [|x l IH]; intros Hl; [done|]. rewrite filter_cons_True by (apply Hl; left).
  by rewrite IH by (intros y Hy; apply Hl; by right).
Qed.

Lemma filter_remove {A} `{EqDecision A} (P : A → bool) (x : A) (l : list A) :
  P x = false → filter P (filter (λ y, y ≠ x) l) = filter P l.
Proof.
  intros Hx. rewrite list_filter_filter. apply list_filter_iff. intros y. split; [tauto|].
  intros Hy. split; [done|]. intros ->. by rewrite Hx in Hy.
Qed.

Lemma filter_remove_head {A} `{EqDecision A} (P : A → bool) (x : A) (l l' : list A) :
  NoDup l → filter P l = x :: l' → filter P (filter (λ y, y ≠ x) l) = l'.
Proof.
  intros Hnd Hf. assert (NoDup (filter P l)) as Hnf by by apply NoDup_filter. rewrite Hf in Hnf.
  apply NoDup_cons in Hnf as [Hni _]. transitivity (filter (λ y, y ≠ x) (filter P l)).
  - rewrite !list_filter_filter. apply list_filter_iff. tauto.
  - rewrite Hf, filter_cons_False by auto. apply filter_all. by intros y Hy ->.
Qed.

Lemma filter_none {A} (P : A → bool) (l : list A) : (∀ x, x ∈ l → P x = false) → filter P l = [].
Proof.
  induction l as [|x l IH]; intros H; [done|]. rewrite filter_cons_False.
  - apply IH. intros y Hy. apply H. by right.
  - rewrite (H x) by left. intros [].
Qed.

(** ** Counting the holders of a Region *)

Lemma key_holders_lookup R rid c q :
  key_holders R rid !! c = Some q ↔ R !! c = Some q ∧ key_holder rid (c, q).
Proof. unfold key_holders. by rewrite map_lookup_filter_Some. Qed.

Lemma key_holders_insert R rid c q' :
  (∀ q, R !! c = Some q → ¬ key_holder rid (c, q)) →
  size (key_holders (<[c := q']> R) rid) =
    (if decide (key_holder rid (c, q')) then S (size (key_holders R rid)) else size (key_holders R rid)).
Proof.
  intros Hn. assert (key_holders R rid !! c = None) as Hnone.
  { apply eq_None_not_Some. intros [q Hq]. apply key_holders_lookup in Hq as [? ?]. by apply (Hn q). }
  unfold key_holders in *. case_decide as Hk.
  - by rewrite map_filter_insert_True, map_size_insert_None by done.
  - f_equal. apply map_eq. intros c'. destruct (decide (c' = c)) as [->|Hne].
    + rewrite Hnone. apply map_lookup_filter_None. right. intros q. rewrite lookup_insert_eq. by intros [= <-].
    + apply option_eq. intros q. by rewrite !map_lookup_filter_Some, lookup_insert_ne.
Qed.

Lemma key_holders_delete R rid c :
  size (key_holders (delete c R) rid) =
    (match R !! c with
     | Some q => if decide (key_holder rid (c, q)) then pred (size (key_holders R rid)) else size (key_holders R rid)
     | None => size (key_holders R rid)
     end).
Proof.
  unfold key_holders. rewrite map_filter_delete, map_size_delete.
  destruct (R !! c) as [q|] eqn:Hc.
  - case_decide as Hk.
    + by rewrite (map_lookup_filter_Some_2 _ _ _ _ Hc Hk).
    + destruct (filter _ R !! c) as [q'|] eqn:Hf; [|done].
      apply map_lookup_filter_Some in Hf as [Hf Hk']. rewrite Hc in Hf. by injection Hf as <-.
  - destruct (filter _ R !! c) as [q'|] eqn:Hf; [|done]. apply map_lookup_filter_Some in Hf as [Hf _]. congruence.
Qed.

Lemma no_key_holder R rid : size (key_holders R rid) = 0%nat ↔ ∀ c q, R !! c = Some q → ¬ key_holder rid (c, q).
Proof.
  rewrite map_size_empty_iff. split.
  - intros He c q Hc Hk. assert (key_holders R rid !! c = Some q) as H by by apply key_holders_lookup.
    by rewrite He in H.
  - intros Hn. apply map_empty. intros c. apply eq_None_not_Some. intros [q [? ?]%key_holders_lookup]. by eapply Hn.
Qed.

(** ** Granting *)

Section grant.
Context (R : gmap N LockRequest) (res res' : ResourceId → ResourceState) (gate gate' : Z → RegionGate) (order : list N).
Context (c : N) (q q' : LockRequest).
Hypothesis Hwf : wf R res gate order.
Hypothesis Hq : R !! c = Some q.
Hypothesis Hwait : lr_acquired q = false.
Hypothesis Hsame : same_request q q'.
Hypothesis Hacq : lr_acquired q' = true.
Notation R' := (<[c := q']> R).
Notation order' := (filter (λ y, y ≠ c) order).

Lemma grant_request c1 q1 : R' !! c1 = Some q1 → request_ok c1 q1.
Proof using Hwf Hq Hsame.
  intros [[<- <-]|[_ H]]%lookup_insert_Some; [|by eapply wf_request].
  eapply same_request_ok; [done|]. by eapply wf_request.
Qed.

Lemma grant_order c1 : c1 ∈ order' ↔ waiting R' c1.
Proof using Hwf Hacq.
  rewrite list_elem_of_filter, (wf_order _ _ _ _ Hwf). unfold waiting. split.
  - intros [Hne (q1 & H1 & H2)]. exists q1. by rewrite lookup_insert_ne.
  - intros (q1 & [[<- <-]|[Hne H1]]%lookup_insert_Some & H2); [congruence|]. split; [done|]. by exists q1.
Qed.

(** A command that acquired before is another command. *)
Lemma grant_other c1 q1 : R' !! c1 = Some q1 → lr_acquired q1 = true → (c1 = c ∧ q1 = q') ∨ (c1 ≠ c ∧ R !! c1 = Some q1).
Proof using Type. intros [[<- <-]|[? ?]]%lookup_insert_Some _; auto. Qed.

Lemma grant_keep c1 q1 : R !! c1 = Some q1 → lr_acquired q1 = true → R' !! c1 = Some q1.
Proof using Hq Hwait Hacq. intros H1 H2. rewrite lookup_insert_ne; [done|]. intros <-. congruence. Qed.

Lemma grant_keys :
  lr_mode q = Keys → exclusiveOwner (gate (lr_regionId q)) = 0 →
  (∀ r, r ∈ lr_resources q → owner (res r) = 0 ∧ ∃ l, waiters (res r) = c :: l) →
  (∀ r, res' r = if decide (r ∈ lr_resources q) then MkResourceState c (tail (waiters (res r))) else res r) →
  (∀ rid, gate' rid = if decide (rid = lr_regionId q)
     then MkGate (exclusiveOwner (gate rid)) (activeKeyOwners (gate rid) + 1) (exclusiveWaiters (gate rid)) else gate rid) →
  wf R' res' gate' order'.
Proof using Hwf Hq Hwait Hsame Hacq.
  intros Hm Hex Hfree Hres Hgate. pose proof Hsame as [_ S2 S3 S4]. split.
  - apply grant_request.
  - intros r. rewrite Hres. case_decide as Hr.
    + intros _. exists q'. simpl. by rewrite lookup_insert_eq, S4.
    + intros (q1 & H1 & H2 & H3)%(wf_owner _ _ _ _ Hwf). exists q1. by rewrite (grant_keep _ _ H1 H2).
  - intros c1 q1 r H1 H2 H3. rewrite Hres. destruct (grant_other _ _ H1 H2) as [[-> ->]|[Hne H1']].
    + by rewrite decide_True by (by rewrite <- S4).
    + pose proof (wf_owned _ _ _ _ Hwf _ _ _ H1' H2 H3) as Ho. rewrite decide_False; [done|].
      intros Hr. destruct (Hfree r Hr) as [H0 _]. destruct (wf_request _ _ _ _ Hwf _ _ H1'). congruence.
  - apply NoDup_filter, Hwf.
  - apply grant_order.
  - intros r. rewrite Hres. setoid_rewrite (list_filter_iff _ (wants R r)); [|intros; by rewrite (wants_update R c q)].
    case_decide as Hr.
    + destruct (Hfree r Hr) as [_ [l Hl]]. rewrite Hl. symmetry. rewrite (wf_queue _ _ _ _ Hwf) in Hl.
      apply filter_remove_head; [apply Hwf|done].
    + rewrite filter_remove; [apply Hwf|]. unfold wants. rewrite Hq. by apply bool_decide_eq_false.
  - intros rid. rewrite Hgate. setoid_rewrite (list_filter_iff _ (closes R rid)); [|intros; by rewrite (closes_update R c q)].
    rewrite filter_remove; [by case_decide; apply Hwf|]. unfold closes. rewrite Hq, Hm. done.
  - intros rid. rewrite Hgate. intros Hne. assert (exclusiveOwner (gate rid) ≠ 0) as Hne' by (by case_decide).
    assert (exclusiveOwner (if decide (rid = lr_regionId q) then _ else gate rid) = exclusiveOwner (gate rid)) as ->
      by (by case_decide).
    destruct (wf_gate _ _ _ _ Hwf rid Hne') as (q1 & H1 & H2 & H3 & H4). exists q1. by rewrite (grant_keep _ _ H1 H2).
  - intros c1 q1 H1 H2 H3. rewrite Hgate. destruct (grant_other _ _ H1 H2) as [[-> ->]|[Hne H1']]; [congruence|].
    pose proof (wf_gated _ _ _ _ Hwf _ _ H1' H2 H3). by case_decide.
  - intros rid. rewrite Hgate, key_holders_insert.
    2: { intros q1 H1 [Ha _]. simpl in Ha. congruence. }
    destruct (decide (rid = lr_regionId q)) as [->|Hne].
    + rewrite decide_True by (split_and!; simpl; congruence). simpl. rewrite (wf_active _ _ _ _ Hwf). lia.
    + rewrite (decide_False (P := key_holder rid (c, q'))) by (intros (_ & _ & ?); simpl in *; congruence). apply Hwf.
  - intros rid. rewrite Hgate. case_decide as Hr; [|apply Hwf]. subst rid. simpl. by rewrite Hex.
Qed.

Lemma grant_region :
  lr_mode q = RegionExclusive → exclusiveOwner (gate (lr_regionId q)) = 0 →
  activeKeyOwners (gate (lr_regionId q)) = 0 →
  (∃ l, exclusiveWaiters (gate (lr_regionId q)) = c :: l) → (∀ r, res' r = res r) →
  (∀ rid, gate' rid = if decide (rid = lr_regionId q)
     then MkGate c (activeKeyOwners (gate rid)) (tail (exclusiveWaiters (gate rid))) else gate rid) →
  wf R' res' gate' order'.
Proof using Hwf Hq Hwait Hsame Hacq.
  intros Hm Hex Hact [l Hl] Hres Hgate. pose proof Hsame as [_ S2 S3 S4].
  pose proof (wf_request _ _ _ _ Hwf _ _ Hq) as Hok. split.
  - apply grant_request.
  - intros r. rewrite Hres. intros (q1 & H1 & H2 & H3)%(wf_owner _ _ _ _ Hwf). exists q1. by rewrite (grant_keep _ _ H1 H2).
  - intros c1 q1 r H1 H2 H3. rewrite Hres. destruct (grant_other _ _ H1 H2) as [[-> ->]|[Hne H1']].
    + rewrite S4, (ro_exclusive _ _ Hok Hm) in H3. by apply not_elem_of_nil in H3.
    + by eapply wf_owned.
  - apply NoDup_filter, Hwf.
  - apply grant_order.
  - intros r. rewrite Hres. setoid_rewrite (list_filter_iff _ (wants R r)); [|intros; by rewrite (wants_update R c q)].
    rewrite filter_remove; [apply Hwf|]. unfold wants. rewrite Hq, (ro_exclusive _ _ Hok Hm). done.
  - intros rid. rewrite Hgate. setoid_rewrite (list_filter_iff _ (closes R rid)); [|intros; by rewrite (closes_update R c q)].
    case_decide as Hr.
    + subst rid. simpl. rewrite Hl. symmetry. rewrite (wf_closing _ _ _ _ Hwf) in Hl.
      apply filter_remove_head; [apply Hwf|done].
    + rewrite filter_remove; [apply Hwf|]. unfold closes. rewrite Hq. apply andb_false_iff. right.
      apply bool_decide_eq_false. congruence.
  - intros rid. rewrite Hgate. case_decide as Hr.
    + subst rid. intros _. exists q'. simpl. rewrite lookup_insert_eq. split_and!; congruence.
    + intros (q1 & H1 & H2 & H3 & H4)%(wf_gate _ _ _ _ Hwf). exists q1. by rewrite (grant_keep _ _ H1 H2).
  - intros c1 q1 H1 H2 H3. rewrite Hgate. destruct (grant_other _ _ H1 H2) as [[-> ->]|[Hne H1']].
    + by rewrite S2, decide_True.
    + pose proof (wf_gated _ _ _ _ Hwf _ _ H1' H2 H3) as Ho. case_decide as Hr; [|done]. rewrite Hr in Ho.
      destruct (wf_request _ _ _ _ Hwf _ _ H1'). congruence.
  - intros rid. rewrite Hgate, key_holders_insert.
    2: { intros q1 H1 [Ha _]. simpl in Ha. congruence. }
    rewrite (decide_False (P := key_holder rid (c, q'))) by (intros (_ & Hk & _); simpl in Hk; congruence). case_decide; apply Hwf.
  - intros rid. rewrite Hgate. case_decide as Hr; [|apply Hwf]. subst rid. done.
Qed.

End grant.

(** ** Registering and leaving *)

Lemma wants_other R c q r c' : c' ≠ c → wants (<[c := q]> R) r c' = wants R r c'.
Proof. intros. unfold wants. by rewrite lookup_insert_ne. Qed.

Lemma closes_other R c q rid c' : c' ≠ c → closes (<[c := q]> R) rid c' = closes R rid c'.
Proof. intros. unfold closes. by rewrite lookup_insert_ne. Qed.

Lemma filter_ext_elem {A} (P Q : A → bool) (l : list A) :
  (∀ x, x ∈ l → P x = Q x) → filter P l = filter Q l.
Proof.
  induction l as [|x l IH]; intros H; [done|]. rewrite !filter_cons, (H x) by left.
  by rewrite IH by (intros y Hy; apply H; by right).
Qed.

Lemma filter_one {A} (P : A → bool) (x : A) : filter P [x] = if P x then [x] else [].
Proof. rewrite filter_cons. destruct (P x) eqn:Hx; [by rewrite decide_True|by rewrite decide_False by auto]. Qed.

Lemma register_wf R res gate order c q res' gate' :
  wf R res gate order → R !! c = None → request_ok c q → lr_acquired q = false →
  (∀ r, res' r = if decide (r ∈ lr_resources q) then MkResourceState (owner (res r)) (waiters (res r) ++ [c]) else res r) →
  (∀ rid, gate' rid = if decide (lr_mode q = RegionExclusive ∧ lr_regionId q = rid)
     then MkGate (exclusiveOwner (gate rid)) (activeKeyOwners (gate rid)) (exclusiveWaiters (gate rid) ++ [c]) else gate rid) →
  wf (<[c := q]> R) res' gate' (order ++ [c]).
Proof.
  intros Hwf Hnone Hok Hw Hres Hgate.
  assert (∀ r, owner (res' r) = owner (res r)) as Hown by (intros r; rewrite Hres; by case_goal).
  assert (∀ rid, exclusiveOwner (gate' rid) = exclusiveOwner (gate rid)) as Hexo by (intros rid; rewrite Hgate; by case_goal).
  assert (∀ rid, activeKeyOwners (gate' rid) = activeKeyOwners (gate rid)) as Hact by (intros rid; rewrite Hgate; by case_goal).
  assert (∀ c1 q1, R !! c1 = Some q1 → <[c := q]> R !! c1 = Some q1) as Hkeep.
  { intros c1 q1 H. rewrite lookup_insert_ne; [done|]. intros ->. congruence. }
  assert (∀ c1 q1, <[c := q]> R !! c1 = Some q1 → lr_acquired q1 = true → R !! c1 = Some q1) as Hback.
  { intros c1 q1 [[<- <-]|[_ H]]%lookup_insert_Some; congruence. }
  assert (c ∉ order) as Hni by (rewrite (wf_order _ _ _ _ Hwf); intros (q1 & ? & _); congruence).
  split.
  - intros c1 q1 [[<- <-]|[_ H]]%lookup_insert_Some; [done|by eapply wf_request].
  - intros r. rewrite Hown. intros (q1 & H1 & ? & ?)%(wf_owner _ _ _ _ Hwf). exists q1. auto.
  - intros c1 q1 r H1 H2 H3. rewrite Hown. eapply wf_owned; eauto.
  - apply NoDup_app. split; [apply Hwf|]. split; [|apply NoDup_singleton]. by intros x Hx ->%list_elem_of_singleton.
  - intros c1. rewrite elem_of_app, list_elem_of_singleton, (wf_order _ _ _ _ Hwf). unfold waiting. split.
    + intros [(q1 & H1 & H2)| ->]; [exists q1; auto|exists q]. by rewrite lookup_insert_eq.
    + intros (q1 & [[<- <-]|[_ H]]%lookup_insert_Some & H2); [by right|]. left. by exists q1.
  - intros r. rewrite Hres, filter_app. rewrite (filter_ext_elem _ (wants R r) order).
    2: { intros x Hx. apply wants_other. by intros ->. }
    assert (wants (<[c := q]> R) r c = bool_decide (r ∈ lr_resources q)) as Hc by (unfold wants; by rewrite lookup_insert_eq).
    rewrite filter_one, Hc, <- (wf_queue _ _ _ _ Hwf).
    case_goal as Hr; [by rewrite bool_decide_true|by rewrite bool_decide_false, app_nil_r].
  - intros rid. rewrite Hgate, filter_app. rewrite (filter_ext_elem _ (closes R rid) order).
    2: { intros x Hx. apply closes_other. by intros ->. }
    assert (closes (<[c := q]> R) rid c = bool_decide (lr_mode q = RegionExclusive) && bool_decide (lr_regionId q = rid)) as Hc
      by (unfold closes; by rewrite lookup_insert_eq).
    rewrite filter_one, Hc, <- (wf_closing _ _ _ _ Hwf).
    case_goal as Hr; [destruct Hr as [-> ->]; by rewrite !bool_decide_true|].
    destruct (_ && _) eqn:Hb; [|by rewrite app_nil_r].
    apply andb_prop in Hb as [?%bool_decide_eq_true ?%bool_decide_eq_true]. by destruct Hr.
  - intros rid. rewrite Hexo. intros (q1 & H1 & ? & ? & ?)%(wf_gate _ _ _ _ Hwf). exists q1. auto.
  - intros c1 q1 H1 H2 H3. rewrite Hexo. eapply wf_gated; eauto.
  - intros rid. rewrite Hact, key_holders_insert by congruence.
    rewrite decide_False by (intros [H _]; simpl in H; congruence). apply Hwf.
  - intros rid. rewrite Hexo, Hact. apply Hwf.
Qed.

Lemma remove_waiter c l : NoDup l → RemoveWaiterLocked c l = filter (λ x, x ≠ c) l.
Proof.
  induction l as [|x l IH]; intros Hnd; [done|]. apply NoDup_cons in Hnd as [Hni Hnd]. simpl.
  destruct (N.eqb_spec x c) as [->|Hne].
  - rewrite filter_cons_False by auto. symmetry. apply filter_all. by intros y Hy ->.
  - by rewrite filter_cons_True, IH.
Qed.

Lemma filter_comm {A} (P Q : A → Prop) `{∀ x, Decision (P x)} `{∀ x, Decision (Q x)} (l : list A) :
  filter P (filter Q l) = filter Q (filter P l).
Proof. rewrite !list_filter_filter. apply list_filter_iff. tauto. Qed.

Lemma filter_delete (R : gmap N LockRequest) c (P : gmap N LockRequest → N → bool) (order : list N) :
  (∀ c', c' ≠ c → P (delete c R) c' = P R c') →
  filter (P (delete c R)) (filter (λ y, y ≠ c) order) = filter (λ y, y ≠ c) (filter (P R) order).
Proof.
  intros Hp. rewrite (filter_comm (λ y, y ≠ c)). apply filter_ext_elem.
  intros x [Hx _]%list_elem_of_filter. auto.
Qed.

Lemma withdraw_wf R res gate order c q res' gate' :
  wf R res gate order → R !! c = Some q →
  (∀ r, res' r = MkResourceState (if owner (res r) =? c then 0 else owner (res r)) (filter (λ y, y ≠ c) (waiters (res r)))) →
  (∀ rid, gate' rid = MkGate (if exclusiveOwner (gate rid) =? c then 0 else exclusiveOwner (gate rid))
     (N.of_nat (size (key_holders (delete c R) rid))) (filter (λ y, y ≠ c) (exclusiveWaiters (gate rid)))) →
  wf (delete c R) res' gate' (filter (λ y, y ≠ c) order).
Proof.
  intros Hwf Hq Hres Hgate. split.
  - intros c1 q1 [_ H]%lookup_delete_Some. by eapply wf_request.
  - intros r. rewrite Hres. simpl. destruct (N.eqb_spec (owner (res r)) c) as [|Hne]; [done|].
    intros (q1 & H1 & ? & ?)%(wf_owner _ _ _ _ Hwf). exists q1. by rewrite lookup_delete_ne.
  - intros c1 q1 r [Hne H1]%lookup_delete_Some H2 H3. rewrite Hres. simpl.
    rewrite (wf_owned _ _ _ _ Hwf _ _ _ H1 H2 H3). by destruct (N.eqb_spec c1 c).
  - apply NoDup_filter, Hwf.
  - intros c1. rewrite list_elem_of_filter, (wf_order _ _ _ _ Hwf). unfold waiting. split.
    + intros [Hne (q1 & ? & ?)]. exists q1. by rewrite lookup_delete_ne.
    + intros (q1 & [Hne ?]%lookup_delete_Some & ?). split; [done|]. by exists q1.
  - intros r. rewrite Hres. simpl. rewrite (filter_delete R c (λ R', wants R' r)), (wf_queue _ _ _ _ Hwf); [done|].
    intros c' Hne. unfold wants. by rewrite lookup_delete_ne.
  - intros rid. rewrite Hgate. simpl. rewrite (filter_delete R c (λ R', closes R' rid)), (wf_closing _ _ _ _ Hwf); [done|].
    intros c' Hne. unfold closes. by rewrite lookup_delete_ne.
  - intros rid. rewrite Hgate. simpl. destruct (N.eqb_spec (exclusiveOwner (gate rid)) c) as [|Hne]; [done|].
    intros (q1 & H1 & ? & ? & ?)%(wf_gate _ _ _ _ Hwf). exists q1. by rewrite lookup_delete_ne.
  - intros c1 q1 [Hne H1]%lookup_delete_Some H2 H3. rewrite Hgate. simpl.
    rewrite (wf_gated _ _ _ _ Hwf _ _ H1 H2 H3). by destruct (N.eqb_spec c1 c).
  - intros rid. by rewrite Hgate.
  - intros rid. rewrite Hgate. simpl. destruct (exclusiveOwner (gate rid) =? c); [done|].
    intros Hne. pose proof (wf_apart _ _ _ _ Hwf _ Hne) as H0. rewrite (wf_active _ _ _ _ Hwf) in H0.
    rewrite key_holders_delete, Hq. case_goal; lia.
Qed.

(** A request whose waiting time is recorded. *)
Lemma wf_touch R res gate order c q q' :
  wf R res gate order → R !! c = Some q → same_request q q' → lr_acquired q' = lr_acquired q →
  wf (<[c := q']> R) res gate order.
Proof.
  intros Hwf Hq Hsame Ha. pose proof Hsame as [_ S2 S3 S4].
  assert (∀ c1 q1, R !! c1 = Some q1 → ∃ q2, <[c := q']> R !! c1 = Some q2 ∧ same_request q1 q2 ∧ lr_acquired q2 = lr_acquired q1) as Hf.
  { intros c1 q1 H1. destruct (decide (c1 = c)) as [->|Hne]; [|exists q1; by rewrite lookup_insert_ne].
    exists q'. rewrite lookup_insert_eq. by simplify_eq. }
  assert (∀ c1 q2, <[c := q']> R !! c1 = Some q2 → ∃ q1, R !! c1 = Some q1 ∧ same_request q1 q2 ∧ lr_acquired q2 = lr_acquired q1) as Hb.
  { intros c1 q2 [[<- <-]|[_ H1]]%lookup_insert_Some; [by exists q|]. by exists q2. }
  split.
  - intros c1 q2 (q1 & H1 & H2 & _)%Hb. eapply same_request_ok; [done|]. by eapply wf_request.
  - intros r (q1 & H1 & H2 & H3)%(wf_owner _ _ _ _ Hwf). destruct (Hf _ _ H1) as (q2 & E1 & [] & E3). exists q2. split; [done|]. split; congruence.
  - intros c1 q2 r (q1 & H1 & [] & E3)%Hb H2 H3. eapply wf_owned; [done|done|congruence|congruence].
  - apply Hwf.
  - intros c1. rewrite (wf_order _ _ _ _ Hwf). unfold waiting. split.
    + intros (q1 & (q2 & E1 & _ & E3)%Hf & H2). exists q2. split; [done|congruence].
    + intros (q2 & (q1 & E1 & _ & E3)%Hb & H2). exists q1. split; [done|congruence].
  - intros r. rewrite (wf_queue _ _ _ _ Hwf). apply filter_ext_elem. intros x _. symmetry. by apply (wants_update R c q).
  - intros rid. rewrite (wf_closing _ _ _ _ Hwf). apply filter_ext_elem. intros x _. symmetry. by apply (closes_update R c q).
  - intros rid (q1 & H1 & H2 & H3 & H4)%(wf_gate _ _ _ _ Hwf). destruct (Hf _ _ H1) as (q2 & E1 & [] & E3). exists q2. split; [done|]. split_and!; congruence.
  - intros c1 q2 (q1 & H1 & [] & E3)%Hb H2 H3. rewrite sq_region0. eapply wf_gated; [done|done|congruence|congruence].
  - intros rid. rewrite (wf_active _ _ _ _ Hwf). f_equal. unfold key_holders.
    destruct (decide (key_holder rid (c, q'))) as [Hk|Hk].
    + rewrite map_filter_insert_True by done. symmetry. apply map_size_insert_Some. exists q.
      apply map_lookup_filter_Some. split; [done|]. destruct Hk as (K1 & K2 & K3). simpl in *. split_and!; simpl; congruence.
    + rewrite map_filter_insert_False by done. f_equal. apply map_eq. intros c1. apply option_eq. intros q1.
      rewrite !map_lookup_filter_Some, lookup_delete_Some. split; [|tauto]. intros [H1 H2]. split; [|done]. split; [|done].
      intros ->. apply Hk. rewrite Hq in H1. injection H1 as <-. destruct H2 as (K1 & K2 & K3). simpl in *. split_and!; simpl; congruence.
  - apply Hwf.
Qed.

(** Where a command is not. *)
Section absent.
Context (R : gmap N LockRequest) (res : ResourceId → ResourceState) (gate : Z → RegionGate) (order : list N).
Context (c : N) (q : LockRequest).
Hypothesis Hwf : wf R res gate order.
Hypothesis Hq : R !! c = Some q.

Lemma not_owner r : lr_acquired q = false ∨ r ∉ lr_resources q → (owner (res r) =? c) = false.
Proof using Hwf Hq.
  intros Hn. apply N.eqb_neq. intros Ho. pose proof (ro_pos _ _ (wf_request _ _ _ _ Hwf _ _ Hq)) as Hc.
  destruct (wf_owner _ _ _ _ Hwf r) as (q1 & H1 & H2 & H3); [congruence|]. rewrite Ho in H1. simplify_eq.
  destruct Hn; congruence.
Qed.

Lemma not_waiter r : lr_acquired q = true ∨ r ∉ lr_resources q → filter (λ y, y ≠ c) (waiters (res r)) = waiters (res r).
Proof using Hwf Hq.
  intros Hn. apply filter_all. intros x Hx ->. rewrite (wf_queue _ _ _ _ Hwf) in Hx.
  apply list_elem_of_filter in Hx as [Hx1 Hx2]. apply (wf_order _ _ _ _ Hwf) in Hx2 as (q1 & H1 & H2). simplify_eq.
  destruct Hn as [Hn|Hn]; [congruence|]. apply Hn. unfold wants in Hx1. rewrite Hq in Hx1. by apply bool_decide_unpack in Hx1.
Qed.

Lemma not_gate rid : ¬ (lr_acquired q = true ∧ lr_mode q = RegionExclusive ∧ lr_regionId q = rid) →
  (exclusiveOwner (gate rid) =? c) = false.
Proof using Hwf Hq.
  intros Hn. apply N.eqb_neq. intros Ho. pose proof (ro_pos _ _ (wf_request _ _ _ _ Hwf _ _ Hq)) as Hc.
  destruct (wf_gate _ _ _ _ Hwf rid) as (q1 & H1 & H2 & H3 & H4); [congruence|]. rewrite Ho in H1. simplify_eq. auto.
Qed.

Lemma not_closing rid : lr_acquired q = true ∨ ¬ (lr_mode q = RegionExclusive ∧ lr_regionId q = rid) →
  filter (λ y, y ≠ c) (exclusiveWaiters (gate rid)) = exclusiveWaiters (gate rid).
Proof using Hwf Hq.
  intros Hn. apply filter_all. intros x Hx ->. rewrite (wf_closing _ _ _ _ Hwf) in Hx.
  apply list_elem_of_filter in Hx as [Hx1 Hx2]. apply (wf_order _ _ _ _ Hwf) in Hx2 as (q1 & H1 & H2). simplify_eq.
  destruct Hn as [Hn|Hn]; [congruence|]. apply Hn. unfold closes in Hx1. rewrite Hq in Hx1.
  by apply andb_prop_elim in Hx1 as [?%bool_decide_unpack ?%bool_decide_unpack].
Qed.

Lemma active_without rid :
  N.of_nat (size (key_holders (delete c R) rid)) =
    if decide (key_holder rid (c, q)) then activeKeyOwners (gate rid) - 1 else activeKeyOwners (gate rid).
Proof using Hwf Hq. rewrite key_holders_delete, Hq, (wf_active _ _ _ _ Hwf). case_goal; lia. Qed.

Lemma queue_nodup r : NoDup (waiters (res r)).
Proof using Hwf. rewrite (wf_queue _ _ _ _ Hwf). apply NoDup_filter, Hwf. Qed.

Lemma closing_nodup rid : NoDup (exclusiveWaiters (gate rid)).
Proof using Hwf. rewrite (wf_closing _ _ _ _ Hwf). apply NoDup_filter, Hwf. Qed.

End absent.

(** ** Sorting the resources of a request *)

Section sorting.
Context (hash_int : Z → N) (hash_string : string → N) (n : nat).
Notation leb := (resource_leb hash_int hash_string n).
Notation sort := (sort_resources hash_int hash_string n).
Implicit Types (r : ResourceId) (l : list ResourceId).

Lemma resource_leb_total r r' : leb r r' = false → leb r' r = true.
Proof using Type.
  unfold resource_leb. rewrite (Nat.eqb_sym (SlotIndex _ _ n r')), (Z.eqb_sym (ri_regionId r')).
  destruct (Nat.eqb_spec (SlotIndex hash_int hash_string n r) (SlotIndex hash_int hash_string n r')); simpl.
  - destruct (Z.eqb_spec (ri_regionId r) (ri_regionId r')); simpl.
    + intros H. destruct (String.leb_total (ri_key r) (ri_key r')) as [|]; unfold str_leb in *; congruence.
    + rewrite Z.ltb_ge, Z.ltb_lt. lia.
  - rewrite Nat.ltb_ge, Nat.ltb_lt. lia.
Qed.

Lemma resource_leb_trans r1 r2 r3 : leb r1 r2 = true → leb r2 r3 = true → leb r1 r3 = true.
Proof using Type.
  unfold resource_leb. repeat match goal with
  | |- context [(?a =? ?b)%nat] => destruct (Nat.eqb_spec a b)
  | |- context [(?a =? ?b)%Z] => destruct (Z.eqb_spec a b)
  end; simpl; rewrite ?Nat.ltb_lt, ?Z.ltb_lt; try lia; try congruence. apply str_leb_trans.
Qed.

Lemma resource_leb_antisym r1 r2 : leb r1 r2 = true → leb r2 r1 = true → r1 = r2.
Proof using Type.
  unfold resource_leb. repeat match goal with
  | |- context [(?a =? ?b)%nat] => destruct (Nat.eqb_spec a b)
  | |- context [(?a =? ?b)%Z] => destruct (Z.eqb_spec a b)
  end; simpl; rewrite ?Nat.ltb_lt, ?Z.ltb_lt; try lia; try congruence.
  intros H1 H2. destruct r1, r2. simpl in *. f_equal; [done|by apply str_leb_antisym].
Qed.

Lemma insert_sorted_perm r l : insert_sorted hash_int hash_string n r l ≡ₚ r :: l.
Proof using Type.
  induction l as [|r' l IH]; simpl; [done|]. destruct (leb r r'); [done|]. rewrite IH. constructor.
Qed.

Lemma sort_perm l : sort l ≡ₚ l.
Proof using Type. induction l as [|r l IH]; simpl; [done|]. by rewrite insert_sorted_perm, IH. Qed.

Lemma insert_sorted_sorted r l :
  StronglySorted (λ a b, leb a b = true) l → StronglySorted (λ a b, leb a b = true) (insert_sorted hash_int hash_string n r l).
Proof using Type.
  induction l as [|r' l IH]; intros Hs; simpl; [by repeat constructor|].
  apply StronglySorted_inv in Hs as [Hs Hf]. destruct (leb r r') eqn:Hle.
  - constructor; [by constructor|]. constructor; [done|]. eapply Forall_impl; [done|]. intros x. by apply resource_leb_trans.
  - constructor; [auto|]. rewrite insert_sorted_perm. constructor; [by apply resource_leb_total|done].
Qed.

Lemma sort_sorted l : StronglySorted (λ a b, leb a b = true) (sort l).
Proof using Type. induction l as [|r l IH]; simpl; [constructor|]. by apply insert_sorted_sorted. Qed.

Lemma unique_cons r1 r2 l :
  unique (r1 :: r2 :: l) = if bool_decide (r1 = r2) then unique (r2 :: l) else r1 :: unique (r2 :: l).
Proof using Type. done. Qed.

Lemma unique_elem r l : r ∈ unique l ↔ r ∈ l.
Proof using Type.
  induction l as [|r1 [|r2 l] IH]; [done|done|]. rewrite unique_cons. case_bool_decide as Heq.
  - subst r2. rewrite IH, !elem_of_cons. tauto.
  - rewrite elem_of_cons, IH, (elem_of_cons (r2 :: l)). done.
Qed.

Lemma unique_nodup l : StronglySorted (λ a b, leb a b = true) l → NoDup (unique l).
Proof using Type.
  induction l as [|r1 [|r2 l] IH]; [constructor|intros _; apply NoDup_singleton|]. intros [Hs Hf]%StronglySorted_inv.
  rewrite unique_cons. case_bool_decide as Heq; [auto|]. constructor; [|auto]. rewrite unique_elem. intros Hin.
  apply Heq. apply resource_leb_antisym; [by apply Forall_cons in Hf as [? _]|].
  apply StronglySorted_inv in Hs as [_ Hf2]. apply elem_of_cons in Hin as [->|Hin]; [by apply Forall_cons in Hf as [? _]|].
  rewrite Forall_forall in Hf2. by apply Hf2.
Qed.

Lemma resources_ok l : NoDup (unique (sort l)) ∧ ∀ r, r ∈ unique (sort l) ↔ r ∈ l.
Proof using Type.
  split; [apply unique_nodup, sort_sorted|]. intros r. by rewrite unique_elem, sort_perm.
Qed.

End sorting.

(** ** The methods *)

Section methods.
Context (hash_int : Z → N) (hash_string : string → N).
Implicit Types (s : t) (r : ResourceId) (c : N) (q : LockRequest) (order : list N).

Notation resource_of := (resource_of hash_int hash_string).
Notation set_resource := (set_resource hash_int hash_string).
Notation TryGrantLocked := (TryGrantLocked hash_int hash_string).
Notation GrantReadyLocked := (GrantReadyLocked hash_int hash_string).
Notation grant_ready := (grant_ready hash_int hash_string).
Notation Acquire := (Acquire hash_int hash_string).
Notation Release := (Release hash_int hash_string).

Record inv order s : Prop := MkInv {
  iv_slots : slots_ s ≠ [];
  iv_wf : wf (requests_ s) (resource_of s) (gate_of s) order
}.

(** When a request can be granted. *)
Definition grant_cond s c q : Prop :=
  let gate := gate_of s (lr_regionId q) in
  exclusiveOwner gate = 0 ∧
  match lr_mode q with
  | RegionExclusive => activeKeyOwners gate = 0 ∧ ∃ l, exclusiveWaiters gate = c :: l
  | Keys =>
      (∀ e l, exclusiveWaiters gate = e :: l → c ≤ e) ∧
      ∀ r, r ∈ lr_resources q → owner (resource_of s r) = 0 ∧ ∃ l, waiters (resource_of s r) = c :: l
  end.

Lemma finish_wait_same now q st : same_request q (FinishWaitLocked now q st).1 ∧
  lr_acquired (FinishWaitLocked now q st).1 = lr_acquired q.
Proof using Type. unfold FinishWaitLocked. by destruct (lr_countedWait q). Qed.

Lemma granted_spec now q s :
  ∃ q', same_request q q' ∧ lr_acquired q' = true ∧
    requests_ (granted now q s) = <[lr_commandId q := q']> (requests_ s) ∧
    slots_ (granted now q s) = slots_ s ∧ regionGates_ (granted now q s) = regionGates_ s.
Proof using Type.
  unfold granted. destruct (finish_wait_same now (set_acquired q) (count_acquired (stats_ s))) as [H1 H2].
  destruct (FinishWaitLocked now (set_acquired q) (count_acquired (stats_ s))) as [q' st]. simpl in *.
  exists q'. destruct H1 as [E1 E2 E3 E4]. simpl in *. split; [done|]. by rewrite E1.
Qed.

Lemma grantable_spec c s r :
  grantable hash_int hash_string c s r = true ↔ owner (resource_of s r) = 0 ∧ ∃ l, waiters (resource_of s r) = c :: l.
Proof using Type.
  unfold grantable. rewrite andb_true_iff, N.eqb_eq. destruct (waiters (resource_of s r)) as [|x l].
  - split; [by intros []|by intros [_ [l Hl]]].
  - rewrite N.eqb_eq. split; [intros [? ->]; eauto|]. intros [? [l' [= -> _]]]. done.
Qed.

Lemma gate_kept rid s rid' : gate_of (set_gate rid (gate_of s rid) s) rid' = gate_of s rid'.
Proof using Type. rewrite gate_of_set. by case_goal; subst. Qed.

Lemma resource_kept rid g s r : resource_of (set_gate rid g s) r = resource_of s r.
Proof using Type. done. Qed.

(** What [TryGrantLocked] does to a waiting request. *)
Record grants s c q s' : Prop := MkGrants {
  gr_cond : grant_cond s c q;
  gr_request : ∃ q', same_request q q' ∧ lr_acquired q' = true ∧ requests_ s' = <[c := q']> (requests_ s);
  gr_inv : ∀ order, inv order s → inv (filter (λ y, y ≠ c) order) s'
}.

Record refuses s c q s' : Prop := MkRefuses {
  rf_cond : ¬ grant_cond s c q;
  rf_requests : requests_ s' = requests_ s;
  rf_resources : ∀ r, resource_of s' r = resource_of s r;
  rf_gates : ∀ rid, gate_of s' rid = gate_of s rid;
  rf_slots : slots_ s' = slots_ s
}.

Lemma refuses_inv s c q s' order : refuses s c q s' → inv order s → inv order s'.
Proof using Type.
  intros [_ Hreq Hres Hg Hs] [H1 H2]. split; [by rewrite Hs|]. rewrite Hreq. by eapply wf_ext.
Qed.

Lemma refused_intro s c q : ¬ grant_cond s c q → refuses s c q (set_gate (lr_regionId q) (gate_of s (lr_regionId q)) s).
Proof using Type. intros. split; try done. intros rid. apply gate_kept. Qed.

Lemma TryGrant_region now c q s :
  requests_ s !! c = Some q → lr_commandId q = c → lr_acquired q = false → lr_mode q = RegionExclusive →
  let '(s', ok) := TryGrantLocked now q s in if ok then grants s c q s' else refuses s c q s'.
Proof using Type.
  intros Hq Hid Ha Hm. unfold NodeLatchManager.TryGrantLocked. rewrite Ha, Hm, Hid.
  set (rid := lr_regionId q). destruct (_ || _) eqn:Hg.
  - apply refused_intro. unfold grant_cond. rewrite Hm. fold rid. intros (H1 & H2 & l & H3).
    rewrite H1, H2, H3, !N.eqb_refl in Hg. done.
  - apply orb_false_iff in Hg as [[H1%negb_false_iff%N.eqb_eq H2%negb_false_iff%N.eqb_eq]%orb_false_iff H3].
    assert (∃ l, exclusiveWaiters (gate_of s rid) = c :: l) as [l Hl].
    { destruct (exclusiveWaiters (gate_of s rid)) as [|x l]; [done|]. apply negb_false_iff, N.eqb_eq in H3 as ->. eauto. }
    destruct (granted_spec now q (set_gate rid (MkGate c (activeKeyOwners (gate_of s rid))
      (tail (exclusiveWaiters (gate_of s rid)))) (set_gate rid (gate_of s rid) s))) as (q' & S1 & S2 & S3 & S4 & S5).
    rewrite Hid in S3. split.
    + unfold grant_cond. rewrite Hm. fold rid. eauto.
    + by exists q'.
    + intros order [Hs Hwf]. split; [by rewrite S4|]. rewrite S3.
      apply (grant_region (requests_ s) (resource_of s) _ (gate_of s) _ order c q q'); try done.
      * by exists l.
      * intros r. by rewrite (slots_eq _ _ _ _ _ S4).
      * intros rid'. rewrite (gates_eq _ _ _ S5), !gate_of_set. fold rid. by case_goal; subst.
Qed.

Lemma TryGrant_keys now c q s :
  slots_ s ≠ [] → requests_ s !! c = Some q → lr_commandId q = c → NoDup (lr_resources q) →
  lr_acquired q = false → lr_mode q = Keys →
  let '(s', ok) := TryGrantLocked now q s in if ok then grants s c q s' else refuses s c q s'.
Proof using Type.
  intros Hsl Hq Hid Hnd Ha Hm. unfold NodeLatchManager.TryGrantLocked. rewrite Ha, Hm, Hid.
  set (rid := lr_regionId q). destruct (negb (exclusiveOwner (gate_of s rid) =? 0)) eqn:H1.
  { apply refused_intro. intros [H _]. fold rid in H. by rewrite H in H1. }
  apply negb_false_iff, N.eqb_eq in H1.
  destruct (match exclusiveWaiters (gate_of s rid) with [] => false | e :: _ => e <? c end) eqn:H2.
  { apply refused_intro. unfold grant_cond. rewrite Hm. fold rid. intros (_ & H & _).
    destruct (exclusiveWaiters (gate_of s rid)) as [|e l]; [done|]. specialize (H e l eq_refl). apply N.ltb_lt in H2. lia. }
  destruct (forallb _ (lr_resources q)) eqn:H3.
  - rewrite forallb_forall in H3. destruct (foldl_resource hash_int hash_string (take_resource hash_int hash_string c)
      (λ x, MkResourceState c (tail (waiters x))) (lr_resources q) (set_gate rid (gate_of s rid) s)) as [[L1 L2 L3 L4] L5];
      [done|done|done|].
    set (s1 := foldl _ _ _) in *.
    destruct (granted_spec now q (set_gate rid (MkGate (exclusiveOwner (gate_of s rid)) (activeKeyOwners (gate_of s rid) + 1)
      (exclusiveWaiters (gate_of s rid))) s1)) as (q' & S1 & S2 & S3 & S4 & S5).
    assert (∀ r, r ∈ lr_resources q → owner (resource_of s r) = 0 ∧ ∃ l, waiters (resource_of s r) = c :: l) as Hfree.
    { intros r Hr. apply grantable_spec. by apply (H3 r), list_elem_of_In. }
    rewrite Hid in S3. simpl in S3, S4. rewrite L3 in S3. simpl in S3. split.
    + unfold grant_cond. rewrite Hm. fold rid. split; [done|]. split; [|done].
      intros e l He. rewrite He in H2. by apply N.ltb_ge in H2.
    + by exists q'.
    + intros order [Hs Hwf]. split; [rewrite S4; intros Hz; rewrite Hz in L1; simpl in L1; by destruct (slots_ s)|]. rewrite S3.
      apply (grant_keys (requests_ s) (resource_of s) _ (gate_of s) _ order c q q'); try done.
      * intros r. by rewrite (slots_eq _ _ _ _ _ S4), <- L5.
      * intros rid'. rewrite (gates_eq _ _ _ S5), gate_of_set, (gates_eq _ _ _ L2), gate_of_set. fold rid.
        by case_goal; subst.
  - apply refused_intro. unfold grant_cond. rewrite Hm. fold rid. intros (_ & _ & H).
    apply not_true_iff_false in H3. apply H3, forallb_forall. intros r Hr%list_elem_of_In. apply grantable_spec. by apply H.
Qed.

Lemma TryGrant_spec now c q s order :
  inv order s → requests_ s !! c = Some q → lr_acquired q = false →
  let '(s', ok) := TryGrantLocked now q s in if ok then grants s c q s' else refuses s c q s'.
Proof using Type.
  intros [Hs Hwf] Hq Ha. destruct (wf_request _ _ _ _ Hwf _ _ Hq) as [H1 _ H2 _ _ _].
  destruct (lr_mode q) eqn:Hm; [by apply TryGrant_keys|by apply TryGrant_region].
Qed.

(** What [Acquire] registers. *)
Record registers order s c q s1 : Prop := MkRegisters {
  rg_new : requests_ s !! c = None;
  rg_waiting : lr_acquired q = false;
  rg_requests : requests_ s1 = <[c := q]> (requests_ s);
  rg_inv : inv (order ++ [c]) s1
}.

Lemma Acquire_registers order c rid resources mode s :
  inv order s → requests_ s !! c = None → c ≠ 0 → NoDup resources → (∀ r, r ∈ resources → ri_regionId r = rid) →
  (mode = Keys → resources ≠ []) → (mode = RegionExclusive → resources = []) →
  let q := MkLockRequest c rid mode resources false false 0 in
  let s0 := set_requests (<[c := q]> (requests_ s)) s in
  registers order s c q
    (match mode with
     | RegionExclusive =>
         set_gate rid (MkGate (exclusiveOwner (gate_of s0 rid)) (activeKeyOwners (gate_of s0 rid))
                         (exclusiveWaiters (gate_of s0 rid) ++ [c])) s0
     | Keys => foldl (enqueue hash_int hash_string c) s0 resources
     end).
Proof using Type.
  intros [Hs Hwf] Hnone Hc Hnd Hreg Hk He q s0. assert (request_ok c q) as Hok by by split.
  destruct mode.
  - destruct (foldl_resource hash_int hash_string (enqueue hash_int hash_string c)
      (λ x, MkResourceState (owner x) (waiters x ++ [c])) resources s0) as [[L1 L2 L3 L4] L5]; [done..|].
    split; [done|done|by rewrite L3|]. split; [intros Hz; rewrite Hz in L1; simpl in L1; by destruct (slots_ s)|].
    rewrite L3. apply (register_wf _ (resource_of s) (gate_of s)); try done.
    intros rid'. rewrite (gates_eq _ _ _ L2). by rewrite decide_False by (by intros [? _]).
  - split; [done|done|done|]. split; [done|]. apply (register_wf _ (resource_of s) (gate_of s)); try done.
    + intros r. simpl. rewrite (He eq_refl). by rewrite decide_False by apply not_elem_of_nil.
    + intros rid'. rewrite gate_of_set. destruct (decide (rid' = rid)) as [->|Hne].
      * by rewrite decide_True.
      * rewrite decide_False; [done|]. intros [_ ?]. simpl in *. congruence.
Qed.

Lemma Acquire_spec now order c rid keys mode s s' ok :
  inv order s → Acquire now c rid keys mode s = Ok (s', ok) →
  ∃ q s1, registers order s c q s1 ∧ lr_mode q = mode ∧ lr_regionId q = rid ∧
    (∀ key, mode = Keys → MkResource rid key ∈ lr_resources q ↔ key ∈ keys) ∧
    if ok then grants s1 c q s'
    else ¬ grant_cond s1 c q ∧ inv (order ++ [c]) s' ∧
         ∃ q', same_request q q' ∧ lr_acquired q' = false ∧ requests_ s' = <[c := q']> (requests_ s).
Proof using Type.
  intros Hinv. unfold NodeLatchManager.Acquire. destruct ((c =? 0) || _) eqn:Hg; [done|].
  apply orb_false_iff in Hg as [Hc%N.eqb_neq _]. case_bool_decide as Hnew; [done|].
  apply eq_None_not_Some in Hnew.
  set (l := sort_resources hash_int hash_string (length (slots_ s)) (MkResource rid <$> keys)).
  pose proof (resources_ok hash_int hash_string (length (slots_ s)) (MkResource rid <$> keys)) as [Hnd Hel]. fold l in Hnd, Hel.
  set (resources := match mode with Keys => unique l | RegionExclusive => [] end).
  destruct (_ && _) eqn:Hne; [done|].
  assert (NoDup resources) as Hnd' by (destruct mode; [done|constructor]).
  destruct (Acquire_registers order c rid resources mode s Hinv Hnew Hc Hnd') as [R1 R2 R3 R4].
  - intros r Hr. destruct mode; [|by apply not_elem_of_nil in Hr].
    apply Hel, list_elem_of_fmap in Hr as (k & -> & _). done.
  - intros ->. by destruct resources.
  - intros ->. done.
  - set (q := MkLockRequest c rid mode resources false false 0) in *. match type of R4 with inv _ ?x => set (s1 := x) in * end.
    assert (requests_ s1 !! c = Some q) as Hq by (rewrite R3; apply lookup_insert_eq).
    pose proof (TryGrant_spec now c q s1 _ R4 Hq eq_refl) as Ht. destruct (TryGrantLocked now q s1) as [s2 ok2].
    intros H. exists q, s1. split; [by split|]. split; [done|]. split; [done|]. split.
    { intros key ->. unfold q. simpl. unfold resources. rewrite Hel, list_elem_of_fmap. split.
      - by intros (k & [= ->] & ?).
      - intros ?. by exists key. }
    destruct ok2; injection H as <- <-; [done|]. pose proof (refuses_inv _ _ _ _ _ Ht R4) as [I1 I2]. destruct Ht as [T1 T2 T3 T4 T5].
    assert (requests_ s2 !! c = Some q) as Hq2 by by rewrite T2.
    assert (requests_ (count_wait now c s2) = <[c := MkLockRequest c rid mode resources false true now]> (requests_ s2)) as Hcw.
    { unfold count_wait. simpl. apply map_eq. intros c1. destruct (decide (c1 = c)) as [->|Hn].
      - by rewrite lookup_alter_eq, lookup_insert_eq, Hq2.
      - by rewrite lookup_alter_ne, lookup_insert_ne. }
    split; [done|]. split.
    + split; [done|]. rewrite Hcw. by apply (wf_touch _ _ _ _ c q).
    + eexists. split; [|split; [|rewrite Hcw, T2, R3; by rewrite insert_insert_eq]]; done.
Qed.

(** ** [Release] *)

Lemma withdraw_resources now c q s order :
  inv order s → requests_ s !! c = Some q →
  let s1 := withdraw hash_int hash_string now c q s in
  requests_ s1 = requests_ s ∧ length (slots_ s1) = length (slots_ s) ∧
  ∀ r, resource_of s1 r = MkResourceState (if owner (resource_of s r) =? c then 0 else owner (resource_of s r))
                            (filter (λ y, y ≠ c) (waiters (resource_of s r))).
Proof using Type.
  intros [Hs Hwf] Hq. pose proof (wf_request _ _ _ _ Hwf _ _ Hq) as Hok. pose proof (ro_nodup _ _ Hok) as Hnd.
  assert (∀ r, lr_resources q = [] → resource_of s r = MkResourceState (if owner (resource_of s r) =? c then 0 else owner (resource_of s r))
                            (filter (λ y, y ≠ c) (waiters (resource_of s r)))) as Hnone.
  { intros r Hr. rewrite (not_owner _ _ _ _ _ _ Hwf Hq), (not_waiter _ _ _ _ _ _ Hwf Hq); [by destruct (resource_of s r)|right..];
      rewrite Hr; apply not_elem_of_nil. }
  unfold withdraw. set (s0 := set_gate _ _ s). destruct (lr_acquired q) eqn:Ha, (lr_mode q) eqn:Hm.
  - destruct (foldl_resource hash_int hash_string (release_resource hash_int hash_string c)
      (λ x, if owner x =? c then MkResourceState 0 (waiters x) else x) (lr_resources q) s0) as [[L1 L2 L3 L4] L5]; [done..|].
    set (s1 := foldl _ _ _) in *.
    assert (∀ r, resource_of s1 r = MkResourceState (if owner (resource_of s r) =? c then 0 else owner (resource_of s r))
              (filter (λ y, y ≠ c) (waiters (resource_of s r)))) as Hr.
    { intros r. rewrite L5, (not_waiter _ _ _ _ _ _ Hwf Hq) by auto. change (resource_of s0 r) with (resource_of s r).
      case_goal as Hin; [|rewrite (not_owner _ _ _ _ _ _ Hwf Hq) by auto; by destruct (resource_of s r)].
      destruct (owner (resource_of s r) =? c); [done|]. by destruct (resource_of s r). }
    destruct (0 <? _); (split; [exact L3|]; split; [exact L1|exact Hr]).
  - split; [by destruct (_ =? c)|]. split; [by destruct (_ =? c)|]. intros r. rewrite <- (Hnone r) by by apply Hok.
    by destruct (_ =? c).
  - set (s00 := set_stats _ s0). destruct (foldl_resource hash_int hash_string (forget_resource hash_int hash_string c)
      (λ x, MkResourceState (owner x) (RemoveWaiterLocked c (waiters x))) (lr_resources q) s00) as [[L1 L2 L3 L4] L5]; [done..|].
    split; [exact L3|]. split; [exact L1|]. intros r. rewrite L5, (not_owner _ _ _ _ _ _ Hwf Hq) by auto.
    change (resource_of s00 r) with (resource_of s r). case_goal as Hin.
    + rewrite remove_waiter by (by eapply queue_nodup). done.
    + rewrite (not_waiter _ _ _ _ _ _ Hwf Hq) by auto. by destruct (resource_of s r).
  - split; [done|]. split; [done|]. intros r. rewrite <- (Hnone r) by by apply Hok. done.
Qed.

Lemma withdraw_gates now c q s order :
  inv order s → requests_ s !! c = Some q →
  ∀ rid, gate_of (withdraw hash_int hash_string now c q s) rid =
    MkGate (if exclusiveOwner (gate_of s rid) =? c then 0 else exclusiveOwner (gate_of s rid))
      (N.of_nat (size (key_holders (delete c (requests_ s)) rid))) (filter (λ y, y ≠ c) (exclusiveWaiters (gate_of s rid))).
Proof using Type.
  intros [Hs Hwf] Hq rid. rewrite (active_without _ _ _ _ _ _ Hwf Hq).
  pose proof (not_gate _ _ _ _ _ _ Hwf Hq rid) as Hng. pose proof (not_closing _ _ _ _ _ _ Hwf Hq rid) as Hnc.
  unfold withdraw. set (s0 := set_gate _ _ s).
  assert (gate_of s0 rid = gate_of s rid) as Hs0 by apply gate_kept.
  destruct (lr_acquired q) eqn:Ha, (lr_mode q) eqn:Hm.
  - rewrite Hng, Hnc by (intros (? & ? & ?); congruence) || auto.
    destruct (foldl_resource hash_int hash_string (release_resource hash_int hash_string c)
      (λ x, if owner x =? c then MkResourceState 0 (waiters x) else x) (lr_resources q) s0) as [[L1 L2 L3 L4] _]; [done|by eapply wf_request|done|].
    set (s1 := foldl _ _ _) in *. destruct (0 <? _) eqn:Hpos.
    + etrans; [apply gate_of_set|]. rewrite (gates_eq _ _ _ L2), Hs0. destruct (decide (rid = lr_regionId q)) as [->|Hne].
      * by rewrite decide_True by done.
      * rewrite decide_False by (intros (_ & _ & ?); simpl in *; congruence). by destruct (gate_of s rid).
    + etrans; [apply (gates_eq _ _ _ L2)|]. rewrite Hs0. case_goal as Hk; [|by destruct (gate_of s rid)].
      destruct Hk as (_ & _ & <-). simpl in *. apply N.ltb_ge in Hpos. destruct (gate_of s (lr_regionId q)) as [x y z] eqn:Hgt. simpl in *.
      f_equal. lia.
  - rewrite Hnc by auto. rewrite decide_False by (intros (_ & ? & _); simpl in *; congruence).
    pose proof (wf_gated _ _ _ _ Hwf _ _ Hq Ha Hm) as Hown. rewrite Hown, N.eqb_refl.
    etrans; [apply gate_of_set|]. destruct (decide (rid = lr_regionId q)) as [->|Hne].
    + by rewrite Hown, N.eqb_refl.
    + rewrite Hs0, Hng by (intros (_ & _ & ?); congruence). by destruct (gate_of s rid).
  - rewrite Hng by (intros (? & _ & _); congruence). rewrite Hnc by (right; intros [? _]; congruence).
    rewrite decide_False by (intros (? & _ & _); simpl in *; congruence).
    set (s00 := set_stats _ s0). destruct (foldl_resource hash_int hash_string (forget_resource hash_int hash_string c)
      (λ x, MkResourceState (owner x) (RemoveWaiterLocked c (waiters x))) (lr_resources q) s00) as [[L1 L2 L3 L4] _]; [done|by eapply wf_request|done|].
    etrans; [apply (gates_eq _ _ _ L2)|]. etrans; [exact Hs0|]. by destruct (gate_of s rid).
  - rewrite Hng by (intros (? & _ & _); congruence).
    rewrite decide_False by (intros (? & _ & _); simpl in *; congruence).
    etrans; [apply gate_of_set|]. destruct (decide (rid = lr_regionId q)) as [->|Hne].
    + rewrite remove_waiter by (by eapply closing_nodup). done.
    + rewrite Hnc by (right; intros [_ ?]; congruence). etrans; [exact Hs0|]. by destruct (gate_of s rid).
Qed.

Lemma erase_unused_same s r :
  slots_only s (erase_unused hash_int hash_string s r) ∧
  ∀ r', resource_of (erase_unused hash_int hash_string s r) r' = resource_of s r'.
Proof using Type.
  unfold erase_unused. destruct (_ && _) eqn:Hg; [|by split].
  split; [split; [apply length_alter|done..]|]. intros r'. rewrite resource_of_erase. case_goal as Hr; [|done]. subst r'.
  apply andb_prop in Hg as [H1%N.eqb_eq H2]. destruct (resource_of s r) as [x [|? ?]]; simpl in *; [by subst|done].
Qed.

Lemma cleanup_same q s :
  let s1 := CleanupResourcesLocked hash_int hash_string q s in
  requests_ s1 = requests_ s ∧ length (slots_ s1) = length (slots_ s) ∧
  (∀ r, resource_of s1 r = resource_of s r) ∧ (∀ rid, gate_of s1 rid = gate_of s rid).
Proof using Type.
  unfold CleanupResourcesLocked. assert (∀ rs s, slots_only s (foldl (erase_unused hash_int hash_string) s rs) ∧
    ∀ r, resource_of (foldl (erase_unused hash_int hash_string) s rs) r = resource_of s r) as Hf.
  { clear. induction rs as [|r rs IH]; intros s; simpl; [by split|]. destruct (erase_unused_same s r) as [H1 H2].
    destruct (IH (erase_unused hash_int hash_string s r)) as [H3 H4]. split; [by eapply slots_only_trans|].
    intros r'. by rewrite H4, H2. }
  destruct (Hf (lr_resources q) s) as [[L1 L2 L3 L4] L5]. set (s0 := foldl _ _ _) in *.
  assert (∀ rid, gate_of s0 rid = gate_of s rid) as Hg0 by (intros; by apply gates_eq).
  destruct (_ && _) eqn:Hg; [|done]. split; [done|]. split; [done|]. split; [done|].
  intros rid. rewrite <- Hg0. unfold gate_of. simpl. destruct (decide (rid = lr_regionId q)) as [->|Hne]; [|by rewrite lookup_delete_ne].
  rewrite lookup_delete_eq. simpl. apply andb_prop in Hg as [[H1%N.eqb_eq H2%N.eqb_eq]%andb_prop H3].
  fold (gate_of s0 (lr_regionId q)). destruct (gate_of s0 (lr_regionId q)) as [x y [|? ?]]; simpl in *; [by subst|done].
Qed.

(** The state in which [Release] looks for commands that became ready. *)
Definition released now c q s : t :=
  let s1 := withdraw hash_int hash_string now c q s in
  CleanupResourcesLocked hash_int hash_string q (set_requests (delete c (requests_ s1)) s1).

Lemma released_inv now c q s order :
  inv order s → requests_ s !! c = Some q →
  inv (filter (λ y, y ≠ c) order) (released now c q s) ∧ requests_ (released now c q s) = delete c (requests_ s).
Proof using Type.
  intros Hinv Hq. destruct (withdraw_resources now c q s order Hinv Hq) as (W1 & W2 & W3).
  pose proof (withdraw_gates now c q s order Hinv Hq) as W4. destruct Hinv as [Hs Hwf].
  unfold released. set (s1 := withdraw _ _ _ _ _ _) in *.
  destruct (cleanup_same q (set_requests (delete c (requests_ s1)) s1)) as (C1 & C2 & C3 & C4). simpl in *.
  split; [|by rewrite C1, W1]. split; [intros Hz; rewrite Hz in C2; simpl in C2; by destruct (slots_ s), (slots_ s1)|].
  rewrite C1. rewrite W1 at 1. apply (withdraw_wf _ (resource_of s) (gate_of s) order c q); [done|done| |].
  - intros r. rewrite C3. apply W3.
  - intros rid. rewrite C4. apply W4.
Qed.

Lemma Release_unfold now c q s :
  requests_ s !! c = Some q → Release now c s = GrantReadyLocked now (released now c q s).
Proof using Type. intros Hq. unfold NodeLatchManager.Release. by rewrite Hq. Qed.

(** ** The loop of [GrantReadyLocked] *)

(** Requests only go from waiting to holding. *)
Record advanced (R R' : gmap N LockRequest) : Prop := MkAdvanced {
  ad_forth : ∀ c q, R !! c = Some q → ∃ q', R' !! c = Some q' ∧ same_request q q' ∧ (lr_acquired q = true → lr_acquired q' = true);
  ad_back : ∀ c q', R' !! c = Some q' → ∃ q, R !! c = Some q ∧ same_request q q' ∧ (lr_acquired q = true → lr_acquired q' = true)
}.

Lemma same_request_refl q : same_request q q.
Proof using Type. done. Qed.

Lemma same_request_trans q1 q2 q3 : same_request q1 q2 → same_request q2 q3 → same_request q1 q3.
Proof using Type. intros [] []. split; congruence. Qed.

Lemma advanced_refl R : advanced R R.
Proof using Type. split; intros c q Hq; exists q; by split_and!. Qed.

Lemma advanced_trans R1 R2 R3 : advanced R1 R2 → advanced R2 R3 → advanced R1 R3.
Proof using Type.
  intros [F1 B1] [F2 B2]. split.
  - intros c q (q2 & H2 & S2 & A2)%F1. destruct (F2 _ _ H2) as (q3 & H3 & S3 & A3). exists q3. split; [done|].
    split; [by eapply same_request_trans|auto].
  - intros c q (q2 & H2 & S2 & A2)%B2. destruct (B1 _ _ H2) as (q3 & H3 & S3 & A3). exists q3. split; [done|].
    split; [by eapply same_request_trans|auto].
Qed.

Lemma grants_advanced s c q s' :
  requests_ s !! c = Some q → lr_acquired q = false → grants s c q s' → advanced (requests_ s) (requests_ s').
Proof using Type.
  intros Hq Ha [_ (q' & S1 & S2 & ->) _]. split.
  - intros c1 q1 H1. destruct (decide (c1 = c)) as [->|Hne].
    + exists q'. rewrite lookup_insert_eq. simplify_eq. done.
    + exists q1. by rewrite lookup_insert_ne.
  - intros c1 q1 [[<- <-]|[_ H1]]%lookup_insert_Some; [by exists q|]. by exists q1.
Qed.

(** One turn of the loop. *)
Lemma grant_ready_step now s ready c order :
  inv order s →
  let '(s', ready') := grant_ready now (s, ready) c in
  (∃ q, requests_ s !! c = Some q ∧ lr_acquired q = false ∧ grants s c q s' ∧ ready' = ready ++ [c]) ∨
  (∃ q, requests_ s !! c = Some q ∧ lr_acquired q = false ∧ refuses s c q s' ∧ ready' = ready) ∨
  (s' = s ∧ ¬ waiting (requests_ s) c).
Proof using Type.
  intros Hinv. unfold NodeLatchManager.grant_ready. cbn [fst snd]. destruct (requests_ s !! c) as [q|] eqn:Hq.
  2: { right; right. split; [done|]. intros (q & ? & _). congruence. }
  destruct (lr_acquired q) eqn:Ha.
  - unfold NodeLatchManager.TryGrantLocked. rewrite Ha. right; right. split; [done|]. intros (q1 & ? & ?). congruence.
  - pose proof (TryGrant_spec now c q s order Hinv Hq Ha) as Ht. destruct (TryGrantLocked now q s) as [s' []].
    + left. by exists q.
    + right; left. by exists q.
Qed.

Lemma loop_inv now l s ready order :
  inv order s →
  let s' := (foldl (grant_ready now) (s, ready) l).1 in
  (∃ order', inv order' s') ∧ advanced (requests_ s) (requests_ s').
Proof using Type.
  revert s ready order. induction l as [|c l IH]; intros s ready order Hinv; cbn [foldl].
  { split; [by exists order|apply advanced_refl]. }
  pose proof (grant_ready_step now s ready c order Hinv) as Hst.
  destruct (grant_ready now (s, ready) c) as [s1 ready1].
  destruct Hst as [(q & Hq & Ha & Hg & _)|[(q & Hq & Ha & Hr & _)|[-> _]]].
  - destruct (IH s1 ready1 _ (gr_inv _ _ _ _ Hg _ Hinv)) as [H1 H2]. split; [done|].
    eapply advanced_trans; [by eapply grants_advanced|done].
  - destruct (IH s1 ready1 order (refuses_inv _ _ _ _ _ Hr Hinv)) as [H1 H2]. by rewrite (rf_requests _ _ _ _ Hr) in H2.
  - by eapply IH.
Qed.

(** *** A Region without a holder *)

Definition in_region (R : gmap N LockRequest) (rid : Z) c : bool :=
  match R !! c with Some q => bool_decide (lr_regionId q = rid) | None => false end.

Definition idle_region (R : gmap N LockRequest) (rid : Z) : Prop :=
  ∀ c q, R !! c = Some q → lr_regionId q = rid → lr_acquired q = false.

Lemma idle_back R R' rid : advanced R R' → idle_region R' rid → idle_region R rid.
Proof using Type.
  intros [F _] Hi c q Hq Hr. destruct (F c q Hq) as (q' & Hq' & S & A). destruct (lr_acquired q) eqn:E; [|done].
  rewrite <- (A eq_refl). apply (Hi c); [done|]. destruct S. congruence.
Qed.

(** The waiting command of a Region whose turn it is. *)
Definition next_in (R : gmap N LockRequest) order (rid : Z) w : Prop :=
  ∃ q l, R !! w = Some q ∧ lr_regionId q = rid ∧ lr_acquired q = false ∧
  match lr_mode q with
  | RegionExclusive => filter (closes R rid) order = w :: l
  | Keys => filter (closes R rid) order = [] ∧ filter (in_region R rid) order = w :: l
  end.

Lemma next_granted s order rid w q :
  inv order s → idle_region (requests_ s) rid → next_in (requests_ s) order rid w → requests_ s !! w = Some q →
  grant_cond s w q.
Proof using Type.
  intros [Hs Hwf] Hidle (q' & l & Hq' & Hr & Ha & Hm) Hq. rewrite Hq in Hq'. injection Hq' as <-. unfold grant_cond. rewrite Hr.
  split.
  { destruct (decide (exclusiveOwner (gate_of s rid) = 0)) as [|Hn]; [done|].
    destruct (wf_gate _ _ _ _ Hwf rid Hn) as (q1 & H1 & H2 & _ & H4). rewrite (Hidle _ _ H1 H4) in H2. done. }
  destruct (lr_mode q) eqn:E.
  - destruct Hm as [Hc Hf]. split; [intros e l'; by rewrite (wf_closing _ _ _ _ Hwf), Hc|].
    intros r Hrq. split.
    + destruct (decide (owner (resource_of s r) = 0)) as [|Hn]; [done|].
      destruct (wf_owner _ _ _ _ Hwf r Hn) as (q1 & H1 & H2 & H3). exfalso.
      pose proof (ro_region _ _ (wf_request _ _ _ _ Hwf _ _ H1) _ H3).
      pose proof (ro_region _ _ (wf_request _ _ _ _ Hwf _ _ Hq) _ Hrq). rewrite (Hidle _ _ H1) in H2; congruence.
    + rewrite (wf_queue _ _ _ _ Hwf).
      rewrite <- (list_filter_filter_l (wants (requests_ s) r) (in_region (requests_ s) rid) order).
      * rewrite Hf, filter_cons_True by (unfold wants; rewrite Hq; by apply bool_decide_pack). eauto.
      * intros x. unfold wants, in_region. destruct (requests_ s !! x) as [q1|] eqn:Hx; [|done].
        intros Hw%bool_decide_unpack. apply bool_decide_pack.
        pose proof (ro_region _ _ (wf_request _ _ _ _ Hwf _ _ Hx) _ Hw).
        pose proof (ro_region _ _ (wf_request _ _ _ _ Hwf _ _ Hq) _ Hrq). congruence.
  - split; [|rewrite (wf_closing _ _ _ _ Hwf); eauto].
    rewrite (wf_active _ _ _ _ Hwf), (proj2 (no_key_holder _ _)); [done|].
    intros c1 q1 H1 (K1 & _ & K3). simpl in *. by rewrite (Hidle _ _ H1 K3) in K1.
Qed.

Lemma next_exists R res gate order rid c q :
  wf R res gate order → R !! c = Some q → lr_acquired q = false → lr_regionId q = rid → ∃ w, w ∈ order ∧ next_in R order rid w.
Proof using Type.
  intros Hwf Hq Ha Hr. destruct (filter (closes R rid) order) as [|w l] eqn:Hc.
  - destruct (filter (in_region R rid) order) as [|w l] eqn:Hf.
    { assert (c ∈ filter (in_region R rid) order) as Hin.
      { apply list_elem_of_filter. split; [unfold in_region; rewrite Hq; by apply bool_decide_pack|].
        apply Hwf. by exists q. }
      rewrite Hf in Hin. by apply not_elem_of_nil in Hin. }
    assert (w ∈ filter (in_region R rid) order) as Hw by (rewrite Hf; left).
    apply list_elem_of_filter in Hw as [Hw1 Hw2]. pose proof Hw2 as (q1 & Hq1 & Ha1)%(wf_order _ _ _ _ Hwf).
    exists w. split; [done|]. exists q1, l. unfold in_region in Hw1. rewrite Hq1 in Hw1. apply bool_decide_unpack in Hw1.
    split; [done|]. split; [done|]. split; [done|]. destruct (lr_mode q1) eqn:Hm; [done|].
    assert (w ∈ filter (closes R rid) order) as Hcl.
    { apply list_elem_of_filter. split; [|done]. unfold closes. rewrite Hq1, Hm. by rewrite !bool_decide_true. }
    rewrite Hc in Hcl. by apply not_elem_of_nil in Hcl.
  - assert (w ∈ filter (closes R rid) order) as Hw by (rewrite Hc; left).
    apply list_elem_of_filter in Hw as [Hw1 Hw2]. pose proof Hw2 as (q1 & Hq1 & Ha1)%(wf_order _ _ _ _ Hwf).
    exists w. split; [done|]. exists q1, l. unfold closes in Hw1. rewrite Hq1 in Hw1.
    apply andb_prop_elim in Hw1 as [Hm%bool_decide_unpack Hr1%bool_decide_unpack]. by rewrite Hm.
Qed.

(** Granting in another Region does not change whose turn it is. *)
Lemma next_kept R order rid w c q q' :
  R !! c = Some q → same_request q q' → lr_regionId q ≠ rid → next_in R order rid w →
  next_in (<[c := q']> R) (filter (λ y, y ≠ c) order) rid w.
Proof using Type.
  intros Hq Hs Hr (qw & l & Hqw & Hrw & Haw & Hm). assert (w ≠ c) as Hne by (intros ->; congruence).
  exists qw, l. rewrite lookup_insert_ne by done. split; [done|]. split; [done|]. split; [done|].
  assert (filter (closes (<[c := q']> R) rid) (filter (λ y, y ≠ c) order) = filter (closes R rid) order) as Hc.
  { rewrite (filter_ext_elem _ (closes R rid)) by (intros x _; by apply (closes_update R c q)).
    apply filter_remove. unfold closes. rewrite Hq. rewrite (bool_decide_false (lr_regionId q = rid)) by done. apply andb_false_r. }
  assert (filter (in_region (<[c := q']> R) rid) (filter (λ y, y ≠ c) order) = filter (in_region R rid) order) as Hi.
  { rewrite (filter_ext_elem _ (in_region R rid)).
    - apply filter_remove. unfold in_region. rewrite Hq. by apply bool_decide_false.
    - intros x [Hx _]%list_elem_of_filter. unfold in_region. by rewrite lookup_insert_ne. }
  rewrite Hc, Hi. done.
Qed.

Lemma holds_not_idle R R' c q rid :
  advanced R R' → R !! c = Some q → lr_acquired q = true → lr_regionId q = rid → ¬ idle_region R' rid.
Proof using Type.
  intros Had Hq Ha Hr Hi. by rewrite (idle_back R R' rid Had Hi c q Hq Hr) in Ha.
Qed.

Lemma loop_progress now l s ready order rid w :
  inv order s → w ∈ l → next_in (requests_ s) order rid w →
  ¬ idle_region (requests_ (foldl (grant_ready now) (s, ready) l).1) rid.
Proof using Type.
  revert s ready order. induction l as [|c l IH]; intros s ready order Hinv Hin Hnext; [by apply not_elem_of_nil in Hin|].
  cbn [foldl]. pose proof (grant_ready_step now s ready c order Hinv) as Hst.
  destruct (loop_inv now (c :: l) s ready order Hinv) as [_ Hall]. cbn [foldl] in Hall.
  destruct (grant_ready now (s, ready) c) as [s1 ready1]. intros Hidle.
  pose proof (idle_back _ _ _ Hall Hidle) as Hidle0.
  destruct Hst as [(q & Hq & Ha & Hg & _)|[(q & Hq & Ha & Hr & _)|[-> Hnw]]].
  - pose proof (gr_inv _ _ _ _ Hg _ Hinv) as Hinv1. destruct (loop_inv now l s1 ready1 _ Hinv1) as [_ Hrest].
    destruct (gr_request _ _ _ _ Hg) as (q' & S1 & S2 & S3).
    destruct (decide (lr_regionId q = rid)) as [Hr|Hr].
    + apply (holds_not_idle _ _ c q' rid Hrest); [by rewrite S3, lookup_insert_eq|done|destruct S1; congruence|done].
    + apply elem_of_cons in Hin as [->|Hin].
      { destruct Hnext as (q1 & ? & H1 & H2 & _). congruence. }
      eapply IH; [done|done| |done]. rewrite S3. by eapply next_kept.
  - apply elem_of_cons in Hin as [->|Hin].
    + apply (rf_cond _ _ _ _ Hr). by eapply next_granted.
    + eapply IH; [by eapply refuses_inv|done| |done]. by rewrite (rf_requests _ _ _ _ Hr).
  - apply elem_of_cons in Hin as [->|Hin]; [|by eapply IH].
    apply Hnw. destruct Hnext as (q & _ & ? & _ & ? & _). by exists q.
Qed.

(** ** Runs *)

Inductive lstep : t → t → Prop :=
| LAcquire now c rid keys mode s s' ok : Acquire now c rid keys mode s = Ok (s', ok) → lstep s s'
| LRelease now c s : lstep s (Release now c s).1.

(** A waiting command shares its Region with a holder. *)
Definition live s : Prop :=
  ∀ c q, requests_ s !! c = Some q → lr_acquired q = false → ¬ idle_region (requests_ s) (lr_regionId q).

Lemma candidates_elem c s : c ∈ candidates s ↔ waiting (requests_ s) c.
Proof using Type.
  unfold candidates, waiting. rewrite merge_sort_Permutation, list_elem_of_fmap. split.
  - intros ([c1 q] & -> & [Ha Hin]%list_elem_of_filter). exists q. split; [by apply elem_of_map_to_list|done].
  - intros (q & Hq & Ha). exists (c, q). split; [done|]. apply list_elem_of_filter. split; [done|]. by apply elem_of_map_to_list.
Qed.

Lemma grant_all_live now s order : inv order s → live (GrantReadyLocked now s).1.
Proof using Type.
  intros Hinv c q' Hq' Ha. unfold NodeLatchManager.GrantReadyLocked in *.
  destruct (loop_inv now (candidates s) s [] order Hinv) as [_ [_ B]].
  destruct (B c q' Hq') as (q & Hq & S & A).
  destruct (next_exists _ _ _ order (lr_regionId q) c q (iv_wf _ _ Hinv) Hq) as (w & Hw & Hn); [|done|].
  { destruct (lr_acquired q); [|done]. rewrite A in Ha; done. }
  rewrite (sq_region _ _ S). eapply loop_progress; [done| |done].
  apply candidates_elem. by apply (wf_order _ _ _ _ (iv_wf _ _ Hinv)).
Qed.

Lemma lstep_inv s s' : lstep s s' → (∃ order, inv order s) → ∃ order, inv order s'.
Proof using Type.
  intros [now c rid keys mode s0 s1 ok H|now c s0] [order Hinv].
  - destruct (Acquire_spec _ _ _ _ _ _ _ _ _ Hinv H) as (q & s2 & Hr & _ & _ & _ & Hok). destruct ok.
    + eexists. apply Hok, Hr.
    + destruct Hok as (_ & ? & _). eauto.
  - destruct (requests_ s0 !! c) as [q|] eqn:Hq.
    + rewrite (Release_unfold _ _ _ _ Hq). unfold NodeLatchManager.GrantReadyLocked.
      destruct (released_inv now c q s0 order Hinv Hq) as [Hi _].
      by destruct (loop_inv now (candidates (released now c q s0)) (released now c q s0) [] _ Hi) as [? _].
    + unfold NodeLatchManager.Release. rewrite Hq. eauto.
Qed.

Lemma acquire_next R order c q :
  (∀ x, x ∈ order → in_region R (lr_regionId q) x = false) → R !! c = Some q → lr_acquired q = false →
  next_in R (order ++ [c]) (lr_regionId q) c.
Proof using Type.
  intros Hnone Hq Ha. exists q, []. split; [done|]. split; [done|]. split; [done|].
  assert (filter (in_region R (lr_regionId q)) order = []) as H1 by by apply filter_none.
  assert (filter (closes R (lr_regionId q)) order = []) as H2.
  { apply filter_none. intros x Hx. specialize (Hnone x Hx). unfold closes, in_region in *.
    destruct (R !! x); [|done]. rewrite Hnone. apply andb_false_r. }
  rewrite !filter_app, !filter_one, H1, H2. unfold closes, in_region. rewrite Hq.
  rewrite (bool_decide_true (lr_regionId q = lr_regionId q)) by done. by destruct (lr_mode q).
Qed.

(** [Acquire] leaves no Region waiting without a holder. *)
Lemma Acquire_live now order c rid keys mode s s' ok :
  inv order s → Acquire now c rid keys mode s = Ok (s', ok) → live s → live s'.
Proof using Type.
  intros Hinv H Hlive. destruct (Acquire_spec _ _ _ _ _ _ _ _ _ Hinv H) as (q & s1 & [R1 R2 R3 R4] & _ & _ & _ & Hok).
  assert (∃ q', requests_ s' = <[c := q']> (requests_ s) ∧ same_request q q' ∧ lr_acquired q' = ok) as (q' & E1 & E2 & E3).
  { destruct ok.
    - destruct Hok as [_ (q' & ? & ? & Hr) _]. exists q'. by rewrite Hr, R3, insert_insert_eq.
    - destruct Hok as (_ & _ & q' & ? & ? & ?). by exists q'. }
  assert (∀ rid, ¬ idle_region (requests_ s) rid → ¬ idle_region (requests_ s') rid) as Hmono.
  { intros rid' Hn Hi. apply Hn. intros c1 q1 H1 H2. apply (Hi c1); [|done]. rewrite E1, lookup_insert_ne; [done|].
    intros ->. congruence. }
  intros c1 q1 Hc1 Ha. rewrite E1 in Hc1. apply lookup_insert_Some in Hc1 as [[<- <-]|[Hne Hc1]]; [|by eauto].
  destruct ok; [congruence|]. rewrite (sq_region _ _ E2). destruct Hok as (Hng & _). intros Hidle.
  apply Hng. assert (requests_ s1 !! c = Some q) as Hq1 by (rewrite R3; apply lookup_insert_eq).
  assert (idle_region (requests_ s) (lr_regionId q)) as Hidle0.
  { intros c1 q1 H1 H2. apply (Hidle c1); [|done]. rewrite E1, lookup_insert_ne; [done|]. intros ->. congruence. }
  eapply next_granted; [done| | |done].
  - rewrite R3. intros c1 q1 [[<- <-]|[_ H1]]%lookup_insert_Some H2; [done|by eapply Hidle0].
  - apply acquire_next; [|done|done]. intros x Hx. apply (wf_order _ _ _ _ (iv_wf _ _ Hinv)) in Hx as (qx & Hqx & Hax).
    unfold in_region. rewrite R3, lookup_insert_ne by (intros ->; congruence). rewrite Hqx. apply bool_decide_false.
    intros Heq. apply (Hlive x qx); [done|done|by rewrite Heq].
Qed.

Lemma Release_live now order c s : inv order s → live s → live (Release now c s).1.
Proof using Type.
  intros Hinv Hl. destruct (requests_ s !! c) as [q|] eqn:Hq.
  - rewrite (Release_unfold _ _ _ _ Hq). destruct (released_inv now c q s order Hinv Hq) as [Hi _]. by eapply grant_all_live.
  - unfold NodeLatchManager.Release. by rewrite Hq.
Qed.

Definition sound s : Prop := (∃ order, inv order s) ∧ live s.

Lemma lstep_sound s s' : lstep s s' → sound s → sound s'.
Proof using Type.
  intros Hst [Hinv Hl]. split; [by eapply lstep_inv|]. destruct Hinv as [order Hinv].
  destruct Hst as [now c rid keys mode s0 s1 ok H|now c s0]; [by eapply Acquire_live|by eapply Release_live].
Qed.

Lemma create_sound n s : create n = Ok s → sound s.
Proof using Type.
  unfold create. case_bool_decide as Hn; [done|]. intros [= <-]. split; [|intros c q; simpl; by rewrite lookup_empty].
  exists []. split; [by destruct n|].
  assert (∀ r, resource_of (MkLatches (replicate n ∅) ∅ ∅ (MkStats 0 0 0 0 0 0)) r = no_resource) as Hr.
  { intros r. unfold NodeLatchManager.resource_of. simpl. destruct (replicate n ∅ !! _) as [m|] eqn:Hm; [|done].
    apply lookup_replicate in Hm as [-> _]. simpl. by rewrite lookup_empty. }
  split; simpl.
  - intros c q. by rewrite lookup_empty.
  - intros r. by rewrite Hr.
  - intros c q r. by rewrite lookup_empty.
  - constructor.
  - intros c. split; [by intros []%not_elem_of_nil|]. intros (q & Hq & _). by rewrite lookup_empty in Hq.
  - intros r. by rewrite Hr.
  - intros rid. unfold gate_of. simpl. by rewrite lookup_empty.
  - intros rid. unfold gate_of. simpl. by rewrite lookup_empty.
  - intros c q. by rewrite lookup_empty.
  - intros rid. unfold gate_of. simpl. by rewrite lookup_empty.
  - intros rid. unfold gate_of. simpl. by rewrite lookup_empty.
Qed.

Lemma run_sound n s0 s : create n = Ok s0 → rtc lstep s0 s → sound s.
Proof using Type. intros H0 Hr. apply create_sound in H0. induction Hr; eauto using lstep_sound. Qed.

(** ** Mutual exclusion *)

Lemma holders_apart s c1 c2 q1 q2 :
  sound s → c1 ≠ c2 → requests_ s !! c1 = Some q1 → requests_ s !! c2 = Some q2 →
  lr_acquired q1 = true → lr_acquired q2 = true → lr_regionId q1 = lr_regionId q2 →
  lr_mode q1 = Keys ∧ lr_mode q2 = Keys ∧ ∀ r, r ∈ lr_resources q1 → r ∉ lr_resources q2.
Proof using Type.
  intros [[order [_ Hwf]] _] Hne H1 H2 A1 A2 Hr.
  assert (∀ c q c' q', c ≠ c' → requests_ s !! c = Some q → requests_ s !! c' = Some q' → lr_acquired q = true →
            lr_acquired q' = true → lr_regionId q = lr_regionId q' → lr_mode q = Keys) as Hkeys.
  { clear - Hwf. intros c q c' q' Hne H H' A A' Hr. destruct (lr_mode q) eqn:Hm; [done|exfalso].
    pose proof (wf_gated _ _ _ _ Hwf _ _ H A Hm) as Ho. pose proof (ro_pos _ _ (wf_request _ _ _ _ Hwf _ _ H)).
    destruct (lr_mode q') eqn:Hm'.
    - pose proof (wf_apart _ _ _ _ Hwf (lr_regionId q)) as Hap. rewrite Ho, (wf_active _ _ _ _ Hwf) in Hap.
      specialize (Hap ltac:(done)). assert (size (key_holders (requests_ s) (lr_regionId q)) = 0%nat) as Hz by lia.
      by apply (proj1 (no_key_holder _ _) Hz c' q').
    - pose proof (wf_gated _ _ _ _ Hwf _ _ H' A' Hm'). congruence. }
  split; [by eapply (Hkeys c1 q1 c2 q2)|]. split; [by eapply (Hkeys c2 q2 c1 q1)|].
  intros r R1 R2. apply Hne. by rewrite <- (wf_owned _ _ _ _ Hwf _ _ _ H1 A1 R1), <- (wf_owned _ _ _ _ Hwf _ _ _ H2 A2 R2).
Qed.

(** [C28] Latches exclude each other: at any point of any run of the manager, two
    different commands that hold latches of one Region both hold key latches, and
    they have no key in common. *)
Theorem latches_exclude n s0 s c1 c2 q1 q2 :
  create n = Ok s0 → rtc lstep s0 s → c1 ≠ c2 → requests_ s !! c1 = Some q1 → requests_ s !! c2 = Some q2 →
  Holds c1 s = true → Holds c2 s = true → lr_regionId q1 = lr_regionId q2 →
  lr_mode q1 = Keys ∧ lr_mode q2 = Keys ∧ ∀ r, r ∈ lr_resources q1 → r ∉ lr_resources q2.
Proof using Type.
  intros H0 Hrun Hne H1 H2. unfold Holds. rewrite H1, H2. intros A1 A2.
  apply (holders_apart s c1 c2); [by eapply run_sound|done..].
Qed.

(** ** Waiting ends *)

(** However the holders of the Region of [c] let go, one after another, [c] gets
    its latches. *)
Inductive inevitable (c : N) s : Prop :=
| InevNow : Holds c s = true → inevitable c s
| InevLater q h :
    requests_ s !! c = Some q → in_region (requests_ s) (lr_regionId q) h = true → Holds h s = true →
    (∀ now h, in_region (requests_ s) (lr_regionId q) h = true → Holds h s = true →
              inevitable c (Release now h s).1) → inevitable c s.

(** The commands of [R'] are those of [R] but for [h]. *)
Lemma Release_requests now order h q s :
  inv order s → requests_ s !! h = Some q → advanced (delete h (requests_ s)) (requests_ (Release now h s).1).
Proof using Type.
  intros Hinv Hq. rewrite (Release_unfold _ _ _ _ Hq). destruct (released_inv now h q s order Hinv Hq) as [Hi <-].
  unfold NodeLatchManager.GrantReadyLocked. by destruct (loop_inv now (candidates (released now h q s)) _ [] _ Hi) as [_ ?].
Qed.

Lemma advanced_dom R R' : advanced R R' → dom R' = dom R.
Proof using Type.
  intros [F B]. apply set_eq. intros c. rewrite !elem_of_dom. split; intros [q Hq].
  - destruct (B c q Hq) as (? & ? & _). eauto.
  - destruct (F c q Hq) as (? & ? & _). eauto.
Qed.

Lemma not_idle_holder R rid : ¬ idle_region R rid → ∃ h q, R !! h = Some q ∧ lr_regionId q = rid ∧ lr_acquired q = true.
Proof using Type.
  intros Hn. set (P := λ p : N * LockRequest, lr_regionId p.2 = rid ∧ lr_acquired p.2 = true).
  destruct (decide (filter P R = ∅)) as [He|Hne].
  - exfalso. apply Hn. intros h q Hq Hr. destruct (lr_acquired q) eqn:Ha; [|done].
    assert (filter P R !! h = Some q) as Hf by (by apply map_lookup_filter_Some). by rewrite He in Hf.
  - apply map_choose in Hne as (h & q & [Hq [? ?]]%map_lookup_filter_Some). by exists h, q.
Qed.

(** [C18] Waiting ends: a command that has registered gets its latches if the
    commands that hold latches of its Region let go one after another, in whatever
    order and at whatever times they do. *)
Theorem waiting_ends n s0 s c :
  create n = Ok s0 → rtc lstep s0 s → is_Some (requests_ s !! c) → inevitable c s.
Proof using Type.
  intros H0 Hrun. pose proof (run_sound _ _ _ H0 Hrun) as Hs. clear H0 Hrun.
  remember (size (requests_ s)) as k eqn:Hk. revert s Hs Hk. induction k as [k IH] using lt_wf_ind.
  intros s [[order Hinv] Hl] -> [q Hq]. destruct (lr_acquired q) eqn:Ha.
  { apply InevNow. unfold Holds. by rewrite Hq. }
  destruct (not_idle_holder _ _ (Hl c q Hq Ha)) as (h & qh & Hh & Hr & Hah).
  apply (InevLater c s q h); [done|unfold in_region; rewrite Hh; by apply bool_decide_true|unfold Holds; by rewrite Hh|].
  clear h qh Hh Hr Hah. intros now h _ Hh. unfold Holds in Hh. destruct (requests_ s !! h) as [qh|] eqn:Hqh; [|done].
  pose proof (Release_requests now order h qh s Hinv Hqh) as Hadv. eapply IH; [| |done|].
  - rewrite <- !size_dom, (advanced_dom _ _ Hadv), !size_dom, map_size_delete, Hqh.
    assert (size (requests_ s) ≠ 0%nat); [|lia]. rewrite map_size_ne_0_lookup. by exists h.
  - eapply (lstep_sound s); [constructor|]. split; [by exists order|done].
  - destruct (ad_forth _ _ Hadv c q) as (q' & ? & _); [|by exists q']. rewrite lookup_delete_ne; [done|]. intros ->. congruence.
Qed.

(** ** Wake-ups *)

(** What the loop has reported so far. *)
Definition reported (R R' : gmap N LockRequest) (ready : list N) : Prop :=
  NoDup ready ∧ ∀ w, w ∈ ready ↔ waiting R w ∧ holding R' w.

Lemma reported_step s c q s' R ready :
  requests_ s !! c = Some q → lr_acquired q = false → grants s c q s' → advanced R (requests_ s) →
  reported R (requests_ s) ready → reported R (requests_ s') (ready ++ [c]).
Proof using Type.
  intros Hq Ha [_ (q' & S1 & S2 & E) _] [_ B] [Hnd Hr]. assert (c ∉ ready) as Hni.
  { intros Hin. apply Hr in Hin as [_ (q1 & H1 & H2)]. congruence. }
  assert (waiting R c) as Hw.
  { destruct (B c q Hq) as (q0 & H0 & _ & A0). exists q0. split; [done|]. destruct (lr_acquired q0); [|done].
    rewrite A0 in Ha; done. }
  split; [apply NoDup_app; split; [done|]; split; [by intros x Hx ->%list_elem_of_singleton|apply NoDup_singleton]|].
  intros w. rewrite elem_of_app, list_elem_of_singleton, Hr, E. unfold holding. split.
  - intros [[H1 (q1 & H2 & H3)]| ->].
    + split; [done|]. exists q1. rewrite lookup_insert_ne; [done|]. intros ->. congruence.
    + split; [done|]. exists q'. by rewrite lookup_insert_eq.
  - intros [H1 (q1 & [[-> <-]|[_ H2]]%lookup_insert_Some & H3)]; [by right|]. left. split; [done|]. by exists q1.
Qed.

Lemma loop_reported now l R s ready order :
  inv order s → advanced R (requests_ s) → reported R (requests_ s) ready → NoDup l →
  (∀ w, w ∈ l → waiting (requests_ s) w) →
  let '(s', ready') := foldl (grant_ready now) (s, ready) l in reported R (requests_ s') ready'.
Proof using Type.
  revert s ready order. induction l as [|c l IH]; intros s ready order Hinv Hadv Hrep Hnd Hl; cbn [foldl]; [done|].
  apply NoDup_cons in Hnd as [Hni Hnd]. pose proof (grant_ready_step now s ready c order Hinv) as Hst.
  destruct (grant_ready now (s, ready) c) as [s1 ready1] eqn:Hg.
  destruct Hst as [(q & Hq & Ha & Hgr & ->)|[(q & Hq & Ha & Hr & ->)|[_ Hnw]]]; [..|by destruct Hnw; apply Hl; left].
  - eapply IH; [by apply (gr_inv _ _ _ _ Hgr order)|eapply advanced_trans; [done|by eapply grants_advanced]|
      by eapply reported_step|done|].
    intros w Hw. destruct (Hl w) as (qw & ? & ?); [by right|]. destruct (gr_request _ _ _ _ Hgr) as (q' & _ & _ & ->).
    exists qw. rewrite lookup_insert_ne; [done|]. by intros <-.
  - eapply IH; rewrite ?(rf_requests _ _ _ _ Hr); [by eapply refuses_inv|done|done|done|].
    intros w Hw. apply Hl. by right.
Qed.

Lemma candidates_nodup s : NoDup (candidates s).
Proof using Type.
  unfold candidates. rewrite merge_sort_Permutation. pose proof (NoDup_fst_map_to_list (requests_ s)) as Hnd. revert Hnd.
  generalize (map_to_list (requests_ s)). intros l. induction l as [|p l IH]; [done|]. intros [Hni Hnd]%NoDup_cons.
  rewrite filter_cons. case_goal; [|auto]. apply NoDup_cons. split; [|auto].
  intros (p' & Hp & [_ Hin]%list_elem_of_filter)%list_elem_of_fmap. apply Hni. rewrite Hp. apply list_elem_of_fmap. eauto.
Qed.

Lemma Release_ready now c s s' ready :
  sound s → Release now c s = (s', ready) →
  NoDup ready ∧ ∀ w, w ∈ ready ↔ w ≠ c ∧ waiting (requests_ s) w ∧ Holds w s' = true.
Proof using Type.
  intros [[order Hinv] _] Hrel.
  assert (∀ w, Holds w s' = true ↔ holding (requests_ s') w) as Hh.
  { intros w. unfold Holds, holding. destruct (requests_ s' !! w) as [q|]; [|by split; [|intros (? & ? & _)]].
    split; [intros; by exists q|]. by intros (? & [= <-] & ?). }
  destruct (requests_ s !! c) as [q|] eqn:Hq.
  - rewrite (Release_unfold _ _ _ _ Hq) in Hrel. destruct (released_inv now c q s order Hinv Hq) as [Hi Hreq].
    unfold NodeLatchManager.GrantReadyLocked in Hrel.
    pose proof (loop_reported now (candidates (released now c q s)) (requests_ (released now c q s)) _ [] _ Hi (advanced_refl _)) as Hl.
    rewrite Hrel in Hl. destruct Hl as [Hnd Hr].
    { split; [constructor|]. intros w. split; [by intros []%not_elem_of_nil|]. intros [(q1 & ? & ?) (q2 & ? & ?)]. congruence. }
    { apply candidates_nodup. }
    { intros w. apply candidates_elem. }
    split; [done|]. intros w. rewrite Hr, Hh, Hreq. unfold waiting. split.
    + intros [(q1 & [? ?]%lookup_delete_Some & ?) ?]. split; [done|]. split; [by exists q1|done].
    + intros (Hne & (q1 & ? & ?) & ?). split; [|done]. exists q1. by rewrite lookup_delete_ne.
  - unfold NodeLatchManager.Release in Hrel. rewrite Hq in Hrel. injection Hrel as <- <-. split; [constructor|].
    intros w. split; [by intros []%not_elem_of_nil|]. intros (_ & (q1 & ? & ?) & (q2 & ? & ?)%Hh). congruence.
Qed.

(** No wake-up is lost or made twice: [Release] reports, each once, exactly
    the commands that waited before it and hold their latches after it. *)
Theorem Release_reports n s0 s now c s' ready :
  create n = Ok s0 → rtc lstep s0 s → Release now c s = (s', ready) →
  NoDup ready ∧ ∀ w, w ∈ ready ↔ w ≠ c ∧ waiting (requests_ s) w ∧ Holds w s' = true.
Proof using Type. intros H0 Hrun. apply Release_ready. by eapply run_sound. Qed.

(** ** For the scheduler *)

Lemma Acquire_registered now c rid keys mode s s' ok :
  sound s → Acquire now c rid keys mode s = Ok (s', ok) →
  ∃ q, requests_ s' = <[c := q]> (requests_ s) ∧ requests_ s !! c = None ∧ lr_mode q = mode ∧ lr_regionId q = rid ∧
    lr_acquired q = ok ∧ (mode = Keys → ∀ key, MkResource rid key ∈ lr_resources q ↔ key ∈ keys).
Proof using Type.
  intros [[order Hinv] _] H. destruct (Acquire_spec _ _ _ _ _ _ _ _ _ Hinv H) as (q & s1 & [R1 _ R3 _] & Hm & Hr & Hk & Hok).
  assert (∃ q', requests_ s' = <[c := q']> (requests_ s) ∧ same_request q q' ∧ lr_acquired q' = ok) as (q' & E1 & [S1 S2 S3 S4] & E3).
  { destruct ok.
    - destruct Hok as [_ (q' & ? & ? & Hq) _]. exists q'. by rewrite Hq, R3, insert_insert_eq.
    - destruct Hok as (_ & _ & q' & ? & ? & ?). by exists q'. }
  exists q'. split; [done|]. split; [done|]. split; [congruence|]. split; [congruence|]. split; [done|].
  intros Hmode key. rewrite S4. by apply Hk.
Qed.

Lemma Release_keeps now c s c' q' :
  sound s → requests_ (Release now c s).1 !! c' = Some q' →
  ∃ q, requests_ s !! c' = Some q ∧ same_request q q'.
Proof using Type.
  intros [[order Hinv] _] H. destruct (requests_ s !! c) as [q0|] eqn:Hq.
  - destruct (Release_requests now order c q0 s Hinv Hq) as [_ B]. destruct (B c' q' H) as (q & [_ ?]%lookup_delete_Some & ? & _). eauto.
  - unfold NodeLatchManager.Release in H. rewrite Hq in H. exists q'. by split.
Qed.

Lemma Release_holds now c s c' :
  sound s → c' ≠ c → Holds c' s = true → Holds c' (Release now c s).1 = true.
Proof using Type.
  intros [[order Hinv] _] Hne. unfold Holds. destruct (requests_ s !! c') as [q|] eqn:Hc'; [|done]. intros Ha.
  destruct (requests_ s !! c) as [q0|] eqn:Hq.
  - destruct (Release_requests now order c q0 s Hinv Hq) as [F _]. destruct (F c' q) as (q' & -> & _ & A).
    + by rewrite lookup_delete_ne.
    + by apply A.
  - unfold NodeLatchManager.Release. rewrite Hq. simpl. by rewrite Hc'.
Qed.

End methods.

(** ** A run *)

Section demo.

Definition hash0 (_ : Z) : N := 7.
Definition hash1 (k : string) : N := N.of_nat (String.length k).

Notation acquire c keys mode := (NodeLatchManager.Acquire hash0 hash1 0 c 1 keys mode).

Definition demo_latches : t := default (MkLatches [] ∅ ∅ (MkStats 0 0 0 0 0 0)) (match create 4 with Ok s => Some s | Throw _ => None end).
Definition acquired (r : result (t * bool)) : t := match r with Ok (s, _) => s | Throw _ => demo_latches end.

(** Command 1 holds two keys, 2 waits for one of them, 3 for the Region, 4 holds
    another key and came before 3. *)
Definition demo_1 : t := acquired (acquire 1 ["b"; "a"; "b"] Keys demo_latches).
Definition demo_2 : t := acquired (acquire 2 ["a"] Keys demo_1).
Definition demo_4 : t := acquired (acquire 4 ["cc"] Keys demo_2).
Definition demo_9 : t := acquired (acquire 9 [] RegionExclusive demo_4).

Lemma demo_latches_run : rtc (lstep hash0 hash1) demo_latches demo_9.
Proof.
  apply (rtc_l _ _ demo_1); [apply (LAcquire _ _ 0 1 1 ["b"; "a"; "b"] Keys _ _ true); vm_compute; reflexivity|].
  apply (rtc_l _ _ demo_2); [apply (LAcquire _ _ 0 2 1 ["a"] Keys _ _ false); vm_compute; reflexivity|].
  apply (rtc_l _ _ demo_4); [apply (LAcquire _ _ 0 4 1 ["cc"] Keys _ _ true); vm_compute; reflexivity|].
  apply (rtc_l _ _ demo_9); [apply (LAcquire _ _ 0 9 1 [] RegionExclusive _ _ false); vm_compute; reflexivity|constructor].
Qed.

Definition request_of (c : N) (s : t) : LockRequest :=
  default (MkLockRequest 0 0 Keys [] false false 0) (requests_ s !! c).

Lemma latches_exclude_witness :
  Holds 1 demo_9 = true ∧ Holds 4 demo_9 = true ∧
  (lr_mode (request_of 1 demo_9) = Keys ∧ lr_mode (request_of 4 demo_9) = Keys ∧
   ∀ r, r ∈ lr_resources (request_of 1 demo_9) → r ∉ lr_resources (request_of 4 demo_9)).
Proof.
  split; [vm_compute; reflexivity|]. split; [vm_compute; reflexivity|].
  apply (latches_exclude hash0 hash1 4 demo_latches demo_9 1 4); [reflexivity|exact demo_latches_run|discriminate|..]; vm_compute; reflexivity.
Defined.

Lemma waiting_ends_witness : Holds 9 demo_9 = false ∧ inevitable hash0 hash1 9 demo_9.
Proof.
  split; [vm_compute; reflexivity|].
  apply (waiting_ends hash0 hash1 4 demo_latches demo_9 9); [reflexivity|exact demo_latches_run|].
  exists (request_of 9 demo_9). vm_compute. reflexivity.
Defined.

Lemma Release_reports_witness :
  (NodeLatchManager.Release hash0 hash1 0 1 demo_9).2 = [2] ∧ NoDup [2] ∧
  ∀ w, w ∈ [2] ↔ w ≠ 1 ∧ waiting (requests_ demo_9) w ∧ Holds w (NodeLatchManager.Release hash0 hash1 0 1 demo_9).1 = true.
Proof.
  split; [vm_compute; reflexivity|].
  apply (Release_reports hash0 hash1 4 demo_latches demo_9 0 1); [reflexivity|exact demo_latches_run|vm_compute; reflexivity].
Defined.

End demo.
