(* ===== verification/MetaTypes.v ===== *)
(** * Messages of the metadata service

    The protobuf messages of src/src/proto/metadata_rpc.proto that the metadata
    state machine reads and writes, as records with their fields.  An optional
    sub-message is an [option] where the code asks for its presence.  Enumerations
    of proto3 are open, so each has a constructor for the unknown values.  A
    [double] is a finite number, an infinity or not a number. *)

From Stdlib Require Import ZArith QArith.
From S2P Require Import Prelude RegionMeta.
#[local] Open Scope N_scope.

(** ** Floating-point values *)

Inductive double := Nan | Infinite (negative : bool) | Finite (q : Q).

(** [d <= q], [d > q] and [d < q] for a constant [q]; false on not-a-number. *)
Definition double_le (d : double) (q : Q) : bool :=
  match d with Nan => false | Infinite neg => neg | Finite x => Qle_bool x q end.
Definition double_gt (d : double) (q : Q) : bool :=
  match d with Nan => false | Infinite neg => negb neg | Finite x => negb (Qle_bool x q) end.
Definition double_lt (d : double) (q : Q) : bool :=
  match d with Nan => false | Infinite neg => neg | Finite x => negb (Qle_bool q x) end.

(** ** Enumerations *)

Inductive MetadataErrorCode :=
| METADATA_OK | METADATA_NOT_LEADER | METADATA_TIMEOUT | METADATA_UNAVAILABLE
| METADATA_INVALID_ARGUMENT | METADATA_REVISION_MISMATCH | METADATA_ALREADY_BOOTSTRAPPED
| METADATA_NOT_FOUND | METADATA_CORRUPT | METADATA_CONFLICT.

Inductive IdNamespace :=
| ID_NAMESPACE_REGION | ID_NAMESPACE_PEER | ID_NAMESPACE_STORE | ID_NAMESPACE_OTHER (n : Z).

Inductive SchedulingOperatorType :=
| SCHEDULING_OPERATOR_MOVE_PEER | SCHEDULING_OPERATOR_SPLIT_REGION
| SCHEDULING_OPERATOR_TYPE_OTHER (n : Z).

Inductive SchedulingOperatorPhase :=
| SCHEDULING_OPERATOR_PENDING | SCHEDULING_OPERATOR_DISPATCHING | SCHEDULING_OPERATOR_WAITING
| SCHEDULING_OPERATOR_SUCCEEDED | SCHEDULING_OPERATOR_CANCELLING | SCHEDULING_OPERATOR_CANCELLED
| SCHEDULING_OPERATOR_FAILED | SCHEDULING_OPERATOR_PHASE_OTHER (n : Z).

Inductive ReplicaMigrationPhase :=
| REPLICA_MIGRATION_NOT_STARTED | REPLICA_MIGRATION_PREPARING_TARGET
| REPLICA_MIGRATION_CATCHING_UP | REPLICA_MIGRATION_PROMOTED
| REPLICA_MIGRATION_RETIRING_SOURCE | REPLICA_MIGRATION_COMPLETE
| REPLICA_MIGRATION_CANCELLED | REPLICA_MIGRATION_OTHER (n : Z).

#[global] Instance MetadataErrorCode_eq_dec : EqDecision MetadataErrorCode.
Proof. solve_decision. Defined.
#[global] Instance SchedulingOperatorType_eq_dec : EqDecision SchedulingOperatorType.
Proof. solve_decision. Defined.
#[global] Instance SchedulingOperatorPhase_eq_dec : EqDecision SchedulingOperatorPhase.
Proof. solve_decision. Defined.

(** ** Durable objects *)

Record ReplicaMigrationStatus := MkMigration {
  mig_regionid : N;
  mig_sourcepeerid : N;
  mig_fromstoreid : N;
  mig_targetpeer : option PeerDescriptor;
  mig_phase : ReplicaMigrationPhase;
  mig_transferredbytes : N;
  mig_loglag : N;
  mig_mutationid : string
}.

Record RegionSchedulingObservation := MkObservation {
  ob_regionid : N;
  ob_peerid : N;
  ob_epoch : RegionEpoch;
  ob_approximatebytes : N;
  ob_requestcount : N;
  ob_isleader : bool;
  ob_topologyoperationactive : bool;
  ob_splitcandidategeneration : N
}.

Record StoreHeartbeat := MkHeartbeat {
  hb_storeid : N;
  hb_sequence : N;
  hb_observedatms : N;
  hb_expiresatms : N;
  hb_capacitybytes : N;
  hb_availablebytes : N;
  hb_requestcount : N;
  hb_regions : list RegionSchedulingObservation
}.

Record AutoBalancerConfig := MkConfig {
  cf_enabled : bool;
  cf_paused : bool;
  cf_version : N;
  cf_evaluationintervalms : N;
  cf_heartbeattimeoutms : N;
  cf_minimumfreebytes : N;
  cf_maximumdiskusedratio : double;
  cf_replicationfactor : N;
  cf_imbalancethreshold : double;
  cf_splitsizebytes : N;
  cf_splitrequestthreshold : N;
  cf_splitconsecutivewindows : N;
  cf_regioncooldownms : N;
  cf_maximumactiveoperators : N;
  cf_maximumactiveperstore : N
}.

Record SchedulingOperator := MkOperator {
  so_operatorid : string;
  so_type : SchedulingOperatorType;
  so_regionid : N;
  so_sourcerevision : N;
  so_regionepoch : option RegionEpoch;
  so_sourcestoreid : N;
  so_targetstoreid : N;
  so_splitcandidategeneration : N;
  so_phase : SchedulingOperatorPhase;
  so_attempts : N;
  so_deadlinems : N;
  so_lasterror : string;
  so_cancelrequested : bool;
  so_irreversible : bool;
  so_createdatms : N;
  so_updatedatms : N
}.

(** ** Commands and results *)

Inductive Command :=
| Bootstrap (configdigest : string) (regions : list RegionDescriptor) (stores : list StoreDescriptor)
| ReplaceRegions (removeregionids : list N) (addregions : list RegionDescriptor)
| AllocateIds (namespace : IdNamespace) (count : N)
| PutStore (store : StoreDescriptor)
| PrepareSplit (regionid : N) (splitkey : string) (expectedepoch : option RegionEpoch)
| CommitSplit (regionid : N)
| AckSplit (parentregionid : N) (childregionids : list N)
| PrepareMovePeer (regionid fromstoreid tostoreid : N) (expectedepoch : option RegionEpoch)
| CommitMovePeer (regionid newpeerid : N) (expectedepoch : option RegionEpoch)
| CancelMovePeer (regionid newpeerid : N)
| ReportStoreHeartbeat (heartbeat : StoreHeartbeat)
| UpdateAutoBalancerConfig (config : AutoBalancerConfig)
| CreateSchedulingOperator (operator : SchedulingOperator)
| UpdateSchedulingOperator (operatorid : string) (expectedphase phase : SchedulingOperatorPhase)
    (attempts : N) (lasterror : string) (irreversible : bool) (updatedatms : N)
| CancelSchedulingOperator (operatorid : string) (updatedatms : N)
| COMMAND_NOT_SET.

Record MetadataCommand := MkCommand {
  mutationid : string;
  expectedrevision : N;
  command : Command
}.

Record MetadataCommandResult := MkResult {
  res_error : MetadataErrorCode;
  res_message : string;
  res_revision : N;
  res_firstallocatedid : N;
  res_allocatedcount : N;
  res_regions : list RegionDescriptor;
  res_migration : option ReplicaMigrationStatus;
  res_heartbeat : option StoreHeartbeat;
  res_balancerconfig : option AutoBalancerConfig;
  res_operator : option SchedulingOperator
}.

Record MutationRecord := MkRecord {
  rec_mutationid : string;
  rec_result : MetadataCommandResult;
  rec_appliedrevision : N
}.

Record MetadataSnapshot := MkSnapshot {
  sn_formatversion : N;
  sn_revision : N;
  sn_regions : list RegionDescriptor;
  sn_stores : list StoreDescriptor;
  sn_regionidhighwater : N;
  sn_peeridhighwater : N;
  sn_storeidhighwater : N;
  sn_bootstrapdigest : string;
  sn_recentmutations : list MutationRecord;
  sn_migrations : list ReplicaMigrationStatus;
  sn_storeheartbeats : list StoreHeartbeat;
  sn_balancerconfig : option AutoBalancerConfig;
  sn_schedulingoperators : list SchedulingOperator
}.
