(* ===== verification/MetaState.v ===== *)
(** * The metadata state machine

    [MetadataStateMachine] of src/src/metadata/metadata_state_machine.cpp: the
    replicated control plane that owns the Region catalog, the Store list, the
    identifier high-water marks, in-flight migrations, Store heartbeats and
    scheduling operators.  [Apply] runs one committed command.

    A handler runs in [M]: it may throw, and what it assigned before the throw
    stays assigned, as in the source, where [ApplyLocked] turns the exception into
    an error result.  [mutex_] is not represented: each public call is one step.
    [published_] is the view the lock-free readers load. *)

From Stdlib Require Import ZArith QArith.
From S2P Require Import Prelude RegionMeta MetaTypes.
#[local] Open Scope N_scope.

Record MetadataView := MkView {
  view_revision : N;
  catalog : option (list RegionMetadata);
  view_stores : gmap N StoreDescriptor;
  view_regionIdHighWater : N;
  view_peerIdHighWater : N;
  view_storeIdHighWater : N;
  view_bootstrapDigest : string;
  view_migrations : gmap N ReplicaMigrationStatus;
  view_storeHeartbeats : gmap N StoreHeartbeat;
  view_balancerConfig : AutoBalancerConfig;
  view_schedulingOperators : gmap string SchedulingOperator;
  view_activeOperatorByRegion : gmap N string
}.

Record MetadataStateMetrics := MkMetrics {
  validationRejects : N;
  dedupHits : N;
  snapshotCount : N;
  heartbeatAccepted : N;
  heartbeatIgnored : N;
  operatorAdmissions : N
}.

Definition kSnapshotFormatVersion : N := 1.
Definition kDedupRetention : nat := 4096.

(** ** Helpers of the anonymous namespace *)

Definition SamePeers (lhs rhs : RegionMetadata) : bool :=
  Nat.eqb (length (peers lhs)) (length (peers rhs)) &&
  forallb (λ lr, (peerId lr.1 =? peerId lr.2) && (storeId lr.1 =? storeId lr.2) &&
                 String.eqb (host lr.1) (host lr.2) && (port lr.1 =? port lr.2)%Z)
    (zip (peers lhs) (peers rhs)).

Definition DescriptorIdsFit (d : RegionDescriptor) : bool :=
  (0 <? rd_regionid d) && (rd_regionid d <=? int_max).

Definition DecodeRegions (ds : list RegionDescriptor) : result (list RegionMetadata) :=
  mapM_result (λ d, if negb (DescriptorIdsFit d) then Throw "invalid Region ID" else FromProtoRegion d) ds.

(** [regions[index - 1].endKey != regions[index].startKey] for no index. *)
Fixpoint contiguous (rs : list RegionMetadata) : bool :=
  match rs with
  | a :: ((b :: _) as rest) => String.eqb (endKey a) (startKey b) && contiguous rest
  | _ => true
  end.

Definition CoveredInterval (rs : list RegionMetadata) : result (string * string) :=
  let sorted := sort_regions rs in
  match sorted, last sorted with
  | front :: _, Some back =>
      if contiguous sorted then Ok (startKey front, endKey back)
      else Throw "replacement Regions must be contiguous"
  | _, _ => Throw "replacement set must not be empty"
  end.

Definition SafeAdd (value count : N) : result N :=
  if (count =? 0) || (u64_max - count <? value)
  then Throw "identifier allocation overflows" else Ok (value + count).

Definition DefaultAutoBalancerConfig : AutoBalancerConfig :=
  MkConfig true false 1 5000 15000 (64 * 1024 * 1024)
    (Finite (8106479329266893 # 9007199254740992)) 3 (Finite (5404319552844595 # 36028797018963968))
    (512 * 1024 * 1024) 10000 3 60000 1 1.

Definition IsTerminal (phase : SchedulingOperatorPhase) : bool :=
  match phase with
  | SCHEDULING_OPERATOR_SUCCEEDED | SCHEDULING_OPERATOR_CANCELLED | SCHEDULING_OPERATOR_FAILED => true
  | _ => false
  end.

Definition EpochOlder (lhs rhs : RegionEpoch) : bool :=
  (version lhs <? version rhs) ||
  ((version lhs =? version rhs) && (confVersion lhs <? confVersion rhs)).

Definition ValidTransition (from to : SchedulingOperatorPhase) : bool :=
  bool_decide (from = to) ||
  match from, to with
  | SCHEDULING_OPERATOR_PENDING,
    (SCHEDULING_OPERATOR_DISPATCHING | SCHEDULING_OPERATOR_CANCELLING
     | SCHEDULING_OPERATOR_CANCELLED | SCHEDULING_OPERATOR_FAILED) => true
  | SCHEDULING_OPERATOR_DISPATCHING,
    (SCHEDULING_OPERATOR_WAITING | SCHEDULING_OPERATOR_SUCCEEDED
     | SCHEDULING_OPERATOR_CANCELLING | SCHEDULING_OPERATOR_FAILED) => true
  | SCHEDULING_OPERATOR_WAITING,
    (SCHEDULING_OPERATOR_DISPATCHING | SCHEDULING_OPERATOR_SUCCEEDED
     | SCHEDULING_OPERATOR_CANCELLING | SCHEDULING_OPERATOR_FAILED) => true
  | SCHEDULING_OPERATOR_CANCELLING,
    (SCHEDULING_OPERATOR_CANCELLED | SCHEDULING_OPERATOR_FAILED) => true
  | _, _ => false
  end.

Module MetadataStateMachine.

Record t := MkState {
  published_ : MetadataView;
  regions_ : list RegionMetadata;
  stores_ : gmap N StoreDescriptor;
  revision_ : N;
  regionIdHighWater_ : N;
  peerIdHighWater_ : N;
  storeIdHighWater_ : N;
  bootstrapDigest_ : string;
  migrations_ : gmap N ReplicaMigrationStatus;
  storeHeartbeats_ : gmap N StoreHeartbeat;
  balancerConfig_ : AutoBalancerConfig;
  schedulingOperators_ : gmap string SchedulingOperator;
  activeOperatorByRegion_ : gmap N string;
  dedup_ : gmap string MutationRecord;
  dedupOrder_ : list string;
  metrics_ : MetadataStateMetrics
}.

(** ** Assignments *)

Definition set_published v s :=
  MkState v (regions_ s) (stores_ s) (revision_ s) (regionIdHighWater_ s) (peerIdHighWater_ s)
    (storeIdHighWater_ s) (bootstrapDigest_ s) (migrations_ s) (storeHeartbeats_ s)
    (balancerConfig_ s) (schedulingOperators_ s) (activeOperatorByRegion_ s) (dedup_ s)
    (dedupOrder_ s) (metrics_ s).
Definition set_regions rs s :=
  MkState (published_ s) rs (stores_ s) (revision_ s) (regionIdHighWater_ s) (peerIdHighWater_ s)
    (storeIdHighWater_ s) (bootstrapDigest_ s) (migrations_ s) (storeHeartbeats_ s)
    (balancerConfig_ s) (schedulingOperators_ s) (activeOperatorByRegion_ s) (dedup_ s)
    (dedupOrder_ s) (metrics_ s).
Definition set_stores m s :=
  MkState (published_ s) (regions_ s) m (revision_ s) (regionIdHighWater_ s) (peerIdHighWater_ s)
    (storeIdHighWater_ s) (bootstrapDigest_ s) (migrations_ s) (storeHeartbeats_ s)
    (balancerConfig_ s) (schedulingOperators_ s) (activeOperatorByRegion_ s) (dedup_ s)
    (dedupOrder_ s) (metrics_ s).
Definition set_revision n s :=
  MkState (published_ s) (regions_ s) (stores_ s) n (regionIdHighWater_ s) (peerIdHighWater_ s)
    (storeIdHighWater_ s) (bootstrapDigest_ s) (migrations_ s) (storeHeartbeats_ s)
    (balancerConfig_ s) (schedulingOperators_ s) (activeOperatorByRegion_ s) (dedup_ s)
    (dedupOrder_ s) (metrics_ s).
Definition set_highWater r p st s :=
  MkState (published_ s) (regions_ s) (stores_ s) (revision_ s) r p st (bootstrapDigest_ s)
    (migrations_ s) (storeHeartbeats_ s) (balancerConfig_ s) (schedulingOperators_ s)
    (activeOperatorByRegion_ s) (dedup_ s) (dedupOrder_ s) (metrics_ s).
Definition set_digest d s :=
  MkState (published_ s) (regions_ s) (stores_ s) (revision_ s) (regionIdHighWater_ s)
    (peerIdHighWater_ s) (storeIdHighWater_ s) d (migrations_ s) (storeHeartbeats_ s)
    (balancerConfig_ s) (schedulingOperators_ s) (activeOperatorByRegion_ s) (dedup_ s)
    (dedupOrder_ s) (metrics_ s).
Definition set_migrations m s :=
  MkState (published_ s) (regions_ s) (stores_ s) (revision_ s) (regionIdHighWater_ s)
    (peerIdHighWater_ s) (storeIdHighWater_ s) (bootstrapDigest_ s) m (storeHeartbeats_ s)
    (balancerConfig_ s) (schedulingOperators_ s) (activeOperatorByRegion_ s) (dedup_ s)
    (dedupOrder_ s) (metrics_ s).
Definition set_heartbeats m s :=
  MkState (published_ s) (regions_ s) (stores_ s) (revision_ s) (regionIdHighWater_ s)
    (peerIdHighWater_ s) (storeIdHighWater_ s) (bootstrapDigest_ s) (migrations_ s) m
    (balancerConfig_ s) (schedulingOperators_ s) (activeOperatorByRegion_ s) (dedup_ s)
    (dedupOrder_ s) (metrics_ s).
Definition set_config c s :=
  MkState (published_ s) (regions_ s) (stores_ s) (revision_ s) (regionIdHighWater_ s)
    (peerIdHighWater_ s) (storeIdHighWater_ s) (bootstrapDigest_ s) (migrations_ s)
    (storeHeartbeats_ s) c (schedulingOperators_ s) (activeOperatorByRegion_ s) (dedup_ s)
    (dedupOrder_ s) (metrics_ s).
Definition set_operators o a s :=
  MkState (published_ s) (regions_ s) (stores_ s) (revision_ s) (regionIdHighWater_ s)
    (peerIdHighWater_ s) (storeIdHighWater_ s) (bootstrapDigest_ s) (migrations_ s)
    (storeHeartbeats_ s) (balancerConfig_ s) o a (dedup_ s) (dedupOrder_ s) (metrics_ s).
Definition set_dedup d o s :=
  MkState (published_ s) (regions_ s) (stores_ s) (revision_ s) (regionIdHighWater_ s)
    (peerIdHighWater_ s) (storeIdHighWater_ s) (bootstrapDigest_ s) (migrations_ s)
    (storeHeartbeats_ s) (balancerConfig_ s) (schedulingOperators_ s) (activeOperatorByRegion_ s)
    d o (metrics_ s).
Definition set_metrics m s :=
  MkState (published_ s) (regions_ s) (stores_ s) (revision_ s) (regionIdHighWater_ s)
    (peerIdHighWater_ s) (storeIdHighWater_ s) (bootstrapDigest_ s) (migrations_ s)
    (storeHeartbeats_ s) (balancerConfig_ s) (schedulingOperators_ s) (activeOperatorByRegion_ s)
    (dedup_ s) (dedupOrder_ s) m.

(** ** State, exceptions and results *)

Definition M (A : Type) : Type := t → t * result A.

#[global] Instance M_ret : MRet M := λ A a s, (s, Ok a).
#[global] Instance M_bind : MBind M := λ A B f m s,
  match m s with
  | (s1, Ok a) => f a s1
  | (s1, Throw w) => (s1, Throw w)
  end.

Definition get : M t := λ s, (s, Ok s).
Definition modify (f : t → t) : M unit := λ s, (f s, Ok tt).
Definition throw {A} (what : string) : M A := λ s, (s, Throw what).
Definition lift {A} (r : result A) : M A := λ s, (s, r).

Definition Error (s : t) (code : MetadataErrorCode) (message : string) : MetadataCommandResult :=
  MkResult code message (revision_ s) 0 0 [] None None None None.

(** [METADATA_OK] at the current revision, without a payload. *)
Definition OkResult (s : t) : MetadataCommandResult :=
  MkResult METADATA_OK EmptyString (revision_ s) 0 0 [] None None None None.

Definition with_ids (first count : N) (r : MetadataCommandResult) : MetadataCommandResult :=
  MkResult (res_error r) (res_message r) (res_revision r) first count (res_regions r)
    (res_migration r) (res_heartbeat r) (res_balancerconfig r) (res_operator r).
Definition with_regions (ds : list RegionDescriptor) (r : MetadataCommandResult) :=
  MkResult (res_error r) (res_message r) (res_revision r) (res_firstallocatedid r)
    (res_allocatedcount r) ds (res_migration r) (res_heartbeat r) (res_balancerconfig r) (res_operator r).
Definition with_migration (m : ReplicaMigrationStatus) (r : MetadataCommandResult) :=
  MkResult (res_error r) (res_message r) (res_revision r) (res_firstallocatedid r)
    (res_allocatedcount r) (res_regions r) (Some m) (res_heartbeat r) (res_balancerconfig r) (res_operator r).
Definition with_heartbeat (h : StoreHeartbeat) (r : MetadataCommandResult) :=
  MkResult (res_error r) (res_message r) (res_revision r) (res_firstallocatedid r)
    (res_allocatedcount r) (res_regions r) (res_migration r) (Some h) (res_balancerconfig r) (res_operator r).
Definition with_config (c : AutoBalancerConfig) (r : MetadataCommandResult) :=
  MkResult (res_error r) (res_message r) (res_revision r) (res_firstallocatedid r)
    (res_allocatedcount r) (res_regions r) (res_migration r) (res_heartbeat r) (Some c) (res_operator r).
Definition with_operator (o : SchedulingOperator) (r : MetadataCommandResult) :=
  MkResult (res_error r) (res_message r) (res_revision r) (res_firstallocatedid r)
    (res_allocatedcount r) (res_regions r) (res_migration r) (res_heartbeat r) (res_balancerconfig r) (Some o).

(** The counters. *)
Definition count_reject (s : t) : t :=
  let m := metrics_ s in
  set_metrics (MkMetrics (validationRejects m +₆₄ 1) (dedupHits m) (snapshotCount m)
    (heartbeatAccepted m) (heartbeatIgnored m) (operatorAdmissions m)) s.
Definition count_dedup (s : t) : t :=
  let m := metrics_ s in
  set_metrics (MkMetrics (validationRejects m) (dedupHits m +₆₄ 1) (snapshotCount m)
    (heartbeatAccepted m) (heartbeatIgnored m) (operatorAdmissions m)) s.
Definition count_snapshot (s : t) : t :=
  let m := metrics_ s in
  set_metrics (MkMetrics (validationRejects m) (dedupHits m) (snapshotCount m +₆₄ 1)
    (heartbeatAccepted m) (heartbeatIgnored m) (operatorAdmissions m)) s.
Definition count_heartbeat (accepted : bool) (s : t) : t :=
  let m := metrics_ s in
  set_metrics (MkMetrics (validationRejects m) (dedupHits m) (snapshotCount m)
    (if accepted then heartbeatAccepted m +₆₄ 1 else heartbeatAccepted m)
    (if accepted then heartbeatIgnored m else heartbeatIgnored m +₆₄ 1) (operatorAdmissions m)) s.
Definition count_admission (s : t) : t :=
  let m := metrics_ s in
  set_metrics (MkMetrics (validationRejects m) (dedupHits m) (snapshotCount m)
    (heartbeatAccepted m) (heartbeatIgnored m) (operatorAdmissions m +₆₄ 1)) s.

(** [return Error(...)], without and with the reject counter. *)
Definition fail (code : MetadataErrorCode) (message : string) : M MetadataCommandResult :=
  λ s, (s, Ok (Error s code message)).
Definition reject (code : MetadataErrorCode) (message : string) : M MetadataCommandResult :=
  λ s, (count_reject s, Ok (Error s code message)).

(** ** Publication *)

(** The view of the current state with the given catalog. *)
Definition view_of (s : t) (cat : option (list RegionMetadata)) : MetadataView :=
  MkView (revision_ s) cat (stores_ s) (regionIdHighWater_ s) (peerIdHighWater_ s)
    (storeIdHighWater_ s) (bootstrapDigest_ s) (migrations_ s) (storeHeartbeats_ s)
    (balancerConfig_ s) (schedulingOperators_ s) (activeOperatorByRegion_ s).

(** The catalog of the view is constructed, and so validated, anew. *)
Definition PublishLocked (regions : list RegionMetadata) : M unit := λ s,
  if bool_decide (regions = []) then (set_published (view_of s None) s, Ok tt)
  else
    match RegionCatalog.make regions with
    | Ok cat => (set_published (view_of s (Some cat)) s, Ok tt)
    | Throw w => (s, Throw w)
    end.

Definition RecomputeHighWaterLocked (s : t) : t :=
  let ps := all_peers (regions_ s) in
  set_highWater
    (foldl N.max (regionIdHighWater_ s) (u64_of_int ∘ regionId <$> regions_ s))
    (foldl N.max (peerIdHighWater_ s) (peerId <$> ps))
    (foldl N.max (foldl N.max (storeIdHighWater_ s) (storeId <$> ps)) ((map_to_list (stores_ s)).*1)) s.

(** [for (auto& region : regions_) region.metadataRevision = revision_] *)
Definition stamp_regions (s : t) : t :=
  set_regions (RegionMeta.with_revision (revision_ s) <$> regions_ s) s.

(** [++revision_] *)
Definition bump (s : t) : t := set_revision (revision_ s +₆₄ 1) s.

(** ** Bootstrap and Region replacement *)

Definition store_fits (store : StoreDescriptor) : bool :=
  negb ((st_storeid store =? 0) || String.eqb (st_host store) EmptyString ||
        (st_port store =? 0) || (65535 <? st_port store)).

(** The loop that builds [stores], refusing invalid and repeated ones. *)
Fixpoint collect_stores (what : string) (ss : list StoreDescriptor) (acc : gmap N StoreDescriptor)
    : result (gmap N StoreDescriptor) :=
  match ss with
  | [] => Ok acc
  | store :: rest =>
      if negb (store_fits store) || bool_decide (is_Some (acc !! st_storeid store)) then Throw what
      else collect_stores what rest (<[st_storeid store := store]> acc)
  end.

(** Every peer sits on a listed Store at its endpoint. *)
Definition peer_on_store (stores : gmap N StoreDescriptor) (p : RegionPeerLocation) : bool :=
  match stores !! storeId p with
  | Some store => String.eqb (st_host store) (host p) && (st_port store =? u32_of_short (port p))
  | None => false
  end.

Definition BootstrapLocked (cmd : MetadataCommand) (configdigest : string)
    (regions : list RegionDescriptor) (stores : list StoreDescriptor) : M MetadataCommandResult :=
  s ← get;
  if negb (revision_ s =? 0) || negb (bool_decide (regions_ s = [])) then
    reject METADATA_ALREADY_BOOTSTRAPPED "metadata cluster is already bootstrapped"
  else if negb (expectedrevision cmd =? 0) || String.eqb configdigest EmptyString then
    reject METADATA_INVALID_ARGUMENT "bootstrap requires revision zero and a configuration digest"
  else
    decoded ← lift (DecodeRegions regions);
    validated ← lift (RegionCatalog.make (RegionMeta.with_revision 1 <$> decoded));
    stores' ← lift (collect_stores "invalid or duplicate Store descriptor" stores ∅);
    if negb (forallb (peer_on_store stores') (all_peers validated))
    then throw "Region peer does not match a Store descriptor"
    else
      modify (λ s, RecomputeHighWaterLocked (stamp_regions (set_regions validated
                     (set_stores stores' (set_digest configdigest (set_revision 1 s)))))) ;;
      s1 ← get;
      PublishLocked (regions_ s1) ;;
      s2 ← get; mret (OkResult s2).

(** [removedIds.insert(id).second] for every identifier. *)
Fixpoint distinct_ids (ids : list N) : bool :=
  match ids with
  | [] => true
  | id :: rest => negb (bool_decide (id ∈ rest)) && distinct_ids rest
  end.

(** The loop over [regions_]: an identifier is erased when its Region is met.
    The result is (removed, retained, identifiers left). *)
Fixpoint partition_regions (ids : list N) (rs : list RegionMetadata)
    : list RegionMetadata * list RegionMetadata * list N :=
  match rs with
  | [] => ([], [], ids)
  | r :: rest =>
      if bool_decide (u64_of_int (regionId r) ∈ ids) then
        let '(removed, retained, missing) :=
          partition_regions (filter (λ i, i ≠ u64_of_int (regionId r)) ids) rest in
        (r :: removed, retained, missing)
      else
        let '(removed, retained, missing) := partition_regions ids rest in
        (removed, r :: retained, missing)
  end.

(** The epoch of an added Region has advanced past the Regions it replaces. *)
Definition epoch_advanced (removed : list RegionMetadata) (newRegion : RegionMetadata) : result unit :=
  let maxOldVersion := foldl (λ v old, N.max v (version (epoch old))) 0 removed in
  match find (λ v, (regionId v =? regionId newRegion)%Z) removed with
  | None =>
      if version (epoch newRegion) <=? maxOldVersion
      then Throw "new Region version must advance past replaced Regions" else Ok tt
  | Some old =>
      let rangeChanged := negb (String.eqb (startKey old) (startKey newRegion)) ||
                          negb (String.eqb (endKey old) (endKey newRegion)) in
      let peersChanged := negb (SamePeers old newRegion) in
      if (rangeChanged && (version (epoch newRegion) <=? version (epoch old))) ||
         (negb rangeChanged && (version (epoch newRegion) <? version (epoch old))) ||
         (peersChanged && (confVersion (epoch newRegion) <=? confVersion (epoch old))) ||
         (negb peersChanged && (confVersion (epoch newRegion) <? confVersion (epoch old)))
      then Throw "replacement Region epoch did not advance" else Ok tt
  end.

Definition ReplaceRegionsLocked (cmd : MetadataCommand) (removeregionids : list N)
    (addregions : list RegionDescriptor) : M MetadataCommandResult :=
  s ← get;
  if revision_ s =? 0 then
    reject METADATA_INVALID_ARGUMENT "metadata cluster is not bootstrapped"
  else if negb (expectedrevision cmd =? revision_ s) then
    reject METADATA_REVISION_MISMATCH "metadata revision precondition failed"
  else if bool_decide (removeregionids = []) || Nat.eqb (length addregions) 0 then
    throw "Region replacement requires removed and added Regions"
  else if negb (distinct_ids removeregionids) then throw "duplicate removed Region ID"
  else
    let '(removed, retained, missing) := partition_regions removeregionids (regions_ s) in
    if negb (bool_decide (missing = [])) then throw "removed Region does not exist"
    else
      decoded ← lift (DecodeRegions addregions);
      let added := RegionMeta.with_revision (revision_ s +₆₄ 1) <$> decoded in
      before ← lift (CoveredInterval removed);
      after ← lift (CoveredInterval added);
      if negb (bool_decide (before = after))
      then throw "replacement Regions must exactly cover the removed interval"
      else
        lift (mapM_result (epoch_advanced removed) added) ;;
        validated ← lift (RegionCatalog.make (retained ++ added));
        modify (λ s, RecomputeHighWaterLocked (stamp_regions (set_regions validated (bump s)))) ;;
        s1 ← get;
        PublishLocked (regions_ s1) ;;
        s2 ← get; mret (OkResult s2).

(** ** Splitting a Region *)

(** [SafeAdd(highWater, 1)], stored back: the next Region and peer identifier. *)
Definition next_region_id : M N :=
  s ← get; id ← lift (SafeAdd (regionIdHighWater_ s) 1);
  modify (set_highWater id (peerIdHighWater_ s) (storeIdHighWater_ s)) ;; mret id.

Definition next_peer_id : M N :=
  s ← get; id ← lift (SafeAdd (peerIdHighWater_ s) 1);
  modify (set_highWater (regionIdHighWater_ s) id (storeIdHighWater_ s)) ;; mret id.

(** The loop over the parent's peers: the same placement under fresh IDs. *)
Fixpoint child_peers (ps : list RegionPeerLocation) : M (list RegionPeerLocation) :=
  match ps with
  | [] => mret []
  | p :: rest =>
      id ← next_peer_id;
      qs ← child_peers rest;
      mret (MkPeer (nodeId p) (host p) (port p) (storeId p) id (isLearner p) :: qs)
  end.

(** The loop without a [break] keeps the last Region with the identifier. *)
Definition find_last_region (rid : N) (rs : list RegionMetadata) : option RegionMetadata :=
  last (filter (λ r, (regionId r =? int_of_u64 rid)%Z = true) rs).

Definition replace_region (new : RegionMetadata) (rs : list RegionMetadata) : list RegionMetadata :=
  (λ r, if (regionId r =? regionId new)%Z then new else r) <$> rs.

Definition PrepareSplitLocked (cmd : MetadataCommand) (regionid : N) (splitkey : string)
    (expectedepoch : option RegionEpoch) : M MetadataCommandResult :=
  s ← get;
  if (revision_ s =? 0) || negb (expectedrevision cmd =? revision_ s) then
    reject (if negb (expectedrevision cmd =? revision_ s) && negb (revision_ s =? 0)
            then METADATA_REVISION_MISMATCH else METADATA_INVALID_ARGUMENT)
      "metadata revision precondition failed"
  else
    match find_last_region regionid (regions_ s) with
    | None => throw "split target Region does not exist"
    | Some parent =>
        if (match splitPending parent with Some _ => true | None => false end)
        then throw "Region already has a split in progress"
        else if negb (bool_decide (epoch parent = default (MkEpoch 0 0) expectedepoch)) then
          fail METADATA_REVISION_MISMATCH "split expected epoch does not match the Region descriptor"
        else if str_leb splitkey (startKey parent) ||
                (negb (String.eqb (endKey parent) EmptyString) && str_leb (endKey parent) splitkey)
        then throw "split key must be strictly inside the Region range"
        else
          id ← next_region_id;
          qs ← child_peers (peers parent);
          let newChild := MkRegion (int_of_u64 id) splitkey (endKey parent) qs (MkEpoch 1 1) 1
                            (match qs with q :: _ => peerId q | [] => 0 end) None in
          let marked := with_pending (Some (MkSplitPending splitkey newChild)) parent in
          modify (λ s, RecomputeHighWaterLocked
                    (set_regions (replace_region marked (regions_ s)) (bump s))) ;;
          s1 ← get;
          PublishLocked (regions_ s1) ;;
          s2 ← get; mret (with_regions [ToProtoRegion marked] (OkResult s2))
    end.

Definition CommitSplitLocked (cmd : MetadataCommand) (regionid : N) : M MetadataCommandResult :=
  s ← get;
  if (revision_ s =? 0) || negb (expectedrevision cmd =? revision_ s) then
    reject METADATA_REVISION_MISMATCH "metadata revision precondition failed"
  else
    match find_last_region regionid (regions_ s) with
    | Some parent =>
        match splitPending parent with
        | Some pending =>
            let marked := with_pending None parent in
            let shrunken := with_epoch (MkEpoch (version (epoch marked) +₆₄ 1) (confVersion (epoch marked)))
                              (with_end (splitKey pending) marked) in
            let newChild := RegionMeta.with_revision (revision_ s +₆₄ 1)
                              (with_end (endKey marked) (child pending)) in
            validated ← lift (RegionCatalog.make (replace_region shrunken (regions_ s) ++ [newChild]));
            modify (λ s, RecomputeHighWaterLocked (stamp_regions (set_regions validated (bump s)))) ;;
            s1 ← get;
            PublishLocked (regions_ s1) ;;
            s2 ← get;
            mret (with_regions (ToProtoRegion <$>
                    filter (λ r, regionId r = regionId shrunken ∨ regionId r = regionId newChild)
                      (regions_ s2)) (OkResult s2))
        | None => throw "commit requires a prepared split on the Region"
        end
    | None => throw "commit requires a prepared split on the Region"
    end.

Definition AckSplitLocked (cmd : MetadataCommand) (childregionids : list N) : M MetadataCommandResult :=
  s ← get;
  if (revision_ s =? 0) || negb (expectedrevision cmd =? revision_ s) then
    reject METADATA_REVISION_MISMATCH "metadata revision precondition failed"
  else if negb (forallb (λ childId, existsb (λ r, u64_of_int (regionId r) =? childId) (regions_ s))
                  childregionids)
  then throw "split ack names an unknown child Region"
  else mret (OkResult s).

(** ** Moving a peer *)

(** [std::find_if] on the Region identifier, and an update through the iterator. *)
Definition find_region (rid : N) (rs : list RegionMetadata) : option RegionMetadata :=
  find (λ r, u64_of_int (regionId r) =? rid) rs.

Fixpoint update_first {A} (P : A → bool) (f : A → A) (l : list A) : list A :=
  match l with
  | [] => []
  | a :: rest => if P a then f a :: rest else a :: update_first P f rest
  end.

(** [has_expectedepoch()] and equal to the Region's epoch. *)
Definition epoch_matches (r : RegionMetadata) (expectedepoch : option RegionEpoch) : bool :=
  bool_decide (expectedepoch = Some (epoch r)).

Definition hosted_on (sid : N) (r : RegionMetadata) : bool :=
  existsb (λ p, storeId p =? sid) (peers r).

Definition mig_with_phase (phase : ReplicaMigrationPhase) (m : ReplicaMigrationStatus) :=
  MkMigration (mig_regionid m) (mig_sourcepeerid m) (mig_fromstoreid m) (mig_targetpeer m) phase
    (mig_transferredbytes m) (mig_loglag m) (mig_mutationid m).

Definition PrepareMovePeerLocked (cmd : MetadataCommand) (regionid fromstoreid tostoreid : N)
    (expectedepoch : option RegionEpoch) : M MetadataCommandResult :=
  s ← get;
  if (revision_ s =? 0) || negb (expectedrevision cmd =? revision_ s) then
    reject METADATA_REVISION_MISMATCH "metadata revision precondition failed"
  else
    match find_region regionid (regions_ s) with
    | None => throw "migration Region does not exist"
    | Some region =>
        if bool_decide (is_Some (migrations_ s !! regionid))
        then throw "Region already has a migration in progress"
        else if negb (epoch_matches region expectedepoch) then
          fail METADATA_REVISION_MISMATCH
            "migration expected epoch does not match the Region descriptor"
        else
          match find (λ p, storeId p =? fromstoreid) (peers region) with
          | None => throw "migration source Store does not host the Region"
          | Some source =>
              if hosted_on tostoreid region then throw "migration target Store already hosts the Region"
              else
                match stores_ s !! tostoreid with
                | None => throw "migration target Store does not exist"
                | Some targetStore =>
                    newPeerId ← next_peer_id;
                    let status := MkMigration regionid (peerId source) fromstoreid
                      (Some (MkPeerDescriptor newPeerId tostoreid (st_host targetStore)
                               (st_port targetStore) true))
                      REPLICA_MIGRATION_PREPARING_TARGET 0 0 (mutationid cmd) in
                    modify (λ s, stamp_regions (bump (set_migrations (<[regionid := status]> (migrations_ s)) s))) ;;
                    s1 ← get;
                    PublishLocked (regions_ s1) ;;
                    s2 ← get;
                    let prepared := with_peers (peers region ++
                        [MkPeer (int_of_u64 (wrap64 (tostoreid + u64_max))) (st_host targetStore)
                           (short_of_u32 (st_port targetStore)) tostoreid newPeerId true])
                      (with_epoch (MkEpoch (version (epoch region)) (confVersion (epoch region) +₆₄ 1))
                        (RegionMeta.with_revision (revision_ s2) region)) in
                    mret (with_regions [ToProtoRegion prepared] (with_migration status (OkResult s2)))
                end
          end
    end.

(** [migration->second.targetpeer().peerid()]; an absent message has zero. *)
Definition target_id (m : ReplicaMigrationStatus) : N :=
  match mig_targetpeer m with Some t => pd_peerid t | None => 0 end.

Definition default_peer_descriptor : PeerDescriptor := MkPeerDescriptor 0 0 EmptyString 0 false.

(** The Region after the move, as the code assigns it in place. *)
Definition moved_region (m : ReplicaMigrationStatus) (r : RegionMetadata) : RegionMetadata :=
  let target := default default_peer_descriptor (mig_targetpeer m) in
  let peer := MkPeer (int_of_u64 (wrap64 (pd_storeid target + u64_max))) (pd_host target)
                (short_of_u32 (pd_port target)) (pd_storeid target) (pd_peerid target) false in
  let r1 := with_peers (update_first (λ p, peerId p =? mig_sourcepeerid m) (λ _, peer) (peers r)) r in
  let r2 := if leaderPeerId r =? mig_sourcepeerid m then with_leader (pd_peerid target) r1 else r1 in
  with_epoch (MkEpoch (version (epoch r2)) (confVersion (epoch r2) +₆₄ 3)) r2.

Definition completed_migration (m : ReplicaMigrationStatus) : ReplicaMigrationStatus :=
  let target := default default_peer_descriptor (mig_targetpeer m) in
  MkMigration (mig_regionid m) (mig_sourcepeerid m) (mig_fromstoreid m)
    (Some (MkPeerDescriptor (pd_peerid target) (pd_storeid target) (pd_host target) (pd_port target) false))
    REPLICA_MIGRATION_COMPLETE (mig_transferredbytes m) (mig_loglag m) (mig_mutationid m).

Definition CommitMovePeerLocked (cmd : MetadataCommand) (regionid newpeerid : N)
    (expectedepoch : option RegionEpoch) : M MetadataCommandResult :=
  s ← get;
  if (revision_ s =? 0) || negb (expectedrevision cmd =? revision_ s) then
    reject METADATA_REVISION_MISMATCH "metadata revision precondition failed"
  else
    match migrations_ s !! regionid with
    | None => throw "migration commit does not match an in-flight move"
    | Some migration =>
        if negb (target_id migration =? newpeerid)
        then throw "migration commit does not match an in-flight move"
        else
          match find_region regionid (regions_ s) with
          | None => throw "migration Region does not exist"
          | Some region =>
              if negb (epoch_matches region expectedepoch) then
                fail METADATA_REVISION_MISMATCH
                  "migration expected epoch does not match the Region descriptor"
              else if negb (existsb (λ p, peerId p =? mig_sourcepeerid migration) (peers region))
              then throw "migration source peer is no longer present"
              else
                modify (λ s, set_migrations (delete regionid (migrations_ s)) (stamp_regions (bump
                  (set_regions (update_first (λ r, u64_of_int (regionId r) =? regionid)
                                  (moved_region migration) (regions_ s)) s)))) ;;
                s1 ← get;
                PublishLocked (regions_ s1) ;;
                s2 ← get;
                mret (with_regions
                  [ToProtoRegion (RegionMeta.with_revision (revision_ s2) (moved_region migration region))]
                  (with_migration (completed_migration migration) (OkResult s2)))
          end
    end.

Definition CancelMovePeerLocked (cmd : MetadataCommand) (regionid newpeerid : N)
    : M MetadataCommandResult :=
  s ← get;
  if (revision_ s =? 0) || negb (expectedrevision cmd =? revision_ s) then
    reject METADATA_REVISION_MISMATCH "metadata revision precondition failed"
  else
    match migrations_ s !! regionid with
    | None => throw "migration cancellation does not match an in-flight move"
    | Some migration =>
        if negb (target_id migration =? newpeerid)
        then throw "migration cancellation does not match an in-flight move"
        else
          modify (λ s, stamp_regions (bump (set_migrations (delete regionid (migrations_ s)) s))) ;;
          s1 ← get;
          PublishLocked (regions_ s1) ;;
          s2 ← get;
          mret (with_migration (mig_with_phase REPLICA_MIGRATION_CANCELLED migration) (OkResult s2))
    end.

(** ** Store heartbeats and balancer configuration *)

Definition observation_fits (o : RegionSchedulingObservation) : bool :=
  negb ((ob_regionid o =? 0) || (ob_peerid o =? 0) || (version (ob_epoch o) =? 0) ||
        (confVersion (ob_epoch o) =? 0)).

(** The observations of the previous heartbeat by Region; [emplace] keeps the
    first one. *)
Definition previous_observation (previous : option StoreHeartbeat) (rid : N)
    : option RegionSchedulingObservation :=
  match previous with
  | Some hb => find (λ o, ob_regionid o =? rid) (hb_regions hb)
  | None => None
  end.

(** The merge loop: an observation with an older epoch does not replace the one
    held. *)
Fixpoint merge_observations (previous : option StoreHeartbeat) (seenRegions : list N)
    (os : list RegionSchedulingObservation) : result (list RegionSchedulingObservation) :=
  match os with
  | [] => Ok []
  | o :: rest =>
      if negb (observation_fits o) || bool_decide (ob_regionid o ∈ seenRegions)
      then Throw "invalid or duplicate Region heartbeat observation"
      else
        merged ← merge_observations previous (ob_regionid o :: seenRegions) rest;
        Ok (match previous_observation previous (ob_regionid o) with
            | Some old => if EpochOlder (ob_epoch o) (ob_epoch old) then old else o
            | None => o
            end :: merged)
  end.

Definition heartbeat_fits (h : StoreHeartbeat) : bool :=
  negb ((hb_storeid h =? 0) || (hb_sequence h =? 0) || (hb_observedatms h =? 0) ||
        (hb_expiresatms h <=? hb_observedatms h) || (hb_capacitybytes h =? 0) ||
        (hb_capacitybytes h <? hb_availablebytes h)).

Definition hb_with_regions (os : list RegionSchedulingObservation) (h : StoreHeartbeat) :=
  MkHeartbeat (hb_storeid h) (hb_sequence h) (hb_observedatms h) (hb_expiresatms h)
    (hb_capacitybytes h) (hb_availablebytes h) (hb_requestcount h) os.

Definition ReportStoreHeartbeatLocked (cmd : MetadataCommand) (heartbeat : StoreHeartbeat)
    : M MetadataCommandResult :=
  s ← get;
  if revision_ s =? 0 then fail METADATA_INVALID_ARGUMENT "metadata cluster is not bootstrapped"
  else if negb (expectedrevision cmd =? 0) && negb (expectedrevision cmd =? revision_ s) then
    fail METADATA_REVISION_MISMATCH "heartbeat metadata revision precondition failed"
  else if negb (heartbeat_fits heartbeat) then throw "invalid Store heartbeat"
  else if negb (bool_decide (is_Some (stores_ s !! hb_storeid heartbeat)))
  then throw "heartbeat Store is not registered"
  else
    let previous := storeHeartbeats_ s !! hb_storeid heartbeat in
    let accept : M MetadataCommandResult :=
      merged ← lift (merge_observations previous [] (hb_regions heartbeat));
      let mergedHb := hb_with_regions merged heartbeat in
      modify (λ s, count_heartbeat true
                (set_heartbeats (<[hb_storeid heartbeat := mergedHb]> (storeHeartbeats_ s)) s)) ;;
      s1 ← get;
      PublishLocked (regions_ s1) ;;
      s2 ← get; mret (with_heartbeat mergedHb (OkResult s2)) in
    match previous with
    | Some prev =>
        if hb_sequence heartbeat <=? hb_sequence prev then
          modify (count_heartbeat false) ;; mret (with_heartbeat prev (OkResult s))
        else accept
    | None => accept
    end.

Definition cf_with_version (v : N) (c : AutoBalancerConfig) : AutoBalancerConfig :=
  MkConfig (cf_enabled c) (cf_paused c) v (cf_evaluationintervalms c) (cf_heartbeattimeoutms c)
    (cf_minimumfreebytes c) (cf_maximumdiskusedratio c) (cf_replicationfactor c)
    (cf_imbalancethreshold c) (cf_splitsizebytes c) (cf_splitrequestthreshold c)
    (cf_splitconsecutivewindows c) (cf_regioncooldownms c) (cf_maximumactiveoperators c)
    (cf_maximumactiveperstore c).

Definition config_fits (current c : AutoBalancerConfig) : bool :=
  negb ((cf_version c <=? cf_version current) || (cf_evaluationintervalms c =? 0) ||
        (cf_heartbeattimeoutms c <? cf_evaluationintervalms c) ||
        double_le (cf_maximumdiskusedratio c) 0 || double_gt (cf_maximumdiskusedratio c) 1 ||
        (cf_replicationfactor c =? 0) || double_lt (cf_imbalancethreshold c) 0 ||
        double_gt (cf_imbalancethreshold c) 1 || (cf_splitconsecutivewindows c =? 0) ||
        (cf_maximumactiveoperators c =? 0) || (cf_maximumactiveperstore c =? 0) ||
        (cf_maximumactiveoperators c <? cf_maximumactiveperstore c)).

Definition UpdateAutoBalancerConfigLocked (cmd : MetadataCommand) (requested : AutoBalancerConfig)
    : M MetadataCommandResult :=
  s ← get;
  if revision_ s =? 0 then fail METADATA_INVALID_ARGUMENT "metadata cluster is not bootstrapped"
  else if negb (expectedrevision cmd =? 0) && negb (expectedrevision cmd =? revision_ s) then
    fail METADATA_REVISION_MISMATCH "balancer configuration revision precondition failed"
  else
    let config := if cf_version requested =? 0
                  then cf_with_version (cf_version (balancerConfig_ s) +₆₄ 1) requested else requested in
    if negb (config_fits (balancerConfig_ s) config)
    then throw "invalid Auto-Balancer configuration"
    else
      modify (set_config config) ;;
      s1 ← get;
      PublishLocked (regions_ s1) ;;
      s2 ← get; mret (with_config config (OkResult s2)).

(** ** Scheduling operators *)

Definition operator_fits (s : t) (o : SchedulingOperator) : bool :=
  negb (String.eqb (so_operatorid o) EmptyString || (so_regionid o =? 0) ||
        negb (so_sourcerevision o =? revision_ s) ||
        negb (bool_decide (so_phase o = SCHEDULING_OPERATOR_PENDING)) || (so_createdatms o =? 0) ||
        (so_updatedatms o <? so_createdatms o) || (so_deadlinems o <=? so_createdatms o)).

(** [activeByStore[store]]: the operators in flight that read from or write to
    the Store. *)
Definition active_on_store (s : t) (store : N) : N :=
  let active := filter (λ o, IsTerminal (so_phase o) = false) ((map_to_list (schedulingOperators_ s)).*2) in
  N.of_nat (length (filter (λ o, so_sourcestoreid o = store) active) +
            length (filter (λ o, so_targetstoreid o = store) active)).

(** A move needs a source replica and a fresh target with room. *)
Definition move_is_safe (s : t) (region : RegionMetadata) (o : SchedulingOperator) : bool :=
  hosted_on (so_sourcestoreid o) region && negb (hosted_on (so_targetstoreid o) region) &&
  match storeHeartbeats_ s !! so_targetstoreid o with
  | Some hb => (so_createdatms o <? hb_expiresatms hb) &&
               (cf_minimumfreebytes (balancerConfig_ s) <=? hb_availablebytes hb)
  | None => false
  end.

(** The per-Store budget and the admission itself. *)
Definition admit_operator (requested : SchedulingOperator) : M MetadataCommandResult :=
  s ← get;
  let budget := cf_maximumactiveperstore (balancerConfig_ s) in
  if (negb (so_sourcestoreid requested =? 0) && (budget <=? active_on_store s (so_sourcestoreid requested))) ||
     (negb (so_targetstoreid requested =? 0) && (budget <=? active_on_store s (so_targetstoreid requested)))
  then fail METADATA_CONFLICT "Store scheduling concurrency budget is exhausted"
  else
    modify (λ s, count_admission (set_operators
      (<[so_operatorid requested := requested]> (schedulingOperators_ s))
      (<[so_regionid requested := so_operatorid requested]> (activeOperatorByRegion_ s)) s)) ;;
    s1 ← get;
    PublishLocked (regions_ s1) ;;
    s2 ← get; mret (with_operator requested (OkResult s2)).

Definition CreateSchedulingOperatorLocked (cmd : MetadataCommand) (requested : SchedulingOperator)
    : M MetadataCommandResult :=
  s ← get;
  if (revision_ s =? 0) || negb (expectedrevision cmd =? revision_ s) then
    fail METADATA_REVISION_MISMATCH "operator source revision is stale"
  else if negb (operator_fits s requested) then throw "invalid scheduling operator"
  else
    match schedulingOperators_ s !! so_operatorid requested with
    | Some existing =>
        if negb (so_regionid existing =? so_regionid requested) ||
           negb (bool_decide (so_type existing = so_type requested))
        then fail METADATA_CONFLICT "operator identifier is already used by different work"
        else mret (with_operator existing (OkResult s))
    | None =>
        if negb (cf_enabled (balancerConfig_ s)) || cf_paused (balancerConfig_ s) then
          fail METADATA_CONFLICT "Auto-Balancer is disabled or paused"
        else if bool_decide (is_Some (activeOperatorByRegion_ s !! so_regionid requested)) then
          fail METADATA_CONFLICT "Region already has an active topology operator"
        else
          match find_region (so_regionid requested) (regions_ s) with
          | None => throw "operator Region does not exist"
          | Some region =>
              if negb (epoch_matches region (so_regionepoch requested)) then
                fail METADATA_REVISION_MISMATCH "operator Region epoch is stale"
              else if cf_maximumactiveoperators (balancerConfig_ s)
                      <=? N.of_nat (size (activeOperatorByRegion_ s)) then
                fail METADATA_CONFLICT "cluster scheduling concurrency budget is exhausted"
              else
                match so_type requested with
                | SCHEDULING_OPERATOR_MOVE_PEER =>
                    if (so_sourcestoreid requested =? 0) || (so_targetstoreid requested =? 0) ||
                       (so_sourcestoreid requested =? so_targetstoreid requested)
                    then throw "move operator requires distinct source and target Stores"
                    else if negb (move_is_safe s region requested)
                    then fail METADATA_CONFLICT "move operator has no safe fresh destination"
                    else admit_operator requested
                | SCHEDULING_OPERATOR_SPLIT_REGION =>
                    if so_splitcandidategeneration requested =? 0
                    then throw "split operator requires an opaque candidate generation"
                    else admit_operator requested
                | SCHEDULING_OPERATOR_TYPE_OTHER _ => throw "unknown scheduling operator type"
                end
          end
    end.

(** Assignments to an operator. *)
Definition so_progress (phase : SchedulingOperatorPhase) (attempts : N) (lasterror : string)
    (cancelrequested irreversible : bool) (updatedatms : N) (o : SchedulingOperator) :=
  MkOperator (so_operatorid o) (so_type o) (so_regionid o) (so_sourcerevision o) (so_regionepoch o)
    (so_sourcestoreid o) (so_targetstoreid o) (so_splitcandidategeneration o) phase attempts
    (so_deadlinems o) lasterror cancelrequested irreversible (so_createdatms o) updatedatms.

(** Store the operator back and release its Region when it has ended. *)
Definition store_operator (operatorid : string) (o : SchedulingOperator) (release : bool)
    : M MetadataCommandResult :=
  modify (λ s, set_operators (<[operatorid := o]> (schedulingOperators_ s))
    (if release then delete (so_regionid o) (activeOperatorByRegion_ s)
     else activeOperatorByRegion_ s) s) ;;
  s1 ← get;
  PublishLocked (regions_ s1) ;;
  s2 ← get; mret (with_operator o (OkResult s2)).

Definition UpdateSchedulingOperatorLocked (cmd : MetadataCommand) (operatorid : string)
    (expectedphase phase : SchedulingOperatorPhase) (attempts : N) (lasterror : string)
    (irreversible : bool) (updatedatms : N) : M MetadataCommandResult :=
  s ← get;
  if negb (expectedrevision cmd =? 0) && negb (expectedrevision cmd =? revision_ s) then
    fail METADATA_REVISION_MISMATCH "operator update revision precondition failed"
  else
    match schedulingOperators_ s !! operatorid with
    | None => fail METADATA_NOT_FOUND "scheduling operator does not exist"
    | Some current =>
        if negb (bool_decide (so_phase current = expectedphase)) then
          fail METADATA_CONFLICT "scheduling operator phase precondition failed"
        else if negb (ValidTransition (so_phase current) phase) || (attempts <? so_attempts current) ||
                (updatedatms <? so_updatedatms current) then
          fail METADATA_CONFLICT "invalid scheduling operator transition"
        else
          store_operator operatorid
            (so_progress phase attempts lasterror (so_cancelrequested current)
               (so_irreversible current || irreversible) updatedatms current) (IsTerminal phase)
    end.

Definition CancelSchedulingOperatorLocked (cmd : MetadataCommand) (operatorid : string)
    (updatedatms : N) : M MetadataCommandResult :=
  s ← get;
  if negb (expectedrevision cmd =? 0) && negb (expectedrevision cmd =? revision_ s) then
    fail METADATA_REVISION_MISMATCH "operator cancellation revision precondition failed"
  else
    match schedulingOperators_ s !! operatorid with
    | None => fail METADATA_NOT_FOUND "scheduling operator does not exist"
    | Some current =>
        if IsTerminal (so_phase current) then mret (with_operator current (OkResult s))
        else if so_irreversible current then
          fail METADATA_CONFLICT "scheduling operator has crossed its irreversible point"
        else
          let pending := bool_decide (so_phase current = SCHEDULING_OPERATOR_PENDING) in
          store_operator operatorid
            (so_progress (if pending then SCHEDULING_OPERATOR_CANCELLED else SCHEDULING_OPERATOR_CANCELLING)
               (so_attempts current) (so_lasterror current) true (so_irreversible current)
               (N.max (so_updatedatms current) updatedatms) current) pending
    end.

(** ** Identifiers and Stores *)

Definition AllocateIdsLocked (cmd : MetadataCommand) (namespace : IdNamespace) (count : N)
    : M MetadataCommandResult :=
  s ← get;
  if revision_ s =? 0 then fail METADATA_INVALID_ARGUMENT "metadata cluster is not bootstrapped"
  else if negb (expectedrevision cmd =? revision_ s) then
    reject METADATA_REVISION_MISMATCH "metadata revision precondition failed"
  else
    let allocate (highWater : N) (store : N → t → t) : M MetadataCommandResult :=
      raised ← lift (SafeAdd highWater count);
      modify (λ s, bump (store raised s)) ;;
      s1 ← get;
      PublishLocked (regions_ s1) ;;
      s2 ← get; mret (with_ids (highWater +₆₄ 1) count (OkResult s2)) in
    match namespace with
    | ID_NAMESPACE_REGION =>
        allocate (regionIdHighWater_ s)
          (λ n s, set_highWater n (peerIdHighWater_ s) (storeIdHighWater_ s) s)
    | ID_NAMESPACE_PEER =>
        allocate (peerIdHighWater_ s)
          (λ n s, set_highWater (regionIdHighWater_ s) n (storeIdHighWater_ s) s)
    | ID_NAMESPACE_STORE =>
        allocate (storeIdHighWater_ s)
          (λ n s, set_highWater (regionIdHighWater_ s) (peerIdHighWater_ s) n s)
    | ID_NAMESPACE_OTHER _ => throw "unknown identifier namespace"
    end.

Definition PutStoreLocked (cmd : MetadataCommand) (store : StoreDescriptor) : M MetadataCommandResult :=
  s ← get;
  if (revision_ s =? 0) || negb (expectedrevision cmd =? revision_ s) then
    reject METADATA_REVISION_MISMATCH "metadata revision precondition failed"
  else if negb (store_fits store) then throw "invalid Store descriptor"
  else
    modify (λ s, bump (set_highWater (regionIdHighWater_ s) (peerIdHighWater_ s)
      (N.max (storeIdHighWater_ s) (st_storeid store))
      (set_stores (<[st_storeid store := store]> (stores_ s)) s))) ;;
    s1 ← get;
    PublishLocked (regions_ s1) ;;
    s2 ← get; mret (OkResult s2).

(** ** Commands *)

Definition handle (cmd : MetadataCommand) : M MetadataCommandResult :=
  match command cmd with
  | Bootstrap d rs ss => BootstrapLocked cmd d rs ss
  | ReplaceRegions ids ds => ReplaceRegionsLocked cmd ids ds
  | AllocateIds ns n => AllocateIdsLocked cmd ns n
  | PutStore store => PutStoreLocked cmd store
  | PrepareSplit rid k e => PrepareSplitLocked cmd rid k e
  | CommitSplit rid => CommitSplitLocked cmd rid
  | AckSplit _ ids => AckSplitLocked cmd ids
  | PrepareMovePeer rid from to e => PrepareMovePeerLocked cmd rid from to e
  | CommitMovePeer rid pid e => CommitMovePeerLocked cmd rid pid e
  | CancelMovePeer rid pid => CancelMovePeerLocked cmd rid pid
  | ReportStoreHeartbeat h => ReportStoreHeartbeatLocked cmd h
  | UpdateAutoBalancerConfig c => UpdateAutoBalancerConfigLocked cmd c
  | CreateSchedulingOperator o => CreateSchedulingOperatorLocked cmd o
  | UpdateSchedulingOperator i ep p a l ir u => UpdateSchedulingOperatorLocked cmd i ep p a l ir u
  | CancelSchedulingOperator i u => CancelSchedulingOperatorLocked cmd i u
  | COMMAND_NOT_SET => reject METADATA_INVALID_ARGUMENT "metadata command is missing an operation"
  end.

(** The exception handler around the [switch]. *)
Definition ApplyLocked (cmd : MetadataCommand) (s : t) : t * MetadataCommandResult :=
  match handle cmd s with
  | (s1, Ok r) => (s1, r)
  | (s1, Throw what) => (count_reject s1, Error s1 METADATA_INVALID_ARGUMENT what)
  end.

(** The deque holds the identifiers in the order of their records; the oldest
    are dropped beyond [kDedupRetention]. *)
Definition RecordResultLocked (mutation : string) (r : MetadataCommandResult) (s : t) : t :=
  let dedup := <[mutation := MkRecord mutation r (revision_ s)]> (dedup_ s) in
  let order := dedupOrder_ s ++ [mutation] in
  let excess := (length order - kDedupRetention)%nat in
  set_dedup (foldl (λ d id, delete id d) dedup (take excess order)) (drop excess order) s.

Definition Apply (cmd : MetadataCommand) (s : t) : t * MetadataCommandResult :=
  if String.eqb (mutationid cmd) EmptyString then
    (count_reject s, Error s METADATA_INVALID_ARGUMENT "metadata mutation ID must not be empty")
  else
    match dedup_ s !! mutationid cmd with
    | Some duplicate => (count_dedup s, rec_result duplicate)
    | None =>
        let '(s1, r) := ApplyLocked cmd s in
        (RecordResultLocked (mutationid cmd) r s1, r)
    end.

(** The constructor; the first view has default values. *)
Definition zero_config : AutoBalancerConfig :=
  MkConfig false false 0 0 0 0 (Finite 0) 0 (Finite 0) 0 0 0 0 0 0.
Definition initial : t :=
  MkState (MkView 0 None ∅ 0 0 0 EmptyString ∅ ∅ zero_config ∅ ∅) [] ∅ 0 0 0 0 EmptyString ∅ ∅
    DefaultAutoBalancerConfig ∅ ∅ ∅ [] (MkMetrics 0 0 0 0 0 0).

(** ** Lock-free readers *)

Definition View (s : t) : MetadataView := published_ s.

Definition LookupKey (s : t) (key : string) : option RegionMetadata :=
  match catalog (View s) with
  | None => None
  | Some cat =>
      match RegionCatalog.FindByKey cat key with Ok r => Some r | Throw _ => None end
  end.

Definition LookupRegion (s : t) (rid : N) : option RegionMetadata :=
  match catalog (View s) with
  | None => None
  | Some cat =>
      if int_max <? rid then None
      else match RegionCatalog.FindById cat (int_of_u64 rid) with Ok r => Some r | Throw _ => None end
  end.

Definition LookupMigration (s : t) (rid : N) : option ReplicaMigrationStatus :=
  view_migrations (View s) !! rid.

Definition LookupSchedulingOperator (s : t) (operatorId : string) : option SchedulingOperator :=
  view_schedulingOperators (View s) !! operatorId.

(** [std::find_if] and the loop from there on. *)
Fixpoint scan_from (startKey_ : string) (rs : list RegionMetadata) : list RegionMetadata :=
  match rs with
  | [] => []
  | r :: rest =>
      if Contains r startKey_ || negb (RegionBytewiseLess (startKey r) startKey_)
      then rs else scan_from startKey_ rest
  end.

Definition Scan (s : t) (startKey_ : string) (limit : nat) : list RegionMetadata :=
  match catalog (View s) with
  | None => []
  | Some cat => take limit (scan_from startKey_ cat)
  end.

Definition Metrics (s : t) : MetadataStateMetrics := metrics_ s.

(** ** Snapshots *)

(** Values of a map in the order of their sorted identifiers. *)
Definition sorted_values {A} (m : gmap N A) : list A := (om_list m).*2.

Definition snapshot_message (s : t) : MetadataSnapshot :=
  MkSnapshot kSnapshotFormatVersion (revision_ s) (ToProtoRegion <$> regions_ s)
    (sorted_values (stores_ s)) (regionIdHighWater_ s) (peerIdHighWater_ s) (storeIdHighWater_ s)
    (bootstrapDigest_ s) (omap (λ id, dedup_ s !! id) (dedupOrder_ s))
    (sorted_values (migrations_ s)) (sorted_values (storeHeartbeats_ s)) (Some (balancerConfig_ s))
    ((merge_sort (str_le_on fst) (map_to_list (schedulingOperators_ s))).*2).

(** Protobuf's [SerializeToString] and [ParseFromString] for the message. *)
Class SnapshotCodec := {
  snap_serialize : MetadataSnapshot → option string;
  snap_parse : string → option MetadataSnapshot;
  snap_parse_serialize : ∀ m b, snap_serialize m = Some b → snap_parse b = Some m
}.

Definition Snapshot `{!SnapshotCodec} (s : t) : t * result string :=
  match snap_serialize (snapshot_message s) with
  | Some bytes => (count_snapshot s, Ok bytes)
  | None => (s, Throw "unable to serialize metadata snapshot")
  end.

(** The validation loops of [Restore], each building its map. *)
Fixpoint collect_mutations (rs : list MutationRecord) (dedup : gmap string MutationRecord)
    (order : list string) : result (gmap string MutationRecord * list string) :=
  match rs with
  | [] => Ok (dedup, order)
  | r :: rest =>
      if String.eqb (rec_mutationid r) EmptyString || bool_decide (is_Some (dedup !! rec_mutationid r))
      then Throw "invalid mutation record in metadata snapshot"
      else collect_mutations rest (<[rec_mutationid r := r]> dedup) (order ++ [rec_mutationid r])
  end.

Fixpoint collect_migrations (ms : list ReplicaMigrationStatus) (acc : gmap N ReplicaMigrationStatus)
    : result (gmap N ReplicaMigrationStatus) :=
  match ms with
  | [] => Ok acc
  | m :: rest =>
      if (mig_regionid m =? 0) || (mig_sourcepeerid m =? 0) ||
         (match mig_targetpeer m with Some t => pd_peerid t =? 0 | None => true end) ||
         bool_decide (is_Some (acc !! mig_regionid m))
      then Throw "invalid migration in metadata snapshot"
      else collect_migrations rest (<[mig_regionid m := m]> acc)
  end.

Fixpoint collect_heartbeats (stores : gmap N StoreDescriptor) (hs : list StoreHeartbeat)
    (acc : gmap N StoreHeartbeat) : result (gmap N StoreHeartbeat) :=
  match hs with
  | [] => Ok acc
  | h :: rest =>
      if (hb_storeid h =? 0) || (hb_sequence h =? 0) || (hb_expiresatms h <=? hb_observedatms h) ||
         negb (bool_decide (is_Some (stores !! hb_storeid h))) ||
         bool_decide (is_Some (acc !! hb_storeid h))
      then Throw "invalid Store heartbeat in metadata snapshot"
      else collect_heartbeats stores rest (<[hb_storeid h := h]> acc)
  end.

Definition restored_config_fits (c : AutoBalancerConfig) : bool :=
  negb ((cf_version c =? 0) || (cf_evaluationintervalms c =? 0) ||
        (cf_heartbeattimeoutms c <? cf_evaluationintervalms c) || (cf_replicationfactor c =? 0) ||
        (cf_maximumactiveoperators c =? 0) || (cf_maximumactiveperstore c =? 0) ||
        (cf_maximumactiveoperators c <? cf_maximumactiveperstore c)).

Fixpoint collect_operators (revision : N) (os : list SchedulingOperator)
    (operators : gmap string SchedulingOperator) (active : gmap N string)
    : result (gmap string SchedulingOperator * gmap N string) :=
  match os with
  | [] => Ok (operators, active)
  | o :: rest =>
      if String.eqb (so_operatorid o) EmptyString || (so_regionid o =? 0) ||
         (revision <? so_sourcerevision o) || bool_decide (is_Some (operators !! so_operatorid o))
      then Throw "invalid scheduling operator in metadata snapshot"
      else if IsTerminal (so_phase o) then
        collect_operators revision rest (<[so_operatorid o := o]> operators) active
      else if bool_decide (is_Some (active !! so_regionid o))
      then Throw "multiple active operators for one Region in snapshot"
      else collect_operators revision rest (<[so_operatorid o := o]> operators)
             (<[so_regionid o := so_operatorid o]> active)
  end.

(** The state a decoded snapshot describes; [metrics_] and the view are those of
    the machine that restores. *)
Definition decode_snapshot (sn : MetadataSnapshot) (s : t) : result t :=
  regions ← DecodeRegions (sn_regions sn);
  (if (sn_revision sn =? 0) && negb (bool_decide (regions = []))
   then Throw "uncommitted metadata snapshot contains Regions" else Ok tt) ;;
  (if 0 <? sn_revision sn then RegionCatalog.make regions ;; Ok tt else Ok tt) ;;
  stores ← collect_stores "invalid Store in metadata snapshot" (sn_stores sn) ∅;
  (if (0 <? sn_revision sn) && String.eqb (sn_bootstrapdigest sn) EmptyString
   then Throw "committed metadata snapshot is missing bootstrap digest" else Ok tt) ;;
  (if negb (forallb (peer_on_store stores) (all_peers regions))
   then Throw "snapshot Region peer does not match a Store descriptor" else Ok tt) ;;
  '(dedup, order) ← collect_mutations (sn_recentmutations sn) ∅ [];
  migrations ← collect_migrations (sn_migrations sn) ∅;
  heartbeats ← collect_heartbeats stores (sn_storeheartbeats sn) ∅;
  (let config := default DefaultAutoBalancerConfig (sn_balancerconfig sn) in
   if negb (restored_config_fits config)
   then Throw "invalid Auto-Balancer configuration in metadata snapshot"
   else
     '(operators, active) ← collect_operators (sn_revision sn) (sn_schedulingoperators sn) ∅ ∅;
     Ok (MkState (published_ s) regions stores (sn_revision sn) (sn_regionidhighwater sn)
           (sn_peeridhighwater sn) (sn_storeidhighwater sn) (sn_bootstrapdigest sn) migrations
           heartbeats config operators active dedup order (metrics_ s))).

(** [Restore]: the new state, and the error text when it returns false. *)
Definition Restore `{!SnapshotCodec} (bytes : string) (s : t) : t * result unit :=
  match snap_parse bytes with
  | None => (s, Throw "invalid metadata snapshot format")
  | Some sn =>
      if negb (sn_formatversion sn =? kSnapshotFormatVersion)
      then (s, Throw "invalid metadata snapshot format")
      else
        match decode_snapshot sn s with
        | Throw what => (s, Throw what)
        | Ok s1 => let s2 := RecomputeHighWaterLocked s1 in PublishLocked (regions_ s2) s2
        end
  end.

End MetadataStateMachine.
