(* ===== verification/MetaDemo.v ===== *)
(** * A concrete metadata cluster

    Two Stores and one Region, with the commands that split it, move its peer and
    schedule work on it.  The theorems about the state machine are evaluated on
    these states, and the concrete runs below show what it does in corner cases. *)

From Stdlib Require Import ZArith QArith.
From S2P Require Import Prelude RegionMeta MetaTypes MetaState.
Import MetadataStateMachine.
#[local] Open Scope N_scope.

(** ** Decidable equality of the messages *)

#[global] Instance Q_eq_dec : EqDecision Q.
Proof. solve_decision. Defined.
#[global] Instance double_eq_dec : EqDecision double.
Proof. solve_decision. Defined.
#[global] Instance ReplicaMigrationPhase_eq_dec : EqDecision ReplicaMigrationPhase.
Proof. solve_decision. Defined.
#[global] Instance PeerDescriptor_eq_dec : EqDecision PeerDescriptor.
Proof. solve_decision. Defined.

#[global] Instance RegionDescriptor_eq_dec : EqDecision RegionDescriptor.
Proof.
  refine (fix go (x y : RegionDescriptor) : {x = y} + {x ≠ y} := _).
  destruct x as [a1 a2 a3 a4 a5 a6 a7 p], y as [b1 b2 b3 b4 b5 b6 b7 q].
  destruct (decide ((a1, a2, a3, a4, a5, a6, a7) = (b1, b2, b3, b4, b5, b6, b7))) as [E|E];
    [|right; intros H; apply E; congruence].
  destruct p as [[k c]|], q as [[k' c']|]; try (right; congruence).
  - destruct (decide (k = k')) as [Ek|Ek]; [|right; congruence].
    destruct (go c c') as [Ec|Ec]; [left|right]; congruence.
  - left. congruence.
Defined.

#[global] Instance ReplicaMigrationStatus_eq_dec : EqDecision ReplicaMigrationStatus.
Proof. solve_decision. Defined.
#[global] Instance RegionSchedulingObservation_eq_dec : EqDecision RegionSchedulingObservation.
Proof. solve_decision. Defined.
#[global] Instance StoreHeartbeat_eq_dec : EqDecision StoreHeartbeat.
Proof. solve_decision. Defined.
#[global] Instance AutoBalancerConfig_eq_dec : EqDecision AutoBalancerConfig.
Proof. solve_decision. Defined.
#[global] Instance SchedulingOperator_eq_dec : EqDecision SchedulingOperator.
Proof. solve_decision. Defined.
#[global] Instance MetadataCommandResult_eq_dec : EqDecision MetadataCommandResult.
Proof. solve_decision. Defined.
#[global] Instance MutationRecord_eq_dec : EqDecision MutationRecord.
Proof. solve_decision. Defined.
#[global] Instance MetadataSnapshot_eq_dec : EqDecision MetadataSnapshot.
Proof. solve_decision. Defined.

Module MetaDemo.

(** A codec that knows one message. *)
Definition codec_for (m : MetadataSnapshot) : SnapshotCodec.
Proof.
  refine {| snap_serialize := λ x, if decide (x = m) then Some "snapshot" else None;
            snap_parse := λ b, if String.eqb b "snapshot" then Some m else None |}.
  intros x b. destruct (decide (x = m)) as [->|]; [|done]. by intros [= <-].
Defined.

Definition store_a : StoreDescriptor := MkStore 1 "a" 7000 [].
Definition store_b : StoreDescriptor := MkStore 2 "b" 7001 [].

Definition whole : RegionDescriptor :=
  MkDescriptor 1 EmptyString EmptyString [MkPeerDescriptor 11 1 "a" 7000 false] 11 (MkEpoch 1 1) 0 None.

Definition run (cmds : list MetadataCommand) (s : t) : t := foldl (λ s c, (Apply c s).1) s cmds.

(** The error codes a sequence of commands returns. *)
Fixpoint errors (cmds : list MetadataCommand) (s : t) : list MetadataErrorCode :=
  match cmds with
  | [] => []
  | c :: rest => res_error (Apply c s).2 :: errors rest (Apply c s).1
  end.

Definition boot : MetadataCommand := MkCommand "boot" 0 (Bootstrap "d" [whole] [store_a; store_b]).
Definition booted : t := run [boot] initial.

(** A split at ["m"]. *)
Definition prepare_split : MetadataCommand := MkCommand "ps" 1 (PrepareSplit 1 "m" (Some (MkEpoch 1 1))).
Definition commit_split : MetadataCommand := MkCommand "cs" 2 (CommitSplit 1).
Definition split_prepared : t := run [prepare_split] booted.
Definition split_committed : t := run [commit_split] split_prepared.

(** A move from Store 1 to Store 2. *)
Definition prepare_move : MetadataCommand := MkCommand "pm" 1 (PrepareMovePeer 1 1 2 (Some (MkEpoch 1 1))).
Definition commit_move : MetadataCommand := MkCommand "cm" 2 (CommitMovePeer 1 12 (Some (MkEpoch 1 1))).
Definition move_prepared : t := run [prepare_move] booted.

(** A split operator. *)
Definition op (name : string) : SchedulingOperator :=
  MkOperator name SCHEDULING_OPERATOR_SPLIT_REGION 1 1 (Some (MkEpoch 1 1)) 0 0 1
    SCHEDULING_OPERATOR_PENDING 0 100 EmptyString false false 1 1.
Definition create (name : string) : MetadataCommand :=
  MkCommand ("create-" +:+ name) 1 (CreateSchedulingOperator (op name)).
Definition cancel (name : string) : MetadataCommand :=
  MkCommand ("cancel-" +:+ name) 0 (CancelSchedulingOperator name 2).
Definition touch (name : string) : MetadataCommand :=
  MkCommand ("touch-" +:+ name) 0 (UpdateSchedulingOperator name SCHEDULING_OPERATOR_CANCELLED
    SCHEDULING_OPERATOR_CANCELLED 0 EmptyString false 2).

Example demo_runs :
  errors [boot; prepare_split; commit_split] initial = [METADATA_OK; METADATA_OK; METADATA_OK] ∧
  errors [boot; prepare_move; commit_move] initial = [METADATA_OK; METADATA_OK; METADATA_OK].
Proof. vm_compute. split; reflexivity. Qed.

End MetaDemo.
