(* ===== verification/MetaStep.v ===== *)
(** * Commands of the metadata state machine as steps

    Every command either leaves the durable state alone ([quiet]) or computes a
    new state ([effect]) that it then publishes.  [handle_step] shows that the
    handlers do nothing else; the invariants of MetaInv.v are proved by cases on
    [effect]. *)

From Stdlib Require Import ZArith QArith.
From S2P Require Import Prelude RegionMeta MetaTypes MetaState.
Import MetadataStateMachine.
#[local] Open Scope N_scope.

(** Only the counters differ. *)
Definition quiet (s s' : t) : Prop := ∃ m, s' = set_metrics m s.

Lemma quiet_refl s : quiet s s.
Proof. exists (metrics_ s). by destruct s. Qed.

Lemma quiet_reject s : quiet s (count_reject s).
Proof. by eexists. Qed.

(** The catalog [PublishLocked] puts in the view. *)
Definition publication (rs : list RegionMetadata) : result (option (list RegionMetadata)) :=
  if bool_decide (rs = []) then Ok None else cat ← RegionCatalog.make rs; Ok (Some cat).

(** What the calls after the last assignment of a handler do: publish and answer
    [METADATA_OK], or fail with the new state in place and the old view. *)
Definition finishes (s1 s' : t) (r : result MetadataCommandResult) : Prop :=
  match publication (regions_ s1) with
  | Ok cat => s' = set_published (view_of s1 cat) s1 ∧
              ∃ res, r = Ok res ∧ res_error res = METADATA_OK
  | Throw w => s' = s1 ∧ r = Throw w
  end.

Lemma finishes_publish s1 s' (r : result MetadataCommandResult) (k : t → MetadataCommandResult) :
  (PublishLocked (regions_ s1) ;; (s2 ← get; mret (k s2))) s1 = (s', r) →
  (∀ s2, res_error (k s2) = METADATA_OK) → finishes s1 s' r.
Proof.
  unfold finishes, publication, PublishLocked, mbind, M_bind, get, mret, M_ret.
  case_bool_decide; [intros [= <- <-]; eauto|].
  destruct (RegionCatalog.make (regions_ s1)) as [cat|w]; simpl; intros [= <- <-]; eauto.
Qed.

(** ** The changes commands make *)

Inductive effect (cmd : MetadataCommand) (s : t) : t → Prop :=
| EffBootstrap d ds ss decoded validated stores' :
    command cmd = Bootstrap d ds ss → revision_ s = 0 → regions_ s = [] → d ≠ EmptyString →
    DecodeRegions ds = Ok decoded → RegionCatalog.make (RegionMeta.with_revision 1 <$> decoded) = Ok validated →
    collect_stores "invalid or duplicate Store descriptor" ss ∅ = Ok stores' →
    forallb (peer_on_store stores') (all_peers validated) = true →
    effect cmd s (RecomputeHighWaterLocked (stamp_regions (set_regions validated
      (set_stores stores' (set_digest d (set_revision 1 s))))))
| EffReplace ids ds removed retained decoded validated :
    command cmd = ReplaceRegions ids ds → revision_ s ≠ 0 →
    partition_regions ids (regions_ s) = (removed, retained, []) →
    DecodeRegions ds = Ok decoded →
    CoveredInterval removed = CoveredInterval (RegionMeta.with_revision (revision_ s +₆₄ 1) <$> decoded) →
    RegionCatalog.make (retained ++ (RegionMeta.with_revision (revision_ s +₆₄ 1) <$> decoded)) = Ok validated →
    effect cmd s (RecomputeHighWaterLocked (stamp_regions (set_regions validated (bump s))))
| EffPrepareSplit rid k e parent s0 id qs :
    command cmd = PrepareSplit rid k e → revision_ s ≠ 0 →
    find_last_region rid (regions_ s) = Some parent → splitPending parent = None →
    str_lt (startKey parent) k → (endKey parent = EmptyString ∨ str_lt k (endKey parent)) →
    (id ← next_region_id; qs ← child_peers (peers parent); mret (id, qs)) s = (s0, Ok (id, qs)) →
    effect cmd s (RecomputeHighWaterLocked (set_regions (replace_region
      (with_pending (Some (MkSplitPending k (MkRegion (int_of_u64 id) k (endKey parent) qs (MkEpoch 1 1) 1
         (match qs with q :: _ => peerId q | [] => 0 end) None))) parent) (regions_ s0)) (bump s0)))
| EffCommitSplit rid parent pending validated :
    command cmd = CommitSplit rid → revision_ s ≠ 0 →
    find_last_region rid (regions_ s) = Some parent → splitPending parent = Some pending →
    RegionCatalog.make (replace_region
      (with_epoch (MkEpoch (version (epoch parent) +₆₄ 1) (confVersion (epoch parent)))
         (with_end (splitKey pending) (with_pending None parent))) (regions_ s) ++
      [RegionMeta.with_revision (revision_ s +₆₄ 1) (with_end (endKey parent) (child pending))]) = Ok validated →
    effect cmd s (RecomputeHighWaterLocked (stamp_regions (set_regions validated (bump s))))
| EffPrepareMove rid from to e region source store s0 pid :
    command cmd = PrepareMovePeer rid from to e → revision_ s ≠ 0 →
    find_region rid (regions_ s) = Some region → migrations_ s !! rid = None →
    find (λ p, storeId p =? from) (peers region) = Some source → hosted_on to region = false →
    stores_ s !! to = Some store → next_peer_id s = (s0, Ok pid) →
    effect cmd s (stamp_regions (bump (set_migrations (<[rid := MkMigration rid (peerId source) from
      (Some (MkPeerDescriptor pid to (st_host store) (st_port store) true))
      REPLICA_MIGRATION_PREPARING_TARGET 0 0 (mutationid cmd)]> (migrations_ s0)) s0)))
| EffCommitMove rid pid e migration region :
    command cmd = CommitMovePeer rid pid e → revision_ s ≠ 0 →
    migrations_ s !! rid = Some migration → find_region rid (regions_ s) = Some region →
    existsb (λ p, peerId p =? mig_sourcepeerid migration) (peers region) = true →
    effect cmd s (set_migrations (delete rid (migrations_ s)) (stamp_regions (bump
      (set_regions (update_first (λ r, u64_of_int (regionId r) =? rid) (moved_region migration)
                      (regions_ s)) s))))
| EffCancelMove rid pid :
    command cmd = CancelMovePeer rid pid → revision_ s ≠ 0 →
    effect cmd s (stamp_regions (bump (set_migrations (delete rid (migrations_ s)) s)))
| EffHeartbeat h merged :
    command cmd = ReportStoreHeartbeat h → revision_ s ≠ 0 → heartbeat_fits h = true →
    is_Some (stores_ s !! hb_storeid h) →
    (∀ prev, storeHeartbeats_ s !! hb_storeid h = Some prev → hb_sequence prev < hb_sequence h) →
    merge_observations (storeHeartbeats_ s !! hb_storeid h) [] (hb_regions h) = Ok merged →
    effect cmd s (count_heartbeat true
      (set_heartbeats (<[hb_storeid h := hb_with_regions merged h]> (storeHeartbeats_ s)) s))
| EffConfig c config :
    command cmd = UpdateAutoBalancerConfig c → revision_ s ≠ 0 →
    config_fits (balancerConfig_ s) config = true → effect cmd s (set_config config s)
| EffCreate o :
    command cmd = CreateSchedulingOperator o → revision_ s ≠ 0 → operator_fits s o = true →
    schedulingOperators_ s !! so_operatorid o = None →
    activeOperatorByRegion_ s !! so_regionid o = None →
    N.of_nat (size (activeOperatorByRegion_ s)) < cf_maximumactiveoperators (balancerConfig_ s) →
    effect cmd s (count_admission (set_operators (<[so_operatorid o := o]> (schedulingOperators_ s))
      (<[so_regionid o := so_operatorid o]> (activeOperatorByRegion_ s)) s))
| EffUpdate id ep p a l ir u current :
    command cmd = UpdateSchedulingOperator id ep p a l ir u →
    schedulingOperators_ s !! id = Some current → ValidTransition (so_phase current) p = true →
    effect cmd s (set_operators (<[id := so_progress p a l (so_cancelrequested current)
        (so_irreversible current || ir) u current]> (schedulingOperators_ s))
      (if IsTerminal p then delete (so_regionid current) (activeOperatorByRegion_ s)
       else activeOperatorByRegion_ s) s)
| EffCancel id u current :
    command cmd = CancelSchedulingOperator id u →
    schedulingOperators_ s !! id = Some current → IsTerminal (so_phase current) = false →
    so_irreversible current = false →
    let pending := bool_decide (so_phase current = SCHEDULING_OPERATOR_PENDING) in
    effect cmd s (set_operators (<[id := so_progress
        (if pending then SCHEDULING_OPERATOR_CANCELLED else SCHEDULING_OPERATOR_CANCELLING)
        (so_attempts current) (so_lasterror current) true (so_irreversible current)
        (N.max (so_updatedatms current) u) current]> (schedulingOperators_ s))
      (if pending then delete (so_regionid current) (activeOperatorByRegion_ s)
       else activeOperatorByRegion_ s) s)
| EffAllocRegion n raised :
    command cmd = AllocateIds ID_NAMESPACE_REGION n → revision_ s ≠ 0 →
    SafeAdd (regionIdHighWater_ s) n = Ok raised →
    effect cmd s (bump (set_highWater raised (peerIdHighWater_ s) (storeIdHighWater_ s) s))
| EffAllocPeer n raised :
    command cmd = AllocateIds ID_NAMESPACE_PEER n → revision_ s ≠ 0 →
    SafeAdd (peerIdHighWater_ s) n = Ok raised →
    effect cmd s (bump (set_highWater (regionIdHighWater_ s) raised (storeIdHighWater_ s) s))
| EffAllocStore n raised :
    command cmd = AllocateIds ID_NAMESPACE_STORE n → revision_ s ≠ 0 →
    SafeAdd (storeIdHighWater_ s) n = Ok raised →
    effect cmd s (bump (set_highWater (regionIdHighWater_ s) (peerIdHighWater_ s) raised s))
| EffPutStore store :
    command cmd = PutStore store → revision_ s ≠ 0 → store_fits store = true →
    effect cmd s (bump (set_highWater (regionIdHighWater_ s) (peerIdHighWater_ s)
      (N.max (storeIdHighWater_ s) (st_storeid store))
      (set_stores (<[st_storeid store := store]> (stores_ s)) s))).

(** A split that runs out of identifiers has raised the high-water marks. *)
Definition raised (s s' : t) : Prop :=
  ∃ r p, s' = set_highWater r p (storeIdHighWater_ s) s ∧ regionIdHighWater_ s ≤ r ∧ peerIdHighWater_ s ≤ p.

Inductive step (cmd : MetadataCommand) (s : t) : t → result MetadataCommandResult → Prop :=
| StepQuiet s' r : quiet s s' → step cmd s s' r
| StepEffect s1 s' r : effect cmd s s1 → finishes s1 s' r → step cmd s s' r
| StepExhausted rid k e parent s' w :
    command cmd = PrepareSplit rid k e → find_last_region rid (regions_ s) = Some parent →
    (id ← next_region_id; qs ← child_peers (peers parent); mret (id, qs)) s = (s', Throw w) →
    raised s s' → step cmd s s' (Throw w).

(** ** The handlers *)

(** One step of a computation in [M]. *)
Ltac run :=
  cbn [mbind M_bind get modify mret M_ret lift throw fail reject fst snd] in *;
  unfold mbind, M_bind, get, modify, mret, M_ret, lift, throw, fail, reject in *; cbn beta iota in *.

Ltac quiet_step :=
  let H := fresh in
  intros H; injection H as <- <-; apply StepQuiet;
  first [apply quiet_refl|apply quiet_reject|by eexists].

Ltac finish_step :=
  let H := fresh in
  intros H; eapply StepEffect; [|eapply finishes_publish; [exact H|done]].

Lemma PutStoreLocked_step cmd store s s' r :
  command cmd = PutStore store → PutStoreLocked cmd store s = (s', r) → step cmd s s' r.
Proof.
  intros Hc. unfold PutStoreLocked. run. destruct (_ || _) eqn:Hg; [quiet_step|].
  destruct (store_fits store) eqn:Hf; simpl; [|quiet_step]. reflect_bools.
  finish_step. by apply EffPutStore.
Qed.

Lemma AllocateIdsLocked_step cmd ns n s s' r :
  command cmd = AllocateIds ns n → AllocateIdsLocked cmd ns n s = (s', r) → step cmd s s' r.
Proof.
  intros Hc. unfold AllocateIdsLocked. run. destruct (revision_ s =? 0) eqn:H0; [quiet_step|].
  destruct (negb _); [quiet_step|]. reflect_bools.
  destruct ns; [destruct (SafeAdd (regionIdHighWater_ s) n) as [raised|w] eqn:Ha
               |destruct (SafeAdd (peerIdHighWater_ s) n) as [raised|w] eqn:Ha
               |destruct (SafeAdd (storeIdHighWater_ s) n) as [raised|w] eqn:Ha|]; try quiet_step; finish_step.
  - by eapply EffAllocRegion.
  - by eapply EffAllocPeer.
  - by eapply EffAllocStore.
Qed.

Lemma BootstrapLocked_step cmd d ds ss s s' r :
  command cmd = Bootstrap d ds ss → BootstrapLocked cmd d ds ss s = (s', r) → step cmd s s' r.
Proof.
  intros Hc. unfold BootstrapLocked. run.
  destruct (negb (revision_ s =? 0) || _) eqn:H0; [quiet_step|].
  destruct (negb (expectedrevision cmd =? 0) || _) eqn:H1; [quiet_step|]. reflect_bools.
  destruct (DecodeRegions ds) as [decoded|w] eqn:Hd; [|quiet_step].
  destruct (RegionCatalog.make _) as [validated|w] eqn:Hv; [|quiet_step].
  destruct (collect_stores _ ss ∅) as [stores'|w] eqn:Hs; [|quiet_step].
  destruct (forallb _ _) eqn:Hp; simpl; [|quiet_step].
  finish_step. by eapply EffBootstrap.
Qed.

Lemma ReplaceRegionsLocked_step cmd ids ds s s' r :
  command cmd = ReplaceRegions ids ds → ReplaceRegionsLocked cmd ids ds s = (s', r) → step cmd s s' r.
Proof.
  intros Hc. unfold ReplaceRegionsLocked. run. destruct (revision_ s =? 0) eqn:H0; [quiet_step|].
  do 3 (case_match; [quiet_step|]).
  destruct (partition_regions ids (regions_ s)) as [[removed retained] missing] eqn:Hpart.
  destruct (bool_decide (missing = [])) eqn:Hm; simpl; [|quiet_step]. reflect_bools. subst missing.
  destruct (DecodeRegions ds) as [decoded|w] eqn:Hd; [|quiet_step].
  destruct (CoveredInterval removed) as [before|w] eqn:Hb; [|quiet_step].
  destruct (CoveredInterval (_ <$> decoded)) as [after|w] eqn:Ha; [|quiet_step].
  case_bool_decide as Heq; simpl; [|quiet_step]. subst after.
  destruct (mapM_result _ _); [|quiet_step].
  destruct (RegionCatalog.make _) as [validated|w] eqn:Hv; [|quiet_step].
  finish_step. eapply EffReplace; try done. congruence.
Qed.

Lemma child_peers_keeps ps s s0 r :
  child_peers ps s = (s0, r) →
  ∃ p, s0 = set_highWater (regionIdHighWater_ s) p (storeIdHighWater_ s) s ∧ peerIdHighWater_ s ≤ p.
Proof.
  revert s s0 r. induction ps as [|x ps IH]; intros s s0 r; simpl; unfold next_peer_id; run.
  { intros [= <- <-]. exists (peerIdHighWater_ s). split; [by destruct s|done]. }
  unfold SafeAdd at 1. destruct (_ || _).
  { intros [= <- <-]. exists (peerIdHighWater_ s). split; [by destruct s|done]. }
  destruct (child_peers ps _) as [s1 [qs|w]] eqn:Hc; intros [= <- <-];
    destruct (IH _ _ _ Hc) as (p & -> & Hle); exists p; simpl in *; (split; [done|lia]).
Qed.

Lemma next_region_id_keeps s s0 r :
  next_region_id s = (s0, r) →
  s0 = s ∨ (∃ id, r = Ok id ∧ s0 = set_highWater id (peerIdHighWater_ s) (storeIdHighWater_ s) s ∧
            id = regionIdHighWater_ s + 1 ∧ id ≤ u64_max).
Proof.
  unfold next_region_id. run. unfold SafeAdd. destruct (_ || _) eqn:Hb; intros [= <- <-]; [by left|].
  right. eexists. split_and!; try done. reflect_bools. unfold u64_max in *. lia.
Qed.

Lemma PrepareSplitLocked_step cmd rid k e s s' r :
  command cmd = PrepareSplit rid k e → PrepareSplitLocked cmd rid k e s = (s', r) → step cmd s s' r.
Proof.
  intros Hc. unfold PrepareSplitLocked. run. destruct (_ || _) eqn:Hg; [quiet_step|]. reflect_bools.
  destruct (find_last_region rid (regions_ s)) as [parent|] eqn:Hf; [|quiet_step].
  destruct (splitPending parent) eqn:Hp; [quiet_step|].
  destruct (negb (bool_decide _)); [quiet_step|].
  destruct (str_leb k (startKey parent) || _) eqn:Hk; [quiet_step|]. reflect_bools.
  destruct (next_region_id s) as [sa [id|w]] eqn:Hid.
  - destruct (child_peers (peers parent) sa) as [s0 [qs|w]] eqn:Hq.
    + finish_step. eapply EffPrepareSplit; try done.
      * unfold str_lt. by rewrite str_ltb_leb, negb_true_iff.
      * match goal with Hx : _ && _ = false |- _ => apply andb_false_iff in Hx as [Hx|Hx] end;
          reflect_bools; [by left|right]. unfold str_lt. by rewrite str_ltb_leb, negb_true_iff.
      * run. by rewrite Hid, Hq.
    + intros [= <- <-]. eapply StepExhausted; [done|done|run; by rewrite Hid, Hq|].
      destruct (next_region_id_keeps _ _ _ Hid) as [->|(id' & [= <-] & -> & Hid' & _)];
        destruct (child_peers_keeps _ _ _ _ Hq) as (p & -> & Hle); simpl in *;
        eexists _, p; (split_and!; [done|lia|done]).
  - destruct (next_region_id_keeps _ _ _ Hid) as [->|(id & ? & _)]; [|done].
    quiet_step.
Qed.

Lemma CommitSplitLocked_step cmd rid s s' r :
  command cmd = CommitSplit rid → CommitSplitLocked cmd rid s = (s', r) → step cmd s s' r.
Proof.
  intros Hc. unfold CommitSplitLocked. run. destruct (_ || _) eqn:Hg; [quiet_step|]. reflect_bools.
  destruct (find_last_region rid (regions_ s)) as [parent|] eqn:Hf; [|quiet_step].
  destruct (splitPending parent) as [pending|] eqn:Hp; [|quiet_step].
  destruct (RegionCatalog.make _) as [validated|w] eqn:Hv; [|quiet_step].
  finish_step. by eapply EffCommitSplit.
Qed.

Lemma AckSplitLocked_step cmd ids s s' r : AckSplitLocked cmd ids s = (s', r) → step cmd s s' r.
Proof. unfold AckSplitLocked. run. do 2 (case_match; [quiet_step|]). quiet_step. Qed.

Lemma PrepareMovePeerLocked_step cmd rid from to e s s' r :
  command cmd = PrepareMovePeer rid from to e →
  PrepareMovePeerLocked cmd rid from to e s = (s', r) → step cmd s s' r.
Proof.
  intros Hc. unfold PrepareMovePeerLocked. run. destruct (_ || _) eqn:Hg; [quiet_step|]. reflect_bools.
  destruct (find_region rid (regions_ s)) as [region|] eqn:Hf; [|quiet_step].
  destruct (bool_decide _) eqn:Hm; [quiet_step|].
  destruct (negb (epoch_matches _ _)); [quiet_step|].
  destruct (find _ (peers region)) as [source|] eqn:Hsrc; [|quiet_step].
  destruct (hosted_on to region) eqn:Hh; [quiet_step|].
  destruct (stores_ s !! to) as [store|] eqn:Hst; [|quiet_step].
  destruct (next_peer_id s) as [s0 [pid|w]] eqn:Hid.
  - finish_step. eapply EffPrepareMove; try done. reflect_bools. by apply eq_None_not_Some.
  - assert (s0 = s) as ->.
    { revert Hid. unfold next_peer_id. run. destruct (SafeAdd _ _); congruence. }
    quiet_step.
Qed.

Lemma CommitMovePeerLocked_step cmd rid pid e s s' r :
  command cmd = CommitMovePeer rid pid e →
  CommitMovePeerLocked cmd rid pid e s = (s', r) → step cmd s s' r.
Proof.
  intros Hc. unfold CommitMovePeerLocked. run. destruct (_ || _) eqn:Hg; [quiet_step|]. reflect_bools.
  destruct (migrations_ s !! rid) as [migration|] eqn:Hm; [|quiet_step].
  destruct (negb (target_id _ =? _)); [quiet_step|].
  destruct (find_region rid (regions_ s)) as [region|] eqn:Hf; [|quiet_step].
  destruct (negb (epoch_matches _ _)); [quiet_step|].
  destruct (existsb _ (peers region)) eqn:Hsrc; simpl; [|quiet_step].
  finish_step. by eapply EffCommitMove.
Qed.

Lemma CancelMovePeerLocked_step cmd rid pid s s' r :
  command cmd = CancelMovePeer rid pid → CancelMovePeerLocked cmd rid pid s = (s', r) → step cmd s s' r.
Proof.
  intros Hc. unfold CancelMovePeerLocked. run. destruct (_ || _) eqn:Hg; [quiet_step|]. reflect_bools.
  destruct (migrations_ s !! rid) as [migration|]; [|quiet_step].
  destruct (negb _); [quiet_step|]. finish_step. by eapply EffCancelMove.
Qed.

Lemma ReportStoreHeartbeatLocked_step cmd h s s' r :
  command cmd = ReportStoreHeartbeat h → ReportStoreHeartbeatLocked cmd h s = (s', r) → step cmd s s' r.
Proof.
  intros Hc. unfold ReportStoreHeartbeatLocked. run. destruct (revision_ s =? 0) eqn:H0; [quiet_step|].
  destruct (_ && _); [quiet_step|]. destruct (heartbeat_fits h) eqn:Hh; simpl; [|quiet_step].
  destruct (bool_decide _) eqn:Hs; simpl; [|quiet_step]. reflect_bools.
  destruct (storeHeartbeats_ s !! hb_storeid h) as [prev|] eqn:Hprev.
  - destruct (hb_sequence h <=? hb_sequence prev) eqn:Hseq; [quiet_step|]. reflect_bools.
    destruct (merge_observations _ _ _) as [merged|w] eqn:Hm; [|quiet_step].
    finish_step. rewrite <- Hprev in Hm. eapply EffHeartbeat; try done. intros prev'. rewrite Hprev. by intros [= <-].
  - destruct (merge_observations _ _ _) as [merged|w] eqn:Hm; [|quiet_step].
    finish_step. rewrite <- Hprev in Hm. eapply EffHeartbeat; try done. intros prev'. by rewrite Hprev.
Qed.

Lemma UpdateAutoBalancerConfigLocked_step cmd c s s' r :
  command cmd = UpdateAutoBalancerConfig c →
  UpdateAutoBalancerConfigLocked cmd c s = (s', r) → step cmd s s' r.
Proof.
  intros Hc. unfold UpdateAutoBalancerConfigLocked. run. destruct (revision_ s =? 0) eqn:H0; [quiet_step|].
  destruct (_ && _); [quiet_step|]. destruct (config_fits _ _) eqn:Hf; simpl; [|quiet_step].
  reflect_bools. finish_step. by eapply EffConfig.
Qed.

Lemma CreateSchedulingOperatorLocked_step cmd o s s' r :
  command cmd = CreateSchedulingOperator o →
  CreateSchedulingOperatorLocked cmd o s = (s', r) → step cmd s s' r.
Proof.
  intros Hc. unfold CreateSchedulingOperatorLocked. run. destruct (_ || _) eqn:Hg; [quiet_step|]. reflect_bools.
  destruct (operator_fits s o) eqn:Hf; simpl; [|quiet_step].
  destruct (schedulingOperators_ s !! so_operatorid o) as [existing|] eqn:He.
  { case_match; quiet_step. }
  destruct (_ || _); [quiet_step|]. destruct (bool_decide _) eqn:Ha; [quiet_step|]. reflect_bools.
  destruct (find_region _ _) as [region|] eqn:Hr; [|quiet_step].
  destruct (negb (epoch_matches _ _)); [quiet_step|].
  destruct (_ <=? N.of_nat _) eqn:Hb; [quiet_step|]. reflect_bools.
  assert (admit_operator o s = (s', r) → step cmd s s' r) as Hadmit.
  { unfold admit_operator. run. case_match; [quiet_step|]. finish_step.
    apply EffCreate; try done. by apply eq_None_not_Some. }
  destruct (so_type o).
  - case_match; [quiet_step|]. case_match; [quiet_step|exact Hadmit].
  - case_match; [quiet_step|exact Hadmit].
  - quiet_step.
Qed.

Lemma UpdateSchedulingOperatorLocked_step cmd i ep p a l ir u s s' r :
  command cmd = UpdateSchedulingOperator i ep p a l ir u →
  UpdateSchedulingOperatorLocked cmd i ep p a l ir u s = (s', r) → step cmd s s' r.
Proof.
  intros Hc. unfold UpdateSchedulingOperatorLocked. run. destruct (_ && _); [quiet_step|].
  destruct (schedulingOperators_ s !! i) as [current|] eqn:Hf; [|quiet_step].
  destruct (negb _); [quiet_step|]. destruct (_ || _) eqn:Hv; [quiet_step|]. reflect_bools.
  unfold store_operator. run. finish_step. by apply (EffUpdate cmd s i ep p a l ir u current).
Qed.

Lemma CancelSchedulingOperatorLocked_step cmd i u s s' r :
  command cmd = CancelSchedulingOperator i u →
  CancelSchedulingOperatorLocked cmd i u s = (s', r) → step cmd s s' r.
Proof.
  intros Hc. unfold CancelSchedulingOperatorLocked. run. destruct (_ && _); [quiet_step|].
  destruct (schedulingOperators_ s !! i) as [current|] eqn:Hf; [|quiet_step].
  destruct (IsTerminal _) eqn:Ht; [quiet_step|]. destruct (so_irreversible current) eqn:Hi; [quiet_step|].
  unfold store_operator. run. rewrite <- Hi. finish_step. by apply (EffCancel cmd s i u current).
Qed.

Lemma handle_step cmd s s' r : handle cmd s = (s', r) → step cmd s s' r.
Proof.
  unfold handle. destruct (command cmd) eqn:Hc.
  - by apply BootstrapLocked_step.
  - by apply ReplaceRegionsLocked_step.
  - by apply AllocateIdsLocked_step.
  - by apply PutStoreLocked_step.
  - by apply PrepareSplitLocked_step.
  - by apply CommitSplitLocked_step.
  - by apply AckSplitLocked_step.
  - by apply PrepareMovePeerLocked_step.
  - by apply CommitMovePeerLocked_step.
  - by apply CancelMovePeerLocked_step.
  - by apply ReportStoreHeartbeatLocked_step.
  - by apply UpdateAutoBalancerConfigLocked_step.
  - by apply CreateSchedulingOperatorLocked_step.
  - by apply UpdateSchedulingOperatorLocked_step.
  - by apply CancelSchedulingOperatorLocked_step.
  - quiet_step.
Qed.
