(* ===== verification/MetaInv.v ===== *)
(** * Invariants of the metadata state machine

    Whatever commands are applied, the published view holds a validated catalog,
    so that routing by key is total and unique.  As long as no command fails
    after it has assigned something ([clean]), the catalog of the state is valid,
    the view is that of the state, and the scheduling operators and high-water
    marks are consistent.  Every command but the commit of a peer move is clean. *)

From Stdlib Require Import ZArith QArith.
From S2P Require Import Prelude RegionMeta MetaTypes MetaState MetaDemo MetaStep.
Import MetadataStateMachine.
#[local] Open Scope N_scope.

(** ** Catalogs that differ in what validation does not read *)

Record same_placement (r r' : RegionMetadata) : Prop := MkSame {
  sp_id : regionId r' = regionId r;
  sp_start : startKey r' = startKey r;
  sp_end : endKey r' = endKey r;
  sp_peers : peers r' = peers r;
  sp_leader : leaderPeerId r' = leaderPeerId r;
  sp_epoch : epoch r' = epoch r;
  sp_revision : metadataRevision r' ≠ 0
}.

Lemma same_placement_ok r r' : same_placement r r' → region_ok r → region_ok r'.
Proof.
  intros [E1 E2 E3 E4 E5 E6 E7] [H1 H2 H3 H4 H5 H6 H7 H8].
  split; rewrite ?E1, ?E2, ?E3, ?E4, ?E5, ?E6; done.
Qed.

Lemma covers_same lo rs rs' :
  Forall2 same_placement rs rs' → covers lo rs → covers lo rs'.
Proof.
  intros H. revert lo. induction H as [|r r' rs rs' [E1 E2 E3 E4 E5 E6 E7] Hrs IH]; intros lo; [done|].
  intros [Hs Hrest]. split; [congruence|].
  destruct Hrs as [|r2 r2' rs rs' Hr2 Hrs]; [congruence|].
  destruct Hrest as (He & Hlt & Hc). rewrite E2, E3. split_and!; [done|done|by apply IH].
Qed.

Lemma same_placement_fields rs rs' :
  Forall2 same_placement rs rs' →
  regionId <$> rs' = regionId <$> rs ∧ all_peers rs' = all_peers rs.
Proof.
  induction 1 as [|r r' rs rs' [E1 E2 E3 E4 E5 E6 E7] Hrs [IH1 IH2]]; [done|].
  unfold all_peers in *. csimpl. split; [by rewrite E1, IH1|]. simpl. by rewrite E4, IH2.
Qed.

Lemma valid_same rs rs' : Forall2 same_placement rs rs' → valid_catalog rs → valid_catalog rs'.
Proof.
  intros Hs [Hc Hok Hnd Hndp Hst]. destruct (same_placement_fields _ _ Hs) as [E1 E2].
  split; rewrite ?E1, ?E2; [by eapply covers_same| |done..].
  clear -Hs Hok. induction Hs as [|r r' rs rs' Hr Hrs IH]; [constructor|].
  apply Forall_cons in Hok as [Hr1 Hok]. constructor; [by eapply same_placement_ok|by apply IH].
Qed.

Lemma valid_stamp rev rs :
  rev ≠ 0 → valid_catalog rs → valid_catalog (RegionMeta.with_revision rev <$> rs).
Proof.
  intros Hrev. apply valid_same. induction rs as [|r rs IH]; simpl; constructor; [by split|done].
Qed.

(** ** Regions that came over the wire *)

Lemma wire_norm r : wire_ok (norm_leader r) ↔ wire_ok r.
Proof. unfold norm_leader. case_match; [|done]. by destruct r. Qed.

Lemma wire_stamp rev rs : Forall wire_ok rs → Forall wire_ok (RegionMeta.with_revision rev <$> rs).
Proof. intros H. apply Forall_fmap. eapply Forall_impl; [exact H|]. by intros []. Qed.

Lemma wire_peers r : wire_ok r → Forall wire_peer (peers r).
Proof. destruct r. by intros (_ & ? & _). Qed.

Lemma wire_child r pending : wire_ok r → splitPending r = Some pending → wire_ok (child pending).
Proof. destruct r as [? ? ? ? ? ? ? p]. simpl. intros (_ & _ & H) ->. by destruct pending. Qed.

Lemma wire_identified rs : Forall wire_ok rs → identified rs.
Proof.
  intros Hrs p (ps & Hp & Hps)%list_elem_of_join. apply list_elem_of_fmap in Hps as (r & -> & Hr).
  rewrite Forall_forall in Hrs. pose proof (wire_peers _ (Hrs r Hr)) as Hps.
  rewrite Forall_forall in Hps. by destruct (Hps p Hp) as (? & ? & _).
Qed.

Lemma FromProtoPeer_wire d p : FromProtoPeer d = Ok p → wire_peer p.
Proof.
  unfold FromProtoPeer. destruct (_ || _) eqn:Hb; [done|]. intros [= <-]. reflect_bools.
  unfold wire_peer, short_max in *. simpl. split_and!; [done..| | |done]; unfold short_of_u32;
    rewrite Z.mod_small, (proj2 (Z.ltb_lt _ 32768)) by lia; lia.
Qed.

Lemma int_of_u64_small n : n ≤ int_max → int_of_u64 n = Z.of_N n.
Proof.
  unfold int_max, int_of_u64. intros Hn. rewrite Z.mod_small, (proj2 (Z.ltb_lt _ 2147483648)) by lia. done.
Qed.

Lemma FromProtoRegion_wire d r : FromProtoRegion d = Ok r → wire_ok r.
Proof.
  revert d r. fix IH 1. intros [rid sk ek ps leader e rev pending] r. simpl.
  destruct (N.ltb_spec int_max rid) as [|Hid]; [done|]. intros (pending' & Hp & Hr)%bind_Ok.
  apply bind_Ok in Hr as (ps' & Hps & [= <-]). simpl. rewrite int_of_u64_small by done. split_and!.
  - lia.
  - unfold int_max in Hid. lia.
  - apply mapM_result_Ok in Hps. clear -Hps.
    induction Hps as [|d p ps ps' Hd _ IHp]; constructor; [|done]. by eapply FromProtoPeer_wire.
  - destruct pending as [[k c]|]; [|by injection Hp as <-].
    apply bind_Ok in Hp as (c' & Hc & [= <-]). by apply (IH c).
Qed.

Lemma DecodeRegions_wire ds rs : DecodeRegions ds = Ok rs → Forall wire_ok rs.
Proof.
  unfold DecodeRegions. rewrite mapM_result_Ok. induction 1 as [|d r ds rs Hd _ IH]; constructor; [|done].
  destruct (DescriptorIdsFit d); [|done]. by apply (FromProtoRegion_wire d).
Qed.

(** What the constructor makes of Regions that could be sent. *)
Lemma make_wire rs cat :
  Forall wire_ok rs → RegionCatalog.make rs = Ok cat →
  valid_catalog cat ∧ Forall wire_ok cat ∧ cat = norm_leader <$> sort_regions rs.
Proof.
  intros Hid Hm. apply make_valid in Hm as [Hv ->]; [|by apply wire_identified]. split_and!; [done| |done].
  apply Forall_fmap. assert (sort_regions rs ≡ₚ rs) as Hp by apply merge_sort_Permutation.
  rewrite <- Hp in Hid. eapply Forall_impl; [exact Hid|]. intros r. apply wire_norm.
Qed.

Lemma all_peers_revision rev rs : all_peers (RegionMeta.with_revision rev <$> rs) = all_peers rs.
Proof. unfold all_peers. by rewrite <- list_fmap_compose. Qed.

Lemma all_peers_app rs1 rs2 : all_peers (rs1 ++ rs2) = all_peers rs1 ++ all_peers rs2.
Proof. unfold all_peers. by rewrite fmap_app, join_app. Qed.

Lemma publication_valid rs : valid_catalog rs → publication rs = Ok (Some rs).
Proof.
  intros Hv. unfold publication. rewrite bool_decide_false by (intros ->; by destruct Hv).
  by rewrite valid_make.
Qed.

Lemma publication_covers rs cat : publication rs = Ok (Some cat) → covers EmptyString cat.
Proof.
  unfold publication. case_bool_decide; [done|]. intros (cat' & Hm & [= ->])%bind_Ok.
  by eapply make_covers.
Qed.

Lemma publication_Some rs cat : rs ≠ [] → publication rs = Ok cat → is_Some cat.
Proof.
  unfold publication. case_bool_decide; [done|]. intros _ (cat' & _ & [= <-])%bind_Ok. eauto.
Qed.

(** ** The view always routes *)

Record view_inv (s : t) : Prop := MkViewInv {
  vi_catalog : ∀ cat, catalog (published_ s) = Some cat → covers EmptyString cat;
  vi_boot : revision_ s ≠ 0 → is_Some (catalog (published_ s)) ∧ regions_ s ≠ []
}.

(** What a command publishes on bootstrap was validated by the command. *)
Lemma bootstrap_valid ds decoded validated :
  DecodeRegions ds = Ok decoded →
  RegionCatalog.make (RegionMeta.with_revision 1 <$> decoded) = Ok validated → valid_catalog validated.
Proof.
  intros Hd Hm. apply make_wire in Hm as [Hv _]; [done|].
  by apply wire_stamp, (DecodeRegions_wire ds).
Qed.

Lemma fmap_nonempty {A B} (f : A → B) l : l ≠ [] → f <$> l ≠ [].
Proof. by intros ? ?%fmap_nil_inv. Qed.

Lemma update_first_nonempty {A} (P : A → bool) f l : l ≠ [] → update_first P f l ≠ [].
Proof. destruct l; simpl; [done|]. by case_match. Qed.

Lemma covers_nonempty lo rs : covers lo rs → rs ≠ [].
Proof. by intros ? ->. Qed.

#[local] Hint Resolve fmap_nonempty update_first_nonempty covers_nonempty make_covers : core.

Lemma prepared_keeps ps s s0 (id : N) qs :
  (id ← next_region_id; qs ← child_peers ps; mret (id, qs)) s = (s0, Ok (id, qs)) →
  ∃ p, s0 = set_highWater id p (storeIdHighWater_ s) s ∧ peerIdHighWater_ s ≤ p ∧
       id = regionIdHighWater_ s + 1 ∧ id ≤ u64_max.
Proof.
  run. destruct (next_region_id s) as [sa [i|w]] eqn:Hid; [|done].
  destruct (child_peers ps sa) as [sb [qs'|w]] eqn:Hq; [|done]. intros [= -> -> ->].
  destruct (next_region_id_keeps _ _ _ Hid) as [->|(i & [= ->] & -> & Hi & Hle)].
  { revert Hid. unfold next_region_id. run. unfold SafeAdd. destruct (_ || _) eqn:Hb; [done|].
    intros [= Hs Hi]. exfalso. apply (f_equal regionIdHighWater_) in Hs. simpl in Hs. lia. }
  destruct (child_peers_keeps _ _ _ _ Hq) as (p & -> & Hp). exists p. by split_and!.
Qed.

Lemma next_peer_id_keeps s s0 pid :
  next_peer_id s = (s0, Ok pid) →
  s0 = set_highWater (regionIdHighWater_ s) pid (storeIdHighWater_ s) s ∧
  pid = peerIdHighWater_ s + 1 ∧ pid ≤ u64_max.
Proof.
  unfold next_peer_id. run. unfold SafeAdd. destruct (_ || _) eqn:Hb; intros [= <- <-].
  reflect_bools. unfold u64_max in *. split_and!; [done|done|lia].
Qed.

(** Only a bootstrap starts from revision zero. *)
Lemma effect_boot cmd s s1 :
  effect cmd s s1 → revision_ s1 ≠ 0 →
  (revision_ s ≠ 0 → regions_ s ≠ []) →
  regions_ s1 ≠ [] ∧ (revision_ s = 0 → valid_catalog (regions_ s1)).
Proof.
  intros He Hrev Hne. destruct He; try (specialize (Hne ltac:(assumption)));
    try (split; [simpl; eauto; fail|intros ?; simpl in *; congruence]).
  - split; [simpl; eauto|]. intros _. simpl. apply valid_stamp; [done|]. by eapply bootstrap_valid.
  - match goal with H : _ = (s0, Ok _) |- _ =>
      destruct (prepared_keeps _ _ _ _ _ H) as (p & -> & _) end.
    split; [unfold replace_region; simpl; eauto|]. intros ?. simpl in *. congruence.
  - match goal with H : _ = (s0, Ok _) |- _ =>
      destruct (next_peer_id_keeps _ _ _ H) as (-> & _) end.
    split; [simpl; eauto|]. intros ?. simpl in *. congruence.
Qed.

Lemma quiet_view_inv s s' : quiet s s' → view_inv s → view_inv s'.
Proof. intros [m ->] [H1 H2]. by split. Qed.

Lemma handle_view_inv cmd s s' r : handle cmd s = (s', r) → view_inv s → view_inv s'.
Proof.
  intros Hh Hi. destruct (handle_step _ _ _ _ Hh) as [s' r Hq|s1 s' r He Hf|rid k e parent s' w _ _ _ (rh & ph & -> & _)].
  - by eapply quiet_view_inv.
  - destruct Hi as [Hc Hb]. pose proof (effect_boot _ _ _ He) as Hboot. revert Hf. unfold finishes.
    destruct (publication (regions_ s1)) as [cat|w] eqn:Hp.
    + intros [-> _]. split; simpl.
      * intros cat' ->. by eapply publication_covers.
      * intros Hrev. destruct Hboot as [Hne _]; [done|naive_solver|].
        split; [by eapply publication_Some|done].
    + intros [-> _].
      assert (published_ s1 = published_ s) as Hpub.
      { destruct He; try done.
        - by match goal with H : _ = (s0, Ok _) |- _ => destruct (prepared_keeps _ _ _ _ _ H) as (p & -> & _) end.
        - by match goal with H : _ = (s0, Ok _) |- _ => destruct (next_peer_id_keeps _ _ _ H) as (-> & _) end. }
      split; rewrite Hpub; [done|]. intros Hrev. destruct Hboot as [Hne Hv]; [done|naive_solver|].
      split; [|done]. apply Hb. intros H0. by rewrite (publication_valid _ (Hv H0)) in Hp.
  - destruct Hi as [Hc Hb]. by split.
Qed.

Lemma Apply_view_inv cmd s : view_inv s → view_inv (Apply cmd s).1.
Proof.
  intros Hi. unfold Apply. case_match; [apply (quiet_view_inv s); [by eexists|done]|].
  destruct (dedup_ s !! mutationid cmd); [apply (quiet_view_inv s); [by eexists|done]|].
  unfold ApplyLocked. destruct (handle cmd s) as [s1 [r|w]] eqn:Hh; simpl.
  - destruct (handle_view_inv _ _ _ _ Hh Hi). by split.
  - destruct (handle_view_inv _ _ _ _ Hh Hi). by split.
Qed.

Section Runs.
Context `{!SnapshotCodec}.

(** What happens to a replica of the state machine: it applies commands, takes
    snapshots, and restores bytes it is handed. *)
Inductive mstep : t → t → Prop :=
| MStepApply cmd s : mstep s (Apply cmd s).1
| MStepSnapshot s : mstep s (Snapshot s).1
| MStepRestore bytes s : mstep s (Restore bytes s).1.

Lemma Restore_view_inv bytes s : view_inv s → view_inv (Restore bytes s).1.
Proof.
  intros Hi. unfold Restore. destruct (snap_parse bytes) as [sn|]; [|done].
  destruct (negb _); [done|]. destruct (decode_snapshot sn s) as [s1|w] eqn:Hd; [|done].
  unfold decode_snapshot in Hd. apply bind_Ok in Hd as (rs & _ & Hd).
  apply bind_Ok in Hd as ([] & Hzero & Hd). apply bind_Ok in Hd as ([] & Hval & Hd).
  repeat (let x := fresh "x" in apply bind_Ok in Hd as (x & _ & Hd); try destruct x).
  cbv zeta in Hd. destruct (restored_config_fits _); [|done]. simpl in Hd.
  apply bind_Ok in Hd as ([ops act] & _ & [= <-]).
  unfold PublishLocked. simpl. destruct (decide (sn_revision sn = 0)) as [H0|H0].
  - rewrite H0 in Hzero. simpl in Hzero. destruct (decide (rs = [])) as [->|Hne].
    + simpl. by split.
    + by rewrite (bool_decide_false (rs = [])) in Hzero.
  - rewrite (proj2 (N.ltb_lt 0 (sn_revision sn))) in Hval by lia.
    apply bind_Ok in Hval as (cat & Hm & _). rewrite Hm.
    assert (rs ≠ []) as Hne by (by intros ->). rewrite bool_decide_false by done. simpl.
    split; simpl; [intros cat' [= <-]; by eapply make_covers|by eauto].
Qed.

Lemma run_view_inv s : rtc mstep initial s → view_inv s.
Proof.
  intros Hr. cut (view_inv initial → view_inv s); [intros Hcut; by apply Hcut|].
  induction Hr as [|s s' s'' Hs _ IH]; [done|]. intros Hi. apply IH. destruct Hs as [cmd s0|s0|bytes s0].
  - by apply Apply_view_inv.
  - unfold Snapshot. case_match; [|done]. by apply (quiet_view_inv s0); [eexists|].
  - by apply Restore_view_inv.
Qed.

(** Routing by key never fails on a bootstrapped replica: whatever commands
    it has applied, whatever snapshots it has restored and whichever of them
    failed, the published catalog has a Region that contains the key, only one,
    and [LookupKey] returns it. *)
Theorem LookupKey_total s key :
  rtc mstep initial s → revision_ s ≠ 0 →
  ∃ cat r, catalog (View s) = Some cat ∧ LookupKey s key = Some r ∧ r ∈ cat ∧
           Contains r key = true ∧ ∀ r', r' ∈ cat → Contains r' key = true → r' = r.
Proof.
  intros [Hc Hb]%run_view_inv Hrev. destruct (Hb Hrev) as [[cat Hcat] _].
  destruct (covers_FindByKey cat key (Hc _ Hcat)) as (r & Hf & Hin & Hcon & Huniq).
  exists cat, r. unfold LookupKey, View. rewrite Hcat, Hf. by split_and!.
Qed.

End Runs.

Module ViewDemo.
Import MetaDemo.

#[local] Instance codec : SnapshotCodec := codec_for (snapshot_message booted).

Lemma LookupKey_total_witness :
  ∃ r, LookupKey (run [prepare_split; commit_split] booted) "q" = Some r ∧ regionId r = 2%Z.
Proof.
  destruct (LookupKey_total (run [prepare_split; commit_split] booted) "q") as (cat & r & Hc & Hl & _).
  - do 3 (eapply rtc_l; [apply MStepApply|]). apply rtc_refl.
  - vm_compute. discriminate.
  - exists r. split; [exact Hl|]. revert Hl. vm_compute. intros [= <-]. reflexivity.
Defined.

End ViewDemo.
