(* ===== verification/MetaKeep.v ===== *)
(** * What orderly commands keep

    [minv] is the invariant of the metadata state machine: the catalog of the
    state is valid and is the one published, the high-water marks bound every
    identifier in use, and the tables are keyed by the identifiers their entries
    carry.  It holds along runs of orderly commands: ones that assign nothing
    before they throw ([clean]) and that do not touch a scheduling operator that
    has ended ([live_update]). *)

From Stdlib Require Import ZArith QArith.
From S2P Require Import Prelude RegionMeta MetaTypes MetaState MetaDemo MetaStep MetaInv.
Import MetadataStateMachine.
#[local] Open Scope N_scope.

(** ** The invariant *)

(** A migration in flight: its target is a known Store and a peer identifier
    that was allocated for it. *)
Record migration_at (stores : gmap N StoreDescriptor) (peerHw rid : N) (m : ReplicaMigrationStatus)
    : Prop := MkMigrationAt {
  mo_region : mig_regionid m = rid;
  mo_source : mig_sourcepeerid m ≠ 0;
  mo_target : ∃ d, mig_targetpeer m = Some d ∧ is_Some (stores !! pd_storeid d) ∧ 0 < pd_peerid d ≤ peerHw
}.

Notation migration_ok s := (migration_at (stores_ s) (peerIdHighWater_ s)).

Record operators_ok (rev : N) (ops : gmap string SchedulingOperator) (active : gmap N string) : Prop :=
  MkOperatorsOk {
  oo_entry : ∀ id o, ops !! id = Some o →
    so_operatorid o = id ∧ id ≠ EmptyString ∧ so_regionid o ≠ 0 ∧ so_sourcerevision o ≤ rev;
  oo_active : ∀ rid id, active !! rid = Some id ↔
    ∃ o, ops !! id = Some o ∧ so_regionid o = rid ∧ IsTerminal (so_phase o) = false
}.

Record heartbeat_ok (stores : gmap N StoreDescriptor) (sid : N) (h : StoreHeartbeat) : Prop :=
  MkHeartbeatOk {
  ho_store : hb_storeid h = sid;
  ho_known : is_Some (stores !! sid);
  ho_nonzero : sid ≠ 0;
  ho_sequence : hb_sequence h ≠ 0;
  ho_expires : hb_observedatms h < hb_expiresatms h
}.

(** The high-water marks bound the identifiers in use. *)
Record bounded_at (rs : list RegionMetadata) (stores : gmap N StoreDescriptor) (regionHw peerHw storeHw : N)
    : Prop := MkBoundedAt {
  bd_regions : ∀ r, r ∈ rs → u64_of_int (regionId r) ≤ regionHw;
  bd_peers : ∀ p, p ∈ all_peers rs → peerId p ≤ peerHw ∧ storeId p ≤ storeHw;
  bd_stores : ∀ sid, is_Some (stores !! sid) → sid ≤ storeHw
}.

Notation bounded s :=
  (bounded_at (regions_ s) (stores_ s) (regionIdHighWater_ s) (peerIdHighWater_ s) (storeIdHighWater_ s)).

(** The invariant of the durable fields. *)
Record durable (s : t) : Prop := MkDurable {
  du_valid : revision_ s ≠ 0 → valid_catalog (regions_ s) ∧ bootstrapDigest_ s ≠ EmptyString;
  du_zero : revision_ s = 0 →
    regions_ s = [] ∧ stores_ s = ∅ ∧ migrations_ s = ∅ ∧ storeHeartbeats_ s = ∅;
  du_wire : Forall wire_ok (regions_ s);
  du_bounded : bounded s;
  du_stores : ∀ sid st, stores_ s !! sid = Some st → st_storeid st = sid ∧ store_fits st = true;
  du_migrations : ∀ rid m, migrations_ s !! rid = Some m → migration_ok s rid m;
  du_heartbeats : ∀ sid h, storeHeartbeats_ s !! sid = Some h → heartbeat_ok (stores_ s) sid h;
  du_config : restored_config_fits (balancerConfig_ s) = true;
  du_operators : operators_ok (revision_ s) (schedulingOperators_ s) (activeOperatorByRegion_ s)
}.

Record minv (s : t) : Prop := MkInv {
  mi_durable : durable s;
  mi_view : revision_ s ≠ 0 → published_ s = view_of s (Some (regions_ s))
}.

Lemma minv_initial : minv initial.
Proof.
  split; [|done]. split; try done.
  - split; [intros r Hr|intros p Hp|intros sid Hs]; [by apply not_elem_of_nil in Hr|by apply not_elem_of_nil in Hp|].
    simpl in Hs. rewrite lookup_empty in Hs. by destruct Hs.
  - split; [done|]. intros rid id. split; [done|]. intros (o & Ho & _). done.
Qed.

(** ** Regions *)

Lemma partition_subset ids rs removed retained missing :
  partition_regions ids rs = (removed, retained, missing) → ∀ r, r ∈ retained → r ∈ rs.
Proof.
  revert ids removed retained missing.
  induction rs as [|r rs IH]; intros ids removed retained missing; simpl; [by intros [= <- <- <-]|].
  case_bool_decide.
  - destruct (partition_regions _ rs) as [[a b] c] eqn:Hp. intros [= <- <- <-] x Hx. right. by eapply IH.
  - destruct (partition_regions ids rs) as [[a b] c] eqn:Hp. intros [= <- <- <-] x [->|Hx]%elem_of_cons;
      [by left|right; by eapply IH].
Qed.

Lemma find_last_region_Some rid rs parent :
  find_last_region rid rs = Some parent → parent ∈ rs ∧ regionId parent = int_of_u64 rid.
Proof.
  unfold find_last_region. intros H%last_Some_elem_of%list_elem_of_filter. destruct H as [Hid Hin].
  by apply Z.eqb_eq in Hid.
Qed.

Lemma regionId_inj rs r1 r2 :
  NoDup (regionId <$> rs) → r1 ∈ rs → r2 ∈ rs → regionId r1 = regionId r2 → r1 = r2.
Proof.
  intros Hnd [i Hi]%list_elem_of_lookup [j Hj]%list_elem_of_lookup Heq.
  assert (i = j) as ->; [|congruence].
  eapply (NoDup_lookup _ _ _ _ Hnd); rewrite list_lookup_fmap.
  - by rewrite Hi.
  - rewrite Hj. simpl. by rewrite Heq.
Qed.

Lemma replace_region_same parent new rs :
  NoDup (regionId <$> rs) → Forall region_ok rs → parent ∈ rs → same_placement parent new →
  Forall2 same_placement rs (replace_region new rs).
Proof.
  intros Hnd Hok Hin Hsame. unfold replace_region. apply Forall2_fmap_r, Forall_Forall2_diag, Forall_forall.
  intros r Hr. unfold compose. destruct (Z.eqb_spec (regionId r) (regionId new)) as [Heq|Hne].
  - rewrite (sp_id _ _ Hsame) in Heq. rewrite (regionId_inj rs r parent Hnd Hr Hin Heq). done.
  - rewrite Forall_forall in Hok. split; try done. by apply (ro_revision _ (Hok r Hr)).
Qed.

Lemma replace_region_Forall (P : RegionMetadata → Prop) new rs :
  P new → Forall P rs → Forall P (replace_region new rs).
Proof.
  intros Hn Hrs. apply Forall_fmap. eapply Forall_impl; [exact Hrs|]. intros r Hr. simpl. by case_match.
Qed.

Lemma child_peers_fresh ps s s0 qs :
  child_peers ps s = (s0, Ok qs) →
  Forall2 (λ p q, q = MkPeer (nodeId p) (host p) (port p) (storeId p) (peerId q) (isLearner p) ∧
                  peerIdHighWater_ s < peerId q ≤ peerIdHighWater_ s0) ps qs.
Proof.
  revert s s0 qs. induction ps as [|p ps IH]; intros s s0 qs; simpl.
  { intros [= <- <-]. constructor. }
  run. destruct (next_peer_id s) as [s1 [id|w]] eqn:Hid; [|done].
  apply next_peer_id_keeps in Hid as (-> & -> & _).
  destruct (child_peers ps _) as [s2 [qs'|w]] eqn:Hq; [|done]. intros [= <- <-].
  destruct (child_peers_keeps _ _ _ _ Hq) as (h & -> & Hh). simpl in *.
  constructor; [simpl; split; [done|lia]|].
  eapply Forall2_impl; [by eapply IH|]. simpl. intros p' q [Hq' Hlt]. split; [done|lia].
Qed.

(** ** The catalog *)

(** No identifier or revision is about to overflow. *)
Record room (s : t) : Prop := MkRoom {
  rm_revision : revision_ s < u64_max;
  rm_region : regionIdHighWater_ s < int_max;
  rm_store : storeIdHighWater_ s ≤ int_max;
  rm_peer : peerIdHighWater_ s + N.of_nat (length (all_peers (regions_ s))) ≤ u64_max
}.

Lemma next_revision s : room s → revision_ s +₆₄ 1 = revision_ s + 1.
Proof.
  intros [Hr _ _ _]. unfold add64, wrap64. apply N.mod_small. unfold u64_max, u64_size in *. lia.
Qed.

Lemma next_revision_nonzero s : room s → revision_ s +₆₄ 1 ≠ 0.
Proof. intros Hr. rewrite next_revision by done. lia. Qed.

Lemma bump_valid s : room s → valid_catalog (regions_ s) → valid_catalog (regions_ (stamp_regions (bump s))).
Proof. intros Hr Hv. simpl. apply valid_stamp; [by apply next_revision_nonzero|done]. Qed.

Lemma replaced_catalog s ids ds removed retained decoded validated :
  durable s → partition_regions ids (regions_ s) = (removed, retained, []) →
  DecodeRegions ds = Ok decoded →
  RegionCatalog.make (retained ++ (RegionMeta.with_revision (revision_ s +₆₄ 1) <$> decoded)) = Ok validated →
  valid_catalog validated ∧ Forall wire_ok validated.
Proof.
  intros Hd Hp Hdec Hm. apply make_wire in Hm as (Hv & Hw & _); [done|]. apply Forall_app. split.
  - apply Forall_forall. intros r Hr. pose proof (du_wire _ Hd) as Hall. rewrite Forall_forall in Hall.
    apply Hall. by eapply partition_subset.
  - by apply wire_stamp, (DecodeRegions_wire ds).
Qed.

(** The child of a prepared split can be sent. *)
Lemma prepared_wire s k parent (id : N) qs s0 :
  wire_ok parent → id ≤ int_max →
  (id ← next_region_id; qs ← child_peers (peers parent); mret (id, qs)) s = (s0, Ok (id, qs)) →
  wire_ok (with_pending (Some (MkSplitPending k (MkRegion (int_of_u64 id) k (endKey parent) qs (MkEpoch 1 1) 1
     (match qs with q :: _ => peerId q | [] => 0 end) None))) parent).
Proof.
  intros Hw Hid Hc. pose proof (wire_peers _ Hw) as Hps.
  destruct parent as [rid sk ek ps e rev l pend]. destruct Hw as (Hr & _ & _). simpl in *.
  split_and!; [lia..|done| | | |done]; rewrite ?int_of_u64_small by done; [lia|unfold int_max in *; lia|].
  revert Hc. run. destruct (next_region_id s) as [sa [i|w]] eqn:Hi; [|done].
  destruct (child_peers ps sa) as [sb [qs'|w]] eqn:Hq; [|done]. intros [= -> -> ->].
  apply child_peers_fresh in Hq. clear -Hps Hq.
  induction Hq as [|p q ps qs [-> Hlt] _ IH]; [constructor|]. apply Forall_cons in Hps as [Hp Hps].
  constructor; [|by apply IH]. destruct Hp as (H1 & _ & H3 & H4). unfold wire_peer. simpl in *.
  split_and!; [done|lia|lia|lia|done].
Qed.

(** *** A committed move *)

Lemma update_first_Forall2 {A} (R : A → A → Prop) (P : A → bool) f l :
  (∀ a, a ∈ l → R a a) → (∀ a, a ∈ l → P a = true → R a (f a)) → Forall2 R l (update_first P f l).
Proof.
  induction l as [|a l IH]; intros Hrefl Hf; simpl; [constructor|]. destruct (P a) eqn:Ha.
  - constructor; [apply Hf; [by left|done]|].
    apply Forall_Forall2_diag, Forall_forall. intros b Hb. apply Hrefl. by right.
  - constructor; [apply Hrefl; by left|]. apply IH; intros b Hb; [apply Hrefl|apply Hf]; by right.
Qed.

Lemma update_first_elem {A} (P : A → bool) f (l : list A) x :
  x ∈ update_first P f l → x ∈ l ∨ ∃ a, a ∈ l ∧ P a = true ∧ x = f a.
Proof.
  induction l as [|a l IH]; simpl; [by intros ?%not_elem_of_nil|]. destruct (P a) eqn:Ha.
  - intros [->|Hx]%elem_of_cons; [right; exists a; split_and!; [by left|done..]|left; by right].
  - intros [->|Hx]%elem_of_cons; [left; by left|].
    destruct (IH Hx) as [?|(b & Hb & ? & ->)]; [left; by right|right]. exists b. split_and!; [by right|done..].
Qed.

Lemma moved_region_fields m r :
  regionId (moved_region m r) = regionId r ∧ startKey (moved_region m r) = startKey r ∧
  endKey (moved_region m r) = endKey r ∧ splitPending (moved_region m r) = splitPending r.
Proof. unfold moved_region. by case_match. Qed.

Lemma moved_region_peers m r :
  peers (moved_region m r) = update_first (λ p, peerId p =? mig_sourcepeerid m)
    (λ _, let d := default default_peer_descriptor (mig_targetpeer m) in
          MkPeer (int_of_u64 (wrap64 (pd_storeid d + u64_max))) (pd_host d) (short_of_u32 (pd_port d))
            (pd_storeid d) (pd_peerid d) false) (peers r).
Proof. unfold moved_region. by case_match. Qed.

Lemma moved_region_leader m r :
  leaderPeerId (moved_region m r) = leaderPeerId r ∨
  leaderPeerId (moved_region m r) = pd_peerid (default default_peer_descriptor (mig_targetpeer m)).
Proof. unfold moved_region. case_match; [by right|by left]. Qed.

(** The peer a migration adds: allocated, and on a registered Store. *)
Lemma migration_target s rid m :
  durable s → migrations_ s !! rid = Some m →
  let d := default default_peer_descriptor (mig_targetpeer m) in
  0 < pd_peerid d ≤ peerIdHighWater_ s ∧ 0 < pd_storeid d ≤ storeIdHighWater_ s.
Proof.
  intros Hd Hm. destruct (du_migrations _ Hd _ _ Hm) as [_ _ (d & -> & [st Hst] & Hp)]. simpl.
  split; [done|]. destruct (du_stores _ Hd _ _ Hst) as [Hid Hf]. split.
  - unfold store_fits in Hf. rewrite negb_true_iff, Hid in Hf. reflect_bools. lia.
  - apply (bd_stores _ _ _ _ _ (du_bounded _ Hd)). by rewrite Hst.
Qed.

Lemma node_of_store sid : 0 < sid ≤ int_max → int_of_u64 (wrap64 (sid + u64_max)) = int_of_u64 (sid - 1).
Proof.
  unfold int_max, u64_max, wrap64, u64_size. intros Hs. f_equal.
  replace (sid + 18446744073709551615) with (sid - 1 + 1 * 18446744073709551616) by lia.
  rewrite N.Div0.mod_add. apply N.mod_small. lia.
Qed.

Lemma short_of_u32_le n : (short_of_u32 n ≤ 32767)%Z.
Proof.
  unfold short_of_u32. destruct (Z.ltb_spec (Z.of_N n mod 65536) 32768); [lia|].
  pose proof (Z.mod_pos_bound (Z.of_N n) 65536). lia.
Qed.

Lemma sorted_keys {A} (f : A → string) l :
  StronglySorted (str_lt_on f) l ↔ StronglySorted str_lt (f <$> l).
Proof.
  induction l as [|a l IH]; [split; constructor|]. simpl.
  split; intros [Hs Hall]%StronglySorted_inv; (constructor; [by apply IH|]);
    revert Hall; rewrite Forall_fmap; done.
Qed.

Section Moved.
Context (s : t) (rid : N) (m : ReplicaMigrationStatus) (rev : N).
Hypothesis Hd : durable s.
Hypothesis Hm : migrations_ s !! rid = Some m.

Definition moved_regions : list RegionMetadata :=
  RegionMeta.with_revision rev <$>
    update_first (λ r, u64_of_int (regionId r) =? rid) (moved_region m) (regions_ s).

(** A Region after the move: unchanged, or moved. *)
Lemma moved_regions_elem r1 :
  r1 ∈ moved_regions →
  ∃ r, r ∈ regions_ s ∧
       (r1 = RegionMeta.with_revision rev r ∨ r1 = RegionMeta.with_revision rev (moved_region m r)).
Proof using.
  intros (r & -> & Hr)%list_elem_of_fmap. apply update_first_elem in Hr as [Hr|(a & Ha & _ & ->)]; eauto.
Qed.

Lemma moved_regions_peer r1 p :
  r1 ∈ moved_regions → p ∈ peers r1 →
  p ∈ all_peers (regions_ s) ∨
  p = (let d := default default_peer_descriptor (mig_targetpeer m) in
       MkPeer (int_of_u64 (wrap64 (pd_storeid d + u64_max))) (pd_host d) (short_of_u32 (pd_port d))
         (pd_storeid d) (pd_peerid d) false).
Proof using.
  intros (r & Hr & Heq)%moved_regions_elem Hp.
  assert (∀ q, q ∈ peers r → q ∈ all_peers (regions_ s)) as Hin.
  { intros q Hq. apply list_elem_of_join. exists (peers r). split; [done|]. apply list_elem_of_fmap. eauto. }
  destruct Heq as [->| ->]; [left; by apply Hin|].
  change (p ∈ peers (moved_region m r)) in Hp. rewrite moved_region_peers in Hp.
  apply update_first_elem in Hp as [Hp|(a & _ & _ & ->)]; [left; by apply Hin|by right].
Qed.

Lemma moved_regions_identified : identified moved_regions.
Proof using Hd Hm.
  intros p (ps & Hp & Hps)%list_elem_of_join. apply list_elem_of_fmap in Hps as (r & -> & Hr).
  destruct (moved_regions_peer r p Hr Hp) as [Hin| ->].
  - by apply (wire_identified (regions_ s) (du_wire _ Hd)).
  - destruct (migration_target s rid m Hd Hm). simpl. lia.
Qed.

Lemma moved_regions_starts : startKey <$> moved_regions = startKey <$> regions_ s.
Proof using.
  unfold moved_regions. rewrite <- list_fmap_compose. symmetry.
  apply list_eq_Forall2, Forall2_fmap. apply update_first_Forall2; [done|].
  intros r _ _. symmetry. apply (moved_region_fields m r).
Qed.

Hypothesis Hrev : revision_ s ≠ 0.

(** A move that is published leaves the catalog valid and in order. *)
Lemma moved_regions_published cat : publication moved_regions = Ok cat → valid_catalog moved_regions.
Proof using Hd Hm Hrev.
  destruct (du_valid _ Hd Hrev) as [Hv _]. unfold publication. case_bool_decide as Hnil.
  { exfalso. pose proof moved_regions_starts as Hs. rewrite Hnil in Hs. symmetry in Hs.
    apply fmap_nil_inv in Hs. apply (covers_nonempty _ _ (vc_covers _ Hv)). done. }
  intros (cat' & Hmk & _)%bind_Ok.
  apply make_valid in Hmk as [Hv' ->]; [|by apply moved_regions_identified].
  assert (sort_regions moved_regions = moved_regions) as Hsort.
  { apply (merge_sort_strict startKey), (sorted_keys startKey). rewrite moved_regions_starts.
    apply (proj1 (sorted_keys startKey _)). by eapply covers_sorted, vc_covers. }
  rewrite Hsort in Hv'. assert (norm_leader <$> moved_regions = moved_regions) as Hn; [|by rewrite Hn in Hv'].
  rewrite <- (list_fmap_id moved_regions) at 2. apply list_fmap_ext.
  intros i r1 (r & Hr & Heq)%list_elem_of_lookup_2%moved_regions_elem.
  assert (leaderPeerId r1 ≠ 0) as Hl.
  { pose proof (vc_regions _ Hv) as Hok. rewrite Forall_forall in Hok. specialize (Hok r Hr).
    assert (leaderPeerId r ≠ 0) as Hr0.
    { apply ro_leader in Hok as Hl. apply list_elem_of_fmap in Hl as (p & -> & Hp).
      pose proof (ro_peers_ok _ Hok) as Hps. rewrite Forall_forall in Hps. by apply po_peer, Hps. }
    destruct Heq as [->| ->]; [done|]. change (leaderPeerId (moved_region m r) ≠ 0).
    destruct (moved_region_leader m r) as [->| ->]; [done|].
    destruct (migration_target s rid m Hd Hm). simpl in *. lia. }
  unfold norm_leader. by rewrite (proj2 (N.eqb_neq _ _) Hl).
Qed.

Lemma moved_regions_wire :
  storeIdHighWater_ s ≤ int_max → valid_catalog moved_regions → Forall wire_ok moved_regions.
Proof using Hd Hm Hrev.
  intros Hsw Hv. apply Forall_forall. intros r1 Hr1.
  assert (Forall wire_peer (peers r1)) as Hps.
  { apply Forall_forall. intros p Hp. destruct (moved_regions_peer r1 p Hr1 Hp) as [Hin|Heq].
    - apply list_elem_of_join in Hin as (ps & Hin & Hps). apply list_elem_of_fmap in Hps as (r & -> & Hr).
      pose proof (du_wire _ Hd) as Hw. rewrite Forall_forall in Hw.
      pose proof (wire_peers _ (Hw r Hr)) as Hwp. rewrite Forall_forall in Hwp. auto.
    - pose proof (vc_regions _ Hv) as Hok. rewrite Forall_forall in Hok.
      pose proof (ro_peers_ok _ (Hok _ Hr1)) as Hpo. rewrite Forall_forall in Hpo.
      pose proof (po_port _ (Hpo p Hp)) as Hport. destruct (migration_target s rid m Hd Hm) as [H1 H2].
      subst p. unfold wire_peer. simpl in *. split_and!; [lia|lia|done|apply short_of_u32_le|].
      rewrite node_of_store, (proj2 (N.leb_le _ int_max)) by lia. done. }
  apply moved_regions_elem in Hr1 as (r & Hr & Heq). pose proof (du_wire _ Hd) as Hw.
  rewrite Forall_forall in Hw. specialize (Hw r Hr).
  destruct Heq as [->| ->]; destruct r as [i sk ek ps e v l pend]; [exact Hw|].
  destruct Hw as (Hi & _ & Hpend). simpl in Hi, Hpend. revert Hps. unfold moved_region. simpl.
  destruct (l =? mig_sourcepeerid m); simpl; intros Hps; split_and!; try done; lia.
Qed.

End Moved.

(** Cases on a change, with the hypotheses of every constructor named. *)
Ltac effect_cases He :=
  destruct He as [d ds ss decoded validated stores' Hc H0 Hnil Hdig Hdec Hmk Hcs Hps
    |ids ds removed retained decoded validated Hc H0 Hpart Hdec Hcov Hmk
    |rid k e parent s0 id qs Hc H0 Hf Hpend Hk1 Hk2 Hids
    |rid parent pending validated Hc H0 Hf Hpend Hmk
    |rid from to e region source store s0 pid Hc H0 Hf Hmig Hsrc Hh Hst Hid
    |rid pid e migration region Hc H0 Hm Hf Hsrc
    |rid pid Hc H0
    |h merged Hc H0 Hfits Hst Hseq Hmerge
    |c config Hc H0 Hfits
    |o Hc H0 Hfits Hnew Hidle Hbudget
    |i ep p a l ir u current Hc Hcur Htrans
    |i u current Hc Hcur Hlive Hirr
    |n raised Hc H0 Hadd
    |n raised Hc H0 Hadd
    |n raised Hc H0 Hadd
    |store Hc H0 Hfits];
  [| |destruct (prepared_keeps _ _ _ _ _ Hids) as (ph & -> & Hph & Hid & Hidmax)
   | |destruct (next_peer_id_keeps _ _ _ Hid) as (-> & Hpid & Hpidmax)|..].

(** The commands that rebuild the catalog. *)
Lemma effect_catalog cmd s s1 cat :
  durable s → room s → effect cmd s s1 →
  ((∃ rid pid e, command cmd = CommitMovePeer rid pid e) → publication (regions_ s1) = Ok cat) →
  (revision_ s1 ≠ 0 → valid_catalog (regions_ s1)) ∧ Forall wire_ok (regions_ s1).
Proof.
  intros Hd Hr He Hpub. pose proof (next_revision_nonzero _ Hr) as Hnz. pose proof (du_wire _ Hd) as Hw.
  effect_cases He;
    try (destruct (du_valid _ Hd H0) as [Hv _]); simpl; try (split; [intros _|]; eauto using valid_stamp, wire_stamp; fail);
    try (split; [apply (du_valid _ Hd)|done]).
  - apply make_wire in Hmk as (Hv & Hw' & _); [|by apply wire_stamp, (DecodeRegions_wire ds)].
    split; [intros _; by apply valid_stamp|by apply wire_stamp].
  - destruct (replaced_catalog _ _ _ _ _ _ _ Hd Hpart Hdec Hmk) as [Hv' Hw'].
    split; [intros _; by apply valid_stamp|by apply wire_stamp].
  - destruct (find_last_region_Some _ _ _ Hf) as [Hin _].
    pose proof (rm_region _ Hr). rewrite Forall_forall in Hw. split.
    + intros _. eapply valid_same; [|exact Hv].
      eapply (replace_region_same parent); [apply Hv|apply Hv|done|]. split; try done.
      pose proof (vc_regions _ Hv) as Hok. rewrite Forall_forall in Hok. by apply (ro_revision _ (Hok _ Hin)).
    + apply replace_region_Forall; [|by apply Forall_forall]. eapply prepared_wire; [by apply Hw|lia|done].
  - destruct (find_last_region_Some _ _ _ Hf) as [Hin _]. rewrite Forall_forall in Hw.
    pose proof (Hw _ Hin) as Hwp. pose proof (wire_child _ _ Hwp Hpend) as Hwc.
    apply make_wire in Hmk as (Hv' & Hw' & _).
    { split; [intros _; by apply valid_stamp|by apply wire_stamp]. }
    apply Forall_app. split.
    + apply replace_region_Forall; [|by apply Forall_forall].
      destruct parent. simpl in *. tauto.
    + constructor; [|constructor]. by destruct (child pending).
  - change (RegionMeta.with_revision _ <$> _) with (moved_regions s rid migration (revision_ s +₆₄ 1)) in *.
    assert (valid_catalog (moved_regions s rid migration (revision_ s +₆₄ 1))) as Hv'.
    { eapply moved_regions_published; [done..|]. apply Hpub. by eauto. }
    split; [done|]. eapply moved_regions_wire; [done..|apply Hr|done].
Qed.

(** ** High-water marks *)

Lemma foldl_max_ge h l : h ≤ foldl N.max h l.
Proof. revert h. induction l as [|y l IH]; intros h; simpl; [done|]. specialize (IH (N.max h y)). lia. Qed.

Lemma foldl_max_elem h l x : x ∈ l → x ≤ foldl N.max h l.
Proof.
  revert h. induction l as [|y l IH]; intros h; simpl; [by intros ?%not_elem_of_nil|].
  intros [->|Hx]%elem_of_cons; [|by apply IH]. pose proof (foldl_max_ge (N.max h y) l). lia.
Qed.

Lemma recompute_bounded s : bounded (RecomputeHighWaterLocked s).
Proof.
  split; simpl.
  - intros r Hr. apply foldl_max_elem, list_elem_of_fmap. by exists r.
  - intros p Hp. split; [apply foldl_max_elem, list_elem_of_fmap; by exists p|].
    etrans; [|apply foldl_max_ge]. apply foldl_max_elem, list_elem_of_fmap. by exists p.
  - intros sid [st Hst]. apply foldl_max_elem, list_elem_of_fmap. exists (sid, st).
    split; [done|]. by apply elem_of_map_to_list.
Qed.

(** Nothing lowers a high-water mark. *)
Definition grown (s s1 : t) : Prop :=
  regionIdHighWater_ s ≤ regionIdHighWater_ s1 ∧ peerIdHighWater_ s ≤ peerIdHighWater_ s1 ∧
  storeIdHighWater_ s ≤ storeIdHighWater_ s1.

Lemma recompute_grown s : grown s (RecomputeHighWaterLocked s).
Proof.
  unfold grown. simpl. split_and!; [apply foldl_max_ge..|]. etrans; [|apply foldl_max_ge]. apply foldl_max_ge.
Qed.

Lemma SafeAdd_Ok value count n : SafeAdd value count = Ok n → n = value + count ∧ 0 < count ∧ value < u64_max.
Proof.
  unfold SafeAdd. destruct (_ || _) eqn:Hb; [done|]. intros [= <-]. reflect_bools. unfold u64_max in *. lia.
Qed.

Lemma grown_trans s1 s2 s3 : grown s1 s2 → grown s2 s3 → grown s1 s3.
Proof. unfold grown. lia. Qed.

Lemma effect_grown cmd s s1 : effect cmd s s1 → grown s s1.
Proof.
  intros He. effect_cases He;
    try (eapply (grown_trans s), recompute_grown; unfold grown; simpl; lia);
    try (apply SafeAdd_Ok in Hadd); unfold grown; simpl; lia.
Qed.

Lemma moved_bounded s rid m rev :
  durable s → migrations_ s !! rid = Some m →
  bounded (set_regions (moved_regions s rid m rev) s).
Proof.
  intros Hd Hm. destruct (du_bounded _ Hd) as [H1 H2 H3]. split; simpl; [| |done].
  - intros r1 (r & Hr & Heq)%moved_regions_elem. assert (regionId r1 = regionId r) as ->.
    { destruct Heq as [->| ->]; [done|]. apply (moved_region_fields m r). }
    by apply H1.
  - intros p (ps & Hp & Hps)%list_elem_of_join. apply list_elem_of_fmap in Hps as (r1 & -> & Hr1).
    destruct (moved_regions_peer s rid m rev r1 p Hr1 Hp) as [Hin| ->]; [by apply H2|].
    destruct (migration_target s rid m Hd Hm). simpl. lia.
Qed.

(** Raised marks and re-stamped Regions stay bounded. *)
Lemma bounded_stamp s s1 :
  bounded s → grown s s1 →
  regions_ s1 = regions_ s ∨ (∃ rev, regions_ s1 = RegionMeta.with_revision rev <$> regions_ s) →
  (∀ sid, is_Some (stores_ s1 !! sid) → is_Some (stores_ s !! sid) ∨ sid ≤ storeIdHighWater_ s1) →
  bounded s1.
Proof.
  intros [H1 H2 H3] (G1 & G2 & G3) Hregions Hstores.
  assert (all_peers (regions_ s1) = all_peers (regions_ s)) as Hps.
  { destruct Hregions as [->|[rev ->]]; [done|]. apply all_peers_revision. }
  split.
  - intros r1 Hr1. assert (∃ r, r ∈ regions_ s ∧ regionId r1 = regionId r) as (r & Hr & ->).
    { destruct Hregions as [Heq|[rev Heq]]; rewrite Heq in Hr1; [eauto|].
      apply list_elem_of_fmap in Hr1 as (r & -> & Hr). eauto. }
    etrans; [by apply H1|done].
  - rewrite Hps. intros p Hp. destruct (H2 p Hp). lia.
  - intros sid Hsid. destruct (Hstores sid Hsid) as [Hs|]; [|done]. specialize (H3 sid Hs). lia.
Qed.

Lemma effect_bounded cmd s s1 : durable s → effect cmd s s1 → bounded s1.
Proof.
  intros Hd He. pose proof (effect_grown _ _ _ He) as Hg. pose proof (du_bounded _ Hd) as Hb.
  effect_cases He; try apply recompute_bounded;
    try (apply (bounded_stamp s); [done|done|simpl; eauto|simpl; eauto]; fail).
  - by destruct (moved_bounded s rid migration (revision_ s +₆₄ 1) Hd Hm).
  - apply (bounded_stamp s); [done|done|by left|]. simpl. intros sid. rewrite lookup_insert_is_Some.
    intros [<-|[_ Hs]]; [right; lia|by left].
Qed.

(** ** Tables *)

Lemma collect_stores_fits what ss acc m :
  collect_stores what ss acc = Ok m →
  (∀ sid st, acc !! sid = Some st → st_storeid st = sid ∧ store_fits st = true) →
  ∀ sid st, m !! sid = Some st → st_storeid st = sid ∧ store_fits st = true.
Proof.
  revert acc. induction ss as [|x ss IH]; intros acc; simpl; [by intros [= <-]|].
  destruct (negb (store_fits x) || _) eqn:Hb; [done|]. intros Hc Hacc. apply (IH _ Hc).
  intros sid st [[<- <-]|[_ Hs]]%lookup_insert_Some; [|by apply Hacc].
  reflect_bools. by split.
Qed.

Lemma effect_stores cmd s s1 sid st :
  durable s → effect cmd s s1 → stores_ s1 !! sid = Some st → st_storeid st = sid ∧ store_fits st = true.
Proof.
  intros Hd He. pose proof (du_stores _ Hd) as Hs. effect_cases He; simpl; try apply Hs.
  - by eapply collect_stores_fits.
  - by intros [[<- <-]|[_ Hst]]%lookup_insert_Some; [|apply Hs].
Qed.

Lemma effect_known cmd s s1 sid :
  durable s → effect cmd s s1 → is_Some (stores_ s !! sid) → is_Some (stores_ s1 !! sid).
Proof.
  intros Hd He Hs. effect_cases He; simpl; try done.
  - destruct (du_zero _ Hd H0) as (_ & Hst & _). rewrite Hst, lookup_empty in Hs. by destruct Hs.
  - apply lookup_insert_is_Some'. by right.
Qed.

Lemma migration_ok_grown s s1 rid m :
  peerIdHighWater_ s ≤ peerIdHighWater_ s1 →
  (∀ sid, is_Some (stores_ s !! sid) → is_Some (stores_ s1 !! sid)) →
  migration_ok s rid m → migration_ok s1 rid m.
Proof.
  intros Hg Hk [H1 H2 (d & Hd & Hst & Hp)]. split; [done..|]. exists d. split_and!; [done|auto|lia|lia].
Qed.

Lemma effect_migrations cmd s s1 rid' m :
  durable s → effect cmd s s1 → migrations_ s1 !! rid' = Some m → migration_ok s1 rid' m.
Proof.
  intros Hd He. destruct (effect_grown _ _ _ He) as (_ & Hg & _).
  assert (∀ sid, is_Some (stores_ s !! sid) → is_Some (stores_ s1 !! sid)) as Hk
    by (intros sid; by eapply effect_known).
  assert (migrations_ s !! rid' = Some m → migration_ok s1 rid' m) as Hold.
  { intros Hm. eapply migration_ok_grown; [done..|]. by apply (du_migrations _ Hd). }
  effect_cases He; try exact Hold; simpl.
  - intros [[<- <-]|[_ Hm']]%lookup_insert_Some; [|by apply Hold]. split; simpl; [done| |].
    + apply find_some in Hsrc as [Hin%list_elem_of_In _]. apply find_some in Hf as [Hr%list_elem_of_In _].
      destruct (wire_identified _ (du_wire _ Hd) source) as [_ ?]; [|done].
      apply list_elem_of_join. exists (peers region). split; [done|]. apply list_elem_of_fmap. by exists region.
    + eexists. split_and!; [done| |simpl; lia|done]. simpl. by rewrite Hst.
  - intros [_ Hm']%lookup_delete_Some. by apply Hold.
  - intros [_ Hm']%lookup_delete_Some. by apply Hold.
Qed.

Lemma effect_heartbeats cmd s s1 sid h' :
  durable s → effect cmd s s1 → storeHeartbeats_ s1 !! sid = Some h' → heartbeat_ok (stores_ s1) sid h'.
Proof.
  intros Hd He. assert (storeHeartbeats_ s !! sid = Some h' → heartbeat_ok (stores_ s1) sid h') as Hold.
  { intros Hh. destruct (du_heartbeats _ Hd _ _ Hh) as [H1 H2 H3 H4 H5].
    split; [done|by eapply effect_known|done..]. }
  effect_cases He; try exact Hold; simpl.
  intros [[<- <-]|[_ Hh]]%lookup_insert_Some; [|by apply Hold].
  unfold heartbeat_fits in Hfits. rewrite negb_true_iff in Hfits. reflect_bools. by split.
Qed.

Lemma config_fits_restored current c : config_fits current c = true → restored_config_fits c = true.
Proof.
  unfold config_fits, restored_config_fits. rewrite !negb_true_iff. intros H. reflect_bools.
  repeat (apply orb_false_iff; split); try (apply N.eqb_neq); try (apply N.ltb_ge); lia.
Qed.

Lemma effect_config cmd s s1 :
  durable s → effect cmd s s1 → restored_config_fits (balancerConfig_ s1) = true.
Proof.
  intros Hd He. pose proof (du_config _ Hd) as Hcfg. effect_cases He; try exact Hcfg.
  by eapply config_fits_restored.
Qed.

(** *** Scheduling operators *)

(** The command does not update an operator that has ended. *)
Definition live_update (cmd : MetadataCommand) (s : t) : Prop :=
  ∀ i ep p a l ir u o, command cmd = UpdateSchedulingOperator i ep p a l ir u →
    schedulingOperators_ s !! i = Some o → IsTerminal (so_phase o) = false.

Lemma operators_ok_revision rev rev' ops active :
  rev ≤ rev' → operators_ok rev ops active → operators_ok rev' ops active.
Proof.
  intros Hle [He Ha]. split; [|done]. intros id o Ho. destruct (He id o Ho) as (? & ? & ? & ?).
  split_and!; [done..|lia].
Qed.

(** An operator is admitted on a Region without one. *)
Lemma operators_ok_admit rev ops active o :
  operators_ok rev ops active → so_operatorid o ≠ EmptyString → so_regionid o ≠ 0 →
  so_sourcerevision o ≤ rev → IsTerminal (so_phase o) = false →
  ops !! so_operatorid o = None → active !! so_regionid o = None →
  operators_ok rev (<[so_operatorid o := o]> ops) (<[so_regionid o := so_operatorid o]> active).
Proof.
  intros [He Ha] Hid Hr Hrev Hlive Hnew Hidle. split.
  - intros id o' [[<- <-]|[_ Ho]]%lookup_insert_Some; [done|by apply He].
  - intros rid id. rewrite lookup_insert_Some. split.
    + intros [[<- <-]|[Hne (o' & Ho & Hr' & Hl)%Ha]].
      * exists o. by rewrite lookup_insert_eq.
      * exists o'. rewrite lookup_insert_ne; [done|]. intros <-. congruence.
    + intros (o' & [[<- <-]|[Hne Ho]]%lookup_insert_Some & <- & Hl); [by left|].
      assert (active !! so_regionid o' = Some id) as Hact by (apply Ha; eauto).
      right. split; [|done]. intros Heq. rewrite <- Heq in Hact. congruence.
Qed.

(** A live operator moves on, and releases its Region when it ends. *)
Lemma operators_ok_progress rev ops active id o o' :
  operators_ok rev ops active → ops !! id = Some o → IsTerminal (so_phase o) = false →
  so_operatorid o' = so_operatorid o → so_regionid o' = so_regionid o →
  so_sourcerevision o' = so_sourcerevision o →
  operators_ok rev (<[id := o']> ops)
    (if IsTerminal (so_phase o') then delete (so_regionid o) active else active).
Proof.
  intros [He Ha] Ho Hlive E1 E2 E3. assert (active !! so_regionid o = Some id) as Hact by (apply Ha; eauto).
  split.
  - intros id' x [[<- <-]|[_ Hx]]%lookup_insert_Some; [|by apply He]. rewrite E1, E2, E3. by apply He.
  - intros rid id'. destruct (IsTerminal (so_phase o')) eqn:Ht.
    + rewrite lookup_delete_Some. split.
      * intros [Hne (x & Hx & <- & Hl)%Ha]. exists x. rewrite lookup_insert_ne; [done|]. intros <-. congruence.
      * intros (x & [[<- <-]|[Hne Hx]]%lookup_insert_Some & <- & Hl); [congruence|].
        assert (active !! so_regionid x = Some id') as Hx' by (apply Ha; eauto).
        split; [|done]. intros Heq. rewrite Heq in Hact. congruence.
    + rewrite Ha. split.
      * intros (x & Hx & <- & Hl). destruct (decide (id' = id)) as [->|Hne].
        -- exists o'. rewrite lookup_insert_eq. split_and!; [done| |done]. congruence.
        -- exists x. by rewrite lookup_insert_ne.
      * intros (x & [[<- <-]|[Hne Hx]]%lookup_insert_Some & <- & Hl); [|eauto].
        exists o. by rewrite E2.
Qed.

Lemma ValidTransition_live from to : IsTerminal from = true → ValidTransition from to = true → to = from.
Proof. unfold ValidTransition. intros Ht. case_bool_decide; [done|]. by destruct from. Qed.

Lemma effect_operators cmd s s1 :
  durable s → room s → live_update cmd s → effect cmd s s1 →
  operators_ok (revision_ s1) (schedulingOperators_ s1) (activeOperatorByRegion_ s1).
Proof.
  intros Hd Hr Hlu He. pose proof (du_operators _ Hd) as Hops. pose proof (next_revision _ Hr) as Hnext.
  effect_cases He; simpl; try exact Hops;
    try (eapply operators_ok_revision, Hops; rewrite ?H0, ?Hnext; lia).
  - unfold operator_fits in Hfits. rewrite negb_true_iff in Hfits. reflect_bools.
    apply operators_ok_admit; try done; [lia|].
    by match goal with H : so_phase o = _ |- _ => rewrite H end.
  - apply (operators_ok_progress _ _ _ _ current (so_progress p a l (so_cancelrequested current)
      (so_irreversible current || ir) u current)); try done. by eapply Hlu.
  - pose proof (operators_ok_progress _ _ _ i current
      (so_progress (if bool_decide (so_phase current = SCHEDULING_OPERATOR_PENDING)
                    then SCHEDULING_OPERATOR_CANCELLED else SCHEDULING_OPERATOR_CANCELLING)
        (so_attempts current) (so_lasterror current) true (so_irreversible current)
        (N.max (so_updatedatms current) u) current) Hops Hcur Hlive) as Hp.
    simpl in Hp. case_bool_decide; by apply Hp.
Qed.

(** ** Orderly runs *)

Lemma effect_durable cmd s s1 cat :
  durable s → room s → live_update cmd s → effect cmd s s1 →
  ((∃ rid pid e, command cmd = CommitMovePeer rid pid e) → publication (regions_ s1) = Ok cat) →
  durable s1.
Proof.
  intros Hd Hr Hlu He Hpub. destruct (effect_catalog _ _ _ _ Hd Hr He Hpub) as [Hv Hw].
  pose proof (next_revision_nonzero _ Hr) as Hnz. split.
  - intros Hrev. split; [by apply Hv|]. clear Hv Hw Hpub.
    effect_cases He; simpl; try (apply (du_valid _ Hd); done). done.
  - intros Hz. pose proof (du_zero _ Hd) as Hzero. effect_cases He; simpl in *; try done; by apply Hzero.
  - done.
  - by eapply effect_bounded.
  - intros sid st. by eapply effect_stores.
  - intros rid m. by eapply effect_migrations.
  - intros sid h. by eapply effect_heartbeats.
  - by eapply effect_config.
  - by eapply effect_operators.
Qed.

(** An exception leaves the state as it was: nothing was assigned before it. *)
Definition clean (cmd : MetadataCommand) (s : t) : Prop :=
  ∀ s1 w, handle cmd s = (s1, Throw w) → quiet s s1.

Lemma quiet_minv s s' : quiet s s' → minv s → minv s'.
Proof. intros [m ->] [[] Hv]. split; [by split|done]. Qed.

Lemma handle_minv cmd s s' r :
  minv s → room s → live_update cmd s → clean cmd s → handle cmd s = (s', r) → minv s'.
Proof.
  intros Hi Hr Hlu Hcl Hh. assert (∀ w, r = Throw w → minv s') as Hthrow.
  { intros w ->. eapply quiet_minv; [by eapply Hcl|done]. }
  destruct (handle_step _ _ _ _ Hh) as [s' r Hq|s1 s' r He Hf|]; [by eapply quiet_minv| |by eapply Hthrow].
  revert Hf. unfold finishes. destruct (publication (regions_ s1)) as [cat|w] eqn:Hp.
  - intros [-> _]. destruct Hi as [Hd _].
    assert (durable s1) as Hd1 by (by eapply effect_durable).
    split; simpl; [by destruct Hd1; split|]. intros Hrev.
    destruct (du_valid _ Hd1 Hrev) as [Hv _]. rewrite publication_valid in Hp by done. by injection Hp as <-.
  - intros [-> ->]. by eapply Hthrow.
Qed.

Lemma record_minv mid r s : minv s → minv (RecordResultLocked mid r s).
Proof. intros [[] Hv]. split; [by split|done]. Qed.

(** A command that keeps the invariant. *)
Record orderly (cmd : MetadataCommand) (s : t) : Prop := MkOrderly {
  od_room : room s;
  od_live : live_update cmd s;
  od_clean : clean cmd s
}.

Lemma Apply_minv cmd s : minv s → orderly cmd s → minv (Apply cmd s).1.
Proof.
  intros Hi [Hr Hlu Hcl]. unfold Apply. case_match; [eapply quiet_minv; [by eexists|done]|].
  destruct (dedup_ s !! mutationid cmd); [eapply quiet_minv; [by eexists|done]|].
  unfold ApplyLocked. destruct (handle cmd s) as [s1 [r|w]] eqn:Hh; simpl; apply record_minv.
  - by eapply handle_minv.
  - eapply quiet_minv; [by eexists|]. by eapply handle_minv.
Qed.

Inductive ostep : t → t → Prop :=
| OStep cmd s : orderly cmd s → ostep s (Apply cmd s).1.

Lemma run_minv s : rtc ostep initial s → minv s.
Proof.
  intros Hr. cut (minv initial → minv s); [intros Hcut; by apply Hcut, minv_initial|].
  induction Hr as [|? ? ? [cmd s0 Ho] _ IH]; [done|]. intros Hi. apply IH. by apply Apply_minv.
Qed.

(** *** Which commands are clean *)

Lemma child_peers_room ps s :
  peerIdHighWater_ s + N.of_nat (length ps) ≤ u64_max → ∃ s0 qs, child_peers ps s = (s0, Ok qs).
Proof.
  revert s. induction ps as [|p ps IH]; intros s Hs; simpl; [by eexists _, _|].
  unfold next_peer_id. run. unfold SafeAdd.
  destruct (u64_max - 1 <? peerIdHighWater_ s) eqn:Hb; [reflect_bools; simpl in Hs; lia|]. simpl.
  destruct (IH (set_highWater (regionIdHighWater_ s) (peerIdHighWater_ s + 1) (storeIdHighWater_ s) s))
    as (s0 & qs & Hc); [simpl in *; lia|].
  by rewrite Hc; eexists _, _.
Qed.

Lemma region_peers_length rs r : r ∈ rs → (length (peers r) ≤ length (all_peers rs))%nat.
Proof.
  induction rs as [|x rs IH]; [by intros ?%not_elem_of_nil|].
  change (all_peers (x :: rs)) with (peers x ++ all_peers rs). rewrite length_app.
  intros [->|Hr]%elem_of_cons; [lia|]. specialize (IH Hr). lia.
Qed.

Lemma prepare_room s parent s' w :
  room s → parent ∈ regions_ s →
  (id ← next_region_id; qs ← child_peers (peers parent); mret (id, qs)) s ≠ (s', Throw w).
Proof.
  intros Hr Hin. unfold next_region_id. run. unfold SafeAdd. destruct (_ || _) eqn:Hb.
  { pose proof (rm_region _ Hr). unfold int_max, u64_max in *.
    apply orb_true_iff in Hb as [Hb|Hb%N.ltb_lt]; [done|lia]. }
  destruct (child_peers_room (peers parent)
    (set_highWater (regionIdHighWater_ s + 1) (peerIdHighWater_ s) (storeIdHighWater_ s) s)) as (s0 & qs & ->); [|done].
  pose proof (rm_peer _ Hr). pose proof (region_peers_length _ _ Hin). simpl. lia.
Qed.

(** A failed command other than the commit of a move has changed nothing but a
    counter. *)
Lemma handle_failed cmd s s' r :
  minv s → room s → (∀ rid pid e, command cmd ≠ CommitMovePeer rid pid e) →
  handle cmd s = (s', r) → (∀ res, r = Ok res → res_error res ≠ METADATA_OK) → quiet s s'.
Proof.
  intros [Hd _] Hr Hcmd Hh Hfail.
  destruct (handle_step _ _ _ _ Hh) as [s' r Hq|s1 s' r He Hf|rid k e parent s' w Hc Hfind Hids _]; [done| |].
  - revert Hf. unfold finishes. destruct (effect_catalog cmd s s1 None Hd Hr He) as [Hv _]; [naive_solver|].
    destruct (publication (regions_ s1)) as [cat|w] eqn:Hp.
    { intros [_ (res & -> & Hok)]. by destruct (Hfail res). }
    exfalso. destruct (decide (revision_ s1 = 0)) as [Hz|Hz].
    + pose proof (next_revision_nonzero _ Hr) as Hnz. clear Hv Hh Hfail Hcmd. destruct (du_zero _ Hd) as (Hempty & _);
        [effect_cases He; simpl in *; congruence|].
      assert (regions_ s1 = []) as Hnil1 by (effect_cases He; simpl in *; congruence).
      by rewrite Hnil1 in Hp.
    + by rewrite (publication_valid _ (Hv Hz)) in Hp.
  - exfalso. destruct (find_last_region_Some _ _ _ Hfind) as [Hin _]. by apply (prepare_room s parent s' w Hr Hin).
Qed.

(** ** An orderly run *)

Module OrderlyDemo.
Import MetaDemo.

Ltac orderly_now :=
  split; [split; vm_compute; first [reflexivity|discriminate]
         |intros i ep p a l ir u o; vm_compute; intros; first [discriminate|congruence]
         |intros s1 w; vm_compute; discriminate].

Lemma booted_orderly : rtc ostep initial booted.
Proof. eapply rtc_l; [apply (OStep boot); orderly_now|apply rtc_refl]. Qed.

Lemma prepared_orderly : rtc ostep initial split_prepared.
Proof. eapply rtc_r; [apply booted_orderly|]. apply (OStep prepare_split). orderly_now. Qed.

Lemma created_orderly : rtc ostep initial (run [create "x"] booted).
Proof. eapply rtc_r; [apply booted_orderly|]. apply (OStep (create "x")). orderly_now. Qed.

Lemma booted_room : room booted.
Proof. split; vm_compute; first [reflexivity|discriminate]. Qed.

Lemma prepared_room : room split_prepared.
Proof. split; vm_compute; first [reflexivity|discriminate]. Qed.

End OrderlyDemo.
