(* ===== verification/MetaDedup.v ===== *)
(** * Retried metadata commands

    A client that does not hear back sends its command again under the same
    mutation identifier.  The state machine keeps the results of the last
    [kDedupRetention] commands and answers a retry from them. *)

From Stdlib Require Import ZArith QArith.
From S2P Require Import Prelude RegionMeta MetaTypes MetaState MetaDemo MetaStep MetaInv MetaKeep.
Import MetadataStateMachine.
#[local] Open Scope N_scope.
#[local] Opaque kDedupRetention.

Record dedup_ok (d : gmap string MutationRecord) (order : list string) : Prop := MkDedupOk {
  do_NoDup : NoDup order;
  do_dom : ∀ id, is_Some (d !! id) ↔ id ∈ order;
  do_record : ∀ id r, d !! id = Some r → rec_mutationid r = id ∧ id ≠ EmptyString
}.

Notation dedup_inv s := (dedup_ok (dedup_ s) (dedupOrder_ s)).

Lemma lookup_delete_all (ids : list string) (d : gmap string MutationRecord) id :
  foldl (λ d i, delete i d) d ids !! id = if decide (id ∈ ids) then None else d !! id.
Proof.
  revert d. induction ids as [|i ids IH]; intros d; cbn [foldl].
  { by rewrite decide_False by apply not_elem_of_nil. }
  rewrite IH. destruct (decide (id ∈ ids)) as [Hin|Hni].
  { by rewrite decide_True by (by right). }
  destruct (decide (id = i)) as [->|Hne].
  - by rewrite lookup_delete_eq, decide_True by (by left).
  - rewrite lookup_delete_ne by done. rewrite decide_False; [done|]. by intros [?|?]%elem_of_cons.
Qed.

Lemma NoDup_take_drop {A} n (l : list A) x : NoDup l → x ∈ drop n l → x ∉ take n l.
Proof.
  intros Hnd Hd Ht. rewrite <- (take_drop n l) in Hnd. apply NoDup_app in Hnd as (_ & Hdis & _). by eapply Hdis.
Qed.

Lemma record_dedup mid r s :
  dedup_inv s → mid ∉ dedupOrder_ s → mid ≠ EmptyString → dedup_inv (RecordResultLocked mid r s).
Proof.
  intros [Hnd Hdom Hrec] Hni Hne. unfold RecordResultLocked. cbn zeta. simpl.
  set (order := dedupOrder_ s ++ [mid]). set (n := (length order - kDedupRetention)%nat).
  assert (NoDup order) as Hnd'.
  { apply NoDup_app. split_and!; [done|by intros x Hx ->%list_elem_of_singleton|apply NoDup_singleton]. }
  split.
  - rewrite <- (take_drop n order) in Hnd'. by apply NoDup_app in Hnd' as (_ & _ & ?).
  - intros id. rewrite lookup_delete_all. destruct (decide (id ∈ take n order)) as [Ht|Ht].
    { split; [by intros [? ?]|]. intros Hd. by destruct (NoDup_take_drop n order id). }
    rewrite lookup_insert_is_Some'.
    assert (id ∈ drop n order ↔ id ∈ order) as ->.
    { rewrite <- (take_drop n order) at 2. rewrite elem_of_app. tauto. }
    unfold order. rewrite elem_of_app, list_elem_of_singleton, <- Hdom. naive_solver.
  - intros id x. rewrite lookup_delete_all. case_decide; [done|].
    intros [[<- <-]|[_ Hx]]%lookup_insert_Some; [done|by apply Hrec].
Qed.

(** The handlers never touch the records. *)
Lemma handle_dedup cmd s s' r :
  handle cmd s = (s', r) → dedup_ s' = dedup_ s ∧ dedupOrder_ s' = dedupOrder_ s.
Proof.
  intros Hh. destruct (handle_step _ _ _ _ Hh) as [s' r [m ->]|s1 s' r He Hf|rid k e parent s' w _ _ _ (? & ? & -> & _)];
    [done| |done].
  assert (dedup_ s1 = dedup_ s ∧ dedupOrder_ s1 = dedupOrder_ s) as [H1 H2].
  { destruct He; try done.
    - by match goal with H : _ = (s0, Ok _) |- _ => destruct (prepared_keeps _ _ _ _ _ H) as (p & -> & _) end.
    - by match goal with H : _ = (s0, Ok _) |- _ => destruct (next_peer_id_keeps _ _ _ H) as (-> & _) end. }
  unfold finishes in Hf. destruct (publication _); destruct Hf as [-> _]; by rewrite <- H1, <- H2.
Qed.

(** What [Apply] does, with the retry and the empty identifier set apart. *)
Lemma Apply_cases cmd s :
  ((mutationid cmd = EmptyString ∨ is_Some (dedup_ s !! mutationid cmd)) ∧ quiet s (Apply cmd s).1) ∨
  (mutationid cmd ≠ EmptyString ∧ dedup_ s !! mutationid cmd = None ∧
   ∃ s1, (s1, (Apply cmd s).2) = ApplyLocked cmd s ∧ dedup_ s1 = dedup_ s ∧ dedupOrder_ s1 = dedupOrder_ s ∧
         (Apply cmd s).1 = RecordResultLocked (mutationid cmd) (Apply cmd s).2 s1).
Proof.
  unfold Apply. destruct (String.eqb_spec (mutationid cmd) EmptyString) as [He|Hne].
  { left. split; [by left|by eexists]. }
  destruct (dedup_ s !! mutationid cmd) eqn:Hd; [left; split; [by right|by eexists]|].
  right. split_and!; [done|done|]. unfold ApplyLocked.
  destruct (handle cmd s) as [s1 [r|w]] eqn:Hh; destruct (handle_dedup _ _ _ _ Hh) as [H1 H2];
    eexists; simpl; split_and!; try done.
Qed.

Lemma Apply_dedup cmd s : dedup_inv s → dedup_inv (Apply cmd s).1.
Proof.
  intros Hi. destruct (Apply_cases cmd s) as [[_ [m ->]]|(Hne & Hd & s1 & _ & E1 & E2 & ->)]; [done|].
  apply record_dedup; rewrite ?E1, ?E2; [done| |done]. rewrite <- (do_dom _ _ Hi), Hd. by intros [? ?].
Qed.

Lemma ostep_dedup s : rtc ostep initial s → dedup_inv s.
Proof.
  intros Hr. assert (dedup_inv initial) as H0.
  { split; [constructor| |done]. intros id. simpl. split; [by intros [? ?]|by intros ?%not_elem_of_nil]. }
  revert H0. generalize initial, Hr. clear Hr. intros s0 Hr H0.
  induction Hr as [|? ? ? [cmd s1 Ho] _ IH]; [done|]. apply IH. by apply Apply_dedup.
Qed.

Lemma collect_mutations_ok rs d order d' order' :
  dedup_ok d order → collect_mutations rs d order = Ok (d', order') → dedup_ok d' order'.
Proof.
  revert d order. induction rs as [|r rs IH]; intros d order Hok; simpl; [by intros [= <- <-]|].
  destruct (_ || _) eqn:Hb; [done|]. reflect_bools. apply IH. destruct Hok as [Hnd Hdom Hrec]. split.
  - apply NoDup_app. split_and!; [done| |apply NoDup_singleton].
    intros x Hx ->%list_elem_of_singleton. by apply Hdom in Hx.
  - intros id. rewrite lookup_insert_is_Some', elem_of_app, list_elem_of_singleton, <- Hdom. naive_solver.
  - intros id x [[<- <-]|[_ Hx]]%lookup_insert_Some; [done|by apply Hrec].
Qed.

(** ** Retention *)

(** The record of [id] is among the last [k + 1] made. *)
Definition retained (k : nat) (id : string) (r : MetadataCommandResult) (s : t) : Prop :=
  (∃ pre post, dedupOrder_ s = pre ++ id :: post ∧ length post ≤ k)%nat ∧
  ∃ rec, dedup_ s !! id = Some rec ∧ rec_result rec = r.

Lemma Apply_retained k id r cmd s :
  dedup_inv s → (k + 2 ≤ kDedupRetention)%nat → retained k id r s → retained (S k) id r (Apply cmd s).1.
Proof.
  intros Hi Hk [(pre & post & Ho & Hpost) (rec & Hrec & Hres)].
  destruct (Apply_cases cmd s) as [[_ [m ->]]|(Hne & Hd & s1 & _ & E1 & E2 & ->)].
  { split; [|by exists rec]. exists pre, post. split; [done|lia]. }
  assert (mutationid cmd ≠ id) as Hid by congruence.
  pose proof (Apply_dedup cmd s Hi) as Hi'. unfold RecordResultLocked, retained. cbn zeta. simpl.
  rewrite E1, E2, Ho. set (n := (_ - _)%nat).
  assert (n ≤ length pre)%nat as Hn.
  { unfold n. rewrite !length_app. simpl. lia. }
  split.
  - exists (drop n pre), (post ++ [mutationid cmd]).
    rewrite drop_app_le by (rewrite length_app; simpl; lia).
    rewrite drop_app_le, <- app_assoc by done. split; [done|]. rewrite length_app. simpl. lia.
  - exists rec. split; [|done]. rewrite lookup_delete_all, lookup_insert_ne by done.
    rewrite decide_False; [done|]. rewrite <- app_assoc, take_app_le by done. intros Hin.
    pose proof (do_NoDup _ _ Hi) as Hnd. rewrite Ho in Hnd. apply NoDup_app in Hnd as (_ & Hdis & _).
    eapply (Hdis id); [|by left]. rewrite <- (take_drop n pre). apply elem_of_app. by left.
Qed.

Definition apply_all (cmds : list MetadataCommand) (s : t) : t := foldl (λ s c, (Apply c s).1) s cmds.

Lemma apply_all_retained cmds k id r s :
  dedup_inv s → (k + length cmds < kDedupRetention)%nat → retained k id r s →
  retained (k + length cmds) id r (apply_all cmds s).
Proof.
  revert k s. induction cmds as [|c cmds IH]; intros k s Hi Hk Hr; simpl in *.
  { by rewrite Nat.add_0_r. }
  rewrite Nat.add_succ_r. change (retained (S k + length cmds) id r (apply_all cmds (Apply c s).1)).
  apply IH; [by apply Apply_dedup|lia|]. apply Apply_retained; [done|lia|done].
Qed.

(** The first execution leaves its result at the end of the queue. *)
Lemma Apply_records cmd s :
  dedup_inv s → mutationid cmd ≠ EmptyString → dedup_ s !! mutationid cmd = None →
  (0 < kDedupRetention)%nat → retained 0 (mutationid cmd) (Apply cmd s).2 (Apply cmd s).1.
Proof.
  intros Hi Hne Hnew Hk. destruct (Apply_cases cmd s) as [[[?|[? ?]] _]|(_ & _ & s1 & _ & E1 & E2 & Heq)];
    [done|congruence|].
  pose proof (Apply_dedup cmd s Hi) as Hi'. rewrite Heq in *. unfold RecordResultLocked, retained in *.
  cbn zeta in *. simpl in *. rewrite E1, E2 in *. set (n := (_ - _)%nat) in *.
  assert (n ≤ length (dedupOrder_ s))%nat as Hn by (unfold n; rewrite length_app; simpl; lia).
  rewrite drop_app_le in * by done. split.
  - by exists (drop n (dedupOrder_ s)), [].
  - eexists. rewrite lookup_delete_all, lookup_insert_eq, decide_False; [done|].
    rewrite take_app_le by done. intros Hin. assert (mutationid cmd ∈ dedupOrder_ s) as Hin'.
    { rewrite <- (take_drop n (dedupOrder_ s)). apply elem_of_app. by left. }
    apply (do_dom _ _ Hi) in Hin'. rewrite Hnew in Hin'. by destruct Hin'.
Qed.

Section Retries.
Context `{!SnapshotCodec}.

Lemma Restore_dedup bytes s : dedup_inv s → dedup_inv (Restore bytes s).1.
Proof.
  intros Hi. unfold Restore. destruct (snap_parse bytes) as [sn|]; [|done].
  destruct (negb _); [done|]. destruct (decode_snapshot sn s) as [s1|w] eqn:Hd; [|done].
  assert (dedup_inv s1) as Hi1.
  { unfold decode_snapshot in Hd. do 6 (apply bind_Ok in Hd as (? & _ & Hd)).
    apply bind_Ok in Hd as ([d order] & Hcm & Hd). do 2 (apply bind_Ok in Hd as (? & _ & Hd)).
    cbv zeta in Hd. destruct (restored_config_fits _); [|done]. simpl in Hd.
    apply bind_Ok in Hd as ([ops act] & _ & [= <-]). simpl. eapply collect_mutations_ok; [|exact Hcm].
    split; [constructor| |done]. intros id. rewrite lookup_empty. split; [by intros [? ?]|by intros ?%not_elem_of_nil]. }
  unfold PublishLocked. repeat case_match; done.
Qed.

Lemma run_dedup s : rtc mstep initial s → dedup_inv s.
Proof.
  intros Hr. cut (dedup_inv initial → dedup_inv s).
  { intros Hcut. apply Hcut. split; [constructor| |done]. intros id. simpl. rewrite lookup_empty.
    split; [by intros [? ?]|by intros ?%not_elem_of_nil]. }
  induction Hr as [|? ? ? [cmd s0|s0|bytes s0] _ IH]; [done|..]; intros Hi; apply IH.
  - by apply Apply_dedup.
  - unfold Snapshot. by case_match.
  - by apply Restore_dedup.
Qed.

(** [C19] A retry is harmless: once a command has been executed, and as long as
    fewer than [kDedupRetention] commands follow it, sending a command with its
    mutation identifier again returns the result of the execution and changes
    nothing but the counter of retries. *)
Theorem retry_idempotent s cmd cmds again :
  rtc mstep initial s → mutationid cmd ≠ EmptyString → dedup_ s !! mutationid cmd = None →
  (length cmds < kDedupRetention)%nat → mutationid again = mutationid cmd →
  let s1 := (Apply cmd s).1 in
  Apply again (apply_all cmds s1) = (count_dedup (apply_all cmds s1), (Apply cmd s).2).
Proof.
  intros Hr Hne Hnew Hlen Hsame s1. pose proof (run_dedup _ Hr) as Hi.
  destruct (apply_all_retained cmds 0 (mutationid cmd) (Apply cmd s).2 s1) as [_ (rec & Hrec & Hres)];
    [by apply Apply_dedup|done|apply Apply_records; [done..|lia]|].
  unfold Apply at 1. by rewrite Hsame, (proj2 (String.eqb_neq _ _) Hne), Hrec, Hres.
Qed.

End Retries.

Module RetryDemo.
Import MetaDemo.

#[local] Instance codec : SnapshotCodec := codec_for (snapshot_message booted).

Lemma retry_idempotent_witness :
  let s1 := (Apply prepare_split booted).1 in
  Apply prepare_split (apply_all [commit_split] s1) =
  (count_dedup (apply_all [commit_split] s1), (Apply prepare_split booted).2).
Proof.
  apply (retry_idempotent booted prepare_split [commit_split] prepare_split).
  - eapply rtc_l; [apply (MStepApply boot)|apply rtc_refl].
  - discriminate.
  - vm_compute. reflexivity.
  - apply Nat.ltb_lt. vm_compute. reflexivity.
  - reflexivity.
Defined.

End RetryDemo.
