(* ===== verification/MetaSafety.v ===== *)
(** * Guarantees of the metadata state machine

    The theorems a client of the control plane relies on: the published view is
    the state's, a failed command changes nothing, identifiers are handed out
    once, a split routes every key as before or to the child, and a Region has
    one scheduling operator at a time.  Two concrete runs show where the code
    falls short of this. *)

From Stdlib Require Import ZArith QArith.
From S2P Require Import Prelude RegionMeta MetaTypes MetaState MetaDemo MetaStep MetaInv MetaKeep MetaDedup.
Import MetadataStateMachine.
#[local] Open Scope N_scope.
#[local] Opaque kDedupRetention.

(** The command is executed, not answered from the records. *)
Definition executed (cmd : MetadataCommand) (s : t) : Prop :=
  mutationid cmd ≠ EmptyString ∧ dedup_ s !! mutationid cmd = None.

Lemma Apply_executed cmd s s' r :
  executed cmd s → Apply cmd s = (s', r) →
  ∃ s1 res, handle cmd s = (s1, res) ∧
    match res with
    | Ok r1 => r = r1 ∧ s' = RecordResultLocked (mutationid cmd) r s1
    | Throw w => r = Error s1 METADATA_INVALID_ARGUMENT w ∧
                 s' = RecordResultLocked (mutationid cmd) r (count_reject s1)
    end.
Proof.
  intros [Hne Hnew]. unfold Apply. rewrite (proj2 (String.eqb_neq _ _) Hne), Hnew. unfold ApplyLocked.
  destruct (handle cmd s) as [s1 [r1|w]]; intros [= <- <-]; eexists _, _; split; try done.
Qed.

(** [C10] The invariant of the control plane.  Along every run of orderly commands
    the Regions of the state form a valid catalog that covers the key space
    without gaps or overlaps, lock-free readers see exactly the state the last
    command left, and every identifier in use is below its high-water mark. *)
Theorem metadata_invariant s :
  rtc ostep initial s → revision_ s ≠ 0 →
  View s = view_of s (Some (regions_ s)) ∧ valid_catalog (regions_ s) ∧ bounded s.
Proof.
  intros [Hd Hv]%run_minv Hrev. split_and!; [by apply Hv|by apply du_valid|by apply du_bounded].
Qed.

(** A command that fails has no effect: for every command but the commit of
    a peer move, an error result means that only a counter and the record kept
    for retries have changed. *)
Theorem failed_command_no_effect s cmd s' r :
  rtc ostep initial s → room s → (∀ rid pid e, command cmd ≠ CommitMovePeer rid pid e) →
  Apply cmd s = (s', r) → res_error r ≠ METADATA_OK →
  ∃ m d o, s' = set_metrics m (set_dedup d o s).
Proof.
  intros Hrun%run_minv Hr Hcmd Ha Herr.
  destruct (Apply_cases cmd s) as [[_ [m Hm]]|(Hne & Hnew & _)].
  { rewrite Ha in Hm. simpl in Hm. subst s'. exists m, (dedup_ s), (dedupOrder_ s). done. }
  destruct (Apply_executed _ _ _ _ (conj Hne Hnew) Ha) as (s1 & res & Hh & Hres).
  assert (quiet s s1) as [m ->].
  { eapply handle_failed; [done..|]. intros r1 ->. by destruct Hres as [-> _]. }
  destruct res as [r1|w]; destruct Hres as [-> ->]; by eexists _, _, _.
Qed.

(** ** Identifiers *)

Definition highWater (ns : IdNamespace) (s : t) : N :=
  match ns with
  | ID_NAMESPACE_REGION => regionIdHighWater_ s
  | ID_NAMESPACE_PEER => peerIdHighWater_ s
  | ID_NAMESPACE_STORE => storeIdHighWater_ s
  | ID_NAMESPACE_OTHER _ => 0
  end.

(** The identifiers of a namespace that the state uses. *)
Definition used (ns : IdNamespace) (s : t) (id : N) : Prop :=
  match ns with
  | ID_NAMESPACE_REGION => ∃ r, r ∈ regions_ s ∧ id = u64_of_int (regionId r)
  | ID_NAMESPACE_PEER => ∃ p, p ∈ all_peers (regions_ s) ∧ id = peerId p
  | ID_NAMESPACE_STORE => is_Some (stores_ s !! id) ∨ ∃ p, p ∈ all_peers (regions_ s) ∧ id = storeId p
  | ID_NAMESPACE_OTHER _ => False
  end.

Lemma used_below ns s id : bounded s → used ns s id → id ≤ highWater ns s.
Proof.
  intros [H1 H2 H3]. destruct ns; simpl; [| | |done].
  - intros (r & Hr & ->). by apply H1.
  - intros (p & Hp & ->). by apply H2.
  - intros [Hs|(p & Hp & ->)]; [by apply H3|by apply H2].
Qed.

Lemma grown_highWater ns s s' : grown s s' → highWater ns s ≤ highWater ns s'.
Proof. unfold grown. destruct ns; simpl; lia. Qed.

Lemma handle_grown cmd s s' r : handle cmd s = (s', r) → grown s s'.
Proof.
  intros Hh. destruct (handle_step _ _ _ _ Hh) as [s' r [m ->]|s1 s' r He Hf|rid k e parent s' w _ _ _ (a & b & -> & H1 & H2)].
  - unfold grown. simpl. lia.
  - apply effect_grown in He. unfold finishes in Hf. by destruct (publication _); destruct Hf as [-> _].
  - unfold grown. simpl. lia.
Qed.

Lemma Apply_grown cmd s : grown s (Apply cmd s).1.
Proof.
  unfold Apply. case_match; [unfold grown; simpl; lia|]. case_match; [unfold grown; simpl; lia|].
  unfold ApplyLocked. destruct (handle cmd s) as [s1 [r|w]] eqn:Hh; by apply handle_grown in Hh.
Qed.

Definition astep (s s' : t) : Prop := ∃ cmd, s' = (Apply cmd s).1.

Lemma run_grown s s' : rtc astep s s' → grown s s'.
Proof.
  induction 1 as [s|s ? s' [cmd ->] _ IH]; [unfold grown; lia|].
  eapply grown_trans; [apply (Apply_grown cmd)|done].
Qed.

(** A successful allocation. *)
Lemma AllocateIds_Ok cmd ns n s s' r :
  command cmd = AllocateIds ns n → executed cmd s → Apply cmd s = (s', r) → res_error r = METADATA_OK →
  res_firstallocatedid r = highWater ns s + 1 ∧ res_allocatedcount r = n ∧ highWater ns s' = highWater ns s + n.
Proof.
  intros Hc Hex Ha Hok. destruct (Apply_executed _ _ _ _ Hex Ha) as (s1 & res & Hh & Hres).
  unfold handle in Hh. rewrite Hc in Hh. unfold AllocateIdsLocked in Hh. run.
  destruct (revision_ s =? 0); [injection Hh as <- <-; by destruct Hres as [-> _]|].
  destruct (negb _); [injection Hh as <- <-; by destruct Hres as [-> _]|].
  assert (∀ h (f : N → t → t),
    match SafeAdd h n with
    | Ok a => let (s1, o) := PublishLocked (regions_ (bump (f a s))) (bump (f a s)) in
              match o with Ok _ => (s1, Ok (with_ids (h +₆₄ 1) n (OkResult s1))) | Throw w => (s1, Throw w) end
    | Throw w => (s, Throw w)
    end = (s1, res) →
    ∃ v, res_firstallocatedid r = h + 1 ∧ res_allocatedcount r = n ∧
         s' = RecordResultLocked (mutationid cmd) r (set_published v (bump (f (h + n) s)))) as Halloc.
  { intros h f. destruct (SafeAdd h n) as [a|w] eqn:Hadd;
      [|intros [= <- <-]; by destruct Hres as [-> _]].
    apply SafeAdd_Ok in Hadd as (-> & Hn & Hmax). unfold PublishLocked.
    assert (h +₆₄ 1 = h + 1) as Hh1.
    { unfold add64, wrap64. apply N.mod_small. unfold u64_max, u64_size in *. lia. }
    case_bool_decide; [|destruct (RegionCatalog.make _)]; intros [= <- <-]; destruct Hres as [-> ->];
      [eexists; by split_and!..|done]. }
  destruct ns; [..|injection Hh as <- <-; by destruct Hres as [-> _]].
  - by apply (Halloc _ (λ a s, set_highWater a (peerIdHighWater_ s) (storeIdHighWater_ s) s)) in Hh
      as (v & -> & -> & ->).
  - by apply (Halloc _ (λ a s, set_highWater (regionIdHighWater_ s) a (storeIdHighWater_ s) s)) in Hh
      as (v & -> & -> & ->).
  - by apply (Halloc _ (λ a s, set_highWater (regionIdHighWater_ s) (peerIdHighWater_ s) a s)) in Hh
      as (v & -> & -> & ->).
Qed.

(** [C29] Identifiers are handed out once: the range a successful allocation
    returns contains no identifier in use, and lies wholly below every range a
    later allocation in the same namespace returns, whatever commands come in
    between. *)
Theorem allocations_disjoint s c1 s1 r1 s2 c2 s3 r2 ns n m :
  rtc ostep initial s →
  command c1 = AllocateIds ns n → executed c1 s → Apply c1 s = (s1, r1) → res_error r1 = METADATA_OK →
  rtc astep s1 s2 →
  command c2 = AllocateIds ns m → executed c2 s2 → Apply c2 s2 = (s3, r2) → res_error r2 = METADATA_OK →
  res_firstallocatedid r1 + res_allocatedcount r1 ≤ res_firstallocatedid r2 ∧
  ∀ id, res_firstallocatedid r1 ≤ id → ¬ used ns s id.
Proof.
  intros [Hd _]%run_minv Hc1 Hx1 Ha1 Hok1 Hrun Hc2 Hx2 Ha2 Hok2.
  destruct (AllocateIds_Ok _ _ _ _ _ _ Hc1 Hx1 Ha1 Hok1) as (-> & -> & H1).
  destruct (AllocateIds_Ok _ _ _ _ _ _ Hc2 Hx2 Ha2 Hok2) as (-> & _ & _).
  pose proof (grown_highWater ns _ _ (run_grown _ _ Hrun)). split; [lia|].
  intros id Hid Hu. apply used_below in Hu; [lia|]. by apply du_bounded.
Qed.

(** ** Splits *)

Lemma LookupKey_minv s key region :
  minv s → revision_ s ≠ 0 → LookupKey s key = Some region →
  region ∈ regions_ s ∧ Contains region key = true.
Proof.
  intros [Hd Hv] Hrev. destruct (du_valid _ Hd Hrev) as [Hval _]. unfold LookupKey, View. rewrite Hv by done.
  simpl. destruct (covers_FindByKey _ key (vc_covers _ Hval)) as (r & -> & Hin & Hc & _). by intros [= <-].
Qed.

(** A published catalog answers with the Region that contains the key. *)
Lemma LookupKey_published s v cat key r :
  valid_catalog cat → catalog v = Some cat → r ∈ cat → Contains r key = true →
  LookupKey (set_published v s) key = Some r.
Proof.
  intros Hval Hcat Hin Hc. unfold LookupKey, View. simpl. rewrite Hcat.
  destruct (covers_FindByKey _ key (vc_covers _ Hval)) as (r' & -> & _ & _ & Huniq). by rewrite (Huniq r Hin Hc).
Qed.

(** The Regions that come out of the constructor and are stamped. *)
Lemma make_stamped_elem rev rs cat r :
  identified rs → RegionCatalog.make rs = Ok cat → r ∈ rs →
  RegionMeta.with_revision rev (norm_leader r) ∈ RegionMeta.with_revision rev <$> cat.
Proof.
  intros Hid Hm Hr. apply make_valid in Hm as [_ ->]; [|done]. apply list_elem_of_fmap.
  exists (norm_leader r). split; [done|]. apply list_elem_of_fmap. exists r. split; [done|].
  assert (sort_regions rs ≡ₚ rs) as Hp by apply merge_sort_Permutation. by rewrite Hp.
Qed.

(** The Regions a committed split puts in the catalog. *)
Definition split_parent (pending : RegionSplitPending) (parent : RegionMetadata) : RegionMetadata :=
  with_epoch (MkEpoch (version (epoch parent) +₆₄ 1) (confVersion (epoch parent)))
    (with_end (splitKey pending) (with_pending None parent)).

Definition split_candidate (s : t) (parent : RegionMetadata) (pending : RegionSplitPending) :=
  replace_region (split_parent pending parent) (regions_ s) ++
  [RegionMeta.with_revision (revision_ s +₆₄ 1) (with_end (endKey parent) (child pending))].

Lemma CommitSplit_Ok cmd rid s s' r parent pending :
  durable s → room s → command cmd = CommitSplit rid → executed cmd s → Apply cmd s = (s', r) →
  res_error r = METADATA_OK →
  find_last_region rid (regions_ s) = Some parent → splitPending parent = Some pending →
  ∃ validated, identified (split_candidate s parent pending) ∧
    RegionCatalog.make (split_candidate s parent pending) = Ok validated ∧ revision_ s ≠ 0 ∧
    let cat := RegionMeta.with_revision (revision_ s +₆₄ 1) <$> validated in
    valid_catalog cat ∧
    ∃ v s0, catalog v = Some cat ∧ s' = RecordResultLocked (mutationid cmd) r (set_published v s0).
Proof.
  intros Hd Hr Hc Hex Ha Hok Hf Hpend. pose proof (next_revision_nonzero _ Hr) as Hnz.
  destruct (Apply_executed _ _ _ _ Hex Ha) as (s1 & res & Hh & Hres).
  unfold handle in Hh. rewrite Hc in Hh. unfold CommitSplitLocked in Hh. run.
  destruct (_ || _) eqn:Hg; [injection Hh as <- <-; by destruct Hres as [-> _]|]. reflect_bools.
  rewrite Hf, Hpend in Hh. fold (split_candidate s parent pending) in Hh.
  change (replace_region _ _ ++ _) with (split_candidate s parent pending) in Hh.
  assert (Forall wire_ok (split_candidate s parent pending)) as Hw.
  { destruct (find_last_region_Some _ _ _ Hf) as [Hin _]. pose proof (du_wire _ Hd) as Hw.
    rewrite Forall_forall in Hw. pose proof (Hw _ Hin) as Hwp. pose proof (wire_child _ _ Hwp Hpend) as Hwc.
    apply Forall_app. split; [apply replace_region_Forall; [|by apply Forall_forall]|].
    - destruct parent. simpl in *. tauto.
    - constructor; [|constructor]. by destruct (child pending). }
  destruct (RegionCatalog.make (split_candidate s parent pending)) as [validated|w] eqn:Hm;
    [|injection Hh as <- <-; by destruct Hres as [-> _]].
  exists validated. do 3 (split; [by try apply wire_identified|]).
  assert (valid_catalog (RegionMeta.with_revision (revision_ s +₆₄ 1) <$> validated)) as Hval.
  { apply make_wire in Hm as [Hv _]; [|done]. by apply valid_stamp. }
  split; [done|]. unfold PublishLocked in Hh. simpl in Hh.
  rewrite bool_decide_false, (valid_make _ Hval) in Hh by (intros Heq; by rewrite Heq in Hval; destruct Hval).
  injection Hh as <- <-. destruct Hres as [-> ->]. eexists _, _. split; [|done]. done.
Qed.

(** A committed split only moves the upper half of its Region: every key of
    the split Region at or above the split key is now routed to the child, on the
    child's peers, and every other key is routed to the same Region, on the same
    peers, as before. *)
Theorem split_routes s cmd rid s' r parent pending key region :
  rtc ostep initial s → room s → command cmd = CommitSplit rid → executed cmd s →
  Apply cmd s = (s', r) → res_error r = METADATA_OK →
  find_last_region rid (regions_ s) = Some parent → splitPending parent = Some pending →
  startKey (child pending) = splitKey pending → LookupKey s key = Some region →
  let target := if bool_decide (regionId region = regionId parent) && str_leb (splitKey pending) key
                then child pending else region in
  ∃ region', LookupKey s' key = Some region' ∧ regionId region' = regionId target ∧
             peers region' = peers target.
Proof.
  intros Hrun Hr Hc Hex Ha Hok Hf Hpend Hstart Hlook target. pose proof (run_minv _ Hrun) as Hi.
  destruct (CommitSplit_Ok _ _ _ _ _ _ _ (mi_durable _ Hi) Hr Hc Hex Ha Hok Hf Hpend)
    as (validated & Hid & Hm & Hrev & Hval & v & s0 & Hcat & ->).
  destruct (LookupKey_minv _ _ _ Hi Hrev Hlook) as [Hin Hcon].
  destruct (find_last_region_Some _ _ _ Hf) as [Hpin _].
  assert (∀ x, x ∈ split_candidate s parent pending → Contains x key = true →
    regionId x = regionId target → peers x = peers target →
    ∃ region', LookupKey (set_published v s0) key = Some region' ∧ regionId region' = regionId target ∧
               peers region' = peers target) as Hfind.
  { intros x Hx Hcx Hidx Hpx.
    exists (RegionMeta.with_revision (revision_ s +₆₄ 1) (norm_leader x)).
    destruct (norm_leader_fields x) as (E1 & E2 & E3 & E4 & _).
    split_and!; [|simpl; congruence..]. eapply LookupKey_published; [done|done|by eapply make_stamped_elem|].
    unfold Contains in *. simpl. by rewrite E2, E3. }
  apply Contains_spec in Hcon as [Hlo Hhi]. unfold target in *. case_bool_decide as Heq; simpl in *.
  - assert (region = parent) as ->.
    { eapply regionId_inj; [|done..]. by apply vc_regionIds, (du_valid _ (mi_durable _ Hi)). }
    destruct (str_leb (splitKey pending) key) eqn:Hk.
    + apply (Hfind (RegionMeta.with_revision (revision_ s +₆₄ 1) (with_end (endKey parent) (child pending)))); [| |done|done].
      * apply elem_of_app. right. by left.
      * apply Contains_spec. simpl. by rewrite Hstart.
    + apply (Hfind (split_parent pending parent)); [| |done|done].
      * apply elem_of_app. left. apply list_elem_of_fmap. exists parent. split; [|done]. simpl. by rewrite Z.eqb_refl.
      * apply Contains_spec. simpl. split; [done|right]. unfold str_lt. by rewrite str_ltb_leb, Hk.
  - apply (Hfind region); [|by apply Contains_spec|done|done]. apply elem_of_app. left. apply list_elem_of_fmap.
    exists region. split; [|done]. simpl. by rewrite (proj2 (Z.eqb_neq _ _) Heq).
Qed.

(** ** Scheduling operators *)

(** [C30] A Region has one scheduling operator at a time: along every run of
    orderly commands two operators that are not finished and name the same Region
    are the same operator, and it is the one registered for the Region. *)
Theorem operator_exclusive s id1 o1 id2 o2 :
  rtc ostep initial s →
  schedulingOperators_ s !! id1 = Some o1 → schedulingOperators_ s !! id2 = Some o2 →
  IsTerminal (so_phase o1) = false → IsTerminal (so_phase o2) = false →
  so_regionid o1 = so_regionid o2 →
  id1 = id2 ∧ activeOperatorByRegion_ s !! so_regionid o1 = Some id1.
Proof.
  intros [Hd _]%run_minv H1 H2 L1 L2 Heq. pose proof (oo_active _ _ _ (du_operators _ Hd)) as Ha.
  assert (activeOperatorByRegion_ s !! so_regionid o1 = Some id1) as A1 by (apply Ha; eauto).
  assert (activeOperatorByRegion_ s !! so_regionid o1 = Some id2) as A2 by (apply Ha; eauto).
  split; [congruence|done].
Qed.

Lemma effect_ended cmd s s1 oid o' :
  effect cmd s s1 → schedulingOperators_ s !! oid = Some o' → IsTerminal (so_phase o') = true →
  ∃ o1, schedulingOperators_ s1 !! oid = Some o1 ∧ so_phase o1 = so_phase o'.
Proof.
  intros He Ho Ht. effect_cases He; simpl; try (by exists o').
  - exists o'. rewrite lookup_insert_ne; [done|]. congruence.
  - destruct (decide (i = oid)) as [->|Hne]; [|exists o'; by rewrite lookup_insert_ne].
    rewrite lookup_insert_eq. eexists. split; [done|]. simpl.
    assert (current = o') as -> by congruence. by apply ValidTransition_live.
  - exists o'. rewrite lookup_insert_ne; [done|]. congruence.
Qed.

Lemma Apply_ended cmd s id o :
  schedulingOperators_ s !! id = Some o → IsTerminal (so_phase o) = true →
  ∃ o1, schedulingOperators_ (Apply cmd s).1 !! id = Some o1 ∧ so_phase o1 = so_phase o.
Proof.
  intros Ho Ht. unfold Apply. case_match; [by exists o|]. case_match; [by exists o|].
  unfold ApplyLocked. destruct (handle cmd s) as [s1 res] eqn:Hh.
  assert (∃ o1, schedulingOperators_ s1 !! id = Some o1 ∧ so_phase o1 = so_phase o) as Hs1.
  { destruct (handle_step _ _ _ _ Hh) as [s' r [m ->]|s1 s' r He Hf|rid k e parent s' w _ _ _ (a & b & -> & _)];
      [by exists o| |by exists o].
    destruct (effect_ended _ _ _ _ _ He Ho Ht) as (o1 & H1 & H2). exists o1.
    unfold finishes in Hf. by destruct (publication _); destruct Hf as [-> _]. }
  by destruct res.
Qed.

(** A finished operator stays finished: whatever commands are applied, in
    whatever state, an operator that has succeeded, failed or been cancelled is
    kept with that phase. *)
Theorem ended_operator_final s s' id o :
  rtc astep s s' → schedulingOperators_ s !! id = Some o → IsTerminal (so_phase o) = true →
  ∃ o', schedulingOperators_ s' !! id = Some o' ∧ so_phase o' = so_phase o.
Proof.
  intros Hr. revert o. induction Hr as [s|s ? s' [cmd ->] _ IH]; intros o Ho Ht; [by exists o|].
  destruct (Apply_ended cmd s id o Ho Ht) as (o1 & Ho1 & Hp).
  destruct (IH o1 Ho1) as (o' & Ho' & Hp'); [by rewrite Hp|]. exists o'. split; [done|congruence].
Qed.

(** ** A commit that fails half way *)

Lemma check_peers_ports rid i ps a r : check_peers rid i ps a = Ok r → Forall (λ p, (0 < port p)%Z) ps.
Proof.
  revert i a r. induction ps as [|p ps IH]; intros i a r; [constructor|]. cbn [check_peers].
  intros ([q a1] & Hp & Hrest)%bind_Ok. apply bind_Ok in Hrest as ([qs a2] & Hps & _).
  constructor; [|by eapply IH]. revert Hp. unfold check_peer.
  destruct (Z.leb_spec (port p) 0); [by rewrite !orb_true_r|done].
Qed.

Lemma check_regions_ports previous rs a r :
  check_regions previous rs a = Ok r → Forall (λ r, Forall (λ p, (0 < port p)%Z) (peers r)) rs.
Proof.
  revert previous a r. induction rs as [|x rs IH]; intros previous a r; [constructor|]. cbn [check_regions].
  intros ([x' a1] & Hx & Hrest)%bind_Ok. apply bind_Ok in Hrest as (rs' & Hrs & _).
  constructor; [|by eapply IH]. revert Hx. unfold check_region. destruct (_ || _); [done|].
  case_bool_decide; [done|]. intros ([] & _ & Hx)%bind_Ok. revert Hx. destruct (_ && _); [done|]. destruct (_ && _); [done|].
  intros ([qs a2] & Hq & _)%bind_Ok. by eapply check_peers_ports.
Qed.

(** A catalog with a peer on a port that is not positive is refused. *)
Lemma make_bad_port rs r p :
  r ∈ rs → p ∈ peers r → (port p ≤ 0)%Z → ∃ w, RegionCatalog.make rs = Throw w.
Proof.
  intros Hr Hp Hport. destruct (RegionCatalog.make rs) as [cat|w] eqn:Hm; [exfalso|by exists w].
  revert Hm. unfold RegionCatalog.make. case_bool_decide; [done|]. intros Hc%check_regions_ports.
  rewrite Forall_forall in Hc. specialize (Hc r). rewrite Forall_forall in Hc.
  assert (r ∈ sort_regions rs) as Hin by (unfold sort_regions; by rewrite merge_sort_Permutation).
  specialize (Hc Hin p Hp). lia.
Qed.

Lemma update_first_found {A} (P : A → bool) f l a :
  find P l = Some a → f a ∈ update_first P f l.
Proof.
  induction l as [|x l IH]; simpl; [done|]. destruct (P x); [intros [= ->]; left|]. intros H. right. auto.
Qed.

Lemma find_update_first (rid : N) f rs r g :
  (∀ x, regionId (f x) = regionId x) → (∀ x, regionId (g x) = regionId x) →
  find_region rid rs = Some r →
  find_region rid (g <$> update_first (λ x, u64_of_int (regionId x) =? rid) f rs) = Some (g (f r)).
Proof.
  intros Hf Hg. unfold find_region. induction rs as [|x rs IH]; [done|]. cbn [find update_first].
  destruct (u64_of_int (regionId x) =? rid) eqn:Hx; rewrite fmap_cons; cbn [find]; rewrite Hg.
  - intros [= ->]. by rewrite Hf, Hx.
  - rewrite Hx. exact IH.
Qed.

(** The commit of a move is not atomic.  When every check of the command
    passes and the target Store of the migration has a port above 32767, which
    [PutStore] accepts up to 65535, the command reports an invalid argument; yet the
    revision is advanced, the peer of the Region is replaced and the migration is
    dropped, while the published view stays the old one.  The catalog that the
    state then holds cannot be published. *)
Theorem commit_move_half_applied s cmd rid pid e migration target region source :
  executed cmd s → command cmd = CommitMovePeer rid pid e → revision_ s ≠ 0 → expectedrevision cmd = revision_ s →
  migrations_ s !! rid = Some migration → mig_targetpeer migration = Some target → pd_peerid target = pid →
  find_region rid (regions_ s) = Some region → e = Some (epoch region) →
  find (λ p, peerId p =? mig_sourcepeerid migration) (peers region) = Some source →
  32767 < pd_port target ≤ 65535 →
  let s' := (Apply cmd s).1 in
  res_error (Apply cmd s).2 = METADATA_INVALID_ARGUMENT ∧
  revision_ s' = revision_ s +₆₄ 1 ∧ migrations_ s' = delete rid (migrations_ s) ∧
  (∃ region' p, find_region rid (regions_ s') = Some region' ∧ p ∈ peers region' ∧ peerId p = pid ∧
     storeId p = pd_storeid target) ∧
  View s' = View s ∧ ∃ w, RegionCatalog.make (regions_ s') = Throw w.
Proof.
  intros Hex Hc Hrev Her Hm Ht Hpid Hr -> Hsrc Hport s'.
  destruct (Apply cmd s) as [s2 r] eqn:HA. destruct (Apply_executed _ _ _ _ Hex HA) as (s1 & res & Hh & Hres).
  set (moved := set_migrations (delete rid (migrations_ s)) (stamp_regions (bump (set_regions
    (update_first (λ r, u64_of_int (regionId r) =? rid) (moved_region migration) (regions_ s)) s)))).
  set (p := MkPeer (int_of_u64 (wrap64 (pd_storeid target + u64_max))) (pd_host target)
    (short_of_u32 (pd_port target)) (pd_storeid target) (pd_peerid target) false).
  assert (find_region rid (regions_ moved) =
    Some (RegionMeta.with_revision (revision_ s +₆₄ 1) (moved_region migration region))) as Hfind.
  { apply find_update_first; [apply moved_region_fields|done|done]. }
  assert (p ∈ peers (moved_region migration region)) as Hp.
  { rewrite moved_region_peers, Ht. by apply (update_first_found _ (λ _, p) _ source). }
  assert (∃ w, RegionCatalog.make (regions_ moved) = Throw w) as [w Hw].
  { eapply (make_bad_port _ _ p); [by eapply list_elem_of_In, find_some, Hfind|exact Hp|].
    simpl. unfold short_of_u32. rewrite Z.mod_small by lia. by destruct (Z.ltb_spec (Z.of_N (pd_port target)) 32768); lia. }
  assert (handle cmd s = (moved, Throw w)) as Hh'.
  { unfold handle. rewrite Hc. unfold CommitMovePeerLocked. run.
    rewrite (proj2 (N.eqb_neq _ _) Hrev), Her, N.eqb_refl. cbn [orb negb]. rewrite Hm. unfold target_id.
    rewrite Ht, Hpid, N.eqb_refl. cbn [negb]. rewrite Hr. unfold epoch_matches. rewrite bool_decide_eq_true_2 by done.
    assert (existsb (λ p, peerId p =? mig_sourcepeerid migration) (peers region) = true) as ->.
    { apply existsb_exists. exists source. by apply find_some in Hsrc. }
    cbn [negb]. run. fold moved. unfold PublishLocked. rewrite bool_decide_eq_false_2; [by rewrite Hw|].
    intros Hn. by rewrite Hn in Hfind. }
  rewrite Hh in Hh'. injection Hh' as -> ->. destruct Hres as [-> ->].
  split_and!; [done|done|done| |done|by exists w].
  exists (RegionMeta.with_revision (revision_ s +₆₄ 1) (moved_region migration region)), p. by split_and!.
Qed.

(** ** Corner cases *)

Module CornerCases.
Import MetaDemo.

(** Updating an operator that has already been cancelled, to the phase it
    has, unregisters the Region although another operator is working on it; a
    third operator is then admitted, and two are live on one Region. *)
Theorem ended_update_frees_region :
  let cmds := [create "x"; cancel "x"; create "y"; touch "x"; create "z"] in
  let s := run cmds booted in
  errors cmds booted = replicate 5 METADATA_OK ∧
  so_phase <$> schedulingOperators_ s !! "y" = Some SCHEDULING_OPERATOR_PENDING ∧
  so_phase <$> schedulingOperators_ s !! "z" = Some SCHEDULING_OPERATOR_PENDING ∧
  so_regionid <$> schedulingOperators_ s !! "y" = so_regionid <$> schedulingOperators_ s !! "z".
Proof. vm_compute. repeat split. Qed.

(** Store 3 has a port above the range of the [short] that peers keep. *)
Definition put_far : MetadataCommand := MkCommand "put" 1 (PutStore (MkStore 3 "c" 40000 [])).
Definition prepare_far : MetadataCommand := MkCommand "pf" 2 (PrepareMovePeer 1 1 3 (Some (MkEpoch 1 1))).
Definition commit_far : MetadataCommand := MkCommand "cf" 3 (CommitMovePeer 1 12 (Some (MkEpoch 1 1))).
Definition far_prepared : t := run [put_far; prepare_far] booted.

Lemma commit_move_half_applied_witness :
  let s' := (Apply commit_far far_prepared).1 in
  res_error (Apply commit_far far_prepared).2 = METADATA_INVALID_ARGUMENT ∧ revision_ s' = 4 ∧ migrations_ s' = ∅ ∧
  view_revision (View s') = 3.
Proof.
  destruct (commit_move_half_applied far_prepared commit_far 1 12 (Some (MkEpoch 1 1))
    (default (MkMigration 0 0 0 None REPLICA_MIGRATION_COMPLETE 0 0 EmptyString) (migrations_ far_prepared !! 1))
    (MkPeerDescriptor 12 3 "c" 40000 true)
    (default (MkRegion 0 EmptyString EmptyString [] (MkEpoch 0 0) 0 0 None) (find_region 1 (regions_ far_prepared)))
    (hd (MkPeer 0 EmptyString 0 0 0 false) (all_peers (regions_ far_prepared)))) as (H1 & H2 & H3 & _ & H5 & _).
  - split; [discriminate|vm_compute; reflexivity].
  - reflexivity.
  - vm_compute. discriminate.
  - vm_compute. reflexivity.
  - vm_compute. reflexivity.
  - vm_compute. reflexivity.
  - reflexivity.
  - vm_compute. reflexivity.
  - vm_compute. reflexivity.
  - vm_compute. reflexivity.
  - vm_compute. split; [reflexivity|discriminate].
  - split; [exact H1|]. split; [rewrite H2; vm_compute; reflexivity|].
    split; [rewrite H3; vm_compute; reflexivity|]. rewrite H5. vm_compute. reflexivity.
Defined.

End CornerCases.

Module SafetyDemo.
Import MetaDemo OrderlyDemo.

Lemma metadata_invariant_witness :
  View split_prepared = view_of split_prepared (Some (regions_ split_prepared)) ∧
  valid_catalog (regions_ split_prepared).
Proof.
  destruct (metadata_invariant split_prepared prepared_orderly) as (Hv & Hc & _); [vm_compute; discriminate|].
  split; [exact Hv|exact Hc].
Defined.

Definition stale : MetadataCommand := MkCommand "stale" 7 (PrepareSplit 1 "m" (Some (MkEpoch 1 1))).

Lemma failed_command_no_effect_witness :
  res_error (Apply stale booted).2 = METADATA_REVISION_MISMATCH ∧
  ∃ m d o, (Apply stale booted).1 = set_metrics m (set_dedup d o booted).
Proof.
  split; [vm_compute; reflexivity|].
  apply (failed_command_no_effect booted stale _ (Apply stale booted).2 booted_orderly booted_room).
  - intros rid pid e. discriminate.
  - destruct (Apply stale booted). reflexivity.
  - vm_compute. discriminate.
Defined.

Definition alloc (name : string) (rev n : N) : MetadataCommand :=
  MkCommand name rev (AllocateIds ID_NAMESPACE_PEER n).

Lemma allocations_disjoint_witness :
  let s1 := (Apply (alloc "a1" 1 5) booted).1 in
  let r1 := (Apply (alloc "a1" 1 5) booted).2 in
  let r2 := (Apply (alloc "a2" 2 3) s1).2 in
  res_firstallocatedid r1 + 5 ≤ res_firstallocatedid r2.
Proof.
  intros s1 r1 r2.
  destruct (allocations_disjoint booted (alloc "a1" 1 5) s1 r1 s1 (alloc "a2" 2 3) (Apply (alloc "a2" 2 3) s1).1 r2
    ID_NAMESPACE_PEER 5 3) as [H _]; [apply booted_orderly|reflexivity|..|exact H].
  - split; [discriminate|vm_compute; reflexivity].
  - unfold s1, r1. destruct (Apply _ booted). reflexivity.
  - vm_compute. reflexivity.
  - apply rtc_refl.
  - reflexivity.
  - split; [discriminate|vm_compute; reflexivity].
  - unfold r2. destruct (Apply _ s1). reflexivity.
  - vm_compute. reflexivity.
Defined.

Lemma split_routes_witness :
  ∃ region', LookupKey split_committed "q" = Some region' ∧ regionId region' = 2%Z ∧ peerId <$> peers region' = [12].
Proof.
  destruct (split_routes split_prepared commit_split 1 split_committed (Apply commit_split split_prepared).2
    (default CatalogDemo.left (find_last_region 1 (regions_ split_prepared)))
    (default (MkSplitPending EmptyString CatalogDemo.left)
      (splitPending (default CatalogDemo.left (find_last_region 1 (regions_ split_prepared)))))
    "q" (default CatalogDemo.left (LookupKey split_prepared "q")) prepared_orderly prepared_room)
    as (region' & Hl & Hid & Hp).
  - reflexivity.
  - split; [discriminate|vm_compute; reflexivity].
  - vm_compute. reflexivity.
  - vm_compute. reflexivity.
  - vm_compute. reflexivity.
  - vm_compute. reflexivity.
  - vm_compute. reflexivity.
  - vm_compute. reflexivity.
  - exists region'. split; [exact Hl|]. rewrite Hid, Hp. vm_compute. split; reflexivity.
Defined.

Lemma operator_exclusive_witness :
  activeOperatorByRegion_ (run [create "x"] booted) !! 1%N = Some "x".
Proof.
  apply (operator_exclusive (run [create "x"] booted) "x" (op "x") "x" (op "x") created_orderly);
    vm_compute; reflexivity.
Defined.

Lemma ended_operator_final_witness :
  let s := run [create "x"; cancel "x"] booted in
  ∃ o', schedulingOperators_ (Apply (touch "x") s).1 !! "x" = Some o' ∧
        so_phase o' = SCHEDULING_OPERATOR_CANCELLED.
Proof.
  intros s. destruct (ended_operator_final s (Apply (touch "x") s).1 "x"
    (default (op "x") (schedulingOperators_ s !! "x"))) as (o' & H1 & H2).
  - apply rtc_once. exists (touch "x"). reflexivity.
  - vm_compute. reflexivity.
  - vm_compute. reflexivity.
  - exists o'. split; [exact H1|]. rewrite H2. vm_compute. reflexivity.
Defined.

End SafetyDemo.
