(* ===== verification/MetaSnapshot.v ===== *)
(** * Snapshots of the metadata state machine

    [Snapshot] writes the durable state as one message and [Restore] validates
    and reads it back.  A restored replica equals the one the snapshot was taken
    from, provided every peer still sits at the endpoint of its Store; a changed
    endpoint makes the snapshot unreadable. *)

From Stdlib Require Import ZArith QArith.
From S2P Require Import Prelude RegionMeta MetaTypes MetaState MetaDemo MetaStep MetaInv MetaKeep MetaDedup.
Import MetadataStateMachine.
#[local] Open Scope N_scope.
#[local] Opaque kDedupRetention.

(** ** Tables as lists of their entries *)

Section Entries.
Context {K V : Type} `{Countable K} (key : V → K).

Definition insert_all (acc : gmap K V) (vs : list V) : gmap K V :=
  foldl (λ acc v, <[key v := v]> acc) acc vs.

(** The entries of a table keyed by what they carry. *)
Definition keyed (m : gmap K V) : Prop := ∀ k v, m !! k = Some v → key v = k.

Lemma insert_all_lookup acc vs k v :
  NoDup (key <$> vs) →
  insert_all acc vs !! k = Some v ↔ (v ∈ vs ∧ key v = k) ∨ (k ∉ key <$> vs ∧ acc !! k = Some v).
Proof.
  revert acc. induction vs as [|x vs IH]; intros acc Hnd; simpl.
  { split; [intros Hl; right; split; [apply not_elem_of_nil|done]|].
    intros [[?%not_elem_of_nil _]|[_ ?]]; done. }
  apply NoDup_cons in Hnd as [Hx Hnd]. rewrite IH, lookup_insert_Some by done.
  rewrite !elem_of_cons. destruct (decide (k = key x)) as [->|Hne].
  - split.
    + intros [[Hv Hk]|[_ [[_ ->]|[? _]]]]; [|by auto|done]. left. auto.
    + intros [[[->|Hv] Hk]|[Hn _]]; [auto|auto|]. destruct Hn. by left.
  - split.
    + intros [[Hv Hk]|[Hn [[? _]|[_ Ha]]]]; [by auto|by destruct Hne|].
      right. split; [|done]. by intros [?|?].
    + intros [[[->|Hv] Hk]|[Hn Ha]]; [by destruct Hne|by auto|]. right. split; [|by auto]. naive_solver.
Qed.

(** Entries under distinct keys, none of them taken. *)
Definition fresh (acc : gmap K V) (vs : list V) : Prop :=
  NoDup (key <$> vs) ∧ ∀ v, v ∈ vs → acc !! key v = None.

Lemma fresh_cons acc x vs :
  fresh acc (x :: vs) → acc !! key x = None ∧ fresh (<[key x := x]> acc) vs.
Proof.
  intros [[Hni Hnd]%NoDup_cons Hacc]. split; [apply Hacc; by left|]. split; [done|].
  intros v Hv. rewrite lookup_insert_ne; [apply Hacc; by right|].
  intros Heq. apply Hni. rewrite Heq. apply list_elem_of_fmap. by exists v.
Qed.

Context (m : gmap K V) (vs : list V).
Hypothesis Hkeyed : keyed m.
Hypothesis Hperm : vs ≡ₚ (map_to_list m).*2.

Lemma entries_keys : key <$> vs ≡ₚ (map_to_list m).*1.
Proof using Hkeyed Hperm.
  rewrite Hperm, <- list_fmap_compose. apply Permutation_refl'. apply list_fmap_ext.
  intros i [k v] Hkv%list_elem_of_lookup_2%elem_of_map_to_list. simpl. by apply Hkeyed.
Qed.

Lemma entries_NoDup : NoDup (key <$> vs).
Proof using Hkeyed Hperm. rewrite entries_keys. apply NoDup_fst_map_to_list. Qed.

Lemma entries_fresh : fresh ∅ vs.
Proof using Hkeyed Hperm. split; [apply entries_NoDup|]. intros v _. apply lookup_empty. Qed.

Lemma entries_elem v : v ∈ vs ↔ m !! key v = Some v.
Proof using Hkeyed Hperm.
  rewrite Hperm, list_elem_of_fmap. split.
  - intros ([k x] & -> & Hkv%elem_of_map_to_list). simpl. by rewrite (Hkeyed _ _ Hkv).
  - intros Hv. exists (key v, v). split; [done|]. by apply elem_of_map_to_list.
Qed.

Lemma insert_all_entries : insert_all ∅ vs = m.
Proof using Hkeyed Hperm.
  apply map_eq. intros k. apply option_eq. intros v. rewrite insert_all_lookup by apply entries_NoDup.
  rewrite entries_elem, lookup_empty. split.
  - by intros [[Hv <-]|[_ ?]].
  - intros Hv. left. by rewrite (Hkeyed _ _ Hv).
Qed.

End Entries.

(** A list that has exactly the entries of a table. *)
Lemma entries_perm {K V} `{Countable K} (key : V → K) (m : gmap K V) vs :
  keyed key m → NoDup (key <$> vs) → (∀ v, v ∈ vs ↔ m !! key v = Some v) → vs ≡ₚ (map_to_list m).*2.
Proof.
  intros Hk Hnd Hv. apply NoDup_Permutation.
  - by apply NoDup_fmap_1 in Hnd.
  - apply (NoDup_fmap_1 key). by apply (entries_NoDup key m).
  - intros v. by rewrite Hv, (entries_elem key m (map_to_list m).*2).
Qed.

Lemma om_list_perm {V} (m : gmap N V) : om_list m ≡ₚ map_to_list m.
Proof. apply merge_sort_Permutation. Qed.

Lemma sorted_values_perm {V} (m : gmap N V) : sorted_values m ≡ₚ (map_to_list m).*2.
Proof. unfold sorted_values. by rewrite om_list_perm. Qed.

(** ** The loops of [Restore] *)

Lemma untaken {K V} `{Countable K} (acc : gmap K V) k :
  acc !! k = None → bool_decide (is_Some (acc !! k)) = false.
Proof. intros ->. by apply bool_decide_eq_false, is_Some_None. Qed.

Lemma collect_stores_Ok what ss acc :
  Forall (λ st, store_fits st = true) ss → fresh st_storeid acc ss →
  collect_stores what ss acc = Ok (insert_all st_storeid acc ss).
Proof.
  intros Hf. revert acc. induction Hf as [|x ss Hx Hf IH]; intros acc Hfr; [done|]. simpl.
  apply fresh_cons in Hfr as [Hn Hfr]. rewrite Hx, untaken by done. by apply IH.
Qed.

Lemma collect_migrations_Ok s ms acc :
  Forall (λ m, mig_regionid m ≠ 0 ∧ ∃ rid, migration_ok s rid m) ms → fresh mig_regionid acc ms →
  collect_migrations ms acc = Ok (insert_all mig_regionid acc ms).
Proof.
  intros Hf. revert acc. induction Hf as [|x ms [Hx [rid [_ Hs (d & Ht & _ & Hd)]]] Hf IH]; intros acc Hfr; [done|].
  simpl. apply fresh_cons in Hfr as [Hn Hfr]. rewrite Ht, untaken by done.
  rewrite (proj2 (N.eqb_neq _ _) Hx), (proj2 (N.eqb_neq _ _) Hs), (proj2 (N.eqb_neq (pd_peerid d) 0)) by lia.
  by apply IH.
Qed.

Lemma collect_heartbeats_Ok stores hs acc :
  Forall (λ h, ∃ sid, heartbeat_ok stores sid h) hs → fresh hb_storeid acc hs →
  collect_heartbeats stores hs acc = Ok (insert_all hb_storeid acc hs).
Proof.
  intros Hf. revert acc. induction Hf as [|x hs [sid [Hs Hk Hz Hq He]] Hf IH]; intros acc Hfr; [done|].
  simpl. apply fresh_cons in Hfr as [Hn Hfr]. rewrite (untaken _ _ Hn). subst sid.
  rewrite (proj2 (N.eqb_neq _ _) Hz), (proj2 (N.eqb_neq _ _) Hq), (proj2 (N.leb_gt _ _) He).
  rewrite bool_decide_true by done. by apply IH.
Qed.

Lemma collect_mutations_Ok rs acc order :
  Forall (λ r, rec_mutationid r ≠ EmptyString) rs → fresh rec_mutationid acc rs →
  collect_mutations rs acc order = Ok (insert_all rec_mutationid acc rs, order ++ (rec_mutationid <$> rs)).
Proof.
  intros Hf. revert acc order. induction Hf as [|x rs Hx Hf IH]; intros acc order Hfr; simpl.
  { by rewrite app_nil_r. }
  apply fresh_cons in Hfr as [Hn Hfr]. rewrite (proj2 (String.eqb_neq _ _) Hx), untaken by done.
  simpl. rewrite IH by done. by rewrite <- app_assoc.
Qed.

(** The operators that are not finished, by Region. *)
Definition active_of (active : gmap N string) (os : list SchedulingOperator) : gmap N string :=
  foldl (λ a o, if IsTerminal (so_phase o) then a else <[so_regionid o := so_operatorid o]> a) active os.

Definition live (os : list SchedulingOperator) : list SchedulingOperator :=
  filter (λ o, IsTerminal (so_phase o) = false) os.

Lemma collect_operators_Ok rev os acc active :
  Forall (λ o, so_operatorid o ≠ EmptyString ∧ so_regionid o ≠ 0 ∧ so_sourcerevision o ≤ rev) os →
  fresh so_operatorid acc os → NoDup (so_regionid <$> live os) →
  (∀ o, o ∈ live os → active !! so_regionid o = None) →
  collect_operators rev os acc active = Ok (insert_all so_operatorid acc os, active_of active os).
Proof.
  intros Hf. revert acc active. induction Hf as [|x os (H1 & H2 & H3) Hf IH]; intros acc active Hfr Hnd Hact; [done|].
  apply fresh_cons in Hfr as [Hn Hfr]. simpl. rewrite (proj2 (String.eqb_neq _ _) H1), untaken by done.
  rewrite (proj2 (N.eqb_neq _ _) H2), (proj2 (N.ltb_ge _ _) H3). simpl. unfold live in *.
  destruct (IsTerminal (so_phase x)) eqn:Ht.
  - rewrite filter_cons_False in Hnd, Hact by (by rewrite Ht). by apply IH.
  - rewrite filter_cons_True in Hnd, Hact by done. apply NoDup_cons in Hnd as [Hni Hnd].
    rewrite untaken by (apply Hact; by left). apply IH; [done..|]. intros o Ho.
    rewrite lookup_insert_ne; [apply Hact; by right|].
    intros Heq. apply Hni, list_elem_of_fmap. by exists o.
Qed.

Lemma active_of_lookup active os rid id :
  NoDup (so_regionid <$> live os) →
  active_of active os !! rid = Some id ↔
  (∃ o, o ∈ os ∧ IsTerminal (so_phase o) = false ∧ so_regionid o = rid ∧ so_operatorid o = id) ∨
  (rid ∉ so_regionid <$> live os ∧ active !! rid = Some id).
Proof.
  revert active. unfold live. induction os as [|x os IH]; intros active Hnd; simpl.
  { split; [intros Hl; right; split; [apply not_elem_of_nil|done]|].
    intros [(o & ?%not_elem_of_nil & _)|[_ ?]]; done. }
  destruct (IsTerminal (so_phase x)) eqn:Ht.
  - rewrite filter_cons_False in * by (by rewrite Ht). rewrite IH by done.
    apply or_iff_compat_r. split; [intros (o & Ho & ?); exists o; by split; [right|]|].
    intros (o & [->|Ho]%elem_of_cons & Hl & ?); [congruence|by exists o].
  - rewrite filter_cons_True in * by done. apply NoDup_cons in Hnd as [Hni Hnd].
    rewrite IH, lookup_insert_Some by done. cbn [fmap list_fmap]. rewrite elem_of_cons. split.
    + intros [(o & Ho & ?)|[Hn [[<- <-]|[Hne Ha]]]].
      * left. exists o. by split; [right|].
      * left. exists x. by split_and!; [left|..].
      * right. split; [|done]. by intros [?|?].
    + intros [(o & [->|Ho]%elem_of_cons & Hl & <- & <-)|[Hn Ha]].
      * right. split; [done|by left].
      * left. by exists o.
      * right. split; [tauto|]. right. split; [|done]. intros <-. tauto.
Qed.

(** ** The round trip *)

(** What [Restore] checks and commands may break: positive Region identifiers,
    and peers at the endpoint of their Store. *)
Record restorable (s : t) : Prop := MkRestorable {
  rs_regions : ∀ r, r ∈ regions_ s → (0 < regionId r)%Z;
  rs_migrations : migrations_ s !! 0 = None;
  rs_endpoints : forallb (peer_on_store (stores_ s)) (all_peers (regions_ s)) = true
}.

Lemma omap_keys (d : gmap string MutationRecord) (order : list string) :
  keyed rec_mutationid d → (∀ id, id ∈ order → is_Some (d !! id)) →
  rec_mutationid <$> omap (λ id, d !! id) order = order.
Proof.
  intros Hk. induction order as [|id l IH]; intros Hall; [done|]. simpl.
  destruct (Hall id ltac:(by left)) as [r Hr]. rewrite Hr. simpl. rewrite (Hk _ _ Hr). f_equal. apply IH.
  intros id' Hid'. apply Hall. by right.
Qed.

Section Trip.
Context (s : t).
Hypothesis Hi : minv s.
Hypothesis Hdd : dedup_inv s.
Hypothesis Hrest : restorable s.

Let Hd : durable s := mi_durable s Hi.

Lemma DecodeRegions_trip : DecodeRegions (ToProtoRegion <$> regions_ s) = Ok (regions_ s).
Proof using Hi Hrest.
  unfold DecodeRegions. apply mapM_result_Ok. pose proof (du_wire _ Hd) as Hw.
  pose proof (rs_regions _ Hrest) as Hpos. apply Forall2_fmap_l, Forall_Forall2_diag, Forall_forall.
  intros r Hr. rewrite Forall_forall in Hw. specialize (Hw r Hr). specialize (Hpos r Hr). unfold compose.
  assert (DescriptorIdsFit (ToProtoRegion r) = true) as ->; [|by apply wire_roundtrip].
  destruct r as [rid ? ? ? ? ? ? ?]. destruct Hw as (Hid & _). simpl in *. unfold DescriptorIdsFit. simpl.
  unfold u64_of_int. rewrite Z.mod_small by lia. unfold int_max.
  apply andb_true_iff. split; [apply N.ltb_lt|apply N.leb_le]; lia.
Qed.

Lemma stores_trip what :
  collect_stores what (sorted_values (stores_ s)) ∅ = Ok (stores_ s).
Proof using Hi.
  assert (keyed st_storeid (stores_ s)) as Hk by (intros sid st Hst; by apply (du_stores _ Hd)).
  pose proof (sorted_values_perm (stores_ s)) as Hp. rewrite collect_stores_Ok.
  - by rewrite (insert_all_entries _ _ _ Hk Hp).
  - apply Forall_forall. intros st Hst. rewrite (entries_elem st_storeid (stores_ s)) in Hst by done.
    by apply (du_stores _ Hd) in Hst as [_ ?].
  - by apply (entries_fresh _ (stores_ s)).
Qed.

Lemma migrations_trip : collect_migrations (sorted_values (migrations_ s)) ∅ = Ok (migrations_ s).
Proof using Hi Hrest.
  assert (keyed mig_regionid (migrations_ s)) as Hk by (intros rid m Hm; by apply (du_migrations _ Hd)).
  pose proof (sorted_values_perm (migrations_ s)) as Hp. rewrite (collect_migrations_Ok s).
  - by rewrite (insert_all_entries _ _ _ Hk Hp).
  - apply Forall_forall. intros m Hm. rewrite (entries_elem mig_regionid (migrations_ s)) in Hm by done.
    split; [|eexists; by apply (du_migrations _ Hd)]. intros Hz.
    rewrite Hz, (rs_migrations _ Hrest) in Hm. done.
  - by apply (entries_fresh _ (migrations_ s)).
Qed.

Lemma heartbeats_trip :
  collect_heartbeats (stores_ s) (sorted_values (storeHeartbeats_ s)) ∅ = Ok (storeHeartbeats_ s).
Proof using Hi.
  assert (keyed hb_storeid (storeHeartbeats_ s)) as Hk by (intros sid h Hh; by apply (du_heartbeats _ Hd)).
  pose proof (sorted_values_perm (storeHeartbeats_ s)) as Hp. rewrite collect_heartbeats_Ok.
  - by rewrite (insert_all_entries _ _ _ Hk Hp).
  - apply Forall_forall. intros h Hh. rewrite (entries_elem hb_storeid (storeHeartbeats_ s)) in Hh by done.
    eexists. by apply (du_heartbeats _ Hd).
  - by apply (entries_fresh _ (storeHeartbeats_ s)).
Qed.

Lemma mutations_trip :
  collect_mutations (omap (λ id, dedup_ s !! id) (dedupOrder_ s)) ∅ [] = Ok (dedup_ s, dedupOrder_ s).
Proof using Hdd.
  destruct Hdd as [Hnd Hdom Hrec]. set (rs := omap _ _).
  assert (keyed rec_mutationid (dedup_ s)) as Hk by (intros id r Hr; by apply Hrec).
  assert (rec_mutationid <$> rs = dedupOrder_ s) as Hkeys.
  { apply omap_keys; [done|]. intros id. apply Hdom. }
  assert (∀ v, v ∈ rs ↔ dedup_ s !! rec_mutationid v = Some v) as Hel.
  { intros v. unfold rs. rewrite list_elem_of_omap. split.
    - intros (id & _ & Hv). by rewrite (Hk _ _ Hv).
    - intros Hv. exists (rec_mutationid v). split; [|done]. apply Hdom. by rewrite Hv. }
  assert (rs ≡ₚ (map_to_list (dedup_ s)).*2) as Hp by (apply (entries_perm rec_mutationid); [done|by rewrite Hkeys|done]).
  rewrite collect_mutations_Ok; [by rewrite (insert_all_entries _ (dedup_ s)), Hkeys| |by apply (entries_fresh _ (dedup_ s))].
  apply Forall_forall. intros r Hr%Hel. apply Hrec in Hr as [_ ?]. done.
Qed.

Definition sorted_operators : list SchedulingOperator :=
  (merge_sort (str_le_on fst) (map_to_list (schedulingOperators_ s))).*2.

Lemma operators_trip :
  collect_operators (revision_ s) sorted_operators ∅ ∅ =
  Ok (schedulingOperators_ s, activeOperatorByRegion_ s).
Proof using Hi.
  destruct (du_operators _ Hd) as [He Ha].
  assert (keyed so_operatorid (schedulingOperators_ s)) as Hk by (intros id o Ho; by apply He).
  assert (sorted_operators ≡ₚ (map_to_list (schedulingOperators_ s)).*2) as Hp
    by (unfold sorted_operators; by rewrite merge_sort_Permutation).
  pose proof (entries_elem _ _ _ Hk Hp) as Hel.
  assert (NoDup (so_regionid <$> live sorted_operators)) as Hnd.
  { apply NoDup_fmap_2_strong.
    - intros x y [Hx Hx'%Hel]%list_elem_of_filter [Hy Hy'%Hel]%list_elem_of_filter Heq.
      assert (activeOperatorByRegion_ s !! so_regionid x = Some (so_operatorid x)) as A1 by (apply Ha; eauto).
      assert (activeOperatorByRegion_ s !! so_regionid x = Some (so_operatorid y)) as A2 by (apply Ha; eauto).
      rewrite A1 in A2. injection A2 as E. rewrite E in Hx'. congruence.
    - apply NoDup_filter. by eapply NoDup_fmap_1, entries_NoDup. }
  rewrite collect_operators_Ok; [|..|done|intros o _; apply lookup_empty].
  - rewrite (insert_all_entries _ (schedulingOperators_ s)) by done. do 2 f_equal.
    apply map_eq. intros rid. apply option_eq. intros id. rewrite active_of_lookup, Ha, lookup_empty by done. split.
    + intros [(o & Ho%Hel & Hl & <- & <-)|[_ ?]]; [eauto|done].
    + intros (o & Ho & Hr & Hl). left. exists o. rewrite Hel. destruct (He _ _ Ho) as (-> & _). done.
  - apply Forall_forall. intros o Ho%Hel. destruct (He _ _ Ho) as (_ & ? & ? & ?). done.
  - by apply (entries_fresh _ (schedulingOperators_ s)).
Qed.

(** A replica that holds the durable state of [s]. *)
Definition copy_of (s0 : t) : t :=
  MkState (published_ s0) (regions_ s) (stores_ s) (revision_ s) (regionIdHighWater_ s) (peerIdHighWater_ s)
    (storeIdHighWater_ s) (bootstrapDigest_ s) (migrations_ s) (storeHeartbeats_ s) (balancerConfig_ s)
    (schedulingOperators_ s) (activeOperatorByRegion_ s) (dedup_ s) (dedupOrder_ s) (metrics_ s0).

Hypothesis Hrev : revision_ s ≠ 0.

Lemma decode_trip s0 : decode_snapshot (snapshot_message s) s0 = Ok (copy_of s0).
Proof using Hi Hdd Hrest Hrev.
  destruct (du_valid _ Hd Hrev) as [Hv Hdig]. unfold decode_snapshot, snapshot_message. simpl.
  rewrite DecodeRegions_trip. simpl. rewrite (proj2 (N.eqb_neq _ _) Hrev). simpl.
  rewrite (proj2 (N.ltb_lt 0 (revision_ s))), (valid_make _ Hv) by lia. simpl.
  rewrite stores_trip. simpl. rewrite (proj2 (String.eqb_neq _ _) Hdig), (rs_endpoints _ Hrest). simpl.
  rewrite mutations_trip. simpl. rewrite migrations_trip. simpl. rewrite heartbeats_trip. simpl.
  rewrite (du_config _ Hd). simpl. fold sorted_operators. by rewrite operators_trip.
Qed.

Lemma foldl_max_bounded h l : (∀ x, x ∈ l → x ≤ h) → foldl N.max h l = h.
Proof using.
  induction l as [|x l IH]; intros Hl; [done|]. simpl.
  rewrite N.max_l by (apply Hl; by left). apply IH. intros y Hy. apply Hl. by right.
Qed.

Lemma recompute_trip s0 : RecomputeHighWaterLocked (copy_of s0) = copy_of s0.
Proof using Hi.
  destruct (du_bounded _ Hd) as [H1 H2 H3]. unfold RecomputeHighWaterLocked, copy_of, set_highWater. simpl.
  rewrite (foldl_max_bounded (regionIdHighWater_ s)), (foldl_max_bounded (peerIdHighWater_ s)),
    (foldl_max_bounded (storeIdHighWater_ s)), (foldl_max_bounded (storeIdHighWater_ s)).
  - done.
  - intros x ([sid st] & -> & Hst%elem_of_map_to_list)%list_elem_of_fmap. apply H3. simpl. by rewrite Hst.
  - intros x (p & -> & Hp)%list_elem_of_fmap. by apply H2.
  - intros x (p & -> & Hp)%list_elem_of_fmap. by apply H2.
  - intros x (r & -> & Hr)%list_elem_of_fmap. by apply H1.
Qed.

End Trip.

Section Snapshots.
Context `{!SnapshotCodec}.

(** [C24] A snapshot of a restorable state carries the whole state.  Take a
    bootstrapped replica that has applied orderly commands, whose Region
    identifiers are positive, without a migration of Region 0, and with every peer
    at the endpoint of its Store.  Any replica that restores the bytes it wrote
    ends up in its state, with its own counters, and publishes the same view.
    Commands can break these conditions: after a Store has announced a new address
    no replica can restore a snapshot ([relocated_unrestorable]). *)
Theorem snapshot_roundtrip s s1 bytes s0 :
  rtc ostep initial s → revision_ s ≠ 0 → restorable s → Snapshot s = (s1, Ok bytes) →
  Restore bytes s0 = (set_metrics (metrics_ s0) s, Ok tt).
Proof.
  intros Hrun Hrev Hrest. pose proof (run_minv _ Hrun) as Hi. pose proof (ostep_dedup _ Hrun) as Hdd.
  unfold Snapshot. destruct (snap_serialize _) as [b|] eqn:Hser; [|done]. intros [= _ ->].
  unfold Restore. rewrite (snap_parse_serialize _ _ Hser). simpl.
  rewrite decode_trip by done. cbv zeta. rewrite recompute_trip by done.
  destruct (du_valid _ (mi_durable _ Hi) Hrev) as [Hv _]. unfold PublishLocked. simpl.
  rewrite bool_decide_false by (intros Hn; by rewrite Hn in Hv; destruct Hv). rewrite valid_make by done.
  do 2 f_equal. unfold set_published, set_metrics, copy_of. simpl. f_equal. symmetry. by apply (mi_view _ Hi).
Qed.

End Snapshots.

Module SnapshotDemo.
Import MetaDemo OrderlyDemo.

(** A cluster whose first Store has announced a new address. *)
Definition relocate : MetadataCommand := MkCommand "rel" 1 (PutStore (MkStore 1 "elsewhere" 7000 [])).
Definition relocated : t := run [relocate] booted.

Section Codec.
Context `{!SnapshotCodec}.

(** A Store that announces a new address makes the snapshots of the cluster
    unreadable: the command is accepted, the peers on the Store keep the old
    address, and no replica can restore a snapshot taken from then on. *)
Theorem relocated_unrestorable s1 bytes s0 :
  Snapshot relocated = (s1, Ok bytes) →
  errors [relocate] booted = [METADATA_OK] ∧
  Restore bytes s0 = (s0, Throw "snapshot Region peer does not match a Store descriptor").
Proof.
  intros Hs. split; [vm_compute; reflexivity|]. unfold Snapshot in Hs.
  destruct (snap_serialize _) as [b|] eqn:Hser; [|done]. injection Hs as _ ->.
  unfold Restore. rewrite (snap_parse_serialize _ _ Hser).
  assert (decode_snapshot (snapshot_message relocated) s0 =
          Throw "snapshot Region peer does not match a Store descriptor") as Hd by (vm_compute; reflexivity).
  by rewrite Hd.
Qed.

End Codec.

Lemma relocated_unrestorable_witness :
  (Restore (H := codec_for (snapshot_message relocated)) "snapshot" initial).2 =
  Throw "snapshot Region peer does not match a Store descriptor".
Proof.
  destruct (relocated_unrestorable (H := codec_for (snapshot_message relocated))
    (count_snapshot relocated) "snapshot" initial) as [_ H].
  - vm_compute. reflexivity.
  - rewrite H. reflexivity.
Defined.

Lemma snapshot_roundtrip_witness :
  (Restore (H := codec_for (snapshot_message split_prepared)) "snapshot" initial).1 =
  set_metrics (metrics_ initial) split_prepared.
Proof.
  rewrite (snapshot_roundtrip (H := codec_for (snapshot_message split_prepared))
    split_prepared (count_snapshot split_prepared) "snapshot" initial prepared_orderly).
  - reflexivity.
  - vm_compute. discriminate.
  - split.
    + intros r Hr. apply list_elem_of_In in Hr. vm_compute in Hr. destruct Hr as [<-|[]]. reflexivity.
    + vm_compute. reflexivity.
    + vm_compute. reflexivity.
  - vm_compute. reflexivity.
Defined.

End SnapshotDemo.
