(* ===== verification/Planner.v ===== *)
(** * The Auto-Balancer planner

    [AutoBalancerPlanner::Plan] ([metadata/auto_balancer_planner.cpp]): a pure
    function of the published metadata view that proposes scheduling operators:
    replacements of stale replicas, splits of Regions that stay large or busy,
    and moves from the fullest to the emptiest Store.

    Scores are IEEE 754 binary64 numbers.  [double] arithmetic is that of
    [SpecFloat] with 53 bits of precision and exponents below 1024, rounding to
    nearest, ties to even.  [scores] is a [std::unordered_map]: the order in which
    the loops visit it is not specified, and is the parameter [traverse]. *)

From Stdlib Require Import ZArith QArith Qreduction SpecFloat.
From S2P Require Import Prelude RegionMeta Codec MetaTypes MetaState MetaDemo MetaKeep.
Import MetadataStateMachine.
#[local] Open Scope N_scope.

(** ** [double] *)

Module Binary64.

Definition of_N (n : N) : spec_float := binary_normalize 53 1024 (Z.of_N n) 0 false.
Definition add : spec_float → spec_float → spec_float := SFadd 53 1024.
Definition sub : spec_float → spec_float → spec_float := SFsub 53 1024.
Definition mul : spec_float → spec_float → spec_float := SFmul 53 1024.
Definition div : spec_float → spec_float → spec_float := SFdiv 53 1024.

(** The literal [n / d]: the quotient of two small integers rounds once. *)
Definition literal (n d : N) : spec_float := div (of_N n) (of_N d).

Definition infinity : spec_float := S754_infinity false.

(** A [double] of the configuration.  The denominator of a finite one is a power
    of two, so that the conversion is exact. *)
Definition of_double (d : double) : spec_float :=
  match d with
  | Nan => S754_nan
  | Infinite negative => S754_infinity negative
  | Finite q => let q := Qred q in
      binary_normalize 53 1024 (Qnum q) (- Z.log2 (Zpos (Qden q))) false
  end.

End Binary64.

(** ** [uint32_t] *)

Definition u32_size : N := 2 ^ 32.
Definition wrap32 (n : N) : N := n mod u32_size.
Definition inc32 (n : N) : N := wrap32 (n + 1).

Module AutoBalancerPlanner.
Import Binary64.

(** ** Data *)

Record StoreScore := MkScore {
  sc_storeId : N;
  sc_fresh : bool;
  sc_eligible : bool;
  sc_score : spec_float;
  sc_regionCount : N;
  sc_requestCount : N
}.

Inductive SchedulingPlanReason := SafetyRepair | AutomaticSplit | Balance.

Record SchedulingPlan := MkPlan {
  operation : SchedulingOperator;
  reason : SchedulingPlanReason;
  scoreBenefit : spec_float;
  explanation : string
}.

Record SchedulingRejection := MkRejection { rj_regionId : N; rj_reason : string }.

Record ClusterSchedulingSnapshot := MkSchedulingSnapshot {
  metadata : option MetadataView;
  nowMs : N;
  snap_splitEvidenceWindows : gmap N N;
  cooldownUntilMs : gmap N N
}.

Record AutoBalancerPlanResult := MkPlanResult {
  plans : list SchedulingPlan;
  rejections : list SchedulingRejection;
  splitEvidenceWindows : gmap N N
}.

#[global] Instance SchedulingPlanReason_eq_dec : EqDecision SchedulingPlanReason.
Proof. solve_decision. Defined.

(** ** Helpers *)

Definition OperatorId (revision regionId : N) (kind : string) (source target : N) : string :=
  "auto:" +:+ to_string revision +:+ ":" +:+ to_string regionId +:+ ":" +:+ kind +:+
  ":" +:+ to_string source +:+ ":" +:+ to_string target.

(** How long an operator may be retried. *)
Definition retryWindow (config : AutoBalancerConfig) : N :=
  N.max 30000 (wrap64 (cf_heartbeattimeoutms config * 4)).

Definition BaseOperator (view : MetadataView) (region : RegionMetadata) (now : N) : SchedulingOperator :=
  MkOperator EmptyString SCHEDULING_OPERATOR_MOVE_PEER (u64_of_int (regionId region))
    (view_revision view) (Some (epoch region)) 0 0 0 SCHEDULING_OPERATOR_PENDING 0
    (now +₆₄ retryWindow (view_balancerConfig view)) EmptyString false false now now.

(** The assignments its callers make. *)
Definition assign (id : string) (type : SchedulingOperatorType) (source target generation : N)
    (o : SchedulingOperator) : SchedulingOperator :=
  MkOperator id type (so_regionid o) (so_sourcerevision o) (so_regionepoch o) source target generation
    (so_phase o) (so_attempts o) (so_deadlinems o) (so_lasterror o) (so_cancelrequested o)
    (so_irreversible o) (so_createdatms o) (so_updatedatms o).

Definition move_operator (view : MetadataView) (region : RegionMetadata) (now : N) (kind : string)
    (source target : N) : SchedulingOperator :=
  assign (OperatorId (view_revision view) (u64_of_int (regionId region)) kind source target)
    SCHEDULING_OPERATOR_MOVE_PEER source target 0 (BaseOperator view region now).

Definition split_operator (view : MetadataView) (region : RegionMetadata) (now generation : N)
    : SchedulingOperator :=
  assign (OperatorId (view_revision view) (u64_of_int (regionId region)) "split" 0 generation)
    SCHEDULING_OPERATOR_SPLIT_REGION 0 0 generation (BaseOperator view region now).

Definition HostsRegion (region : RegionMetadata) (store : N) : bool :=
  existsb (λ p, storeId p =? store) (peers region).

Definition FindObservation (view : MetadataView) (store rid : N) : option RegionSchedulingObservation :=
  match view_storeHeartbeats view !! store with
  | None => None
  | Some heartbeat => find (λ o, ob_regionid o =? rid) (hb_regions heartbeat)
  end.

(** ** Store scores *)

Definition usedRatio (hb : StoreHeartbeat) : spec_float :=
  if hb_capacitybytes hb =? 0 then of_N 1
  else sub (of_N 1) (div (of_N (hb_availablebytes hb)) (of_N (hb_capacitybytes hb))).

Definition heartbeat_score (config : AutoBalancerConfig) (now sid : N) (hb : StoreHeartbeat) : StoreScore :=
  let fresh := now <? hb_expiresatms hb in
  MkScore sid fresh
    (fresh && (cf_minimumfreebytes config <=? hb_availablebytes hb) &&
     SFleb (usedRatio hb) (of_double (cf_maximumdiskusedratio config)))
    (of_N 0) (wrap32 (N.of_nat (length (hb_regions hb)))) (hb_requestcount hb).

(** The first two loops: one entry per Store known or heard of. *)
Definition reported (view : MetadataView) (now : N) : gmap N StoreScore :=
  map_imap (λ sid hb, Some (heartbeat_score (view_balancerConfig view) now sid hb))
    (view_storeHeartbeats view) ∪
  map_imap (λ sid _, Some (MkScore sid false false (of_N 0) 0 0)) (view_stores view).

Definition maxRegionCount (view : MetadataView) : N :=
  map_fold (λ _ hb m, N.max m (wrap32 (N.of_nat (length (hb_regions hb))))) 1 (view_storeHeartbeats view).
Definition maxRequestCount (view : MetadataView) : N :=
  map_fold (λ _ hb m, N.max m (hb_requestcount hb)) 1 (view_storeHeartbeats view).

(** The weighted sum of disk usage, Regions and requests. *)
Definition weigh (view : MetadataView) (sid : N) (sc : StoreScore) : StoreScore :=
  match view_storeHeartbeats view !! sid with
  | None => sc
  | Some report =>
      MkScore (sc_storeId sc) (sc_fresh sc) (sc_eligible sc)
        (add (add (mul (usedRatio report) (literal 55 100))
                (mul (div (of_N (sc_regionCount sc)) (of_N (maxRegionCount view))) (literal 25 100)))
           (mul (div (of_N (sc_requestCount sc)) (of_N (maxRequestCount view))) (literal 20 100)))
        (sc_regionCount sc) (sc_requestCount sc)
  end.

Definition store_scores (view : MetadataView) (now : N) : gmap N StoreScore :=
  map_imap (λ sid sc, Some (weigh view sid sc)) (reported view now).

(** ** Operators in flight *)

(** [++activeByStore[store]]. *)
Definition count_store (store : N) (active : gmap N N) : gmap N N :=
  <[store := inc32 (default 0 (active !! store))]> active.

Definition count_operation (o : SchedulingOperator) (active : gmap N N) : gmap N N :=
  let a1 := if so_sourcestoreid o =? 0 then active else count_store (so_sourcestoreid o) active in
  if so_targetstoreid o =? 0 then a1 else count_store (so_targetstoreid o) a1.

Definition in_flight (view : MetadataView) : list SchedulingOperator :=
  List.filter (λ o, negb (IsTerminal (so_phase o))) (map_to_list (view_schedulingOperators view)).*2.

Definition activeByStore (view : MetadataView) : gmap N N :=
  foldl (λ active o, count_operation o active) ∅ (in_flight view).

Definition budget_left (view : MetadataView) : N :=
  let activeCount := N.of_nat (length (in_flight view)) in
  let maximum := cf_maximumactiveoperators (view_balancerConfig view) in
  if maximum <=? activeCount then 0 else maximum - activeCount.

(** The variables of [Plan] that its three phases share. *)
Record planning := MkPlanning {
  pn_plans : list SchedulingPlan;
  pn_rejections : list SchedulingRejection;
  pn_active : gmap N N;
  pn_budget : N;
  pn_regions : gset N
}.

Definition refuse (rid : N) (why : string) (st : planning) : planning :=
  MkPlanning (pn_plans st) (pn_rejections st ++ [MkRejection rid why]) (pn_active st) (pn_budget st)
    (pn_regions st).

(** A plan takes a slot of the budget and its Region. *)
Definition propose (plan : SchedulingPlan) (active : gmap N N) (st : planning) : planning :=
  MkPlanning (pn_plans st ++ [plan]) (pn_rejections st) active (pn_budget st - 1)
    ({[so_regionid (operation plan)]} ∪ pn_regions st).

Definition occupied (view : MetadataView) (region : RegionMetadata) : bool :=
  let rid := u64_of_int (regionId region) in
  bool_decide (is_Some (view_activeOperatorByRegion view !! rid)) ||
  bool_decide (is_Some (view_migrations view !! rid)) ||
  match splitPending region with Some _ => true | None => false end.

Definition over_budget (view : MetadataView) (active : gmap N N) (store : N) : bool :=
  cf_maximumactiveperstore (view_balancerConfig view) <=? default 0 (active !! store).

Section with_order.
Context (traverse : gmap N StoreScore → list (N * StoreScore)).

(** ** Choosing Stores *)

(** The comparisons of the loops over [scores]: the smaller (larger) score, ties
    by the smaller Store. *)
Definition below (sc : StoreScore) (best : N * spec_float) : bool :=
  SFltb (sc_score sc) best.2 || (SFeqb (sc_score sc) best.2 && (sc_storeId sc <? best.1)).
Definition above (sc : StoreScore) (best : N * spec_float) : bool :=
  SFltb best.2 (sc_score sc) || (SFeqb (sc_score sc) best.2 && (sc_storeId sc <? best.1)).

Definition pick (better : StoreScore → N * spec_float → bool) (skip : StoreScore → bool)
    (best : N * spec_float) (item : N * StoreScore) : N * spec_float :=
  if skip item.2 then best
  else if better item.2 best then (sc_storeId item.2, sc_score item.2) else best.

Definition targetFor (view : MetadataView) (scores : gmap N StoreScore) (active : gmap N N)
    (region : RegionMetadata) : N :=
  (foldl (pick below (λ store, negb (sc_eligible store) || HostsRegion region (sc_storeId store) ||
                               over_budget view active (sc_storeId store)))
     (0, infinity) (traverse scores)).1.

(** One pass over [scores] updates both ends. *)
Definition extremes (view : MetadataView) (scores : gmap N StoreScore) (active : gmap N N)
    : (N * spec_float) * (N * spec_float) :=
  let idle store := negb (sc_fresh store) || over_budget view active (sc_storeId store) in
  foldl (λ ends item,
    (pick above idle ends.1 item, pick below (λ store, idle store || negb (sc_eligible store)) ends.2 item))
    ((0, SFopp (of_N 1)), (0, infinity)) (traverse scores).

(** ** Safety repair *)

(** The loop over the voters: how many are alive, and the smallest Store of one
    that is not. *)
Definition tally (scores : gmap N StoreScore) (acc : N * N) (peer : RegionPeerLocation) : N * N :=
  let '(liveVoters, staleSource) := acc in
  if isLearner peer then acc
  else if match scores !! storeId peer with Some sc => sc_fresh sc | None => false end
  then (inc32 liveVoters, staleSource)
  else if (staleSource =? 0) || (storeId peer <? staleSource) then (liveVoters, storeId peer)
  else acc.

Definition voters (scores : gmap N StoreScore) (region : RegionMetadata) : N * N :=
  foldl (tally scores) (0, 0) (peers region).

Definition repair_region (view : MetadataView) (scores : gmap N StoreScore) (now : N)
    (region : RegionMetadata) (st : planning) : planning :=
  let rid := u64_of_int (regionId region) in
  if occupied view region then refuse rid "topology operation already active" st
  else
    let '(liveVoters, staleSource) := voters scores region in
    if (cf_replicationfactor (view_balancerConfig view) <=? liveVoters) || (staleSource =? 0) then st
    else
      let target := targetFor view scores (pn_active st) region in
      if target =? 0 then refuse rid "no safe destination for replica repair" st
      else propose
             (MkPlan (move_operator view region now "repair" staleSource target)
                SafetyRepair (of_N 1) "replace stale replica on a fresh eligible Store")
             (count_store target (count_store staleSource (pn_active st))) st.

Fixpoint repair (view : MetadataView) (scores : gmap N StoreScore) (now : N)
    (regions : list RegionMetadata) (st : planning) : planning :=
  match regions with
  | [] => st
  | region :: rest =>
      if pn_budget st =? 0 then st
      else repair view scores now rest (repair_region view scores now region st)
  end.

(** ** Automatic splits *)

(** The observation of the Region: the leader's, or else the largest. *)
Fixpoint best_observation (view : MetadataView) (scores : gmap N StoreScore) (rid : N)
    (ps : list RegionPeerLocation) (best : option RegionSchedulingObservation)
    : option RegionSchedulingObservation :=
  match ps with
  | [] => best
  | peer :: rest =>
      let go := best_observation view scores rid rest in
      if negb match scores !! storeId peer with Some sc => sc_fresh sc | None => false end then go best
      else
        match FindObservation view (storeId peer) rid with
        | None => go best
        | Some o =>
            if ob_isleader o then Some o
            else if match best with
                    | None => true
                    | Some b => ob_approximatebytes b <? ob_approximatebytes o
                    end then go (Some o)
            else go best
        end
  end.

Definition above_threshold (config : AutoBalancerConfig) (best : option RegionSchedulingObservation) : bool :=
  match best with
  | None => false
  | Some o => negb (ob_splitcandidategeneration o =? 0) &&
      ((cf_splitsizebytes config <=? ob_approximatebytes o) ||
       (cf_splitrequestthreshold config <=? ob_requestcount o))
  end.

Definition cooling (snapshot : ClusterSchedulingSnapshot) (rid : N) : bool :=
  match cooldownUntilMs snapshot !! rid with Some until => nowMs snapshot <? until | None => false end.

Definition split_region (snapshot : ClusterSchedulingSnapshot) (view : MetadataView)
    (scores : gmap N StoreScore) (region : RegionMetadata) (acc : gmap N N * planning)
    : gmap N N * planning :=
  let '(windows, st) := acc in
  let rid := u64_of_int (regionId region) in
  let config := view_balancerConfig view in
  let best := best_observation view scores rid (peers region) None in
  let large := above_threshold config best in
  let evidence := if large then inc32 (default 0 (windows !! rid)) else 0 in
  let generation := match best with Some o => ob_splitcandidategeneration o | None => 0 end in
  (<[rid := evidence]> windows,
   if negb large || (evidence <? cf_splitconsecutivewindows config) || (pn_budget st =? 0) ||
      bool_decide (rid ∈ pn_regions st) then st
   else if occupied view region then refuse rid "automatic split deferred by topology work" st
   else if cooling snapshot rid then refuse rid "Region is inside scheduling cooldown" st
   else propose
          (MkPlan (split_operator view region (nowMs snapshot) generation)
             AutomaticSplit (of_N 1) "sustained Region size or request threshold")
          (pn_active st) st).

Definition split (snapshot : ClusterSchedulingSnapshot) (view : MetadataView) (scores : gmap N StoreScore)
    (regions : list RegionMetadata) (acc : gmap N N * planning) : gmap N N * planning :=
  foldl (λ acc region, split_region snapshot view scores region acc) acc regions.

(** ** Balancing *)

Definition movable (snapshot : ClusterSchedulingSnapshot) (view : MetadataView) (st : planning)
    (source target : N) (region : RegionMetadata) : bool :=
  let rid := u64_of_int (regionId region) in
  negb (bool_decide (rid ∈ pn_regions st) || occupied view region ||
        negb (HostsRegion region source) || HostsRegion region target || cooling snapshot rid).

(** The [while] loop; each round that does not leave it takes a slot. *)
Fixpoint balance (slots : nat) (snapshot : ClusterSchedulingSnapshot) (view : MetadataView)
    (scores : gmap N StoreScore) (regions : list RegionMetadata) (st : planning) : planning :=
  match slots with
  | O => st
  | S slots =>
      let '((source, sourceScore), (target, targetScore)) := extremes view scores (pn_active st) in
      if (source =? 0) || (target =? 0) || (source =? target) ||
         SFleb (sub sourceScore targetScore) (of_double (cf_imbalancethreshold (view_balancerConfig view)))
      then st
      else
        match find (movable snapshot view st source target) regions with
        | None => refuse 0 "no Region can reduce the current Store skew" st
        | Some chosen =>
            balance slots snapshot view scores regions
              (propose
                 (MkPlan (move_operator view chosen (nowMs snapshot) "balance" source target)
                    Balance (sub sourceScore targetScore) "move a peer from the highest-score Store")
                 (count_store target (count_store source (pn_active st))) st)
        end
  end.

(** ** The plan *)

Definition reason_rank (r : SchedulingPlanReason) : N :=
  match r with SafetyRepair => 0 | AutomaticSplit => 1 | Balance => 2 end.

(** [operator<] of the tuples that the sort compares. *)
Definition plan_before (l r : SchedulingPlan) : bool :=
  let '(a1, b1) := (reason_rank (reason l), reason_rank (reason r)) in
  let '(a2, b2) := (SFopp (scoreBenefit l), SFopp (scoreBenefit r)) in
  let '(a3, b3) := (so_regionid (operation l), so_regionid (operation r)) in
  let '(a4, b4) := (so_sourcestoreid (operation l), so_sourcestoreid (operation r)) in
  let '(a5, b5) := (so_targetstoreid (operation l), so_targetstoreid (operation r)) in
  (a1 <? b1) || (negb (b1 <? a1) && (SFltb a2 b2 || (negb (SFltb b2 a2) && ((a3 <? b3) ||
  (negb (b3 <? a3) && ((a4 <? b4) || (negb (b4 <? a4) && (a5 <? b5)))))))).

Definition in_order (l r : SchedulingPlan) : Prop := plan_before r l = false.

#[global] Instance in_order_dec l r : Decision (in_order l r) := bool_eq_dec _ _.

Definition Plan (snapshot : ClusterSchedulingSnapshot) : AutoBalancerPlanResult :=
  let nothing := MkPlanResult [] [] (snap_splitEvidenceWindows snapshot) in
  match metadata snapshot with
  | None => nothing
  | Some view =>
      match catalog view with
      | None => nothing
      | Some regions =>
          if negb (cf_enabled (view_balancerConfig view)) || cf_paused (view_balancerConfig view) then nothing
          else
            let scores := store_scores view (nowMs snapshot) in
            let st0 := MkPlanning [] [] (activeByStore view) (budget_left view) ∅ in
            let st1 := repair view scores (nowMs snapshot) regions st0 in
            let '(windows, st2) :=
              split snapshot view scores regions (snap_splitEvidenceWindows snapshot, st1) in
            let st3 := balance (N.to_nat (pn_budget st2)) snapshot view scores regions st2 in
            MkPlanResult (merge_sort in_order (pn_plans st3)) (pn_rejections st3) windows
      end
  end.

End with_order.
End AutoBalancerPlanner.
