(* ===== verification/PlannerSafety.v ===== *)
(** * What the Auto-Balancer planner proposes

    Every operator that the planner proposes from the published view fits the
    state it was computed from: the metadata state machine admits it, unless it
    replaces a replica on a Store that already works at its budget.  The plans
    stay within the cluster budget and touch a Region once, and the order in which
    the hash table of scores is visited does not influence them. *)

From Stdlib Require Import ZArith QArith SpecFloat.
From S2P Require Import Prelude RegionMeta Codec MetaTypes MetaState MetaDemo MetaStep MetaInv MetaKeep MetaSafety Planner.
Import MetadataStateMachine Binary64 AutoBalancerPlanner.
#[local] Open Scope N_scope.

Definition count_at (active : gmap N N) (store : N) : N := default 0 (active !! store).

(** ** Choosing a Store *)

Lemma pick_result better skip l best :
  foldl (pick better skip) best l = best ∨
  ∃ item, item ∈ l ∧ skip item.2 = false ∧
    foldl (pick better skip) best l = (sc_storeId item.2, sc_score item.2).
Proof.
  revert best. induction l as [|item l IH]; intros best; [by left|]. cbn [foldl].
  assert (pick better skip best item = best ∨
          skip item.2 = false ∧ pick better skip best item = (sc_storeId item.2, sc_score item.2)) as Hp.
  { unfold pick. destruct (skip item.2); [by left|]. destruct (better item.2 best); auto. }
  destruct (IH (pick better skip best item)) as [E|(i & Hi & Hs & E)].
  - rewrite E. destruct Hp as [->|[Hs ->]]; [by left|]. right. exists item. split_and!; [left|done..].
  - right. exists i. split_and!; [by right|done..].
Qed.

Lemma pick_nonzero better skip l s0 :
  (foldl (pick better skip) (0, s0) l).1 ≠ 0 →
  ∃ item, item ∈ l ∧ skip item.2 = false ∧ (foldl (pick better skip) (0, s0) l).1 = sc_storeId item.2.
Proof.
  destruct (pick_result better skip l (0, s0)) as [->|(i & Hi & Hs & ->)]; [done|]. intros _. by exists i.
Qed.

(** Both ends of the pass over the scores. *)
Lemma fold_pair {A B C} (f : A → C → A) (g : B → C → B) l (ab : A * B) :
  foldl (λ ends c, (f ends.1 c, g ends.2 c)) ab l = (foldl f ab.1 l, foldl g ab.2 l).
Proof. revert ab. induction l as [|c l IH]; intros [a b]; [done|]. cbn [foldl]. by rewrite IH. Qed.

(** ** Scores *)

Lemma store_scores_lookup view now sid sc :
  store_scores view now !! sid = Some sc →
  sc_storeId sc = sid ∧
  (sc_fresh sc = true → ∃ hb, view_storeHeartbeats view !! sid = Some hb ∧ now < hb_expiresatms hb) ∧
  (sc_eligible sc = true → ∃ hb, view_storeHeartbeats view !! sid = Some hb ∧ now < hb_expiresatms hb ∧
     cf_minimumfreebytes (view_balancerConfig view) ≤ hb_availablebytes hb).
Proof.
  unfold store_scores, reported. rewrite map_lookup_imap, lookup_union, !map_lookup_imap. intros H.
  destruct (view_storeHeartbeats view !! sid) as [hb|] eqn:Hhb.
  - assert (sc = weigh view sid (heartbeat_score (view_balancerConfig view) now sid hb)) as ->.
    { cbn in H. rewrite union_Some_l in H. by injection H. }
    unfold weigh. rewrite Hhb. cbn. split_and!; [done| |].
    + intros Hf%N.ltb_lt. by exists hb.
    + intros [[Hf%N.ltb_lt Hm%N.leb_le]%andb_prop _]%andb_prop. by exists hb.
  - destruct (view_stores view !! sid); [|done]. cbn in H. injection H as <-.
    unfold weigh. rewrite Hhb. done.
Qed.

Section with_order.
Context (traverse : gmap N StoreScore → list (N * StoreScore)).
Context (Htraverse : ∀ m, traverse m ≡ₚ map_to_list m).

Lemma traverse_elem view now item :
  item ∈ traverse (store_scores view now) → store_scores view now !! item.1 = Some item.2.
Proof using Htraverse. rewrite Htraverse. destruct item. by rewrite elem_of_map_to_list. Qed.

(** ** Plans that fit the view *)

Record move_fits (view : MetadataView) (now : N) (region : RegionMetadata) (source target : N) : Prop :=
  MkMoveFits {
  mf_source : source ≠ 0;
  mf_target : target ≠ 0;
  mf_hosted : HostsRegion region source = true;
  mf_absent : HostsRegion region target = false;
  mf_room : ∃ hb, view_storeHeartbeats view !! target = Some hb ∧ now < hb_expiresatms hb ∧
    cf_minimumfreebytes (view_balancerConfig view) ≤ hb_availablebytes hb
}.

Inductive plan_fits (view : MetadataView) (regions : list RegionMetadata) (now : N) (active : gmap N N)
    : SchedulingPlan → Prop :=
| FitsRepair region source target benefit why :
    region ∈ regions → occupied view region = false → move_fits view now region source target →
    over_budget view active target = false →
    plan_fits view regions now active
      (MkPlan (move_operator view region now "repair" source target) SafetyRepair benefit why)
| FitsSplit region generation benefit why :
    region ∈ regions → occupied view region = false → generation ≠ 0 →
    plan_fits view regions now active
      (MkPlan (split_operator view region now generation) AutomaticSplit benefit why)
| FitsBalance region source target benefit why :
    region ∈ regions → occupied view region = false → move_fits view now region source target →
    over_budget view active source = false → over_budget view active target = false →
    plan_fits view regions now active
      (MkPlan (move_operator view region now "balance" source target) Balance benefit why).

(** The state of the planner after some of its rounds. *)
Record sound (view : MetadataView) (regions : list RegionMetadata) (now : N) (active : gmap N N) (budget : N)
    (st : planning) : Prop := MkSound {
  sd_plans : Forall (plan_fits view regions now active) (pn_plans st);
  sd_active : ∀ x, count_at active x ≤ count_at (pn_active st) x;
  sd_regions : pn_regions st = list_to_set ((λ p, so_regionid (operation p)) <$> pn_plans st);
  sd_nodup : NoDup ((λ p, so_regionid (operation p)) <$> pn_plans st);
  sd_budget : N.of_nat (length (pn_plans st)) + pn_budget st = budget
}.

Lemma refuse_sound view regions now active budget st rid why :
  sound view regions now active budget st → sound view regions now active budget (refuse rid why st).
Proof. by intros []. Qed.

Lemma propose_sound view regions now active budget st p active' :
  sound view regions now active budget st → plan_fits view regions now active p →
  so_regionid (operation p) ∉ pn_regions st → pn_budget st ≠ 0 →
  (∀ x, count_at active x ≤ count_at active' x) →
  sound view regions now active budget (propose p active' st).
Proof.
  intros [H1 H2 H3 H4 H5] Hp Hr Hb Ha. split; simpl.
  - apply Forall_app. by split; [|constructor].
  - done.
  - rewrite fmap_app, list_to_set_app_L, H3. simpl. set_solver.
  - rewrite fmap_app. apply NoDup_app. rewrite H3 in Hr. split_and!; [done| |by apply NoDup_singleton].
    intros x Hx Hx'%list_elem_of_singleton. subst x. apply Hr. by apply elem_of_list_to_set.
  - rewrite length_app. simpl. lia.
Qed.

(** ** Counting operators per Store *)

Lemma count_store_at store active x :
  count_at active store + 1 < u32_size →
  count_at (count_store store active) x = count_at active x + (if decide (x = store) then 1 else 0).
Proof.
  intros Hb. unfold count_at, count_store in *. destruct (decide (x = store)) as [->|Hne].
  - rewrite lookup_insert_eq. simpl. unfold inc32, wrap32. by rewrite N.mod_small.
  - rewrite lookup_insert_ne by done. lia.
Qed.

Lemma count_move_at source target active x :
  source ≠ target → count_at active source + 1 < u32_size → count_at active target + 1 < u32_size →
  count_at active x ≤ count_at (count_store target (count_store source active)) x ≤ count_at active x + 1.
Proof.
  intros Hne Hs Ht. rewrite count_store_at.
  - rewrite count_store_at by done. repeat case_decide; subst; try done; lia.
  - rewrite count_store_at by done. case_decide; [by subst|lia].
Qed.

Lemma over_budget_mono view active active' store :
  count_at active store ≤ count_at active' store →
  over_budget view active' store = false → over_budget view active store = false.
Proof. unfold over_budget. fold (count_at active store) (count_at active' store). rewrite !N.leb_gt. lia. Qed.

Lemma over_budget_count view active store :
  cf_maximumactiveperstore (view_balancerConfig view) < u32_size →
  over_budget view active store = false → count_at active store + 1 < u32_size.
Proof. unfold over_budget. fold (count_at active store). rewrite N.leb_gt. lia. Qed.

(** ** The three phases *)

Lemma HostsRegion_elem region store :
  HostsRegion region store = true ↔ ∃ p, p ∈ peers region ∧ storeId p = store.
Proof.
  unfold HostsRegion. rewrite existsb_exists.
  split; intros (p & Hp & E); exists p; rewrite N.eqb_eq in *; by rewrite list_elem_of_In in *.
Qed.

Lemma tally_stale scores ps acc :
  (foldl (tally scores) acc ps).2 = acc.2 ∨
  ∃ p, p ∈ ps ∧ storeId p = (foldl (tally scores) acc ps).2.
Proof.
  revert acc. induction ps as [|p ps IH]; intros acc; [by left|]. cbn [foldl].
  assert ((tally scores acc p).2 = acc.2 ∨ (tally scores acc p).2 = storeId p) as Hacc.
  { unfold tally. destruct acc as [live stale]. destruct (isLearner p); [by left|].
    destruct (match scores !! storeId p with Some sc => sc_fresh sc | None => false end); [by left|].
    destruct ((stale =? 0) || (storeId p <? stale)); auto. }
  destruct (IH (tally scores acc p)) as [->|(q & Hq & E)]; [|right; exists q; split; [by right|done]].
  destruct Hacc as [->| ->]; [by left|]. right. exists p. split; [left|done].
Qed.

Lemma voters_stale scores region : (voters scores region).2 ≠ 0 → HostsRegion region (voters scores region).2 = true.
Proof.
  unfold voters. intros H. apply HostsRegion_elem.
  destruct (tally_stale scores (peers region) (0, 0)) as [E|Hp]; [by rewrite E in H|done].
Qed.

Lemma targetFor_fits view now active region :
  let target := targetFor traverse view (store_scores view now) active region in
  target ≠ 0 →
  HostsRegion region target = false ∧ over_budget view active target = false ∧
  ∃ hb, view_storeHeartbeats view !! target = Some hb ∧ now < hb_expiresatms hb ∧
    cf_minimumfreebytes (view_balancerConfig view) ≤ hb_availablebytes hb.
Proof using Htraverse.
  intros target Hne. unfold target, targetFor in *.
  destruct (pick_nonzero _ _ _ _ Hne) as (item & Hi & Hs & ->).
  apply traverse_elem, store_scores_lookup in Hi as (Hid & _ & Hel).
  apply orb_false_iff in Hs as [[He Hh]%orb_false_iff Ho]. split_and!; [done|done|].
  rewrite Hid. apply Hel. by destruct (sc_eligible item.2).
Qed.

Definition rid (region : RegionMetadata) : N := u64_of_int (regionId region).

Lemma repair_region_sound view regions now active budget region st :
  let st' := repair_region traverse view (store_scores view now) now region st in
  cf_maximumactiveperstore (view_balancerConfig view) < u32_size →
  region ∈ regions → rid region ∉ pn_regions st → pn_budget st ≠ 0 →
  (∀ x, count_at (pn_active st) x + 1 < u32_size) →
  sound view regions now active budget st →
  sound view regions now active budget st' ∧
  (∀ x, count_at (pn_active st') x ≤ count_at (pn_active st) x + 1) ∧
  pn_regions st' ⊆ {[rid region]} ∪ pn_regions st.
Proof using Htraverse.
  intros st' Hmax Hin Hnew Hb Hc Hst. subst st'. unfold repair_region.
  destruct (occupied view region) eqn:Hocc.
  { split_and!; [by apply refuse_sound|simpl; intros; lia|simpl; set_solver]. }
  pose proof (voters_stale (store_scores view now) region) as Hv.
  destruct (voters _ _) as [live stale]. simpl in Hv.
  destruct (_ || _) eqn:Hl; [split_and!; [done|intros; lia|set_solver]|].
  apply orb_false_iff in Hl as [_ Hstale%N.eqb_neq].
  pose proof (targetFor_fits view now (pn_active st) region) as Ht. cbv zeta in Ht.
  destruct (targetFor _ _ _ _ _ =? 0) eqn:Hz.
  { split_and!; [by apply refuse_sound|simpl; intros; lia|simpl; set_solver]. }
  apply N.eqb_neq in Hz. destruct (Ht Hz) as (Ht1 & Ht2 & Ht3). specialize (Hv Hstale).
  assert (stale ≠ targetFor traverse view (store_scores view now) (pn_active st) region) as Hne by congruence.
  split_and!.
  - apply propose_sound; [done| |done|done|].
    + apply FitsRepair; [done|done|by split|]. eapply over_budget_mono; [apply Hst|done].
    + intros x. etrans; [apply (sd_active _ _ _ _ _ _ Hst)|]. by apply count_move_at.
  - intros x. simpl. by apply count_move_at.
  - done.
Qed.

Lemma repair_sound view regions now active budget rest st :
  cf_maximumactiveperstore (view_balancerConfig view) < u32_size →
  (∀ r, r ∈ rest → r ∈ regions) → NoDup (rid <$> rest) → (∀ r, r ∈ rest → rid r ∉ pn_regions st) →
  (∀ x, count_at (pn_active st) x + N.of_nat (length rest) < u32_size) →
  sound view regions now active budget st →
  sound view regions now active budget (repair traverse view (store_scores view now) now rest st).
Proof using Htraverse.
  intros Hmax. revert st. induction rest as [|region rest IH]; intros st Hin Hnd Hnew Hc Hst; [done|].
  cbn [repair]. destruct (pn_budget st =? 0) eqn:Hb; [done|]. apply N.eqb_neq in Hb.
  apply NoDup_cons in Hnd as [Hr Hnd].
  destruct (repair_region_sound view regions now active budget region st) as (H1 & H2 & H3);
    [done|apply Hin; left|apply Hnew; left|done| |done|].
  { intros x. specialize (Hc x). cbn [length] in Hc. lia. }
  apply IH; [intros r ?; apply Hin; by right|done| | |done].
  - intros r Hr' Hx%H3. apply elem_of_union in Hx as [E%elem_of_singleton|Hx].
    + apply Hr. rewrite <- E. by apply list_elem_of_fmap_2.
    + revert Hx. apply Hnew. by right.
  - intros x. specialize (Hc x). specialize (H2 x). cbn [length] in Hc. lia.
Qed.

Lemma split_region_sound snapshot view regions active budget region acc :
  region ∈ regions →
  sound view regions (nowMs snapshot) active budget acc.2 →
  sound view regions (nowMs snapshot) active budget
    (split_region snapshot view (store_scores view (nowMs snapshot)) region acc).2.
Proof.
  destruct acc as [windows st]. intros Hin Hst. unfold split_region. simpl in *.
  set (best := best_observation _ _ _ _ _). destruct (_ || _) eqn:Hgo; [done|].
  destruct (occupied view region) eqn:Hocc; [by apply refuse_sound|].
  destruct (cooling _ _); [by apply refuse_sound|].
  apply orb_false_iff in Hgo as [[[Hl _]%orb_false_iff Hb%N.eqb_neq]%orb_false_iff Hnew%bool_decide_eq_false].
  apply propose_sound; [done| |done|done|apply Hst].
  apply FitsSplit; [done|done|]. destruct best as [o|]; [|done]. simpl in Hl.
  apply negb_false_iff, andb_prop in Hl as [Hg%negb_true_iff%N.eqb_neq _]. done.
Qed.

Lemma split_sound snapshot view regions active budget rest acc :
  (∀ r, r ∈ rest → r ∈ regions) →
  sound view regions (nowMs snapshot) active budget acc.2 →
  sound view regions (nowMs snapshot) active budget
    (split snapshot view (store_scores view (nowMs snapshot)) rest acc).2.
Proof.
  revert acc. unfold split. induction rest as [|region rest IH]; intros acc Hin Hst; [done|]. cbn [foldl].
  apply IH; [intros r ?; apply Hin; by right|]. apply split_region_sound; [apply Hin; left|done].
Qed.

Lemma extremes_fit view now active :
  let '((source, _), (target, _)) := extremes traverse view (store_scores view now) active in
  (source ≠ 0 → over_budget view active source = false) ∧
  (target ≠ 0 → over_budget view active target = false ∧
    ∃ hb, view_storeHeartbeats view !! target = Some hb ∧ now < hb_expiresatms hb ∧
      cf_minimumfreebytes (view_balancerConfig view) ≤ hb_availablebytes hb).
Proof using Htraverse.
  unfold extremes. rewrite fold_pair. cbn [fst snd].
  set (idle := λ store, _ || _).
  pose proof (pick_nonzero above idle (traverse (store_scores view now)) (SFopp (of_N 1))) as Hs.
  pose proof (pick_nonzero below (λ store, idle store || negb (sc_eligible store))
    (traverse (store_scores view now)) infinity) as Ht.
  destruct (foldl (pick above idle) _ _) as [source ss]. destruct (foldl _ _ _) as [target ts].
  cbn [fst] in *. split.
  - intros (item & _ & Hi & ->)%Hs. unfold idle in Hi. by apply orb_false_iff in Hi as [_ ->].
  - intros (item & Hin & [Hi He]%orb_false_iff & ->)%Ht. unfold idle in Hi.
    apply orb_false_iff in Hi as [_ ->]. split; [done|].
    apply traverse_elem, store_scores_lookup in Hin as (-> & _ & Hel).
    apply Hel. by destruct (sc_eligible item.2).
Qed.

Lemma balance_sound slots snapshot view regions active budget st :
  cf_maximumactiveperstore (view_balancerConfig view) < u32_size →
  N.of_nat slots ≤ pn_budget st →
  sound view regions (nowMs snapshot) active budget st →
  sound view regions (nowMs snapshot) active budget
    (balance traverse slots snapshot view (store_scores view (nowMs snapshot)) regions st).
Proof using Htraverse.
  intros Hmax. revert st. induction slots as [|slots IH]; intros st Hb Hst; [done|]. cbn [balance].
  pose proof (extremes_fit view (nowMs snapshot) (pn_active st)) as He.
  destruct (extremes _ _ _ _) as [[source ss] [target ts]]. destruct He as [He1 He2].
  destruct (_ || _) eqn:Hgo; [done|].
  apply orb_false_iff in Hgo as [[[Hs%N.eqb_neq Ht%N.eqb_neq]%orb_false_iff Hne%N.eqb_neq]%orb_false_iff _].
  destruct (find _ regions) as [chosen|] eqn:Hf; [|by apply refuse_sound].
  apply find_some in Hf as [Hin%list_elem_of_In Hm%negb_true_iff].
  apply orb_false_iff in Hm as [[[[Hnew%bool_decide_eq_false Hocc]%orb_false_iff Hh1]%orb_false_iff Hh2]%orb_false_iff _].
  specialize (He1 Hs). destruct (He2 Ht) as [Ho Hroom].
  apply IH; [simpl; lia|]. apply propose_sound; [done| |done|lia|].
  - apply FitsBalance; [done|done|split; try done; by destruct (HostsRegion chosen source)| |];
      (eapply over_budget_mono; [apply Hst|done]).
  - intros x. etrans; [apply (sd_active _ _ _ _ _ _ Hst)|].
    apply count_move_at; [done|by eapply over_budget_count..].
Qed.

(** ** Operators in flight *)

(** How often the operators name the Store. *)
Definition uses (store : N) (l : list SchedulingOperator) : N :=
  N.of_nat (length (filter (λ o, so_sourcestoreid o = store) l) +
            length (filter (λ o, so_targetstoreid o = store) l)).

Lemma uses_cons store o l :
  uses store (o :: l) = uses store l + (if decide (so_sourcestoreid o = store) then 1 else 0) +
    (if decide (so_targetstoreid o = store) then 1 else 0).
Proof. unfold uses. rewrite !filter_cons. repeat case_decide; cbn [length]; lia. Qed.

Lemma uses_le store l : uses store l ≤ 2 * N.of_nat (length l).
Proof. induction l as [|o l IH]; [done|]. rewrite uses_cons. cbn [length]. repeat case_decide; lia. Qed.

Lemma count_operation_at o active x :
  (∀ y, count_at active y + 2 < u32_size) → x ≠ 0 →
  count_at (count_operation o active) x =
    count_at active x + (if decide (so_sourcestoreid o = x) then 1 else 0) +
    (if decide (so_targetstoreid o = x) then 1 else 0).
Proof.
  intros Hb Hx. unfold count_operation.
  set (a1 := if so_sourcestoreid o =? 0 then _ else _).
  assert (∀ y, y ≠ 0 → count_at a1 y = count_at active y + (if decide (so_sourcestoreid o = y) then 1 else 0)) as H1.
  { intros y Hy. subst a1. destruct (N.eqb_spec (so_sourcestoreid o) 0) as [E|E].
    - rewrite E. case_decide; [by subst|lia].
    - rewrite count_store_at by (specialize (Hb (so_sourcestoreid o)); lia).
      repeat case_decide; try lia; congruence. }
  destruct (N.eqb_spec (so_targetstoreid o) 0) as [E|E].
  - rewrite H1 by done. rewrite E. repeat case_decide; subst; try done; lia.
  - rewrite count_store_at.
    + rewrite H1 by done. repeat case_decide; try lia; congruence.
    + rewrite H1 by done. specialize (Hb (so_targetstoreid o)). case_decide; lia.
Qed.

Lemma count_operation_zero o active : count_at (count_operation o active) 0 = count_at active 0.
Proof.
  unfold count_operation, count_at, count_store.
  destruct (N.eqb_spec (so_sourcestoreid o) 0), (N.eqb_spec (so_targetstoreid o) 0);
    by rewrite ?lookup_insert_ne.
Qed.

Lemma count_operations_at l active x :
  (∀ y, count_at active y + 2 * N.of_nat (length l) < u32_size) →
  count_at (foldl (λ a o, count_operation o a) active l) x =
    count_at active x + (if decide (x = 0) then 0 else uses x l).
Proof.
  revert active. induction l as [|o l IH]; intros active Hb; [simpl; case_decide; unfold uses; simpl; lia|].
  cbn [foldl]. cbn [length] in Hb.
  assert (∀ y, count_at active y + 2 < u32_size) as Hb2 by (intros y; specialize (Hb y); lia).
  rewrite IH.
  - case_decide as Hx; [by subst; rewrite count_operation_zero|].
    rewrite count_operation_at by done. rewrite uses_cons. lia.
  - intros y. specialize (Hb y). destruct (decide (y = 0)) as [->|Hy].
    + rewrite count_operation_zero. lia.
    + rewrite count_operation_at by done. repeat case_decide; lia.
Qed.

(** The counters of the planner when it starts. *)
Lemma activeByStore_at view x :
  2 * N.of_nat (length (in_flight view)) < u32_size → x ≠ 0 →
  count_at (activeByStore view) x = uses x (in_flight view).
Proof.
  intros Hb Hx. unfold activeByStore. rewrite count_operations_at.
  - by rewrite decide_False.
  - intros y. unfold count_at at 1. rewrite lookup_empty. simpl. lia.
Qed.

Lemma activeByStore_le view x :
  2 * N.of_nat (length (in_flight view)) < u32_size →
  count_at (activeByStore view) x ≤ 2 * N.of_nat (length (in_flight view)).
Proof.
  intros Hb. unfold activeByStore. rewrite count_operations_at.
  - unfold count_at. rewrite lookup_empty. simpl. case_decide; [lia|]. pose proof (uses_le x (in_flight view)). lia.
  - intros y. unfold count_at at 1. rewrite lookup_empty. simpl. lia.
Qed.

(** ** The plan *)

(** What the counters of the planner, 32 bits wide, have to hold. *)
Definition counters_fit (view : MetadataView) (regions : list RegionMetadata) : Prop :=
  2 * N.of_nat (length (in_flight view)) + N.of_nat (length regions) < u32_size ∧
  cf_maximumactiveperstore (view_balancerConfig view) < u32_size.

Lemma Plan_sound snapshot view regions :
  metadata snapshot = Some view → catalog view = Some regions →
  counters_fit view regions → NoDup (rid <$> regions) →
  ∃ st, sound view regions (nowMs snapshot) (activeByStore view) (budget_left view) st ∧
        plans (Plan traverse snapshot) ≡ₚ pn_plans st.
Proof using Htraverse.
  intros Hm Hcat [Hc Hmax] Hnd. unfold Plan. rewrite Hm, Hcat.
  set (st0 := MkPlanning [] [] (activeByStore view) (budget_left view) ∅).
  assert (sound view regions (nowMs snapshot) (activeByStore view) (budget_left view) st0) as H0.
  { split; simpl; [constructor|done|done|constructor|lia]. }
  destruct (negb _ || _); [by exists st0|]. set (st1 := repair _ _ _ _ _ _).
  assert (sound view regions (nowMs snapshot) (activeByStore view) (budget_left view) st1) as H1.
  { apply repair_sound; try done. intros x. simpl.
    assert (2 * N.of_nat (length (in_flight view)) < u32_size) as Hb by lia.
    pose proof (activeByStore_le view x Hb). lia. }
  pose proof (split_sound snapshot view regions (activeByStore view) (budget_left view) regions
    (snap_splitEvidenceWindows snapshot, st1) (λ r H, H) H1) as H2.
  destruct (split _ _ _ _ _) as [windows st2]. simpl in H2. cbn [plans].
  eexists. split; [|apply merge_sort_Permutation].
  apply balance_sound; [done| |done]. by rewrite N2Nat.id.
Qed.

End with_order.

(** ** Admission by the state machine *)

Lemma in_flight_active s cat :
  in_flight (view_of s cat) =
    filter (λ o, IsTerminal (so_phase o) = false) (map_to_list (schedulingOperators_ s)).*2.
Proof.
  unfold in_flight. simpl. induction ((map_to_list (schedulingOperators_ s)).*2) as [|o l IH]; [done|].
  rewrite filter_cons. cbn [List.filter]. rewrite IH.
  destruct (IsTerminal (so_phase o)); by case_decide.
Qed.

Lemma active_on_store_uses s cat store : active_on_store s store = uses store (in_flight (view_of s cat)).
Proof. unfold active_on_store, uses. by rewrite in_flight_active. Qed.

(** The index of active operators has one entry per operator in flight. *)
Lemma active_size s cat :
  minv s → N.of_nat (size (activeOperatorByRegion_ s)) ≤ N.of_nat (length (in_flight (view_of s cat))).
Proof.
  intros [Hd _]. destruct (du_operators _ Hd) as [_ Hact].
  rewrite in_flight_active. set (l := filter _ _).
  assert ((map_to_list (activeOperatorByRegion_ s)).*1 ⊆ (so_regionid <$> l)) as Hsub.
  { intros x ((r & id) & -> & Hin)%list_elem_of_fmap. apply elem_of_map_to_list, Hact in Hin as (o & Ho & <- & Ht).
    cbn [fst]. apply (list_elem_of_fmap_2 so_regionid), list_elem_of_filter. split; [done|].
    apply (list_elem_of_fmap_2 snd _ (id, o)). by apply elem_of_map_to_list. }
  pose proof (NoDup_fst_map_to_list (activeOperatorByRegion_ s)) as Hnd.
  pose proof (submseteq_length _ _ (NoDup_submseteq _ _ Hnd Hsub)) as Hlen.
  rewrite !length_fmap in Hlen. rewrite length_map_to_list in Hlen. lia.
Qed.

Lemma catalog_ids s : minv s → revision_ s ≠ 0 → NoDup (rid <$> regions_ s).
Proof.
  intros [Hd _] Hrev. destruct (du_valid _ Hd Hrev) as [Hv _].
  pose proof (vc_regionIds _ Hv) as Hnd. pose proof (du_wire _ Hd) as Hw.
  clear -Hnd Hw. induction (regions_ s) as [|r rs IH]; [constructor|]. csimpl in *.
  apply NoDup_cons in Hnd as [Hr Hnd]. apply Forall_cons in Hw as [Hwr Hw]. constructor; [|by apply IH].
  intros (r' & E & Hr')%list_elem_of_fmap. apply Hr. rewrite Forall_forall in Hw. specialize (Hw _ Hr').
  assert (regionId r = regionId r') as ->; [|by apply list_elem_of_fmap_2].
  destruct r, r'. destruct Hwr as [Hwr _], Hw as [Hw _]. unfold rid, u64_of_int in E. simpl in *.
  rewrite !Z.mod_small in E by lia. lia.
Qed.

Lemma find_region_unique rs r : NoDup (rid <$> rs) → r ∈ rs → find_region (rid r) rs = Some r.
Proof.
  unfold find_region. induction rs as [|r0 rs IH]; [by intros _ ?%not_elem_of_nil|]. csimpl.
  intros [H0 Hnd]%NoDup_cons [->|Hr]%elem_of_cons.
  - by rewrite N.eqb_refl.
  - destruct (N.eqb_spec (u64_of_int (regionId r0)) (rid r)) as [E|_]; [|by apply IH].
    destruct H0. fold (rid r0) in E. rewrite E. by apply list_elem_of_fmap_2.
Qed.

(** The operator and the index entry that an admission leaves behind. *)
Definition admitted (o : SchedulingOperator) (s : t) (res : t * MetadataCommandResult) : Prop :=
  res_error res.2 = METADATA_OK ∧
  schedulingOperators_ res.1 = <[so_operatorid o := o]> (schedulingOperators_ s) ∧
  activeOperatorByRegion_ res.1 = <[so_regionid o := so_operatorid o]> (activeOperatorByRegion_ s).

Lemma admit_operator_ok s o :
  minv s → revision_ s ≠ 0 →
  (so_sourcestoreid o ≠ 0 → active_on_store s (so_sourcestoreid o) < cf_maximumactiveperstore (balancerConfig_ s)) →
  (so_targetstoreid o ≠ 0 → active_on_store s (so_targetstoreid o) < cf_maximumactiveperstore (balancerConfig_ s)) →
  ∃ s' r, admit_operator o s = (s', Ok r) ∧ admitted o s (s', r).
Proof.
  intros Hi Hrev Hs Ht. destruct (du_valid _ (mi_durable _ Hi) Hrev) as [Hv _].
  unfold admit_operator. run.
  rewrite (proj2 (orb_false_iff _ _)).
  - unfold PublishLocked. cbn [regions_ count_admission set_operators set_metrics].
    rewrite bool_decide_eq_false_2.
    + rewrite (valid_make _ Hv). eexists _, _. split; [done|]. by split_and!.
    + intros E. pose proof (vc_covers _ Hv) as Hc. by rewrite E in Hc.
  - split; apply andb_false_iff.
    + destruct (N.eqb_spec (so_sourcestoreid o) 0) as [E|E]; [by left|right]. by apply N.leb_gt, Hs.
    + destruct (N.eqb_spec (so_targetstoreid o) 0) as [E|E]; [by left|right]. by apply N.leb_gt, Ht.
Qed.

(** The guards that a plan of the current view meets. *)
Definition type_ok (s : t) (region : RegionMetadata) (o : SchedulingOperator) : Prop :=
  match so_type o with
  | SCHEDULING_OPERATOR_MOVE_PEER =>
      so_sourcestoreid o ≠ 0 ∧ so_targetstoreid o ≠ 0 ∧ so_sourcestoreid o ≠ so_targetstoreid o ∧
      move_is_safe s region o = true
  | SCHEDULING_OPERATOR_SPLIT_REGION => so_splitcandidategeneration o ≠ 0
  | SCHEDULING_OPERATOR_TYPE_OTHER _ => False
  end.

Lemma create_admits cmd o s region :
  revision_ s ≠ 0 → expectedrevision cmd = revision_ s → operator_fits s o = true →
  schedulingOperators_ s !! so_operatorid o = None →
  cf_enabled (balancerConfig_ s) = true → cf_paused (balancerConfig_ s) = false →
  activeOperatorByRegion_ s !! so_regionid o = None →
  find_region (so_regionid o) (regions_ s) = Some region → so_regionepoch o = Some (epoch region) →
  N.of_nat (size (activeOperatorByRegion_ s)) < cf_maximumactiveoperators (balancerConfig_ s) →
  type_ok s region o →
  CreateSchedulingOperatorLocked cmd o s = admit_operator o s.
Proof.
  intros Hrev Hexp Hfit Hnew Hen Hpa Hact Hfind Hep Hsz Hty. unfold CreateSchedulingOperatorLocked. run.
  rewrite (proj2 (N.eqb_neq _ _) Hrev), Hexp, N.eqb_refl, Hfit, Hnew, Hen, Hpa. cbn [negb orb].
  rewrite bool_decide_eq_false_2 by (rewrite Hact; intros []; done). rewrite Hfind.
  unfold epoch_matches. rewrite bool_decide_eq_true_2 by done. cbn [negb].
  rewrite (proj2 (N.leb_gt _ _) Hsz). unfold type_ok in Hty.
  destruct (so_type o); [| |done].
  - destruct Hty as (H1 & H2 & H3 & H4).
    by rewrite (proj2 (N.eqb_neq _ _) H1), (proj2 (N.eqb_neq _ _) H2), (proj2 (N.eqb_neq _ _) H3), H4.
  - by rewrite (proj2 (N.eqb_neq _ _) Hty).
Qed.

(** What planning reads of the state it runs against. *)
Definition snapshot_of (s : t) (now : N) (windows cooldown : gmap N N) : ClusterSchedulingSnapshot :=
  MkSchedulingSnapshot (Some (View s)) now windows cooldown.

Lemma plan_fields view regions now active p :
  plan_fits view regions now active p →
  ∃ region, region ∈ regions ∧ occupied view region = false ∧
    so_regionid (operation p) = rid region ∧ so_regionepoch (operation p) = Some (epoch region) ∧
    so_sourcerevision (operation p) = view_revision view ∧
    so_phase (operation p) = SCHEDULING_OPERATOR_PENDING ∧ so_createdatms (operation p) = now ∧
    so_updatedatms (operation p) = now ∧ so_operatorid (operation p) ≠ EmptyString ∧
    so_deadlinems (operation p) = now +₆₄ retryWindow (view_balancerConfig view).
Proof. destruct 1; exists region; by split_and!. Qed.

Lemma plan_operator_fits s regions now active p :
  plan_fits (view_of s (Some regions)) regions now active p →
  now ≠ 0 → now + retryWindow (balancerConfig_ s) < u64_size → so_regionid (operation p) ≠ 0 →
  operator_fits s (operation p) = true.
Proof.
  intros (region & _ & _ & _ & _ & Hr & Hp & Hc & Hu & Hid & Hd)%plan_fields Hnow Hw Hne.
  unfold operator_fits. rewrite Hr, Hp, Hc, Hu, Hd. simpl.
  rewrite (proj2 (String.eqb_neq _ _) Hid), (proj2 (N.eqb_neq _ _) Hne), N.eqb_refl.
  rewrite (proj2 (N.eqb_neq _ _) Hnow), N.ltb_irrefl. cbn [negb orb].
  apply negb_true_iff, N.leb_gt. unfold add64, wrap64. rewrite N.mod_small by done.
  unfold retryWindow. lia.
Qed.

Lemma plan_type_ok s regions now active p region :
  plan_fits (view_of s (Some regions)) regions now active p → NoDup (rid <$> regions) →
  region ∈ regions → so_regionid (operation p) = rid region → type_ok s region (operation p).
Proof.
  intros Hf Hnd Hin Hid.
  assert (∀ r, r ∈ regions → rid r = rid region → r = region) as Huniq.
  { intros r Hr E. pose proof (find_region_unique _ _ Hnd Hr) as H1.
    pose proof (find_region_unique _ _ Hnd Hin) as H2. rewrite E in H1. congruence. }
  assert (∀ source target kind, move_fits (view_of s (Some regions)) now region source target →
    type_ok s region (move_operator (view_of s (Some regions)) region now kind source target)) as Hmove.
  { intros source target kind [H1 H2 H3 H4 (hb & Hhb & Hexp & Hroom)]. split_and!; [done|done| |].
    - intros E. simpl in E. congruence.
    - unfold move_is_safe. simpl in *. unfold hosted_on. fold (HostsRegion region source) (HostsRegion region target).
      rewrite H3, H4, Hhb. simpl. by rewrite (proj2 (N.ltb_lt _ _) Hexp), (proj2 (N.leb_le _ _) Hroom). }
  destruct Hf as [r source target benefit why Hr Ho Hm Hb|r gen benefit why Hr Ho Hg
    |r source target benefit why Hr Ho Hm Hb1 Hb2];
    rewrite (Huniq r Hr Hid) in *; [by apply Hmove|done|by apply Hmove].
Qed.

(** The per-Store budget that admission checks is the one the planner counts. *)
Lemma plan_budget_ok s regions now p :
  plan_fits (view_of s (Some regions)) regions now (activeByStore (view_of s (Some regions))) p →
  2 * N.of_nat (length (in_flight (view_of s (Some regions)))) < u32_size →
  (reason p = SafetyRepair →
     active_on_store s (so_sourcestoreid (operation p)) < cf_maximumactiveperstore (balancerConfig_ s)) →
  (so_sourcestoreid (operation p) ≠ 0 →
     active_on_store s (so_sourcestoreid (operation p)) < cf_maximumactiveperstore (balancerConfig_ s)) ∧
  (so_targetstoreid (operation p) ≠ 0 →
     active_on_store s (so_targetstoreid (operation p)) < cf_maximumactiveperstore (balancerConfig_ s)).
Proof.
  intros Hf Hc Hrep.
  assert (∀ store, store ≠ 0 →
    over_budget (view_of s (Some regions)) (activeByStore (view_of s (Some regions))) store = false →
    active_on_store s store < cf_maximumactiveperstore (balancerConfig_ s)) as Hover.
  { intros store Hne Ho. rewrite (active_on_store_uses s (Some regions)), <- activeByStore_at by done.
    by apply N.leb_gt in Ho. }
  destruct Hf as [r source target benefit why Hr Ho Hm Hb|r gen benefit why Hr Ho Hg
    |r source target benefit why Hr Ho Hm Hb1 Hb2]; simpl in *.
  - split; [by intros _; apply Hrep|]. intros Hne. by apply Hover.
  - by split.
  - split; intros Hne; by apply Hover.
Qed.

(** Everything the planner computes from a reachable state. *)
Lemma planned_state traverse s now windows cooldown :
  (∀ m, traverse m ≡ₚ map_to_list m) → minv s → revision_ s ≠ 0 →
  counters_fit (View s) (regions_ s) →
  let ps := plans (Plan traverse (snapshot_of s now windows cooldown)) in
  View s = view_of s (Some (regions_ s)) ∧ NoDup ((λ p, so_regionid (operation p)) <$> ps) ∧
  N.of_nat (length ps) ≤ budget_left (View s) ∧
  ∀ p, p ∈ ps → plan_fits (View s) (regions_ s) now (activeByStore (View s)) p ∧
    cf_enabled (balancerConfig_ s) = true ∧ cf_paused (balancerConfig_ s) = false.
Proof.
  intros Htr Hi Hrev Hfit. pose proof (mi_view _ Hi Hrev) as Hview. unfold View in *.
  assert (catalog (published_ s) = Some (regions_ s)) as Hcat by (by rewrite Hview).
  destruct (Plan_sound traverse Htr (snapshot_of s now windows cooldown) (published_ s) (regions_ s)
    eq_refl Hcat Hfit (catalog_ids s Hi Hrev)) as (st & [H1 H2 H3 H4 H5] & Hperm).
  cbv zeta. split_and!; [done|by rewrite Hperm|rewrite Hperm; lia|]. intros p Hp. split.
  - rewrite Hperm in Hp. rewrite Forall_forall in H1. by apply H1.
  - revert Hp. unfold Plan. cbn [metadata snapshot_of]. unfold View. rewrite Hcat, Hview. simpl.
    destruct (cf_enabled (balancerConfig_ s)), (cf_paused (balancerConfig_ s)); simpl;
      try (by intros ?%not_elem_of_nil); done.
Qed.

(** [C20] The planner and the state machine agree, for operators under a new
    identifier.  Take a bootstrapped state reached by orderly commands, at a time
    other than zero, with load counters and a retry window that do not overflow.
    An operator that the planner proposes from the published view of that state,
    whatever the order in which it visits its hash table, is admitted when it is
    submitted against that state under a new mutation identifier, if its Region
    identifier is not zero, the state has no operator, finished or not, under its
    identifier, and, for a repair, its stale source works below the per-Store
    budget. *)
Theorem plans_admitted traverse s now windows cooldown p mid :
  (∀ m, traverse m ≡ₚ map_to_list m) →
  rtc ostep initial s → revision_ s ≠ 0 → counters_fit (View s) (regions_ s) →
  now ≠ 0 → now + retryWindow (balancerConfig_ s) < u64_size →
  p ∈ plans (Plan traverse (snapshot_of s now windows cooldown)) →
  so_regionid (operation p) ≠ 0 → schedulingOperators_ s !! so_operatorid (operation p) = None →
  (reason p = SafetyRepair →
     active_on_store s (so_sourcestoreid (operation p)) < cf_maximumactiveperstore (balancerConfig_ s)) →
  let cmd := MkCommand mid (revision_ s) (CreateSchedulingOperator (operation p)) in
  executed cmd s → admitted (operation p) s (Apply cmd s).
Proof.
  intros Htr Hi%run_minv Hrev Hfit Hnow Hw Hp Hne Hnew Hrep cmd Hex.
  destruct (planned_state traverse s now windows cooldown Htr Hi Hrev Hfit) as (Hview & _ & Hlen & Hall).
  destruct (Hall p Hp) as (Hf & Hen & Hpa). rewrite Hview in Hf, Hlen.
  pose proof Hf as (region & Hin & Hocc & Hid & Hep & _)%plan_fields.
  destruct Hfit as [Hc _]. rewrite Hview in Hc.
  destruct (plan_budget_ok _ _ _ _ Hf ltac:(lia) Hrep) as [Hs Ht].
  destruct (admit_operator_ok s (operation p) Hi Hrev Hs Ht) as (s' & r & Ha & Hadm).
  assert (handle cmd s = (s', Ok r)) as Hh.
  { unfold handle, cmd. cbn [command]. rewrite (create_admits _ _ _ region); [done|done|done| |done|done|done| | |done| |].
    - by eapply plan_operator_fits.
    - unfold occupied in Hocc. apply orb_false_iff in Hocc as [[Ho%bool_decide_eq_false _]%orb_false_iff _].
      rewrite Hid. by apply eq_None_not_Some.
    - rewrite Hid. apply find_region_unique; [by apply catalog_ids|done].
    - pose proof (active_size s (Some (regions_ s)) Hi) as Hsz. unfold budget_left in Hlen.
      apply list_elem_of_In, in_split in Hp as (l1 & l2 & Hp). rewrite Hp, length_app in Hlen. simpl in Hlen.
      destruct (_ <=? _) eqn:Hle; [lia|]. apply N.leb_gt in Hle. simpl in Hle. lia.
    - eapply plan_type_ok; [done|by apply catalog_ids|done|done]. }
  destruct (Apply cmd s) as [s2 r2] eqn:HA.
  destruct (Apply_executed _ _ _ _ Hex HA) as (s1 & res & Hh' & Hres). rewrite Hh in Hh'.
  injection Hh' as <- <-. destruct Hres as [-> ->]. done.
Qed.

(** [C27] The planner respects the cluster budget: with the operators already in
    flight, its plans stay within the configured number of active operators, and
    no two plans are for the same Region. *)
Theorem plans_within_budget traverse s now windows cooldown :
  (∀ m, traverse m ≡ₚ map_to_list m) →
  rtc ostep initial s → revision_ s ≠ 0 → counters_fit (View s) (regions_ s) →
  let ps := plans (Plan traverse (snapshot_of s now windows cooldown)) in
  (ps ≠ [] → N.of_nat (size (activeOperatorByRegion_ s)) + N.of_nat (length ps) ≤
             cf_maximumactiveoperators (balancerConfig_ s)) ∧
  NoDup ((λ p, so_regionid (operation p)) <$> ps).
Proof.
  intros Htr Hi%run_minv Hrev Hfit.
  destruct (planned_state traverse s now windows cooldown Htr Hi Hrev Hfit) as (Hview & Hnd & Hlen & _).
  split; [|done]. intros Hne. pose proof (active_size s (Some (regions_ s)) Hi) as Hsz.
  rewrite Hview in Hlen. unfold budget_left in Hlen.
  destruct (plans (Plan traverse (snapshot_of s now windows cooldown))) as [|p l]; [done|].
  destruct (_ <=? _) eqn:Hle; [simpl in Hlen; lia|]. apply N.leb_gt in Hle. simpl in Hle, Hlen. simpl. lia.
Qed.

(** ** The order of the hash table *)

(** Comparisons of numbers are lexicographic; zeros are equal and not-a-number is
    not comparable. *)
Definition rank (x : spec_float) : option (Z * Z * Z) :=
  match x with
  | S754_nan => None
  | S754_zero _ => Some (0, 0, 0)%Z
  | S754_infinity true => Some (-2, 0, 0)%Z
  | S754_infinity false => Some (2, 0, 0)%Z
  | S754_finite true m e => Some (-1, - e, Zneg m)%Z
  | S754_finite false m e => Some (1, e, Zpos m)%Z
  end.

Definition rank_lt (a b : Z * Z * Z) : Prop :=
  let '(a1, a2, a3) := a in let '(b1, b2, b3) := b in
  (a1 < b1 ∨ a1 = b1 ∧ (a2 < b2 ∨ a2 = b2 ∧ a3 < b3))%Z.

Lemma SFcompare_rank x y :
  match rank x, rank y with
  | Some a, Some b =>
      match SFcompare x y with
      | Some Lt => rank_lt a b
      | Some Eq => a = b
      | Some Gt => rank_lt b a
      | None => False
      end
  | _, _ => SFcompare x y = None
  end.
Proof.
  destruct x as [?|[]| |[] m e], y as [?|[]| |[] m' e']; cbn -[Z.lt]; try done; try lia.
  all: change (Pos.compare_cont Eq) with Pos.compare.
  all: destruct (Z.compare_spec e e'); cbn -[Z.lt]; try lia.
  all: destruct (Pos.compare_spec m m'); subst; cbn -[Z.lt]; try done; lia.
Qed.

(** The comparisons of [pick] as orders on the Store and its score. *)
Definition better_than (flip : bool) (x b : N * spec_float) : Prop :=
  match rank x.2, rank b.2 with
  | Some i, Some j => (if flip then rank_lt j i else rank_lt i j) ∨ (i = j ∧ x.1 < b.1)
  | _, _ => False
  end.

Lemma below_spec sc b : below sc b = true ↔ better_than false (sc_storeId sc, sc_score sc) b.
Proof.
  unfold below, better_than, SFltb, SFeqb. cbn [fst snd].
  pose proof (SFcompare_rank (sc_score sc) b.2) as H. rewrite orb_true_iff, andb_true_iff, N.ltb_lt.
  destruct (rank (sc_score sc)) as [[[i1 i2] i3]|], (rank b.2) as [[[j1 j2] j3]|];
    [|rewrite H; intuition done..].
  destruct (SFcompare (sc_score sc) b.2) as [[]|]; [..|done].
  - simplify_eq. unfold rank_lt. intuition (try done; lia).
  - intuition.
  - split; [intuition done|]. unfold rank_lt in *. intros [?|[? ?]]; simplify_eq; lia.
Qed.

Lemma above_spec sc b : above sc b = true ↔ better_than true (sc_storeId sc, sc_score sc) b.
Proof.
  unfold above, better_than, SFltb, SFeqb. cbn [fst snd].
  pose proof (SFcompare_rank (sc_score sc) b.2) as H1. pose proof (SFcompare_rank b.2 (sc_score sc)) as H2.
  rewrite orb_true_iff, andb_true_iff, N.ltb_lt.
  destruct (rank (sc_score sc)) as [[[i1 i2] i3]|], (rank b.2) as [[[j1 j2] j3]|];
    [|rewrite H1, H2; intuition done..].
  destruct (SFcompare b.2 (sc_score sc)) as [[]|], (SFcompare (sc_score sc) b.2) as [[]|]; try done;
    unfold rank_lt in *; simplify_eq; split; intros Hx; try (destruct Hx as [?|[? ?]]; simplify_eq; try done; lia);
    intuition (try done; lia).
Qed.

Lemma better_trans flip x y z : better_than flip x y → better_than flip y z → better_than flip x z.
Proof.
  unfold better_than. destruct (rank x.2) as [[[? ?] ?]|], (rank y.2) as [[[? ?] ?]|], (rank z.2) as [[[? ?] ?]|]; try done.
  unfold rank_lt. destruct flip; intros [?|[[=] ?]] [?|[[=] ?]]; subst; first [left; lia|right; split; [done|lia]].
Qed.

Lemma better_irrefl flip x : ¬ better_than flip x x.
Proof.
  unfold better_than. destruct (rank x.2) as [[[? ?] ?]|]; [|by intros []].
  unfold rank_lt. destruct flip; intros [?|[_ ?]]; lia.
Qed.

Lemma better_total flip x y z :
  better_than flip x z → better_than flip y z → x.1 ≠ y.1 → better_than flip x y ∨ better_than flip y x.
Proof.
  unfold better_than.
  destruct (rank x.2) as [[[i1 i2] i3]|], (rank y.2) as [[[j1 j2] j3]|], (rank z.2) as [[[? ?] ?]|]; try done.
  intros _ _ Hne. unfold rank_lt.
  destruct (decide ((i1, i2, i3) = (j1, j2, j3))) as [[= -> -> ->]|Hij].
  - destruct (N.lt_trichotomy x.1 y.1) as [?|[?|?]]; [left|done|right]; by right.
  - assert (i1 ≠ j1 ∨ i2 ≠ j2 ∨ i3 ≠ j3) as Hd.
    { destruct (decide (i1 = j1)), (decide (i2 = j2)), (decide (i3 = j3)); subst; auto. }
    destruct flip, (decide (i1 < j1 ∨ i1 = j1 ∧ (i2 < j2 ∨ i2 = j2 ∧ i3 < j3))%Z);
      first [left; left; lia|right; left; lia].
Qed.

Section pick_order.
Context (better : StoreScore → N * spec_float → bool) (flip : bool).
Context (Hbetter : ∀ sc b, better sc b = true ↔ better_than flip (sc_storeId sc, sc_score sc) b).

Lemma pick_comm skip b x y :
  sc_storeId x.2 ≠ sc_storeId y.2 →
  pick better skip (pick better skip b x) y = pick better skip (pick better skip b y) x.
Proof using Hbetter.
  intros Hne. unfold pick. destruct x as [? x], y as [? y]. cbn [snd] in *.
  destruct (skip x), (skip y); try done.
  assert (∀ sc b, better sc b = false ↔ ¬ better_than flip (sc_storeId sc, sc_score sc) b) as Hworse.
  { intros sc b'. rewrite <- Hbetter. by destruct (better sc b'). }
  destruct (better x b) eqn:E1, (better y b) eqn:E2; rewrite ?E1, ?E2; [| | |done].
  - destruct (better y (sc_storeId x, _)) eqn:E3, (better x (sc_storeId y, _)) eqn:E4; try done.
    + apply Hbetter in E3, E4. destruct (better_irrefl flip (sc_storeId x, sc_score x)). exact (better_trans _ _ _ _ E4 E3).
    + apply Hbetter in E1, E2. apply Hworse in E3, E4. by destruct (better_total _ _ _ _ E1 E2 Hne).
  - destruct (better y (sc_storeId x, _)) eqn:E3; [|done]. apply Hbetter in E1, E3. apply Hworse in E2. destruct E2.
    exact (better_trans _ _ _ _ E3 E1).
  - destruct (better x (sc_storeId y, _)) eqn:E3; [|done]. apply Hbetter in E2, E3. apply Hworse in E1. destruct E1.
    exact (better_trans _ _ _ _ E3 E2).
Qed.

Lemma pick_permutation skip l1 l2 b :
  l1 ≡ₚ l2 → NoDup ((λ item, sc_storeId item.2) <$> l1) →
  foldl (pick better skip) b l1 = foldl (pick better skip) b l2.
Proof using Hbetter.
  intros Hp. revert b. induction Hp as [|x l1 l2 Hp IH|x y l|l1 l2 l3 Hp1 IH1 Hp2 IH2]; intros b Hnd; [done|..].
  - apply NoDup_cons in Hnd as [_ Hnd]. cbn [foldl]. by apply IH.
  - cbn [foldl]. rewrite pick_comm; [done|]. csimpl in Hnd.
    apply NoDup_cons in Hnd as [Hx _]. intros E. apply Hx, elem_of_cons. left. congruence.
  - rewrite IH1 by done. apply IH2. by rewrite <- Hp1.
Qed.

End pick_order.

Lemma scores_distinct traverse view now :
  (∀ m, traverse m ≡ₚ map_to_list m) →
  NoDup ((λ item, sc_storeId item.2) <$> traverse (store_scores view now)).
Proof.
  intros Htr. assert ((λ item, sc_storeId item.2) <$> traverse (store_scores view now) =
    (traverse (store_scores view now)).*1) as ->.
  { apply list_fmap_ext. intros i item Hi.
    apply list_elem_of_lookup_2, (traverse_elem traverse Htr), store_scores_lookup in Hi. by destruct Hi. }
  rewrite Htr. apply NoDup_fst_map_to_list.
Qed.

Section two_orders.
Context (traverse1 traverse2 : gmap N StoreScore → list (N * StoreScore)).
Context (Htr1 : ∀ m, traverse1 m ≡ₚ map_to_list m) (Htr2 : ∀ m, traverse2 m ≡ₚ map_to_list m).

Lemma pick_order better flip skip b view now :
  (∀ sc b, better sc b = true ↔ better_than flip (sc_storeId sc, sc_score sc) b) →
  foldl (pick better skip) b (traverse1 (store_scores view now)) =
  foldl (pick better skip) b (traverse2 (store_scores view now)).
Proof using Htr1 Htr2.
  intros Hb. eapply pick_permutation; [done|by rewrite Htr1, Htr2|by apply scores_distinct].
Qed.

Lemma targetFor_order view now active region :
  targetFor traverse1 view (store_scores view now) active region =
  targetFor traverse2 view (store_scores view now) active region.
Proof using Htr1 Htr2. unfold targetFor. by rewrite (pick_order _ false) by apply below_spec. Qed.

Lemma extremes_order view now active :
  extremes traverse1 view (store_scores view now) active = extremes traverse2 view (store_scores view now) active.
Proof using Htr1 Htr2.
  unfold extremes. rewrite !fold_pair.
  by rewrite (pick_order above true), (pick_order below false) by (apply above_spec || apply below_spec).
Qed.

Lemma repair_order view now rest st :
  repair traverse1 view (store_scores view now) now rest st = repair traverse2 view (store_scores view now) now rest st.
Proof using Htr1 Htr2.
  revert st. induction rest as [|region rest IH]; intros st; [done|]. cbn [repair]. rewrite IH.
  destruct (pn_budget st =? 0); [done|]. f_equal. unfold repair_region. by rewrite targetFor_order.
Qed.

Lemma balance_order slots snapshot view now regions st :
  balance traverse1 slots snapshot view (store_scores view now) regions st =
  balance traverse2 slots snapshot view (store_scores view now) regions st.
Proof using Htr1 Htr2.
  revert st. induction slots as [|slots IH]; intros st; [done|]. cbn [balance]. rewrite extremes_order.
  destruct (extremes _ _ _ _) as [[source ss] [target ts]]. destruct (_ || _); [done|].
  destruct (find _ regions); [apply IH|done].
Qed.

End two_orders.

(** Planning is deterministic: the result does not depend on the order in
    which the hash table of Store scores is visited. *)
Theorem Plan_deterministic traverse1 traverse2 snapshot :
  (∀ m, traverse1 m ≡ₚ map_to_list m) → (∀ m, traverse2 m ≡ₚ map_to_list m) →
  Plan traverse1 snapshot = Plan traverse2 snapshot.
Proof.
  intros Htr1 Htr2. unfold Plan. destruct (metadata snapshot) as [view|]; [|done].
  destruct (catalog view) as [regions|]; [|done]. destruct (negb _ || _); [done|].
  rewrite (repair_order _ _ Htr1 Htr2). destruct (split _ _ _ _ _) as [windows st2].
  by rewrite (balance_order _ _ Htr1 Htr2).
Qed.

(** ** A concrete cluster *)

Module BalancerDemo.
Import MetaDemo OrderlyDemo.

(** Store 1 is nearly full, Store 2 nearly empty. *)
Definition beat (store free : N) : MetadataCommand :=
  MkCommand ("beat-" +:+ to_string store) 0
    (ReportStoreHeartbeat (MkHeartbeat store 1 100 5000 1000000000 free 10 [])).
Definition skewed : t := run [beat 1 200000000; beat 2 900000000] booted.

Lemma skewed_orderly : rtc ostep initial skewed.
Proof.
  eapply rtc_r; [eapply rtc_r; [apply booted_orderly|]|].
  - apply (OStep (beat 1 200000000)). orderly_now.
  - apply (OStep (beat 2 900000000)). orderly_now.
Qed.

Definition planned : list SchedulingPlan := plans (Plan map_to_list (snapshot_of skewed 1000 ∅ ∅)).
Definition no_plan : SchedulingPlan := MkPlan (op EmptyString) Balance (of_N 0) EmptyString.
Definition top : SchedulingPlan := hd no_plan planned.

Lemma planned_top : planned = [top] ∧ so_operatorid (operation top) = "auto:1:1:balance:1:2".
Proof. vm_compute. by split. Qed.

Lemma skewed_fits : counters_fit (View skewed) (regions_ skewed).
Proof. split; vm_compute; reflexivity. Qed.

Lemma plans_admitted_witness :
  admitted (operation top) skewed
    (Apply (MkCommand "m" (revision_ skewed) (CreateSchedulingOperator (operation top))) skewed).
Proof.
  apply (plans_admitted map_to_list skewed 1000 ∅ ∅ top "m").
  - done.
  - exact skewed_orderly.
  - vm_compute. discriminate.
  - exact skewed_fits.
  - discriminate.
  - vm_compute. reflexivity.
  - fold planned. rewrite (proj1 planned_top). left.
  - vm_compute. discriminate.
  - vm_compute. reflexivity.
  - vm_compute. discriminate.
  - split; [discriminate|vm_compute; reflexivity].
Defined.

Lemma plans_within_budget_witness :
  N.of_nat (size (activeOperatorByRegion_ skewed)) + 1 ≤ cf_maximumactiveoperators (balancerConfig_ skewed).
Proof.
  destruct (plans_within_budget map_to_list skewed 1000 ∅ ∅) as [H _].
  - done.
  - exact skewed_orderly.
  - vm_compute. discriminate.
  - exact skewed_fits.
  - fold planned in H. rewrite (proj1 planned_top) in H. by apply H.
Defined.

(** Visiting the table from the end. *)
Lemma Plan_deterministic_witness :
  Plan (λ m, reverse (map_to_list m)) (snapshot_of skewed 1000 ∅ ∅) = Plan map_to_list (snapshot_of skewed 1000 ∅ ∅).
Proof. apply (Plan_deterministic (λ m, reverse (map_to_list m)) map_to_list); intros m; [apply reverse_Permutation|done]. Defined.

End BalancerDemo.
