(* ===== verification/Wire.v ===== *)
(** * Binary encoding of replicated commands

    The command envelope [Op] and the transaction payload [TxnOpPayload] of
    src/src/common/include/util.h.  Both are written by appending the bytes of
    the integers as they lie in memory (little endian on the supported
    platforms) and length-prefixed strings, and read back with [memcpy] after a
    bounds check.  The integer codec is shared with the Raft persistence
    format. *)

From S2P Require Import Prelude.

(** ** Integers in memory *)

Fixpoint le_bytes (k : nat) (n : N) : string :=
  match k with
  | O => EmptyString
  | S k' => String (ascii_of_N (n mod 256)) (le_bytes k' (n / 256))
  end.

Fixpoint le_value (s : string) : N :=
  match s with
  | EmptyString => 0
  | String c s' => N_of_ascii c + 256 * le_value s'
  end.

(** A signed 32-bit value stored in four bytes. *)
Definition i32_size : Z := 4294967296.
Definition fits_i32 (z : Z) : Prop := (-2147483648 ≤ z ≤ 2147483647)%Z.

Definition i32_bytes (z : Z) : string := le_bytes 4 (Z.to_N (z mod i32_size)).
Definition i32_value (s : string) : Z :=
  let u := Z.of_N (le_value s) in if (u <? 2147483648)%Z then u else (u - i32_size)%Z.

(** [memcpy] of [k] bytes at [offset] after the check
    [offset + k > data.size()]; the new offset is returned with the bytes. *)
Definition read_bytes (data : string) (offset k : nat) : option (string * nat) :=
  if bool_decide (String.length data < offset + k) then None
  else Some (stake k (sdrop offset data), offset + k).

(** A [uint32_t] length followed by that many bytes. *)
Definition field_bytes (s : string) : string :=
  le_bytes 4 (N.of_nat (String.length s)) +:+ s.

Definition read_field (data : string) (offset : nat) : option (string * nat) :=
  '(len, offset) ← read_bytes data offset 4;
  read_bytes data offset (N.to_nat (le_value len)).

(** A field whose length fits its prefix. *)
Definition short (s : string) : Prop := (N.of_nat (String.length s) < 4294967296)%N.

(** ** The transaction payload *)

Record TxnOpPayload := {
  tp_value : string;
  tp_primaryKey : string;
  tp_startTs : N;
  tp_commitTs : N;
  tp_ttlMs : N;
  tp_isDelete : bool;
}.

Definition TxnOpPayload_asString (p : TxnOpPayload) : string :=
  field_bytes (tp_value p) +:+ field_bytes (tp_primaryKey p) +:+
  le_bytes 8 (tp_startTs p) +:+ le_bytes 8 (tp_commitTs p) +:+ le_bytes 8 (tp_ttlMs p) +:+
  le_bytes 1 (if tp_isDelete p then 1 else 0).

(** The fields assigned before a failing check keep their new value. *)
Definition TxnOpPayload_parseFromString (p : TxnOpPayload) (data : string)
    : TxnOpPayload * bool :=
  let '(Build_TxnOpPayload v pk st ct ttl del) := p in
  match read_field data 0 with
  | None => (p, false)
  | Some (v, o) =>
  match read_field data o with
  | None => (Build_TxnOpPayload v pk st ct ttl del, false)
  | Some (pk, o) =>
  match read_bytes data o 8 with
  | None => (Build_TxnOpPayload v pk st ct ttl del, false)
  | Some (b, o) => let st := le_value b in
  match read_bytes data o 8 with
  | None => (Build_TxnOpPayload v pk st ct ttl del, false)
  | Some (b, o) => let ct := le_value b in
  match read_bytes data o 8 with
  | None => (Build_TxnOpPayload v pk st ct ttl del, false)
  | Some (b, o) => let ttl := le_value b in
  match read_bytes data o 1 with
  | None => (Build_TxnOpPayload v pk st ct ttl del, false)
  | Some (b, _) => (Build_TxnOpPayload v pk st ct ttl (negb (le_value b =? 0)%N), true)
  end end end end end end.

(** ** The command envelope *)

Record Op := {
  Operation : string;
  Key : string;
  Value : string;
  ClientId : string;
  RequestId : Z;
  Status : string;
}.

#[global] Instance Op_eq_dec : EqDecision Op.
Proof. solve_decision. Defined.

Definition Op_asString (op : Op) : string :=
  field_bytes (Operation op) +:+ field_bytes (Key op) +:+ field_bytes (Value op) +:+
  field_bytes (ClientId op) +:+ i32_bytes (RequestId op) +:+ field_bytes (Status op).

Definition Op_parseFromString (op : Op) (data : string) : Op * bool :=
  let '(Build_Op operation key value client request status) := op in
  match read_field data 0 with
  | None => (op, false)
  | Some (operation, o) =>
  match read_field data o with
  | None => (Build_Op operation key value client request status, false)
  | Some (key, o) =>
  match read_field data o with
  | None => (Build_Op operation key value client request status, false)
  | Some (value, o) =>
  match read_field data o with
  | None => (Build_Op operation key value client request status, false)
  | Some (client, o) =>
  match read_bytes data o 4 with
  | None => (Build_Op operation key value client request status, false)
  | Some (b, o) => let request := i32_value b in
  match read_field data o with
  | None => (Build_Op operation key value client request status, false)
  | Some (status, _) => (Build_Op operation key value client request status, true)
  end end end end end end.

(** ** Round trips *)

Lemma le_bytes_length k n : String.length (le_bytes k n) = k.
Proof. revert n. induction k as [|k IH]; intros n; simpl; [done|by rewrite IH]. Qed.

Lemma le_value_bytes k n : (n < 256 ^ N.of_nat k)%N → le_value (le_bytes k n) = n.
Proof.
  revert n. induction k as [|k IH]; intros n Hn.
  - simpl in *. lia.
  - cbn [le_bytes le_value]. rewrite N_ascii_embedding by (apply N.mod_lt; lia).
    rewrite Nat2N.inj_succ, N.pow_succ_r' in Hn.
    rewrite IH; [pose proof (N.div_mod n 256); lia|].
    apply N.Div0.div_lt_upper_bound; lia.
Qed.

Lemma i32_value_bytes z : fits_i32 z → i32_value (i32_bytes z) = z.
Proof.
  unfold fits_i32, i32_value, i32_bytes, i32_size. intros Hz.
  pose proof (Z.mod_pos_bound z 4294967296 ltac:(lia)).
  rewrite le_value_bytes by (simpl; lia). rewrite Z2N.id by lia.
  destruct (decide (0 ≤ z)%Z).
  - rewrite Z.mod_small by lia. by destruct (Z.ltb_spec z 2147483648); [|lia].
  - rewrite <- (Z.mod_add z 1) by lia. rewrite Z.mod_small by lia.
    destruct (Z.ltb_spec (z + 1 * 4294967296) 2147483648); lia.
Qed.

Lemma i32_bytes_length z : String.length (i32_bytes z) = 4.
Proof. apply le_bytes_length. Qed.

(** [rest] is what remains of [data] at [offset]. *)
Definition remains (data : string) (offset : nat) (rest : string) : Prop :=
  offset ≤ String.length data ∧ sdrop offset data = rest.

Lemma sdrop_length n s : String.length (sdrop n s) = String.length s - n.
Proof. revert s. induction n as [|n IH]; intros [|c s]; simpl; auto. Qed.

Lemma sdrop_sdrop n m s : sdrop n (sdrop m s) = sdrop (m + n) s.
Proof.
  revert s. induction m as [|m IH]; intros s; [done|].
  destruct s; [by destruct n|]. apply IH.
Qed.

Lemma remains_start data : remains data 0 data.
Proof. split; [lia|by destruct data]. Qed.

Lemma remains_bytes data o b post :
  remains data o (b +:+ post) →
  read_bytes data o (String.length b) = Some (b, o + String.length b) ∧
  remains data (o + String.length b) post.
Proof.
  intros [Ho Hd]. pose proof (sdrop_length o data) as Hl.
  rewrite Hd, string_app_length in Hl. unfold read_bytes.
  rewrite bool_decide_eq_false_2 by lia. rewrite Hd, stake_app. split; [done|].
  split; [lia|]. by rewrite <- sdrop_sdrop, Hd, sdrop_app.
Qed.

Lemma remains_le data o k n post :
  remains data o (le_bytes k n +:+ post) →
  read_bytes data o k = Some (le_bytes k n, o + k) ∧ remains data (o + k) post.
Proof. intros H%remains_bytes. by rewrite le_bytes_length in H. Qed.

Lemma remains_field data o s post :
  short s → remains data o (field_bytes s +:+ post) →
  ∃ o', read_field data o = Some (s, o') ∧ remains data o' post.
Proof.
  intros Hs. unfold field_bytes, read_field. rewrite string_app_assoc.
  intros [-> [Hr Hp]%remains_bytes]%remains_le. cbn [mbind option_bind].
  rewrite le_value_bytes by exact Hs. rewrite Nat2N.id. eauto.
Qed.

(** Read the next field or integer of a record whose remaining bytes are
    known. *)
Ltac read_next :=
  match goal with
  | H : remains _ _ (field_bytes _ +:+ _) |- _ =>
      apply remains_field in H as (? & Hread & H); [rewrite Hread; clear Hread|assumption]
  | H : remains _ _ (_ +:+ _) |- _ =>
      apply remains_le in H as [Hread H]; rewrite Hread; clear Hread
  end; cbn beta iota zeta.

Definition payload_fits (p : TxnOpPayload) : Prop :=
  short (tp_value p) ∧ short (tp_primaryKey p) ∧
  fits64 (tp_startTs p) ∧ fits64 (tp_commitTs p) ∧ fits64 (tp_ttlMs p).

Definition op_fits (op : Op) : Prop :=
  short (Operation op) ∧ short (Key op) ∧ short (Value op) ∧ short (ClientId op) ∧
  fits_i32 (RequestId op) ∧ short (Status op).

Lemma payload_parse p p0 :
  payload_fits p → TxnOpPayload_parseFromString p0 (TxnOpPayload_asString p) = (p, true).
Proof.
  destruct p as [v pk st ct ttl del], p0. intros (Hv & Hpk & Hst & Hct & Httl); simpl in *.
  pose proof (remains_start (TxnOpPayload_asString (Build_TxnOpPayload v pk st ct ttl del))) as Hr.
  set (data := TxnOpPayload_asString _) in Hr |- *. unfold data in Hr at 2.
  unfold TxnOpPayload_asString in Hr. cbn [tp_value tp_primaryKey tp_startTs tp_commitTs tp_ttlMs tp_isDelete] in Hr.
  rewrite <- (string_app_nil_r (le_bytes 1 _)) in Hr.
  unfold TxnOpPayload_parseFromString. do 6 read_next.
  rewrite !le_value_bytes by (assumption || (destruct del; simpl; lia)). by destruct del.
Qed.

Lemma op_parse op op0 : op_fits op → Op_parseFromString op0 (Op_asString op) = (op, true).
Proof.
  destruct op as [o k v c r st], op0. intros (Ho & Hk & Hv & Hc & Hreq & Hst); simpl in *.
  pose proof (remains_start (Op_asString (Build_Op o k v c r st))) as Hr.
  set (data := Op_asString _) in Hr |- *. unfold data in Hr at 2.
  unfold Op_asString in Hr. cbn [Operation Key Value ClientId RequestId Status] in Hr.
  rewrite <- (string_app_nil_r (field_bytes st)) in Hr.
  unfold Op_parseFromString. unfold i32_bytes in Hr. do 6 read_next.
  fold (i32_bytes r). by rewrite (i32_value_bytes r Hreq).
Qed.

(** A transaction command carries its payload in the value field. *)
Definition with_payload (op : Op) (p : TxnOpPayload) : Op :=
  Build_Op (Operation op) (Key op) (TxnOpPayload_asString p) (ClientId op) (RequestId op) (Status op).

(** A replicated transaction command is decoded as it was encoded: parsing the
    bytes of the envelope gives the operation, key, client, request and status
    back, and parsing its value gives the transaction payload back, whatever
    bytes the strings contain and whatever the objects held before. *)
Theorem command_roundtrip op p op0 p0 :
  op_fits (with_payload op p) → payload_fits p →
  let '(op', ok) := Op_parseFromString op0 (Op_asString (with_payload op p)) in
  op' = with_payload op p ∧ ok = true ∧ TxnOpPayload_parseFromString p0 (Value op') = (p, true).
Proof.
  intros Hop Hp. rewrite op_parse by done. split; [done|]. split; [done|]. by apply payload_parse.
Qed.

Lemma command_roundtrip_witness :
  let op := Build_Op "Prewrite" "key" EmptyString "client" (-7) EmptyString in
  let p := Build_TxnOpPayload "value" "primary" 18446744073709551615 0 3000 true in
  let '(op', ok) := Op_parseFromString op (Op_asString (with_payload op p)) in
  op' = with_payload op p ∧ ok = true ∧ TxnOpPayload_parseFromString p (Value op') = (p, true).
Proof.
  apply (command_roundtrip (Build_Op "Prewrite" "key" EmptyString "client" (-7) EmptyString)
           (Build_TxnOpPayload "value" "primary" 18446744073709551615 0 3000 true));
    unfold op_fits, payload_fits, short, fits_i32, fits64; vm_compute; repeat split; discriminate.
Defined.
