(* ===== verification/Scheduler.v ===== *)
(** * The transaction scheduler of a node

    Class [NodeTxnScheduler] (src/src/transaction/txn_scheduler.cpp and .h).  RPC
    threads hand it commands; it takes their latches, prepares and proposes them on
    worker threads, and answers when the Region has applied them.  Its methods
    take and release two mutexes, so they interleave: a method is a list of
    sections, a thread is a stack of the sections it still has to run, and a step
    of the node runs one section of one thread.

    The Region ([TxnRegionExecutor]), the clock and the life time of the Region
    object answer through [answers], which differ from step to step.  A
    completion is a number, and [sc_answered] lists the calls in their order. *)

From Stdlib Require Import ZArith.
From S2P Require Import Prelude KvEngine MvccTypes Codec Hlc Latch Wire.
#[local] Open Scope N_scope.

Inductive TxnCommandType :=
| CtPrewrite | CtCommit | CtRollback | CtBatchPrewrite | CtBatchCommit | CtBatchRollback
| CtPessimisticLock | CtCheckTxnStatus | CtResolveLock | CtGarbageCollect.

#[global] Instance TxnCommandType_eq_dec : EqDecision TxnCommandType.
Proof. solve_decision. Defined.

Inductive TxnTaskState := TkWaitingLatch | TkQueued | TkPreparing | TkProposed | TkApplied | TkFailed.

#[global] Instance TxnTaskState_eq_dec : EqDecision TxnTaskState.
Proof. solve_decision. Defined.

Record TxnCommand := MkTxnCommand {
  tc_type : TxnCommandType;
  tc_latchMode : TxnLatchMode;
  tc_regionId : Z;
  tc_keys : list string;
  tc_mutations : list MvccMutation;
  tc_key : string;
  tc_value : string;
  tc_primaryKey : string;
  tc_clientId : string;
  tc_requestId : Z;
  tc_startTs : N;
  tc_commitTs : N;
  tc_ttlMs : N;
  tc_forUpdateTs : N;
  tc_expireAtPhysicalMs : N;
  tc_currentPhysicalMs : N;
  tc_safePointTs : N;
  tc_resolutionState : TxnRecordState;
  tc_rollbackIfExpired : bool;
  tc_isDelete : bool;
  tc_isLockOnly : bool;
  tc_deadline : Z
}.

Record TxnScheduleResult := MkResult {
  sr_status : string;
  sr_removedCount : N;
  sr_raftIndex : Z;
  sr_applied : bool;
  sr_responseTimedOut : bool;
  sr_readStatus : TxnStatus;
  sr_value : string;
  sr_valueCommitTs : N;
  sr_txnRecordStatus : TxnRecordStatus
}.

(** [static_cast<int>] of the enumeration. *)
Definition status_code (st : TxnStatus) : N :=
  match st with
  | StOk => 0 | StNotFound => 1 | StLockConflict => 2 | StWriteConflict => 3 | StAlreadyCommitted => 4
  | StTimeout => 5 | StAbortOnly => 6 | StCleanupPending => 7 | StResultUnknown => 8 | StStorageError => 9
  end.

Module NodeTxnScheduler.

Definition RequestKey : Type := Z * string * Z.

Record WaitingResponse := MkWaiting { wr_completion : nat; wr_deadline : Z; wr_completed : bool }.

Record TaskContext := MkTask {
  tk_commandId : N;
  tk_command : TxnCommand;
  tk_requestKey : RequestKey;
  tk_state : TxnTaskState;
  tk_region : nat;
  tk_responses : list WaitingResponse;
  tk_createdAt : Z;
  tk_proposedAt : Z;
  tk_raftIndex : Z;
  tk_proposed : bool;
  tk_preparedResponse : PreparedMvccWrite;
  tk_preparedBatch : PreparedMvccBatch
}.

Record Counters := MkCounters {
  accepted_ : N; rejected_ : N; prepareConflicts_ : N; raftProposals_ : N; applied_ : N;
  responseTimeouts_ : N; lateApplies_ : N; prepareMicros_ : N; applyWaitMicros_ : N
}.

(** The objects behind [weak_ptr] are numbered.  [sc_queue] is the queue of the
    worker pool. *)
Record t := MkScheduler {
  regions_ : gmap Z nat;
  tasks_ : gmap N TaskContext;
  requests_ : gmap RequestKey N;
  latches_ : NodeLatchManager.t;
  nextCommandId_ : N;
  counters_ : Counters;
  sc_queue : list N;
  sc_answered : list (nat * TxnScheduleResult)
}.

Definition set_regions m s := MkScheduler m (tasks_ s) (requests_ s) (latches_ s) (nextCommandId_ s) (counters_ s) (sc_queue s) (sc_answered s).
Definition set_tasks m s := MkScheduler (regions_ s) m (requests_ s) (latches_ s) (nextCommandId_ s) (counters_ s) (sc_queue s) (sc_answered s).
Definition set_requests m s := MkScheduler (regions_ s) (tasks_ s) m (latches_ s) (nextCommandId_ s) (counters_ s) (sc_queue s) (sc_answered s).
Definition set_latches m s := MkScheduler (regions_ s) (tasks_ s) (requests_ s) m (nextCommandId_ s) (counters_ s) (sc_queue s) (sc_answered s).
Definition set_next n s := MkScheduler (regions_ s) (tasks_ s) (requests_ s) (latches_ s) n (counters_ s) (sc_queue s) (sc_answered s).
Definition set_counters x s := MkScheduler (regions_ s) (tasks_ s) (requests_ s) (latches_ s) (nextCommandId_ s) x (sc_queue s) (sc_answered s).
Definition set_queue l s := MkScheduler (regions_ s) (tasks_ s) (requests_ s) (latches_ s) (nextCommandId_ s) (counters_ s) l (sc_answered s).
Definition answer k result s := MkScheduler (regions_ s) (tasks_ s) (requests_ s) (latches_ s) (nextCommandId_ s) (counters_ s) (sc_queue s) (sc_answered s ++ [(k, result)]).

Definition count_accepted (c : Counters) := MkCounters (accepted_ c +₆₄ 1) (rejected_ c) (prepareConflicts_ c) (raftProposals_ c) (applied_ c) (responseTimeouts_ c) (lateApplies_ c) (prepareMicros_ c) (applyWaitMicros_ c).
Definition count_rejected (c : Counters) := MkCounters (accepted_ c) (rejected_ c +₆₄ 1) (prepareConflicts_ c) (raftProposals_ c) (applied_ c) (responseTimeouts_ c) (lateApplies_ c) (prepareMicros_ c) (applyWaitMicros_ c).
Definition count_conflict (c : Counters) := MkCounters (accepted_ c) (rejected_ c) (prepareConflicts_ c +₆₄ 1) (raftProposals_ c) (applied_ c) (responseTimeouts_ c) (lateApplies_ c) (prepareMicros_ c) (applyWaitMicros_ c).
Definition count_proposal (c : Counters) := MkCounters (accepted_ c) (rejected_ c) (prepareConflicts_ c) (raftProposals_ c +₆₄ 1) (applied_ c) (responseTimeouts_ c) (lateApplies_ c) (prepareMicros_ c) (applyWaitMicros_ c).
Definition count_applied (c : Counters) := MkCounters (accepted_ c) (rejected_ c) (prepareConflicts_ c) (raftProposals_ c) (applied_ c +₆₄ 1) (responseTimeouts_ c) (lateApplies_ c) (prepareMicros_ c) (applyWaitMicros_ c).
Definition count_timeouts n (c : Counters) := MkCounters (accepted_ c) (rejected_ c) (prepareConflicts_ c) (raftProposals_ c) (applied_ c) (responseTimeouts_ c +₆₄ n) (lateApplies_ c) (prepareMicros_ c) (applyWaitMicros_ c).
Definition count_late (c : Counters) := MkCounters (accepted_ c) (rejected_ c) (prepareConflicts_ c) (raftProposals_ c) (applied_ c) (responseTimeouts_ c) (lateApplies_ c +₆₄ 1) (prepareMicros_ c) (applyWaitMicros_ c).
(** Differences of nanoseconds as microseconds, when positive. *)
Definition micros_since (start now : Z) : N := let m := ((now - start) ÷ 1000)%Z in if (0 <? m)%Z then Z.to_N m else 0.
Definition count_prepare n (c : Counters) := MkCounters (accepted_ c) (rejected_ c) (prepareConflicts_ c) (raftProposals_ c) (applied_ c) (responseTimeouts_ c) (lateApplies_ c) (prepareMicros_ c +₆₄ n) (applyWaitMicros_ c).
Definition count_apply_wait n (c : Counters) := MkCounters (accepted_ c) (rejected_ c) (prepareConflicts_ c) (raftProposals_ c) (applied_ c) (responseTimeouts_ c) (lateApplies_ c) (prepareMicros_ c) (applyWaitMicros_ c +₆₄ n).

Definition tk_with_state st k := MkTask (tk_commandId k) (tk_command k) (tk_requestKey k) st (tk_region k) (tk_responses k) (tk_createdAt k) (tk_proposedAt k) (tk_raftIndex k) (tk_proposed k) (tk_preparedResponse k) (tk_preparedBatch k).
Definition tk_with_responses rs k := MkTask (tk_commandId k) (tk_command k) (tk_requestKey k) (tk_state k) (tk_region k) rs (tk_createdAt k) (tk_proposedAt k) (tk_raftIndex k) (tk_proposed k) (tk_preparedResponse k) (tk_preparedBatch k).
Definition tk_with_prepared p b k := MkTask (tk_commandId k) (tk_command k) (tk_requestKey k) (tk_state k) (tk_region k) (tk_responses k) (tk_createdAt k) (tk_proposedAt k) (tk_raftIndex k) (tk_proposed k) p b.
Definition tk_with_proposal idx now k := MkTask (tk_commandId k) (tk_command k) (tk_requestKey k) TkProposed (tk_region k) (tk_responses k) (tk_createdAt k) now idx true (tk_preparedResponse k) (tk_preparedBatch k).

Definition update_task (id : N) (f : TaskContext → TaskContext) s : t := set_tasks (alter f id (tasks_ s)) s.

(** ** Results and log entries *)

Definition ErrWrongLeader : string := "ErrWrongLeader".

Definition default_result : TxnScheduleResult :=
  MkResult (to_string (status_code StStorageError)) 0 (-1) false false StNotFound EmptyString 0 default_TxnRecordStatus.

Definition WrongLeaderResult (timedOut : bool) : TxnScheduleResult :=
  MkResult ErrWrongLeader 0 (-1) false timedOut StNotFound EmptyString 0 default_TxnRecordStatus.

Definition StatusResult (st : TxnStatus) : TxnScheduleResult :=
  MkResult (to_string (status_code st)) 0 (-1) false false StNotFound EmptyString 0 default_TxnRecordStatus.

Definition PreparedResult (p : PreparedMvccWrite) : TxnScheduleResult :=
  MkResult (to_string (status_code (p_status p))) 0 (-1) false false (readStatus p) (readValue p) (readCommitTs p)
    (txnRecordStatus p).

Definition MakeRequestKey (c : TxnCommand) : RequestKey := (tc_regionId c, tc_clientId c, tc_requestId c).

Definition operation_name (ty : TxnCommandType) : string :=
  match ty with
  | CtPrewrite => "TxnPreparedPrewrite"
  | CtCommit => "TxnPreparedCommit"
  | CtRollback => "TxnPreparedRollback"
  | CtBatchPrewrite => "TxnPreparedBatchPrewrite"
  | CtBatchCommit => "TxnPreparedBatchCommit"
  | CtBatchRollback => "TxnPreparedBatchRollback"
  | CtPessimisticLock => "TxnPreparedPessimisticLock"
  | CtCheckTxnStatus => "TxnPreparedCheckStatus"
  | CtResolveLock => "TxnPreparedResolveLock"
  | CtGarbageCollect => "TxnGarbageCollect"
  end.

Definition is_batch (ty : TxnCommandType) : bool :=
  match ty with CtBatchPrewrite | CtBatchCommit | CtBatchRollback => true | _ => false end.

Definition is_gc (ty : TxnCommandType) : bool := match ty with CtGarbageCollect => true | _ => false end.

Definition empty_op : Op := Build_Op EmptyString EmptyString EmptyString EmptyString 0 EmptyString.

(** ** The sections *)

Inductive section :=
| SSchedule (c : TxnCommand) (k : nat)
| SInsert (c : TxnCommand) (k : nat) (region : nat)
| SRefuse (k : nat)
| SLookup (id : N)
| SAcquire (id : N) (c : TxnCommand)
| SAcquired (id : N) (acquired : bool)
| SDispatch (id : N)
| SDispatchAll (ids : list N)
| SExecute (id : N)
| SCheck (id : N) (c : TxnCommand)
| SPrepare (id : N) (c : TxnCommand)
| SStore (id : N) (c : TxnCommand) (p : PreparedMvccWrite) (b : PreparedMvccBatch) (started : Z)
| SPropose (id : N) (c : TxnCommand) (p : PreparedMvccWrite) (b : PreparedMvccBatch)
| SProposed (id : N) (raftIndex : Z)
| SFinish (id : N) (r : TxnScheduleResult)
| SRelease (id : N) (ks : list nat) (r : TxnScheduleResult)
| SComplete (ks : list nat) (r : TxnScheduleResult)
| SApplied (rid : Z) (op : Op) (raftIndex : Z)
| SRejected (rid : Z) (op : Op)
| SDeadline
| SRemoved (rid : Z)
| SRegister (rid : Z) (region : nat).

Record answers := MkAnswers {
  an_now : Z;
  an_alive : bool;
  an_leader : bool;
  an_prepared : PreparedMvccWrite;
  an_batch : PreparedMvccBatch;
  an_proposed : option Z;
  an_visit : list N
}.

(** The traversal of an [unordered_map] visits the keys in some order. *)
Definition visit (order ids : list N) : list N :=
  filter (λ i, i ∈ ids) (remove_dups order) ++ filter (λ i, i ∉ order) ids.

(** The completions a task still owes, and the task without them. *)
Definition owed (rs : list WaitingResponse) : list nat := wr_completion <$> filter (λ r, wr_completed r = false) rs.

Definition expired_responses (now : Z) (rs : list WaitingResponse) : list nat :=
  wr_completion <$> filter (λ r, wr_completed r = false ∧ (wr_deadline r ≤ now)%Z) rs.

Definition expire (now : Z) (r : WaitingResponse) : WaitingResponse :=
  if negb (wr_completed r) && (wr_deadline r <=? now)%Z then MkWaiting (wr_completion r) (wr_deadline r) true else r.

Definition CONSENSUS_TIMEOUT_ns : Z := 3000 * 1000000.

(** The first lines of [Schedule]. *)
Definition normalise (now : Z) (c : TxnCommand) : TxnCommand :=
  let keys :=
    if bool_decide (tc_keys c = []) && bool_decide (tc_latchMode c = Keys) && negb (String.eqb (tc_key c) EmptyString)
    then [tc_key c] else tc_keys c in
  let deadline := if (tc_deadline c =? 0)%Z then (now + CONSENSUS_TIMEOUT_ns)%Z else tc_deadline c in
  MkTxnCommand (tc_type c) (tc_latchMode c) (tc_regionId c) keys (tc_mutations c) (tc_key c) (tc_value c)
    (tc_primaryKey c) (tc_clientId c) (tc_requestId c) (tc_startTs c) (tc_commitTs c) (tc_ttlMs c) (tc_forUpdateTs c)
    (tc_expireAtPhysicalMs c) (tc_currentPhysicalMs c) (tc_safePointTs c) (tc_resolutionState c) (tc_rollbackIfExpired c)
    (tc_isDelete c) (tc_isLockOnly c) deadline.

Definition new_task (now : Z) (id : N) (c : TxnCommand) (k region : nat) : TaskContext :=
  MkTask id c (MakeRequestKey c) TkWaitingLatch region [MkWaiting k (tc_deadline c) false] now 0 (-1) false
    default_PreparedMvccWrite default_PreparedMvccBatch.

(** The answer to an applied entry. *)
Definition applied_result (task : TaskContext) (op : Op) (raftIndex : Z) : TxnScheduleResult :=
  let p := tk_preparedResponse task in
  let '(status, removed) :=
    if is_gc (tc_type (tk_command task)) then
      match read_number (skip_spaces (Status op)) with
      | Some (n, _) => (to_string (status_code StOk), n)
      | None => (to_string (status_code StStorageError), 0)
      end
    else (Status op, 0) in
  MkResult status removed raftIndex true false (readStatus p) (readValue p) (readCommitTs p) (txnRecordStatus p).

Section with_parameters.
Context (hash_int : Z → N) (hash_string : string → N).
Context (SerializeWrite : PreparedMvccWrite → string) (SerializeBatch : PreparedMvccBatch → string).
Context (maxPendingTasks queueCapacity workerThreads : nat).
Implicit Types (s : t) (a : answers).

Definition BuildOp (c : TxnCommand) (prepared : option PreparedMvccWrite) : Op :=
  Build_Op (operation_name (tc_type c)) (tc_key c)
    (match prepared with
     | Some p => SerializeWrite p
     | None => TxnOpPayload_asString (Build_TxnOpPayload EmptyString EmptyString (tc_safePointTs c) 0 0 false)
     end) (tc_clientId c) (tc_requestId c) EmptyString.

Definition BuildBatchOp (c : TxnCommand) (b : PreparedMvccBatch) : Op :=
  if is_batch (tc_type c) then
    Build_Op (operation_name (tc_type c)) (match tc_keys c with [] => EmptyString | k :: _ => k end)
      (SerializeBatch b) (tc_clientId c) (tc_requestId c) EmptyString
  else empty_op.

(** [Schedule], up to the insertion of the task. *)
Definition run_schedule a (c : TxnCommand) (k : nat) s : t * list section :=
  let c := normalise (an_now a) c in
  match regions_ s !! tc_regionId c with
  | Some region =>
      if an_alive a && an_leader a then (s, [SInsert c k region])
      else (set_counters (count_rejected (counters_ s)) s, [SComplete [k] (WrongLeaderResult false)])
  | None => (set_counters (count_rejected (counters_ s)) s, [SComplete [k] (WrongLeaderResult false)])
  end.

Definition run_insert a (c : TxnCommand) (k region : nat) s : t * list section :=
  let key := MakeRequestKey c in
  let fresh s :=
    if (maxPendingTasks <=? size (tasks_ s))%nat
    then (set_counters (count_rejected (counters_ s)) s, [SRefuse k])
    else
      let id := nextCommandId_ s +₆₄ 1 in
      (set_next id (set_requests (<[key := id]> (requests_ s))
         (set_tasks (<[id := new_task (an_now a) id c k region]> (tasks_ s)) s)), [SLookup id]) in
  match requests_ s !! key with
  | Some id =>
      match tasks_ s !! id with
      | Some task =>
          (update_task id (tk_with_responses (tk_responses task ++ [MkWaiting k (tc_deadline c) false])) s, [])
      | None => fresh (set_requests (delete key (requests_ s)) s)
      end
  | None => fresh s
  end.

Definition run_execute (id : N) s : t * list section :=
  match tasks_ s !! id with
  | None => (s, [])
  | Some task => (update_task id (tk_with_state TkPreparing) s, [SCheck id (tk_command task)])
  end.

(** The Region object is locked for the rest of [Execute]. *)
Definition run_check a (id : N) (c : TxnCommand) s : t * list section :=
  if (tc_deadline c <=? an_now a)%Z then (s, [SFinish id (WrongLeaderResult true)])
  else if negb (an_alive a && an_leader a) then (s, [SFinish id (WrongLeaderResult false)])
  else if is_gc (tc_type c) then (s, [SPropose id c default_PreparedMvccWrite default_PreparedMvccBatch])
  else (s, [SPrepare id c]).

Definition run_prepare a (id : N) (c : TxnCommand) s : t * list section :=
  if is_batch (tc_type c) then (s, [SStore id c default_PreparedMvccWrite (an_batch a) (an_now a)])
  else (s, [SStore id c (an_prepared a) default_PreparedMvccBatch (an_now a)]).

Definition run_store a (id : N) (c : TxnCommand) (p : PreparedMvccWrite) (b : PreparedMvccBatch) (started : Z) s
    : t * list section :=
  let s := update_task id (tk_with_prepared p b) s in
  let s := set_counters (count_prepare (micros_since started (an_now a)) (counters_ s)) s in
  let batch := is_batch (tc_type c) in
  let prepareStatus := if batch then b_status b else p_status p in
  if negb (bool_decide (prepareStatus = StOk)) then
    let s := match prepareStatus with
             | StLockConflict | StWriteConflict => set_counters (count_conflict (counters_ s)) s
             | _ => s end in
    (s, [SFinish id (StatusResult prepareStatus)])
  else if (if batch then negb (BatchHasChanges b) else negb (HasChanges p)) then
    (s, [SFinish id (if batch then StatusResult prepareStatus else PreparedResult p)])
  else (s, [SPropose id c p b]).

Definition run_propose a (id : N) (c : TxnCommand) (p : PreparedMvccWrite) (b : PreparedMvccBatch) s : t * list section :=
  if (tc_deadline c <=? an_now a)%Z || negb (an_leader a) then (s, [SFinish id (WrongLeaderResult true)])
  else
    let op := if is_batch (tc_type c) then BuildBatchOp c b
              else BuildOp c (if is_gc (tc_type c) then None else Some p) in
    if String.eqb (Operation op) EmptyString || String.eqb (Value op) EmptyString
    then (s, [SFinish id (StatusResult StStorageError)])
    else
      match an_proposed a with
      | None => (s, [SFinish id (WrongLeaderResult false)])
      | Some raftIndex => (set_counters (count_proposal (counters_ s)) s, [SProposed id raftIndex])
      end.

Definition run_finish (id : N) (r : TxnScheduleResult) s : t * list section :=
  match tasks_ s !! id with
  | None => (s, [])
  | Some task =>
      (set_requests (delete (tk_requestKey task) (requests_ s)) (set_tasks (delete id (tasks_ s)) s),
       [SRelease id (owed (tk_responses task)) r])
  end.

Definition run_release a (id : N) (ks : list nat) (r : TxnScheduleResult) s : t * list section :=
  let '(latches, ready) := NodeLatchManager.Release hash_int hash_string (an_now a) id (latches_ s) in
  (set_latches latches s, [SComplete ks r; SDispatchAll ready]).

Definition run_applied a (rid : Z) (op : Op) (raftIndex : Z) s : t * list section :=
  let key := (rid, ClientId op, RequestId op) in
  match requests_ s !! key with
  | None => (set_counters (count_late (counters_ s)) s, [])
  | Some id =>
      match tasks_ s !! id with
      | None => (set_counters (count_late (counters_ s)) (set_requests (delete key (requests_ s)) s), [])
      | Some task =>
          let c := if (tk_proposedAt task =? 0)%Z then counters_ s
                   else count_apply_wait (micros_since (tk_proposedAt task) (an_now a)) (counters_ s) in
          (set_counters (count_applied c)
             (set_requests (delete key (requests_ s)) (set_tasks (delete id (tasks_ s)) s)),
           [SRelease id (owed (tk_responses task)) (applied_result task op raftIndex)])
      end
  end.

Definition run_deadline a s : t * list section :=
  let ids := visit (an_visit a) (map_to_list (tasks_ s)).*1 in
  let expired := ids ≫= λ id,
    match tasks_ s !! id with Some task => expired_responses (an_now a) (tk_responses task) | None => [] end in
  (set_counters (count_timeouts (N.of_nat (length expired)) (counters_ s))
     (set_tasks ((λ task, tk_with_responses (expire (an_now a) <$> tk_responses task) task) <$> tasks_ s) s),
   [SComplete expired (WrongLeaderResult true)]).

Definition run_removed a (rid : Z) s : t * list section :=
  let mine := (filter (λ p, tc_regionId (tk_command p.2) = rid) (map_to_list (tasks_ s))).*1 in
  (set_regions (delete rid (regions_ s)) s, (λ id, SFinish id (WrongLeaderResult false)) <$> visit (an_visit a) mine).

(** One section; what is left of its method runs next.  An exception ends the
    thread. *)
Definition run_section a (sec : section) s : result (t * list section) :=
  match sec with
  | SSchedule c k => Ok (run_schedule a c k s)
  | SInsert c k region => Ok (run_insert a c k region s)
  | SRefuse k => Ok (answer k (WrongLeaderResult false) s, [])
  | SLookup id =>
      let s := set_counters (count_accepted (counters_ s)) s in
      Ok (match tasks_ s !! id with None => (s, []) | Some task => (s, [SAcquire id (tk_command task)]) end)
  | SAcquire id c =>
      r ← NodeLatchManager.Acquire hash_int hash_string (an_now a) id (tc_regionId c) (tc_keys c) (tc_latchMode c) (latches_ s);
      Ok (set_latches r.1 s, [SAcquired id r.2])
  | SAcquired id acquired =>
      Ok (update_task id (tk_with_state (if acquired then TkQueued else TkWaitingLatch)) s,
          if acquired then [SDispatch id] else [])
  | SDispatch id =>
      Ok (if (length (sc_queue s) <? queueCapacity)%nat then (set_queue (sc_queue s ++ [id]) s, [])
          else (set_counters (count_rejected (counters_ s)) s, [SFinish id (WrongLeaderResult false)]))
  | SDispatchAll [] => Ok (s, [])
  | SDispatchAll (id :: ids) =>
      Ok (match tasks_ s !! id with
          | None => (s, [SDispatchAll ids])
          | Some _ => (update_task id (tk_with_state TkQueued) s, [SDispatch id; SDispatchAll ids])
          end)
  | SExecute id => Ok (run_execute id s)
  | SCheck id c => Ok (run_check a id c s)
  | SPrepare id c => Ok (run_prepare a id c s)
  | SStore id c p b started => Ok (run_store a id c p b started s)
  | SPropose id c p b => Ok (run_propose a id c p b s)
  | SProposed id raftIndex => Ok (update_task id (tk_with_proposal raftIndex (an_now a)) s, [])
  | SFinish id r => Ok (run_finish id r s)
  | SRelease id ks r => Ok (run_release a id ks r s)
  | SComplete [] r => Ok (s, [])
  | SComplete (k :: ks) r => Ok (answer k r s, [SComplete ks r])
  | SApplied rid op raftIndex => Ok (run_applied a rid op raftIndex s)
  | SRejected rid op =>
      Ok (match requests_ s !! (rid, ClientId op, RequestId op) with
          | None => (s, [])
          | Some id => (s, [SFinish id (WrongLeaderResult false)])
          end)
  | SDeadline => Ok (run_deadline a s)
  | SRemoved rid => Ok (run_removed a rid s)
  | SRegister rid region => Ok (set_regions (<[rid := region]> (regions_ s)) s, [])
  end.

(** ** The node *)

Record node := MkNode {
  nd_scheduler : t;
  nd_threads : list (bool * list section)
}.

Inductive event :=
| Call (sec : section)
| StartWorker
| Run (i : nat) (a : answers).

(** The public methods. *)
Definition entry (sec : section) : bool :=
  match sec with
  | SSchedule _ _ | SApplied _ _ _ | SRejected _ _ | SDeadline | SRemoved _ | SRegister _ _ => true
  | _ => false
  end.

Definition put_thread (i : nat) (w : bool) (stack : list section) (ts : list (bool * list section)) :=
  match stack with [] => take i ts ++ drop (S i) ts | _ => <[i := (w, stack)]> ts end.

Definition step (e : event) (n : node) : option node :=
  let s := nd_scheduler n in
  match e with
  | Call sec => if entry sec then Some (MkNode s (nd_threads n ++ [(false, [sec])])) else None
  | StartWorker =>
      if (length (filter (λ th, th.1 = true) (nd_threads n)) <? workerThreads)%nat then
        match sc_queue s with
        | id :: rest => Some (MkNode (set_queue rest s) (nd_threads n ++ [(true, [SExecute id])]))
        | [] => None
        end
      else None
  | Run i a =>
      match nd_threads n !! i with
      | Some (w, sec :: rest) =>
          Some (match run_section a sec s with
                | Ok (s', next) => MkNode s' (put_thread i w (next ++ rest) (nd_threads n))
                | Throw _ => MkNode s (put_thread i w [] (nd_threads n))
                end)
      | _ => None
      end
  end.

Fixpoint run_events (es : list event) (n : node) : option node :=
  match es with [] => Some n | e :: es => n' ← step e n; run_events es n' end.

Definition create (latchSlots : nat) : result node :=
  latches ← NodeLatchManager.create latchSlots;
  if bool_decide (workerThreads = 0%nat) || bool_decide (queueCapacity = 0%nat)
  then Throw "bounded thread pool sizes must be positive"
  else if bool_decide (maxPendingTasks = 0%nat) then Throw "scheduler max pending tasks must be positive"
  else Ok (MkNode (MkScheduler ∅ ∅ ∅ latches 0 (MkCounters 0 0 0 0 0 0 0 0 0) [] []) []).

End with_parameters.

End NodeTxnScheduler.
