(* ===== verification/SchedulerSafety.v ===== *)
(** * What the transaction scheduler guarantees

    Whatever way the threads interleave, every completion is called once, never
    twice, and none is lost; a command that is being prepared or proposed holds its
    latches as long as its task is registered, so two of them never work on one key
    of a Region at a time.  A Region that is removed while a command registers
    its latches leaves them taken for ever. *)

From Stdlib Require Import ZArith.
From S2P Require Import Prelude KvEngine MvccTypes Codec Hlc Latch LatchSafety Wire Scheduler.
Import NodeTxnScheduler.
#[local] Open Scope N_scope.

(** ** Where a completion is *)

Definition held (sec : section) : list nat :=
  match sec with
  | SSchedule _ k | SInsert _ k _ | SRefuse k => [k]
  | SRelease _ ks _ | SComplete ks _ => ks
  | _ => []
  end.

Definition in_stack (stack : list section) : list nat := stack ≫= held.
Definition in_threads (ths : list (bool * list section)) : list nat := ths ≫= λ th, in_stack th.2.
Definition in_tasks (ts : gmap N TaskContext) : list nat := map_to_list ts ≫= λ p, owed (tk_responses p.2).

(** The completions of the calls of [Schedule]. *)
Definition issued (es : list event) : list nat :=
  es ≫= λ e, match e with Call (SSchedule _ k) => [k] | _ => [] end.

Lemma in_tasks_insert ts id task :
  ts !! id = None → in_tasks (<[id := task]> ts) ≡ₚ owed (tk_responses task) ++ in_tasks ts.
Proof. intros Hn. unfold in_tasks. by rewrite map_to_list_insert. Qed.

Lemma in_tasks_delete ts id task :
  ts !! id = Some task → in_tasks ts ≡ₚ owed (tk_responses task) ++ in_tasks (delete id ts).
Proof. intros Hs. unfold in_tasks. by rewrite <- (map_to_list_delete ts id task Hs). Qed.

Lemma in_tasks_update ts id task task' :
  ts !! id = Some task → in_tasks (<[id := task']> ts) ≡ₚ owed (tk_responses task') ++ in_tasks (delete id ts).
Proof.
  intros Hs. rewrite <- insert_delete_eq. apply in_tasks_insert. apply lookup_delete_eq.
Qed.

(** Updates that leave the responses alone. *)
Lemma in_tasks_alter ts id f :
  (∀ task, tk_responses (f task) = tk_responses task) → in_tasks (alter f id ts) ≡ₚ in_tasks ts.
Proof.
  intros Hf. destruct (ts !! id) as [task|] eqn:Hs.
  - replace (alter f id ts) with (<[id := f task]> ts).
    + by rewrite (in_tasks_update ts id task), Hf, <- in_tasks_delete.
    + apply map_eq. intros j. destruct (decide (j = id)) as [->|Hne].
      * by rewrite lookup_insert_eq, lookup_alter_eq, Hs.
      * by rewrite lookup_insert_ne, lookup_alter_ne.
  - replace (alter f id ts) with ts; [done|]. apply map_eq. intros j. destruct (decide (j = id)) as [->|Hne].
    + by rewrite lookup_alter_eq, Hs.
    + by rewrite lookup_alter_ne.
Qed.

Lemma in_stack_app a b : in_stack (a ++ b) = in_stack a ++ in_stack b.
Proof. apply bind_app. Qed.

Lemma in_threads_put i w stack ths old :
  ths !! i = Some (w, old) → in_threads (put_thread i w stack ths) ++ in_stack old ≡ₚ in_threads ths ++ in_stack stack.
Proof.
  intros Hi. assert (∀ th, in_threads (take i ths ++ th :: drop (S i) ths) ≡ₚ in_stack th.2 ++ in_threads (take i ths ++ drop (S i) ths)) as Hmid.
  { intros th. unfold in_threads. rewrite !bind_app. cbn [mbind list_bind]. solve_Permutation. }
  assert (in_threads ths ≡ₚ in_stack old ++ in_threads (take i ths ++ drop (S i) ths)) as Hall.
  { rewrite <- (take_drop_middle ths i (w, old)) at 1 by done. apply (Hmid (w, old)). }
  rewrite Hall. unfold put_thread. destruct stack as [|sec stack].
  - simpl. solve_Permutation.
  - rewrite insert_take_drop by (by eapply lookup_lt_Some). rewrite (Hmid (w, sec :: stack)). simpl. solve_Permutation.
Qed.

(** ** Expired responses *)

Lemma owed_expire now rs : owed rs ≡ₚ expired_responses now rs ++ owed (expire now <$> rs).
Proof.
  unfold owed, expired_responses. induction rs as [|[k d []] rs IH]; [done|..]; rewrite fmap_cons.
  - unfold expire at 1. cbn [wr_completed negb andb]. by rewrite !filter_cons_False by (cbn; naive_solver).
  - unfold expire at 1. cbn [wr_completed wr_deadline wr_completion negb andb].
    rewrite (filter_cons_True (λ r, wr_completed r = false) _ rs) by done.
    destruct (Z.leb_spec d now) as [Hle|Hgt].
    + rewrite filter_cons_True by done. rewrite filter_cons_False by done. rewrite !fmap_cons. simpl. by rewrite IH.
    + rewrite filter_cons_False by (cbn; lia). rewrite filter_cons_True by done. rewrite !fmap_cons, IH. simpl. solve_Permutation.
Qed.

(** The order in which tasks are visited does not matter. *)
Lemma visit_perm order ids : NoDup ids → visit order ids ≡ₚ ids.
Proof.
  intros Hnd. apply NoDup_Permutation.
  - unfold visit. apply NoDup_app. split; [apply NoDup_filter, NoDup_remove_dups|]. split; [|by apply NoDup_filter].
    intros x [_ Hx]%list_elem_of_filter [Hx' _]%list_elem_of_filter. rewrite elem_of_remove_dups in Hx. done.
  - done.
  - intros x. unfold visit. rewrite elem_of_app, !list_elem_of_filter, elem_of_remove_dups.
    destruct (decide (x ∈ order)); tauto.
Qed.

Lemma in_tasks_expire now order ts :
  in_tasks ts ≡ₚ
    (visit order (map_to_list ts).*1 ≫= λ id,
       match ts !! id with Some task => expired_responses now (tk_responses task) | None => [] end) ++
    in_tasks ((λ task, tk_with_responses (expire now <$> tk_responses task) task) <$> ts).
Proof.
  rewrite (visit_perm order) by apply NoDup_fst_map_to_list. unfold in_tasks. rewrite map_to_list_fmap.
  assert (∀ l : list (N * TaskContext), (∀ p, p ∈ l → ts !! p.1 = Some p.2) →
    (l ≫= λ p, owed (tk_responses p.2)) ≡ₚ
    (l.*1 ≫= λ id, match ts !! id with Some task => expired_responses now (tk_responses task) | None => [] end) ++
    ((prod_map id (λ task, tk_with_responses (expire now <$> tk_responses task) task) <$> l) ≫= λ p, owed (tk_responses p.2))) as Hl.
  { induction l as [|[j task] l IH]; intros Hts; [done|]. rewrite !fmap_cons. cbn [mbind list_bind fst snd prod_map].
    assert (ts !! j = Some task) as -> by (apply (Hts (j, task)); left). cbn [tk_responses tk_with_responses snd].
    rewrite IH by (intros p Hp; apply Hts; by right). rewrite (owed_expire now (tk_responses task)). solve_Permutation. }
  apply Hl. intros [j task] Hp. by apply elem_of_map_to_list.
Qed.

Lemma Ok_inj {A} (x y : A) : Ok x = Ok y → x = y.
Proof. congruence. Qed.

(** ** One section *)

Section sections.
Context (hash_int : Z → N) (hash_string : string → N).
Context (SerializeWrite : PreparedMvccWrite → string) (SerializeBatch : PreparedMvccBatch → string).
Context (maxPendingTasks queueCapacity workerThreads : nat).
Implicit Types (s : t) (a : answers).

Notation run_section := (run_section hash_int hash_string SerializeWrite SerializeBatch maxPendingTasks queueCapacity).
Notation step := (step hash_int hash_string SerializeWrite SerializeBatch maxPendingTasks queueCapacity workerThreads).
Notation run_events := (run_events hash_int hash_string SerializeWrite SerializeBatch maxPendingTasks queueCapacity workerThreads).
Notation create := (create maxPendingTasks queueCapacity workerThreads).

(** Command identifiers are given out in ascending order. *)
Record numbered (n : N) s : Prop := MkNumbered {
  nb_next : nextCommandId_ s ≤ n;
  nb_tasks : ∀ id task, tasks_ s !! id = Some task → 0 < id ≤ nextCommandId_ s
}.

Definition completions s : list nat := (sc_answered s).*1 ++ in_tasks (tasks_ s).

Lemma fresh_id n s : numbered n s → fits64 (n + 1) → nextCommandId_ s +₆₄ 1 = nextCommandId_ s + 1 ∧ tasks_ s !! (nextCommandId_ s + 1) = None.
Proof using Type.
  intros [Hn Ht] Hf. split.
  - unfold add64, wrap64. apply N.mod_small. unfold fits64 in Hf. lia.
  - destruct (tasks_ s !! (nextCommandId_ s + 1)) as [task|] eqn:Hs; [|done]. apply Ht in Hs. lia.
Qed.

(** What happens to the tasks. *)
Lemma run_insert_tasks n a c k region s :
  numbered n s → fits64 (n + 1) →
  let '(s', next) := run_insert maxPendingTasks a c k region s in
  sc_answered s' = sc_answered s ∧
  ((tasks_ s' = tasks_ s ∧ next = [SRefuse k] ∧ nextCommandId_ s' = nextCommandId_ s) ∨
   (∃ id task, tasks_ s !! id = Some task ∧ next = [] ∧ nextCommandId_ s' = nextCommandId_ s ∧
      tasks_ s' = <[id := tk_with_responses (tk_responses task ++ [MkWaiting k (tc_deadline c) false]) task]> (tasks_ s)) ∨
   (tasks_ s' = <[nextCommandId_ s + 1 := new_task (an_now a) (nextCommandId_ s + 1) c k region]> (tasks_ s) ∧
    next = [SLookup (nextCommandId_ s + 1)] ∧ nextCommandId_ s' = nextCommandId_ s + 1)).
Proof using Type.
  intros Hnb Hf. unfold run_insert. destruct (fresh_id n s Hnb Hf) as [Hid _].
  destruct (requests_ s !! MakeRequestKey c) as [id|].
  - destruct (tasks_ s !! id) as [task|] eqn:Ht.
    + split; [done|]. right; left. exists id, task. split; [done|]. split; [done|]. split; [done|]. simpl.
      apply map_eq. intros j. destruct (decide (j = id)) as [->|Hne].
      * by rewrite lookup_alter_eq, lookup_insert_eq, Ht.
      * by rewrite lookup_alter_ne, lookup_insert_ne.
    + simpl. destruct (_ <=? _)%nat; (split; [done|]); [by left|right; right]. simpl. by rewrite Hid.
  - destruct (_ <=? _)%nat; (split; [done|]); [by left|right; right]. simpl. by rewrite Hid.
Qed.

Lemma owed_app rs rs' : owed (rs ++ rs') = owed rs ++ owed rs'.
Proof using Type. unfold owed. by rewrite filter_app, fmap_app. Qed.

Lemma removed_owed s id task :
  tasks_ s !! id = Some task →
  (sc_answered s).*1 ++ in_tasks (delete id (tasks_ s)) ++ owed (tk_responses task) ++ [] ≡ₚ completions s ++ [].
Proof using Type. intros Ht. unfold completions. rewrite (in_tasks_delete _ _ _ Ht). solve_Permutation. Qed.

Lemma section_conserves n a sec s s' next :
  numbered n s → fits64 (n + 1) → run_section a sec s = Ok (s', next) →
  completions s' ++ in_stack next ≡ₚ completions s ++ held sec.
Proof using Type.
  intros Hnb Hf. unfold completions. destruct sec as [c k|c k region|k|id|id c|id acq|id|ids|id|id c|id c|id c p b st|id c p b|id idx
    |id r|id ks r|ks r|rid op idx|rid op| |rid|rid region]; cbn [NodeTxnScheduler.run_section held].
  - unfold run_schedule. destruct (regions_ s !! _); [destruct (_ && _)|]; intros [= <- <-]; simpl; done.
  - intros E%Ok_inj. pose proof (run_insert_tasks n a c k region s Hnb Hf) as H. rewrite E in H.
    destruct H as [-> [(-> & -> & _)|[(id & task & Ht & -> & _ & ->)|(-> & -> & _)]]].
    + done.
    + rewrite (in_tasks_update _ _ _ _ Ht), (in_tasks_delete _ _ _ Ht). cbn [tk_responses tk_with_responses]. rewrite owed_app.
      change (owed [MkWaiting k (tc_deadline c) false]) with [k]. cbn [in_stack mbind list_bind]. solve_Permutation.
    + rewrite in_tasks_insert by (by eapply fresh_id).
      change (owed (tk_responses (new_task _ _ _ _ _))) with [k]. cbn [in_stack mbind list_bind held]. solve_Permutation.
  - intros [= <- <-]. simpl. rewrite fmap_app. simpl. solve_Permutation.
  - simpl. destruct (tasks_ s !! id); intros [= <- <-]; done.
  - destruct (NodeLatchManager.Acquire _ _ _ _ _ _ _ _) as [[l ok]|w]; [|done]. intros [= <- <-]. done.
  - intros [= <- <-]. simpl. rewrite in_tasks_alter by done. by destruct acq.
  - destruct (_ <? _)%nat; intros [= <- <-]; done.
  - destruct ids as [|id ids]; [by intros [= <- <-]|]. intros [= E]. revert E.
    destruct (tasks_ s !! id); intros [= <- <-]; simpl; [|done]. by rewrite in_tasks_alter.
  - unfold run_execute. destruct (tasks_ s !! id); intros [= <- <-]; simpl; [|done]. by rewrite in_tasks_alter.
  - unfold run_check. repeat case_match; intros [= <- <-]; done.
  - unfold run_prepare. repeat case_match; intros [= <- <-]; done.
  - intros E%Ok_inj. assert (sc_answered s' = sc_answered s ∧ tasks_ s' = tasks_ (update_task id (tk_with_prepared p b) s) ∧ in_stack next = []) as (-> & -> & ->).
    { revert E. unfold run_store. cbv zeta. repeat case_match; intros [= <- <-]; done. }
    simpl. by rewrite in_tasks_alter.
  - unfold run_propose. repeat case_match; intros [= <- <-]; done.
  - intros [= <- <-]. simpl. by rewrite in_tasks_alter.
  - unfold run_finish. destruct (tasks_ s !! id) as [task|] eqn:Ht; intros [= <- <-]; simpl; [|done].
    rewrite (in_tasks_delete _ _ _ Ht). solve_Permutation.
  - unfold run_release. destruct (NodeLatchManager.Release _ _ _ _ _). intros [= <- <-]. simpl. solve_Permutation.
  - destruct ks as [|k ks]; intros [= <- <-]; simpl; [done|]. rewrite fmap_app. simpl. solve_Permutation.
  - unfold run_applied. destruct (requests_ s !! _) as [id|]; [|by intros [= <- <-]].
    destruct (tasks_ s !! id) as [task|] eqn:Ht; intros [= <- <-]; simpl; [|done].
    rewrite (in_tasks_delete _ _ _ Ht). solve_Permutation.
  - destruct (requests_ s !! _); intros [= <- <-]; done.
  - intros [= <- <-]. cbn [tasks_ sc_answered set_tasks set_counters in_stack mbind list_bind held].
    rewrite (in_tasks_expire (an_now a) (an_visit a) (tasks_ s)). solve_Permutation.
  - intros [= <- <-]. simpl. assert (∀ l, in_stack ((λ id, SFinish id (WrongLeaderResult false)) <$> l) = []) as ->; [|done].
    induction l; done.
  - intros [= <- <-]. done.
Qed.

(** What a section does to the table of tasks. *)
Record task_moves s s' : Prop := MkTaskMoves {
  tm_next : nextCommandId_ s ≤ nextCommandId_ s' ≤ nextCommandId_ s + 1;
  tm_old : ∀ id task', tasks_ s' !! id = Some task' → id ≠ nextCommandId_ s + 1 →
    ∃ task, tasks_ s !! id = Some task ∧ tk_command task' = tk_command task;
  tm_new : ∀ task', tasks_ s' !! (nextCommandId_ s + 1) = Some task' → nextCommandId_ s' = nextCommandId_ s + 1
}.

Lemma moves_within n s s' :
  numbered n s → nextCommandId_ s' = nextCommandId_ s →
  (∀ id task', tasks_ s' !! id = Some task' → ∃ task, tasks_ s !! id = Some task ∧ tk_command task' = tk_command task) →
  task_moves s s'.
Proof using Type.
  intros Hnb Hn Ht. split; [lia|intros id task' H _; by apply Ht|].
  intros task' (task & H & _)%Ht. apply (nb_tasks _ _ Hnb) in H. lia.
Qed.

Lemma moves_alter n s s' id f :
  numbered n s → nextCommandId_ s' = nextCommandId_ s → tasks_ s' = alter f id (tasks_ s) →
  (∀ task, tk_command (f task) = tk_command task) → task_moves s s'.
Proof using Type.
  intros Hnb Hn Ht Hf. apply (moves_within n); [done|done|]. intros j task'. rewrite Ht.
  destruct (decide (j = id)) as [->|Hne].
  - rewrite lookup_alter_eq, fmap_Some. intros (task & ? & ->). eauto.
  - rewrite lookup_alter_ne by done. eauto.
Qed.

Lemma moves_delete n s s' id :
  numbered n s → nextCommandId_ s' = nextCommandId_ s → tasks_ s' = delete id (tasks_ s) → task_moves s s'.
Proof using Type.
  intros Hnb Hn Ht. apply (moves_within n); [done|done|]. intros j task'. rewrite Ht. intros [_ ?]%lookup_delete_Some. eauto.
Qed.

Lemma moves_same n s s' :
  numbered n s → nextCommandId_ s' = nextCommandId_ s → tasks_ s' = tasks_ s → task_moves s s'.
Proof using Type. intros Hnb Hn Ht. apply (moves_within n); [done|done|]. intros j task'. rewrite Ht. eauto. Qed.

Lemma section_moves n a sec s s' next :
  numbered n s → fits64 (n + 1) → run_section a sec s = Ok (s', next) → task_moves s s'.
Proof using Type.
  intros Hnb Hf. destruct sec as [c k|c k region|k|id|id c|id acq|id|ids|id|id c|id c|id c p b st|id c p b|id idx
    |id r|id ks r|ks r|rid op idx|rid op| |rid|rid region]; cbn [NodeTxnScheduler.run_section].
  - unfold run_schedule. destruct (regions_ s !! _); [destruct (_ && _)|]; intros [= <- <-]; by apply (moves_same n).
  - intros E%Ok_inj. pose proof (run_insert_tasks n a c k region s Hnb Hf) as H. rewrite E in H.
    destruct H as [_ [(Ht & _ & Hn)|[(id & task & Hs & _ & Hn & Ht)|(Ht & _ & Hn)]]].
    + by apply (moves_same n).
    + apply (moves_within n); [done|done|]. intros j task'. rewrite Ht.
      intros [[<- <-]|[_ ?]]%lookup_insert_Some; eauto.
    + split; [lia| |done]. intros id task'. rewrite Ht. intros [[<- <-]|[_ ?]]%lookup_insert_Some; [done|eauto].
  - intros [= <- <-]. by apply (moves_same n).
  - simpl. destruct (tasks_ s !! id); intros [= <- <-]; by apply (moves_same n).
  - destruct (NodeLatchManager.Acquire _ _ _ _ _ _ _ _) as [[l ok]|w]; [|done]. intros [= <- <-]. by apply (moves_same n).
  - intros [= <- <-]. by eapply (moves_alter n).
  - destruct (_ <? _)%nat; intros [= <- <-]; by apply (moves_same n).
  - destruct ids as [|id ids]; [intros [= <- <-]; by apply (moves_same n)|]. simpl.
    destruct (tasks_ s !! id); intros [= <- <-]; [by eapply (moves_alter n)|by apply (moves_same n)].
  - unfold run_execute. destruct (tasks_ s !! id); intros [= <- <-]; [by eapply (moves_alter n)|by apply (moves_same n)].
  - unfold run_check. repeat case_match; intros [= <- <-]; by apply (moves_same n).
  - unfold run_prepare. repeat case_match; intros [= <- <-]; by apply (moves_same n).
  - unfold run_store. cbv zeta. repeat case_match; intros [= <- <-]; by eapply (moves_alter n _ _ id (tk_with_prepared p b)).
  - unfold run_propose. repeat case_match; intros [= <- <-]; by apply (moves_same n).
  - intros [= <- <-]. by eapply (moves_alter n).
  - unfold run_finish. destruct (tasks_ s !! id) as [task|]; intros [= <- <-]; [by eapply (moves_delete n)|by apply (moves_same n)].
  - unfold run_release. destruct (NodeLatchManager.Release _ _ _ _ _). intros [= <- <-]. by apply (moves_same n).
  - destruct ks as [|k ks]; intros [= <- <-]; by apply (moves_same n).
  - unfold run_applied. destruct (requests_ s !! _) as [id|]; [|intros [= <- <-]; by apply (moves_same n)].
    destruct (tasks_ s !! id) as [task|]; intros [= <- <-]; [by eapply (moves_delete n)|by apply (moves_same n)].
  - destruct (requests_ s !! _); intros [= <- <-]; by apply (moves_same n).
  - intros [= <- <-]. apply (moves_within n); [done|done|]. intros j task'. simpl. rewrite lookup_fmap, fmap_Some.
    intros (task & ? & ->). eauto.
  - intros [= <- <-]. by apply (moves_same n).
  - intros [= <- <-]. by apply (moves_same n).
Qed.

Lemma section_numbered n s s' : numbered n s → task_moves s s' → numbered (n + 1) s'.
Proof using Type.
  intros [Hn Ht] [M1 M2 M3]. split; [lia|]. intros id task' H. destruct (decide (id = nextCommandId_ s + 1)) as [->|Hne].
  - rewrite (M3 _ H). lia.
  - destruct (M2 _ _ H Hne) as (task & Hs & _). specialize (Ht _ _ Hs). lia.
Qed.

(** ** The node *)

(** [Schedule] is not called from within another method. *)
Definition opening (sec : section) : bool :=
  match sec with SSchedule _ _ | SInsert _ _ _ | SLookup _ | SAcquire _ _ => true | _ => false end.

Definition tidy (stack : list section) : Prop :=
  (∃ sec, stack = [sec]) ∨ Forall (λ sec, opening sec = false) stack.

Lemma section_tidy a sec s s' next :
  run_section a sec s = Ok (s', next) →
  if opening sec then (length next ≤ 1)%nat else Forall (λ sec, opening sec = false) next.
Proof using Type.
  destruct sec as [c k|c k region|k|id|id c|id acq|id|ids|id|id c|id c|id c p b st|id c p b|id idx
    |id r|id ks r|ks r|rid op idx|rid op| |rid|rid region]; cbn [NodeTxnScheduler.run_section opening].
  2: { unfold run_insert. cbv zeta. repeat case_match; intros [= <- <-]; simpl; lia. }
  4: { destruct (NodeLatchManager.Acquire _ _ _ _ _ _ _ _) as [[l ok]|w]; [|done]. intros [= <- <-]. simpl. lia. }
  19: { intros [= <- <-]. apply Forall_fmap, Forall_true. done. }
  14: { unfold run_release. destruct (NodeLatchManager.Release _ _ _ _ _). intros [= <- <-]. by repeat constructor. }
  1: unfold run_schedule. 7: unfold run_execute. 8: unfold run_check. 9: unfold run_prepare. 10: unfold run_store.
  11: unfold run_propose. 13: unfold run_finish. 15: unfold run_applied.
  all: cbv zeta; repeat case_match; intros [= <- <-]; simpl; try lia; by repeat constructor.
Qed.

Lemma next_tidy a sec rest s s' next :
  run_section a sec s = Ok (s', next) → tidy (sec :: rest) → tidy (next ++ rest).
Proof using Type.
  intros Hn%section_tidy [[sec' [= -> ->]]|[Ho Hr]%Forall_cons].
  - rewrite app_nil_r. destruct (opening sec'); [|by right]. destruct next as [|x [|y l]]; simpl in Hn; [by right|by left; exists x|lia].
  - rewrite Ho in Hn. right. by apply Forall_app.
Qed.

Lemma throw_tidy a sec rest s w :
  run_section a sec s = Throw w → tidy (sec :: rest) → in_stack (sec :: rest) = [].
Proof using Type.
  intros Ht. assert (∃ id c, sec = SAcquire id c) as (id & c & ->).
  { destruct sec; cbn [NodeTxnScheduler.run_section] in Ht; try discriminate Ht; [eauto| |];
      case_match; discriminate Ht. }
  by intros [[sec' [= <- ->]]|[? _]%Forall_cons].
Qed.

Lemma put_thread_elem i w stack ths th :
  th ∈ put_thread i w stack ths → th ∈ ths ∨ th = (w, stack).
Proof using Type.
  unfold put_thread. destruct stack as [|sec stack].
  - rewrite elem_of_app. intros [H|H]; left; [by eapply elem_of_take in H as (? & H & _); eapply list_elem_of_lookup_2|].
    rewrite <- (take_drop (S i) ths). apply elem_of_app. by right.
  - intros [j Hj]%list_elem_of_lookup. apply list_lookup_insert_Some in Hj as [(_ & <- & _)|[_ Hj]]; [by right|].
    left. by eapply list_elem_of_lookup_2.
Qed.

Record accounted (n : N) (ks : list nat) (nd : node) : Prop := MkAccounted {
  ac_numbered : numbered n (nd_scheduler nd);
  ac_tidy : ∀ th, th ∈ nd_threads nd → tidy th.2;
  ac_all : completions (nd_scheduler nd) ++ in_threads (nd_threads nd) ≡ₚ ks
}.

Lemma in_threads_snoc ths w stack : in_threads (ths ++ [(w, stack)]) = in_threads ths ++ in_stack stack.
Proof using Type. unfold in_threads. rewrite bind_app. simpl. by rewrite app_nil_r. Qed.

Lemma put_conserves i w sec rest next ths cs cs' ks :
  ths !! i = Some (w, sec :: rest) → cs ++ in_threads ths ≡ₚ ks → cs' ++ in_stack next ≡ₚ cs ++ held sec →
  cs' ++ in_threads (put_thread i w (next ++ rest) ths) ≡ₚ ks.
Proof using Type.
  intros Hi Hall Hc. pose proof (in_threads_put i w (next ++ rest) _ _ Hi) as Ht.
  rewrite in_stack_app in Ht. change (in_stack (sec :: rest)) with (held sec ++ in_stack rest) in Ht.
  apply (Permutation_app_inv_r (held sec ++ in_stack rest)). rewrite <- app_assoc, Ht, <- Hall.
  transitivity ((cs' ++ in_stack next) ++ in_threads ths ++ in_stack rest); [solve_Permutation|]. rewrite Hc. solve_Permutation.
Qed.

Lemma step_accounted n e nd nd' ks :
  accounted n ks nd → fits64 (n + 1) → step e nd = Some nd' → accounted (n + 1) (ks ++ issued [e]) nd'.
Proof using Type.
  intros [Hnb Htd Hall] Hf. assert (numbered (n + 1) (nd_scheduler nd)) as Hnb1 by (destruct Hnb; split; [lia|done]).
  assert (∀ w sec, ∀ th, th ∈ nd_threads nd ++ [(w, [sec])] → tidy th.2) as Hsnoc.
  { intros w sec th [H| ->%list_elem_of_singleton]%elem_of_app; [auto|]. left. by exists sec. }
  destruct e as [sec| |i a]; cbn [NodeTxnScheduler.step].
  - destruct (entry sec) eqn:He; [|done]. intros [= <-]. split; [done|apply Hsnoc|]. simpl. rewrite in_threads_snoc, <- Hall.
    assert (in_stack [sec] = issued [Call sec]) as ->; [by destruct sec|]. solve_Permutation.
  - destruct (_ <? _)%nat; [|done]. destruct (sc_queue (nd_scheduler nd)) as [|id q]; [done|]. intros [= <-].
    split; [by destruct Hnb1; split|apply Hsnoc|]. cbn [nd_threads nd_scheduler].
    rewrite in_threads_snoc. change (in_stack [SExecute id]) with (@nil nat). change (issued [StartWorker]) with (@nil nat).
    by rewrite !app_nil_r.
  - destruct (nd_threads nd !! i) as [[w [|sec rest]]|] eqn:Hi; [done| |done]. intros [= <-]. rewrite app_nil_r.
    assert (tidy (sec :: rest)) as Hti by (apply (Htd (w, sec :: rest)); by eapply list_elem_of_lookup_2).
    destruct (run_section a sec (nd_scheduler nd)) as [[s' next]|ex] eqn:Hr.
    + split; [eapply section_numbered; [done|exact (section_moves n a sec _ _ _ Hnb Hf Hr)]| |].
      * intros th [H| ->]%put_thread_elem; [auto|]. by eapply next_tidy.
      * eapply put_conserves; [done|done|]. exact (section_conserves n a sec _ _ _ Hnb Hf Hr).
    + split; [done| |].
      * intros th [H| ->]%(put_thread_elem i w []); [auto|]. by right.
      * pose proof (in_threads_put i w [] _ _ Hi) as Ht. rewrite (throw_tidy _ _ _ _ _ Hr Hti), !app_nil_r in Ht.
        unfold put_thread in Ht. cbn [nd_threads nd_scheduler]. by rewrite Ht.
Qed.

Lemma run_accounted n es nd nd' ks :
  accounted n ks nd → fits64 (n + N.of_nat (length es)) → run_events es nd = Some nd' →
  accounted (n + N.of_nat (length es)) (ks ++ issued es) nd'.
Proof using Type.
  revert n nd ks. induction es as [|e es IH]; intros n nd ks Hac Hf; cbn [NodeTxnScheduler.run_events].
  - intros [= <-]. rewrite N.add_0_r. by rewrite app_nil_r.
  - cbn [length] in *. destruct (step e nd) as [nd1|] eqn:Hs; [|done]. cbn [mbind option_bind]. intros Hr.
    replace (n + N.of_nat (S (length es))) with (n + 1 + N.of_nat (length es)) by lia.
    replace (ks ++ issued (e :: es)) with ((ks ++ issued [e]) ++ issued es) by (unfold issued; simpl; by rewrite app_nil_r, app_assoc).
    apply (IH _ nd1); [|unfold fits64 in *; lia|done]. eapply step_accounted; [done|unfold fits64 in *; lia|done].
Qed.

Lemma create_accounted slots nd : create slots = Ok nd → accounted 0 [] nd.
Proof using Type.
  unfold NodeTxnScheduler.create. destruct (NodeLatchManager.create slots); [|done]. simpl. repeat case_match; try done.
  intros [= <-]. split; [split; [done|]|by intros th []%not_elem_of_nil|done]. intros id task. simpl. by rewrite lookup_empty.
Qed.

(** [C17] Every completion is called exactly once: after any interleaving of
    calls, worker threads and deadlines, the completions that have been called,
    those that a running method is about to call and those that a registered task
    still owes are together the completions passed to [Schedule], each counted as
    often as it was passed.  None is called twice, and none is forgotten. *)
Theorem completions_conserved slots es nd0 nd :
  create slots = Ok nd0 → run_events es nd0 = Some nd → fits64 (N.of_nat (length es)) →
  (sc_answered (nd_scheduler nd)).*1 ++ in_tasks (tasks_ (nd_scheduler nd)) ++ in_threads (nd_threads nd) ≡ₚ issued es.
Proof using Type.
  intros H0%create_accounted Hr Hf. pose proof (run_accounted 0 es nd0 nd [] H0 Hf Hr) as [_ _ Hall].
  unfold completions in Hall. by rewrite <- app_assoc in Hall.
Qed.

(** ** Work under latches *)

Definition mentioned s (id : N) : Prop := 0 < id ≤ nextCommandId_ s.
Definition registered s (id : N) : Prop := is_Some (tasks_ s !! id).
Definition latched s (id : N) : Prop := registered s id → NodeLatchManager.Holds id (latches_ s) = true.
Definition runs s (id : N) (c : TxnCommand) : Prop := ∀ task, tasks_ s !! id = Some task → tk_command task = c.

(** What a section relies on. *)
Definition sec_ok s (sec : section) : Prop :=
  match sec with
  | SLookup id | SFinish id _ => mentioned s id
  | SAcquire id c => mentioned s id ∧ runs s id c
  | SAcquired id acquired => mentioned s id ∧ (acquired = true → latched s id)
  | SDispatch id | SExecute id | SProposed id _ => mentioned s id ∧ latched s id
  | SDispatchAll ids => ∀ id, id ∈ ids → mentioned s id ∧ latched s id
  | SCheck id c | SPrepare id c | SStore id c _ _ _ | SPropose id c _ _ => mentioned s id ∧ latched s id ∧ runs s id c
  | SRelease id _ _ => mentioned s id ∧ ¬ registered s id
  | _ => True
  end.

(** A latch request is that of its task. *)
Definition request_for (c : TxnCommand) (q : NodeLatchManager.LockRequest) : Prop :=
  NodeLatchManager.lr_mode q = tc_latchMode c ∧ NodeLatchManager.lr_regionId q = tc_regionId c ∧
  (tc_latchMode c = Keys → ∀ key, key ∈ tc_keys c → NodeLatchManager.MkResource (tc_regionId c) key ∈ NodeLatchManager.lr_resources q).

Record sched_ok s : Prop := MkSchedOk {
  so_latches : LatchSafety.sound hash_int hash_string (latches_ s);
  so_requests : ∀ key id, requests_ s !! key = Some id → mentioned s id;
  so_tasks : ∀ id task, tasks_ s !! id = Some task → mentioned s id;
  so_queue : ∀ id, id ∈ sc_queue s → mentioned s id ∧ latched s id;
  so_proposed : ∀ id task, tasks_ s !! id = Some task → tk_proposed task = true → latched s id;
  so_locks : ∀ id q, NodeLatchManager.requests_ (latches_ s) !! id = Some q →
    mentioned s id ∧ ∀ task, tasks_ s !! id = Some task → request_for (tk_command task) q
}.

(** What the other threads see of a section. *)
Record calm s s' : Prop := MkCalm {
  ca_next : nextCommandId_ s ≤ nextCommandId_ s';
  ca_tasks : ∀ id task', mentioned s id → tasks_ s' !! id = Some task' →
    ∃ task, tasks_ s !! id = Some task ∧ tk_command task' = tk_command task;
  ca_holds : ∀ id, mentioned s id → registered s' id → NodeLatchManager.Holds id (latches_ s) = true →
    NodeLatchManager.Holds id (latches_ s') = true
}.

Lemma calm_mentioned s s' id : calm s s' → mentioned s id → mentioned s' id.
Proof using Type. intros [H _ _]. unfold mentioned. lia. Qed.

Lemma calm_registered s s' id : calm s s' → mentioned s id → registered s' id → registered s id.
Proof using Type. intros Hc Hm [task' H]. destruct (ca_tasks _ _ Hc id task' Hm H) as (task & ? & _). by exists task. Qed.

Lemma calm_latched s s' id : calm s s' → mentioned s id → latched s id → latched s' id.
Proof using Type. intros Hc Hm Hl Hr. apply (ca_holds _ _ Hc); [done|done|]. by apply Hl, (calm_registered s s'). Qed.

Lemma calm_runs s s' id c : calm s s' → mentioned s id → runs s id c → runs s' id c.
Proof using Type. intros Hc Hm Hr task' H. destruct (ca_tasks _ _ Hc id task' Hm H) as (task & Ht & ->). by apply Hr. Qed.

Lemma calm_sec s s' sec : calm s s' → sec_ok s sec → sec_ok s' sec.
Proof using Type.
  intros Hc. pose proof (λ id, calm_mentioned s s' id Hc) as M. pose proof (λ id, calm_latched s s' id Hc) as L.
  pose proof (λ id c, calm_runs s s' id c Hc) as R.
  destruct sec; simpl; try done; auto.
  all: try (intros (? & ? & ?); auto; fail). all: try (intros (? & ?); auto; fail).
  - intros H id Hid. destruct (H id Hid). auto.
  - intros [? H]. split; [auto|]. intros Hreg. by apply H, (calm_registered s s').
Qed.

(** Most sections leave the latches alone and start nothing. *)
Record quiet s s' : Prop := MkQuiet {
  qu_latches : latches_ s' = latches_ s;
  qu_next : nextCommandId_ s' = nextCommandId_ s;
  qu_requests : ∀ key id, requests_ s' !! key = Some id → requests_ s !! key = Some id;
  qu_queue : ∀ id, id ∈ sc_queue s' → id ∈ sc_queue s ∨ mentioned s id ∧ latched s id;
  qu_tasks : ∀ id task', tasks_ s' !! id = Some task' →
    ∃ task, tasks_ s !! id = Some task ∧ tk_command task' = tk_command task ∧
      (tk_proposed task' = true → tk_proposed task = true ∨ latched s id)
}.

Lemma quiet_calm s s' : quiet s s' → calm s s'.
Proof using Type.
  intros [Q1 Q2 Q3 Q4 Q5]. split; [lia| |by rewrite Q1]. intros id task' _ H. destruct (Q5 _ _ H) as (task & ? & ? & _). eauto.
Qed.

Lemma quiet_ok s s' : quiet s s' → sched_ok s → sched_ok s'.
Proof using Type.
  intros Hq [S1 S2 S3 S4 S5 S6]. pose proof (quiet_calm _ _ Hq) as Hc. destruct Hq as [Q1 Q2 Q3 Q4 Q5].
  pose proof (λ id, calm_mentioned s s' id Hc) as M. pose proof (λ id, calm_latched s s' id Hc) as L. split.
  - by rewrite Q1.
  - intros key id H. eauto.
  - intros id task' H. destruct (Q5 _ _ H) as (task & ? & _). eauto.
  - intros id H. destruct (Q4 _ H) as [H'|[? ?]]; [destruct (S4 _ H')|]; auto.
  - intros id task' H Hp. destruct (Q5 _ _ H) as (task & Ht & _ & Hpr). apply L; [eauto|]. destruct (Hpr Hp); eauto.
  - rewrite Q1. intros id q H. destruct (S6 _ _ H) as [? Hf]. split; [auto|]. intros task' H'.
    destruct (Q5 _ _ H') as (task & Ht & -> & _). auto.
Qed.

Lemma quiet_same s s' :
  latches_ s' = latches_ s → nextCommandId_ s' = nextCommandId_ s → requests_ s' = requests_ s → sc_queue s' = sc_queue s →
  tasks_ s' = tasks_ s → quiet s s'.
Proof using Type. intros E1 E2 E3 E4 E5. split; [done|done|by rewrite E3|rewrite E4; auto|]. rewrite E5. eauto. Qed.

Lemma quiet_alter s s' id f :
  latches_ s' = latches_ s → nextCommandId_ s' = nextCommandId_ s → requests_ s' = requests_ s → sc_queue s' = sc_queue s →
  tasks_ s' = alter f id (tasks_ s) →
  (∀ task, tk_command (f task) = tk_command task ∧ (tk_proposed (f task) = tk_proposed task ∨ latched s id)) → quiet s s'.
Proof using Type.
  intros E1 E2 E3 E4 E5 Hf. split; [done|done|by rewrite E3|rewrite E4; auto|]. rewrite E5. intros j task'.
  destruct (decide (j = id)) as [->|Hne].
  - rewrite lookup_alter_eq, fmap_Some. intros (task & Ht & ->). exists task. destruct (Hf task) as [Hcmd [Hp|Hl]]; [|auto].
    rewrite Hp. auto.
  - rewrite lookup_alter_ne by done. eauto.
Qed.

Lemma quiet_delete s s' id key :
  latches_ s' = latches_ s → nextCommandId_ s' = nextCommandId_ s → requests_ s' = delete key (requests_ s) →
  sc_queue s' = sc_queue s → tasks_ s' = delete id (tasks_ s) → quiet s s'.
Proof using Type.
  intros E1 E2 E3 E4 E5. split; [done|done| |rewrite E4; auto|].
  - intros k j. rewrite E3. by intros [_ ?]%lookup_delete_Some.
  - intros j task'. rewrite E5. intros [_ ?]%lookup_delete_Some. eauto.
Qed.

(** A section keeps the invariant and leaves sections that can rely on it. *)
Definition keeps s (out : t * list section) : Prop :=
  sched_ok out.1 ∧ calm s out.1 ∧ ∀ sec, sec ∈ out.2 → sec_ok out.1 sec.

Lemma keeps_quiet s s' next :
  sched_ok s → quiet s s' → (∀ sec, sec ∈ next → sec_ok s sec) → keeps s (s', next).
Proof using Type.
  intros Hok Hq Hn. pose proof (quiet_calm _ _ Hq) as Hc. split; [by eapply quiet_ok|]. split; [done|].
  intros sec Hsec. apply (calm_sec s); [done|]. by apply Hn.
Qed.

Lemma fresh_keeps s s0 key task :
  quiet s s0 → sched_ok s → tasks_ s0 = tasks_ s → tk_proposed task = false →
  let id := nextCommandId_ s + 1 in
  keeps s (set_next id (set_requests (<[key := id]> (requests_ s0)) (set_tasks (<[id := task]> (tasks_ s0)) s0)), [SLookup id]).
Proof using Type.
  intros Hq Hok E2 Hp id. set (s' := set_next _ _). pose proof (quiet_ok _ _ Hq Hok) as [S1 S2 S3 S4 S5 S6].
  destruct Hq as [E3 E1 _ _ _]. assert (mentioned s' id) as Hnew by (unfold mentioned; simpl; lia).
  assert (∀ j, mentioned s0 j → mentioned s' j ∧ j ≠ id) as M by (intros j; unfold mentioned; simpl; lia).
  assert (∀ j task', tasks_ s' !! j = Some task' → j = id ∧ tk_proposed task' = false ∨ tasks_ s0 !! j = Some task') as Ht.
  { intros j task'. simpl. intros [[<- <-]|[_ ?]]%lookup_insert_Some; auto. }
  assert (∀ j, mentioned s0 j → latched s0 j → latched s' j) as L.
  { intros j Hm Hl [task' H]. apply Hl. destruct (Ht _ _ H) as [[? _]|?]; [by apply M in Hm as [_ ?]|by exists task']. }
  split; [split|split; [split|]]; cbn [fst snd].
  - done.
  - intros k j. simpl. intros [[_ <-]|[_ H]]%lookup_insert_Some; [done|]. by eapply M, S2.
  - intros j task' H. destruct (Ht _ _ H) as [[-> _]|H']; [done|]. by eapply M, S3.
  - intros j H. destruct (S4 j H) as [Hm ?]. split; [by apply M|auto].
  - intros j task' H Hpr. destruct (Ht _ _ H) as [[_ ?]|H']; [congruence|]. eauto.
  - intros j q H. destruct (S6 _ _ H) as [Hm Hr]. split; [by apply M|]. intros task' H'. apply Hr.
    destruct (Ht _ _ H') as [[? _]|?]; [by apply M in Hm as [_ ?]|done].
  - simpl. lia.
  - intros j task' Hm H. destruct (Ht _ _ H) as [[-> _]|?]; [unfold mentioned in Hm; lia|]. rewrite <- E2. eauto.
  - intros j _ _. simpl. by rewrite E3.
  - by intros sec ->%list_elem_of_singleton.
Qed.

Lemma insert_keeps n a c k region s :
  numbered n s → fits64 (n + 1) → sched_ok s → keeps s (run_insert maxPendingTasks a c k region s).
Proof using Type.
  intros Hnb Hf Hok. destruct (fresh_id n s Hnb Hf) as [Hid _].
  assert (∀ s0, quiet s s0 → keeps s (set_counters (count_rejected (counters_ s0)) s0, [SRefuse k])) as Hrefuse.
  { intros s0 [Q1 Q2 Q3 Q4 Q5]. apply keeps_quiet; [done|by split|]. by intros sec ->%list_elem_of_singleton. }
  unfold run_insert. destruct (requests_ s !! MakeRequestKey c) as [id|] eqn:Hr.
  - destruct (tasks_ s !! id) as [task|] eqn:Ht.
    + apply keeps_quiet; [done| |by intros sec []%not_elem_of_nil].
      apply (quiet_alter _ _ id (tk_with_responses (tk_responses task ++ [MkWaiting k (tc_deadline c) false]))); auto.
    + assert (quiet s (set_requests (delete (MakeRequestKey c) (requests_ s)) s)) as Hq.
      { split; [done|done| |by left|eauto]. intros key j. simpl. by intros [_ ?]%lookup_delete_Some. }
      cbv zeta. destruct (_ <=? _)%nat; [by apply (Hrefuse _ Hq)|]. change (nextCommandId_ (set_requests _ s)) with (nextCommandId_ s).
      rewrite Hid. by apply fresh_keeps.
  - assert (quiet s s) as Hq by by apply quiet_same. cbv zeta. destruct (_ <=? _)%nat; [by apply (Hrefuse _ Hq)|].
    rewrite Hid. by apply fresh_keeps.
Qed.

Lemma acquire_keeps a id c s latches ok :
  sched_ok s → sec_ok s (SAcquire id c) →
  NodeLatchManager.Acquire hash_int hash_string (an_now a) id (tc_regionId c) (tc_keys c) (tc_latchMode c) (latches_ s) = Ok (latches, ok) →
  keeps s (set_latches latches s, [SAcquired id ok]).
Proof using Type.
  intros [S1 S2 S3 S4 S5 S6] [Hm Hruns] Hacq.
  destruct (LatchSafety.Acquire_registered _ _ _ _ _ _ _ _ _ _ S1 Hacq) as (q & E & Hn & Q1 & Q2 & Q3 & Q4).
  assert (∀ j, NodeLatchManager.Holds j (latches_ s) = true → NodeLatchManager.Holds j latches = true) as Hh.
  { intros j. unfold NodeLatchManager.Holds. rewrite E. destruct (decide (j = id)) as [->|Hne]; [by rewrite Hn|].
    by rewrite lookup_insert_ne. }
  assert (∀ j, latched s j → latched (set_latches latches s) j) as L by (intros j Hl Hr; by apply Hh, Hl).
  split; [split|split; [split|]].
  - eapply LatchSafety.lstep_sound; [|exact S1]. by eapply LatchSafety.LAcquire.
  - done.
  - done.
  - intros j Hj. destruct (S4 j Hj). auto.
  - intros j task H Hp. apply L. eauto.
  - intros j q'. simpl. rewrite E. intros [[<- <-]|[_ H]]%lookup_insert_Some; [|by apply S6]. split; [done|].
    intros task Ht. rewrite (Hruns _ Ht). split; [done|]. split; [done|]. intros Hk key Hkey. by apply Q4.
  - done.
  - simpl. eauto.
  - simpl. auto.
  - intros sec ->%list_elem_of_singleton. split; [done|]. intros -> Hr. unfold NodeLatchManager.Holds. simpl.
    rewrite E, lookup_insert_eq. done.
Qed.

Lemma release_keeps a id ks r s :
  sched_ok s → sec_ok s (SRelease id ks r) → keeps s (run_release hash_int hash_string a id ks r s).
Proof using Type.
  intros [S1 S2 S3 S4 S5 S6] [Hm Hreg]. unfold run_release.
  destruct (NodeLatchManager.Release _ _ _ _ _) as [latches ready] eqn:Hrel.
  assert (∀ j, registered s j → NodeLatchManager.Holds j (latches_ s) = true → NodeLatchManager.Holds j latches = true) as Hh.
  { intros j Hr Hj. replace latches with (NodeLatchManager.Release hash_int hash_string (an_now a) id (latches_ s)).1 by by rewrite Hrel.
    apply LatchSafety.Release_holds; [done| |done]. by intros ->. }
  assert (∀ j q', NodeLatchManager.requests_ latches !! j = Some q' →
    ∃ q, NodeLatchManager.requests_ (latches_ s) !! j = Some q ∧ LatchSafety.same_request q q') as Hk.
  { intros j q' H. apply (LatchSafety.Release_keeps hash_int hash_string (an_now a) id); [done|]. by rewrite Hrel. }
  assert (∀ j, latched s j → latched (set_latches latches s) j) as L by (intros j Hl Hr; by apply Hh, Hl).
  split; [split|split; [split|]].
  - simpl. replace latches with (NodeLatchManager.Release hash_int hash_string (an_now a) id (latches_ s)).1 by by rewrite Hrel.
    eapply LatchSafety.lstep_sound; [|exact S1]. apply LatchSafety.LRelease.
  - done.
  - done.
  - intros j Hj. destruct (S4 j Hj). auto.
  - intros j task H Hp. apply L. eauto.
  - intros j q' H. destruct (Hk _ _ H) as (q & Hq & [E1 E2 E3 E4]). destruct (S6 _ _ Hq) as [? Hf]. split; [done|].
    intros task Ht. destruct (Hf task Ht) as (F1 & F2 & F3). split; [congruence|]. split; [congruence|]. rewrite E4. done.
  - done.
  - simpl. eauto.
  - simpl. auto.
  - intros sec [-> |[-> |[]%not_elem_of_nil]%elem_of_cons]%elem_of_cons; [done|]. intros j Hj.
    destruct (LatchSafety.Release_ready _ _ _ _ _ _ _ S1 Hrel) as [_ Hr]. apply Hr in Hj as (_ & (q & Hq & _) & Hj).
    split; [by eapply S6|]. intros _. done.
Qed.

Lemma finish_keeps s s' id key ks r :
  sched_ok s → mentioned s id → latches_ s' = latches_ s → nextCommandId_ s' = nextCommandId_ s →
  requests_ s' = delete key (requests_ s) → sc_queue s' = sc_queue s → tasks_ s' = delete id (tasks_ s) →
  keeps s (s', [SRelease id ks r]).
Proof using Type.
  intros Hok Hm E1 E2 E3 E4 E5. assert (quiet s s') as Hq by by eapply quiet_delete.
  split; [by eapply quiet_ok|]. split; [by apply quiet_calm|]. intros sec ->%list_elem_of_singleton. split.
  - unfold mentioned. cbn [fst]. by rewrite E2.
  - intros [task Ht]. cbn [fst] in Ht. by rewrite E5, lookup_delete_eq in Ht.
Qed.

Lemma only s (sec : section) : sec_ok s sec → ∀ sec', sec' ∈ [sec] → sec_ok s sec'.
Proof using Type. by intros H sec' ->%list_elem_of_singleton. Qed.

Lemma none s : ∀ sec, sec ∈ @nil section → sec_ok s sec.
Proof using Type. by intros sec []%not_elem_of_nil. Qed.

Ltac rely := try first [apply none | apply only; simpl; by auto].
Ltac quietly := apply keeps_quiet;
  [done|first [by apply quiet_same | eapply quiet_alter; [reflexivity|reflexivity|reflexivity|reflexivity|reflexivity|by intros ?; auto]]|rely].

Lemma section_keeps n a sec s out :
  numbered n s → fits64 (n + 1) → sched_ok s → sec_ok s sec → run_section a sec s = Ok out → keeps s out.
Proof using Type.
  intros Hnb Hf Hok Hsec. destruct sec as [c k|c k region|k|id|id c|id acq|id|ids|id|id c|id c|id c p b st|id c p b|id idx
    |id r|id ks r|ks r|rid op idx|rid op| |rid|rid region]; cbn [NodeTxnScheduler.run_section sec_ok] in *.
  - unfold run_schedule. destruct (regions_ s !! _); [destruct (_ && _)|]; intros [= <-]; quietly.
  - intros [= <-]. by eapply insert_keeps.
  - intros [= <-]. quietly.
  - simpl. destruct (tasks_ s !! id) as [task|] eqn:Ht; intros [= <-]; quietly. apply only. split; [done|]. intros task' H. congruence.
  - destruct (NodeLatchManager.Acquire _ _ _ _ _ _ _ _) as [[l ok]|w] eqn:Hacq; [|done]. intros [= <-]. by eapply acquire_keeps.
  - intros [= <-]. destruct Hsec. destruct acq; quietly.
  - destruct Hsec. destruct (_ <? _)%nat; intros [= <-]; [|quietly]. apply keeps_quiet; [done| |rely].
    split; [done..| |eauto]. simpl. intros j. rewrite elem_of_app, list_elem_of_singleton. intros [?| ->]; auto.
  - destruct ids as [|id ids]; [intros [= <-]; quietly|]. assert (∀ j, j ∈ ids → mentioned s j ∧ latched s j) by (intros; apply Hsec; by right).
    destruct (tasks_ s !! id); intros [= <-]; quietly. intros sec. rewrite elem_of_cons, list_elem_of_singleton.
    intros [-> | ->]; [apply Hsec; left|done].
  - destruct Hsec. unfold run_execute. destruct (tasks_ s !! id) as [task|] eqn:Ht; intros [= <-]; quietly.
    apply only. split; [done|]. split; [done|]. intros task' H'. congruence.
  - destruct Hsec as (? & ? & ?). unfold run_check. repeat case_match; intros [= <-]; quietly.
  - unfold run_prepare. repeat case_match; intros [= <-]; quietly.
  - destruct Hsec as (? & ? & ?). unfold run_store. cbv zeta. repeat case_match; intros [= <-]; quietly.
  - destruct Hsec as (? & ? & ?). unfold run_propose. repeat case_match; intros [= <-]; quietly.
  - destruct Hsec. intros [= <-]. quietly.
  - unfold run_finish. destruct (tasks_ s !! id) as [task|]; intros [= <-]; [by eapply finish_keeps|quietly].
  - intros [= <-]. by apply release_keeps.
  - destruct ks as [|k ks]; intros [= <-]; quietly.
  - unfold run_applied. destruct (requests_ s !! _) as [id|] eqn:Hr; [|intros [= <-]; quietly].
    destruct (tasks_ s !! id) as [task|]; intros [= <-]; [eapply finish_keeps; [done|by eapply so_requests|done..]|].
    apply keeps_quiet; [done| |rely]. split; [done|done| |by left|eauto]. intros key j. simpl. by intros [_ ?]%lookup_delete_Some.
  - destruct (requests_ s !! _) as [id|] eqn:Hr; intros [= <-]; quietly. apply only. by eapply so_requests.
  - intros [= <-]. apply keeps_quiet; [done| |rely]. split; [done..|by left|]. intros j task'. simpl.
    rewrite lookup_fmap, fmap_Some. intros (task & ? & ->). eauto.
  - intros [= <-]. quietly. intros sec (id & -> & Hid)%list_elem_of_fmap. rewrite visit_perm in Hid.
    + apply list_elem_of_fmap in Hid as ([j task] & -> & [_ Hin]%list_elem_of_filter). apply elem_of_map_to_list in Hin. by eapply so_tasks.
    + eapply NoDup_fmap_fst; [|apply NoDup_filter, NoDup_map_to_list]. intros j t1 t2 [_ H1]%list_elem_of_filter [_ H2]%list_elem_of_filter.
      apply elem_of_map_to_list in H1, H2. congruence.
  - intros [= <-]. quietly.
Qed.

Record orderly (n : N) (nd : node) : Prop := MkOrderly {
  or_numbered : numbered n (nd_scheduler nd);
  or_scheduler : sched_ok (nd_scheduler nd);
  or_threads : ∀ th sec, th ∈ nd_threads nd → sec ∈ th.2 → sec_ok (nd_scheduler nd) sec
}.

Lemma step_orderly n e nd nd' : orderly n nd → fits64 (n + 1) → step e nd = Some nd' → orderly (n + 1) nd'.
Proof using Type.
  intros [Hnb Hok Hth] Hf. assert (numbered (n + 1) (nd_scheduler nd)) as Hnb1 by (destruct Hnb; split; [lia|done]).
  destruct e as [sec| |i a]; cbn [NodeTxnScheduler.step].
  - destruct (entry sec) eqn:He; [|done]. intros [= <-]. split; [done|done|].
    intros th sec' [H| ->%list_elem_of_singleton]%elem_of_app; [by apply Hth|]. intros ->%list_elem_of_singleton. by destruct sec.
  - destruct (_ <? _)%nat; [|done]. destruct (sc_queue (nd_scheduler nd)) as [|id q] eqn:Hq; [done|]. intros [= <-].
    assert (keeps (nd_scheduler nd) (set_queue q (nd_scheduler nd), [SExecute id])) as (Hok' & Hc & Hn).
    { apply keeps_quiet; [done| |].
      - split; [done..| |eauto]. intros j Hj. left. rewrite Hq. by right.
      - apply only. apply (so_queue _ Hok). rewrite Hq. left. }
    split; [by destruct Hnb1; split|done|]. intros th sec [H| ->%list_elem_of_singleton]%elem_of_app; [|by apply Hn].
    intros Hs. apply (calm_sec _ _ _ Hc). by apply (Hth th).
  - destruct (nd_threads nd !! i) as [[w [|sec rest]]|] eqn:Hi; [done| |done]. intros [= <-].
    assert (∀ sec', sec' ∈ sec :: rest → sec_ok (nd_scheduler nd) sec') as Hst.
    { intros sec'. apply (Hth (w, sec :: rest)). by eapply list_elem_of_lookup_2. }
    destruct (run_section a sec (nd_scheduler nd)) as [[s' next]|ex] eqn:Hr.
    + destruct (section_keeps n a sec _ _ Hnb Hf Hok (Hst sec ltac:(left)) Hr) as (Hok' & Hc & Hn).
      split; [eapply section_numbered; [done|exact (section_moves n a sec _ _ _ Hnb Hf Hr)]|done|].
      intros th sec' [H| ->]%put_thread_elem; [intros Hs; apply (calm_sec _ _ _ Hc); by apply (Hth th)|].
      intros [H|H]%elem_of_app; [by apply Hn|]. apply (calm_sec _ _ _ Hc), Hst. by right.
    + split; [done|done|]. intros th sec' [H| ->]%(put_thread_elem i w []); [by apply Hth|]. by intros []%not_elem_of_nil.
Qed.

Lemma run_orderly n es nd nd' :
  orderly n nd → fits64 (n + N.of_nat (length es)) → run_events es nd = Some nd' → orderly (n + N.of_nat (length es)) nd'.
Proof using Type.
  revert n nd. induction es as [|e es IH]; intros n nd Ho Hf; cbn [NodeTxnScheduler.run_events].
  - intros [= <-]. by rewrite N.add_0_r.
  - cbn [length] in *. destruct (step e nd) as [nd1|] eqn:Hs; [|done]. cbn [mbind option_bind]. intros Hr.
    replace (n + N.of_nat (S (length es))) with (n + 1 + N.of_nat (length es)) by lia.
    apply (IH _ nd1); [|unfold fits64 in *; lia|done]. eapply step_orderly; [done|unfold fits64 in *; lia|done].
Qed.

Lemma create_orderly slots nd : create slots = Ok nd → orderly 0 nd.
Proof using Type.
  intros H. destruct (create_accounted slots nd H) as [Hnb _ _]. revert H. unfold NodeTxnScheduler.create.
  destruct (NodeLatchManager.create slots) as [l|] eqn:Hl; [|done]. simpl. repeat case_match; try done. intros [= <-].
  split; [done| |by intros th sec []%not_elem_of_nil]. split; simpl.
  - by eapply LatchSafety.create_sound.
  - intros key id. by rewrite lookup_empty.
  - intros id task. by rewrite lookup_empty.
  - by intros id []%not_elem_of_nil.
  - intros id task. by rewrite lookup_empty.
  - revert Hl. unfold NodeLatchManager.create. destruct (bool_decide (slots = 0%nat)); [done|]. intros <-%Ok_inj id q. simpl. by rewrite lookup_empty.
Qed.

(** A command is at work from the check of its deadline until its task is gone. *)
Definition works (id : N) (sec : section) : bool :=
  match sec with
  | SCheck j _ | SPrepare j _ | SStore j _ _ _ _ | SPropose j _ _ _ | SProposed j _ => bool_decide (j = id)
  | _ => false
  end.

Definition at_work (nd : node) (id : N) : bool :=
  existsb (λ th, existsb (works id) th.2) (nd_threads nd) ||
  match tasks_ (nd_scheduler nd) !! id with Some task => tk_proposed task | None => false end.

Lemma at_work_latched n nd id : orderly n nd → at_work nd id = true → latched (nd_scheduler nd) id.
Proof using Type.
  intros [_ Hok Hth]. unfold at_work. intros [H|H]%orb_true_iff.
  - apply existsb_exists in H as (th & Hin & (sec & Hs & Hw)%existsb_exists). apply list_elem_of_In in Hin, Hs.
    specialize (Hth th sec Hin Hs). destruct sec; simpl in Hw; try done; apply bool_decide_eq_true in Hw as ->; by apply Hth.
  - destruct (tasks_ (nd_scheduler nd) !! id) as [task|] eqn:Ht; [|done]. by eapply so_proposed.
Qed.

(** [C11] No two commands work on one key: when two registered commands of one
    Region have been handed to their workers and are being checked, prepared, stored
    or proposed, or have been proposed and are not applied yet, both latch single
    keys and they have no key in common. *)
Theorem work_excluded slots es nd0 nd id1 id2 task1 task2 :
  create slots = Ok nd0 → run_events es nd0 = Some nd → fits64 (N.of_nat (length es)) →
  id1 ≠ id2 → tasks_ (nd_scheduler nd) !! id1 = Some task1 → tasks_ (nd_scheduler nd) !! id2 = Some task2 →
  at_work nd id1 = true → at_work nd id2 = true → tc_regionId (tk_command task1) = tc_regionId (tk_command task2) →
  tc_latchMode (tk_command task1) = Keys ∧ tc_latchMode (tk_command task2) = Keys ∧
  ∀ key, key ∈ tc_keys (tk_command task1) → key ∉ tc_keys (tk_command task2).
Proof using Type.
  intros H0%create_orderly Hr Hf Hne H1 H2 W1 W2 Hreg. pose proof (run_orderly 0 es nd0 nd H0 Hf Hr) as Ho.
  assert (∀ id task, tasks_ (nd_scheduler nd) !! id = Some task → at_work nd id = true →
    ∃ q, NodeLatchManager.requests_ (latches_ (nd_scheduler nd)) !! id = Some q ∧ NodeLatchManager.lr_acquired q = true ∧
      request_for (tk_command task) q) as Hq.
  { intros id task Ht Hw. pose proof (at_work_latched _ _ _ Ho Hw (ex_intro _ task Ht)) as Hl. unfold NodeLatchManager.Holds in Hl.
    destruct (NodeLatchManager.requests_ _ !! id) as [q|] eqn:E; [|done]. exists q. split; [done|]. split; [done|]. by eapply so_locks; [apply Ho|..]. }
  destruct (Hq _ _ H1 W1) as (q1 & L1 & A1 & M1 & R1 & K1). destruct (Hq _ _ H2 W2) as (q2 & L2 & A2 & M2 & R2 & K2).
  destruct (LatchSafety.holders_apart hash_int hash_string _ id1 id2 q1 q2 (so_latches _ (or_scheduler _ _ Ho))) as (E1 & E2 & Hk); [done..|congruence|].
  split; [congruence|]. split; [congruence|]. intros key I1 I2.
  apply (Hk (NodeLatchManager.MkResource (tc_regionId (tk_command task1)) key)); [apply K1; [congruence|done]|].
  rewrite Hreg. apply K2; [congruence|done].
Qed.

(** ** Latches without a task *)

Definition releases (id : N) (sec : section) : bool :=
  match sec with SRelease j _ _ => bool_decide (j = id) | _ => false end.

(** A command holds latches, has no task, and no thread is about to release it. *)
Definition stuck s (id : N) (q0 : NodeLatchManager.LockRequest) : Prop :=
  mentioned s id ∧ ¬ registered s id ∧
  ∃ q, NodeLatchManager.requests_ (latches_ s) !! id = Some q ∧ NodeLatchManager.lr_acquired q = true ∧ LatchSafety.same_request q0 q.

Lemma section_latches a sec s s' next :
  run_section a sec s = Ok (s', next) →
  latches_ s' = latches_ s ∨
  (∃ id c ok, sec = SAcquire id c ∧ NodeLatchManager.Acquire hash_int hash_string (an_now a) id (tc_regionId c) (tc_keys c)
     (tc_latchMode c) (latches_ s) = Ok (latches_ s', ok)) ∨
  (∃ id ks r, sec = SRelease id ks r ∧ latches_ s' = (NodeLatchManager.Release hash_int hash_string (an_now a) id (latches_ s)).1).
Proof using Type.
  destruct sec as [c k|c k region|k|id|id c|id acq|id|ids|id|id c|id c|id c p b st|id c p b|id idx
    |id r|id ks r|ks r|rid op idx|rid op| |rid|rid region]; cbn [NodeTxnScheduler.run_section].
  5: { destruct (NodeLatchManager.Acquire _ _ _ _ _ _ _ _) as [[l ok]|w] eqn:Hacq; [|done]. intros [= <- <-].
       right; left. by exists id, c, ok. }
  15: { unfold run_release. destruct (NodeLatchManager.Release _ _ _ _ _) as [l ready] eqn:Hrel. intros [= <- <-].
        right; right. exists id, ks, r. by rewrite Hrel. }
  all: intros H; left; revert H.
  1: unfold run_schedule. 2: unfold run_insert. 8: unfold run_execute. 9: unfold run_check. 10: unfold run_prepare.
  11: unfold run_store. 12: unfold run_propose. 14: unfold run_finish. 16: unfold run_applied.
  all: cbv zeta; repeat case_match; by intros [= <- <-].
Qed.

Lemma section_releases a sec s s' next id :
  run_section a sec s = Ok (s', next) → existsb (releases id) next = true → registered s id.
Proof using Type.
  destruct sec as [c k|c k region|k|j|j c|j acq|j|ids|j|j c|j c|j c p b st|j c p b|j idx
    |j r|j ks r|ks r|rid op idx|rid op| |rid|rid region]; cbn [NodeTxnScheduler.run_section].
  5: { destruct (NodeLatchManager.Acquire _ _ _ _ _ _ _ _) as [[l ok]|w]; [|done]. by intros [= <- <-]. }
  17: { unfold run_applied. destruct (requests_ s !! _) as [i|]; [|by intros [= <- <-]].
        destruct (tasks_ s !! i) as [task|] eqn:Ht; intros [= <- <-]; [|done]. simpl. rewrite orb_false_r.
        intros ->%bool_decide_eq_true. by exists task. }
  19: { intros [= <- <-]. intros (sec & (i & <- & _)%in_map_iff & Hr)%existsb_exists. done. }
  14: { unfold run_finish. destruct (tasks_ s !! j) as [task|] eqn:Ht; intros [= <- <-]; [|done]. simpl. rewrite orb_false_r.
        intros ->%bool_decide_eq_true. by exists task. }
  14: { unfold run_release. destruct (NodeLatchManager.Release _ _ _ _ _). by intros [= <- <-]. }
  1: unfold run_schedule. 2: unfold run_insert. 8: unfold run_execute. 9: unfold run_check. 10: unfold run_prepare.
  11: unfold run_store. 12: unfold run_propose.
  all: cbv zeta; repeat case_match; by intros [= <- <-].
Qed.

Lemma section_stuck n a sec s s' next id q0 :
  numbered n s → fits64 (n + 1) → sched_ok s → sec_ok s sec → stuck s id q0 → releases id sec = false →
  run_section a sec s = Ok (s', next) → stuck s' id q0 ∧ existsb (releases id) next = false.
Proof using Type.
  intros Hnb Hf Hok Hsec (Hm & Hreg & q & Hq & Ha & Hs) Hrel Hr.
  destruct (section_keeps n a sec s (s', next) Hnb Hf Hok Hsec Hr) as (_ & Hc & _). cbn [fst] in Hc. split.
  - split; [by eapply calm_mentioned|]. split; [intros H; by apply Hreg, (calm_registered s s')|].
    destruct (section_latches a sec s s' next Hr) as [->|[(j & c & ok & -> & Hacq)|(j & ks & r & -> & Hl)]]; [eauto| |].
    + destruct (LatchSafety.Acquire_registered _ _ _ _ _ _ _ _ _ _ (so_latches _ Hok) Hacq) as (q' & E & Hn & _).
      rewrite E, lookup_insert_ne by congruence. eauto.
    + simpl in Hrel. apply bool_decide_eq_false in Hrel.
      assert (NodeLatchManager.Holds id (latches_ s') = true) as Hh.
      { rewrite Hl. apply LatchSafety.Release_holds; [apply Hok|congruence|]. unfold NodeLatchManager.Holds. by rewrite Hq. }
      unfold NodeLatchManager.Holds in Hh. destruct (NodeLatchManager.requests_ (latches_ s') !! id) as [q'|] eqn:Hq'; [|done].
      exists q'. split; [done|]. split; [done|]. rewrite Hl in Hq'.
      apply LatchSafety.Release_keeps in Hq' as (q1 & Hq1 & Hs'); [|apply Hok]. rewrite Hq in Hq1. injection Hq1 as <-.
      destruct Hs, Hs'. split; congruence.
  - destruct (existsb (releases id) next) eqn:He; [|done]. by apply (section_releases a sec s s' next id Hr) in He.
Qed.

Definition forgotten (nd : node) (id : N) (q0 : NodeLatchManager.LockRequest) : Prop :=
  stuck (nd_scheduler nd) id q0 ∧ ∀ th, th ∈ nd_threads nd → existsb (releases id) th.2 = false.

Lemma step_forgotten n e nd nd' id q0 :
  orderly n nd → fits64 (n + 1) → forgotten nd id q0 → step e nd = Some nd' → forgotten nd' id q0.
Proof using Type.
  intros [Hnb Hok Hth] Hf [Hs Hr]. destruct e as [sec| |i a]; cbn [NodeTxnScheduler.step].
  - destruct (entry sec) eqn:He; [|done]. intros [= <-]. split; [done|].
    intros th [H| ->%list_elem_of_singleton]%elem_of_app; [by apply Hr|]. by destruct sec.
  - destruct (_ <? _)%nat; [|done]. destruct (sc_queue (nd_scheduler nd)); [done|]. intros [= <-]. split; [done|].
    intros th [H| ->%list_elem_of_singleton]%elem_of_app; [by apply Hr|done].
  - destruct (nd_threads nd !! i) as [[w [|sec rest]]|] eqn:Hi; [done| |done]. apply list_elem_of_lookup_2 in Hi. intros [= <-].
    pose proof (Hr _ Hi) as [Hrs Hrr]%orb_false_iff. pose proof (Hth _ sec Hi ltac:(left)) as Hsec.
    destruct (run_section a sec (nd_scheduler nd)) as [[s' next]|ex] eqn:Hrun.
    + destruct (section_stuck n a sec _ _ _ id q0 Hnb Hf Hok Hsec Hs Hrs Hrun) as [Hs' Hn]. split; [done|].
      intros th [H| ->]%put_thread_elem; [by apply Hr|]. cbn [snd]. by rewrite existsb_app, Hn.
    + split; [done|]. by intros th [H| ->]%(put_thread_elem i w []); [apply Hr|].
Qed.

Lemma run_forgotten n es nd nd' id q0 :
  orderly n nd → fits64 (n + N.of_nat (length es)) → forgotten nd id q0 → run_events es nd = Some nd' → forgotten nd' id q0.
Proof using Type.
  revert n nd. induction es as [|e es IH]; intros n nd Ho Hf Hg; cbn [NodeTxnScheduler.run_events].
  - by intros [= <-].
  - cbn [length] in Hf. destruct (step e nd) as [nd1|] eqn:Hs; [|done]. cbn [mbind option_bind].
    apply (IH (n + 1)); [eapply step_orderly; [done|unfold fits64 in *; lia|done]|unfold fits64 in *; lia|].
    eapply step_forgotten; [done|unfold fits64 in *; lia|done|done].
Qed.

(** A command that needs a latch taken for ever never gets to work. *)
Lemma forgotten_blocks n nd id q0 id' task :
  orderly n nd → forgotten nd id q0 → tasks_ (nd_scheduler nd) !! id' = Some task → at_work nd id' = true →
  tc_regionId (tk_command task) = NodeLatchManager.lr_regionId q0 →
  tc_latchMode (tk_command task) = Keys ∧
  ∀ key, key ∈ tc_keys (tk_command task) → NodeLatchManager.MkResource (tc_regionId (tk_command task)) key ∉ NodeLatchManager.lr_resources q0.
Proof using Type.
  intros Ho [(_ & Hreg & q & Hq & Ha & [Q1 Q2 Q3 Q4]) _] Ht Hw Hr.
  pose proof (at_work_latched _ _ _ Ho Hw (ex_intro _ task Ht)) as Hl. unfold NodeLatchManager.Holds in Hl.
  destruct (NodeLatchManager.requests_ _ !! id') as [q'|] eqn:E; [|done].
  destruct (so_locks _ (or_scheduler _ _ Ho) _ _ E) as [_ Hf]. destruct (Hf task Ht) as (F1 & F2 & F3).
  assert (id ≠ id') as Hne by (intros ->; by apply Hreg; exists task).
  destruct (LatchSafety.holders_apart hash_int hash_string _ id id' q q' (so_latches _ (or_scheduler _ _ Ho))) as (E1 & E2 & Hk); [done..|congruence|].
  split; [congruence|]. intros key Hkey Hin. rewrite <- Q4 in Hin. apply (Hk _ Hin). apply F3; [congruence|done].
Qed.

End sections.

(** ** Runs *)

Section demo.

Definition hash0 (_ : Z) : N := 7.
Definition hash1 (k : string) : N := N.of_nat (String.length k).

Notation run := (run_events hash0 hash1 (λ _, "write") (λ _, "batch") 8 8 2).

Definition demo_node : node :=
  match create 8 8 2 4 with Ok nd => nd | Throw _ => MkNode (MkScheduler ∅ ∅ ∅ (NodeLatchManager.MkLatches [] ∅ ∅ (NodeLatchManager.MkStats 0 0 0 0 0 0)) 0 (MkCounters 0 0 0 0 0 0 0 0 0) [] []) [] end.

(** A prewrite of one key of Region 7. *)
Definition demo_command (key : string) (request : Z) : TxnCommand :=
  MkTxnCommand CtPrewrite Keys 7 [key] [] key "v" key "client" request 5 0 0 0 0 0 0 RsNotFound false false false 0.

(** The Region object lives and leads. *)
Definition demo_answers : answers :=
  MkAnswers 1 true true default_PreparedMvccWrite default_PreparedMvccBatch (Some 3%Z) [].

Definition steps (i n : nat) : list event := replicate n (Run i demo_answers).

(** Two commands on two keys, both at work. *)
Definition demo_run : list event :=
  Call (SRegister 7 0) :: steps 0 1 ++
  Call (SSchedule (demo_command "a" 1) 10) :: steps 0 6 ++ StartWorker :: steps 0 1 ++
  Call (SSchedule (demo_command "b" 2) 11) :: steps 1 6 ++ StartWorker :: steps 1 1.

Definition demo_end : node := default demo_node (run demo_run demo_node).

Definition task_of (nd : node) (id : N) : TaskContext :=
  default (new_task 0 0 (demo_command "none" 0) 0 0) (tasks_ (nd_scheduler nd) !! id).

Lemma completions_conserved_witness :
  (sc_answered (nd_scheduler demo_end)).*1 ++ in_tasks (tasks_ (nd_scheduler demo_end)) ++ in_threads (nd_threads demo_end) ≡ₚ [10; 11]%nat.
Proof.
  apply (completions_conserved hash0 hash1 (λ _, "write") (λ _, "batch") 8 8 2 4 demo_run demo_node demo_end); vm_compute; reflexivity.
Defined.

Lemma work_excluded_witness :
  at_work demo_end 1 = true ∧ at_work demo_end 2 = true ∧
  (tc_latchMode (tk_command (task_of demo_end 1)) = Keys ∧ tc_latchMode (tk_command (task_of demo_end 2)) = Keys ∧
   ∀ key, key ∈ tc_keys (tk_command (task_of demo_end 1)) → key ∉ tc_keys (tk_command (task_of demo_end 2))).
Proof.
  split; [vm_compute; reflexivity|]. split; [vm_compute; reflexivity|].
  apply (work_excluded hash0 hash1 (λ _, "write") (λ _, "batch") 8 8 2 4 demo_run demo_node demo_end 1 2);
    [vm_compute; reflexivity|vm_compute; reflexivity|vm_compute; reflexivity|discriminate|vm_compute; reflexivity..].
Defined.

(** The Region is removed after [Schedule] has found its task and before it takes
    the latches; then the command runs to its end, and the Region comes back. *)
Definition leak_run : list event :=
  Call (SRegister 7 0) :: steps 0 1 ++
  Call (SSchedule (demo_command "a" 1) 10) :: steps 0 3 ++
  Call (SRemoved 7) :: steps 1 6 ++ steps 0 3 ++ StartWorker :: steps 0 1 ++
  Call (SRegister 7 1) :: steps 0 1.

Definition leak_end : node := default demo_node (run leak_run demo_node).

Definition leaked : NodeLatchManager.LockRequest :=
  NodeLatchManager.MkLockRequest 1 7 Keys [NodeLatchManager.MkResource 7 "a"] true false 0.

Lemma leak_forgotten : forgotten leak_end 1 leaked.
Proof.
  assert (nd_threads leak_end = []) as E1 by (vm_compute; reflexivity).
  assert (nextCommandId_ (nd_scheduler leak_end) = 1) as E2 by (vm_compute; reflexivity).
  assert (tasks_ (nd_scheduler leak_end) !! 1 = None) as E3 by (vm_compute; reflexivity).
  assert (NodeLatchManager.requests_ (latches_ (nd_scheduler leak_end)) !! 1 = Some leaked) as E4 by (vm_compute; reflexivity).
  unfold forgotten, stuck, mentioned, registered. rewrite E1, E2, E3, E4. clear. split; [|by intros th []%not_elem_of_nil].
  split; [lia|]. split; [by apply is_Some_None|]. by exists leaked.
Qed.

(** [C36] Removing a Region can take a latch for ever.  There is a run of the
    scheduler that ends with no task, no thread and an empty queue, the only
    completion answered and the Region registered again, after which no command
    of the Region that needs the key of the first one, or the whole Region, is ever
    prepared or proposed, whatever the threads do. *)
Theorem removed_region_leaks_latch :
  run leak_run demo_node = Some leak_end ∧
  tasks_ (nd_scheduler leak_end) = ∅ ∧ nd_threads leak_end = [] ∧ sc_queue (nd_scheduler leak_end) = [] ∧
  (sc_answered (nd_scheduler leak_end)).*1 = [10%nat] ∧ regions_ (nd_scheduler leak_end) !! 7%Z = Some 1%nat ∧
  ∀ es nd id task, run es leak_end = Some nd → fits64 (N.of_nat (length leak_run + length es)) →
    tasks_ (nd_scheduler nd) !! id = Some task → tc_regionId (tk_command task) = 7%Z → at_work nd id = true →
    tc_latchMode (tk_command task) = Keys ∧ "a" ∉ tc_keys (tk_command task).
Proof.
  assert (run leak_run demo_node = Some leak_end) as Hrun by (vm_compute; reflexivity).
  split; [exact Hrun|]. do 5 (split; [vm_compute; reflexivity|]). intros es nd id task Hes Hf Ht Hr Hw.
  pose proof (run_orderly hash0 hash1 (λ _, "write") (λ _, "batch") 8 8 2 0 leak_run demo_node leak_end
    (create_orderly hash0 hash1 8 8 2 4 demo_node ltac:(vm_compute; reflexivity)) ltac:(vm_compute; reflexivity) Hrun) as Ho.
  rewrite Nat2N.inj_add in Hf. pose proof (run_orderly hash0 hash1 (λ _, "write") (λ _, "batch") 8 8 2 _ es leak_end nd Ho Hf Hes) as Ho'.
  pose proof (run_forgotten hash0 hash1 (λ _, "write") (λ _, "batch") 8 8 2 _ es leak_end nd 1 leaked Ho Hf leak_forgotten Hes) as Hg'.
  destruct (forgotten_blocks hash0 hash1 _ nd 1 leaked id task Ho' Hg' Ht Hw Hr) as [Hk Hkeys]. split; [exact Hk|].
  intros Ha. apply (Hkeys "a" Ha). rewrite Hr. left.
Qed.

End demo.
