(* ===== verification/RaftTypes.v ===== *)
(** * Raft: messages and node state

    The message types of src/src/proto/raft_rpc.proto, the members of class
    [Raft] (src/src/raft/include/raft.h) grouped by what they are for, and the
    log accessors of src/src/raft/raft.cpp.

    [int] members are [Z] without a bound: a term or a log index that leaves the
    [int32] range is outside the model of the node (the persistence format,
    which has fixed-width fields, is modelled with them in [RaftPersist]).  A
    failed [myAssert] calls [std::exit], so an operation has an [outcome]: it
    returns, or the process exits with what is on disk. *)

From S2P Require Import Prelude Wire.

(** ** Messages *)

Record LogEntry := { command : string; logterm : Z; logindex : Z }.

#[global] Instance LogEntry_eq_dec : EqDecision LogEntry.
Proof. solve_decision. Defined.

Record AppendEntriesArgs := {
  ae_term : Z;
  ae_leaderid : Z;
  ae_prevlogindex : Z;
  ae_prevlogterm : Z;
  ae_entries : list LogEntry;
  ae_leadercommit : Z;
  ae_readcontext : N;
}.

Record AppendEntriesReply := {
  aer_term : Z;
  aer_success : bool;
  aer_updatenextindex : Z;
  aer_appstate : Z;
  aer_readcontextack : N;
  aer_readcontextaccepted : bool;
}.

Record RequestVoteArgs := {
  rv_term : Z;
  rv_candidateid : Z;
  rv_lastlogindex : Z;
  rv_lastlogterm : Z;
}.

Record RequestVoteReply := {
  rvr_term : Z;
  rvr_votegranted : bool;
  rvr_votestate : Z;
}.

Record InstallSnapshotRequest := {
  is_leaderid : Z;
  is_term : Z;
  is_lastsnapshotincludeindex : Z;
  is_lastsnapshotincludeterm : Z;
  is_data : string;
  is_chunkoffset : N;
  is_chunkdone : bool;
}.

(** [InstallSnapshotResponse] carries a term only. *)
Definition InstallSnapshotResponse := Z.

#[global] Instance AppendEntriesArgs_eq_dec : EqDecision AppendEntriesArgs.
Proof. solve_decision. Defined.
#[global] Instance AppendEntriesReply_eq_dec : EqDecision AppendEntriesReply.
Proof. solve_decision. Defined.
#[global] Instance RequestVoteArgs_eq_dec : EqDecision RequestVoteArgs.
Proof. solve_decision. Defined.
#[global] Instance RequestVoteReply_eq_dec : EqDecision RequestVoteReply.
Proof. solve_decision. Defined.
#[global] Instance InstallSnapshotRequest_eq_dec : EqDecision InstallSnapshotRequest.
Proof. solve_decision. Defined.

(** Transport states and vote states. *)
Definition Disconnected : Z := 0.
Definition AppNormal : Z := 1.
Definition Voted : Z := 1.
Definition Expire : Z := 2.
Definition Normal : Z := 3.

(** What reaches the Region state machine. *)
Inductive ApplyMsg :=
| ApplyCommand (Command : string) (CommandIndex : Z)
| ApplyRejected (Command : string)
| ApplySnapshot (Snapshot : string) (SnapshotTerm SnapshotIndex : Z).

#[global] Instance ApplyMsg_eq_dec : EqDecision ApplyMsg.
Proof. solve_decision. Defined.

(** [minRandomizedElectionTime], in milliseconds. *)
Definition minRandomizedElectionTime : Z := 2000.

(** ** Node state *)

Inductive NodeRole := Follower | Candidate | Leader.
Inductive PeerRole := Voter | Learner | Removed.
Inductive ReplicationTaskType := TaskAppendEntries | TaskSnapshot.
Inductive ReadIndexStatus := ReadOk | ReadNotLeader | ReadTimeout.

#[global] Instance NodeRole_eq_dec : EqDecision NodeRole.
Proof. solve_decision. Defined.
#[global] Instance PeerRole_eq_dec : EqDecision PeerRole.
Proof. solve_decision. Defined.

Record ReadIndexResult := {
  rr_status : ReadIndexStatus;
  rr_term : Z;
  rr_readIndex : Z;
  rr_context : N;
}.

Record ReadWaiter := {
  rw_deadline : Z;
  rw_completed : bool;
  rw_result : ReadIndexResult;
}.

Record ReadRound := {
  round_context : N;
  round_term : Z;
  round_readIndex : Z;
  round_acknowledgedPeers : gset Z;
  round_waiters : list nat;
}.

(** The members written to the Raft state file. *)
Record HardState := {
  hs_currentTerm : Z;
  hs_votedFor : Z;
  hs_snapshotIndex : Z;
  hs_snapshotTerm : Z;
  hs_logs : list LogEntry;
}.

(** The volatile replication state. *)
Record Progress := {
  pg_commitIndex : Z;
  pg_lastApplied : Z;
  pg_nextIndex : list Z;
  pg_matchIndex : list Z;
  pg_status : NodeRole;
}.

(** The steady-clock readings, in milliseconds; [None] is
    [time_point::min()]. *)
Record Clocks := {
  ck_lastResetElection : Z;
  ck_lastLeaderContact : option Z;
  ck_lastResetHearBeat : Z;
}.

(** ReadIndex bookkeeping.  [shared_ptr<ReadWaiter>] is an address into
    [rd_waiters]. *)
Record Reads := {
  rd_nextContext : N;
  rd_pending : list nat;
  rd_active : option ReadRound;
  rd_waiters : gmap nat ReadWaiter;
  rd_requests : N;
  rd_rounds : N;
  rd_completed : N;
}.

(** Membership of the group as this node knows it. *)
Record Members := {
  mb_me : nat;
  mb_peers : nat;
  mb_peerIds : list N;
  mb_peerRoles : list PeerRole;
  mb_localPeerId : N;
  mb_removed : bool;
}.

(** Queues to and from the other threads of the process. *)
Record Queues := {
  q_applyChan : list ApplyMsg;
  q_propose : list Op;
  q_replication : list (list ReplicationTaskType);
  q_confChangePending : bool;
  q_snapshotBuffer : string;
}.

(** The files behind [m_persister]: the decoded Raft state ([None] while the
    file is empty) and the snapshot.  [RaftPersist] relates the decoded form to
    the bytes. *)
Record Disk := {
  d_state : option HardState;
  d_snapshot : string;
}.

Record Raft := {
  hard : HardState;
  progress : Progress;
  clocks : Clocks;
  reads : Reads;
  members : Members;
  queues : Queues;
  disk : Disk;
}.

Notation m_currentTerm s := (hs_currentTerm (hard s)).
Notation m_votedFor s := (hs_votedFor (hard s)).
Notation m_lastSnapshotIncludeIndex s := (hs_snapshotIndex (hard s)).
Notation m_lastSnapshotIncludeTerm s := (hs_snapshotTerm (hard s)).
Notation m_logs s := (hs_logs (hard s)).
Notation m_commitIndex s := (pg_commitIndex (progress s)).
Notation m_lastApplied s := (pg_lastApplied (progress s)).
Notation m_nextIndex s := (pg_nextIndex (progress s)).
Notation m_matchIndex s := (pg_matchIndex (progress s)).
Notation m_status s := (pg_status (progress s)).
Notation m_me s := (mb_me (members s)).
Notation m_peers s := (mb_peers (members s)).
Notation m_peerRoles s := (mb_peerRoles (members s)).
Notation m_removed s := (mb_removed (members s)).

Definition set_hard (v : HardState) (s : Raft) : Raft :=
  Build_Raft v (progress s) (clocks s) (reads s) (members s) (queues s) (disk s).
Definition set_progress (v : Progress) (s : Raft) : Raft :=
  Build_Raft (hard s) v (clocks s) (reads s) (members s) (queues s) (disk s).
Definition set_clocks (v : Clocks) (s : Raft) : Raft :=
  Build_Raft (hard s) (progress s) v (reads s) (members s) (queues s) (disk s).
Definition set_reads (v : Reads) (s : Raft) : Raft :=
  Build_Raft (hard s) (progress s) (clocks s) v (members s) (queues s) (disk s).
Definition set_members (v : Members) (s : Raft) : Raft :=
  Build_Raft (hard s) (progress s) (clocks s) (reads s) v (queues s) (disk s).
Definition set_queues (v : Queues) (s : Raft) : Raft :=
  Build_Raft (hard s) (progress s) (clocks s) (reads s) (members s) v (disk s).
Definition set_disk (v : Disk) (s : Raft) : Raft :=
  Build_Raft (hard s) (progress s) (clocks s) (reads s) (members s) (queues s) v.

(** Assignments to single members. *)
Definition set_vote (term vote : Z) (s : Raft) : Raft :=
  set_hard (Build_HardState term vote (m_lastSnapshotIncludeIndex s)
              (m_lastSnapshotIncludeTerm s) (m_logs s)) s.
Definition set_logs (logs : list LogEntry) (s : Raft) : Raft :=
  set_hard (Build_HardState (m_currentTerm s) (m_votedFor s) (m_lastSnapshotIncludeIndex s)
              (m_lastSnapshotIncludeTerm s) logs) s.
Definition set_snapshot (index term : Z) (logs : list LogEntry) (s : Raft) : Raft :=
  set_hard (Build_HardState (m_currentTerm s) (m_votedFor s) index term logs) s.
Definition set_status (v : NodeRole) (s : Raft) : Raft :=
  set_progress (Build_Progress (m_commitIndex s) (m_lastApplied s) (m_nextIndex s)
                  (m_matchIndex s) v) s.
Definition set_commitIndex (v : Z) (s : Raft) : Raft :=
  set_progress (Build_Progress v (m_lastApplied s) (m_nextIndex s) (m_matchIndex s)
                  (m_status s)) s.
Definition set_lastApplied (v : Z) (s : Raft) : Raft :=
  set_progress (Build_Progress (m_commitIndex s) v (m_nextIndex s) (m_matchIndex s)
                  (m_status s)) s.
Definition set_indexes (next mtch : list Z) (s : Raft) : Raft :=
  set_progress (Build_Progress (m_commitIndex s) (m_lastApplied s) next mtch (m_status s)) s.
Definition set_electionReset (now : Z) (s : Raft) : Raft :=
  set_clocks (Build_Clocks now (ck_lastLeaderContact (clocks s))
                (ck_lastResetHearBeat (clocks s))) s.
Definition set_leaderContact (now : Z) (s : Raft) : Raft :=
  set_clocks (Build_Clocks now (Some now) (ck_lastResetHearBeat (clocks s))) s.
Definition set_heartBeatReset (now : Z) (s : Raft) : Raft :=
  set_clocks (Build_Clocks (ck_lastResetElection (clocks s)) (ck_lastLeaderContact (clocks s))
                now) s.
Definition push_apply (msgs : list ApplyMsg) (s : Raft) : Raft :=
  set_queues (Build_Queues (q_applyChan (queues s) ++ msgs) (q_propose (queues s))
                (q_replication (queues s)) (q_confChangePending (queues s))
                (q_snapshotBuffer (queues s))) s.
Definition set_propose (v : list Op) (s : Raft) : Raft :=
  set_queues (Build_Queues (q_applyChan (queues s)) v (q_replication (queues s))
                (q_confChangePending (queues s)) (q_snapshotBuffer (queues s))) s.
Definition set_replication (v : list (list ReplicationTaskType)) (s : Raft) : Raft :=
  set_queues (Build_Queues (q_applyChan (queues s)) (q_propose (queues s)) v
                (q_confChangePending (queues s)) (q_snapshotBuffer (queues s))) s.
Definition set_confChangePending (v : bool) (s : Raft) : Raft :=
  set_queues (Build_Queues (q_applyChan (queues s)) (q_propose (queues s))
                (q_replication (queues s)) v (q_snapshotBuffer (queues s))) s.
Definition set_snapshotBuffer (v : string) (s : Raft) : Raft :=
  set_queues (Build_Queues (q_applyChan (queues s)) (q_propose (queues s))
                (q_replication (queues s)) (q_confChangePending (queues s)) v) s.

(** ** Outcomes *)

Inductive outcome (A : Type) :=
| Ret (s : Raft) (a : A)
| Exit (s : Raft).
Arguments Ret {A} s a.
Arguments Exit {A} s.

Definition obind {A B} (m : outcome A) (f : Raft → A → outcome B) : outcome B :=
  match m with Ret s a => f s a | Exit s => Exit s end.

(** The state an operation leaves behind, however it ends. *)
Definition final {A} (m : outcome A) : Raft :=
  match m with Ret s _ => s | Exit s => s end.

Notation "'ensure' b 'in' s ';' k" := (if b then k else Exit s)
  (at level 200, b at level 100, s at level 100, k at level 200) : strata_scope.
Notation "'fetch' x ':=' e 'in' s ';' k" := (match e with Some x => k | None => Exit s end)
  (at level 200, x name, e at level 100, s at level 100, k at level 200) : strata_scope.

(** ** Log accessors *)

Definition getLastLogIndexAndTerm (s : Raft) : Z * Z :=
  match last (m_logs s) with
  | None => (m_lastSnapshotIncludeIndex s, m_lastSnapshotIncludeTerm s)
  | Some e => (logindex e, logterm e)
  end.

Definition getLastLogIndex (s : Raft) : Z := (getLastLogIndexAndTerm s).1.
Definition getLastLogTerm (s : Raft) : Z := (getLastLogIndexAndTerm s).2.

(** [None] is a failed assertion. *)
Definition getSlicesIndexFromLogIndex (s : Raft) (logIndex : Z) : option Z :=
  if (m_lastSnapshotIncludeIndex s <? logIndex)%Z && (logIndex <=? getLastLogIndex s)%Z
  then Some (logIndex - m_lastSnapshotIncludeIndex s - 1)%Z else None.

(** [m_logs[getSlicesIndexFromLogIndex(logIndex)]] *)
Definition log_at (s : Raft) (logIndex : Z) : option LogEntry :=
  slice ← getSlicesIndexFromLogIndex s logIndex; m_logs s !! Z.to_nat slice.

Definition getLogTermFromLogIndex (s : Raft) (logIndex : Z) : option Z :=
  if (m_lastSnapshotIncludeIndex s <=? logIndex)%Z && (logIndex <=? getLastLogIndex s)%Z then
    if (logIndex =? m_lastSnapshotIncludeIndex s)%Z then Some (m_lastSnapshotIncludeTerm s)
    else logterm <$> log_at s logIndex
  else None.

Definition matchLog (s : Raft) (logIndex logTerm : Z) : option bool :=
  if (m_lastSnapshotIncludeIndex s <=? logIndex)%Z && (logIndex <=? getLastLogIndex s)%Z then
    term ← getLogTermFromLogIndex s logIndex; Some (logTerm =? term)%Z
  else None.

Definition UpToDate (s : Raft) (index term : Z) : bool :=
  let '(lastIndex, lastTerm) := getLastLogIndexAndTerm s in
  (lastTerm <? term)%Z || ((term =? lastTerm)%Z && (lastIndex <=? index)%Z).

(** ** Membership *)

Definition is_role (r : PeerRole) (x : PeerRole) : bool := bool_decide (x = r).

(** A counting loop. *)
Definition countb {A} (f : A → bool) (l : list A) : nat := length (List.filter f l).

Definition getVoterCountLocked (m : Members) : Z :=
  match mb_peerRoles m with
  | [] => Z.of_nat (mb_peers m)
  | roles => Z.of_nat (countb (is_role Voter) roles)
  end.

Definition getQuorumLocked (m : Members) : Z := (getVoterCountLocked m / 2 + 1)%Z.

(** Out of range, a peer counts as a voter. *)
Definition role_at (m : Members) (server : Z) : option PeerRole :=
  if (server <? 0)%Z then None else mb_peerRoles m !! Z.to_nat server.

Definition isVoterLocked (m : Members) (server : Z) : bool :=
  match role_at m server with None => true | Some r => is_role Voter r end.
Definition isLearnerLocked (m : Members) (server : Z) : bool :=
  match role_at m server with None => false | Some r => is_role Learner r end.
Definition isRemovedLocked (m : Members) (server : Z) : bool :=
  match role_at m server with None => false | Some r => is_role Removed r end.
