(* ===== verification/RaftNode.v ===== *)
(** * Raft: the operations of a node

    The member functions of class [Raft] (src/src/raft/raft.cpp).  Each
    definition is what a thread does while it holds [m_mtx]; the RPCs a function
    sends are returned as values, and the reply is handled by a definition of
    its own, since the lock is released in between.  The current time, where the
    code calls [now()], is an argument in milliseconds. *)

From S2P Require Import Prelude Wire RaftTypes.

(** ** Persistence

    [persist] writes every persistent member.  [persistAppended] extends the
    log on disk and rewrites the header, when the file holds the log the tail
    continues; otherwise it falls back to [persist]. *)
Definition persist (s : Raft) : Raft :=
  set_disk (Build_Disk (Some (hard s)) (d_snapshot (disk s))) s.

Definition AppendRaftState (d : Disk) (expectedOldLogCount : nat) (header : HardState)
    (tail : list LogEntry) : option Disk :=
  old ← d_state d;
  if (hs_snapshotIndex old =? hs_snapshotIndex header)%Z &&
     (length (hs_logs old) =? expectedOldLogCount)
  then Some (Build_Disk
         (Some (Build_HardState (hs_currentTerm header) (hs_votedFor header)
                  (hs_snapshotIndex header) (hs_snapshotTerm header) (hs_logs old ++ tail)))
         (d_snapshot d))
  else None.

Definition persistAppended (oldLogSize : nat) (s : Raft) : Raft :=
  if oldLogSize <=? length (m_logs s) then
    match AppendRaftState (disk s) oldLogSize (hard s) (drop oldLogSize (m_logs s)) with
    | Some d => set_disk d s
    | None => persist s
    end
  else persist s.

(** [m_persister->Save(persistData(), snapshot)] *)
Definition save_snapshot (snapshot : string) (s : Raft) : Raft :=
  set_disk (Build_Disk (Some (hard s)) snapshot) s.

(** ** Linearizable reads *)

Definition finish_waiter (result : ReadIndexResult) (w : ReadWaiter) : ReadWaiter :=
  Build_ReadWaiter (rw_deadline w) true result.

Definition finish_waiters (result : ReadIndexResult) (ids : list nat)
    (ws : gmap nat ReadWaiter) : gmap nat ReadWaiter :=
  foldr (λ i m, alter (finish_waiter result) i m) ws ids.

Definition abortReadIndexLocked (status : ReadIndexStatus) (s : Raft) : Raft :=
  let r := reads s in
  let ws := finish_waiters (Build_ReadIndexResult status (m_currentTerm s) (-1) 0)
              (rd_pending r) (rd_waiters r) in
  let ws :=
    match rd_active r with
    | Some round =>
        finish_waiters (Build_ReadIndexResult status (m_currentTerm s) (-1) (round_context round))
          (round_waiters round) ws
    | None => ws
    end in
  set_reads (Build_Reads (rd_nextContext r) [] None ws (rd_requests r) (rd_rounds r)
               (rd_completed r)) s.

(** Step down to [term]: the four assignments every handler makes when it sees
    a higher term. *)
Definition adopt_term (term : Z) (s : Raft) : Raft :=
  set_status Follower (set_vote term (-1) (abortReadIndexLocked ReadNotLeader s)).

Definition hasCommittedEntryInCurrentTermLocked (s : Raft) : option bool :=
  if (m_commitIndex s <? m_lastSnapshotIncludeIndex s)%Z ||
     (getLastLogIndex s <? m_commitIndex s)%Z then Some false
  else term ← getLogTermFromLogIndex s (m_commitIndex s); Some (term =? m_currentTerm s)%Z.

Definition complete_waiter (now : Z) (round : ReadRound) (w : ReadWaiter) : ReadWaiter :=
  finish_waiter
    (Build_ReadIndexResult (if (rw_deadline w <=? now)%Z then ReadTimeout else ReadOk)
       (round_term round) (round_readIndex round) (round_context round)) w.

Definition completeReadRoundIfQuorumLocked (now : Z) (s : Raft) : Raft :=
  let r := reads s in
  match rd_active r with
  | None => s
  | Some round =>
      if negb (round_term round =? m_currentTerm s)%Z || negb (bool_decide (m_status s = Leader))
      then s
      else
        let voterAcks :=
          countb (isVoterLocked (members s)) (elements (round_acknowledgedPeers round)) in
        if (Z.of_nat voterAcks <? getQuorumLocked (members s))%Z then s
        else
          let ws := foldr (λ i m, alter (complete_waiter now round) i m) (rd_waiters r)
                      (round_waiters round) in
          let oks :=
            countb (λ i, match rd_waiters r !! i with
                         | Some w => (now <? rw_deadline w)%Z
                         | None => false end) (round_waiters round) in
          set_reads (Build_Reads (rd_nextContext r) (rd_pending r) None ws (rd_requests r)
                       (rd_rounds r) (rd_completed r +₆₄ N.of_nat oks)) s
  end.

(** The block shared by [doHeartBeat] and [replicationWorker] that opens a
    ReadIndex round for the pending waiters. *)
Definition startReadRound (now : Z) (s : Raft) : option Raft :=
  let r := reads s in
  match rd_active r, rd_pending r with
  | None, _ :: _ =>
      committed ← hasCommittedEntryInCurrentTermLocked s;
      if committed : bool then
        let context := rd_nextContext r +₆₄ 1 in
        let context := if (context =? 0)%N then context +₆₄ 1 else context in
        let round := Build_ReadRound context (m_currentTerm s) (m_commitIndex s)
                       {[ Z.of_nat (m_me s) ]} (rd_pending r) in
        Some (completeReadRoundIfQuorumLocked now
                (set_reads (Build_Reads context [] (Some round) (rd_waiters r) (rd_requests r)
                              (rd_rounds r +₆₄ 1) (rd_completed r)) s))
      else Some s
  | _, _ => Some s
  end.

(** ** AppendEntries *)

(** The loop over the entries, from the member [m_logs] and the two flags
    [persistentStateChanged] and [logTruncated]. *)
Fixpoint append_entries (entries : list LogEntry) (changed truncated : bool) (s : Raft)
    : option (Raft * bool * bool) :=
  match entries with
  | [] => Some (s, changed, truncated)
  | log :: rest =>
      if (getLastLogIndex s <? logindex log)%Z then
        append_entries rest true truncated (set_logs (m_logs s ++ [log]) s)
      else
        mine ← log_at s (logindex log);
        if (logterm mine =? logterm log)%Z then
          (* the same index and term must carry the same command *)
          if bool_decide (command mine = command log)
          then append_entries rest changed truncated s
          else None
        else
          slice ← getSlicesIndexFromLogIndex s (logindex log);
          append_entries rest true true
            (set_logs (take (Z.to_nat slice) (m_logs s) ++ [log]) s)
  end.

(** The [DEFER] of [AppendEntries1]. *)
Definition persist_changes (changed truncated : bool) (oldLogSize : nat) (s : Raft) : Raft :=
  if changed then if truncated then persist s else persistAppended oldLogSize s else s.

Definition reject (s : Raft) (updatenextindex : Z) (ack : N) (accepted : bool)
    : AppendEntriesReply :=
  Build_AppendEntriesReply (m_currentTerm s) false updatenextindex AppNormal ack accepted.

(** The first index of the run of entries of the conflicting term: the loop
    walks down from [index] while the term stays [term]; [fuel] bounds it by the
    distance to the snapshot. *)
Fixpoint conflict_index (fuel : nat) (s : Raft) (term prev index : Z) : option Z :=
  match fuel with
  | O => Some prev
  | S fuel' =>
      if (index <? m_lastSnapshotIncludeIndex s)%Z then Some prev
      else
        t ← getLogTermFromLogIndex s index;
        if (t =? term)%Z then conflict_index fuel' s term prev (index - 1)
        else Some (index + 1)%Z
  end.

Definition AppendEntries1 (now : Z) (args : AppendEntriesArgs) (s : Raft)
    : outcome AppendEntriesReply :=
  if m_removed s then
    Ret s (Build_AppendEntriesReply (m_currentTerm s) false 0 Disconnected 0 false)
  else if (ae_term args <? m_currentTerm s)%Z then
    Ret s (Build_AppendEntriesReply (m_currentTerm s) false (-100) AppNormal 0 false)
  else
    let oldLogSize := length (m_logs s) in
    let changed := (m_currentTerm s <? ae_term args)%Z in
    let s1 := if changed then adopt_term (ae_term args) s else s in
    let s2 := if bool_decide (m_status s1 = Leader)
              then abortReadIndexLocked ReadNotLeader s1 else s1 in
    let s3 := set_leaderContact now (set_status Follower s2) in
    let ack := ae_readcontext args in
    let accepted := negb (ack =? 0)%N in
    let prev := ae_prevlogindex args in
    if (getLastLogIndex s3 <? prev)%Z then
      Ret (persist_changes changed false oldLogSize s3)
        (reject s3 (getLastLogIndex s3 + 1) ack accepted)
    else if (prev <? m_lastSnapshotIncludeIndex s3)%Z then
      Ret (persist_changes changed false oldLogSize s3)
        (reject s3 (m_lastSnapshotIncludeIndex s3 + 1) ack accepted)
    else
      fetch matches := matchLog s3 prev (ae_prevlogterm args) in s;
      if matches : bool then
        match append_entries (ae_entries args) changed false s3 with
        | None => Exit s
        | Some (s4, changed, truncated) =>
            let lastLogIndex := getLastLogIndex s4 in
            ensure (prev + Z.of_nat (length (ae_entries args)) <=? lastLogIndex)%Z in s;
            let newCommitIndex := Z.min (ae_leadercommit args) lastLogIndex in
            let s5 :=
              if (m_commitIndex s4 <? ae_leadercommit args)%Z &&
                 (m_commitIndex s4 <? newCommitIndex)%Z
              then set_commitIndex newCommitIndex s4 else s4 in
            ensure (m_commitIndex s5 <=? lastLogIndex)%Z in s;
            Ret (persist_changes changed truncated oldLogSize s5)
              (Build_AppendEntriesReply (m_currentTerm s5) true 0 AppNormal ack accepted)
        end
      else
        fetch term := getLogTermFromLogIndex s3 prev in s;
        fetch next := conflict_index (S (Z.to_nat (prev - m_lastSnapshotIncludeIndex s3))) s3
                        term prev prev in s;
        Ret (persist_changes changed false oldLogSize s3) (reject s3 next ack accepted).

(** ** Elections *)

Definition RequestVote (now : Z) (args : RequestVoteArgs) (s : Raft)
    : outcome RequestVoteReply :=
  let refuse (s : Raft) (state : Z) :=
    Ret (persist s) (Build_RequestVoteReply (m_currentTerm s) false state) in
  if m_removed s || isLearnerLocked (members s) (Z.of_nat (m_me s)) ||
     negb (isVoterLocked (members s) (rv_candidateid args)) then refuse s Expire
  else if (rv_term args <? m_currentTerm s)%Z then refuse s Expire
  else if (m_currentTerm s <? rv_term args)%Z &&
          match ck_lastLeaderContact (clocks s) with
          | None => false
          | Some t => (now - t <? minRandomizedElectionTime)%Z
          end then refuse s Expire
  else
    let s1 := if (m_currentTerm s <? rv_term args)%Z then adopt_term (rv_term args) s else s in
    ensure (rv_term args =? m_currentTerm s1)%Z in s;
    if negb (UpToDate s1 (rv_lastlogindex args) (rv_lastlogterm args)) then refuse s1 Voted
    else if negb (m_votedFor s1 =? -1)%Z && negb (m_votedFor s1 =? rv_candidateid args)%Z
    then refuse s1 Voted
    else
      let s2 := set_electionReset now (set_vote (m_currentTerm s1) (rv_candidateid args) s1) in
      Ret (persist s2) (Build_RequestVoteReply (m_currentTerm s2) true Normal).

(** [leaderUpdateCommitIndex]: the replicas that hold [index], counting the
    leader itself. *)
Definition replicas (s : Raft) (index : Z) : nat :=
  countb (λ i, isVoterLocked (members s) (Z.of_nat i) &&
               (bool_decide (i = m_me s) || (index <=? nth i (m_matchIndex s) 0)%Z))
    (seq 0 (m_peers s)).

(** The loop over [index], downwards from the last log index; [None] when
    [getLogTermFromLogIndex] fails its assertion. *)
Fixpoint commit_scan (fuel : nat) (s : Raft) (index : Z) : option Z :=
  match fuel with
  | O => Some (m_commitIndex s)
  | S fuel' =>
      if (index <=? m_commitIndex s)%Z then Some (m_commitIndex s)
      else if (getQuorumLocked (members s) <=? Z.of_nat (replicas s index))%Z then
        term ← getLogTermFromLogIndex s index;
        if (term =? m_currentTerm s)%Z then Some index else commit_scan fuel' s (index - 1)
      else commit_scan fuel' s (index - 1)
  end.

Definition leaderUpdateCommitIndex (s : Raft) : option Raft :=
  let lastLogIndex := getLastLogIndex s in
  index ← commit_scan (Z.to_nat (lastLogIndex - m_commitIndex s)) s lastLogIndex;
  Some (set_commitIndex index s).

Definition noop_command (term : Z) : string :=
  Op_asString (Build_Op "RaftNoop" EmptyString EmptyString "raft-internal" term EmptyString).

(** The assignments of a won election: role, replication indexes, and the
    no-op entry of the new term. *)
Definition become_leader (s : Raft) : Raft :=
  let lastLogIndex := getLastLogIndex s in
  let s1 := set_indexes (replicate (length (m_nextIndex s)) (lastLogIndex + 1)%Z)
              (replicate (length (m_nextIndex s)) 0%Z ++
               drop (length (m_nextIndex s)) (m_matchIndex s)) (set_status Leader s) in
  set_logs (m_logs s1 ++ [Build_LogEntry (noop_command (m_currentTerm s)) (m_currentTerm s)
                            (lastLogIndex + 1)]) s1.

(** [doElection] returns the vote counter it shares with the threads that send
    the requests, and the requests. *)
Definition doElection (now : Z) (s : Raft)
    : outcome (option (Z * list (nat * RequestVoteArgs))) :=
  if m_removed s || isLearnerLocked (members s) (Z.of_nat (m_me s)) then Ret s None
  else if bool_decide (m_status s = Leader) then Ret s None
  else
    let s1 := set_status Candidate (abortReadIndexLocked ReadNotLeader s) in
    let s2 := persist (set_vote (m_currentTerm s1 + 1) (Z.of_nat (m_me s1)) s1) in
    let s3 := set_electionReset now s2 in
    if (getQuorumLocked (members s3) <=? 1)%Z then
      fetch s4 := leaderUpdateCommitIndex (become_leader s3) in s3;
      Ret (persist s4) (Some (0%Z, []))
    else
      let '(lastLogIndex, lastLogTerm) := getLastLogIndexAndTerm s3 in
      let args := Build_RequestVoteArgs (m_currentTerm s3) (Z.of_nat (m_me s3)) lastLogIndex
                    lastLogTerm in
      let targets := List.filter (λ i, negb (bool_decide (i = m_me s3)) &&
                                       isVoterLocked (members s3) (Z.of_nat i))
                       (seq 0 (m_peers s3)) in
      Ret s3 (Some (1%Z, (λ i, (i, args)) <$> targets)).

(** [sendRequestVote] once the RPC has returned: [votedNum] is the counter of
    the election the request belongs to, and its new value is returned. *)
Definition sendRequestVote (reply : RequestVoteReply) (votedNum : Z) (s : Raft) : outcome Z :=
  if (m_currentTerm s <? rvr_term reply)%Z then
    Ret (persist (adopt_term (rvr_term reply) s)) votedNum
  else if (rvr_term reply <? m_currentTerm s)%Z then Ret s votedNum
  else if negb (rvr_votegranted reply) then Ret s votedNum
  else
    let votedNum := (votedNum + 1)%Z in
    if (votedNum <? getQuorumLocked (members s))%Z then Ret s votedNum
    else
      ensure (negb (bool_decide (m_status s = Leader))) in s;
      Ret (persist (become_leader s)) 0%Z.

(** ** Replication *)

Definition push_task (t : ReplicationTaskType) (i : nat) (qs : list (list ReplicationTaskType)) :=
  alter (λ q, q ++ [t]) i qs.

(** [doHeartBeat]'s loop over the followers; [None] when a [nextIndex] fails its
    assertion. *)
Definition heartbeat_tasks (s : Raft) : option (list (list ReplicationTaskType)) :=
  foldl (λ acc i,
    qs ← acc;
    if bool_decide (i = m_me s) || isRemovedLocked (members s) (Z.of_nat i) then Some qs
    else
      let next := nth i (m_nextIndex s) 0%Z in
      if (1 <=? next)%Z then
        Some (push_task (if (next <=? m_lastSnapshotIncludeIndex s)%Z then TaskSnapshot
                         else TaskAppendEntries) i qs)
      else None) (Some (q_replication (queues s))) (seq 0 (m_peers s)).

Definition doHeartBeat (now : Z) (s : Raft) : outcome () :=
  if m_removed s then Ret s ()
  else if bool_decide (m_status s = Leader) then
    fetch s1 := startReadRound now s in s;
    fetch qs := heartbeat_tasks s1 in s;
    Ret (set_heartBeatReset now (set_replication qs s1)) ()
  else Ret s ().

(** [getPrevLogInfo] *)
Definition getPrevLogInfo (s : Raft) (server : nat) : option (Z * Z) :=
  let nextIndex := nth server (m_nextIndex s) 0%Z in
  if (nextIndex =? m_lastSnapshotIncludeIndex s + 1)%Z
  then Some (m_lastSnapshotIncludeIndex s, m_lastSnapshotIncludeTerm s)
  else e ← log_at s (nextIndex - 1); Some ((nextIndex - 1)%Z, logterm e).

(** What a replication worker does next for its follower. *)
Inductive replication :=
| Idle
| SendSnapshot
| SendEntries (args : AppendEntriesArgs).

(** The request built from [m_nextIndex[server]]. *)
Definition build_append (s : Raft) (server : nat) : option AppendEntriesArgs :=
  '(prevIndex, prevTerm) ← getPrevLogInfo s server;
  let context :=
    match rd_active (reads s) with
    | Some round => if (round_term round =? m_currentTerm s)%Z then round_context round else 0%N
    | None => 0%N
    end in
  entries ←
    (if (prevIndex =? m_lastSnapshotIncludeIndex s)%Z then Some (m_logs s)
     else slice ← getSlicesIndexFromLogIndex s prevIndex;
          Some (drop (S (Z.to_nat slice)) (m_logs s)));
  if (prevIndex + Z.of_nat (length entries) =? getLastLogIndex s)%Z then
    Some (Build_AppendEntriesArgs (m_currentTerm s) (Z.of_nat (m_me s)) prevIndex prevTerm entries
            (m_commitIndex s) context)
  else None.

(** The locked section of [replicationWorker], after it has taken a task and
    dropped the redundant ones behind it. *)
Definition replicationWorker (now : Z) (server : nat) (s : Raft) : outcome replication :=
  if m_removed s || isRemovedLocked (members s) (Z.of_nat server) then Ret s Idle
  else
    match nth server (q_replication (queues s)) [] with
    | [] => Ret s Idle
    | _ :: rest =>
        let s1 := set_replication (<[server := drop 1024 rest]> (q_replication (queues s))) s in
        if bool_decide (m_status s1 = Leader) then
          fetch s2 := startReadRound now s1 in s1;
          ensure (1 <=? nth server (m_nextIndex s2) 0)%Z in s1;
          if (nth server (m_nextIndex s2) 0 <=? m_lastSnapshotIncludeIndex s2)%Z
          then Ret s2 SendSnapshot
          else fetch args := build_append s2 server in s1; Ret s2 (SendEntries args)
        else Ret s1 Idle
    end.

(** [HandleAppendEntriesReply]; on a higher term the code does not call
    [persist]. *)
Definition HandleAppendEntriesReply (now : Z) (server : nat) (args : AppendEntriesArgs)
    (reply : AppendEntriesReply) (s : Raft) : outcome () :=
  if (aer_appstate reply =? Disconnected)%Z then Ret s ()
  else if (m_currentTerm s <? aer_term reply)%Z then Ret (adopt_term (aer_term reply) s) ()
  else if (aer_term reply <? m_currentTerm s)%Z then Ret s ()
  else if negb (bool_decide (m_status s = Leader)) then Ret s ()
  else
    let s1 :=
      match rd_active (reads s) with
      | Some round =>
          if aer_readcontextaccepted reply &&
             (aer_readcontextack reply =? round_context round)%N &&
             (ae_term args =? round_term round)%Z
          then
            let r := reads s in
            let round := Build_ReadRound (round_context round) (round_term round)
                           (round_readIndex round)
                           ({[ Z.of_nat server ]} ∪ round_acknowledgedPeers round)
                           (round_waiters round) in
            completeReadRoundIfQuorumLocked now
              (set_reads (Build_Reads (rd_nextContext r) (rd_pending r) (Some round)
                            (rd_waiters r) (rd_requests r) (rd_rounds r) (rd_completed r)) s)
          else s
      | None => s
      end in
    if negb (aer_success reply) then
      if (aer_updatenextindex reply =? -100)%Z then Ret s1 ()
      else Ret (set_indexes (<[server := aer_updatenextindex reply]> (m_nextIndex s1))
                  (m_matchIndex s1) s1) ()
    else
      let mtch := Z.max (nth server (m_matchIndex s1) 0%Z)
                    (ae_prevlogindex args + Z.of_nat (length (ae_entries args))) in
      let s2 := set_indexes (<[server := (mtch + 1)%Z]> (m_nextIndex s1))
                  (<[server := mtch]> (m_matchIndex s1)) s1 in
      let lastLogIndex := getLastLogIndex s2 in
      ensure (mtch + 1 <=? lastLogIndex + 1)%Z in s2;
      fetch s3 := leaderUpdateCommitIndex s2 in s2;
      ensure (m_commitIndex s3 <=? lastLogIndex)%Z in s3;
      Ret s3 ().

(** ** Snapshots *)

(** What [leaderSendSnapShot] captures under the lock. *)
Record SnapshotSource := {
  ss_leaderTerm : Z;
  ss_index : Z;
  ss_term : Z;
  ss_data : string;
}.

Definition snapshot_source (s : Raft) : SnapshotSource :=
  Build_SnapshotSource (m_currentTerm s) (m_lastSnapshotIncludeIndex s)
    (m_lastSnapshotIncludeTerm s) (d_snapshot (disk s)).

Definition snapshot_chunk_size : nat := 256 * 1024.

(** The requests of the [while (offset < totalSize)] loop, in order, with
    chunks of [chunkSize] bytes. *)
Fixpoint snapshot_chunks (fuel chunkSize : nat) (me : nat) (src : SnapshotSource) (offset : nat)
    : list InstallSnapshotRequest :=
  match fuel with
  | O => []
  | S fuel' =>
      let totalSize := String.length (ss_data src) in
      if totalSize <=? offset then []
      else
        let chunkLen := Nat.min chunkSize (totalSize - offset) in
        Build_InstallSnapshotRequest (Z.of_nat me) (ss_leaderTerm src) (ss_index src)
          (ss_term src) (stake chunkLen (sdrop offset (ss_data src))) (N.of_nat offset)
          (totalSize <=? offset + chunkLen) ::
        snapshot_chunks fuel' chunkSize me src (offset + chunkLen)
  end.

(** After each chunk: whether the transfer goes on. *)
Definition snapshot_chunk_reply (now : Z) (src : SnapshotSource) (reply : InstallSnapshotResponse)
    (s : Raft) : Raft * bool :=
  if negb (bool_decide (m_status s = Leader)) || negb (m_currentTerm s =? ss_leaderTerm src)%Z
  then (s, false)
  else if (m_currentTerm s <? reply)%Z
  then (set_electionReset now (persist (adopt_term reply s)), false)
  else (s, true).

(** After the last chunk. *)
Definition snapshot_finish (server : nat) (src : SnapshotSource) (s : Raft) : Raft :=
  if bool_decide (m_status s = Leader) && (m_currentTerm s =? ss_leaderTerm src)%Z
  then set_indexes (<[server := (ss_index src + 1)%Z]> (m_nextIndex s))
         (<[server := ss_index src]> (m_matchIndex s)) s
  else s.

(** [m_snapshotReceiveBuffer.resize(n)] for [n <= size()], then [append]. *)
Definition extend_buffer (buffer : string) (offset : N) (data : string) : string :=
  (if (offset <=? N.of_nat (String.length buffer))%N then stake (N.to_nat offset) buffer
   else buffer) +:+ data.

Definition InstallSnapshot (now : Z) (args : InstallSnapshotRequest) (s : Raft)
    : outcome InstallSnapshotResponse :=
  if (is_term args <? m_currentTerm s)%Z then Ret s (m_currentTerm s)
  else
    let s1 := if (m_currentTerm s <? is_term args)%Z
              then persist (adopt_term (is_term args) s) else s in
    let s2 := if bool_decide (m_status s1 = Leader)
              then abortReadIndexLocked ReadNotLeader s1 else s1 in
    let s3 := set_leaderContact now (set_status Follower s2) in
    let index := is_lastsnapshotincludeindex args in
    if (index <=? m_lastSnapshotIncludeIndex s3)%Z then Ret s3 (m_currentTerm s3)
    else
      let single := (is_chunkoffset args =? 0)%N && is_chunkdone args in
      let buffer :=
        if (is_chunkoffset args =? 0)%N then is_data args
        else extend_buffer (q_snapshotBuffer (queues s3)) (is_chunkoffset args) (is_data args) in
      if negb single && negb (is_chunkdone args)
      then Ret (set_snapshotBuffer buffer s3) (m_currentTerm s3)
      else
        let s4 := set_snapshotBuffer EmptyString s3 in
        fetch logs :=
          (if (index <? getLastLogIndex s4)%Z
           then slice ← getSlicesIndexFromLogIndex s4 index;
                Some (drop (S (Z.to_nat slice)) (m_logs s4))
           else Some []) in s4;
        let s5 := set_lastApplied (Z.max (m_lastApplied s4) index)
                    (set_commitIndex (Z.max (m_commitIndex s4) index)
                       (set_snapshot index (is_lastsnapshotincludeterm args) logs s4)) in
        let s6 := push_apply [ApplySnapshot buffer (is_lastsnapshotincludeterm args) index] s5 in
        Ret (save_snapshot buffer s6) (m_currentTerm s6).

Definition CondInstallSnapshot (lastIncludedTerm lastIncludedIndex : Z) (snapshot : string)
    (s : Raft) : outcome bool :=
  if (lastIncludedIndex <=? m_commitIndex s)%Z then Ret s false
  else
    fetch logs :=
      (if (getLastLogIndex s <? lastIncludedIndex)%Z then Some []
       else slice ← getSlicesIndexFromLogIndex s lastIncludedIndex;
            Some (drop (S (Z.to_nat slice)) (m_logs s))) in s;
    Ret (save_snapshot snapshot
           (set_lastApplied lastIncludedIndex (set_commitIndex lastIncludedIndex
              (set_snapshot lastIncludedIndex lastIncludedTerm logs s)))) true.

(** The entries [index + 1 .. getLastLogIndex()], read one by one. *)
Definition entries_after (s : Raft) (index : Z) : option (list LogEntry) :=
  mapM (λ k, log_at s (index + 1 + Z.of_nat k)%Z)
    (seq 0 (Z.to_nat (getLastLogIndex s - index))).

(** [Snapshot(index, snapshot)] when both files are published
    ([CommitStagedSnapshot] returned [true]). *)
Definition Snapshot (index : Z) (snapshot : string) (s : Raft) : outcome bool :=
  if (index <=? m_lastSnapshotIncludeIndex s)%Z || (m_commitIndex s <? index)%Z
  then Ret s false
  else
    let lastLogIndex := getLastLogIndex s in
    fetch e := log_at s index in s;
    fetch trunckedLogs := entries_after s index in s;
    let s1 := save_snapshot snapshot (set_snapshot index (logterm e) trunckedLogs s) in
    let s2 := set_lastApplied (Z.max (m_lastApplied s1) index)
                (set_commitIndex (Z.max (m_commitIndex s1) index) s1) in
    ensure (Z.of_nat (length (m_logs s2)) + m_lastSnapshotIncludeIndex s2 =? lastLogIndex)%Z in s2;
    Ret s2 true.

(** ** Proposals *)

Definition is_conf_change (op : Op) : bool := String.eqb (Operation op) "ConfChange".

(** [Start]: the term the proposal was accepted in, or a refusal. *)
Definition Start (command : Op) (s : Raft) : Raft * option Z :=
  if m_removed s || negb (bool_decide (m_status s = Leader)) then (s, None)
  else
    let s1 := if is_conf_change command then set_confChangePending true s else s in
    (set_propose (q_propose (queues s1) ++ [command]) s1, Some (m_currentTerm s1)).

(** The batch of [raftPollerTicker]: at most 100 proposals, oldest first. *)
Definition poll_batch (s : Raft) : list Op * Raft :=
  (take 100 (q_propose (queues s)), set_propose (drop 100 (q_propose (queues s))) s).

Definition batch_pending (batch : list Op) (s : Raft) : bool :=
  if existsb is_conf_change batch then false else q_confChangePending (queues s).

(** Entries with consecutive indexes after [lastLogIndex]. *)
Fixpoint batch_entries (term lastLogIndex : Z) (batch : list Op) : list LogEntry :=
  match batch with
  | [] => []
  | op :: rest =>
      Build_LogEntry (Op_asString op) term (lastLogIndex + 1) ::
      batch_entries term (lastLogIndex + 1) rest
  end.

(** The locked section of [raftPollerTicker]. *)
Definition raftPollerTicker (batch : list Op) (s : Raft) : outcome () :=
  let s1 := set_confChangePending (batch_pending batch s) s in
  if negb (bool_decide (m_status s1 = Leader)) then
    Ret (push_apply ((λ op, ApplyRejected (Op_asString op)) <$> batch) s1) ()
  else
    let oldLogSize := length (m_logs s1) in
    let s2 := set_logs (m_logs s1 ++ batch_entries (m_currentTerm s1) (getLastLogIndex s1) batch)
                s1 in
    fetch s3 := leaderUpdateCommitIndex s2 in s1;
    Ret (persistAppended oldLogSize s3) ().

(** ** Delivery to the state machine *)

(** The loop of [getApplyLogs] from [m_lastApplied]. *)
Fixpoint apply_loop (fuel : nat) (s : Raft) : option (Raft * list ApplyMsg) :=
  match fuel with
  | O => Some (s, [])
  | S fuel' =>
      if (m_lastApplied s <? m_commitIndex s)%Z then
        let index := (m_lastApplied s + 1)%Z in
        e ← log_at s index;
        if (logindex e =? index)%Z then
          '(s', msgs) ← apply_loop fuel' (set_lastApplied index s);
          Some (s', ApplyCommand (command e) index :: msgs)
        else None
      else Some (s, [])
  end.

Definition getApplyLogs (s : Raft) : option (Raft * list ApplyMsg) :=
  if (m_commitIndex s <=? getLastLogIndex s)%Z
  then apply_loop (Z.to_nat (m_commitIndex s - m_lastApplied s)) s else None.

(** One iteration of [applierTicker]. *)
Definition applierTicker (s : Raft) : outcome (list ApplyMsg) :=
  if m_removed s || (m_commitIndex s <=? m_lastApplied s)%Z then Ret s []
  else
    match getApplyLogs s with
    | None => Exit s
    | Some (s', msgs) => Ret (push_apply msgs s') msgs
    end.

(** ** ReadIndex *)

(** The first locked section of [ReadIndex]: the waiter [w] is a fresh object. *)
Definition ReadIndex_enqueue (w : nat) (deadline : Z) (s : Raft) : Raft * option ReadIndexResult :=
  let r := reads s in
  let requests := rd_requests r +₆₄ 1 in
  if bool_decide (m_status s = Leader) then
    let waiter := Build_ReadWaiter deadline false (Build_ReadIndexResult ReadNotLeader (-1) (-1) 0) in
    (set_reads (Build_Reads (rd_nextContext r) (rd_pending r ++ [w]) (rd_active r)
                  (<[w := waiter]> (rd_waiters r)) requests (rd_rounds r) (rd_completed r)) s, None)
  else
    (set_reads (Build_Reads (rd_nextContext r) (rd_pending r) (rd_active r) (rd_waiters r) requests
                  (rd_rounds r) (rd_completed r)) s,
     Some (Build_ReadIndexResult ReadNotLeader (m_currentTerm s) (-1) 0)).

Definition removeReadWaiterLocked (w : nat) (s : Raft) : Raft :=
  let r := reads s in
  let drop_w := filter (λ i, i ≠ w) in
  let active :=
    match rd_active r with
    | None => None
    | Some round =>
        let ws := drop_w (round_waiters round) in
        match ws with
        | [] => None
        | _ => Some (Build_ReadRound (round_context round) (round_term round)
                       (round_readIndex round) (round_acknowledgedPeers round) ws)
        end
    end in
  set_reads (Build_Reads (rd_nextContext r) (drop_w (rd_pending r)) active (rd_waiters r)
               (rd_requests r) (rd_rounds r) (rd_completed r)) s.

(** One turn of the waiting loop of [ReadIndex]; [timedOut] is the result of
    [wait_until].  [None] means it waits again. *)
Definition ReadIndex_wait (w : nat) (timedOut : bool) (s : Raft)
    : Raft * option ReadIndexResult :=
  match rd_waiters (reads s) !! w with
  | Some waiter =>
      if rw_completed waiter then (s, Some (rw_result waiter))
      else if negb (bool_decide (m_status s = Leader)) then
        (removeReadWaiterLocked w s,
         Some (Build_ReadIndexResult ReadNotLeader (m_currentTerm s) (-1) 0))
      else if timedOut then
        (removeReadWaiterLocked w s,
         Some (Build_ReadIndexResult ReadTimeout (m_currentTerm s) (-1) 0))
      else (s, None)
  | None => (s, None)
  end.

Definition IsLeaderInTerm (term : Z) (s : Raft) : bool :=
  bool_decide (m_status s = Leader) && (m_currentTerm s =? term)%Z.

Definition GetState (s : Raft) : Z * bool := (m_currentTerm s, bool_decide (m_status s = Leader)).

Definition GetLogEntries (maxEntries : nat) (s : Raft) : list LogEntry :=
  drop (if maxEntries <? length (m_logs s) then length (m_logs s) - maxEntries else 0) (m_logs s).

(** ** Start-up

    [init] with the persisted state decoded; [peerIds] empty makes every peer a
    voter. *)
Definition init_members (peers me : nat) (localPeerId : N) (peerIds : list N)
    (learners : list bool) : Members :=
  match peerIds with
  | [] => Build_Members me peers (N.of_nat <$> seq 0 peers) (replicate peers Voter) localPeerId false
  | _ => Build_Members me peers peerIds
           (imap (λ i _, if nth i learners false then Learner else Voter) peerIds)
           localPeerId false
  end.

Definition empty_reads : Reads := Build_Reads 0 [] None ∅ 0 0 0.

Definition init (now : Z) (mb : Members) (d : Disk) : Raft :=
  let h := match d_state d with
           | Some h => h
           | None => Build_HardState 0 (-1) 0 0 []
           end in
  let contact := match d_state d with Some _ => Some now | None => None end in
  let applied := if (0 <? hs_snapshotIndex h)%Z then hs_snapshotIndex h else 0%Z in
  Build_Raft h
    (Build_Progress 0 applied (replicate (mb_peers mb) 0%Z) (replicate (mb_peers mb) 0%Z) Follower)
    (Build_Clocks now contact now) empty_reads mb
    (Build_Queues [] [] (replicate (mb_peers mb) []) false EmptyString) d.
