(* ===== verification/RaftPersist.v ===== *)
(** * Raft: the persisted state at the byte level

    The binary format of the Raft state file (the anonymous namespace and
    [readPersist] of src/src/raft/raft.cpp) and class [Persister]
    (src/src/raft/persister.cpp), with the writes an operation makes to its two
    files in order, so that a crash can be placed between any two of them or in
    the middle of an append.  [RaftNode] works on the decoded state; the
    theorems here relate the two. *)

From S2P Require Import Prelude Wire RaftTypes RaftNode.

Definition kRaftPersistMagic : string := "TTRF2".

(** ** The format *)

Definition AppendUint64 (n : N) : string := le_bytes 8 n.

Definition encode_entry (item : LogEntry) : string :=
  i32_bytes (logterm item) +:+ i32_bytes (logindex item) +:+
  AppendUint64 (N.of_nat (String.length (command item))) +:+ command item.

Definition encode_entries (logs : list LogEntry) : string :=
  foldr (λ e s, encode_entry e +:+ s) EmptyString logs.

Definition EncodePersistHeader (currentTerm votedFor snapshotIndex snapshotTerm : Z) (logCount : N)
    : string :=
  kRaftPersistMagic +:+ i32_bytes currentTerm +:+ i32_bytes votedFor +:+ i32_bytes snapshotIndex +:+
  i32_bytes snapshotTerm +:+ AppendUint64 logCount.

Definition EncodePersistTail (logs : list LogEntry) (startOffset : nat) : string :=
  encode_entries (drop startOffset logs).

Definition EncodePersistData (h : HardState) : string :=
  kRaftPersistMagic +:+ i32_bytes (hs_currentTerm h) +:+ i32_bytes (hs_votedFor h) +:+
  i32_bytes (hs_snapshotIndex h) +:+ i32_bytes (hs_snapshotTerm h) +:+
  AppendUint64 (N.of_nat (length (hs_logs h))) +:+ encode_entries (hs_logs h).

Definition HasBinaryPersistMagic (data : string) : bool :=
  (5 <=? String.length data) && String.eqb (stake 5 data) kRaftPersistMagic.

Definition ReadInt32 (data : string) (offset : nat) : option (Z * nat) :=
  '(b, offset) ← read_bytes data offset 4; Some (i32_value b, offset).

Definition ReadUint64 (data : string) (offset : nat) : option (N * nat) :=
  '(b, offset) ← read_bytes data offset 8; Some (le_value b, offset).

(** The loop over the log: [None] when the log is invalid, [Some None] when the
    wrapped length check lets through a length [std::string] refuses with an
    exception. *)
Fixpoint read_logs (count : nat) (data : string) (offset : nat) : option (option (list LogEntry)) :=
  match count with
  | O => Some (Some [])
  | S count' =>
      '(logTerm, offset) ← ReadInt32 data offset;
      '(logIndex, offset) ← ReadInt32 data offset;
      '(commandSize, offset) ← ReadUint64 data offset;
      let size := N.of_nat (String.length data) in
      if (size <? N.of_nat offset +₆₄ commandSize)%N then None
      else if (size - N.of_nat offset <? commandSize)%N then Some None
      else
        let n := N.to_nat commandSize in
        logs ← read_logs count' data (offset + n);
        Some (option_map (cons (Build_LogEntry (stake n (sdrop offset data)) logTerm logIndex)) logs)
  end.

(** [readPersist] on the members [m]; [legacy] decodes the Boost archive of
    older versions.  [None] is an exception. *)
Definition readPersist (legacy : string → option HardState) (data : string) (m : HardState)
    : option HardState :=
  if bool_decide (data = EmptyString) then Some m
  else if negb (HasBinaryPersistMagic data) then Some (default m (legacy data))
  else
    match ReadInt32 data 5 with
    | None => Some m
    | Some (t, o) =>
    let m := Build_HardState t (hs_votedFor m) (hs_snapshotIndex m) (hs_snapshotTerm m) (hs_logs m) in
    match ReadInt32 data o with
    | None => Some m
    | Some (v, o) =>
    let m := Build_HardState t v (hs_snapshotIndex m) (hs_snapshotTerm m) (hs_logs m) in
    match ReadInt32 data o with
    | None => Some m
    | Some (si, o) =>
    let m := Build_HardState t v si (hs_snapshotTerm m) (hs_logs m) in
    match ReadInt32 data o with
    | None => Some m
    | Some (st, o) =>
    let m := Build_HardState t v si st (hs_logs m) in
    match ReadUint64 data o with
    | None => Some m
    | Some (logCount, o) =>
        match read_logs (N.to_nat logCount) data o with
        | None => Some m
        | Some logs => Build_HardState t v si st <$> logs
        end
    end end end end end.

(** ** The files and the writes *)

Record files := { f_state : string; f_snapshot : string }.

Inductive write :=
| AppendState (b : string)
| OverwriteState (b : string)
| ReplaceState (b : string)
| AppendSnapshot (b : string)
| ReplaceSnapshot (b : string).

Definition do_write (f : files) (w : write) : files :=
  match w with
  | AppendState b => Build_files (f_state f +:+ b) (f_snapshot f)
  | OverwriteState b =>
      Build_files (b +:+ sdrop (String.length b) (f_state f)) (f_snapshot f)
  | ReplaceState b => Build_files b (f_snapshot f)
  | AppendSnapshot b => Build_files (f_state f) (f_snapshot f +:+ b)
  | ReplaceSnapshot b => Build_files (f_state f) b
  end.

Definition perform (ws : list write) (f : files) : files := foldl do_write f ws.

(** What an append cut short after [k] bytes leaves. *)
Definition torn (k : nat) (w : write) : list write :=
  match w with
  | AppendState b => [AppendState (stake k b)]
  | AppendSnapshot b => [AppendSnapshot (stake k b)]
  | _ => []
  end.

(** The files when the process stops after [n] writes and [k] bytes of the
    next. *)
Definition crash_at (n k : nat) (ws : list write) (f : files) : files :=
  perform (take n ws ++ from_option (torn k) [] (ws !! n)) f.

Module Persister.

Record t := { disk_files : files; m_raftState : string }.

Definition kRaftPersistHeaderSize : nat := 29.

Definition HasBinaryHeader (data : string) : bool :=
  (kRaftPersistHeaderSize <=? String.length data) && String.eqb (stake 5 data) kRaftPersistMagic.

(** Both files are truncated, then written. *)
Definition Save_writes (raftstate snapshot : string) : list write :=
  [ReplaceState EmptyString; ReplaceSnapshot EmptyString; AppendState raftstate;
   AppendSnapshot snapshot].

Definition Save (raftstate snapshot : string) (p : t) : t :=
  Build_t (perform (Save_writes raftstate snapshot) (disk_files p)) raftstate.

(** The two renames that publish a snapshot. *)
Definition CommitStagedSnapshot_writes (raftstate snapshot : string) : list write :=
  [ReplaceSnapshot snapshot; ReplaceState raftstate].

Definition CommitStagedSnapshot (raftstate snapshot : string) (p : t) : t :=
  Build_t (perform (CommitStagedSnapshot_writes raftstate snapshot) (disk_files p)) raftstate.

Definition append_only (data old : string) : bool :=
  HasBinaryHeader old && HasBinaryHeader data && (String.length old <=? String.length data) &&
  String.eqb (stake (String.length old - kRaftPersistHeaderSize) (sdrop kRaftPersistHeaderSize data))
    (sdrop kRaftPersistHeaderSize old).

Definition SaveRaftState_writes (data : string) (p : t) : list write :=
  if append_only data (m_raftState p) then
    (if String.length (m_raftState p) <? String.length data
     then [AppendState (sdrop (String.length (m_raftState p)) data)] else []) ++
    [OverwriteState (stake kRaftPersistHeaderSize data)]
  else [ReplaceState data].

Definition SaveRaftState (data : string) (p : t) : t :=
  Build_t (perform (SaveRaftState_writes data p) (disk_files p)) data.

Definition kSnapIdxOffset : nat := 13.
Definition kLogCountOffset : nat := 21.

Definition can_append (expectedOldLogCount : N) (headerBytes : string) (p : t) : bool :=
  HasBinaryHeader (m_raftState p) && (String.length headerBytes =? kRaftPersistHeaderSize) &&
  (i32_value (stake 4 (sdrop kSnapIdxOffset (m_raftState p))) =?
   i32_value (stake 4 (sdrop kSnapIdxOffset headerBytes)))%Z &&
  (le_value (stake 8 (sdrop kLogCountOffset (m_raftState p))) =? expectedOldLogCount)%N.

Definition AppendRaftState_writes (headerBytes tailBytes : string) : list write :=
  (if bool_decide (tailBytes = EmptyString) then [] else [AppendState tailBytes]) ++
  [OverwriteState headerBytes].

Definition AppendRaftState (expectedOldLogCount : N) (headerBytes tailBytes : string) (p : t)
    : option t :=
  if can_append expectedOldLogCount headerBytes p then
    Some (Build_t (perform (AppendRaftState_writes headerBytes tailBytes) (disk_files p))
            ((headerBytes +:+ sdrop kRaftPersistHeaderSize (m_raftState p)) +:+ tailBytes))
  else None.

(** The constructor: the state file is read, the staged files are discarded. *)
Definition open (f : files) : t := Build_t f (f_state f).

End Persister.

(** ** Decoding what was encoded *)

Definition entry_fits (e : LogEntry) : Prop := fits_i32 (logterm e) ∧ fits_i32 (logindex e).

(** The members are 32-bit, and the encoding has a size. *)
Definition hard_fits (h : HardState) : Prop :=
  fits_i32 (hs_currentTerm h) ∧ fits_i32 (hs_votedFor h) ∧ fits_i32 (hs_snapshotIndex h) ∧
  fits_i32 (hs_snapshotTerm h) ∧ Forall entry_fits (hs_logs h).

Definition sized (data : string) : Prop := fits64 (N.of_nat (String.length data)).

Lemma remains_i32 data o z post :
  fits_i32 z → remains data o (i32_bytes z +:+ post) →
  ReadInt32 data o = Some (z, o + 4) ∧ remains data (o + 4) post.
Proof.
  intros Hz [Hr Hp]%remains_le. unfold ReadInt32. rewrite Hr. split; [|done]. cbn [mbind option_bind].
  do 2 f_equal. by apply i32_value_bytes.
Qed.

Lemma remains_u64 data o n post :
  fits64 n → remains data o (AppendUint64 n +:+ post) →
  ReadUint64 data o = Some (n, o + 8) ∧ remains data (o + 8) post.
Proof.
  intros Hn [Hr Hp]%remains_le. unfold ReadUint64. rewrite Hr. split; [|done]. cbn [mbind option_bind].
  do 2 f_equal. by apply le_value_bytes.
Qed.

Lemma remains_sized data o rest : sized data → remains data o rest → fits64 (N.of_nat (String.length rest)).
Proof.
  intros Hs [Ho <-]. rewrite sdrop_length. unfold sized, fits64 in *. lia.
Qed.

Lemma read_logs_encoded logs : ∀ data o post,
  sized data → Forall entry_fits logs → remains data o (encode_entries logs +:+ post) →
  read_logs (length logs) data o = Some (Some logs).
Proof.
  induction logs as [|e logs IH]; intros data o post Hsz Hf Hr; [done|].
  apply Forall_cons in Hf as [[Ht Hi] Hf]. cbn [length read_logs].
  cbn [encode_entries foldr] in Hr. fold (encode_entries logs) in Hr. unfold encode_entry in Hr.
  rewrite !string_app_assoc in Hr.
  apply remains_i32 in Hr as [-> Hr]; [|done]. cbn [mbind option_bind].
  apply remains_i32 in Hr as [-> Hr]; [|done]. cbn [mbind option_bind].
  pose proof (remains_sized _ _ _ Hsz Hr) as Hl. rewrite !string_app_length in Hl.
  apply remains_u64 in Hr as [-> Hr]; [|unfold fits64 in *; lia]. cbn [mbind option_bind].
  pose proof Hr as [Ho Hd]. pose proof (sdrop_length (o + 4 + 4 + 8) data) as Hlen.
  rewrite Hd, string_app_length in Hlen. unfold sized, fits64 in Hsz.
  unfold add64, wrap64. rewrite N.mod_small by lia.
  rewrite (proj2 (N.ltb_ge _ _)) by lia. rewrite (proj2 (N.ltb_ge _ _)) by lia.
  rewrite Nat2N.id, Hd, stake_app. apply remains_bytes in Hr as [_ Hr].
  erewrite IH by done. cbn. by destruct e.
Qed.

(** Bytes after the encoding are ignored. *)
Lemma readPersist_encoded legacy h m garbage :
  hard_fits h → sized (EncodePersistData h +:+ garbage) →
  readPersist legacy (EncodePersistData h +:+ garbage) m = Some h.
Proof.
  intros (Ht & Hv & Hsi & Hst & Hl) Hsz.
  pose proof (remains_start (EncodePersistData h +:+ garbage)) as Hr.
  set (data := EncodePersistData h +:+ garbage) in *.
  assert (data = kRaftPersistMagic +:+ sdrop 5 data) as Hmagic by done.
  unfold readPersist. rewrite bool_decide_eq_false_2 by by rewrite Hmagic.
  replace (HasBinaryPersistMagic data) with true by done. cbn [negb].
  unfold data in Hr at 2. unfold EncodePersistData in Hr. rewrite !string_app_assoc in Hr.
  apply remains_bytes in Hr as [_ Hr]. change (0 + String.length kRaftPersistMagic) with 5 in Hr.
  apply remains_i32 in Hr as [-> Hr]; [|done]. apply remains_i32 in Hr as [-> Hr]; [|done].
  apply remains_i32 in Hr as [-> Hr]; [|done]. apply remains_i32 in Hr as [-> Hr]; [|done].
  assert (fits64 (N.of_nat (length (hs_logs h)))) as Hcount.
  { pose proof (remains_sized _ _ _ Hsz Hr) as Hlen. rewrite !string_app_length in Hlen.
    assert (length (hs_logs h) ≤ String.length (encode_entries (hs_logs h))).
    { clear. induction (hs_logs h) as [|e l IH]; cbn [encode_entries foldr length]; [lia|].
      fold (encode_entries l). unfold encode_entry. rewrite !string_app_length, i32_bytes_length. lia. }
    unfold fits64 in *. lia. }
  apply remains_u64 in Hr as [-> Hr]; [|done]. rewrite Nat2N.id.
  erewrite read_logs_encoded by done. by destruct h.
Qed.

(** ** The persister holds the encoded state *)

Definition header_of (h : HardState) : string :=
  EncodePersistHeader (hs_currentTerm h) (hs_votedFor h) (hs_snapshotIndex h) (hs_snapshotTerm h)
    (N.of_nat (length (hs_logs h))).

Lemma encode_header h : EncodePersistData h = header_of h +:+ encode_entries (hs_logs h).
Proof. unfold header_of, EncodePersistHeader. by rewrite !string_app_assoc. Qed.

Lemma header_length h : String.length (header_of h) = Persister.kRaftPersistHeaderSize.
Proof.
  unfold header_of, EncodePersistHeader, AppendUint64.
  by rewrite !string_app_length, !i32_bytes_length, le_bytes_length.
Qed.

Lemma encode_entries_app l l' : encode_entries (l ++ l') = encode_entries l +:+ encode_entries l'.
Proof.
  induction l as [|e l IH]; [done|]. cbn [app encode_entries foldr].
  fold (encode_entries (l ++ l')) (encode_entries l). by rewrite IH, string_app_assoc.
Qed.

Lemma stake_sdrop n s : stake n s +:+ sdrop n s = s.
Proof. revert n. induction s as [|c s IH]; intros [|n]; try done. exact (f_equal (String c) (IH n)). Qed.

Lemma sdrop_app_ge n a b : String.length a ≤ n → sdrop n (a +:+ b) = sdrop (n - String.length a) b.
Proof.
  intros Hn. replace n with (String.length a + (n - String.length a)) at 1 by lia.
  by rewrite <- sdrop_sdrop, sdrop_app.
Qed.

Lemma sdrop_app_le n a b : n ≤ String.length a → sdrop n (a +:+ b) = sdrop n a +:+ b.
Proof.
  revert n. induction a as [|c a IH]; intros [|n] Hn; simpl in *; try done; [lia|]. apply IH. lia.
Qed.

(** Memory and file agree. *)
Definition synced (p : Persister.t) : Prop :=
  f_state (Persister.disk_files p) = Persister.m_raftState p.

Lemma synced_open f : synced (Persister.open f).
Proof. done. Qed.

(** Whatever the file holds, a full save leaves exactly [data]: the append-only
    path is taken when the new bytes extend the old ones. *)
Lemma SaveRaftState_file data p :
  synced p → f_state (Persister.disk_files (Persister.SaveRaftState data p)) = data.
Proof.
  intros Hs. unfold Persister.SaveRaftState, Persister.SaveRaftState_writes. cbn [Persister.disk_files].
  destruct (Persister.append_only data (Persister.m_raftState p)) eqn:Ha; [|done].
  set (old := Persister.m_raftState p) in *. unfold synced in Hs. fold old in Hs.
  unfold Persister.append_only in Ha. rewrite !andb_true_iff in Ha.
  destruct Ha as (((Hho & Hhd) & Hle) & Heq). apply String.eqb_eq in Heq. apply Nat.leb_le in Hle.
  apply andb_true_iff in Hho as [Hho%Nat.leb_le _]. set (H := Persister.kRaftPersistHeaderSize) in *.
  assert (∀ rest, sdrop (String.length old) data = rest →
    f_state (do_write (Build_files (old +:+ rest) EmptyString) (OverwriteState (stake H data))) = data) as Hfin.
  { intros rest <-. cbn [do_write f_state].
    assert (String.length (stake H data) = H) as ->.
    { pose proof (f_equal String.length (stake_sdrop H data)) as Hl.
      rewrite string_app_length, sdrop_length in Hl. lia. }
    rewrite sdrop_app_le, <- Heq by done.
    replace (String.length old) with (H + (String.length old - H)) at 2 by lia.
    by rewrite <- sdrop_sdrop, !stake_sdrop. }
  destruct (Nat.ltb_spec (String.length old) (String.length data)); simpl; rewrite Hs.
  - by apply Hfin.
  - rewrite <- (string_app_nil_r old). apply Hfin.
    pose proof (sdrop_length (String.length old) data) as Hl.
    destruct (sdrop (String.length old) data); [done|simpl in Hl; lia].
Qed.

Lemma AppendRaftState_synced count header tail p p' :
  synced p → String.length header = Persister.kRaftPersistHeaderSize →
  Persister.kRaftPersistHeaderSize ≤ String.length (Persister.m_raftState p) →
  Persister.AppendRaftState count header tail p = Some p' →
  synced p' ∧ Persister.m_raftState p' =
    header +:+ sdrop Persister.kRaftPersistHeaderSize (Persister.m_raftState p) +:+ tail.
Proof.
  intros Hs Hh Hl. unfold Persister.AppendRaftState. case_match; [|done]. intros [= <-].
  unfold synced in *. cbn [Persister.m_raftState Persister.disk_files]. rewrite string_app_assoc.
  split; [|done]. unfold Persister.AppendRaftState_writes. case_bool_decide as Ht.
  - simpl. by rewrite Hs, Hh, Ht, string_app_nil_r.
  - simpl. by rewrite Hs, Hh, sdrop_app_le.
Qed.

(** ** The operations of [Raft] on the files *)

Definition persist_file (h : HardState) (p : Persister.t) : Persister.t :=
  Persister.SaveRaftState (EncodePersistData h) p.

Definition persistAppended_file (oldLogSize : nat) (h : HardState) (p : Persister.t) : Persister.t :=
  if oldLogSize <=? length (hs_logs h) then
    match Persister.AppendRaftState (N.of_nat oldLogSize) (header_of h)
            (EncodePersistTail (hs_logs h) oldLogSize) p with
    | Some p' => p'
    | None => persist_file h p
    end
  else persist_file h p.

(** The files represent a decoded disk. *)
Record backs (p : Persister.t) (d : Disk) : Prop := {
  bk_snapshot : f_snapshot (Persister.disk_files p) = d_snapshot d;
  bk_synced : synced p;
  bk_state : Persister.m_raftState p =
    match d_state d with Some h => EncodePersistData h | None => EmptyString end;
  bk_fits : ∀ h, d_state d = Some h → hard_fits h ∧ sized (EncodePersistData h);
}.

Lemma encode_has_header h : Persister.HasBinaryHeader (EncodePersistData h) = true.
Proof.
  unfold Persister.HasBinaryHeader. rewrite encode_header, string_app_length, header_length.
  by rewrite (proj2 (Nat.leb_le _ _)) by lia.
Qed.

Lemma encode_length h :
  String.length (EncodePersistData h) =
  Persister.kRaftPersistHeaderSize + String.length (encode_entries (hs_logs h)).
Proof. by rewrite encode_header, string_app_length, header_length. Qed.

(** Reading a field in the middle of the header. *)
Lemma header_snapshot_index h rest :
  fits_i32 (hs_snapshotIndex h) →
  i32_value (stake 4 (sdrop Persister.kSnapIdxOffset (header_of h +:+ rest))) = hs_snapshotIndex h.
Proof. intros Hf. by rewrite <- (i32_value_bytes _ Hf). Qed.

Lemma header_log_count h rest :
  fits64 (N.of_nat (length (hs_logs h))) →
  le_value (stake 8 (sdrop Persister.kLogCountOffset (header_of h +:+ rest))) =
  N.of_nat (length (hs_logs h)).
Proof. intros Hf. by rewrite <- (le_value_bytes 8 _ Hf). Qed.

Lemma entries_length l : length l ≤ String.length (encode_entries l).
Proof.
  induction l as [|e l IH]; cbn [encode_entries foldr length]; [lia|].
  fold (encode_entries l). unfold encode_entry. rewrite !string_app_length, i32_bytes_length. lia.
Qed.

Lemma sized_count h : sized (EncodePersistData h) → fits64 (N.of_nat (length (hs_logs h))).
Proof.
  unfold sized, fits64. rewrite encode_length. pose proof (entries_length (hs_logs h)). lia.
Qed.

(** The guard of the incremental append looks at the header only. *)
Lemma can_append_header h h' old p rest :
  Persister.m_raftState p = EncodePersistData h +:+ rest → hard_fits h → hard_fits h' →
  sized (EncodePersistData h) →
  Persister.can_append (N.of_nat old) (header_of h') p =
  (hs_snapshotIndex h =? hs_snapshotIndex h')%Z && (length (hs_logs h) =? old).
Proof.
  intros Hp (_ & _ & Hf & _) (_ & _ & Hf' & _) Hs. unfold Persister.can_append.
  assert (Persister.HasBinaryHeader (EncodePersistData h +:+ rest) = true) as Hb.
  { unfold Persister.HasBinaryHeader. rewrite encode_header, string_app_assoc, string_app_length, header_length.
    by rewrite (proj2 (Nat.leb_le _ _)) by lia. }
  rewrite Hp, Hb, header_length, Nat.eqb_refl. cbn [andb].
  rewrite encode_header, string_app_assoc, header_snapshot_index, header_log_count by (done || by apply sized_count).
  rewrite <- (string_app_nil_r (header_of h')), header_snapshot_index by done. f_equal.
  destruct (Nat.eqb_spec (length (hs_logs h)) old); [subst; apply N.eqb_refl|].
  apply N.eqb_neq. lia.
Qed.

Lemma can_append_encoded h h' old p :
  Persister.m_raftState p = EncodePersistData h → hard_fits h → hard_fits h' →
  sized (EncodePersistData h) →
  Persister.can_append (N.of_nat old) (header_of h') p =
  (hs_snapshotIndex h =? hs_snapshotIndex h')%Z && (length (hs_logs h) =? old).
Proof. intros Hp. apply (can_append_header h h' old p EmptyString). by rewrite string_app_nil_r. Qed.

(** What the incremental append writes is the encoding of the extended state. *)
Lemma append_encoded h h' tail :
  length (hs_logs h') = length (hs_logs h) + length tail →
  header_of h' +:+ sdrop Persister.kRaftPersistHeaderSize (EncodePersistData h) +:+ encode_entries tail =
  EncodePersistData (Build_HardState (hs_currentTerm h') (hs_votedFor h') (hs_snapshotIndex h')
                       (hs_snapshotTerm h') (hs_logs h ++ tail)).
Proof.
  intros Hl. rewrite !encode_header. cbn [hs_logs].
  rewrite sdrop_app_ge by (rewrite header_length; done).
  rewrite header_length, Nat.sub_diag, encode_entries_app. f_equal.
  unfold header_of. cbn. by rewrite Hl, length_app.
Qed.

Lemma persist_file_backs h p d :
  backs p d → hard_fits h → sized (EncodePersistData h) →
  backs (persist_file h p) (Build_Disk (Some h) (d_snapshot d)).
Proof.
  intros [Hsn Hsy Hst Hf] Hh Hs. split; cbn [d_snapshot d_state].
  - rewrite <- Hsn. unfold persist_file, Persister.SaveRaftState, Persister.SaveRaftState_writes. simpl.
    destruct (Persister.append_only _ _); [|done]. by destruct (_ <? _).
  - unfold synced. unfold persist_file. by rewrite SaveRaftState_file.
  - done.
  - intros h0 [= <-]. done.
Qed.

Definition extended (h h' : HardState) (tail : list LogEntry) : HardState :=
  Build_HardState (hs_currentTerm h') (hs_votedFor h') (hs_snapshotIndex h') (hs_snapshotTerm h')
    (hs_logs h ++ tail).

Lemma append_file_backs h h' old p p' d :
  backs p d → d_state d = Some h → old ≤ length (hs_logs h') → hard_fits h' →
  length (hs_logs h) = old → sized (EncodePersistData (extended h h' (drop old (hs_logs h')))) →
  Persister.AppendRaftState (N.of_nat old) (header_of h') (EncodePersistTail (hs_logs h') old) p = Some p' →
  backs p' (Build_Disk (Some (extended h h' (drop old (hs_logs h')))) (d_snapshot d)).
Proof.
  intros [Hsn Hsy Hst Hf] Hd Hle Hh' Hold Hs Hp. rewrite Hd in Hst. destruct (Hf h Hd) as [Hfh Hsh].
  pose proof (AppendRaftState_synced _ _ _ _ _ Hsy (header_length h')
    ltac:(rewrite Hst, encode_length; lia) Hp) as [Hsy' Hm].
  split; cbn [d_snapshot d_state]; [|done| |].
  - rewrite <- Hsn. revert Hp. unfold Persister.AppendRaftState. case_match; [|done]. intros [= <-].
    cbn [Persister.disk_files]. unfold Persister.AppendRaftState_writes. by case_bool_decide.
  - rewrite Hm, Hst. apply append_encoded. rewrite length_drop. lia.
  - intros h0 [= <-]. split; [|done]. destruct Hh' as (? & ? & ? & ? & Hl').
    repeat (split; [done|]). apply Forall_app. split; [apply Hfh|]. by apply Forall_drop.
Qed.

(** Both the extended and the rewritten file encode the new state. *)
Lemma persistAppended_file_backs old s p :
  backs p (disk s) → hard_fits (hard s) → sized (EncodePersistData (hard s)) →
  (∀ h, d_state (disk s) = Some h →
     sized (EncodePersistData (extended h (hard s) (drop old (m_logs s))))) →
  backs (persistAppended_file old (hard s) p) (disk (persistAppended old s)).
Proof.
  intros Hb Hf Hs Hx. unfold persistAppended_file, persistAppended.
  destruct (Nat.leb_spec old (length (m_logs s))) as [Hle|]; [|by apply persist_file_backs].
  unfold AppendRaftState. destruct (d_state (disk s)) as [h|] eqn:Hd; cbn [mbind option_bind].
  - destruct (bk_fits _ _ Hb h Hd) as [Hfh Hsh]. pose proof (bk_state _ _ Hb) as Hst. rewrite Hd in Hst.
    pose proof (can_append_encoded h (hard s) old p Hst Hfh Hf Hsh) as Hguard.
    destruct (Persister.AppendRaftState _ _ _ p) as [p'|] eqn:Hp.
    + rewrite <- Hguard. pose proof Hp as Hp'. unfold Persister.AppendRaftState in Hp'.
      destruct (Persister.can_append _ _ p); [|done]. symmetry in Hguard.
      apply andb_true_iff in Hguard as [_ Hlen%Nat.eqb_eq].
      by apply (append_file_backs h (hard s) old p p' (disk s)); auto.
    + rewrite <- Hguard. unfold Persister.AppendRaftState in Hp.
      destruct (Persister.can_append _ _ p); [done|]. by apply persist_file_backs.
  - pose proof (bk_state _ _ Hb) as Hst. rewrite Hd in Hst.
    unfold Persister.AppendRaftState, Persister.can_append. rewrite Hst. by apply persist_file_backs.
Qed.

(** [C22] The files implement the decoded disk: whether [persistAppended] extends
    the state file in place or rewrites it, the file and the cached copy are
    the encoding of the state that [RaftNode.persistAppended] stores. *)
Theorem persistAppended_refines old s p :
  backs p (disk s) → hard_fits (hard s) → sized (EncodePersistData (hard s)) →
  (∀ h, d_state (disk s) = Some h →
     sized (EncodePersistData (extended h (hard s) (drop old (m_logs s))))) →
  backs (persistAppended_file old (hard s) p) (disk (persistAppended old s)).
Proof. apply persistAppended_file_backs. Qed.

(** ** Crashes *)

(** The writes of [persistAppended]. *)
Definition persistAppended_writes (oldLogSize : nat) (h : HardState) (p : Persister.t) : list write :=
  if (oldLogSize <=? length (hs_logs h)) && Persister.can_append (N.of_nat oldLogSize) (header_of h) p
  then Persister.AppendRaftState_writes (header_of h) (EncodePersistTail (hs_logs h) oldLogSize)
  else Persister.SaveRaftState_writes (EncodePersistData h) p.

Lemma persistAppended_performs old h p :
  Persister.disk_files (persistAppended_file old h p) =
  perform (persistAppended_writes old h p) (Persister.disk_files p).
Proof.
  unfold persistAppended_file, persistAppended_writes, Persister.AppendRaftState.
  destruct (old <=? _); [|done]. by destruct (Persister.can_append _ _ _).
Qed.

(** An interrupted sequence that appends and then publishes a header, or
    replaces the file, leaves the old bytes with a tail behind them, or is
    complete. *)
Lemma crash_cases n k (c : bool) b w f :
  (∃ x, w = OverwriteState x ∨ w = ReplaceState x) →
  let ws := (if c then [AppendState b] else []) ++ [w] in
  crash_at n k ws f = perform ws f ∨
  ∃ x, f_state (crash_at n k ws f) = f_state f +:+ x ∧ String.length x ≤ String.length b.
Proof.
  intros Hw. assert (String.length (stake k b) ≤ String.length b) as Hk.
  { pose proof (f_equal String.length (stake_sdrop k b)) as Hl. rewrite string_app_length in Hl. lia. }
  destruct Hw as [y [-> | ->]];
    (destruct c; [destruct n as [|[|n]]|destruct n as [|n]]; unfold crash_at; simpl; rewrite ?take_nil;
     try by left);
    right; first [by exists (stake k b)|by exists b|exists EmptyString];
    (split; [symmetry; apply string_app_nil_r|apply Nat.le_0_l]).
Qed.

(** Interrupted at any point, the file still decodes to [h] or has the final
    bytes. *)
Lemma crash_reads legacy m n k (c : bool) b w f h :
  (∃ x, w = OverwriteState x ∨ w = ReplaceState x) → hard_fits h → f_state f = EncodePersistData h →
  fits64 (N.of_nat (String.length (f_state f) + String.length b)) →
  let ws := (if c then [AppendState b] else []) ++ [w] in
  readPersist legacy (f_state (crash_at n k ws f)) m = Some h ∨ crash_at n k ws f = perform ws f.
Proof.
  intros Hw Hh Hf Hs. destruct (crash_cases n k c b w f Hw) as [|(x & Hx & Hl)]; [by right|left].
  cbn zeta in Hx. rewrite Hx, Hf. apply readPersist_encoded; [done|].
  unfold sized, fits64 in *. rewrite string_app_length, <- Hf. lia.
Qed.

Lemma save_crash legacy m n k h h' p :
  synced p → Persister.m_raftState p = EncodePersistData h → hard_fits h →
  sized (EncodePersistData h) → sized (EncodePersistData h') →
  let ws := Persister.SaveRaftState_writes (EncodePersistData h') p in
  readPersist legacy (f_state (crash_at n k ws (Persister.disk_files p))) m = Some h ∨
  crash_at n k ws (Persister.disk_files p) = perform ws (Persister.disk_files p).
Proof.
  intros Hsy Hm Hf Hs Hs'. unfold Persister.SaveRaftState_writes.
  assert (f_state (Persister.disk_files p) = EncodePersistData h) as Hfile by (by rewrite Hsy).
  destruct (Persister.append_only (EncodePersistData h') (Persister.m_raftState p)) eqn:Ha.
  - destruct (Nat.ltb_spec (String.length (Persister.m_raftState p)) (String.length (EncodePersistData h'))).
    + apply (crash_reads legacy m n k true); eauto. rewrite sdrop_length, Hfile, Hm.
      unfold sized, fits64 in *. rewrite Hm in *. lia.
    + apply (crash_reads legacy m n k false EmptyString); eauto. rewrite Hfile. unfold sized in Hs.
      simpl. by rewrite Nat.add_0_r.
  - apply (crash_reads legacy m n k false EmptyString); eauto. rewrite Hfile. unfold sized in Hs.
    simpl. by rewrite Nat.add_0_r.
Qed.

(** [C15] A crash while a clean Raft state file is updated is atomic.  Let the node
    have a stored state and the file hold exactly its encoding, with nothing left
    behind by an earlier torn append, and let terms, indexes and the bytes written
    have the widths of the file format.  If the process stops between any two
    writes of [persistAppended], or in the middle of the append, the header and a
    replacement of the whole file being written at once, then [readPersist] at the
    next start yields the state before the operation or the state after it.  The
    file may keep a tail afterwards and is then not clean: [append_behind_tail] has
    what an append does to it. *)
Theorem persistAppended_crash_atomic legacy m n k old s p h :
  backs p (disk s) → d_state (disk s) = Some h →
  hard_fits (hard s) → sized (EncodePersistData (hard s)) →
  sized (EncodePersistData (extended h (hard s) (drop old (m_logs s)))) →
  let f := crash_at n k (persistAppended_writes old (hard s) p) (Persister.disk_files p) in
  readPersist legacy (f_state f) m = Some h ∨
  readPersist legacy (f_state f) m = d_state (disk (persistAppended old s)).
Proof.
  intros Hb Hd Hf Hs Hx f. destruct (bk_fits _ _ Hb h Hd) as [Hfh Hsh].
  pose proof (bk_state _ _ Hb) as Hst. rewrite Hd in Hst. pose proof (bk_synced _ _ Hb) as Hsy.
  assert (f_state (Persister.disk_files p) = EncodePersistData h) as Hfile by (by rewrite Hsy).
  assert (backs (persistAppended_file old (hard s) p) (disk (persistAppended old s))) as Hb'.
  { apply persistAppended_file_backs; auto. intros h0. rewrite Hd. by intros [= <-]. }
  assert (readPersist legacy (f_state f) m = Some h ∨
          f = perform (persistAppended_writes old (hard s) p) (Persister.disk_files p)) as [?|Hfin]; [|by left|].
  - unfold f, persistAppended_writes. destruct (_ && _) eqn:Hc; [|by apply save_crash].
    unfold Persister.AppendRaftState_writes. case_bool_decide as Ht.
    + apply (crash_reads legacy m n k false EmptyString); eauto.
      rewrite Hfile. simpl. by rewrite Nat.add_0_r.
    + apply (crash_reads legacy m n k true); eauto.
      rewrite Hfile. unfold sized in Hx. rewrite !encode_length in *. cbn [extended hs_logs] in Hx.
      rewrite encode_entries_app, string_app_length in Hx. by rewrite <- Nat.add_assoc.
  - right. rewrite Hfin, <- persistAppended_performs.
    rewrite (bk_synced _ _ Hb'), (bk_state _ _ Hb').
    destruct (d_state (disk (persistAppended old s))) as [h'|] eqn:Hd'.
    + destruct (bk_fits _ _ Hb' h' Hd') as [Hf' Hs'].
      rewrite <- (string_app_nil_r (EncodePersistData h')). apply readPersist_encoded; [done|].
      by rewrite string_app_nil_r.
    + revert Hd'. unfold persistAppended, AppendRaftState. rewrite Hd. cbn [mbind option_bind].
      destruct (_ <=? _); [|done]. by destruct (_ && _).
Qed.

(** What [EncodePersistData] writes, [readPersist] reads back: term, vote,
    snapshot boundary and every log entry, whatever the members held before and
    whatever bytes an interrupted append left behind the encoding. *)
Theorem persist_roundtrip legacy h m garbage :
  hard_fits h → sized (EncodePersistData h +:+ garbage) →
  readPersist legacy (EncodePersistData h +:+ garbage) m = Some h.
Proof. apply readPersist_encoded. Qed.

(** ** Witnesses *)

Definition demo_hard : HardState := Build_HardState 3 1 0 0 [Build_LogEntry "first" 2 1].
Definition demo_hard' : HardState :=
  Build_HardState 4 (-1) 0 0 [Build_LogEntry "first" 2 1; Build_LogEntry "second" 4 2].

Definition demo_persister : Persister.t :=
  Persister.open (Build_files (EncodePersistData demo_hard) EmptyString).

(** A node that has appended an entry it has not written yet. *)
Definition demo_raft : Raft :=
  set_hard demo_hard' (init 0 (init_members 3 0 0 [] []) (Build_Disk (Some demo_hard) EmptyString)).

Ltac small_entries := repeat constructor; vm_compute; discriminate.

Lemma demo_hard_fits : hard_fits demo_hard ∧ hard_fits demo_hard'.
Proof. split; small_entries. Qed.

Lemma demo_backs : backs demo_persister (disk demo_raft).
Proof.
  split; [done..|]. intros h [= <-]. split; [apply demo_hard_fits|]. vm_compute. reflexivity.
Qed.

Lemma persist_roundtrip_witness :
  readPersist (λ _, None) (EncodePersistData demo_hard +:+ "torn") (hard demo_raft) = Some demo_hard.
Proof. apply persist_roundtrip; [small_entries|vm_compute; reflexivity]. Defined.

Lemma persistAppended_refines_witness :
  backs (persistAppended_file 1 (hard demo_raft) demo_persister) (disk (persistAppended 1 demo_raft)).
Proof.
  apply persistAppended_refines; [apply demo_backs|apply demo_hard_fits|vm_compute; reflexivity|].
  intros h [= <-]. vm_compute. reflexivity.
Defined.

Lemma persistAppended_crash_atomic_witness :
  let f := crash_at 0 7 (persistAppended_writes 1 (hard demo_raft) demo_persister)
             (Persister.disk_files demo_persister) in
  readPersist (λ _, None) (f_state f) (hard demo_raft) = Some demo_hard ∨
  readPersist (λ _, None) (f_state f) (hard demo_raft) = d_state (disk (persistAppended 1 demo_raft)).
Proof.
  apply (persistAppended_crash_atomic (λ _, None) (hard demo_raft) 0 7 1 demo_raft demo_persister demo_hard);
    [apply demo_backs|done|apply demo_hard_fits|vm_compute; reflexivity..].
Defined.

(** ** What a crash can undo *)

Definition with_logs (h : HardState) (logs : list LogEntry) : HardState :=
  Build_HardState (hs_currentTerm h) (hs_votedFor h) (hs_snapshotIndex h) (hs_snapshotTerm h) logs.

(** An incremental append behind a leftover tail. *)
Lemma append_behind_tail h h2 tail es p :
  synced p → Persister.m_raftState p = EncodePersistData h +:+ encode_entries tail →
  hard_fits h → hard_fits h2 → sized (EncodePersistData h) →
  hs_snapshotIndex h2 = hs_snapshotIndex h → hs_logs h2 = hs_logs h ++ es → length es ≤ length tail →
  f_state (Persister.disk_files (persistAppended_file (length (hs_logs h)) h2 p)) =
  EncodePersistData (with_logs h2 (hs_logs h ++ take (length es) tail)) +:+
    encode_entries (drop (length es) tail) +:+ encode_entries es.
Proof.
  intros Hsy Hp Hf Hf2 Hs Hsi Hl Hle. unfold persistAppended_file.
  rewrite (proj2 (Nat.leb_le _ _)) by (rewrite Hl, length_app; lia).
  pose proof (can_append_header h h2 (length (hs_logs h)) p _ Hp Hf Hf2 Hs) as Hc.
  rewrite Hsi, Z.eqb_refl, Nat.eqb_refl in Hc. simpl in Hc.
  destruct (Persister.AppendRaftState _ _ _ p) as [p'|] eqn:Ha;
    [|unfold Persister.AppendRaftState in Ha; by rewrite Hc in Ha].
  apply AppendRaftState_synced in Ha as [Hsy' Hm]; [|done|by rewrite header_length|].
  2:{ rewrite Hp, string_app_length, encode_length. lia. }
  rewrite Hsy', Hm, Hp, sdrop_app_le by (rewrite encode_length; lia).
  rewrite !encode_header, sdrop_app_ge, header_length, Nat.sub_diag by (rewrite header_length; done).
  unfold EncodePersistTail. rewrite Hl, drop_app_length. cbn [sdrop with_logs hs_logs].
  rewrite encode_entries_app, !string_app_assoc.
  assert (header_of (with_logs h2 (hs_logs h ++ take (length es) tail)) = header_of h2) as ->.
  { unfold header_of, with_logs. cbn. rewrite Hl, !length_app, length_take. do 3 f_equal. lia. }
  do 2 f_equal. rewrite <- (take_drop (length es) tail) at 1. by rewrite encode_entries_app, string_app_assoc.
Qed.

(** [C37] The incremental append does not notice a tail left by a crash.  Let the
    process stop after the tail [lost] of an append has been written and before
    the header is.  The next start reads the state as it was before, in order.
    But when the node then appends [es], no more entries than were lost, and
    acknowledges them, the start after that decodes the first entries of [lost]
    in their place. *)
Theorem torn_tail_resurrected legacy m h h1 h2 lost es p :
  synced p → Persister.m_raftState p = EncodePersistData h →
  hard_fits h → hard_fits h1 → hard_fits h2 →
  hs_snapshotIndex h1 = hs_snapshotIndex h → hs_snapshotIndex h2 = hs_snapshotIndex h →
  hs_logs h1 = hs_logs h ++ lost → hs_logs h2 = hs_logs h ++ es → es ≠ [] → length es ≤ length lost →
  sized (EncodePersistData h +:+ encode_entries lost +:+ encode_entries es) →
  let old := length (hs_logs h) in
  let restarted := Persister.open (crash_at 1 0 (persistAppended_writes old h1 p) (Persister.disk_files p)) in
  let read p := readPersist legacy (f_state (Persister.disk_files p)) m in
  read restarted = Some h ∧
  read (persistAppended_file old h2 restarted) = Some (with_logs h2 (hs_logs h ++ take (length es) lost)).
Proof.
  intros Hsy Hp Hf Hf1 Hf2 Hsi1 Hsi2 Hl1 Hl2 Hne Hle Hs old restarted read.
  assert (sized (EncodePersistData h)) as Hsh.
  { unfold sized, fits64 in *. rewrite string_app_length in Hs. lia. }
  assert (Persister.m_raftState restarted = EncodePersistData h +:+ encode_entries lost) as Hr.
  { unfold restarted, persistAppended_writes. rewrite (proj2 (Nat.leb_le _ _)) by (rewrite Hl1, length_app; lia).
    rewrite (can_append_encoded h h1 old p Hp Hf Hf1 Hsh), Hsi1, Z.eqb_refl, Nat.eqb_refl. cbn [andb].
    unfold Persister.AppendRaftState_writes, EncodePersistTail, old. rewrite Hl1, drop_app_length.
    rewrite bool_decide_eq_false_2; [cbn; by rewrite Hsy, Hp|]. intros He.
    pose proof (entries_length lost) as Hlen. rewrite He in Hlen. destruct es; simpl in *; [done|lia]. }
  unfold read. split.
  - change (f_state (Persister.disk_files restarted)) with (Persister.m_raftState restarted).
    rewrite Hr. apply readPersist_encoded; [done|]. unfold sized, fits64 in *. rewrite !string_app_length in *. lia.
  - unfold old. rewrite (append_behind_tail h h2 lost es restarted); [|apply synced_open|done..].
    apply readPersist_encoded.
    + destruct Hf as (_ & _ & _ & _ & Hlf). destruct Hf1 as (_ & _ & _ & _ & Hlf1). rewrite Hl1 in Hlf1.
      apply Forall_app in Hlf1 as [_ Hlf1]. destruct Hf2 as (? & ? & ? & ? & _).
      repeat (split; [done|]). apply Forall_app. split; [done|by apply Forall_take].
    + unfold sized, fits64 in *. rewrite !string_app_length, !encode_length in *. cbn [with_logs hs_logs].
      pose proof (f_equal String.length (encode_entries_app (take (length es) lost) (drop (length es) lost))) as Hx.
      rewrite take_drop, string_app_length in Hx. rewrite encode_entries_app, string_app_length. lia.
Qed.

Definition stale_entry : LogEntry := Build_LogEntry "stale" 3 2.
Definition acked_entry : LogEntry := Build_LogEntry "acked" 4 2.

Definition with_entry (t : Z) (e : LogEntry) : HardState :=
  Build_HardState t 1 0 0 (hs_logs demo_hard ++ [e]).

Lemma torn_tail_resurrected_witness :
  let restarted := Persister.open (crash_at 1 0 (persistAppended_writes 1 (with_entry 3 stale_entry) demo_persister)
                                     (Persister.disk_files demo_persister)) in
  readPersist (λ _, None) (f_state (Persister.disk_files
      (persistAppended_file 1 (with_entry 4 acked_entry) restarted))) demo_hard =
    Some (with_entry 4 stale_entry).
Proof.
  apply (torn_tail_resurrected (λ _, None) demo_hard demo_hard (with_entry 3 stale_entry) (with_entry 4 acked_entry)
    [stale_entry] [acked_entry] demo_persister);
    first [done | apply demo_hard_fits | small_entries | vm_compute; reflexivity].
Defined.

(** [Persister::Save] is not atomic: it truncates the state file before it
    writes it, so a crash in between leaves a node that starts with its initial
    members, its term, vote and log forgotten. *)
Theorem Save_crash_forgets legacy raftstate snapshot f m :
  readPersist legacy (f_state (crash_at 1 0 (Persister.Save_writes raftstate snapshot) f)) m = Some m.
Proof. done. Qed.
