(* ===== verification/RaftGhost.v ===== *)
(** * Raft: the consensus argument

    A history of the group that no node sees in full: who voted for whom, the
    log each leader was elected with and the log it has built since, what each
    node has acknowledged.  The steps of this history are the protocol's moves
    on durable state; [ginv] is their invariant, and the theorems at the end are
    Raft's leader completeness and the agreement of committed prefixes.
    [RaftCluster] shows that every step of a cluster of nodes running the code
    is a sequence of these moves. *)

From S2P Require Import Prelude Wire RaftTypes.

(** ** Logs

    A full log lists its entries from index 1; [term_at l k] is the term of the
    entry at index [k], 0 before the first. *)
Definition term_at (l : list LogEntry) (k : nat) : Z :=
  match k with O => 0 | S k' => from_option logterm 0%Z (l !! k') end.

Definition last_term (l : list LogEntry) : Z := term_at l (length l).

(** The candidate's log [a] is at least as up to date as the voter's [b]. *)
Definition up_to_date (a b : list LogEntry) : Prop :=
  (last_term b < last_term a)%Z ∨ (last_term a = last_term b ∧ length b ≤ length a).

(** Two logs disagree on an entry both have. *)
Definition conflicts (a b : list LogEntry) : Prop :=
  ∃ i x y, a !! i = Some x ∧ b !! i = Some y ∧ x ≠ y.

Lemma term_at_take l j k : j ≤ k → term_at (take k l) j = term_at l j.
Proof. destruct j as [|j]; [done|]. intros Hj. simpl. by rewrite lookup_take_lt by lia. Qed.

Lemma term_at_prefix a b k : a `prefix_of` b → k ≤ length a → term_at b k = term_at a k.
Proof.
  intros [c ->]. destruct k as [|k]; [done|]. intros Hk. simpl. by rewrite lookup_app_l by lia.
Qed.

Lemma term_at_app_r a b k :
  length a < k → k ≤ length (a ++ b) → ∃ e, e ∈ b ∧ term_at (a ++ b) k = logterm e.
Proof.
  intros Ha Hk. destruct k as [|k]; [lia|]. rewrite length_app in Hk.
  destruct (lookup_lt_is_Some_2 b (k - length a)) as [e He]; [lia|].
  exists e. split; [by eapply list_elem_of_lookup_2|].
  simpl. by rewrite lookup_app_r, He by lia.
Qed.

Lemma prefix_take_le {A} (l : list A) j k : j ≤ k → take j l `prefix_of` take k l.
Proof.
  intros Hj. exists (drop j (take k l)).
  by rewrite <- (take_drop j (take k l)) at 1; rewrite take_take, Nat.min_l.
Qed.

Lemma prefix_eq_take {A} (a b : list A) : a `prefix_of` b → a = take (length a) b.
Proof. intros [c ->]. by rewrite take_app_length. Qed.

Lemma prefix_of_take {A} (a b : list A) k :
  a `prefix_of` b → length a ≤ k → a `prefix_of` take k b.
Proof.
  intros Hp Hk. rewrite (prefix_eq_take a b Hp). by apply prefix_take_le.
Qed.

(** Two prefixes of one list are comparable. *)
Lemma prefix_shorter {A} (a b c : list A) :
  a `prefix_of` c → b `prefix_of` c → length a ≤ length b → a `prefix_of` b.
Proof.
  intros Ha Hb Hl. rewrite (prefix_eq_take _ _ Ha), (prefix_eq_take _ _ Hb).
  by apply prefix_take_le.
Qed.

Lemma conflicts_not_prefix a b : conflicts a b → ¬ a `prefix_of` b.
Proof.
  intros (i & x & y & Hx & Hy & Hne) Hp. by rewrite (prefix_lookup_Some _ _ _ _ Hx Hp) in Hy; simplify_eq.
Qed.

(** ** Majorities *)
Section majorities.
Context (voters : list nat).

Definition quorum (q : list nat) : Prop :=
  NoDup q ∧ q ⊆ voters ∧ length voters / 2 + 1 ≤ length q.

Lemma quorums_meet q1 q2 : NoDup voters → quorum q1 → quorum q2 → ∃ n, n ∈ q1 ∧ n ∈ q2.
Proof.
  intros Hv (Hn1 & Hs1 & Hl1) (Hn2 & Hs2 & Hl2).
  destruct (decide (Forall (λ n, n ∉ q2) q1)) as [Hd|Hd].
  - exfalso. assert (length (q1 ++ q2) ≤ length voters) as Hle.
    { apply submseteq_length, NoDup_submseteq.
      - apply NoDup_app. rewrite Forall_forall in Hd. done.
      - intros n [?|?]%elem_of_app; auto. }
    rewrite length_app in Hle.
    pose proof (Nat.div_mod_eq (length voters) 2). pose proof (Nat.mod_upper_bound (length voters) 2).
    lia.
  - apply not_Forall_Exists in Hd; [|apply _]. apply Exists_exists in Hd as (n & Hn & Hn2').
    exists n. split; [done|]. by apply dec_stable.
Qed.

End majorities.

(** ** The history *)

(** Functions updated at one point. *)
Definition upd {A B} `{EqDecision A} (f : A → B) (a : A) (b : B) : A → B :=
  λ x, if decide (x = a) then b else f x.

Lemma upd_eq {A B} `{EqDecision A} (f : A → B) a b : upd f a b a = b.
Proof. unfold upd. by rewrite decide_True. Qed.

Lemma upd_ne {A B} `{EqDecision A} (f : A → B) a b x : x ≠ a → upd f a b x = f x.
Proof. intros. unfold upd. by rewrite decide_False. Qed.

Record history := {
  (* the durable log and term of each node *)
  g_log : nat → list LogEntry;
  g_term : nat → Z;
  (* the vote of a node in a term, and its log when it voted, unless the term
     had a leader by then *)
  g_vote : nat * Z → option nat;
  g_vlog : nat * Z → option (list LogEntry);
  (* the log a candidate campaigned with *)
  g_cand : nat * Z → option (list LogEntry);
  (* the leader of a term and the log it was elected with; its log since *)
  g_elec : Z → option (nat * list LogEntry);
  g_llog : Z → list LogEntry;
  (* how much of the leader's log of a term a node has acknowledged *)
  g_ack : nat * Z → nat;
  (* how much of it the leader has committed *)
  g_commit : Z → nat;
}.

Definition elected (g : history) (T : Z) : Prop := is_Some (g_elec g T).

(** A log whose every entry comes, with all that precedes it, from the log of
    the leader of the entry's term. *)
Definition well_rooted (g : history) (l : list LogEntry) : Prop :=
  ∀ k, 0 < k ≤ length l →
    elected g (term_at l k) ∧ take k l `prefix_of` g_llog g (term_at l k).

(** A leader of a term after [T] and not after [T'] was elected with a log that
    does not contain [p]. *)
Definition superseded (g : history) (T T' : Z) (p : list LogEntry) : Prop :=
  ∃ T1 c l, (T < T1 ≤ T')%Z ∧ g_elec g T1 = Some (c, l) ∧ ¬ p `prefix_of` l.

(** [p] is a prefix some leader of a term up to [T] has committed. *)
Definition safe (g : history) (T : Z) (p : list LogEntry) : Prop :=
  p = [] ∨ ∃ T0, (T0 ≤ T)%Z ∧ 0 < g_commit g T0 ∧ p `prefix_of` take (g_commit g T0) (g_llog g T0).

(** What the log of a candidate [l] of term [T] can have become: itself, or a
    committed log at least as long that it was sent as a snapshot. *)
Definition campaign_log (g : history) (T : Z) (l l' : list LogEntry) : Prop :=
  l' = l ∨ (length l ≤ length l' ∧ safe g (T - 1) l').

Section protocol.
Context (voters : list nat).
Implicit Types (g : history) (T : Z) (n c : nat).

(** Overwriting a log with a prefix of the leader's log: a conflicting suffix is
    dropped, an agreeing one kept. *)
Definition overwrite (l f l' : list LogEntry) : Prop :=
  (l' = l ∧ f `prefix_of` l) ∨ (l' = f ∧ l `prefix_of` f) ∨ (l' = f ∧ conflicts l f).

(** A vote is early while its term has no leader. *)
Definition early_log g n T : option (list LogEntry) :=
  match g_elec g T with None => Some (g_log g n) | Some _ => None end.

(** The moves, as updates of the history. *)
Definition set_term g n T : history :=
  Build_history (g_log g) (upd (g_term g) n T) (g_vote g) (g_vlog g) (g_cand g)
    (g_elec g) (g_llog g) (g_ack g) (g_commit g).
Definition campaign g c T : history :=
  Build_history (g_log g) (upd (g_term g) c T) (upd (g_vote g) (c, T) (Some c))
    (upd (g_vlog g) (c, T) (early_log g c T)) (upd (g_cand g) (c, T) (Some (g_log g c)))
    (g_elec g) (g_llog g) (g_ack g) (g_commit g).
Definition cast_vote g n c T : history :=
  Build_history (g_log g) (g_term g) (upd (g_vote g) (n, T) (Some c))
    (upd (g_vlog g) (n, T) (early_log g n T)) (g_cand g)
    (g_elec g) (g_llog g) (g_ack g) (g_commit g).
Definition win g c T e : history :=
  Build_history (upd (g_log g) c (g_log g c ++ [e])) (g_term g) (g_vote g) (g_vlog g)
    (g_cand g) (upd (g_elec g) T (Some (c, g_log g c)))
    (upd (g_llog g) T (g_log g c ++ [e])) (g_ack g) (g_commit g).
Definition propose g c T es : history :=
  Build_history (upd (g_log g) c (g_llog g T ++ es)) (g_term g) (g_vote g) (g_vlog g)
    (g_cand g) (g_elec g) (upd (g_llog g) T (g_llog g T ++ es)) (g_ack g) (g_commit g).
Definition replace_log g n l : history :=
  Build_history (upd (g_log g) n l) (g_term g) (g_vote g) (g_vlog g)
    (g_cand g) (g_elec g) (g_llog g) (g_ack g) (g_commit g).
Definition acknowledge g n T k : history :=
  Build_history (g_log g) (g_term g) (g_vote g) (g_vlog g)
    (g_cand g) (g_elec g) (g_llog g) (upd (g_ack g) (n, T) k) (g_commit g).
Definition advance_commit g T k : history :=
  Build_history (g_log g) (g_term g) (g_vote g) (g_vlog g)
    (g_cand g) (g_elec g) (g_llog g) (g_ack g) (upd (g_commit g) T k).

(** ** The invariant *)

Record ginv g : Prop := {
  (* votes *)
  gi_term : ∀ n, (0 ≤ g_term g n)%Z;
  gi_vote_term : ∀ n T c, g_vote g (n, T) = Some c → (0 < T ≤ g_term g n)%Z;
  gi_vote : ∀ n T c, g_vote g (n, T) = Some c →
    ∃ l, g_cand g (c, T) = Some l ∧ ∀ b, g_vlog g (n, T) = Some b → up_to_date l b;
  gi_vlog_rooted : ∀ n T b, g_vlog g (n, T) = Some b → well_rooted g b;
  gi_vlog_vote : ∀ n T b, g_vlog g (n, T) = Some b → is_Some (g_vote g (n, T));
  gi_early : ∀ n T c, g_vote g (n, T) = Some c → g_elec g T = None → is_Some (g_vlog g (n, T));
  (* candidates *)
  gi_cand_term : ∀ c T l, g_cand g (c, T) = Some l → (T ≤ g_term g c)%Z ∧ g_vote g (c, T) = Some c;
  gi_cand_old : ∀ c T l k, g_cand g (c, T) = Some l → 0 < k ≤ length l → (term_at l k < T)%Z;
  gi_cand_rooted : ∀ c T l, g_cand g (c, T) = Some l → well_rooted g l;
  gi_cand_log : ∀ c T l, g_cand g (c, T) = Some l → g_term g c = T → g_elec g T = None →
    campaign_log g T l (g_log g c);
  (* leaders *)
  gi_elec_old : ∀ T c l k, g_elec g T = Some (c, l) → 0 < k ≤ length l → (term_at l k < T)%Z;
  gi_elec_rooted : ∀ T c l, g_elec g T = Some (c, l) → well_rooted g l;
  gi_elec : ∀ T c l, g_elec g T = Some (c, l) →
    (∃ l0, g_cand g (c, T) = Some l0 ∧ campaign_log g T l0 l) ∧
    ∃ q, quorum voters q ∧ Forall (λ n, g_vote g (n, T) = Some c ∧ is_Some (g_vlog g (n, T))) q;
  gi_llog : ∀ T c l, g_elec g T = Some (c, l) →
    ∃ es, g_llog g T = l ++ es ∧ Forall (λ e, logterm e = T) es;
  gi_leader_log : ∀ T c l, g_elec g T = Some (c, l) → g_term g c = T → g_log g c = g_llog g T;
  (* logs *)
  gi_rooted : ∀ n, well_rooted g (g_log g n);
  gi_log_term : ∀ n k, 0 < k ≤ length (g_log g n) → (term_at (g_log g n) k ≤ g_term g n)%Z;
  (* acknowledgements *)
  gi_ack : ∀ n T, 0 < g_ack g (n, T) →
    elected g T ∧ (T ≤ g_term g n)%Z ∧ g_ack g (n, T) ≤ length (g_llog g T);
  gi_ack_log : ∀ n T k, 0 < k ≤ g_ack g (n, T) → term_at (g_llog g T) k = T →
    take k (g_llog g T) `prefix_of` g_log g n ∨
    superseded g T (g_term g n) (take k (g_llog g T));
  gi_ack_vote : ∀ n T k T' b, 0 < k ≤ g_ack g (n, T) → term_at (g_llog g T) k = T →
    g_vlog g (n, T') = Some b → (T < T')%Z →
    take k (g_llog g T) `prefix_of` b ∨
    superseded g T (T' - 1) (take k (g_llog g T));
  (* commitment *)
  gi_commit : ∀ T, 0 < g_commit g T →
    elected g T ∧ g_commit g T ≤ length (g_llog g T) ∧ term_at (g_llog g T) (g_commit g T) = T ∧
    ∃ q, quorum voters q ∧ Forall (λ n, g_commit g T ≤ g_ack g (n, T)) q;
}.

Definition start_history : history :=
  Build_history (λ _, []) (λ _, 0%Z) (λ _, None) (λ _, None) (λ _, None) (λ _, None) (λ _, [])
    (λ _, 0) (λ _, 0).

Lemma start_ginv : ginv start_history.
Proof. split; simpl; intros; try done; try lia. intros k. simpl. lia. Qed.

(** ** Preservation *)

(** What later histories keep: elections, and the leaders' logs up to growth. *)
Definition grows g g' : Prop :=
  (∀ T x, g_elec g T = Some x → g_elec g' T = Some x) ∧
  (∀ T, elected g T → g_llog g T `prefix_of` g_llog g' T).

Lemma grows_refl_elec g g' :
  g_elec g' = g_elec g → g_llog g' = g_llog g → grows g g'.
Proof. intros He Hl. split; intros T; rewrite ?He, ?Hl; done. Qed.

Lemma well_rooted_grows g g' l : grows g g' → well_rooted g l → well_rooted g' l.
Proof.
  intros [He Hl] Hw k Hk. destruct (Hw k Hk) as [[x Hx] Hp].
  split; [exists x; auto|]. etrans; [exact Hp|]. apply Hl. by exists x.
Qed.

Lemma superseded_grows g g' T T1 T2 p :
  grows g g' → (T1 ≤ T2)%Z → superseded g T T1 p → superseded g' T T2 p.
Proof. intros [He _] Ht (T0 & c & l & HT & Hc & Hp). exists T0, c, l. split; [lia|]. auto. Qed.

Lemma well_rooted_prefix g a b : a `prefix_of` b → well_rooted g b → well_rooted g a.
Proof.
  intros Hp Hw k Hk. pose proof (prefix_length _ _ Hp).
  rewrite <- (term_at_prefix _ _ k Hp) by lia. destruct (Hw k) as [He Ht]; [lia|].
  split; [done|]. etrans; [|exact Ht].
  rewrite (prefix_eq_take _ _ Hp), take_take. apply prefix_take_le. lia.
Qed.

Lemma prefix_take_same {A} (a b : list A) k : a `prefix_of` b → k ≤ length a → take k b = take k a.
Proof. intros [c ->] Hk. by rewrite take_app_le. Qed.

Lemma safe_le g T1 T2 p : safe g T1 p → (T1 ≤ T2)%Z → safe g T2 p.
Proof. intros [->|(T0 & ? & ? & ?)] Hle; [by left|right]. exists T0. split; [lia|done]. Qed.

Lemma safe_prefix g T p p' : safe g T p → p' `prefix_of` p → safe g T p'.
Proof.
  intros [->|(T0 & ? & ? & ?)] Hp; [left; by apply prefix_nil_inv|right].
  exists T0. split; [done|]. split; [done|]. by etrans.
Qed.

Section facts.
Context g (Hg : ginv g).

(** The entries of a leader's log are of its term or older. *)
Lemma llog_term T c l k :
  g_elec g T = Some (c, l) → 0 < k ≤ length (g_llog g T) →
  (k ≤ length l ∧ (term_at (g_llog g T) k < T)%Z) ∨
  (length l < k ∧ term_at (g_llog g T) k = T).
Proof using Hg voters.
  intros He Hk. destruct (gi_llog g Hg T c l He) as (es & Hl & Hes).
  rewrite Hl in *.
  destruct (decide (k ≤ length l)) as [Hkl|Hkl].
  - left. rewrite (term_at_prefix l) by (by eexists || lia).
    split; [done|]. apply (gi_elec_old g Hg T c l k He). lia.
  - right. destruct (term_at_app_r l es k) as (e & Hin & ->); [lia|lia|].
    rewrite Forall_forall in Hes. split; [lia|]. by apply Hes.
Qed.

Lemma llog_le T k : elected g T → 0 < k ≤ length (g_llog g T) → (term_at (g_llog g T) k ≤ T)%Z.
Proof using Hg voters.
  intros [[c l] He] Hk. destruct (llog_term T c l k He Hk) as [[_ ?]|[_ ?]]; lia.
Qed.

Lemma llog_rooted T : elected g T → well_rooted g (g_llog g T).
Proof using Hg voters.
  intros [[c l] He] k Hk.
  destruct (llog_term T c l k He Hk) as [[Hkl _]|[_ Ht]].
  - destruct (gi_llog g Hg T c l He) as (es & Hl & _).
    assert (l `prefix_of` g_llog g T) as Hp by (rewrite Hl; by eexists).
    rewrite (term_at_prefix _ _ _ Hp) by lia. rewrite (prefix_take_same _ _ _ Hp) by lia.
    apply (gi_elec_rooted g Hg T c l He). lia.
  - rewrite Ht. split; [by eexists|]. apply prefix_take.
Qed.

(** Terms never decrease along a rooted log. *)
Lemma rooted_sorted l j k :
  well_rooted g l → 0 < j ≤ k → k ≤ length l → (term_at l j ≤ term_at l k)%Z.
Proof using Hg voters.
  intros Hw Hj Hk. destruct (Hw k) as [He Hp]; [lia|].
  rewrite <- (term_at_take l j k) by lia.
  assert (length (take k l) = k) as Hlen by (rewrite length_take; lia).
  pose proof (prefix_length _ _ Hp).
  rewrite <- (term_at_prefix _ _ j Hp) by lia. apply llog_le; [done|lia].
Qed.

(** Log matching: rooted logs that agree on the term of an index agree up to
    it. *)
Lemma rooted_matching a b k :
  well_rooted g a → well_rooted g b → k ≤ length a → k ≤ length b →
  term_at a k = term_at b k → take k a = take k b.
Proof using Type.
  intros Ha Hb Hka Hkb Ht. destruct (decide (k = 0)) as [->|Hk]; [done|].
  destruct (Ha k) as [_ Hpa]; [lia|]. destruct (Hb k) as [_ Hpb]; [lia|].
  rewrite <- Ht in Hpb. rewrite (prefix_eq_take _ _ Hpa), (prefix_eq_take _ _ Hpb).
  by rewrite !length_take, !Nat.min_l by lia.
Qed.

(** The up-to-date check.  [p] is a committed prefix that ends in an entry of
    the leader's term [T]; a log [b] that contains it votes for [a]; every leader
    between [T] and the candidate's term was elected with [p] in its log: then
    the candidate has [p]. *)
Lemma up_to_date_keeps T T' k a b :
  elected g T → 0 < k ≤ length (g_llog g T) → term_at (g_llog g T) k = T →
  well_rooted g a → well_rooted g b → (0 < T)%Z →
  (∀ j, 0 < j ≤ length a → (term_at a j < T')%Z) →
  (∀ T1 c l, (T < T1 < T')%Z → g_elec g T1 = Some (c, l) → take k (g_llog g T) `prefix_of` l) →
  take k (g_llog g T) `prefix_of` b → up_to_date a b → take k (g_llog g T) `prefix_of` a.
Proof using Hg voters.
  intros HeT Hk Ht Ha Hb HT Hold Hbetween Hpb Hup.
  assert (length (take k (g_llog g T)) = k) as Hlen by (rewrite length_take; lia).
  pose proof (prefix_length _ _ Hpb) as Hkb.
  assert (T ≤ last_term b)%Z as Hlb.
  { unfold last_term. rewrite <- Ht at 1. rewrite <- (term_at_take (g_llog g T) k k) by lia.
    rewrite <- (term_at_prefix _ _ k Hpb) by lia. apply rooted_sorted; [done|lia|lia]. }
  assert (length a ≠ 0) as Hna.
  { intros Hz. unfold up_to_date in Hup. unfold last_term in Hup at 2 3. rewrite Hz in Hup.
    simpl in Hup. lia. }
  destruct (Ha (length a)) as [HeA HpA]; [lia|]. rewrite take_ge in HpA by lia.
  fold (last_term a) in HeA, HpA.
  assert (take k (g_llog g T) `prefix_of` g_llog g (last_term a) ∧ k ≤ length a) as [Hp Hka].
  { destruct (decide (last_term a = T)) as [Heq|Hne].
    - rewrite Heq. split; [apply prefix_take|]. unfold up_to_date in Hup. lia.
    - assert (T < last_term a)%Z as Hlt by (unfold up_to_date in Hup; lia).
      destruct HeA as [[c l] HeA].
      pose proof (Hbetween _ c l (conj Hlt (Hold (length a) ltac:(lia))) HeA) as Hpl.
      destruct (gi_llog g Hg _ _ _ HeA) as (es & Hl & _). split.
      + rewrite Hl. by apply prefix_app_r.
      + pose proof (prefix_length _ _ Hpl). pose proof (prefix_length _ _ HpA).
        destruct (llog_term _ _ _ (length a) HeA) as [[_ Hbad]|[? _]]; [lia| |lia].
        rewrite (term_at_prefix _ _ _ HpA) in Hbad by lia. unfold last_term in Hbad. lia. }
  apply (prefix_shorter _ _ _ Hp HpA). lia.
Qed.

Lemma elected_pos T : elected g T → (0 < T)%Z.
Proof using Hg voters.
  intros [[c l] He]. destruct (gi_elec g Hg _ _ _ He) as [(l0 & Hc & _) _].
  apply (gi_cand_term g Hg) in Hc as [_ Hv]. apply (gi_vote_term g Hg) in Hv. lia.
Qed.

Lemma elec_prefix T c l : g_elec g T = Some (c, l) → l `prefix_of` g_llog g T.
Proof using Hg voters. intros He. destruct (gi_llog g Hg T c l He) as (es & -> & _). by eexists. Qed.

(** The log the candidate campaigned with has what was committed before. *)
Lemma campaign_completeness T T' c l0 q :
  NoDup voters → 0 < g_commit g T → (T < T')%Z → g_cand g (c, T') = Some l0 →
  quorum voters q → Forall (λ n, g_vote g (n, T') = Some c ∧ is_Some (g_vlog g (n, T'))) q →
  (∀ T1 c1 l1, (T < T1 < T')%Z → g_elec g T1 = Some (c1, l1) →
    take (g_commit g T) (g_llog g T) `prefix_of` l1) →
  take (g_commit g T) (g_llog g T) `prefix_of` l0.
Proof using Hg voters.
  intros Hnd Hc0 Hlt Hcand Hq' Hvotes IH.
  destruct (gi_commit g Hg T Hc0) as (HeT & Hcl & Hct & q1 & Hq1 & Hack).
  destruct (quorums_meet voters q1 q) as (n & Hn & Hn'); [done..|].
  rewrite Forall_forall in Hack, Hvotes. specialize (Hack n Hn). destruct (Hvotes n Hn') as [Hv [b Hb]].
  destruct (gi_vote g Hg n T' c Hv) as (l' & Hcand' & Hup). simplify_eq.
  destruct (gi_ack_vote g Hg n T (g_commit g T) T' b) as [Hp|(T1 & c1 & l1 & HT1 & He1 & Hn1)];
    [lia|done|done|done| |].
  - eapply (up_to_date_keeps T T' _ l0 b); eauto.
    + apply (gi_cand_rooted g Hg c T' l0 Hcand).
    + apply (gi_vlog_rooted g Hg n T' b Hb).
    + by apply elected_pos.
    + intros j Hj. by apply (gi_cand_old g Hg c T' l0 j Hcand).
  - destruct Hn1. apply (IH T1 c1 l1); [lia|done].
Qed.

(** Leader completeness. *)
Lemma leader_completeness T T' c l :
  NoDup voters → 0 < g_commit g T → (T < T')%Z → g_elec g T' = Some (c, l) →
  take (g_commit g T) (g_llog g T) `prefix_of` l.
Proof using Hg voters.
  intros Hnd. revert T c l.
  destruct (decide (0 ≤ T')%Z) as [HT'|HT'].
  2: { intros T c l _ _ He. assert (elected g T') as He' by by eexists.
       apply elected_pos in He'. lia. }
  revert HT'. induction T' as [T' IH] using (well_founded_induction (Z.lt_wf 0)).
  intros HT' T c l Hc0 Hlt He.
  destruct (gi_elec g Hg T' c l He) as ((l0 & Hcand & Hcl) & q & Hq & Hvotes).
  destruct (gi_commit g Hg T Hc0) as (HeT & Hlen & _).
  pose proof (elected_pos T HeT) as HTp.
  assert (take (g_commit g T) (g_llog g T) `prefix_of` l0) as Hp0.
  { eapply campaign_completeness; eauto. intros T1 c1 l1 HT1 He1.
    apply (IH T1 ltac:(lia) ltac:(lia) T c1 l1); [done|lia|done]. }
  destruct Hcl as [->|[Hlen0 [->|(T0 & HT0 & Hc00 & Hp)]]].
  - done.
  - simpl in Hlen0. destruct l0; [done|simpl in Hlen0; lia].
  - destruct (gi_commit g Hg T0 Hc00) as (HeT0 & _).
    pose proof (elected_pos T0 HeT0) as HT0p. pose proof (prefix_length _ _ Hp0).
    assert (∀ Ta Tb ca la, 0 < g_commit g Ta → (Ta < Tb < T')%Z → (0 < Ta)%Z →
      g_elec g Tb = Some (ca, la) → take (g_commit g Ta) (g_llog g Ta) `prefix_of` g_llog g Tb) as IH'.
    { intros Ta Tb ca la Hca HTab HTa Heb. etrans; [|by eapply elec_prefix].
      apply (IH Tb ltac:(lia) ltac:(lia) Ta ca la); [done|lia|done]. }
    destruct HeT as [[cT lT] HeT], HeT0 as [[c0 l00] HeT0].
    destruct (Z.lt_trichotomy T0 T) as [HTT|[->|HTT]].
    + apply (prefix_shorter _ _ (g_llog g T)); [apply prefix_take| |lia].
      etrans; [exact Hp|]. eapply IH'; [done|lia|lia|done].
    + apply (prefix_shorter _ _ (g_llog g T)); [apply prefix_take| |lia].
      etrans; [exact Hp|apply prefix_take].
    + apply (prefix_shorter _ _ (g_llog g T0)); [|etrans; [exact Hp|apply prefix_take]|lia].
      eapply IH'; [done|lia|lia|done].
Qed.

Lemma safe_in_leader T T' p :
  NoDup voters → safe g T p → (T ≤ T')%Z → elected g T' → p `prefix_of` g_llog g T'.
Proof using Hg voters.
  intros Hnd [->|(T0 & HT & Hc & Hp)] Hle [[c l] He]; [apply prefix_nil|].
  destruct (decide (T0 = T')) as [->|Hne].
  - etrans; [exact Hp|apply prefix_take].
  - etrans; [exact Hp|]. etrans; [apply (leader_completeness T0 T' c l); [done|done|lia|done]|].
    by eapply elec_prefix.
Qed.

(** Committed prefixes agree. *)
Lemma safe_agree T1 T2 p1 p2 :
  NoDup voters → safe g T1 p1 → safe g T2 p2 → length p1 ≤ length p2 → p1 `prefix_of` p2.
Proof using Hg voters.
  intros Hnd Hs1 Hs2 Hl.
  assert (∀ T p, safe g T p → p = [] ∨ ∃ T0, elected g T0 ∧ safe g T0 p) as Hex.
  { intros T p [->|(T0 & HT & Hc & Hp)]; [by left|right]. exists T0.
    split; [apply (gi_commit g Hg T0 Hc)|]. right. by exists T0. }
  destruct (Hex _ _ Hs1) as [->|(T1' & He1 & Hs1')]; [apply prefix_nil|].
  destruct (Hex _ _ Hs2) as [->|(T2' & He2 & Hs2')].
  { apply Nat.le_0_r, nil_length_inv in Hl as ->. done. }
  destruct (decide (T1' ≤ T2')%Z).
  - apply (prefix_shorter _ _ (g_llog g T2')); [|by apply (safe_in_leader T2' T2')|done].
    by apply (safe_in_leader T1' T2').
  - apply (prefix_shorter _ _ (g_llog g T1')); [by apply (safe_in_leader T1' T1')| |done].
    apply (safe_in_leader T2' T1'); [done|done|lia|done].
Qed.

(** Within the leader's log of [T], a committed entry of term [T] was committed
    by that leader. *)
Lemma safe_own T p k :
  safe g T p → elected g T → p `prefix_of` g_llog g T → 0 < k ≤ length p →
  term_at (g_llog g T) k = T → k ≤ g_commit g T.
Proof using Hg voters.
  intros [->|(T0 & HT & Hc & Hp)] He HpT Hk Ht; [simpl in *; lia|].
  pose proof (prefix_length _ _ Hp) as Hlen. rewrite length_take in Hlen.
  destruct (decide (T0 = T)) as [->|Hne]; [lia|].
  assert (term_at (g_llog g T) k = term_at (g_llog g T0) k) as Heq.
  { rewrite (term_at_prefix _ _ k HpT) by lia.
    rewrite <- (term_at_take (g_llog g T0) k (g_commit g T0)) by lia.
    by rewrite (term_at_prefix _ _ k Hp) by lia. }
  pose proof (llog_le T0 k) as Hle. destruct (gi_commit g Hg T0 Hc) as (He0 & Hl0 & _).
  specialize (Hle He0 ltac:(lia)). lia.
Qed.

End facts.

Lemma safe_grows g g' T p :
  grows g g' → (∀ T0, 0 < g_commit g T0 → elected g T0 ∧ g_commit g T0 ≤ length (g_llog g T0) ∧
                      g_commit g T0 ≤ g_commit g' T0) →
  safe g T p → safe g' T p.
Proof.
  intros [_ Hl] Hc [->|(T0 & HT & H0 & Hp)]; [by left|right].
  destruct (Hc T0 H0) as (He & Hlen & Hle). exists T0. split; [done|]. split; [lia|].
  etrans; [exact Hp|]. rewrite <- (prefix_take_same _ _ _ (Hl T0 He)) by done.
  by apply prefix_take_le.
Qed.

End protocol.
