(* ===== verification/RaftMoves.v ===== *)
(** * Raft: every move keeps the invariant of the history *)

From S2P Require Import Prelude Wire RaftTypes RaftGhost.

Section moves.
Context (voters : list nat).
Implicit Types (g : history) (T : Z) (n c : nat).

Lemma upd_inv {A B} `{EqDecision A} (f : A → B) a b x y :
  upd f a b x = y → (x = a ∧ b = y) ∨ (x ≠ a ∧ f x = y).
Proof. unfold upd. case_decide; auto. Qed.

(** Case analysis on whether an updated point is the one looked up. *)
Ltac point H :=
  apply upd_inv in H as [[[= -> ->] H]|[?Hd H]];
  [rewrite ?upd_eq; try injection H as <-|rewrite ?(upd_ne _ _ _ _ Hd)].

(** Name the history in the goal. *)
Ltac name_history g' :=
  match goal with
  | |- ginv _ ?h => let h' := eval red in h in change h with h'; set (g' := h')
  end.

(** Moves that leave elections and leader logs alone: roots and superseding
    leaders carry over. *)
Lemma same_rooted g g' l :
  g_elec g' = g_elec g → g_llog g' = g_llog g → well_rooted g l → well_rooted g' l.
Proof. intros He Hl. by apply well_rooted_grows, grows_refl_elec. Qed.

Lemma same_superseded g g' T T1 T2 p :
  g_elec g' = g_elec g → (T1 ≤ T2)%Z → superseded g T T1 p → superseded g' T T2 p.
Proof. intros He Ht (T0 & c & l & HT & Hc & Hp). exists T0, c, l. rewrite He. split; [lia|done]. Qed.

Lemma upd_cases_term (f : nat → Z) n T m : (f n ≤ T)%Z → (f m ≤ upd f n T m)%Z.
Proof. intros HT. unfold upd. case_decide; subst; lia. Qed.

Lemma move_term_ginv g n T :
  ginv voters g → (g_term g n ≤ T)%Z →
  ginv voters (set_term g n T).
Proof.
  intros Hg HT. pose proof (λ m, upd_cases_term (g_term g) n T m HT) as Hmono.
  split; simpl.
  - intros m. pose proof (gi_term _ _ Hg m). pose proof (Hmono m). lia.
  - intros m T1 c Hv. pose proof (gi_vote_term _ _ Hg _ _ _ Hv). pose proof (Hmono m). lia.
  - apply (gi_vote _ _ Hg).
  - intros m T1 b Hb. exact (gi_vlog_rooted _ _ Hg _ _ _ Hb).
  - apply (gi_vlog_vote _ _ Hg).
  - apply (gi_early _ _ Hg).
  - intros c T1 l Hc. destruct (gi_cand_term _ _ Hg _ _ _ Hc). pose proof (Hmono c). split; [lia|done].
  - apply (gi_cand_old _ _ Hg).
  - intros c T1 l Hc. exact (gi_cand_rooted _ _ Hg _ _ _ Hc).
  - intros c T1 l Hc Ht He. apply (gi_cand_log _ _ Hg c T1 l Hc); [|done].
    pose proof (gi_cand_term _ _ Hg _ _ _ Hc) as [? _]. pose proof (Hmono c). lia.
  - apply (gi_elec_old _ _ Hg).
  - intros T1 c l He. exact (gi_elec_rooted _ _ Hg _ _ _ He).
  - apply (gi_elec _ _ Hg).
  - apply (gi_llog _ _ Hg).
  - intros T1 c l He Ht. apply (gi_leader_log _ _ Hg T1 c l He).
    destruct (gi_elec _ _ Hg _ _ _ He) as [(l0 & Hc & _) _].
    pose proof (gi_cand_term _ _ Hg _ _ _ Hc) as [? _]. pose proof (Hmono c). lia.
  - intros m. exact (gi_rooted _ _ Hg m).
  - intros m k Hk. pose proof (gi_log_term _ _ Hg m k Hk). pose proof (Hmono m). lia.
  - intros m T1 Ha. destruct (gi_ack _ _ Hg m T1 Ha) as (? & ? & ?). pose proof (Hmono m).
    split; [done|]. split; [lia|done].
  - intros m T1 k Hk Ht. destruct (gi_ack_log _ _ Hg m T1 k Hk Ht) as [?|Hs]; [by left|right].
    eapply same_superseded; [|apply Hmono|exact Hs]; done.
  - intros m T1 k T2 c Hk Ht Hv HT12.
    destruct (gi_ack_vote _ _ Hg m T1 k T2 c Hk Ht Hv HT12) as [?|Hs]; [by left|right].
    eapply same_superseded; [| |exact Hs]; [done|simpl; lia].
  - apply (gi_commit _ _ Hg).
Qed.

Lemma early_log_Some g n T b : early_log g n T = Some b → b = g_log g n ∧ g_elec g T = None.
Proof. unfold early_log. by case_match; intros; simplify_eq. Qed.

(** The acknowledgements of a node, against the log it votes with. *)
Lemma vote_keeps_acks g n T k T1 b :
  ginv voters g → (g_term g n ≤ T)%Z → early_log g n T = Some b →
  0 < k ≤ g_ack g (n, T1) → term_at (g_llog g T1) k = T1 → (T1 < T)%Z →
  take k (g_llog g T1) `prefix_of` b ∨ superseded g T1 (T - 1) (take k (g_llog g T1)).
Proof.
  intros Hg HT [-> Hn]%early_log_Some Hk Ht H1.
  destruct (gi_ack_log _ _ Hg n T1 k Hk Ht) as [?|(T0 & c & l & HT0 & He & Hp)]; [by left|right].
  exists T0, c, l. split; [|done]. assert (T0 ≠ T) by congruence. lia.
Qed.

Lemma move_campaign_ginv g c T :
  ginv voters g → (g_term g c < T)%Z →
  ginv voters (campaign g c T).
Proof.
  intros Hg HT. pose proof (gi_term _ _ Hg c) as H0.
  pose proof (λ m, upd_cases_term (g_term g) c T m ltac:(lia)) as Hmono.
  assert (g_vote g (c, T) = None) as Hnv.
  { destruct (g_vote g (c, T)) as [d|] eqn:Hv; [|done].
    pose proof (gi_vote_term _ _ Hg _ _ _ Hv). lia. }
  assert (∀ l, g_cand g (c, T) ≠ Some l) as Hnc.
  { intros l Hc. apply (gi_cand_term _ _ Hg) in Hc as [? _]. lia. }
  split; simpl.
  - intros m. pose proof (gi_term _ _ Hg m). pose proof (Hmono m). lia.
  - intros m T1 d Hv. point Hv; [lia|].
    pose proof (gi_vote_term _ _ Hg _ _ _ Hv). pose proof (Hmono m). lia.
  - intros m T1 d Hv. point Hv.
    + exists (g_log g c). rewrite !upd_eq. split; [done|]. intros b [-> _]%early_log_Some. by right.
    + destruct (gi_vote _ _ Hg _ _ _ Hv) as (l & Hc & Hup). exists l.
      rewrite (upd_ne (g_cand g)) by (intros [= -> ->]; by eapply Hnc). done.
  - intros m T1 b Hb. point Hb.
    + apply early_log_Some in Hb as [-> _]. exact (gi_rooted _ _ Hg c).
    + exact (gi_vlog_rooted _ _ Hg _ _ _ Hb).
  - intros m T1 b Hb. point Hb; [done|]. by apply (gi_vlog_vote _ _ Hg _ _ _ Hb).
  - intros m T1 d Hv He. point Hv; [unfold early_log; by rewrite He|].
    by apply (gi_early _ _ Hg _ _ _ Hv).
  - intros d T1 l Hc. point Hc; [split; [lia|done]|].
    destruct (gi_cand_term _ _ Hg _ _ _ Hc). pose proof (Hmono d). split; [lia|done].
  - intros d T1 l k Hc Hk. point Hc.
    + pose proof (gi_log_term _ _ Hg c k Hk). lia.
    + by apply (gi_cand_old _ _ Hg d T1 l k Hc).
  - intros d T1 l Hc. point Hc; [exact (gi_rooted _ _ Hg c)|exact (gi_cand_rooted _ _ Hg _ _ _ Hc)].
  - intros d T1 l Hc Ht He. point Hc; [by left|].
    apply upd_inv in Ht as [[-> <-]|[_ Ht]]; [done|]. by apply (gi_cand_log _ _ Hg d T1 l Hc).
  - apply (gi_elec_old _ _ Hg).
  - intros T1 d l He. exact (gi_elec_rooted _ _ Hg _ _ _ He).
  - intros T1 d l He. destruct (gi_elec _ _ Hg T1 d l He) as ((l0 & Hc & Hcl) & q & Hq & Hvs).
    split; [exists l0; rewrite upd_ne by (intros [= -> ->]; by eapply Hnc); done|].
    exists q. split; [done|]. eapply Forall_impl; [exact Hvs|]. intros m [Hm Hb].
    rewrite !upd_ne by (intros [= -> ->]; congruence). done.
  - apply (gi_llog _ _ Hg).
  - intros T1 d l He Ht. apply upd_inv in Ht as [[-> <-]|[_ Ht]].
    + destruct (gi_elec _ _ Hg _ _ _ He) as [(l0 & Hc & _) _]. by destruct (Hnc _ Hc).
    + by apply (gi_leader_log _ _ Hg _ d l He).
  - intros m. exact (gi_rooted _ _ Hg m).
  - intros m k Hk. pose proof (gi_log_term _ _ Hg m k Hk). pose proof (Hmono m). lia.
  - intros m T1 Ha. destruct (gi_ack _ _ Hg m T1 Ha) as (? & ? & ?). pose proof (Hmono m).
    split; [done|]. split; [lia|done].
  - intros m T1 k Hk Ht. destruct (gi_ack_log _ _ Hg m T1 k Hk Ht) as [?|Hs]; [by left|right].
    eapply same_superseded; [|apply Hmono|exact Hs]; done.
  - intros m T1 k T2 b Hk Ht Hb HT12. point Hb.
    + apply (vote_keeps_acks g c T k T1 b); [done|lia|done..].
    + by apply (gi_ack_vote _ _ Hg m T1 k T2 b).
  - apply (gi_commit _ _ Hg).
Qed.

Lemma move_vote_ginv g n c T l :
  ginv voters g → g_term g n = T → g_vote g (n, T) = None → g_cand g (c, T) = Some l →
  up_to_date l (g_log g n) →
  ginv voters (cast_vote g n c T).
Proof.
  intros Hg HT Hnv Hcand Hup.
  assert (0 < T)%Z as HT0.
  { apply (gi_cand_term _ _ Hg) in Hcand as [_ Hv]. apply (gi_vote_term _ _ Hg) in Hv. lia. }
  split; simpl.
  - apply (gi_term _ _ Hg).
  - intros m T1 d Hv. point Hv; [lia|]. by apply (gi_vote_term _ _ Hg _ _ _ Hv).
  - intros m T1 d Hv. point Hv.
    + exists l. split; [done|]. by intros b [-> _]%early_log_Some.
    + by apply (gi_vote _ _ Hg).
  - intros m T1 b Hb. point Hb.
    + apply early_log_Some in Hb as [-> _]. exact (gi_rooted _ _ Hg n).
    + exact (gi_vlog_rooted _ _ Hg _ _ _ Hb).
  - intros m T1 b Hb. point Hb; [done|]. by apply (gi_vlog_vote _ _ Hg _ _ _ Hb).
  - intros m T1 d Hv He. point Hv; [unfold early_log; by rewrite He|].
    by apply (gi_early _ _ Hg _ _ _ Hv).
  - intros d T1 l1 Hc. destruct (gi_cand_term _ _ Hg _ _ _ Hc) as [? Hv]. split; [done|].
    rewrite upd_ne; [done|]. intros [= -> ->]. congruence.
  - apply (gi_cand_old _ _ Hg).
  - intros d T1 l1 Hc. exact (gi_cand_rooted _ _ Hg _ _ _ Hc).
  - apply (gi_cand_log _ _ Hg).
  - apply (gi_elec_old _ _ Hg).
  - intros T1 d l1 He. exact (gi_elec_rooted _ _ Hg _ _ _ He).
  - intros T1 d l1 He. destruct (gi_elec _ _ Hg T1 d l1 He) as (Hc & q & Hq & Hvs).
    split; [done|]. exists q. split; [done|]. eapply Forall_impl; [exact Hvs|]. intros m [Hm Hb].
    rewrite !upd_ne by (intros [= -> ->]; congruence). done.
  - apply (gi_llog _ _ Hg).
  - apply (gi_leader_log _ _ Hg).
  - intros m. exact (gi_rooted _ _ Hg m).
  - apply (gi_log_term _ _ Hg).
  - apply (gi_ack _ _ Hg).
  - intros m T1 k Hk Ht. exact (gi_ack_log _ _ Hg m T1 k Hk Ht).
  - intros m T1 k T2 b Hk Ht Hb HT12. point Hb.
    + apply (vote_keeps_acks g n T k T1 b); [done|lia|done..].
    + by apply (gi_ack_vote _ _ Hg m T1 k T2 b).
  - apply (gi_commit _ _ Hg).
Qed.

(** Facts about a leader's log survive its growth. *)
Lemma take_grows g g' T k :
  grows g g' → elected g T → k ≤ length (g_llog g T) →
  take k (g_llog g' T) = take k (g_llog g T) ∧
  term_at (g_llog g' T) k = term_at (g_llog g T) k ∧ k ≤ length (g_llog g' T).
Proof.
  intros [_ Hl] He Hk. pose proof (prefix_length _ _ (Hl T He)).
  split; [by apply prefix_take_same, Hk; apply Hl|]. split; [|lia]. apply term_at_prefix; auto.
Qed.

(** Acknowledgements stay in a log that only grows. *)
Lemma acks_grow g g' n :
  ginv voters g → grows g g' → g_ack g' = g_ack g → g_term g' n = g_term g n →
  g_log g n `prefix_of` g_log g' n →
  ∀ T k, 0 < k ≤ g_ack g' (n, T) → term_at (g_llog g' T) k = T →
  take k (g_llog g' T) `prefix_of` g_log g' n ∨
  superseded g' T (g_term g' n) (take k (g_llog g' T)).
Proof.
  intros Hg Hgr Ha Ht Hp T k Hk HT. rewrite Ha in Hk.
  destruct (gi_ack _ _ Hg n T) as (He & _ & Hlen); [lia|].
  destruct (take_grows g g' T k Hgr He) as (-> & Hterm & _); [lia|]. rewrite Hterm in HT.
  destruct (gi_ack_log _ _ Hg n T k Hk HT) as [?|Hs]; [left; by etrans|right].
  eapply superseded_grows; [done| |exact Hs]. lia.
Qed.

Lemma votes_grow g g' n :
  ginv voters g → grows g g' → g_ack g' = g_ack g → g_vlog g' = g_vlog g →
  ∀ T k T' b, 0 < k ≤ g_ack g' (n, T) → term_at (g_llog g' T) k = T →
  g_vlog g' (n, T') = Some b → (T < T')%Z →
  take k (g_llog g' T) `prefix_of` b ∨ superseded g' T (T' - 1) (take k (g_llog g' T)).
Proof.
  intros Hg Hgr Ha Hv T k T' b Hk HT Hb HTT. rewrite Ha in Hk. rewrite Hv in Hb.
  destruct (gi_ack _ _ Hg n T) as (He & _ & Hlen); [lia|].
  destruct (take_grows g g' T k Hgr He) as (-> & Hterm & _); [lia|]. rewrite Hterm in HT.
  destruct (gi_ack_vote _ _ Hg n T k T' b Hk HT Hb HTT) as [?|Hs]; [by left|right].
  eapply superseded_grows; [done| |exact Hs]. lia.
Qed.

Lemma commits_grow g g' :
  ginv voters g → grows g g' → g_ack g' = g_ack g → g_commit g' = g_commit g →
  ∀ T, 0 < g_commit g' T →
  elected g' T ∧ g_commit g' T ≤ length (g_llog g' T) ∧ term_at (g_llog g' T) (g_commit g' T) = T ∧
  ∃ q, quorum voters q ∧ Forall (λ n, g_commit g' T ≤ g_ack g' (n, T)) q.
Proof.
  intros Hg Hgr Ha Hc T HT. rewrite Hc in *. rewrite Ha.
  destruct (gi_commit _ _ Hg T HT) as (He & Hlen & Hterm & Hq).
  destruct (take_grows g g' T _ Hgr He Hlen) as (_ & -> & Hlen').
  destruct He as [x He]. split; [exists x; by apply Hgr|]. done.
Qed.

Lemma rooted_snoc g l T es :
  well_rooted g l → elected g T → l ++ es `prefix_of` g_llog g T →
  Forall (λ e, logterm e = T) es → well_rooted g (l ++ es).
Proof.
  intros Hl He Hp Hes k Hk. destruct (decide (k ≤ length l)) as [Hkl|Hkl].
  - rewrite (term_at_prefix l) by (by eexists || lia). rewrite take_app_le by lia.
    apply Hl. lia.
  - destruct (term_at_app_r l es k) as (e & Hin & ->); [lia|lia|].
    rewrite Forall_forall in Hes. rewrite (Hes e Hin). split; [done|].
    etrans; [apply prefix_take|done].
Qed.

(** Committed prefixes stay committed while the history grows. *)
Lemma safe_kept g g' T p :
  ginv voters g → grows g g' → g_commit g' = g_commit g → safe g T p → safe g' T p.
Proof.
  intros Hg Hgr Hc. apply safe_grows; [done|]. intros T0 H0.
  destruct (gi_commit _ _ Hg T0 H0) as (He & Hl & _). rewrite Hc. done.
Qed.

Lemma campaign_kept g g' T l l' :
  ginv voters g → grows g g' → g_commit g' = g_commit g →
  campaign_log g T l l' → campaign_log g' T l l'.
Proof.
  intros Hg Hgr Hc [->|[Hl Hs]]; [by left|right]. split; [done|]. by eapply safe_kept.
Qed.

(** A committed prefix is rooted, and its terms are those of earlier leaders. *)
Lemma safe_rooted g T p : ginv voters g → safe g T p → well_rooted g p.
Proof.
  intros Hg [->|(T0 & _ & Hc & Hp)]; [intros k Hk; simpl in Hk; lia|].
  destruct (gi_commit _ _ Hg T0 Hc) as (He & _).
  eapply well_rooted_prefix; [|exact (llog_rooted _ _ Hg T0 He)].
  etrans; [exact Hp|apply prefix_take].
Qed.

Lemma safe_terms g T p k : ginv voters g → safe g T p → 0 < k ≤ length p → (term_at p k ≤ T)%Z.
Proof.
  intros Hg [->|(T0 & HT & Hc & Hp)] Hk; [simpl in Hk; lia|].
  destruct (gi_commit _ _ Hg T0 Hc) as (He & _).
  assert (p `prefix_of` g_llog g T0) as Hp' by (etrans; [exact Hp|apply prefix_take]).
  rewrite <- (term_at_prefix _ _ k Hp') by lia. pose proof (prefix_length _ _ Hp').
  pose proof (llog_le _ _ Hg T0 k He). lia.
Qed.

Lemma move_win_ginv g c T l q e :
  ginv voters g → g_term g c = T → g_cand g (c, T) = Some l → g_elec g T = None →
  quorum voters q → Forall (λ n, g_vote g (n, T) = Some c) q → logterm e = T →
  ginv voters (win g c T e).
Proof.
  intros Hg HT Hcand Hne Hq Hvs He.
  pose proof (gi_cand_log _ _ Hg c T l Hcand HT Hne) as Hlog.
  name_history g'.
  assert (grows g g') as Hgr.
  { split; unfold g'; simpl.
    - intros T1 x Hx. rewrite upd_ne by congruence. done.
    - intros T1 [x Hx]. rewrite upd_ne by congruence. done. }
  assert (elected g' T ∧ g_llog g' T = g_log g c ++ [e]) as [HeT HlT].
  { unfold elected, g'; simpl. by rewrite !upd_eq. }
  assert (∀ n, g_log g n `prefix_of` g_log g' n) as Hpre.
  { intros n. unfold g'; simpl. destruct (decide (n = c)) as [->|]; [|by rewrite upd_ne].
    rewrite upd_eq. by apply prefix_app_r. }
  split; subst g'; cbn [g_log g_term g_vote g_vlog g_cand g_elec g_llog g_ack g_commit].
  - apply (gi_term _ _ Hg).
  - apply (gi_vote_term _ _ Hg).
  - apply (gi_vote _ _ Hg).
  - intros n T1 b Hb. eapply well_rooted_grows; [exact Hgr|exact (gi_vlog_rooted _ _ Hg _ _ _ Hb)].
  - apply (gi_vlog_vote _ _ Hg).
  - intros n T1 d Hv Hn. apply upd_inv in Hn as [[_ Hn]|[_ Hn]]; [done|].
    by apply (gi_early _ _ Hg n T1 d).
  - apply (gi_cand_term _ _ Hg).
  - apply (gi_cand_old _ _ Hg).
  - intros d T1 l1 Hc. eapply well_rooted_grows; [exact Hgr|exact (gi_cand_rooted _ _ Hg _ _ _ Hc)].
  - intros d T1 l1 Hc Ht Hn. apply upd_inv in Hn as [[_ Hn]|[Hd Hn]]; [done|].
    rewrite upd_ne by (intros ->; congruence).
    eapply (campaign_kept g); [exact Hg|exact Hgr|done|]. by apply (gi_cand_log _ _ Hg d T1 l1).
  - intros T1 d l1 k H1 Hk. apply upd_inv in H1 as [[-> [= <- <-]]|[Hd H1]].
    + destruct Hlog as [Hlog|[_ Hs]].
      * rewrite Hlog in *. by apply (gi_cand_old _ _ Hg c T l k Hcand).
      * pose proof (safe_terms g (T - 1) _ k Hg Hs Hk). lia.
    + by apply (gi_elec_old _ _ Hg T1 d l1 k).
  - intros T1 d l1 H1. eapply (well_rooted_grows g); [exact Hgr|].
    apply upd_inv in H1 as [[-> [= <- <-]]|[Hd H1]];
      [apply (gi_rooted _ _ Hg)|by apply (gi_elec_rooted _ _ Hg T1 d l1)].
  - intros T1 d l1 H1. apply upd_inv in H1 as [[-> [= <- <-]]|[Hd H1]].
    + split; [exists l; split; [done|]; by apply (campaign_kept g _ _ _ _ Hg Hgr)|].
      exists q. split; [done|]. eapply Forall_impl; [exact Hvs|].
      intros n Hn. split; [done|]. by apply (gi_early _ _ Hg n T c).
    + destruct (gi_elec _ _ Hg T1 d l1 H1) as [(l0 & Hc & Hcl) Hqs]. split; [|done].
      exists l0. split; [done|]. by apply (campaign_kept g _ _ _ _ Hg Hgr).
  - intros T1 d l1 H1. apply upd_inv in H1 as [[-> [= <- <-]]|[Hd H1]].
    + exists [e]. rewrite upd_eq. split; [done|]. by constructor.
    + rewrite upd_ne by done. by apply (gi_llog _ _ Hg T1 d l1).
  - intros T1 d l1 H1 Ht. apply upd_inv in H1 as [[-> [= <- <-]]|[Hd H1]].
    + by rewrite !upd_eq.
    + rewrite !upd_ne by (congruence || done). by apply (gi_leader_log _ _ Hg T1 d l1).
  - intros n. destruct (decide (n = c)) as [->|Hn].
    + rewrite upd_eq. eapply (rooted_snoc _ _ T [e]); [|exact HeT|by rewrite HlT|by constructor].
      eapply well_rooted_grows; [exact Hgr|exact (gi_rooted _ _ Hg c)].
    + rewrite upd_ne by done. eapply well_rooted_grows; [exact Hgr|exact (gi_rooted _ _ Hg n)].
  - intros n k Hk. destruct (decide (n = c)) as [->|Hn].
    + rewrite upd_eq in *. destruct (decide (k ≤ length (g_log g c))).
      * rewrite (term_at_prefix (g_log g c)) by (by eexists || lia). apply (gi_log_term _ _ Hg). lia.
      * destruct (term_at_app_r (g_log g c) [e] k) as (e' & ->%list_elem_of_singleton & ->); lia.
    + rewrite upd_ne in * by done. by apply (gi_log_term _ _ Hg).
  - intros n T1 Ha. destruct (gi_ack _ _ Hg n T1 Ha) as ([x Hx] & ? & ?).
    assert (T1 ≠ T) by congruence. unfold elected; simpl. rewrite !upd_ne by done.
    split; [by exists x|done].
  - intros n. exact (acks_grow g _ n Hg Hgr eq_refl eq_refl (Hpre n)).
  - intros n. exact (votes_grow g _ n Hg Hgr eq_refl eq_refl).
  - exact (commits_grow g _ Hg Hgr eq_refl eq_refl).
Qed.

Lemma move_propose_ginv g c T l es :
  ginv voters g → g_term g c = T → g_elec g T = Some (c, l) → Forall (λ e, logterm e = T) es →
  ginv voters (propose g c T es).
Proof.
  intros Hg HT Hel Hes. pose proof (gi_leader_log _ _ Hg T c l Hel HT) as Hlog.
  name_history g'.
  assert (grows g g') as Hgr.
  { split; unfold g'; simpl; [done|]. intros T1 _. destruct (decide (T1 = T)) as [->|].
    - rewrite upd_eq. by apply prefix_app_r.
    - by rewrite upd_ne. }
  assert (g_llog g' T = g_llog g T ++ es) as HlT by (unfold g'; simpl; by rewrite upd_eq).
  assert (∀ n, g_log g n `prefix_of` g_log g' n) as Hpre.
  { intros n. unfold g'; simpl. destruct (decide (n = c)) as [->|]; [|by rewrite upd_ne].
    rewrite upd_eq, Hlog. by apply prefix_app_r. }
  split; subst g'; cbn [g_log g_term g_vote g_vlog g_cand g_elec g_llog g_ack g_commit].
  - apply (gi_term _ _ Hg).
  - apply (gi_vote_term _ _ Hg).
  - apply (gi_vote _ _ Hg).
  - intros n T1 b Hb. eapply well_rooted_grows; [exact Hgr|exact (gi_vlog_rooted _ _ Hg _ _ _ Hb)].
  - apply (gi_vlog_vote _ _ Hg).
  - apply (gi_early _ _ Hg).
  - apply (gi_cand_term _ _ Hg).
  - apply (gi_cand_old _ _ Hg).
  - intros d T1 l1 Hc. eapply well_rooted_grows; [exact Hgr|exact (gi_cand_rooted _ _ Hg _ _ _ Hc)].
  - intros d T1 l1 Hc Ht Hn. rewrite upd_ne by (intros ->; congruence).
    eapply (campaign_kept g); [exact Hg|exact Hgr|done|]. by apply (gi_cand_log _ _ Hg d T1 l1).
  - apply (gi_elec_old _ _ Hg).
  - intros T1 d l1 H1. eapply (well_rooted_grows g); [exact Hgr|]. by apply (gi_elec_rooted _ _ Hg T1 d l1).
  - intros T1 d l1 H1. destruct (gi_elec _ _ Hg T1 d l1 H1) as [(l0 & Hc & Hcl) Hqs]. split; [|done].
    exists l0. split; [done|]. by apply (campaign_kept g _ _ _ _ Hg Hgr).
  - intros T1 d l1 H1. destruct (decide (T1 = T)) as [->|].
    + rewrite upd_eq. destruct (gi_llog _ _ Hg T d l1 H1) as (es1 & -> & Hes1).
      exists (es1 ++ es). by rewrite app_assoc, Forall_app.
    + rewrite upd_ne by done. by apply (gi_llog _ _ Hg T1 d l1).
  - intros T1 d l1 H1 Ht. destruct (decide (T1 = T)) as [->|].
    + assert (d = c) as -> by congruence. by rewrite !upd_eq.
    + rewrite !upd_ne by (congruence || done). by apply (gi_leader_log _ _ Hg T1 d l1).
  - intros n. destruct (decide (n = c)) as [->|Hn].
    + rewrite upd_eq. eapply (rooted_snoc _ (g_llog g T) T es); [|by exists (c, l)| |done].
      * eapply well_rooted_grows; [exact Hgr|]. apply (llog_rooted _ _ Hg). by exists (c, l).
      * by rewrite HlT.
    + rewrite upd_ne by done. eapply well_rooted_grows; [exact Hgr|exact (gi_rooted _ _ Hg n)].
  - intros n k Hk. destruct (decide (n = c)) as [->|Hn].
    + rewrite upd_eq in *. destruct (decide (k ≤ length (g_llog g T))).
      * rewrite (term_at_prefix (g_llog g T)) by (by eexists || lia). rewrite <- Hlog.
        apply (gi_log_term _ _ Hg). rewrite Hlog. lia.
      * destruct (term_at_app_r (g_llog g T) es k) as (e' & Hin & ->); [lia|lia|].
        rewrite Forall_forall in Hes. rewrite (Hes e' Hin). lia.
    + rewrite upd_ne in * by done. by apply (gi_log_term _ _ Hg).
  - intros n T1 Ha. destruct (gi_ack _ _ Hg n T1 Ha) as (He & ? & Hlen).
    destruct (take_grows g _ T1 _ Hgr He Hlen) as (_ & _ & ?). done.
  - intros n. exact (acks_grow g _ n Hg Hgr eq_refl eq_refl (Hpre n)).
  - intros n. exact (votes_grow g _ n Hg Hgr eq_refl eq_refl).
  - exact (commits_grow g _ Hg Hgr eq_refl eq_refl).
Qed.

(** What an acknowledged prefix becomes when the log is overwritten by the
    leader of the current term. *)
Lemma overwrite_keeps_acks g n c T l f l' T1 k :
  ginv voters g → g_term g n = T → g_elec g T = Some (c, l) → f `prefix_of` g_llog g T →
  overwrite (g_log g n) f l' →
  0 < k ≤ g_ack g (n, T1) → take k (g_llog g T1) `prefix_of` g_log g n →
  take k (g_llog g T1) `prefix_of` l' ∨ superseded g T1 T (take k (g_llog g T1)).
Proof.
  intros Hg HT Hel Hf Hov Hk Hp.
  destruct Hov as [[-> _]|[[-> Hpf]|[-> Hcf]]]; [by left|left; by etrans|].
  destruct (gi_ack _ _ Hg n T1) as (HeT1 & HT1 & _); [lia|].
  destruct (decide (take k (g_llog g T1) `prefix_of` g_llog g T)) as [Hin|Hout].
  - left. destruct (decide (length (take k (g_llog g T1)) ≤ length f)) as [Hle|Hgt].
    + by apply (prefix_shorter _ _ (g_llog g T)).
    + exfalso. assert (f `prefix_of` g_log g n) as Hfn.
      { etrans; [|exact Hp]. apply (prefix_shorter _ _ (g_llog g T)); [done|done|lia]. }
      destruct Hcf as (i & x & y & Hx & Hy & Hne).
      rewrite (prefix_lookup_Some _ _ _ _ Hy Hfn) in Hx. congruence.
  - right. destruct (decide (T1 = T)) as [->|Hne]; [destruct Hout; apply prefix_take|].
    exists T, c, l. split; [lia|]. split; [done|]. intros Hl. apply Hout.
    etrans; [exact Hl|]. destruct (gi_llog _ _ Hg T c l Hel) as (es & -> & _). by apply prefix_app_r.
Qed.

Lemma overwrite_split l f l' :
  overwrite l f l' → l' = l ∨ l' = f.
Proof. intros [[-> _]|[[-> _]|[-> _]]]; auto. Qed.

Lemma move_accept_ginv g n c T l f l' :
  ginv voters g → g_term g n = T → g_elec g T = Some (c, l) → n ≠ c →
  f `prefix_of` g_llog g T → overwrite (g_log g n) f l' →
  ginv voters (replace_log g n l').
Proof.
  intros Hg HT Hel Hnc Hf Hov. assert (elected g T) as HeT by (by exists (c, l)). unfold replace_log.
  split; cbn [g_log g_term g_vote g_vlog g_cand g_elec g_llog g_ack g_commit].
  - apply (gi_term _ _ Hg).
  - apply (gi_vote_term _ _ Hg).
  - apply (gi_vote _ _ Hg).
  - intros m T1 b Hb. exact (gi_vlog_rooted _ _ Hg _ _ _ Hb).
  - apply (gi_vlog_vote _ _ Hg).
  - apply (gi_early _ _ Hg).
  - apply (gi_cand_term _ _ Hg).
  - apply (gi_cand_old _ _ Hg).
  - intros d T1 l1 Hc. exact (gi_cand_rooted _ _ Hg _ _ _ Hc).
  - intros d T1 l1 Hc Ht Hn. rewrite upd_ne by (intros ->; congruence).
    by apply (gi_cand_log _ _ Hg d T1 l1).
  - apply (gi_elec_old _ _ Hg).
  - intros T1 d l1 H1. exact (gi_elec_rooted _ _ Hg T1 d l1 H1).
  - apply (gi_elec _ _ Hg).
  - apply (gi_llog _ _ Hg).
  - intros T1 d l1 H1 Ht. destruct (decide (d = n)) as [->|].
    + exfalso. assert (T1 = T) as -> by congruence. congruence.
    + rewrite upd_ne by done. by apply (gi_leader_log _ _ Hg T1 d l1).
  - intros m. unfold upd. case_decide as Hm; [|exact (gi_rooted _ _ Hg m)].
    destruct (overwrite_split _ _ _ Hov) as [->| ->]; [exact (gi_rooted _ _ Hg n)|].
    eapply well_rooted_prefix; [exact Hf|exact (llog_rooted _ _ Hg T HeT)].
  - intros m k Hk. unfold upd in *. case_decide as Hm; [subst m|by apply (gi_log_term _ _ Hg)].
    destruct (overwrite_split _ _ _ Hov) as [->| ->]; [by apply (gi_log_term _ _ Hg)|].
    rewrite <- (term_at_prefix _ _ k Hf) by lia. rewrite HT. pose proof (prefix_length _ _ Hf).
    apply (llog_le _ _ Hg); [done|lia].
  - apply (gi_ack _ _ Hg).
  - intros m T1 k Hk Ht. destruct (gi_ack_log _ _ Hg m T1 k Hk Ht) as [Hp|Hs]; [|by right].
    unfold upd. case_decide as Hm; [subst m|by left]. rewrite HT.
    exact (overwrite_keeps_acks g n c T l f l' T1 k Hg HT Hel Hf Hov Hk Hp).
  - intros m T1 k T2 b Hk Ht Hb HT12. exact (gi_ack_vote _ _ Hg m T1 k T2 b Hk Ht Hb HT12).
  - apply (gi_commit _ _ Hg).
Qed.

Lemma move_ack_ginv g n T k :
  ginv voters g → g_term g n = T → elected g T → g_ack g (n, T) ≤ k ≤ length (g_llog g T) →
  take k (g_llog g T) `prefix_of` g_log g n →
  ginv voters (acknowledge g n T k).
Proof.
  intros Hg HT He Hk Hp. unfold acknowledge.
  assert (∀ m T1, g_ack g (m, T1) ≤ upd (g_ack g) (n, T) k (m, T1)) as Hmono.
  { intros m T1. unfold upd. case_decide as Hd; [injection Hd as -> ->; lia|lia]. }
  split; cbn [g_log g_term g_vote g_vlog g_cand g_elec g_llog g_ack g_commit].
  1-17: apply Hg.
  - intros m T1 Ha. destruct (decide ((m, T1) = (n, T))) as [[= -> ->]|Hd].
    + rewrite upd_eq. split; [done|]. lia.
    + rewrite upd_ne in * by done. by apply (gi_ack _ _ Hg).
  - intros m T1 j Hj Ht. destruct (decide ((m, T1) = (n, T))) as [[= -> ->]|Hd].
    + rewrite upd_eq in Hj. left. etrans; [|exact Hp]. apply prefix_take_le. lia.
    + rewrite upd_ne in Hj by done. exact (gi_ack_log _ _ Hg m T1 j Hj Ht).
  - intros m T1 j T2 b Hj Ht Hb HT12. destruct (decide ((m, T1) = (n, T))) as [[= -> ->]|Hd].
    + exfalso. destruct (gi_vlog_vote _ _ Hg _ _ _ Hb) as [d Hv].
      apply (gi_vote_term _ _ Hg) in Hv. lia.
    + rewrite upd_ne in Hj by done. exact (gi_ack_vote _ _ Hg m T1 j T2 b Hj Ht Hb HT12).
  - intros T1 Hc. destruct (gi_commit _ _ Hg T1 Hc) as (? & ? & ? & q & Hq & Hack).
    split; [done|]. split; [done|]. split; [done|]. exists q. split; [done|].
    eapply Forall_impl; [exact Hack|]. intros m Hm. simpl in *. pose proof (Hmono m T1). lia.
Qed.

Lemma move_commit_ginv g T k q :
  ginv voters g → elected g T → g_commit g T ≤ k ≤ length (g_llog g T) →
  term_at (g_llog g T) k = T → quorum voters q → Forall (λ n, k ≤ g_ack g (n, T)) q →
  ginv voters (advance_commit g T k).
Proof.
  intros Hg He Hk Ht Hq Hack. name_history g'.
  assert (∀ T1 p, safe g T1 p → safe g' T1 p) as Hsafe.
  { intros T1 p. apply safe_grows; [by apply grows_refl_elec|]. intros T0 H0.
    destruct (gi_commit _ _ Hg T0 H0) as (He0 & Hl0 & _). split; [done|]. split; [done|].
    unfold g'; simpl. unfold upd. case_decide; [subst; lia|lia]. }
  assert (∀ T1 l l', campaign_log g T1 l l' → campaign_log g' T1 l l') as Hcamp.
  { intros T1 l l' [->|[? ?]]; [by left|right]. auto. }
  split; try (subst g'; apply Hg); subst g'; simpl.
  - intros c T1 l Hc Hterm Hn. by apply Hcamp, (gi_cand_log _ _ Hg c T1 l).
  - intros T1 c l H1. destruct (gi_elec _ _ Hg T1 c l H1) as [(l0 & Hc & Hcl) Hqs]. eauto.
  - intros T1 Hc. unfold upd in *. case_decide; [subst T1|by apply (gi_commit _ _ Hg)].
    split; [done|]. split; [lia|]. split; [done|]. by exists q.
Qed.

(** An acknowledged prefix survives the installation of a committed log that is
    no shorter than the log it replaces. *)
Lemma install_keeps_acks g n f T1 k :
  NoDup voters → ginv voters g → safe g (g_term g n) f → length (g_log g n) ≤ length f →
  0 < k ≤ g_ack g (n, T1) → take k (g_llog g T1) `prefix_of` g_log g n →
  take k (g_llog g T1) `prefix_of` f ∨ superseded g T1 (g_term g n) (take k (g_llog g T1)).
Proof.
  intros Hnd Hg Hs Hlen Hk Hp. destruct (gi_ack _ _ Hg n T1) as (HeT1 & HT1 & Hl1); [lia|].
  pose proof (prefix_length _ _ Hp) as Hpl.
  assert (∀ L, take k (g_llog g T1) `prefix_of` L → f `prefix_of` L →
               take k (g_llog g T1) `prefix_of` f) as Hcmp.
  { intros L H1 H2. apply (prefix_shorter _ _ L); [done|done|lia]. }
  destruct Hs as [->|(T0 & HT0 & Hc & Hf)].
  { left. apply (prefix_shorter _ _ (g_log g n)); [done|apply prefix_nil|lia]. }
  destruct (gi_commit _ _ Hg T0 Hc) as (HeT0 & _).
  destruct (decide (T0 ≤ T1)%Z) as [Hle|Hgt].
  - left. apply (Hcmp (g_llog g T1)); [apply prefix_take|].
    apply (safe_in_leader _ _ Hg T0 T1); [done| |done|done]. right. by exists T0.
  - destruct HeT0 as [[c0 l0] He0].
    destruct (decide (take k (g_llog g T1) `prefix_of` l0)) as [Hin|Hout].
    + left. apply (Hcmp (g_llog g T0)); [etrans; [exact Hin|by eapply elec_prefix]|].
      etrans; [exact Hf|apply prefix_take].
    + right. exists T0, c0, l0. split; [lia|done].
Qed.

Lemma move_install_ginv g n f :
  NoDup voters → ginv voters g → safe g (g_term g n) f → length (g_log g n) ≤ length f →
  ginv voters (replace_log g n f).
Proof.
  intros Hnd Hg Hs Hlen. unfold replace_log.
  split; try (apply Hg); cbn [g_log g_term g_vote g_vlog g_cand g_elec g_llog g_ack g_commit].
  - intros c T1 l1 Hc Ht Hn. pose proof (gi_cand_log _ _ Hg c T1 l1 Hc Ht Hn) as Hcl.
    unfold upd. case_decide as Hd; [subst c|exact Hcl]. right.
    split; [destruct Hcl as [Heq|[? _]]; [rewrite <- Heq; lia|lia]|].
    destruct Hs as [->|(T0 & HT0 & Hc0 & Hf)]; [by left|right]. exists T0. split; [|done].
    destruct (gi_commit _ _ Hg T0 Hc0) as ([x He0] & _).
    assert (T0 ≠ T1) by congruence. lia.
  - intros T1 d l1 H1 Ht. pose proof (gi_leader_log _ _ Hg T1 d l1 H1 Ht) as Hll.
    unfold upd. case_decide as Hd; [subst d|exact Hll].
    assert (f `prefix_of` g_llog g T1) as Hf.
    { rewrite <- Ht. apply (safe_in_leader _ _ Hg (g_term g n)); [done..|]. rewrite Ht. by eexists. }
    rewrite Hll in Hlen. pose proof (prefix_length _ _ Hf).
    rewrite (prefix_eq_take _ _ Hf), take_ge by lia. done.
  - intros m. unfold upd. case_decide as Hm; [|exact (gi_rooted _ _ Hg m)].
    exact (safe_rooted g _ f Hg Hs).
  - intros m k Hk. unfold upd in *. case_decide as Hm; [subst m|by apply (gi_log_term _ _ Hg)].
    by apply (safe_terms g _ f k Hg Hs).
  - intros m T1 k Hk Ht. destruct (gi_ack_log _ _ Hg m T1 k Hk Ht) as [Hp|Hsup]; [|by right].
    unfold upd. case_decide as Hm; [subst m|by left].
    exact (install_keeps_acks g n f T1 k Hnd Hg Hs Hlen Hk Hp).
Qed.

End moves.
