(* ===== verification/RaftEvolve.v ===== *)
(** * Raft: how the history of the group evolves

    What a node's moves leave alone: the logs, terms and votes of the other
    nodes, the elections they won, and what they committed as leaders. *)

From S2P Require Import Prelude Wire RaftTypes RaftGhost RaftMoves.

(** Entries carry their own index. *)
Definition indexed (l : list LogEntry) : Prop :=
  ∀ k e, l !! k = Some e → logindex e = (Z.of_nat k + 1)%Z.

Definition indexed_history (g : history) : Prop :=
  ∀ T, elected g T → indexed (g_llog g T).

Lemma indexed_prefix a b : a `prefix_of` b → indexed b → indexed a.
Proof. intros Hp Hb k e He. apply Hb. by eapply prefix_lookup_Some. Qed.

Lemma indexed_snoc l es :
  indexed l → (∀ k e, es !! k = Some e → logindex e = (Z.of_nat (length l + k) + 1)%Z) →
  indexed (l ++ es).
Proof.
  intros Hl Hes k e [He|[Hk He]]%lookup_app_Some; [by apply Hl|].
  rewrite (Hes _ _ He). lia.
Qed.

(** A rooted log is indexed. *)
Lemma rooted_indexed g l : indexed_history g → well_rooted g l → indexed l.
Proof.
  intros Hi Hw. destruct (decide (length l = 0)) as [Hz|Hz].
  - apply nil_length_inv in Hz as ->. by intros k e.
  - destruct (Hw (length l)) as [He Hp]; [lia|]. rewrite take_ge in Hp by lia.
    eapply indexed_prefix; [exact Hp|by apply Hi].
Qed.

Section evolve.
Context (voters : list nat) (Hnd : NoDup voters).
Implicit Types (g : history) (T : Z) (n c : nat).

Record evolves (i : nat) g g' : Prop := {
  ev_ginv : ginv voters g';
  ev_indexed : indexed_history g → indexed_history g';
  ev_grows : grows g g';
  ev_vote : ∀ x c, g_vote g x = Some c → g_vote g' x = Some c;
  ev_cand : ∀ x l, g_cand g x = Some l → g_cand g' x = Some l;
  ev_ack : ∀ x, g_ack g x ≤ g_ack g' x;
  ev_commit : ∀ T, g_commit g T ≤ g_commit g' T;
  ev_term : ∀ n, (g_term g n ≤ g_term g' n)%Z;
  ev_other : ∀ n, n ≠ i → g_log g' n = g_log g n ∧ g_term g' n = g_term g n;
  ev_other_vote : ∀ n T, n ≠ i → g_vote g' (n, T) = g_vote g (n, T);
  ev_other_elec : ∀ T c l, c ≠ i → g_elec g' T = Some (c, l) → g_elec g T = Some (c, l);
  ev_other_lead : ∀ T c l, c ≠ i → g_elec g T = Some (c, l) →
    g_llog g' T = g_llog g T ∧ g_commit g' T = g_commit g T;
}.

Lemma evolves_refl i g : ginv voters g → evolves i g g.
Proof. intros Hg. split; try done; by apply grows_refl_elec. Qed.

Lemma grows_trans g1 g2 g3 : grows g1 g2 → grows g2 g3 → grows g1 g3.
Proof.
  intros [He Hl] [He' Hl']. split; [by auto|]. intros T [x Hx].
  etrans; [apply Hl; by exists x|]. apply Hl'. exists x. auto.
Qed.

Lemma evolves_trans i g1 g2 g3 : evolves i g1 g2 → evolves i g2 g3 → evolves i g1 g3.
Proof.
  intros H1 H2. split.
  - apply H2.
  - intros Hi. apply (ev_indexed _ _ _ H2), (ev_indexed _ _ _ H1), Hi.
  - eapply grows_trans; [apply H1|apply H2].
  - intros x c Hx. apply (ev_vote _ _ _ H2), (ev_vote _ _ _ H1), Hx.
  - intros x l Hx. apply (ev_cand _ _ _ H2), (ev_cand _ _ _ H1), Hx.
  - intros x. pose proof (ev_ack _ _ _ H1 x). pose proof (ev_ack _ _ _ H2 x). lia.
  - intros T. pose proof (ev_commit _ _ _ H1 T). pose proof (ev_commit _ _ _ H2 T). lia.
  - intros n. pose proof (ev_term _ _ _ H1 n). pose proof (ev_term _ _ _ H2 n). lia.
  - intros n Hn. destruct (ev_other _ _ _ H1 n Hn), (ev_other _ _ _ H2 n Hn). split; congruence.
  - intros n T Hn. rewrite (ev_other_vote _ _ _ H2 n T Hn). by apply H1.
  - intros T c l Hc Hl. apply (ev_other_elec _ _ _ H1); [done|]. by apply (ev_other_elec _ _ _ H2).
  - intros T c l Hc Hl. destruct (ev_other_lead _ _ _ H1 T c l Hc Hl).
    pose proof (proj1 (ev_grows _ _ _ H1) T _ Hl) as Hl2.
    by destruct (ev_other_lead _ _ _ H2 T c l Hc Hl2) as [-> ->].
Qed.

(** The step wins no election. *)
Definition quiet g g' : Prop := ∀ T, g_elec g' T = g_elec g T.

Lemma quiet_trans g1 g2 g3 : quiet g1 g2 → quiet g2 g3 → quiet g1 g3.
Proof using Type. intros H1 H2 T. by rewrite H2. Qed.

(** Committed prefixes stay committed. *)
Lemma evolves_safe i g g' T p : ginv voters g → evolves i g g' → safe g T p → safe g' T p.
Proof using Type.
  intros Hg Hev. apply safe_grows; [apply Hev|]. intros T0 H0.
  destruct (gi_commit _ _ Hg T0 H0) as (He & Hl & _). split; [done|]. split; [done|]. apply Hev.
Qed.

Lemma evolves_elected i g g' T : evolves i g g' → elected g T → elected g' T.
Proof using Type. intros Hev [x Hx]. exists x. by apply Hev. Qed.

Ltac other :=
  try (intros; rewrite ?upd_ne by (try done; by intros [= ? ?]); done);
  try by apply grows_refl_elec.

Lemma ev_set_term g n T :
  ginv voters g → (g_term g n ≤ T)%Z → evolves n g (set_term g n T).
Proof using Type.
  intros Hg HT. split; simpl; try done; other.
  - by apply move_term_ginv.
  - intros m. by apply upd_cases_term.
Qed.

Lemma ev_campaign g c T : ginv voters g → (g_term g c < T)%Z → evolves c g (campaign g c T).
Proof using Type.
  intros Hg HT. split; simpl; try done; other.
  - by apply move_campaign_ginv.
  - intros [n T1] d Hv. unfold upd. case_decide as Hd; [|done]. injection Hd as -> ->.
    apply (gi_vote_term _ _ Hg) in Hv. lia.
  - intros [n T1] l Hc. unfold upd. case_decide as Hd; [|done]. injection Hd as -> ->.
    apply (gi_cand_term _ _ Hg) in Hc as [? _]. lia.
  - intros m. apply upd_cases_term. lia.
Qed.

Lemma ev_cast_vote g n c T l :
  ginv voters g → g_term g n = T → g_vote g (n, T) = None → g_cand g (c, T) = Some l →
  up_to_date l (g_log g n) → evolves n g (cast_vote g n c T).
Proof using Type.
  intros Hg HT Hv Hc Hup. split; simpl; try done; other.
  - by eapply move_vote_ginv.
  - intros x d Hx. rewrite upd_ne by congruence. done.
Qed.

Lemma ev_win g c T l q e :
  ginv voters g → g_term g c = T → g_cand g (c, T) = Some l → g_elec g T = None →
  quorum voters q → Forall (λ n, g_vote g (n, T) = Some c) q → logterm e = T →
  logindex e = (Z.of_nat (length (g_log g c)) + 1)%Z →
  evolves c g (win g c T e).
Proof using Type.
  intros Hg HT Hc Hn Hq Hvs He Hi. split; simpl; try done; other.
  - by eapply move_win_ginv.
  - intros Hih T1 H1. simpl. unfold elected in H1; simpl in H1. unfold upd in *.
    case_decide as Hd; [|by apply Hih].
    apply indexed_snoc; [eapply rooted_indexed, (gi_rooted _ _ Hg); done|].
    intros k x [Hk Hx]%list_lookup_singleton_Some. subst. lia.
  - split; simpl.
    + intros T1 x Hx. rewrite upd_ne by congruence. done.
    + intros T1 [x Hx]. rewrite upd_ne by congruence. done.
  - intros T1 d l1 Hd H1. apply upd_inv in H1 as [[_ H1]|[_ H1]]; congruence.
  - intros T1 d l1 Hd H1. rewrite upd_ne by congruence. done.
Qed.

Lemma ev_propose g c T l es :
  ginv voters g → g_term g c = T → g_elec g T = Some (c, l) → Forall (λ e, logterm e = T) es →
  (∀ k e, es !! k = Some e → logindex e = (Z.of_nat (length (g_llog g T) + k) + 1)%Z) →
  evolves c g (propose g c T es).
Proof using Type.
  intros Hg HT Hel Hes Hi. split; simpl; try done; other.
  - by eapply move_propose_ginv.
  - intros Hih T1 H1. simpl. unfold upd. case_decide as Hd; [subst T1|by apply Hih].
    apply indexed_snoc; [by apply Hih|done].
  - split; simpl; [done|]. intros T1 _. unfold upd. case_decide; [subst; by apply prefix_app_r|done].
  - intros T1 d l1 Hd H1. rewrite upd_ne by congruence. done.
Qed.

Lemma ev_accept g n c T l f l' :
  ginv voters g → g_term g n = T → g_elec g T = Some (c, l) → n ≠ c →
  f `prefix_of` g_llog g T → overwrite (g_log g n) f l' → evolves n g (replace_log g n l').
Proof using Type.
  intros Hg HT Hel Hnc Hf Hov. split; simpl; try done; other.
  - by eapply move_accept_ginv.
Qed.

Lemma ev_install g n f :
  ginv voters g → safe g (g_term g n) f → length (g_log g n) ≤ length f →
  evolves n g (replace_log g n f).
Proof using Hnd.
  intros Hg Hs Hl. split; simpl; try done; other.
  - by apply move_install_ginv.
Qed.

Lemma ev_acknowledge g n T k :
  ginv voters g → g_term g n = T → elected g T → g_ack g (n, T) ≤ k ≤ length (g_llog g T) →
  take k (g_llog g T) `prefix_of` g_log g n → ∀ i, evolves i g (acknowledge g n T k).
Proof using Type.
  intros Hg HT He Hk Hp i. split; simpl; try done; other.
  - by apply move_ack_ginv.
  - intros x. unfold upd. case_decide; subst; lia.
Qed.

Lemma ev_advance_commit g c l T k q :
  ginv voters g → g_elec g T = Some (c, l) → g_commit g T ≤ k ≤ length (g_llog g T) →
  term_at (g_llog g T) k = T → quorum voters q → Forall (λ n, k ≤ g_ack g (n, T)) q →
  evolves c g (advance_commit g T k).
Proof using Type.
  intros Hg He Hk Ht Hq Hack. split; simpl; try done; other.
  - eapply move_commit_ginv; [done|by eexists|done..].
  - intros T1. unfold upd. case_decide; subst; lia.
  - intros T1 d l1 Hd H1. rewrite upd_ne by congruence. done.
Qed.

End evolve.
