(* ===== verification/RaftCluster.v ===== *)
(** * Raft: a group of nodes and the network between them

    The nodes of one Raft group run the operations of [RaftNode] and exchange
    RPCs.  A packet stays in the network once it is sent, so it can be delivered
    late, in any order, more than once, or never; the destination's handler is
    one step.  A node may crash at any time, and exits when an assertion of the
    code fails; it comes back with [init] from what is on its disk.  The
    membership of the group does not change. *)

From S2P Require Import Prelude Wire RaftTypes RaftNode.

Inductive packet :=
| PVote (src dst : nat) (args : RequestVoteArgs)
| PVoteReply (src dst : nat) (args : RequestVoteArgs) (reply : RequestVoteReply)
| PAppend (src dst : nat) (args : AppendEntriesArgs)
| PAppendReply (src dst : nat) (args : AppendEntriesArgs) (reply : AppendEntriesReply)
| PSnap (src dst : nat) (args : InstallSnapshotRequest)
| PSnapReply (src dst : nat) (args : InstallSnapshotRequest) (reply : InstallSnapshotResponse).

(** A snapshot transfer by the replication worker of a follower: not started,
    or the captured source with the chunks still to be acknowledged. *)
Notation transfer := (option (SnapshotSource * list InstallSnapshotRequest)).

Record cluster := {
  cl_nodes : list Raft;
  cl_net : list packet;
  (* the vote counter of an election and the servers that have not answered *)
  cl_elections : gmap (nat * Z) (Z * list nat);
  cl_transfers : gmap (nat * nat) transfer;
  (* what each node has handed to its state machine, in order *)
  cl_delivered : list (nat * ApplyMsg);
}.

(** The peers of the group, given to [init]. *)
Record config := { cf_peerIds : list N; cf_learners : list bool }.

Definition cf_size (cf : config) : nat := length (cf_peerIds cf).

Definition cf_members (cf : config) (i : nat) : Members :=
  init_members (cf_size cf) i (nth i (cf_peerIds cf) 0%N) (cf_peerIds cf) (cf_learners cf).

Section cluster.
Context (cf : config).
Implicit Types (c : cluster) (i : nat) (s : Raft).

Definition set_node i s c : cluster :=
  Build_cluster (<[i := s]> (cl_nodes c)) (cl_net c) (cl_elections c) (cl_transfers c)
    (cl_delivered c).
Definition send (ps : list packet) c : cluster :=
  Build_cluster (cl_nodes c) (cl_net c ++ ps) (cl_elections c) (cl_transfers c) (cl_delivered c).
Definition set_election (key : nat * Z) (v : Z * list nat) c : cluster :=
  Build_cluster (cl_nodes c) (cl_net c) (<[key := v]> (cl_elections c)) (cl_transfers c)
    (cl_delivered c).
Definition set_transfers (t : gmap (nat * nat) transfer) c : cluster :=
  Build_cluster (cl_nodes c) (cl_net c) (cl_elections c) t (cl_delivered c).
Definition deliver_msgs i (msgs : list ApplyMsg) c : cluster :=
  Build_cluster (cl_nodes c) (cl_net c) (cl_elections c) (cl_transfers c)
    (cl_delivered c ++ (pair i <$> msgs)).

(** The process of node [i] starts again from its disk [d]; the threads of the
    old process, and with them its elections and transfers, are gone. *)
Definition restart (now : Z) i (d : Disk) c : cluster :=
  Build_cluster (<[i := init now (cf_members cf i) d]> (cl_nodes c)) (cl_net c)
    (filter (λ kv, kv.1.1 ≠ i) (cl_elections c)) (filter (λ kv, kv.1.1 ≠ i) (cl_transfers c))
    (cl_delivered c).

(** Node [i] takes the step [o]; [k] is what its result does to the group. *)
Definition run {A} (now : Z) i (o : outcome A) (k : A → cluster → cluster) c : cluster :=
  match o with
  | Ret s a => k a (set_node i s c)
  | Exit s => restart now i (disk s) c
  end.

Definition deliver (now : Z) (p : packet) c : option cluster :=
  match p with
  | PVote src dst args =>
      s ← cl_nodes c !! dst;
      Some (run now dst (RequestVote now args s) (λ r, send [PVoteReply dst src args r]) c)
  | PVoteReply src dst args reply =>
      s ← cl_nodes c !! dst;
      '(votedNum, waiting) ← cl_elections c !! (dst, rv_term args);
      if bool_decide (src ∈ waiting) then
        Some (run now dst (sendRequestVote reply votedNum s)
                (λ v, set_election (dst, rv_term args)
                        (v, List.filter (λ n, negb (bool_decide (n = src))) waiting)) c)
      else None
  | PAppend src dst args =>
      s ← cl_nodes c !! dst;
      Some (run now dst (AppendEntries1 now args s) (λ r, send [PAppendReply dst src args r]) c)
  | PAppendReply src dst args reply =>
      s ← cl_nodes c !! dst;
      Some (run now dst (HandleAppendEntriesReply now src args reply s) (λ _ c, c) c)
  | PSnap src dst args =>
      s ← cl_nodes c !! dst;
      Some (run now dst (InstallSnapshot now args s) (λ r, send [PSnapReply dst src args r]) c)
  | PSnapReply src dst args reply =>
      s ← cl_nodes c !! dst;
      t ← cl_transfers c !! (dst, src);
      match t with
      | Some (source, chunk :: rest) =>
          if bool_decide (chunk = args) then
            let '(s', continue) := snapshot_chunk_reply now source reply s in
            Some (match continue, rest with
                  | false, _ =>
                      set_transfers (delete (dst, src) (cl_transfers c)) (set_node dst s' c)
                  | true, [] =>
                      set_transfers (delete (dst, src) (cl_transfers c))
                        (set_node dst (snapshot_finish src source s') c)
                  | true, _ =>
                      set_transfers (<[(dst, src) := Some (source, rest)]> (cl_transfers c))
                        (set_node dst s' c)
                  end)
          else None
      | _ => None
      end
  end.

Inductive event :=
| ElectionTimeout (i : nat) (now : Z)
| Deliver (k : nat) (now : Z)
| HeartBeat (i : nat) (now : Z)
| Replicate (i server : nat) (now : Z)
| TransferStart (i server : nat)
| TransferSend (i server : nat)
| TransferFail (i server : nat)
| Propose (i : nat) (op : Op)
| Poll (i : nat) (now : Z)
| ApplyCommitted (i : nat) (now : Z)
| Compact (i : nat) (index : Z) (snapshot : string) (now : Z)
| ReadBarrier (i w : nat) (deadline : Z)
| ReadWait (i w : nat) (timedOut : bool)
| Crash (i : nat) (now : Z).

Definition step (e : event) c : option cluster :=
  match e with
  | ElectionTimeout i now =>
      s ← cl_nodes c !! i;
      Some (run now i (doElection now s) (λ r c,
        match r with
        | None => c
        | Some (votedNum, requests) =>
            send ((λ '(j, args), PVote i j args) <$> requests)
              (set_election (i, m_currentTerm (final (doElection now s)))
                 (votedNum, requests.*1) c)
        end) c)
  | Deliver k now => p ← cl_net c !! k; deliver now p c
  | HeartBeat i now =>
      s ← cl_nodes c !! i; Some (run now i (doHeartBeat now s) (λ _ c, c) c)
  | Replicate i server now =>
      s ← cl_nodes c !! i;
      if bool_decide (server = i) || bool_decide (is_Some (cl_transfers c !! (i, server))) then None
      else
        Some (run now i (replicationWorker now server s) (λ r c,
          match r with
          | Idle => c
          | SendEntries args => send [PAppend i server args] c
          | SendSnapshot => set_transfers (<[(i, server) := None]> (cl_transfers c)) c
          end) c)
  | TransferStart i server =>
      s ← cl_nodes c !! i;
      t ← cl_transfers c !! (i, server);
      match t with
      | None =>
          let source := snapshot_source s in
          let chunks := snapshot_chunks (S (String.length (ss_data source))) snapshot_chunk_size
                          (m_me s) source 0 in
          Some (set_transfers
                  (match chunks with
                   | [] => delete (i, server) (cl_transfers c)
                   | _ => <[(i, server) := Some (source, chunks)]> (cl_transfers c)
                   end) c)
      | Some _ => None
      end
  | TransferSend i server =>
      t ← cl_transfers c !! (i, server);
      match t with
      | Some (_, chunk :: _) => Some (send [PSnap i server chunk] c)
      | _ => None
      end
  | TransferFail i server => Some (set_transfers (delete (i, server) (cl_transfers c)) c)
  | Propose i op => s ← cl_nodes c !! i; Some (set_node i (Start op s).1 c)
  | Poll i now =>
      s ← cl_nodes c !! i;
      let '(batch, s1) := poll_batch s in
      Some (run now i (raftPollerTicker batch s1) (λ _ c, c) c)
  | ApplyCommitted i now =>
      s ← cl_nodes c !! i; Some (run now i (applierTicker s) (deliver_msgs i) c)
  | Compact i index snapshot now =>
      s ← cl_nodes c !! i; Some (run now i (Snapshot index snapshot s) (λ _ c, c) c)
  | ReadBarrier i w deadline =>
      s ← cl_nodes c !! i; Some (set_node i (ReadIndex_enqueue w deadline s).1 c)
  | ReadWait i w timedOut =>
      s ← cl_nodes c !! i; Some (set_node i (ReadIndex_wait w timedOut s).1 c)
  | Crash i now => s ← cl_nodes c !! i; Some (restart now i (disk s) c)
  end.

Definition empty_disk : Disk := Build_Disk None EmptyString.

(** Every node starts with an empty disk. *)
Definition initial : cluster :=
  Build_cluster ((λ i, init 0 (cf_members cf i) empty_disk) <$> seq 0 (cf_size cf)) [] ∅ ∅ [].

Fixpoint run_events (es : list event) c : option cluster :=
  match es with
  | [] => Some c
  | e :: rest => c' ← step e c; run_events rest c'
  end.

Definition reachable c : Prop := ∃ es, run_events es initial = Some c.

End cluster.
