(* ===== verification/RaftRel.v ===== *)
(** * Raft: what a node's state says about the history

    [rel] relates a cluster to a history of the group.  A node's log, in memory
    and on disk, is what its full log holds after the snapshot; the snapshot
    covers a committed prefix.  After an [InstallSnapshot] that kept the entries
    behind the snapshot, the full log may disagree with the snapshot on the
    compacted part: then nothing beyond the snapshot is committed on the node,
    and the log the node votes with is the one it had before. *)

From S2P Require Import Prelude Wire RaftTypes RaftNode RaftCluster RaftGhost RaftMoves RaftEvolve.

(** ** The voters of the group *)

Lemma filter_seq_count {A} (f : A → bool) (l : list A) :
  length (List.filter (λ i, match l !! i with Some x => f x | None => false end)
            (seq 0 (length l))) = countb f l.
Proof.
  unfold countb. induction l as [|x l IH] using rev_ind; [done|].
  rewrite length_app. cbn [length]. rewrite Nat.add_1_r, seq_S, !List.filter_app, !length_app, <- IH.
  f_equal.
  - f_equal. apply List.filter_ext_in. intros i Hi%in_seq. by rewrite lookup_app_l by lia.
  - cbn. by rewrite list_lookup_middle by done; destruct (f x).
Qed.

Section rel.
Context (cf : config).
Implicit Types (g : history) (T : Z) (i c : nat) (s : Raft).

Definition cf_roles : list PeerRole :=
  imap (λ i _, if nth i (cf_learners cf) false then Learner else Voter) (cf_peerIds cf).

Lemma cf_members_eq i :
  cf_members cf i = Build_Members i (cf_size cf) (mb_peerIds (cf_members cf i)) cf_roles
                      (nth i (cf_peerIds cf) 0%N) false.
Proof using Type.
  unfold cf_members, init_members, cf_roles, cf_size. by destruct (cf_peerIds cf).
Qed.

Lemma cf_roles_length : length cf_roles = cf_size cf.
Proof using Type. unfold cf_roles, cf_size. apply length_imap. Qed.

Definition is_voter (i : nat) : bool :=
  match cf_roles !! i with Some r => is_role Voter r | None => false end.

Definition vs : list nat := List.filter is_voter (seq 0 (cf_size cf)).

Lemma vs_NoDup : NoDup vs.
Proof using Type. apply NoDup_ListNoDup, List.NoDup_filter, NoDup_ListNoDup, NoDup_seq. Qed.

Lemma elem_of_vs i : i ∈ vs ↔ is_voter i = true.
Proof using Type.
  unfold vs. rewrite list_elem_of_In, List.filter_In, <- list_elem_of_In, elem_of_seq.
  split; [tauto|]. intros H. split; [|done]. unfold is_voter in H.
  destruct (cf_roles !! i) eqn:Hi; [|done]. apply lookup_lt_Some in Hi.
  rewrite cf_roles_length in Hi. lia.
Qed.

Lemma isVoterLocked_cf i j :
  j < cf_size cf → isVoterLocked (cf_members cf i) (Z.of_nat j) = is_voter j.
Proof using Type.
  intros Hj. rewrite cf_members_eq. unfold isVoterLocked, role_at, is_voter.
  destruct (Z.ltb_spec (Z.of_nat j) 0); [lia|]. rewrite Nat2Z.id. simpl.
  destruct (lookup_lt_is_Some_2 cf_roles j) as [r Hr]; [by rewrite cf_roles_length|].
  by rewrite Hr.
Qed.

Lemma not_learner_voter i :
  i < cf_size cf → isLearnerLocked (cf_members cf i) (Z.of_nat i) = false → i ∈ vs.
Proof using Type.
  intros Hi. rewrite cf_members_eq. unfold isLearnerLocked, role_at. rewrite elem_of_vs.
  destruct (Z.ltb_spec (Z.of_nat i) 0); [lia|]. rewrite Nat2Z.id. simpl. unfold is_voter.
  destruct (cf_roles !! i) as [r|] eqn:Hr.
  - unfold cf_roles in Hr. rewrite list_lookup_imap_Some in Hr. destruct Hr as (x & _ & ->).
    by destruct (nth i (cf_learners cf) false).
  - apply lookup_ge_None in Hr. rewrite cf_roles_length in Hr. lia.
Qed.

Lemma quorum_cf i :
  getQuorumLocked (cf_members cf i) = Z.of_nat (length vs / 2 + 1).
Proof using Type.
  unfold getQuorumLocked. assert (getVoterCountLocked (cf_members cf i) = Z.of_nat (length vs)) as ->.
  { unfold vs, is_voter. rewrite <- cf_roles_length, filter_seq_count.
    rewrite cf_members_eq. unfold getVoterCountLocked. simpl.
    destruct cf_roles as [|r l] eqn:Hr; [|done].
    unfold countb. simpl. rewrite <- cf_roles_length. by rewrite Hr. }
  rewrite Nat2Z.inj_add, Nat2Z.inj_div. done.
Qed.

(** ** Nodes *)

Definition vote_of g i T : Z :=
  match g_vote g (i, T) with Some c => Z.of_nat c | None => -1 end.

Definition hard_of_disk (d : Disk) : HardState :=
  match d_state d with Some h => h | None => Build_HardState 0 (-1) 0 0 [] end.

(** [F] is the prefix the snapshot covers, [T] the term up to which the node
    has learnt of commitments. *)
Record log_ok g i T (h : HardState) (commit : Z) (F : list LogEntry) : Prop := {
  lo_snap : hs_snapshotIndex h = Z.of_nat (length F);
  lo_snapterm : hs_snapshotTerm h = last_term F;
  lo_len : length F ≤ length (g_log g i);
  lo_logs : hs_logs h = drop (length F) (g_log g i);
  lo_base : safe g (g_term g i) F;
  lo_commit : (0 ≤ commit ≤ Z.of_nat (length (g_log g i)))%Z;
  lo_safe : safe g T (take (Z.to_nat commit) (F ++ drop (length F) (g_log g i)));
  lo_mode : F `prefix_of` g_log g i ∨
            (length F < length (g_log g i) ∧ (commit ≤ Z.of_nat (length F))%Z);
}.

(** What a replication index says: the entries of the leader's own term up to
    it are acknowledged by the follower, or committed already. *)
Definition match_ok g T (commit : Z) j (m : Z) : Prop :=
  (m ≤ Z.of_nat (length (g_llog g T)))%Z ∧
  ∀ k, 0 < k → (Z.of_nat k ≤ m)%Z → term_at (g_llog g T) k = T →
    k ≤ g_ack g (j, T) ∨ (Z.of_nat k ≤ commit)%Z.

Definition leader_ok g i s : Prop :=
  (∃ l, g_elec g (m_currentTerm s) = Some (i, l)) ∧
  (Z.of_nat (g_commit g (m_currentTerm s)) ≤ m_commitIndex s)%Z ∧
  (∀ j m, m_matchIndex s !! j = Some m → match_ok g (m_currentTerm s) (m_commitIndex s) j m).

Record node_ok g i s : Prop := {
  no_members : members s = cf_members cf i;
  no_lens : length (m_nextIndex s) = cf_size cf ∧ length (m_matchIndex s) = cf_size cf;
  no_term : (g_term g i ≤ m_currentTerm s)%Z;
  no_vote : m_currentTerm s = g_term g i → m_votedFor s = vote_of g i (m_currentTerm s);
  no_fresh : (g_term g i < m_currentTerm s)%Z → m_votedFor s = (-1)%Z ∧ m_status s = Follower;
  no_disk : hard_of_disk (disk s) =
    Build_HardState (g_term g i) (vote_of g i (g_term g i)) (m_lastSnapshotIncludeIndex s)
      (m_lastSnapshotIncludeTerm s) (m_logs s);
  no_log : ∃ F, log_ok g i (m_currentTerm s) (hard s) (m_commitIndex s) F;
  no_applied : (m_lastSnapshotIncludeIndex s ≤ m_lastApplied s)%Z;
  no_leader : m_status s = Leader → leader_ok g i s;
}.

(** ** Packets *)

Definition vote_ok g src (a : RequestVoteArgs) : Prop :=
  rv_candidateid a = Z.of_nat src ∧
  ∃ l, g_cand g (src, rv_term a) = Some l ∧ rv_lastlogindex a = Z.of_nat (length l) ∧
       rv_lastlogterm a = last_term l.

(** An AppendEntries request carries a segment of its leader's log. *)
Definition append_ok g src dst (a : AppendEntriesArgs) : Prop :=
  src ≠ dst ∧
  ∃ l f, g_elec g (ae_term a) = Some (src, l) ∧ f `prefix_of` g_llog g (ae_term a) ∧
    (0 ≤ ae_prevlogindex a)%Z ∧
    Z.of_nat (length f) = (ae_prevlogindex a + Z.of_nat (length (ae_entries a)))%Z ∧
    ae_entries a = drop (Z.to_nat (ae_prevlogindex a)) f ∧
    ae_prevlogterm a = term_at f (Z.to_nat (ae_prevlogindex a)) ∧
    (0 ≤ ae_leadercommit a ≤ Z.of_nat (length f))%Z ∧
    safe g (ae_term a) (take (Z.to_nat (ae_leadercommit a)) f).

Definition ack_ok g src (a : AppendEntriesArgs) : Prop :=
  elected g (ae_term a) ∧
  (ae_prevlogindex a + Z.of_nat (length (ae_entries a)) ≤
     Z.of_nat (length (g_llog g (ae_term a))))%Z ∧
  ∀ k, 0 < k → (Z.of_nat k ≤ ae_prevlogindex a + Z.of_nat (length (ae_entries a)))%Z →
    term_at (g_llog g (ae_term a)) k = ae_term a →
    k ≤ g_ack g (src, ae_term a) ∨ k ≤ g_commit g (ae_term a).

(** A snapshot covers a committed prefix. *)
Definition snap_ok g T (index term : Z) : Prop :=
  ∃ F, index = Z.of_nat (length F) ∧ term = last_term F ∧ safe g T F.

Definition packet_ok g (p : packet) : Prop :=
  match p with
  | PVote src dst a => vote_ok g src a
  | PVoteReply src dst a r =>
      rvr_votegranted r = true →
      rvr_term r = rv_term a ∧ g_vote g (src, rv_term a) = Some dst
  | PAppend src dst a => append_ok g src dst a
  | PAppendReply src dst a r =>
      aer_success r = true → aer_term r = ae_term a ∧ ack_ok g src a
  | PSnap src dst a =>
      snap_ok g (is_term a) (is_lastsnapshotincludeindex a) (is_lastsnapshotincludeterm a)
  | PSnapReply _ _ _ _ => True
  end.

(** ** Elections, transfers, deliveries *)

(** The counter counts distinct voters until the election is won, and cannot
    reach a majority again afterwards. *)
Definition election_ok g c T (votedNum : Z) (waiting : list nat) : Prop :=
  is_Some (g_cand g (c, T)) ∧ NoDup waiting ∧ waiting ⊆ vs ∧
  ((∃ A, NoDup (A ++ waiting) ∧ A ⊆ vs ∧ votedNum = Z.of_nat (length A) ∧
         length A < length vs / 2 + 1 ∧ Forall (λ n, g_vote g (n, T) = Some c) A ∧
         (∀ l, g_elec g T ≠ Some (c, l))) ∨
   ((0 ≤ votedNum)%Z ∧ (votedNum + Z.of_nat (length waiting) < Z.of_nat (length vs / 2 + 1))%Z ∧
    ∃ l, g_elec g T = Some (c, l))).

Definition source_ok g (src : SnapshotSource) : Prop :=
  snap_ok g (ss_leaderTerm src) (ss_index src) (ss_term src).

Definition chunk_of (src : SnapshotSource) (a : InstallSnapshotRequest) : Prop :=
  is_term a = ss_leaderTerm src ∧ is_lastsnapshotincludeindex a = ss_index src ∧
  is_lastsnapshotincludeterm a = ss_term src.

Definition transfer_ok g (t : transfer) : Prop :=
  match t with
  | None => True
  | Some (src, chunks) => source_ok g src ∧ Forall (chunk_of src) chunks
  end.

Definition delivered_ok g (d : nat * ApplyMsg) : Prop :=
  match d.2 with
  | ApplyCommand cmd index =>
      ∃ T p e, safe g T p ∧ (0 < index)%Z ∧ p !! (Z.to_nat index - 1) = Some e ∧ command e = cmd
  | _ => True
  end.

Record rel (cl : cluster) g : Prop := {
  rel_ginv : ginv vs g;
  rel_indexed : indexed_history g;
  rel_size : length (cl_nodes cl) = cf_size cf;
  rel_nodes : ∀ i s, cl_nodes cl !! i = Some s → node_ok g i s;
  rel_net : Forall (packet_ok g) (cl_net cl);
  rel_elections : ∀ c T v w, cl_elections cl !! (c, T) = Some (v, w) → election_ok g c T v w;
  rel_transfers : ∀ k t, cl_transfers cl !! k = Some t → transfer_ok g t;
  rel_delivered : Forall (delivered_ok g) (cl_delivered cl);
}.

(** ** Facts that survive the steps of a node *)

Section stable.
Context (i : nat) (g g' : history) (Hg : ginv vs g) (Hev : evolves vs i g g').

Lemma safe_ev T p : safe g T p → safe g' T p.
Proof using Hg Hev. by apply (evolves_safe vs i). Qed.

Lemma llog_ev T k :
  elected g T → k ≤ length (g_llog g T) →
  take k (g_llog g' T) = take k (g_llog g T) ∧
  term_at (g_llog g' T) k = term_at (g_llog g T) k ∧ k ≤ length (g_llog g' T).
Proof using Hg Hev. apply take_grows, Hev. Qed.

Lemma snap_ok_ev T index term : snap_ok g T index term → snap_ok g' T index term.
Proof using Hg Hev. intros (F & ? & ? & Hs). exists F. eauto using safe_ev. Qed.

Lemma packet_ok_ev p : packet_ok g p → packet_ok g' p.
Proof using Hg Hev.
  destruct p as [src dst a|src dst a r|src dst a|src dst a r|src dst a|src dst a r]; simpl.
  - intros (Hid & l & Hc & ? & ?). split; [done|]. exists l. split; [by apply Hev|done].
  - intros H Hr. destruct (H Hr). split; [done|]. by apply Hev.
  - intros (Hne & l & f & He & Hf & Hr). split; [done|]. exists l, f.
    split; [by apply Hev|]. split.
    { etrans; [exact Hf|]. apply Hev. by eexists. }
    destruct Hr as (? & ? & ? & ? & ? & Hs). eauto 10 using safe_ev.
  - intros H Hr. destruct (H Hr) as (Ht & He & Hl & Hk). split; [done|].
    split; [by eapply evolves_elected|].
    pose proof (prefix_length _ _ (proj2 (ev_grows _ _ _ _ Hev) _ He)). split; [lia|].
    intros k Hk0 Hkl Hterm. destruct (llog_ev _ k He) as (_ & Hte & _); [lia|].
    rewrite Hte in Hterm. destruct (Hk k Hk0 Hkl Hterm) as [?|?].
    + left. pose proof (ev_ack _ _ _ _ Hev (src, ae_term a)). lia.
    + right. pose proof (ev_commit _ _ _ _ Hev (ae_term a)). lia.
  - apply snap_ok_ev.
  - done.
Qed.

Lemma transfer_ok_ev t : transfer_ok g t → transfer_ok g' t.
Proof using Hg Hev.
  destruct t as [[src chunks]|]; [|done]. intros [Hs Hc]. split; [by apply snap_ok_ev|done].
Qed.

Lemma delivered_ok_ev d : delivered_ok g d → delivered_ok g' d.
Proof using Hg Hev.
  unfold delivered_ok. destruct d.2; [|done|done]. intros (T & p & e & Hs & ?). exists T, p, e.
  eauto using safe_ev.
Qed.

Lemma election_ok_ev c T v w :
  (∀ l, g_elec g' T = Some (c, l) → g_elec g T = Some (c, l)) →
  election_ok g c T v w → election_ok g' c T v w.
Proof using Hg Hev.
  intros Hq ([l Hc] & Hnd & Hw & H). split; [exists l; by apply Hev|]. split; [done|]. split; [done|].
  destruct H as [(A & ? & ? & ? & ? & Hv & Hn)|(? & ? & x & He)].
  - left. exists A. split; [done|]. split; [done|]. split; [done|]. split; [done|]. split.
    + eapply Forall_impl; [exact Hv|]. intros n Hn'. by apply Hev.
    + intros x Hx. by apply (Hn x), Hq.
  - right. split; [done|]. split; [done|]. exists x. by apply Hev.
Qed.

(** The other nodes. *)
Lemma node_ok_ev j s : j ≠ i → node_ok g j s → node_ok g' j s.
Proof using Hg Hev.
  intros Hj Hn. destruct (ev_other _ _ _ _ Hev j Hj) as [Hlog Hterm].
  assert (∀ T, vote_of g' j T = vote_of g j T) as Hvote.
  { intros T. unfold vote_of. by rewrite (ev_other_vote _ _ _ _ Hev j T Hj). }
  destruct Hn as [Hm Hlen Ht Hv Hf Hd [F HF] Ha Hl]. split; rewrite ?Hterm, ?Hvote; try done.
  - exists F. destruct HF. split; rewrite ?Hlog, ?Hterm; auto using safe_ev.
  - intros Hs. destruct (Hl Hs) as ([l He] & Hc & Hmt).
    destruct (ev_other_lead _ _ _ _ Hev _ j l Hj He) as [Hll Hcc].
    split; [exists l; by apply Hev|]. rewrite Hcc. split; [done|].
    intros n m Hnm. destruct (Hmt n m Hnm) as [Hle Hk]. unfold match_ok. rewrite Hll.
    split; [done|]. intros k Hk0 Hkm Hkt. destruct (Hk k Hk0 Hkm Hkt) as [?|?]; [left|by right].
    pose proof (ev_ack _ _ _ _ Hev (n, m_currentTerm s)). lia.
Qed.

End stable.

End rel.
