(* ===== verification/RaftView.v ===== *)
(** * Raft: reading and writing the compacted log

    A node holds the entries behind its snapshot; [reads_as s F W] says that
    with the snapshot covering [F] they make up the log [W].  The log accessors
    and the loops of the code are characterised in terms of [W]. *)

From S2P Require Import Prelude Wire RaftTypes RaftNode RaftGhost RaftEvolve.

Record reads_as (h : HardState) (F W : list LogEntry) : Prop := {
  ra_snap : hs_snapshotIndex h = Z.of_nat (length F);
  ra_snapterm : hs_snapshotTerm h = last_term F;
  ra_logs : hs_logs h = drop (length F) W;
  ra_prefix : F `prefix_of` W;
  ra_indexed : indexed W;
}.

Lemma last_drop {A} (l : list A) n : n < length l → last (drop n l) = last l.
Proof.
  intros Hn. rewrite !last_lookup, length_drop, lookup_drop. f_equal. lia.
Qed.

Lemma last_term_last l e : last l = Some e → last_term l = logterm e.
Proof.
  rewrite last_lookup. intros Hl. unfold last_term, term_at. pose proof (lookup_lt_Some _ _ _ Hl).
  destruct (length l); [lia|]. simpl in Hl. by rewrite Hl.
Qed.

Section view.
Context (s : Raft) (F W : list LogEntry) (Hr : reads_as (hard s) F W).

Lemma view_len : length F ≤ length W.
Proof using Hr. apply prefix_length, Hr. Qed.

Lemma view_last : getLastLogIndexAndTerm s = (Z.of_nat (length W), last_term W).
Proof using Hr.
  unfold getLastLogIndexAndTerm. rewrite (ra_logs _ _ _ Hr). pose proof view_len.
  destruct (decide (length F < length W)) as [Hlt|Hge].
  - rewrite last_drop by done. destruct (last W) as [e|] eqn:Hl.
    + rewrite (last_term_last W e Hl). rewrite last_lookup in Hl.
      rewrite (ra_indexed _ _ _ Hr _ _ Hl). f_equal. lia.
    + apply last_None in Hl as ->. simpl in Hlt. lia.
  - rewrite drop_ge by lia. simpl. rewrite (ra_snap _ _ _ Hr), (ra_snapterm _ _ _ Hr).
    assert (F = W) as <-; [|done].
    rewrite (prefix_eq_take _ _ (ra_prefix _ _ _ Hr)). rewrite take_ge; [done|lia].
Qed.

Lemma view_last_index : getLastLogIndex s = Z.of_nat (length W).
Proof using Hr. unfold getLastLogIndex. by rewrite view_last. Qed.

Lemma view_slice z k :
  getSlicesIndexFromLogIndex s z = Some k ↔
  ∃ n, z = Z.of_nat n ∧ length F < n ≤ length W ∧ k = Z.of_nat (n - length F - 1).
Proof using Hr.
  unfold getSlicesIndexFromLogIndex. rewrite view_last_index, (ra_snap _ _ _ Hr).
  destruct (Z.ltb_spec (Z.of_nat (length F)) z), (Z.leb_spec z (Z.of_nat (length W))); simpl.
  - split.
    + intros [= <-]. exists (Z.to_nat z). lia.
    + intros (n & -> & Hn & ->). f_equal. lia.
  - split; [done|]. intros (n & -> & Hn & ->). lia.
  - split; [done|]. intros (n & -> & Hn & ->). lia.
  - split; [done|]. intros (n & -> & Hn & ->). lia.
Qed.

Lemma view_log_at z e :
  log_at s z = Some e ↔ ∃ n, z = Z.of_nat (S n) ∧ length F ≤ n ∧ W !! n = Some e.
Proof using Hr.
  unfold log_at. rewrite bind_Some. setoid_rewrite view_slice. rewrite (ra_logs _ _ _ Hr). split.
  - intros (k & (n & -> & Hn & ->) & He). rewrite Nat2Z.id, lookup_drop in He.
    exists (n - 1). split; [lia|]. split; [lia|]. rewrite <- He. f_equal. lia.
  - intros (n & -> & Hn & He). pose proof (lookup_lt_Some _ _ _ He).
    exists (Z.of_nat (n - length F)). split.
    + exists (S n). split; [done|]. split; [lia|]. f_equal. lia.
    + rewrite Nat2Z.id, lookup_drop, <- He. f_equal. lia.
Qed.

Lemma view_term z t :
  getLogTermFromLogIndex s z = Some t ↔
  ∃ n, z = Z.of_nat n ∧ length F ≤ n ≤ length W ∧ t = term_at W n.
Proof using Hr.
  unfold getLogTermFromLogIndex. rewrite view_last_index, (ra_snap _ _ _ Hr).
  pose proof view_len.
  destruct (Z.leb_spec (Z.of_nat (length F)) z), (Z.leb_spec z (Z.of_nat (length W))); simpl.
  2-4: split; [done|]; intros (n & -> & Hn & _); lia.
  destruct (Z.eqb_spec z (Z.of_nat (length F))) as [->|Hne].
  - rewrite (ra_snapterm _ _ _ Hr). unfold last_term.
    rewrite <- (term_at_prefix _ _ _ (ra_prefix _ _ _ Hr)) by done. split.
    + intros [= <-]. exists (length F). split; [done|]. split; [lia|done].
    + intros (n & Hn & _ & ->). f_equal. f_equal. lia.
  - rewrite fmap_Some. setoid_rewrite view_log_at. split.
    + intros (e & (n & -> & Hn & He) & ->). exists (S n). split; [done|]. simpl. rewrite He.
      split; [|done]. lia.
    + intros (n & -> & Hn & ->). destruct n as [|n]; [lia|]. simpl.
      destruct (lookup_lt_is_Some_2 W n) as [e He]; [lia|]. rewrite He. exists e.
      split; [|done]. exists n. split; [done|]. split; [lia|done].
Qed.

Lemma view_match z t b :
  matchLog s z t = Some b →
  ∃ n, z = Z.of_nat n ∧ length F ≤ n ≤ length W ∧ (b = true → t = term_at W n).
Proof using Hr.
  unfold matchLog. case_match; [|done]. rewrite bind_Some.
  intros (u & (n & -> & Hn & ->)%view_term & [= <-]). exists n. split; [done|]. split; [done|].
  intros Hb%Z.eqb_eq. done.
Qed.

Lemma view_up_to_date (l : list LogEntry) :
  UpToDate s (Z.of_nat (length l)) (last_term l) = true ↔ up_to_date l W.
Proof using Hr.
  unfold UpToDate. rewrite view_last. unfold up_to_date.
  rewrite orb_true_iff, andb_true_iff, Z.ltb_lt, Z.eqb_eq, Z.leb_le. lia.
Qed.

End view.

(** ** The loop of AppendEntries *)

Lemma reads_as_logs s F W W' :
  reads_as (hard s) F W → F `prefix_of` W' → indexed W' →
  reads_as (hard (set_logs (drop (length F) W') s)) F W'.
Proof. intros [H1 H2 H3 H4 H5] Hp Hi. by split. Qed.

Lemma take_app_snoc {A} (l : list A) n x : l !! n = Some x → take n l ++ [x] = take (S n) l.
Proof. intros. symmetry. by apply take_S_r. Qed.

Lemma set_logs_set_logs l l' s : set_logs l (set_logs l' s) = set_logs l s.
Proof. done. Qed.

Lemma set_logs_id s : set_logs (m_logs s) s = s.
Proof. by destruct s as [[] ? ? ? ? ? ?]. Qed.

Lemma eq_of_prefix_length {A} (a b : list A) : a `prefix_of` b → length b ≤ length a → a = b.
Proof. intros Hp Hl. rewrite (prefix_eq_take _ _ Hp). by rewrite take_ge. Qed.

Lemma take_no_conflict f n : ¬ conflicts (take n f) f.
Proof. intros Hc%conflicts_not_prefix. apply Hc, prefix_take. Qed.

(** The three ways the loop can go, for a request that carries [f] behind
    [prev]. *)
Definition merged (W f W' : list LogEntry) (ch tr ch' tr' : bool) : Prop :=
  (W' = W ∧ f `prefix_of` W ∧ ch' = ch ∧ tr' = tr) ∨
  (W' = f ∧ W `prefix_of` f ∧ ch' = true ∧ tr' = tr) ∨
  (W' = f ∧ conflicts W f ∧ ch' = true ∧ tr' = true).

Lemma merged_take f W' n tr ch' tr' :
  merged (take n f) f W' true tr ch' tr' → W' = f ∧ ch' = true ∧ tr' = tr.
Proof.
  intros [(-> & Hp & -> & ->)|[(-> & _ & -> & ->)|(_ & Hc & _)]].
  - split; [|done]. symmetry. apply eq_of_prefix_length; [done|]. rewrite length_take. lia.
  - done.
  - by apply take_no_conflict in Hc.
Qed.

Lemma append_entries_spec F f es : ∀ prev W s ch tr s' ch' tr',
  append_entries es ch tr s = Some (s', ch', tr') →
  reads_as (hard s) F W → indexed f → length F ≤ prev ≤ length W →
  take prev W = take prev f → es = drop prev f → prev ≤ length f →
  ∃ W', s' = set_logs (drop (length F) W') s ∧ reads_as (hard s') F W' ∧
        merged W f W' ch tr ch' tr'.
Proof.
  induction es as [|log es IH]; intros prev W s ch tr s' ch' tr' Hrun Hr Hif Hprev Htk Hes Hpf.
  - simplify_eq/=. exists W. rewrite <- (ra_logs _ _ _ Hr), set_logs_id. split; [done|].
    split; [done|]. left. split; [done|]. split; [|done].
    assert (length f - prev = 0) by (by rewrite <- length_drop, <- Hes).
    rewrite <- (take_ge f prev) by lia. rewrite <- Htk. apply prefix_take.
  - assert (f !! prev = Some log) as Hlog.
    { rewrite <- (Nat.add_0_r prev), <- lookup_drop, <- Hes. done. }
    assert (es = drop (S prev) f) as Hes'.
    { rewrite <- Nat.add_1_r, <- drop_drop, <- Hes. done. }
    pose proof (Hif _ _ Hlog) as Hli. pose proof (lookup_lt_Some _ _ _ Hlog) as Hlt.
    assert (F `prefix_of` take (S prev) f) as HFp.
    { rewrite <- (take_app_snoc f prev log Hlog), <- Htk. apply prefix_app_r, prefix_of_take; [apply Hr|lia]. }
    assert (indexed (take (S prev) f)) as Hif1 by (eapply indexed_prefix; [apply prefix_take|done]).
    simpl in Hrun. rewrite (view_last_index s F W Hr), Hli in Hrun.
    destruct (Z.ltb_spec (Z.of_nat (length W)) (Z.of_nat prev + 1)) as [Hgt|Hle].
    + assert (length W = prev) as HWl by lia.
      assert (m_logs s ++ [log] = drop (length F) (take (S prev) f)) as Hl1.
      { rewrite <- (take_app_snoc f prev log Hlog), <- Htk, drop_app_le by (rewrite length_take; lia).
        rewrite (take_ge W) by lia. by rewrite (ra_logs _ _ _ Hr). }
      rewrite Hl1 in Hrun.
      destruct (IH (S prev) (take (S prev) f) _ _ _ _ _ _ Hrun) as (W' & -> & Hr' & Hm);
        [by eapply reads_as_logs|done|rewrite length_take; lia|by rewrite take_take, Nat.min_id|done|lia|].
      exists W'. split; [done|]. split; [done|].
      apply merged_take in Hm as (-> & -> & ->).
      right. left. split; [done|]. split; [|done].
      rewrite <- (take_ge W prev), Htk by lia. apply prefix_take.
    + destruct (log_at s (Z.of_nat prev + 1)) as [mine|] eqn:Hmine; [|done]. simpl in Hrun.
      apply (view_log_at s F W Hr) in Hmine as (n & Hn & HFn & Hmine).
      assert (n = prev) as -> by lia.
      destruct (Z.eqb_spec (logterm mine) (logterm log)) as [Hteq|Htne].
      * case_bool_decide as Hcmd; [|done].
        assert (mine = log) as ->.
        { pose proof (ra_indexed _ _ _ Hr _ _ Hmine). destruct mine, log; simpl in *; f_equal; congruence. }
        apply (IH (S prev) W _ _ _ _ _ _ Hrun); [done|done|apply lookup_lt_Some in Hmine; lia| |done|lia].
        by rewrite <- (take_app_snoc W prev log), <- (take_app_snoc f prev log), Htk.
      * destruct (getSlicesIndexFromLogIndex s (Z.of_nat prev + 1)) as [sl|] eqn:Hsl; [|done].
        simpl in Hrun. apply (view_slice s F W Hr) in Hsl as (n & Hn' & HnF & ->).
        assert (n = S prev) as -> by lia. rewrite Nat2Z.id in Hrun.
        assert (take (S prev - length F - 1) (m_logs s) ++ [log] = drop (length F) (take (S prev) f)) as Hl1.
        { rewrite <- (take_app_snoc f prev log Hlog), <- Htk, drop_app_le by (rewrite length_take; lia).
          rewrite (ra_logs _ _ _ Hr). f_equal. rewrite skipn_firstn_comm. f_equal. lia. }
        rewrite Hl1 in Hrun.
        destruct (IH (S prev) (take (S prev) f) _ _ _ _ _ _ Hrun) as (W' & -> & Hr' & Hm);
          [by eapply reads_as_logs|done|rewrite length_take; lia|by rewrite take_take, Nat.min_id|done|lia|].
        exists W'. split; [done|]. split; [done|].
        apply merged_take in Hm as (-> & -> & ->).
        right. right. split; [done|]. split; [|done].
        exists prev, mine, log. split; [done|]. split; [done|]. congruence.
Qed.

(** ** The other loops *)

(** [leaderUpdateCommitIndex] keeps the commit index or moves it to an index
    of the current term that a majority holds. *)
Lemma commit_scan_spec fuel s index c :
  commit_scan fuel s index = Some c →
  c = m_commitIndex s ∨
  ((m_commitIndex s < c ≤ index)%Z ∧
   (getQuorumLocked (members s) ≤ Z.of_nat (replicas s c))%Z ∧
   getLogTermFromLogIndex s c = Some (m_currentTerm s)).
Proof.
  revert index. induction fuel as [|fuel IH]; intros index; simpl; [intros [= <-]; by left|].
  destruct (Z.leb_spec index (m_commitIndex s)); [intros [= <-]; by left|].
  destruct (Z.leb_spec (getQuorumLocked (members s)) (Z.of_nat (replicas s index))) as [Hq|Hq].
  - destruct (getLogTermFromLogIndex s index) as [t|] eqn:Ht; simpl; [|done].
    destruct (Z.eqb_spec t (m_currentTerm s)) as [->|Hne].
    + intros [= <-]. right. split; [lia|done].
    + intros [?|(? & ? & ?)]%IH; [by left|right]. split; [lia|done].
  - intros [?|(? & ? & ?)]%IH; [by left|right]. split; [lia|done].
Qed.

(** [getApplyLogs] delivers committed entries of the log, in order. *)
Lemma apply_loop_spec fuel s s' msgs :
  apply_loop fuel s = Some (s', msgs) →
  (∃ a, s' = set_lastApplied a s ∧ (m_lastApplied s ≤ a)%Z) ∧
  Forall (λ m, ∃ e k, m = ApplyCommand (command e) k ∧ log_at s k = Some e ∧
                      (m_lastApplied s < k ≤ m_commitIndex s)%Z) msgs.
Proof.
  revert s msgs. induction fuel as [|fuel IH]; intros s msgs; simpl.
  - intros [= <- <-]. split; [|done]. exists (m_lastApplied s). split; [|lia].
    by destruct s as [? [] ? ? ? ? ?].
  - destruct (Z.ltb_spec (m_lastApplied s) (m_commitIndex s)) as [Hlt|Hge].
    + destruct (log_at s (m_lastApplied s + 1)) as [e|] eqn:He; simpl; [|done].
      case_match; [|done].
      destruct (apply_loop fuel _) as [[s2 ms]|] eqn:Hrec; simpl; [|done]. intros [= <- <-].
      destruct (IH _ _ Hrec) as [(a & -> & Ha) Hms]. simpl in *. split.
      * exists a. split; [done|lia].
      * constructor.
        -- exists e, (m_lastApplied s + 1)%Z. split; [done|]. split; [done|lia].
        -- eapply Forall_impl; [exact Hms|]. intros m (e' & k & -> & Hat & Hk).
           exists e', k. split; [done|]. split; [exact Hat|lia].
    + intros [= <- <-]. split; [|done]. exists (m_lastApplied s). split; [|lia].
      by destruct s as [? [] ? ? ? ? ?].
Qed.

(** The entries a snapshot keeps. *)
Lemma entries_after_spec s F W n l :
  reads_as (hard s) F W → length F ≤ n ≤ length W →
  entries_after s (Z.of_nat n) = Some l → l = drop n W.
Proof.
  intros Hr Hn. unfold entries_after. rewrite (view_last_index s F W Hr).
  replace (Z.to_nat (Z.of_nat (length W) - Z.of_nat n)) with (length W - n) by lia.
  intros Hm%mapM_Some. apply list_eq_same_length with (n := length W - n).
  - by rewrite length_drop.
  - by rewrite <- (Forall2_length _ _ _ Hm), length_seq.
  - intros i x y Hi Hx Hy.
    destruct (Forall2_lookup_r _ _ _ _ _ Hm Hx) as (k & Hk & Hat).
    apply lookup_seq in Hk as [-> _]. simpl in Hat.
    apply (view_log_at s F W Hr) in Hat as (m & Hm' & _ & HWm).
    rewrite lookup_drop in Hy. replace (n + i) with m in Hy by lia. congruence.
Qed.

(** ** Persistence *)

Lemma persist_disk s : disk (persist s) = Build_Disk (Some (hard s)) (d_snapshot (disk s)).
Proof. done. Qed.

(** [persistAppended] leaves the same file as [persist], when the file holds the
    log that was extended. *)
Lemma persistAppended_persist old s :
  (∀ h, d_state (disk s) = Some h →
    hs_snapshotIndex h = m_lastSnapshotIncludeIndex s → length (hs_logs h) = old →
    hs_logs h = take old (m_logs s)) →
  persistAppended old s = persist s.
Proof.
  intros Hd. unfold persistAppended. case_match; [|done]. unfold AppendRaftState.
  destruct (d_state (disk s)) as [h|] eqn:Hh; simpl; [|done].
  destruct (Z.eqb_spec (hs_snapshotIndex h) (m_lastSnapshotIncludeIndex s)) as [Heq|]; simpl; [|done].
  destruct (Nat.eqb_spec (length (hs_logs h)) old) as [Hl|]; [|done].
  rewrite (Hd h eq_refl Heq Hl), take_drop. unfold persist. f_equal. f_equal. f_equal.
  by destruct (hard s).
Qed.
