(* ===== verification/RaftSim.v ===== *)
(** * Raft: the operations of a node as moves of the history

    For each operation of [RaftNode], a node that is in agreement with a history
    ends up in agreement with a later one, and the RPC it produces is justified
    by it. *)

From S2P Require Import Prelude Wire RaftTypes RaftNode RaftCluster RaftGhost RaftMoves RaftEvolve RaftRel RaftView.

Section sim.
Context (cf : config).
Implicit Types (g : history) (T : Z) (i c : nat) (s : Raft).

Notation vs := (vs cf).
Notation evolves := (evolves vs).
Notation node_ok := (node_ok cf).

(** The log a node reads: the snapshot followed by the entries it holds. *)
Definition view (F V : list LogEntry) : list LogEntry := F ++ drop (length F) V.

Lemma view_normal F V : F `prefix_of` V → view F V = V.
Proof using Type.
  intros Hp. unfold view. rewrite (prefix_eq_take _ _ Hp) at 1. apply take_drop.
Qed.

Lemma view_length F V : length F ≤ length V → length (view F V) = length V.
Proof using Type. intros. unfold view. rewrite length_app, length_drop. lia. Qed.

Lemma view_last_term F V :
  F `prefix_of` V ∨ length F < length V → last_term (view F V) = last_term V.
Proof using Type.
  intros [Hp|Hl]; [by rewrite view_normal|]. unfold last_term. rewrite view_length by lia.
  unfold term_at, view. destruct (length V) as [|n] eqn:HV; [lia|].
  rewrite lookup_app_r by lia. rewrite lookup_drop. do 2 f_equal. lia.
Qed.

Lemma view_indexed F V : length F ≤ length V → indexed F → indexed V → indexed (view F V).
Proof using Type.
  intros Hl HF HV. apply indexed_snoc; [done|]. intros k e He. rewrite lookup_drop in He.
  by apply HV.
Qed.

(** Matching a rooted log behind the snapshot means the log extends it. *)
Lemma match_normal g F V L k :
  F `prefix_of` L → well_rooted g V → well_rooted g L → length F ≤ k → k ≤ length V → k ≤ length L →
  term_at V k = term_at L k → F `prefix_of` V.
Proof using Type.
  intros Hp HV HL HFk HkV HkL Ht. pose proof (rooted_matching g V L k HV HL HkV HkL Ht) as Htk.
  etrans; [|apply (prefix_take V k)]. rewrite Htk. by apply prefix_of_take.
Qed.

(** What must be on disk. *)
Definition disk_ok g i (d : Disk) : Prop :=
  ∃ F, hard_of_disk d = Build_HardState (g_term g i) (vote_of g i (g_term g i))
         (Z.of_nat (length F)) (last_term F) (drop (length F) (g_log g i)) ∧
    length F ≤ length (g_log g i) ∧ safe g (g_term g i) F ∧
    (F `prefix_of` g_log g i ∨ length F < length (g_log g i)).

Lemma node_disk g i s : node_ok g i s → disk_ok g i (disk s).
Proof using Type.
  intros Hn. destruct (no_log _ _ _ _ Hn) as [F HF]. exists F.
  rewrite (no_disk _ _ _ _ Hn), (lo_snap _ _ _ _ _ _ HF), (lo_snapterm _ _ _ _ _ _ HF),
    (lo_logs _ _ _ _ _ _ HF). split; [done|]. split; [apply HF|]. split; [apply HF|].
  destruct (lo_mode _ _ _ _ _ _ HF) as [?|[? _]]; auto.
Qed.

Lemma restart_ok g i now d :
  disk_ok g i d → node_ok g i (init now (cf_members cf i) d).
Proof using Type.
  intros (F & Hd & Hl & Hs & Hm). unfold init. fold (hard_of_disk d). rewrite Hd.
  split; simpl; try done; try lia.
  - rewrite cf_members_eq. simpl. by rewrite !length_replicate.
  - exists F. split; simpl; try done.
    + lia.
    + by left.
    + destruct Hm; [by left|right]. lia.
  - destruct (Z.ltb_spec 0 (Z.of_nat (length F))); lia.
Qed.

(** A node whose hard state, progress, members and disk are unchanged. *)
Lemma node_ok_same g i s s' :
  hard s' = hard s → progress s' = progress s → members s' = members s → disk s' = disk s →
  node_ok g i s → node_ok g i s'.
Proof using Type.
  intros Hh Hp Hm Hd [? ? ? ? ? ? ? ? Hl]. split; rewrite ?Hh, ?Hp, ?Hm, ?Hd; try done.
  intros Hs. unfold leader_ok. rewrite Hh, Hp. by apply Hl.
Qed.

Lemma abort_same st s :
  hard (abortReadIndexLocked st s) = hard s ∧ progress (abortReadIndexLocked st s) = progress s ∧
  members (abortReadIndexLocked st s) = members s ∧ disk (abortReadIndexLocked st s) = disk s.
Proof using Type. done. Qed.

(** Giving up the role of candidate or leader. *)
Lemma follower_ok g i s : node_ok g i s → node_ok g i (set_status Follower s).
Proof using Type.
  intros [? ? ? ? Hf ? ? ? ?]. split; simpl; try done. intros Ht. by destruct (Hf Ht).
Qed.

Lemma log_ok_le g i T T' h commit F :
  (T ≤ T')%Z → log_ok g i T h commit F → log_ok g i T' h commit F.
Proof using Type. intros HT [? ? ? ? ? ? ? ?]. split; try done. by eapply safe_le. Qed.

Lemma adopt_ok g i s T :
  node_ok g i s → (m_currentTerm s < T)%Z → node_ok g i (adopt_term T s).
Proof using Type.
  intros [Hm Hlen Ht Hv Hf Hd [F HF] Ha Hl] HT. split; simpl; try done.
  - lia.
  - lia.
  - exists F. destruct HF. split; try done. eapply safe_le; [done|]. lia.
Qed.

(** Writing the hard state makes the current term durable. *)
Lemma node_vote g i s :
  ginv vs g → node_ok g i s → m_votedFor s = vote_of g i (m_currentTerm s).
Proof using Type.
  intros Hg Hn. destruct (decide (m_currentTerm s = g_term g i)) as [He|Hne].
  - by apply Hn.
  - pose proof (no_term _ _ _ _ Hn). destruct (no_fresh _ _ _ _ Hn) as [-> _]; [lia|].
    unfold vote_of. destruct (g_vote g _) as [c|] eqn:Hv; [|done].
    apply (gi_vote_term _ _ Hg) in Hv. lia.
Qed.

Lemma persist_ok g i s :
  ginv vs g → node_ok g i s →
  evolves i g (set_term g i (m_currentTerm s)) ∧
  node_ok (set_term g i (m_currentTerm s)) i (persist s).
Proof using Type.
  intros Hg Hn. pose proof (node_vote g i s Hg Hn) as Hvote.
  split; [by apply ev_set_term, Hn|].
  destruct Hn as [Hm Hlen Ht Hv Hf Hd [F HF] Ha Hl].
  split; simpl; rewrite ?upd_eq; try done; try lia.
  - unfold hard_of_disk. simpl. change (vote_of (set_term _ _ _)) with (vote_of g).
    rewrite <- Hvote. by destruct (hard s).
  - exists F. destruct HF. split; simpl; rewrite ?upd_eq; try done. by eapply safe_le.
Qed.

Lemma quiet_set_term g i T : quiet g (set_term g i T).
Proof using Type. done. Qed.

(** The outcome of a step of node [i]. *)
Definition step_ok {A} g i (o : outcome A) (P : history → A → Prop) : Prop :=
  ∃ g', evolves i g g' ∧ quiet g g' ∧
    match o with
    | Ret s a => node_ok g' i s ∧ P g' a
    | Exit s => disk_ok g' i (disk s)
    end.

Lemma step_ok_here {A} g i s (a : A) P :
  ginv vs g → node_ok g i s → P g a → step_ok g i (Ret s a) P.
Proof using Type. intros. exists g. split; [by apply evolves_refl|]. split; [done|done]. Qed.

Lemma step_ok_exit {A} g i s s' (P : history → A → Prop) :
  ginv vs g → node_ok g i s → disk s' = disk s → step_ok g i (Exit s') P.
Proof using Type.
  intros Hg Hn Hd. exists g. split; [by apply evolves_refl|]. split; [done|].
  rewrite Hd. by apply node_disk.
Qed.

Lemma step_ok_persist {A} g i s (a : A) (P : history → A → Prop) :
  ginv vs g → node_ok g i s →
  (∀ g', evolves i g g' → P g' a) → step_ok g i (Ret (persist s) a) P.
Proof using Type.
  intros Hg Hn HP. destruct (persist_ok g i s Hg Hn) as [Hev Hn'].
  exists (set_term g i (m_currentTerm s)). split; [done|]. split; [done|]. auto.
Qed.

(** ** RequestVote *)

Lemma log_ok_reads g i T h commit F :
  ginv vs g → indexed_history g → log_ok g i T h commit F → reads_as h F (view F (g_log g i)).
Proof using Type.
  intros Hg Hi [? ? ? Hlogs Hb ? ? ?]. split; try done.
  - rewrite Hlogs. unfold view. by rewrite drop_app_length.
  - by apply prefix_app_r.
  - apply view_indexed; [done| |].
    + eapply rooted_indexed; [done|]. by eapply (safe_rooted vs).
    + eapply rooted_indexed; [done|apply Hg].
Qed.

Lemma log_ok_last_term g i T h commit F :
  log_ok g i T h commit F → last_term (view F (g_log g i)) = last_term (g_log g i).
Proof using Type.
  intros HF. apply view_last_term. destruct (lo_mode _ _ _ _ _ _ HF) as [?|[? _]]; auto.
Qed.

Lemma up_to_date_ext l a b :
  length a = length b → last_term a = last_term b → up_to_date l a → up_to_date l b.
Proof using Type. unfold up_to_date. intros -> ->. done. Qed.

Lemma RequestVote_ok g i s now src a :
  ginv vs g → indexed_history g → node_ok g i s → vote_ok g src a →
  step_ok g i (RequestVote now a s) (λ g' r, packet_ok g' (PVoteReply i src a r)).
Proof using Type.
  intros Hg Hi Hn Hp. unfold RequestVote.
  assert (∀ s1 st, node_ok g i s1 →
    step_ok g i (Ret (persist s1) (Build_RequestVoteReply (m_currentTerm s1) false st))
      (λ g' r, packet_ok g' (PVoteReply i src a r))) as Hrefuse.
  { intros s1 st H1. apply step_ok_persist; done. }
  case_match; [by apply Hrefuse|]. clear H.
  destruct (Z.ltb_spec (rv_term a) (m_currentTerm s)) as [|Hge]; [by apply Hrefuse|].
  case_match eqn:Hlease; [by apply Hrefuse|]. clear Hlease.
  set (s1 := if (m_currentTerm s <? rv_term a)%Z then adopt_term (rv_term a) s else s).
  assert (node_ok g i s1 ∧ m_currentTerm s1 = rv_term a) as [Hn1 Hc1].
  { subst s1. destruct (Z.ltb_spec (m_currentTerm s) (rv_term a)); [|split; [done|lia]].
    split; [by apply adopt_ok|done]. }
  replace (rv_term a =? m_currentTerm s1)%Z with true by (symmetry; apply Z.eqb_eq; lia).
  case_match eqn:Hup; [by apply Hrefuse|]. apply negb_false_iff in Hup.
  case_match eqn:Hfree; [by apply Hrefuse|].
  destruct Hp as (Hid & l & Hcand & Hli & Hlt).
  pose proof (node_vote g i s1 Hg Hn1) as Hvote.
  destruct (persist_ok g i s1 Hg Hn1) as [Hev1 Hn1'].
  set (g1 := set_term g i (m_currentTerm s1)) in *.
  assert (g_term g1 i = rv_term a) as Hterm by (simpl; by rewrite upd_eq).
  assert (up_to_date l (g_log g1 i)) as Hupd.
  { destruct (no_log _ _ _ _ Hn1) as [F HF].
    pose proof (log_ok_reads _ _ _ _ _ _ Hg Hi HF) as Hr. rewrite Hli, Hlt in Hup.
    apply (view_up_to_date s1 _ _ Hr) in Hup.
    eapply up_to_date_ext; [| |exact Hup]; [apply view_length, HF|exact (log_ok_last_term _ _ _ _ _ _ HF)]. }
  assert (node_ok g1 i (persist (set_electionReset now s1))) as Hn2.
  { apply (node_ok_same g1 i (persist s1)); done. }
  rewrite Hid in Hfree |- *. rewrite Hvote in Hfree. unfold vote_of in Hfree. rewrite Hc1 in Hfree.
  destruct (g_vote g (i, rv_term a)) as [c|] eqn:Hgv.
  - assert (c = src) as ->.
    { destruct (Z.eqb_spec (Z.of_nat c) (-1)), (Z.eqb_spec (Z.of_nat c) (Z.of_nat src));
        simpl in Hfree; try done; lia. }
    exists g1. split; [done|]. split; [done|]. split; [|done].
    assert (m_votedFor s1 = Z.of_nat src) as Hv1 by (rewrite Hvote; unfold vote_of; by rewrite Hc1, Hgv).
    revert Hn2. unfold set_electionReset, set_vote, persist, set_hard, set_clocks, set_disk; simpl.
    rewrite Hc1. replace (Z.of_nat src) with (m_votedFor s1) by done. rewrite <- Hc1.
    by destruct s1 as [[] ? ? ? ? ? ?].
  - pose proof (ev_cast_vote vs g1 i src (rv_term a) l (ev_ginv _ _ _ _ Hev1) Hterm Hgv Hcand Hupd) as Hev2.
    exists (cast_vote g1 i src (rv_term a)). split; [by eapply evolves_trans|]. split; [done|].
    split; [|intros _; simpl; by rewrite upd_eq].
    assert (vote_of (cast_vote g1 i src (rv_term a)) i (rv_term a) = Z.of_nat src) as Hvo.
    { unfold vote_of. simpl. by rewrite upd_eq. }
    destruct Hn2 as [Hm Hlen Ht Hv Hf Hd [F HF] Ha Hl].
    split; simpl in *; rewrite ?Hterm, ?Hvo; try done; try lia.
    + intros _. by rewrite Hc1, Hvo.
    + unfold hard_of_disk; simpl. by rewrite Hc1.
    + exists F. destruct HF. by split.
Qed.

(** ** Leaders *)

(** A leader's durable term is current, its log is the leader's log of the term,
    and its snapshot covers a prefix of it. *)
Lemma leader_facts g i s :
  ginv vs g → node_ok g i s → m_status s = Leader →
  m_currentTerm s = g_term g i ∧ elected g (m_currentTerm s) ∧
  g_log g i = g_llog g (m_currentTerm s).
Proof using Type.
  intros Hg Hn Hs. destruct (no_leader _ _ _ _ Hn Hs) as ([l He] & _ & _).
  pose proof (no_term _ _ _ _ Hn).
  assert (m_currentTerm s = g_term g i) as Hc.
  { destruct (decide (m_currentTerm s = g_term g i)) as [|Hne]; [done|].
    destruct (no_fresh _ _ _ _ Hn) as [_ Hf]; [lia|]. congruence. }
  split; [done|]. split; [by eexists|]. by apply (gi_leader_log _ _ Hg _ i l).
Qed.

Lemma leader_normal g i s F :
  ginv vs g → node_ok g i s → m_status s = Leader →
  log_ok g i (m_currentTerm s) (hard s) (m_commitIndex s) F → F `prefix_of` g_log g i.
Proof using Type.
  intros Hg Hn Hs HF. destruct (leader_facts g i s Hg Hn Hs) as (Hc & He & ->).
  apply (safe_in_leader _ _ Hg (g_term g i)); [apply vs_NoDup|apply HF|lia|done].
Qed.

(** The replicas counted for an index form a quorum of acknowledgements. *)
Lemma replicas_quorum g i s n :
  ginv vs g → node_ok g i s → m_status s = Leader → (m_commitIndex s < Z.of_nat n)%Z →
  (getQuorumLocked (members s) ≤ Z.of_nat (replicas s (Z.of_nat n)))%Z →
  term_at (g_llog g (m_currentTerm s)) n = m_currentTerm s →
  ∃ q, quorum vs q ∧ Forall (λ j, j = i ∨ n ≤ g_ack g (j, m_currentTerm s)) q.
Proof using Type.
  intros Hg Hn Hs Hlt Hq Ht. rewrite (no_members _ _ _ _ Hn), quorum_cf in Hq. unfold replicas in Hq.
  rewrite (no_members _ _ _ _ Hn) in Hq. unfold countb in Hq.
  set (f := λ j, isVoterLocked (cf_members cf i) (Z.of_nat j) && _) in Hq.
  assert (mb_peers (cf_members cf i) = cf_size cf) as Hpeers by by rewrite cf_members_eq.
  rewrite Hpeers in Hq. exists (List.filter f (seq 0 (cf_size cf))).
  assert (∀ j, j ∈ List.filter f (seq 0 (cf_size cf)) ↔ j < cf_size cf ∧ f j = true) as Hin.
  { intros j. rewrite list_elem_of_In, List.filter_In, <- list_elem_of_In, elem_of_seq.
    split; intros [? ?]; split; (done || lia). }
  split.
  - split; [apply NoDup_ListNoDup, List.NoDup_filter, NoDup_ListNoDup, NoDup_seq|]. split; [|lia].
    intros j [Hj Hf]%Hin. rewrite elem_of_vs. unfold f in Hf. rewrite isVoterLocked_cf in Hf by done.
    by apply andb_true_iff in Hf as [? _].
  - apply Forall_forall. intros j [Hj Hf]%Hin. unfold f in Hf.
    apply andb_true_iff in Hf as [_ [Hme|Hm]%orb_true_iff].
    + left. apply bool_decide_eq_true in Hme. rewrite cf_members_eq in Hme. done.
    + right. apply Z.leb_le in Hm. destruct (no_leader _ _ _ _ Hn Hs) as (_ & _ & Hmt).
      destruct (lookup_lt_is_Some_2 (m_matchIndex s) j) as [m Hmj];
        [rewrite (proj2 (no_lens _ _ _ _ Hn)); done|].
      rewrite (nth_lookup_Some _ _ _ _ Hmj) in Hm.
      destruct (no_log _ _ _ _ Hn) as [F HF]. pose proof (lo_commit _ _ _ _ _ _ HF).
      destruct (Hmt j m Hmj) as [_ Hk]. destruct (Hk n) as [?|?]; [lia|lia|done|done|lia].
Qed.

Lemma advance_ok g i s n :
  ginv vs g → indexed_history g → node_ok g i s → m_status s = Leader →
  (m_commitIndex s < Z.of_nat n)%Z →
  (getQuorumLocked (members s) ≤ Z.of_nat (replicas s (Z.of_nat n)))%Z →
  getLogTermFromLogIndex s (Z.of_nat n) = Some (m_currentTerm s) →
  ∃ g', evolves i g g' ∧ quiet g g' ∧ node_ok g' i (set_commitIndex (Z.of_nat n) s).
Proof using Type.
  intros Hg Hi Hn Hs Hlt Hq Hterm. destruct (leader_facts g i s Hg Hn Hs) as (Hc & He & Hlog).
  destruct (no_log _ _ _ _ Hn) as [F HF]. pose proof (leader_normal g i s F Hg Hn Hs HF) as HFV.
  pose proof (log_ok_reads _ _ _ _ _ _ Hg Hi HF) as Hr. rewrite view_normal in Hr by done.
  apply (view_term s F _ Hr) in Hterm as (n' & Heq & Hnl & Hterm).
  apply Nat2Z.inj in Heq as <-. rewrite Hlog in Hnl, Hterm.
  pose proof (lo_commit _ _ _ _ _ _ HF) as Hcm.
  destruct (replicas_quorum g i s n Hg Hn Hs Hlt Hq) as (q & Hqq & Hack); [done|].
  destruct (no_leader _ _ _ _ Hn Hs) as ([l Hl] & Hcom & Hmt).
  set (T := m_currentTerm s) in *.
  assert (∃ g1, evolves i g g1 ∧ quiet g g1 ∧ n ≤ g_ack g1 (i, T) ∧ g_log g1 = g_log g ∧
     g_term g1 = g_term g ∧ g_vote g1 = g_vote g ∧ g_llog g1 = g_llog g ∧ g_commit g1 = g_commit g)
    as (g1 & Hev1 & Hq1 & Ha1 & Hlog1 & Hterm1 & Hvote1 & Hllog1 & Hcom1).
  { destruct (decide (n ≤ g_ack g (i, T))) as [|Hna].
    - exists g. split; [by apply evolves_refl|]. done.
    - exists (acknowledge g i T n). split.
      + apply ev_acknowledge; [done|done|done|lia|]. rewrite Hlog. apply prefix_take.
      + split; [done|]. simpl. rewrite upd_eq. done. }
  assert (evolves i g1 (advance_commit g1 T n)) as Hev2.
  { eapply (ev_advance_commit vs g1 i l T n q); rewrite ?Hllog1, ?Hcom1; try done.
    - apply Hev1.
    - by apply Hev1.
    - lia.
    - eapply Forall_impl; [exact Hack|]. intros j [->|Hj]; [done|].
      pose proof (ev_ack _ _ _ _ Hev1 (j, T)). lia. }
  exists (advance_commit g1 T n). pose proof (evolves_trans _ _ _ _ _ Hev1 Hev2) as Hev.
  split; [done|]. split; [exact Hq1|].
  assert (∀ T0, vote_of (advance_commit g1 T n) i T0 = vote_of g i T0) as Hvo.
  { intros T0. unfold vote_of. simpl. by rewrite Hvote1. }
  destruct Hn as [Hm Hlen Ht Hv Hf Hd _ Ha Hld].
  split; simpl; rewrite ?Hterm1, ?Hvo; try done.
  - exists F. destruct HF as [? ? ? ? Hb ? Hsf ?].
    split; simpl; rewrite ?Hlog1, ?Hterm1; try done.
    + by apply (evolves_safe vs i g _ _ _ Hg Hev).
    + rewrite Hlog. lia.
    + fold (view F (g_log g i)). rewrite view_normal, Nat2Z.id by done. right. exists T. simpl.
      rewrite upd_eq, Hllog1, <- Hlog. split; [done|]. split; [lia|done].
    + by left.
  - intros _. split; [exists l; rewrite <- Hl; apply Hq1|]. simpl. fold T. rewrite upd_eq.
    split; [done|]. intros j m Hjm. destruct (Hmt j m Hjm) as [Hle Hk].
    unfold match_ok. simpl. fold T. rewrite Hllog1. split; [done|]. intros k Hk0 Hkm Hkt.
    destruct (Hk k Hk0 Hkm Hkt); [left|right; lia]. pose proof (ev_ack _ _ _ _ Hev1 (j, T)). lia.
Qed.

(** [leaderUpdateCommitIndex] on a state that shares its members, hard state and
    progress with [s]. *)
Lemma update_commit_ok g i s s0 s1 :
  ginv vs g → indexed_history g → node_ok g i s → m_status s = Leader →
  hard s0 = hard s → progress s0 = progress s → members s0 = members s →
  leaderUpdateCommitIndex s0 = Some s1 →
  ∃ g' (index : Z), evolves i g g' ∧ quiet g g' ∧ s1 = set_commitIndex index s0 ∧
          node_ok g' i (set_commitIndex index s).
Proof using Type.
  intros Hg Hi Hn Hs Hh Hp Hm. unfold leaderUpdateCommitIndex. rewrite bind_Some.
  intros (c & Hscan & [= <-]). apply commit_scan_spec in Hscan.
  assert (replicas s0 = replicas s) as Hrep by (unfold replicas; by rewrite Hp, Hm).
  assert (getLogTermFromLogIndex s0 = getLogTermFromLogIndex s) as Hgt.
  { unfold getLogTermFromLogIndex, log_at, getSlicesIndexFromLogIndex, getLastLogIndex,
      getLastLogIndexAndTerm. by rewrite Hh. }
  rewrite Hh, Hp, Hm, Hrep, Hgt in Hscan.
  destruct Hscan as [->|(Hlt & Hq & Ht)].
  - exists g, (m_commitIndex s). split; [by apply evolves_refl|]. split; [done|]. split; [done|].
    by destruct s as [? [] ? ? ? ? ?].
  - destruct (no_log _ _ _ _ Hn) as [F HF]. pose proof (lo_commit _ _ _ _ _ _ HF).
    rewrite <- (Z2Nat.id c) in Hlt, Hq, Ht by lia.
    destruct (advance_ok g i s (Z.to_nat c)) as (g' & Hev & Hqt & Hn'); [done..|lia|done|done|].
    rewrite Z2Nat.id in Hn' by lia. exists g', c. done.
Qed.

(** ** Elections *)

Definition noop_entry (s : Raft) : LogEntry :=
  Build_LogEntry (noop_command (m_currentTerm s)) (m_currentTerm s) (getLastLogIndex s + 1).

(** A committed prefix of an earlier term is in the log an election is won
    with. *)
Lemma win_normal g i T l q e F :
  ginv vs g → g_term g i = T → g_cand g (i, T) = Some l → g_elec g T = None →
  quorum vs q → Forall (λ n, g_vote g (n, T) = Some i) q → logterm e = T →
  safe g T F → F `prefix_of` g_log g i.
Proof using Type.
  intros Hg HT Hc Hne Hq Hv He [->|(T0 & HT0 & Hc0 & Hp)]; [apply prefix_nil|].
  pose proof (move_win_ginv vs g i T l q e Hg HT Hc Hne Hq Hv He) as Hg'.
  destruct (gi_commit _ _ Hg T0 Hc0) as ([x Hx] & _). assert (T0 ≠ T) by congruence.
  etrans; [exact Hp|].
  pose proof (leader_completeness vs _ Hg' T0 T i (g_log g i) (vs_NoDup cf)) as Hlc.
  simpl in Hlc. rewrite (upd_ne (g_llog g)), upd_eq in Hlc by done. apply Hlc; [done|lia|done].
Qed.

Lemma become_leader_ok g i s l q :
  ginv vs g → indexed_history g → node_ok g i s → m_currentTerm s = g_term g i →
  g_cand g (i, m_currentTerm s) = Some l → g_elec g (m_currentTerm s) = None →
  quorum vs q → Forall (λ n, g_vote g (n, m_currentTerm s) = Some i) q →
  evolves i g (win g i (m_currentTerm s) (noop_entry s)) ∧
  node_ok (win g i (m_currentTerm s) (noop_entry s)) i (persist (become_leader s)).
Proof using Type.
  intros Hg Hi Hn Hc Hcand Hne Hq Hv. destruct (no_log _ _ _ _ Hn) as [F HF].
  pose proof (win_normal g i (m_currentTerm s) l q (noop_entry s) F Hg (eq_sym Hc) Hcand Hne Hq Hv
                eq_refl) as HFV.
  rewrite Hc in HFV at 1. specialize (HFV (lo_base _ _ _ _ _ _ HF)).
  pose proof (log_ok_reads _ _ _ _ _ _ Hg Hi HF) as Hr. rewrite view_normal in Hr by done.
  pose proof (view_last_index s F _ Hr) as Hlast.
  set (e := noop_entry s). set (T := m_currentTerm s) in *. set (g' := win g i T e).
  assert (evolves i g g') as Hev.
  { eapply (ev_win vs g i T l q e); try done. simpl. rewrite Hlast. lia. }
  split; [done|]. pose proof (node_vote g i s Hg Hn) as Hvote.
  destruct Hn as [Hm [Hl1 Hl2] Ht Hvt Hf Hd _ Ha Hld].
  split; simpl; rewrite <- ?Hc; fold T; try done; try lia.
  - rewrite length_app, !length_replicate, length_drop. lia.
  - unfold hard_of_disk. simpl. fold T. rewrite Hvote. done.
  - exists F. destruct HF as [? ? Hlen Hlogs Hb Hcm Hsf ?].
    split; simpl; rewrite ?upd_eq, ?length_app; try done; try (simpl; lia).
    + rewrite drop_app_le by done. unfold e, noop_entry. by rewrite Hlogs.
    + by apply (evolves_safe vs i g _ _ _ Hg Hev).
    + fold (view F (g_log g i ++ [e])). fold (view F (g_log g i)) in Hsf.
      rewrite view_normal by by apply prefix_app_r. rewrite view_normal in Hsf by done.
      rewrite take_app_le by lia. by apply (evolves_safe vs i g _ _ _ Hg Hev).
    + left. by apply prefix_app_r.
  - intros _. split; simpl; fold T; [rewrite upd_eq; eauto|]. split.
    + destruct (decide (0 < g_commit g T)) as [Hpos|]; [|destruct HF; lia].
      destruct (gi_commit _ _ Hg T Hpos) as ([x Hx] & _). congruence.
    + intros j m [Hj|[Hj1 Hj2]]%lookup_app_Some.
      * apply lookup_replicate in Hj as [-> _]. split; [lia|]. lia.
      * rewrite lookup_drop in Hj2. apply lookup_lt_Some in Hj2.
        rewrite length_replicate in Hj1. lia.
Qed.

Lemma election_target g i s :
  node_ok g i s →
  let targets := List.filter (λ j, negb (bool_decide (j = m_me s)) &&
                                   isVoterLocked (members s) (Z.of_nat j)) (seq 0 (m_peers s)) in
  NoDup targets ∧ targets ⊆ vs ∧ i ∉ targets.
Proof using Type.
  intros Hn. rewrite (no_members _ _ _ _ Hn). simpl.
  assert (mb_peers (cf_members cf i) = cf_size cf ∧ mb_me (cf_members cf i) = i) as [-> ->]
    by by rewrite cf_members_eq.
  split; [apply NoDup_ListNoDup, List.NoDup_filter, NoDup_ListNoDup, NoDup_seq|].
  split.
  - intros j. rewrite list_elem_of_In, List.filter_In, <- list_elem_of_In, elem_of_seq.
    intros [Hj [_ Hv]%andb_true_iff]. rewrite isVoterLocked_cf in Hv by lia. by rewrite elem_of_vs.
  - rewrite list_elem_of_In, List.filter_In. intros [_ [Hne _]%andb_true_iff].
    by rewrite bool_decide_eq_true_2 in Hne.
Qed.

(** The state a campaign starts from. *)
Definition campaign_state (now : Z) (s : Raft) : Raft :=
  let s1 := set_status Candidate (abortReadIndexLocked ReadNotLeader s) in
  set_electionReset now (persist (set_vote (m_currentTerm s1 + 1) (Z.of_nat (m_me s1)) s1)).

Lemma campaign_ok g i s now :
  ginv vs g → node_ok g i s →
  evolves i g (campaign g i (m_currentTerm s + 1)) ∧
  node_ok (campaign g i (m_currentTerm s + 1)) i (campaign_state now s).
Proof using Type.
  intros Hg Hn. set (T := (m_currentTerm s + 1)%Z). pose proof (no_term _ _ _ _ Hn) as Ht.
  assert (evolves i g (campaign g i T)) as Hev by (apply ev_campaign; [done|lia]).
  split; [done|].
  assert (vote_of (campaign g i T) i T = Z.of_nat i) as Hvo.
  { unfold vote_of. simpl. by rewrite upd_eq. }
  assert (m_me s = i) as Hme by (rewrite (no_members _ _ _ _ Hn); by rewrite cf_members_eq).
  destruct Hn as [Hm Hlen _ Hv Hf Hd [F HF] Ha Hl].
  split; simpl; rewrite ?upd_eq, ?Hme; fold T; rewrite ?Hvo; try done; try lia.
  exists F. destruct HF. split; simpl; rewrite ?upd_eq; try done; (eapply safe_le; [done|lia]).
Qed.

Lemma doElection_ok g i s now :
  ginv vs g → indexed_history g → i < cf_size cf → node_ok g i s →
  ∃ g', evolves i g g' ∧
    match doElection now s with
    | Ret s' None => quiet g g' ∧ node_ok g' i s'
    | Ret s' (Some (v, reqs)) =>
        node_ok g' i s' ∧ (∀ T, T ≠ m_currentTerm s' → g_elec g' T = g_elec g T) ∧
        election_ok cf g' i (m_currentTerm s') v reqs.*1 ∧
        Forall (λ r, vote_ok g' i r.2) reqs
    | Exit s' => disk_ok g' i (disk s')
    end.
Proof using Type.
  intros Hg Hi Hsz Hn. unfold doElection.
  destruct (m_removed s || _) eqn:Hlearn.
  { exists g. split; [by apply evolves_refl|]. done. }
  case_bool_decide. { exists g. split; [by apply evolves_refl|]. done. }
  apply orb_false_iff in Hlearn as [_ Hlearn].
  assert (m_me s = i) as Hme by (rewrite (no_members _ _ _ _ Hn); by rewrite cf_members_eq).
  rewrite (no_members _ _ _ _ Hn) in Hlearn. rewrite cf_members_eq in Hlearn at 2. simpl in Hlearn.
  apply (not_learner_voter cf i Hsz) in Hlearn.
  destruct (campaign_ok g i s now Hg Hn) as [Hev Hn3]. fold (campaign_state now s).
  set (s3 := campaign_state now s) in *. set (T := (m_currentTerm s + 1)%Z) in *.
  change (m_currentTerm s3) with T. set (g1 := campaign g i T) in *.
  assert (g_cand g1 (i, T) = Some (g_log g i)) as Hcand by (simpl; by rewrite upd_eq).
  assert (g_vote g1 (i, T) = Some i) as Hvote by (simpl; by rewrite upd_eq).
  assert (∀ l, g_elec g T ≠ Some (i, l)) as Hnel.
  { intros l He. destruct (gi_elec _ _ Hg _ _ _ He) as [(l0 & Hc & _) _].
    apply (gi_cand_term _ _ Hg) in Hc as [? _]. pose proof (no_term _ _ _ _ Hn). lia. }
  rewrite (no_members _ _ _ _ Hn3), quorum_cf.
  destruct (Z.leb_spec (Z.of_nat (length vs / 2 + 1)) 1) as [Hq1|Hq1].
  - assert (quorum vs [i]) as Hqi.
    { split; [apply NoDup_singleton|]. split; [by intros j ->%list_elem_of_singleton|]. cbn [length]. lia. }
    destruct (g_elec g T) as [[c l]|] eqn:Hel.
    { exfalso. destruct (gi_elec _ _ Hg _ _ _ Hel) as (_ & q & Hq & Hvs).
      destruct (quorums_meet vs q [i] (vs_NoDup cf) Hq Hqi) as (n & Hn1 & ->%list_elem_of_singleton).
      rewrite Forall_forall in Hvs. destruct (Hvs i Hn1) as [Hv _].
      apply (gi_vote_term _ _ Hg) in Hv. pose proof (no_term _ _ _ _ Hn). lia. }
    assert (m_currentTerm s3 = g_term g1 i) as Hct by (simpl; by rewrite upd_eq).
    destruct (become_leader_ok g1 i s3 (g_log g i) [i] (ev_ginv _ _ _ _ Hev)
      (ev_indexed _ _ _ _ Hev Hi) Hn3 Hct Hcand Hel Hqi) as [Hev2 Hn4]; [by constructor|].
    destruct (leaderUpdateCommitIndex (become_leader s3)) as [s4|] eqn:Hup.
    + destruct (update_commit_ok _ i (persist (become_leader s3)) (become_leader s3) s4
        (ev_ginv _ _ _ _ Hev2) (ev_indexed _ _ _ _ Hev2 (ev_indexed _ _ _ _ Hev Hi)) Hn4 eq_refl eq_refl eq_refl eq_refl Hup)
        as (g' & c & Hev3 & Hqt & -> & Hn5).
      exists g'. split; [by eapply evolves_trans; [by eapply evolves_trans|]|].
      split; [exact Hn5|]. split.
      { intros T' HT'. rewrite Hqt. simpl. by rewrite upd_ne. }
      split; [|constructor].
      split; [eexists; apply Hev3, Hev2; exact Hcand|]. split; [constructor|].
      split; [by intros ? ?%not_elem_of_nil|].
      right. split; [lia|]. split; [cbn [length fmap list_fmap]; lia|]. exists (g_log g i). rewrite Hqt. simpl.
      change (m_currentTerm s3) with T. by rewrite upd_eq.
    + exists g1. split; [done|]. by apply node_disk.
  - destruct (no_log _ _ _ _ Hn3) as [F HF].
    pose proof (log_ok_reads _ _ _ _ _ _ (ev_ginv _ _ _ _ Hev) (ev_indexed _ _ _ _ Hev Hi) HF) as Hr.
    rewrite (view_last s3 _ _ Hr), (log_ok_last_term _ _ _ _ _ _ HF), view_length by apply HF.
    exists g1. split; [done|]. split; [done|]. split; [done|].
    destruct (election_target g1 i s3 Hn3) as (Hnd & Hsub & Hni).
    rewrite (no_members _ _ _ _ Hn3) in Hnd, Hsub, Hni.
    set (targets := List.filter _ _) in *. split.
    + rewrite <- list_fmap_compose. replace (_ <$> targets) with targets
        by (symmetry; apply list_fmap_id). change (m_currentTerm s3) with T.
      split; [by eexists|]. split; [done|]. split; [done|]. left. exists [i].
      split; [by constructor|]. split; [by intros j ->%list_elem_of_singleton|].
      split; [done|]. split; [cbn [length]; lia|]. split; [by constructor|done].
    + apply Forall_fmap, Forall_forall. intros j _. simpl. split.
      * simpl. by rewrite cf_members_eq.
      * exists (g_log g i). done.
Qed.

Lemma election_ok_answered g c T v w src :
  election_ok cf g c T v w →
  election_ok cf g c T v (List.filter (λ n, negb (bool_decide (n = src))) w).
Proof using Type.
  intros (Hc & Hnd & Hw & H). set (w' := List.filter _ w).
  assert (sublist w' w) as Hsub.
  { unfold w'. clear. induction w as [|n w IH]; simpl; [constructor|].
    case_match; by constructor. }
  split; [done|]. split; [by eapply sublist_NoDup|].
  split.
  { intros n Hn. apply Hw. eapply elem_of_submseteq; [exact Hn|by apply sublist_submseteq]. }
  destruct H as [(A & HA & ?)|(? & Hlt & ?)].
  - left. exists A. split; [|done]. eapply sublist_NoDup; [exact HA|]. by apply sublist_app.
  - right. split; [done|]. split; [|done]. pose proof (sublist_length _ _ Hsub). lia.
Qed.

Lemma length_answered (w : list nat) src :
  NoDup w → src ∈ w → S (length (List.filter (λ n, negb (bool_decide (n = src))) w)) = length w.
Proof using Type.
  induction w as [|n w IH]; intros Hnd Hin; [by apply not_elem_of_nil in Hin|].
  apply NoDup_cons in Hnd as [Hn Hnd]. simpl. case_bool_decide as Hd; simpl.
  - subst n. f_equal. f_equal. clear IH Hin. induction w as [|m w IH]; [done|]. simpl.
    apply not_elem_of_cons in Hn as [Hne Hn]. apply NoDup_cons in Hnd as [_ Hnd].
    rewrite bool_decide_eq_false_2 by done. simpl. f_equal. by apply IH.
  - f_equal. apply IH; [done|]. apply elem_of_cons in Hin as [->|?]; done.
Qed.

Lemma sendRequestVote_ok g i s T v w src r :
  ginv vs g → indexed_history g → node_ok g i s → election_ok cf g i T v w → src ∈ w →
  (rvr_votegranted r = true → rvr_term r = T ∧ g_vote g (src, T) = Some i) →
  ∃ g', evolves i g g' ∧
    match sendRequestVote r v s with
    | Ret s' v' =>
        node_ok g' i s' ∧ (∀ T', T' ≠ T → g_elec g' T' = g_elec g T') ∧
        election_ok cf g' i T v' (List.filter (λ n, negb (bool_decide (n = src))) w)
    | Exit s' => disk_ok g' i (disk s')
    end.
Proof using Type.
  intros Hg Hi Hn Hel Hsrc Hr. pose proof (election_ok_answered g i T v w src Hel) as Hel'.
  set (w' := List.filter _ w) in *. unfold sendRequestVote.
  destruct (Z.ltb_spec (m_currentTerm s) (rvr_term r)) as [Hlt|Hge].
  { destruct (persist_ok g i _ Hg (adopt_ok g i s _ Hn Hlt)) as [Hev Hn'].
    eexists. split; [exact Hev|]. split; [exact Hn'|]. split; [done|].
    by apply (election_ok_ev cf i g). }
  destruct (Z.ltb_spec (rvr_term r) (m_currentTerm s)) as [Hlt2|Hge2].
  { exists g. split; [by apply evolves_refl|]. done. }
  destruct (rvr_votegranted r) eqn:Hgr; simpl.
  2: { exists g. split; [by apply evolves_refl|]. done. }
  destruct (Hr eq_refl) as [HT Hvote]. assert (m_currentTerm s = T) as Hc by lia.
  rewrite (no_members _ _ _ _ Hn), quorum_cf.
  destruct Hel as ([l Hcand] & Hnd & Hw & Hmode).
  pose proof (length_answered w src Hnd Hsrc) as Hlw. fold w' in Hlw.
  destruct Hmode as [(A & HA & HAv & -> & HAl & HAvote & Hnel)|(Hv0 & Hlt & l' & He)].
  - assert (NoDup ((src :: A) ++ w')) as HA'.
    { apply NoDup_app in HA as (HA1 & HA2 & _). destruct Hel' as (_ & Hndw & _).
      apply NoDup_app. split; [constructor; [|done]; intros Hs; by apply (HA2 src)|]. split; [|done].
      intros n [->|Hn']%elem_of_cons.
      - unfold w'. rewrite list_elem_of_In, List.filter_In. intros [_ Hb].
        by rewrite bool_decide_eq_true_2 in Hb.
      - intros Hw'. apply (HA2 n Hn'). unfold w' in Hw'.
        rewrite list_elem_of_In, List.filter_In, <- list_elem_of_In in Hw'. tauto. }
    assert (src :: A ⊆ vs) as HAv' by (intros n [->|?]%elem_of_cons; auto).
    assert (Forall (λ n, g_vote g (n, T) = Some i) (src :: A)) as HAvote' by by constructor.
    destruct (Z.ltb_spec (Z.of_nat (length A) + 1) (Z.of_nat (length vs / 2 + 1))) as [Hfew|Hmaj].
    + exists g. split; [by apply evolves_refl|]. split; [done|]. split; [done|].
      destruct Hel' as (? & ? & ? & _). split; [done|]. split; [done|]. split; [done|]. left.
      exists (src :: A). cbn [length]. split; [done|]. split; [done|]. split; [lia|]. split; [lia|]. done.
    + case_bool_decide; simpl.
      { exists g. split; [by apply evolves_refl|]. by apply node_disk. }
      assert (quorum vs (src :: A)) as Hq.
      { split; [by apply NoDup_app in HA' as (? & _)|]. split; [done|]. cbn [length]. lia. }
      assert (g_elec g T = None) as Hnone.
      { destruct (g_elec g T) as [[c l1]|] eqn:He; [|done]. exfalso.
        destruct (gi_elec _ _ Hg _ _ _ He) as (_ & q & Hq' & Hvs).
        destruct (quorums_meet vs q _ (vs_NoDup cf) Hq' Hq) as (n & Hn1 & Hn2).
        rewrite Forall_forall in Hvs, HAvote'. destruct (Hvs n Hn1) as [Hv1 _].
        specialize (HAvote' n Hn2). simplify_eq. by apply (Hnel l1). }
      assert (m_currentTerm s = g_term g i) as Hct.
      { apply (gi_cand_term _ _ Hg) in Hcand as [? _]. pose proof (no_term _ _ _ _ Hn). lia. }
      rewrite <- Hc in Hcand, Hnone, HAvote'.
      destruct (become_leader_ok g i s l (src :: A) Hg Hi Hn Hct Hcand Hnone Hq HAvote') as [Hev Hn'].
      eexists. split; [exact Hev|]. split; [exact Hn'|]. rewrite Hc in *. split.
      * intros T' HT'. simpl. by rewrite upd_ne.
      * destruct Hel' as (_ & Hndw & Hww & _). split; [by eexists|]. split; [done|]. split; [done|].
        right. split; [done|]. split; [|exists (g_log g i); simpl; by rewrite upd_eq].
        assert (length ((src :: A) ++ w') ≤ length vs) as Hle.
        { apply submseteq_length, NoDup_submseteq; [done|]. intros n [?|?]%elem_of_app; auto. }
        rewrite length_app in Hle. cbn [length] in Hle.
        pose proof (Nat.div_mod_eq (length vs) 2). pose proof (Nat.mod_upper_bound (length vs) 2). lia.
  - destruct (Z.ltb_spec (v + 1) (Z.of_nat (length vs / 2 + 1))) as [Hfew|Hmaj]; [|lia].
    exists g. split; [by apply evolves_refl|]. split; [done|]. split; [done|].
    destruct Hel' as (? & ? & ? & _). split; [done|]. split; [done|]. split; [done|]. right.
    split; [lia|]. split; [lia|]. eauto.
Qed.

End sim.
