(* ===== verification/RaftReplicate.v ===== *)
(** * Raft: replication steps as moves of the history

    AppendEntries and its reply, proposals, snapshots and deliveries, continuing
    [RaftSim]. *)

From S2P Require Import Prelude Wire RaftTypes RaftNode RaftCluster RaftGhost RaftMoves RaftEvolve RaftRel RaftView RaftSim.

Section replicate.
Context (cf : config).
Implicit Types (g : history) (T : Z) (i c : nat) (s : Raft).

Notation vs := (vs cf).
Notation evolves := (evolves vs).
Notation node_ok := (node_ok cf).
Notation step_ok := (step_ok cf).

(** Logs of which one does not extend a prefix of the other disagree within
    it. *)
Lemma not_prefix_conflicts F V f :
  length F ≤ length V → F `prefix_of` f → ¬ F `prefix_of` V → conflicts V f.
Proof using Type.
  intros Hl Hf Hn.
  destruct (decide (Forall (λ k, V !! k = F !! k) (seq 0 (length F)))) as [Ha|Hd].
  - exfalso. apply Hn. exists (drop (length F) V). rewrite <- (take_drop (length F) V) at 1. f_equal.
    apply list_eq. intros k. rewrite Forall_forall in Ha. destruct (decide (k < length F)) as [Hk|Hk].
    + rewrite lookup_take_lt by done. apply Ha. apply elem_of_seq. lia.
    + rewrite (lookup_ge_None_2 F) by lia. apply lookup_ge_None_2. rewrite length_take. lia.
  - apply not_Forall_Exists in Hd; [|apply _]. apply Exists_exists in Hd as (k & Hk%elem_of_seq & Hne).
    destruct (lookup_lt_is_Some_2 V k) as [x Hx]; [lia|].
    destruct (lookup_lt_is_Some_2 F k) as [y Hy]; [lia|].
    exists k, x, y. split; [done|]. split; [by eapply prefix_lookup_Some|]. congruence.
Qed.

(** ** Acknowledging *)

Lemma acknowledge_ok g i s T f :
  ginv vs g → node_ok g i s → g_term g i = T → elected g T →
  f `prefix_of` g_log g i → f `prefix_of` g_llog g T →
  ∃ g', evolves i g g' ∧ quiet g g' ∧ node_ok g' i s ∧ length f ≤ g_ack g' (i, T).
Proof using Type.
  intros Hg Hn HT He Hf Hfl. destruct (decide (length f ≤ g_ack g (i, T))) as [|Hna].
  { exists g. split; [by apply evolves_refl|]. done. }
  pose proof (prefix_length _ _ Hfl) as Hlen.
  assert (evolves i g (acknowledge g i T (length f))) as Hev.
  { apply ev_acknowledge; [done|done|done|lia|]. by rewrite <- (prefix_eq_take _ _ Hfl). }
  exists (acknowledge g i T (length f)). split; [done|]. split; [done|].
  split; [|simpl; by rewrite upd_eq].
  destruct Hn as [? ? ? ? ? ? [F HF] ? Hl]. split; try done.
  - exists F. destruct HF. by split.
  - intros Hs. destruct (Hl Hs) as ([l Hl1] & Hc & Hm). split; [by exists l|]. split; [done|].
    intros j m Hj. destruct (Hm j m Hj) as [Hle Hk]. split; [done|]. intros k ? ? ?.
    destruct (Hk k) as [Ha|?]; [done..| |by right]. left.
    pose proof (ev_ack _ _ _ _ Hev (j, m_currentTerm s)). lia.
Qed.

(** ** AppendEntries *)

Lemma persist_changes_eq changed truncated old s h :
  hard_of_disk (disk s) = h → hs_snapshotIndex h = m_lastSnapshotIncludeIndex s →
  (truncated = false → take old (m_logs s) = hs_logs h) →
  persist_changes changed truncated old s = (if changed then persist s else s).
Proof using Type.
  intros Hd Hsi Hl. unfold persist_changes. destruct changed; [|done]. destruct truncated; [done|].
  apply persistAppended_persist. intros h' Hh' _ _. rewrite (Hl eq_refl), <- Hd.
  unfold hard_of_disk. by rewrite Hh'.
Qed.

(** The state of a node that has accepted the sender of a request of term [T]
    as leader. *)
Lemma contact_ok g i s now T :
  node_ok g i s → (m_currentTerm s ≤ T)%Z →
  let s1 := if (m_currentTerm s <? T)%Z then adopt_term T s else s in
  let s2 := if bool_decide (m_status s1 = Leader) then abortReadIndexLocked ReadNotLeader s1
            else s1 in
  let s3 := set_leaderContact now (set_status Follower s2) in
  node_ok g i s3 ∧ m_currentTerm s3 = T ∧ m_status s3 = Follower ∧ disk s3 = disk s ∧
  m_logs s3 = m_logs s ∧ m_lastSnapshotIncludeIndex s3 = m_lastSnapshotIncludeIndex s ∧
  m_commitIndex s3 = m_commitIndex s ∧ m_lastApplied s3 = m_lastApplied s.
Proof using Type.
  intros Hn HT s1 s2 s3.
  assert (node_ok g i s1 ∧ m_currentTerm s1 = T ∧ disk s1 = disk s ∧ m_logs s1 = m_logs s ∧
    m_lastSnapshotIncludeIndex s1 = m_lastSnapshotIncludeIndex s ∧
    m_commitIndex s1 = m_commitIndex s ∧ m_lastApplied s1 = m_lastApplied s) as (Hn1 & H1).
  { unfold s1. destruct (Z.ltb_spec (m_currentTerm s) T).
    - split; [by apply adopt_ok|done].
    - split; [done|]. split; [lia|done]. }
  assert (node_ok g i s2 ∧ hard s2 = hard s1 ∧ progress s2 = progress s1 ∧ disk s2 = disk s1)
    as (Hn2 & Hh2 & Hp2 & Hd2).
  { unfold s2. case_bool_decide; [|done]. split; [|done]. by apply (node_ok_same cf g i s1). }
  split; [|unfold s3; simpl; rewrite Hh2, Hp2, Hd2; naive_solver].
  apply (node_ok_same cf g i (set_status Follower s2)); try done. by apply follower_ok.
Qed.

(** What the node's view of its log has in common with the leader's. *)
Lemma matched_view g i T h commit F f n :
  ginv vs g → log_ok g i T h commit F → elected g T → (g_term g i ≤ T)%Z →
  f `prefix_of` g_llog g T → length F ≤ n ≤ length (g_log g i) → n ≤ length f →
  term_at (view F (g_log g i)) n = term_at f n →
  F `prefix_of` f ∧ take n (view F (g_log g i)) = take n f ∧
  (F `prefix_of` g_log g i ∨ n = length F).
Proof using Type.
  intros Hg HF He HgT Hf Hn Hnf Ht.
  assert (F `prefix_of` g_llog g T) as HFl.
  { apply (safe_in_leader _ _ Hg (g_term g i)); [apply vs_NoDup|apply HF|done|done]. }
  assert (F `prefix_of` f) as HFf by (apply (prefix_shorter _ _ (g_llog g T)); [done|done|lia]).
  split; [done|].
  assert (term_at f n = term_at (g_llog g T) n) as Htf by (symmetry; by apply term_at_prefix).
  pose proof (prefix_length _ _ Hf) as Hfl.
  destruct (decide (F `prefix_of` g_log g i)) as [HFV|HFV].
  - split; [|by left]. rewrite view_normal in * by done.
    rewrite (rooted_matching g _ (g_llog g T) n); [by apply prefix_take_same| | |lia|lia|congruence].
    + apply (gi_rooted _ _ Hg).
    + by apply (llog_rooted _ _ Hg).
  - destruct (decide (n = length F)) as [->|Hne].
    + split; [|by right]. unfold view. rewrite take_app_length. by apply prefix_eq_take.
    + exfalso. apply HFV. apply (match_normal g F _ (g_llog g T) n); try done; try lia.
      * apply (gi_rooted _ _ Hg).
      * by apply (llog_rooted _ _ Hg).
      * rewrite <- Htf, <- Ht. unfold view, term_at. destruct n as [|n]; [lia|].
        rewrite lookup_app_r by lia. rewrite lookup_drop. do 2 f_equal. lia.
Qed.

(** With a stale log, a request that changes nothing carries no entry. *)
Lemma stale_request g i T h commit F f :
  ginv vs g → log_ok g i T h commit F → elected g T →
  f `prefix_of` g_llog g T → F `prefix_of` f → f `prefix_of` view F (g_log g i) →
  ¬ F `prefix_of` g_log g i → f = F.
Proof using Type.
  intros Hg HF He Hf HFf HfW Hst. symmetry. apply eq_of_prefix_length; [done|].
  destruct (decide (length f ≤ length F)) as [|Hgt]; [done|]. exfalso. apply Hst.
  pose proof (prefix_length _ _ HfW) as Hl. rewrite view_length in Hl by apply HF.
  pose proof (prefix_length _ _ Hf) as Hfl. pose proof (prefix_length _ _ HFf).
  apply (match_normal g F _ (g_llog g T) (S (length F))); try done; try lia.
  - etrans; done.
  - apply (gi_rooted _ _ Hg).
  - by apply (llog_rooted _ _ Hg).
  - destruct (lookup_lt_is_Some_2 f (length F)) as [e Hle]; [lia|]. simpl.
    rewrite (prefix_lookup_Some _ _ _ _ Hle Hf).
    pose proof (prefix_lookup_Some _ _ _ _ Hle HfW) as Hv. unfold view in Hv.
    rewrite lookup_app_r, Nat.sub_diag, lookup_drop, Nat.add_0_r in Hv by lia. by rewrite Hv.
Qed.

(** The acknowledgement a node may give for a prefix [f] of the leader's log. *)
Definition acks g i T (n : nat) : Prop :=
  ∀ k, 0 < k ≤ n → term_at (g_llog g T) k = T → k ≤ g_ack g (i, T) ∨ k ≤ g_commit g T.

Lemma acks_of_log g i s T f :
  ginv vs g → node_ok g i s → (g_term g i ≤ T)%Z → elected g T →
  f `prefix_of` g_log g i → f `prefix_of` g_llog g T →
  ∃ g', evolves i g g' ∧ quiet g g' ∧ node_ok g' i s ∧ acks g' i T (length f).
Proof using Type.
  intros Hg Hn HT He Hf Hfl. destruct (decide (g_term g i = T)) as [Heq|Hne].
  - destruct (acknowledge_ok g i s T f Hg Hn Heq He Hf Hfl) as (g' & Hev & Hq & Hn' & Ha).
    exists g'. split; [done|]. split; [done|]. split; [done|]. intros k Hk _. left. lia.
  - exists g. split; [by apply evolves_refl|]. split; [done|]. split; [done|].
    intros k Hk Ht. exfalso. pose proof (prefix_length _ _ Hf).
    pose proof (gi_log_term _ _ Hg i k ltac:(lia)) as Hle.
    rewrite (term_at_prefix _ _ k Hf) in Hle by lia.
    rewrite (term_at_prefix _ _ k Hfl) in Ht by lia. lia.
Qed.

Section accept.
Context (g : history) (i : nat) (s : Raft) (T : Z) (F f : list LogEntry).
Context (Hg : ginv vs g) (Hn : node_ok g i s) (HT : m_currentTerm s = T)
  (Hfol : m_status s = Follower)
  (HF : log_ok g i T (hard s) (m_commitIndex s) F) (He : elected g T)
  (Hf : f `prefix_of` g_llog g T) (HFf : F `prefix_of` f).

Lemma accept_term : (g_term g i ≤ T)%Z.
Proof using Hn HT. rewrite <- HT. apply Hn. Qed.

(** The request adds nothing to the log. *)
Lemma accept_commit (lc : Z) :
  f `prefix_of` view F (g_log g i) → (0 ≤ lc ≤ Z.of_nat (length f))%Z →
  safe g T (take (Z.to_nat lc) f) → node_ok g i (set_commitIndex lc s).
Proof using Type*.
  intros HfW Hlc Hs. pose proof (prefix_length _ _ HfW) as Hl. rewrite view_length in Hl by apply HF.
  destruct Hn as [Hm Hlen Ht Hv Hfr Hd _ Ha Hld]. split; simpl; try done; [|congruence].
  exists F. rewrite HT. pose proof HF as [? ? Hlf Hlogs Hb Hc Hsf Hmode]. split; simpl; try done; [lia| |].
  - fold (view F (g_log g i)). rewrite (prefix_take_same _ _ _ HfW) by lia. done.
  - destruct (decide (F `prefix_of` g_log g i)) as [|Hst]; [by left|]. right.
    destruct Hmode as [|[Hlt _]]; [done|]. split; [done|].
    rewrite (stale_request g i T (hard s) (m_commitIndex s) F f Hg HF He Hf HFf HfW Hst) in Hlc. lia.
Qed.

Lemma acks_same s' :
  f `prefix_of` view F (g_log g i) → node_ok g i s' →
  ∃ g', evolves i g g' ∧ quiet g g' ∧ node_ok g' i s' ∧ acks g' i T (length f).
Proof using Type*.
  intros HfW Hn'. destruct (decide (F `prefix_of` g_log g i)) as [HFV|Hst].
  - rewrite view_normal in HfW by done. apply acks_of_log; try done. apply accept_term.
  - exists g. split; [by apply evolves_refl|]. split; [done|]. split; [done|].
    rewrite (stale_request g i T (hard s) (m_commitIndex s) F f Hg HF He Hf HFf HfW Hst).
    intros k Hk Hterm. right. apply (safe_own _ _ Hg T F); try done.
    + eapply safe_le; [apply HF|apply accept_term].
    + by etrans.
Qed.

(** The request replaces or extends the log. *)
Lemma accept_new src l (commit : Z) :
  g_elec g T = Some (src, l) → i ≠ src →
  view F (g_log g i) `prefix_of` f ∨ conflicts (view F (g_log g i)) f →
  (0 ≤ commit ≤ Z.of_nat (length f))%Z → safe g T (take (Z.to_nat commit) f) →
  ∃ g', evolves i g g' ∧ quiet g g' ∧
    node_ok g' i (persist (set_commitIndex commit (set_logs (drop (length F) f) s))) ∧
    acks g' i T (length f).
Proof using Type*.
  intros Hel Hne Hov Hc Hs. pose proof accept_term as Hgt.
  pose proof (node_vote cf g i s Hg Hn) as Hvote.
  pose proof (ev_set_term vs g i T Hg Hgt) as Hev1. set (g1 := set_term g i T) in *.
  assert (g_term g1 i = T) as Hterm1 by (simpl; by rewrite upd_eq).
  assert (overwrite (g_log g1 i) f f) as Hov1.
  { change (g_log g1 i) with (g_log g i). unfold overwrite.
    destruct (decide (F `prefix_of` g_log g i)) as [HFV|Hst].
    - rewrite view_normal in Hov by done. destruct Hov; auto.
    - right. right. split; [done|]. apply (not_prefix_conflicts F); [apply HF|done|done]. }
  pose proof (ev_accept vs g1 i src T l f f (ev_ginv _ _ _ _ Hev1) Hterm1 Hel Hne Hf Hov1) as Hev2.
  set (g2 := replace_log g1 i f) in *. pose proof (evolves_trans _ _ _ _ _ Hev1 Hev2) as Hev.
  assert (g_log g2 i = f) as Hlog2 by (simpl; by rewrite upd_eq).
  assert (∀ T0 p, safe g T0 p → safe g2 T0 p) as Hsafe by done.
  assert (node_ok g2 i (persist (set_commitIndex commit (set_logs (drop (length F) f) s)))) as Hn2.
  { destruct Hn as [Hm Hlen Ht Hv Hfr Hd _ Ha Hld].
    split; simpl; rewrite ?upd_eq, ?HT; try done; try lia.
    - unfold vote_of in *. rewrite HT in Hvote. done.
    - unfold hard_of_disk. simpl. unfold vote_of in *. rewrite HT in *. by rewrite Hvote.
    - exists F. destruct HF as [? ? Hlf Hlogs Hb _ Hsf Hmode].
      split; simpl; rewrite ?upd_eq; try done.
      + by apply prefix_length.
      + apply Hsafe. by eapply safe_le.
      + fold (view F f). rewrite view_normal by done. by apply Hsafe.
      + by left.
    - congruence. }
  destruct (acks_of_log g2 i _ T f (ev_ginv _ _ _ _ Hev2) Hn2) as (g' & Hev3 & Hq & Hn' & Ha).
  - change (g_term g2 i) with (g_term g1 i). by rewrite Hterm1.
  - done.
  - by rewrite Hlog2.
  - done.
  - exists g'. split; [by eapply evolves_trans|]. done.
Qed.

(** What the node had committed stays committed in the new log. *)
Lemma accept_old_commit :
  (m_commitIndex s ≤ Z.of_nat (length f))%Z → safe g T (take (Z.to_nat (m_commitIndex s)) f).
Proof using Type*.
  intros Hc. pose proof (lo_commit _ _ _ _ _ _ HF) as Hcm.
  pose proof (lo_safe _ _ _ _ _ _ HF) as Hs. fold (view F (g_log g i)) in Hs.
  set (p := take _ (view _ _)) in Hs.
  assert (length p = Z.to_nat (m_commitIndex s)) as Hlp.
  { unfold p. rewrite length_take, view_length by apply HF. lia. }
  assert (p `prefix_of` f) as Hpf.
  { apply (prefix_shorter _ _ (g_llog g T)); [|done|lia].
    apply (safe_in_leader _ _ Hg T); [apply vs_NoDup|done|done|done]. }
  rewrite <- Hlp, <- (prefix_eq_take _ _ Hpf). done.
Qed.

End accept.

Lemma ack_ok_of g i (a : AppendEntriesArgs) f :
  elected g (ae_term a) → f `prefix_of` g_llog g (ae_term a) →
  Z.of_nat (length f) = (ae_prevlogindex a + Z.of_nat (length (ae_entries a)))%Z →
  acks g i (ae_term a) (length f) → ack_ok g i a.
Proof using Type.
  intros He Hf Hl Ha. split; [done|]. pose proof (prefix_length _ _ Hf). split; [lia|].
  intros k Hk Hkl Ht. apply Ha; [lia|done].
Qed.

Lemma merged_cases W f W' ch ch' tr' :
  merged W f W' ch false ch' tr' →
  (W' = W ∧ f `prefix_of` W ∧ ch' = ch ∧ tr' = false) ∨
  (W' = f ∧ ch' = true ∧ (tr' = false → W `prefix_of` f) ∧ (W `prefix_of` f ∨ conflicts W f)).
Proof using Type.
  intros [(-> & ? & -> & ->)|[(-> & ? & -> & ->)|(-> & ? & -> & ->)]]; [by left|right..].
  - auto.
  - split; [done|]. split; [done|]. split; [done|]. by right.
Qed.

(** The commit index after a successful request. *)
Lemma commit_after (commit lc last : Z) :
  (0 ≤ commit)%Z →
  let new := Z.min lc last in
  ∃ c' : Z, (c' = commit ∨ (c' = new ∧ (commit < lc)%Z)) ∧
    ∀ s : Raft, m_commitIndex s = commit →
      (if (m_commitIndex s <? lc)%Z && (m_commitIndex s <? new)%Z then set_commitIndex new s else s) =
      set_commitIndex c' s.
Proof using Type.
  intros H0 new. exists (if (commit <? lc)%Z && (commit <? new)%Z then new else commit). split.
  - destruct (Z.ltb_spec commit lc), (Z.ltb_spec commit new); simpl; auto.
  - intros s Hs. rewrite Hs. destruct (_ && _); [done|]. rewrite <- Hs. by destruct s as [? [] ? ? ? ? ?].
Qed.

Lemma AppendEntries1_ok g i s now src a :
  ginv vs g → indexed_history g → node_ok g i s → append_ok g src i a →
  step_ok g i (AppendEntries1 now a s) (λ g' r, packet_ok g' (PAppendReply i src a r)).
Proof using Type.
  intros Hg Hi Hn (Hne & l & f & Hel & Hf & Hp0 & Hfl & Hes & Hpt & Hlc & Hls).
  unfold AppendEntries1. rewrite (no_members _ _ _ _ Hn). rewrite cf_members_eq at 1. cbn [mb_removed].
  destruct (Z.ltb_spec (ae_term a) (m_currentTerm s)) as [|Hge]; [by apply step_ok_here|].
  destruct (contact_ok g i s now (ae_term a) Hn Hge) as (Hn3 & Hc3 & Hs3 & Hd3 & Hl3 & Hsi3 & Hcm3 & _).
  set (changed := (m_currentTerm s <? ae_term a)%Z) in *.
  set (s3 := set_leaderContact now _) in *. clearbody s3.
  set (T := ae_term a) in *.
  assert (∀ ch, ch = changed → persist_changes ch false (length (m_logs s)) s3 =
                  (if ch then persist s3 else s3)) as Hpc.
  { intros ch ->. eapply persist_changes_eq; [exact (no_disk _ _ _ _ Hn3)|done|]. intros _. simpl.
    rewrite <- Hl3. by rewrite take_ge. }
  assert (∀ r, aer_success r = false →
    step_ok g i (Ret (persist_changes changed false (length (m_logs s)) s3) r)
      (λ g' r, packet_ok g' (PAppendReply i src a r))) as Hreject.
  { intros r Hr. rewrite Hpc by done. destruct changed.
    - apply step_ok_persist; try done. simpl. congruence.
    - apply step_ok_here; try done. simpl. congruence. }
  destruct (Z.ltb_spec (getLastLogIndex s3) (ae_prevlogindex a)) as [|Hpl]; [by apply Hreject|].
  destruct (Z.ltb_spec (ae_prevlogindex a) (m_lastSnapshotIncludeIndex s3)) as [|Hps]; [by apply Hreject|].
  destruct (matchLog s3 _ _) as [b|] eqn:Hmatch; [|by eapply step_ok_exit].
  destruct b; cycle 1.
  { case_match; [|by eapply step_ok_exit]. case_match; [|by eapply step_ok_exit]. by apply Hreject. }
  destruct (no_log _ _ _ _ Hn3) as [F HF]. rewrite Hc3 in HF.
  pose proof (log_ok_reads cf _ _ _ _ _ _ Hg Hi HF) as Hr.
  destruct (view_match s3 F _ Hr _ _ _ Hmatch) as (n & Hpn & Hn1 & Hterm). specialize (Hterm eq_refl).
  rewrite view_length in Hn1 by apply HF. rewrite Hpn in *. rewrite Nat2Z.id in *.
  assert (elected g T) as He by by eexists.
  assert (n ≤ length f) as Hnf by lia.
  destruct (matched_view g i T _ _ F f n Hg HF He) as (HFf & Htk & Hmode); try done; try lia.
  { rewrite <- Hc3. apply Hn3. }
  destruct (append_entries (ae_entries a) changed false s3) as [[[s4 ch'] tr']|] eqn:Happ;
    [|by eapply step_ok_exit].
  assert (indexed f) as Hif by (eapply indexed_prefix; [exact Hf|by apply Hi]).
  destruct (append_entries_spec F f _ n (view F (g_log g i)) _ _ _ _ _ _ Happ Hr Hif) as (W' & -> & Hr' & Hm);
    [rewrite view_length by apply HF; lia|done|done|done|].
  rewrite (view_last_index _ F W' Hr').
  case_match eqn:Hlast; [|by eapply step_ok_exit]. clear Hlast.
  pose proof (lo_commit _ _ _ _ _ _ HF) as Hcm.
  destruct (commit_after (m_commitIndex s3) (ae_leadercommit a) (Z.of_nat (length W'))) as (c' & Hc' & Hset);
    [lia|]. rewrite Hset by done. clear Hset.
  case_match eqn:Hle; [|by eapply step_ok_exit]. apply Z.leb_le in Hle. simpl in Hle.
  simpl (m_currentTerm _). rewrite Hc3. fold T.
  apply merged_cases in Hm as [(-> & HfW & -> & ->)|(-> & -> & Htr & Hov)].
  - (* nothing to add *)
    rewrite <- (ra_logs _ _ _ Hr), set_logs_id.
    pose proof (prefix_length _ _ HfW) as HfWl.
    assert (node_ok g i (set_commitIndex c' s3)) as Hn4.
    { destruct Hc' as [->|[-> _]]; [by destruct s3 as [? [] ? ? ? ? ?]|].
      rewrite Z.min_l by lia. by apply (accept_commit g i s3 T F f). }
    assert (persist_changes changed false (length (m_logs s)) (set_commitIndex c' s3) =
            (if changed then persist (set_commitIndex c' s3) else set_commitIndex c' s3)) as ->.
    { eapply persist_changes_eq; [exact (no_disk _ _ _ _ Hn4)|done|]. intros _. simpl.
      rewrite <- Hl3. by rewrite take_ge. }
    destruct (acks_same g i s3 T F f Hg Hn3 Hc3 Hs3 HF He Hf HFf _ HfW Hn4)
      as (g1 & Hev1 & Hq1 & Hn5 & Ha).
    assert (ack_ok g1 i a) as Hack.
    { apply (ack_ok_of g1 i a f); try done; [by eapply evolves_elected| |rewrite Hpn; lia].
      etrans; [exact Hf|]. by apply Hev1. }
    destruct changed.
    + destruct (persist_ok cf g1 i _ (ev_ginv _ _ _ _ Hev1) Hn5) as [Hev2 Hn6].
      eexists. split; [by eapply evolves_trans|]. split; [exact Hq1|]. split; [exact Hn6|done].
    + exists g1. done.
  - (* the log becomes [f] *)
    assert (c' = m_commitIndex s3 ∨ c' = ae_leadercommit a) as Hcc.
    { destruct Hc' as [->|[-> _]]; [by left|right]. lia. }
    destruct (accept_new g i s3 T F f Hg Hn3 Hc3 Hs3 HF He Hf HFf src l c' Hel) as (g' & Hev & Hq & Hn' & Ha).
    + congruence.
    + done.
    + destruct Hcc as [->| ->]; lia.
    + destruct Hcc as [->| ->]; [|done]. by apply (accept_old_commit g i s3 T F f).
    + exists g'. split; [done|]. split; [done|].
      assert (persist_changes true tr' (length (m_logs s)) (set_commitIndex c' (set_logs (drop (length F) f) s3)) =
              persist (set_commitIndex c' (set_logs (drop (length F) f) s3))) as ->.
      { refine (persist_changes_eq true _ _ (set_commitIndex c' (set_logs (drop (length F) f) s3)) _
                  (no_disk _ _ _ _ Hn3) _ _); [done|]. intros Htr'. simpl.
        rewrite <- Hl3, (ra_logs _ _ _ Hr). destruct (Htr Htr') as [d ->].
        rewrite drop_app_le by (rewrite view_length by apply HF; apply HF). by rewrite take_app_length. }
      split; [done|]. intros _. split; [done|].
      apply (ack_ok_of g' i a f); try done; [by eapply evolves_elected| |rewrite Hpn; lia].
      etrans; [exact Hf|]. by apply Hev.
Qed.

(** ** Replies and proposals *)

Lemma set_indexes_ok g i s next mtch :
  node_ok g i s → length next = cf_size cf → length mtch = cf_size cf →
  (m_status s = Leader → ∀ j m, mtch !! j = Some m →
     match_ok g (m_currentTerm s) (m_commitIndex s) j m) →
  node_ok g i (set_indexes next mtch s).
Proof using Type.
  intros [? ? ? ? ? ? ? ? Hl] Hn Hm Hmt. split; simpl; try done.
  intros Hs. destruct (Hl Hs) as (? & ? & _). split; [done|]. split; [done|]. by apply Hmt.
Qed.

Definition same_core (s s' : Raft) : Prop :=
  hard s' = hard s ∧ progress s' = progress s ∧ members s' = members s ∧ disk s' = disk s.

Lemma same_core_ok g i s s' : same_core s s' → node_ok g i s → node_ok g i s'.
Proof using Type. intros (? & ? & ? & ?). by apply node_ok_same. Qed.

Lemma completeRead_core now s : same_core s (completeReadRoundIfQuorumLocked now s).
Proof using Type.
  unfold completeReadRoundIfQuorumLocked. case_match; [|done].
  case_match; [done|]. case_match; done.
Qed.

Lemma startRead_core now s s' : startReadRound now s = Some s' → same_core s s'.
Proof using Type.
  unfold startReadRound. case_match; [intros; by simplify_eq|]. case_match; [intros; by simplify_eq|].
  rewrite bind_Some. intros ([] & _ & [= <-]); [|done].
  match goal with |- same_core _ (completeReadRoundIfQuorumLocked _ ?x) =>
    destruct (completeRead_core now x) as (? & ? & ? & ?) end.
  done.
Qed.

Lemma HandleAppendEntriesReply_ok g i s now src a r :
  ginv vs g → indexed_history g → node_ok g i s → packet_ok g (PAppendReply src i a r) →
  step_ok g i (HandleAppendEntriesReply now src a r s) (λ _ _, True).
Proof using Type.
  intros Hg Hi Hn Hp. unfold HandleAppendEntriesReply.
  case_match; [by apply step_ok_here|].
  destruct (Z.ltb_spec (m_currentTerm s) (aer_term r)) as [Hlt|Hge].
  { apply step_ok_here; try done. by apply adopt_ok. }
  destruct (Z.ltb_spec (aer_term r) (m_currentTerm s)) as [|Hge2]; [by apply step_ok_here|].
  case_bool_decide as Hs; simpl; [|by apply step_ok_here].
  set (s1 := match rd_active _ with Some _ => _ | None => _ end).
  assert (same_core s s1) as Hsame.
  { unfold s1. case_match; [|done]. case_match; [|done].
    match goal with |- same_core _ (completeReadRoundIfQuorumLocked _ ?x) =>
      destruct (completeRead_core now x) as (? & ? & ? & ?) end. done. }
  clearbody s1. pose proof (same_core_ok g i s s1 Hsame Hn) as Hn1.
  destruct Hsame as (Hh & Hpg & Hmb & Hd).
  destruct (no_lens _ _ _ _ Hn1) as [Hl1 Hl2]. destruct (no_leader _ _ _ _ Hn1) as (Hlead & Hcom & Hmt); [congruence|].
  destruct (aer_success r) eqn:Hsucc; simpl; cycle 1.
  { case_match; [by apply step_ok_here|]. apply step_ok_here; try done.
    apply set_indexes_ok; try done. by rewrite length_insert. }
  destruct (Hp Hsucc) as (Hterm & He & Hle & Hk).
  assert (m_currentTerm s1 = ae_term a) as Hc by (rewrite Hh; lia).
  set (mtch := Z.max _ _). set (s2 := set_indexes _ _ s1).
  assert (node_ok g i s2) as Hn2.
  { apply set_indexes_ok; [done|by rewrite length_insert|by rewrite length_insert|].
    intros _ j m Hj. apply list_lookup_insert_Some in Hj as [(-> & <- & Hsz)|[_ Hj]]; [|by apply Hmt].
    destruct (lookup_lt_is_Some_2 (m_matchIndex s1) j) as [m0 Hm0]; [done|].
    unfold mtch. rewrite (nth_lookup_Some _ _ _ _ Hm0). destruct (Hmt j m0 Hm0) as [Hle0 Hk0].
    rewrite Hc in *. split; [lia|]. intros k Hkp Hkm Hkt.
    destruct (decide (Z.of_nat k ≤ m0)%Z); [by apply Hk0|].
    destruct (Hk k) as [?|?]; [done|lia|done|by left|right]. lia. }
  case_match; [|by eapply step_ok_exit].
  destruct (leaderUpdateCommitIndex s2) as [s3|] eqn:Hup; [|by eapply step_ok_exit].
  destruct (update_commit_ok cf g i s2 s2 s3 Hg Hi Hn2) as (g' & c' & Hev & Hq & -> & Hn3);
    [simpl; congruence|done..|].
  exists g'. split; [done|]. split; [done|].
  destruct (m_commitIndex (set_commitIndex c' s2) <=? _)%Z; [done|]. by eapply node_disk.
Qed.

Lemma batch_entries_spec T last batch :
  Forall (λ e, logterm e = T) (batch_entries T last batch) ∧
  ∀ k e, batch_entries T last batch !! k = Some e → logindex e = (last + Z.of_nat k + 1)%Z.
Proof using Type.
  revert last. induction batch as [|op batch IH]; intros last; simpl; [done|].
  destruct (IH (last + 1)%Z) as [IH1 IH2]. split; [by constructor|].
  intros [|k] e; simpl; [intros [= <-]; simpl; lia|]. intros He%IH2. lia.
Qed.

Lemma propose_ok g i s es :
  ginv vs g → indexed_history g → node_ok g i s → m_status s = Leader →
  Forall (λ e, logterm e = m_currentTerm s) es →
  (∀ k e, es !! k = Some e → logindex e = (getLastLogIndex s + Z.of_nat k + 1)%Z) →
  ∃ g', evolves i g g' ∧ quiet g g' ∧ node_ok g' i (persist (set_logs (m_logs s ++ es) s)).
Proof using Type.
  intros Hg Hi Hn Hs Hes Hix. destruct (leader_facts cf g i s Hg Hn Hs) as (Hc & He & Hlog).
  destruct (no_log _ _ _ _ Hn) as [F HF]. pose proof (leader_normal cf g i s F Hg Hn Hs HF) as HFV.
  pose proof (log_ok_reads cf _ _ _ _ _ _ Hg Hi HF) as Hr. rewrite view_normal in Hr by done.
  pose proof (view_last_index s F _ Hr) as Hlast.
  destruct (no_leader _ _ _ _ Hn Hs) as ([l Hl] & Hcom & Hmt).
  pose proof (node_vote cf g i s Hg Hn) as Hvote.
  set (T := m_currentTerm s) in *.
  assert (evolves i g (propose g i T es)) as Hev.
  { eapply (ev_propose vs g i T l es); try done. intros k e Hk. rewrite (Hix k e Hk), Hlast, Hlog. lia. }
  exists (propose g i T es). split; [done|]. split; [done|].
  destruct Hn as [Hm Hlen Ht Hv Hf Hd _ Ha _]. split; simpl; rewrite <- ?Hc; fold T; try done; try lia.
  - unfold hard_of_disk. simpl. fold T. rewrite Hvote. done.
  - exists F. destruct HF as [? ? Hlf Hlogs Hb Hcm Hsf ?].
    split; simpl; rewrite ?upd_eq, <- ?Hlog, ?length_app; try done; try lia.
    + rewrite drop_app_le by done. by rewrite Hlogs.
    + by apply (evolves_safe vs i g _ _ _ Hg Hev).
    + fold (view F (g_log g i ++ es)). fold (view F (g_log g i)) in Hsf.
      rewrite view_normal by by apply prefix_app_r. rewrite view_normal in Hsf by done.
      rewrite take_app_le by lia. by apply (evolves_safe vs i g _ _ _ Hg Hev).
    + left. by apply prefix_app_r.
  - intros _. split; [by exists l|]. split; [done|]. intros j m Hj. destruct (Hmt j m Hj) as [Hle Hk].
    unfold match_ok. simpl. fold T. rewrite upd_eq, length_app. split; [lia|]. intros k Hk0 Hkm Hkt.
    apply Hk; [done|done|].
    rewrite (term_at_prefix (g_llog g T)) in Hkt; [done|by apply prefix_app_r|lia].
Qed.

Lemma raftPollerTicker_ok g i s batch :
  ginv vs g → indexed_history g → node_ok g i s →
  step_ok g i (raftPollerTicker batch s) (λ _ _, True).
Proof using Type.
  intros Hg Hi Hn. unfold raftPollerTicker.
  set (s1 := set_confChangePending _ s).
  assert (node_ok g i s1) as Hn1 by by apply (same_core_ok g i s).
  case_bool_decide as Hs; simpl.
  2: { apply step_ok_here; try done. by apply (same_core_ok g i s1). }
  set (es := batch_entries _ _ batch).
  destruct (batch_entries_spec (m_currentTerm s1) (getLastLogIndex s1) batch) as [Hes Hix].
  destruct (propose_ok g i s1 es Hg Hi Hn1 Hs Hes Hix) as (g1 & Hev1 & Hq1 & Hn2).
  set (s2 := set_logs (m_logs s1 ++ es) s1) in *.
  change (set_logs _ s1) with s2.
  destruct (leaderUpdateCommitIndex s2) as [s3|] eqn:Hup; [|by eapply step_ok_exit].
  destruct (update_commit_ok cf g1 i (persist s2) s2 s3 (ev_ginv _ _ _ _ Hev1)
    (ev_indexed _ _ _ _ Hev1 Hi) Hn2 Hs eq_refl eq_refl eq_refl Hup) as (g' & c' & Hev & Hq & -> & Hn3).
  exists g'. split; [by eapply evolves_trans|]. split; [by eapply quiet_trans|]. split; [|done].
  rewrite persistAppended_persist; [exact Hn3|].
  intros h Hh _ Hlen. simpl in *. pose proof (no_disk _ _ _ _ Hn1) as Hd. unfold hard_of_disk in Hd.
  simpl in Hd. rewrite Hh in Hd. rewrite Hd. simpl. by rewrite take_app_length.
Qed.

End replicate.
