(* ===== verification/RaftInstall.v ===== *)
(** * Raft: snapshots and deliveries as moves of the history

    Log compaction, snapshot transfer and installation, the requests a leader
    builds, and what reaches the state machine; continuing [RaftReplicate]. *)

From S2P Require Import Prelude Wire RaftTypes RaftNode RaftCluster RaftGhost RaftMoves RaftEvolve RaftRel RaftView RaftSim RaftReplicate.

Section install.
Context (cf : config).
Implicit Types (g : history) (T : Z) (i c : nat) (s : Raft).

Notation vs := (vs cf).
Notation evolves := (evolves vs).
Notation node_ok := (node_ok cf).
Notation step_ok := (step_ok cf).

(** ** Compaction *)

Lemma Snapshot_ok g i s index snapshot :
  ginv vs g → indexed_history g → node_ok g i s →
  step_ok g i (Snapshot index snapshot s) (λ _ _, True).
Proof using Type.
  intros Hg Hi Hn. unfold Snapshot. case_match eqn:Hguard; [by apply step_ok_here|].
  apply orb_false_iff in Hguard as [Hg1%Z.leb_gt Hg2%Z.ltb_ge].
  destruct (no_log _ _ _ _ Hn) as [F HF]. pose proof (log_ok_reads cf _ _ _ _ _ _ Hg Hi HF) as Hr.
  rewrite (lo_snap _ _ _ _ _ _ HF) in Hg1.
  assert (F `prefix_of` g_log g i) as HFV.
  { destruct (lo_mode _ _ _ _ _ _ HF) as [?|[_ ?]]; [done|lia]. }
  rewrite view_normal in Hr by done.
  destruct (log_at s index) as [e|] eqn:Hat; [|by eapply step_ok_exit].
  apply (view_log_at s F _ Hr) in Hat as (n & -> & HFn & He). pose proof (lookup_lt_Some _ _ _ He) as Hnl.
  destruct (entries_after s _) as [logs|] eqn:Hlogs; [|by eapply step_ok_exit].
  apply (entries_after_spec s F _ (S n) logs Hr) in Hlogs as ->; [|lia].
  set (F' := take (S n) (g_log g i)). set (T := m_currentTerm s).
  assert (length F' = S n) as HlF' by (unfold F'; rewrite length_take; lia).
  pose proof (lo_safe _ _ _ _ _ _ HF) as Hsafe. fold (view F (g_log g i)) in Hsafe.
  rewrite view_normal in Hsafe by done.
  assert (safe g T F') as HsF.
  { eapply safe_prefix; [exact Hsafe|]. apply prefix_take_le. lia. }
  pose proof (no_term _ _ _ _ Hn) as Hgt. pose proof (node_vote cf g i s Hg Hn) as Hvote.
  pose proof (ev_set_term vs g i T Hg Hgt) as Hev. set (g' := set_term g i T) in *.
  set (s2 := set_lastApplied _ _).
  assert (node_ok g' i s2) as Hn2.
  { destruct Hn as [Hm Hlen Ht Hv Hf Hd _ Ha Hl].
    split; simpl; rewrite ?upd_eq; fold T; try done; try lia.
    - unfold hard_of_disk. simpl. fold T. rewrite Hvote. done.
    - exists F'. destruct HF as [? ? Hlf Hlg Hb Hcm Hsf Hmode].
      split; simpl; rewrite ?upd_eq, ?HlF'; fold T; try done; try lia.
      + unfold last_term, F'. rewrite length_take, Nat.min_l, term_at_take by lia. simpl. by rewrite He.
      + rewrite <- HlF'. fold (view F' (g_log g i)). rewrite view_normal by apply prefix_take.
        rewrite Z.max_l by lia. done.
      + left. apply prefix_take.
    - intros Hs. destruct (Hl Hs) as (? & ? & Hmt). split; [done|]. simpl.
      rewrite Z.max_l by lia. done. }
  exists g'. split; [done|]. split; [done|].
  destruct (_ =? _)%Z; [done|]. by eapply node_disk.
Qed.

(** ** Installation *)

Lemma snap_contact_ok g i s now T :
  ginv vs g → node_ok g i s → (m_currentTerm s ≤ T)%Z →
  let s1 := if (m_currentTerm s <? T)%Z then persist (adopt_term T s) else s in
  let s2 := if bool_decide (m_status s1 = Leader) then abortReadIndexLocked ReadNotLeader s1
            else s1 in
  let s3 := set_leaderContact now (set_status Follower s2) in
  ∃ g', evolves i g g' ∧ quiet g g' ∧ node_ok g' i s3 ∧ m_currentTerm s3 = T ∧ m_status s3 = Follower.
Proof using Type.
  intros Hg Hn HT s1 s2 s3.
  assert (∃ g', evolves i g g' ∧ quiet g g' ∧ node_ok g' i s1 ∧ m_currentTerm s1 = T)
    as (g' & Hev & Hq & Hn1 & Hc1).
  { unfold s1. destruct (Z.ltb_spec (m_currentTerm s) T) as [Hlt|Hge].
    - destruct (persist_ok cf g i _ Hg (adopt_ok cf g i s T Hn Hlt)) as [Hev Hn'].
      eexists. split; [exact Hev|]. split; [done|]. done.
    - exists g. split; [by apply evolves_refl|]. split; [done|]. split; [done|lia]. }
  exists g'. split; [done|]. split; [done|].
  assert (same_core s1 s2) as (Hh & Hp & Hm & Hd) by (unfold s2; by case_bool_decide).
  split; [|split; [by unfold s3; simpl; rewrite Hh|done]].
  apply (node_ok_same cf g' i (set_status Follower s2)); try done.
  apply follower_ok. by apply (node_ok_same cf g' i s1).
Qed.

(** Installing a snapshot that covers the committed prefix [F']. *)
Lemma install_ok g i s T F F' logs :
  ginv vs g → node_ok g i s → m_currentTerm s = T → m_status s = Follower →
  log_ok g i T (hard s) (m_commitIndex s) F → safe g T F' → length F < length F' →
  logs = (if decide (length F' < length (g_log g i)) then drop (length F') (g_log g i) else []) →
  let index := Z.of_nat (length F') in
  ∃ g', evolves i g g' ∧ quiet g g' ∧
    ∀ data, node_ok g' i (save_snapshot data
      (set_lastApplied (Z.max (m_lastApplied s) index)
         (set_commitIndex (Z.max (m_commitIndex s) index) (set_snapshot index (last_term F') logs s)))).
Proof using Type.
  intros Hg Hn HT Hs HF HsF Hlt Hlogs index.
  pose proof (no_term _ _ _ _ Hn) as Hgt. rewrite HT in Hgt.
  pose proof (node_vote cf g i s Hg Hn) as Hvote. rewrite HT in Hvote.
  pose proof (ev_set_term vs g i T Hg Hgt) as Hev1. set (g1 := set_term g i T) in *.
  assert (g_term g1 i = T) as Ht1 by (simpl; by rewrite upd_eq).
  (* what was committed beyond the snapshot agrees with it *)
  assert (∀ n, Z.of_nat n = m_commitIndex s → length F' ≤ n → F' `prefix_of` g_log g i ∧ view F (g_log g i) = g_log g i)
    as Hcommitted.
  { intros n Hnc Hle. pose proof (lo_safe _ _ _ _ _ _ HF) as Hsf. fold (view F (g_log g i)) in Hsf.
    assert (view F (g_log g i) = g_log g i) as Hv.
    { apply view_normal. destruct (lo_mode _ _ _ _ _ _ HF) as [?|[_ ?]]; [done|lia]. }
    split; [|done]. rewrite Hv, <- Hnc, Nat2Z.id in Hsf. pose proof (lo_commit _ _ _ _ _ _ HF).
    etrans; [|apply (prefix_take (g_log g i) n)].
    apply (safe_agree _ _ Hg T T); [apply vs_NoDup|done|done|]. rewrite length_take. lia. }
  set (V' := if decide (length F' < length (g_log g i)) then g_log g i else F').
  assert (∃ g2, evolves i g g2 ∧ quiet g g2 ∧ g_term g2 i = T ∧ g_log g2 i = V' ∧ g_vote g2 = g_vote g ∧
            (∀ p, safe g T p → safe g2 T p)) as (g2 & Hev & Hq & Ht2 & HV2 & Hvo2 & Hsafe2).
  { unfold V'. case_decide as Hd.
    - exists g1. done.
    - exists (replace_log g1 i F'). assert (evolves i g1 (replace_log g1 i F')) as Hev2.
      { apply ev_install; [apply vs_NoDup|apply Hev1|by rewrite Ht1|]. change (g_log g1 i) with (g_log g i). lia. }
      split; [by eapply evolves_trans|]. split; [done|]. split; [done|].
      split; [simpl; by rewrite upd_eq|]. done. }
  exists g2. split; [done|]. split; [done|]. intros data.
  assert (length F' ≤ length V' ∧ logs = drop (length F') V') as [HlV HlogV].
  { unfold V'. rewrite Hlogs. case_decide; [split; [lia|done]|]. split; [done|]. by rewrite drop_ge. }
  assert (F' `prefix_of` V' ∨ (length F' < length V' ∧ (Z.max (m_commitIndex s) index ≤ index)%Z)) as Hmode.
  { unfold V'. case_decide as Hd; [|by left].
    destruct (decide (F' `prefix_of` g_log g i)) as [|Hst]; [by left|right]. split; [done|].
    pose proof (lo_commit _ _ _ _ _ _ HF). destruct (decide (m_commitIndex s ≤ index)%Z); [lia|].
    destruct (Hcommitted (Z.to_nat (m_commitIndex s))); [lia|lia|done]. }
  destruct Hn as [Hm Hlen _ _ _ Hd _ Ha _].
  split; simpl; rewrite ?HT, ?Ht2; try done; try lia.
  - unfold vote_of in *. rewrite Hvo2. done.
  - unfold hard_of_disk. simpl. rewrite Hvote. unfold vote_of. by rewrite Hvo2.
  - exists F'. pose proof (lo_commit _ _ _ _ _ _ HF) as Hcm.
    assert (m_commitIndex s ≤ Z.of_nat (length V'))%Z as HcV by (unfold V'; case_decide; lia).
    split; simpl; rewrite ?HV2, ?Ht2, ?HT; try done; try lia.
    + by apply Hsafe2.
    + apply Hsafe2. destruct (decide (m_commitIndex s ≤ index)%Z) as [Hle|Hgt'].
      * rewrite Z.max_r by lia. unfold index. rewrite Nat2Z.id, take_app_length. done.
      * rewrite Z.max_l by lia. destruct (Hcommitted (Z.to_nat (m_commitIndex s))) as [Hpre Hview]; [lia|lia|].
        assert (F' ++ drop (length F') V' = g_log g i) as ->.
        { unfold V'. case_decide as Hd'; [by apply view_normal|]. lia. }
        rewrite <- Hview. apply HF.
  - congruence.
Qed.

Lemma InstallSnapshot_ok g i s now a :
  ginv vs g → indexed_history g → node_ok g i s →
  snap_ok g (is_term a) (is_lastsnapshotincludeindex a) (is_lastsnapshotincludeterm a) →
  step_ok g i (InstallSnapshot now a s) (λ _ _, True).
Proof using Type.
  intros Hg Hi Hn (F' & Hidx & Hst & HsF). unfold InstallSnapshot.
  destruct (Z.ltb_spec (is_term a) (m_currentTerm s)) as [|Hge]; [by apply step_ok_here|].
  destruct (snap_contact_ok g i s now (is_term a) Hg Hn Hge) as (g1 & Hev1 & Hq1 & Hn3 & Hc3 & Hs3).
  set (s3 := set_leaderContact now _) in *. clearbody s3.
  assert (∀ s' (r : InstallSnapshotResponse), same_core s3 s' → step_ok g i (Ret s' r) (λ _ _, True)) as Hstay.
  { intros s' r Hsame. exists g1. split; [done|]. split; [done|]. split; [|done]. by apply (same_core_ok cf g1 i s3). }
  destruct (Z.leb_spec (is_lastsnapshotincludeindex a) (m_lastSnapshotIncludeIndex s3)) as [|Hlt]; [by apply Hstay|].
  case_match; [by apply Hstay|].
  set (s4 := set_snapshotBuffer EmptyString s3).
  assert (node_ok g1 i s4) as Hn4 by by apply (same_core_ok cf g1 i s3).
  destruct (no_log _ _ _ _ Hn4) as [F HF]. change (m_currentTerm s4) with (m_currentTerm s3) in HF.
  rewrite Hc3 in HF. rewrite Hidx, Hst in *.
  pose proof (log_ok_reads cf _ _ _ _ _ _ (ev_ginv _ _ _ _ Hev1) (ev_indexed _ _ _ _ Hev1 Hi) HF) as Hr.
  change (hard s3) with (hard s4) in Hlt. rewrite (lo_snap _ _ _ _ _ _ HF) in Hlt.
  rewrite (view_last_index s4 _ _ Hr), view_length by apply HF.
  set (logs := if (Z.of_nat (length F') <? _)%Z then _ else _).
  assert (logs = None ∨ logs = Some (if decide (length F' < length (g_log g1 i))
                                     then drop (length F') (g_log g1 i) else [])) as [->|Hlogs].
  { unfold logs. destruct (Z.ltb_spec (Z.of_nat (length F')) (Z.of_nat (length (g_log g1 i)))) as [Hd|Hd].
    - destruct (getSlicesIndexFromLogIndex s4 _) as [k|] eqn:Hk; simpl; [right|by left].
      rewrite decide_True by lia. apply (view_slice s4 _ _ Hr) in Hk as (n & Hn' & Hnl & ->).
      change (hard s3) with (hard s4). rewrite Nat2Z.id, (lo_logs _ _ _ _ _ _ HF), drop_drop. do 2 f_equal. lia.
    - right. by rewrite decide_False by lia. }
  { exists g1. split; [done|]. split; [done|]. apply (node_disk cf g1 i s4 Hn4). }
  rewrite Hlogs.
  destruct (install_ok g1 i s4 (is_term a) F F' _ (ev_ginv _ _ _ _ Hev1) Hn4 Hc3 Hs3 HF
    (evolves_safe vs i g g1 _ _ Hg Hev1 HsF) ltac:(lia) eq_refl) as (g' & Hev & Hq & Hn').
  exists g'. split; [by eapply evolves_trans|]. split; [by eapply quiet_trans|]. split; [|done].
  eapply (same_core_ok cf g' i); [|apply Hn']. done.
Qed.

(** ** Transfers *)

Lemma snapshot_source_ok g i s : node_ok g i s → source_ok g (snapshot_source s).
Proof using Type.
  intros Hn. destruct (no_log _ _ _ _ Hn) as [F HF]. exists F. simpl.
  split; [apply HF|]. split; [apply HF|]. eapply safe_le; [apply HF|apply Hn].
Qed.

Lemma snapshot_chunks_of fuel size me src offset :
  Forall (chunk_of src) (snapshot_chunks fuel size me src offset).
Proof using Type.
  revert offset. induction fuel as [|fuel IH]; intros offset; simpl; [done|].
  case_match; [done|]. constructor; [done|]. apply IH.
Qed.

Lemma snapshot_chunk_reply_ok g i s now src r :
  ginv vs g → node_ok g i s →
  ∃ g', evolves i g g' ∧ quiet g g' ∧ node_ok g' i (snapshot_chunk_reply now src r s).1.
Proof using Type.
  intros Hg Hn. unfold snapshot_chunk_reply.
  assert (∃ g', evolves i g g' ∧ quiet g g' ∧ node_ok g' i s) as Hsame.
  { exists g. split; [by apply evolves_refl|]. done. }
  case_match; [done|]. destruct (Z.ltb_spec (m_currentTerm s) r) as [Hlt|]; [|done]. simpl.
  destruct (persist_ok cf g i _ Hg (adopt_ok cf g i s r Hn Hlt)) as [Hev Hn'].
  eexists. split; [exact Hev|]. split; [done|]. by eapply (same_core_ok cf _ i); [|exact Hn'].
Qed.

Lemma snapshot_finish_ok g i s server src :
  ginv vs g → node_ok g i s → source_ok g src → node_ok g i (snapshot_finish server src s).
Proof using Type.
  intros Hg Hn (F & Hidx & _ & HsF). unfold snapshot_finish. case_match eqn:Hc; [|done].
  apply andb_true_iff in Hc as [Hs%bool_decide_eq_true HT%Z.eqb_eq].
  destruct (leader_facts cf g i s Hg Hn Hs) as (_ & He & _).
  destruct (no_leader _ _ _ _ Hn Hs) as (_ & Hcm & Hmt). destruct (no_lens _ _ _ _ Hn) as [Hl1 Hl2].
  apply set_indexes_ok; try done; [by rewrite length_insert..|].
  intros _ j m Hj. apply list_lookup_insert_Some in Hj as [(-> & <- & _)|[_ Hj]]; [|by apply Hmt].
  rewrite <- HT in HsF.
  pose proof (safe_in_leader _ _ Hg _ _ _ (vs_NoDup cf) HsF (Z.le_refl _) He) as Hpre.
  pose proof (prefix_length _ _ Hpre). rewrite Hidx. split; [lia|]. intros k Hk Hkm Hkt. right.
  pose proof (safe_own _ _ Hg _ _ k HsF He Hpre ltac:(lia) Hkt). lia.
Qed.

(** ** Requests of a leader *)

Lemma build_append_ok g i s server args :
  ginv vs g → indexed_history g → node_ok g i s → m_status s = Leader → server ≠ i →
  build_append s server = Some args → append_ok g i server args.
Proof using Type.
  intros Hg Hi Hn Hs Hne. unfold build_append. rewrite bind_Some. intros ([prev t] & Hprev & Hb).
  destruct (leader_facts cf g i s Hg Hn Hs) as (_ & He & HV).
  destruct (no_leader _ _ _ _ Hn Hs) as ([l Hel] & _ & _).
  destruct (no_log _ _ _ _ Hn) as [F HF]. pose proof (leader_normal cf g i s F Hg Hn Hs HF) as HFV.
  pose proof (log_ok_reads cf _ _ _ _ _ _ Hg Hi HF) as Hr. rewrite view_normal in Hr by done.
  set (W := g_log g i) in *. pose proof (prefix_length _ _ HFV).
  assert (∃ n, prev = Z.of_nat n ∧ length F ≤ n ≤ length W ∧ t = term_at W n) as (n & -> & Hn' & ->).
  { unfold getPrevLogInfo in Hprev. destruct (nth server _ _ =? _)%Z.
    - injection Hprev as <- <-. exists (length F). split; [apply HF|]. split; [lia|].
      rewrite (lo_snapterm _ _ _ _ _ _ HF). unfold last_term. by rewrite (term_at_prefix F W).
    - apply bind_Some in Hprev as (e & (n & Hz & ? & Hen)%(view_log_at s F W Hr) & [= <- <-]).
      pose proof (lookup_lt_Some _ _ _ Hen). exists (S n). split; [done|]. split; [lia|]. simpl. by rewrite Hen. }
  apply bind_Some in Hb as (es & Hes & Hb). revert Hb.
  destruct (_ + _ =? _)%Z; [intros [= <-]|done].
  assert (es = drop n W) as ->.
  { rewrite (lo_snap _ _ _ _ _ _ HF), (lo_logs _ _ _ _ _ _ HF) in Hes. fold W in Hes.
    destruct (Z.eqb_spec (Z.of_nat n) (Z.of_nat (length F))) as [Heq|].
    - injection Hes as <-. f_equal. lia.
    - apply bind_Some in Hes as (k & (m & ? & ? & ->)%(view_slice s F W Hr) & [= <-]).
      rewrite drop_drop. f_equal. lia. }
  split; [done|]. exists l, W. simpl. rewrite Nat2Z.id, length_drop. split; [done|].
  split; [by rewrite HV|]. split; [lia|]. split; [lia|]. split; [done|]. split; [done|].
  split; [apply HF|]. pose proof (lo_safe _ _ _ _ _ _ HF) as Hsafe.
  fold W (view F W) in Hsafe. by rewrite view_normal in Hsafe.
Qed.

Lemma same_core_trans s1 s2 s3 : same_core s1 s2 → same_core s2 s3 → same_core s1 s3.
Proof using Type. intros (? & ? & ? & ?) (? & ? & ? & ?). repeat split; congruence. Qed.

Lemma replicationWorker_ok g i s now server :
  ginv vs g → indexed_history g → node_ok g i s → server ≠ i →
  step_ok g i (replicationWorker now server s)
    (λ g' r, ∀ args, r = SendEntries args → append_ok g' i server args).
Proof using Type.
  intros Hg Hi Hn Hne. unfold replicationWorker.
  case_match; [by apply step_ok_here|]. case_match; [by apply step_ok_here|].
  set (s1 := set_replication _ s). assert (node_ok g i s1) as Hn1 by by apply (same_core_ok cf g i s).
  case_bool_decide as Hs; [|by apply step_ok_here].
  destruct (startReadRound now s1) as [s2|] eqn:Hst; [|by apply (step_ok_exit cf g i s1)].
  pose proof (startRead_core _ _ _ Hst) as Hsame.
  pose proof (same_core_ok cf g i s1 s2 Hsame Hn1) as Hn2. destruct Hsame as (_ & Hp & _).
  destruct (1 <=? _)%Z; [|by apply (step_ok_exit cf g i s1)].
  destruct (_ <=? _)%Z; [by apply step_ok_here|].
  destruct (build_append s2 server) as [args|] eqn:Hb; [|by apply (step_ok_exit cf g i s1)].
  apply step_ok_here; [done..|]. intros ? [= <-].
  eapply build_append_ok; try done. by rewrite Hp.
Qed.

Lemma doHeartBeat_ok g i s now :
  ginv vs g → node_ok g i s → step_ok g i (doHeartBeat now s) (λ _ _, True).
Proof using Type.
  intros Hg Hn. unfold doHeartBeat. case_match; [by apply step_ok_here|].
  case_bool_decide; [|by apply step_ok_here].
  destruct (startReadRound now s) as [s1|] eqn:Hst; [|by eapply step_ok_exit].
  destruct (heartbeat_tasks s1); [|by eapply step_ok_exit].
  apply step_ok_here; [done| |done]. apply (same_core_ok cf g i s); [|done].
  eapply same_core_trans; [by eapply startRead_core|done].
Qed.

Lemma queued_ok g i s op : node_ok g i s → node_ok g i (Start op s).1.
Proof using Type.
  intros Hn. apply (same_core_ok cf g i s); [|done]. unfold Start. case_match; [done|].
  simpl. by case_match.
Qed.

Lemma ReadIndex_ok g i s w deadline timedOut :
  node_ok g i s →
  node_ok g i (ReadIndex_enqueue w deadline s).1 ∧ node_ok g i (ReadIndex_wait w timedOut s).1.
Proof using Type.
  intros Hn. split; apply (same_core_ok cf g i s); try done.
  - unfold ReadIndex_enqueue. by case_match.
  - unfold ReadIndex_wait. repeat (case_match; try done).
Qed.

(** ** Deliveries *)

Lemma applierTicker_ok g i s :
  ginv vs g → indexed_history g → node_ok g i s →
  step_ok g i (applierTicker s) (λ g' msgs, Forall (λ m, delivered_ok g' (i, m)) msgs).
Proof using Type.
  intros Hg Hi Hn. unfold applierTicker. case_match; [by apply step_ok_here|].
  destruct (getApplyLogs s) as [[s' msgs]|] eqn:Ha; [|by eapply step_ok_exit].
  unfold getApplyLogs in Ha. case_match; [|done].
  apply apply_loop_spec in Ha as [(a & -> & Hle) Hm].
  destruct (no_log _ _ _ _ Hn) as [F HF]. pose proof (log_ok_reads cf _ _ _ _ _ _ Hg Hi HF) as Hr.
  apply step_ok_here; [done| |].
  - apply (node_ok_same cf g i (set_lastApplied a s)); try done.
    destruct Hn as [? ? ? ? ? ? ? Hap ?]. split; simpl; try done. lia.
  - eapply Forall_impl; [exact Hm|]. intros m (e & k & -> & Hk & Hrange).
    apply (view_log_at s F _ Hr) in Hk as (n & -> & _ & He).
    exists (m_currentTerm s), (take (Z.to_nat (m_commitIndex s)) (view F (g_log g i))), e.
    split; [apply HF|]. split; [lia|]. split; [|done].
    rewrite lookup_take_lt by lia. rewrite <- He. f_equal. lia.
Qed.

End install.
