(* ===== verification/RaftSafety.v ===== *)
(** * Raft: the group's safety

    Every step of the group preserves the relation of [RaftRel] with a history,
    so every reachable group satisfies the protocol's safety properties. *)

From S2P Require Import Prelude Wire RaftTypes RaftNode RaftCluster RaftGhost RaftMoves RaftEvolve RaftRel RaftView RaftSim RaftReplicate RaftInstall.

#[local] Opaque snapshot_chunk_size.

Section steps.
Context (cf : config).
Implicit Types (g : history) (c : cluster) (T : Z) (i j : nat) (s : Raft).

Notation vs := (vs cf).
Notation evolves := (evolves vs).
Notation node_ok := (node_ok cf).
Notation rel := (rel cf).
Notation step_ok := (step_ok cf).

(** What later groups keep of a history. *)
Record later g g' : Prop := MkLater {
  la_elec : ∀ T x, g_elec g T = Some x → g_elec g' T = Some x;
  la_safe : ∀ T p, safe g T p → safe g' T p;
  la_term : ∀ n, (g_term g n ≤ g_term g' n)%Z;
  la_commit : ∀ T, g_commit g T ≤ g_commit g' T
}.

Lemma later_refl g : later g g.
Proof using Type. done. Qed.

Lemma later_trans g1 g2 g3 : later g1 g2 → later g2 g3 → later g1 g3.
Proof using Type. intros [E1 S1 T1 C1] [E2 S2 T2 C2]. split; intros; etrans || auto; eauto. Qed.

Lemma evolves_later i g g' : ginv vs g → evolves i g g' → later g g'.
Proof using Type. intros Hg Hev. split; [apply Hev| |apply Hev|apply Hev]. intros T p. by apply (safe_ev cf i). Qed.

(** ** One node moves *)

(** The elections of other nodes are not affected by the moves of [i]. *)
Lemma elections_other c g g' i (c0 : nat) T v w :
  rel c g → evolves i g g' → c0 ≠ i → cl_elections c !! (c0, T) = Some (v, w) →
  election_ok cf g' c0 T v w.
Proof using Type.
  intros Hrel Hev Hne Hel. apply (election_ok_ev cf i g g'); [apply Hrel|done| |by apply Hrel].
  intros l. by apply (ev_other_elec _ _ _ _ Hev).
Qed.

Lemma elections_quiet c g g' i :
  rel c g → evolves i g g' → quiet g g' →
  ∀ (c0 : nat) T v w, cl_elections c !! (c0, T) = Some (v, w) → election_ok cf g' c0 T v w.
Proof using Type.
  intros Hrel Hev Hq c0 T v w Hel. apply (election_ok_ev cf i g g'); [apply Hrel|done| |by apply Hrel].
  intros l. by rewrite Hq.
Qed.

(** The elections of [i] are checked separately. *)
Lemma rel_move c g g' i s' e :
  rel c g → evolves i g g' → node_ok g' i s' →
  (∀ (c0 : nat) T v w, e !! (c0, T) = Some (v, w) → election_ok cf g' c0 T v w) →
  rel (Build_cluster (<[i := s']> (cl_nodes c)) (cl_net c) e (cl_transfers c) (cl_delivered c)) g'.
Proof using Type.
  intros [Hg Hi Hsz Hn Hp _ Ht Hd] Hev Hs' He. split; simpl.
  - apply Hev.
  - by apply Hev.
  - by rewrite length_insert.
  - intros j s Hj. apply list_lookup_insert_Some in Hj as [(-> & <- & _)|[Hne Hj]]; [done|].
    apply (node_ok_ev cf i g); auto.
  - eapply Forall_impl; [exact Hp|]. intros p. by apply (packet_ok_ev cf i).
  - done.
  - intros k t Hk. apply (transfer_ok_ev cf i g); eauto.
  - eapply Forall_impl; [exact Hd|]. intros d. by apply (delivered_ok_ev cf i).
Qed.

Lemma rel_quiet c g g' i s' :
  rel c g → evolves i g g' → quiet g g' → node_ok g' i s' → rel (set_node i s' c) g'.
Proof using Type. intros Hrel Hev Hq Hn. apply (rel_move c g); try done. by eapply elections_quiet. Qed.

Lemma rel_restart c g g' i now d :
  rel c g → evolves i g g' → disk_ok g' i d → rel (restart cf now i d c) g'.
Proof using Type.
  intros Hrel Hev Hd. pose proof (rel_move c g g' i (init now (cf_members cf i) d)
    (filter (λ kv, kv.1.1 ≠ i) (cl_elections c)) Hrel Hev (restart_ok cf _ _ _ _ Hd)) as [].
  { intros c0 T v w Hel. apply map_lookup_filter_Some in Hel as [Hel Hne].
    by eapply elections_other. }
  split; try done. simpl. intros k t Hk. apply map_lookup_filter_Some in Hk as [Hk _]. eauto.
Qed.

(** A step of node [i] whose result goes to [k]. *)
Lemma run_rel {A} c g i (o : outcome A) (P : history → A → Prop) now k :
  rel c g → step_ok g i o P →
  (∀ g' s a, rel (set_node i s c) g' → P g' a → rel (k a (set_node i s c)) g') →
  ∃ g', rel (run cf now i o k c) g' ∧ later g g'.
Proof using Type.
  intros Hrel (g' & Hev & Hq & Ho) Hk. exists g'.
  split; [|by apply (evolves_later i); [apply Hrel|]]. unfold run. destruct o as [s a|s].
  - destruct Ho as [Hn HP]. apply Hk; [|done]. by eapply rel_quiet.
  - by eapply rel_restart.
Qed.

Lemma send_rel c g ps : rel c g → Forall (packet_ok g) ps → rel (send ps c) g.
Proof using Type. intros [] Hp. split; try done. simpl. by apply Forall_app. Qed.

Lemma set_node_rel c g i s : rel c g → node_ok g i s → rel (set_node i s c) g.
Proof using Type.
  intros Hrel Hn. eapply rel_quiet; [done| |done|done]. apply evolves_refl, Hrel.
Qed.

Lemma set_transfers_rel c g t :
  rel c g → (∀ k x, t !! k = Some x → transfer_ok g x) → rel (set_transfers t c) g.
Proof using Type. intros [] Ht. by split. Qed.

Lemma delete_transfer_rel c g k : rel c g → rel (set_transfers (delete k (cl_transfers c)) c) g.
Proof using Type.
  intros Hrel. apply set_transfers_rel; [done|]. intros k' x Hk. apply lookup_delete_Some in Hk as [_ Hk].
  by eapply Hrel.
Qed.

Lemma insert_transfer_rel c g k x :
  rel c g → transfer_ok g x → rel (set_transfers (<[k := x]> (cl_transfers c)) c) g.
Proof using Type.
  intros Hrel Hx. apply set_transfers_rel; [done|]. intros k' y Hk.
  apply lookup_insert_Some in Hk as [[_ <-]|[_ Hk]]; [done|]. by eapply Hrel.
Qed.

(** ** Elections *)

(** Node [i] changes the election [(i, T)] and possibly wins it. *)
Lemma rel_election c g g' i T s' v w :
  rel c g → evolves i g g' → (∀ T', T' ≠ T → g_elec g' T' = g_elec g T') → node_ok g' i s' →
  election_ok cf g' i T v w → rel (set_election (i, T) (v, w) (set_node i s' c)) g'.
Proof using Type.
  intros Hrel Hev Hq Hn Hel. apply (rel_move c g); try done. simpl. intros c0 T0 v0 w0 Hk.
  apply lookup_insert_Some in Hk as [[? ?]|[Hne Hk]]; [by simplify_eq|].
  destruct (decide (c0 = i)) as [->|Hc]; [|by eapply elections_other].
  apply (election_ok_ev cf i g g'); [apply Hrel|done| |by apply Hrel].
  intros l. rewrite Hq; [done|]. congruence.
Qed.

Lemma timeout_rel c g i s now c' :
  rel c g → cl_nodes c !! i = Some s → step cf (ElectionTimeout i now) c = Some c' → ∃ g', rel c' g' ∧ later g g'.
Proof using Type.
  intros Hrel Hs. simpl. rewrite Hs. simpl. intros [= <-].
  assert (i < cf_size cf) as Hi.
  { rewrite <- (rel_size _ _ _ Hrel). by eapply lookup_lt_Some. }
  destruct (doElection_ok cf g i s now) as (g' & Hev & Hm); [apply Hrel|apply Hrel|done|by eapply Hrel|].
  exists g'. split; [|by apply (evolves_later i); [apply Hrel|]].
  destruct (doElection now s) as [s' [[v reqs]|]|s']; simpl.
  - destruct Hm as (Hn & Hq & Hel & Hr). apply send_rel; [by eapply rel_election|].
    apply Forall_fmap. eapply Forall_impl; [exact Hr|]. by intros [j a].
  - destruct Hm as [Hq Hn]. by eapply rel_quiet.
  - by eapply rel_restart.
Qed.

Lemma vote_reply_rel c g src dst a r now c' :
  rel c g → packet_ok g (PVoteReply src dst a r) → deliver cf now (PVoteReply src dst a r) c = Some c' →
  ∃ g', rel c' g' ∧ later g g'.
Proof using Type.
  intros Hrel Hp. simpl. destruct (cl_nodes c !! dst) as [s|] eqn:Hs; [|done]. simpl.
  destruct (cl_elections c !! (dst, rv_term a)) as [[v w]|] eqn:Hel; [|done]. simpl.
  case_bool_decide as Hin; [|done]. intros [= <-].
  destruct (sendRequestVote_ok cf g dst s (rv_term a) v w src r) as (g' & Hev & Hm);
    [apply Hrel|apply Hrel|by eapply Hrel|by eapply Hrel|done|done|].
  exists g'. split; [|by apply (evolves_later dst); [apply Hrel|]].
  destruct (sendRequestVote r v s) as [s' v'|s']; simpl.
  - destruct Hm as (Hn & Hq & Hel'). by eapply rel_election.
  - by eapply rel_restart.
Qed.

(** ** Deliveries *)

Lemma snap_reply_rel c g src dst a r now c' :
  rel c g → deliver cf now (PSnapReply src dst a r) c = Some c' → ∃ g', rel c' g' ∧ later g g'.
Proof using Type.
  intros Hrel. simpl. destruct (cl_nodes c !! dst) as [s|] eqn:Hs; [|done]. simpl.
  destruct (cl_transfers c !! (dst, src)) as [[[source [|chunk rest]]|]|] eqn:Ht; try done. simpl.
  case_bool_decide; [|done].
  destruct (rel_transfers _ _ _ Hrel _ _ Ht) as [Hsrc Hch]. apply Forall_cons in Hch as [_ Hrest].
  destruct (snapshot_chunk_reply_ok cf g dst s now source r) as (g' & Hev & Hq & Hn);
    [apply Hrel|by eapply Hrel|].
  assert (source_ok g' source) as Hsrc' by (eapply (snap_ok_ev cf); [apply Hrel|done|done]).
  destruct (snapshot_chunk_reply now source r s) as [s' continue]. simpl in Hn.
  intros [= <-]. exists g'. split; [|by apply (evolves_later dst); [apply Hrel|]].
  pose proof (rel_quiet c g g' dst s' Hrel Hev Hq Hn) as Hrel'.
  destruct continue; [destruct rest as [|a' rest]|].
  - apply (delete_transfer_rel (set_node dst (snapshot_finish src source s') c)).
    eapply rel_quiet; try done. apply snapshot_finish_ok; [apply Hev|done|done].
  - by apply (insert_transfer_rel (set_node dst s' c)).
  - by apply (delete_transfer_rel (set_node dst s' c)).
Qed.

Lemma deliver_rel c g p now c' :
  rel c g → packet_ok g p → deliver cf now p c = Some c' → ∃ g', rel c' g' ∧ later g g'.
Proof using Type.
  intros Hrel Hp.
  pose proof (rel_ginv _ _ _ Hrel) as Hg. pose proof (rel_indexed _ _ _ Hrel) as Hi.
  destruct p as [src dst a|src dst a r|src dst a|src dst a r|src dst a|src dst a r].
  2: by apply (vote_reply_rel c g). 5: by apply (snap_reply_rel c g).
  all: simpl; destruct (cl_nodes c !! dst) as [s|] eqn:Hs; [|done]; simpl; intros [= <-];
    pose proof (rel_nodes _ _ _ Hrel _ _ Hs) as Hn; (eapply run_rel; [done| |]).
  - by apply RequestVote_ok.
  - intros g' s' r Hr Hp'. apply send_rel; [done|]. by constructor.
  - by apply AppendEntries1_ok.
  - intros g' s' r Hr Hp'. apply send_rel; [done|]. by constructor.
  - by apply HandleAppendEntriesReply_ok.
  - done.
  - by apply InstallSnapshot_ok.
  - intros g' s' r Hr _. apply send_rel; [done|]. by constructor.
Qed.

(** ** Every step *)

Lemma transfer_start_rel c g i server c' :
  rel c g → step cf (TransferStart i server) c = Some c' → ∃ g', rel c' g' ∧ later g g'.
Proof using Type.
  intros Hrel. unfold step. destruct (cl_nodes c !! i) as [s|] eqn:Hs; [|done]. cbn [mbind option_bind].
  destruct (cl_transfers c !! (i, server)) as [[?|]|]; try done. cbn [mbind option_bind].
  pose proof (snapshot_chunks_of (S (String.length (ss_data (snapshot_source s)))) snapshot_chunk_size
    (m_me s) (snapshot_source s) 0) as Hch.
  revert Hch. generalize (snapshot_chunks (S (String.length (ss_data (snapshot_source s))))
    snapshot_chunk_size (m_me s) (snapshot_source s) 0). intros [|ch chs] Hch [= <-]; exists g; (split; [|done]).
  { by apply delete_transfer_rel. }
  apply insert_transfer_rel; [done|]. split; [|done]. eapply snapshot_source_ok. by eapply Hrel.
Qed.

Lemma step_rel c g e c' : rel c g → step cf e c = Some c' → ∃ g', rel c' g' ∧ later g g'.
Proof using Type.
  intros Hrel Hstep.
  pose proof (rel_ginv _ _ _ Hrel) as Hg. pose proof (rel_indexed _ _ _ Hrel) as Hi.
  destruct e as [i now|k now|i now|i server now|i server|i server|i server|i op|i now|i now
                |i index snapshot now|i w deadline|i w timedOut|i now].
  5: by eapply transfer_start_rel.
  5: { simpl in Hstep. destruct (cl_transfers c !! (i, server)) as [[[src [|ch chs]]|]|] eqn:Ht; try done.
       simplify_eq/=. exists g. split; [|done]. apply send_rel; [done|]. constructor; [|done].
       destruct (rel_transfers _ _ _ Hrel _ _ Ht) as [Hsrc [(Ht' & Hx & Hy) _]%Forall_cons].
       simpl. by rewrite Ht', Hx, Hy. }
  5: { simplify_eq/=. exists g. split; [|done]. by apply delete_transfer_rel. }
  2: { simpl in Hstep. destruct (cl_net c !! k) as [p|] eqn:Hk; [|done]. eapply deliver_rel; [done| |done].
       by eapply Forall_lookup_1; [apply Hrel|]. }
  all: assert (∃ s, cl_nodes c !! i = Some s) as [s Hs]
         by (simpl in Hstep; destruct (cl_nodes c !! i) as [s|]; [by exists s|done]).
  all: pose proof (rel_nodes _ _ _ Hrel _ _ Hs) as Hn.
  1: by eapply timeout_rel.
  all: simpl in Hstep; rewrite Hs in Hstep; simpl in Hstep.
  - injection Hstep as <-. eapply run_rel; [done|by apply doHeartBeat_ok|done].
  - case_match eqn:Hguard; [done|]. apply orb_false_iff in Hguard as [Hne%bool_decide_eq_false _].
    injection Hstep as <-. eapply run_rel; [done|by apply replicationWorker_ok|].
    intros g' s' [| |args] Hr HP; [done| |].
    + by apply (insert_transfer_rel (set_node i s' c)).
    + apply send_rel; [done|]. constructor; [|done]. by apply HP.
  - injection Hstep as <-. exists g. split; [|done]. apply set_node_rel; [done|]. by apply queued_ok.
  - injection Hstep as <-. eapply run_rel; [done| |done]. apply raftPollerTicker_ok; [done..|].
    by apply (same_core_ok cf g i s).
  - injection Hstep as <-. eapply run_rel; [done|by apply applierTicker_ok|].
    intros g' s' msgs [] HP. split; try done. apply Forall_app. split; [done|]. by apply Forall_fmap.
  - injection Hstep as <-. eapply run_rel; [done|by apply Snapshot_ok|done].
  - injection Hstep as <-. exists g. split; [|done]. apply set_node_rel; [done|].
    by destruct (ReadIndex_ok cf g i s w deadline false Hn).
  - injection Hstep as <-. exists g. split; [|done]. apply set_node_rel; [done|].
    by destruct (ReadIndex_ok cf g i s w 0 timedOut Hn).
  - injection Hstep as <-. exists g. split; [|done]. eapply rel_restart; [done|by apply evolves_refl|]. by eapply node_disk.
Qed.

Lemma initial_rel : rel (initial cf) start_history.
Proof using Type.
  split; simpl; try done.
  - apply start_ginv.
  - by rewrite length_fmap, length_seq.
  - intros i s Hs. apply list_lookup_fmap_Some in Hs as (n & -> & Hn).
    apply lookup_seq in Hn as [-> _]. apply restart_ok. exists []. simpl.
    split; [done|]. split; [lia|]. split; by left.
Qed.

Lemma run_events_rel es c g c' :
  rel c g → run_events cf es c = Some c' → ∃ g', rel c' g' ∧ later g g'.
Proof using Type.
  revert c g. induction es as [|e es IH]; intros c g Hrel; simpl.
  - intros [= <-]. by exists g.
  - destruct (step cf e c) as [c1|] eqn:Hstep; [|done]. simpl. intros Hes.
    destruct (step_rel _ _ _ _ Hrel Hstep) as (g1 & Hrel1 & Hl1).
    destruct (IH _ _ Hrel1 Hes) as (g2 & Hrel2 & Hl2). exists g2. eauto using later_trans.
Qed.

Lemma reachable_rel c : reachable cf c → ∃ g, rel c g.
Proof using Type.
  intros [es Hes]. destruct (run_events_rel _ _ _ _ initial_rel Hes) as (g & Hrel & _). by exists g.
Qed.

End steps.
