(* ===== verification/RaftTheorems.v ===== *)
(** * Raft: what a group of nodes guarantees

    The safety properties of the protocol, for the group of [RaftCluster] under
    any order, loss, duplication and delay of messages, any number of crashes
    and restarts, log compaction and snapshot transfer. *)

From S2P Require Import Prelude Wire RaftTypes RaftNode RaftCluster RaftGhost RaftMoves RaftEvolve RaftRel RaftView RaftSim RaftReplicate RaftInstall RaftSafety.

(** ** A run of three voters

    Node 0 is elected and commits one proposal with node 1; it crashes, and
    node 1 is elected after it. *)

Definition demo_config : config := Build_config [1; 2; 3]%N [false; false; false].

Definition demo_op : Op := Build_Op "Put" "k" "v" "c" 1 EmptyString.

Definition demo_elect : list event := [ElectionTimeout 0 0; Deliver 0 0; Deliver 2 0].

Definition demo_commit : list event :=
  [Propose 0 demo_op; Poll 0 0; HeartBeat 0 0; Replicate 0 1 0; Deliver 3 0; Deliver 4 0;
   ApplyCommitted 0 0; HeartBeat 0 0; Replicate 0 1 0; Deliver 5 0; ApplyCommitted 1 0].

Definition demo_failover : list event :=
  [Crash 0 0; ElectionTimeout 1 10000; Deliver 7 10000; Deliver 9 10000].

Definition demo_run (es : list event) (c : cluster) : cluster :=
  default c (run_events demo_config es c).

Definition demo_led : cluster := demo_run demo_elect (initial demo_config).
Definition demo_done : cluster := demo_run demo_commit demo_led.
Definition demo_next : cluster := demo_run demo_failover demo_done.

Definition demo_node (c : cluster) (i : nat) : Raft :=
  nth i (cl_nodes c) (init 0 (cf_members demo_config i) empty_disk).

Lemma demo_led_reachable : reachable demo_config demo_led.
Proof. exists demo_elect. vm_compute. reflexivity. Qed.

Lemma demo_done_reachable : reachable demo_config demo_done.
Proof. exists (demo_elect ++ demo_commit). vm_compute. reflexivity. Qed.

Section safety.
Context (cf : config).
Implicit Types (c : cluster) (i j : nat) (s : Raft).

Notation reachable := (reachable cf).
Notation rel := (rel cf).

(** A group and a later one, with their histories. *)
Lemma reachable_later c es c' :
  reachable c → run_events cf es c = Some c' → ∃ g g', rel c g ∧ rel c' g' ∧ later g g'.
Proof using Type.
  intros [g Hrel]%reachable_rel Hes. destruct (run_events_rel cf _ _ _ _ Hrel Hes) as (g' & ? & ?).
  by exists g, g'.
Qed.

Lemma leader_elected c g i s :
  rel c g → cl_nodes c !! i = Some s → m_status s = Leader →
  ∃ l, g_elec g (m_currentTerm s) = Some (i, l).
Proof using Type. intros Hrel Hs Hl. by destruct (no_leader _ _ _ _ (rel_nodes _ _ _ Hrel _ _ Hs) Hl). Qed.

(** The entries a node retains are those of its log in the history. *)
Lemma retained_entry c g i s e :
  rel c g → cl_nodes c !! i = Some s → e ∈ m_logs s →
  ∃ k, logindex e = Z.of_nat (S k) ∧ g_log g i !! k = Some e ∧
       (m_lastSnapshotIncludeIndex s ≤ Z.of_nat k)%Z.
Proof using Type.
  intros Hrel Hs He. destruct (no_log _ _ _ _ (rel_nodes _ _ _ Hrel _ _ Hs)) as [F HF].
  rewrite (lo_logs _ _ _ _ _ _ HF) in He. apply list_elem_of_lookup in He as [n Hn].
  rewrite lookup_drop in Hn. exists (length F + n). split; [|split; [done|]].
  - assert (indexed (g_log g i)) as Hi.
    { eapply rooted_indexed; [apply Hrel|]. apply (gi_rooted _ _ (rel_ginv _ _ _ Hrel)). }
    rewrite (Hi _ _ Hn). lia.
  - rewrite (lo_snap _ _ _ _ _ _ HF). lia.
Qed.

(** What a node knows to be committed and still has is part of a safe prefix. *)
Lemma committed_entry c g i s e k :
  rel c g → cl_nodes c !! i = Some s → g_log g i !! k = Some e →
  (m_lastSnapshotIncludeIndex s ≤ Z.of_nat k)%Z → (Z.of_nat (S k) ≤ m_commitIndex s)%Z →
  ∃ p, safe g (m_currentTerm s) p ∧ p !! k = Some e.
Proof using Type.
  intros Hrel Hs He Hsn Hc. destruct (no_log _ _ _ _ (rel_nodes _ _ _ Hrel _ _ Hs)) as [F HF].
  rewrite (lo_snap _ _ _ _ _ _ HF) in Hsn. eexists. split; [apply HF|].
  rewrite lookup_take_lt, lookup_app_r, lookup_drop by lia. rewrite <- He. f_equal. lia.
Qed.

(** [C7] Election safety: at most one node is ever leader of a term.  If node
    [i] leads a term in a reachable group and node [j] leads the same term in
    this or any later state of the run, then [i] and [j] are the same node,
    whatever messages were lost, repeated or reordered and whichever nodes
    crashed and restarted in between. *)
Theorem raft_election_safety c es c' i j s s' :
  reachable c → run_events cf es c = Some c' →
  cl_nodes c !! i = Some s → m_status s = Leader →
  cl_nodes c' !! j = Some s' → m_status s' = Leader →
  m_currentTerm s = m_currentTerm s' → i = j.
Proof using Type.
  intros Hr Hes Hi Hli Hj Hlj HT.
  destruct (reachable_later c es c' Hr Hes) as (g & g' & Hrel & Hrel' & [Hl _ _ _]).
  destruct (leader_elected c g i s Hrel Hi Hli) as [l Hel%Hl].
  destruct (leader_elected c' g' j s' Hrel' Hj Hlj) as [l' Hel']. congruence.
Qed.

(** [C1] State machine safety: no two nodes ever deliver different commands at
    the same log index to their state machines, before or after crashes,
    restarts, elections and snapshots. *)
Theorem raft_state_machine_safety c i j cmd cmd' index :
  reachable c → (i, ApplyCommand cmd index) ∈ cl_delivered c →
  (j, ApplyCommand cmd' index) ∈ cl_delivered c → cmd = cmd'.
Proof using Type.
  intros [g Hrel]%reachable_rel Hi Hj. pose proof (rel_delivered _ _ _ Hrel) as Hd.
  rewrite Forall_forall in Hd. apply Hd in Hi as (T & p & e & Hs & _ & He & <-).
  apply Hd in Hj as (T' & p' & e' & Hs' & _ & He' & <-).
  f_equal. pose proof (vs_NoDup cf) as Hnd. pose proof (rel_ginv _ _ _ Hrel) as Hg.
  destruct (le_ge_dec (length p) (length p')).
  - pose proof (safe_agree _ _ Hg _ _ _ _ Hnd Hs Hs' ltac:(lia)) as Hp.
    rewrite (prefix_lookup_Some _ _ _ _ He Hp) in He'. congruence.
  - pose proof (safe_agree _ _ Hg _ _ _ _ Hnd Hs' Hs ltac:(lia)) as Hp.
    rewrite (prefix_lookup_Some _ _ _ _ He' Hp) in He. congruence.
Qed.

(** [C9] Leader completeness: an entry some node knows to be committed is in
    the log of every leader of the same or a later term, now and in every later
    state of the run, unless the leader has compacted it into its snapshot. *)
Theorem raft_leader_completeness c es c' i j s s' e :
  reachable c → run_events cf es c = Some c' →
  cl_nodes c !! i = Some s → e ∈ m_logs s → (logindex e ≤ m_commitIndex s)%Z →
  cl_nodes c' !! j = Some s' → m_status s' = Leader → (m_currentTerm s ≤ m_currentTerm s')%Z →
  (m_lastSnapshotIncludeIndex s' < logindex e)%Z → e ∈ m_logs s'.
Proof using Type.
  intros Hr Hes Hi He Hc Hj Hlj HT Hsn.
  destruct (reachable_later c es c' Hr Hes) as (g & g' & Hrel & Hrel' & [_ Hsafe _ _]).
  destruct (retained_entry c g i s e Hrel Hi He) as (k & Hk & Hek & Hsk). rewrite Hk in *.
  destruct (committed_entry c g i s e k Hrel Hi Hek Hsk Hc) as (p & Hp%Hsafe & Hpk).
  pose proof (rel_nodes _ _ _ Hrel' _ _ Hj) as Hn. pose proof (rel_ginv _ _ _ Hrel') as Hg'.
  destruct (leader_facts cf g' j s' Hg' Hn Hlj) as (_ & Hel & HV).
  pose proof (safe_in_leader _ _ Hg' _ _ _ (vs_NoDup cf) Hp HT Hel) as Hpre.
  destruct (no_log _ _ _ _ Hn) as [F HF]. rewrite (lo_snap _ _ _ _ _ _ HF) in Hsn.
  rewrite (lo_logs _ _ _ _ _ _ HF), HV. apply list_elem_of_lookup. exists (k - length F).
  rewrite lookup_drop. replace (length F + (k - length F)) with k by lia. by eapply prefix_lookup_Some.
Qed.

(** [C21] Log matching: when the logs of two nodes have an entry of the same
    index and term, they agree on every entry up to it that both retain. *)
Theorem raft_log_matching c i j s s' e e' d d' :
  reachable c → cl_nodes c !! i = Some s → cl_nodes c !! j = Some s' →
  e ∈ m_logs s → e' ∈ m_logs s' → logindex e = logindex e' → logterm e = logterm e' →
  d ∈ m_logs s → d' ∈ m_logs s' → logindex d = logindex d' → (logindex d ≤ logindex e)%Z →
  d = d'.
Proof using Type.
  intros [g Hrel]%reachable_rel Hi Hj He He' Hx Ht Hd Hd' Hxd Hle.
  destruct (retained_entry c g i s e Hrel Hi He) as (k & Hk & Hek & _).
  destruct (retained_entry c g j s' e' Hrel Hj He') as (k' & Hk' & Hek' & _).
  destruct (retained_entry c g i s d Hrel Hi Hd) as (n & Hn & Hdn & _).
  destruct (retained_entry c g j s' d' Hrel Hj Hd') as (n' & Hn' & Hdn' & _).
  assert (k' = k) as -> by lia. assert (n' = n) as -> by lia.
  pose proof (gi_rooted _ _ (rel_ginv _ _ _ Hrel)) as Hroot.
  pose proof (lookup_lt_Some _ _ _ Hek). pose proof (lookup_lt_Some _ _ _ Hek').
  assert (take (S k) (g_log g i) = take (S k) (g_log g j)) as Heq.
  { apply (rooted_matching g); [done|done|lia|lia|]. simpl. by rewrite Hek, Hek'. }
  apply (f_equal (lookup n)) in Heq. rewrite !lookup_take_lt in Heq by lia. congruence.
Qed.

End safety.

Lemma raft_election_safety_witness :
  m_status (demo_node demo_led 0) = Leader ∧ m_status (demo_node demo_done 0) = Leader ∧ 0 = 0.
Proof.
  split; [reflexivity|]. split; [vm_compute; reflexivity|].
  apply (raft_election_safety demo_config demo_led demo_commit demo_done 0 0
           (demo_node demo_led 0) (demo_node demo_done 0));
    [apply demo_led_reachable|vm_compute; reflexivity..].
Defined.

(** The command both nodes of the run deliver second. *)
Definition demo_command : string := Op_asString demo_op.

Lemma raft_state_machine_safety_witness :
  (0, ApplyCommand demo_command 2) ∈ cl_delivered demo_done ∧
  (1, ApplyCommand demo_command 2) ∈ cl_delivered demo_done ∧ demo_command = demo_command.
Proof.
  assert ((0, ApplyCommand demo_command 2) ∈ cl_delivered demo_done) as H0.
  { apply list_elem_of_lookup. exists 1. vm_compute. reflexivity. }
  assert ((1, ApplyCommand demo_command 2) ∈ cl_delivered demo_done) as H1.
  { apply list_elem_of_lookup. exists 3. vm_compute. reflexivity. }
  split; [exact H0|]. split; [exact H1|].
  exact (raft_state_machine_safety demo_config demo_done 0 1 _ _ 2 demo_done_reachable H0 H1).
Defined.

Definition demo_entry : LogEntry := Build_LogEntry demo_command 1 2.

Lemma raft_leader_completeness_witness :
  m_status (demo_node demo_next 1) = Leader ∧ demo_entry ∈ m_logs (demo_node demo_next 1).
Proof.
  split; [vm_compute; reflexivity|].
  apply (raft_leader_completeness demo_config demo_done demo_failover demo_next 0 1
           (demo_node demo_done 0) (demo_node demo_next 1) demo_entry demo_done_reachable).
  - vm_compute. reflexivity.
  - vm_compute. reflexivity.
  - apply list_elem_of_lookup. exists 1. vm_compute. reflexivity.
  - vm_compute. discriminate.
  - vm_compute. reflexivity.
  - vm_compute. reflexivity.
  - vm_compute. discriminate.
  - vm_compute. reflexivity.
Defined.

Definition demo_noop : LogEntry := Build_LogEntry (noop_command 1) 1 1.

Lemma raft_log_matching_witness :
  demo_noop ∈ m_logs (demo_node demo_done 0) ∧ demo_noop ∈ m_logs (demo_node demo_done 1) ∧
  demo_noop = demo_noop.
Proof.
  assert (∀ i, i < 2 → demo_noop ∈ m_logs (demo_node demo_done i) ∧
                       demo_entry ∈ m_logs (demo_node demo_done i)) as H.
  { intros [|[|i]] Hi; [..|lia];
      (split; apply list_elem_of_lookup; [exists 0|exists 1]; vm_compute; reflexivity). }
  destruct (H 0) as [H0 H0']; [lia|]. destruct (H 1) as [H1 H1']; [lia|].
  split; [exact H0|]. split; [exact H1|].
  apply (raft_log_matching demo_config demo_done 0 1 (demo_node demo_done 0) (demo_node demo_done 1)
           demo_entry demo_entry demo_noop demo_noop demo_done_reachable);
    try (vm_compute; reflexivity); try assumption.
  vm_compute. discriminate.
Defined.

(** ** Two behaviours of the code the safety properties do not exclude *)

(** Node 0 compacts its log, restarts, is elected again with commit index 0,
    and brings node 2 up to date with its snapshot. *)
Definition demo_resumed : list event :=
  [Compact 0 2 "image" 0; Crash 0 0; ElectionTimeout 0 10000; Deliver 7 10000; Deliver 9 10000;
   HeartBeat 0 10000; Replicate 0 2 10000; Deliver 10 10000; Deliver 11 10000; HeartBeat 0 10000;
   Replicate 0 2 10000; TransferStart 0 2; TransferSend 0 2; Deliver 12 10000; Deliver 13 10000;
   Propose 0 demo_op].

(** A leader that restarted from a snapshot has commit index 0.  Once a snapshot
    transfer has set a follower's match index and before an entry of the new
    term is acknowledged, [leaderUpdateCommitIndex] scans below the snapshot
    boundary and the assertion of [getLogTermFromLogIndex] ends the process: the
    next proposal makes it exit. *)
Theorem restarted_leader_aborts :
  let s := demo_node (demo_run demo_resumed demo_done) 0 in
  reachable demo_config (demo_run demo_resumed demo_done) ∧ m_status s = Leader ∧
  (m_commitIndex s < m_lastSnapshotIncludeIndex s)%Z ∧
  raftPollerTicker (poll_batch s).1 (poll_batch s).2 =
    Exit (set_confChangePending false (poll_batch s).2).
Proof.
  split.
  { exists (demo_elect ++ demo_commit ++ demo_resumed). vm_compute. reflexivity. }
  vm_compute. done.
Qed.

(** The two chunks of a snapshot, and a follower that restarts between them. *)
Definition demo_source : SnapshotSource := Build_SnapshotSource 1 2 1 "ab".

Definition demo_chunks : list InstallSnapshotRequest := snapshot_chunks 3 1 0 demo_source 0.

(** A chunk beyond the end of the receive buffer is appended to it, so the second
    chunk alone is installed as the snapshot, and acknowledged. *)
Theorem truncated_snapshot_installed :
  let fresh := init 0 (cf_members demo_config 2) empty_disk in
  match demo_chunks with
  | [a; b] =>
      let s1 := final (InstallSnapshot 0 a fresh) in
      let restarted := init 0 (cf_members demo_config 2) (disk s1) in
      let s2 := final (InstallSnapshot 0 b restarted) in
      InstallSnapshot 0 a fresh = Ret s1 1%Z ∧ InstallSnapshot 0 b restarted = Ret s2 1%Z ∧
      m_lastSnapshotIncludeIndex s2 = ss_index demo_source ∧
      d_snapshot (disk s2) = "b" ∧ ss_data demo_source = "ab"
  | _ => False
  end.
Proof. vm_compute. done. Qed.
