(* ===== verification/RaftReads.v ===== *)
(** * Raft: linearizable reads

    [ReadIndex] (src/src/raft/raft.cpp) queues a waiter; a round for the queued
    waiters takes the commit index and a context, sends the context with the
    AppendEntries requests, and is complete when a majority of the voters has
    answered a request of the round.  The result is linearizable: the index that a
    successful [ReadIndex] returns is not below the commit index that any node had
    when it was called. *)

From S2P Require Import Prelude Wire RaftTypes RaftNode RaftCluster RaftGhost RaftMoves RaftEvolve RaftRel RaftView RaftSim RaftReplicate RaftInstall RaftSafety RaftTheorems.

#[local] Opaque snapshot_chunk_size.

(** ** What operations do to the reads of a node *)

Definition idle (s : Raft) : Prop := rd_pending (reads s) = [] ∧ rd_active (reads s) = None.

(** The waiters that changed have failed. *)
Definition only_failed (ws ws' : gmap nat ReadWaiter) : Prop :=
  ∀ w x, ws' !! w = Some x → ws !! w = Some x ∨ rr_status (rw_result x) ≠ ReadOk.

Lemma only_failed_refl ws : only_failed ws ws.
Proof. by left. Qed.

Lemma finish_waiters_failed result ids ws :
  rr_status result ≠ ReadOk → only_failed ws (finish_waiters result ids ws).
Proof.
  intros Hr. induction ids as [|i ids IH]; [apply only_failed_refl|]. intros w x. simpl.
  destruct (decide (i = w)) as [->|Hne].
  - rewrite lookup_alter_eq, fmap_Some. intros (y & Hy & ->). by right.
  - rewrite lookup_alter_ne by done. apply IH.
Qed.

Lemma only_failed_trans a b c : only_failed a b → only_failed b c → only_failed a c.
Proof. intros H1 H2 w x Hx. destruct (H2 w x Hx) as [Hb|?]; [by apply H1|by right]. Qed.

(** One change of the reads, but for the start of a round; [ack context term
    server] says that an answer of [server] may be counted for the round. *)
Inductive micro (ack : N → Z → nat → Prop) (s : Raft) : Raft → Prop :=
| MKeep s' :
    reads s' = reads s → m_currentTerm s' = m_currentTerm s → m_status s' = m_status s →
    members s' = members s → micro ack s s'
| MStop s' :
    idle s' → only_failed (rd_waiters (reads s)) (rd_waiters (reads s')) →
    (rd_nextContext (reads s') ≤ rd_nextContext (reads s))%N → m_status s' ≠ Leader → micro ack s s'
| MAck round server :
    m_status s = Leader → rd_active (reads s) = Some round →
    ack (round_context round) (round_term round) server →
    let r := reads s in
    micro ack s
      (set_reads (Build_Reads (rd_nextContext r) (rd_pending r)
        (Some (Build_ReadRound (round_context round) (round_term round) (round_readIndex round)
                 ({[ Z.of_nat server ]} ∪ round_acknowledgedPeers round) (round_waiters round)))
        (rd_waiters r) (rd_requests r) (rd_rounds r) (rd_completed r)) s)
| MComplete now : micro ack s (completeReadRoundIfQuorumLocked now s)
| MRemove w : micro ack s (removeReadWaiterLocked w s).

(** The context of the next round, and the round itself. *)
Definition next_context (s : Raft) : N :=
  let context := rd_nextContext (reads s) +₆₄ 1 in
  if (context =? 0)%N then context +₆₄ 1 else context.

Definition start_round (s : Raft) : Raft :=
  let r := reads s in
  set_reads (Build_Reads (next_context s) []
    (Some (Build_ReadRound (next_context s) (m_currentTerm s) (m_commitIndex s) {[ Z.of_nat (m_me s) ]}
             (rd_pending r)))
    (rd_waiters r) (rd_requests r) (rd_rounds r +₆₄ 1) (rd_completed r)) s.

(** What an operation of a node that does not win an election does. *)
Inductive path (ack : N → Z → nat → Prop) (s s' : Raft) : Prop :=
| PathPlain : rtc (micro ack) s s' → path ack s s'
| PathRound s1 :
    hard s1 = hard s → progress s1 = progress s → members s1 = members s → reads s1 = reads s →
    m_status s = Leader → rd_active (reads s) = None →
    hasCommittedEntryInCurrentTermLocked s1 = Some true →
    rtc (micro ack) (start_round s1) s' → path ack s s'.

(** Winning an election starts without reads. *)
Record won (s s' : Raft) : Prop := MkWon {
  wn_before : m_status s ≠ Leader;
  wn_after : m_status s' = Leader;
  wn_idle : idle s';
  wn_failed : only_failed (rd_waiters (reads s)) (rd_waiters (reads s'));
  wn_context : rd_nextContext (reads s') = rd_nextContext (reads s)
}.

(** A node that is not leader has no reads. *)
Definition quiet_reads (s : Raft) : Prop := m_status s ≠ Leader → idle s.

(** ** The operations *)

Lemma abort_idle status s : idle (abortReadIndexLocked status s).
Proof. done. Qed.

Lemma abort_failed status s :
  status ≠ ReadOk →
  only_failed (rd_waiters (reads s)) (rd_waiters (reads (abortReadIndexLocked status s))).
Proof.
  intros Hs. unfold abortReadIndexLocked. simpl. destruct (rd_active (reads s)).
  - eapply only_failed_trans; [|by apply finish_waiters_failed]. by apply finish_waiters_failed.
  - by apply finish_waiters_failed.
Qed.

Section operations.
Context (ack : N → Z → nat → Prop).
Notation micro := (micro ack).
Notation path := (path ack).
Implicit Types (s : Raft).

Lemma path_keep s s' :
  reads s' = reads s → m_currentTerm s' = m_currentTerm s → m_status s' = m_status s →
  members s' = members s → path s s'.
Proof using Type. intros. by apply PathPlain, rtc_once, MKeep. Qed.

Lemma path_stop s s' :
  idle s' → only_failed (rd_waiters (reads s)) (rd_waiters (reads s')) →
  (rd_nextContext (reads s') ≤ rd_nextContext (reads s))%N → m_status s' ≠ Leader → path s s'.
Proof using Type. intros. by apply PathPlain, rtc_once, MStop. Qed.

Lemma path_refl s : path s s.
Proof using Type. by apply path_keep. Qed.

Lemma path_trans_micro s s1 s' : path s s1 → micro s1 s' → path s s'.
Proof using Type.
  intros [H|s2 ? ? ? ? ? ? ? H] Hm.
  - apply PathPlain. by eapply rtc_r.
  - eapply PathRound; [done..|]. by eapply rtc_r.
Qed.

(** After [adopt_term], and after whatever else leaves the reads alone. *)
Lemma path_adopt T s s' :
  reads s' = reads (adopt_term T s) → m_status s' ≠ Leader → path s s'.
Proof using Type.
  intros Hr Hs. apply path_stop; [by unfold idle; rewrite Hr|rewrite Hr; by apply abort_failed|by rewrite Hr|done].
Qed.

(** A restart from disk. *)
Lemma path_restart s now mb d : path s (init now mb d).
Proof using Type. apply path_stop; [done| |simpl; lia|done]. intros w x. simpl. by rewrite lookup_empty. Qed.

(** A step after which the node is a follower. *)
Definition followed (s s' : Raft) : Prop :=
  m_status s' ≠ Leader ∧ idle s' ∧ only_failed (rd_waiters (reads s)) (rd_waiters (reads s')) ∧
  (rd_nextContext (reads s') ≤ rd_nextContext (reads s))%N.

Lemma path_followed s s' : followed s s' → path s s'.
Proof using Type. intros (? & ? & ? & ?). by apply path_stop. Qed.


(** Operations that leave the role and the reads alone. *)
Record same_role s s' : Prop := MkSameRole {
  sr_reads : reads s' = reads s;
  sr_term : m_currentTerm s' = m_currentTerm s;
  sr_status : m_status s' = m_status s;
  sr_members : members s' = members s
}.

Lemma same_role_trans s1 s2 s3 : same_role s1 s2 → same_role s2 s3 → same_role s1 s3.
Proof using Type. intros [] []. split; congruence. Qed.

Lemma path_same s s' : same_role s s' → path s s'.
Proof using Type. intros []. by apply path_keep. Qed.

Lemma persistAppended_same n s : same_role s (persistAppended n s).
Proof using Type. unfold persistAppended. repeat case_match; by split. Qed.

Lemma persist_changes_same ch tr n s : same_role s (persist_changes ch tr n s).
Proof using Type. unfold persist_changes. repeat case_match; try by split. apply persistAppended_same. Qed.

Lemma append_entries_same es ch tr s s' ch' tr' :
  append_entries es ch tr s = Some (s', ch', tr') → same_role s s'.
Proof using Type.
  revert ch tr s. induction es as [|e es IH]; intros ch tr s; cbn [append_entries]; [by intros [= <- _ _]|].
  destruct (_ <? _)%Z; [intros H%IH; by destruct H|].
  destruct (log_at s (logindex e)) as [mine|]; [|done]. cbn [mbind option_bind].
  destruct (_ =? _)%Z; [case_bool_decide; [apply IH|done]|].
  destruct (getSlicesIndexFromLogIndex _ _); [|done]. cbn [mbind option_bind].
  intros H%IH. by destruct H.
Qed.

Definition reads_ok {A} s (o : outcome A) : Prop := match o with Ret s' _ => path s s' | Exit _ => True end.

(** The state that accepting a leader's message leads to. *)
Lemma contact_followed now T s s' :
  quiet_reads s →
  let s1 := if (m_currentTerm s <? T)%Z then adopt_term T s else s in
  let s2 := if bool_decide (m_status s1 = Leader) then abortReadIndexLocked ReadNotLeader s1 else s1 in
  same_role (set_leaderContact now (set_status Follower s2)) s' → followed s s'.
Proof using Type.
  intros Hq s1 s2 [Hr _ Hs _]. unfold followed. rewrite Hs. split; [done|].
  assert (idle s2 ∧ only_failed (rd_waiters (reads s)) (rd_waiters (reads s2)) ∧
          rd_nextContext (reads s2) = rd_nextContext (reads s)) as (H1 & H2 & H3).
  { subst s2 s1. destruct (_ <? _)%Z.
    - simpl. split; [done|]. split; [by apply (abort_failed ReadNotLeader)|done].
    - case_bool_decide as Hl; [|by split_and!; [apply Hq|left|]].
      split; [done|]. split; [by apply abort_failed|done]. }
  simpl in Hr. unfold idle. rewrite Hr. simpl. split; [done|]. split; [done|]. by rewrite H3.
Qed.

Lemma AppendEntries1_reads now args s : quiet_reads s → reads_ok s (AppendEntries1 now args s).
Proof using Type.
  intros Hq. unfold AppendEntries1. destruct (m_removed s); [apply path_refl|].
  destruct (_ <? _)%Z; [apply path_refl|].
  set (s1 := if (m_currentTerm s <? ae_term args)%Z then adopt_term (ae_term args) s else s).
  set (s2 := if bool_decide (m_status s1 = Leader) then _ else s1).
  set (s3 := set_leaderContact now (set_status Follower s2)).
  assert (∀ s', same_role s3 s' → path s s') as Hf.
  { intros s' H. apply path_followed. by eapply contact_followed. }
  clearbody s3. destruct (getLastLogIndex s3 <? _)%Z; [apply Hf, persist_changes_same|].
  destruct (ae_prevlogindex args <? _)%Z; [apply Hf, persist_changes_same|].
  destruct (matchLog _ _ _) as [[]|]; [| |done].
  - destruct (append_entries _ _ _ _) as [[[s4 ch] tr]|] eqn:Hap; [|done].
    apply append_entries_same in Hap. destruct (_ <=? _)%Z; [|done].
    set (s5 := if _ && _ then _ else s4). destruct (_ <=? _)%Z; [|done].
    apply Hf. eapply same_role_trans; [exact Hap|]. eapply same_role_trans; [|apply persist_changes_same].
    subst s5. by case_match.
  - destruct (getLogTermFromLogIndex _ _); [|done]. destruct (conflict_index _ _ _ _ _); [|done].
    apply Hf, persist_changes_same.
Qed.

Lemma InstallSnapshot_reads now args s : quiet_reads s → reads_ok s (InstallSnapshot now args s).
Proof using Type.
  intros Hq. unfold InstallSnapshot. destruct (_ <? _)%Z; [apply path_refl|].
  set (s1 := if (m_currentTerm s <? is_term args)%Z then persist (adopt_term (is_term args) s) else s).
  set (s2 := if bool_decide (m_status s1 = Leader) then _ else s1).
  set (s3 := set_leaderContact now (set_status Follower s2)).
  assert (∀ s', same_role s3 s' → path s s') as Hf.
  { intros s' H. apply path_followed, (contact_followed now (is_term args) s s' Hq).
    subst s3 s2 s1. destruct H. destruct (m_currentTerm s <? is_term args)%Z; by split. }
  clearbody s3. destruct (_ <=? m_lastSnapshotIncludeIndex s3)%Z; [by apply Hf|].
  destruct (negb _ && _); [by apply Hf|].
  destruct (if (_ <? getLastLogIndex _)%Z then _ else _) as [logs|]; [|done]. by apply Hf.
Qed.

Lemma RequestVote_reads now args s : reads_ok s (RequestVote now args s).
Proof using Type.
  unfold RequestVote. set (s1 := if (m_currentTerm s <? rv_term args)%Z then adopt_term (rv_term args) s else s).
  assert (∀ s', reads s' = reads s1 → m_currentTerm s' = m_currentTerm s1 → m_status s' = m_status s1 →
            members s' = members s1 → path s s') as Hs1.
  { subst s1. destruct (_ <? _)%Z; [|apply path_keep]. intros s' Hr _ Hs _.
    apply (path_adopt (rv_term args)); [done|by rewrite Hs]. }
  clearbody s1. destruct (_ || _); [by apply path_keep|].
  destruct (rv_term args <? m_currentTerm s)%Z; [by apply path_keep|].
  destruct (_ && _); [by apply path_keep|]. destruct (_ =? _)%Z; [|done].
  destruct (negb _); [by apply Hs1|]. destruct (_ && _); by apply Hs1.
Qed.

Definition reads_or_won {A} s (o : outcome A) : Prop :=
  match o with Ret s' _ => path s s' ∨ won s s' | Exit _ => True end.

Lemma leaderUpdateCommitIndex_same s s' : leaderUpdateCommitIndex s = Some s' → same_role s s'.
Proof using Type.
  unfold leaderUpdateCommitIndex. destruct (commit_scan _ _ _); [|done]. by intros [= <-].
Qed.

Lemma sendRequestVote_reads reply votedNum s :
  quiet_reads s → reads_or_won s (sendRequestVote reply votedNum s).
Proof using Type.
  intros Hq. unfold sendRequestVote. destruct (_ <? _)%Z; [left; by apply (path_adopt (rvr_term reply))|].
  destruct (_ <? _)%Z; [left; apply path_refl|]. destruct (negb _); [left; apply path_refl|].
  destruct (_ <? _)%Z; [left; apply path_refl|]. case_bool_decide as Hl; [done|]. right.
  split; [done|done|by apply Hq|apply only_failed_refl|done].
Qed.

Lemma doElection_reads now s : reads_or_won s (doElection now s).
Proof using Type.
  unfold doElection. destruct (_ || _); [left; apply path_refl|].
  case_bool_decide as Hl; [left; apply path_refl|].
  destruct (_ <=? _)%Z.
  - destruct (leaderUpdateCommitIndex _) as [s4|] eqn:Hu; [|done].
    apply leaderUpdateCommitIndex_same in Hu as [Hr _ Hs _]. right.
    split; [done|by simpl; rewrite Hs|by unfold idle; simpl; rewrite Hr| |by simpl; rewrite Hr].
    simpl. rewrite Hr. by apply (abort_failed ReadNotLeader).
  - destruct (getLastLogIndexAndTerm _). left.
    apply path_stop; [done|by apply (abort_failed ReadNotLeader)|done|done].
Qed.

(** The block that opens a round. *)
Lemma startReadRound_path now s s' :
  m_status s = Leader → startReadRound now s = Some s' → path s s' ∧ m_status s' = Leader.
Proof using Type.
  intros Hl. unfold startReadRound.
  destruct (rd_active (reads s)) eqn:Ha; [intros [= <-]; split; [apply path_refl|done]|].
  destruct (rd_pending (reads s)) as [|w ws] eqn:Hp; [intros [= <-]; split; [apply path_refl|done]|].
  destruct (hasCommittedEntryInCurrentTermLocked s) as [[]|] eqn:Hc; [..|done];
    intros [= <-]; [|split; [apply path_refl|done]]. split.
  - apply (PathRound _ _ _ s); try done. apply rtc_once.
    match goal with |- micro _ (completeReadRoundIfQuorumLocked _ ?x) =>
      replace x with (start_round s) by (unfold start_round, next_context; by rewrite Hp) end.
    apply MComplete.
  - unfold completeReadRoundIfQuorumLocked. simpl. by repeat case_match.
Qed.

Lemma path_trans_same s s1 s' : path s s1 → same_role s1 s' → path s s'.
Proof using Type. intros Hp []. eapply path_trans_micro; [done|]. by apply MKeep. Qed.

Lemma doHeartBeat_reads now s : reads_ok s (doHeartBeat now s).
Proof using Type.
  unfold doHeartBeat. destruct (m_removed s); [apply path_refl|].
  case_bool_decide as Hl; [|apply path_refl].
  destruct (startReadRound now s) as [s1|] eqn:Hs; [|done]. apply startReadRound_path in Hs as [Hp _]; [|done].
  destruct (heartbeat_tasks s1); [|done]. by eapply path_trans_same.
Qed.

(** A queue changes before the round. *)
Lemma path_queues s s1 s' :
  hard s1 = hard s → progress s1 = progress s → members s1 = members s → reads s1 = reads s →
  path s1 s' → path s s'.
Proof using Type.
  intros Hh Hp Hm Hr [H|s2 H1 H2 H3 H4 Hl Ha Hc H].
  - apply PathPlain. eapply rtc_l; [|done]. apply MKeep; congruence.
  - apply (PathRound _ _ _ s2); try congruence; done.
Qed.

Lemma replicationWorker_reads now server s : reads_ok s (replicationWorker now server s).
Proof using Type.
  unfold replicationWorker. destruct (_ || _); [apply path_refl|].
  destruct (nth server _ _) as [|t rest]; [apply path_refl|].
  set (s1 := set_replication _ s). case_bool_decide as Hl; [|by apply path_keep].
  destruct (startReadRound now s1) as [s2|] eqn:Hs; [|done]. apply startReadRound_path in Hs as [Hp _]; [|done].
  assert (path s s2) as Hp2 by (by apply (path_queues s s1)).
  destruct (_ <=? _)%Z; [|done]. destruct (_ <=? _)%Z; [done|]. by destruct (build_append s2 server).
Qed.

Lemma HandleAppendEntriesReply_reads now server args reply s :
  (aer_readcontextaccepted reply = true → ack (aer_readcontextack reply) (ae_term args) server) →
  reads_ok s (HandleAppendEntriesReply now server args reply s).
Proof using Type.
  intros Hack. unfold HandleAppendEntriesReply. destruct (_ =? _)%Z; [apply path_refl|].
  destruct (_ <? _)%Z; [by apply (path_adopt (aer_term reply))|]. destruct (_ <? _)%Z; [apply path_refl|].
  case_bool_decide as Hl; [|apply path_refl]. cbn [negb].
  set (s1 := match rd_active (reads s) with Some _ => _ | None => s end).
  assert (path s s1) as H1.
  { subst s1. destruct (rd_active (reads s)) as [round|] eqn:Ha; [|apply path_refl].
    destruct (_ && _) eqn:Hg; [|apply path_refl].
    apply andb_prop in Hg as [[Hacc Hctx%N.eqb_eq]%andb_prop Ht%Z.eqb_eq].
    eapply path_trans_micro; [|apply MComplete]. eapply path_trans_micro; [apply path_refl|].
    apply (MAck ack s round server); [done|done|]. rewrite <- Hctx, <- Ht. by apply Hack. }
  clearbody s1. destruct (negb _).
  - destruct (_ =? _)%Z; [done|]. by eapply path_trans_same.
  - destruct (_ <=? _)%Z; [|done]. destruct (leaderUpdateCommitIndex _) as [s3|] eqn:Hu; [|done].
    destruct (_ <=? _)%Z; [|done]. apply leaderUpdateCommitIndex_same in Hu.
    eapply path_trans_same; [exact H1|]. eapply same_role_trans; [|exact Hu]. done.
Qed.

Lemma snapshot_chunk_reply_reads now src reply s : path s (snapshot_chunk_reply now src reply s).1.
Proof using Type.
  unfold snapshot_chunk_reply. destruct (_ || _); [apply path_refl|].
  destruct (_ <? _)%Z; [by apply (path_adopt reply)|apply path_refl].
Qed.

Lemma snapshot_finish_same server src s : same_role s (snapshot_finish server src s).
Proof using Type. unfold snapshot_finish. by case_match. Qed.

Lemma raftPollerTicker_reads batch s : reads_ok s (raftPollerTicker batch s).
Proof using Type.
  unfold raftPollerTicker. destruct (negb _); [by apply path_keep|].
  destruct (leaderUpdateCommitIndex _) as [s3|] eqn:Hu; [|done]. apply leaderUpdateCommitIndex_same in Hu.
  apply path_same. eapply same_role_trans; [|apply persistAppended_same]. by destruct Hu.
Qed.

Lemma apply_loop_same fuel s s' msgs : apply_loop fuel s = Some (s', msgs) → same_role s s'.
Proof using Type.
  revert s s' msgs. induction fuel as [|fuel IH]; intros s s' msgs; cbn [apply_loop]; [by intros [= <- _]|].
  destruct (_ <? _)%Z; [|by intros [= <- _]]. destruct (log_at _ _) as [e|]; [|done]. cbn [mbind option_bind].
  destruct (_ =? _)%Z; [|done]. destruct (apply_loop fuel _) as [[s1 ms]|] eqn:Hl; [|done].
  cbn [mbind option_bind]. intros [= <- _]. apply IH in Hl. by destruct Hl.
Qed.

Lemma applierTicker_reads s : reads_ok s (applierTicker s).
Proof using Type.
  unfold applierTicker. destruct (_ || _); [apply path_refl|]. unfold getApplyLogs.
  destruct (_ <=? _)%Z; [|done]. destruct (apply_loop _ s) as [[s' msgs]|] eqn:Hl; [|done].
  apply apply_loop_same in Hl. apply path_same. by destruct Hl.
Qed.

Lemma Snapshot_reads index snapshot s : reads_ok s (Snapshot index snapshot s).
Proof using Type.
  unfold Snapshot. destruct (_ || _); [apply path_refl|]. destruct (log_at s index); [|done].
  destruct (entries_after s index); [|done]. destruct (_ =? _)%Z; [|done]. by apply path_keep.
Qed.

Lemma Start_same op s : same_role s (Start op s).1.
Proof using Type. unfold Start. destruct (_ || _); [done|]. by destruct (is_conf_change op). Qed.

Lemma ReadIndex_wait_path w timedOut s : path s (ReadIndex_wait w timedOut s).1.
Proof using Type.
  unfold ReadIndex_wait. destruct (rd_waiters (reads s) !! w) as [x|]; [|apply path_refl].
  destruct (rw_completed x); [apply path_refl|].
  destruct (negb _); [apply PathPlain, rtc_once, MRemove|].
  destruct timedOut; [apply PathPlain, rtc_once, MRemove|apply path_refl].
Qed.

End operations.

(** ** Steps of the group *)

Section group.
Context (cf : config).
Implicit Types (g : history) (c : cluster) (T : Z) (i j : nat) (s : Raft).

Notation rel := (rel cf).

(** An answer of [server] to a round of node [i] is in the network. *)
Definition answered c i (context : N) T (server : nat) : Prop :=
  ∃ a r, PAppendReply server i a r ∈ cl_net c ∧ aer_readcontextaccepted r = true ∧
    aer_readcontextack r = context ∧ ae_term a = T.

(** A new waiter. *)
Definition enqueued (w : nat) s s' : Prop :=
  m_status s = Leader ∧ ∃ deadline, s' = (ReadIndex_enqueue w deadline s).1.

(** How node [i] changes in a step, [ws] being the node and waiter that it adds. *)
Inductive change c i (ws : option (nat * nat)) s s' : Prop :=
| ChPath : path (answered c i) s s' → change c i ws s s'
| ChWon : won s s' → (∀ dst a, PAppend i dst a ∈ cl_net c → ae_term a ≠ m_currentTerm s') → change c i ws s s'
| ChEnqueue w : ws = Some (i, w) → enqueued w s s' → change c i ws s s'.

(** The packets it sends. *)
Definition sent c i s s' (p : packet) : Prop :=
  match p with
  | PAppend src dst a =>
      src = i ∧ m_status s' = Leader ∧ ae_term a = m_currentTerm s' ∧
      (ae_readcontext a = 0%N ∨ ∃ round, rd_active (reads s') = Some round ∧ ae_readcontext a = round_context round)
  | PAppendReply src dst a r =>
      src = i ∧ PAppend dst i a ∈ cl_net c ∧
      (aer_readcontextaccepted r = true →
       aer_readcontextack r = ae_readcontext a ∧ (m_currentTerm s ≤ ae_term a)%Z)
  | _ => True
  end.

Definition adds (e : event) : option (nat * nat) :=
  match e with ReadBarrier i w _ => Some (i, w) | _ => None end.

Definition is_snap (p : packet) : Prop := match p with PSnap _ _ _ => True | _ => False end.

Inductive shape (e : event) c c' : Prop :=
| ShNode i s s' ps :
    cl_nodes c !! i = Some s → cl_nodes c' = <[i := s']> (cl_nodes c) → cl_net c' = cl_net c ++ ps →
    change c i (adds e) s s' → Forall (sent c i s s') ps → shape e c c'
| ShIdle ps :
    cl_nodes c' = cl_nodes c → cl_net c' = cl_net c ++ ps → Forall is_snap ps → shape e c c'.

Lemma shape_node e c i s s' c' :
  cl_nodes c !! i = Some s → cl_nodes c' = <[i := s']> (cl_nodes c) → cl_net c' = cl_net c →
  path (answered c i) s s' → shape e c c'.
Proof using Type.
  intros Hs Hn Hnet Hp. apply (ShNode e c c' i s s' []); [done|done|by rewrite app_nil_r| |done]. by apply ChPath.
Qed.

(** An operation that returns or exits, and sends at most [ps a]. *)
Lemma shape_run {A} e c i s (o : outcome A) now k :
  cl_nodes c !! i = Some s → reads_ok (answered c i) s o →
  (∀ s' a, o = Ret s' a → ∃ ps, cl_nodes (k a (set_node i s' c)) = <[i := s']> (cl_nodes c) ∧
     cl_net (k a (set_node i s' c)) = cl_net c ++ ps ∧ Forall (sent c i s s') ps) →
  shape e c (run cf now i o k c).
Proof using Type.
  intros Hs Ho Hk. destruct o as [s' a|s']; simpl.
  - destruct (Hk s' a eq_refl) as (ps & H1 & H2 & H3). by apply (ShNode e c _ i s s' ps); [..|apply ChPath|].
  - eapply shape_node; [done|done|done|]. apply path_restart.
Qed.

Lemma shape_quiet {A} e c i s (o : outcome A) now k :
  cl_nodes c !! i = Some s → reads_ok (answered c i) s o →
  (∀ s' a, cl_nodes (k a (set_node i s' c)) = <[i := s']> (cl_nodes c) ∧ cl_net (k a (set_node i s' c)) = cl_net c) →
  shape e c (run cf now i o k c).
Proof using Type.
  intros Hs Ho Hk. apply (shape_run e c i s); [done|done|]. intros s' a _. destruct (Hk s' a) as [H1 H2].
  exists []. by rewrite app_nil_r.
Qed.

(** The answers of [AppendEntries1]. *)
Lemma AppendEntries1_answer now args s s' r :
  AppendEntries1 now args s = Ret s' r → aer_readcontextaccepted r = true →
  aer_readcontextack r = ae_readcontext args ∧ (m_currentTerm s ≤ ae_term args)%Z.
Proof using Type.
  unfold AppendEntries1. destruct (m_removed s); [by intros [= _ <-]|].
  destruct (Z.ltb_spec (ae_term args) (m_currentTerm s)) as [|Hle]; [by intros [= _ <-]|].
  intros H _. split; [|done]. revert H.
  destruct (getLastLogIndex _ <? _)%Z; [by intros [= _ <-]|].
  destruct (ae_prevlogindex args <? _)%Z; [by intros [= _ <-]|].
  destruct (matchLog _ _ _) as [[]|]; [| |done].
  - destruct (append_entries _ _ _ _) as [[[s4 ch] tr]|]; [|done].
    destruct (_ <=? _)%Z; [|done]. destruct (_ <=? _)%Z; [|done]. by intros [= _ <-].
  - destruct (getLogTermFromLogIndex _ _); [|done]. destruct (conflict_index _ _ _ _ _); [|done].
    by intros [= _ <-].
Qed.

(** The requests of [replicationWorker]. *)
Lemma replicationWorker_request now server s s' args :
  replicationWorker now server s = Ret s' (SendEntries args) →
  m_status s' = Leader ∧ ae_term args = m_currentTerm s' ∧
  (ae_readcontext args = 0%N ∨
   ∃ round, rd_active (reads s') = Some round ∧ ae_readcontext args = round_context round).
Proof using Type.
  unfold replicationWorker. destruct (_ || _); [done|]. destruct (nth server _ _) as [|t rest]; [done|].
  set (s1 := set_replication _ s). case_bool_decide as Hl; [|done].
  destruct (startReadRound now s1) as [s2|] eqn:Hs; [|done].
  apply (startReadRound_path (λ _ _ _, True)) in Hs as [_ Hl2]; [|done].
  destruct (_ <=? _)%Z; [|done]. destruct (_ <=? _)%Z; [done|].
  destruct (build_append s2 server) as [a|] eqn:Hb; [|done]. intros [= <- <-]. split; [done|].
  revert Hb. unfold build_append. destruct (getPrevLogInfo s2 server) as [[pi pt]|]; [|done]. cbn [mbind option_bind].
  destruct (if (_ =? _)%Z then _ else _) as [es|]; [|done]. cbn [mbind option_bind].
  destruct (_ =? _)%Z; [|done]. intros [= <-]. split; [done|]. simpl.
  destruct (rd_active (reads s2)) as [round|]; [|by left]. destruct (_ =? _)%Z; [|by left]. right. by exists round.
Qed.

(** ** Winning an election *)

Lemma sendRequestVote_wins reply votedNum s s' v :
  sendRequestVote reply votedNum s = Ret s' v → won s s' →
  m_currentTerm s' = m_currentTerm s ∧ rvr_term reply = m_currentTerm s ∧ rvr_votegranted reply = true ∧
  (getQuorumLocked (members s) ≤ votedNum + 1)%Z.
Proof using Type.
  unfold sendRequestVote. intros H [Hb Ha _ _ _]. revert H.
  destruct (Z.ltb_spec (m_currentTerm s) (rvr_term reply)); [by intros [= <- _]|].
  destruct (Z.ltb_spec (rvr_term reply) (m_currentTerm s)); [by intros [= <- _]|].
  destruct (rvr_votegranted reply); [|by intros [= <- _]]. cbn [negb].
  destruct (Z.ltb_spec (votedNum + 1) (getQuorumLocked (members s))) as [|Hq]; [by intros [= <- _]|].
  case_bool_decide; [done|]. intros [= <- _]. split; [done|]. split; [lia|]. done.
Qed.

Lemma doElection_wins now s s' r :
  doElection now s = Ret s' r → won s s' → m_currentTerm s' = (m_currentTerm s + 1)%Z.
Proof using Type.
  unfold doElection. intros H [Hb Ha _ _ _]. revert H. destruct (_ || _); [by intros [= <- _]|].
  case_bool_decide; [by intros [= <- _]|]. destruct (_ <=? _)%Z.
  - destruct (leaderUpdateCommitIndex _) as [s4|] eqn:Hu; [|done].
    apply leaderUpdateCommitIndex_same in Hu as [_ Ht _ _]. by intros [= <- _].
  - destruct (getLastLogIndexAndTerm _). intros [= <- _]. done.
Qed.

(** The winner has not led its term before. *)
Lemma append_elected c g src dst a :
  rel c g → PAppend src dst a ∈ cl_net c → ∃ l, g_elec g (ae_term a) = Some (src, l).
Proof using Type.
  intros Hrel Hp. pose proof (rel_net _ _ _ Hrel) as Hn. rewrite Forall_forall in Hn.
  destruct (Hn _ Hp) as (_ & l & f & He & _). by exists l.
Qed.

Lemma doElection_fresh c g i s now s' r dst a :
  rel c g → cl_nodes c !! i = Some s → doElection now s = Ret s' r → won s s' →
  PAppend i dst a ∈ cl_net c → ae_term a ≠ m_currentTerm s'.
Proof using Type.
  intros Hrel Hs Hd Hw Hp Heq. destruct (append_elected c g i dst a Hrel Hp) as [l He].
  pose proof (rel_ginv _ _ _ Hrel) as Hg. destruct (gi_elec _ _ Hg _ _ _ He) as [(l0 & Hc & _) _].
  apply (gi_cand_term _ _ Hg) in Hc as [? _]. pose proof (no_term _ _ _ _ (rel_nodes _ _ _ Hrel _ _ Hs)).
  pose proof (doElection_wins _ _ _ _ Hd Hw). lia.
Qed.

Lemma sendRequestVote_fresh c g i src s args reply v w s' v' dst a :
  rel c g → cl_nodes c !! i = Some s → cl_elections c !! (i, rv_term args) = Some (v, w) → src ∈ w →
  packet_ok g (PVoteReply src i args reply) → sendRequestVote reply v s = Ret s' v' → won s s' →
  PAppend i dst a ∈ cl_net c → ae_term a ≠ m_currentTerm s'.
Proof using Type.
  intros Hrel Hs Hel Hsrc Hpk Hd Hw Hp Heq. destruct (append_elected c g i dst a Hrel Hp) as [l He].
  destruct (sendRequestVote_wins _ _ _ _ _ Hd Hw) as (Ht & Hrt & Hgr & Hq).
  destruct (Hpk Hgr) as [HT _].
  rewrite (no_members _ _ _ _ (rel_nodes _ _ _ Hrel _ _ Hs)), quorum_cf in Hq.
  destruct (rel_elections _ _ _ Hrel _ _ _ _ Hel) as (_ & _ & _ & [(A & _ & _ & _ & _ & _ & Hnel)|(_ & Hlt & _)]).
  - apply (Hnel l). rewrite <- He. f_equal. congruence.
  - apply list_elem_of_split in Hsrc as (w1 & w2 & ->). rewrite length_app in Hlt. cbn [length] in Hlt. lia.
Qed.

(** ** Every step has a shape *)

Lemma shape_append e c dst src args s now :
  cl_nodes c !! dst = Some s → quiet_reads s → PAppend src dst args ∈ cl_net c →
  shape e c (run cf now dst (AppendEntries1 now args s) (λ r, send [PAppendReply dst src args r]) c).
Proof using Type.
  intros Hs Hq Hp. apply (shape_run e c dst s); [done|by apply AppendEntries1_reads|].
  intros s' r Hr. exists [PAppendReply dst src args r]. split; [done|]. split; [done|].
  constructor; [|done]. split; [done|]. split; [done|]. by apply (AppendEntries1_answer now args s s' r).
Qed.

Lemma shape_append_reply e c dst src args reply s now :
  cl_nodes c !! dst = Some s → PAppendReply src dst args reply ∈ cl_net c →
  shape e c (run cf now dst (HandleAppendEntriesReply now src args reply s) (λ _ c, c) c).
Proof using Type.
  intros Hs Hp. apply (shape_quiet e c dst s); [done| |done].
  apply HandleAppendEntriesReply_reads. intros Hacc. by exists args, reply.
Qed.

Lemma shape_vote_reply e c g dst src args reply s v w now k :
  rel c g → cl_nodes c !! dst = Some s → quiet_reads s → cl_elections c !! (dst, rv_term args) = Some (v, w) →
  src ∈ w → packet_ok g (PVoteReply src dst args reply) →
  (∀ a c, cl_nodes (k a c) = cl_nodes c ∧ cl_net (k a c) = cl_net c) →
  shape e c (run cf now dst (sendRequestVote reply v s) k c).
Proof using Type.
  intros Hrel Hs Hq Hel Hsrc Hp Hk. pose proof (sendRequestVote_reads (answered c dst) reply v s Hq) as Ho.
  destruct (sendRequestVote reply v s) as [s' v'|s'] eqn:Hd; simpl.
  - destruct (Hk v' (set_node dst s' c)) as [H1 H2]. apply (ShNode e c _ dst s s' []); [done|by rewrite H1| | |done].
    + by rewrite H2, app_nil_r.
    + destruct Ho as [Ho|Ho]; [by apply ChPath|]. apply ChWon; [done|]. intros d a.
      by apply (sendRequestVote_fresh c g dst src s args reply v w s' v').
  - eapply shape_node; [done|done|done|]. apply path_restart.
Qed.

Lemma shape_timeout e c g i s now k :
  rel c g → cl_nodes c !! i = Some s →
  (∀ a c, ∃ ps, cl_nodes (k a c) = cl_nodes c ∧ cl_net (k a c) = cl_net c ++ ps ∧ ∀ c i s s', Forall (sent c i s s') ps) →
  shape e c (run cf now i (doElection now s) k c).
Proof using Type.
  intros Hrel Hs Hk. pose proof (doElection_reads (answered c i) now s) as Ho.
  destruct (doElection now s) as [s' r|s'] eqn:Hd; simpl.
  - destruct (Hk r (set_node i s' c)) as (ps & H1 & H2 & H3). apply (ShNode e c _ i s s' ps); [done|by rewrite H1|done| |done].
    destruct Ho as [Ho|Ho]; [by apply ChPath|]. apply ChWon; [done|]. intros d a.
    by apply (doElection_fresh c g i s now s' r).
  - eapply shape_node; [done|done|done|]. apply path_restart.
Qed.

Lemma shape_snap_reply e c dst src args reply now c' :
  deliver cf now (PSnapReply src dst args reply) c = Some c' → shape e c c'.
Proof using Type.
  simpl. destruct (cl_nodes c !! dst) as [s|] eqn:Hs; [|done]. cbn [mbind option_bind].
  destruct (cl_transfers c !! (dst, src)) as [[[source [|chunk rest]]|]|]; try done. cbn [mbind option_bind].
  case_bool_decide; [|done]. pose proof (snapshot_chunk_reply_reads (answered c dst) now source reply s) as Hp.
  destruct (snapshot_chunk_reply now source reply s) as [s' continue]. simpl in Hp. intros [= <-].
  destruct continue; [destruct rest|]; (eapply shape_node; [done|done|done|]); [|done..].
  eapply path_trans_same; [done|]. apply snapshot_finish_same.
Qed.

Lemma deliver_shape e c g p now c' :
  rel c g → (∀ i s, cl_nodes c !! i = Some s → quiet_reads s) → p ∈ cl_net c →
  deliver cf now p c = Some c' → shape e c c'.
Proof using Type.
  intros Hrel Hq Hp. destruct p as [src dst a|src dst a r|src dst a|src dst a r|src dst a|src dst a r];
    [..|by apply shape_snap_reply]; simpl; (destruct (cl_nodes c !! dst) as [s|] eqn:Hs; [|done]); cbn [mbind option_bind].
  - intros [= <-]. apply (shape_run e c dst s); [done|apply RequestVote_reads|]. intros s' r _.
    exists [PVoteReply dst src a r]. split; [done|]. split; [done|]. by constructor.
  - destruct (cl_elections c !! (dst, rv_term a)) as [[v w]|] eqn:Hel; [|done]. cbn [mbind option_bind].
    case_bool_decide as Hsrc; [|done]. intros [= <-]. eapply shape_vote_reply; [done|done|by eapply Hq|done|done| |done].
    pose proof (rel_net _ _ _ Hrel) as Hn. rewrite Forall_forall in Hn. by apply Hn.
  - intros [= <-]. apply shape_append; [done|by eapply Hq|done].
  - intros [= <-]. by apply shape_append_reply.
  - intros [= <-]. apply (shape_run e c dst s); [done|apply InstallSnapshot_reads; by eapply Hq|]. intros s' r _.
    exists [PSnapReply dst src a r]. split; [done|]. split; [done|]. by constructor.
Qed.

Lemma shape_barrier c i w deadline s :
  cl_nodes c !! i = Some s → quiet_reads s →
  shape (ReadBarrier i w deadline) c (set_node i (ReadIndex_enqueue w deadline s).1 c).
Proof using Type.
  intros Hs Hq. apply (ShNode _ c _ i s (ReadIndex_enqueue w deadline s).1 []);
    [done|done|by rewrite app_nil_r| |done].
  destruct (decide (m_status s = Leader)) as [Hl|Hl].
  - apply (ChEnqueue _ _ _ _ _ w); [done|]. split; [done|]. by exists deadline.
  - apply ChPath. unfold ReadIndex_enqueue. rewrite bool_decide_false by done.
    destruct (Hq Hl). apply path_stop; [done|apply only_failed_refl|done|done].
Qed.

Lemma step_shape e c g c' :
  rel c g → (∀ i s, cl_nodes c !! i = Some s → quiet_reads s) → step cf e c = Some c' → shape e c c'.
Proof using Type.
  intros Hrel Hq. unfold step. destruct e as [i now|k now|i now|i server now|i server|i server|i server|i op|i now|i now
                |i index snapshot now|i w deadline|i w timedOut|i now].
  2: { destruct (cl_net c !! k) as [p|] eqn:Hk; [|done]. cbn [mbind option_bind].
       eapply deliver_shape; [done|done|]. by eapply list_elem_of_lookup_2. }
  5: { destruct (cl_transfers c !! (i, server)) as [[[source [|chunk rest]]|]|]; try done. cbn [mbind option_bind].
       intros [= <-]. apply (ShIdle _ _ _ [PSnap i server chunk]); [done|done|by constructor]. }
  5: { intros [= <-]. apply (ShIdle _ _ _ []); [done|by rewrite app_nil_r|done]. }
  all: destruct (cl_nodes c !! i) as [s|] eqn:Hs; [|done]; cbn [mbind option_bind].
  - intros [= <-]. eapply shape_timeout; [done|done|].
    intros [[v reqs]|] c'; [|by exists []; rewrite app_nil_r].
    eexists. split; [done|]. split; [done|]. intros. apply Forall_fmap, Forall_true. by intros [j x].
  - intros [= <-]. apply (shape_quiet _ c i s); [done|apply doHeartBeat_reads|done].
  - case_match; [done|]. intros [= <-]. apply (shape_run _ c i s); [done|apply replicationWorker_reads|].
    intros s' [| |args] Hr; [by exists []; rewrite app_nil_r..|].
    exists [PAppend i server args]. split; [done|]. split; [done|]. constructor; [|done]. split; [done|].
    by eapply replicationWorker_request.
  - destruct (cl_transfers c !! (i, server)) as [[?|]|]; try done. cbn [mbind option_bind]. intros [= <-].
    apply (ShIdle _ _ _ []); [done|by rewrite app_nil_r|done].
  - intros [= <-]. eapply shape_node; [done|done|done|]. apply path_same, Start_same.
  - intros [= <-]. apply (shape_quiet _ c i s); [done| |done].
    pose proof (raftPollerTicker_reads (answered c i) (poll_batch s).1 (poll_batch s).2) as Ho.
    unfold poll_batch in Ho. cbn [fst snd] in Ho. destruct (raftPollerTicker _ _); [|done]. by eapply path_queues, Ho.
  - intros [= <-]. by apply (shape_quiet _ c i s); [|apply applierTicker_reads|].
  - intros [= <-]. by apply (shape_quiet _ c i s); [|apply Snapshot_reads|].
  - intros [= <-]. apply shape_barrier; [done|by eapply Hq].
  - intros [= <-]. eapply shape_node; [done|done|done|]. apply ReadIndex_wait_path.
  - intros [= <-]. eapply shape_node; [done|done|done|]. apply path_restart.
Qed.

(** ** What a round is started with *)

(** A later leader has the last entry that a leader committed. *)
Lemma commit_in_leader g T T' :
  ginv (vs cf) g → (T ≤ T')%Z → elected g T' → 0 < g_commit g T →
  g_commit g T ≤ length (g_llog g T') ∧ term_at (g_llog g T') (g_commit g T) = T.
Proof using Type.
  intros Hg HT He Hpos. destruct (gi_commit _ _ Hg T Hpos) as (_ & Hlen & Hterm & _).
  assert (take (g_commit g T) (g_llog g T) `prefix_of` g_llog g T') as Hp.
  { apply (safe_in_leader _ _ Hg T); [apply vs_NoDup| |done|done]. right. exists T. by split_and!. }
  pose proof (prefix_length _ _ Hp) as Hpl. rewrite length_take, Nat.min_l in Hpl by done. split; [done|].
  rewrite (term_at_prefix _ _ (g_commit g T) Hp); [by rewrite term_at_take|]. rewrite length_take. lia.
Qed.

(** The commit index of a leader that has committed in its own term covers the
    commitments of all leaders up to it. *)
Lemma committed_covers g i s T :
  ginv (vs cf) g → indexed_history g → node_ok cf g i s → m_status s = Leader →
  hasCommittedEntryInCurrentTermLocked s = Some true → (T ≤ m_currentTerm s)%Z →
  (Z.of_nat (g_commit g T) ≤ m_commitIndex s)%Z.
Proof using Type.
  intros Hg Hi Hn Hl Hc HT. destruct (no_leader _ _ _ _ Hn Hl) as ([l He] & Hcom & _).
  assert (elected g (m_currentTerm s)) as Hel by by eexists.
  destruct (decide (T = m_currentTerm s)) as [->|Hne]; [done|].
  destruct (leader_facts cf g i s Hg Hn Hl) as (_ & _ & Hlog). destruct (no_log _ _ _ _ Hn) as [F HF].
  pose proof (leader_normal cf g i s F Hg Hn Hl HF) as HFV.
  destruct (decide (0 < g_commit g T)) as [Hpos|]; [|pose proof (lo_commit _ _ _ _ _ _ HF); lia].
  destruct (commit_in_leader g T _ Hg HT Hel Hpos) as [Hlen Hterm].
  revert Hc. unfold hasCommittedEntryInCurrentTermLocked. destruct (_ || _); [done|].
  destruct (getLogTermFromLogIndex s (m_commitIndex s)) as [t|] eqn:Ht; [|done]. cbn [mbind option_bind].
  intros [= ->%Z.eqb_eq]. pose proof (log_ok_reads cf _ _ _ _ _ _ Hg Hi HF) as Hr. rewrite view_normal in Hr by done.
  apply (view_term s F _ Hr) in Ht as (n & Heq & Hn' & Hcur). rewrite Hlog in Hcur, Hn'. rewrite Heq.
  destruct (decide (g_commit g T ≤ n)) as [|Hlt]; [lia|exfalso].
  destruct n as [|n]; [pose proof (elected_pos _ _ Hg _ Hel); simpl in Hcur; lia|].
  pose proof (rooted_sorted _ _ Hg (g_llog g (m_currentTerm s)) (S n) (g_commit g T)) as Hs.
  rewrite Hterm, <- Hcur in Hs. specialize (Hs ltac:(by apply (llog_rooted _ _ Hg)) ltac:(lia) ltac:(lia)). lia.
Qed.

(** ** What the answers of a majority exclude *)

Lemma acks_quorum i (acked : gset Z) (P : nat → Prop) :
  (∀ p, p ∈ acked → ∃ n, p = Z.of_nat n ∧ n < cf_size cf ∧ P n) →
  (getQuorumLocked (cf_members cf i) ≤
     Z.of_nat (countb (isVoterLocked (cf_members cf i)) (elements acked)))%Z →
  ∃ q, quorum (vs cf) q ∧ Forall P q.
Proof using Type.
  intros Hp. rewrite quorum_cf. unfold countb.
  set (voters := List.filter (isVoterLocked (cf_members cf i)) (elements acked)). intros Hlen.
  assert (∀ p, p ∈ voters → ∃ n, p = Z.of_nat n ∧ n ∈ vs cf ∧ P n) as Hin.
  { intros p Hin. apply list_elem_of_In, List.filter_In in Hin as [Hin Hv].
    destruct (Hp p) as (n & -> & Hn & HP); [by apply elem_of_elements, list_elem_of_In|].
    exists n. rewrite isVoterLocked_cf in Hv by done. by rewrite elem_of_vs. }
  exists (Z.to_nat <$> voters). split; [split; [|split]|].
  - apply NoDup_fmap_2_strong.
    + intros p p' (n & -> & _)%Hin (n' & -> & _)%Hin. rewrite !Nat2Z.id. by intros ->.
    + apply NoDup_ListNoDup, List.NoDup_filter, NoDup_ListNoDup, NoDup_elements.
  - intros m (p & -> & (n & -> & Hn & _)%Hin)%list_elem_of_fmap. by rewrite Nat2Z.id.
  - rewrite length_fmap. lia.
  - apply Forall_forall. intros m (p & -> & (n & -> & _ & HP)%Hin)%list_elem_of_fmap. by rewrite Nat2Z.id.
Qed.

Lemma no_commit_after g t q T :
  ginv (vs cf) g → quorum (vs cf) q → Forall (λ n, (g_term g n ≤ t)%Z) q → (t < T)%Z → g_commit g T = 0.
Proof using Type.
  intros Hg Hq Hle HT. destruct (decide (0 < g_commit g T)) as [Hpos|]; [exfalso|lia].
  destruct (gi_commit _ _ Hg T Hpos) as ([[c l] He] & _). destruct (gi_elec _ _ Hg _ _ _ He) as (_ & q' & Hq' & Hv).
  destruct (quorums_meet _ q q' (vs_NoDup cf) Hq Hq') as (n & Hn & Hn'). rewrite Forall_forall in Hle, Hv.
  destruct (Hv n Hn') as [Hvote _]. apply (gi_vote_term _ _ Hg) in Hvote. specialize (Hle n Hn). lia.
Qed.

(** ** Contexts *)

(** No context is used twice while the counter has not run over. *)
Record contexts (n : N) s : Prop := MkContexts {
  cx_quiet : quiet_reads s;
  cx_next : (rd_nextContext (reads s) ≤ n)%N;
  cx_round : ∀ round, rd_active (reads s) = Some round →
    round_term round = m_currentTerm s ∧ (round_context round ≤ rd_nextContext (reads s))%N
}.

Lemma complete_reads now s :
  let s' := completeReadRoundIfQuorumLocked now s in
  m_status s' = m_status s ∧ m_currentTerm s' = m_currentTerm s ∧ members s' = members s ∧
  rd_nextContext (reads s') = rd_nextContext (reads s) ∧ rd_pending (reads s') = rd_pending (reads s) ∧
  (rd_active (reads s') = rd_active (reads s) ∨ rd_active (reads s') = None).
Proof using Type.
  unfold completeReadRoundIfQuorumLocked. destruct (rd_active (reads s)) as [round|] eqn:Ha; [|simpl; tauto].
  destruct (_ || _); [simpl; rewrite Ha; tauto|]. destruct (_ <? _)%Z; simpl; tauto.
Qed.

Lemma remove_active w s round :
  rd_active (reads (removeReadWaiterLocked w s)) = Some round →
  ∃ old, rd_active (reads s) = Some old ∧ round_waiters round ⊆ round_waiters old ∧
    round_context round = round_context old ∧ round_term round = round_term old ∧
    round_readIndex round = round_readIndex old ∧ round_acknowledgedPeers round = round_acknowledgedPeers old.
Proof using Type.
  unfold removeReadWaiterLocked. simpl. destruct (rd_active (reads s)) as [old|]; [|done].
  destruct (filter _ _) as [|x xs] eqn:Hf; [done|]. intros [= <-]. exists old. simpl. split_and!; try done.
  rewrite <- Hf. intros y Hy. by apply list_elem_of_filter in Hy as [_ Hy].
Qed.

Lemma micro_contexts ack n s s' : micro ack s s' → contexts n s → contexts n s'.
Proof using Type.
  intros Hm [Hq Hn Hr]. destruct Hm as [s' H1 H2 H3 _|s' H1 _ H3 H4|round server Hl Ha _ r|now|w].
  - split; [unfold quiet_reads, idle; by rewrite H1, H3|by rewrite H1|rewrite H1, H2; apply Hr].
  - split; [by intros _|lia|]. intros round Hr'. destruct H1. congruence.
  - split; [by intros H|done|]. intros round'. simpl. intros [= <-]. simpl. by apply Hr.
  - destruct (complete_reads now s) as (H1 & H2 & _ & H3 & H4 & H5). split.
    + unfold quiet_reads, idle. rewrite H1, H4. intros Hl%Hq. destruct Hl as [? Ha]. split; [done|].
      destruct H5; congruence.
    + by rewrite H3.
    + intros round Ha. rewrite H2, H3. apply Hr. destruct H5; congruence.
  - split.
    + intros Hl%Hq. destruct Hl as [Hp Ha]. unfold removeReadWaiterLocked, idle. simpl. by rewrite Hp, Ha.
    + done.
    + intros round (old & Ha & _ & -> & -> & _)%remove_active. by apply Hr.
Qed.

Lemma micro_leader ack s s' :
  micro ack s s' → m_status s' = Leader →
  m_status s = Leader ∧ m_currentTerm s' = m_currentTerm s ∧ rd_nextContext (reads s') = rd_nextContext (reads s).
Proof using Type.
  intros Hm. destruct Hm as [s' H1 H2 H3 _|s' _ _ _ H4|round server Hl Ha _ r|now|w]; [|done|done| |done].
  - by rewrite H1, H2, H3.
  - destruct (complete_reads now s) as (-> & -> & _ & -> & _). done.
Qed.

Lemma rtc_contexts ack n s s' : rtc (micro ack) s s' → contexts n s → contexts n s'.
Proof using Type. induction 1; eauto using micro_contexts. Qed.

Lemma rtc_leader ack s s' :
  rtc (micro ack) s s' → m_status s' = Leader →
  m_status s = Leader ∧ m_currentTerm s' = m_currentTerm s ∧ rd_nextContext (reads s') = rd_nextContext (reads s).
Proof using Type.
  induction 1 as [|s s1 s' Hm _ IH]; [done|]. intros Hl. destruct (IH Hl) as (Hl1 & Ht & Hx).
  destruct (micro_leader _ _ _ Hm Hl1) as (? & ? & ?). split_and!; [done|congruence|congruence].
Qed.

Lemma next_context_succ n s :
  (rd_nextContext (reads s) ≤ n)%N → fits64 (n + 1) → next_context s = (rd_nextContext (reads s) + 1)%N.
Proof using Type.
  intros Hn Hw. unfold next_context. unfold add64, wrap64. rewrite !N.mod_small by (unfold fits64 in Hw; lia). by destruct (N.eqb_spec (rd_nextContext (reads s) + 1) 0); [lia|].
Qed.

Lemma contexts_le n n' s : contexts n s → (n ≤ n')%N → contexts n' s.
Proof using Type. intros [] ?. split; [done|lia|done]. Qed.

Lemma start_round_contexts n s :
  contexts n s → m_status s = Leader → fits64 (n + 1) → contexts (n + 1) (start_round s).
Proof using Type.
  intros [Hq Hn Hr] Hl Hw. pose proof (next_context_succ n s Hn Hw) as Hx.
  split; [by intros H|simpl; lia|]. intros round [= <-]. done.
Qed.

Lemma contexts_same n s s1 :
  hard s1 = hard s → progress s1 = progress s → reads s1 = reads s → contexts n s → contexts n s1.
Proof using Type.
  intros Hh Hp Hr [Hq Hn Hx]. split; [unfold quiet_reads, idle|..]; rewrite Hr; try done.
  - by rewrite Hp.
  - by rewrite Hh.
Qed.

Lemma path_contexts ack n s s' :
  path ack s s' → contexts n s → fits64 (n + 1) → contexts (n + 1) s'.
Proof using Type.
  intros [H|s1 Hh Hp _ Hr Hl _ _ H] Hx Hw.
  - apply (contexts_le n); [|lia]. by eapply rtc_contexts.
  - eapply rtc_contexts; [done|]. apply start_round_contexts; [by apply (contexts_same n s)|by rewrite Hp|done].
Qed.

Lemma path_leader ack n s s' :
  path ack s s' → contexts n s → fits64 (n + 1) → m_status s' = Leader →
  m_status s = Leader ∧ m_currentTerm s' = m_currentTerm s ∧
  (rd_nextContext (reads s) ≤ rd_nextContext (reads s'))%N.
Proof using Type.
  intros [H|s1 Hh Hp _ Hr Hl _ _ H] Hx Hw Hl'; destruct (rtc_leader _ _ _ H Hl') as (? & -> & ->); [done|].
  split; [done|]. split; [simpl; by rewrite Hh|]. simpl.
  rewrite (next_context_succ n), Hr; [lia|rewrite Hr; apply Hx|done].
Qed.

(** After [n] steps: the contexts of the nodes and of the packets. *)
Record group_contexts (n : N) c : Prop := MkGroupContexts {
  gc_nodes : ∀ i s, cl_nodes c !! i = Some s → contexts n s;
  gc_sent : ∀ i s dst a, cl_nodes c !! i = Some s → m_status s = Leader → PAppend i dst a ∈ cl_net c →
    ae_term a = m_currentTerm s → (ae_readcontext a ≤ rd_nextContext (reads s))%N;
  gc_reply : ∀ m i a r, PAppendReply m i a r ∈ cl_net c →
    PAppend i m a ∈ cl_net c ∧ m < length (cl_nodes c) ∧
    (aer_readcontextaccepted r = true → aer_readcontextack r = ae_readcontext a)
}.

Lemma enqueued_contexts n w s s' : enqueued w s s' → contexts n s → contexts n s'.
Proof using Type.
  intros (Hl & deadline & ->) [Hq Hn Hr]. unfold ReadIndex_enqueue. rewrite bool_decide_true by done.
  split; [by intros H|done|done].
Qed.

Lemma enqueued_same w s s' :
  enqueued w s s' → m_status s' = Leader ∧ m_status s = Leader ∧ m_currentTerm s' = m_currentTerm s ∧
  rd_nextContext (reads s') = rd_nextContext (reads s).
Proof using Type.
  intros (Hl & deadline & ->). unfold ReadIndex_enqueue. by rewrite bool_decide_true by done.
Qed.

Lemma change_contexts c i ws n s s' :
  change c i ws s s' → contexts n s → fits64 (n + 1) → contexts (n + 1) s'.
Proof using Type.
  intros [Hp|[Hb Ha Hi Hf Hc] _|w _ He] Hx Hw.
  - by eapply path_contexts.
  - destruct Hi as [Hi1 Hi2]. split; [by intros _|rewrite Hc; pose proof (cx_next _ _ Hx); lia|congruence].
  - apply (contexts_le n); [|lia]. by eapply enqueued_contexts.
Qed.

(** A leader's own packets before the step. *)
Lemma change_sent c i ws n s s' dst a :
  change c i ws s s' → contexts n s → fits64 (n + 1) → m_status s' = Leader →
  PAppend i dst a ∈ cl_net c → ae_term a = m_currentTerm s' →
  m_status s = Leader ∧ m_currentTerm s' = m_currentTerm s ∧ (rd_nextContext (reads s) ≤ rd_nextContext (reads s'))%N.
Proof using Type.
  intros [Hp|Hwon Hf|w _ He] Hx Hw Hl Hin Ht.
  - by eapply path_leader.
  - exfalso. by apply (Hf dst a).
  - apply enqueued_same in He as (_ & ? & ? & ->). done.
Qed.

Lemma sent_context n c i s s' dst a :
  sent c i s s' (PAppend i dst a) → contexts n s' → (ae_readcontext a ≤ rd_nextContext (reads s'))%N.
Proof using Type.
  intros (_ & _ & _ & [->|(round & Hr & ->)]) Hx; [lia|]. by apply (cx_round _ _ Hx) in Hr as [_ ?].
Qed.

Lemma step_contexts n e c g c' :
  rel c g → group_contexts n c → fits64 (n + 1) → step cf e c = Some c' → group_contexts (n + 1) c'.
Proof using Type.
  intros Hrel [Hn Hs Hr] Hw Hst. apply (step_shape e c g) in Hst; [|done|intros i s Hi; by apply (Hn i)].
  destruct Hst as [i s s' ps Hi Hnd Hnet Hch Hps|ps Hnd Hnet Hps]; split; rewrite ?Hnd, ?Hnet, ?length_insert.
  - intros j sj [(-> & <- & _)|[_ Hj]]%list_lookup_insert_Some; [by eapply change_contexts; eauto|].
    apply (contexts_le n); [eauto|lia].
  - intros j sj dst a Hj Hl [Hin|Hin]%elem_of_app Ht.
    + apply list_lookup_insert_Some in Hj as [(-> & <- & _)|[_ Hj]]; [|by eapply Hs].
      destruct (change_sent _ _ _ n _ _ dst a Hch) as (? & ? & ?); [by eapply Hn|done..|].
      etrans; [|done]. eapply Hs; [done|done|done|congruence].
    + rewrite Forall_forall in Hps. specialize (Hps _ Hin). pose proof Hps as [<- _].
      apply list_lookup_insert_Some in Hj as [(_ & <- & _)|[? _]]; [|done].
      eapply sent_context; [done|]. eapply change_contexts; eauto.
  - intros m j a r [Hin|Hin]%elem_of_app.
    + destruct (Hr _ _ _ _ Hin) as (? & ? & ?). rewrite elem_of_app. tauto.
    + rewrite Forall_forall in Hps. destruct (Hps _ Hin) as (-> & Hp & Hacc). rewrite elem_of_app.
      split; [by left|]. split; [by eapply lookup_lt_Some|]. intros Ha. by apply Hacc.
  - intros j sj Hj. apply (contexts_le n); [eauto|lia].
  - intros j sj dst a Hj Hl [Hin|Hin]%elem_of_app Ht; [by eapply Hs|].
    rewrite Forall_forall in Hps. by apply Hps in Hin.
  - intros m j a r [Hin|Hin]%elem_of_app.
    + destruct (Hr _ _ _ _ Hin) as (? & ? & ?). rewrite elem_of_app. tauto.
    + rewrite Forall_forall in Hps. by apply Hps in Hin.
Qed.

Lemma initial_contexts : group_contexts 0 (initial cf).
Proof using Type.
  split.
  - intros i s Hs. apply list_lookup_fmap_Some in Hs as (n & -> & _). split; [done|simpl; lia|done].
  - intros i s dst a _ _ []%not_elem_of_nil.
  - intros m i a r []%not_elem_of_nil.
Qed.

Lemma run_contexts es n c g c' :
  rel c g → group_contexts n c → fits64 (n + N.of_nat (length es)) → run_events cf es c = Some c' →
  ∃ g', rel c' g' ∧ later g g' ∧ group_contexts (n + N.of_nat (length es)) c'.
Proof using Type.
  revert n c g. induction es as [|e es IH]; intros n c g Hrel Hx Hw; cbn [run_events].
  - intros [= <-]. exists g. rewrite N.add_0_r. done.
  - cbn [length] in Hw. destruct (step cf e c) as [c1|] eqn:Hs; [|done]. cbn [mbind option_bind]. intros Hes.
    destruct (step_rel cf c g e c1 Hrel Hs) as (g1 & Hrel1 & Hl1).
    destruct (IH (n + 1)%N c1 g1) as (g2 & Hrel2 & Hl2 & Hx2); [done| |unfold fits64 in *; lia|done|].
    { apply (step_contexts n e c g); [done|done|unfold fits64 in *; lia|done]. }
    exists g2. split; [done|]. split; [by eapply later_trans|].
    cbn [length]. by replace (n + N.of_nat (S (length es)))%N with (n + 1 + N.of_nat (length es))%N by lia.
Qed.

(** ** One read *)

Section read.
(** The read [w] is queued on node [i] in term [t0], after contexts up to [N0]
    and with the history [g0]. *)
Context (i w : nat) (t0 : Z) (N0 : N) (g0 : history).
Hypothesis Hg0 : ginv (vs cf) g0.

(** The node was not ahead of [t0] when the read was queued. *)
Definition behind (n : nat) : Prop := n < cf_size cf ∧ (g_term g0 n ≤ t0)%Z.

Definition covers_old (index : Z) : Prop := ∀ T, (T ≤ t0)%Z → (Z.of_nat (g_commit g0 T) ≤ index)%Z.
Definition covers (index : Z) : Prop := ∀ T, (Z.of_nat (g_commit g0 T) ≤ index)%Z.

Record round_watched (round : ReadRound) : Prop := MkRoundWatched {
  rw_term : round_term round = t0;
  rw_new : (N0 < round_context round)%N;
  rw_index : covers_old (round_readIndex round);
  rw_acks : ∀ p, p ∈ round_acknowledgedPeers round → ∃ n, p = Z.of_nat n ∧ behind n
}.

Record watched s : Prop := MkWatched {
  wt_members : m_status s = Leader → members s = cf_members cf i;
  wt_pending : w ∈ rd_pending (reads s) → m_currentTerm s = t0 ∧ (N0 ≤ rd_nextContext (reads s))%N;
  wt_round : ∀ round, rd_active (reads s) = Some round → w ∈ round_waiters round → round_watched round;
  wt_done : ∀ x, rd_waiters (reads s) !! w = Some x → rr_status (rw_result x) = ReadOk →
    covers (rr_readIndex (rw_result x))
}.

Lemma watched_complete round :
  round_watched round →
  (getQuorumLocked (cf_members cf i) ≤
     Z.of_nat (countb (isVoterLocked (cf_members cf i)) (elements (round_acknowledgedPeers round))))%Z →
  covers (round_readIndex round).
Proof using Hg0.
  intros [Ht _ Hidx Hacks] Hq.
  destruct (acks_quorum i (round_acknowledgedPeers round) (λ n, (g_term g0 n ≤ t0)%Z)) as (q & Hqq & Hall); [|done|].
  { intros p (n & -> & ? & ?)%Hacks. by exists n. }
  intros T. destruct (Z.le_gt_cases T t0) as [|HT]; [by apply Hidx|].
  rewrite (no_commit_after g0 t0 q T) by done. specialize (Hidx t0 ltac:(lia)). lia.
Qed.

Lemma complete_waiters now round ids (ws : gmap nat ReadWaiter) x :
  foldr (λ j m, alter (complete_waiter now round) j m) ws ids !! w = Some x →
  ws !! w = Some x ∨ (w ∈ ids ∧ rr_readIndex (rw_result x) = round_readIndex round).
Proof using Type.
  induction ids as [|j ids IH] in x |- *; [by left|]. simpl. destruct (decide (j = w)) as [->|Hne].
  - rewrite lookup_alter_eq, fmap_Some. intros (y & _ & ->). right. split; [left|done].
  - rewrite lookup_alter_ne by done. intros [?|[? ?]]%IH; [by left|]. right. split; [by right|done].
Qed.

Lemma complete_watched now s : watched s → watched (completeReadRoundIfQuorumLocked now s).
Proof using Hg0.
  intros Hw. unfold completeReadRoundIfQuorumLocked. destruct (rd_active (reads s)) as [round|] eqn:Ha; [|done].
  destruct (_ || _) eqn:Hg; [done|]. apply orb_false_iff in Hg as [_ Hl%negb_false_iff%bool_decide_eq_true].
  destruct (Z.ltb_spec (Z.of_nat (countb (isVoterLocked (members s)) (elements (round_acknowledgedPeers round))))
              (getQuorumLocked (members s))) as [|Hq]; [done|].
  rewrite (wt_members _ Hw Hl) in Hq. destruct Hw as [Hm Hp Hr Hd]. split; [done|done|done|]. simpl.
  intros x [Hx|[Hin Hx]]%complete_waiters Hok; [by apply Hd|]. rewrite Hx.
  apply watched_complete; [by apply Hr|done].
Qed.

Lemma remove_watched w' s : watched s → watched (removeReadWaiterLocked w' s).
Proof using Type.
  intros [Hm Hp Hr Hd]. split; [done| | |done].
  - simpl. intros [_ ?]%list_elem_of_filter. by apply Hp.
  - intros round (old & Ha & Hsub & H1 & H2 & H3 & H4)%remove_active Hin.
    destruct (Hr old Ha (Hsub _ Hin)). split; [congruence|by rewrite H1|by rewrite H3|by rewrite H4].
Qed.

Lemma stop_watched s s' :
  idle s' → only_failed (rd_waiters (reads s)) (rd_waiters (reads s')) →
  (m_status s' = Leader → members s' = cf_members cf i) → watched s → watched s'.
Proof using Type.
  intros [Hp Ha] Hf Hm Hw. split; [done|rewrite Hp; by intros []%not_elem_of_nil|by rewrite Ha|].
  intros x [Hx|Hx]%Hf Hok; [by eapply wt_done|done].
Qed.

Section moves.
Context (ack : N → Z → nat → Prop).
Hypothesis Hack : ∀ context server, (N0 < context)%N → ack context t0 server → behind server.

Lemma micro_watched s s' : micro ack s s' → watched s → watched s'.
Proof using Hg0 Hack.
  intros Hmi Hw. destruct Hmi as [s' H1 H2 H3 H4|s' H1 H2 _ H4|round server Hl Ha Hs r|now|w'].
  - destruct Hw as [Hm Hp Hr Hd]. split; rewrite ?H1, ?H2, ?H3, ?H4; done.
  - by apply (stop_watched s).
  - destruct Hw as [Hm Hp Hr Hd]. split; [done|done| |done]. simpl. intros round' [= <-] Hin.
    destruct (Hr round Ha Hin) as [Ht Hn Hi Hk]. split; [done|done|done|].
    simpl. intros p [->%elem_of_singleton|?]%elem_of_union; [|by apply Hk].
    exists server. split; [done|]. apply (Hack (round_context round)); [done|]. by rewrite <- Ht.
  - by apply complete_watched.
  - by apply remove_watched.
Qed.

Lemma rtc_watched s s' : rtc (micro ack) s s' → watched s → watched s'.
Proof using Hg0 Hack. induction 1; eauto using micro_watched. Qed.

Lemma has_committed_same s s1 :
  hard s1 = hard s → progress s1 = progress s →
  hasCommittedEntryInCurrentTermLocked s1 = hasCommittedEntryInCurrentTermLocked s.
Proof using Type. destruct s, s1. simpl. by intros -> ->. Qed.

(** A round that is started for the read. *)
Lemma start_watched c g n s s1 :
  rel c g → later g0 g → cl_nodes c !! i = Some s → contexts n s → fits64 (n + 1) →
  (g_term g0 i ≤ t0)%Z → hard s1 = hard s → progress s1 = progress s → members s1 = members s →
  reads s1 = reads s → m_status s = Leader → hasCommittedEntryInCurrentTermLocked s1 = Some true →
  watched s → watched (start_round s1).
Proof using Type.
  intros Hrel Hla Hs Hx Hfit Hi0 Hh Hp Hm Hr Hl Hc [Hwm Hwp Hwr Hwd].
  pose proof (rel_nodes _ _ _ Hrel _ _ Hs) as Hn. rewrite (has_committed_same s s1 Hh Hp) in Hc.
  split; [by intros _; simpl; rewrite Hm, Hwm|simpl; by intros []%not_elem_of_nil| |simpl; by rewrite Hr].
  intros round [= <-] Hin. simpl in Hin. rewrite Hr in Hin. destruct (Hwp Hin) as [Ht HN]. split; simpl.
  - by rewrite Hh.
  - rewrite (next_context_succ n s1), Hr; [lia|rewrite Hr; apply Hx|done].
  - intros T HT. rewrite Hp. etrans; [apply inj_le, (la_commit _ _ Hla)|].
    apply (committed_covers g i s); [apply Hrel|apply Hrel|done|done|done|lia].
  - intros p ->%elem_of_singleton. exists i. rewrite Hm, Hwm by done. split; [by rewrite cf_members_eq|].
    split; [|done]. rewrite <- (rel_size _ _ _ Hrel). by eapply lookup_lt_Some.
Qed.

Lemma path_watched c g n s s' :
  rel c g → later g0 g → cl_nodes c !! i = Some s → contexts n s → fits64 (n + 1) →
  (g_term g0 i ≤ t0)%Z → path ack s s' → watched s → watched s'.
Proof using Hg0 Hack.
  intros Hrel Hla Hs Hx Hfit Hi0 [H|s1 Hh Hp Hm Hr Hl _ Hc H] Hw; (eapply rtc_watched; [exact H|]); [done|].
  by apply (start_watched c g n s).
Qed.

End moves.

Lemma enqueue_watched w' s s' : enqueued w' s s' → w' ≠ w → watched s → watched s'.
Proof using Type.
  intros (Hl & deadline & ->) Hne [Hm Hp Hr Hd]. unfold ReadIndex_enqueue. rewrite bool_decide_true by done.
  split; [done| |done|].
  - simpl. intros [?| ->%list_elem_of_singleton]%elem_of_app; [by apply Hp|done].
  - simpl. intros x. rewrite lookup_insert_ne by done. apply Hd.
Qed.

(** The read in the group. *)
Record group_watched c : Prop := MkGroupWatched {
  gw_node : ∀ s, cl_nodes c !! i = Some s → watched s;
  gw_reply : ∀ m a r, PAppendReply m i a r ∈ cl_net c → aer_readcontextaccepted r = true →
    ae_term a = t0 → (N0 < aer_readcontextack r)%N → behind m
}.

Lemma change_watched c g g' n e s s' :
  rel c g → later g0 g → group_contexts n c → fits64 (n + 1) → (g_term g0 i ≤ t0)%Z →
  node_ok cf g' i s' → adds e ≠ Some (i, w) → cl_nodes c !! i = Some s → change c i (adds e) s s' →
  group_watched c → watched s'.
Proof using Hg0.
  intros Hrel Hla Hx Hfit Hi0 Hn' Hne Hs [Hp|[_ _ Hidle Hf _] _|w' Hadd He] [Hw Hr].
  - eapply (path_watched (answered c i)); [|done|done|done|by eapply gc_nodes|done|done|done|by apply Hw].
    intros context server Hctx (a & r & Hin & Hacc & Hack & Ht). eapply Hr; [done|done|done|lia].
  - apply (stop_watched s); [done|done|intros _; apply Hn'|by apply Hw].
  - apply (enqueue_watched w' s); [done|congruence|by apply Hw].
Qed.

Lemma sent_behind c g j s s' m a r :
  rel c g → later g0 g → cl_nodes c !! j = Some s → sent c j s s' (PAppendReply m i a r) →
  aer_readcontextaccepted r = true → ae_term a = t0 → behind m.
Proof using Type.
  intros Hrel Hla Hs (-> & _ & Hacc) Ha Ht. destruct (Hacc Ha) as [_ Hle]. split.
  - rewrite <- (rel_size _ _ _ Hrel). by eapply lookup_lt_Some.
  - pose proof (la_term _ _ Hla j). pose proof (no_term _ _ _ _ (rel_nodes _ _ _ Hrel _ _ Hs)). lia.
Qed.

Lemma step_watched n e c g c' :
  rel c g → later g0 g → group_contexts n c → fits64 (n + 1) → (g_term g0 i ≤ t0)%Z →
  adds e ≠ Some (i, w) → step cf e c = Some c' → group_watched c → group_watched c'.
Proof using Hg0.
  intros Hrel Hla Hx Hfit Hi0 Hne Hst Hw. destruct (step_rel cf c g e c' Hrel Hst) as (g' & Hrel' & _).
  apply (step_shape e c g) in Hst; [|done|intros j s Hj; by apply (gc_nodes _ _ Hx j)].
  destruct Hst as [j s s' ps Hj Hnd Hnet Hch Hps|ps Hnd Hnet Hps]; split; rewrite ?Hnet.
  - intros si Hsi. pose proof (rel_nodes _ _ _ Hrel' _ _ Hsi) as Hn'. rewrite Hnd in Hsi.
    apply list_lookup_insert_Some in Hsi as [(-> & <- & _)|[_ Hsi]]; [|by apply Hw].
    by apply (change_watched c g g' n e s).
  - intros m a r [Hin|Hin]%elem_of_app; [by apply Hw|]. intros Ha Ht _. rewrite Forall_forall in Hps.
    apply (sent_behind c g j s s' m a r); [done|done|done|by apply Hps|done|done].
  - rewrite Hnd. apply Hw.
  - intros m a r [Hin|Hin]%elem_of_app; [by apply Hw|]. rewrite Forall_forall in Hps. by apply Hps in Hin.
Qed.

Lemma run_watched es n c g c' :
  rel c g → later g0 g → group_contexts n c → fits64 (n + N.of_nat (length es)) → (g_term g0 i ≤ t0)%Z →
  Forall (λ e, adds e ≠ Some (i, w)) es → run_events cf es c = Some c' → group_watched c → group_watched c'.
Proof using Hg0.
  revert n c g. induction es as [|e es IH]; intros n c g Hrel Hla Hx Hfit Hi0 Hne; cbn [run_events].
  - by intros [= <-].
  - apply Forall_cons in Hne as [Hne Hnes]. cbn [length] in Hfit.
    destruct (step cf e c) as [c1|] eqn:Hs; [|done]. cbn [mbind option_bind]. intros Hes Hw.
    assert (fits64 (n + 1)) as Hfit1 by (unfold fits64 in *; lia).
    destruct (step_rel cf c g e c1 Hrel Hs) as (g1 & Hrel1 & Hl1).
    apply (IH (n + 1)%N c1 g1); [done|by eapply later_trans|by apply (step_contexts n e c g)|unfold fits64 in *; lia|done|done|done|].
    by apply (step_watched n e c g).
Qed.

End read.

(** ** The theorem *)

(** A covering index is not below the commit index of any node. *)
Lemma covers_commit c g j s index :
  rel c g → cl_nodes c !! j = Some s → covers g index → (m_commitIndex s ≤ index)%Z.
Proof using Type.
  intros Hrel Hj Hc. destruct (no_log _ _ _ _ (rel_nodes _ _ _ Hrel _ _ Hj)) as [F HF].
  pose proof (lo_commit _ _ _ _ _ _ HF) as Hb. pose proof (Hc 0%Z) as H0.
  assert (length (take (Z.to_nat (m_commitIndex s)) (F ++ drop (length F) (g_log g j))) = Z.to_nat (m_commitIndex s)) as Hl.
  { rewrite length_take, length_app, length_drop. pose proof (lo_len _ _ _ _ _ _ HF). lia. }
  destruct (lo_safe _ _ _ _ _ _ HF) as [He|(T & _ & _ & Hp)].
  - rewrite He in Hl. simpl in Hl. lia.
  - apply prefix_length in Hp. rewrite Hl, length_take in Hp. specialize (Hc T). lia.
Qed.

(** Before its call, a waiter is nowhere. *)
Lemma unnamed_before es c i w s :
  run_events cf es (initial cf) = Some c → fits64 (N.of_nat (length es)) →
  Forall (λ e, adds e ≠ Some (i, w)) es → cl_nodes c !! i = Some s →
  w ∉ rd_pending (reads s) ∧ ∀ round, rd_active (reads s) = Some round → w ∉ round_waiters round.
Proof using Type.
  intros Hrun Hfit Hes Hs.
  destruct (run_contexts es 0 _ _ _ (initial_rel cf) initial_contexts Hfit Hrun) as (g' & _ & _ & Hx).
  pose proof (gc_nodes _ _ Hx i s Hs) as Hxs.
  assert (group_watched i w 0 u64_size start_history c) as [Hw _].
  { eapply (run_watched i w 0 u64_size start_history (start_ginv _) es 0 (initial cf) start_history);
      [apply initial_rel|by split|apply initial_contexts|done|done|done|done|]. split.
    - intros s1 Hs1. apply list_lookup_fmap_Some in Hs1 as (n & -> & Hn). apply lookup_seq in Hn as [-> _].
      split; [done|by intros []%not_elem_of_nil|done|done].
    - intros m a r []%not_elem_of_nil. }
  destruct (Hw s Hs) as [_ Hp Hr _]. pose proof (cx_next _ _ Hxs). unfold fits64 in Hfit. split.
  - intros Hin. destruct (Hp Hin). lia.
  - intros round Ha Hin. destruct (Hr round Ha Hin). destruct (cx_round _ _ Hxs round Ha). lia.
Qed.

(** The group just after the call. *)
Lemma barrier_watched n c c1 g i w deadline s :
  rel c g → group_contexts n c → cl_nodes c !! i = Some s → m_status s = Leader →
  w ∉ rd_pending (reads s) → (∀ round, rd_active (reads s) = Some round → w ∉ round_waiters round) →
  step cf (ReadBarrier i w deadline) c = Some c1 →
  group_watched i w (m_currentTerm s) (rd_nextContext (reads s)) g c1.
Proof using Type.
  intros Hrel Hx Hs Hl Hp Hr. unfold step. rewrite Hs. cbn [mbind option_bind]. intros [= <-]. split.
  - intros s1 [(_ & <- & _)|[? _]]%list_lookup_insert_Some; [|done]. unfold ReadIndex_enqueue.
    rewrite bool_decide_true by done. split; simpl.
    + intros _. apply (rel_nodes _ _ _ Hrel _ _ Hs).
    + done.
    + intros round Ha Hin. by destruct (Hr round Ha).
    + intros x. rewrite lookup_insert_eq. by intros [= <-].
  - intros m a r Hin Hacc Ht Hlt. destruct (gc_reply _ _ Hx _ _ _ _ Hin) as (Hsent & _ & Hctx).
    pose proof (gc_sent _ _ Hx _ _ _ _ Hs Hl Hsent Ht). rewrite Hctx in Hlt by done. lia.
Qed.

(** [C4] Reads through [ReadIndex] are linearizable: when a call that was made
    on node [i] succeeds, at whatever later point and whatever happened in
    between, the index it returns is at least the commit index that any node of
    the group had when the call was made.  [w] names this call only, and the run
    is shorter than the 64-bit counter of the contexts. *)
Theorem read_index_linearizable es0 es1 c0 c1 c2 i w deadline timedOut s0 s2 r j sj :
  run_events cf es0 (initial cf) = Some c0 → step cf (ReadBarrier i w deadline) c0 = Some c1 →
  run_events cf es1 c1 = Some c2 → Forall (λ e, adds e ≠ Some (i, w)) (es0 ++ es1) →
  fits64 (N.of_nat (S (length (es0 ++ es1)))) →
  cl_nodes c0 !! i = Some s0 → (ReadIndex_enqueue w deadline s0).2 = None →
  cl_nodes c2 !! i = Some s2 → (ReadIndex_wait w timedOut s2).2 = Some r → rr_status r = ReadOk →
  cl_nodes c0 !! j = Some sj → (m_commitIndex sj ≤ rr_readIndex r)%Z.
Proof using Type.
  intros Hrun0 Hbar Hrun1 [Hes0 Hes1]%Forall_app Hfit Hs0 Hcall Hs2 Hwait Hok Hj.
  rewrite length_app in Hfit. assert (m_status s0 = Leader) as Hl.
  { revert Hcall. unfold ReadIndex_enqueue. by case_bool_decide. }
  destruct (run_contexts es0 0 _ _ _ (initial_rel cf) initial_contexts ltac:(unfold fits64 in *; lia) Hrun0)
    as (g0 & Hrel0 & _ & Hx0).
  destruct (unnamed_before es0 c0 i w s0) as [Hp Hr]; [done|unfold fits64 in *; lia|done|done|].
  pose proof (barrier_watched _ c0 c1 g0 i w deadline s0 Hrel0 Hx0 Hs0 Hl Hp Hr Hbar) as Hw1.
  destruct (step_rel cf _ _ _ _ Hrel0 Hbar) as (g1 & Hrel1 & Hl1).
  assert (group_contexts (N.of_nat (length es0) + 1) c1) as Hx1.
  { apply (step_contexts _ (ReadBarrier i w deadline) c0 g0); [done|done|unfold fits64 in *; lia|done]. }
  apply (run_watched i w _ _ g0 (rel_ginv _ _ _ Hrel0) es1 (N.of_nat (length es0) + 1) c1 g1 c2) in Hw1;
    [|done|done|done|unfold fits64 in *; lia| |done|done].
  2: { apply (no_term _ _ _ _ (rel_nodes _ _ _ Hrel0 _ _ Hs0)). }
  apply (covers_commit c0 g0 j sj); [done|done|]. destruct (gw_node _ _ _ _ _ _ Hw1 s2 Hs2) as [_ _ _ Hd].
  revert Hwait. unfold ReadIndex_wait. destruct (rd_waiters (reads s2) !! w) as [x|]; [|done].
  destruct (rw_completed x); [intros [= <-]; by apply (Hd x)|].
  destruct (negb _); [by intros [= <-]|]. destruct timedOut; by intros [= <-].
Qed.

End group.

(** ** A read *)

Definition demo_before : list event := demo_elect ++ demo_commit.
Definition demo_call : cluster := demo_run [ReadBarrier 0 7 1000] demo_done.
Definition demo_round : list event := [HeartBeat 0 0; Replicate 0 1 0; Deliver 7 0; Deliver 8 0].
Definition demo_answered : cluster := demo_run demo_round demo_call.

Lemma read_index_linearizable_witness :
  (ReadIndex_wait 7 false (demo_node demo_answered 0)).2 = Some (Build_ReadIndexResult ReadOk 1 2 1) ∧
  m_commitIndex (demo_node demo_done 1) = 2%Z ∧ (m_commitIndex (demo_node demo_done 1) ≤ 2)%Z.
Proof.
  split; [vm_compute; reflexivity|]. split; [vm_compute; reflexivity|].
  apply (read_index_linearizable demo_config demo_before demo_round demo_done demo_call demo_answered 0 7 1000 false
           (demo_node demo_done 0) (demo_node demo_answered 0) (Build_ReadIndexResult ReadOk 1 2 1) 1
           (demo_node demo_done 1)); try (vm_compute; reflexivity).
  repeat constructor; discriminate.
Defined.
