(* ===== verification/RaftMembership.v ===== *)
(** * Raft: membership changes and log compaction policy

    [ApplyConfChange] and the queries around it (src/src/raft/raft.cpp), and the
    decision when to compact the log ([EvaluateRaftLogGc] of
    src/src/raft/include/raft_log_gc.h, [EvaluateLogGc] of raft.cpp). *)

From S2P Require Import Prelude Wire RaftTypes RaftNode RaftCluster RaftGhost RaftMoves RaftEvolve RaftRel RaftView RaftSim RaftReplicate RaftInstall RaftSafety RaftTheorems.

(** ** Membership *)

Inductive ConfChangeType :=
| CONF_CHANGE_ADD_PEER | CONF_CHANGE_REMOVE_PEER | CONF_CHANGE_ADD_LEARNER
| CONF_CHANGE_PROMOTE_LEARNER.

(** The fields of [ConfChangeCommand] that [ApplyConfChange] reads. *)
Record ConfChangeCommand := { cc_changetype : ConfChangeType; cc_peerid : N }.

(** The first position of a peer id. *)
Definition find_peer (peerId : N) (m : Members) : option nat :=
  fst <$> list_find (λ p, p = peerId) (mb_peerIds m).

Definition set_role (i : nat) (role : PeerRole) (m : Members) : Members :=
  Build_Members (mb_me m) (mb_peers m) (mb_peerIds m) (<[i := role]> (mb_peerRoles m))
    (mb_localPeerId m) (mb_removed m).

Definition add_learner (peerId : N) (s : Raft) : Raft :=
  let m := members s in
  let ids := mb_peerIds m ++ [peerId] in
  set_replication (q_replication (queues s) ++ [[]])
    (set_indexes (m_nextIndex s ++ [getLastLogIndex s + 1]%Z) (m_matchIndex s ++ [0%Z])
       (set_members
          (Build_Members (mb_me m) (if mb_peers m <? length ids then S (mb_peers m) else mb_peers m)
             ids (mb_peerRoles m ++ [Learner]) (mb_localPeerId m) (mb_removed m)) s)).

(** The node finds itself removed. *)
Definition mark_removed (s : Raft) : Raft :=
  let m := members s in
  let s1 := set_members (Build_Members (mb_me m) (mb_peers m) (mb_peerIds m) (mb_peerRoles m)
                           (mb_localPeerId m) true) s in
  if bool_decide (m_status s1 = Leader)
  then set_status Follower (abortReadIndexLocked ReadNotLeader s1) else s1.

Definition ApplyConfChange (command : ConfChangeCommand) (s : Raft) : Raft :=
  let targetPeerId := cc_peerid command in
  match cc_changetype command, find_peer targetPeerId (members s) with
  | CONF_CHANGE_ADD_LEARNER, Some i => set_members (set_role i Learner (members s)) s
  | CONF_CHANGE_ADD_LEARNER, None => add_learner targetPeerId s
  | CONF_CHANGE_PROMOTE_LEARNER, Some i => set_members (set_role i Voter (members s)) s
  | CONF_CHANGE_REMOVE_PEER, Some i =>
      let s1 := set_members (set_role i Removed (members s)) s in
      if bool_decide (targetPeerId = mb_localPeerId (members s)) || bool_decide (i = m_me s)
      then mark_removed s1 else s1
  | _, _ => s
  end.

(** The scan of the entries after [m_lastApplied]. *)
Definition HasConfChangeInFlightLocked (s : Raft) : bool :=
  q_confChangePending (queues s) ||
  existsb (λ k,
    let index := (m_lastApplied s + 1 + Z.of_nat k)%Z in
    let sliceIdx := (index - m_lastSnapshotIncludeIndex s - 1)%Z in
    negb (index <=? m_lastSnapshotIncludeIndex s)%Z &&
    match (if (0 <=? sliceIdx)%Z then m_logs s !! Z.to_nat sliceIdx else None) with
    | Some e => is_conf_change
                  (Op_parseFromString (Build_Op EmptyString EmptyString EmptyString EmptyString 0 EmptyString)
                     (command e)).1
    | None => false
    end) (seq 0 (Z.to_nat (getLastLogIndex s - m_lastApplied s))).

Definition IsPeerCaughtUp (peerId : N) (maxLag : Z) (s : Raft) : bool :=
  bool_decide (m_status s = Leader) &&
  match find_peer peerId (members s) ≫= λ i, m_matchIndex s !! i with
  | Some mtch => (m_commitIndex s - maxLag <=? mtch)%Z
  | None => false
  end.

Definition GetPeerLag (peerId : N) (s : Raft) : Z :=
  if negb (bool_decide (m_status s = Leader)) then -1
  else match find_peer peerId (members s) ≫= λ i, m_matchIndex s !! i with
       | Some mtch => Z.max 0 (m_commitIndex s - mtch)
       | None => -1
       end.

Definition GetPeerMatchIndex (peerId : N) (s : Raft) : Z :=
  default (-1)%Z (find_peer peerId (members s) ≫= λ i, m_matchIndex s !! i).

(** ** Log compaction *)

Record RaftLogGcConfig := { gc_threshold : N; gc_countLimit : N; gc_sizeLimitBytes : N }.

Record RaftLogGcState := {
  gs_truncatedIndex : Z;
  gs_appliedIndex : Z;
  gs_replicatedIndex : Z;
  gs_logCount : N;
  gs_approximateSizeBytes : N;
}.

Record RaftLogGcDecision := {
  gd_compactIndex : Z;
  gd_reclaimableCount : N;
  gd_softThreshold : bool;
  gd_countLimit : bool;
  gd_sizeLimit : bool;
}.

Definition ShouldGc (d : RaftLogGcDecision) : bool := (0 <? gd_compactIndex d)%Z.

Definition EvaluateRaftLogGc (config : RaftLogGcConfig) (state : RaftLogGcState)
    : RaftLogGcDecision :=
  let truncated := gs_truncatedIndex state in
  let applied := Z.max truncated (gs_appliedIndex state) in
  if (applied <=? truncated)%Z then Build_RaftLogGcDecision 0 0 false false false
  else
    let byCount := (0 <? gc_countLimit config)%N && (gc_countLimit config <=? gs_logCount state)%N in
    let bySize := (0 <? gc_sizeLimitBytes config)%N &&
                  (gc_sizeLimitBytes config <=? gs_approximateSizeBytes state)%N in
    if byCount || bySize
    then Build_RaftLogGcDecision applied (Z.to_N (applied - truncated)) false byCount bySize
    else
      let replicated := Z.max truncated (Z.min (gs_replicatedIndex state) applied) in
      let reclaimable := Z.to_N (replicated - truncated) in
      if (0 <? gc_threshold config)%N && (gc_threshold config <=? reclaimable)%N
      then Build_RaftLogGcDecision applied (Z.to_N (applied - truncated)) true byCount bySize
      else Build_RaftLogGcDecision 0 0 false byCount bySize.

(** [raftStateSize] is what the persister reports. *)
Definition EvaluateLogGc (stateMachineAppliedIndex : Z) (config : RaftLogGcConfig)
    (raftStateSize : N) (s : Raft) : RaftLogGcDecision :=
  if (stateMachineAppliedIndex <? m_lastSnapshotIncludeIndex s)%Z
  then Build_RaftLogGcDecision 0 0 false false false
  else
    let applied := Z.min (Z.min (Z.min stateMachineAppliedIndex (m_lastApplied s)) (m_commitIndex s))
                     (getLastLogIndex s) in
    let replicated :=
      if bool_decide (m_status s = Leader)
      then foldl (λ acc p, if bool_decide (p.1 = m_me s) then acc else Z.min acc p.2) applied
             (imap pair (m_matchIndex s))
      else applied in
    EvaluateRaftLogGc config
      (Build_RaftLogGcState (m_lastSnapshotIncludeIndex s) applied replicated
         (N.of_nat (length (m_logs s))) raftStateSize).

(** ** The arrays indexed by peer *)

(** Every per-peer member has one element per peer. *)
Record aligned (s : Raft) : Prop := {
  al_peers : mb_peers (members s) = length (mb_peerIds (members s));
  al_roles : length (mb_peerRoles (members s)) = length (mb_peerIds (members s));
  al_next : length (m_nextIndex s) = length (mb_peerIds (members s));
  al_match : length (m_matchIndex s) = length (mb_peerIds (members s));
  al_queues : length (q_replication (queues s)) = length (mb_peerIds (members s));
}.

Lemma find_peer_lt peerId m i :
  find_peer peerId m = Some i → i < length (mb_peerIds m) ∧ mb_peerIds m !! i = Some peerId.
Proof.
  unfold find_peer. intros ([j x] & Hf & ->)%fmap_Some. apply list_find_Some in Hf as (Hx & -> & _).
  simpl. split; [by eapply lookup_lt_Some|done].
Qed.

Lemma aligned_init now peers me localPeerId peerIds learners d :
  length peerIds = peers ∨ peerIds = [] →
  aligned (init now (init_members peers me localPeerId peerIds learners) d).
Proof.
  intros H. destruct peerIds as [|p ps].
  - split; simpl; rewrite ?length_fmap, ?length_seq, ?length_replicate; done.
  - destruct H as [<-|]; [|done].
    split; cbn [init init_members members queues progress mb_peers mb_peerIds mb_peerRoles pg_nextIndex
      pg_matchIndex q_replication]; rewrite ?length_imap, ?length_replicate; done.
Qed.

Lemma aligned_mark_removed s : aligned s → aligned (mark_removed s).
Proof. intros [? ? ? ? ?]. unfold mark_removed. by case_bool_decide. Qed.

Lemma aligned_set_role i r s : aligned s → aligned (set_members (set_role i r (members s)) s).
Proof. intros [? ? ? ? ?]. split; simpl; rewrite ?length_insert; done. Qed.

Lemma aligned_add_learner peerId s : aligned s → aligned (add_learner peerId s).
Proof.
  intros [? ? ? ? ?].
  split; simpl; rewrite ?length_app; simpl; try lia.
  destruct (Nat.ltb_spec (m_peers s) (length (mb_peerIds (members s)) + 1)); lia.
Qed.

Lemma aligned_conf_change c s : aligned s → aligned (ApplyConfChange c s).
Proof.
  intros Hs. unfold ApplyConfChange.
  destruct (cc_changetype c), (find_peer (cc_peerid c) (members s));
    auto using aligned_set_role, aligned_add_learner.
  destruct (_ || _); auto using aligned_set_role, aligned_mark_removed.
Qed.

(** The per-peer arrays of a Raft node stay aligned: peer ids, roles,
    connections, [m_nextIndex], [m_matchIndex] and the replication queues have
    one element per peer after start-up and after any sequence of membership
    changes, so an index found among the peer ids is valid in all of them. *)
Theorem conf_changes_keep_arrays now peers me localPeerId peerIds learners d commands :
  length peerIds = peers →
  let s := foldl (λ s c, ApplyConfChange c s)
             (init now (init_members peers me localPeerId peerIds learners) d) commands in
  aligned s ∧ ∀ peerId i, find_peer peerId (members s) = Some i →
    is_Some (m_peerRoles s !! i) ∧ is_Some (m_nextIndex s !! i) ∧ is_Some (m_matchIndex s !! i) ∧
    is_Some (q_replication (queues s) !! i) ∧ i < m_peers s.
Proof.
  intros Hl s. assert (aligned s) as Hs.
  { unfold s. apply (or_introl (B := peerIds = [])) in Hl.
    pose proof (aligned_init now peers me localPeerId peerIds learners d Hl) as Hi. revert Hi.
    generalize (init now (init_members peers me localPeerId peerIds learners) d). clear.
    induction commands as [|c cs IH]; intros s Hs; simpl; [done|]. by apply IH, aligned_conf_change. }
  split; [done|]. intros peerId i Hf. apply find_peer_lt in Hf as [Hi _]. destruct Hs.
  repeat split; try apply lookup_lt_is_Some_2; lia.
Qed.

Lemma conf_changes_keep_arrays_witness :
  let s := foldl (λ s c, ApplyConfChange c s) (init 0 (init_members 2 0 7 [7; 8]%N []) empty_disk)
             [Build_ConfChangeCommand CONF_CHANGE_ADD_LEARNER 9;
              Build_ConfChangeCommand CONF_CHANGE_PROMOTE_LEARNER 9;
              Build_ConfChangeCommand CONF_CHANGE_REMOVE_PEER 7] in
  aligned s ∧ ∀ peerId i, find_peer peerId (members s) = Some i →
    is_Some (m_peerRoles s !! i) ∧ is_Some (m_nextIndex s !! i) ∧ is_Some (m_matchIndex s !! i) ∧
    is_Some (q_replication (queues s) !! i) ∧ i < m_peers s.
Proof. apply (conf_changes_keep_arrays 0 2 0 7 [7; 8]%N []). reflexivity. Defined.

(** ** Quorums across one change *)

Definition voters (m : Members) : gset nat :=
  list_to_set (List.filter
    (λ i, match mb_peerRoles m !! i with Some r => is_role Voter r | None => false end)
    (seq 0 (length (mb_peerRoles m)))).

Lemma elem_of_voters m i : i ∈ voters m ↔ mb_peerRoles m !! i = Some Voter.
Proof.
  unfold voters. rewrite elem_of_list_to_set, list_elem_of_In, List.filter_In, <- list_elem_of_In, elem_of_seq.
  unfold is_role. split.
  - intros [_ H]. destruct (mb_peerRoles m !! i) as [r|]; [|done]. by apply bool_decide_eq_true in H as ->.
  - intros H. rewrite H. pose proof (lookup_lt_Some _ _ _ H). split; [lia|done].
Qed.

Lemma quorum_size m :
  mb_peerRoles m ≠ [] → getQuorumLocked m = (Z.of_nat (size (voters m)) / 2 + 1)%Z.
Proof.
  intros Hne. unfold getQuorumLocked, getVoterCountLocked.
  destruct (mb_peerRoles m) eqn:Hr; [done|]. rewrite <- Hr.
  unfold voters. rewrite size_list_to_set, filter_seq_count; [done|].
  apply NoDup_ListNoDup, List.NoDup_filter, NoDup_ListNoDup, NoDup_seq.
Qed.

(** Two sets of voters that differ in at most one peer have no disjoint
    majorities. *)
Lemma majorities_meet (V V' Q Q' : gset nat) t :
  (∀ i, i ≠ t → i ∈ V ↔ i ∈ V') → Q ⊆ V → Q' ⊆ V' →
  (Z.of_nat (size V) / 2 + 1 ≤ Z.of_nat (size Q))%Z →
  (Z.of_nat (size V') / 2 + 1 ≤ Z.of_nat (size Q'))%Z → ∃ i, i ∈ Q ∩ Q'.
Proof.
  intros Hd HQ HQ' Hs Hs'. destruct (decide (Q ∩ Q' = ∅)) as [He|Hne]; [|by apply set_choose_L].
  exfalso. assert (size (Q ∪ Q') = size Q + size Q') as Hsum by (apply size_union; set_solver).
  assert (∀ A B : gset nat, (∀ i, i ≠ t → i ∈ A → i ∈ B) → size A ≤ size B + 1) as Hone.
  { intros A B HAB. transitivity (size (B ∪ {[t]})); [apply subseteq_size|].
    - intros i Hi. destruct (decide (i = t)); [set_solver|]. apply elem_of_union_l. by apply HAB.
    - rewrite size_union_alt, <- (size_singleton t (C := gset nat)).
      apply Nat.add_le_mono_l, subseteq_size. set_solver. }
  pose proof (Hone V V' ltac:(intros i Hi; by apply Hd)).
  pose proof (Hone V' V ltac:(intros i Hi; by apply Hd)).
  assert (size (Q ∪ Q') ≤ size V ∨ size (Q ∪ Q') ≤ size V') as Hle.
  { destruct (decide (t ∈ V)) as [Ht|Ht]; [left|right]; apply subseteq_size; intros i Hi;
      (destruct (decide (i = t)) as [->|Hi']; [set_solver|]); pose proof (Hd i Hi'); set_solver. }
  pose proof (Z.div_mod (Z.of_nat (size V)) 2 ltac:(lia)). pose proof (Z.mod_pos_bound (Z.of_nat (size V)) 2).
  pose proof (Z.div_mod (Z.of_nat (size V')) 2 ltac:(lia)). pose proof (Z.mod_pos_bound (Z.of_nat (size V')) 2).
  lia.
Qed.

(** One command changes the role of at most one peer. *)
Lemma conf_change_one_peer c s :
  ∃ t, ∀ i, i ≠ t → i ∈ voters (members s) ↔ i ∈ voters (members (ApplyConfChange c s)).
Proof.
  assert (∀ j r s', mb_peerRoles (members s') = <[j := r]> (mb_peerRoles (members s)) →
    ∀ i, i ≠ j → i ∈ voters (members s) ↔ i ∈ voters (members s')) as Hset.
  { intros j r s' Hr i Hi. by rewrite !elem_of_voters, Hr, list_lookup_insert_ne. }
  assert (∀ s', members s' = members s → ∀ i, i ∈ voters (members s) ↔ i ∈ voters (members s')) as Hsame
    by by intros ? ->.
  unfold ApplyConfChange.
  destruct (cc_changetype c), (find_peer (cc_peerid c) (members s)) as [j|]; try by exists 0; auto.
  - exists j. destruct (_ || _); apply (Hset j Removed); [|done]. unfold mark_removed. by case_bool_decide.
  - exists j. by apply (Hset j Learner).
  - exists (length (m_peerRoles s)). intros i Hi. rewrite !elem_of_voters. simpl.
    destruct (decide (i < length (m_peerRoles s))); [by rewrite lookup_app_l|].
    rewrite !lookup_ge_None_2; [done| |lia]. rewrite length_app. simpl. lia.
  - exists j. by apply (Hset j Voter).
Qed.

(** [C26] A membership change is safe to apply at different times on different
    nodes: any majority of the voters before the command and any majority of
    the voters after it, by the quorum size each side computes, have a voter in
    common. *)
Theorem conf_change_quorums_meet c s (Q Q' : gset nat) :
  aligned s → mb_peerIds (members s) ≠ [] →
  let s' := ApplyConfChange c s in
  Q ⊆ voters (members s) → (getQuorumLocked (members s) ≤ Z.of_nat (size Q))%Z →
  Q' ⊆ voters (members s') → (getQuorumLocked (members s') ≤ Z.of_nat (size Q'))%Z →
  ∃ i, i ∈ Q ∩ Q'.
Proof.
  intros Hal Hne s' HQ Hs HQ' Hs'. destruct (conf_change_one_peer c s) as [t Ht].
  assert (mb_peerRoles (members s) ≠ []) as Hr.
  { intros He. pose proof (al_roles _ Hal) as Hl. rewrite He in Hl. by destruct (mb_peerIds (members s)). }
  assert (mb_peerRoles (members s') ≠ []) as Hr'.
  { unfold s', ApplyConfChange.
    assert (∀ i r, <[i := r]> (mb_peerRoles (members s)) ≠ []) as Hins.
    { intros i r He. apply Hr, nil_length_inv. by rewrite <- (length_insert _ i r), He. }
    destruct (cc_changetype c), (find_peer (cc_peerid c) (members s)); simpl;
      try done; try apply Hins; [|by destruct (m_peerRoles s)].
    destruct (_ || _); [unfold mark_removed; case_bool_decide|]; simpl; apply Hins. }
  rewrite quorum_size in Hs, Hs' by done. by apply (majorities_meet _ _ _ _ t Ht).
Qed.

Definition demo_members : Raft := init 0 (init_members 3 0 1 [1; 2; 3]%N []) empty_disk.

Lemma conf_change_quorums_meet_witness :
  let s' := ApplyConfChange (Build_ConfChangeCommand CONF_CHANGE_REMOVE_PEER 3) demo_members in
  ({[1; 2]} : gset nat) ⊆ voters (members demo_members) ∧
  ({[0; 1]} : gset nat) ⊆ voters (members s') ∧ ∃ i, i ∈ ({[1; 2]} : gset nat) ∩ {[0; 1]}.
Proof.
  assert (({[1; 2]} : gset nat) ⊆ voters (members demo_members)) as H1
    by (apply (bool_decide_eq_true_1 _); vm_compute; reflexivity).
  assert (({[0; 1]} : gset nat) ⊆
    voters (members (ApplyConfChange (Build_ConfChangeCommand CONF_CHANGE_REMOVE_PEER 3) demo_members))) as H2
    by (apply (bool_decide_eq_true_1 _); vm_compute; reflexivity).
  split; [exact H1|]. split; [exact H2|].
  apply (conf_change_quorums_meet (Build_ConfChangeCommand CONF_CHANGE_REMOVE_PEER 3) demo_members {[1; 2]} {[0; 1]});
    [by split|discriminate|exact H1|vm_compute; discriminate|exact H2|vm_compute; discriminate].
Defined.

(** ** Compaction *)

Lemma gc_index config state d :
  EvaluateRaftLogGc config state = d → ShouldGc d = true →
  gd_compactIndex d = gs_appliedIndex state ∧ (gs_truncatedIndex state < gs_appliedIndex state)%Z.
Proof.
  unfold EvaluateRaftLogGc, ShouldGc. intros <-.
  destruct (Z.leb_spec (Z.max (gs_truncatedIndex state) (gs_appliedIndex state)) (gs_truncatedIndex state));
    [done|].
  destruct (_ || _); simpl; [intros _; lia|]. destruct (_ && _); simpl; [intros _; lia|done].
Qed.

Lemma log_gc_index applied config size s :
  ShouldGc (EvaluateLogGc applied config size s) = true →
  gd_compactIndex (EvaluateLogGc applied config size s) =
    Z.min (Z.min (Z.min applied (m_lastApplied s)) (m_commitIndex s)) (getLastLogIndex s) ∧
  (m_lastSnapshotIncludeIndex s < gd_compactIndex (EvaluateLogGc applied config size s))%Z.
Proof.
  unfold EvaluateLogGc. destruct (_ <? _)%Z; [done|]. intros Hgc.
  match goal with |- context [EvaluateRaftLogGc config ?st] => destruct (gc_index config st _ eq_refl Hgc) as [-> ?] end.
  done.
Qed.

Lemma entries_after_total s F W n :
  reads_as (hard s) F W → length F ≤ n ≤ length W → entries_after s (Z.of_nat n) = Some (drop n W).
Proof.
  intros Hr Hn. destruct (entries_after s (Z.of_nat n)) as [l|] eqn:He.
  - by rewrite (entries_after_spec s F W n l Hr Hn He).
  - exfalso. unfold entries_after in He. rewrite (view_last_index s F W Hr) in He.
    apply eq_None_not_Some in He. apply He, mapM_is_Some, Forall_forall. intros k Hk%elem_of_seq.
    destruct (lookup_lt_is_Some_2 W (n + k)) as [e Hek]; [lia|]. exists e.
    apply (view_log_at s F W Hr). exists (n + k). split; [lia|]. split; [lia|done].
Qed.

(** A snapshot inside the readable log succeeds. *)
Lemma Snapshot_succeeds s F W n snapshot :
  reads_as (hard s) F W → length F < n ≤ length W → (Z.of_nat n ≤ m_commitIndex s)%Z →
  ∃ s', Snapshot (Z.of_nat n) snapshot s = Ret s' true ∧
    m_lastSnapshotIncludeIndex s' = Z.of_nat n ∧ m_logs s' = drop n W.
Proof.
  intros Hr Hn Hc. unfold Snapshot. rewrite (ra_snap _ _ _ Hr).
  rewrite (proj2 (Z.leb_gt _ _)), (proj2 (Z.ltb_ge _ _)) by lia. cbn [orb].
  destruct (lookup_lt_is_Some_2 W (n - 1)) as [e He]; [lia|].
  assert (log_at s (Z.of_nat n) = Some e) as ->.
  { apply (view_log_at s F W Hr). exists (n - 1). split; [lia|]. split; [lia|done]. }
  rewrite (entries_after_total s F W n Hr), (view_last_index s F W Hr) by lia.
  eexists. rewrite (proj2 (Z.eqb_eq _ _)); [done|]. simpl. rewrite length_drop. lia.
Qed.

(** Log compaction is accepted and loses nothing: when [EvaluateLogGc] asks
    a node of a running group to compact, the index it gives is new, committed
    and not beyond what the state machine has applied; [Snapshot] at that index
    succeeds, moves the boundary there, and keeps every later entry. *)
Theorem log_gc_compacts cf c i s applied config size snapshot :
  reachable cf c → cl_nodes c !! i = Some s →
  let d := EvaluateLogGc applied config size s in
  ShouldGc d = true →
  (m_lastSnapshotIncludeIndex s < gd_compactIndex d ≤ applied)%Z ∧
  (gd_compactIndex d ≤ m_commitIndex s)%Z ∧
  ∃ s', Snapshot (gd_compactIndex d) snapshot s = Ret s' true ∧
    m_lastSnapshotIncludeIndex s' = gd_compactIndex d ∧
    ∀ e, e ∈ m_logs s → (gd_compactIndex d < logindex e)%Z → e ∈ m_logs s'.
Proof.
  intros [g Hrel]%reachable_rel Hs d Hgc. destruct (log_gc_index applied config size s Hgc) as [Hd Hlt].
  fold d in Hd, Hlt. pose proof (rel_nodes _ _ _ Hrel _ _ Hs) as Hn.
  destruct (no_log _ _ _ _ Hn) as [F HF].
  pose proof (log_ok_reads cf _ _ _ _ _ _ (rel_ginv _ _ _ Hrel) (rel_indexed _ _ _ Hrel) HF) as Hr.
  set (W := view F (g_log g i)) in *. rewrite (view_last_index s F W Hr) in Hd.
  split; [lia|]. split; [lia|]. rewrite (ra_snap _ _ _ Hr) in Hlt.
  assert (gd_compactIndex d = Z.of_nat (Z.to_nat (gd_compactIndex d))) as Hz by lia.
  destruct (Snapshot_succeeds s F W (Z.to_nat (gd_compactIndex d)) snapshot Hr) as (s' & He & Hi & Hl);
    [lia|lia|]. rewrite <- Hz in He, Hi. exists s'. split; [done|]. split; [done|].
  intros e Hin Hle. rewrite (ra_logs _ _ _ Hr) in Hin. rewrite Hl.
  apply list_elem_of_lookup in Hin as [k Hk]. rewrite lookup_drop in Hk.
  pose proof (ra_indexed _ _ _ Hr _ _ Hk) as Hx. apply list_elem_of_lookup.
  exists (length F + k - Z.to_nat (gd_compactIndex d)). rewrite lookup_drop. rewrite <- Hk. f_equal. lia.
Qed.

Lemma log_gc_compacts_witness :
  let s := demo_node demo_done 0 in
  let d := EvaluateLogGc 2 (Build_RaftLogGcConfig 0 2 0) 0 s in
  ShouldGc d = true ∧
  (m_lastSnapshotIncludeIndex s < gd_compactIndex d ≤ 2)%Z ∧ (gd_compactIndex d ≤ m_commitIndex s)%Z ∧
  ∃ s', Snapshot (gd_compactIndex d) "image" s = Ret s' true ∧
    m_lastSnapshotIncludeIndex s' = gd_compactIndex d ∧
    ∀ e, e ∈ m_logs s → (gd_compactIndex d < logindex e)%Z → e ∈ m_logs s'.
Proof.
  split; [vm_compute; reflexivity|].
  apply (log_gc_compacts demo_config demo_done 0 (demo_node demo_done 0) 2 (Build_RaftLogGcConfig 0 2 0) 0
           "image" demo_done_reachable); vm_compute; reflexivity.
Defined.
