(* ===== verification/Topology.v ===== *)
(** * Driving scheduling operators

    [TopologyOperationCoordinator] ([metadata/topology_operation_coordinator.cpp])
    carries out the operators of the metadata state machine: it moves a peer by
    way of a learner, or splits a Region, and reports each phase to the metadata
    service.  [AutoBalancer] ([metadata/auto_balancer.cpp]) submits the first plan
    of the planner and drives one operator per tick.

    The callbacks that the coordinator is constructed with, the metadata client
    and the clock act on a world [W]; an absent callback is [None]. *)

From Stdlib Require Import ZArith SpecFloat.
From S2P Require Import Prelude RegionMeta Codec MetaTypes MetaState Planner RaftMembership.
Import AutoBalancerPlanner.
#[local] Open Scope N_scope.

Module TopologyOperationCoordinator.

Inductive CoordinatorStepResult := Success | Stopped | Failed | Cancelled.

Record CoordinatorMetrics := MkCoordinatorMetrics {
  movePeerStarted : N;
  movePeerSucceeded : N;
  movePeerFailed : N;
  movePeerCancelled : N;
  splitStarted : N;
  splitSucceeded : N;
  splitFailed : N;
  leaderHandoffs : N;
  stalePlansRejected : N
}.

(** [std::to_string] of a phase. *)
Definition phase_number (p : SchedulingOperatorPhase) : string :=
  match p with
  | SCHEDULING_OPERATOR_PENDING => "0"
  | SCHEDULING_OPERATOR_DISPATCHING => "1"
  | SCHEDULING_OPERATOR_WAITING => "2"
  | SCHEDULING_OPERATOR_SUCCEEDED => "3"
  | SCHEDULING_OPERATOR_CANCELLING => "4"
  | SCHEDULING_OPERATOR_CANCELLED => "5"
  | SCHEDULING_OPERATOR_FAILED => "6"
  | SCHEDULING_OPERATOR_PHASE_OTHER n => int_to_string n
  end.

(** The command that [UpdateOperatorPhase] submits at [now]. *)
Definition update_command (operatorId : string) (expected next : SchedulingOperatorPhase) (attempts : N)
    (lastError : string) (irreversible : bool) (now : N) : MetadataCommand :=
  MkCommand ("op-update:" +:+ operatorId +:+ ":" +:+ phase_number next +:+ ":" +:+ to_string attempts) 0
    (UpdateSchedulingOperator operatorId expected next attempts lastError irreversible now).

(** The learner that a move adds. *)
Definition target_location (targetStoreId targetPeerId : N) : RegionPeerLocation :=
  MkPeer (int_of_u64 (wrap64 (targetStoreId + u64_max))) "127.0.0.1" (short_of_u32 (30000 +₆₄ targetStoreId))
    targetStoreId targetPeerId true.

(** The default [RegionMetadata]. *)
Definition no_region : RegionMetadata := MkRegion 0 EmptyString EmptyString [] (MkEpoch 0 0) 0 0 None.

Definition caught_up (_ : RegionMetadata) (lag : Z) (learner : bool) : bool := learner && (lag <=? 100)%Z.

Section coordinator.
Context {W : Type}.

Record MetadataClient := MkMetadataClient {
  Mutate : MetadataCommand → W → W * result MetadataCommandResult;
  LookupRegion : N → W → W * result (RegionMetadata * N)
}.

Record environment := MkEnvironment {
  metadataClient_ : option MetadataClient;
  CurrentTimeMs : W → W * N;
  shouldStop : option (W → W * bool);
  targetPreparer_ : option (RegionMetadata → N → W → W * bool);
  confChangeSender_ : option (RegionMetadata → ConfChangeType → RegionPeerLocation → N → W → W * bool);
  statusPoller_ : option (N → N → (RegionMetadata → Z → bool → bool) → W → W * bool);
  sourceRetirer_ : option (N → N → N → W → W * bool);
  splitProposer_ : option (RegionMetadata → RegionMetadata → string → N → W → W * bool);
  splitStatusPoller_ : option (N → W → W * bool);
  candidateResolver_ : option (N → N → W → W * string)
}.

Context (env : environment).

(** Coordinator code: the metrics, the world, and a possible exception. *)
Definition M (A : Type) : Type := CoordinatorMetrics * W → (CoordinatorMetrics * W) * result A.

Definition ret {A} (a : A) : M A := λ st, (st, Ok a).
Definition bind {A B} (m : M A) (k : A → M B) : M B := λ st,
  match m st with (st1, Ok a) => k a st1 | (st1, Throw w) => (st1, Throw w) end.
#[local] Notation "x ⇐ m ; k" := (bind m (λ x, k)) (at level 100, m at next level, right associativity).
#[local] Notation "m ⨟ k" := (bind m (λ _, k)) (at level 100, right associativity).

Definition count (f : CoordinatorMetrics → CoordinatorMetrics) : M unit := λ '(m, w), ((f m, w), Ok tt).
Definition on_world {A} (f : W → W * A) : M A := λ '(m, w), let '(w1, a) := f w in ((m, w1), Ok a).
Definition calls {A} (f : W → W * result A) : M A := λ '(m, w), let '(w1, r) := f w in ((m, w1), r).

(** A callback that is not set succeeds. *)
Definition hook {A} (h : option A) (call : A → W → W * bool) : M bool :=
  match h with Some f => on_world (call f) | None => ret true end.

(** [if (shouldStop && shouldStop()) return Stopped;] before the rest. *)
Definition unless_stopped (k : M CoordinatorStepResult) : M CoordinatorStepResult :=
  stop ⇐ match shouldStop env with Some f => on_world f | None => ret false end;
  if stop then ret Stopped else k.

Definition UpdateOperatorPhase (operatorId : string) (expected next : SchedulingOperatorPhase)
    (attempts : N) (lastError : string) (irreversible : bool) : M bool :=
  match metadataClient_ env with
  | None => ret true
  | Some client =>
      now ⇐ on_world (CurrentTimeMs env);
      λ '(m, w),
        match Mutate client (update_command operatorId expected next attempts lastError irreversible now) w with
        | (w1, Ok r) => ((m, w1), Ok (bool_decide (res_error r = METADATA_OK)))
        | (w1, Throw _) => ((m, w1), Ok false)
        end
  end.

Definition count_move_failed (m : CoordinatorMetrics) : CoordinatorMetrics :=
  MkCoordinatorMetrics (movePeerStarted m) (movePeerSucceeded m) (movePeerFailed m +₆₄ 1) (movePeerCancelled m)
    (splitStarted m) (splitSucceeded m) (splitFailed m) (leaderHandoffs m) (stalePlansRejected m).
Definition count_move_started (m : CoordinatorMetrics) : CoordinatorMetrics :=
  MkCoordinatorMetrics (movePeerStarted m +₆₄ 1) (movePeerSucceeded m) (movePeerFailed m) (movePeerCancelled m)
    (splitStarted m) (splitSucceeded m) (splitFailed m) (leaderHandoffs m) (stalePlansRejected m).
Definition count_move_succeeded (m : CoordinatorMetrics) : CoordinatorMetrics :=
  MkCoordinatorMetrics (movePeerStarted m) (movePeerSucceeded m +₆₄ 1) (movePeerFailed m) (movePeerCancelled m)
    (splitStarted m) (splitSucceeded m) (splitFailed m) (leaderHandoffs m) (stalePlansRejected m).
Definition count_split_started (m : CoordinatorMetrics) : CoordinatorMetrics :=
  MkCoordinatorMetrics (movePeerStarted m) (movePeerSucceeded m) (movePeerFailed m) (movePeerCancelled m)
    (splitStarted m +₆₄ 1) (splitSucceeded m) (splitFailed m) (leaderHandoffs m) (stalePlansRejected m).
Definition count_split_succeeded (m : CoordinatorMetrics) : CoordinatorMetrics :=
  MkCoordinatorMetrics (movePeerStarted m) (movePeerSucceeded m) (movePeerFailed m) (movePeerCancelled m)
    (splitStarted m) (splitSucceeded m +₆₄ 1) (splitFailed m) (leaderHandoffs m) (stalePlansRejected m).
Definition count_handoff (m : CoordinatorMetrics) : CoordinatorMetrics :=
  MkCoordinatorMetrics (movePeerStarted m) (movePeerSucceeded m) (movePeerFailed m) (movePeerCancelled m)
    (splitStarted m) (splitSucceeded m) (splitFailed m) (leaderHandoffs m +₆₄ 1) (stalePlansRejected m).

(** ** Moving a peer *)

(** The operator has failed: report it and give up. *)
Definition move_failed (operatorId : string) (at_phase : SchedulingOperatorPhase) (why : string)
    : M CoordinatorStepResult :=
  UpdateOperatorPhase operatorId at_phase SCHEDULING_OPERATOR_FAILED 1 why false ⨟
  count count_move_failed ⨟ ret Failed.

Definition prepare_move_command (operatorId : string) (regionId sourceStoreId targetStoreId revision : N)
    (original : RegionMetadata) : MetadataCommand :=
  MkCommand ("move-peer:prepare:" +:+ operatorId) revision
    (PrepareMovePeer regionId sourceStoreId targetStoreId (Some (epoch original))).

Definition commit_move_command (operatorId : string) (regionId targetPeerId : N) (original : RegionMetadata)
    : MetadataCommand :=
  MkCommand ("move-peer:commit:" +:+ operatorId) 0 (CommitMovePeer regionId targetPeerId (Some (epoch original))).

(** The steps from the promotion on. *)
Definition finish_move (operatorId : string) (regionId sourceStoreId targetPeerId revision : N)
    (original : RegionMetadata) : M CoordinatorStepResult :=
  let sourceLoc := find (λ p, storeId p =? sourceStoreId) (peers original) in
  (match sourceLoc with
   | Some source =>
       hook (confChangeSender_ env) (λ f, f original CONF_CHANGE_REMOVE_PEER source revision) ⨟ ret tt
   | None => ret tt
   end) ⨟
  (match metadataClient_ env with
   | Some client => calls (Mutate client (commit_move_command operatorId regionId targetPeerId original)) ⨟ ret tt
   | None => ret tt
   end) ⨟
  (match sourceLoc with
   | Some source => hook (sourceRetirer_ env) (λ f, f regionId (peerId source) revision) ⨟ ret tt
   | None => ret tt
   end) ⨟
  UpdateOperatorPhase operatorId SCHEDULING_OPERATOR_WAITING SCHEDULING_OPERATOR_SUCCEEDED 1 EmptyString true ⨟
  count count_move_succeeded ⨟ ret Success.

(** Waiting for the learner, and its promotion. *)
Definition promote (operatorId : string) (regionId sourceStoreId targetPeerId revision : N)
    (original : RegionMetadata) (targetLocation : RegionPeerLocation) : M CoordinatorStepResult :=
  caughtUp ⇐ hook (statusPoller_ env) (λ f, f regionId targetPeerId caught_up);
  if negb caughtUp then
    unless_stopped (move_failed operatorId SCHEDULING_OPERATOR_WAITING "catch-up timed out")
  else
    unless_stopped
      (promoted ⇐ hook (confChangeSender_ env) (λ f, f original CONF_CHANGE_PROMOTE_LEARNER targetLocation revision);
       if negb promoted then move_failed operatorId SCHEDULING_OPERATOR_WAITING "PromoteLearner rejected"
       else
         UpdateOperatorPhase operatorId SCHEDULING_OPERATOR_WAITING SCHEDULING_OPERATOR_WAITING 1 EmptyString true ⨟
         unless_stopped (finish_move operatorId regionId sourceStoreId targetPeerId revision original)).

(** Mounting the target and adding it as a learner. *)
Definition add_learner (operatorId : string) (regionId sourceStoreId targetStoreId targetPeerId revision : N)
    (original : RegionMetadata) : M CoordinatorStepResult :=
  mounted ⇐ hook (targetPreparer_ env) (λ f, f original targetPeerId);
  if negb mounted then move_failed operatorId SCHEDULING_OPERATOR_DISPATCHING "target preparation failed"
  else
    unless_stopped
      (let targetLocation := target_location targetStoreId targetPeerId in
       added ⇐ hook (confChangeSender_ env) (λ f, f original CONF_CHANGE_ADD_LEARNER targetLocation revision);
       if negb added then move_failed operatorId SCHEDULING_OPERATOR_DISPATCHING "AddLearner rejected"
       else
         UpdateOperatorPhase operatorId SCHEDULING_OPERATOR_DISPATCHING SCHEDULING_OPERATOR_WAITING 1 EmptyString false ⨟
         unless_stopped (promote operatorId regionId sourceStoreId targetPeerId revision original targetLocation)).

(** [LookupRegion] with its exception as a value. *)
Definition try_lookup (regionId : N) : M (result (RegionMetadata * N)) :=
  match metadataClient_ env with
  | None => ret (Ok (no_region, 0))
  | Some client => on_world (LookupRegion client regionId)
  end.

(** [prepared], or the message of the error. *)
Definition try_prepare (cmd : MetadataCommand) : M (result (option ReplicaMigrationStatus)) :=
  match metadataClient_ env with
  | None => ret (Ok None)
  | Some client =>
      prepared ⇐ calls (Mutate client cmd);
      ret (if bool_decide (res_error prepared = METADATA_OK) then Ok (res_migration prepared)
           else Throw (res_message prepared))
  end.

Definition DriveMovePeer (operatorId : string) (regionId sourceStoreId targetStoreId : N)
    : M CoordinatorStepResult :=
  count count_move_started ⨟
  unless_stopped
    (UpdateOperatorPhase operatorId SCHEDULING_OPERATOR_PENDING SCHEDULING_OPERATOR_DISPATCHING 1 EmptyString false ⨟
     unless_stopped
       (found ⇐ try_lookup regionId;
        match found with
        | Throw what => move_failed operatorId SCHEDULING_OPERATOR_DISPATCHING what
        | Ok (original, revision) =>
            prepared ⇐ try_prepare
              (prepare_move_command operatorId regionId sourceStoreId targetStoreId revision original);
            match prepared with
            | Throw message => move_failed operatorId SCHEDULING_OPERATOR_DISPATCHING message
            | Ok migration =>
                unless_stopped
                  (let targetPeerId :=
                     match migration with
                     | Some m => MetadataStateMachine.target_id m
                     | None => 1000 +₆₄ targetStoreId
                     end in
                   add_learner operatorId regionId sourceStoreId targetStoreId targetPeerId revision original)
            end
        end)).

(** ** Splitting a Region *)

Definition prepare_split_command (operatorId : string) (regionId : N) (splitKey : string)
    (original : RegionMetadata) : MetadataCommand :=
  MkCommand ("split:prep:" +:+ operatorId) 0 (PrepareSplit regionId splitKey (Some (epoch original))).

Definition commit_split_command (operatorId : string) (regionId : N) : MetadataCommand :=
  MkCommand ("split:commit:" +:+ operatorId) 0 (CommitSplit regionId).

(** The child that the coordinator proposes to the Region's leader. *)
Definition proposed_child (original : RegionMetadata) (splitKey : string) : RegionMetadata :=
  MkRegion (regionId original + 1000) splitKey (endKey original) (peers original) (epoch original)
    (metadataRevision original) (leaderPeerId original) (splitPending original).

Definition mutate_ignoring (cmd : MetadataCommand) : M unit :=
  match metadataClient_ env with
  | Some client => calls (Mutate client cmd) ⨟ ret tt
  | None => ret tt
  end.

Definition DriveSplitRegion (operatorId : string) (regionId splitCandidateGeneration : N)
    : M CoordinatorStepResult :=
  count count_split_started ⨟
  unless_stopped
    (UpdateOperatorPhase operatorId SCHEDULING_OPERATOR_PENDING SCHEDULING_OPERATOR_DISPATCHING 1 EmptyString false ⨟
     unless_stopped
       (found ⇐ match metadataClient_ env with
                | None => ret (no_region, 0)
                | Some client => calls (LookupRegion client regionId)
                end;
        let '(original, revision) := found in
        splitKey ⇐ match candidateResolver_ env with
                   | Some f => on_world (f regionId splitCandidateGeneration)
                   | None => ret "m"
                   end;
        mutate_ignoring (prepare_split_command operatorId regionId splitKey original) ⨟
        unless_stopped
          (mutate_ignoring (commit_split_command operatorId regionId) ⨟
           UpdateOperatorPhase operatorId SCHEDULING_OPERATOR_DISPATCHING SCHEDULING_OPERATOR_WAITING 1 EmptyString true ⨟
           unless_stopped
             (hook (splitProposer_ env) (λ f, f original (proposed_child original splitKey) splitKey revision) ⨟
              hook (splitStatusPoller_ env) (λ f, f regionId) ⨟
              UpdateOperatorPhase operatorId SCHEDULING_OPERATOR_WAITING SCHEDULING_OPERATOR_SUCCEEDED 1 EmptyString true ⨟
              count count_split_succeeded ⨟ ret Success)))).

(** ** One operator *)

Definition ReconcileOperator (op : SchedulingOperator) : M CoordinatorStepResult :=
  unless_stopped
    (count count_handoff ⨟
     if IsTerminal (so_phase op) then ret Success
     else if bool_decide (so_phase op = SCHEDULING_OPERATOR_CANCELLING) then
       UpdateOperatorPhase (so_operatorid op) SCHEDULING_OPERATOR_CANCELLING SCHEDULING_OPERATOR_CANCELLED
         (inc32 (so_attempts op)) EmptyString false ⨟ ret Cancelled
     else
       match so_type op with
       | SCHEDULING_OPERATOR_MOVE_PEER =>
           DriveMovePeer (so_operatorid op) (so_regionid op) (so_sourcestoreid op) (so_targetstoreid op)
       | SCHEDULING_OPERATOR_SPLIT_REGION =>
           DriveSplitRegion (so_operatorid op) (so_regionid op) (so_splitcandidategeneration op)
       | SCHEDULING_OPERATOR_TYPE_OTHER _ => ret Failed
       end).

End coordinator.
Arguments MetadataClient : clear implicits.
Arguments environment : clear implicits.
End TopologyOperationCoordinator.

Module AutoBalancer.
Import TopologyOperationCoordinator.

Record AutoBalancerMetrics := MkBalancerMetrics {
  evaluationsRun : N;
  operatorsCreated : N;
  operatorsReconciled : N;
  evaluationsSkippedNonLeader : N;
  evaluationsSkippedDisabled : N
}.

Definition count_run (m : AutoBalancerMetrics) : AutoBalancerMetrics :=
  MkBalancerMetrics (evaluationsRun m +₆₄ 1) (operatorsCreated m) (operatorsReconciled m)
    (evaluationsSkippedNonLeader m) (evaluationsSkippedDisabled m).
Definition count_created (m : AutoBalancerMetrics) : AutoBalancerMetrics :=
  MkBalancerMetrics (evaluationsRun m) (operatorsCreated m +₆₄ 1) (operatorsReconciled m)
    (evaluationsSkippedNonLeader m) (evaluationsSkippedDisabled m).
Definition count_reconciled (m : AutoBalancerMetrics) : AutoBalancerMetrics :=
  MkBalancerMetrics (evaluationsRun m) (operatorsCreated m) (operatorsReconciled m +₆₄ 1)
    (evaluationsSkippedNonLeader m) (evaluationsSkippedDisabled m).
Definition count_nonleader (m : AutoBalancerMetrics) : AutoBalancerMetrics :=
  MkBalancerMetrics (evaluationsRun m) (operatorsCreated m) (operatorsReconciled m)
    (evaluationsSkippedNonLeader m +₆₄ 1) (evaluationsSkippedDisabled m).
Definition count_disabled (m : AutoBalancerMetrics) : AutoBalancerMetrics :=
  MkBalancerMetrics (evaluationsRun m) (operatorsCreated m) (operatorsReconciled m)
    (evaluationsSkippedNonLeader m) (evaluationsSkippedDisabled m +₆₄ 1).

Section balancer.
Context (traverse : gmap N StoreScore → list (N * StoreScore)).
Context {W : Type}.

(** The snapshot that an evaluation hands to the planner. *)
Definition evaluation_snapshot (view : MetadataView) (now : N) : ClusterSchedulingSnapshot :=
  MkSchedulingSnapshot (Some view) now ∅ ∅.

(** The command that submits a plan. *)
Definition submission (view : MetadataView) (plan : SchedulingPlan) : MetadataCommand :=
  MkCommand ("autobalance:" +:+ so_operatorid (operation plan)) (view_revision view)
    (CreateSchedulingOperator (operation plan)).

(** [isLeader] is [isLeader_ && isLeader_()], [view] what the provider returns. *)
Definition EvaluateOnce (isLeader : bool) (view : option MetadataView) (now : N)
    (submitCommand : option (MetadataCommand → W → W * MetadataCommandResult))
    (m : AutoBalancerMetrics) (w : W) : AutoBalancerMetrics * W :=
  let m := count_run m in
  if negb isLeader then (count_nonleader m, w)
  else
    match view with
    | None => (m, w)
    | Some view =>
        if negb (cf_enabled (view_balancerConfig view)) || cf_paused (view_balancerConfig view)
        then (count_disabled m, w)
        else
          match plans (Plan traverse (evaluation_snapshot view now)), submitCommand with
          | [], _ | _, None => (m, w)
          | top :: _, Some submit =>
              let '(w1, result) := submit (submission view top) w in
              (if bool_decide (res_error result = METADATA_OK) then count_created m else m, w1)
          end
    end.

(** [operators] lists the operators of the view in the order of its hash table;
    the first one in flight is driven.  An exception leaves the metrics alone. *)
Definition ReconcileOnce (isLeader : bool) (operators : option (list SchedulingOperator))
    (env : environment W) (m : AutoBalancerMetrics) (cm : CoordinatorMetrics) (w : W)
    : AutoBalancerMetrics * CoordinatorMetrics * W * result unit :=
  if negb isLeader then (m, cm, w, Ok tt)
  else
    match operators with
    | None => (m, cm, w, Ok tt)
    | Some ops =>
        match find (λ op, negb (IsTerminal (so_phase op))) ops with
        | None => (m, cm, w, Ok tt)
        | Some op =>
            match ReconcileOperator env op (cm, w) with
            | (cm1, w1, Ok _) => (count_reconciled m, cm1, w1, Ok tt)
            | (cm1, w1, Throw what) => (m, cm1, w1, Throw what)
            end
        end
    end.

End balancer.
End AutoBalancer.
