(* ===== verification/TopologySafety.v ===== *)
(** * What driving an operator does to the metadata

    The coordinator of [Topology] run against the metadata state machine.  The
    metadata client delivers commands or loses them; the other callbacks leave the
    metadata alone.  The commands that commit a split or a move carry no expected
    revision, and the state machine refuses them: operators succeed without the
    change they stand for. *)

From Stdlib Require Import ZArith QArith SpecFloat.
From S2P Require Import Prelude RegionMeta Codec MetaTypes MetaState MetaDemo MetaStep MetaInv MetaKeep MetaDedup MetaSafety Planner PlannerSafety RaftMembership Topology.
Import MetadataStateMachine AutoBalancerPlanner TopologyOperationCoordinator.
#[local] Open Scope N_scope.
#[local] Opaque kDedupRetention.

(** ** Commands that leave the topology alone *)

Record same_topology (s s' : t) : Prop := MkSameTopology {
  st_regions : regions_ s' = regions_ s;
  st_revision : revision_ s' = revision_ s;
  st_migrations : migrations_ s' = migrations_ s
}.

Lemma quiet_topology s s' : quiet s s' → same_topology s s'.
Proof. by intros [m ->]. Qed.

(** Recording the result and the counters do not matter. *)
Lemma Apply_topology cmd s :
  same_topology s (handle cmd s).1 → same_topology s (Apply cmd s).1.
Proof.
  intros H. unfold Apply. destruct (String.eqb _ _); [done|]. destruct (dedup_ s !! mutationid cmd); [done|].
  unfold ApplyLocked. by destruct (handle cmd s) as [s1 [r|w]]; destruct H.
Qed.

Lemma Apply_update_topology id ep p a l ir now s :
  same_topology s (Apply (update_command id ep p a l ir now) s).1.
Proof.
  apply Apply_topology. destruct (handle _ s) as [s1 r] eqn:Hh.
  destruct (handle_step _ _ _ _ Hh) as [s' r' Hq|s0 s' r' He Hf|? ? ? ? ? ? Hc]; [by apply quiet_topology| |done].
  assert (same_topology s s0) as H by (inversion He; try discriminate; done).
  unfold finishes in Hf. destruct (publication _); destruct Hf as [-> _]; by destruct H.
Qed.

(** The commands that need the current revision. *)
Definition needs_revision (c : Command) : bool :=
  match c with PrepareSplit _ _ _ | CommitSplit _ | CommitMovePeer _ _ _ => true | _ => false end.

Lemma Apply_unversioned_topology cmd s :
  needs_revision (command cmd) = true → expectedrevision cmd = 0 → revision_ s ≠ 0 →
  same_topology s (Apply cmd s).1.
Proof.
  intros Hc He Hrev. apply Apply_topology. unfold handle.
  assert ((revision_ s =? 0) || negb (expectedrevision cmd =? revision_ s) = true) as Hg.
  { rewrite He. apply orb_true_iff. right. apply negb_true_iff, N.eqb_neq. congruence. }
  destruct (command cmd); try discriminate;
    unfold PrepareSplitLocked, CommitSplitLocked, CommitMovePeerLocked; run; by rewrite Hg.
Qed.

Lemma Apply_fresh cmd s k :
  k ≠ mutationid cmd → dedup_ s !! k = None → dedup_ (Apply cmd s).1 !! k = None.
Proof.
  intros Hne Hk. destruct (Apply_cases cmd s) as [[_ [m ->]]|(_ & _ & s1 & _ & E1 & E2 & ->)]; [done|].
  unfold RecordResultLocked. simpl. rewrite lookup_delete_all. case_decide; [done|].
  rewrite lookup_insert_ne by done. by rewrite E1.
Qed.

(** ** Triples over the metadata *)

Section attached.
Context {W : Type} (meta : W → t) (env : environment W) (client : MetadataClient W).

(** The metadata after [n] applications of one command. *)
Fixpoint applications (n : nat) (cmd : MetadataCommand) (s : t) : t :=
  match n with O => s | S n => (Apply cmd (applications n cmd s)).1 end.

(** The metadata client loses a command, or has it applied, once or again at
    each retry; a success it reports is the result of one of the applications. *)
Definition delivers (cmd : MetadataCommand) (w w' : W) (r : result MetadataCommandResult) : Prop :=
  ∃ n, meta w' = applications n cmd (meta w) ∧
    ∀ res, r = Ok res → res_error res = METADATA_OK →
      ∃ k, (k < n)%nat ∧ res = (Apply cmd (applications k cmd (meta w))).2.

(** The client applies a command at most once. *)
Definition delivers_once (cmd : MetadataCommand) (w w' : W) (r : result MetadataCommandResult) : Prop :=
  (meta w' = meta w ∨ meta w' = (Apply cmd (meta w)).1) ∧
  ∀ res, r = Ok res → res_error res = METADATA_OK →
    meta w' = (Apply cmd (meta w)).1 ∧ res = (Apply cmd (meta w)).2.

(** The metadata changes through the commands of the operator only: the callbacks
    do not touch it. *)
Record attached : Prop := MkAttached {
  at_client : metadataClient_ env = Some client;
  at_mutate : ∀ cmd w, delivers cmd w (Mutate client cmd w).1 (Mutate client cmd w).2;
  at_lookup : ∀ rid w, meta (LookupRegion client rid w).1 = meta w;
  at_time : ∀ w, meta (CurrentTimeMs env w).1 = meta w;
  at_stop : ∀ f, shouldStop env = Some f → ∀ w, meta (f w).1 = meta w;
  at_preparer : ∀ f, targetPreparer_ env = Some f → ∀ r p w, meta (f r p w).1 = meta w;
  at_conf : ∀ f, confChangeSender_ env = Some f → ∀ r c p v w, meta (f r c p v w).1 = meta w;
  at_status : ∀ f, statusPoller_ env = Some f → ∀ r p c w, meta (f r p c w).1 = meta w;
  at_retirer : ∀ f, sourceRetirer_ env = Some f → ∀ r p v w, meta (f r p v w).1 = meta w;
  at_proposer : ∀ f, splitProposer_ env = Some f → ∀ p c k v w, meta (f p c k v w).1 = meta w;
  at_splitStatus : ∀ f, splitStatusPoller_ env = Some f → ∀ r w, meta (f r w).1 = meta w;
  at_resolver : ∀ f, candidateResolver_ env = Some f → ∀ r g w, meta (f r g w).1 = meta w
}.

Definition triple {A} (P : t → Prop) (m : M A) (Q : result A → t → Prop) : Prop :=
  ∀ st, P (meta st.2) → Q (m st).2 (meta (m st).1.2).

Definition keeps {A} (P : t → Prop) (m : M A) : Prop := triple P m (λ _, P).

Lemma triple_bind {A B} P (m : M A) R (k : A → M B) Q :
  triple P m R → (∀ a, triple (R (Ok a)) (k a) Q) → (∀ w s, R (Throw w) s → Q (Throw w) s) →
  triple P (bind m k) Q.
Proof.
  intros Hm Hk Ht st Hst. specialize (Hm st Hst). unfold bind.
  destruct (m st) as [st1 [a|w]]; [by apply Hk|by apply Ht].
Qed.

Lemma triple_weaken {A} (P P' : t → Prop) (m : M A) (Q Q' : result A → t → Prop) :
  triple P' m Q' → (∀ s, P s → P' s) → (∀ r s, Q' r s → Q r s) → triple P m Q.
Proof. intros H HP HQ st Hst. by apply HQ, H, HP. Qed.

Lemma keeps_bind {A B} P (m : M A) (k : A → M B) : keeps P m → (∀ a, keeps P (k a)) → keeps P (bind m k).
Proof. intros Hm Hk. by apply triple_bind with (R := λ _, P). Qed.

Lemma keeps_ret {A} P (a : A) : keeps P (@ret W A a).
Proof. by intros st Hst. Qed.

Lemma keeps_count P f : keeps P (@count W f).
Proof. by intros [m w] Hst. Qed.

Lemma keeps_world {A} P (f : W → W * A) : (∀ w, meta (f w).1 = meta w) → keeps P (on_world f).
Proof.
  intros Hf [m w] Hst. unfold on_world. specialize (Hf w). destruct (f w) as [w1 a]. simpl in *. by rewrite Hf.
Qed.

Lemma keeps_hook {A} P (h : option A) (call : A → W → W * bool) :
  (∀ f, h = Some f → ∀ w, meta (call f w).1 = meta w) → keeps P (hook h call).
Proof. intros Hf. destruct h as [f|]; [by apply keeps_world, Hf|apply keeps_ret]. Qed.

Context (Hatt : attached).

Lemma keeps_applications (P : t → Prop) cmd n s :
  (∀ s, P s → P (Apply cmd s).1) → P s → P (applications n cmd s).
Proof. intros HP Hs. induction n; simpl; auto. Qed.

Lemma keeps_calls P cmd : (∀ s, P s → P (Apply cmd s).1) → keeps P (calls (Mutate client cmd)).
Proof using Hatt.
  intros HP [m w] Hst. unfold calls. destruct (at_mutate Hatt cmd w) as (n & H & _).
  destruct (Mutate client cmd w) as [w1 r]; simpl in *; rewrite H. by apply keeps_applications.
Qed.

Lemma keeps_stop P k : keeps P k → keeps P (unless_stopped env k).
Proof using Hatt.
  intros Hk. apply keeps_bind; [|intros []; [apply keeps_ret|done]].
  destruct (shouldStop env) as [f|] eqn:Hs; [by apply keeps_world, (at_stop Hatt)|apply keeps_ret].
Qed.

Lemma keeps_update P id ep p a l ir :
  (∀ now s, P s → P (Apply (update_command id ep p a l ir now) s).1) →
  keeps P (UpdateOperatorPhase env id ep p a l ir).
Proof using Hatt.
  intros HP. unfold UpdateOperatorPhase. rewrite (at_client Hatt).
  apply keeps_bind; [apply keeps_world, (at_time Hatt)|]. intros now [m w] Hst.
  destruct (at_mutate Hatt (update_command id ep p a l ir now) w) as (n & Hd & _).
  destruct (Mutate client _ w) as [w1 [r|what]]; simpl in *; rewrite Hd; apply keeps_applications; auto.
Qed.


(** ** Splits *)

(** Structural steps of coordinator code that keep [P]. *)
Ltac drive :=
  repeat first
    [ apply keeps_ret | apply keeps_count
    | apply keeps_stop
    | apply keeps_hook; intros ? ? ?; first
        [ by eapply (at_preparer Hatt) | by eapply (at_conf Hatt) | by eapply (at_status Hatt)
        | by eapply (at_retirer Hatt) | by eapply (at_proposer Hatt) | by eapply (at_splitStatus Hatt) ]
    | apply keeps_bind; [|intros ?]
    | case_match ].

Lemma keeps_DriveSplitRegion regions revision id rid gen :
  revision ≠ 0 →
  keeps (λ s, regions_ s = regions ∧ revision_ s = revision) (DriveSplitRegion env id rid gen).
Proof using Hatt.
  intros Hrev.
  assert (∀ ep p a l ir, keeps (λ s, regions_ s = regions ∧ revision_ s = revision)
    (UpdateOperatorPhase env id ep p a l ir)) as Hup.
  { intros. apply keeps_update. intros now s [<- <-].
    by destruct (Apply_update_topology id ep p a l ir now s). }
  assert (∀ cmd, needs_revision (command cmd) = true → expectedrevision cmd = 0 →
    keeps (λ s, regions_ s = regions ∧ revision_ s = revision) (mutate_ignoring env cmd)) as Hmut.
  { intros cmd Hc He. unfold mutate_ignoring. rewrite (at_client Hatt).
    apply keeps_bind; [|intros; apply keeps_ret]. apply keeps_calls. intros s [<- Hs].
    destruct (Apply_unversioned_topology cmd s) as [H1 H2 _]; [done|done|congruence|]. by rewrite H1, H2. }
  unfold DriveSplitRegion. rewrite (at_client Hatt).
  drive; try apply Hup; try by apply Hmut.
  - intros [m w] Hst. unfold calls. pose proof (at_lookup Hatt rid w) as Hl.
    destruct (LookupRegion client rid w). simpl in *. by rewrite Hl.
  - apply keeps_world. by apply (at_resolver Hatt).
Qed.

(** ** Moves *)

(** The peers of every Region, and the migration of one. *)
Definition placement (s : t) : list (list RegionPeerLocation) := peers <$> regions_ s.

(** Before and after the command that prepares the move. *)
Definition unprepared (ps : list (list RegionPeerLocation)) (id : string) (s : t) : Prop :=
  placement s = ps ∧ revision_ s ≠ 0 ∧ revision_ s < u64_max ∧
  dedup_ s !! ("move-peer:prepare:" +:+ id) = None.
Definition prepared_in (ps : list (list RegionPeerLocation)) (rid : N) (s : t) : Prop :=
  placement s = ps ∧ revision_ s ≠ 0 ∧ is_Some (migrations_ s !! rid).

Lemma topology_prepared ps rid s s' : same_topology s s' → prepared_in ps rid s → prepared_in ps rid s'.
Proof. intros [H1 H2 H3] (P1 & P2 & P3). unfold prepared_in, placement in *. by rewrite H1, H2, H3. Qed.

Lemma update_unprepared ps id id' ep p a l ir now s :
  unprepared ps id s → unprepared ps id (Apply (update_command id' ep p a l ir now) s).1.
Proof.
  intros (P1 & P2 & P3 & P4). destruct (Apply_update_topology id' ep p a l ir now s) as [H1 H2 _].
  unfold unprepared, placement in *. rewrite H1, H2. split_and!; try done. by apply Apply_fresh.
Qed.

Lemma PrepareMovePeerLocked_placement cmd rid from to e s s1 r :
  PrepareMovePeerLocked cmd rid from to e s = (s1, r) → revision_ s ≠ 0 → revision_ s < u64_max →
  placement s1 = placement s ∧ revision_ s1 ≠ 0 ∧
  ∀ res, r = Ok res → res_error res = METADATA_OK → is_Some (migrations_ s1 !! rid).
Proof.
  intros H Hrev Hmax. revert H. unfold PrepareMovePeerLocked. run.
  destruct (_ || _); [intros [= <- <-]; split_and!; [done..|by intros ? [= <-]]|].
  destruct (find_region rid (regions_ s)) as [region|]; [|by intros [= <- <-]].
  destruct (bool_decide _); [by intros [= <- <-]|].
  destruct (negb (epoch_matches _ _)); [intros [= <- <-]; split_and!; [done..|by intros ? [= <-]]|].
  destruct (find _ (peers region)) as [source|]; [|by intros [= <- <-]].
  destruct (hosted_on to region); [by intros [= <- <-]|].
  destruct (stores_ s !! to) as [store|]; [|by intros [= <- <-]].
  destruct (next_peer_id s) as [s0 [pid|w]] eqn:Hid.
  - destruct (next_peer_id_keeps _ _ _ Hid) as (-> & _).
    set (s2 := stamp_regions _).
    assert (placement s2 = placement s ∧ revision_ s2 ≠ 0 ∧ is_Some (migrations_ s2 !! rid)) as Hs2.
    { split_and!.
      - unfold placement, s2. simpl. rewrite <- list_fmap_compose. by apply list_fmap_ext.
      - simpl. unfold add64, wrap64. rewrite N.mod_small; unfold u64_max, u64_size in *; lia.
      - simpl. rewrite lookup_insert_eq. eauto. }
    unfold PublishLocked. case_bool_decide; [intros [= <- <-]; split_and!; intros; apply Hs2|].
    destruct (RegionCatalog.make _); intros [= <- <-]; split_and!; intros; apply Hs2.
  - revert Hid. unfold next_peer_id. run. destruct (SafeAdd _ _); [done|]. intros [= <- <-]. by intros [= <- <-].
Qed.

(** The prepared move is recorded, and the peers stay where they are. *)
Lemma prepare_move_placement ps id rid from to rev original s :
  let cmd := prepare_move_command id rid from to rev original in
  unprepared ps id s →
  placement (Apply cmd s).1 = ps ∧ revision_ (Apply cmd s).1 ≠ 0 ∧
  (res_error (Apply cmd s).2 = METADATA_OK → prepared_in ps rid (Apply cmd s).1).
Proof.
  intros cmd (P1 & P2 & P3 & P4). destruct (Apply cmd s) as [s' r] eqn:HA.
  destruct (Apply_executed cmd s s' r) as (s1 & res & Hh & Hres); [by split|done|].
  destruct (PrepareMovePeerLocked_placement _ _ _ _ _ _ _ _ Hh P2 P3) as (H1 & H2 & H3).
  rewrite P1 in H1. destruct res as [r1|w]; destruct Hres as [-> ->].
  - split_and!; [done|done|]. intros Hok. split_and!; [done|done|by eapply H3].
  - split_and!; [done|done|]. by intros [=].
Qed.

Lemma triple_seq {A B} P (m : M A) (k : A → M B) Q :
  keeps P m → (∀ a, triple P (k a) Q) → (∀ w s, P s → Q (Throw w) s) → triple P (bind m k) Q.
Proof. intros Hm Hk Ht. by apply triple_bind with (R := λ _, P). Qed.

Lemma triple_stop P k Q :
  (∀ s, P s → Q (Ok Stopped) s) → triple P k Q → triple P (unless_stopped env k) Q.
Proof using Hatt.
  intros Hs Hk st Hst. unfold unless_stopped, bind.
  assert (keeps P (match shouldStop env with Some f => on_world f | None => ret false end)) as Hstop.
  { destruct (shouldStop env) as [f|] eqn:E; [by apply keeps_world, (at_stop Hatt)|apply keeps_ret]. }
  specialize (Hstop st Hst). destruct ((match shouldStop env with _ => _ end) st) as [st1 [b|w]] eqn:E.
  - destruct b; [by apply Hs|by apply Hk].
  - exfalso. destruct (shouldStop env) as [f|]; [|done]. destruct st as [m w0]. simpl in E. by destruct (f w0).
Qed.

(** A failed move is not a success, and changes nothing but its operator. *)
Lemma move_failed_fails id ep why st : (move_failed env id ep why st).2 ≠ Ok Success.
Proof.
  unfold move_failed, bind. destruct (UpdateOperatorPhase _ _ _ _ _ _ _ st) as [[m w] [b|x]]; by simpl.
Qed.

(** What a drive leaves: the peers are where they were, and after a success the
    Region is still in migration. *)
Definition unmoved (ps : list (list RegionPeerLocation)) (rid : N) (r : result CoordinatorStepResult) (s : t) : Prop :=
  placement s = ps ∧ revision_ s ≠ 0 ∧ (r = Ok Success → is_Some (migrations_ s !! rid)).

Lemma triple_failed ps rid id ep why :
  triple (λ s, placement s = ps ∧ revision_ s ≠ 0) (move_failed env id ep why) (unmoved ps rid).
Proof using Hatt.
  intros st Hst. pose proof (move_failed_fails id ep why st) as Hne.
  assert (keeps (λ s, placement s = ps ∧ revision_ s ≠ 0) (move_failed env id ep why)) as Hk.
  { unfold move_failed. drive. apply keeps_update. intros now s [<- Hs].
    destruct (Apply_update_topology id ep SCHEDULING_OPERATOR_FAILED 1 why false now s) as [H1 H2 _].
    unfold placement. by rewrite H1, H2. }
  destruct (Hk st Hst) as [H1 H2]. by split_and!.
Qed.

Lemma keeps_after_prepare ps rid id from to pid rev original :
  keeps (prepared_in ps rid) (add_learner env id rid from to pid rev original).
Proof using Hatt.
  assert (∀ ep p a l ir, keeps (prepared_in ps rid) (UpdateOperatorPhase env id ep p a l ir)) as Hup.
  { intros. apply keeps_update. intros now s Hs. eapply topology_prepared; [apply Apply_update_topology|done]. }
  assert (keeps (prepared_in ps rid) (calls (Mutate client (commit_move_command id rid pid original)))) as Hmut.
  { apply keeps_calls. intros s Hs. eapply topology_prepared; [|done].
    apply Apply_unversioned_topology; [done|done|apply Hs]. }
  unfold add_learner, promote, finish_move, move_failed. rewrite (at_client Hatt). cbv zeta. drive; try apply Hup; done.
Qed.

Lemma triple_DriveMovePeer ps id rid from to :
  (∀ cmd w, delivers_once cmd w (Mutate client cmd w).1 (Mutate client cmd w).2) →
  triple (unprepared ps id) (DriveMovePeer env id rid from to) (unmoved ps rid).
Proof using Hatt.
  intros Honce. assert (∀ r s, unprepared ps id s → r ≠ Ok Success → unmoved ps rid r s) as Hearly.
  { intros r s (H1 & H2 & _) Hr. by split_and!. }
  assert (∀ r s, prepared_in ps rid s → unmoved ps rid r s) as Hlate.
  { intros r s (H1 & H2 & H3). by split_and!. }
  unfold DriveMovePeer. apply triple_seq; [apply keeps_count|intros _|intros w s Hs; by apply Hearly].
  apply triple_stop; [intros s Hs; by apply Hearly|].
  apply triple_seq; [apply keeps_update; intros; by apply update_unprepared|intros _|intros w s Hs; by apply Hearly].
  apply triple_stop; [intros s Hs; by apply Hearly|].
  apply triple_seq; [|intros found|intros w s Hs; by apply Hearly].
  { unfold try_lookup. rewrite (at_client Hatt). apply keeps_world, (at_lookup Hatt). }
  destruct found as [[original rev]|what].
  2:{ eapply triple_weaken; [apply (triple_failed ps rid)|by intros s (? & ? & _)|done]. }
  apply triple_bind with (R := λ r s, placement s = ps ∧ revision_ s ≠ 0 ∧
    match r with Ok (Ok _) => is_Some (migrations_ s !! rid) | _ => True end).
  - unfold try_prepare. rewrite (at_client Hatt). intros [m w] Hst. unfold bind, calls.
    pose proof (prepare_move_placement ps id rid from to rev original (meta w) Hst) as (H1 & H2 & H3).
    destruct (Honce (prepare_move_command id rid from to rev original) w) as [Hd Hok].
    destruct Hst as (P1 & P2 & _). simpl in P1, P2.
    destruct (Mutate client _ w) as [w1 [res|x]]; simpl in *.
    + destruct (decide (res_error res = METADATA_OK)) as [Hres|Hres].
      * rewrite bool_decide_eq_true_2 by done. destruct (Hok res eq_refl Hres) as [-> ->]. by apply H3.
      * rewrite bool_decide_eq_false_2 by done. destruct Hd as [-> | ->]; by split_and!.
    + destruct Hd as [-> | ->]; by split_and!.
  - intros [migration|message].
    + apply (triple_weaken _ (prepared_in ps rid) _ _ (λ _, prepared_in ps rid)); [|by intros s Hs|exact Hlate].
      apply keeps_stop. apply keeps_after_prepare.
    + eapply triple_weaken; [apply (triple_failed ps rid)|by intros s (? & ? & _)|done].
  - intros w s (H1 & H2 & _). by split_and!.
Qed.

End attached.

(** [C33] Driving a split operator never splits.  Let the metadata change only
    through the commands the drive sends, each of them lost, applied or applied
    again at a retry, while the other callbacks answer what they like; then the
    catalog and its revision are the same after [DriveSplitRegion] as before,
    whatever it returns, because the commands that prepare and commit the split
    carry no expected revision. *)
Theorem split_operators_never_split {W} (meta : W → t) env client id rid gen m w m' w' r :
  attached meta env client → revision_ (meta w) ≠ 0 →
  DriveSplitRegion env id rid gen (m, w) = ((m', w'), r) →
  regions_ (meta w') = regions_ (meta w) ∧ revision_ (meta w') = revision_ (meta w).
Proof.
  intros Hatt Hrev Hd.
  pose proof (keeps_DriveSplitRegion meta env client Hatt (regions_ (meta w)) _ id rid gen Hrev (m, w) (conj eq_refl eq_refl)) as H.
  by rewrite Hd in H.
Qed.

(** A move operator succeeds without a move: whatever the callbacks do and
    whichever commands get lost, driving a move operator leaves the peers of every
    Region where they were, although it removes the source peer and retires it;
    and after a success the Region is still in migration, so that no other
    operation on it is possible. *)
Theorem move_operators_never_move {W} (meta : W → t) env client id rid from to m w m' w' r :
  attached meta env client →
  (∀ cmd w, delivers_once meta cmd w (Mutate client cmd w).1 (Mutate client cmd w).2) →
  revision_ (meta w) ≠ 0 → revision_ (meta w) < u64_max →
  dedup_ (meta w) !! ("move-peer:prepare:" +:+ id) = None →
  DriveMovePeer env id rid from to (m, w) = ((m', w'), r) →
  peers <$> regions_ (meta w') = peers <$> regions_ (meta w) ∧
  (r = Ok Success → is_Some (migrations_ (meta w') !! rid)).
Proof.
  intros Hatt Honce Hrev Hmax Hnew Hd.
  destruct (triple_DriveMovePeer meta env client Hatt (placement (meta w)) id rid from to Honce (m, w)) as (H1 & _ & H3);
    [by split_and!|]. rewrite Hd in H1, H3. by split.
Qed.

(** ** Evaluation *)

Import AutoBalancer.

(** The evidence of a Region in one pass is at most one. *)
Lemma split_region_first snapshot view scores region acc :
  acc.1 !! u64_of_int (regionId region) = None → 2 ≤ cf_splitconsecutivewindows (view_balancerConfig view) →
  pn_plans (split_region snapshot view scores region acc).2 = pn_plans acc.2.
Proof.
  destruct acc as [windows st]. intros Hw Hc. unfold split_region. cbn [fst snd] in *. rewrite Hw. cbn [default].
  destruct (above_threshold _ _); [|done]. cbn [negb orb].
  by rewrite (proj2 (N.ltb_lt (inc32 0) _)) by (change (inc32 0) with 1; lia).
Qed.

Lemma split_first snapshot view scores rest acc :
  (∀ r, r ∈ rest → acc.1 !! rid r = None) → NoDup (rid <$> rest) →
  2 ≤ cf_splitconsecutivewindows (view_balancerConfig view) →
  pn_plans (split snapshot view scores rest acc).2 = pn_plans acc.2.
Proof.
  intros Hw Hnd Hc. revert acc Hw. unfold split. induction rest as [|region rest IH]; intros acc Hw; [done|].
  csimpl in Hnd. apply NoDup_cons in Hnd as [Hr Hnd]. cbn [foldl]. rewrite IH; [|done|].
  - apply split_region_first; [apply Hw; left|done].
  - intros r Hin. destruct acc as [windows st]. unfold split_region. cbn [fst].
    fold (rid region). rewrite lookup_insert_ne; [apply Hw; by right|].
    intros E. apply Hr. rewrite E. by apply list_elem_of_fmap_2.
Qed.

Definition no_split (st : planning) : Prop := Forall (λ p, reason p ≠ AutomaticSplit) (pn_plans st).

Lemma repair_no_split traverse view scores now rest st :
  no_split st → no_split (repair traverse view scores now rest st).
Proof.
  revert st. induction rest as [|region rest IH]; intros st Hst; [done|]. cbn [repair].
  destruct (_ =? _); [done|]. apply IH. unfold repair_region. destruct (occupied _ _); [done|].
  destruct (voters _ _). destruct (_ || _); [done|]. destruct (_ =? _); [done|].
  apply Forall_app. split; [done|]. by constructor.
Qed.

Lemma balance_no_split traverse slots snapshot view scores regions st :
  no_split st → no_split (balance traverse slots snapshot view scores regions st).
Proof.
  revert st. induction slots as [|slots IH]; intros st Hst; [done|]. cbn [balance].
  destruct (extremes _ _ _ _) as [[source ss] [target ts]]. destruct (_ || _); [done|].
  destruct (find _ _); [|done]. apply IH. apply Forall_app. split; [done|]. by constructor.
Qed.

(** [C34] The Auto-Balancer never splits: every evaluation starts without evidence
    and drops what it gathers, so that with a threshold of two windows or more
    (the default is three) no plan of an evaluation is an automatic split. *)
Theorem evaluation_never_splits traverse s now p :
  rtc ostep initial s → revision_ s ≠ 0 → 2 ≤ cf_splitconsecutivewindows (balancerConfig_ s) →
  p ∈ plans (Plan traverse (evaluation_snapshot (View s) now)) → reason p ≠ AutomaticSplit.
Proof.
  intros Hi%run_minv Hrev Hc Hp. pose proof (mi_view _ Hi Hrev) as Hview.
  revert p Hp. rewrite <- Forall_forall. unfold Plan, evaluation_snapshot, View. rewrite Hview. simpl.
  destruct (_ || _); [done|]. set (st1 := repair _ _ _ _ _ _).
  pose proof (split_first (MkSchedulingSnapshot (Some (view_of s (Some (regions_ s)))) now ∅ ∅)
    (view_of s (Some (regions_ s))) (store_scores (view_of s (Some (regions_ s))) now) (regions_ s) (∅, st1)) as Hs.
  destruct (split _ _ _ _ _) as [windows st2]. cbn [fst snd plans] in *.
  rewrite merge_sort_Permutation. apply balance_no_split. unfold no_split.
  rewrite Hs; [apply repair_no_split; constructor|by intros; apply lookup_empty|by apply catalog_ids|done].
Qed.

(** [C35] An operator that has ended blocks its plan: while the revision stays the
    same, a plan made again has the identifier of the operator that failed or was
    cancelled, the state machine answers with the old operator, and the evaluation
    changes no operator and submits no other plan. *)
Theorem spent_operator_blocks traverse s now top rest o m :
  plans (Plan traverse (evaluation_snapshot (View s) now)) = top :: rest →
  schedulingOperators_ s !! so_operatorid (operation top) = Some o →
  let s' := (EvaluateOnce traverse true (Some (View s)) now (Some Apply) m s).2 in
  schedulingOperators_ s' = schedulingOperators_ s ∧
  activeOperatorByRegion_ s' = activeOperatorByRegion_ s ∧ same_topology s s'.
Proof.
  intros Hp Ho. cbv zeta. unfold EvaluateOnce. cbn [negb].
  destruct (negb _ || _); [by split_and!|]. rewrite Hp.
  set (cmd := submission _ _).
  assert (quiet s (handle cmd s).1) as Hq.
  { unfold cmd, handle, submission. cbn [command]. unfold CreateSchedulingOperatorLocked. run.
    destruct (_ || _); [by apply quiet_refl|]. destruct (negb _); [by apply quiet_refl|]. rewrite Ho.
    destruct (_ || _); by apply quiet_refl. }
  assert (∃ m0 d order, (Apply cmd s).1 = set_metrics m0 (set_dedup d order s)) as (m0 & d & order & E).
  { destruct (Apply_cases cmd s) as [[_ [m0 ->]]|(_ & _ & s1 & H1 & _ & _ & ->)];
      [by exists m0, (dedup_ s), (dedupOrder_ s)|].
    unfold ApplyLocked in H1. destruct (handle cmd s) as [s2 [r|w]]; destruct Hq as [m0 Hq]; simpl in Hq; subst s2;
      injection H1 as -> _; unfold RecordResultLocked; by eexists _, _, _. }
  destruct (Apply cmd s) as [s' r]. simpl in E. subst s'. simpl. by split_and!.
Qed.

(** ** The irreversible point *)

(** Storing an operator over a valid catalog succeeds. *)
Lemma store_operator_ok s id o release :
  minv s → revision_ s ≠ 0 →
  ∃ s' r, store_operator id o release s = (s', Ok r) ∧ schedulingOperators_ s' = <[id := o]> (schedulingOperators_ s).
Proof.
  intros Hi Hrev. destruct (du_valid _ (mi_durable _ Hi) Hrev) as [Hcat _].
  unfold store_operator, PublishLocked. run. cbn [regions_ set_operators].
  rewrite bool_decide_eq_false_2 by (intros E; pose proof (vc_covers _ Hcat) as Hc; by rewrite E in Hc).
  rewrite (valid_make _ Hcat). by eexists _, _.
Qed.

(** A command whose handler stores an operator. *)
Lemma Apply_stores cmd s id o release :
  minv s → revision_ s ≠ 0 → executed cmd s → handle cmd s = store_operator id o release s →
  schedulingOperators_ (Apply cmd s).1 !! id = Some o.
Proof.
  intros Hi Hrev Hex Hh. destruct (store_operator_ok s id o release Hi Hrev) as (s1 & r1 & Hst & Hops).
  destruct (Apply cmd s) as [s' r] eqn:HA.
  destruct (Apply_executed _ _ _ _ Hex HA) as (s2 & res & Hh' & Hres). rewrite Hh, Hst in Hh'.
  injection Hh' as <- <-. destruct Hres as [_ ->]. cbn [fst]. unfold RecordResultLocked. cbn [schedulingOperators_ set_dedup].
  by rewrite Hops, lookup_insert_eq.
Qed.

(** A phase update that meets its guards. *)
Lemma handle_update s id cur ep p a l ir now :
  schedulingOperators_ s !! id = Some cur → so_phase cur = ep →
  ValidTransition ep p = true → so_attempts cur ≤ a → so_updatedatms cur ≤ now →
  handle (update_command id ep p a l ir now) s =
    store_operator id (so_progress p a l (so_cancelrequested cur) (so_irreversible cur || ir) now cur) (IsTerminal p) s.
Proof.
  intros Hid Hep Hv Ha Hn. unfold handle, update_command. cbn [command].
  unfold UpdateSchedulingOperatorLocked. unfold mbind, M_bind, get. cbn [expectedrevision N.eqb negb andb].
  rewrite Hid. rewrite bool_decide_eq_true_2 by done. cbn [negb].
  by rewrite Hep, Hv, (proj2 (N.ltb_ge _ _) Ha), (proj2 (N.ltb_ge _ _) Hn).
Qed.

Lemma handle_cancel s id cur mid now :
  schedulingOperators_ s !! id = Some cur → so_phase cur = SCHEDULING_OPERATOR_WAITING → so_irreversible cur = false →
  ∃ o, so_phase o = SCHEDULING_OPERATOR_CANCELLING ∧
    handle (MkCommand mid 0 (CancelSchedulingOperator id now)) s = store_operator id o false s.
Proof.
  intros Hid Hp Hirr. unfold handle. cbn [command]. unfold CancelSchedulingOperatorLocked.
  unfold mbind, M_bind, get. cbn [expectedrevision N.eqb negb andb]. rewrite Hid, Hp, Hirr.
  cbn [IsTerminal]. eexists. split; [|reflexivity]. done.
Qed.

(** The irreversible point is not recorded.  The update that follows the
    promotion of the learner has the mutation identifier of the update that
    started the wait, and is answered from the record of it: the operator can
    still be cancelled. *)
Theorem promotion_stays_cancellable s id cur now1 now2 now3 mid :
  rtc ostep initial s → revision_ s ≠ 0 →
  schedulingOperators_ s !! id = Some cur → so_phase cur = SCHEDULING_OPERATOR_DISPATCHING →
  so_irreversible cur = false → so_attempts cur ≤ 1 → so_updatedatms cur ≤ now1 →
  let waiting := update_command id SCHEDULING_OPERATOR_DISPATCHING SCHEDULING_OPERATOR_WAITING 1 EmptyString false now1 in
  let promoted := update_command id SCHEDULING_OPERATOR_WAITING SCHEDULING_OPERATOR_WAITING 1 EmptyString true now2 in
  dedup_ s !! mutationid waiting = None → orderly waiting s →
  let s1 := (Apply promoted (Apply waiting s).1).1 in
  dedup_ s1 !! mid = None → mid ≠ EmptyString →
  so_phase <$> schedulingOperators_ (Apply (MkCommand mid 0 (CancelSchedulingOperator id now3)) s1).1 !! id =
    Some SCHEDULING_OPERATOR_CANCELLING.
Proof.
  intros Hr Hrev Hid Hph Hirr Hatt Hnow waiting promoted Hnew Hord s1 Hmid Hne.
  pose proof (run_minv _ Hr) as Hi. pose proof (ostep_dedup _ Hr) as Hdd.
  assert (minv (Apply waiting s).1) as Hi1 by (by apply Apply_minv).
  assert (schedulingOperators_ (Apply waiting s).1 !! id =
    Some (so_progress SCHEDULING_OPERATOR_WAITING 1 EmptyString (so_cancelrequested cur) false now1 cur)) as Hup.
  { eapply Apply_stores; [done|done|by split|]. unfold waiting. rewrite (handle_update _ _ cur) by done. by rewrite Hirr. }
  destruct (Apply_update_topology id SCHEDULING_OPERATOR_DISPATCHING SCHEDULING_OPERATOR_WAITING 1 EmptyString false now1 s)
    as [_ Hrev1 _]. fold waiting in Hrev1.
  assert (s1 = count_dedup (Apply waiting s).1) as Es1.
  { destruct (Apply_records waiting s Hdd) as [_ (rec & Hrec & _)]; [discriminate|done|by apply Nat.ltb_lt; vm_compute|].
    subst s1. unfold Apply at 1. change (mutationid promoted) with (mutationid waiting).
    rewrite (proj2 (String.eqb_neq (mutationid waiting) EmptyString)) by discriminate. by rewrite Hrec. }
  set (s0 := (Apply waiting s).1) in *. clearbody s1 s0. subst s1.
  destruct (handle_cancel (count_dedup s0) id _ mid now3 Hup) as (o & Ho & Hh); [done|done|].
  assert (minv (count_dedup s0)) as Hi2 by (eapply quiet_minv; [by eexists|done]).
  assert (revision_ (count_dedup s0) ≠ 0) as Hrev2 by (simpl; congruence).
  assert (executed (MkCommand mid 0 (CancelSchedulingOperator id now3)) (count_dedup s0)) as Hex by done.
  rewrite (Apply_stores _ _ _ _ _ Hi2 Hrev2 Hex Hh). simpl. by rewrite Ho.
Qed.

(** ** A concrete run *)

Module DriveDemo.
Import MetaDemo OrderlyDemo BalancerDemo.

(** The metadata service answers at once, and every callback succeeds. *)
Definition service : MetadataClient t :=
  MkMetadataClient (λ cmd s, let '(s', r) := Apply cmd s in (s', Ok r))
    (λ rid s, (s, match MetadataStateMachine.LookupRegion s rid with
                  | Some r => Ok (r, view_revision (View s))
                  | None => Throw "region not found"
                  end)).
Definition calm : environment t :=
  MkEnvironment (Some service) (λ s, (s, 2000)) None (Some (λ _ _ s, (s, true)))
    (Some (λ _ _ _ _ s, (s, true))) (Some (λ _ _ _ s, (s, true))) (Some (λ _ _ _ s, (s, true)))
    (Some (λ _ _ _ _ s, (s, true))) (Some (λ _ s, (s, true))) (Some (λ _ _ s, (s, "m"))).

Lemma calm_once cmd (s : t) : delivers_once (λ s, s) cmd s (Mutate service cmd s).1 (Mutate service cmd s).2.
Proof.
  simpl. destruct (Apply cmd s) as [s' r] eqn:E. unfold delivers_once. rewrite E. simpl.
  split; [by right|]. by intros res [= <-].
Qed.

Lemma calm_attached : attached (λ s, s) calm service.
Proof.
  split; try done; try by intros f [= <-].
  intros cmd s. exists 1%nat. simpl. destruct (Apply cmd s) as [s' r] eqn:E. split; [done|].
  intros res [= <-] _. exists 0%nat. split; [lia|]. simpl. by rewrite E.
Qed.

Definition zero : CoordinatorMetrics := MkCoordinatorMetrics 0 0 0 0 0 0 0 0 0.
Definition splitting : t := run [create "x"] booted.
Definition split_run := DriveSplitRegion calm "x" 1 1 (zero, splitting).

Lemma split_operators_never_split_witness :
  split_run.2 = Ok Success ∧
  so_phase <$> schedulingOperators_ split_run.1.2 !! "x" = Some SCHEDULING_OPERATOR_SUCCEEDED ∧
  regions_ split_run.1.2 = regions_ splitting ∧ revision_ split_run.1.2 = revision_ splitting.
Proof.
  split; [vm_compute; reflexivity|]. split; [vm_compute; reflexivity|].
  apply (split_operators_never_split (λ s, s) calm service "x" 1 1 zero splitting split_run.1.1 split_run.1.2 split_run.2).
  - exact calm_attached.
  - vm_compute. discriminate.
  - fold split_run. by destruct split_run as [[m s] r].
Defined.

(** The operator that the balancer creates for the skewed cluster. *)
Definition balancing : t :=
  (EvaluateOnce map_to_list true (Some (View skewed)) 1000 (Some Apply) (MkBalancerMetrics 0 0 0 0 0) skewed).2.
Definition moving : string := "auto:1:1:balance:1:2".
Definition move_run := DriveMovePeer calm moving 1 1 2 (zero, balancing).

Lemma move_operators_never_move_witness :
  move_run.2 = Ok Success ∧
  so_phase <$> schedulingOperators_ move_run.1.2 !! moving = Some SCHEDULING_OPERATOR_SUCCEEDED ∧
  peers <$> regions_ move_run.1.2 = peers <$> regions_ balancing ∧ is_Some (migrations_ move_run.1.2 !! 1).
Proof.
  split; [vm_compute; reflexivity|]. split; [vm_compute; reflexivity|].
  destruct (move_operators_never_move (λ s, s) calm service moving 1 1 2 zero balancing
    move_run.1.1 move_run.1.2 move_run.2) as [H1 H2].
  - exact calm_attached.
  - exact calm_once.
  - vm_compute. discriminate.
  - vm_compute. reflexivity.
  - vm_compute. reflexivity.
  - fold move_run. by destruct move_run as [[m s] r].
  - split; [exact H1|]. apply H2. vm_compute. reflexivity.
Defined.

Lemma evaluation_never_splits_witness : reason top ≠ AutomaticSplit.
Proof.
  apply (evaluation_never_splits map_to_list skewed 1000 top).
  - exact skewed_orderly.
  - vm_compute. discriminate.
  - vm_compute. discriminate.
  - change (top ∈ planned). rewrite (proj1 planned_top). left.
Defined.

(** The operator is dispatched and fails; the revision is unchanged. *)
Definition fail_it : MetadataCommand :=
  update_command moving SCHEDULING_OPERATOR_PENDING SCHEDULING_OPERATOR_FAILED 1 "deadline" false 1500.
Definition spent : t := run [fail_it] balancing.

Definition again : SchedulingPlan := hd no_plan (plans (Plan map_to_list (evaluation_snapshot (View spent) 2000))).

Definition spent_operator : SchedulingOperator := default (op EmptyString) (schedulingOperators_ spent !! moving).

Lemma spent_operator_blocks_witness :
  so_phase <$> schedulingOperators_ spent !! moving = Some SCHEDULING_OPERATOR_FAILED ∧
  schedulingOperators_ (EvaluateOnce map_to_list true (Some (View spent)) 2000 (Some Apply)
    (MkBalancerMetrics 0 0 0 0 0) spent).2 = schedulingOperators_ spent.
Proof.
  split; [vm_compute; reflexivity|].
  apply (spent_operator_blocks map_to_list spent 2000 again [] spent_operator).
  - vm_compute. reflexivity.
  - vm_compute. reflexivity.
Defined.

Definition dispatch : MetadataCommand :=
  update_command moving SCHEDULING_OPERATOR_PENDING SCHEDULING_OPERATOR_DISPATCHING 1 EmptyString false 1500.
Definition dispatched : t := run [dispatch] balancing.

Lemma balancing_orderly : rtc ostep initial balancing.
Proof.
  eapply rtc_r; [exact skewed_orderly|].
  assert (balancing = (Apply (submission (View skewed) top) skewed).1) as -> by (vm_compute; reflexivity).
  apply OStep. orderly_now.
Qed.

(** As [orderly_now], for an update of an operator in flight. *)
Ltac orderly_update :=
  split; [split; vm_compute; first [reflexivity|discriminate]
         |intros i ep p a l ir u o [= <- <- <- <- <- <- <-]; vm_compute; intros [= <-]; reflexivity
         |intros s1 w; vm_compute; discriminate].

Lemma dispatched_orderly : rtc ostep initial dispatched.
Proof. eapply rtc_r; [exact balancing_orderly|]. apply (OStep dispatch). orderly_update. Qed.

Definition dispatched_operator : SchedulingOperator :=
  default (op EmptyString) (schedulingOperators_ dispatched !! moving).

Lemma promotion_stays_cancellable_witness :
  let waiting := update_command moving SCHEDULING_OPERATOR_DISPATCHING SCHEDULING_OPERATOR_WAITING 1 EmptyString false 1600 in
  let promoted := update_command moving SCHEDULING_OPERATOR_WAITING SCHEDULING_OPERATOR_WAITING 1 EmptyString true 1700 in
  so_phase <$> schedulingOperators_ (Apply (MkCommand "c" 0 (CancelSchedulingOperator moving 1800))
    (Apply promoted (Apply waiting dispatched).1).1).1 !! moving = Some SCHEDULING_OPERATOR_CANCELLING.
Proof.
  apply (promotion_stays_cancellable dispatched moving dispatched_operator 1600 1700 1800 "c").
  - exact dispatched_orderly.
  - vm_compute. discriminate.
  - vm_compute. reflexivity.
  - vm_compute. reflexivity.
  - vm_compute. reflexivity.
  - vm_compute. discriminate.
  - vm_compute. discriminate.
  - vm_compute. reflexivity.
  - orderly_update.
  - vm_compute. reflexivity.
  - discriminate.
Defined.

End DriveDemo.
